(* ===== verification/_CoqProject ===== *)
-Q . S2P
Prelude.v
SortedMap.v
Bytes.v
Text.v
Opcode.v
Kernel.v
Reader.v
Printer.v
ReaderFacts.v
ReaderRuns.v
ReaderNodes.v
PrinterFacts.v
DefinitionForms.v
Destructure.v
Vector.v
VectorFacts.v
Bits.v
HashMap.v
HashMapFacts.v
Deque.v
DequeFacts.v
ChunkList.v
ChunkListFacts.v
Queue.v
QueueFacts.v
Trie.v
TrieFacts.v
Task.v
Promises.v
Adoption.v
Program.v
Scope.v
Compiler.v
Numeric.v
NumericFacts.v
NumericHash.v
NumericHashFacts.v
Portable.v
PortableOrder.v
PortableNormal.v
PortableFacts.v
Captures.v
Validate.v
Lowering.v
Frame.v
Machine.v
Evaluation.v
CoreCode.v
Scheduler.v
SchedulerFacts.v
Safety.v
Runs.v
Segments.v
CompilerFacts.v
CompilerRuns.v
CoreFacts.v
CoreRuns.v
Fiber.v
Artifact.v
Roundtrip.v
Bundle.v
BundleFacts.v
Container.v
