(* ===== verification/Prelude.v ===== *)
(** * hara-native: a verification library for the Rust core

    The repository's core runtime ([src/core/rust/src]) reads Hara source,
    compiles it to programs for a bytecode virtual machine, validates and
    persists them, and executes them over persistent data structures and
    promises. This library models the reader and the printer of source forms,
    the bytecode compiler, the path a program takes once it has been compiled -
    validation, encoding and decoding, execution -, the promises its
    asynchronous functions return and the scheduler that resumes them, the
    arithmetic of numbers and their hashes, the wire format of portable values,
    and the persistent collections its
    values are made of (vector, list, queue, deque, trie, hash map and sorted
    map), and proves what each part promises to the next.

    ** Files and the code they model

    - [Prelude]: results, stateful computations ([prog]), Rust's [Ord], list
      lemmas.
    - [SortedMap]: [lang/data/sorted_map.rs], the persistent weighted red-black
      tree. A map is a [Link] with the counts of its nodes; [assoc_value],
      [dissoc_value], [slice_standard] and the rank queries carry the names of
      the source's methods; [None] is a panic.
    - [Vector], [VectorFacts]: [lang/data/vector.rs], the 32-way trie with its
      tail; [Mutable] is the transient, [Iter] the chunked iterator, [SubView]
      the view. [rep v l] says that a vector holds a list.
    - [Bits]: bitmaps, population count, [Vec::insert] and [Vec::remove].
    - [HashMap], [HashMapFacts]: [lang/data/map.rs], the compressed hash trie.
      [holds] relates a node to the list of its entries; [Key] is the interface
      to a key's [Eq] and [Hash].
    - [Deque], [DequeFacts]: [lang/data/deque.rs], a finger tree measured by its
      number of elements; [None] is a panic or a failed debug assertion.
    - [ChunkList], [ChunkListFacts]: [lang/data/list.rs], the chain of 32-slot
      chunks ([rep]) and the ring buffer of the transient list ([ring_ok]).
    - [Queue], [QueueFacts]: [lang/data/queue.rs], a head, segments and a tail
      over [Vector] and [ChunkList]; [queue_ok] relates it to a list.
    - [Trie], [TrieFacts]: [lang/data/trie.rs]; a key is the list of its
      characters, [to_map] the finite map a trie stands for.
    - [Bytes]: the [Reader] and [Writer] of [vm/artifact.rs], with the
      round-trip calculus ([codec]) and the fuel calculus ([steady]).
    - [Text]: the characters and strings of the source: UTF-8 ([encode],
      [decode]), decimal text, the reading of floats; [TextEnv] is the interface
      to the Unicode tables and number formatting, [TextLaws] what is relied on.
    - [Reader]: [kernel/reader.rs] and [kernel/parser.rs]. The source is a list
      of characters, strings inside forms are their UTF-8 bytes; [read_form]
      reads one form with its span.
    - [Printer]: the [Display] of forms in [kernel/form.rs].
    - [ReaderFacts], [ReaderRuns], [PrinterFacts]: the reader's invariant
      ([reader_at]: a reader is a place in its source), a calculus of what a
      reading method keeps ([hoare]) and one of what it yields on text it is
      given ([runs]), and the claims about reading and printing.
    - [ReaderNodes]: the nodes the parser keeps are those of the form's elements.
    - [Opcode]: [vm/opcode.rs], instructions and their stack effects.
    - [Kernel]: the data programs carry: reader forms, schemas, metadata,
      keyword and symbol names, runtime values ([kernel/form.rs],
      [kernel/schema.rs], [lang/data/keyword.rs], [lang/data/metadata.rs],
      [core/value.rs]).
    - [Task]: [task/promise.rs]. [Store] holds the promise cells, the queue of
      continuations and the progress registry of a thread; a method is a
      [script], a program over that store which may run guest code (hooks,
      continuations, delayed tasks, pollers, waiters) through the [Host]
      interface; [perform] runs scripts.
    - [Promises]: invariants of every run of scripts, by the calculus [keeps].
    - [Adoption]: the cycle check, adoption, and waiting on a delayed promise.
    - [Program]: [vm/program.rs] and [vm/source_map.rs].
    - [Validate]: [vm/validate.rs]. [analyse] is the worklist loop of the
      source's [stack_heights], [visit] its body; the declarative side is
      [well_stacked], [handler_table_ok] and [valid_program].
    - [DefinitionForms]: the helpers of [core/form.rs] the compiler calls: the
      metadata of definitions, forwarding definitions, names to bind.
    - [Destructure]: [vm/compiler/destructure.rs], the rewriting of patterns.
    - [Scope]: [vm/compiler/scope.rs], with the environment a scope stack
      represents ([represents], [scopes_ok]).
    - [Compiler]: the state of a compilation ([vm/compiler.rs], a record over the
      runtime's state) and its elementary operations: emission, patching, the
      constant pool, the visibility of globals ([compiler/globals.rs]).
      [CompilerEnv] is the interface to macro expansion, the namespace registry,
      literal values and the folding of intrinsics. A compilation stops with an
      error, a panic ([Crashed]), the failure of the debug assertion of [emit]
      ([Asserted]), or without fuel ([Exhausted]).
    - [Numeric]: [numeric.rs] and the operators, bit operations and conversions of
      [core/primitive.rs]. A double is its bits; [scaled], in [NumericFacts], is
      the number a value stands for, in units of 2^-1074.
    - [NumericHash], [NumericHashFacts]: the hashes of plain values, numbers and
      collections of [lang/hash/mod.rs], [numeric_hash], and what [Value::hash]
      writes for a number ([core/value.rs]).
    - [Portable]: HTA0 frames of portable values, the crate [crates/hta-codec]
      ([lib.rs]) over the values of [crates/abi]; [encode_value] writes into a
      buffer with a limit, [value] reads, [levels] is the nesting depth left.
      [PortableOrder]: sorting by keys and ordered maps. [PortableNormal]: the
      normal form of a value, and the calculus ([codes]) that relates what is
      written, its normal form and what is read. [PortableFacts]: the claims.
    - [Captures]: the walk for free names of [compiler/functions.rs].
    - [Lowering]: the lowering of every form ([vm/compiler.rs] and the other
      files of [vm/compiler]); a method that compiles children takes the
      recursive occurrence of [compile_form] as a variable of its section.
    - [Segments]: the calculus of compiled code. [seg] types the instructions
      between two places by the operand heights at both; [yields] says what a
      method adds to the code of the current function, [quiet] that it adds
      none; [patched], [pending] and [guarded] are the regions with jumps yet to
      be patched and the regions of a [try].
    - [CompilerFacts]: one lemma for each method of [Lowering];
      [CompilerRuns]: the finished program, the claims, and concrete
      compilations.
    - [Evaluation]: an evaluator of the core language, the meaning compiled
      programs are measured against; [CoreCode]: code of the machine that
      computes an evaluation ([computes]); [CoreFacts]: what the methods of
      [Lowering] emit for a core form computes its evaluation ([lowers]);
      [CoreRuns]: the claim about whole programs.
    - [Frame]: [vm/frame.rs] and [vm/slot.rs].
    - [Machine]: [vm/machine.rs] with [machine/dispatch.rs],
      [machine/globals.rs] and [machine/constants.rs]. A machine is a record
      over the runtime's state; each method is a [prog], each group of
      instructions a [dispatch_*] definition, [step] one iteration of the run
      loop. [Runtime] is the interface to [crate::core]: the machine is proved
      against it, for every implementation.
    - [Scheduler], [SchedulerFacts]: [vm/machine/async_runtime.rs], the children
      of an asynchronous run and the loop that resumes them, as scripts over
      the store of [Task]; its closures are numbered guest code, the rest of the
      guest is arbitrary. [sched_inv] holds of every state, [at_rest] when no
      poll is running.
    - [Safety]: the invariant of reachable machines ([machine_ok]) and its
      preservation, by a small calculus for methods that keep the frame.
    - [Runs]: the claims about runs, and the concrete programs behind them.
    - [Fiber]: [vm/fiber.rs], the lifetime of a resumable run; [FiberHost] is
      what it asks of the scheduler and of promises.
    - [Artifact]: the codecs of [vm/artifact.rs].
    - [Roundtrip]: the claims about artifacts.
    - [Bundle]: [vm/bundle.rs] and [vm/bundle/order.rs], the container of
      compiled modules, its canonical order and the order of compilation;
      [NamespaceForms] stands for the reader of namespace forms.
    - [BundleFacts]: both orders; [valid_bundle] is the declarative side of
      [validate_bundle_modules].
    - [Container]: the container codec, by readers that accept exactly what
      their writer produces ([exact]).

    ** How the parts fit together

    [Validate.validate_spec] turns a passed validation into the declarative
    facts ([valid_program]) that [Runs.validated_sound] hands to the machine's
    invariant; [Artifact.decode_program] runs the same [validate] on what it
    decoded, so a decoded program is one the machine's theorems apply to. A
    compiled program is one as well: [CompilerRuns] shows that it meets both
    conditions of [validated_sound]. The
    facts a component states about itself are lemmas of its file; the claims
    (numbered [C1], [C2], ...) are theorems nothing else depends on.

    ** What the theorems show

    - Reading returns a form or an error on every text; every span starts and
      ends where its form does, at the line and column of that place; what was
      read is well typed, and the parameters of an anonymous function bind its
      arguments. Reading what the printer printed yields the form again for
      every [readable] form; [PrinterFacts] has the forms for which it does not
      (a keyword under a tag, a Unicode space), and the reader's own defects (an
      argument spelled [%01], keys that collide after rewriting, a discard under
      a prefix); [hex_with_e_rejected] is another.
    - A compilation that returns a program has made one that validates and is
      self-contained, whatever macros expand to: each lowered form leaves one
      operand, jumps agree on heights, calls find their operands in their own
      frame, handlers are laminar, parameters and captures fit the slots. So no
      run of a compiled program panics. Scopes implement block-structured
      environments. [CompilerRuns] has the programs on which the compiler is
      wrong: a callee taken back from a branch, a shadowed self call, a [cond]
      without an end, emission behind a literal's element that does not return,
      malformed forms that panic.
    - A program compiled from a source of the core language (literals, local
      variables, [if], [do], [let], [and], [or], [loop] with [recur], primitive
      operators) returns, raises and leaves the runtime as [Evaluation] says of
      its forms, for every compilation that succeeds, in a runtime without
      namespaces whose macros leave these forms alone and whose folding of
      operators is what they compute ([plain_environment]). Functions, calls,
      [cond] and [try] are outside of it.
    - Integer arithmetic is that of unbounded integers, at every width and with
      any number of operands, and the comparisons of integers and doubles are
      those of the numbers, never of rounded ones; conversions accept exactly
      what fits. Equal numbers hash alike when the text of a double is exact,
      and decimal texts hash as in Java; [rounded_text_hash] and
      [wide_magnitude_hash] have the numbers for which neither holds.
    - A frame of a portable value decodes to the value's normal form and to
      nothing else, and the normal form has the same frame; the canonical decoder
      accepts exactly the frames of normal forms, which makes frames and normal
      forms one to one; values of the provider ABI survive the trip.
      [PortableDemo] has what the encoder accepts and the decoder does not: an
      empty [Cons], a source line of 2^63.
    - Validation decides exactly the declarative notion of a valid program and
      never panics; its analysis finds the one consistent assignment of
      operand-stack heights.
    - On a validated program whose operands stay in their frames
      ([self_contained]) no run panics, whatever the runtime answers, however
      often the machine is suspended and resumed; unwinding enters the
      innermost handler that takes the error; the specialised static call is
      the general one. The theorem [Runs.validation_gaps] shows that the extra condition is
      needed: [validate] accepts programs that read their caller's operands,
      underflow, or panic.
    - Instructions have exactly one encoding; decoding inverts encoding on
      portable programs; a decoded artifact is authenticated and valid; the
      decoder's only panic is an invalid keyword in Var metadata, which the
      encoder can produce.
    - A fiber of such a program never panics under any sequence of its host's
      operations, has a promise exactly while it is suspended, and is final once
      it completed, failed or was cancelled.
    - Ordering sources returns a dependency-first order or finds a cycle; the
      canonical order of a bundle exists exactly when a valid order does and
      depends only on the set of modules; a bundle decodes to its canonical
      modules, and decoding accepts nothing else than authentic bundles.
    - Whatever guest code runs, however deeply nested, a settled promise keeps
      its state, each of its subscriptions is called exactly once with that
      state, and a promise that adopted another does not outlive its
      settlement; adoption keeps the adoptions acyclic, except when the source's
      own task closes the cycle while it is being read.
    - When no poll is running, every child of the scheduler waits for a promise
      that is pending; each suspension is resumed at most once; every
      asynchronous call is either a child or settled. A wait nested in a poll
      does not end ([nested_wait_never_returns]).
    - The vector implements lists and the hash map finite maps, for any
      equivalence of keys that respects their hashes: no operation panics on a
      well-formed structure, transient and owned updates agree with the
      persistent ones, iteration and equality are exact.
    - The deque and the list implement lists at both ends and by index, the ring
      buffer a list through wrapping and growing, the trie finite maps from
      strings with one tree per map. The queue implements lists but for one
      operation: removing the last element when the tail is empty and a segment
      is buffered leaves the element to be iterated and indexed
      ([queue_pop_last_keeps_element]).
    - The sorted map's updates, queries, slices, iteration and transient
      sessions agree with the ordered list of entries and keep the tree
      balanced, except that a slice may be unbalanced.

    ** Integers, fuel and bounds

    Operands are unsigned machine integers kept as [N] within the widths
    [instruction_typed] and [function_typed] state; [i64] values are [Z] with
    their two's complement at the byte boundary; a [usize] that counts elements
    in memory is a [nat]. The worklist of [analyse] has fuel for every push the
    code can make, and [validate_total] shows that it suffices. The recursive
    readers of [Artifact] have a unit of fuel per payload byte;
    [decode_fuel_adequate] shows that more changes nothing. The run loop has
    fuel because guest programs may run forever; its theorems hold for every
    amount. [compile_form] has a unit of fuel per level of nesting, because
    macros may expand forever, and [collect_free] the same; a compilation
    reports that it ran out. The evaluator's fuel bounds nesting and turns of
    loops; without it an evaluation is [Outside], of which nothing is said.
    [read_one] has a unit of fuel per character and one more, which
    suffices on every text. The scheduler is proved for fewer than 2^64
    children; its fuel bounds how deeply its polls nest. The fuel of [perform] bounds how deeply calls of guest code nest;
    [perform_more] shows that more changes nothing. A vector's recursion is on
    the depth its shift states. A hash trie has at most [DEPTH] levels, one per
    five bits of a 64-bit hash; its operations return a result at that fuel. The
    depth-first visit has a unit of fuel per module and one more, the canonical
    order's loop a unit per module; both return at that fuel. Lists and queues
    are proved for fewer than 2^62 elements ([below]), where the doubled capacity of
    the ring fits a [usize]; draining a list takes a unit of fuel per element and
    one more, cutting a ring into chunks a unit per element. Portable values are
    written and read to [MAX_NESTING_DEPTH], as in the source: the levels left
    are the recursion's fuel, and running out of them is the source's error.

    In-place updates of uniquely owned nodes are modelled by their value: an
    edit token, and for vectors an oracle for unique ownership, decide between
    reuse and copy, and the theorems hold for every answer.

    ** What is not modelled

    The tracing JIT, instrumentation and observation (optional features that
    do not change results); the scheduler's captured callback context and its
    release (a scheduler is alive as long as its calls), and callbacks handed to
    native code ([coroutine_runtime.rs]); the intern tables of keywords and symbols (two
    names with the same text are one, so a name is its text); object identity
    and the structural hashes of collections; native stack exhaustion and
    allocation failure (a shift of an integer by a huge distance included). Of
    numbers, the transcendental functions and the dispatch of intrinsics by name
    are left out, of hashes the rapid, Murmur3 and SipHash functions. SHA-256, arbitrary-precision decimal text, the Unicode
    alphabetic table, the shortest text of a float, and for artifacts the text
    of forms and the codec of runtime values ([hta.rs]) are parameters, with their documented
    round trips as hypotheses, instantiated in [Roundtrip]. Of bundles, compiling
    modules and loading them into a runtime are not modelled, nor the capacity
    [decode_bytecode_bundle] reserves for the declared number of modules; of
    fibers, [start_call]. Of the compiler, the entry
    points that rewrite forms by a namespace configuration and those of declared
    modules, and the arity check of the latter, are not modelled. Nor are the
    instructions' text form and the disassembler, the codec of runtime values
    and the borrowed views of frames ([hta-codec/src/view.rs]), the ordered and priority maps, the tree evaluator and the rest of [core], which
    the machine reaches through [Runtime], the namespace registry, and the parts
    that only move bytes in and out: command line, packages, host bindings. *)
From stdpp Require Export base tactics option list strings pretty gmap sets fin_sets fin_map_dom sorting.
From Stdlib Require Export ZArith Lia.

Create HintDb hara discriminated.

(** ** Results

    [Result<T, E>] of the source: errors are values, never effects. *)
Inductive result (E A : Type) : Type :=
| Ok (value : A)
| Err (error : E).
Arguments Ok {E A} _.
Arguments Err {E A} _.

#[export] Instance result_ret E : MRet (result E) := λ _ x, Ok x.
#[export] Instance result_bind E : MBind (result E) :=
  λ _ _ f m, match m with Ok x => f x | Err e => Err e end.
#[export] Instance result_fmap E : FMap (result E) :=
  λ _ _ f m, match m with Ok x => Ok (f x) | Err e => Err e end.

(** [map_err] of the source. *)
Definition map_err {E F A} (f : E → F) (m : result E A) : result F A :=
  match m with Ok x => Ok x | Err e => Err (f e) end.

(** [ok_or] of the source. *)
Definition ok_or {E A} (m : option A) (e : E) : result E A :=
  match m with Some x => Ok x | None => Err e end.

(** [Option::is_some]. *)
Definition is_some {A} (o : option A) : bool := match o with Some _ => true | None => false end.

(** ** Total orders

    Rust's [Ord]: a three-way comparison whose [Equal] is an equivalence that
    may be coarser than equality (the runtime's numeric values compare equal
    across representations). *)
Class Ord (K : Type) := ord_cmp : K → K → comparison.

Class OrdLaws (K : Type) `{Ord K} : Prop := {
  ord_refl x : ord_cmp x x = Eq;
  ord_flip x y : ord_cmp y x = CompOpp (ord_cmp x y);
  ord_trans c x y z : ord_cmp x y = c → ord_cmp y z = c → ord_cmp x z = c;
}.

#[export] Instance Z_ord : Ord Z := Z.compare.
#[export] Instance Z_ord_laws : OrdLaws Z.
Proof.
  split; unfold ord_cmp, Z_ord.
  - apply Z.compare_refl.
  - intros x y. apply Z.compare_antisym.
  - intros [] x y z; rewrite ?Z.compare_eq_iff, ?Z.compare_lt_iff, ?Z.compare_gt_iff; lia.
Qed.

Section ord_facts.
Context {K} `{OrdLaws K}.

Lemma ord_lt_gt x y : ord_cmp x y = Lt ↔ ord_cmp y x = Gt.
Proof. rewrite (ord_flip x y). destruct (ord_cmp x y); naive_solver. Qed.

Lemma ord_eq_sym x y : ord_cmp x y = Eq ↔ ord_cmp y x = Eq.
Proof. rewrite (ord_flip x y). destruct (ord_cmp x y); naive_solver. Qed.

Lemma ord_eq_lt x y z : ord_cmp x y = Eq → ord_cmp y z = Lt → ord_cmp x z = Lt.
Proof.
  intros Hxy%ord_eq_sym Hyz. destruct (ord_cmp x z) eqn:Hxz; [exfalso|done|exfalso].
  - pose proof (ord_trans _ _ _ _ Hxy Hxz). congruence.
  - apply ord_lt_gt in Hxz. pose proof (ord_trans _ _ _ _ Hyz Hxz). congruence.
Qed.

Lemma ord_lt_eq x y z : ord_cmp x y = Lt → ord_cmp y z = Eq → ord_cmp x z = Lt.
Proof.
  intros Hxy Hyz%ord_eq_sym. destruct (ord_cmp x z) eqn:Hxz; [exfalso|done|exfalso].
  - pose proof (ord_trans _ _ _ _ Hxz Hyz). congruence.
  - apply ord_lt_gt in Hxz. pose proof (ord_trans _ _ _ _ Hxz Hxy). congruence.
Qed.
End ord_facts.

(** ** List lemmas *)
Section list_facts.
Context {A : Type}.

Lemma filter_Forall_id (P : A → Prop) `{∀ x, Decision (P x)} l :
  Forall P l → filter P l = l.
Proof. induction 1 as [|x l Hx _ IH]; [done|]. rewrite filter_cons_True, IH; done. Qed.

Lemma filter_Forall_nil (P : A → Prop) `{∀ x, Decision (P x)} l :
  Forall (λ x, ¬ P x) l → filter P l = [].
Proof. induction 1 as [|x l Hx _ IH]; [done|]. rewrite filter_cons_False, IH; done. Qed.

Lemma StronglySorted_mid (R : relation A) `{!Transitive R} l x r :
  StronglySorted R (l ++ x :: r) ↔
  StronglySorted R l ∧ StronglySorted R r ∧ Forall (λ y, R y x) l ∧ Forall (R x) r.
Proof.
  rewrite StronglySorted_app, StronglySorted_cons, !Forall_forall.
  setoid_rewrite elem_of_cons. split; [naive_solver|].
  intros (Hl & Hr & Hlx & Hxr). split_and!; try done.
  intros y z Hy [->|Hz]; [by apply Hlx|]. etrans; [by apply Hlx|by apply Hxr].
Qed.
End list_facts.

(** ** Stateful computations

    A method taking [&mut self] and returning [Result<A, E>]: the state is
    kept on failure too, as a caller that recovers from the error sees it. *)
Definition prog (S E A : Type) : Type := S → result E A * S.

#[export] Instance prog_ret S E : MRet (prog S E) := λ _ x s, (Ok x, s).
#[export] Instance prog_bind S E : MBind (prog S E) :=
  λ _ _ f m s,
    match m s with
    | (Ok x, s') => f x s'
    | (Err e, s') => (Err e, s')
    end.

#[export] Instance prog_fmap S E : FMap (prog S E) := λ _ _ f m, x ← m; mret (f x).

Definition fail {S E A} (e : E) : prog S E A := λ s, (Err e, s).
Definition lift {S E A} (m : result E A) : prog S E A := λ s, (m, s).
Definition gets {S E A} (f : S → A) : prog S E A := λ s, (Ok (f s), s).
Definition modify {S E} (f : S → S) : prog S E () := λ s, (Ok tt, f s).

(** A [for] loop over a slice whose body may fail. *)
Definition each {S E A} (f : A → prog S E ()) : list A → prog S E () :=
  fix each l :=
    match l with
    | [] => mret tt
    | x :: l => f x;; each l
    end.

(** [for _ in 0..n] collecting results. *)
Fixpoint times {S E A} (n : nat) (m : prog S E A) : prog S E (list A) :=
  match n with
  | 0 => mret []
  | S n => x ← m; xs ← times n m; mret (x :: xs)
  end.

Lemma prog_bind_ok {S E A B} (m : prog S E A) (f : A → prog S E B) s s' y :
  (m ≫= f) s = (Ok y, s') ↔ ∃ x s0, m s = (Ok x, s0) ∧ f x s0 = (Ok y, s').
Proof.
  unfold mbind, prog_bind. destruct (m s) as [[x|e] s0]; naive_solver.
Qed.

Lemma each_ext {S E A} (f g : A → prog S E ()) l s :
  Forall (λ x, ∀ s, f x s = g x s) l → each f l s = each g l s.
Proof.
  intros H. revert s. induction H as [|x l Hx _ IH]; intros s; simpl; [done|].
  unfold mbind, prog_bind. rewrite Hx. destruct (g x s) as [[]]; auto.
Qed.

(** ** Results, continued *)
Lemma result_bind_ok {E A B} (m : result E A) (f : A → result E B) y :
  m ≫= f = Ok y ↔ ∃ x, m = Ok x ∧ f x = Ok y.
Proof. destruct m; cbn; naive_solver. Qed.

Lemma result_fmap_ok {E A B} (m : result E A) (f : A → B) y :
  f <$> m = Ok y ↔ ∃ x, m = Ok x ∧ f x = y.
Proof. destruct m; cbn; naive_solver. Qed.

Lemma map_err_ok {E F A} (g : E → F) (m : result E A) x : map_err g m = Ok x ↔ m = Ok x.
Proof. destruct m; cbn; naive_solver. Qed.

Lemma mapM_ok {E A B} (f : A → result E B) l ks :
  mapM f l = Ok ks ↔ Forall2 (λ x k, f x = Ok k) l ks.
Proof.
  revert ks. induction l as [|x l IH]; intros ks; simpl.
  - split; [intros [= <-]; constructor|by inversion 1].
  - rewrite result_bind_ok. split.
    + intros (k & Hk & (ks' & Hks & [= <-])%result_bind_ok). constructor; [done|by apply IH].
    + inversion 1 as [|? k ? ks' Hk Hks]; subst. exists k. split; [done|].
      apply IH in Hks. apply result_bind_ok. eauto.
Qed.

Lemma mapM_fmap_index {E A B C} (g : A → B) (f : B → result E C) l :
  mapM f (g <$> l) = mapM (λ x, f (g x)) l.
Proof. induction l as [|x l IH]; cbn; [done|]. by rewrite IH. Qed.

Lemma mapM_result_ext {E A B} (f g : A → result E B) l :
  Forall (λ x, f x = g x) l → mapM f l = mapM g l.
Proof. induction 1 as [|x l Hx _ IH]; cbn; [done|]. by rewrite Hx, IH. Qed.

(** ** Enumerated lists *)
Lemma imap_pair_snd {A} (l : list A) : (imap pair l).*2 = l.
Proof.
  apply list_eq. intros i. rewrite list_lookup_fmap, list_lookup_imap.
  by destruct (l !! i).
Qed.

Lemma elem_of_imap_pair {A} (l : list A) i x : (i, x) ∈ imap pair l ↔ l !! i = Some x.
Proof.
  rewrite list_elem_of_lookup. setoid_rewrite list_lookup_imap. split.
  - intros (j & (y & Hy & [= <- <-])%fmap_Some). done.
  - intros Hx. exists i. by rewrite Hx.
Qed.

Lemma sum_list_imap_insert {A} (w : nat → A → nat) l i x y :
  l !! i = Some x →
  sum_list (imap w (<[i := y]> l)) + w i x = sum_list (imap w l) + w i y.
Proof.
  revert w i. induction l as [|z l IH]; intros w [|i] Hx; [done..| |];
    cbn in Hx |- *; [injection Hx as ->; lia|].
  specialize (IH (w ∘ S) i Hx). cbn in IH. rewrite <-!Nat.add_assoc. f_equal. exact IH.
Qed.

Lemma sum_list_imap_le {A} (w w' : nat → A → nat) l :
  (∀ i x, l !! i = Some x → w i x ≤ w' i x) → sum_list (imap w l) ≤ sum_list (imap w' l).
Proof.
  revert w w'. induction l as [|z l IH]; intros w w' H; cbn; [done|].
  pose proof (H 0 z eq_refl). specialize (IH (w ∘ S) (w' ∘ S) (λ i x, H (S i) x)). cbn in *. lia.
Qed.

Lemma sum_list_imap_add {A} (w w' : nat → A → nat) l :
  sum_list (imap (λ i x, w i x + w' i x) l) = sum_list (imap w l) + sum_list (imap w' l).
Proof.
  revert w w'. induction l as [|z l IH]; intros w w'; cbn; [done|].
  specialize (IH (w ∘ S) (w' ∘ S)). unfold compose in *. cbn in *. lia.
Qed.

(** At most one index of the list matches, so its weight is counted once. *)
Lemma sum_list_imap_single {A} (i : nat) c (l : list A) :
  sum_list (imap (λ j _, if decide (i = j) then c else 0) l) ≤ c.
Proof.
  revert i. induction l as [|z l IH]; intros i; cbn; [lia|].
  destruct (decide (i = 0)) as [->|Hi].
  - assert (sum_list (imap ((λ j _, if decide (0 = j) then c else 0) ∘ S) l) = 0) as ->; [|lia].
    clear IH. change ((λ j (_ : A), if decide (0 = j) then c else 0) ∘ S) with (λ (j : nat) (_ : A), 0).
    induction l as [|? l IH]; cbn; [done|]. exact IH.
  - specialize (IH (pred i)). etrans; [|exact IH]. apply Nat.eq_le_incl. rewrite Nat.add_0_l. f_equal.
    apply imap_ext. intros j x _. cbn. repeat case_decide; lia.
Qed.

Lemma Forall2_lookup_elem {A B} (R : A → B → Prop) l k :
  Forall2 R l k →
  (∀ x, x ∈ l → ∃ y, y ∈ k ∧ R x y) ∧ (∀ y, y ∈ k → ∃ x, x ∈ l ∧ R x y).
Proof.
  induction 1 as [|x y l k Hxy _ [IH1 IH2]]; split.
  - by intros x ?%elem_of_nil.
  - by intros x ?%elem_of_nil.
  - intros x' [->|Hx]%elem_of_cons; [exists y; split; [left|done]|].
    destruct (IH1 x' Hx) as (y' & ? & ?). exists y'. split; [by right|done].
  - intros y' [->|Hy]%elem_of_cons; [exists x; split; [left|done]|].
    destruct (IH2 y' Hy) as (x' & ? & ?). exists x'. split; [by right|done].
Qed.

Lemma forallb_Forall {A} (p : A → bool) l : forallb p l = true ↔ Forall (λ x, p x = true) l.
Proof.
  rewrite forallb_forall, Forall_forall. setoid_rewrite list_elem_of_In. done.
Qed.

Lemma sum_list_cons n l : sum_list (n :: l) = n + sum_list l.
Proof. done. Qed.
