(* ===== verification/SortedMap.v ===== *)
(** * The persistent sorted map (src/core/rust/src/lang/data/sorted_map.rs)

    A weight-recorded red-black tree with Germane-Might deletion: the link type
    with its two size-0 leaves, the Okasaki insertion [put], the deletion
    [remove] with its double-black rebalancer [rotate], the order-statistic
    queries, [slice], the explicit-stack iterator and the transient wrapper.
    Rust panics ([unreachable!], a failed [assert!]) are [None].  Sizes are
    [nat]: a tree cannot hold more nodes than the address space. *)
From S2P Require Import Prelude.

(** ** Data *)

Inductive Color := Red | Black | DoubleBlack.

#[export] Instance Color_eq_dec : EqDecision Color.
Proof. solve_decision. Defined.

(** The child link: the two leaf sentinels or an internal node; the fields of
    the source's [Node] are the arguments of [Full]. *)
Inductive Link (K V : Type) : Type :=
| Empty
| DoubleEmpty
| Full (color : Color) (left : Link K V) (key : K) (value : V)
       (right : Link K V) (size : nat).
Arguments Empty {K V}.
Arguments DoubleEmpty {K V}.
Arguments Full {K V} _ _ _ _ _ _.

(** [Standard]: the root and the collection metadata it carries. *)
Record Standard (M K V : Type) := mkStandard { metadata : option M; root : Link K V }.
Arguments mkStandard {M K V} _ _.
Arguments metadata {M K V} _.
Arguments root {M K V} _.

(** [Mutable]: the transient wrapper and its editable flag. *)
Record Mutable (M K V : Type) := mkMutable { editable : bool; mmap : Standard M K V }.
Arguments mkMutable {M K V} _ _.
Arguments editable {M K V} _.
Arguments mmap {M K V} _.

(** ** Node construction and recolouring *)
Section nodes.
Context {K V : Type}.

Definition color (t : Link K V) : Color :=
  match t with Empty => Black | DoubleEmpty => DoubleBlack | Full c _ _ _ _ _ => c end.

Definition size (t : Link K V) : nat :=
  match t with Full _ _ _ _ _ s => s | _ => 0 end.

Definition node (c : Color) (l : Link K V) (k : K) (v : V) (r : Link K V) : Link K V :=
  Full c l k v r (size l + size r + 1).

Definition red := node Red.
Definition black := node Black.

Definition redden (t : Link K V) : Link K V :=
  match t with
  | Full Black l k v r _ =>
      if decide (color l = Black ∧ color r = Black) then red l k v r else t
  | _ => t
  end.

Definition blacken (t : Link K V) : Link K V :=
  match t with Full Red l k v r _ => black l k v r | _ => t end.

Definition unblacken (t : Link K V) : Link K V :=
  match t with
  | DoubleEmpty => Empty
  | Full DoubleBlack l k v r _ => black l k v r
  | _ => t
  end.

(** The four Okasaki red-red cases; [None] is "no early return". *)
Definition balance_black_left (nl : Link K V) (nk : K) (nv : V) (nr : Link K V)
    : option (Link K V) :=
  match nl with
  | Full Red ll lk lv lr _ =>
      match ll with
      | Full Red _ _ _ _ _ => Some (red (blacken ll) lk lv (black lr nk nv nr))
      | _ =>
          match lr with
          | Full Red lrl lrk lrv lrr _ =>
              Some (red (black ll lk lv lrl) lrk lrv (black lrr nk nv nr))
          | _ => None
          end
      end
  | _ => None
  end.

Definition balance_black_right (nl : Link K V) (nk : K) (nv : V) (nr : Link K V)
    : option (Link K V) :=
  match nr with
  | Full Red rl rk rv rr _ =>
      match rl with
      | Full Red rll rlk rlv rlr _ =>
          Some (red (black nl nk nv rll) rlk rlv (black rlr rk rv rr))
      | _ =>
          match rr with
          | Full Red _ _ _ _ _ => Some (red (black nl nk nv rl) rk rv (blacken rr))
          | _ => None
          end
      end
  | _ => None
  end.

Definition balance_black (t : Link K V) : Link K V :=
  match t with
  | Full _ nl nk nv nr _ =>
      default (default t (balance_black_right nl nk nv nr))
              (balance_black_left nl nk nv nr)
  | _ => t
  end.

(** The two red-red cases under a double black. *)
Definition balance_double_black_left (nl : Link K V) (nk : K) (nv : V) (nr : Link K V)
    : option (Link K V) :=
  match nl with
  | Full Red ll lk lv (Full Red lrl lrk lrv lrr _) _ =>
      Some (black (black ll lk lv lrl) lrk lrv (black lrr nk nv nr))
  | _ => None
  end.

Definition balance_double_black_right (nl : Link K V) (nk : K) (nv : V) (nr : Link K V)
    : option (Link K V) :=
  match nr with
  | Full Red (Full Red rll rlk rlv rlr _) rk rv rr _ =>
      Some (black (black nl nk nv rll) rlk rlv (black rlr rk rv rr))
  | _ => None
  end.

Definition balance_double_black (t : Link K V) : Link K V :=
  match t with
  | Full _ nl nk nv nr _ =>
      default (default t (balance_double_black_right nl nk nv nr))
              (balance_double_black_left nl nk nv nr)
  | _ => t
  end.

Definition balance (t : Link K V) : Link K V :=
  match t with
  | Full Black _ _ _ _ _ => balance_black t
  | Full DoubleBlack _ _ _ _ _ => balance_double_black t
  | _ => t
  end.

(** [rotate], one definition per colour of the root.  The outer option is
    the panic of [unreachable!]; in the last two black cases the inner option
    says whether the guarded [return] was taken. *)
Definition rotate_red (t nl : Link K V) (nk : K) (nv : V) (nr : Link K V)
    : option (Link K V) :=
  if decide (color nl = DoubleBlack ∧ color nr = Black) then
    match nr with
    | Full _ rl rk rv rr _ =>
        Some (balance (black (red (unblacken nl) nk nv rl) rk rv rr))
    | _ => None
    end
  else if decide (color nr = DoubleBlack ∧ color nl = Black) then
    match nl with
    | Full _ ll lk lv lr _ =>
        Some (balance (black ll lk lv (red lr nk nv (unblacken nr))))
    | _ => None
    end
  else Some t.

Definition rotate_black_left_double (nl : Link K V) (nk : K) (nv : V) (nr : Link K V)
    : option (option (Link K V)) :=
  if decide (color nl = DoubleBlack ∧ color nr = Red) then
    match nr with
    | Full _ rl rk rv rr _ =>
        match rl with
        | Full Black rll rlk rlv rlr _ =>
            Some (Some (black (balance (black (red (unblacken nl) nk nv rll) rlk rlv rlr))
                              rk rv rr))
        | _ => Some None
        end
    | _ => None
    end
  else Some None.

Definition rotate_black_right_double (nl : Link K V) (nk : K) (nv : V) (nr : Link K V)
    : option (option (Link K V)) :=
  if decide (color nl = Red ∧ color nr = DoubleBlack) then
    match nl with
    | Full _ ll lk lv lr _ =>
        match lr with
        | Full Black lrl lrk lrv lrr _ =>
            Some (Some (black ll lk lv
                              (balance (black lrl lrk lrv (red lrr nk nv (unblacken nr))))))
        | _ => Some None
        end
    | _ => None
    end
  else Some None.

Definition rotate_black (t nl : Link K V) (nk : K) (nv : V) (nr : Link K V)
    : option (Link K V) :=
  if decide (color nl = DoubleBlack ∧ color nr = Black) then
    match nr with
    | Full _ rl rk rv rr _ =>
        Some (balance (node DoubleBlack (red (unblacken nl) nk nv rl) rk rv rr))
    | _ => None
    end
  else if decide (color nl = Black ∧ color nr = DoubleBlack) then
    match nl with
    | Full _ ll lk lv lr _ =>
        Some (balance (node DoubleBlack ll lk lv (red lr nk nv (unblacken nr))))
    | _ => None
    end
  else
    returned ← rotate_black_left_double nl nk nv nr;
    match returned with
    | Some t' => Some t'
    | None =>
        returned' ← rotate_black_right_double nl nk nv nr;
        Some (default t returned')
    end.

Definition rotate (t : Link K V) : option (Link K V) :=
  match t with
  | Full Red nl nk nv nr _ => rotate_red t nl nk nv nr
  | Full Black nl nk nv nr _ => rotate_black t nl nk nv nr
  | _ => Some t
  end.

Fixpoint leftmost (t : Link K V) : option (K * V) :=
  match t with
  | Full _ l k v _ _ =>
      match l with Full _ _ _ _ _ _ => leftmost l | _ => Some (k, v) end
  | _ => None
  end.

Fixpoint remove_min (t : Link K V) : option (Link K V) :=
  match t with
  | Full c l k v r _ =>
      if decide (size l = 0) then
        match c with
        | Red => Some Empty
        | _ => if decide (size r = 0) then Some DoubleEmpty else Some (blacken r)
        end
      else
        l' ← remove_min l;
        rotate (node c l' k v r)
  | _ => Some t
  end.

(** The source's own invariant check: [None] when an assertion fails. *)
Fixpoint check_invariant (t : Link K V) : option nat :=
  if decide (color t = DoubleBlack) then None
  else
    match t with
    | Full c l k v r s =>
        if decide (c ≠ Red ∨ (color l ≠ Red ∧ color r ≠ Red)) then
          left_depth ← check_invariant l;
          right_depth ← check_invariant r;
          if decide (left_depth = right_depth) then
            if decide (s = size l + size r + 1) then
              Some (left_depth + (if decide (c = Black) then 1 else 0))
            else None
          else None
        else None
    | _ => Some 1
    end.
End nodes.

Fixpoint map_values {K V U} (f : K → V → U) (t : Link K V) : Link K U :=
  match t with
  | Empty => Empty
  | DoubleEmpty => DoubleEmpty
  | Full c l k v r _ => node c (map_values f l) k (f k v) (map_values f r)
  end.

(** ** Keyed operations *)
Section keyed.
Context {K V : Type} `{Ord K}.

Fixpoint put_rec (t : Link K V) (key : K) (value : V) : Link K V :=
  match t with
  | Empty => red Empty key value Empty
  | DoubleEmpty => black Empty key value Empty
  | Full c l k v r _ =>
      match ord_cmp key k with
      | Lt => balance (node c (put_rec l key value) k v r)
      | Gt => balance (node c l k v (put_rec r key value))
      | Eq => node c l key value r
      end
  end.

Definition put (t : Link K V) (key : K) (value : V) : Link K V :=
  blacken (put_rec t key value).

Fixpoint remove_rec (t : Link K V) (key : K) : option (Link K V) :=
  match t with
  | Full c l k v r s =>
      match ord_cmp key k with
      | Lt => l' ← remove_rec l key; rotate (node c l' k v r)
      | Gt => r' ← remove_rec r key; rotate (node c l k v r')
      | Eq =>
          if decide (s = 1) then
            Some (if decide (c = Black) then DoubleEmpty else Empty)
          else if decide (size r = 0) then Some (blacken l)
          else
            min ← leftmost r;
            r' ← remove_min r;
            rotate (node c l min.1 min.2 r')
      end
  | _ => Some t
  end.

Definition remove (t : Link K V) (key : K) : option (Link K V) :=
  result ← remove_rec (redden t) key;
  Some (if decide (size result = size t) then t else result).

Fixpoint floor_index_from (t : Link K V) (key : K) (offset : nat) : option nat :=
  match t with
  | Full _ l k _ r _ =>
      match ord_cmp key k with
      | Gt =>
          match floor_index_from r key (offset + size l + 1) with
          | Some i => Some i
          | None => Some (offset + size l)
          end
      | Lt => floor_index_from l key offset
      | Eq => Some (offset + size l)
      end
  | _ => None
  end.

Fixpoint ceil_index_from (t : Link K V) (key : K) (offset : nat) : option nat :=
  match t with
  | Full _ l k _ r _ =>
      match ord_cmp key k with
      | Gt => ceil_index_from r key (offset + size l + 1)
      | Lt =>
          match ceil_index_from l key offset with
          | Some i => Some i
          | None => Some (offset + size l)
          end
      | Eq => Some (offset + size l)
      end
  | _ => None
  end.

Fixpoint slice (t : Link K V) (min max : K) : option (Link K V) :=
  match t with
  | Full c l k v r _ =>
      match ord_cmp k min, ord_cmp k max with
      | Lt, _ => slice r min max
      | _, Gt => slice l min max
      | _, _ =>
          l' ← slice l min max;
          r' ← slice r min max;
          rotate (node c l' k v r')
      end
  | _ => Some t
  end.

Fixpoint find_entry (t : Link K V) (key : K) : option (K * V) :=
  match t with
  | Full _ l k v r _ =>
      match ord_cmp key k with
      | Lt => find_entry l key
      | Gt => find_entry r key
      | Eq => Some (k, v)
      end
  | _ => None
  end.

Fixpoint nth_entry (t : Link K V) (index : nat) : option (K * V) :=
  match t with
  | Full _ l k v r _ =>
      let left_size := size l in
      if decide (index < left_size) then nth_entry l index
      else if decide (index = left_size) then Some (k, v)
      else nth_entry r (index - (left_size + 1))
  | _ => None
  end.

Fixpoint index_of_key_from (t : Link K V) (key : K) (offset : nat) : option nat :=
  match t with
  | Full _ l k _ r _ =>
      match ord_cmp key k with
      | Lt => index_of_key_from l key offset
      | Gt => index_of_key_from r key (offset + size l + 1)
      | Eq => Some (offset + size l)
      end
  | _ => None
  end.
End keyed.

(** ** The in-order iterator: the stack of nodes whose left spine was walked *)
Section iter.
Context {K V : Type}.

Fixpoint push_left (stack : list (Link K V)) (t : Link K V) : list (Link K V) :=
  match t with
  | Full _ l _ _ _ _ => push_left (stack ++ [t]) l
  | _ => stack
  end.

Definition iter_new (t : Link K V) : list (Link K V) := push_left [] t.

(** [Iterator::next]: the yielded entry and the new stack. *)
Definition iter_next (stack : list (Link K V)) : option ((K * V) * list (Link K V)) :=
  match last stack with
  | Some (Full _ _ k v r _) =>
      Some ((k, v), push_left (take (length stack - 1) stack) r)
  | _ => None
  end.

(** [collect] over the iterator; [None] is running out of fuel. *)
Fixpoint iter_collect (fuel : nat) (stack : list (Link K V)) : option (list (K * V)) :=
  match fuel with
  | 0 => None
  | S fuel =>
      match iter_next stack with
      | None => Some []
      | Some (e, stack') => cons e <$> iter_collect fuel stack'
      end
  end.
End iter.

(** ** The public map *)
Section standard.
Context {M K V : Type} `{Ord K}.

Definition standard_new : Standard M K V := mkStandard None Empty.
Definition len (m : Standard M K V) : nat := size (root m).
Definition is_empty (m : Standard M K V) : bool := size (root m) =? 0.
Definition get (m : Standard M K V) (key : K) : option V := snd <$> find_entry (root m) key.
Definition assoc_value (m : Standard M K V) (key : K) (value : V) : Standard M K V :=
  mkStandard (metadata m) (put (root m) key value).
Definition dissoc_value (m : Standard M K V) (key : K) : option (Standard M K V) :=
  root' ← remove (root m) key; Some (mkStandard (metadata m) root').
Definition index_of_key (m : Standard M K V) (key : K) : option nat :=
  index_of_key_from (root m) key 0.
Definition inclusive_floor_index (m : Standard M K V) (key : K) : option nat :=
  floor_index_from (root m) key 0.
Definition ceil_index (m : Standard M K V) (key : K) : option nat :=
  ceil_index_from (root m) key 0.
Definition slice_standard (m : Standard M K V) (min max : K) : option (Standard M K V) :=
  root' ← slice (root m) min max; Some (mkStandard (metadata m) root').
Definition from_iter (entries : list (K * V)) : Standard M K V :=
  foldl (λ m kv, assoc_value m kv.1 kv.2) standard_new entries.

(** The transient: every operation asserts that it is still editable. *)
Definition to_mutable (m : Standard M K V) : Mutable M K V := mkMutable true m.
Definition mutable_assoc (t : Mutable M K V) (k : K) (v : V) : option (Mutable M K V) :=
  if editable t then Some (mkMutable true (assoc_value (mmap t) k v)) else None.
Definition mutable_dissoc (t : Mutable M K V) (k : K) : option (Mutable M K V) :=
  if editable t then
    m' ← dissoc_value (mmap t) k; Some (mkMutable true m')
  else None.
Definition to_persistent (t : Mutable M K V) : option (Standard M K V * Mutable M K V) :=
  if editable t then Some (mmap t, mkMutable false (mmap t)) else None.
End standard.

(** ** The abstract map: the in-order list of entries *)
Section entries.
Context {K V : Type}.

Fixpoint entries (t : Link K V) : list (K * V) :=
  match t with
  | Full _ l k v r _ => entries l ++ (k, v) :: entries r
  | _ => []
  end.

(** The weight record: every node stores the size of its subtree. *)
Fixpoint weighted (t : Link K V) : Prop :=
  match t with
  | Full _ l _ _ r s => s = size l + size r + 1 ∧ weighted l ∧ weighted r
  | _ => True
  end.

(** Red-black trees of colour [c] and black height [n]. *)
Inductive rbt : Color → nat → Link K V → Prop :=
| rbt_empty : rbt Black 1 Empty
| rbt_red n l k v r s : rbt Black n l → rbt Black n r → rbt Red n (Full Red l k v r s)
| rbt_black n cl cr l k v r s :
    rbt cl n l → rbt cr n r → rbt Black (S n) (Full Black l k v r s).

(** A red-black tree whose root may be red with red children. *)
Inductive infrared : nat → Link K V → Prop :=
| infrared_rbt n c t : rbt c n t → infrared n t
| infrared_left n l k v r s : rbt Red n l → rbt Black n r → infrared n (Full Red l k v r s)
| infrared_right n l k v r s : rbt Black n l → rbt Red n r → infrared n (Full Red l k v r s).

(** A tree whose root carries an extra black. *)
Inductive double : nat → Link K V → Prop :=
| double_empty : double 2 DoubleEmpty
| double_full n cl cr l k v r s :
    rbt cl n l → rbt cr n r → double (S (S n)) (Full DoubleBlack l k v r s).

(** What deletion may leave in place of a tree of colour [c] and height [n]. *)
Definition deleted (c : Color) (n : nat) (t : Link K V) : Prop :=
  match c with
  | Red => ∃ c', rbt c' n t
  | _ => rbt Black n t ∨ double n t
  end.

Fixpoint height (t : Link K V) : nat :=
  match t with Full _ l _ _ r _ => S (height l `max` height r) | _ => 0 end.
End entries.

#[export] Hint Constructors rbt infrared double : hara.

Section abstract.
Context {K V : Type} `{Ord K}.

Definition entry_lt (a b : K * V) : Prop := ord_cmp a.1 b.1 = Lt.
Definition ordered (l : list (K * V)) : Prop := StronglySorted entry_lt l.

(** The entries a probe compares to as [c]. *)
Definition cmp_filter (key : K) (c : comparison) (l : list (K * V)) : list (K * V) :=
  filter (λ e, ord_cmp key e.1 = c) l.

Definition al_find (key : K) (l : list (K * V)) : option (K * V) :=
  head (cmp_filter key Eq l).
Definition al_put (key : K) (value : V) (l : list (K * V)) : list (K * V) :=
  cmp_filter key Gt l ++ (key, value) :: cmp_filter key Lt l.
Definition al_remove (key : K) (l : list (K * V)) : list (K * V) :=
  cmp_filter key Gt l ++ cmp_filter key Lt l.
End abstract.

(** ** Structural lemmas: contents and weights *)
#[local] Arguments balance {_ _} _ : simpl never.
#[local] Arguments rotate {_ _} _ : simpl never.
#[local] Arguments blacken {_ _} _ : simpl never.
#[local] Arguments unblacken {_ _} _ : simpl never.

Section structure.
Context {K V : Type}.
Implicit Types t l r : Link K V.

(** [t] holds the contents of a node over [l] and [r], rightly weighted. *)
Definition rebuilds l k v r t : Prop :=
  entries t = entries l ++ (k, v) :: entries r ∧ (weighted l → weighted r → weighted t).

Lemma rebuilds_node c l k v r : rebuilds l k v r (node c l k v r).
Proof. done. Qed.

Lemma entries_blacken t : entries (blacken t) = entries t.
Proof. by destruct t as [| |[]]. Qed.

Lemma entries_unblacken t : entries (unblacken t) = entries t.
Proof. by destruct t as [| |[]]. Qed.

Lemma entries_redden t : entries (redden t) = entries t.
Proof. destruct t as [| |[]]; simpl; try done. by case_decide. Qed.

Lemma weighted_size t : weighted t → size t = length (entries t).
Proof.
  induction t as [| |c l IHl k v r IHr s]; simpl; try done.
  intros (-> & Hl & Hr). rewrite length_app; simpl. rewrite IHl, IHr by done. lia.
Qed.

Lemma weighted_blacken t : weighted t → weighted (blacken t).
Proof. destruct t as [| |[]]; naive_solver. Qed.

Lemma weighted_unblacken t : weighted t → weighted (unblacken t).
Proof. destruct t as [| |[]]; naive_solver. Qed.

Lemma weighted_redden t : weighted t → weighted (redden t).
Proof. destruct t as [| |[]]; simpl; try case_decide; naive_solver. Qed.

Ltac rebuild :=
  split; [ simpl; rewrite ?entries_blacken, ?entries_unblacken;
           simpl; repeat (rewrite <-app_assoc; simpl); reflexivity
         | simpl; intros; destruct_and?; subst; split_and?;
           auto using weighted_blacken, weighted_unblacken ].

Lemma rebuilds_balance_black_left l k v r t :
  balance_black_left l k v r = Some t → rebuilds l k v r t.
Proof.
  destruct l as [| |[] ll lk lv lr ls]; try done; simpl.
  destruct ll as [| |[]], lr as [| |[]]; intros; simplify_eq; rebuild.
Qed.

Lemma rebuilds_balance_black_right l k v r t :
  balance_black_right l k v r = Some t → rebuilds l k v r t.
Proof.
  destruct r as [| |[] rl rk rv rr rs]; try done; simpl.
  destruct rl as [| |[]], rr as [| |[]]; intros; simplify_eq; rebuild.
Qed.

Lemma rebuilds_balance_double_black_left l k v r t :
  balance_double_black_left l k v r = Some t → rebuilds l k v r t.
Proof.
  destruct l as [| |[] ll lk lv lr ls]; try done; simpl.
  destruct lr as [| |[]]; intros; simplify_eq; rebuild.
Qed.

Lemma rebuilds_balance_double_black_right l k v r t :
  balance_double_black_right l k v r = Some t → rebuilds l k v r t.
Proof.
  destruct r as [| |[] rl rk rv rr rs]; try done; simpl.
  destruct rl as [| |[]]; intros; simplify_eq; rebuild.
Qed.

Lemma rebuilds_balance c l k v r : rebuilds l k v r (balance (node c l k v r)).
Proof.
  destruct c; [done| |]; unfold balance; simpl.
  - destruct (balance_black_left l k v r) eqn:?; [by apply rebuilds_balance_black_left|].
    destruct (balance_black_right l k v r) eqn:?; [by apply rebuilds_balance_black_right|done].
  - destruct (balance_double_black_left l k v r) eqn:?;
      [by apply rebuilds_balance_double_black_left|].
    destruct (balance_double_black_right l k v r) eqn:?;
      [by apply rebuilds_balance_double_black_right|done].
Qed.

Lemma entries_balance c l k v r :
  entries (balance (node c l k v r)) = entries l ++ (k, v) :: entries r.
Proof. apply rebuilds_balance. Qed.

Lemma weighted_balance c l k v r :
  weighted l → weighted r → weighted (balance (node c l k v r)).
Proof. apply rebuilds_balance. Qed.

Ltac rebuild_rotated :=
  split; [ unfold black, red; simpl; rewrite ?entries_balance; simpl;
           rewrite ?entries_balance, ?entries_unblacken;
           simpl; repeat (rewrite <-app_assoc; simpl); reflexivity
         | intros; unfold black, red; simpl in *; destruct_and?; subst;
           repeat first [ apply weighted_balance | split_and! | by apply weighted_unblacken
                        | done | progress simpl ] ].

Lemma rebuilds_rotate_black_left_double l k v r t :
  rotate_black_left_double l k v r = Some (Some t) → rebuilds l k v r t.
Proof.
  unfold rotate_black_left_double. case_decide; [|done].
  destruct r as [| |rc [| |[]] rk rv rr rs]; intros; simplify_eq; rebuild_rotated.
Qed.

Lemma rebuilds_rotate_black_right_double l k v r t :
  rotate_black_right_double l k v r = Some (Some t) → rebuilds l k v r t.
Proof.
  unfold rotate_black_right_double. case_decide; [|done].
  destruct l as [| |lc ll lk lv [| |[]] ls]; intros; simplify_eq; rebuild_rotated.
Qed.

Lemma rebuilds_rotate c l k v r t :
  rotate (node c l k v r) = Some t → rebuilds l k v r t.
Proof.
  destruct c; unfold rotate; simpl; [| |by intros [= <-]].
  - unfold rotate_red. case_decide; [|case_decide]; [| |by intros [= <-]];
      destruct l as [| |], r as [| |]; intros; simplify_eq; rebuild_rotated.
  - unfold rotate_black. do 2 (case_decide;
      [destruct l as [| |], r as [| |]; intros; simplify_eq; rebuild_rotated|]).
    destruct (rotate_black_left_double l k v r) as [[]|] eqn:?; try done; simpl.
    { intros [= <-]. by apply rebuilds_rotate_black_left_double. }
    destruct (rotate_black_right_double l k v r) as [[]|] eqn:?; try done; simpl.
    { intros [= <-]. by apply rebuilds_rotate_black_right_double. }
    by intros [= <-].
Qed.
End structure.

(** ** Functional correctness against the ordered entry list *)
Section functional.
Context {K V : Type} `{OrdLaws K}.
Implicit Types t l r : Link K V.

#[local] Instance entry_lt_trans : Transitive (entry_lt (K:=K) (V:=V)).
Proof. intros x y z. apply ord_trans. Qed.

Lemma cmp_filter_app key c (l1 l2 : list (K * V)) :
  cmp_filter key c (l1 ++ l2) = cmp_filter key c l1 ++ cmp_filter key c l2.
Proof. apply filter_app. Qed.

Lemma cmp_filter_cons key c k v (l : list (K * V)) :
  cmp_filter key c ((k, v) :: l) =
  if decide (ord_cmp key k = c) then (k, v) :: cmp_filter key c l else cmp_filter key c l.
Proof. unfold cmp_filter. by rewrite filter_cons. Qed.

Lemma cmp_filter_all key c c' (l : list (K * V)) :
  Forall (λ e, ord_cmp key e.1 = c) l →
  cmp_filter key c' l = if decide (c = c') then l else [].
Proof.
  intros Hl. case_decide; [subst; by apply filter_Forall_id|].
  apply filter_Forall_nil. eapply Forall_impl; [done|]. naive_solver.
Qed.

Lemma ordered_node l k v r :
  ordered (entries l ++ (k, v) :: entries r) →
  ordered (entries l) ∧ ordered (entries r).
Proof. unfold ordered. rewrite StronglySorted_mid by apply _. tauto. Qed.

Lemma probe_below key k v (l r : list (K * V)) :
  ordered (l ++ (k, v) :: r) → ord_cmp key k ≠ Lt →
  Forall (λ e, ord_cmp key e.1 = Gt) l.
Proof.
  unfold ordered. rewrite StronglySorted_mid by apply _. intros (_ & _ & Hl & _) Hk.
  eapply Forall_impl; [exact Hl|]. intros [k' v'] Hlt; unfold entry_lt in *; simpl in *.
  apply ord_lt_gt. destruct (ord_cmp key k) eqn:Hc; [|done|].
  - eapply ord_lt_eq; [done|]. by apply ord_eq_sym.
  - eapply ord_trans; [done|]. by apply ord_lt_gt.
Qed.

Lemma probe_above key k v (l r : list (K * V)) :
  ordered (l ++ (k, v) :: r) → ord_cmp key k ≠ Gt →
  Forall (λ e, ord_cmp key e.1 = Lt) r.
Proof.
  unfold ordered. rewrite StronglySorted_mid by apply _. intros (_ & _ & _ & Hr) Hk.
  eapply Forall_impl; [exact Hr|]. intros [k' v'] Hlt; unfold entry_lt in *; simpl in *.
  destruct (ord_cmp key k) eqn:Hc; [|by eapply ord_trans|done]. by eapply ord_eq_lt.
Qed.

(** The partition of an ordered node by a probe, one equation per outcome. *)
Lemma cmp_filter_node key c k v (l r : list (K * V)) :
  ordered (l ++ (k, v) :: r) →
  cmp_filter key c (l ++ (k, v) :: r) =
  match ord_cmp key k with
  | Lt => cmp_filter key c l ++ (if decide (c = Lt) then (k, v) :: r else [])
  | Gt => (if decide (c = Gt) then l ++ [(k, v)] else []) ++ cmp_filter key c r
  | Eq => match c with Eq => [(k, v)] | Lt => r | Gt => l end
  end.
Proof.
  intros Hord. rewrite cmp_filter_app, cmp_filter_cons.
  destruct (ord_cmp key k) eqn:Hk.
  - rewrite (cmp_filter_all key Gt c l) by (by eapply probe_below; [|rewrite Hk]).
    rewrite (cmp_filter_all key Lt c r) by (by eapply probe_above; [|rewrite Hk]).
    destruct c; repeat case_decide; simplify_eq; by rewrite ?app_nil_r.
  - rewrite (cmp_filter_all key Lt c r) by (by eapply probe_above; [|rewrite Hk]).
    destruct c; repeat case_decide; simplify_eq; by rewrite ?app_nil_r.
  - rewrite (cmp_filter_all key Gt c l) by (by eapply probe_below; [|rewrite Hk]).
    destruct c; repeat case_decide; simplify_eq; simpl; by rewrite <-?app_assoc.
Qed.

Ltac probe_cases Hord :=
  rewrite ?(cmp_filter_node _ _ _ _ _ _ Hord);
  destruct (ord_cmp _ _) eqn:?; repeat case_decide; simplify_eq; simpl;
  rewrite ?app_nil_r.

Lemma find_entry_al t key :
  ordered (entries t) → find_entry t key = al_find key (entries t).
Proof.
  unfold al_find. induction t as [| |c l IHl k v r IHr s]; intros Hord; try done.
  simpl in *. destruct (ordered_node _ _ _ _ Hord) as [Hl Hr].
  probe_cases Hord; [done|by apply IHl|by apply IHr].
Qed.

Lemma put_rec_al t key value :
  ordered (entries t) → entries (put_rec t key value) = al_put key value (entries t).
Proof.
  unfold al_put. induction t as [| |c l IHl k v r IHr s]; intros Hord; try done.
  simpl in *. destruct (ordered_node _ _ _ _ Hord) as [Hl Hr].
  probe_cases Hord; rewrite ?entries_balance; [done| |].
  - rewrite IHl by done. by rewrite <-!app_assoc.
  - rewrite IHr by done. by rewrite <-!app_assoc.
Qed.

Lemma put_al t key value :
  ordered (entries t) → entries (put t key value) = al_put key value (entries t).
Proof. intros. unfold put. rewrite entries_blacken. by apply put_rec_al. Qed.

Lemma put_weighted t key value : weighted t → weighted (put t key value).
Proof.
  intros Ht. apply weighted_blacken. induction t as [| |c l IHl k v r IHr s]; try done.
  simpl in *. destruct Ht as (-> & Hl & Hr).
  destruct (ord_cmp key k); [done| |]; apply weighted_balance; auto.
Qed.

Lemma leftmost_head t e : leftmost t = Some e → ∃ rest, entries t = e :: rest.
Proof.
  revert e. induction t as [| |c l IHl k v r _ s]; try done. intros e He; simpl in *.
  destruct l as [| |cl ll lk lv lr ls]; simplify_eq/=; eauto.
  destruct (IHl _ He) as [rest ->]. simpl. eauto.
Qed.

Lemma size_0 t : weighted t → size t = 0 → entries t = [].
Proof. intros Ht Hs. rewrite weighted_size in Hs by done. by apply nil_length_inv. Qed.

End functional.

(** ** The red-black invariant *)
Section invariant.
Context {K V : Type}.
Implicit Types t l r : Link K V.

Lemma rbt_color c n t : rbt c n t → color t = c.
Proof. by inversion 1. Qed.

Lemma rbt_pos c n t : rbt c n t → 1 ≤ n.
Proof. induction 1; lia. Qed.

Lemma rbt_blacken c n t : rbt c n t → ∃ n', rbt Black n' (blacken t).
Proof. inversion 1; subst; unfold blacken; simpl; eauto with hara. Qed.

Lemma infrared_blacken n t : infrared n t → ∃ n', rbt Black n' (blacken t).
Proof. inversion 1; subst; [by eapply rbt_blacken|..]; unfold blacken; simpl; eauto with hara. Qed.

Lemma balance_left n cr l k v r :
  infrared n l → rbt cr n r → ∃ c, rbt c (S n) (balance (node Black l k v r)).
Proof.
  intros Hl Hr. inversion Hl as [? cl ? Hl'|? ll lk lv lr ls Hll Hlr|? ll lk lv lr ls Hll Hlr];
    subst; unfold balance; simpl.
  - inversion Hl' as [|? ll lk lv lr ls Hll Hlr|]; subst; simpl;
      [|inversion Hll; inversion Hlr; subst; simpl|];
      (inversion Hr as [|? rl rk rv rr rs Hrl Hrr|]; subst; simpl;
        [|inversion Hrl; inversion Hrr; subst; simpl|]); eauto 8 with hara.
  - inversion Hll; subst; simpl. unfold blacken. eauto 8 with hara.
  - inversion Hll; inversion Hlr; subst; simpl; eauto 8 with hara.
Qed.

Lemma balance_right n cl l k v r :
  rbt cl n l → infrared n r → ∃ c, rbt c (S n) (balance (node Black l k v r)).
Proof.
  intros Hl Hr. inversion Hr as [? cr ? Hr'|? rl rk rv rr rs Hrl Hrr|? rl rk rv rr rs Hrl Hrr];
    subst; [by eapply balance_left; [eapply infrared_rbt|]|..]; unfold balance; simpl;
    (inversion Hl as [|? ll lk lv lr ls Hll Hlr|]; subst; simpl;
      [|inversion Hll; inversion Hlr; subst; simpl|]);
    inversion Hrl; inversion Hrr; subst; simpl; unfold blacken; eauto 8 with hara.
Qed.

Lemma put_rec_rbt `{Ord K} c n t key value :
  rbt c n t →
  infrared n (put_rec t key value) ∧ (c = Black → ∃ c', rbt c' n (put_rec t key value)).
Proof.
  induction 1 as [|n l k v r s Hl [IHl IHl'] Hr [IHr IHr']|n cl cr l k v r s Hl [IHl _] Hr [IHr _]];
    simpl.
  - eauto 8 with hara.
  - split; [|done].
    destruct (ord_cmp key k); [by eauto with hara| |].
    + destruct (IHl' eq_refl) as [c' Hl']. unfold balance; simpl.
      destruct c'; [eauto with hara| |inversion Hl']. eauto with hara.
    + destruct (IHr' eq_refl) as [c' Hr']. unfold balance; simpl.
      destruct c'; [eauto with hara| |inversion Hr']. eauto with hara.
  - enough (∃ c', rbt c' (S n) (match ord_cmp key k with
      | Eq => node Black l key value r
      | Lt => balance (node Black (put_rec l key value) k v r)
      | Gt => balance (node Black l k v (put_rec r key value)) end)) as [c' Hc']
      by eauto with hara.
    destruct (ord_cmp key k); [by eauto with hara|by eapply balance_left|by eapply balance_right].
Qed.

(** The two rebalancing steps of a double black next to a black sibling. *)
Lemma unblacken_double n t : double (S n) t → rbt Black n (unblacken t).
Proof. inversion 1; subst; unfold unblacken; simpl; eauto with hara. Qed.

Lemma infrared_red_left n c l k v r s :
  rbt Black n l → rbt c n r → infrared n (Full Red l k v r s).
Proof. intros Hl Hr. destruct c; [by constructor| |inversion Hr]. eauto with hara. Qed.

Lemma infrared_red_right n c l k v r s :
  rbt c n l → rbt Black n r → infrared n (Full Red l k v r s).
Proof. intros Hl Hr. destruct c; [by constructor| |inversion Hl]. eauto with hara. Qed.

Lemma balance_double_left n cl cr ll lk lv lr k v r :
  rbt Black n ll → rbt cl n lr → rbt cr n r →
  deleted Black (S (S n)) (balance (node DoubleBlack (red ll lk lv lr) k v r)).
Proof.
  intros Hll Hlr Hr. unfold balance; simpl.
  inversion Hlr; subst; simpl; [|left; eauto 8 with hara|];
    (inversion Hr as [|? rl ? ? ? ? Hrl|]; subst; simpl; [|inversion Hrl; subst; simpl|]);
    right; eauto 8 with hara.
Qed.

Lemma balance_double_right n cl cr l k v rl rk rv rr :
  rbt cl n l → rbt cr n rl → rbt Black n rr →
  deleted Black (S (S n)) (balance (node DoubleBlack l k v (red rl rk rv rr))).
Proof.
  intros Hl Hrl Hrr. unfold balance; simpl.
  inversion Hl as [|? ? ? ? lr ? ? Hlr|]; subst; simpl; [|inversion Hlr; subst; simpl|];
    (inversion Hrl; subst; simpl; [|left; eauto 8 with hara|]); right; eauto 8 with hara.
Qed.

Lemma double_color n t : double n t → color t = DoubleBlack.
Proof. by inversion 1. Qed.

Lemma rotate_id c l k v r :
  color l ≠ DoubleBlack → color r ≠ DoubleBlack →
  rotate (node c l k v r) = Some (node c l k v r).
Proof.
  intros Hl Hr.
  destruct c; unfold rotate, node, rotate_red, rotate_black, rotate_black_left_double,
    rotate_black_right_double; [| |done];
    repeat (simpl; case_decide as Hd; [destruct Hd; congruence|clear Hd]); done.
Qed.

(** The sibling of a double black is an internal black node, or a red node
    over internal black nodes: the [unreachable!] arms are unreachable. *)
Lemma rbt_black_inv n t :
  rbt Black (S (S n)) t →
  ∃ cl cr l k v r s, t = Full Black l k v r s ∧ rbt cl (S n) l ∧ rbt cr (S n) r.
Proof. inversion 1; subst. eauto 10. Qed.

Lemma rbt_not_double c n t : rbt c n t → color t ≠ DoubleBlack.
Proof. by inversion 1. Qed.

Lemma double_height n t : double n t → ∃ m, n = S (S m).
Proof. inversion 1; subst; eauto. Qed.

Ltac decide_colors :=
  repeat first [ rewrite decide_True by (split; (done || by eapply double_color))
               | rewrite decide_False by
                   (intros [? ?]; repeat match goal with
                      | Hd : double _ ?t |- _ => apply double_color in Hd end; simpl in *; congruence) ];
  simpl.

Lemma rotate_red_left n l k v r :
  deleted Black n l → rbt Black n r →
  ∃ t', rotate (node Red l k v r) = Some t' ∧ ∃ c, rbt c n t'.
Proof.
  intros [Hl|Hl] Hr.
  { rewrite rotate_id by by eapply rbt_not_double. eauto with hara. }
  destruct (double_height _ _ Hl) as [m ->].
  destruct (rbt_black_inv _ _ Hr) as (cl & cr & rl & rk & rv & rr & s & -> & Hrl & Hrr).
  unfold rotate, node at 1, rotate_red. decide_colors. eexists; split; [done|].
  eapply balance_left; [|done]. eapply infrared_red_left; [by apply unblacken_double|done].
Qed.

Lemma rotate_red_right n l k v r :
  rbt Black n l → deleted Black n r →
  ∃ t', rotate (node Red l k v r) = Some t' ∧ ∃ c, rbt c n t'.
Proof.
  intros Hl [Hr|Hr].
  { rewrite rotate_id by by eapply rbt_not_double. eauto with hara. }
  destruct (double_height _ _ Hr) as [m ->].
  destruct (rbt_black_inv _ _ Hl) as (cl & cr & ll & lk & lv & lr & s & -> & Hll & Hlr).
  unfold rotate, node at 1, rotate_red. decide_colors. eexists; split; [done|].
  eapply balance_right; [done|]. eapply infrared_red_right; [done|by apply unblacken_double].
Qed.

Lemma deleted_cases c n t : deleted c n t → (∃ c', rbt c' n t) ∨ double n t.
Proof. destruct c; simpl; naive_solver. Qed.

Lemma deleted_rbt n t (P : Prop) : rbt Black n t → deleted Black n t ∧ (P → rbt Black n t).
Proof. simpl. auto. Qed.

Lemma rotate_black_left n cl cr l k v r :
  deleted cl n l → rbt cr n r →
  ∃ t', rotate (node Black l k v r) = Some t' ∧ deleted Black (S n) t' ∧
        (cl = Red ∨ cr = Red → rbt Black (S n) t').
Proof.
  intros Hdel Hr. destruct (deleted_cases _ _ _ Hdel) as [[c Hl]|Hl].
  { rewrite rotate_id by by eapply rbt_not_double. simpl; eauto 10 with hara. }
  destruct (double_height _ _ Hl) as [m ->]. destruct cr; [| |inversion Hr].
  - inversion Hr as [|? rl rk rv rr s Hrl Hrr|]; subst.
    destruct (rbt_black_inv _ _ Hrl) as (c1 & c2 & rll & rlk & rlv & rlr & s' & -> & Hrll & Hrlr).
    unfold rotate, node at 1, rotate_black, rotate_black_left_double. decide_colors.
    destruct (balance_left (S m) c2 (red (unblacken l) k v rll) rlk rlv rlr) as [c' Hc'];
      [eapply infrared_red_left; [by apply unblacken_double|done]|done|].
    eexists; split; [done|]. apply deleted_rbt. by econstructor.
  - destruct (rbt_black_inv _ _ Hr) as (? & ? & rl & rk & rv & rr & s & -> & Hrl & Hrr).
    unfold rotate, node at 1, rotate_black. decide_colors. eexists; split; [done|].
    split; [eapply balance_double_left; [by apply unblacken_double|done..]|].
    intros [->| [=]]. simpl in Hdel. destruct Hdel as [? Hdel].
    by apply rbt_not_double in Hdel; apply double_color in Hl.
Qed.

Lemma rotate_black_right n cl cr l k v r :
  rbt cl n l → deleted cr n r →
  ∃ t', rotate (node Black l k v r) = Some t' ∧ deleted Black (S n) t' ∧
        (cl = Red ∨ cr = Red → rbt Black (S n) t').
Proof.
  intros Hl Hdel. destruct (deleted_cases _ _ _ Hdel) as [[c Hr]|Hr].
  { rewrite rotate_id by by eapply rbt_not_double. simpl; eauto 10 with hara. }
  destruct (double_height _ _ Hr) as [m ->]. destruct cl; [| |inversion Hl].
  - inversion Hl as [|? ll lk lv lr s Hll Hlr|]; subst.
    destruct (rbt_black_inv _ _ Hlr) as (c1 & c2 & lrl & lrk & lrv & lrr & s' & -> & Hlrl & Hlrr).
    unfold rotate, node at 1, rotate_black, rotate_black_left_double, rotate_black_right_double.
    decide_colors.
    destruct (balance_right (S m) c1 lrl lrk lrv (red lrr k v (unblacken r))) as [c' Hc'];
      [done|eapply infrared_red_right; [done|by apply unblacken_double]|].
    eexists; split; [done|]. apply deleted_rbt. by econstructor.
  - destruct (rbt_black_inv _ _ Hl) as (? & ? & ll & lk & lv & lr & s & -> & Hll & Hlr).
    unfold rotate, node at 1, rotate_black. decide_colors. eexists; split; [done|].
    split; [eapply balance_double_right; [done..|by apply unblacken_double]|].
    intros [[=]| ->]. simpl in Hdel. destruct Hdel as [? Hdel].
    by apply rbt_not_double in Hdel; apply double_color in Hr.
Qed.
End invariant.

(** ** Deletion: total, correct, and invariant-preserving on red-black trees *)
Section deletion.
Context {K V : Type} `{OrdLaws K}.
Implicit Types t l r : Link K V.

(** What a deletion step yields in place of a tree of colour [c] and height
    [n]: no panic, contents [es], right weights, at worst a double black, and
    no double black at all when [absorb]. *)
Definition outcome (c : Color) (n : nat) (absorb : Prop) (es : list (K * V))
    (mt : option (Link K V)) : Prop :=
  ∃ t', mt = Some t' ∧ entries t' = es ∧ weighted t' ∧ deleted c n t' ∧
        (absorb → ∃ c', rbt c' n t').

Lemma outcome_rbt c c' n absorb t :
  rbt c' n t → c = Red ∨ c' = Black → weighted t → outcome c n absorb (entries t) (Some t).
Proof.
  intros Ht Hc Hw. exists t. split_and!; eauto.
  destruct c; simpl; eauto; (destruct Hc; [done|]); subst; auto.
Qed.

Lemma outcome_weaken c n (P Q : Prop) es mt :
  outcome c n P es mt → (Q → P) → outcome c n Q es mt.
Proof. intros (t & -> & ? & ? & ? & ?) ?. exists t. split_and!; eauto. Qed.

Lemma outcome_double absorb : ¬ absorb → outcome Black 2 absorb [] (Some (DoubleEmpty (K:=K) (V:=V))).
Proof. intros. eexists; split_and!; [done..|right; constructor|done]. Qed.

Lemma outcome_red_left n l k v r es absorb (P : Prop) :
  outcome Black n absorb es (Some l) → rbt Black n r → weighted r →
  outcome Red n P (es ++ (k, v) :: entries r) (rotate (node Red l k v r)).
Proof.
  intros (? & [= <-] & Hes & Hwl & Hdel & _) Hr Hwr.
  destruct (rotate_red_left n l k v r) as (t' & Ht' & Hrbt); [done..|].
  destruct (rebuilds_rotate _ _ _ _ _ _ Ht') as [Het' Hwt'].
  exists t'. rewrite Het', Hes. simpl. auto 6.
Qed.

Lemma outcome_red_right n l k v r es absorb (P : Prop) :
  rbt Black n l → weighted l → outcome Black n absorb es (Some r) →
  outcome Red n P (entries l ++ (k, v) :: es) (rotate (node Red l k v r)).
Proof.
  intros Hl Hwl (? & [= <-] & Hes & Hwr & Hdel & _).
  destruct (rotate_red_right n l k v r) as (t' & Ht' & Hrbt); [done..|].
  destruct (rebuilds_rotate _ _ _ _ _ _ Ht') as [Het' Hwt'].
  exists t'. rewrite Het', Hes. simpl. auto 6.
Qed.

Lemma outcome_black_left n cl cr l k v r es absorb :
  outcome cl n absorb es (Some l) → rbt cr n r → weighted r →
  outcome Black (S n) (cl = Red ∨ cr = Red) (es ++ (k, v) :: entries r)
          (rotate (node Black l k v r)).
Proof.
  intros (? & [= <-] & Hes & Hwl & Hdel & _) Hr Hwr.
  destruct (rotate_black_left n cl cr l k v r) as (t' & Ht' & Hdel' & Habs); [done..|].
  destruct (rebuilds_rotate _ _ _ _ _ _ Ht') as [Het' Hwt'].
  exists t'. rewrite Het', Hes. split_and!; eauto.
Qed.

Lemma outcome_black_right n cl cr l k v r es absorb :
  rbt cl n l → weighted l → outcome cr n absorb es (Some r) →
  outcome Black (S n) (cl = Red ∨ cr = Red) (entries l ++ (k, v) :: es)
          (rotate (node Black l k v r)).
Proof.
  intros Hl Hwl (? & [= <-] & Hes & Hwr & Hdel & _).
  destruct (rotate_black_right n cl cr l k v r) as (t' & Ht' & Hdel' & Habs); [done..|].
  destruct (rebuilds_rotate _ _ _ _ _ _ Ht') as [Het' Hwt'].
  exists t'. rewrite Het', Hes. split_and!; eauto.
Qed.

Lemma outcome_some c n absorb es mt :
  outcome c n absorb es mt → ∃ t, mt = Some t ∧ outcome c n absorb es (Some t).
Proof. intros (t & -> & Ht). exists t. split; [done|]. by exists t. Qed.

Lemma rbt_size_0 c n t : rbt c n t → weighted t → size t = 0 → t = Empty ∧ c = Black ∧ n = 1.
Proof. inversion 1; subst; simpl; [done|lia..]. Qed.

Lemma rbt_black_1 t : rbt Black 1 t → t = Empty.
Proof.
  inversion 1 as [| |? ? ? ? ? ? ? ? Hl _]; subst; [done|].
  apply rbt_pos in Hl. lia.
Qed.

(** The only child of a node whose other child is empty is a red leaf. *)
Lemma outcome_lone_child c t :
  rbt c 1 t → weighted t → size t ≠ 0 →
  outcome Black 2 True (entries t) (Some (blacken t)).
Proof.
  intros Ht Hw Hs. exists (blacken t). rewrite entries_blacken.
  assert (rbt Black 2 (blacken t)).
  { inversion Ht as [|? ? ? ? ? ? Hl Hr|? ? ? ? ? ? ? ? Hl _]; subst; [done|..];
      unfold blacken; simpl; [eauto with hara|]. apply rbt_pos in Hl. lia. }
  split_and!; simpl; eauto using weighted_blacken.
Qed.

Lemma leftmost_full c l k v r s : ∃ e : K * V, leftmost (Full c l k v r s) = Some e.
Proof.
  revert c k v r s. induction l as [| |c' l IHl k' v' r' _ s']; intros; simpl; eauto.
  exact (IHl c' k' v' r' s').
Qed.

Lemma leftmost_some c n t :
  rbt c n t → weighted t → size t ≠ 0 → ∃ e rest, leftmost t = Some e ∧ entries t = e :: rest.
Proof.
  intros Ht Hw Hs. enough (∃ e, leftmost t = Some e) as [e He].
  { destruct (leftmost_head _ _ He). eauto. }
  destruct Ht; [done|apply leftmost_full..].
Qed.

Lemma tail_entries_app l (es : list (K * V)) :
  weighted l → size l ≠ 0 → tail (entries l ++ es) = tail (entries l) ++ es.
Proof. intros Hw. rewrite weighted_size by done. by destruct (entries l). Qed.

Lemma remove_min_spec c n t :
  rbt c n t → weighted t → size t ≠ 0 →
  outcome c n False (tail (entries t)) (remove_min t).
Proof.
  induction 1 as [|n l k v r s Hl IHl Hr _|n cl cr l k v r s Hl IHl Hr _];
    [done|..]; simpl; intros (-> & Hwl & Hwr) _; case_decide as Hsl.
  - apply (rbt_size_0 _ _ _ Hl) in Hsl as (-> & _ & ->); [|done].
    apply rbt_black_1 in Hr as ->. by apply (outcome_rbt Red Black 1 False Empty); [|left|].
  - destruct (outcome_some _ _ _ _ _ (IHl Hwl Hsl)) as (l' & -> & Hl').
    rewrite tail_entries_app by done. by eapply outcome_red_left.
  - apply (rbt_size_0 _ _ _ Hl) in Hsl as (-> & -> & ->); [|done]. simpl.
    case_decide as Hsr; 
      [|by eapply outcome_weaken; [eapply outcome_lone_child|]].
    apply (rbt_size_0 _ _ _ Hr) in Hsr as (-> & _ & _); [|done]. by apply outcome_double; intros [].
  - destruct (outcome_some _ _ _ _ _ (IHl Hwl Hsl)) as (l' & -> & Hl').
    rewrite tail_entries_app by done.
    by eapply outcome_weaken; [eapply outcome_black_left|].
Qed.

(** Removing the root of a subtree: its place is taken by the least entry on
    its right, by its left child, or by nothing. *)
Lemma remove_root_spec c n absorb l k v r s :
  rbt c n (Full c l k v r s) → weighted (Full c l k v r s) →
  (absorb → c = Red ∨ color l = Red ∨ color r = Red) →
  outcome c n absorb (entries l ++ entries r)
    (if decide (s = 1) then Some (if decide (c = Black) then DoubleEmpty else Empty)
     else if decide (size r = 0) then Some (blacken l)
     else min ← leftmost r; r' ← remove_min r; rotate (node c l min.1 min.2 r')).
Proof.
  intros Ht (-> & Hwl & Hwr) Habs. case_decide as Hs; [|case_decide as Hsr].
  - rewrite (size_0 l), (size_0 r) by (done || lia).
    inversion Ht as [|? ? ? ? ? ? Hl Hr|? cl cr ? ? ? ? ? Hl Hr]; subst; simpl;
      apply (rbt_size_0 _ _ _ Hl) in Hwl as (-> & _ & ->); try lia;
      apply (rbt_size_0 _ _ _ Hr) in Hwr as (-> & _ & _); try lia.
    + by apply (outcome_rbt Red Black 1 absorb Empty); [|left|].
    + apply outcome_double. naive_solver.
  - rewrite (size_0 r), app_nil_r by done.
    inversion Ht as [|? ? ? ? ? ? Hl Hr|? cl cr ? ? ? ? ? Hl Hr]; subst; simpl;
      apply (rbt_size_0 _ _ _ Hr) in Hsr as (-> & _ & ->); try done.
    + by apply rbt_black_1 in Hl as ->.
    + eapply outcome_weaken; [eapply outcome_lone_child; eauto|done]. simpl in Hs. lia.
  - assert (∃ cr m, rbt cr m r) as (cr & m & Hr) by (inversion Ht; subst; eauto).
    destruct (leftmost_some _ _ _ Hr Hwr Hsr) as ([mk mv] & rest & -> & Her).
    inversion Ht as [|? ? ? ? ? ? Hl' Hr'|? cl' cr' ? ? ? ? ? Hl' Hr']; subst;
      destruct (outcome_some _ _ _ _ _ (remove_min_spec _ _ _ Hr' Hwr Hsr)) as (r' & -> & Ho);
      rewrite Her in *; simpl in *.
    + by eapply outcome_red_right.
    + rewrite (rbt_color _ _ _ Hl'), (rbt_color _ _ _ Hr') in Habs.
      eapply outcome_weaken; [by eapply outcome_black_right|]. naive_solver.
Qed.

(** Trees whose deletion cannot leave a double-black root. *)
Definition absorbs t : Prop :=
  match t with Full Black l _ _ r _ => color l = Red ∨ color r = Red | _ => True end.

Lemma remove_rec_spec c n t key :
  rbt c n t → weighted t → ordered (entries t) →
  outcome c n (absorbs t) (al_remove key (entries t)) (remove_rec t key).
Proof.
  unfold al_remove.
  induction 1 as [|n l k v r s Hl IHl Hr IHr|n cl cr l k v r s Hl IHl Hr IHr]; simpl;
    [intros; by apply (outcome_rbt Black Black 1 True Empty); [constructor|right|]|..];
    intros (-> & Hwl & Hwr) Hord; destruct (ordered_node _ _ _ _ Hord) as [Hol Hor];
    rewrite !(cmp_filter_node _ _ _ _ _ _ Hord);
    destruct (ord_cmp key k) eqn:Hcmp; simpl; rewrite ?app_nil_r.
  - apply (remove_root_spec Red n True l k v r); eauto with hara. done.
  - destruct (outcome_some _ _ _ _ _ (IHl Hwl Hol)) as (l' & -> & Hl').
    rewrite app_assoc. by eapply outcome_red_left.
  - destruct (outcome_some _ _ _ _ _ (IHr Hwr Hor)) as (r' & -> & Hr').
    rewrite <-!app_assoc. by eapply outcome_red_right.
  - apply (remove_root_spec Black (S n) _ l k v r); eauto with hara. done.
  - destruct (outcome_some _ _ _ _ _ (IHl Hwl Hol)) as (l' & -> & Hl').
    rewrite app_assoc, (rbt_color _ _ _ Hl), (rbt_color _ _ _ Hr). by eapply outcome_black_left.
  - destruct (outcome_some _ _ _ _ _ (IHr Hwr Hor)) as (r' & -> & Hr').
    rewrite <-!app_assoc, (rbt_color _ _ _ Hl), (rbt_color _ _ _ Hr).
    by eapply outcome_black_right.
Qed.
End deletion.

(** ** Facts on ordered entry lists *)
Section ordered_lists.
Context {K V : Type} `{OrdLaws K}.
Implicit Types es : list (K * V).

Lemma ordered_cons e es : ordered (e :: es) ↔ Forall (entry_lt e) es ∧ ordered es.
Proof. apply StronglySorted_cons. Qed.

Lemma Forall_cmp_filter key c es : Forall (λ e, ord_cmp key e.1 = c) (cmp_filter key c es).
Proof. apply Forall_forall. intros e [He _]%list_elem_of_filter. done. Qed.

Lemma ordered_cmp_filter key c es : ordered es → ordered (cmp_filter key c es).
Proof.
  induction 1 as [|[k v] es Hes IH Hlt]; [constructor|].
  rewrite cmp_filter_cons. case_decide; [|done]. apply ordered_cons. split; [|done].
  apply Forall_forall. intros x [_ Hx]%list_elem_of_filter.
  by eapply Forall_forall in Hlt.
Qed.

Lemma ordered_al_remove key es : ordered es → ordered (al_remove key es).
Proof.
  intros Hes. apply StronglySorted_app_2; [|by apply ordered_cmp_filter..].
  intros x y [Hx _]%list_elem_of_filter [Hy _]%list_elem_of_filter.
  apply ord_lt_gt in Hx. by eapply ord_trans.
Qed.

Lemma ordered_al_put key value es : ordered es → ordered (al_put key value es).
Proof.
  intros Hes. apply StronglySorted_mid; [exact entry_lt_trans|].
  split_and!; try by apply ordered_cmp_filter.
  - eapply Forall_impl; [apply Forall_cmp_filter|]. intros e He. by apply ord_lt_gt in He.
  - eapply Forall_impl; [apply Forall_cmp_filter|]. done.
Qed.

(** A probe splits an ordered list in three. *)
Lemma cmp_partition key es :
  ordered es → es = cmp_filter key Gt es ++ cmp_filter key Eq es ++ cmp_filter key Lt es.
Proof.
  induction 1 as [|[k v] es Hes IH Hlt]; [done|].
  assert (ordered ([] ++ (k, v) :: es)) as Hord by (by apply ordered_cons).
  rewrite <-(app_nil_l ((k, v) :: es)), !(cmp_filter_node _ _ _ _ _ _ Hord).
  destruct (ord_cmp key k); simpl; [done..|]. by rewrite <-IH.
Qed.

Lemma al_remove_same_length key es :
  ordered es → length (al_remove key es) = length es → al_remove key es = es.
Proof.
  intros Hord Hlen. rewrite (cmp_partition key es Hord) in Hlen at 2 |- * at 2.
  unfold al_remove in *. rewrite !length_app in Hlen.
  by rewrite (nil_length_inv (cmp_filter key Eq es)) by lia.
Qed.
End ordered_lists.

(** ** The well-formedness invariant of the map *)
Section valid.
Context {K V : Type} `{OrdLaws K}.
Implicit Types t l r : Link K V.

Definition valid t : Prop :=
  weighted t ∧ ordered (entries t) ∧ ∃ c n, rbt c n t.

Lemma valid_empty : valid Empty.
Proof. split_and!; [done|constructor|eauto with hara]. Qed.

Lemma put_spec t key value :
  valid t → valid (put t key value) ∧ entries (put t key value) = al_put key value (entries t).
Proof.
  intros (Hw & Hord & c & n & Hrbt). rewrite put_al by done. split; [|done].
  split_and!; [by apply put_weighted|rewrite put_al by done; by apply ordered_al_put|].
  destruct (put_rec_rbt c n t key value Hrbt) as [Hinf _].
  destruct (infrared_blacken _ _ Hinf). eauto.
Qed.

Lemma redden_rbt c n t :
  rbt c n t → ∃ c' n', rbt c' n' (redden t) ∧ absorbs (redden t).
Proof.
  inversion 1 as [| |m cl cr l k v r s Hl Hr]; subst; simpl; eauto 6 with hara.
  case_decide as Hc.
  - rewrite (rbt_color _ _ _ Hl), (rbt_color _ _ _ Hr) in Hc. destruct Hc; subst.
    simpl; eauto 6 with hara.
  - exists Black, (S m). split; [eauto with hara|]. simpl.
    pose proof (rbt_not_double _ _ _ Hl). pose proof (rbt_not_double _ _ _ Hr).
    destruct (color l), (color r); naive_solver.
Qed.

Lemma remove_spec t key :
  valid t →
  ∃ t', remove t key = Some t' ∧ valid t' ∧ entries t' = al_remove key (entries t).
Proof.
  intros (Hw & Hord & c & n & Hrbt).
  destruct (redden_rbt c n t Hrbt) as (c' & n' & Hrbt' & Habs).
  destruct (remove_rec_spec c' n' (redden t) key) as (t' & Ht' & Hes & Hw' & _ & Hok);
    [done|by apply weighted_redden|by rewrite entries_redden|].
  rewrite entries_redden in Hes. unfold remove. rewrite Ht'; simpl.
  eexists; split; [done|]. case_decide as Hs.
  - split; [by split_and!; eauto|]. symmetry. apply al_remove_same_length; [done|].
    by rewrite <-Hes, <-!weighted_size.
  - split; [|done]. split_and!; [done|rewrite Hes; by apply ordered_al_remove|].
    destruct (Hok Habs). eauto.
Qed.

Lemma check_invariant_full c l k v r s n :
  check_invariant (Full c l k v r s) = Some n ↔
  c ≠ DoubleBlack ∧ (c ≠ Red ∨ color l ≠ Red ∧ color r ≠ Red) ∧ s = size l + size r + 1 ∧
  ∃ d, check_invariant l = Some d ∧ check_invariant r = Some d ∧
       n = d + (if decide (c = Black) then 1 else 0).
Proof.
  simpl. destruct (decide (c = DoubleBlack)); [naive_solver|].
  destruct (decide (c ≠ Red ∨ color l ≠ Red ∧ color r ≠ Red)); [|naive_solver].
  destruct (check_invariant l) as [d|]; simpl; [|naive_solver].
  destruct (check_invariant r) as [d'|]; simpl; [|naive_solver].
  destruct (decide (d = d')); [|naive_solver].
  destruct (decide (s = size l + size r + 1)); naive_solver.
Qed.

(** The source's own invariant check accepts exactly the weighted red-black trees. *)
Lemma check_invariant_rbt t n :
  check_invariant t = Some n ↔ weighted t ∧ ∃ c, rbt c n t.
Proof.
  revert n. induction t as [| |c l IHl k v r IHr s]; intros n.
  - split; [intros [= <-]; simpl; eauto with hara|]. by intros [_ [c Hc]]; inversion Hc.
  - split; [done|]. by intros [_ [c Hc]]; inversion Hc.
  - rewrite check_invariant_full. split.
    + intros (Hdb & Hred & -> & d & [Hwl [cl Hl]]%IHl & [Hwr [cr Hr]]%IHr & ->).
      rewrite (rbt_color _ _ _ Hl), (rbt_color _ _ _ Hr) in Hred.
      split; [done|]. destruct c; [|rewrite Nat.add_1_r; simpl; eauto with hara|done].
      exists Red. rewrite Nat.add_0_r.
      destruct cl, cr; try (by inversion Hl); try (by inversion Hr); naive_solver eauto with hara.
    + simpl. intros ((-> & Hwl & Hwr) & c' & Hc).
      inversion Hc as [|? ? ? ? ? ? Hl Hr|m cl cr ? ? ? ? ? Hl Hr]; subst; simpl.
      * rewrite (rbt_color _ _ _ Hl), (rbt_color _ _ _ Hr).
        split_and!; [done|by right|done|]. exists n. rewrite IHl, IHr. split_and!; eauto.
      * split_and!; [done|by left|done|]. exists m. rewrite IHl, IHr. split_and!; eauto. lia.
Qed.

(** Balance: the height is logarithmic in the number of entries. *)
Lemma rbt_size c n t : rbt c n t → weighted t → 2 ^ n ≤ 2 * (size t + 1).
Proof.
  induction 1 as [|n l k v r s Hl IHl Hr IHr|n cl cr l k v r s Hl IHl Hr IHr]; simpl; [lia|..];
    intros (-> & Hwl & Hwr); specialize (IHl Hwl); specialize (IHr Hwr); lia.
Qed.

Lemma rbt_height c n t :
  rbt c n t → height t + 2 ≤ 2 * n + (if decide (c = Red) then 1 else 0).
Proof.
  induction 1 as [|n l k v r s Hl IHl Hr IHr|n cl cr l k v r s Hl IHl Hr IHr]; simpl in *; [lia|lia|].
  repeat case_decide; lia.
Qed.

Lemma valid_height t : valid t → height t ≤ 2 * Nat.log2 (S (size t)) + 1.
Proof.
  intros (Hw & _ & c & n & Hrbt).
  pose proof (rbt_size _ _ _ Hrbt Hw) as Hsz. pose proof (rbt_height _ _ _ Hrbt) as Hh.
  pose proof (rbt_pos _ _ _ Hrbt). destruct n as [|n]; [lia|].
  rewrite Nat.pow_succ_r' in Hsz.
  assert (n ≤ Nat.log2 (S (size t))) by (apply Nat.log2_le_pow2; lia).
  case_decide; lia.
Qed.
End valid.

(** ** Order statistics, slices and iteration *)
Section queries.
Context {K V : Type} `{OrdLaws K}.
Implicit Types t l r : Link K V.

Lemma nth_entry_lookup t i : weighted t → nth_entry t i = entries t !! i.
Proof.
  revert i. induction t as [| |c l IHl k v r IHr s]; intros i; simpl; [done..|].
  intros (-> & Hwl & Hwr). rewrite (weighted_size l) by done.
  repeat case_decide.
  - rewrite IHl by done. by rewrite lookup_app_l.
  - subst. by rewrite list_lookup_middle.
  - rewrite IHr, lookup_app_r by (done || lia).
    replace (i - length (entries l)) with (S (i - (length (entries l) + 1))) by lia. done.
Qed.

Lemma index_of_key_spec t key offset :
  weighted t → ordered (entries t) →
  index_of_key_from t key offset =
  (λ _, offset + length (cmp_filter key Gt (entries t))) <$> al_find key (entries t).
Proof.
  unfold al_find. revert offset.
  induction t as [| |c l IHl k v r IHr s]; intros offset; simpl; [done..|].
  intros (-> & Hwl & Hwr) Hord. destruct (ordered_node _ _ _ _ Hord) as [Hol Hor].
  rewrite !(cmp_filter_node _ _ _ _ _ _ Hord), (weighted_size l) by done.
  destruct (ord_cmp key k); simpl; rewrite ?app_nil_r; [done|by apply IHl|].
  rewrite IHr by done. apply option_fmap_ext. intros _.
  rewrite !length_app; simpl. lia.
Qed.

Lemma floor_index_spec t key offset :
  weighted t → ordered (entries t) →
  floor_index_from t key offset =
  match length (cmp_filter key Gt (entries t) ++ cmp_filter key Eq (entries t)) with
  | 0 => None
  | S m => Some (offset + m)
  end.
Proof.
  revert offset. induction t as [| |c l IHl k v r IHr s]; intros offset; simpl; [done..|].
  intros (-> & Hwl & Hwr) Hord. destruct (ordered_node _ _ _ _ Hord) as [Hol Hor].
  rewrite !(cmp_filter_node _ _ _ _ _ _ Hord), (weighted_size l) by done.
  destruct (ord_cmp key k); simpl; rewrite ?app_nil_r; [|by apply IHl|].
  - rewrite length_app, Nat.add_1_r. done.
  - rewrite IHr by done. rewrite !length_app; simpl.
    destruct (length (cmp_filter key Gt (entries r)) + length (cmp_filter key Eq (entries r)))
      as [|m] eqn:Hm;
      match goal with |- _ = match ?n with 0 => _ | S _ => _ end =>
        replace n with (S (length (entries l) + (length (cmp_filter key Gt (entries r)) +
                           length (cmp_filter key Eq (entries r))))) by lia end;
      rewrite Hm; f_equal; lia.
Qed.

Lemma ceil_index_spec t key offset :
  weighted t → ordered (entries t) →
  ceil_index_from t key offset =
  if decide (length (cmp_filter key Gt (entries t)) < length (entries t))
  then Some (offset + length (cmp_filter key Gt (entries t))) else None.
Proof.
  revert offset. induction t as [| |c l IHl k v r IHr s]; intros offset; simpl; [done..|].
  intros (-> & Hwl & Hwr) Hord. destruct (ordered_node _ _ _ _ Hord) as [Hol Hor].
  rewrite !(cmp_filter_node _ _ _ _ _ _ Hord), (weighted_size l), length_app by done; simpl.
  destruct (ord_cmp key k); simpl; rewrite ?app_nil_r.
  - rewrite decide_True by lia. done.
  - rewrite IHl by done. 
    assert (length (cmp_filter key Gt (entries l)) ≤ length (entries l)) by apply length_filter.
    repeat case_decide; first [done|lia|f_equal; lia].
  - rewrite IHr, !length_app by done; simpl.
    repeat case_decide; first [done|lia|f_equal; lia].
Qed.

(** [slice] never meets a double black, so its [rotate] calls do nothing. *)
Fixpoint no_double t : Prop :=
  match t with
  | Empty => True
  | DoubleEmpty => False
  | Full c l _ _ r _ => c ≠ DoubleBlack ∧ no_double l ∧ no_double r
  end.

Lemma no_double_color t : no_double t → color t ≠ DoubleBlack.
Proof. destruct t; simpl; naive_solver. Qed.

Lemma rbt_no_double c n t : rbt c n t → no_double t.
Proof. induction 1; simpl; naive_solver. Qed.

Definition in_range (min max : K) (e : K * V) : Prop :=
  ord_cmp e.1 min ≠ Lt ∧ ord_cmp e.1 max ≠ Gt.
#[global] Instance in_range_dec min max e : Decision (in_range min max e).
Proof. unfold in_range. apply _. Defined.

Lemma in_range_below min max k v es :
  ordered (es ++ [(k, v)]) → ord_cmp k min = Lt → Forall (λ e, ¬ in_range min max e) es.
Proof.
  intros Hord Hk. eapply Forall_impl; [eapply (probe_below k k v es []); [done|]|].
  { by rewrite ord_refl. }
  intros e He%ord_lt_gt [Hmin _]. destruct Hmin. by eapply ord_trans.
Qed.

Lemma in_range_above min max k v es :
  ordered ((k, v) :: es) → ord_cmp k max = Gt → Forall (λ e, ¬ in_range min max e) es.
Proof.
  intros Hord Hk. eapply Forall_impl; [eapply (probe_above k k v [] es); [done|]|].
  { by rewrite ord_refl. }
  intros e He [_ Hmax]. destruct Hmax. apply ord_lt_gt in He. by eapply ord_trans.
Qed.

Lemma slice_spec t min max :
  no_double t → weighted t → ordered (entries t) →
  ∃ t', slice t min max = Some t' ∧ no_double t' ∧ weighted t' ∧
        entries t' = filter (in_range min max) (entries t).
Proof.
  induction t as [| |c l IHl k v r IHr s]; simpl; [by eauto|done|].
  intros (Hc & Hdl & Hdr) (-> & Hwl & Hwr) Hord.
  destruct (ordered_node _ _ _ _ Hord) as [Hol Hor].
  destruct IHl as (l' & -> & Hdl' & Hwl' & Hel); [done..|].
  destruct IHr as (r' & -> & Hdr' & Hwr' & Her); [done..|].
  rewrite filter_app, filter_cons, <-Hel, <-Her. simpl.
  assert (in_range min max (k, v) →
    ∃ t', rotate (node c l' k v r') = Some t' ∧ no_double t' ∧ weighted t' ∧
          entries t' = entries l' ++ (k, v) :: entries r') as Hkeep.
  { intros _. rewrite rotate_id by by apply no_double_color. eexists; split; [done|]. done. }
  destruct (ord_cmp k min) eqn:Hmin, (ord_cmp k max) eqn:Hmax; simpl.
  all: try (rewrite decide_True by (split; simpl; congruence); apply Hkeep; split; simpl; congruence).
  all: rewrite decide_False by (intros [? ?]; simpl in *; congruence).
  all: try (exists r'; rewrite Hel, filter_Forall_nil; [done|];
    eapply (in_range_below _ _ k v); [|done];
    rewrite cons_middle, app_assoc in Hord; by eapply StronglySorted_app_1_l).
  all: exists l'; rewrite Her, (filter_Forall_nil _ (entries r)), app_nil_r; [done|];
    eapply (in_range_above _ _ k v); [|done]; by eapply StronglySorted_app_1_r.
Qed.
End queries.

Section iteration.
Context {K V : Type}.
Implicit Types t : Link K V.

(** What is left to yield: the stack is read from its top. *)
Definition iter_rest (stack : list (Link K V)) : list (K * V) :=
  reverse stack ≫= λ t, match t with Full _ _ k v r _ => (k, v) :: entries r | _ => [] end.

Definition iter_wf (stack : list (Link K V)) : Prop := Forall (λ t, t ≠ Empty ∧ t ≠ DoubleEmpty) stack.

Lemma iter_rest_snoc stack t : iter_rest (stack ++ [t]) = iter_rest [t] ++ iter_rest stack.
Proof. unfold iter_rest. rewrite reverse_app, bind_app. done. Qed.

Lemma push_left_rest stack t :
  iter_wf stack →
  iter_wf (push_left stack t) ∧ iter_rest (push_left stack t) = entries t ++ iter_rest stack.
Proof.
  revert stack. induction t as [| |c l IHl k v r _ s]; intros stack Hwf; simpl; [done..|].
  destruct (IHl (stack ++ [Full c l k v r s])) as [Hwf' ->].
  { apply Forall_app. split; [done|]. by repeat constructor. }
  split; [done|]. rewrite iter_rest_snoc, <-app_assoc. simpl.
  unfold iter_rest at 1. simpl. by rewrite app_nil_r.
Qed.

Lemma iter_next_rest stack :
  iter_wf stack →
  match iter_next stack with
  | Some (e, stack') => iter_rest stack = e :: iter_rest stack' ∧ iter_wf stack'
  | None => iter_rest stack = []
  end.
Proof.
  intros Hwf. destruct stack as [|t stack _] using rev_ind; [done|].
  apply Forall_app in Hwf as [Hwf [Ht _]%Forall_cons]. unfold iter_next.
  rewrite last_snoc. destruct t as [| |c l k v r s]; [naive_solver..|].
  rewrite length_app, Nat.add_sub, take_app_length. simpl.
  destruct (push_left_rest stack r Hwf) as [Hwf' ->].
  split; [|done]. rewrite iter_rest_snoc. unfold iter_rest at 1. simpl. by rewrite app_nil_r.
Qed.
End iteration.

(** ** Lookup laws of the abstract map *)
Section lookup_laws.
Context {K V : Type} `{OrdLaws K}.
Implicit Types es : list (K * V).

Lemma cmp_filter_disjoint k k' c es :
  (∀ e : K * V, ord_cmp k e.1 = c → ord_cmp k' e.1 ≠ Eq) →
  cmp_filter k' Eq (cmp_filter k c es) = [].
Proof.
  intros Hne. apply filter_Forall_nil. eapply Forall_impl; [apply Forall_cmp_filter|]. done.
Qed.

Lemma ord_cmp_eq_l x y z : ord_cmp x y = Eq → ord_cmp x z = ord_cmp y z.
Proof.
  intros Hxy. destruct (ord_cmp y z) eqn:Hyz.
  - by eapply ord_trans.
  - by eapply ord_eq_lt.
  - apply ord_lt_gt in Hyz. apply ord_lt_gt. eapply ord_lt_eq; [done|]. by apply ord_eq_sym.
Qed.

Lemma cmp_filter_Eq_off k k' es :
  ordered es → ord_cmp k' k ≠ Eq →
  cmp_filter k' Eq es = cmp_filter k' Eq (cmp_filter k Gt es) ++ cmp_filter k' Eq (cmp_filter k Lt es).
Proof.
  intros Hord Hne. rewrite (cmp_partition k es Hord) at 1. rewrite !cmp_filter_app.
  rewrite (cmp_filter_disjoint k k' Eq); [done|].
  intros e Hk Hk'. destruct Hne. eapply ord_trans; [done|]. by apply ord_eq_sym.
Qed.

Lemma al_find_put k k' v es :
  ordered es →
  al_find k' (al_put k v es) =
  if decide (ord_cmp k' k = Eq) then Some (k, v) else al_find k' es.
Proof.
  intros Hord. unfold al_find, al_put. rewrite cmp_filter_app, cmp_filter_cons.
  case_decide as Hk; [|by rewrite (cmp_filter_Eq_off k k' es)].
  rewrite cmp_filter_disjoint; [done|]. intros e He. rewrite (ord_cmp_eq_l _ _ _ Hk). congruence.
Qed.

Lemma al_find_remove k k' es :
  ordered es →
  al_find k' (al_remove k es) =
  if decide (ord_cmp k' k = Eq) then None else al_find k' es.
Proof.
  intros Hord. unfold al_find, al_remove. rewrite cmp_filter_app.
  case_decide as Hk; [|by rewrite (cmp_filter_Eq_off k k' es)].
  rewrite !cmp_filter_disjoint; [done|..]; intros e He; rewrite (ord_cmp_eq_l _ _ _ Hk); congruence.
Qed.
End lookup_laws.

Lemma iter_collect_rest {K V : Type} (fuel : nat) (stack : list (Link K V)) :
  iter_wf stack → length (iter_rest stack) < fuel →
  iter_collect fuel stack = Some (iter_rest stack).
Proof.
  revert stack. induction fuel as [|fuel IH]; intros stack Hwf Hlen; [lia|]. simpl.
  pose proof (iter_next_rest stack Hwf) as Hnext.
  destruct (iter_next stack) as [[e stack']|]; [|by rewrite Hnext].
  destruct Hnext as [Hrest Hwf']. rewrite Hrest in *; simpl in *.
  rewrite IH by (done || lia). done.
Qed.

(** ** Properties *)
Section properties.
Context {M K V : Type} `{OrdLaws K}.
Implicit Types m : Standard M K V.

(** C39. [assoc_value] keeps the map a weighted red-black search tree and
    changes its entries exactly as inserting into the ordered entry list:
    the entry of an equal key is replaced (key included), the metadata kept. *)
Theorem assoc_value_correct m key value :
  valid (root m) →
  valid (root (assoc_value m key value)) ∧
  entries (root (assoc_value m key value)) = al_put key value (entries (root m)) ∧
  metadata (assoc_value m key value) = metadata m.
Proof. intros Hv. destruct (put_spec (root m) key value Hv). auto. Qed.

(** C40. [dissoc_value] never reaches an [unreachable!] on a well-formed map,
    keeps it well-formed, and removes exactly the entry of an equal key. *)
Theorem dissoc_value_correct m key :
  valid (root m) →
  ∃ m', dissoc_value m key = Some m' ∧ valid (root m') ∧
        entries (root m') = al_remove key (entries (root m)) ∧ metadata m' = metadata m.
Proof.
  intros Hv. destruct (remove_spec (root m) key Hv) as (t' & Ht' & Hv' & Hes).
  unfold dissoc_value. rewrite Ht'. simpl. eexists. split_and!; [done..|]. done.
Qed.

(** Lookup after an update: [get] sees the new value under an equal key
    and the old contents elsewhere; after [dissoc_value] the key is gone. *)
Theorem get_after_update m key value probe m' :
  valid (root m) → dissoc_value m key = Some m' →
  get (assoc_value m key value) probe =
    (if decide (ord_cmp probe key = Eq) then Some value else get m probe) ∧
  get m' probe = (if decide (ord_cmp probe key = Eq) then None else get m probe).
Proof.
  intros Hv Hm'. destruct (put_spec (root m) key value Hv) as [(_ & Hord & _) Hput].
  destruct (remove_spec (root m) key Hv) as (t' & Ht' & (_ & Hord' & _) & Hrem).
  destruct Hv as (_ & Hord0 & _). unfold dissoc_value in Hm'. rewrite Ht' in Hm'.
  simplify_eq/=. unfold get; simpl. rewrite !find_entry_al by done.
  rewrite Hput, Hrem, al_find_put, al_find_remove by done. by case_decide.
Qed.

(** The order-statistic queries agree with the ordered entry list:
    [nth] selects by rank, [index_of_key] is the number of smaller keys, the
    floor is the last entry not above the probe and the ceiling the first not
    below it. *)
Theorem order_statistics m key i :
  valid (root m) →
  let es := entries (root m) in
  len m = length es ∧ nth_entry (root m) i = es !! i ∧
  index_of_key m key = (λ _, length (cmp_filter key Gt es)) <$> al_find key es ∧
  inclusive_floor_index m key =
    match length (cmp_filter key Gt es ++ cmp_filter key Eq es) with
    | 0 => None | S last => Some last
    end ∧
  ceil_index m key =
    (if decide (length (cmp_filter key Gt es) < length es)
     then Some (length (cmp_filter key Gt es)) else None).
Proof.
  intros (Hw & Hord & _) es. split_and!.
  - by apply weighted_size.
  - by apply nth_entry_lookup.
  - exact (index_of_key_spec (root m) key 0 Hw Hord).
  - exact (floor_index_spec (root m) key 0 Hw Hord).
  - exact (ceil_index_spec (root m) key 0 Hw Hord).
Qed.

(** [slice] returns, without panicking, exactly the entries within the
    inclusive bounds. *)
Theorem slice_correct m min max :
  valid (root m) →
  ∃ m', slice_standard m min max = Some m' ∧
        entries (root m') = filter (in_range min max) (entries (root m)) ∧
        len m' = length (entries (root m')).
Proof.
  intros (Hw & Hord & c & n & Hrbt).
  destruct (slice_spec (root m) min max) as (t' & Ht' & _ & Hw' & Hes);
    [by eapply rbt_no_double|done..|].
  unfold slice_standard. rewrite Ht'. simpl. eexists. split_and!; [done..|].
  by apply weighted_size.
Qed.

(** The explicit-stack iterator yields the entries in order and stops:
    collecting from a fresh iterator returns the whole in-order list. *)
Theorem iterator_yields_entries m fuel :
  length (entries (root m)) < fuel →
  iter_collect fuel (iter_new (root m)) = Some (entries (root m)).
Proof.
  destruct (push_left_rest [] (root m)) as [Hwf Hrest]; [constructor|].
  unfold iter_rest in Hrest at 2; simpl in Hrest. rewrite app_nil_r in Hrest.
  unfold iter_new. rewrite <-Hrest. by apply iter_collect_rest.
Qed.

(** The source's invariant check accepts exactly the trees whose sizes
    are recorded rightly and that satisfy the red-black invariant, and every
    map the operations build passes it, with logarithmic height. *)
Theorem check_invariant_accepts m :
  (∀ n, check_invariant (root m) = Some n ↔ weighted (root m) ∧ ∃ c, rbt c n (root m)) ∧
  (valid (root m) →
     is_Some (check_invariant (root m)) ∧
     height (root m) ≤ 2 * Nat.log2 (S (len m)) + 1).
Proof.
  split; [intros n; apply check_invariant_rbt|]. intros Hv.
  split; [|by apply valid_height]. destruct Hv as (Hw & _ & c & n & Hrbt).
  exists n. apply check_invariant_rbt. eauto.
Qed.

(** [from_iter] builds a well-formed map from any entries, and a transient
    session performs exactly the persistent updates until [to_persistent]
    freezes it: afterwards every update panics. *)
Theorem transient_session m key value :
  valid (root m) →
  (∀ es : list (K * V), valid (root (from_iter (M:=M) es))) ∧
  ∃ m' t' t'',
    dissoc_value (assoc_value m key value) key = Some m' ∧
    mutable_assoc (to_mutable m) key value = Some t' ∧
    mutable_dissoc t' key = Some t'' ∧
    to_persistent t'' = Some (m', mkMutable false m') ∧
    mutable_assoc (mkMutable false m') key value = None ∧
    mutable_dissoc (mkMutable false m') key = None ∧
    to_persistent (mkMutable false m') = None.
Proof.
  intros Hv. split.
  - intros es. unfold from_iter.
    assert (valid (root (standard_new (M:=M) (K:=K) (V:=V)))) as Hnew by apply valid_empty.
    revert Hnew. generalize (standard_new (M:=M) (K:=K) (V:=V)).
    induction es as [|[k v] es IH]; intros s Hs; simpl; [done|].
    apply IH. by apply put_spec.
  - destruct (put_spec (root m) key value Hv) as [Hv' _].
    destruct (remove_spec _ key Hv') as (t' & Ht' & _).
    assert (dissoc_value (assoc_value m key value) key = Some (mkStandard (metadata m) t')) as Hd
      by (unfold dissoc_value; simpl; by rewrite Ht').
    eexists _, _, _. split; [exact Hd|]. split; [done|].
    unfold mutable_dissoc at 1; simpl. rewrite Hd. simpl. done.
Qed.
End properties.

(** [slice] does not restore the red-black balance of its result: there is
    a map built by [assoc_value] alone and a slice of it that the source's own
    invariant check rejects and on which a later [dissoc_value] reaches an
    [unreachable!] and panics. *)
Theorem slice_result_unbalanced :
  ∃ m m' : Standard unit Z Z,
    valid (root m) ∧ slice_standard m 0%Z 1%Z = Some m' ∧
    check_invariant (root m') = None ∧ get m' 0%Z = Some 0%Z ∧
    dissoc_value m' 0%Z = None.
Proof.
  exists (from_iter ((λ k, (k, k)) <$> [0; 1; 2; 3]%Z)).
  eexists. split; [unfold from_iter; repeat (apply put_spec || apply valid_empty)|].
  vm_compute. split_and!; reflexivity.
Qed.

(** ** Witnesses *)
Definition sample : Standard unit Z Z :=
  from_iter ((λ k, (k, k * k)%Z) <$> [5; 1; 9; 3; 7; 2; 8; 4; 6; 0]%Z).

Lemma sample_valid : valid (root sample).
Proof.
  unfold sample, from_iter.
  repeat (apply put_spec || apply valid_empty).
Qed.

Lemma assoc_value_correct_witness :
  valid (root sample) ∧ get (assoc_value sample 3%Z 0%Z) 3%Z = Some 0%Z ∧
  entries (root (assoc_value sample 3%Z 0%Z)) = al_put 3%Z 0%Z (entries (root sample)).
Proof.
  split_and!; [exact sample_valid|reflexivity|].
  exact (proj1 (proj2 (assoc_value_correct sample 3%Z 0%Z sample_valid))).
Defined.

Lemma dissoc_value_correct_witness :
  ∃ m', dissoc_value sample 5%Z = Some m' ∧ valid (root m') ∧ len m' = 9.
Proof.
  destruct (dissoc_value_correct sample 5%Z sample_valid) as (m' & Hm' & Hv & _ & _).
  exists m'. split_and!; [exact Hm'|exact Hv|].
  vm_compute in Hm'. injection Hm' as <-. reflexivity.
Defined.

Lemma get_after_update_witness :
  ∃ m', dissoc_value sample 5%Z = Some m' ∧
    get (assoc_value sample 5%Z 0%Z) 5%Z = Some 0%Z ∧ get m' 5%Z = None ∧
    get m' 7%Z = Some 49%Z.
Proof.
  eexists. split; [vm_compute; reflexivity|].
  match goal with
  | |- _ ∧ get ?m' _ = None ∧ _ =>
      pose proof (get_after_update sample 5%Z 0%Z 5%Z m' sample_valid) as H;
      destruct H as [Hput Hdel]; [vm_compute; reflexivity|]
  end.
  split_and!; [exact Hput|exact Hdel|vm_compute; reflexivity].
Defined.

Lemma order_statistics_witness :
  valid (root sample) ∧ nth_entry (root sample) 3 = Some (3, 9)%Z ∧
  nth_entry (root sample) 3 = entries (root sample) !! 3 ∧
  inclusive_floor_index sample 20%Z = Some 9 ∧ ceil_index sample 20%Z = None.
Proof.
  destruct (order_statistics sample 20%Z 3 sample_valid) as (_ & Hnth & _ & Hfloor & Hceil).
  split_and!; [exact sample_valid|vm_compute; reflexivity|exact Hnth| |].
  - rewrite Hfloor. vm_compute. reflexivity.
  - rewrite Hceil. vm_compute. reflexivity.
Defined.

Lemma slice_correct_witness :
  ∃ m', slice_standard sample 2%Z 4%Z = Some m' ∧
        entries (root m') = [(2, 4); (3, 9); (4, 16)]%Z.
Proof.
  destruct (slice_correct sample 2%Z 4%Z sample_valid) as (m' & Hm' & Hes & _).
  exists m'. split; [exact Hm'|]. rewrite Hes. vm_compute. reflexivity.
Defined.

Lemma iterator_yields_entries_witness :
  iter_collect 11 (iter_new (root sample)) = Some (entries (root sample)).
Proof. apply (iterator_yields_entries sample 11). vm_compute. lia. Defined.

Lemma check_invariant_accepts_witness :
  valid (root sample) ∧ is_Some (check_invariant (root sample)).
Proof.
  split; [exact sample_valid|].
  exact (proj1 (proj2 (check_invariant_accepts sample) sample_valid)).
Defined.

Lemma transient_session_witness :
  valid (root sample) ∧ ∃ m', dissoc_value (assoc_value sample 77%Z 1%Z) 77%Z = Some m'.
Proof.
  split; [exact sample_valid|].
  destruct (transient_session sample 77%Z 1%Z sample_valid) as [_ (m' & _ & _ & Hm' & _)].
  exists m'. exact Hm'.
Defined.
