(* ===== verification/Bytes.v ===== *)
(** * Byte readers and writers

    The [Reader] and [Writer] of [src/core/rust/src/vm/artifact.rs]: big-endian
    integers, length-prefixed strings and sequences over a byte slice with a
    cursor. Strings are Rust's: byte sequences that are valid UTF-8. The file
    ends with the round-trip calculus the codecs are proved with. *)
From Stdlib Require Import Strings.Byte.
From S2P Require Import Prelude.
#[local] Open Scope N_scope.

(** A failed operation returns an [Err] with a message; a [panic!] unwinds. *)
Inductive failure :=
| Failed (message : string)
| Panicked (message : string).

(** ** Machine integers *)
Definition U8_MAX : N := 255.
Definition U16_MAX : N := 65535.
Definition U32_MAX : N := 4294967295.
Definition U64_MAX : N := 18446744073709551615.
(** [usize] on the 64-bit targets. *)
Definition USIZE_MAX : N := U64_MAX.
(** Rust allocates no object larger than [isize::MAX] bytes. *)
Definition ISIZE_MAX : N := 9223372036854775807.

Definition byte_of_N (n : N) : byte :=
  match Byte.of_N (n mod 256) with Some b => b | None => x00 end.

(** [to_be_bytes]: the [w] low bytes of [n], most significant first. *)
Fixpoint to_be_bytes (w : nat) (n : N) : list byte :=
  match w with
  | O => []
  | S w => to_be_bytes w (n / 256) ++ [byte_of_N n]
  end.

(** [from_be_bytes]. *)
Definition from_be_bytes (l : list byte) : N :=
  foldl (λ acc b, acc * 256 + Byte.to_N b) 0 l.

(** Two's complement: [as u64] and [as i64]. *)
Definition i64_as_u64 (z : Z) : N := Z.to_N (z mod 2 ^ 64).
Definition u64_as_i64 (n : N) : Z :=
  if n <? 2 ^ 63 then Z.of_N n else (Z.of_N n - 2 ^ 64)%Z.

(** ** UTF-8 *)
Definition continuation (b : byte) : bool := (128 <=? Byte.to_N b) && (Byte.to_N b <=? 191).
Definition within (lo hi : N) (b : byte) : bool := (lo <=? Byte.to_N b) && (Byte.to_N b <=? hi).

(** The well-formed byte sequences [String::from_utf8] accepts. *)
Fixpoint utf8_valid (l : list byte) : bool :=
  match l with
  | [] => true
  | a :: l1 =>
      if within 0 127 a then utf8_valid l1 else
      match l1 with
      | [] => false
      | b :: l2 =>
          if within 194 223 a then continuation b && utf8_valid l2 else
          match l2 with
          | [] => false
          | c :: l3 =>
              if within 224 239 a then
                within (if Byte.to_N a =? 224 then 160 else 128)
                       (if Byte.to_N a =? 237 then 159 else 191) b
                && continuation c && utf8_valid l3
              else
              match l3 with
              | [] => false
              | d :: l4 =>
                  within 240 244 a &&
                  within (if Byte.to_N a =? 240 then 144 else 128)
                         (if Byte.to_N a =? 244 then 143 else 191) b
                  && continuation c && continuation d && utf8_valid l4
              end
          end
      end
  end.

(** The invariant of a Rust [String]. *)
Definition rust_string (s : string) : Prop := utf8_valid (String.list_byte_of_string s) = true.
#[export] Instance rust_string_dec s : Decision (rust_string s).
Proof. unfold rust_string. apply _. Defined.

(** ** Writer *)
Record Writer := mkWriter { wbytes : list byte }.
Abbreviation write := (prog Writer failure).

Definition write_raw (l : list byte) : write () :=
  modify (λ w, mkWriter (wbytes w ++ l)).
Definition write_byte (value : N) : write () := write_raw [byte_of_N value].
Definition write_bool (value : bool) : write () := write_byte (if value then 1 else 0).
Definition write_u16 (value : N) : write () := write_raw (to_be_bytes 2 value).
Definition write_u32 (value : N) : write () := write_raw (to_be_bytes 4 value).
Definition write_u64 (value : N) : write () := write_raw (to_be_bytes 8 value).
Definition write_i64 (value : Z) : write () := write_raw (to_be_bytes 8 (i64_as_u64 value)).
Definition write_usize32 (value : N) : write () :=
  if value <=? U32_MAX then write_u32 value
  else fail (Failed "bytecode field is too large").
Definition write_len (value : nat) : write () := write_usize32 (N.of_nat value).
Definition write_bytes (value : list byte) : write () :=
  write_len (length value);; write_raw value.
Definition write_string (value : string) : write () := write_bytes (String.list_byte_of_string value).
Definition write_option_string (value : option string) : write () :=
  match value with
  | Some v => write_byte 1;; write_string v
  | None => write_byte 0
  end.
Definition write_option_u16 (value : option N) : write () :=
  match value with
  | Some v => write_byte 1;; write_u16 v
  | None => write_byte 0
  end.
Definition write_option_u32 (value : option N) : write () :=
  match value with
  | Some v => write_byte 1;; write_u32 v
  | None => write_byte 0
  end.

(** A length followed by the elements. *)
Definition write_many {A} (item : A → write ()) (values : list A) : write () :=
  write_len (length values);; each item values.

(** ** Reader *)
Record Reader := mkReader { bytes : list byte; cursor : N }.
Abbreviation read := (prog Reader failure).

Definition reader_new (bytes : list byte) : Reader := mkReader bytes 0.
Definition remaining (r : Reader) : nat := (length (bytes r) - N.to_nat (cursor r))%nat.

Definition reader_take (size : N) : read (list byte) := λ r,
  let end_ := cursor r + size in
  if USIZE_MAX <? end_ then (Err (Failed "bytecode artifact length overflow"), r)
  else if N.of_nat (length (bytes r)) <? end_ then
    (Err (Failed "bytecode artifact is truncated"), r)
  else
    (Ok (take (N.to_nat size) (drop (N.to_nat (cursor r)) (bytes r))),
     mkReader (bytes r) end_).
Definition read_byte : read N := l ← reader_take 1; mret (from_be_bytes l).
Definition boolean : read bool :=
  b ← read_byte;
  match b with
  | 0 => mret false
  | 1 => mret true
  | _ => fail (Failed "bytecode artifact contains invalid boolean")
  end.
Definition read_u16 : read N := l ← reader_take 2; mret (from_be_bytes l).
Definition read_u32 : read N := l ← reader_take 4; mret (from_be_bytes l).
Definition read_u64 : read N := l ← reader_take 8; mret (from_be_bytes l).
Definition read_i64 : read Z := l ← reader_take 8; mret (u64_as_i64 (from_be_bytes l)).
Definition read_bytes : read (list byte) := size ← read_u32; reader_take size.
Definition read_string : read string :=
  l ← read_bytes;
  if utf8_valid l then mret (String.string_of_list_byte l)
  else fail (Failed "bytecode artifact contains invalid UTF-8").
Definition read_option_string : read (option string) :=
  b ← boolean; if b : bool then (v ← read_string; mret (Some v)) else mret None.
Definition read_option_u16 : read (option N) :=
  b ← boolean; if b : bool then (v ← read_u16; mret (Some v)) else mret None.
Definition read_option_u32 : read (option N) :=
  b ← boolean; if b : bool then (v ← read_u32; mret (Some v)) else mret None.
Definition many {A} (item : read A) : read (list A) :=
  size ← read_u32; times (N.to_nat size) item.
Definition finish : read () := λ r,
  if cursor r =? N.of_nat (length (bytes r)) then (Ok tt, r)
  else (Err (Failed "bytecode artifact has trailing payload bytes"), r).

(** ** Integer round trips *)
Lemma byte_of_N_to_N b : byte_of_N (Byte.to_N b) = b.
Proof. destruct b; reflexivity. Qed.

Lemma to_N_byte_of_N n : Byte.to_N (byte_of_N n) = n mod 256.
Proof.
  unfold byte_of_N. destruct (Byte.of_N (n mod 256)) as [b|] eqn:Hb.
  - by apply Byte.to_of_N.
  - apply Byte.of_N_None_iff in Hb. pose proof (N.mod_lt n 256). lia.
Qed.

Lemma to_N_bound b : Byte.to_N b < 256.
Proof. pose proof (Byte.to_N_bounded b). lia. Qed.

Lemma length_to_be_bytes w n : length (to_be_bytes w n) = w.
Proof.
  revert n. induction w as [|w IH]; intros n; simpl; [done|].
  rewrite length_app, IH. simpl. lia.
Qed.

Lemma from_be_bytes_snoc l b : from_be_bytes (l ++ [b]) = from_be_bytes l * 256 + Byte.to_N b.
Proof. unfold from_be_bytes. by rewrite foldl_app. Qed.

Lemma from_to_be_bytes w n : n < 256 ^ N.of_nat w → from_be_bytes (to_be_bytes w n) = n.
Proof.
  revert n. induction w as [|w IH]; intros n Hn.
  - simpl in Hn. by replace n with 0 by lia.
  - cbn [to_be_bytes]. rewrite from_be_bytes_snoc, to_N_byte_of_N, IH.
    + pose proof (N.div_mod n 256). lia.
    + rewrite Nnat.Nat2N.inj_succ, N.pow_succ_r' in Hn. by apply N.Div0.div_lt_upper_bound.
Qed.

Lemma from_be_bytes_bound l : from_be_bytes l < 256 ^ N.of_nat (length l).
Proof.
  induction l as [|b l IH] using rev_ind; [done|].
  rewrite from_be_bytes_snoc, length_app, Nat.add_1_r, Nnat.Nat2N.inj_succ, N.pow_succ_r'.
  pose proof (to_N_bound b). nia.
Qed.

Lemma to_from_be_bytes l : to_be_bytes (length l) (from_be_bytes l) = l.
Proof.
  induction l as [|b l IH] using rev_ind; [done|].
  rewrite length_app, Nat.add_1_r. cbn [to_be_bytes].
  rewrite from_be_bytes_snoc. pose proof (to_N_bound b).
  rewrite N.div_add_l, N.div_small, N.add_0_r, IH by lia. f_equal. f_equal.
  unfold byte_of_N. rewrite N.add_comm, N.Div0.mod_add, N.mod_small by done.
  by rewrite Byte.of_to_N.
Qed.

Lemma i64_u64_i64 z : (- 2 ^ 63 ≤ z < 2 ^ 63)%Z → u64_as_i64 (i64_as_u64 z) = z.
Proof.
  intros Hz. unfold u64_as_i64, i64_as_u64.
  assert (z mod 2 ^ 64 = if decide (0 ≤ z) then z else z + 2 ^ 64)%Z as ->.
  { case_decide; [by apply Z.mod_small; lia|].
    symmetry. apply (Z.mod_unique_pos _ _ (-1)); lia. }
  case_decide; [destruct (N.ltb_spec (Z.to_N z) (2 ^ 63))
               |destruct (N.ltb_spec (Z.to_N (z + 2 ^ 64)) (2 ^ 63))]; lia.
Qed.

Lemma u64_as_i64_range n :
  n ≤ U64_MAX → (- 2 ^ 63 ≤ u64_as_i64 n < 2 ^ 63)%Z.
Proof.
  unfold u64_as_i64, U64_MAX. intros Hn. destruct (N.ltb_spec n (2 ^ 63)); lia.
Qed.

(** ** The round-trip calculus *)
Section codec.
Local Open Scope nat_scope.

(** [m] reads [v] off the bytes [enc], wherever they lie in the slice, and
    leaves the cursor behind them. *)
Definition reads {A} (m : read A) (enc : list byte) (v : A) : Prop :=
  ∀ pre suf, (N.of_nat (length (pre ++ enc ++ suf)) ≤ ISIZE_MAX)%N →
    m (mkReader (pre ++ enc ++ suf) (N.of_nat (length pre))) =
    (Ok v, mkReader (pre ++ enc ++ suf) (N.of_nat (length pre + length enc))).

(** Whatever [w] writes without failing, [m] reads back as [v]; [m] may take
    fuel, of which the length of the encoding is enough. *)
Definition codec {A} (w : write ()) (m : nat → read A) (v : A) : Prop :=
  ∀ b b', w b = (Ok tt, b') →
    ∃ enc, wbytes b' = wbytes b ++ enc ∧
           ∀ fuel, length enc ≤ fuel → reads (m fuel) enc v.

Lemma reads_ret {A} (v : A) : reads (mret v) [] v.
Proof. intros pre suf _. cbn [app length]. by rewrite Nat.add_0_r. Qed.

Lemma reads_bind {A B} (m : read A) (k : A → read B) e1 e2 v1 v2 :
  reads m e1 v1 → reads (k v1) e2 v2 → reads (m ≫= k) (e1 ++ e2) v2.
Proof.
  intros H1 H2 pre suf Hlen. unfold mbind, prog_bind. rewrite <-app_assoc in *.
  rewrite (H1 pre (e2 ++ suf)) by done.
  assert (pre ++ e1 ++ e2 ++ suf = (pre ++ e1) ++ e2 ++ suf) as Heq by by rewrite <-app_assoc.
  rewrite Heq in *. rewrite <-length_app, (H2 (pre ++ e1) suf) by done.
  do 3 f_equal. rewrite !length_app. lia.
Qed.

Lemma reads_take enc : reads (reader_take (N.of_nat (length enc))) enc enc.
Proof.
  intros pre suf Hlen. unfold reader_take, USIZE_MAX, U64_MAX, ISIZE_MAX in *. cbn [cursor bytes].
  rewrite !length_app in *.
  destruct (N.ltb_spec 18446744073709551615 (N.of_nat (length pre) + N.of_nat (length enc))); [lia|].
  destruct (N.ltb_spec (N.of_nat (length pre + (length enc + length suf)))
             (N.of_nat (length pre) + N.of_nat (length enc))); [lia|].
  rewrite !Nnat.Nat2N.id, drop_app_length, take_app_length.
  do 2 f_equal. lia.
Qed.

Lemma reads_map {A B} (m : read A) (f : A → B) enc v :
  reads m enc v → reads (x ← m; mret (f x)) enc (f v).
Proof.
  intros H. rewrite <-(app_nil_r enc). eapply reads_bind; [done|apply reads_ret].
Qed.

Lemma reads_be (w : nat) n :
  (n < 256 ^ N.of_nat w)%N →
  reads (l ← reader_take (N.of_nat w); mret (from_be_bytes l)) (to_be_bytes w n) n.
Proof.
  intros Hn. rewrite <-(from_to_be_bytes w n Hn) at 2. apply reads_map.
  rewrite <-(length_to_be_bytes w n) at 1. apply reads_take.
Qed.

Lemma reads_byte n : (n < 256)%N → reads read_byte [byte_of_N n] n.
Proof. exact (reads_be 1 n). Qed.

Lemma codec_ret {A} (v : A) : codec (mret tt) (λ _, mret v) v.
Proof. intros b b' [= <-]. exists []. split; [by rewrite app_nil_r|]. intros _ _. apply reads_ret. Qed.

Lemma codec_bind {A B} (w1 w2 : write ()) (m : nat → read A) (k : nat → A → read B) v1 v2 :
  codec w1 m v1 → codec w2 (λ fuel, k fuel v1) v2 →
  codec (w1;; w2) (λ fuel, m fuel ≫= k fuel) v2.
Proof.
  intros H1 H2 b b' Hw. apply prog_bind_ok in Hw as ([] & b0 & Hw1 & Hw2).
  destruct (H1 _ _ Hw1) as (e1 & He1 & Hr1). destruct (H2 _ _ Hw2) as (e2 & He2 & Hr2).
  exists (e1 ++ e2). split; [by rewrite He2, He1, app_assoc|].
  intros fuel Hfuel. rewrite length_app in Hfuel.
  eapply reads_bind; [apply Hr1; lia|apply Hr2; lia].
Qed.

(** The last step of a reader returns what it assembled without reading. *)
Lemma codec_map {A B} (w : write ()) (m : nat → read A) (f : A → B) v :
  codec w m v → codec w (λ fuel, x ← m fuel; mret (f x)) (f v).
Proof.
  intros H b b' Hw. destruct (H _ _ Hw) as (e & He & Hr). exists e. split; [done|].
  intros fuel Hfuel. rewrite <-(app_nil_r e). eapply reads_bind; [by apply Hr|apply reads_ret].
Qed.

Lemma codec_ext {A} (w w' : write ()) (m m' : nat → read A) v :
  codec w m v → (∀ b, w' b = w b) → (∀ fuel, m' fuel = m fuel) → codec w' m' v.
Proof.
  intros H Hw Hm b b' Hb. rewrite Hw in Hb. destruct (H _ _ Hb) as (e & ? & Hr).
  exists e. split; [done|]. intros fuel Hfuel. rewrite Hm. by apply Hr.
Qed.

Lemma codec_raw {A} enc (m : read A) v : reads m enc v → codec (write_raw enc) (λ _, m) v.
Proof. intros H b b' [= <-]. exists enc. split; [done|]. by intros _ _. Qed.

Lemma codec_fail {A} e (m : nat → read A) v : codec (fail e) m v.
Proof. by intros b b' [=]. Qed.

Lemma codec_if_fail {A} (c : bool) w e (m : nat → read A) v :
  (c = true → codec w m v) → codec (if c then w else fail e) m v.
Proof. destruct c; [auto|]. intros _. apply codec_fail. Qed.

(** A recursive reader spends one unit of fuel per tag byte. *)
Lemma codec_tag {A} (tag : N) (w : write ()) (k : nat → N → read A) (m' : nat → read A) v :
  (tag < 256)%N →
  (∀ fuel, m' (S fuel) = (t ← read_byte; k fuel t)) →
  codec w (λ fuel, k fuel tag) v →
  codec (write_byte tag;; w) m' v.
Proof.
  intros Htag Hm' Hw b b' Hb. apply prog_bind_ok in Hb as ([] & b0 & Hw1 & Hw2).
  injection Hw1 as <-. destruct (Hw _ _ Hw2) as (e & He & Hr).
  exists (byte_of_N tag :: e). split; [by rewrite He; cbn; rewrite <-app_assoc|].
  intros [|fuel] Hfuel; cbn in Hfuel; [lia|]. rewrite Hm'.
  apply (reads_bind read_byte _ [byte_of_N tag] e tag); [by apply reads_byte|].
  apply Hr. lia.
Qed.

(** *** Codecs of the primitive fields *)
Lemma codec_byte n : (n < 256)%N → codec (write_byte n) (λ _, read_byte) n.
Proof. intros Hn. by apply codec_raw, reads_byte. Qed.

Lemma codec_bool b : codec (write_bool b) (λ _, boolean) b.
Proof.
  apply codec_raw, (reads_bind read_byte _ [_] [] (if b then 1 else 0)%N).
  - apply reads_byte. by destruct b.
  - destruct b; apply reads_ret.
Qed.

Lemma codec_u16 n : (n ≤ U16_MAX)%N → codec (write_u16 n) (λ _, read_u16) n.
Proof. intros Hn. apply codec_raw, (reads_be 2). unfold U16_MAX in Hn. cbn. lia. Qed.
Lemma codec_u32 n : (n ≤ U32_MAX)%N → codec (write_u32 n) (λ _, read_u32) n.
Proof. intros Hn. apply codec_raw, (reads_be 4). unfold U32_MAX in Hn. cbn. lia. Qed.
Lemma codec_u64 n : (n ≤ U64_MAX)%N → codec (write_u64 n) (λ _, read_u64) n.
Proof. intros Hn. apply codec_raw, (reads_be 8). unfold U64_MAX in Hn. cbn. lia. Qed.

Lemma codec_i64 z : (- 2 ^ 63 ≤ z < 2 ^ 63)%Z → codec (write_i64 z) (λ _, read_i64) z.
Proof.
  intros Hz. apply codec_raw. rewrite <-(i64_u64_i64 z Hz) at 2.
  rewrite <-(from_to_be_bytes 8 (i64_as_u64 z)) at 2.
  - apply (reads_map _ (λ l, u64_as_i64 (from_be_bytes l))). apply reads_take.
  - unfold i64_as_u64. pose proof (Z.mod_pos_bound z (2 ^ 64)). cbn. lia.
Qed.

Lemma codec_len n : codec (write_len n) (λ _, read_u32) (N.of_nat n).
Proof.
  apply codec_if_fail. intros Hn%N.leb_le. by apply codec_u32.
Qed.

Lemma codec_usize32 n : codec (write_usize32 n) (λ _, read_u32) n.
Proof.
  apply codec_if_fail. intros Hn%N.leb_le. by apply codec_u32.
Qed.

Lemma codec_bytes l : codec (write_bytes l) (λ _, read_bytes) l.
Proof.
  eapply codec_bind; [apply codec_len|]. apply codec_raw, reads_take.
Qed.

Lemma codec_string s : rust_string s → codec (write_string s) (λ _, read_string) s.
Proof.
  intros Hs b b' Hb. destruct (codec_bytes (String.list_byte_of_string s) _ _ Hb) as (e & He & Hr).
  exists e. split; [done|]. intros fuel Hfuel. rewrite <-(app_nil_r e).
  eapply reads_bind; [by apply (Hr fuel)|]. rewrite Hs, String.string_of_list_byte_of_string.
  apply reads_ret.
Qed.

Lemma codec_option {A} (w : A → write ()) (m : nat → read A) v :
  (∀ x, v = Some x → codec (w x) m x) →
  codec (match v with Some x => write_byte 1;; w x | None => write_byte 0 end)
        (λ fuel, b ← boolean; if b : bool then (x ← m fuel; mret (Some x)) else mret None) v.
Proof.
  intros H. destruct v as [x|].
  - apply (codec_bind (write_bool true) (w x) (λ _, boolean) _ true); [apply codec_bool|].
    apply codec_map. auto.
  - intros b b' Hb. destruct (codec_bool false b b' Hb) as (e & He & Hr). exists e.
    split; [done|]. intros fuel Hfuel. rewrite <-(app_nil_r e).
    eapply reads_bind; [by apply (Hr fuel)|apply reads_ret].
Qed.

Lemma codec_times {A B} (g : A → B) (w : A → write ()) (m : nat → read B) l :
  Forall (λ x, codec (w x) m (g x)) l →
  codec (each w l) (λ fuel, times (length l) (m fuel)) (g <$> l).
Proof.
  induction 1 as [|x l Hx _ IH]; cbn; [apply codec_ret|].
  eapply codec_bind; [exact Hx|]. by apply codec_map.
Qed.

(** Elements read back as [g] of what was written. *)
Lemma codec_many_map {A B} (g : A → B) (w : A → write ()) (m : nat → read B) l :
  Forall (λ x, codec (w x) m (g x)) l →
  codec (write_many w l) (λ fuel, many (m fuel)) (g <$> l).
Proof.
  intros H. eapply codec_bind; [apply codec_len|].
  eapply codec_ext; [by apply codec_times|done|]. intros fuel. cbn. by rewrite Nnat.Nat2N.id.
Qed.

Lemma codec_many {A} (w : A → write ()) (m : nat → read A) l :
  Forall (λ x, codec (w x) m x) l →
  codec (write_many w l) (λ fuel, many (m fuel)) l.
Proof. intros H. rewrite <-(list_fmap_id l) at 2. by apply (codec_many_map id). Qed.
End codec.

Create HintDb codec discriminated.
#[export] Hint Resolve codec_bool codec_u16 codec_u32 codec_u64 codec_i64 codec_byte
  codec_len codec_usize32 codec_bytes codec_string codec_ret codec_fail codec_many : codec.

(** ** Fuel *)
Section steady.
Local Open Scope nat_scope.

(** Below [n] units, any fuel that exceeds the remaining bytes gives the same
    result, and a reader never gives bytes back. *)
Definition steady {A} (n : nat) (m : nat → read A) : Prop :=
  ∀ r fuel, fuel < n →
    (∀ fuel', fuel' < n → remaining r < fuel → remaining r < fuel' →
       m fuel r = m fuel' r) ∧
    (∀ v r', m fuel r = (Ok v, r') → remaining r' ≤ remaining r).

Lemma steady_const {A} n (m : read A) :
  (∀ r v r', m r = (Ok v, r') → remaining r' ≤ remaining r) → steady n (λ _, m).
Proof. intros H r fuel _. split; [done|apply H]. Qed.

Lemma steady_ret {A} n (v : A) : steady n (λ _, mret v).
Proof. apply steady_const. by intros r v' r' [= _ <-]. Qed.

Lemma steady_fail {A} n e : steady n (λ _, @fail _ _ A e).
Proof. by apply steady_const. Qed.

Lemma steady_bind {A B} n (m : nat → read A) (k : nat → A → read B) :
  steady n m → (∀ v, steady n (λ fuel, k fuel v)) → steady n (λ fuel, m fuel ≫= k fuel).
Proof.
  intros Hm Hk r fuel Hn. destruct (Hm r fuel Hn) as [Hst Hsh]. split.
  - intros fuel' Hn' Hf Hf'. unfold mbind, prog_bind. rewrite <-(Hst fuel' Hn' Hf Hf').
    destruct (m fuel r) as [[v|e] r'] eqn:Hr; [|done].
    specialize (Hsh _ _ eq_refl). apply Hk; lia.
  - intros v r' (x & r0 & Hr0 & Hr')%prog_bind_ok.
    apply Hsh in Hr0. apply Hk in Hr'; lia.
Qed.

Lemma steady_if {A} n (b : bool) (m1 m2 : nat → read A) :
  steady n m1 → steady n m2 → steady n (λ fuel, if b then m1 fuel else m2 fuel).
Proof. by destruct b. Qed.

Lemma reader_take_ok size r v r' :
  reader_take size r = (Ok v, r') → remaining r' = remaining r - N.to_nat size ∧
    N.to_nat size ≤ remaining r.
Proof.
  unfold reader_take, remaining. destruct (_ <? _)%N; [done|].
  destruct (N.ltb_spec (N.of_nat (length (bytes r))) (cursor r + size)); [done|].
  intros [= _ <-]. cbn [bytes cursor]. lia.
Qed.

Lemma read_byte_ok r v r' : read_byte r = (Ok v, r') → S (remaining r') = remaining r.
Proof.
  unfold read_byte. intros (l & r0 & Hl%reader_take_ok & [= _ <-])%prog_bind_ok. lia.
Qed.

Lemma steady_take n size : steady n (λ _, reader_take size).
Proof. apply steady_const. intros r v r' H%reader_take_ok. lia. Qed.

Lemma steady_times {A} n k (m : nat → read A) :
  steady n m → steady n (λ fuel, times k (m fuel)).
Proof.
  intros Hm. induction k as [|k IH]; cbn; [apply steady_ret|].
  apply (steady_bind n m (λ fuel x, xs ← times k (m fuel); mret (x :: xs))); [done|].
  intros v. apply (steady_bind n (λ fuel, times k (m fuel)) (λ fuel xs, mret (v :: xs))); [done|].
  intros xs. apply steady_ret.
Qed.

Lemma steady_u32 n : steady n (λ _, read_u32).
Proof. apply (steady_bind n (λ _, reader_take 4) (λ _ l, mret (from_be_bytes l))); [apply steady_take|intros; apply steady_ret]. Qed.

Lemma steady_many {A} n (m : nat → read A) : steady n m → steady n (λ fuel, many (m fuel)).
Proof.
  intros Hm. apply (steady_bind n (λ _, read_u32) (λ fuel size, times (N.to_nat size) (m fuel)));
    [apply steady_u32|]. intros. by apply steady_times.
Qed.

Lemma steady_byte n : steady n (λ _, read_byte).
Proof. apply (steady_bind n (λ _, reader_take 1) (λ _ l, mret (from_be_bytes l))); [apply steady_take|intros; apply steady_ret]. Qed.

(** A recursive reader that spends a tag byte per unit of fuel. *)
Lemma steady_rec {A} (m : nat → read A) (k : nat → N → read A) :
  (∀ fuel, m (S fuel) = (t ← read_byte; k fuel t)) →
  (∀ r v, (m 0 r).1 ≠ Ok v) →
  (∀ n, steady n m → ∀ t, steady n (λ fuel, k fuel t)) →
  ∀ n, steady n m.
Proof.
  intros Hm H0 Hk n. induction n as [|n IH]; [intros r fuel; lia|].
  specialize (Hk n IH). intros r [|fuel] Hn.
  - split; [lia|]. intros v r' Hr. destruct (H0 r v). by rewrite Hr.
  - split.
    + intros [|fuel'] Hn' Hf Hf'; [lia|]. rewrite !Hm. unfold mbind, prog_bind.
      destruct (read_byte r) as [[t|e] r'] eqn:Hr; [|done]. apply read_byte_ok in Hr.
      apply Hk; lia.
    + intros v r'. rewrite Hm. intros (t & r0 & Hr0 & Hr')%prog_bind_ok.
      apply read_byte_ok in Hr0. apply Hk in Hr'; lia.
Qed.
End steady.
