(* ===== verification/Text.v ===== *)
(** * Text

    What the reader and the printer use of Rust's [char], [str] and number
    parsing. A [char] is its Unicode scalar value; a text is the list of its
    characters, which [utf8] and [chars] relate to the bytes of a [String].
    [f64] is its IEEE bits; parsing rounds to the nearest with the Standard
    Library's specification of floating-point arithmetic. *)
From Stdlib Require Import Ascii Strings.Byte.
From Corelib Require Import SpecFloat.
From S2P Require Import Prelude Bytes.
#[local] Open Scope N_scope.

(** ** Characters *)
Notation char := N (only parsing).

(** The character of an ASCII literal. *)
Definition ch (a : ascii) : char := N_of_ascii a.

(** The Unicode scalar values, which are the values of a [char]. *)
Definition scalar (c : N) : bool := (c <? 55296) || ((57343 <? c) && (c <=? 1114111)).

Definition len_utf8 (c : char) : nat :=
  if c <? 128 then 1 else if c <? 2048 then 2 else if c <? 65536 then 3 else 4.

Definition encode_utf8 (c : char) : list byte :=
  if c <? 128 then [byte_of_N c]
  else if c <? 2048 then [byte_of_N (192 + c / 64); byte_of_N (128 + c mod 64)]
  else if c <? 65536 then
    [byte_of_N (224 + c / 4096); byte_of_N (128 + c / 64 mod 64); byte_of_N (128 + c mod 64)]
  else
    [byte_of_N (240 + c / 262144); byte_of_N (128 + c / 4096 mod 64);
     byte_of_N (128 + c / 64 mod 64); byte_of_N (128 + c mod 64)].

Definition utf8_bytes (l : list char) : list byte := concat (encode_utf8 <$> l).
Definition utf8 (l : list char) : string := String.string_of_list_byte (utf8_bytes l).

(** [str::chars]. *)
Fixpoint decode_utf8 (l : list byte) : list char :=
  match l with
  | [] => []
  | a :: l1 =>
      let a := Byte.to_N a in
      if a <? 128 then a :: decode_utf8 l1 else
      match l1 with
      | [] => []
      | b :: l2 =>
          let b := Byte.to_N b - 128 in
          if a <? 224 then ((a - 192) * 64 + b) :: decode_utf8 l2 else
          match l2 with
          | [] => []
          | c :: l3 =>
              let c := Byte.to_N c - 128 in
              if a <? 240 then ((a - 224) * 4096 + b * 64 + c) :: decode_utf8 l3 else
              match l3 with
              | [] => []
              | d :: l4 =>
                  let d := Byte.to_N d - 128 in
                  ((a - 240) * 262144 + b * 4096 + c * 64 + d) :: decode_utf8 l4
              end
          end
      end
  end.
Definition chars (s : string) : list char := decode_utf8 (String.list_byte_of_string s).

(** [char::is_whitespace], [is_control] and the ASCII classes. *)
Definition between (lo hi c : N) : bool := (lo <=? c) && (c <=? hi).
Definition is_whitespace (c : char) : bool :=
  between 9 13 c || (c =? 32) || (c =? 133) || (c =? 160) || (c =? 5760) || between 8192 8202 c
  || (c =? 8232) || (c =? 8233) || (c =? 8239) || (c =? 8287) || (c =? 12288).
Definition is_control (c : char) : bool := (c <? 32) || between 127 159 c.
Definition is_ascii_digit (c : char) : bool := between 48 57 c.
Definition is_octal_digit (c : char) : bool := between 48 55 c.
Definition is_ascii_hexdigit (c : char) : bool := between 48 57 c || between 65 70 c || between 97 102 c.
Definition is_ascii_letter (c : char) : bool := between 65 90 c || between 97 122 c.

(** [char::to_digit]. *)
Definition to_digit (radix : N) (c : char) : option N :=
  let d :=
    if between 48 57 c then Some (c - 48)
    else if between 97 122 c then Some (c - 87)
    else if between 65 90 c then Some (c - 55)
    else None in
  match d with Some d => if d <? radix then Some d else None | None => None end.

(** What is used of Rust's Unicode tables beyond the ranges above, of
    [num_bigint], and of the shortest decimal text of a float. *)
Class TextEnv := {
  (** [char::is_alphabetic]. *)
  is_alphabetic : char → bool;
  (** [BigInt::parse_bytes(digits, radix)]. *)
  parse_bytes : list char → N → option Z;
  (** [BigInt::to_string]. *)
  bigint_display : Z → list char;
  (** [format!("{}", f64)] of a finite number. *)
  float_display : N → list char;
}.

(** ** Texts *)
Definition strip_prefix (prefix l : list char) : option (list char) :=
  if decide (prefix `prefix_of` l) then Some (drop (length prefix) l) else None.
Definition first_is (p : char → bool) (l : list char) : bool :=
  match l with c :: _ => p c | [] => false end.
Definition last_is (p : char → bool) (l : list char) : bool :=
  match last l with Some c => p c | None => false end.

(** [str::split_once]: the text before and after the first separator. *)
Fixpoint split_once (p : char → bool) (l : list char) : option (list char * list char) :=
  match l with
  | [] => None
  | c :: l => if p c then Some ([], l) else (λ q, (c :: q.1, q.2)) <$> split_once p l
  end.

(** The longest prefix whose characters satisfy a predicate. *)
Fixpoint take_while (p : char → bool) (l : list char) : list char :=
  match l with c :: l => if p c then c :: take_while p l else [] | [] => [] end.

(** ** Integers in text *)
Definition digits_value (radix : N) (l : list char) : option N :=
  foldl (λ acc c, acc ← acc; d ← to_digit radix c; Some (acc * radix + d)) (Some 0) l.

(** [u32::from_str_radix], [parse::<u32>] and [parse::<usize>]: an optional
    [+], at least one digit, and no overflow. *)
Definition parse_unsigned (maximum radix : N) (l : list char) : option N :=
  let digits := match l with c :: rest => if c =? ch "+" then rest else l | [] => [] end in
  match digits with
  | [] => None
  | _ =>
      n ← digits_value radix digits;
      if n <=? maximum then Some n else None
  end.

Fixpoint decimal_digits (fuel : nat) (n : N) (acc : list char) : list char :=
  match fuel with
  | O => acc
  | S fuel => if n <? 10 then (48 + n) :: acc else decimal_digits fuel (n / 10) ((48 + n mod 10) :: acc)
  end.
Definition decimal (n : N) : list char := decimal_digits (S (N.to_nat (N.log2 n))) n [].
Definition decimal_Z (z : Z) : list char :=
  if (z <? 0)%Z then ch "-" :: decimal (Z.abs_N z) else decimal (Z.abs_N z).

(** [{:04X}] of a number below 2^16. *)
Definition hex_digit (d : N) : char := if d <? 10 then 48 + d else 55 + d.
Definition hex4 (n : N) : list char :=
  [hex_digit (n / 4096 mod 16); hex_digit (n / 256 mod 16); hex_digit (n / 16 mod 16); hex_digit (n mod 16)].

(** The documented behaviour of these: the alphabetic characters below 128 are
    the letters and none is whitespace, digits parse to their value, and
    [BigInt] displays in decimal. *)
Class TextLaws `{TextEnv} : Prop := {
  alphabetic_ascii c : c < 128 → is_alphabetic c = is_ascii_letter c;
  alphabetic_visible c : is_alphabetic c = true → is_whitespace c = false;
  parse_bytes_digits radix l n :
    l ≠ [] → digits_value radix l = Some n → parse_bytes l radix = Some (Z.of_N n);
  bigint_display_decimal z : bigint_display z = decimal_Z z;
}.

(** ** Floats *)
Definition f64_fields (bits : N) : bool * N * N :=
  (N.testbit bits 63, N.shiftr bits 52 mod 2048, bits mod 2 ^ 52).
Definition is_finite (bits : N) : bool := let '(_, e, _) := f64_fields bits in negb (e =? 2047).

(** A finite float is [m * 2^e]. *)
Definition f64_parts (bits : N) : bool * N * Z :=
  let '(s, e, m) := f64_fields bits in
  if e =? 0 then (s, m, (-1074)%Z) else (s, m + 2 ^ 52, (Z.of_N e - 1075)%Z).

(** [fract() == 0.0]: the integer a finite float stands for. *)
Definition f64_integral (bits : N) : option (bool * N) :=
  let '(s, m, e) := f64_parts bits in
  if (0 <=? e)%Z then Some (s, m * 2 ^ Z.to_N e)
  else let d := 2 ^ Z.to_N (- e) in if m mod d =? 0 then Some (s, m / d) else None.

Definition f64_of_spec (f : spec_float) : N :=
  let sign (s : bool) := if s then 2 ^ 63 else 0 in
  match f with
  | S754_zero s => sign s
  | S754_infinity s => sign s + 2047 * 2 ^ 52
  | S754_nan => 2047 * 2 ^ 52 + 2 ^ 51
  | S754_finite s m e =>
      if Npos m <? 2 ^ 52 then sign s + Npos m
      else sign s + Z.to_N (e + 1075) * 2 ^ 52 + (Npos m - 2 ^ 52)
  end.

(** The float nearest to [m * 10^e]. *)
Definition f64_of_decimal (negative : bool) (m : N) (e : Z) : N :=
  f64_of_spec
    match m with
    | 0 => S754_zero negative
    | Npos p =>
        if (0 <=? e)%Z then
          binary_normalize 53 1024 (cond_Zopp negative (Zpos p * 10 ^ e)%Z) 0%Z negative
        else
          let '(q, e', l) := SFdiv_core_binary 53 1024 (Zpos p) 0%Z (10 ^ (- e))%Z 0%Z in
          binary_round_aux 53 1024 negative q e' l
    end.

Definition all_digits (l : list char) : bool := forallb is_ascii_digit l.
Definition nonempty {A} (l : list A) : bool := match l with [] => false | _ => true end.
Definition strip_sign (l : list char) : bool * list char :=
  match l with
  | c :: rest => if c =? ch "-" then (true, rest) else if c =? ch "+" then (false, rest) else (false, l)
  | [] => (false, [])
  end.

(** [parse::<f64>] of a number; the names of infinities and NaN, which it
    also accepts, do not start with a digit. *)
Definition parse_f64 (token : list char) : option N :=
  let '(negative, body) := strip_sign token in
  let '(mantissa, exponent) :=
    match split_once (λ c, (c =? ch "e") || (c =? ch "E")) body with
    | Some (m, e) => (m, Some e)
    | None => (body, None)
    end in
  let '(whole, fraction) :=
    match split_once (λ c, c =? ch ".") mantissa with Some p => p | None => (mantissa, []) end in
  exponent ←
    match exponent with
    | None => Some 0%Z
    | Some e =>
        let '(s, digits) := strip_sign e in
        if nonempty digits && all_digits digits then
          n ← digits_value 10 digits; Some (if s then - Z.of_N n else Z.of_N n)%Z
        else None
    end;
  if nonempty (whole ++ fraction) && all_digits (whole ++ fraction) then
    m ← digits_value 10 (whole ++ fraction);
    Some (f64_of_decimal negative m (exponent - Z.of_nat (length fraction)))
  else None.

(** ** Text and its bytes *)
Lemma length_encode_utf8 c : length (encode_utf8 c) = len_utf8 c.
Proof. unfold encode_utf8, len_utf8. by repeat case_match. Qed.

Lemma len_utf8_pos c : (0 < len_utf8 c)%nat.
Proof. unfold len_utf8. repeat case_match; lia. Qed.

Lemma utf8_bytes_app l k : utf8_bytes (l ++ k) = utf8_bytes l ++ utf8_bytes k.
Proof. unfold utf8_bytes. by rewrite fmap_app, concat_app. Qed.

Lemma utf8_bytes_cons c l : utf8_bytes (c :: l) = encode_utf8 c ++ utf8_bytes l.
Proof. done. Qed.

Lemma scalar_spec c : scalar c = true ↔ c < 55296 ∨ 57343 < c ≤ 1114111.
Proof. unfold scalar. rewrite orb_true_iff, andb_true_iff, !N.ltb_lt, N.leb_le. done. Qed.

Lemma byte_small n : n < 256 → Byte.to_N (byte_of_N n) = n.
Proof. intros Hn. by rewrite to_N_byte_of_N, N.mod_small. Qed.

(** The six-bit groups of a scalar value. *)
Lemma six_bits c : c = c / 64 * 64 + c mod 64 ∧ c mod 64 < 64.
Proof. pose proof (N.div_mod c 64 ltac:(done)). pose proof (N.mod_lt c 64 ltac:(done)). lia. Qed.

Lemma groups c :
  ∃ a b d e, e < 64 ∧ d < 64 ∧ b < 64 ∧ c = ((a * 64 + b) * 64 + d) * 64 + e ∧
    c mod 64 = e ∧ c / 64 = (a * 64 + b) * 64 + d ∧ c / 64 mod 64 = d ∧ c / 4096 = a * 64 + b ∧
    c / 4096 mod 64 = b ∧ c / 262144 = a.
Proof.
  exists (c / 262144), (c / 4096 mod 64), (c / 64 mod 64), (c mod 64).
  change 262144 with (64 * 64 * 64). change 4096 with (64 * 64). rewrite <-!N.Div0.div_div.
  pose proof (six_bits c). pose proof (six_bits (c / 64)). pose proof (six_bits (c / 64 / 64)). lia.
Qed.

Ltac decide_ltb :=
  repeat match goal with
  | |- context [?a <? ?b] =>
      first [rewrite (proj2 (N.ltb_lt a b)) by lia | rewrite (proj2 (N.ltb_ge a b)) by lia]
  | |- context [?a <=? ?b] =>
      first [rewrite (proj2 (N.leb_le a b)) by lia | rewrite (proj2 (N.leb_gt a b)) by lia]
  | |- context [?a =? ?b] =>
      first [rewrite (proj2 (N.eqb_eq a b)) by lia | rewrite (proj2 (N.eqb_neq a b)) by lia]
  end.

Lemma decode_utf8_encode c l : scalar c = true → decode_utf8 (encode_utf8 c ++ l) = c :: decode_utf8 l.
Proof.
  intros Hc%scalar_spec. destruct (groups c) as (a & b & d & e & He & Hd & Hb & Hg & H1 & H2 & H3 & H4 & H5 & H6).
  unfold encode_utf8. rewrite H1, H3, H5, H2, H4, H6.
  destruct (N.ltb_spec c 128); [|destruct (N.ltb_spec c 2048); [|destruct (N.ltb_spec c 65536)]];
    cbn [app decode_utf8]; rewrite !byte_small by lia; decide_ltb; f_equal; lia.
Qed.

Lemma utf8_valid_encode c l : scalar c = true → utf8_valid (encode_utf8 c ++ l) = utf8_valid l.
Proof.
  intros Hc%scalar_spec. destruct (groups c) as (a & b & d & e & He & Hd & Hb & Hg & H1 & H2 & H3 & H4 & H5 & H6).
  unfold encode_utf8. rewrite H1, H3, H5, H2, H4, H6.
  destruct (N.ltb_spec c 128); [|destruct (N.ltb_spec c 2048); [|destruct (N.ltb_spec c 65536)]];
    cbn [app utf8_valid]; unfold within, continuation; rewrite !byte_small by lia.
  - by decide_ltb.
  - by decide_ltb.
  - destruct (N.eqb_spec (224 + (a * 64 + b)) 224); destruct (N.eqb_spec (224 + (a * 64 + b)) 237); by decide_ltb.
  - destruct (N.eqb_spec (240 + a) 240); destruct (N.eqb_spec (240 + a) 244); by decide_ltb.
Qed.

Lemma decode_utf8_bytes l : Forall (λ c, scalar c = true) l → decode_utf8 (utf8_bytes l) = l.
Proof. induction 1 as [|c l Hc _ IH]; [done|]. rewrite utf8_bytes_cons, decode_utf8_encode, IH; done. Qed.

Lemma chars_utf8 l : Forall (λ c, scalar c = true) l → chars (utf8 l) = l.
Proof. intros Hl. unfold chars, utf8. rewrite String.list_byte_of_string_of_list_byte. by apply decode_utf8_bytes. Qed.

Lemma rust_string_utf8 l : Forall (λ c, scalar c = true) l → rust_string (utf8 l).
Proof.
  intros Hl. unfold rust_string, utf8. rewrite String.list_byte_of_string_of_list_byte.
  induction Hl as [|c l Hc _ IH]; [done|]. by rewrite utf8_bytes_cons, utf8_valid_encode.
Qed.

Lemma div_six q r : r < 64 → (q * 64 + r) / 64 = q ∧ (q * 64 + r) mod 64 = r.
Proof.
  intros Hr. rewrite (N.add_comm (q * 64)), N.div_add, N.Div0.mod_add, N.div_small, N.mod_small by lia. lia.
Qed.

Lemma byte_is n a : n = Byte.to_N a → byte_of_N n = a.
Proof. intros ->. apply byte_of_N_to_N. Qed.

Lemma encode_two a b (x := (Byte.to_N a - 192) * 64 + (Byte.to_N b - 128)) :
  194 <= Byte.to_N a <= 223 → 128 <= Byte.to_N b <= 191 → scalar x = true ∧ encode_utf8 x = [a; b].
Proof.
  intros Ha Hb. split; [apply scalar_spec; lia|]. unfold encode_utf8. decide_ltb.
  destruct (div_six (Byte.to_N a - 192) (Byte.to_N b - 128)) as [H1 H2]; [lia|]. fold x in H1, H2.
  rewrite H1, H2. repeat f_equal; apply byte_is; lia.
Qed.

Lemma encode_three a b c
    (x := (Byte.to_N a - 224) * 4096 + (Byte.to_N b - 128) * 64 + (Byte.to_N c - 128)) :
  224 <= Byte.to_N a <= 239 →
  (if Byte.to_N a =? 224 then 160 else 128) <= Byte.to_N b <= (if Byte.to_N a =? 237 then 159 else 191) →
  128 <= Byte.to_N c <= 191 → scalar x = true ∧ encode_utf8 x = [a; b; c].
Proof.
  intros Ha Hb Hc.
  assert (2048 <= x < 65536 ∧ (x < 55296 ∨ 57343 < x) ∧ 128 <= Byte.to_N b <= 191) as (Hx & Hs & Hb').
  { destruct (N.eqb_spec (Byte.to_N a) 224), (N.eqb_spec (Byte.to_N a) 237); lia. }
  split; [apply scalar_spec; lia|]. unfold encode_utf8. decide_ltb.
  assert (x = ((Byte.to_N a - 224) * 64 + (Byte.to_N b - 128)) * 64 + (Byte.to_N c - 128)) as E by lia.
  change 4096 with (64 * 64). rewrite <-N.Div0.div_div.
  destruct (div_six ((Byte.to_N a - 224) * 64 + (Byte.to_N b - 128)) (Byte.to_N c - 128)) as [H1 H2]; [lia|].
  rewrite <-E in H1, H2. rewrite H1, H2.
  destruct (div_six (Byte.to_N a - 224) (Byte.to_N b - 128)) as [-> ->]; [lia|].
  repeat f_equal; apply byte_is; lia.
Qed.

Lemma encode_four a b c d
    (x := (Byte.to_N a - 240) * 262144 + (Byte.to_N b - 128) * 4096 + (Byte.to_N c - 128) * 64 + (Byte.to_N d - 128)) :
  240 <= Byte.to_N a <= 244 →
  (if Byte.to_N a =? 240 then 144 else 128) <= Byte.to_N b <= (if Byte.to_N a =? 244 then 143 else 191) →
  128 <= Byte.to_N c <= 191 → 128 <= Byte.to_N d <= 191 →
  scalar x = true ∧ encode_utf8 x = [a; b; c; d].
Proof.
  intros Ha Hb Hc Hd.
  assert (65536 <= x <= 1114111 ∧ 128 <= Byte.to_N b <= 191) as (Hx & Hb').
  { destruct (N.eqb_spec (Byte.to_N a) 240), (N.eqb_spec (Byte.to_N a) 244); lia. }
  split; [apply scalar_spec; lia|]. unfold encode_utf8. decide_ltb.
  assert (x = (((Byte.to_N a - 240) * 64 + (Byte.to_N b - 128)) * 64 + (Byte.to_N c - 128)) * 64
              + (Byte.to_N d - 128)) as E by lia.
  change 262144 with (64 * 64 * 64). change 4096 with (64 * 64). rewrite <-!N.Div0.div_div.
  destruct (div_six (((Byte.to_N a - 240) * 64 + (Byte.to_N b - 128)) * 64 + (Byte.to_N c - 128))
              (Byte.to_N d - 128)) as [H1 H2]; [lia|].
  rewrite <-E in H1, H2. rewrite H1, H2.
  destruct (div_six ((Byte.to_N a - 240) * 64 + (Byte.to_N b - 128)) (Byte.to_N c - 128)) as [-> ->]; [lia|].
  destruct (div_six (Byte.to_N a - 240) (Byte.to_N b - 128)) as [-> ->]; [lia|].
  repeat f_equal; apply byte_is; lia.
Qed.

Lemma within_spec lo hi b : within lo hi b = true ↔ lo <= Byte.to_N b <= hi.
Proof. unfold within. by rewrite andb_true_iff, !N.leb_le. Qed.
Lemma continuation_spec b : continuation b = true ↔ 128 <= Byte.to_N b <= 191.
Proof. unfold continuation. by rewrite andb_true_iff, !N.leb_le. Qed.

(** Valid bytes are the encoding of their characters. *)
Lemma utf8_bytes_decode l :
  utf8_valid l = true → utf8_bytes (decode_utf8 l) = l ∧ Forall (λ c, scalar c = true) (decode_utf8 l).
Proof.
  induction l as [l IH] using (induction_ltof1 _ (@length byte)). unfold ltof in IH.
  assert (∀ x p k, l = p ++ k → utf8_valid k = true → p ≠ [] → scalar x = true ∧ encode_utf8 x = p →
    utf8_bytes (x :: decode_utf8 k) = l ∧ Forall (λ c, scalar c = true) (x :: decode_utf8 k)) as step.
  { intros x p k -> Hk Hp [Hx Ex]. destruct (IH k) as [E F]; [|done|].
    - rewrite length_app. destruct p; [done|cbn; lia].
    - split; [by rewrite utf8_bytes_cons, Ex, E|by constructor]. }
  destruct l as [|a l]; [done|]. cbn [utf8_valid decode_utf8].
  destruct (within 0 127 a) eqn:Ha.
  { intros Hl. apply within_spec in Ha. decide_ltb. apply (step _ [a]); [done..|].
    split; [apply scalar_spec; lia|]. unfold encode_utf8. decide_ltb. f_equal. by apply byte_is. }
  assert (¬ Byte.to_N a <= 127) as Ha'. { intros ?. rewrite (proj2 (within_spec 0 127 a)) in Ha; [done|lia]. }
  destruct (N.ltb_spec (Byte.to_N a) 128); [lia|].
  destruct l as [|b l]; [done|]. destruct (within 194 223 a) eqn:Ha2.
  { intros [Hb Hl]%andb_true_iff. apply within_spec in Ha2. apply continuation_spec in Hb. decide_ltb.
    apply (step _ [a; b]); [done..|]. by apply encode_two. }
  destruct l as [|c l]; [done|]. destruct (within 224 239 a) eqn:Ha3.
  { intros [[Hb Hc]%andb_true_iff Hl]%andb_true_iff. apply within_spec in Ha3, Hb. apply continuation_spec in Hc.
    decide_ltb. apply (step _ [a; b; c]); [done..|]. by apply encode_three. }
  destruct l as [|d l]; [done|].
  intros [[[[Ha4 Hb]%andb_true_iff Hc]%andb_true_iff Hd]%andb_true_iff Hl]%andb_true_iff.
  apply within_spec in Ha4, Hb. apply continuation_spec in Hc, Hd. decide_ltb.
  apply (step _ [a; b; c; d]); [done..|]. by apply encode_four.
Qed.

Lemma utf8_chars s : rust_string s → utf8 (chars s) = s ∧ Forall (λ c, scalar c = true) (chars s).
Proof.
  intros [E F]%utf8_bytes_decode. split; [|done]. unfold utf8, chars. rewrite E.
  apply String.string_of_list_byte_of_string.
Qed.

(** ** Decimal text *)
Lemma is_ascii_digit_spec c : is_ascii_digit c = true ↔ 48 <= c <= 57.
Proof. unfold is_ascii_digit, between. by rewrite andb_true_iff, !N.leb_le. Qed.

Lemma to_digit_decimal d : d < 10 → to_digit 10 (48 + d) = Some d.
Proof. intros Hd. unfold to_digit, between. decide_ltb. cbn [andb]. replace (48 + d - 48) with d by lia. by decide_ltb. Qed.

Definition digits_from (radix start : N) (l : list char) : option N :=
  foldl (λ acc c, acc ← acc; d ← to_digit radix c; Some (acc * radix + d)) (Some start) l.

Lemma decimal_digits_spec fuel n acc :
  n < 10 ^ N.of_nat fuel → fuel ≠ 0%nat →
  ∃ ds, decimal_digits fuel n acc = ds ++ acc ∧ Forall (λ c, is_ascii_digit c = true) ds ∧
    (∀ v, digits_from 10 v ds = Some (v * 10 ^ N.of_nat (length ds) + n)) ∧
    ∃ c rest, ds = c :: rest ∧ (c = 48 → rest = [] ∧ n = 0).
Proof.
  revert n acc. induction fuel as [|fuel IH]; intros n acc Hn Hf; [done|]. cbn [decimal_digits].
  assert (n mod 10 < 10 ∧ n = n / 10 * 10 + n mod 10) as [Hm Hd].
  { pose proof (N.mod_lt n 10). pose proof (N.div_mod n 10). lia. }
  destruct (N.ltb_spec n 10) as [Hl|Hl].
  - exists [48 + n]. split_and!; [done| | |exists (48 + n), []; split; [done|split; [done|lia]]].
    + repeat constructor. apply is_ascii_digit_spec. lia.
    + intros v. unfold digits_from. cbn. rewrite to_digit_decimal by lia. cbn. f_equal; lia.
  - destruct (IH (n / 10) ((48 + n mod 10) :: acc)) as (ds & -> & Hds & Hv & c & rest & -> & Hc).
    { rewrite Nat2N.inj_succ, N.pow_succ_r' in Hn. by apply N.Div0.div_lt_upper_bound. }
    { intros ->. cbn in Hn. lia. }
    exists ((c :: rest) ++ [48 + n mod 10]). split_and!.
    + by rewrite <-app_assoc.
    + apply Forall_app. split; [done|]. repeat constructor. apply is_ascii_digit_spec. clear -Hm. revert Hm. generalize (n mod 10). intros r Hr. lia.
    + intros v. unfold digits_from in Hv |- *. rewrite foldl_app, Hv. cbn. rewrite to_digit_decimal by lia. cbn.
      f_equal. rewrite length_app. cbn [length]. rewrite Nat.add_1_r, !Nat2N.inj_succ, !N.pow_succ_r'.
      generalize (10 ^ N.of_nat (length rest)). clear -Hd. intros k. lia.
    + exists c, (rest ++ [48 + n mod 10]). split; [done|]. intros H0. destruct (Hc H0) as [-> ?]. clear Hv Hn. lia.
Qed.

Lemma decimal_spec n :
  Forall (λ c, is_ascii_digit c = true) (decimal n) ∧ digits_value 10 (decimal n) = Some n ∧
  ∃ c rest, decimal n = c :: rest ∧ (c = 48 → rest = []).
Proof.
  destruct (decimal_digits_spec (S (N.to_nat (N.log2 n))) n []) as (ds & E & Hds & Hv & c & rest & Hc & H0); [|done|].
  - rewrite Nat2N.inj_succ, N2Nat.id. destruct (decide (n = 0)) as [->|Hn]; [done|].
    apply N.lt_le_trans with (2 ^ N.succ (N.log2 n)); [apply N.log2_spec; lia|apply N.pow_le_mono_l; lia].
  - unfold decimal. rewrite E, app_nil_r. split; [done|]. split.
    + specialize (Hv 0). unfold digits_from in Hv. unfold digits_value. by rewrite Hv.
    + exists c, rest. split; [done|]. intros Hz. by destruct (H0 Hz).
Qed.

(** ** Prefixes of a text *)
Lemma take_while_app p l k :
  Forall (λ c, p c = true) l → first_is p k = false → take_while p (l ++ k) = l.
Proof.
  intros Hl Hk. induction Hl as [|c l Hc _ IH]; cbn; [destruct k as [|c k]; [done|]; cbn in *; by rewrite Hk|].
  by rewrite Hc, IH.
Qed.

Lemma take_while_Forall p l : Forall (λ c, p c = true) (take_while p l).
Proof. induction l as [|c l IH]; cbn; [done|]. destruct (p c) eqn:?; by constructor. Qed.

Lemma take_while_split p l : l = take_while p l ++ drop (length (take_while p l)) l.
Proof. induction l as [|c l IH]; cbn; [done|]. destruct (p c); cbn; [by f_equal|done]. Qed.

Lemma take_while_rest p l : first_is p (drop (length (take_while p l)) l) = false.
Proof. induction l as [|c l IH]; cbn; [done|]. destruct (p c) eqn:E; cbn; [done|by rewrite E]. Qed.

Lemma strip_prefix_some p l k : strip_prefix p l = Some k ↔ l = p ++ k.
Proof.
  unfold strip_prefix. split.
  - case_decide as Hp; [|done]. destruct Hp as [m ->]. intros [= <-]. by rewrite drop_app_length.
  - intros ->. rewrite decide_True by by apply prefix_app_r. by rewrite drop_app_length.
Qed.
