(* ===== verification/Opcode.v ===== *)
(** * The instruction set

    [src/core/rust/src/vm/opcode.rs]: the typed instructions of the bytecode
    virtual machine with their control-flow and stack-effect tables. Operands
    are unsigned machine integers, kept as [N]; [instruction_typed] states the
    width the source gives each of them. *)
From S2P Require Import Prelude Bytes.

Inductive Instruction :=
| Constant (index : N)
| Nil
| True_
| False_
| LoadLocal (slot : N)
| StoreLocal (slot : N)
| Pop
| Dup
| IntrinsicCall (target : N) (argc : N)
| Jump (target : N)
| JumpIfFalse (target : N)
| Closure (prototype : N) (captures : N)
| Call (argc : N)
| CallStatic (prototype : N) (argc : N)
| Throw
| Rethrow
| GetGlobal (index : N)
| DefGlobal (name : N) (metadata : option N)
| SetGlobal (index : N)
| VarGlobal (index : N)
| DeclareGlobal (index : N)
| MutableFieldGet (index : N)
| MutableFieldSet (index : N)
| InstanceOf
| MakeMultiArity (name : N) (count : N)
| BuildVector (count : N)
| BuildMap (pairs : N)
| BuildSet (count : N)
| BuildList (count : N)
| ConcatList (count : N)
| ToVector
| DefMacro (name : N) (metadata : option N)
| IntrinsicValue (target : N)
| BuiltinValue (index : N)
| NamespaceValue (index : N)
| NamespaceOperation (index : N)
| DynamicBind (index : N)
| DynamicUnbind (index : N)
| Await
| Yield
| HostCall
| DotCall (method : N) (argc : N)
| ProtocolCall (target : N) (argc : N)
| Return.

#[export] Instance instruction_eq_dec : EqDecision Instruction.
Proof. solve_decision. Defined.

(** The operand widths of the source's [u8], [u16] and [u32] fields. *)
Definition instruction_typed (i : Instruction) : bool :=
  match i with
  | LoadLocal n | StoreLocal n | BuildVector n | BuildMap n | BuildSet n
  | BuildList n | ConcatList n => (n <=? U16_MAX)%N
  | Call n => (n <=? U8_MAX)%N
  | IntrinsicCall t n | ProtocolCall t n | DotCall t n | MakeMultiArity t n =>
      ((t <=? U32_MAX) && (n <=? U8_MAX))%N
  | Closure p n | CallStatic p n => ((p <=? U16_MAX) && (n <=? U8_MAX))%N
  | DefGlobal n m | DefMacro n m =>
      ((n <=? U32_MAX) && match m with Some m => m <=? U16_MAX | None => true end)%N
  | Constant n | Jump n | JumpIfFalse n | GetGlobal n | SetGlobal n | VarGlobal n
  | DeclareGlobal n | MutableFieldGet n | MutableFieldSet n | IntrinsicValue n
  | BuiltinValue n | NamespaceValue n | NamespaceOperation n | DynamicBind n
  | DynamicUnbind n => (n <=? U32_MAX)%N
  | Nil | True_ | False_ | Pop | Dup | Throw | Rethrow | InstanceOf | ToVector
  | Await | Yield | HostCall | Return => true
  end.

Definition jump_target (i : Instruction) : option N :=
  match i with
  | Jump target | JumpIfFalse target => Some target
  | _ => None
  end.

Definition falls_through (i : Instruction) : bool :=
  match i with
  | Jump _ | Return | Throw | Rethrow => false
  | _ => true
  end.

(** The static stack effect, an [i32]; [None] for the terminals. *)
Definition stack_effect (i : Instruction) : option Z :=
  match i with
  | Return | Throw | Rethrow => None
  | _ => Some (match i with
    | Constant _ | Nil | True_ | False_ | LoadLocal _ => 1
    | StoreLocal _ | Pop | JumpIfFalse _ => -1
    | Dup => 1
    | IntrinsicCall _ argc | ProtocolCall _ argc | CallStatic _ argc => 1 - Z.of_N argc
    | Closure _ captures => 1 - Z.of_N captures
    | Call argc => - Z.of_N argc
    | GetGlobal _ | VarGlobal _ | DeclareGlobal _ => 1
    | IntrinsicValue _ => 1
    | BuiltinValue _ => 1
    | NamespaceValue _ | NamespaceOperation _ => 1
    | DynamicBind _ => 0
    | DynamicUnbind _ => 1
    | Yield => 0
    | DefGlobal _ _ | SetGlobal _ | MutableFieldGet _ => 0
    | MutableFieldSet _ => -1
    | InstanceOf => -1
    | MakeMultiArity _ count => 1 - Z.of_N count
    | BuildVector count | BuildSet count | BuildList count | ConcatList count =>
        1 - Z.of_N count
    | BuildMap pairs => 1 - 2 * Z.of_N pairs
    | ToVector => 0
    | DefMacro _ _ => 0
    | Await => 0
    | HostCall => -2
    | DotCall _ argc => - Z.of_N argc
    | Jump _ => 0
    | Return | Throw | Rethrow => 0
    end)%Z
  end.

(** The operands the machine takes off the stack for an instruction, from
    [machine/dispatch.rs]: not recorded in the source as a table, and what the
    net effect above does not determine. *)
Definition pops (i : Instruction) : nat :=
  match i with
  | Constant _ | Nil | True_ | False_ | LoadLocal _ | Jump _ | GetGlobal _ | VarGlobal _
  | DeclareGlobal _ | IntrinsicValue _ | BuiltinValue _ | NamespaceValue _
  | NamespaceOperation _ | DynamicUnbind _ => 0
  | StoreLocal _ | Pop | Dup | JumpIfFalse _ | Throw | Rethrow | DefGlobal _ _
  | SetGlobal _ | MutableFieldGet _ | ToVector | DefMacro _ _ | DynamicBind _
  | Await | Yield | Return => 1
  | MutableFieldSet _ | InstanceOf => 2
  | HostCall => 3
  | IntrinsicCall _ n | ProtocolCall _ n | CallStatic _ n | Closure _ n
  | MakeMultiArity _ n | BuildVector n | BuildSet n | BuildList n | ConcatList n => N.to_nat n
  | BuildMap pairs => 2 * N.to_nat pairs
  | Call argc | DotCall _ argc => S (N.to_nat argc)
  end.

(** What an instruction pushes when it completes normally. *)
Definition pushes (i : Instruction) : nat :=
  match i with
  | Dup => 2
  | StoreLocal _ | Pop | JumpIfFalse _ | Jump _ | Throw | Rethrow | Return => 0
  | _ => 1
  end.

Lemma stack_effect_pops_pushes i :
  stack_effect i =
  if falls_through i then Some (Z.of_nat (pushes i) - Z.of_nat (pops i))%Z
  else match i with Jump _ => Some 0%Z | _ => None end.
Proof. destruct i; cbn [stack_effect falls_through pushes pops]; f_equal; lia. Qed.

(** [i32] arithmetic on the effect cannot overflow. *)
Lemma stack_effect_i32 i effect :
  instruction_typed i = true → stack_effect i = Some effect →
  (- 131070 < effect ≤ 1)%Z.
Proof.
  unfold instruction_typed, U8_MAX, U16_MAX, U32_MAX.
  destruct i; cbn [stack_effect]; intros Ht [= <-]; try lia;
    repeat apply andb_true_iff in Ht as [? Ht]; apply N.leb_le in Ht; lia.
Qed.
