(* ===== verification/Kernel.v ===== *)
(** * Shared data of the kernel

    The data the virtual machine's programs carry: reader forms
    ([kernel/form.rs]), normalised schemas ([kernel/schema.rs]), Var metadata
    ([lang/data/metadata.rs]), keyword and symbol names ([lang/data/keyword.rs],
    [lang/data/symbol.rs]), source positions and runtime values
    ([core/value.rs]), under [src/core/rust/src]. Floats are their IEEE bits;
    a value shared through an [Rc] is its address in the runtime's heap. *)
From Stdlib Require Import Ascii.
From S2P Require Import Prelude Bytes.

(** ** Positions *)
Record Position := mkPosition { offset : N; line : N; column : N }.
#[export] Instance position_eq_dec : EqDecision Position.
Proof. solve_decision. Defined.

(** ** Reader forms *)
Inductive Form :=
| FRuntimeLiteral (address : N)
| FNil
| FBool (value : bool)
| FNumber (value : Z)
| FFloat (bits : N)
| FBigInteger (value : Z)
| FCharacter (value : N)
| FRegex (value : string)
| FTagged (tag : string) (value : Form)
| FMetadata (metadata value : Form)
| FSymbol (name : string)
| FKeyword (name : string)
| FString (value : string)
| FMap (entries : list (Form * Form))
| FSet (values : list Form)
| FVector (values : list Form)
| FList (values : list Form).

(** [form_without_metadata] of [core/value.rs]. *)
Fixpoint form_without_metadata (form : Form) : Form :=
  match form with
  | FMetadata _ value => form_without_metadata value
  | _ => form
  end.

Lemma form_without_metadata_strips form m v : form_without_metadata form ≠ FMetadata m v.
Proof. induction form; simpl; congruence. Qed.

(** ** Schemas *)
Inductive SchemaType :=
| Primitive (name : string)
| Reference (name : string)
| Union (types : list SchemaType)
| Vector (item : SchemaType)
| SetOf (item : SchemaType)
| Tuple (items : list SchemaType)
| MapOf (fields : list SchemaField)
| Struct (name : string) (mutable : bool) (fields : list SchemaField)
| WithProperties (schema : SchemaType) (properties : Form)
| Function_ (arities : list FunctionSchema)
| Enum (values : list Form)
| Extension (head : string) (arguments : list Form)
| Unknown (surface : Form)
with SchemaField :=
| mkSchemaField (field_name : Form) (field_properties : option Form) (value_type : SchemaType)
with FunctionSchema :=
| mkFunctionSchema (fixed : list SchemaType) (rest : option SchemaType) (output : SchemaType).

Definition field_name (f : SchemaField) : Form := let 'mkSchemaField n _ _ := f in n.
Definition field_properties (f : SchemaField) : option Form := let 'mkSchemaField _ p _ := f in p.
Definition value_type (f : SchemaField) : SchemaType := let 'mkSchemaField _ _ t := f in t.
Definition fixed (a : FunctionSchema) : list SchemaType := let 'mkFunctionSchema x _ _ := a in x.
Definition rest (a : FunctionSchema) : option SchemaType := let 'mkFunctionSchema _ r _ := a in r.
Definition output (a : FunctionSchema) : SchemaType := let 'mkFunctionSchema _ _ o := a in o.

(** The induction principle with the hypotheses for nested occurrences. *)
Section schema_induction.
Variable P : SchemaType → Prop.
Definition field_holds (f : SchemaField) : Prop := P (value_type f).
Definition rest_holds (o : option SchemaType) : Prop :=
  match o with Some t => P t | None => True end.
Definition arity_holds (a : FunctionSchema) : Prop :=
  Forall P (fixed a) ∧ rest_holds (rest a) ∧ P (output a).
Hypothesis HPrimitive : ∀ name, P (Primitive name).
Hypothesis HReference : ∀ name, P (Reference name).
Hypothesis HUnion : ∀ types, Forall P types → P (Union types).
Hypothesis HVector : ∀ item, P item → P (Vector item).
Hypothesis HSetOf : ∀ item, P item → P (SetOf item).
Hypothesis HTuple : ∀ items, Forall P items → P (Tuple items).
Hypothesis HMapOf : ∀ fields, Forall field_holds fields → P (MapOf fields).
Hypothesis HStruct : ∀ name mutable fields, Forall field_holds fields → P (Struct name mutable fields).
Hypothesis HWith : ∀ schema properties, P schema → P (WithProperties schema properties).
Hypothesis HFunction : ∀ arities, Forall arity_holds arities → P (Function_ arities).
Hypothesis HEnum : ∀ values, P (Enum values).
Hypothesis HExtension : ∀ head arguments, P (Extension head arguments).
Hypothesis HUnknown : ∀ surface, P (Unknown surface).

Fixpoint schema_nested_ind (t : SchemaType) : P t :=
  let all := fix all (l : list SchemaType) : Forall P l :=
    match l with
    | [] => Forall_nil_2 P
    | x :: l => Forall_cons_2 P x l (schema_nested_ind x) (all l)
    end in
  let all_fields := fix all_fields (l : list SchemaField) : Forall field_holds l :=
    match l with
    | [] => Forall_nil_2 field_holds
    | x :: l => Forall_cons_2 field_holds x l
        (match x with mkSchemaField n p t => schema_nested_ind t end) (all_fields l)
    end in
  let all_arities := fix all_arities (l : list FunctionSchema) : Forall arity_holds l :=
    match l with
    | [] => Forall_nil_2 arity_holds
    | x :: l => Forall_cons_2 arity_holds x l
        (match x with mkFunctionSchema f r o =>
           conj (all f) (conj (match r return rest_holds r with Some t => schema_nested_ind t | None => I end)
                              (schema_nested_ind o)) end) (all_arities l)
    end in
  match t with
  | Primitive n => HPrimitive n
  | Reference n => HReference n
  | Union ts => HUnion ts (all ts)
  | Vector t => HVector t (schema_nested_ind t)
  | SetOf t => HSetOf t (schema_nested_ind t)
  | Tuple ts => HTuple ts (all ts)
  | MapOf fs => HMapOf fs (all_fields fs)
  | Struct n m fs => HStruct n m fs (all_fields fs)
  | WithProperties t p => HWith t p (schema_nested_ind t)
  | Function_ fs => HFunction fs (all_arities fs)
  | Enum vs => HEnum vs
  | Extension h args => HExtension h args
  | Unknown s => HUnknown s
  end.
End schema_induction.

(** ** Names *)
Definition SLASH : ascii := "/"%char.
Fixpoint string_count (c : ascii) (s : string) : nat :=
  match s with
  | EmptyString => 0
  | String d s => (if decide (c = d) then 1 else 0) + string_count c s
  end.
Definition string_contains (c : ascii) (s : string) : bool := negb (string_count c s =? 0).
Definition starts_with (c : ascii) (s : string) : bool :=
  match s with String d _ => bool_decide (c = d) | EmptyString => false end.
Fixpoint ends_with (c : ascii) (s : string) : bool :=
  match s with
  | EmptyString => false
  | String d EmptyString => bool_decide (c = d)
  | String _ s => ends_with c s
  end.

(** [validate] of [lang/data/keyword.rs]. *)
Definition keyword_validate (full : string) : result string () :=
  if decide (full = "") then Err "Keyword name cannot be empty."
  else if decide (full = "/") then Err "Keyword name cannot be a single slash."
  else if 1 <? string_count SLASH full then Err "Keyword name can only contain one slash."
  else if starts_with SLASH full then Err "Keyword name cannot start with a slash."
  else if ends_with SLASH full then Err "Keyword name cannot end with a slash."
  else Ok tt.

(** The text before and after the first slash. *)
Fixpoint split_slash (s : string) : option (string * string) :=
  match s with
  | EmptyString => None
  | String c s =>
      if decide (c = SLASH) then Some (EmptyString, s)
      else (λ p, (String c p.1, p.2)) <$> split_slash s
  end.

(** A keyword and a symbol: their interned namespace, name and full text. *)
Record Name := mkName { namespace_part : option string; name_part : string; full_text : string }.
Definition Keyword := Name.
Definition Symbol := Name.

Definition full_of (namespace : option string) (name : string) : string :=
  match namespace with Some ns => ns +:+ "/" +:+ name | None => name end.
Definition split_name (full : string) : Name :=
  match split_slash full with
  | Some (ns, name) => mkName (Some ns) name full
  | None => mkName None full full
  end.

(** [Keyword::create] interns without validating. *)
Definition keyword_create (namespace : option string) (name : string) : result string Keyword :=
  Ok (mkName namespace name (full_of namespace name)).
Definition keyword_parse (full : string) : result string Keyword :=
  keyword_validate full;; Ok (split_name full).
(** [impl From<&str> for Keyword]: [parse(value).expect("valid keyword")]. *)
Definition keyword_from (full : string) : result failure Keyword :=
  map_err (λ e, Panicked ("valid keyword: " +:+ e)) (keyword_parse full).

Definition symbol_create (namespace : option string) (name : string) : Symbol :=
  mkName namespace name (full_of namespace name).
Definition symbol_parse (full : string) : Symbol :=
  if decide (full = "/") then mkName None full full else split_name full.

(** ** Var metadata *)
Inductive MetadataValue :=
| MRuntime (address : N)
| MNil
| MBoolean (value : bool)
| MNumber (value : Z)
| MFloat (bits : N)
| MBigInteger (value : Z)
| MCharacter (value : N)
| MRegex (value : string)
| MTagged (tag : string) (value : MetadataValue)
| MString (value : string)
| MKeyword (value : Keyword)
| MSymbol (value : Symbol)
| MVector (values : list MetadataValue)
| MList (values : list MetadataValue)
| MSet (values : list MetadataValue)
| MMap (entries : list (MetadataValue * MetadataValue)).

Definition Metadata := list (MetadataValue * MetadataValue).

Section metadata_induction.
Variable P : MetadataValue → Prop.
Definition entry_holds (e : MetadataValue * MetadataValue) : Prop := P e.1 ∧ P e.2.
Hypothesis HRuntime : ∀ a, P (MRuntime a).
Hypothesis HNil : P MNil.
Hypothesis HBoolean : ∀ b, P (MBoolean b).
Hypothesis HNumber : ∀ z, P (MNumber z).
Hypothesis HFloat : ∀ n, P (MFloat n).
Hypothesis HBig : ∀ z, P (MBigInteger z).
Hypothesis HCharacter : ∀ n, P (MCharacter n).
Hypothesis HRegex : ∀ s, P (MRegex s).
Hypothesis HTagged : ∀ tag v, P v → P (MTagged tag v).
Hypothesis HString : ∀ s, P (MString s).
Hypothesis HKeyword : ∀ k, P (MKeyword k).
Hypothesis HSymbol : ∀ s, P (MSymbol s).
Hypothesis HVector : ∀ vs, Forall P vs → P (MVector vs).
Hypothesis HList : ∀ vs, Forall P vs → P (MList vs).
Hypothesis HSet : ∀ vs, Forall P vs → P (MSet vs).
Hypothesis HMap : ∀ es, Forall entry_holds es → P (MMap es).

Fixpoint metadata_nested_ind (v : MetadataValue) : P v :=
  let all := fix all (l : list MetadataValue) : Forall P l :=
    match l with
    | [] => Forall_nil_2 P
    | x :: l => Forall_cons_2 P x l (metadata_nested_ind x) (all l)
    end in
  let all_entries := fix all_entries (l : list (MetadataValue * MetadataValue)) :
      Forall entry_holds l :=
    match l with
    | [] => Forall_nil_2 entry_holds
    | x :: l => Forall_cons_2 entry_holds x l
        (match x with (k, v) => conj (metadata_nested_ind k) (metadata_nested_ind v) end)
        (all_entries l)
    end in
  match v with
  | MRuntime a => HRuntime a
  | MNil => HNil
  | MBoolean b => HBoolean b
  | MNumber z => HNumber z
  | MFloat n => HFloat n
  | MBigInteger z => HBig z
  | MCharacter n => HCharacter n
  | MRegex s => HRegex s
  | MTagged t v => HTagged t v (metadata_nested_ind v)
  | MString s => HString s
  | MKeyword k => HKeyword k
  | MSymbol s => HSymbol s
  | MVector vs => HVector vs (all vs)
  | MList vs => HList vs (all vs)
  | MSet vs => HSet vs (all vs)
  | MMap es => HMap es (all_entries es)
  end.
End metadata_induction.

(** ** Runtime values

    The variants the virtual machine, its validator and its artifact inspect;
    the rest of the source's [Value] is carried by kind and address, its
    contents belonging to the runtime. *)
Inductive Value :=
| VNumber (value : Z)
| VBool (value : bool)
| VNil
| VString (value : string)
| VKeyword (name : string)
| VList (values : list Value)
| VMap (entries : list (Value * Value))
| VFunction (address : N)
| VPromise (address : N)
| VVar (address : N)
| VExceptionInfo (address : N)
| VOther (kind : string) (address : N).

Definition value_truthy (v : Value) : bool :=
  match v with VNil | VBool false => false | _ => true end.
