(* ===== verification/Reader.v ===== *)
(** * The reader

    [kernel/reader.rs] and [kernel/parser.rs] under [src/core/rust/src]: a
    cursor over text that tracks lines and columns, and the recursive parser of
    forms with their spans. Methods are programs over the reader or the parser;
    they return, fail with a [ParseError], panic, or run out of fuel. Loops
    have fuel from the length of the source, [read_one] from its caller. *)
From Stdlib Require Import Ascii.
From S2P Require Import Prelude Bytes Text Kernel.
#[local] Open Scope N_scope.

(** ** The cursor: kernel/reader.rs *)
Record Reader := mkReader {
  source : list char; cursor : N; reader_line : N; reader_column : N; history : list Position }.

Record ParseError := mkParseError { message : string; error_position : Position }.

Inductive stop :=
| ParseFailed (error : ParseError)
| ParserPanic
| NoFuel.

Definition reader_new (source : list char) : Reader := mkReader source 0 1 1 [].

Definition reader_position (r : Reader) : Position :=
  mkPosition (cursor r) (reader_line r) (reader_column r).

(** The slice of a text from a byte offset, which must be between two
    characters. *)
Fixpoint text_from (l : list char) (offset : N) : option (list char) :=
  if offset =? 0 then Some l else
  match l with
  | [] => None
  | c :: l =>
      if N.of_nat (len_utf8 c) <=? offset then text_from l (offset - N.of_nat (len_utf8 c)) else None
  end.

Definition peek_char : prog Reader stop (option char) := λ r,
  match text_from (source r) (cursor r) with
  | Some rest => (Ok (head rest), r)
  | None => (Err ParserPanic, r)
  end.

Definition read_char : prog Reader stop (option char) :=
  c ← peek_char;
  match c with
  | None => mret None
  | Some c =>
      modify (λ r,
        let '(line, column) :=
          if c =? 10 then (reader_line r + 1, 1) else (reader_line r, reader_column r + 1) in
        mkReader (source r) (cursor r + N.of_nat (len_utf8 c)) line column
          (reader_position r :: history r));;
      mret (Some c)
  end.

Definition unread_char : prog Reader stop (option char) := λ r,
  match history r with
  | [] => (Ok None, r)
  | p :: history =>
      match text_from (source r) (offset p) with
      | Some rest =>
          if cursor r <? offset p then (Err ParserPanic, r)
          else (Ok (if offset p =? cursor r then None else head rest),
                mkReader (source r) (offset p) (line p) (column p) history)
      | None => (Err ParserPanic, r)
      end
  end.

Fixpoint read_while_loop (fuel : nat) (predicate : char → bool) : prog Reader stop (list char) :=
  match fuel with
  | O => fail NoFuel
  | S fuel =>
      c ← read_char;
      match c with
      | None => mret []
      | Some c =>
          if predicate c then value ← read_while_loop fuel predicate; mret (c :: value)
          else unread_char;; mret []
      end
  end.
Definition read_while (predicate : char → bool) : prog Reader stop (list char) :=
  λ r, read_while_loop (S (length (source r))) predicate r.
Definition read_until (predicate : char → bool) : prog Reader stop (list char) :=
  read_while (λ c, negb (predicate c)).

Definition is_eof (r : Reader) : bool := N.of_nat (length (utf8_bytes (source r))) <=? cursor r.

(** ** Spans *)
Record Span := mkSpan { start : Position; end_ : Position }.

Inductive SpannedForm := mkSpanned (form : Form) (span : Span) (children : list SpannedForm).
Definition form (x : SpannedForm) : Form := let 'mkSpanned f _ _ := x in f.
Definition span (x : SpannedForm) : Span := let 'mkSpanned _ s _ := x in s.
Definition children (x : SpannedForm) : list SpannedForm := let 'mkSpanned _ _ c := x in c.

Fixpoint descendants (x : SpannedForm) : list SpannedForm :=
  concat ((λ child, child :: descendants child) <$> children x).

(** ** Equality of forms

    The derived [PartialEq]: floats compare as numbers, so the two zeros are
    equal and a NaN is not equal to itself; a process-local literal is its
    address. *)
Definition f64_eqb (x y : N) : bool :=
  let is_nan b := let '(_, e, m) := f64_fields b in (e =? 2047) && negb (m =? 0) in
  let is_zero b := let '(_, e, m) := f64_fields b in (e =? 0) && (m =? 0) in
  negb (is_nan x) && negb (is_nan y) && ((x =? y) || (is_zero x && is_zero y)).

Definition forms_eqb (eqb : Form → Form → bool) : list Form → list Form → bool :=
  fix go l k :=
    match l, k with
    | [], [] => true
    | x :: l, y :: k => eqb x y && go l k
    | _, _ => false
    end.
Definition entries_eqb (eqb : Form → Form → bool) : list (Form * Form) → list (Form * Form) → bool :=
  fix go l k :=
    match l, k with
    | [], [] => true
    | (x, v) :: l, (y, w) :: k => eqb x y && eqb v w && go l k
    | _, _ => false
    end.

Fixpoint form_eqb (a b : Form) : bool :=
  match a, b with
  | FRuntimeLiteral x, FRuntimeLiteral y => x =? y
  | FNil, FNil => true
  | FBool x, FBool y => Bool.eqb x y
  | FNumber x, FNumber y => (x =? y)%Z
  | FFloat x, FFloat y => f64_eqb x y
  | FBigInteger x, FBigInteger y => (x =? y)%Z
  | FCharacter x, FCharacter y => x =? y
  | FRegex x, FRegex y => bool_decide (x = y)
  | FTagged t x, FTagged u y => bool_decide (t = u) && form_eqb x y
  | FMetadata m x, FMetadata n y => form_eqb m n && form_eqb x y
  | FSymbol x, FSymbol y => bool_decide (x = y)
  | FKeyword x, FKeyword y => bool_decide (x = y)
  | FString x, FString y => bool_decide (x = y)
  | FMap x, FMap y => entries_eqb form_eqb x y
  | FSet x, FSet y => forms_eqb form_eqb x y
  | FVector x, FVector y => forms_eqb form_eqb x y
  | FList x, FList y => forms_eqb form_eqb x y
  | _, _ => false
  end.

(** Whether an item equals one before it. *)
Fixpoint has_duplicate (seen l : list Form) : bool :=
  match l with
  | [] => false
  | x :: l => existsb (form_eqb x) seen || has_duplicate (seen ++ [x]) l
  end.

(** ** Anonymous functions *)
Definition reader_argument (id : N) (suffix : string) : string :=
  "__reader_fn_" +:+ utf8 (decimal id) +:+ "_" +:+ suffix.

(** The text after the [%] of an argument's name. *)
Definition argument_text (name : string) : option string :=
  match name with String c rest => if decide (c = "%"%char) then Some rest else None | EmptyString => None end.

(** [anonymous_arguments]: the state is [maximum] and [variadic]. *)
Fixpoint anonymous_arguments (form : Form) : prog (N * bool) string () :=
  match form with
  | FSymbol name =>
      if decide (name = "%") then modify (λ s, (N.max s.1 1, s.2))
      else if decide (name = "%&") then modify (λ s, (s.1, true))
      else match argument_text name with
      | Some text =>
          match parse_unsigned U64_MAX 10 (chars text) with
          | None => fail ("Invalid anonymous function argument: " +:+ name)
          | Some index =>
              if index =? 0 then fail "Anonymous function arguments begin at %1"
              else modify (λ s, (N.max s.1 index, s.2))
          end
      | None => mret tt
      end
  | FList values | FVector values | FSet values => each anonymous_arguments values
  | FMap entries =>
      each (λ '(key, value), anonymous_arguments key;; anonymous_arguments value) entries
  | FMetadata metadata value => anonymous_arguments metadata;; anonymous_arguments value
  | FTagged _ value => anonymous_arguments value
  | _ => mret tt
  end.

Fixpoint rewrite_anonymous_arguments (id : N) (form : Form) : Form :=
  match form with
  | FSymbol name =>
      if decide (name = "%" ∨ name = "%1") then FSymbol (reader_argument id "1")
      else if decide (name = "%&") then FSymbol (reader_argument id "rest")
      else match argument_text name with
      | Some text => FSymbol (reader_argument id text)
      | None => FSymbol name
      end
  | FList values => FList (rewrite_anonymous_arguments id <$> values)
  | FVector values => FVector (rewrite_anonymous_arguments id <$> values)
  | FSet values => FSet (rewrite_anonymous_arguments id <$> values)
  | FMap entries =>
      FMap ((λ '(key, value), (rewrite_anonymous_arguments id key, rewrite_anonymous_arguments id value)) <$> entries)
  | FMetadata metadata value =>
      FMetadata (rewrite_anonymous_arguments id metadata) (rewrite_anonymous_arguments id value)
  | FTagged tag value => FTagged tag (rewrite_anonymous_arguments id value)
  | value => value
  end.

Definition anonymous_parameters (id maximum : N) (variadic : bool) : list Form :=
  ((λ index, FSymbol (reader_argument id (utf8 (decimal (N.of_nat index))))) <$> seq 1 (N.to_nat maximum)) ++
  (if variadic then [FSymbol "&"; FSymbol (reader_argument id "rest")] else []).

(** ** The parser: kernel/parser.rs *)
Record Parser := mkParser { reader : Reader; anonymous_function_id : N }.
Definition parser_new (source : list char) : Parser := mkParser (reader_new source) 0.
Definition parse := prog Parser stop.

Definition reading {A} (m : prog Reader stop A) : parse A := λ p,
  let '(x, r) := m (reader p) in (x, mkParser r (anonymous_function_id p)).

Definition error {A} (message : string) : parse A := λ p,
  (Err (ParseFailed (mkParseError message (reader_position (reader p)))), p).
Definition or_error {A} (x : option A) (message : string) : parse A :=
  match x with Some x => mret x | None => error message end.

Fixpoint whitespace_loop (fuel : nat) : parse () :=
  match fuel with
  | O => fail NoFuel
  | S fuel =>
      reading (read_while (λ c, is_whitespace c || (c =? ch ",")));;
      c ← reading peek_char;
      if decide (c = Some (ch ";")) then
        reading (read_until (λ c, c =? 10));; whitespace_loop fuel
      else mret tt
  end.
Definition whitespace : parse () := λ p, whitespace_loop (S (length (source (reader p)))) p.

(** The characters that end a symbol, besides whitespace and commas, and those
    that end a number. *)
Definition symbol_macros : list char := [34; 59; 94; 40; 41; 91; 93; 123; 125; 92; 64; 96; 126].
Definition number_macros : list char := [34; 59; 94; 40; 41; 91; 93; 123; 125; 92; 35; 39; 64; 96; 126].
Definition is_one_of (l : list char) (c : char) : bool := existsb (N.eqb c) l.
Definition symbol_char (c : char) : bool :=
  negb (is_whitespace c) && negb (c =? 44) && negb (is_one_of symbol_macros c).
Definition number_char (c : char) : bool :=
  negb (is_whitespace c) && negb (c =? 44) && negb (is_one_of number_macros c).

Definition symbol_token (first : char) : parse (list char) :=
  rest ← reading (read_while symbol_char); mret (first :: rest).
Definition number_token (first : char) : parse (list char) :=
  rest ← reading (read_while number_char); mret (first :: rest).

(** A character that must be there. *)
Definition expect_char (message : string) : parse char :=
  c ← reading read_char; or_error c message.

Definition hex_escape_digit : parse char :=
  digit ← expect_char "EOF in Unicode escape";
  if is_ascii_hexdigit digit then mret digit else error ("Invalid digit: " +:+ utf8 [digit]).

(** Up to [n] further octal digits. *)
Fixpoint octal_digits (n : nat) : parse (list char) :=
  match n with
  | O => mret []
  | S n =>
      next ← reading peek_char;
      match next with
      | Some c =>
          if is_octal_digit c then reading read_char;; rest ← octal_digits n; mret (c :: rest)
          else mret []
      | None => mret []
      end
  end.

Definition char_of (n : option N) : option char :=
  match n with Some n => if scalar n then Some n else None | None => None end.

Definition escape : parse char :=
  escaped ← expect_char "EOF while reading string escape";
  if escaped =? ch "n" then mret 10
  else if escaped =? ch "r" then mret 13
  else if escaped =? ch "t" then mret 9
  else if escaped =? ch "b" then mret 8
  else if escaped =? ch "f" then mret 12
  else if escaped =? 92 then mret 92
  else if escaped =? 34 then mret 34
  else if escaped =? ch "u" then
    digits ← times 4 hex_escape_digit;
    or_error (char_of (digits_value 16 digits)) "Invalid Unicode scalar"
  else if is_octal_digit escaped then
    digits ← octal_digits 2;
    or_error (char_of (digits_value 8 (escaped :: digits))) "Invalid octal scalar"
  else error ("Unsupported escape character: \" +:+ utf8 [escaped]).

Fixpoint string_loop (fuel : nat) : parse (list char) :=
  match fuel with
  | O => fail NoFuel
  | S fuel =>
      c ← reading read_char;
      match c with
      | None => error "EOF while reading string"
      | Some c =>
          if c =? 34 then mret []
          else
            c ← (if c =? 92 then escape else mret c);
            rest ← string_loop fuel;
            mret (c :: rest)
      end
  end.
Definition read_string : parse (list char) := λ p, string_loop (S (length (source (reader p)))) p.

Fixpoint regex_loop (fuel : nat) : parse (list char) :=
  match fuel with
  | O => fail NoFuel
  | S fuel =>
      c ← reading read_char;
      match c with
      | None => error "EOF while reading regex"
      | Some c =>
          if c =? 34 then mret []
          else if c =? 92 then
            next ← expect_char "EOF while reading regex";
            rest ← regex_loop fuel;
            mret (92 :: next :: rest)
          else rest ← regex_loop fuel; mret (c :: rest)
      end
  end.
Definition regex : parse (list char) := λ p, regex_loop (S (length (source (reader p)))) p.

(** ** Metadata *)
Definition assoc_entry (old : list (Form * Form)) (entry : Form * Form) : list (Form * Form) :=
  match list_find (λ e, form_eqb e.1 entry.1 = true) old with
  | Some (i, prior) => <[i := (prior.1, entry.2)]> old
  | None => old ++ [entry]
  end.

Definition is_object_form (value : Form) : bool :=
  match value with FSymbol _ | FList _ | FVector _ | FMap _ | FSet _ => true | _ => false end.

Definition metadata (meta value : Form) : parse Form :=
  normalized ←
    match meta with
    | FKeyword name => mret (FMap [(FKeyword name, FBool true)])
    | FSymbol _ | FString _ => mret (FMap [(FKeyword "tag", meta)])
    | FMap _ => mret meta
    | _ => error "Metadata must be Symbol, Keyword, String or Map"
    end;
  match value with
  | FKeyword _ => mret value
  | FMetadata existing inner =>
      match existing, normalized with
      | FMap old, FMap new => mret (FMetadata (FMap (foldl assoc_entry old new)) inner)
      | _, _ => fail ParserPanic
      end
  | _ =>
      if is_object_form value then mret (FMetadata normalized value)
      else error "Metadata can only be applied to object forms"
  end.

(** ** Atoms *)
Section atoms.
Context `{TextEnv}.

(** [CanonicalInteger::from_bigint], as a form. *)
Definition integer_form (value : Z) : Form :=
  if decide (- 2 ^ 63 ≤ value < 2 ^ 63)%Z then FNumber value else FBigInteger value.

Definition parse_integer_digits (digits : list char) (radix : N) (negative : bool) : option Form :=
  value ← parse_bytes digits radix;
  Some (integer_form (if negative then - value else value)%Z).

Definition keyword_error (keyword : list char) : option string :=
  if negb (nonempty keyword) then Some "Keyword name cannot be empty."
  else if decide (keyword = [ch "/"]) then Some "Keyword name cannot be a single slash."
  else if (1 <? length (filter (λ c, c = ch "/") keyword))%nat then Some "Keyword name can only contain one slash."
  else if first_is (N.eqb (ch "/")) keyword then Some "Keyword name cannot start with a slash."
  else if last_is (N.eqb (ch "/")) keyword then Some "Keyword name cannot end with a slash."
  else None.

Definition strip_any_sign (token : list char) : list char :=
  match token with c :: rest => if (c =? ch "+") || (c =? ch "-") then rest else token | [] => [] end.

Definition is_ratio (body : list char) : bool :=
  match split_once (N.eqb (ch "/")) body with
  | Some (n, d) => nonempty n && nonempty d && all_digits n && all_digits d
  | None => false
  end.

Definition number (token body : list char) : parse Form :=
  let invalid := "Invalid number: " +:+ utf8 token in
  if last_is (λ c, (c =? ch "N") || (c =? ch "M")) token then
    error ("Legacy numeric suffixes N and M are not supported: " +:+ utf8 token)
  else
    let negative := first_is (N.eqb (ch "-")) token in
    if existsb (λ c, (c =? ch ".") || (c =? ch "e") || (c =? ch "E")) body then
      float ← or_error (parse_f64 token) invalid;
      if is_finite float then mret (FFloat float) else error "non-finite number"
    else
      parsed ←
        match (match strip_prefix [ch "0"; ch "x"] body with
               | Some hex => Some hex
               | None => strip_prefix [ch "0"; ch "X"] body
               end) with
        | Some hex => mret (parse_integer_digits hex 16 negative)
        | None =>
            match split_once (λ c, (c =? ch "r") || (c =? ch "R")) body with
            | Some (radix_text, digits) =>
                radix ← or_error (parse_unsigned U32_MAX 10 radix_text) invalid;
                if negb (between 2 36 radix) then error ("Radix out of range: " +:+ utf8 (decimal radix))
                else if negb (nonempty digits) then error invalid
                else
                  match List.find (λ d, negb (is_some (to_digit radix d))) digits with
                  | Some digit =>
                      error ("Invalid digit " +:+ utf8 [digit] +:+ " under radix " +:+ utf8 (decimal radix))
                  | None => mret (parse_integer_digits digits radix negative)
                  end
            | None =>
                if (1 <? length (utf8_bytes body))%nat && first_is (N.eqb (ch "0")) body && all_digits body then
                  if forallb is_octal_digit body then mret (parse_integer_digits body 8 negative) else mret None
                else if all_digits body then mret (parse_integer_digits body 10 negative)
                else mret None
            end
        end;
      or_error parsed invalid.

Definition atom (token : list char) : parse Form :=
  if decide (token = chars "nil") then mret FNil
  else if decide (token = chars "true") then mret (FBool true)
  else if decide (token = chars "false") then mret (FBool false)
  else
    match strip_prefix [ch ":"] token with
    | Some keyword =>
        match keyword_error keyword with
        | Some message => error message
        | None => mret (FKeyword (utf8 keyword))
        end
    | None =>
        let body := strip_any_sign token in
        if is_ratio body then error "Ratios are not supported"
        else if first_is is_ascii_digit body then number token body
        else mret (FSymbol (utf8 token))
    end.

Definition is_bracket (c : char) : bool := is_one_of (chars "()[]{}") c.

(** The value of a character literal, from its token. *)
Definition character_value (token : list char) : option char :=
  let bytes := length (utf8_bytes token) in
  if decide (token = chars "newline") then Some 10
  else if decide (token = chars "space") then Some 32
  else if decide (token = chars "tab") then Some 9
  else if decide (token = chars "backspace") then Some 8
  else if decide (token = chars "formfeed") then Some 12
  else if decide (token = chars "return") then Some 13
  else if first_is (N.eqb (ch "u")) token && (bytes =? 5)%nat then
    char_of (parse_unsigned U32_MAX 16 (drop 1 token))
  else if first_is (N.eqb (ch "o")) token && (2 <=? bytes)%nat && (bytes <=? 4)%nat then
    char_of (parse_unsigned U32_MAX 8 (drop 1 token))
  else match token with [c] => Some c | _ => None end.

(** The first character of an escape of a given length that is not a digit. *)
Definition invalid_digit (prefix : char) (lengths : nat → bool) (digit : char → bool) (token : list char)
    : option char :=
  match strip_prefix [prefix] token with
  | Some digits => if lengths (length (utf8_bytes digits)) then List.find (λ c, negb (digit c)) digits else None
  | None => None
  end.

(** The token of a character literal: one bracket, or the text up to
    whitespace or a bracket. *)
Definition character_char (c : char) : bool := negb (is_whitespace c) && negb (is_bracket c).
Definition character_token : parse (list char) :=
  next ← reading peek_char;
  if match next with Some c => is_bracket c | None => false end
  then c ← reading read_char; mret (option_list c)
  else reading (read_while character_char).

Definition character : parse Form :=
  token ← character_token;
  match invalid_digit (ch "u") (λ n, n =? 4)%nat is_ascii_hexdigit token with
  | Some digit => error ("Invalid digit: " +:+ utf8 [digit])
  | None =>
      match invalid_digit (ch "o") (λ n, (1 <=? n) && (n <=? 3))%nat is_octal_digit token with
      | Some digit => error ("Invalid digit: " +:+ utf8 [digit])
      | None => value ← or_error (character_value token) ("Invalid character: \" +:+ utf8 token); mret (FCharacter value)
      end
  end.

(** ** Forms *)

(** [delimited]: the forms up to a closing character; [read] is [read_one]. *)
Fixpoint delimited_loop (read : parse (option SpannedForm)) (fuel : nat) (close : char) (kind : string)
    : parse (list SpannedForm) :=
  match fuel with
  | O => fail NoFuel
  | S fuel =>
      whitespace;;
      c ← reading peek_char;
      match c with
      | None => error ("EOF while reading " +:+ kind)
      | Some c =>
          if c =? close then reading read_char;; mret []
          else
            item ← read;
            forms ← delimited_loop read fuel close kind;
            mret (option_list item ++ forms)
      end
  end.

Section reading.
Variable read : parse (option SpannedForm).
Variable fuel : nat.

Definition delimited (close : char) (kind : string) : parse (list SpannedForm) :=
  delimited_loop read fuel close kind.

Definition read_required (context : string) : parse SpannedForm :=
  whitespace;;
  x ← read;
  or_error x ("EOF after " +:+ context).

Definition prefixed (name : string) : parse (Form * list SpannedForm) :=
  value ← read_required name;
  mret (FList [FSymbol name; form value], [value]).

Definition anonymous_function : parse (Form * list SpannedForm) :=
  items ← delimited (ch ")") "anonymous function";
  let body := FList (form <$> items) in
  match anonymous_arguments body (0, false) with
  | (Err message, _) => error message
  | (Ok _, (maximum, variadic)) =>
      id ← gets anonymous_function_id;
      modify (λ p, mkParser (reader p) ((anonymous_function_id p + 1) mod 2 ^ 64));;
      mret (FList [FSymbol "fn"; FVector (anonymous_parameters id maximum variadic);
                   rewrite_anonymous_arguments id body], [])
  end.

Definition read_metadata : parse (Form * list SpannedForm) :=
  meta ← read_required "metadata";
  value ← read_required "metadata";
  form ← metadata (form meta) (form value);
  mret (form, [meta; value]).

Definition symbolic_value {A} : parse A :=
  value ← read_required "symbolic value";
  match form value with
  | FSymbol name =>
      if decide (name = "Inf" ∨ name = "-Inf" ∨ name = "NaN") then error "non-finite number"
      else error ("Unknown symbolic value: ##" +:+ name)
  | _ => error "Invalid symbolic value"
  end.

Definition dispatch : parse (option (Form * list SpannedForm)) :=
  c ← reading read_char;
  match c with
  | None => error "EOF while reading hash dispatch"
  | Some c =>
      if c =? ch "(" then x ← anonymous_function; mret (Some x)
      else if is_one_of (chars ":=?|") c then error ("No dispatch macro for: " +:+ utf8 [c])
      else if c =? ch "{" then
        children ← delimited (ch "}") "set";
        let forms := form <$> children in
        if has_duplicate [] forms then error "Duplicate item" else mret (Some (FSet forms, children))
      else if c =? ch "_" then read_required "#_";; mret None
      else if c =? 39 then
        value ← read_required "var quote";
        match form value with
        | FSymbol _ => mret (Some (FList [FSymbol "var"; form value], [value]))
        | _ => error "Var quote expects a symbol"
        end
      else if c =? 34 then r ← regex; mret (Some (FRegex (utf8 r), []))
      else if c =? ch "<" then error "Unreadable form"
      else if c =? ch "^" then x ← read_metadata; mret (Some x)
      else if c =? ch "#" then symbolic_value
      else if negb (is_alphabetic c) then error ("No dispatch macro for: " +:+ utf8 [c])
      else
        tag ← symbol_token c;
        if negb (nonempty tag) then error ("No dispatch macro for: " +:+ utf8 [c])
        else
          value ← read_required "tagged literal";
          mret (Some (FTagged (utf8 tag) (form value), [value]))
  end.

(** [children.chunks(2)], of an even number of children. *)
Fixpoint pairs (l : list SpannedForm) : list (Form * Form) :=
  match l with
  | key :: value :: l => (form key, form value) :: pairs l
  | _ => []
  end.

(** The cases of [read_one] on its first character. *)
Definition read_form (c : char) : parse (option (Form * list SpannedForm)) :=
  if c =? ch "(" then
    children ← delimited (ch ")") "list"; mret (Some (FList (form <$> children), children))
  else if c =? ch "[" then
    children ← delimited (ch "]") "vector"; mret (Some (FVector (form <$> children), children))
  else if c =? ch "{" then
    children ← delimited (ch "}") "map";
    if negb (Nat.even (length children)) then error "Map literal requires an even number of forms"
    else
      let entries := pairs children in
      if has_duplicate [] entries.*1 then error "Duplicate key" else mret (Some (FMap entries, children))
  else if is_one_of (chars ")]}") c then error ("Unmatched delimiter: " +:+ utf8 [c])
  else if c =? 34 then s ← read_string; mret (Some (FString (utf8 s), []))
  else if c =? 39 then x ← prefixed "quote"; mret (Some x)
  else if c =? ch "@" then x ← prefixed "deref"; mret (Some x)
  else if c =? ch "`" then x ← prefixed "syntax-quote"; mret (Some x)
  else if c =? ch "~" then
    next ← reading peek_char;
    if decide (next = Some (ch "@")) then
      reading read_char;; x ← prefixed "unquote-splicing"; mret (Some x)
    else x ← prefixed "unquote"; mret (Some x)
  else if c =? ch "^" then x ← read_metadata; mret (Some x)
  else if c =? 92 then x ← character; mret (Some (x, []))
  else if c =? ch "#" then dispatch
  else
    next ← reading peek_char;
    let numeric :=
      is_ascii_digit c
      || (((c =? ch "+") || (c =? ch "-")) && match next with Some d => is_ascii_digit d | None => false end) in
    token ← (if numeric then number_token c else symbol_token c);
    x ← atom token;
    mret (Some (x, [])).
End reading.

Fixpoint read_one (fuel : nat) : parse (option SpannedForm) :=
  match fuel with
  | O => fail NoFuel
  | S fuel =>
      whitespace;;
      eof ← gets (λ p, is_eof (reader p));
      if eof : bool then mret None
      else
        start ← gets (λ p, reader_position (reader p));
        c ← reading read_char;
        match c with
        | None => fail ParserPanic
        | Some c =>
            x ← read_form (read_one fuel) fuel c;
            end_ ← gets (λ p, reader_position (reader p));
            mret ((λ '(form, children), mkSpanned form (mkSpan start end_) children) <$> x)
        end
  end.

Fixpoint read_all_loop (fuel : nat) : parse (list SpannedForm) :=
  match fuel with
  | O => fail NoFuel
  | S n =>
      whitespace;;
      eof ← gets (λ p, is_eof (reader p));
      if eof : bool then mret []
      else
        x ← read_one fuel;
        forms ← read_all_loop n;
        mret (option_list x ++ forms)
  end.

Definition read_all (fuel : nat) : parse (list SpannedForm) :=
  forms ← read_all_loop fuel;
  match forms with [] => error "source contains no forms" | _ => mret forms end.

(** A unit of fuel per character and one more. *)
Definition read_forms (source : list char) : result stop (list SpannedForm) :=
  (read_all (S (length source)) (parser_new source)).1.

(** [Display] of a [ParseError]. *)
Definition error_text (e : ParseError) : string :=
  message e +:+ " [line " +:+ utf8 (decimal (line (error_position e))) +:+ ", column "
    +:+ utf8 (decimal (column (error_position e))) +:+ "]".

(** [None] is a panic. *)
Definition parse_forms (source : list char) : option (result string (list Form)) :=
  match read_forms source with
  | Ok forms => Some (Ok (form <$> forms))
  | Err (ParseFailed e) => Some (Err (error_text e))
  | Err _ => None
  end.

Definition parse_one (source : list char) : option (result string Form) :=
  forms ← parse_forms source;
  Some (forms ← forms;
        match forms with
        | [form] => Ok form
        | _ => Err "source contains multiple forms; use eval_text"
        end).
End atoms.
