(* ===== verification/Printer.v ===== *)
(** * The printer

    The [Display] of forms, [kernel/form.rs] under [src/core/rust/src]: the
    text a form is shown as, which the reader is meant to read back.
    [None] is the panic on a float that is not finite. *)
From Stdlib Require Import Ascii.
From S2P Require Import Prelude Bytes Text Kernel.
#[local] Open Scope N_scope.

Definition display_string_char (c : char) : list char :=
  if c =? 10 then chars "\n"
  else if c =? 13 then chars "\r"
  else if c =? 9 then chars "\t"
  else if c =? 8 then chars "\b"
  else if c =? 12 then chars "\f"
  else if c =? 92 then [92; 92]
  else if c =? 34 then [92; 34]
  else if is_control c then chars "\u" ++ hex4 c
  else [c].

Definition display_string (value : list char) : list char :=
  34 :: concat (display_string_char <$> value) ++ [34].

(** [backslashes] counts the backslashes just before the character. *)
Fixpoint display_regex_chars (backslashes : N) (value : list char) : list char :=
  match value with
  | [] => []
  | c :: value =>
      (if (c =? 34) && (backslashes mod 2 =? 0) then [92; c] else [c])
        ++ display_regex_chars (if c =? 92 then backslashes + 1 else 0) value
  end.
Definition display_regex (value : list char) : list char :=
  chars "#" ++ 34 :: display_regex_chars 0 value ++ [34].

(** [join] with spaces. *)
Fixpoint join_spaces (l : list (list char)) : list char :=
  match l with
  | [] => []
  | [x] => x
  | x :: l => x ++ 32 :: join_spaces l
  end.

Definition display_character (c : char) : list char :=
  if c =? 10 then chars "\newline"
  else if c =? 32 then chars "\space"
  else if c =? 9 then chars "\tab"
  else if c =? 8 then chars "\backspace"
  else if c =? 12 then chars "\formfeed"
  else if c =? 13 then chars "\return"
  else if is_control c then chars "\u" ++ hex4 c
  else [92; c].

Definition display_all (display : Form → option (list char)) : list Form → option (list (list char)) :=
  fix go l :=
    match l with
    | [] => Some []
    | x :: l => t ← display x; ts ← go l; Some (t :: ts)
    end.
Definition display_entries (display : Form → option (list char))
    : list (Form * Form) → option (list (list char)) :=
  fix go l :=
    match l with
    | [] => Some []
    | (k, v) :: l => t ← display k; u ← display v; ts ← go l; Some (t :: u :: ts)
    end.

Section display.
Context `{TextEnv}.

(** [{value:.1}] of a float that stands for an integer. *)
Definition integral_text (integral : bool * N) : list char :=
  (if integral.1 then [ch "-"] else []) ++ decimal integral.2 ++ chars ".0".

Fixpoint display (form : Form) : option (list char) :=
  match form with
  | FRuntimeLiteral _ => Some (chars "#<runtime-literal>")
  | FNil => Some (chars "nil")
  | FBool value => Some (if value then chars "true" else chars "false")
  | FNumber value => Some (decimal_Z value)
  | FFloat bits =>
      if is_finite bits then
        Some (chars "(double "
          ++ match f64_integral bits with Some i => integral_text i | None => float_display bits end
          ++ chars ")")
      else None
  | FBigInteger value => Some (bigint_display value)
  | FCharacter value => Some (display_character value)
  | FRegex value => Some (display_regex (chars value))
  | FTagged tag value => t ← display value; Some (ch "#" :: chars tag ++ t)
  | FMetadata _ value => display value
  | FSymbol value => Some (chars value)
  | FKeyword value => Some (ch ":" :: chars value)
  | FString value => Some (display_string (chars value))
  | FMap entries => ts ← display_entries display entries; Some (ch "{" :: join_spaces ts ++ [ch "}"])
  | FSet values => ts ← display_all display values; Some (chars "#{" ++ join_spaces ts ++ [ch "}"])
  | FVector values => ts ← display_all display values; Some (ch "[" :: join_spaces ts ++ [ch "]"])
  | FList values => ts ← display_all display values; Some (ch "(" :: join_spaces ts ++ [ch ")"])
  end.
End display.
