(* ===== verification/ReaderFacts.v ===== *)
(** * Facts about the reader

    [reader_at s i] is the cursor after the first [i] characters of a text,
    with the position they end at; every method takes such states to such
    states. [hoare] states what a parser does between them: it ends without a
    panic within its fuel, moves forward, and reports errors at a position of
    the text. *)
From Stdlib Require Import Ascii.
From S2P Require Import Prelude Bytes Text Kernel Reader.
#[local] Open Scope nat_scope.

(** ** Positions *)
Definition newline (c : char) : bool := (c =? 10)%N.

(** The position after [i] characters: the bytes before it, the newlines, and
    the characters of the last line. *)
Definition position_at (s : list char) (i : nat) : Position :=
  mkPosition (N.of_nat (length (utf8_bytes (take i s))))
    (N.of_nat (1 + length (filter newline (take i s))))
    (N.of_nat (1 + length (take_while (λ c, negb (newline c)) (reverse (take i s))))).

Fixpoint history_at (s : list char) (i : nat) : list Position :=
  match i with 0 => [] | S i => position_at s i :: history_at s i end.

Definition reader_at (s : list char) (i : nat) : Reader :=
  let p := position_at s i in mkReader s (offset p) (line p) (column p) (history_at s i).
Definition parser_at (s : list char) (i : nat) (id : N) : Parser := mkParser (reader_at s i) id.

Lemma reader_new_at s : reader_new s = reader_at s 0.
Proof. done. Qed.

Lemma reader_position_at s i : reader_position (reader_at s i) = position_at s i.
Proof. done. Qed.

Lemma position_at_S s i c :
  s !! i = Some c →
  position_at s (S i) =
    mkPosition (offset (position_at s i) + N.of_nat (len_utf8 c))
      (if newline c then line (position_at s i) + 1 else line (position_at s i))
      (if newline c then 1 else column (position_at s i) + 1).
Proof.
  intros Hc. unfold position_at. rewrite (take_S_r _ _ _ Hc), utf8_bytes_app, filter_app, reverse_app.
  cbn [offset line column]. rewrite reverse_singleton, !length_app, utf8_bytes_cons, length_app, length_encode_utf8.
  cbn [app take_while]. unfold newline. destruct (N.eqb_spec c 10) as [->|Hn].
  - f_equal; [cbn; lia|]. rewrite filter_cons_True, filter_nil by done. cbn [length]. lia.
  - cbn [negb]. rewrite filter_cons_False, filter_nil by (intros E%Is_true_true; by apply N.eqb_eq in E).
    cbn. f_equal; lia.
Qed.

Lemma text_from_take s i : text_from s (N.of_nat (length (utf8_bytes (take i s)))) = Some (drop i s).
Proof.
  revert i. induction s as [|c s IH]; intros [|i]; try done.
  rewrite firstn_cons, utf8_bytes_cons, length_app, length_encode_utf8. cbn [text_from skipn].
  pose proof (len_utf8_pos c).
  destruct (N.eqb_spec (N.of_nat (len_utf8 c + length (utf8_bytes (take i s)))) 0); [lia|].
  rewrite (proj2 (N.leb_le _ _)) by lia. rewrite <-(IH i). f_equal. lia.
Qed.

Section at_position.
Variable s : list char.

Lemma head_drop i : head (drop i s) = s !! i.
Proof. rewrite head_lookup, lookup_drop. f_equal. lia. Qed.

Lemma peek_char_at i : peek_char (reader_at s i) = (Ok (s !! i), reader_at s i).
Proof. unfold peek_char, reader_at at 1 2. cbn. by rewrite text_from_take, head_drop. Qed.

Lemma read_char_at i :
  read_char (reader_at s i) = (Ok (s !! i), match s !! i with Some _ => reader_at s (S i) | None => reader_at s i end).
Proof.
  unfold read_char, mbind, prog_bind. rewrite peek_char_at. destruct (s !! i) as [c|] eqn:Hc; [|done].
  unfold reader_at. cbn [history_at]. rewrite (position_at_S s i c Hc). cbn. unfold newline.
  by destruct (c =? 10)%N.
Qed.

Lemma utf8_bytes_take_S i c :
  s !! i = Some c → (length (utf8_bytes (take i s)) < length (utf8_bytes (take (S i) s)))%nat.
Proof.
  intros Hc. rewrite (take_S_r _ _ _ Hc), utf8_bytes_app, utf8_bytes_cons, !length_app, length_encode_utf8.
  pose proof (len_utf8_pos c). lia.
Qed.

Lemma unread_char_at i c : s !! i = Some c → unread_char (reader_at s (S i)) = (Ok (Some c), reader_at s i).
Proof.
  intros Hc. pose proof (utf8_bytes_take_S i c Hc) as Hlt. unfold unread_char, reader_at at 1. cbn [history history_at source cursor].
  assert (offset (position_at s i) = N.of_nat (length (utf8_bytes (take i s)))) as -> by done.
  assert (cursor (reader_at s (S i)) = N.of_nat (length (utf8_bytes (take (S i) s)))) as -> by done.
  assert (source (reader_at s (S i)) = s) as -> by done.
  rewrite text_from_take, head_drop, Hc. rewrite (proj2 (N.ltb_ge _ _)) by lia.
  by rewrite (proj2 (N.eqb_neq _ _)) by lia.
Qed.

Lemma read_while_loop_at p fuel i :
  length s - i < fuel →
  read_while_loop fuel p (reader_at s i) =
    (Ok (take_while p (drop i s)), reader_at s (i + length (take_while p (drop i s)))).
Proof.
  revert i. induction fuel as [|fuel IH]; intros i Hf; [lia|]. cbn [read_while_loop].
  unfold mbind at 1, prog_bind at 1. rewrite read_char_at. destruct (s !! i) as [c|] eqn:Hc.
  - rewrite (drop_S _ _ _ Hc). cbn [take_while]. pose proof (lookup_lt_Some _ _ _ Hc). destruct (p c).
    + unfold mbind, prog_bind. rewrite IH by lia. cbn. by rewrite Nat.add_succ_r.
    + unfold mbind, prog_bind. rewrite (unread_char_at _ _ Hc). cbn. by rewrite Nat.add_0_r.
  - apply lookup_ge_None in Hc. rewrite drop_ge by done. cbn. by rewrite Nat.add_0_r.
Qed.

Lemma read_while_at p i :
  read_while p (reader_at s i) =
    (Ok (take_while p (drop i s)), reader_at s (i + length (take_while p (drop i s)))).
Proof. unfold read_while. apply read_while_loop_at. cbn. lia. Qed.

Lemma is_eof_at i : is_eof (reader_at s i) = (length s <=? i).
Proof.
  unfold is_eof, reader_at. cbn [source cursor]. destruct (Nat.leb_spec (length s) i) as [Hi|Hi].
  - unfold position_at. cbn [offset]. rewrite firstn_all2 by done. by apply N.leb_refl.
  - apply N.leb_gt. unfold position_at. cbn [offset].
    rewrite <-(take_drop i s) at 2. rewrite utf8_bytes_app, length_app.
    destruct (lookup_lt_is_Some_2 _ _ Hi) as [c Hc]. rewrite (drop_S _ _ _ Hc), utf8_bytes_cons, length_app, length_encode_utf8.
    pose proof (len_utf8_pos c). lia.
Qed.
End at_position.

(** ** Typed forms

    What every form the reader returns satisfies: its texts are valid, numbers
    are in the range their variant stands for, symbols and keywords are tokens,
    and metadata is a map on an object form. *)
Definition text_ok (s : string) : bool := bool_decide (rust_string s).
Definition token_text (name : string) : bool :=
  text_ok name && nonempty (chars name) && forallb symbol_char (chars name).
Definition keyword_text (name : string) : bool :=
  token_text name && match keyword_validate name with Ok _ => true | Err _ => false end.
Definition i64_range (z : Z) : bool := bool_decide (- 2 ^ 63 ≤ z < 2 ^ 63)%Z.

Definition all_of (p : Form → bool) : list Form → bool :=
  fix go l := match l with [] => true | x :: l => p x && go l end.
Definition all_entries (p : Form → bool) : list (Form * Form) → bool :=
  fix go l := match l with [] => true | (k, v) :: l => p k && p v && go l end.

Fixpoint form_typed (f : Form) : bool :=
  match f with
  | FRuntimeLiteral _ => false
  | FNil | FBool _ => true
  | FNumber z => i64_range z
  | FFloat bits => is_finite bits
  | FBigInteger z => negb (i64_range z)
  | FCharacter c => scalar c
  | FRegex s | FString s => text_ok s
  | FTagged tag v => token_text tag && form_typed v
  | FMetadata m v =>
      match m with FMap _ => true | _ => false end && form_typed m && is_object_form v && form_typed v
  | FSymbol name => token_text name
  | FKeyword name => keyword_text name
  | FMap entries => all_entries form_typed entries
  | FSet l | FVector l | FList l => all_of form_typed l
  end.

Lemma all_of_Forall p l : all_of p l = true ↔ Forall (λ x, p x = true) l.
Proof. induction l as [|x l IH]; cbn; [done|]. by rewrite andb_true_iff, Forall_cons, IH. Qed.

Lemma all_entries_Forall p l : all_entries p l = true ↔ Forall (λ e, p e.1 = true ∧ p e.2 = true) l.
Proof.
  induction l as [|[k v] l IH]; cbn; [done|]. by rewrite !andb_true_iff, Forall_cons, IH.
Qed.

Lemma token_text_utf8 l :
  Forall (λ c, scalar c = true) l → l ≠ [] → Forall (λ c, symbol_char c = true) l → token_text (utf8 l) = true.
Proof.
  intros Hl Hn Hc. unfold token_text, text_ok. rewrite bool_decide_true by by apply rust_string_utf8.
  rewrite chars_utf8 by done. destruct l; [done|]. cbn [nonempty andb]. by apply forallb_Forall.
Qed.

Lemma text_ok_utf8 l : Forall (λ c, scalar c = true) l → text_ok (utf8 l) = true.
Proof. intros Hl. apply bool_decide_true. by apply rust_string_utf8. Qed.

(** ** Located forms

    [located s i j x]: the span of [x] is the text from [i] to [j], and its
    children lie inside it, in order and apart. *)
Inductive located (s : list char) : nat → nat → SpannedForm → Prop :=
| located_intro i j form children :
    i < j ≤ length s → laid s (S i) j children →
    located s i j (mkSpanned form (mkSpan (position_at s i) (position_at s j)) children)
with laid (s : list char) : nat → nat → list SpannedForm → Prop :=
| laid_nil i j : i ≤ j → laid s i j []
| laid_cons i k l j x xs : i ≤ k → located s k l x → laid s l j xs → laid s i j (x :: xs).

(** ** The calculus of parsers *)
Section hoare.
Variable s : list char.
Hypothesis scalars : Forall (λ c, scalar c = true) s.

Definition hoare {A} (i : nat) (m : parse A) (Q : A → nat → Prop) : Prop :=
  i ≤ length s → ∀ id,
    match m (parser_at s i id) with
    | (Ok x, p) => ∃ j id', p = parser_at s j id' ∧ i ≤ j ≤ length s ∧ Q x j
    | (Err (ParseFailed e), _) => ∃ k, k ≤ length s ∧ error_position e = position_at s k
    | (Err _, _) => False
    end.

Lemma hoare_ret {A} i (x : A) Q : Q x i → hoare i (mret x) Q.
Proof. intros HQ Hi id. exists i, id. done. Qed.

Lemma hoare_bind {A B} i (m : parse A) (f : A → parse B) Q R :
  hoare i m Q → (∀ x j, i ≤ j ≤ length s → Q x j → hoare j (f x) R) → hoare i (m ≫= f) R.
Proof.
  intros Hm Hf Hi id. specialize (Hm Hi id). unfold mbind, prog_bind.
  destruct (m (parser_at s i id)) as [[x|[e| |]] p]; [|done..].
  destruct Hm as (j & id' & -> & Hj & HQ). specialize (Hf x j Hj HQ (proj2 Hj) id').
  destruct (f x (parser_at s j id')) as [[y|[e| |]] p]; [|done..].
  destruct Hf as (k & id'' & -> & Hk & HR). exists k, id''. split_and!; [done|lia|lia|done].
Qed.

Lemma hoare_weaken {A} i (m : parse A) (Q R : A → nat → Prop) :
  hoare i m Q → (∀ x j, i ≤ j ≤ length s → Q x j → R x j) → hoare i m R.
Proof.
  intros Hm HQ Hi id. specialize (Hm Hi id). destruct (m (parser_at s i id)) as [[x|[e| |]] p]; [|done..].
  destruct Hm as (j & id' & -> & Hj & Hx). exists j, id'. auto.
Qed.

Lemma hoare_error {A} i message (Q : A → nat → Prop) : hoare i (error message) Q.
Proof. intros Hi id. by exists i. Qed.

Lemma hoare_or_error {A} i (x : option A) message (Q : A → nat → Prop) :
  (∀ y, x = Some y → Q y i) → hoare i (or_error x message) Q.
Proof. intros HQ. destruct x as [y|]; [apply hoare_ret; auto|apply hoare_error]. Qed.

Lemma reading_at {A} i id (m : prog Reader stop A) :
  reading m (parser_at s i id) = ((m (reader_at s i)).1, mkParser (m (reader_at s i)).2 id).
Proof. unfold reading. cbn [reader parser_at anonymous_function_id]. by destruct (m (reader_at s i)). Qed.

Lemma hoare_peek i : hoare i (reading peek_char) (λ c j, c = s !! j ∧ j = i).
Proof. intros Hi id. rewrite reading_at, peek_char_at. exists i, id. done. Qed.

Lemma hoare_read i :
  hoare i (reading read_char) (λ c j, c = s !! i ∧ j = match c with Some _ => S i | None => i end).
Proof.
  intros Hi id. rewrite reading_at, read_char_at. destruct (s !! i) as [c|] eqn:Hc.
  - apply lookup_lt_Some in Hc as ?. exists (S i), id. split_and!; [done|lia..|done|done].
  - exists i, id. done.
Qed.

Lemma hoare_read_while i p :
  hoare i (reading (read_while p)) (λ l j, l = take_while p (drop i s) ∧ j = i + length l).
Proof.
  intros Hi id. rewrite reading_at, read_while_at.
  exists (i + length (take_while p (drop i s))), id. split_and!; [done|lia| |done..].
  pose proof (f_equal length (take_while_split p (drop i s))) as E.
  rewrite length_app, !length_drop in E. lia.
Qed.

Lemma hoare_gets {A} i (f : Parser → A) (Q : A → nat → Prop) :
  (∀ id, Q (f (parser_at s i id)) i) → hoare i (gets f) Q.
Proof. intros HQ Hi id. exists i, id. auto. Qed.

Lemma scalar_at i c : s !! i = Some c → scalar c = true.
Proof. intros Hc. by apply (Forall_lookup_1 _ _ _ _ scalars Hc). Qed.

Lemma scalars_take_while p i : Forall (λ c, scalar c = true) (take_while p (drop i s)).
Proof.
  pose proof (Forall_drop _ i _ scalars) as H. rewrite (take_while_split p) in H. by apply Forall_app in H as [].
Qed.
End hoare.

(** ** Texts of tokens *)
Lemma string_of_bytes_cons b l :
  String.string_of_list_byte (b :: l) = String (ascii_of_byte b) (String.string_of_list_byte l).
Proof. done. Qed.

Lemma utf8_app l k : utf8 (l ++ k) = utf8 l +:+ utf8 k.
Proof.
  unfold utf8. rewrite utf8_bytes_app. generalize (utf8_bytes l) (utf8_bytes k). intros a b.
  induction a as [|x a IH]; [done|]. cbn [app]. by rewrite !string_of_bytes_cons, IH.
Qed.

Lemma token_chars name :
  token_text name = true →
  utf8 (chars name) = name ∧ Forall (λ c, scalar c = true) (chars name) ∧
  Forall (λ c, symbol_char c = true) (chars name).
Proof.
  unfold token_text, text_ok. rewrite !andb_true_iff, bool_decide_eq_true, forallb_Forall.
  intros [[[? ?]%utf8_chars _] ?]. done.
Qed.

Lemma decimal_token n :
  Forall (λ c, scalar c = true) (decimal n) ∧ Forall (λ c, symbol_char c = true) (decimal n).
Proof.
  destruct (decimal_spec n) as [Hd _].
  split; (eapply Forall_impl; [exact Hd|]); cbn beta; intros c Hc%is_ascii_digit_spec.
  - apply scalar_spec. lia.
  - assert (c = 48 ∨ c = 49 ∨ c = 50 ∨ c = 51 ∨ c = 52 ∨ c = 53 ∨ c = 54 ∨ c = 55 ∨ c = 56 ∨ c = 57)%N as E by lia.
    by destruct_or! E; subst.
Qed.

Lemma reader_argument_token id text :
  text_ok text = true → Forall (λ c, symbol_char c = true) (chars text) →
  token_text (reader_argument id text) = true.
Proof.
  intros [E Ht]%bool_decide_eq_true%utf8_chars Hc. unfold reader_argument. rewrite <-E.
  change "__reader_fn_" with (utf8 (chars "__reader_fn_")). change "_" with (utf8 [95%N]).
  rewrite <-!utf8_app. destruct (decimal_token id) as [? ?].
  apply token_text_utf8; [|done|]; repeat (apply Forall_app; split); try done; by repeat constructor.
Qed.

Lemma argument_text_spec name text :
  argument_text name = Some text → token_text name = true →
  text_ok text = true ∧ Forall (λ c, symbol_char c = true) (chars text).
Proof.
  destruct name as [|a rest]; [done|]. cbn [argument_text]. case_decide as Ha; [|done]. subst a.
  intros [= <-]. unfold token_text, text_ok. rewrite !andb_true_iff, !bool_decide_eq_true, forallb_Forall.
  intros [[Hr _] Hc]. split; [exact Hr|]. change (chars (String "%" rest)) with (37%N :: chars rest) in Hc.
  by inversion Hc.
Qed.

Lemma number_char_symbol c : number_char c = true → symbol_char c = true.
Proof.
  unfold number_char, symbol_char, is_one_of, number_macros, symbol_macros. cbn [existsb].
  rewrite !andb_true_iff, !negb_true_iff, !orb_false_iff. tauto.
Qed.

(** *** Keywords *)
Lemma high_byte x : (128 <= x < 256)%N → SLASH ≠ ascii_of_byte (byte_of_N x).
Proof.
  intros Hx E. apply (f_equal N_of_ascii) in E. revert E.
  rewrite ascii_of_byte_via_N, N_ascii_embedding, byte_small by (rewrite ?byte_small; lia).
  change (N_of_ascii SLASH) with 47%N. lia.
Qed.

Lemma string_bytes_count l :
  Forall (λ c, scalar c = true) l →
  string_count SLASH (utf8 l) = length (filter (λ c, c = ch "/") l).
Proof.
  assert (∀ x k, (128 <= x < 256)%N →
    string_count SLASH (String.string_of_list_byte (byte_of_N x :: k)) =
    string_count SLASH (String.string_of_list_byte k)) as high.
  { intros x k Hx. rewrite string_of_bytes_cons. cbn [string_count]. by rewrite decide_False by by apply high_byte. }
  induction 1 as [|c l Hc%scalar_spec _ IH]; [done|]. unfold utf8. rewrite utf8_bytes_cons.
  destruct (groups c) as (a & b & d & e & He & Hd & Hb & Hg & H1 & H2 & H3 & H4 & H5 & H6).
  unfold encode_utf8. rewrite H1, H3, H5, H2, H4, H6.
  destruct (N.ltb_spec c 128) as [Hl|Hl].
  - cbn [app]. rewrite string_of_bytes_cons. cbn [string_count]. fold (utf8 l). rewrite IH, ascii_of_byte_via_N, byte_small by lia.
    rewrite filter_cons. destruct (decide (c = ch "/")) as [->|Hn]; [done|].
    rewrite decide_False; [done|]. intros E. apply (f_equal N_of_ascii) in E.
    by rewrite N_ascii_embedding in E by lia.
  - rewrite filter_cons_False by (change (ch "/") with 47%N; lia).
    destruct (N.ltb_spec c 2048); [|destruct (N.ltb_spec c 65536)]; cbn [app]; rewrite !high by lia; exact IH.
Qed.

Lemma utf8_inj l k :
  Forall (λ c, scalar c = true) l → Forall (λ c, scalar c = true) k → utf8 l = utf8 k → l = k.
Proof. intros Hl Hk E. rewrite <-(chars_utf8 l), <-(chars_utf8 k) by done. by rewrite E. Qed.

Lemma starts_with_first l :
  Forall (λ c, scalar c = true) l → starts_with SLASH (utf8 l) = true → first_is (N.eqb (ch "/")) l = true.
Proof.
  intros Hl Hs. rewrite <-(chars_utf8 l Hl). destruct (utf8 l) as [|a rest]; [done|].
  cbn [starts_with] in Hs. by apply bool_decide_eq_true in Hs as <-.
Qed.

Lemma ends_with_app a b : b ≠ "" → ends_with SLASH (a +:+ b) = ends_with SLASH b.
Proof.
  intros Hb. induction a as [|x a IH]; [done|]. change (String x a +:+ b) with (String x (a +:+ b)).
  cbn [ends_with]. rewrite IH. destruct (a +:+ b) eqn:E; [|done]. by destruct a, b.
Qed.

Lemma ends_with_last l :
  Forall (λ c, scalar c = true) l → ends_with SLASH (utf8 l) = true → last_is (N.eqb (ch "/")) l = true.
Proof.
  intros Hl. destruct l as [|c l _] using rev_ind; [done|]. apply Forall_app in Hl as [_ Hc].
  apply Forall_cons in Hc as [Hc%scalar_spec _].
  assert (utf8 [c] ≠ "") as Hn.
  { unfold utf8, utf8_bytes, encode_utf8. cbn [fmap list_fmap concat]. rewrite app_nil_r. repeat case_match; done. }
  rewrite utf8_app, ends_with_app by done. unfold last_is. rewrite last_snoc.
  destruct (groups c) as (a & b & d & e & He & Hd & Hb & Hg & H1 & H2 & H3 & H4 & H5 & H6).
  unfold utf8, utf8_bytes, encode_utf8. cbn [fmap list_fmap concat]. rewrite app_nil_r, H1, H3, H5, H2, H4, H6.
  destruct (N.ltb_spec c 128).
  - rewrite string_of_bytes_cons. cbn [String.string_of_list_byte ends_with]. intros E%bool_decide_eq_true.
    apply (f_equal N_of_ascii) in E. rewrite ascii_of_byte_via_N, N_ascii_embedding, byte_small in E
      by (rewrite ?byte_small; lia). rewrite <-E. done.
  - destruct (N.ltb_spec c 2048); [|destruct (N.ltb_spec c 65536)]; rewrite !string_of_bytes_cons;
      cbn [ends_with String.string_of_list_byte]; intros E%bool_decide_eq_true; exfalso; revert E; apply high_byte; lia.
Qed.

(** What [atom] accepts as a keyword's name is what [Keyword::from] accepts. *)
Lemma keyword_error_validate l :
  Forall (λ c, scalar c = true) l → keyword_error l = None → keyword_validate (utf8 l) = Ok tt.
Proof.
  intros Hl. unfold keyword_error. destruct (nonempty l) eqn:Hn; [|done]. cbn [negb].
  case_decide as H1; [done|]. rewrite <-(string_bytes_count l Hl).
  destruct (Nat.ltb_spec 1 (string_count SLASH (utf8 l))) as [|H2]; [done|].
  destruct (first_is _ l) eqn:H3; [done|]. destruct (last_is _ l) eqn:H4; [done|]. intros _.
  unfold keyword_validate.
  rewrite decide_False, decide_False.
  - rewrite (proj2 (Nat.ltb_ge _ _)) by done.
    destruct (starts_with SLASH (utf8 l)) eqn:E; [by rewrite (starts_with_first l Hl E) in H3|].
    destruct (ends_with SLASH (utf8 l)) eqn:E'; [by rewrite (ends_with_last l Hl E') in H4|done].
  - intros E. apply H1. apply (utf8_inj _ _ Hl); [by repeat constructor|exact E].
  - intros E. assert (l = []) as ->; [|done]. apply (utf8_inj _ _ Hl); [constructor|exact E].
Qed.
