(* ===== verification/ReaderRuns.v ===== *)
(** * Runs of the reader

    Each method of the parser in the calculus of [ReaderFacts]: it ends within
    its fuel, without a panic, and what it returns is typed and located. *)
From Stdlib Require Import Ascii.
From S2P Require Import Prelude Bytes Text Kernel Reader ReaderFacts.
#[local] Open Scope nat_scope.

(** ** Forms built from typed forms *)
Lemma form_nested_ind (P : Form → Prop) :
  (∀ a, P (FRuntimeLiteral a)) → P FNil → (∀ b, P (FBool b)) → (∀ z, P (FNumber z)) → (∀ n, P (FFloat n)) →
  (∀ z, P (FBigInteger z)) → (∀ n, P (FCharacter n)) → (∀ s, P (FRegex s)) → (∀ t v, P v → P (FTagged t v)) →
  (∀ m v, P m → P v → P (FMetadata m v)) → (∀ s, P (FSymbol s)) → (∀ s, P (FKeyword s)) → (∀ s, P (FString s)) →
  (∀ l, Forall (λ e, P e.1 ∧ P e.2) l → P (FMap l)) → (∀ l, Forall P l → P (FSet l)) →
  (∀ l, Forall P l → P (FVector l)) → (∀ l, Forall P l → P (FList l)) → ∀ f, P f.
Proof.
  intros H1 H2 H3 H4 H5 H6 H7 H8 H9 H10 H11 H12 H13 H14 H15 H16 H17. fix IH 1.
  assert (∀ l, Forall P l) as Hl.
  { fix IHl 1. intros [|x l]; [apply Forall_nil_2|apply Forall_cons_2; [apply IH|apply IHl]]. }
  assert (∀ l : list (Form * Form), Forall (λ e, P e.1 ∧ P e.2) l) as He.
  { fix IHl 1. intros [|[k v] l]; [apply Forall_nil_2|apply Forall_cons_2; [exact (conj (IH k) (IH v))|apply IHl]]. }
  intros f. destruct f; [apply H1|apply H2|apply H3|apply H4|apply H5|apply H6|apply H7|apply H8|apply H9, IH
    |apply H10; apply IH|apply H11|apply H12|apply H13|apply H14, He|apply H15, Hl|apply H16, Hl|apply H17, Hl].
Qed.

Lemma entry_position_typed old entry :
  all_entries form_typed old = true → form_typed entry.1 = true → form_typed entry.2 = true →
  all_entries form_typed (assoc_entry old entry) = true.
Proof.
  rewrite !all_entries_Forall. intros Ho Hk Hv. unfold assoc_entry.
  destruct (list_find _ old) as [[i prior]|] eqn:E.
  - apply list_find_Some in E as (Hi & _). apply Forall_insert; [done|]. split; [|done].
    by apply (Forall_lookup_1 _ _ _ _ Ho Hi).
  - apply Forall_app. split; [done|]. by repeat constructor.
Qed.

Lemma rewrite_typed id f :
  form_typed f = true →
  form_typed (rewrite_anonymous_arguments id f) = true ∧
  (is_object_form f = true → is_object_form (rewrite_anonymous_arguments id f) = true) ∧
  (match f with FMap _ => true | _ => false end = true →
   match rewrite_anonymous_arguments id f with FMap _ => true | _ => false end = true).
Proof.
  assert (∀ l, Forall (λ f, form_typed f = true → form_typed (rewrite_anonymous_arguments id f) = true) l →
    all_of form_typed l = true → all_of form_typed (rewrite_anonymous_arguments id <$> l) = true) as Hall.
  { intros l Hl. rewrite !all_of_Forall, Forall_fmap. intros Ht.
    revert Ht. induction Hl as [|x l Hx _ IH]; [constructor|]. inversion 1; subst. constructor; [by apply Hx|by apply IH]. }
  induction f as [| | | | | | | |t v IH|m v IHm IHv|name| | |l IH|l IH|l IH|l IH] using form_nested_ind;
    cbn [form_typed rewrite_anonymous_arguments is_object_form]; intros Ht; try (split_and!; done).
  - apply andb_true_iff in Ht as [-> Hv]. destruct (IH Hv) as [-> _]. split_and!; done.
  - rewrite !andb_true_iff in Ht. destruct Ht as (((Hm & Htm) & Ho) & Htv).
    destruct (IHm Htm) as (-> & _ & H2), (IHv Htv) as (-> & H1 & _). rewrite (H2 Hm), (H1 Ho). done.
  - case_decide; [|case_decide; [|destruct (argument_text name) as [text|] eqn:E]];
      (split; [|done]); cbn [form_typed]; try done; try (apply reader_argument_token; [done|by repeat constructor]).
    destruct (argument_text_spec _ _ E Ht) as [? ?]. by apply reader_argument_token.
  - split; [|done]. rewrite all_entries_Forall in Ht |- *. rewrite Forall_fmap.
    induction IH as [|[k v] l [IHk IHv] _ IH]; [constructor|]. inversion Ht as [|? ? [Hk Hv] Hl]; subst.
    constructor; [split; [by apply IHk|by apply IHv]|by apply IH].
  - split; [|done]. apply Hall; [|done]. eapply Forall_impl; [exact IH|]. cbn beta. intros f Hf Hf'. by apply Hf.
  - split; [|done]. apply Hall; [|done]. eapply Forall_impl; [exact IH|]. cbn beta. intros f Hf Hf'. by apply Hf.
  - split; [|done]. apply Hall; [|done]. eapply Forall_impl; [exact IH|]. cbn beta. intros f Hf Hf'. by apply Hf.
Qed.

Lemma parameters_typed id maximum variadic :
  all_of form_typed (anonymous_parameters id maximum variadic) = true.
Proof.
  apply all_of_Forall. unfold anonymous_parameters. apply Forall_app. split.
  - apply Forall_fmap, Forall_true. intros n. unfold compose. cbn [form_typed].
    destruct (decimal_token (N.of_nat n)) as [H1 H2].
    apply reader_argument_token; [by apply text_ok_utf8|by rewrite chars_utf8].
  - destruct variadic; repeat constructor. apply reader_argument_token; [done|by repeat constructor].
Qed.

Lemma pairs_typed l :
  Forall (λ x, form_typed (form x) = true) l → all_entries form_typed (pairs l) = true.
Proof.
  intros Hl. induction l as [l IH] using (induction_ltof1 _ (@length SpannedForm)). unfold ltof in IH.
  destruct l as [|k [|v l]]; [done..|]. inversion Hl as [|? ? Hk Hl']; subst. inversion Hl' as [|? ? Hv Hl'']; subst.
  cbn [pairs all_entries]. rewrite Hk, Hv. apply IH; [cbn; lia|done].
Qed.

Lemma forms_typed l :
  Forall (λ x, form_typed (form x) = true) l → all_of form_typed (form <$> l) = true.
Proof. intros Hl. by apply all_of_Forall, Forall_fmap. Qed.

(** ** Whitespace and tokens *)
Definition blank (c : char) : bool := is_whitespace c || (c =? ch ",")%N.
Definition skipped (c : char) : bool := blank c || (c =? ch ";")%N.

Section runs.
Context `{TextLaws}.
Variable s : list char.
Hypothesis scalars : Forall (λ c, scalar c = true) s.

Notation hoare := (hoare s).
Notation clean l := (Forall (λ c, scalar c = true) l).

Lemma take_while_stop p i c : s !! (i + length (take_while p (drop i s))) = Some c → p c = false.
Proof.
  intros Hc. pose proof (take_while_rest p (drop i s)) as Hr. rewrite drop_drop in Hr.
  by rewrite (drop_S _ _ _ Hc) in Hr.
Qed.

Lemma take_while_none p i c : s !! i = Some c → p c = false → take_while p (drop i s) = [].
Proof. intros Hc Hp. rewrite (drop_S _ _ _ Hc). cbn. by rewrite Hp. Qed.

Lemma whitespace_loop_hoare fuel i :
  length s - i < fuel →
  hoare i (whitespace_loop fuel)
    (λ _ j, (∀ c, s !! j = Some c → skipped c = false) ∧ (∀ c, s !! i = Some c → skipped c = false → j = i)).
Proof.
  revert i. induction fuel as [|fuel IH]; intros i Hf; [lia|]. cbn [whitespace_loop].
  eapply hoare_bind; [apply hoare_read_while|]. intros l j Hj [-> ->]. clear Hj.
  eapply hoare_bind; [apply hoare_peek|]. intros x j Hj [-> ->].
  case_decide as Hx.
  - eapply hoare_bind; [apply hoare_read_while|]. intros l j Hj' [-> ->].
    assert (length (take_while (λ c, negb (c =? 10)%N) (drop (i + length (take_while blank (drop i s))) s)) ≠ 0) as Hl.
    { unfold blank. rewrite (drop_S _ _ _ Hx). cbn. done. }
    unfold blank in *. apply lookup_lt_Some in Hx as Hlt. eapply hoare_weaken; [apply IH; lia|].
    intros _ j _ [H1 _]. split; [exact H1|]. intros c Hc Hs. exfalso.
    apply orb_false_iff in Hs as [Hb Hs]. pose proof (take_while_none blank i c Hc Hb) as E. unfold blank in E. rewrite E in Hx. cbn in Hx.
    rewrite Nat.add_0_r, Hc in Hx. injection Hx as ->. by rewrite N.eqb_refl in Hs.
  - apply hoare_ret. split.
    + intros c Hc. unfold skipped. rewrite Hc in Hx. apply orb_false_iff. split.
      * exact (take_while_stop _ _ _ Hc).
      * apply N.eqb_neq. intros ->. by apply Hx.
    + intros c Hc [Hb _]%orb_false_iff. pose proof (take_while_none blank i c Hc Hb) as E. unfold blank in E.
      rewrite E. cbn. lia.
Qed.

Lemma whitespace_hoare i :
  hoare i whitespace
    (λ _ j, (∀ c, s !! j = Some c → skipped c = false) ∧ (∀ c, s !! i = Some c → skipped c = false → j = i)).
Proof. intros Hi id. apply whitespace_loop_hoare; cbn; lia. Qed.

Lemma expect_char_hoare i message : hoare i (expect_char message) (λ c j, s !! i = Some c ∧ j = S i ∧ scalar c = true).
Proof.
  eapply hoare_bind; [apply hoare_read|]. intros x j Hj [-> ->]. apply hoare_or_error. intros c Hc. rewrite Hc.
  split_and!; [done..|]. by eapply scalar_at.
Qed.

Lemma take_while_clean i l p : l = take_while p (drop i s) → clean l.
Proof. intros ->. by apply scalars_take_while. Qed.

(** Tokens consist of valid characters that may stand in a symbol. *)
Definition token_ok (l : list char) : Prop := clean l ∧ l ≠ [] ∧ Forall (λ c, symbol_char c = true) l.

Lemma symbol_token_hoare i c :
  scalar c = true → symbol_char c = true → hoare i (symbol_token c) (λ l _, token_ok l).
Proof.
  intros Hc Hs. eapply hoare_bind; [apply hoare_read_while|]. intros l j Hj [Hl ->]. apply hoare_ret.
  split_and!; [constructor; [done|by eapply take_while_clean]|done|].
  rewrite Hl. constructor; [done|apply take_while_Forall].
Qed.

Lemma number_token_hoare i c :
  scalar c = true → symbol_char c = true → hoare i (number_token c) (λ l _, token_ok l).
Proof.
  intros Hc Hs. eapply hoare_bind; [apply hoare_read_while|]. intros l j Hj [Hl ->]. apply hoare_ret.
  split_and!; [constructor; [done|by eapply take_while_clean]|done|].
  rewrite Hl. constructor; [done|]. eapply Forall_impl; [apply take_while_Forall|]. apply number_char_symbol.
Qed.

Lemma alphabetic_symbol c : is_alphabetic c = true → symbol_char c = true.
Proof.
  intros Ha. unfold symbol_char. rewrite (alphabetic_visible c Ha). cbn [negb andb].
  destruct (N.ltb_spec c 128) as [Hc|Hc].
  - rewrite (alphabetic_ascii c Hc) in Ha. unfold is_ascii_letter, between in Ha.
    rewrite orb_true_iff, !andb_true_iff, !N.leb_le in Ha. unfold is_one_of. cbn [existsb symbol_macros].
    by rewrite !(proj2 (N.eqb_neq _ _)) by lia.
  - unfold is_one_of. cbn [existsb symbol_macros]. by rewrite !(proj2 (N.eqb_neq _ _)) by lia.
Qed.

(** ** Strings and regular expressions *)
Lemma times_hoare {A} (P : A → Prop) n i (m : parse A) :
  (∀ j, hoare j m (λ x _, P x)) → hoare i (times n m) (λ l _, Forall P l ∧ length l = n).
Proof.
  intros Hm. revert i. induction n as [|n IH]; intros i; cbn [times]; [by apply hoare_ret|].
  eapply hoare_bind; [apply Hm|]. intros x j _ Hx. eapply hoare_bind; [apply IH|]. intros l k _ [Hl Hn].
  apply hoare_ret. split; [by constructor|cbn; lia].
Qed.

Lemma char_of_scalar n c : char_of n = Some c → scalar c = true.
Proof. unfold char_of. destruct n as [n|]; [|done]. destruct (scalar n) eqn:E; [|done]. by intros [= <-]. Qed.

Lemma octal_digits_hoare n i : hoare i (octal_digits n) (λ _ _, True).
Proof.
  revert i. induction n as [|n IH]; intros i; cbn [octal_digits]; [by apply hoare_ret|].
  eapply hoare_bind; [apply hoare_peek|]. intros x j _ _. destruct x as [c|]; [|by apply hoare_ret].
  destruct (is_octal_digit c); [|by apply hoare_ret].
  eapply hoare_bind; [apply hoare_read|]. intros ? k _ _. eapply hoare_bind; [apply IH|]. intros. by apply hoare_ret.
Qed.

Lemma escape_hoare i : hoare i escape (λ c _, scalar c = true).
Proof.
  unfold escape. eapply hoare_bind; [apply expect_char_hoare|]. intros c j Hj (Hc & -> & Hs).
  repeat (match goal with |- context [if ?b then mret _ else _] => destruct b; [by apply hoare_ret|] end).
  destruct (_ =? _)%N.
  { eapply hoare_bind; [eapply (times_hoare (λ _, True))|].
    - intros k. eapply hoare_bind; [apply expect_char_hoare|]. intros d l _ _.
      destruct (is_ascii_hexdigit d); [by apply hoare_ret|apply hoare_error].
    - intros l k _ _. apply hoare_or_error. intros y. apply char_of_scalar. }
  destruct (is_octal_digit c); [|apply hoare_error].
  eapply hoare_bind; [apply octal_digits_hoare|]. intros l k _ _. apply hoare_or_error. intros y. apply char_of_scalar.
Qed.

Lemma string_loop_hoare fuel i : length s - i < fuel → hoare i (string_loop fuel) (λ l _, clean l).
Proof.
  revert i. induction fuel as [|fuel IH]; intros i Hf; [lia|]. cbn [string_loop].
  eapply hoare_bind; [apply hoare_read|]. intros x j Hj [-> ->]. destruct (s !! i) as [c|] eqn:Hc; [|apply hoare_error].
  apply lookup_lt_Some in Hc as Hlt. destruct (c =? 34)%N; [apply hoare_ret; constructor|].
  eapply (hoare_bind _ _ _ _ (λ c _, scalar c = true)).
  - destruct (c =? 92)%N; [apply escape_hoare|]. apply hoare_ret. by eapply scalar_at.
  - intros d k Hk Hd. eapply hoare_bind; [apply IH; lia|]. intros l m _ Hl. apply hoare_ret. by constructor.
Qed.

Lemma read_string_hoare i : hoare i read_string (λ l _, clean l).
Proof. intros Hi id. apply string_loop_hoare; cbn; lia. Qed.

Lemma regex_loop_hoare fuel i : length s - i < fuel → hoare i (regex_loop fuel) (λ l _, clean l).
Proof.
  revert i. induction fuel as [|fuel IH]; intros i Hf; [lia|]. cbn [regex_loop].
  eapply hoare_bind; [apply hoare_read|]. intros x j Hj [-> ->]. destruct (s !! i) as [c|] eqn:Hc; [|apply hoare_error].
  apply lookup_lt_Some in Hc as Hlt. destruct (c =? 34)%N; [apply hoare_ret; constructor|].
  destruct (c =? 92)%N.
  - eapply hoare_bind; [apply expect_char_hoare|]. intros d k Hk (Hd & -> & Hs).
    eapply hoare_bind; [apply IH; lia|]. intros l m _ Hl. apply hoare_ret. by repeat constructor.
  - eapply hoare_bind; [apply IH; lia|]. intros l m _ Hl. apply hoare_ret. constructor; [by eapply scalar_at|done].
Qed.

Lemma regex_hoare i : hoare i regex (λ l _, clean l).
Proof. intros Hi id. apply regex_loop_hoare; cbn; lia. Qed.

(** ** Metadata and atoms *)
Lemma metadata_hoare i meta value :
  form_typed meta = true → form_typed value = true → hoare i (metadata meta value) (λ f _, form_typed f = true).
Proof.
  intros Hm Hv. unfold metadata.
  eapply (hoare_bind _ _ _ _ (λ f _, ∃ es, f = FMap es ∧ form_typed f = true)).
  { destruct meta; try apply hoare_error; apply hoare_ret; (eexists; split; [done|]); cbn [form_typed all_entries] in *;
      rewrite ?Hm; done. }
  intros f j _ (es & -> & Hf).
  destruct value; try (apply hoare_ret; exact Hv); cbn [is_object_form];
    try apply hoare_error; try (apply hoare_ret; cbn [form_typed is_object_form andb] in *; by rewrite ?Hf, ?Hv).
  cbn [form_typed] in Hv. rewrite !andb_true_iff in Hv. destruct Hv as (((Ho & Ht) & Hb) & Hv).
  destruct value1; try done. apply hoare_ret. cbn [form_typed andb]. rewrite Hb, Hv, !andb_true_r.
  cbn [form_typed] in Ht, Hf. revert Ht. clear Ho. generalize entries.
  induction es as [|[k v] es IH]; intros old Hold; [exact Hold|]. cbn [foldl].
  cbn [all_entries] in Hf. rewrite !andb_true_iff in Hf. destruct Hf as [[Hk Hv'] Hes].
  apply IH; [done|]. by apply entry_position_typed.
Qed.

Lemma integer_form_typed z : form_typed (integer_form z) = true.
Proof.
  unfold integer_form. case_decide as Hz; cbn [form_typed]; unfold i64_range; [by apply bool_decide_true|].
  by rewrite bool_decide_false.
Qed.

Lemma parse_integer_typed digits radix negative f :
  parse_integer_digits digits radix negative = Some f → form_typed f = true.
Proof. unfold parse_integer_digits. intros (v & _ & [= <-])%bind_Some. apply integer_form_typed. Qed.

Lemma number_hoare i token body : hoare i (number token body) (λ f _, form_typed f = true).
Proof.
  unfold number. destruct (last_is _ token); [apply hoare_error|].
  destruct (existsb _ body).
  { eapply hoare_bind; [by apply (hoare_or_error _ _ _ _ (λ _ _, True))|]. intros x j _ _.
    destruct (is_finite x) eqn:E; [by apply hoare_ret|apply hoare_error]. }
  eapply (hoare_bind _ _ _ _ (λ o _, ∀ f, o = Some f → form_typed f = true)).
  2: { intros x j _ Hx. apply hoare_or_error. exact Hx. }
  destruct (match strip_prefix [ch "0"; ch "x"] body with Some hex => Some hex | None => _ end) as [hex|].
  { apply hoare_ret. intros f. apply parse_integer_typed. }
  destruct (split_once _ body) as [[radix_text digits]|].
  - eapply hoare_bind; [by apply (hoare_or_error _ _ _ _ (λ _ _, True))|]. intros radix j _ _.
    destruct (negb (between 2 36 radix)); [apply hoare_error|]. destruct (negb (nonempty digits)); [apply hoare_error|].
    destruct (List.find _ digits); [apply hoare_error|]. apply hoare_ret. intros f. apply parse_integer_typed.
  - repeat case_match; apply hoare_ret; try done; intros f; apply parse_integer_typed.
Qed.

Lemma strip_prefix_clean p l k : strip_prefix p l = Some k → clean l → clean k.
Proof. intros ->%strip_prefix_some Hl. by apply Forall_app in Hl as []. Qed.

Lemma atom_hoare i token : token_ok token → hoare i (atom token) (λ f _, form_typed f = true).
Proof.
  intros (Hc & Hn & Hs). unfold atom. do 3 (case_decide; [by apply hoare_ret|]).
  destruct (strip_prefix [ch ":"] token) as [keyword|] eqn:E.
  - destruct (keyword_error keyword) eqn:Hk; [apply hoare_error|]. apply hoare_ret. cbn [form_typed]. unfold keyword_text.
    assert (clean keyword) as Hck by by eapply strip_prefix_clean.
    rewrite token_text_utf8, keyword_error_validate; try done.
    + intros ->. by unfold keyword_error in Hk.
    + apply strip_prefix_some in E as ->. by apply Forall_app in Hs as [].
  - destruct (is_ratio _); [apply hoare_error|]. destruct (first_is _ _); [apply number_hoare|].
    apply hoare_ret. by apply token_text_utf8.
Qed.

(** ** Forms *)
Lemma laid_weaken i i' j j' l : i' ≤ i → j ≤ j' → laid s i j l → laid s i' j' l.
Proof.
  intros Hi Hj Hl. revert i' Hi. induction l as [|x l IH] in i, Hl |- *; intros i' Hi; inversion Hl; subst.
  - constructor. lia.
  - econstructor; [|done|by apply IH with l0]. lia.
Qed.

Lemma laid_le i j l : laid s i j l → i ≤ j.
Proof.
  induction l as [|x l IH] in i |- *; inversion 1 as [|? k m ? ? ? Hk Hx Hl]; subst; [done|].
  apply IH in Hl. inversion Hx; subst. lia.
Qed.

(** A form that starts at or after [i] and ends at [j]. *)
Definition found (i : nat) (x : SpannedForm) (j : nat) : Prop :=
  ∃ k, i ≤ k ∧ located s k j x ∧ form_typed (form x) = true.
Definition read_ok (i : nat) (o : option SpannedForm) (j : nat) : Prop :=
  match o with Some x => found i x j | None => True end ∧
  (∀ c, s !! i = Some c → skipped c = false → i < j).
Definition item_ok (i : nat) (x : Form * list SpannedForm) (j : nat) : Prop :=
  form_typed x.1 = true ∧ laid s i j x.2.
Definition forms_ok (i : nat) (l : list SpannedForm) (j : nat) : Prop :=
  laid s i j l ∧ Forall (λ x, form_typed (form x) = true) l.

Lemma found_laid i j x : found i x j → laid s i j [x].
Proof. intros (k & Hk & Hx & _). econstructor; [done|done|by constructor]. Qed.

Lemma leaf_ok i j f : i ≤ j → form_typed f = true → item_ok i (f, []) j.
Proof. intros Hij Hf. split; [exact Hf|]. by apply laid_nil. Qed.

Section nested.
Variable read : parse (option SpannedForm).
Variable n : nat.
Hypothesis reads : ∀ i, length s - i < n → hoare i read (read_ok i).

Lemma delimited_hoare close kind fuel i :
  length s - i < fuel → length s - i < n → hoare i (delimited_loop read fuel close kind) (forms_ok i).
Proof.
  revert i. induction fuel as [|fuel IH]; intros i Hf Hn; [lia|]. cbn [delimited_loop].
  eapply hoare_bind; [apply whitespace_hoare|]. intros _ j Hj [Hskip _].
  eapply hoare_bind; [apply hoare_peek|]. intros x k Hk [-> ->]. destruct (s !! j) as [c|] eqn:Hc; [|apply hoare_error].
  destruct (c =? close)%N.
  - eapply hoare_bind; [apply hoare_read|]. intros _ k Hk' _. apply hoare_ret. split; [constructor; lia|constructor].
  - eapply hoare_bind; [apply reads; lia|]. intros o k Hk' [Ho Hprogress].
    assert (j < k) as Hlt by eauto. eapply hoare_bind; [apply IH; lia|]. intros l m Hm [Hl Ht]. apply hoare_ret.
    destruct o as [x|]; cbn.
    + destruct Ho as (b & Hb & Hx & Hxt). split; [|by constructor].
      econstructor; [|exact Hx|exact Hl]. lia.
    + split; [|done]. eapply laid_weaken; [| |exact Hl]; lia.
Qed.

Lemma required_hoare context i : length s - i < n → hoare i (read_required read context) (found i).
Proof.
  intros Hn. eapply hoare_bind; [apply whitespace_hoare|]. intros _ j Hj _.
  eapply hoare_bind; [apply reads; lia|]. intros o k Hk [Ho _]. apply hoare_or_error. intros x ->.
  destruct Ho as (b & Hb & Hx). exists b. split; [lia|done].
Qed.

Lemma prefixed_hoare name i :
  token_text name = true → length s - i < n → hoare i (prefixed read name) (item_ok i).
Proof.
  intros Hname Hn. eapply hoare_bind; [by apply required_hoare|]. intros x j Hj Hx. apply hoare_ret.
  split; [|by apply found_laid]. destruct Hx as (k & _ & _ & Ht). cbn [fst form_typed all_of]. by rewrite Hname, Ht.
Qed.

Lemma read_metadata_hoare i : length s - i < n → hoare i (read_metadata read) (item_ok i).
Proof.
  intros Hn. eapply hoare_bind; [by apply required_hoare|]. intros m j Hj (k & Hk & Hm & Htm).
  eapply hoare_bind; [apply required_hoare; lia|]. intros v l Hl Hv. pose proof Hv as (b & Hb & _ & Htv).
  eapply hoare_bind; [by apply metadata_hoare|]. intros f o Ho Hf. apply hoare_ret. split; [done|].
  econstructor; [exact Hk|exact Hm|]. eapply laid_weaken; [| |by apply found_laid]; lia.
Qed.

Lemma anonymous_function_hoare i fuel :
  length s - i < fuel → length s - i < n → hoare i (anonymous_function read fuel) (item_ok i).
Proof.
  intros Hf Hn. eapply hoare_bind; [by apply delimited_hoare|]. intros l j Hj [_ Hl].
  cbv zeta. destruct (anonymous_arguments (FList (form <$> l)) (0%N, false)) as [[[]|message] [maximum variadic]];
    [|apply hoare_error].
  eapply (hoare_bind _ _ _ _ (λ _ _, True)); [by apply hoare_gets|]. intros id k Hk _.
  eapply (hoare_bind _ _ _ _ (λ _ _, True)).
  { intros Hk' id'. cbn. eexists k, _. done. }
  intros _ m Hm _. apply hoare_ret. apply leaf_ok; [lia|]. cbn [form_typed all_of].
  rewrite parameters_typed. destruct (rewrite_typed id (FList (form <$> l)) (forms_typed _ Hl)) as [-> _]. done.
Qed.

Lemma symbolic_value_hoare {A} i (Q : A → nat → Prop) :
  length s - i < n → hoare i (symbolic_value read) Q.
Proof.
  intros Hn. eapply hoare_bind; [by apply required_hoare|]. intros x j _ _.
  destruct (form x); try apply hoare_error. case_decide; apply hoare_error.
Qed.

Definition dispatched (i : nat) (o : option (Form * list SpannedForm)) (j : nat) : Prop :=
  match o with Some x => item_ok i x j | None => True end.

Lemma some_hoare i (m : parse (Form * list SpannedForm)) :
  hoare i m (item_ok i) → hoare i (x ← m; mret (Some x)) (dispatched i).
Proof. intros Hm. eapply hoare_bind; [exact Hm|]. intros x j _ Hx. by apply hoare_ret. Qed.

Lemma dispatched_weaken i j k o : i ≤ j → dispatched j o k → dispatched i o k.
Proof.
  intros Hi. destruct o as [x|]; [|done]. intros [H1 H2]. split; [done|]. eapply laid_weaken; [| |exact H2]; lia.
Qed.

Lemma dispatch_hoare i fuel :
  length s - i < fuel → length s - i < n → hoare i (dispatch read fuel) (dispatched i).
Proof.
  intros Hf Hn. unfold dispatch. eapply hoare_bind; [apply hoare_read|]. intros x j Hj [-> ->].
  destruct (s !! i) as [c|] eqn:Hc; [|apply hoare_error].
  assert (length s - S i < n ∧ length s - S i < fuel) as [Hn' Hf'] by lia.
  eapply hoare_weaken; [|intros o k _; apply (dispatched_weaken i (S i)); lia].
  destruct (c =? ch "(")%N; [by apply some_hoare, anonymous_function_hoare|].
  destruct (is_one_of (chars ":=?|") c); [apply hoare_error|].
  destruct (c =? ch "{")%N.
  { eapply hoare_bind; [by apply delimited_hoare|]. intros l k Hk [Hl Ht].
    destruct (has_duplicate _ _); [apply hoare_error|]. apply hoare_ret. split; [|done]. by apply forms_typed. }
  destruct (c =? ch "_")%N.
  { eapply hoare_bind; [by apply required_hoare|]. intros. by apply hoare_ret. }
  destruct (c =? 39)%N.
  { eapply hoare_bind; [by apply required_hoare|]. intros x k Hk Hx. destruct (form x) eqn:E; try apply hoare_error.
    apply hoare_ret. split; [|by apply found_laid]. destruct Hx as (? & _ & _ & Ht). rewrite E in Ht.
    cbn [fst form_typed all_of] in *. by rewrite Ht. }
  destruct (c =? 34)%N.
  { eapply hoare_bind; [apply regex_hoare|]. intros l k Hk Hl. apply hoare_ret.
    apply leaf_ok; [lia|by apply text_ok_utf8]. }
  destruct (c =? ch "<")%N; [apply hoare_error|].
  destruct (c =? ch "^")%N; [by apply some_hoare, read_metadata_hoare|].
  destruct (c =? ch "#")%N; [by apply symbolic_value_hoare|].
  destruct (is_alphabetic c) eqn:Halpha; [|apply hoare_error]. cbn [negb].
  eapply hoare_bind; [apply symbol_token_hoare; [by eapply scalar_at|]|].
  { apply alphabetic_symbol. exact Halpha. }
  intros tag k Hk (Hct & Hnt & Hst). destruct (negb (nonempty tag)); [apply hoare_error|].
  eapply hoare_bind; [apply required_hoare; lia|]. intros x l Hl Hx. apply hoare_ret. split.
  - destruct Hx as (? & _ & _ & Ht). cbn [fst form_typed]. by rewrite token_text_utf8, Ht.
  - eapply laid_weaken; [| |by apply found_laid]; lia.
Qed.

(** The first character of a form, after whitespace. *)
Definition starts (c : char) : Prop := scalar c = true ∧ skipped c = false.

Lemma starts_symbol c :
  starts c → is_one_of (chars "([{)]}@`~^") c = false → c ≠ 34%N → c ≠ 92%N → symbol_char c = true.
Proof.
  intros [_ [[Hw Hcomma]%orb_false_iff Hsemi]%orb_false_iff]. unfold symbol_char. rewrite Hw.
  apply N.eqb_neq in Hcomma. change (ch ",") with 44%N in Hcomma. rewrite (proj2 (N.eqb_neq c 44)) by done.
  unfold is_one_of, symbol_macros. apply N.eqb_neq in Hsemi. change (ch ";") with 59%N in Hsemi.
  change (chars "([{)]}@`~^") with [40;91;123;41;93;125;64;96;126;94]%N. cbn [existsb negb andb].
  rewrite !orb_false_iff, !N.eqb_neq. intros (?&?&?&?&?&?&?&?&?&?&_) ? ?.
  by rewrite !(proj2 (N.eqb_neq _ _)) by done.
Qed.

Lemma character_token_hoare i : hoare i character_token (λ l _, clean l).
Proof.
  eapply hoare_bind; [apply hoare_peek|]. intros x j Hj [-> ->].
  destruct (match s !! i with Some c => is_bracket c | None => false end).
  - eapply hoare_bind; [apply hoare_read|]. intros x j Hj' [-> _]. apply hoare_ret.
    destruct (s !! i) as [c|] eqn:Hc; repeat constructor. by eapply scalar_at.
  - eapply hoare_weaken; [apply hoare_read_while|]. intros l j Hj' [Hl _]. by eapply take_while_clean.
Qed.

Lemma character_hoare i : hoare i character (λ f _, form_typed f = true).
Proof.
  unfold character. eapply hoare_bind; [apply character_token_hoare|].
  intros token j _ Hl. destruct (invalid_digit _ _ _ token); [apply hoare_error|].
  destruct (invalid_digit _ _ _ token); [apply hoare_error|].
  eapply hoare_bind; [apply (hoare_or_error _ _ _ _ (λ c _, scalar c = true))|].
  - intros c. unfold character_value. do 6 (case_decide; [by intros [= <-]|]).
    destruct (_ && _); [apply char_of_scalar|]. destruct (_ && _ && _); [apply char_of_scalar|].
    destruct token as [|d [|]]; try done. intros [= <-]. by inversion Hl.
  - intros c k _ Hs. by apply hoare_ret.
Qed.

Lemma read_form_hoare i fuel c :
  starts c → length s - i < fuel → length s - i < n → hoare i (read_form read fuel c) (dispatched i).
Proof.
  intros Hc Hf Hn. unfold read_form.
  destruct (c =? ch "(")%N eqn:E1.
  { eapply hoare_bind; [by apply delimited_hoare|]. intros l j Hj [Hl Ht]. apply hoare_ret.
    split; [by apply forms_typed|done]. }
  destruct (c =? ch "[")%N eqn:E2.
  { eapply hoare_bind; [by apply delimited_hoare|]. intros l j Hj [Hl Ht]. apply hoare_ret.
    split; [by apply forms_typed|done]. }
  destruct (c =? ch "{")%N eqn:E3.
  { eapply hoare_bind; [by apply delimited_hoare|]. intros l j Hj [Hl Ht].
    destruct (negb _); [apply hoare_error|]. cbv zeta. destruct (has_duplicate _ _); [apply hoare_error|].
    apply hoare_ret. split; [by apply pairs_typed|done]. }
  destruct (is_one_of (chars ")]}") c) eqn:E4; [apply hoare_error|].
  destruct (c =? 34)%N eqn:E5.
  { eapply hoare_bind; [apply read_string_hoare|]. intros l j Hj Hl. apply hoare_ret.
    apply leaf_ok; [lia|by apply text_ok_utf8]. }
  destruct (c =? 39)%N eqn:E6; [by apply some_hoare, prefixed_hoare|].
  destruct (c =? ch "@")%N eqn:E7; [by apply some_hoare, prefixed_hoare|].
  destruct (c =? ch "`")%N eqn:E8; [by apply some_hoare, prefixed_hoare|].
  destruct (c =? ch "~")%N eqn:E9.
  { eapply hoare_bind; [apply hoare_peek|]. intros x j Hj [-> ->]. case_decide.
    - eapply hoare_bind; [apply hoare_read|]. intros x j Hj' _.
      eapply hoare_weaken; [apply some_hoare, prefixed_hoare; [done|lia]|].
      intros o k _. apply (dispatched_weaken i j). lia.
    - by apply some_hoare, prefixed_hoare. }
  destruct (c =? ch "^")%N eqn:E10; [by apply some_hoare, read_metadata_hoare|].
  destruct (c =? 92)%N eqn:E11.
  { eapply hoare_bind; [apply character_hoare|]. intros f j Hj Hx. apply hoare_ret. by apply leaf_ok; [lia|]. }
  destruct (c =? ch "#")%N eqn:E12; [by apply dispatch_hoare|].
  assert (symbol_char c = true) as Hs.
  { apply (starts_symbol _ Hc).
    - change (chars ")]}") with [41;93;125]%N in E4. change (chars "([{)]}@`~^") with [40;91;123;41;93;125;64;96;126;94]%N.
      unfold is_one_of in *. cbn [existsb] in *. rewrite !orb_false_iff in *.
      change (ch "(") with 40%N in *. change (ch "[") with 91%N in *. change (ch "{") with 123%N in *.
      change (ch "@") with 64%N in *. change (ch "`") with 96%N in *. change (ch "~") with 126%N in *.
      change (ch "^") with 94%N in *. tauto.
    - by apply N.eqb_neq.
    - by apply N.eqb_neq. }
  eapply hoare_bind; [apply hoare_peek|]. intros x j Hj [-> ->]. cbv zeta.
  eapply (hoare_bind _ _ _ _ (λ l _, token_ok l)).
  { destruct Hc as [Hc _]. destruct (_ || _); [by apply number_token_hoare|by apply symbol_token_hoare]. }
  intros token j Hj' Ht. eapply hoare_bind; [by apply atom_hoare|]. intros f k Hk Hx. apply hoare_ret.
  apply leaf_ok; [lia|done].
Qed.
End nested.

Lemma read_one_hoare fuel i : length s - i < fuel → hoare i (read_one fuel) (read_ok i).
Proof.
  revert i. induction fuel as [|fuel IH]; intros i Hf; [lia|]. cbn [read_one].
  eapply hoare_bind; [apply whitespace_hoare|]. intros _ j Hj [Hskip Hstay].
  eapply (hoare_bind _ _ _ _ (λ eof k, eof = (length s <=? k) ∧ k = j)).
  { apply hoare_gets. intros id. split; [apply is_eof_at|done]. }
  intros eof k Hk [-> ->]. destruct (Nat.leb_spec (length s) j) as [Hend|Hlt].
  { apply hoare_ret. split; [done|]. intros c Hc Hs. rewrite (Hstay c Hc Hs) in Hend.
    apply lookup_lt_Some in Hc. lia. }
  eapply (hoare_bind _ _ _ _ (λ p k, p = position_at s j ∧ k = j)); [by apply hoare_gets|].
  intros start k Hk' [-> ->]. destruct (lookup_lt_is_Some_2 _ _ Hlt) as [c Hc].
  eapply hoare_bind; [apply hoare_read|]. intros x k Hk'' [-> ->]. rewrite Hc in *.
  eapply hoare_bind.
  { apply (read_form_hoare (read_one fuel) fuel); [|split; [by eapply scalar_at|by apply Hskip]|lia|lia].
    intros m Hm. by apply IH. }
  intros o k Hk3 Ho. eapply (hoare_bind _ _ _ _ (λ p m, p = position_at s k ∧ m = k)); [by apply hoare_gets|].
  intros end_ m Hm [-> ->]. apply hoare_ret. split; [|intros; lia]. destruct o as [[f cs]|]; [|done]. cbn.
  destruct Ho as [Ht Hl]. exists j. split_and!; [lia| |done]. constructor; [lia|done].
Qed.

Lemma read_all_hoare fuel i : length s - i < fuel → hoare i (read_all_loop fuel) (forms_ok i).
Proof.
  revert i. induction fuel as [|fuel IH]; intros i Hf; [lia|]. cbn [read_all_loop].
  eapply hoare_bind; [apply whitespace_hoare|]. intros _ j Hj [Hskip _].
  eapply (hoare_bind _ _ _ _ (λ eof k, eof = (length s <=? k) ∧ k = j)).
  { apply hoare_gets. intros id. split; [apply is_eof_at|done]. }
  intros eof k Hk [-> ->]. destruct (Nat.leb_spec (length s) j) as [Hend|Hlt].
  { apply hoare_ret. split; [constructor; lia|constructor]. }
  destruct (lookup_lt_is_Some_2 _ _ Hlt) as [c Hc].
  eapply hoare_bind; [apply read_one_hoare; lia|]. intros o k Hk' [Ho Hprogress].
  assert (j < k) as Hjk by eauto. eapply hoare_bind; [apply IH; lia|]. intros l m Hm [Hl Ht]. apply hoare_ret.
  destruct o as [x|]; cbn.
  - destruct Ho as (b & Hb & Hx & Hxt). split; [|by constructor]. econstructor; [|exact Hx|exact Hl]. lia.
  - split; [|done]. eapply laid_weaken; [| |exact Hl]; lia.
Qed.
End runs.

(** ** Symbols of a form *)
Fixpoint symbols (f : Form) : list string :=
  match f with
  | FSymbol name => [name]
  | FTagged _ v => symbols v
  | FMetadata m v => symbols m ++ symbols v
  | FMap entries => concat ((λ '(k, v), symbols k ++ symbols v) <$> entries)
  | FSet l | FVector l | FList l => concat (symbols <$> l)
  | _ => []
  end.

(** The name an argument is rewritten to. *)
Definition argument_name (id : N) (name : string) : string :=
  if decide (name = "%" ∨ name = "%1") then reader_argument id "1"
  else if decide (name = "%&") then reader_argument id "rest"
  else match argument_text name with Some text => reader_argument id text | None => name end.

Lemma symbols_rewrite id f : symbols (rewrite_anonymous_arguments id f) = argument_name id <$> symbols f.
Proof.
  assert (∀ l, Forall (λ f, symbols (rewrite_anonymous_arguments id f) = argument_name id <$> symbols f) l →
    concat (symbols <$> (rewrite_anonymous_arguments id <$> l)) = argument_name id <$> concat (symbols <$> l)) as Hall.
  { induction 1 as [|x l Hx _ IH]; [done|]. cbn. by rewrite fmap_app, Hx, <-IH. }
  induction f using form_nested_ind; cbn [symbols rewrite_anonymous_arguments]; rewrite ?fmap_app; try done; try congruence.
  - cbn [fmap list_fmap]. unfold argument_name. case_decide; [done|]. case_decide; [done|].
    by destruct (argument_text s).
  - induction H as [|[k v] l [Hk Hv] _ IH]; [done|]. cbn in *. by rewrite !fmap_app, Hk, Hv, IH.
  - by apply Hall.
  - by apply Hall.
  - by apply Hall.
Qed.

(** What [anonymous_arguments] collects bounds the arguments of the form. *)
Definition counted (st : N * bool) (name : string) : Prop :=
  if decide (name = "%") then (1 ≤ st.1)%N
  else if decide (name = "%&") then st.2 = true
  else match argument_text name with
  | Some text => ∃ index, parse_unsigned U64_MAX 10 (chars text) = Some index ∧ (1 ≤ index ≤ st.1)%N
  | None => True
  end.

Definition more (a b : N * bool) : Prop := (a.1 ≤ b.1)%N ∧ (a.2 = true → b.2 = true).

Lemma counted_more a b name : more a b → counted a name → counted b name.
Proof.
  intros [Hm Hv]. unfold counted. case_decide; [lia|]. case_decide; [auto|]. destruct (argument_text name); [|done].
  intros (i & Hi & Hb). exists i. split; [done|lia].
Qed.

Definition counts (f : Form) : Prop := ∀ a b,
  anonymous_arguments f a = (Ok tt, b) → more a b ∧ Forall (counted b) (symbols f).

Lemma more_refl a : more a a.
Proof. split; [lia|done]. Qed.

Lemma counts_each l a b :
  Forall counts l → each anonymous_arguments l a = (Ok tt, b) →
  more a b ∧ Forall (counted b) (concat (symbols <$> l)).
Proof.
  intros Hl. revert a. induction Hl as [|f l Hf _ IH]; intros a; cbn [each].
  - intros [= <-]. split; [apply more_refl|constructor].
  - intros ([] & m & H1 & H2)%prog_bind_ok. destruct (Hf _ _ H1) as [[M1 M2] S1], (IH _ H2) as [[M3 M4] S2].
    split; [split; [lia|auto]|]. cbn. apply Forall_app. split; [|done].
    eapply Forall_impl; [exact S1|]. intros x. by apply counted_more.
Qed.

Lemma counts_then (m1 m2 : prog (N * bool) string ()) l1 l2 a b :
  (∀ a b, m1 a = (Ok tt, b) → more a b ∧ Forall (counted b) l1) →
  (∀ a b, m2 a = (Ok tt, b) → more a b ∧ Forall (counted b) l2) →
  (m1;; m2) a = (Ok tt, b) → more a b ∧ Forall (counted b) (l1 ++ l2).
Proof.
  intros H1 H2 ([] & m & E1 & E2)%prog_bind_ok. destruct (H1 _ _ E1) as [[M1 M2] S1], (H2 _ _ E2) as [[M3 M4] S2].
  split; [split; [lia|auto]|]. apply Forall_app. split; [|done].
  eapply Forall_impl; [exact S1|]. intros x. by apply counted_more.
Qed.

Lemma counts_all f : counts f.
Proof.
  induction f as [| | | | | | | |t v IH|m v IHm IHv|name| | |l IH|l IH|l IH|l IH] using form_nested_ind;
    intros st st'; cbn [anonymous_arguments symbols];
    try (intros [= <-]; split; [apply more_refl|constructor]; fail); try (by apply counts_each).
  - apply IH.
  - by apply counts_then.
  - unfold counted. case_decide as H1.
    { intros [= <-]. split; [split; cbn; [lia|done]|]. repeat constructor. rewrite decide_True by done. cbn. lia. }
    case_decide as H2.
    { intros [= <-]. split; [split; cbn; [lia|done]|]. repeat constructor. by rewrite decide_False, decide_True by done. }
    destruct (argument_text name) as [text|] eqn:E.
    + destruct (parse_unsigned _ _ _) as [index|] eqn:Ei; [|done]. destruct (N.eqb_spec index 0) as [|Hn]; [done|].
      intros [= <-]. split; [split; cbn; [lia|done]|]. repeat constructor.
      rewrite decide_False, decide_False, E by done. exists index. split; [done|]. cbn. lia.
    + intros [= <-]. split; [apply more_refl|]. repeat constructor. by rewrite decide_False, decide_False, E by done.
  - induction IH as [|[k v] l [Hk Hv] _ IH] in st, st' |- *; cbn [each].
    + intros [= <-]. split; [apply more_refl|constructor].
    + cbn [fmap list_fmap concat]. apply counts_then; [|done]. intros a b. by apply counts_then.
Qed.

(** ** A concrete environment *)
Module Demo.
#[export] Instance env : TextEnv := {|
  is_alphabetic := is_ascii_letter;
  parse_bytes l radix := match l with [] => None | _ => Z.of_N <$> digits_value radix l end;
  bigint_display := decimal_Z;
  float_display _ := [];
|}.

#[export] Instance laws : TextLaws.
Proof.
  split; cbn.
  - done.
  - intros c. unfold is_ascii_letter, between. rewrite orb_true_iff, !andb_true_iff, !N.leb_le. intros Hc.
    unfold is_whitespace, between. rewrite !orb_false_iff, !andb_false_iff, !N.eqb_neq, !N.leb_gt. lia.
  - intros radix l n Hl E. destruct l; [done|]. by rewrite E.
  - done.
Qed.
End Demo.

Section claims.
Context `{TextLaws}.

Lemma read_forms_ok s :
  Forall (λ c, scalar c = true) s →
  match read_forms s with
  | Ok forms => forms ≠ [] ∧ forms_ok s 0 forms (length s)
  | Err (ParseFailed e) => ∃ k, k ≤ length s ∧ error_position e = position_at s k
  | Err _ => False
  end.
Proof.
  intros Hs. unfold read_forms, read_all, parser_new. rewrite reader_new_at. fold (parser_at s 0 0).
  pose proof (read_all_hoare s Hs (S (length s)) 0 ltac:(lia) ltac:(lia) 0%N) as Hr. unfold mbind, prog_bind.
  destruct (read_all_loop (S (length s)) (parser_at s 0 0)) as [[forms|[e| |]] p]; [|done..].
  destruct Hr as (j & id & -> & Hj & Hl & Ht). destruct forms as [|x forms].
  { exists j. split; [lia|done]. }
  split; [done|]. split; [|done]. eapply laid_weaken; [| |exact Hl]; lia.
Qed.



(** C21. Every form the reader returns is typed: its texts are UTF-8, small
    integers fit 64 bits and big ones do not, floats are finite, symbols and
    tags are tokens, keywords are names that [Keyword::from] accepts without a
    panic, and metadata is a map on an object form. *)
Theorem reader_typed s forms :
  Forall (λ c, scalar c = true) s → read_forms s = Ok forms →
  Forall (λ x, form_typed (form x) = true) forms.
Proof. intros Hs E. pose proof (read_forms_ok s Hs) as Hr. rewrite E in Hr. apply Hr. Qed.

Lemma parameter_index id maximum variadic n :
  (1 ≤ n ≤ maximum)%N → FSymbol (reader_argument id (utf8 (decimal n))) ∈ anonymous_parameters id maximum variadic.
Proof.
  intros Hn. apply elem_of_app. left. apply list_elem_of_fmap. exists (N.to_nat n). rewrite N2Nat.id.
  split; [done|]. apply elem_of_seq. lia.
Qed.

(** The arguments of an anonymous function are bound: rewriting replaces
    each symbol of the body by [argument_name], which leaves other symbols
    alone and takes [%], [%&] and each [%n] written in decimal to one of the
    parameters. *)
Theorem anonymous_arguments_bound id body maximum variadic :
  anonymous_arguments body (0%N, false) = (Ok tt, (maximum, variadic)) →
  symbols (rewrite_anonymous_arguments id body) = argument_name id <$> symbols body ∧
  (∀ name, name ∈ symbols body →
    (argument_text name = None → argument_name id name = name) ∧
    (name = "%" ∨ name = "%&" ∨ (∃ n, argument_text name = Some (utf8 (decimal n))) →
     FSymbol (argument_name id name) ∈ anonymous_parameters id maximum variadic)).
Proof.
  intros E. destruct (counts_all body _ _ E) as [_ Hc]. split; [apply symbols_rewrite|].
  intros name Hname. rewrite Forall_forall in Hc. specialize (Hc name Hname). unfold counted in Hc. cbn [fst snd] in Hc.
  unfold argument_name. split.
  { intros En. rewrite decide_False by (intros [-> | ->]; done). rewrite decide_False by (by intros ->). by rewrite En. }
  intros [-> | [-> | [n En]]].
  - rewrite decide_True in Hc by done. rewrite decide_True by auto. change "1" with (utf8 (decimal 1)).
    apply parameter_index. lia.
  - rewrite decide_False, decide_True in Hc by done. cbn in Hc. rewrite Hc. rewrite decide_False by (intros [|]; done). rewrite decide_True by done.
    apply elem_of_app. right. right. left.
  - destruct (decimal_spec n) as (Hd & Hv & c & rest & Ec & _).
    assert (∀ k, argument_text name = Some k → chars k = decimal n) as Hk.
    { intros k Ek. rewrite En in Ek. injection Ek as <-. apply chars_utf8, decimal_token. }
    rewrite decide_False in Hc by (intros ->; specialize (Hk "" eq_refl); by rewrite Ec in Hk).
    assert (name ≠ "%&") as Hamp.
    { intros ->. specialize (Hk "&" eq_refl). rewrite <-Hk in Hd. by inversion Hd. }
    rewrite decide_False in Hc by done. rewrite En in Hc. destruct Hc as (i & Hi & Hb).
    rewrite chars_utf8 in Hi by apply decimal_token.
    assert (i = n) as ->.
    { unfold parse_unsigned in Hi. rewrite Ec in Hd, Hv, Hi. inversion Hd as [|? ? Hc0%is_ascii_digit_spec _]; subst.
      rewrite (proj2 (N.eqb_neq _ _)) in Hi by (change (ch "+") with 43%N; lia). rewrite Hv in Hi. cbn in Hi.
      case_match; [|done]. by injection Hi. }
    destruct (decide (name = "%" ∨ name = "%1")) as [H1|H1].
    + change "1" with (utf8 (decimal 1)). apply parameter_index. lia.
    + rewrite decide_False by done. rewrite En. by apply parameter_index.
Qed.

Lemma existsb_split p l : existsb p l = true → ∃ a b, split_once p l = Some (a, b) ∧ Forall (λ c, c ∈ l) a.
Proof.
  induction l as [|c l IH]; [done|]. cbn [existsb split_once]. destruct (p c) eqn:E.
  - intros _. exists [], l. split; [done|constructor].
  - intros (a & b & -> & Ha)%IH. exists (c :: a), b. split; [done|]. constructor; [left|].
    eapply Forall_impl; [exact Ha|]. intros x Hx. by right.
Qed.

Lemma split_once_none p l : Forall (λ c, p c = false) l → split_once p l = None.
Proof. induction 1 as [|c l Hc _ IH]; [done|]. cbn. by rewrite Hc, IH. Qed.

Lemma hex_digit_spec c :
  is_ascii_hexdigit c = true ↔ (48 <= c <= 57 ∨ 65 <= c <= 70 ∨ 97 <= c <= 102)%N.
Proof. unfold is_ascii_hexdigit, between. rewrite !orb_true_iff, !andb_true_iff, !N.leb_le. tauto. Qed.

(** A hexadecimal literal with the digit [e] is rejected: the float syntax
    is tried first, so [0xFE] is not the number 254. *)
Theorem hex_with_e_rejected h p :
  Forall (λ c, is_ascii_hexdigit c = true) h → existsb (λ c, (c =? ch "e") || (c =? ch "E"))%N h = true →
  atom (ch "0" :: ch "x" :: h) p =
    (Err (ParseFailed (mkParseError ("Invalid number: 0x" +:+ utf8 h) (reader_position (reader p)))), p).
Proof.
  intros Hh He. set (token := ch "0" :: ch "x" :: h).
  assert (∀ q, (∀ c, is_ascii_hexdigit c = true → q c = false) → q 48%N = false → q 120%N = false →
    Forall (λ c, q c = false) token) as Hnot.
  { intros q Hq Hq0 Hqx. repeat constructor; [done..|]. eapply Forall_impl; [exact Hh|]. exact Hq. }
  assert (is_ratio (strip_any_sign token) = false) as Hratio.
  { unfold is_ratio. cbn [strip_any_sign token]. rewrite split_once_none; [done|]. apply Hnot; [|done..].
    intros c Hc%hex_digit_spec. apply N.eqb_neq. change (ch "/") with 47%N. lia. }
  assert (parse_f64 token = None) as Hf.
  { unfold parse_f64. change (strip_sign token) with (false, token). cbn [fst].
    destruct (existsb_split (λ c, (c =? ch "e") || (c =? ch "E"))%N h He) as (a & b & Es & Ha).
    assert (split_once (λ c, (c =? ch "e") || (c =? ch "E"))%N token = Some (ch "0" :: ch "x" :: a, b)) as ->.
    { unfold token. cbn [split_once]. by rewrite Es. }
    assert (split_once (λ c, c =? ch ".")%N (ch "0" :: ch "x" :: a) = None) as ->.
    { apply split_once_none. repeat constructor. eapply Forall_impl; [exact Ha|]. cbn beta. intros c Hc.
      rewrite Forall_forall in Hh. apply Hh, hex_digit_spec in Hc. apply N.eqb_neq. change (ch ".") with 46%N. lia. }
    destruct (strip_sign b) as [sgn digits]. cbn. destruct (nonempty digits && all_digits digits); [|done]. cbn.
    by destruct (digits_value 10 digits). }
  assert (last_is (λ c, (c =? ch "N") || (c =? ch "M"))%N token = false) as Hlast.
  { unfold last_is. destruct (last token) as [c|] eqn:El; [|done].
    apply last_Some_elem_of in El. assert (Forall (λ c, ((c =? ch "N") || (c =? ch "M"))%N = false) token) as Hall.
    { apply Hnot; [|done..]. intros d Hd%hex_digit_spec. apply orb_false_iff. rewrite !N.eqb_neq.
      change (ch "N") with 78%N. change (ch "M") with 77%N. lia. }
    rewrite Forall_forall in Hall. by apply Hall. }
  unfold atom. do 3 rewrite decide_False by done. change (strip_prefix [ch ":"] token) with (@None (list char)).
  cbn beta iota zeta. rewrite Hratio. change (first_is is_ascii_digit (strip_any_sign token)) with true. cbn iota.
  unfold number. rewrite Hlast. change (strip_any_sign token) with token.
  assert (existsb (λ c, (c =? ch ".") || (c =? ch "e") || (c =? ch "E"))%N token = true) as ->.
  { unfold token. cbn [existsb]. apply existsb_exists in He as (c & Hc & Ec). apply orb_true_iff. right.
    apply orb_true_iff. right. apply existsb_exists. exists c. split; [done|].
    apply orb_true_iff in Ec as [-> | ->]; by rewrite ?orb_true_r. }
  rewrite Hf. cbn [or_error]. unfold token. change (ch "0" :: ch "x" :: h) with ([ch "0"; ch "x"] ++ h). by rewrite utf8_app.
Qed.
End claims.

(** ** Concrete sources *)
Import Demo.

Definition sample_source : list char := chars "; sample
(def x [1, 0xFF 'a]) ^:m {:k #(f %1 %&)}".

Lemma sample_scalars : Forall (λ c, scalar c = true) sample_source.
Proof. by apply forallb_Forall. Qed.


Definition sample_read : list SpannedForm :=
  match read_forms sample_source with Ok forms => forms | Err _ => [] end.

Lemma sample_reads : read_forms sample_source = Ok sample_read ∧ length sample_read = 2.
Proof. split; by vm_compute. Qed.


Lemma reader_typed_witness :
  read_forms sample_source = Ok sample_read ∧ Forall (λ x, form_typed (form x) = true) sample_read.
Proof. split; [apply sample_reads|exact (reader_typed sample_source sample_read sample_scalars (proj1 sample_reads))]. Defined.

Definition sample_body : Form := FList [FSymbol "f"; FSymbol "%2"; FVector [FSymbol "%"; FSymbol "%&"]].

Lemma anonymous_arguments_bound_witness :
  anonymous_arguments sample_body (0%N, false) = (Ok tt, (2%N, true)) ∧
  symbols (rewrite_anonymous_arguments 0 sample_body) = argument_name 0 <$> symbols sample_body.
Proof.
  split; [done|]. exact (proj1 (anonymous_arguments_bound 0 sample_body 2 true eq_refl)).
Defined.

Lemma hex_with_e_rejected_witness :
  Forall (λ c, is_ascii_hexdigit c = true) (chars "FE") ∧
  atom (ch "0" :: ch "x" :: chars "FE") (parser_new []) =
    (Err (ParseFailed (mkParseError ("Invalid number: 0x" +:+ utf8 (chars "FE")) (mkPosition 0 1 1))), parser_new []).
Proof.
  assert (Forall (λ c, is_ascii_hexdigit c = true) (chars "FE")) as Hh by by apply forallb_Forall.
  split; [exact Hh|]. exact (hex_with_e_rejected (chars "FE") (parser_new []) Hh eq_refl).
Defined.
