(* ===== verification/ReaderNodes.v ===== *)
(** * The nodes of read forms

    The parser keeps a node for each element of a list or vector it reads; the
    forms it makes itself ([quote] and the like) have fewer. *)
From S2P Require Import Prelude Bytes Text Kernel Reader.
#[local] Open Scope nat_scope.

(** Nodes, when there is one for each element, are those of the elements. *)
Definition elements_agree (f : Form) (nodes : list SpannedForm) : Prop :=
  match f with
  | FList elements | FVector elements => length nodes = length elements → form <$> nodes = elements
  | _ => True
  end.
Inductive agreeing : SpannedForm → Prop :=
| agreeing_node f s nodes :
    elements_agree f nodes → (∀ n, n ∈ nodes → agreeing n) → agreeing (mkSpanned f s nodes).

(** What a parser returns, when it does. *)
Definition returns {A} (m : parse A) (Q : A → Prop) : Prop := ∀ s x s', m s = (Ok x, s') → Q x.

Lemma returns_ret {A} (x : A) (Q : A → Prop) : Q x → returns (mret x) Q.
Proof. by intros HQ s y s' [= <- _]. Qed.
Lemma returns_fail {A} e (Q : A → Prop) : returns (fail e) Q.
Proof. by intros s y s' [=]. Qed.
Lemma returns_bind {A B} (m : parse A) (k : A → parse B) P Q :
  returns m P → (∀ x, P x → returns (k x) Q) → returns (m ≫= k) Q.
Proof. intros Hm Hk s y s' (x & s1 & E1 & E2)%prog_bind_ok. by eapply Hk; [eapply Hm|]. Qed.
Lemma returns_any {A} (m : parse A) : returns m (λ _, True).
Proof. done. Qed.
Lemma returns_after {A B} (m : parse A) (k : A → parse B) Q : (∀ x, returns (k x) Q) → returns (m ≫= k) Q.
Proof. intros Hk. eapply returns_bind; [apply returns_any|done]. Qed.
Lemma returns_error {A} message (Q : A → Prop) : returns (error message) Q.
Proof. by intros s y s' [=]. Qed.

(** A form with its nodes, as they will be a node. *)
Definition item_agrees (item : Form * list SpannedForm) : Prop :=
  elements_agree item.1 item.2 ∧ Forall agreeing item.2.
Definition optional {A} (P : A → Prop) (o : option A) : Prop := match o with Some x => P x | None => True end.

Lemma leaf_agrees f : item_agrees (f, []).
Proof. split; [|done]. destruct f; try done; by destruct values. Qed.

Section reading.
Context `{TextEnv}.
Variable read : parse (option SpannedForm).
Hypothesis read_agrees : returns read (optional agreeing).

Lemma delimited_agrees fuel close kind : returns (delimited_loop read fuel close kind) (Forall agreeing).
Proof.
  induction fuel as [|fuel IH]; [apply returns_fail|]. cbn [delimited_loop].
  apply returns_after. intros _. apply returns_after. intros [c|]; [|apply returns_error].
  destruct (_ =? _)%N; [apply returns_after; intros _; by apply returns_ret|].
  eapply returns_bind; [exact read_agrees|]. intros item Hitem. eapply returns_bind; [exact IH|].
  intros l Hl. apply returns_ret. destruct item; [by constructor|done].
Qed.
Lemma required_agrees context : returns (read_required read context) agreeing.
Proof.
  apply returns_after. intros _. eapply returns_bind; [exact read_agrees|].
  intros [x|] Hx; [by apply returns_ret|apply returns_error].
Qed.
Lemma prefixed_agrees name : returns (prefixed read name) item_agrees.
Proof.
  eapply returns_bind; [apply required_agrees|]. intros x Hx. apply returns_ret. by repeat constructor.
Qed.
Lemma metadata_agrees : returns (read_metadata read) item_agrees.
Proof.
  eapply returns_bind; [apply required_agrees|]. intros meta Hmeta.
  eapply returns_bind; [apply required_agrees|]. intros value Hvalue.
  eapply returns_bind with (P := λ f, ∀ l, elements_agree f l).
  - unfold metadata. apply returns_after. intros normalized.
    assert (∀ f, returns (if is_object_form f then mret (FMetadata normalized f)
      else error "Metadata can only be applied to object forms") (λ f, ∀ l, elements_agree f l)) as Hf.
    { intros f. destruct (is_object_form f); [by apply returns_ret|apply returns_error]. }
    destruct (form value) as [| | | | | | | | |existing inner| | | | | | |] eqn:E; try apply Hf; [|by apply returns_ret].
    destruct existing; try apply returns_fail. destruct normalized; try apply returns_fail. by apply returns_ret.
  - intros f Hf. apply returns_ret. split; [apply Hf|by repeat constructor].
Qed.
Lemma anonymous_agrees fuel : returns (anonymous_function read fuel) item_agrees.
Proof.
  apply returns_after. intros items. cbn zeta. destruct (anonymous_arguments (FList (form <$> items)) (0%N, false)) as [[[]|] [maximum variadic]]; [|apply returns_error].
  apply returns_after. intros id. apply returns_after. intros _. apply returns_ret, leaf_agrees.
Qed.

Lemma some_agrees (m : parse (Form * list SpannedForm)) :
  returns m item_agrees → returns (x ← m; mret (Some x)) (optional item_agrees).
Proof. intros Hm. eapply returns_bind; [exact Hm|]. intros x Hx. by apply returns_ret. Qed.
Lemma leaf_returns {A} (m : parse A) (f : A → Form) :
  returns (x ← m; mret (Some (f x, []))) (optional item_agrees).
Proof. apply returns_after. intros x. apply returns_ret, leaf_agrees. Qed.

Lemma dispatch_agrees fuel : returns (dispatch read fuel) (optional item_agrees).
Proof.
  unfold dispatch. apply returns_after. intros [c|]; [|apply returns_error].
  destruct (_ =? _)%N; [apply some_agrees, anonymous_agrees|].
  destruct (is_one_of _ c); [apply returns_error|].
  destruct (_ =? _)%N.
  { eapply returns_bind; [apply delimited_agrees|]. intros l Hl. destruct (has_duplicate _ _); [apply returns_error|].
    by apply returns_ret. }
  destruct (_ =? _)%N; [apply returns_after; intros; by apply returns_ret|].
  destruct (_ =? _)%N.
  { eapply returns_bind; [apply required_agrees|]. intros x Hx. destruct (form x); try apply returns_error.
    apply returns_ret. by repeat constructor. }
  destruct (_ =? _)%N; [apply leaf_returns|].
  destruct (_ =? _)%N; [apply returns_error|].
  destruct (_ =? _)%N; [apply some_agrees, metadata_agrees|].
  destruct (_ =? _)%N.
  { apply returns_after. intros x. destruct (form x); try apply returns_error. case_decide; apply returns_error. }
  destruct (negb _); [apply returns_error|]. apply returns_after. intros tag.
  destruct (negb _); [apply returns_error|]. eapply returns_bind; [apply required_agrees|].
  intros x Hx. apply returns_ret. by repeat constructor.
Qed.

Lemma read_form_agrees fuel c : returns (read_form read fuel c) (optional item_agrees).
Proof.
  unfold read_form.
  destruct (_ =? _)%N.
  { eapply returns_bind; [apply delimited_agrees|]. intros l Hl. by apply returns_ret. }
  destruct (_ =? _)%N.
  { eapply returns_bind; [apply delimited_agrees|]. intros l Hl. by apply returns_ret. }
  destruct (_ =? _)%N.
  { eapply returns_bind; [apply delimited_agrees|]. intros l Hl. destruct (negb _); [apply returns_error|].
    cbn zeta. destruct (has_duplicate _ _); [apply returns_error|]. by apply returns_ret. }
  destruct (is_one_of _ c); [apply returns_error|].
  destruct (_ =? _)%N; [apply leaf_returns|].
  repeat (destruct (_ =? _)%N; [apply some_agrees, prefixed_agrees|]).
  destruct (_ =? _)%N.
  { apply returns_after. intros next. case_decide; [apply returns_after; intros _|]; apply some_agrees, prefixed_agrees. }
  destruct (_ =? _)%N; [apply some_agrees, metadata_agrees|].
  destruct (_ =? _)%N; [apply leaf_returns|].
  destruct (_ =? _)%N; [apply dispatch_agrees|].
  apply returns_after. intros next. cbn zeta. apply returns_after. intros token. apply leaf_returns.
Qed.
End reading.

Section forms.
Context `{TextEnv}.
Lemma read_one_agrees fuel : returns (read_one fuel) (optional agreeing).
Proof.
  induction fuel as [|fuel IH]; [apply returns_fail|]. cbn [read_one].
  apply returns_after. intros _. apply returns_after. intros [|]; [by apply returns_ret|].
  apply returns_after. intros start. apply returns_after. intros [c|]; [|apply returns_fail].
  eapply returns_bind; [by apply read_form_agrees|]. intros [[f nodes]|] Hx.
  - apply returns_after. intros end_. apply returns_ret. destruct Hx as [He Hn]. constructor; [done|].
    by apply Forall_forall.
  - apply returns_after. intros end_. by apply returns_ret.
Qed.

Lemma read_all_agrees fuel : returns (read_all_loop fuel) (Forall agreeing).
Proof.
  induction fuel as [|fuel IH]; [apply returns_fail|]. cbn [read_all_loop].
  apply returns_after. intros _. apply returns_after. intros [|]; [by apply returns_ret|].
  eapply returns_bind; [apply read_one_agrees|]. intros x Hx. eapply returns_bind; [exact IH|].
  intros l Hl. apply returns_ret. destruct x; [by constructor|done].
Qed.

(** The nodes of what was read are those of the forms. *)
Lemma read_forms_agree source forms : read_forms source = Ok forms → Forall agreeing forms.
Proof.
  assert (returns (read_all (S (length source))) (Forall agreeing)) as Hr.
  { eapply returns_bind; [apply read_all_agrees|]. intros [|x l] Hl; [apply returns_error|by apply returns_ret]. }
  unfold read_forms. destruct (read_all _ _) as [r p] eqn:E. cbn. intros ->. by eapply Hr.
Qed.
End forms.
