(* ===== verification/PrinterFacts.v ===== *)
(** * Reading what is printed

    The reader inverts the printer on readable forms. [runs s i m x j] is an
    exact run of a parser from character [i] to character [j]; every part of a
    form's text is read by such a run. *)
From Stdlib Require Import Ascii.
From S2P Require Import Prelude Bytes Text Kernel Reader ReaderFacts ReaderRuns Printer.
#[local] Open Scope nat_scope.

(** ** Readable forms *)
Definition symbol_readable (l : list char) : bool :=
  forallb symbol_char l && nonempty l && negb (first_is (is_one_of [35; 39; 58]%N) l)
  && negb (first_is is_ascii_digit (strip_any_sign l))
  && bool_decide (l ≠ chars "nil") && bool_decide (l ≠ chars "true") && bool_decide (l ≠ chars "false").
Definition keyword_readable (l : list char) : bool :=
  forallb symbol_char l && negb (is_some (keyword_error l)).

(** The text of a regular expression, whose quotes are escaped and whose last
    backslash escapes something. *)
Fixpoint regex_readable (l : list char) : bool :=
  match l with
  | [] => true
  | c :: l =>
      if (c =? 92)%N then match l with _ :: l => regex_readable l | [] => false end
      else negb (c =? 34)%N && regex_readable l
  end.
Definition character_readable (c : char) : bool :=
  negb (is_whitespace c) || (c =? 32)%N || is_control c.

(** The forms whose text ends a tag. *)
Definition self_delimiting (f : Form) : bool :=
  match f with FString _ | FCharacter _ | FList _ | FVector _ | FMap _ => true | _ => false end.

Section readable.
Context `{TextEnv}.
Definition tag_readable (l : list char) : bool := first_is is_alphabetic l && forallb symbol_char l.

Fixpoint readable (f : Form) : bool :=
  match f with
  | FNil | FBool _ => true
  | FNumber z => i64_range z
  | FBigInteger z => negb (i64_range z)
  | FCharacter c => scalar c && character_readable c
  | FRegex s => text_ok s && regex_readable (chars s)
  | FString s => text_ok s
  | FSymbol s => text_ok s && symbol_readable (chars s)
  | FKeyword s => text_ok s && keyword_readable (chars s)
  | FTagged tag v => text_ok tag && tag_readable (chars tag) && self_delimiting v && readable v
  | FList l | FVector l => all_of readable l
  | FSet l => all_of readable l && negb (has_duplicate [] l)
  | FMap l => all_entries readable l && negb (has_duplicate [] l.*1)
  | FMetadata _ _ | FFloat _ | FRuntimeLiteral _ => false
  end.
End readable.

(** ** Small numbers in hexadecimal *)
Lemma below_forall (p : N → bool) n c :
  forallb (λ k, p (N.of_nat k)) (seq 0 n) = true → (c < N.of_nat n)%N → p c = true.
Proof.
  rewrite forallb_forall. intros Hp Hc. rewrite <-(N2Nat.id c). apply Hp, in_seq. lia.
Qed.

Lemma hex4_small c :
  (c < 160)%N → digits_value 16 (hex4 c) = Some c ∧ Forall (λ d, is_ascii_hexdigit d = true) (hex4 c).
Proof.
  intros Hc. rewrite <-forallb_Forall.
  pose proof (below_forall (λ c, bool_decide (digits_value 16 (hex4 c) = Some c) && forallb is_ascii_hexdigit (hex4 c))
    160 c ltac:(by vm_compute) ltac:(lia)) as E. cbn beta in E.
  apply andb_true_iff in E as [E1 E2]. by apply bool_decide_eq_true in E1.
Qed.

(** ** Exact runs *)
Definition closing (c : char) : bool := is_whitespace c || is_one_of (chars ")]}") c.
Definition closed (post : list char) : Prop := post = [] ∨ first_is closing post = true.

Section runs.
Context `{TextLaws}.
Variable s : list char.

Definition runs {A} (i : nat) (m : parse A) (x : A) (j : nat) : Prop :=
  ∀ id, m (parser_at s i id) = (Ok x, parser_at s j id).

Lemma runs_ret {A} i (x : A) : runs i (mret x) x i.
Proof. done. Qed.

Lemma runs_bind {A B} i j k (m : parse A) (f : A → parse B) x y :
  runs i m x j → runs j (f x) y k → runs i (m ≫= f) y k.
Proof. intros Hm Hf id. unfold mbind, prog_bind. by rewrite Hm. Qed.

Lemma runs_to {A} i j k (m : parse A) x : runs i m x j → j = k → runs i m x k.
Proof. by intros ? <-. Qed.

Lemma drop_lookup i c l : drop i s = c :: l → s !! i = Some c.
Proof. intros E. rewrite <-(head_drop s i), E. done. Qed.

Lemma drop_next i c l : drop i s = c :: l → drop (S i) s = l.
Proof. intros E. by rewrite <-Nat.add_1_r, <-drop_drop, E. Qed.

Lemma drop_after i l k : drop i s = l ++ k → drop (i + length l) s = k.
Proof. intros E. by rewrite <-drop_drop, E, drop_app_length. Qed.

Lemma runs_read i c l : drop i s = c :: l → runs i (reading read_char) (Some c) (S i).
Proof. intros E id. rewrite reading_at, read_char_at. by rewrite (drop_lookup _ _ _ E). Qed.

Lemma runs_peek i : runs i (reading peek_char) (head (drop i s)) i.
Proof. intros id. by rewrite reading_at, peek_char_at, head_drop. Qed.

Lemma runs_read_while i p l k :
  drop i s = l ++ k → Forall (λ c, p c = true) l → first_is p k = false →
  runs i (reading (read_while p)) l (i + length l).
Proof. intros E Hl Hk id. rewrite reading_at, read_while_at, E, take_while_app; done. Qed.

Lemma runs_expect i c l message : drop i s = c :: l → runs i (expect_char message) c (S i).
Proof. intros E. eapply runs_bind; [by eapply runs_read|]. apply runs_ret. Qed.

(** Whitespace stays at a character it does not skip, and crosses one space. *)
Definition begins (l : list char) : Prop := ∃ c t, l = c :: t ∧ skipped c = false.

Lemma begins_blank c : skipped c = false → blank c = false ∧ c ≠ ch ";".
Proof. unfold skipped. by rewrite orb_false_iff, N.eqb_neq. Qed.

Lemma runs_whitespace_none i : begins (drop i s) → runs i whitespace tt i.
Proof.
  intros (c & t & E & [Hb Hs]%begins_blank) id. unfold whitespace. cbn [reader parser_at reader_at source whitespace_loop].
  fold (reader_at s i) (parser_at s i id). unfold mbind at 1, prog_bind at 1.
  rewrite (runs_read_while i _ [] (drop i s)); [|done|done|by rewrite E].
  cbn [length]. rewrite Nat.add_0_r. unfold mbind, prog_bind. rewrite runs_peek, E. cbn [head].
  by rewrite decide_False by (intros [= Ec]; by apply Hs).
Qed.

Lemma runs_whitespace_space i l : drop i s = 32%N :: l → begins l → runs i whitespace tt (S i).
Proof.
  intros E (c & t & -> & [Hb Hs]%begins_blank) id. unfold whitespace. cbn [reader parser_at reader_at source whitespace_loop].
  fold (reader_at s i) (parser_at s i id). unfold mbind at 1, prog_bind at 1.
  rewrite (runs_read_while i _ [32%N] (c :: t)); [|done|by repeat constructor|done].
  cbn [length]. rewrite Nat.add_1_r. unfold mbind, prog_bind. rewrite runs_peek, (drop_next _ _ _ E). cbn [head].
  by rewrite decide_False by (intros [= Ec]; by apply Hs).
Qed.

Lemma is_eof_false i c l : drop i s = c :: l → is_eof (reader_at s i) = false.
Proof. intros E. rewrite is_eof_at. apply Nat.leb_gt. by eapply lookup_lt_Some, drop_lookup. Qed.

(** ** Closed ends *)
Lemma closed_not (p : char → bool) post :
  closed post → (∀ c, closing c = true → p c = false) → first_is p post = false.
Proof. intros [-> | Hc] Hp; [done|]. destruct post as [|c post]; [done|]. by apply Hp. Qed.

Lemma closing_cases c :
  closing c = true → is_whitespace c = true ∨ c = 41%N ∨ c = 93%N ∨ c = 125%N.
Proof.
  unfold closing, is_one_of. change (chars ")]}") with [41;93;125]%N. cbn [existsb].
  rewrite !orb_true_iff, !N.eqb_eq. naive_solver.
Qed.

Lemma closing_symbol c : closing c = true → symbol_char c = false.
Proof. intros [Hw | [-> | [-> | ->]]]%closing_cases; [|done..]. unfold symbol_char. by rewrite Hw. Qed.

Lemma closing_number c : closing c = true → number_char c = false.
Proof. intros [Hw | [-> | [-> | ->]]]%closing_cases; [|done..]. unfold number_char. by rewrite Hw. Qed.

(** ** Symbol tokens *)
Lemma runs_symbol_token i c l post :
  drop i s = l ++ post → Forall (λ c, symbol_char c = true) l → first_is symbol_char post = false →
  runs i (symbol_token c) (c :: l) (i + length l).
Proof. intros E Hl Hp. eapply runs_bind; [by eapply runs_read_while|]. apply runs_ret. Qed.

Lemma runs_number_token i c l post :
  drop i s = l ++ post → Forall (λ c, number_char c = true) l → closed post →
  runs i (number_token c) (c :: l) (i + length l).
Proof.
  intros E Hl Hp. eapply runs_bind; [eapply runs_read_while; [exact E|exact Hl|]|apply runs_ret].
  apply closed_not; [done|]. apply closing_number.
Qed.

(** ** [read_one] on a first character *)
Lemma runs_gets {A} i (f : Parser → A) x : (∀ id, f (parser_at s i id) = x) → runs i (gets f) x i.
Proof. intros E id. unfold gets. by rewrite E. Qed.

Lemma runs_read_one i j c rest fuel f cs :
  drop i s = c :: rest → skipped c = false →
  runs (S i) (read_form (read_one fuel) fuel c) (Some (f, cs)) j →
  runs i (read_one (S fuel)) (Some (mkSpanned f (mkSpan (position_at s i) (position_at s j)) cs)) j.
Proof.
  intros E Hc Hf. cbn [read_one]. eapply runs_bind.
  { apply runs_whitespace_none. exists c, rest. done. }
  eapply runs_bind. { apply (runs_gets _ _ false). intros id. by eapply is_eof_false. }
  cbn iota. eapply runs_bind. { by apply (runs_gets _ _ (position_at s i)). }
  eapply runs_bind. { by eapply runs_read. }
  cbn beta iota. eapply runs_bind. { exact Hf. }
  eapply runs_bind. { by apply (runs_gets _ _ (position_at s j)). }
  cbn. apply runs_ret.
Qed.

(** ** Strings *)
Lemma runs_hex_digit i d l : drop i s = d :: l → is_ascii_hexdigit d = true → runs i hex_escape_digit d (S i).
Proof. intros E Hd. eapply runs_bind; [by eapply runs_expect|]. rewrite Hd. apply runs_ret. Qed.

Lemma runs_times {A} n i m (l : list A) :
  length l = n → (∀ k x, l !! k = Some x → runs (i + k) m x (i + S k)) → runs i (times n m) l (i + n).
Proof.
  revert i l. induction n as [|n IH]; intros i l Hl Hr; cbn [times].
  - destruct l; [|done]. rewrite Nat.add_0_r. apply runs_ret.
  - destruct l as [|x l]; [done|]. injection Hl as Hl. eapply runs_bind.
    { pose proof (Hr 0 x eq_refl) as H1. rewrite Nat.add_0_r in H1. exact H1. }
    eapply runs_bind; [apply (IH (i + 1) l Hl)|eapply runs_to; [apply runs_ret|lia]].
    intros k y Hk. specialize (Hr (S k) y Hk). by rewrite <-!Nat.add_assoc.
Qed.

Lemma runs_unicode_escape i c post :
  drop i s = ch "u" :: hex4 c ++ post → (c < 160)%N → runs i escape c (i + 5).
Proof.
  intros E Hc. destruct (hex4_small c Hc) as [Hv Hd]. unfold escape. eapply runs_bind; [by eapply runs_expect|].
  change (ch "u" =? ch "n")%N with false. cbn -[Nat.add runs times mbind digits_value hex4].
  eapply runs_bind.
  - apply (runs_times 4 (S i) hex_escape_digit (hex4 c)); [done|]. intros k d Hk.
    rewrite Nat.add_succ_r. apply drop_next in E. eapply runs_hex_digit.
    + rewrite <-drop_drop, E. eapply drop_S. rewrite lookup_app_l by (by eapply lookup_lt_Some). exact Hk.
    + by apply (Forall_lookup_1 _ _ _ _ Hd Hk).
  - rewrite Hv. unfold char_of. rewrite (proj2 (scalar_spec c)) by lia. cbn [or_error].
    replace (i + 5) with (S i + 4) by lia. apply runs_ret.
Qed.

Lemma runs_simple_escape i x c post :
  drop i s = x :: post →
  (x, c) ∈ [(ch "n", 10); (ch "r", 13); (ch "t", 9); (ch "b", 8); (ch "f", 12); (92, 92); (34, 34)]%N →
  runs i escape c (S i).
Proof.
  intros E Hx. unfold escape. eapply runs_bind; [by eapply runs_expect|].
  rewrite !elem_of_cons, elem_of_nil in Hx. destruct_or! Hx; try done; injection Hx as -> ->; apply runs_ret.
Qed.

Lemma runs_string_step i c post fuel l j :
  drop i s = display_string_char c ++ post →
  runs (i + length (display_string_char c)) (string_loop fuel) l j →
  runs i (string_loop (S fuel)) (c :: l) j.
Proof.
  assert (∀ t k, drop i s = 92%N :: t ++ post → k = i + S (length t) →
    (∀ i, drop i s = t ++ post → runs i escape c (i + length t)) → runs k (string_loop fuel) l j →
    runs i (string_loop (S fuel)) (c :: l) j) as escaped.
  { intros t k E -> He Hl. cbn [string_loop]. eapply runs_bind; [by eapply runs_read|].
    change (92 =? 34)%N with false. change (92 =? 92)%N with true. cbn iota.
    eapply runs_bind; [apply He; by eapply drop_next|].
    rewrite Nat.add_succ_r in Hl. eapply runs_bind; [exact Hl|]. apply runs_ret. }
  assert (∀ x, (x, c) ∈ [(ch "n", 10); (ch "r", 13); (ch "t", 9); (ch "b", 8); (ch "f", 12); (92, 92); (34, 34)]%N →
    drop i s = [92%N; x] ++ post → runs (i + 2) (string_loop fuel) l j → runs i (string_loop (S fuel)) (c :: l) j)
    as simple.
  { intros x Hx E Hl. apply (escaped [x] (i + 2)); [exact E|done| |exact Hl].
    intros k Ek. cbn [length]. rewrite Nat.add_1_r. by eapply runs_simple_escape. }
  unfold display_string_char.
  destruct (N.eqb_spec c 10) as [->|]; [intros E; apply (simple (ch "n")); [by vm_compute; left|exact E]|].
  destruct (N.eqb_spec c 13) as [->|]; [apply (simple (ch "r")); set_solver|].
  destruct (N.eqb_spec c 9) as [->|]; [apply (simple (ch "t")); set_solver|].
  destruct (N.eqb_spec c 8) as [->|]; [apply (simple (ch "b")); set_solver|].
  destruct (N.eqb_spec c 12) as [->|]; [apply (simple (ch "f")); set_solver|].
  destruct (N.eqb_spec c 92) as [->|H92]; [apply (simple 92%N); set_solver|].
  destruct (N.eqb_spec c 34) as [->|H34]; [apply (simple 34%N); set_solver|].
  destruct (is_control c) eqn:Hc.
  - intros E Hl. apply (escaped (ch "u" :: hex4 c) (i + 6)); [exact E|done| |exact Hl].
    intros k Ek. apply (runs_unicode_escape _ _ post); [exact Ek|].
    unfold is_control, between in Hc. rewrite orb_true_iff, andb_true_iff, N.ltb_lt, !N.leb_le in Hc. lia.
  - intros E Hl. cbn [string_loop]. eapply runs_bind; [by eapply runs_read|].
    cbv beta iota. rewrite (proj2 (N.eqb_neq c 34)), (proj2 (N.eqb_neq c 92)) by done.
    eapply runs_bind; [apply runs_ret|]. cbn [length] in Hl. rewrite Nat.add_1_r in Hl.
    eapply runs_bind; [exact Hl|]. apply runs_ret.
Qed.

Lemma runs_string_loop l i post fuel :
  drop i s = concat (display_string_char <$> l) ++ 34%N :: post → length l < fuel →
  runs i (string_loop fuel) l (i + length (concat (display_string_char <$> l)) + 1).
Proof.
  revert i fuel. induction l as [|c l IH]; intros i [|fuel] E Hf; try (cbn in Hf; lia); cbn [fmap list_fmap concat] in *.
  - cbn [string_loop]. eapply runs_bind; [by eapply runs_read|]. cbn. rewrite Nat.add_0_r, Nat.add_1_r. apply runs_ret.
  - rewrite <-app_assoc in E. eapply runs_string_step; [exact E|].
    rewrite length_app, Nat.add_assoc. apply IH; [by apply drop_after in E|cbn in Hf; lia].
Qed.

Lemma runs_read_string l i post :
  drop i s = concat (display_string_char <$> l) ++ 34%N :: post →
  runs i read_string l (i + length (concat (display_string_char <$> l)) + 1).
Proof.
  intros E id. unfold read_string. apply (runs_string_loop l i post); [done|].
  cbn [reader parser_at reader_at source]. apply (f_equal length) in E. rewrite length_drop, length_app in E.
  assert (length l ≤ length (concat (display_string_char <$> l))).
  { clear E. induction l as [|c l IH]; [done|]. rewrite fmap_cons. cbn [concat]. rewrite length_app.
    assert (0 < length (display_string_char c)) by (unfold display_string_char; repeat case_match; cbn; lia).
    cbn [length]. lia. }
  cbn [length] in E. lia.
Qed.

(** ** Regular expressions *)
Lemma runs_regex_loop l i post fuel :
  regex_readable l = true → drop i s = l ++ 34%N :: post → length l < fuel →
  runs i (regex_loop fuel) l (i + length l + 1).
Proof.
  revert i fuel. induction l as [l IH] using (induction_ltof1 _ (@length char)). unfold ltof in IH.
  intros i [|fuel] Hl E Hf; [lia|]. cbn [regex_loop]. destruct l as [|c l].
  { eapply runs_bind; [by eapply runs_read|]. cbn. rewrite Nat.add_0_r, Nat.add_1_r. apply runs_ret. }
  cbn [regex_readable] in Hl. eapply runs_bind; [by eapply runs_read|].
  destruct (N.eqb_spec c 92) as [->|Hc].
  - destruct l as [|d l]; [done|]. change (92 =? 34)%N with false. cbn iota. apply drop_next in E.
    eapply runs_bind; [by eapply runs_expect|]. eapply runs_bind.
    { apply (IH l); [cbn; lia|done|by apply drop_next in E|cbn in Hf; lia]. }
    eapply runs_to; [apply runs_ret|cbn; lia].
  - apply andb_true_iff in Hl as [H34 Hl]. apply negb_true_iff in H34. rewrite H34.
    rewrite (proj2 (N.eqb_neq c 92)) by done. eapply runs_bind.
    { apply (IH l); [cbn; lia|done|by apply drop_next in E|cbn in Hf; lia]. }
    eapply runs_to; [apply runs_ret|cbn; lia].
Qed.

Lemma runs_regex l i post :
  regex_readable l = true → drop i s = l ++ 34%N :: post → runs i regex l (i + length l + 1).
Proof.
  intros Hl E id. unfold regex. apply (runs_regex_loop l i post); [done..|].
  cbn [reader parser_at reader_at source]. apply (f_equal length) in E. rewrite length_drop, length_app in E.
  cbn [length] in E. lia.
Qed.
End runs.

(** The printer adds no backslash to a readable text. *)
Lemma display_regex_readable l backslashes :
  regex_readable l = true → (backslashes mod 2 = 0)%N → display_regex_chars backslashes l = l.
Proof.
  revert backslashes. induction l as [l IH] using (induction_ltof1 _ (@length char)). unfold ltof in IH.
  intros backslashes Hl Hb. destruct l as [|c l]; [done|]. cbn [regex_readable display_regex_chars] in *.
  destruct (N.eqb_spec c 92) as [->|Hc].
  - destruct l as [|d l]; [done|]. change (92 =? 34)%N with false. cbn [andb app display_regex_chars].
    assert ((backslashes + 1) mod 2 = 1)%N as H1 by (rewrite <-N.Div0.add_mod_idemp_l, Hb; done).
    rewrite H1, andb_false_r. cbn [app]. do 2 f_equal. apply IH; [cbn; lia|done|].
    destruct (d =? 92)%N; [|done]. rewrite <-N.add_assoc, <-N.Div0.add_mod_idemp_l, Hb. done.
  - apply andb_true_iff in Hl as [H34 Hl]. apply negb_true_iff in H34. rewrite H34. cbn [andb app]. f_equal.
    apply IH; [cbn; lia|done|done].
Qed.

(** ** Atoms *)
Section atoms.
Context `{TextLaws}.

(** Wherever the text [t] stands, closed, it is read as [f]. *)
Definition reads_back (f : Form) (t : list char) : Prop :=
  ∀ s i post fuel, drop i s = t ++ post → closed post → length t < fuel →
    ∃ x, form x = f ∧ runs s i (read_one fuel) (Some x) (i + length t).

Lemma symbol_char_cases c :
  symbol_char c = true →
  is_whitespace c = false ∧ c ≠ 44%N ∧ Forall (λ d, c ≠ d) symbol_macros.
Proof.
  unfold symbol_char, is_one_of. rewrite !andb_true_iff, !negb_true_iff, N.eqb_neq. intros [[Hw Hc] Hm].
  split_and!; [done..|]. unfold symbol_macros in *. cbn [existsb] in Hm. rewrite !orb_false_iff, !N.eqb_neq in Hm.
  destruct_and! Hm. by repeat constructor.
Qed.

Lemma symbol_char_skipped c : symbol_char c = true → skipped c = false.
Proof.
  intros (Hw & Hc & Hm)%symbol_char_cases. unfold skipped, blank. rewrite Hw. apply orb_false_iff.
  unfold symbol_macros in Hm. rewrite !Forall_cons in Hm. destruct_and! Hm. split; by apply N.eqb_neq.
Qed.

(** A first character without a case of its own starts a token. *)
Lemma read_form_token read fuel c :
  symbol_char c = true → c ≠ 35%N → c ≠ 39%N →
  read_form read fuel c =
    (next ← reading peek_char;
     token ← (if is_ascii_digit c
                 || (((c =? ch "+") || (c =? ch "-"))%N && match next with Some d => is_ascii_digit d | None => false end)
              then number_token c else symbol_token c);
     x ← atom token;
     mret (Some (x, []))).
Proof.
  intros (_ & _ & Hm)%symbol_char_cases Hh Hq. unfold symbol_macros in Hm. rewrite !Forall_cons in Hm. destruct_and! Hm.
  unfold read_form, is_one_of. change (chars ")]}") with [41;93;125]%N. cbn [existsb].
  change (ch "(") with 40%N. change (ch "[") with 91%N. change (ch "{") with 123%N. change (ch "@") with 64%N.
  change (ch "`") with 96%N. change (ch "~") with 126%N. change (ch "^") with 94%N. change (ch "#") with 35%N.
  by repeat rewrite (proj2 (N.eqb_neq c _)) by done.
Qed.

Lemma reads_symbol_token c l f :
  Forall (λ c, symbol_char c = true) (c :: l) → c ≠ 35%N → c ≠ 39%N →
  first_is is_ascii_digit (strip_any_sign (c :: l)) = false →
  (∀ p, atom (c :: l) p = (Ok f, p)) → reads_back f (c :: l).
Proof.
  intros Hl Hh Hq Hn Ha s i post [|fuel] E Hpost Hf; [lia|]. apply Forall_cons in Hl as [Hc Hl].
  eexists (mkSpanned f _ _). split; [done|]. cbn [length].
  eapply runs_read_one; [exact E|by apply symbol_char_skipped|].
  rewrite read_form_token by done. apply drop_next in E. eapply runs_bind; [apply runs_peek|].
  assert (is_ascii_digit c || ((c =? ch "+") || (c =? ch "-"))%N &&
    match head (drop (S i) s) with Some d => is_ascii_digit d | None => false end = false) as ->.
  { cbn [strip_any_sign] in Hn. rewrite E. destruct ((c =? ch "+") || (c =? ch "-"))%N eqn:Es.
    - apply orb_false_iff. split.
      + apply orb_true_iff in Es as [->%N.eqb_eq | ->%N.eqb_eq]; done.
      + cbn [andb]. destruct l as [|d l]; [|exact Hn]. cbn [app].
        assert (first_is is_ascii_digit post = false) as Hp.
        { apply closed_not; [done|]. intros d [Hd | [-> | [-> | ->]]]%closing_cases; [|done..].
          destruct (is_ascii_digit d) eqn:Ed; [|done]. apply is_ascii_digit_spec in Ed.
          unfold is_whitespace, between in Hd. rewrite !orb_true_iff, !andb_true_iff, !N.eqb_eq, !N.leb_le in Hd. lia. }
        by destruct post.
    - cbn [first_is] in Hn. by rewrite Hn. }
  eapply runs_bind.
  { eapply runs_symbol_token; [exact E|exact Hl|]. apply closed_not; [done|]. apply closing_symbol. }
  eapply runs_bind; [intros id; apply Ha|]. eapply runs_to; [apply runs_ret|lia].
Qed.

Lemma reads_number_token c l f :
  Forall (λ c, number_char c = true) (c :: l) →
  (is_ascii_digit c = true ∨ (c = ch "-" ∧ first_is is_ascii_digit l = true)) →
  (∀ p, atom (c :: l) p = (Ok f, p)) → reads_back f (c :: l).
Proof.
  intros Hl Hn Ha s i post [|fuel] E Hpost Hf; [lia|]. apply Forall_cons in Hl as [Hc Hl].
  pose proof (number_char_symbol c Hc) as Hs.
  eexists (mkSpanned f _ _). split; [done|]. cbn [length].
  eapply runs_read_one; [exact E|by apply symbol_char_skipped|].
  assert (c ≠ 35 ∧ c ≠ 39)%N as [? ?] by (split; intros ->; done).
  rewrite read_form_token by done. apply drop_next in E. eapply runs_bind; [apply runs_peek|].
  assert (is_ascii_digit c || ((c =? ch "+") || (c =? ch "-"))%N &&
    match head (drop (S i) s) with Some d => is_ascii_digit d | None => false end = true) as ->.
  { destruct Hn as [-> | [-> Hd]]; [done|]. rewrite E. by destruct l. }
  eapply runs_bind. { by eapply runs_number_token. }
  eapply runs_bind; [intros id; apply Ha|]. eapply runs_to; [apply runs_ret|lia].
Qed.

Lemma strip_colon c l : c ≠ ch ":" → strip_prefix [ch ":"] (c :: l) = None.
Proof.
  intros Hc. destruct (strip_prefix _ _) eqn:E; [|done]. apply strip_prefix_some in E. by injection E as ->.
Qed.

Lemma split_once_head p l x n d (q : char → bool) : split_once p l = Some (x :: n, d) → first_is q l = q x.
Proof.
  destruct l as [|y l]; [done|]. cbn [split_once]. destruct (p y); [done|].
  destruct (split_once p l) as [[a b]|]; [|done]. cbn. by intros [= -> _ _].
Qed.

Lemma reads_symbol l :
  Forall (λ c, scalar c = true) l → symbol_readable l = true → reads_back (FSymbol (utf8 l)) l.
Proof.
  unfold symbol_readable. rewrite !andb_true_iff, !negb_true_iff, !bool_decide_eq_true, forallb_Forall.
  intros Hs ((((((Hl & Hn) & Hf) & Hd) & H1) & H2) & H3). destruct l as [|c l]; [done|].
  unfold is_one_of in Hf. cbn [first_is existsb] in Hf. rewrite !orb_false_iff, !N.eqb_neq in Hf. destruct Hf as (Hh & Hq & Hk & _).
  apply reads_symbol_token; [done..|]. intros p. unfold atom. rewrite !decide_False by done.
  rewrite strip_colon by done.
  assert (is_ratio (strip_any_sign (c :: l)) = false) as ->.
  { unfold is_ratio. destruct (split_once _ _) as [[n d]|] eqn:E; [|done].
    destruct n as [|x n]; [done|]. cbn [nonempty andb all_digits forallb].
    assert (first_is is_ascii_digit (strip_any_sign (c :: l)) = is_ascii_digit x) as Hx.
    { by eapply split_once_head. }
    unfold all_digits. cbn [forallb]. rewrite <-Hx, Hd. by destruct (nonempty d). }
  by rewrite Hd.
Qed.

Lemma reads_keyword l :
  Forall (λ c, scalar c = true) l → keyword_readable l = true → reads_back (FKeyword (utf8 l)) (ch ":" :: l).
Proof.
  unfold keyword_readable. rewrite andb_true_iff, forallb_Forall. intros Hs [Hl Hk].
  apply reads_symbol_token; [by constructor|done..|]. intros p. unfold atom. rewrite !decide_False by done.
  rewrite (proj2 (strip_prefix_some [ch ":"] _ l)) by done. by destruct (keyword_error l).
Qed.

(** *** Integers *)
Lemma digit_number_char c : is_ascii_digit c = true → number_char c = true.
Proof.
  intros Hc%is_ascii_digit_spec.
  assert (c = 48 ∨ c = 49 ∨ c = 50 ∨ c = 51 ∨ c = 52 ∨ c = 53 ∨ c = 54 ∨ c = 55 ∨ c = 56 ∨ c = 57)%N as E by lia.
  by destruct_or! E; subst.
Qed.

Lemma existsb_false {A} (p : A → bool) l : existsb p l = false ↔ Forall (λ x, p x = false) l.
Proof. induction l as [|x l IH]; cbn; [done|]. by rewrite orb_false_iff, Forall_cons, IH. Qed.

Lemma digits_not (p : char → bool) l :
  Forall (λ c, is_ascii_digit c = true) l → (∀ c, (48 <= c <= 57)%N → p c = false) → Forall (λ c, p c = false) l.
Proof. intros Hl Hp. eapply Forall_impl; [exact Hl|]. intros c Hc%is_ascii_digit_spec. by apply Hp. Qed.

Lemma utf8_bytes_digits l : Forall (λ c, is_ascii_digit c = true) l → length (utf8_bytes l) = length l.
Proof.
  induction 1 as [|c l Hc%is_ascii_digit_spec _ IH]; [done|]. rewrite utf8_bytes_cons, length_app, length_encode_utf8, IH.
  unfold len_utf8. by rewrite (proj2 (N.ltb_lt c 128)) by lia.
Qed.

(** A canonical decimal body is read as its value. *)
Lemma number_decimal n token p :
  last_is (λ c, (c =? ch "N") || (c =? ch "M"))%N token = false →
  number token (decimal n) p =
    (Ok (integer_form (if first_is (N.eqb (ch "-")) token then - Z.of_N n else Z.of_N n)), p).
Proof.
  intros Hlast. destruct (decimal_spec n) as (Hd & Hv & c & rest & Ec & Hz). unfold number. rewrite Hlast.
  rewrite (proj2 (existsb_false _ (decimal n))).
  2: { apply digits_not; [done|]. intros d Hr. change (ch ".") with 46%N. change (ch "e") with 101%N.
       change (ch "E") with 69%N. rewrite !(proj2 (N.eqb_neq _ _)) by lia. done. }
  assert (∀ x, (x > 57)%N → strip_prefix [ch "0"; x] (decimal n) = None) as Hhex.
  { intros x Hx. destruct (strip_prefix _ _) eqn:E; [|done]. apply strip_prefix_some in E. rewrite E in Hd.
    apply Forall_app in Hd as [Hd _]. rewrite !Forall_cons in Hd. destruct Hd as (_ & Hd%is_ascii_digit_spec & _). lia. }
  rewrite !Hhex by done.
  rewrite split_once_none.
  2: { apply digits_not; [done|]. intros d Hr. change (ch "r") with 114%N. change (ch "R") with 82%N.
       rewrite !(proj2 (N.eqb_neq _ _)) by lia. done. }
  rewrite utf8_bytes_digits by done.
  assert (all_digits (decimal n) = true) as Hall by by apply forallb_Forall. rewrite Hall.
  assert ((1 <? length (decimal n)) && first_is (N.eqb (ch "0")) (decimal n) && true = false) as ->.
  { rewrite Ec. cbn [first_is length]. destruct (N.eqb_spec (ch "0") c) as [E|]; [|by rewrite andb_false_r].
    rewrite Hz by done. done. }
  unfold parse_integer_digits. rewrite (parse_bytes_digits 10 (decimal n) n); [done|by rewrite Ec|done].
Qed.

Lemma decimal_last c l n :
  c :: l = decimal n ∨ l = decimal n → last_is (λ c, (c =? ch "N") || (c =? ch "M"))%N (c :: l) = false.
Proof.
  assert (∀ k, k = decimal n → last_is (λ c, (c =? ch "N") || (c =? ch "M"))%N k = false) as Hk.
  { intros k ->. destruct (decimal_spec n) as (Hd & _). unfold last_is. destruct (last (decimal n)) as [d|] eqn:E; [|done].
    apply last_Some_elem_of in E. rewrite Forall_forall in Hd. apply Hd, is_ascii_digit_spec in E.
    change (ch "N") with 78%N. change (ch "M") with 77%N. by rewrite !(proj2 (N.eqb_neq _ _)) by lia. }
  intros [E|E]; [by apply Hk|]. destruct (decimal_spec n) as (_ & _ & d & rest & Ed & _).
  specialize (Hk l E). unfold last_is in *. rewrite E, Ed in *. exact Hk.
Qed.

Lemma reads_integer z : reads_back (integer_form z) (decimal_Z z).
Proof.
  destruct (decimal_spec (Z.abs_N z)) as (Hd & Hv & c & rest & Ec & Hz).
  assert (Forall (λ c, number_char c = true) (decimal (Z.abs_N z))) as Hn.
  { eapply Forall_impl; [exact Hd|]. intros d. apply digit_number_char. }
  assert (∀ token body p, strip_any_sign token = body → body = decimal (Z.abs_N z) →
    first_is is_ascii_digit body = true → strip_prefix [ch ":"] token = None →
    token ≠ chars "nil" → token ≠ chars "true" → token ≠ chars "false" →
    atom token p = number token body p) as Hatom.
  { intros token body p Hs Hb Hfirst Hp H1 H2 H3. unfold atom. rewrite !decide_False by done. rewrite Hp, Hs.
    assert (is_ratio body = false) as ->; [|by rewrite Hfirst].
    unfold is_ratio. rewrite split_once_none; [done|]. rewrite Hb. apply digits_not; [exact Hd|].
    intros d Hr. apply N.eqb_neq. change (ch "/") with 47%N. lia. }
  pose proof Hd as Hc. rewrite Ec, Forall_cons in Hc. destruct Hc as [Hc _]. pose proof Hc as Hcr%is_ascii_digit_spec.
  unfold decimal_Z. destruct (Z.ltb_spec z 0).
  - apply reads_number_token; [by constructor|by right; rewrite Ec|]. intros p.
    rewrite (Hatom (ch "-" :: decimal (Z.abs_N z)) (decimal (Z.abs_N z)) p); try done.
    + rewrite number_decimal by (apply (decimal_last _ _ (Z.abs_N z)); by right).
      cbn [first_is]. change (ch "-" =? ch "-")%N with true. cbn iota. do 3 f_equal. lia.
    + by rewrite Ec.
  - rewrite Ec. apply reads_number_token; [by rewrite <-Ec|by left|]. intros p.
    assert (c ≠ ch "+" ∧ c ≠ ch "-" ∧ c ≠ ch ":" ∧ c ≠ 110 ∧ c ≠ 116 ∧ c ≠ 102)%N as (? & ? & ? & ? & ? & ?).
    { change (ch "+") with 43%N. change (ch "-") with 45%N. change (ch ":") with 58%N. lia. }
    rewrite (Hatom (c :: rest) (c :: rest) p); try done.
    + rewrite <-Ec at 2. rewrite number_decimal by (apply (decimal_last _ _ (Z.abs_N z)); by left).
      cbn [first_is]. rewrite (proj2 (N.eqb_neq _ _)) by done. do 3 f_equal. lia.
    + cbn [strip_any_sign]. by rewrite !(proj2 (N.eqb_neq _ _)) by done.
    + by apply strip_colon.
    + intros [= -> _]. done.
    + intros [= -> _]. done.
    + intros [= -> _]. done.
Qed.

(** *** Constants and characters *)
Lemma reads_constant t f :
  (t, f) ∈ [(chars "nil", FNil); (chars "true", FBool true); (chars "false", FBool false)] → reads_back f t.
Proof.
  rewrite !elem_of_cons, elem_of_nil. intros Ht. destruct_or! Ht; try done; injection Ht as -> ->;
    (apply reads_symbol_token; [by repeat constructor|done|done|done|done]).
Qed.

Lemma closing_character c : closing c = true → character_char c = false.
Proof. intros [Hw | [-> | [-> | ->]]]%closing_cases; [|done..]. unfold character_char. by rewrite Hw. Qed.

Lemma reads_character_from t c :
  (∀ s i post, drop i s = t ++ post → closed post → runs s i character_token t (i + length t)) →
  invalid_digit (ch "u") (λ n, n =? 4) is_ascii_hexdigit t = None →
  invalid_digit (ch "o") (λ n, (1 <=? n) && (n <=? 3)) is_octal_digit t = None →
  character_value t = Some c → reads_back (FCharacter c) (92%N :: t).
Proof.
  intros Ht H1 H2 Hv s i post [|fuel] E Hpost Hf; [lia|]. eexists (mkSpanned (FCharacter c) _ _). split; [done|].
  eapply runs_read_one; [exact E|done|]. apply drop_next in E.
  change (read_form (read_one fuel) fuel 92%N) with (x ← character; mret (Some (x, [] : list SpannedForm))).
  eapply runs_bind; [|eapply runs_to; [apply runs_ret|reflexivity]].
  eapply runs_bind; [by eapply Ht|]. rewrite H1, H2, Hv. eapply runs_to; [apply runs_ret|cbn [length]; lia].
Qed.

Lemma reads_character_token t c :
  forallb character_char t = true → nonempty t = true →
  invalid_digit (ch "u") (λ n, n =? 4) is_ascii_hexdigit t = None →
  invalid_digit (ch "o") (λ n, (1 <=? n) && (n <=? 3)) is_octal_digit t = None →
  character_value t = Some c → reads_back (FCharacter c) (92%N :: t).
Proof.
  intros Ht%forallb_Forall Hn H1 H2 Hv. apply reads_character_from; [|done..].
  intros s i post E Hpost. eapply runs_bind; [apply runs_peek|]. destruct t as [|x t]; [done|].
  rewrite E. cbn [app head]. apply Forall_cons in Ht as [Hx Ht].
  assert (is_bracket x = false) as ->.
  { unfold character_char in Hx. apply andb_true_iff in Hx as [_ Hx]. by destruct (is_bracket x). }
  eapply runs_read_while; [exact E|by constructor|]. apply closed_not; [done|]. apply closing_character.
Qed.

Lemma is_bracket_cases c :
  is_bracket c = true → (c = 40 ∨ c = 41 ∨ c = 91 ∨ c = 93 ∨ c = 123 ∨ c = 125)%N.
Proof.
  unfold is_bracket, is_one_of. change (chars "()[]{}") with [40;41;91;93;123;125]%N. cbn [existsb].
  rewrite !orb_true_iff, !N.eqb_eq. naive_solver.
Qed.

Lemma reads_bracket c : is_bracket c = true → reads_back (FCharacter c) [92%N; c].
Proof.
  intros Hb. apply reads_character_from.
  - intros s i post E Hpost. eapply runs_bind; [apply runs_peek|]. rewrite E. cbn [app head]. rewrite Hb.
    eapply runs_bind; [by eapply runs_read|]. eapply runs_to; [apply runs_ret|cbn; lia].
  - apply is_bracket_cases in Hb. by destruct_or! Hb; subst.
  - apply is_bracket_cases in Hb. by destruct_or! Hb; subst.
  - apply is_bracket_cases in Hb. by destruct_or! Hb; subst.
Qed.

Lemma invalid_digit_single prefix lengths digit c : lengths 0 = false → invalid_digit prefix lengths digit [c] = None.
Proof.
  intros Hl. unfold invalid_digit. destruct (strip_prefix _ _) as [k|] eqn:E; [|done].
  apply strip_prefix_some in E. injection E as _ <-. cbn. by rewrite Hl.
Qed.

Lemma character_value_single c : character_value [c] = Some c.
Proof.
  unfold character_value. rewrite !decide_False by done.
  rewrite utf8_bytes_cons, app_nil_r, length_encode_utf8.
  destruct (N.eqb_spec (ch "u") c) as [<-|Hu]; [done|]. destruct (N.eqb_spec (ch "o") c) as [<-|Ho]; [done|].
  cbn [first_is]. by rewrite !(proj2 (N.eqb_neq _ _)) by done.
Qed.

(** A control character's escape, for each of them. *)
Definition control_ok (c : char) : bool :=
  let t := ch "u" :: hex4 c in
  forallb character_char t && bool_decide (invalid_digit (ch "u") (λ n, n =? 4) is_ascii_hexdigit t = None)
  && bool_decide (invalid_digit (ch "o") (λ n, (1 <=? n) && (n <=? 3)) is_octal_digit t = None)
  && bool_decide (character_value t = Some c).

Lemma reads_character c : character_readable c = true → reads_back (FCharacter c) (display_character c).
Proof.
  intros Hr. unfold display_character.
  destruct (N.eqb_spec c 10) as [->|]; [by apply (reads_character_token (chars "newline"))|].
  destruct (N.eqb_spec c 32) as [->|H32]; [by apply (reads_character_token (chars "space"))|].
  destruct (N.eqb_spec c 9) as [->|]; [by apply (reads_character_token (chars "tab"))|].
  destruct (N.eqb_spec c 8) as [->|]; [by apply (reads_character_token (chars "backspace"))|].
  destruct (N.eqb_spec c 12) as [->|]; [by apply (reads_character_token (chars "formfeed"))|].
  destruct (N.eqb_spec c 13) as [->|]; [by apply (reads_character_token (chars "return"))|].
  destruct (is_control c) eqn:Hc.
  - assert (c < 160)%N as Hlt.
    { unfold is_control, between in Hc. rewrite orb_true_iff, andb_true_iff, N.ltb_lt, !N.leb_le in Hc. lia. }
    pose proof (below_forall control_ok 160 c ltac:(by vm_compute) ltac:(lia)) as Hok. unfold control_ok in Hok.
    rewrite !andb_true_iff, !bool_decide_eq_true in Hok. destruct Hok as (((? & ?) & ?) & ?).
    by apply (reads_character_token (ch "u" :: hex4 c)).
  - destruct (is_bracket c) eqn:Hb; [by apply reads_bracket|]. apply (reads_character_token [c]); try done.
    + cbn [forallb]. unfold character_char. rewrite Hb. unfold character_readable in Hr.
      rewrite Hc, (proj2 (N.eqb_neq c 32)), !orb_false_r in Hr by done. by rewrite Hr.
    + by apply invalid_digit_single.
    + by apply invalid_digit_single.
    + apply character_value_single.
Qed.

(** ** Strings and regular expressions *)
Lemma reads_string l :
  reads_back (FString (utf8 l)) (display_string l).
Proof.
  intros s i post [|fuel] E Hpost Hf; [lia|]. unfold display_string in E |- *. cbn [app] in E. rewrite <-app_assoc in E.
  eexists (mkSpanned (FString (utf8 l)) _ _). split; [done|]. eapply runs_read_one; [exact E|done|].
  apply drop_next in E.
  change (read_form (read_one fuel) fuel 34%N) with (x ← read_string; mret (Some (FString (utf8 x), [] : list SpannedForm))).
  eapply runs_bind; [by eapply runs_read_string|]. eapply runs_to; [apply runs_ret|].
  cbn [length]. rewrite length_app. cbn [length]. lia.
Qed.

Lemma reads_regex l : regex_readable l = true → reads_back (FRegex (utf8 l)) (display_regex l).
Proof.
  intros Hl s i post [|fuel] E Hpost Hf; [lia|]. unfold display_regex in E |- *.
  rewrite (display_regex_readable l 0) in E |- * by done. change (chars "#") with [35%N] in *. cbn [app] in E.
  rewrite <-app_assoc in E. eexists (mkSpanned (FRegex (utf8 l)) _ _). split; [done|].
  eapply runs_read_one; [exact E|done|]. apply drop_next in E.
  change (read_form (read_one fuel) fuel 35%N) with (dispatch (read_one fuel) fuel). unfold dispatch.
  eapply runs_bind; [by eapply runs_read|]. apply drop_next in E.
  change (34 =? ch "(")%N with false. change (is_one_of (chars ":=?|") 34) with false.
  change (34 =? ch "{")%N with false. change (34 =? ch "_")%N with false. change (34 =? 39)%N with false.
  change (34 =? 34)%N with true. cbn iota beta.
  eapply runs_bind; [by eapply runs_regex|]. eapply runs_to; [apply runs_ret|].
  cbn [length app]. rewrite length_app. cbn [length]. lia.
Qed.
End atoms.

(** ** Sequences of forms *)
Definition begins_form (t : list char) : Prop :=
  ∃ c k, t = c :: k ∧ skipped c = false ∧ is_one_of (chars ")]}") c = false.

Definition separated (ts : list (list char)) : list char := concat (cons 32%N <$> ts).

Lemma join_separated t ts : join_spaces (t :: ts) = t ++ separated ts.
Proof.
  revert t. induction ts as [|u ts IH]; intros t; [symmetry; apply app_nil_r|].
  change (join_spaces (t :: u :: ts)) with (t ++ 32%N :: join_spaces (u :: ts)). by rewrite IH.
Qed.

Section sequences.
Context `{TextLaws}.

(** A form with its text, which a [read_one] with this fuel reads. *)
Definition item_text (fuel : nat) (f : Form) (t : list char) : Prop :=
  begins_form t ∧ reads_back f t ∧ length t < fuel.

Lemma begins_form_begins t k : begins_form t → begins (t ++ k).
Proof. intros (c & l & -> & Hc & _). exists c, (l ++ k). done. Qed.

Lemma closed_separated ts post : closed post → closed (separated ts ++ post).
Proof. intros Hp. destruct ts as [|t ts]; [exact Hp|]. right. done. Qed.

Variable s : list char.
Variable fuel0 : nat.
Variable close : char.
Variable kind : string.
Hypothesis close_closes : is_one_of (chars ")]}") close = true.

Lemma close_cases : (close = 41 ∨ close = 93 ∨ close = 125)%N.
Proof.
  pose proof close_closes as Hc. unfold is_one_of in Hc. change (chars ")]}") with [41;93;125]%N in Hc.
  cbn [existsb] in Hc. rewrite !orb_true_iff, !N.eqb_eq in Hc. naive_solver.
Qed.

Lemma close_begins post : begins (close :: post) ∧ closed (close :: post).
Proof.
  split.
  - exists close, post. split; [done|]. by destruct close_cases as [-> | [-> | ->]].
  - right. cbn. unfold closing. by rewrite close_closes, orb_true_r.
Qed.

Lemma runs_delimited_end i post fuel :
  drop i s = close :: post → runs s i (delimited_loop (read_one fuel0) (S fuel) close kind) [] (S i).
Proof.
  intros E. cbn [delimited_loop]. eapply runs_bind.
  { apply runs_whitespace_none. rewrite E. apply close_begins. }
  eapply runs_bind; [apply runs_peek|]. rewrite E. cbn [head]. rewrite N.eqb_refl.
  eapply runs_bind; [by eapply runs_read|]. apply runs_ret.
Qed.

Lemma runs_delimited_item i j k f t x rest post fuel xs :
  runs s i whitespace tt j → drop j s = t ++ post → begins_form t →
  form x = f → runs s j (read_one fuel0) (Some x) (j + length t) →
  runs s (j + length t) (delimited_loop (read_one fuel0) fuel close kind) xs k →
  rest = x :: xs → runs s i (delimited_loop (read_one fuel0) (S fuel) close kind) rest k.
Proof.
  intros Hw E (c & l & -> & Hc & Hb) Hf Hx Hxs ->. cbn [delimited_loop]. eapply runs_bind; [exact Hw|].
  eapply runs_bind; [apply runs_peek|]. rewrite E. cbn [app head].
  destruct (N.eqb_spec c close) as [->|]; [by rewrite close_closes in Hb|].
  eapply runs_bind; [exact Hx|]. eapply runs_bind; [exact Hxs|]. apply runs_ret.
Qed.

Lemma runs_delimited_rest fs ts i post fuel :
  Forall2 (item_text fuel0) fs ts → drop i s = separated ts ++ close :: post → length ts < fuel →
  ∃ xs, form <$> xs = fs ∧
    runs s i (delimited_loop (read_one fuel0) fuel close kind) xs (i + length (separated ts) + 1).
Proof.
  intros Hts. revert i fuel. induction Hts as [|f t fs ts (Hb & Hr & Hl) _ IH]; intros i [|fuel] E Hf; try (cbn in Hf; lia).
  - exists []. split; [done|]. eapply runs_to; [eapply runs_delimited_end; exact E|cbn; lia].
  - change (separated (t :: ts)) with (32%N :: t ++ separated ts) in *. cbn [app] in E. rewrite <-app_assoc in E.
    pose proof (drop_next _ _ _ _ E) as E1.
    destruct (Hr s (S i) (separated ts ++ close :: post) fuel0 E1) as (x & Hx & Hrun);
      [apply closed_separated, close_begins|done|].
    destruct (IH (S i + length t) fuel) as (xs & Hxs & Hrest); [by apply drop_after|cbn in Hf; lia|].
    exists (x :: xs). split; [by rewrite fmap_cons, Hx, Hxs|].
    eapply runs_to; [eapply (runs_delimited_item i (S i)); [|exact E1|exact Hb|exact Hx|exact Hrun|exact Hrest|done]|].
    + eapply runs_whitespace_space; [exact E|]. by apply begins_form_begins.
    + cbn [length]. rewrite length_app. lia.
Qed.

Lemma runs_delimited fs ts i post fuel :
  Forall2 (item_text fuel0) fs ts → drop i s = join_spaces ts ++ close :: post → length ts < fuel →
  ∃ xs, form <$> xs = fs ∧
    runs s i (delimited_loop (read_one fuel0) fuel close kind) xs (i + length (join_spaces ts) + 1).
Proof.
  intros Hts E Hf. destruct Hts as [|f t fs ts (Hb & Hr & Hl) Hts].
  - destruct fuel as [|fuel]; [cbn in Hf; lia|]. exists []. split; [done|].
    eapply runs_to; [eapply runs_delimited_end; exact E|cbn; lia].
  - rewrite join_separated in E |- *. rewrite <-app_assoc in E. destruct fuel as [|fuel]; [cbn in Hf; lia|].
    destruct (Hr s i (separated ts ++ close :: post) fuel0 E) as (x & Hx & Hrun);
      [apply closed_separated, close_begins|done|].
    destruct (runs_delimited_rest fs ts (i + length t) post fuel) as (xs & Hxs & Hrest);
      [done|by apply drop_after|cbn in Hf; lia|].
    exists (x :: xs). split; [by rewrite fmap_cons, Hx, Hxs|].
    eapply runs_to; [eapply (runs_delimited_item i i); [|exact E|exact Hb|exact Hx|exact Hrun|exact Hrest|done]|].
    + apply runs_whitespace_none. rewrite E. by apply begins_form_begins.
    + rewrite length_app. lia.
Qed.
End sequences.

(** ** Compound forms *)
Section compound.
Context `{TextLaws}.

Lemma item_texts fuel fs ts :
  Forall2 (λ f t, begins_form t ∧ reads_back f t) fs ts → length (join_spaces ts) < fuel →
  Forall2 (item_text fuel) fs ts ∧ length ts ≤ S (length (join_spaces ts)).
Proof.
  intros Hts Hl. assert (Forall (λ t, length t ≤ length (join_spaces ts)) ts ∧ length ts ≤ S (length (join_spaces ts))) as [Hle Hn].
  { clear Hl. destruct Hts as [|f t fs ts [(c & k & -> & _) _] Hts]; [split; [constructor|cbn; lia]|].
    rewrite join_separated, length_app.
    assert (Forall (λ t, length t ≤ length (separated ts)) ts ∧ length ts ≤ length (separated ts)) as [Hs Hn].
    { clear Hts. induction ts as [|t ts [IH1 IH2]]; [done|]. change (separated (t :: ts)) with (32%N :: t ++ separated ts).
      cbn [length]. rewrite length_app. split; [constructor; [lia|]|lia].
      eapply Forall_impl; [exact IH1|]. intros u Hu. cbn beta in Hu. lia. }
    split; [constructor; [lia|]|cbn; lia]. eapply Forall_impl; [exact Hs|]. intros u Hu. cbn beta in Hu. lia. }
  split; [|done]. clear Hn. revert Hle. revert Hl. generalize (length (join_spaces ts)). intros n Hn Hle.
  induction Hts as [|f t fs ts [Hb Hr] _ IH]; [constructor|]. inversion Hle; subst.
  constructor; [split_and!; [done|done|lia]|by apply IH].
Qed.

(** A delimited sequence in the cases of [read_form]. *)
Lemma reads_delimited opening close kind build fs ts :
  is_one_of (chars ")]}") close = true → skipped opening = false →
  (∀ fuel xs, form <$> xs = fs →
     ∃ f, build fs = f ∧ ∀ s i j, runs s i (delimited (read_one fuel) fuel close kind) xs j →
       runs s i (read_form (read_one fuel) fuel opening) (Some (f, xs)) j) →
  Forall2 (λ f t, begins_form t ∧ reads_back f t) fs ts →
  reads_back (build fs) (opening :: join_spaces ts ++ [close]).
Proof.
  intros Hc Ho Hbuild Hts s i post [|fuel] E Hpost Hf; [lia|]. cbn [length] in Hf. rewrite length_app in Hf. cbn [length] in Hf.
  cbn [app] in E. rewrite <-app_assoc in E. pose proof (drop_next _ _ _ _ E) as E1.
  destruct (item_texts fuel fs ts) as [Hitems Hn]; [done|lia|].
  destruct (runs_delimited s fuel close kind Hc fs ts (S i) post fuel Hitems E1) as (xs & Hxs & Hrun); [lia|].
  destruct (Hbuild fuel xs Hxs) as (f & <- & Hform). eexists (mkSpanned _ _ _). split; [reflexivity|].
  eapply runs_to; [eapply runs_read_one; [exact E|exact Ho|]|].
  - apply Hform. exact Hrun.
  - cbn [length]. rewrite length_app. cbn [length]. lia.
Qed.

Lemma reads_list fs ts :
  Forall2 (λ f t, begins_form t ∧ reads_back f t) fs ts →
  reads_back (FList fs) (ch "(" :: join_spaces ts ++ [ch ")"]).
Proof.
  apply (reads_delimited _ _ "list" FList); [done..|]. intros fuel xs <-. eexists. split; [done|].
  intros s i j Hr. eapply runs_bind; [exact Hr|]. apply runs_ret.
Qed.

Lemma reads_vector fs ts :
  Forall2 (λ f t, begins_form t ∧ reads_back f t) fs ts →
  reads_back (FVector fs) (ch "[" :: join_spaces ts ++ [ch "]"]).
Proof.
  apply (reads_delimited _ _ "vector" FVector); [done..|]. intros fuel xs <-. eexists. split; [done|].
  intros s i j Hr. eapply runs_bind; [exact Hr|]. apply runs_ret.
Qed.

Definition flatten (l : list (Form * Form)) : list Form := concat ((λ e, [e.1; e.2]) <$> l).

Lemma pairs_flatten xs entries :
  form <$> xs = flatten entries → pairs xs = entries ∧ Nat.even (length xs) = true.
Proof.
  revert xs. induction entries as [|[k v] entries IH]; intros xs E.
  - by destruct xs.
  - destruct xs as [|x [|y xs]]; try done. cbn in E. injection E as <- <- E. cbn [pairs length Nat.even].
    destruct (IH xs E) as [-> ->]. done.
Qed.

Lemma reads_map_form entries ts :
  has_duplicate [] entries.*1 = false →
  Forall2 (λ f t, begins_form t ∧ reads_back f t) (flatten entries) ts →
  reads_back (FMap entries) (ch "{" :: join_spaces ts ++ [ch "}"]).
Proof.
  intros Hd. apply (reads_delimited _ _ "map" (λ _, FMap entries)); [done..|]. intros fuel xs Hxs. eexists. split; [done|].
  intros s i j Hr. destruct (pairs_flatten xs entries Hxs) as [Hp He]. eapply runs_bind; [exact Hr|].
  rewrite He, Hp. cbv zeta. rewrite Hd. apply runs_ret.
Qed.

Lemma reads_set fs ts :
  has_duplicate [] fs = false →
  Forall2 (λ f t, begins_form t ∧ reads_back f t) fs ts →
  reads_back (FSet fs) (chars "#{" ++ join_spaces ts ++ [ch "}"]).
Proof.
  intros Hd Hts s i post [|fuel] E Hpost Hf; [lia|]. change (chars "#{") with [35;123]%N in *. cbn [app length] in Hf, E.
  rewrite length_app in Hf. cbn [length] in Hf. rewrite <-app_assoc in E.
  pose proof (drop_next _ _ _ _ E) as E1. pose proof (drop_next _ _ _ _ E1) as E2.
  destruct (item_texts fuel fs ts) as [Hitems Hn]; [done|lia|].
  destruct (runs_delimited s fuel (ch "}") "set" eq_refl fs ts (S (S i)) post fuel Hitems E2) as (xs & Hxs & Hrun); [lia|].
  eexists (mkSpanned (FSet fs) _ _). split; [reflexivity|].
  eapply runs_to; [eapply runs_read_one; [exact E|done|]|].
  - change (read_form (read_one fuel) fuel 35%N) with (dispatch (read_one fuel) fuel). unfold dispatch.
    eapply runs_bind; [by eapply runs_read|]. change (123 =? ch "(")%N with false.
    change (is_one_of (chars ":=?|") 123) with false. change (123 =? ch "{")%N with true. cbn iota beta.
    eapply runs_bind; [exact Hrun|]. cbv zeta. rewrite Hxs, Hd. apply runs_ret.
  - cbn [length app]. rewrite length_app. cbn [length]. lia.
Qed.

Lemma alphabetic_not c d : is_alphabetic c = true → (d < 128)%N → is_ascii_letter d = false → (c =? d)%N = false.
Proof. intros Hc Hd Hl. apply N.eqb_neq. intros ->. rewrite (alphabetic_ascii d Hd), Hl in Hc. done. Qed.

Lemma reads_tagged c l v t :
  is_alphabetic c = true → Forall (λ c, symbol_char c = true) l → begins_form t →
  first_is symbol_char t = false → reads_back v t →
  reads_back (FTagged (utf8 (c :: l)) v) (ch "#" :: (c :: l) ++ t).
Proof.
  intros Hc Hl Hb Ht Hr s i post [|fuel] E Hpost Hf; [lia|]. cbn [app length] in Hf, E. rewrite length_app in Hf.
  rewrite <-app_assoc in E. pose proof (drop_next _ _ _ _ E) as E1. pose proof (drop_next _ _ _ _ E1) as E2.
  pose proof (drop_after _ _ _ _ E2) as E3.
  destruct (Hr s (S (S i) + length l) post fuel E3 Hpost) as (x & <- & Hrun); [lia|].
  eexists (mkSpanned (FTagged (utf8 (c :: l)) (form x)) _ [x]). split; [reflexivity|].
  eapply runs_to; [eapply runs_read_one; [exact E|done|]|].
  - change (read_form (read_one fuel) fuel (ch "#")) with (dispatch (read_one fuel) fuel). unfold dispatch.
    eapply runs_bind; [by eapply runs_read|]. cbv beta iota. unfold is_one_of. change (chars ":=?|") with [58;61;63;124]%N.
    cbn [existsb]. rewrite !(alphabetic_not c) by done. cbn [orb]. rewrite Hc. cbn [negb].
    eapply runs_bind.
    { eapply runs_symbol_token; [exact E2|exact Hl|]. by destruct Hb as (d & k & -> & _). }
    cbn [nonempty negb]. eapply (runs_bind _ _ _ _ _ _ x); [|apply runs_ret].
    eapply runs_bind. { apply runs_whitespace_none. rewrite E3. by apply begins_form_begins. }
    eapply runs_bind; [exact Hrun|]. apply runs_ret.
  - cbn [length app]. rewrite length_app. lia.
Qed.
End compound.

(** ** The round trip *)
Section roundtrip.
Context `{TextLaws}.

Lemma text_ok_chars s : text_ok s = true → utf8 (chars s) = s ∧ Forall (λ c, scalar c = true) (chars s).
Proof. intros Hs%bool_decide_eq_true. by apply utf8_chars. Qed.

Lemma display_all_Forall2 P l :
  Forall (λ f, ∃ t, display f = Some t ∧ P f t) l →
  ∃ ts, display_all display l = Some ts ∧ Forall2 P l ts.
Proof.
  induction 1 as [|f l (t & Hf & Hp) _ (ts & Hl & Hts)]; [by exists []|].
  exists (t :: ts). cbn. by rewrite Hf, Hl; repeat constructor.
Qed.

Lemma display_entries_Forall2 P l :
  Forall (λ e, (∃ t, display e.1 = Some t ∧ P e.1 t) ∧ (∃ t, display e.2 = Some t ∧ P e.2 t)) l →
  ∃ ts, display_entries display l = Some ts ∧ Forall2 P (flatten l) ts.
Proof.
  induction 1 as [|[k v] l [(t & Hk & Htk) (u & Hv & Htv)] _ (ts & Hl & Hts)]; [by exists []|].
  cbn in Hk, Hv, Htk, Htv. exists (t :: u :: ts). cbn. rewrite Hk, Hv, Hl. cbn. split; [done|].
  constructor; [done|]. by constructor.
Qed.

Lemma begins_symbol c l : symbol_char c = true → begins_form (c :: l).
Proof.
  intros Hc. exists c, l. split; [done|]. split; [by apply symbol_char_skipped|].
  destruct (is_one_of _ c) eqn:E; [|done]. assert (closing c = true) as Hcl%closing_symbol; [|congruence].
  unfold closing. by rewrite E, orb_true_r.
Qed.

Lemma begins_known c l : skipped c = false → is_one_of (chars ")]}") c = false → begins_form (c :: l).
Proof. intros H1 H2. by exists c, l. Qed.

Lemma decimal_Z_begins z : begins_form (decimal_Z z).
Proof.
  destruct (decimal_spec (Z.abs_N z)) as (Hd & _ & c & rest & Ec & _). unfold decimal_Z.
  destruct (z <? 0)%Z; [by apply begins_known|]. rewrite Ec in Hd |- *. apply Forall_cons in Hd as [Hc _].
  by apply begins_symbol, number_char_symbol, digit_number_char.
Qed.

Lemma self_delimiting_begins f t :
  self_delimiting f = true → display f = Some t → first_is symbol_char t = false.
Proof.
  destruct f; try done; intros _; cbn [display].
  - intros [= <-]. unfold display_character. by repeat case_match.
  - by intros [= <-].
  - by intros (ts & _ & [= <-])%bind_Some.
  - by intros (ts & _ & [= <-])%bind_Some.
  - by intros (ts & _ & [= <-])%bind_Some.
Qed.

Lemma integer_form_number z : i64_range z = true → integer_form z = FNumber z.
Proof. unfold i64_range, integer_form. intros Hz%bool_decide_eq_true. by rewrite decide_True. Qed.
Lemma integer_form_big z : i64_range z = false → integer_form z = FBigInteger z.
Proof. unfold i64_range, integer_form. intros Hz%bool_decide_eq_false. by rewrite decide_False. Qed.

Definition shown (f : Form) : Prop := ∃ t, display f = Some t ∧ begins_form t ∧ reads_back f t.

Lemma all_shown l : all_of readable l = true → Forall (λ f, readable f = true → shown f) l → Forall shown l.
Proof.
  intros Hr%all_of_Forall Hl. rewrite Forall_forall in *. auto.
Qed.

Lemma readable_shown f : readable f = true → shown f.
Proof.
  induction f as [| |b|z| |z|c|r|tag v IH| |name|name|text|l IH|l IH|l IH|l IH] using form_nested_ind;
    cbn [readable]; intros Hr; try done; unfold shown; cbn [display].
  - eexists. split_and!; [done|by apply begins_symbol|]. apply reads_constant. left.
  - eexists. split_and!; [done|by destruct b; apply begins_symbol|]. apply reads_constant. destruct b; [right; left|right; right; left].
  - eexists. split_and!; [done|apply decimal_Z_begins|]. rewrite <-(integer_form_number z Hr). apply reads_integer.
  - eexists. rewrite bigint_display_decimal. split_and!; [done|apply decimal_Z_begins|].
    rewrite <-(integer_form_big z) by by destruct (i64_range z). apply reads_integer.
  - apply andb_true_iff in Hr as [_ Hr]. eexists. split_and!; [done| |by apply reads_character].
    unfold display_character. repeat case_match; by apply begins_known.
  - apply andb_true_iff in Hr as [[E _]%text_ok_chars Hr]. eexists. split_and!; [done|by apply begins_known|].
    rewrite <-E at 1. by apply reads_regex.
  - rewrite !andb_true_iff in Hr. destruct Hr as ((([E _]%text_ok_chars & Ht) & Hd) & Hv).
    destruct (IH Hv) as (t & Et & Hb & Hread). rewrite Et. cbn.
    unfold tag_readable in Ht. apply andb_true_iff in Ht as [Hfirst Hs]. destruct (chars tag) as [|c l]; [done|].
    eexists. split_and!; [done|by apply begins_known|]. rewrite <-E. apply reads_tagged; [done| |done| |done].
    + by apply forallb_Forall, Forall_cons in Hs as [].
    + by eapply self_delimiting_begins.
  - apply andb_true_iff in Hr as [[E Hs]%text_ok_chars Hr]. eexists. split_and!; [done| |rewrite <-E at 1; by apply reads_symbol].
    unfold symbol_readable in Hr. rewrite !andb_true_iff in Hr. destruct Hr as ((((((Hr & Hn) & _) & _) & _) & _) & _).
    destruct (chars name) as [|c l]; [done|]. apply begins_symbol. cbn in Hr. by apply andb_true_iff in Hr as [].
  - apply andb_true_iff in Hr as [[E Hs]%text_ok_chars Hr]. eexists. split_and!; [done|by apply begins_symbol|].
    rewrite <-E at 1. by apply reads_keyword.
  - apply text_ok_chars in Hr as [E _]. eexists. split_and!; [done|by apply begins_known|].
    rewrite <-E at 1. apply reads_string.
  - apply andb_true_iff in Hr as [Hr Hd]. apply all_entries_Forall in Hr.
    destruct (display_entries_Forall2 (λ f t, begins_form t ∧ reads_back f t) l) as (ts & Ets & Hts).
    { rewrite Forall_forall in Hr, IH |- *. intros e He. destruct (Hr e He) as [R1 R2], (IH e He) as [I1 I2].
      split; [by apply I1|by apply I2]. }
    rewrite Ets. cbn. eexists. split_and!; [done|by apply begins_known|]. apply reads_map_form; [|done].
    by destruct (has_duplicate [] l.*1).
  - apply andb_true_iff in Hr as [Hr Hd]. destruct (display_all_Forall2 (λ f t, begins_form t ∧ reads_back f t) l) as (ts & Ets & Hts);
      [by apply all_shown|].
    rewrite Ets. cbn. eexists. split_and!; [done|by apply begins_known|]. apply reads_set; [|done].
    by destruct (has_duplicate [] l).
  - destruct (display_all_Forall2 (λ f t, begins_form t ∧ reads_back f t) l) as (ts & Ets & Hts); [by apply all_shown|].
    rewrite Ets. cbn. eexists. split_and!; [done|by apply begins_known|]. by apply reads_vector.
  - destruct (display_all_Forall2 (λ f t, begins_form t ∧ reads_back f t) l) as (ts & Ets & Hts); [by apply all_shown|].
    rewrite Ets. cbn. eexists. split_and!; [done|by apply begins_known|]. by apply reads_list.
Qed.

(** The whole text. *)
Lemma runs_whitespace_end s i : drop i s = [] → runs s i whitespace tt i.
Proof.
  intros E id. unfold whitespace. cbn [reader parser_at reader_at source whitespace_loop].
  fold (reader_at s i) (parser_at s i id). unfold mbind at 1, prog_bind at 1.
  rewrite (runs_read_while s i _ [] []); [|by rewrite E|done|done].
  cbn [length]. rewrite Nat.add_0_r. unfold mbind, prog_bind. by rewrite runs_peek, E.
Qed.

Lemma runs_read_all_rest s fs ts i fuel :
  Forall2 (λ f t, begins_form t ∧ reads_back f t) fs ts → drop i s = separated ts → length (separated ts) < fuel →
  i ≤ length s → ∃ xs, form <$> xs = fs ∧ runs s i (read_all_loop fuel) xs (length s).
Proof.
  intros Hts. revert i fuel. induction Hts as [|f t fs ts [Hb Hr] _ IH]; intros i [|fuel] E Hf Hi; try lia.
  - exists []. split; [done|]. cbn [read_all_loop]. eapply runs_bind; [by apply runs_whitespace_end|].
    apply (f_equal length) in E. rewrite length_drop in E. cbn in E.
    eapply runs_bind. { apply (runs_gets _ _ _ true). intros id. cbn [reader parser_at]. rewrite is_eof_at. apply Nat.leb_le. lia. }
    eapply runs_to; [apply runs_ret|lia].
  - change (separated (t :: ts)) with (32%N :: t ++ separated ts) in *. cbn [length] in Hf. rewrite length_app in Hf.
    pose proof (drop_next _ _ _ _ E) as E1. assert (closed (separated ts)) as Hcl.
    { rewrite <-(app_nil_r (separated ts)). apply closed_separated. by left. }
    destruct (Hr s (S i) (separated ts) (S fuel) E1 Hcl) as (x & Hx & Hrun); [lia|].
    assert (0 < length t) by (destruct Hb as (c & k & -> & _); cbn; lia).
    apply (f_equal length) in E as El. rewrite length_drop in El. cbn [length] in El. rewrite length_app in El.
    destruct (IH (S i + length t) fuel) as (xs & Hxs & Hrest); [by apply drop_after|lia|lia|].
    exists (x :: xs). split; [by rewrite fmap_cons, Hx, Hxs|]. cbn [read_all_loop].
    eapply runs_bind; [eapply runs_whitespace_space; [exact E|by apply begins_form_begins]|].
    destruct Hb as (c & k & -> & _).
    eapply runs_bind. { apply (runs_gets _ _ _ false). intros id. by eapply is_eof_false. }
    cbn iota. eapply runs_bind; [exact Hrun|]. eapply runs_bind; [exact Hrest|]. apply runs_ret.
Qed.

Lemma runs_read_all fs ts :
  fs ≠ [] → Forall2 (λ f t, begins_form t ∧ reads_back f t) fs ts →
  ∃ xs, form <$> xs = fs ∧
    runs (join_spaces ts) 0 (read_all_loop (S (length (join_spaces ts)))) xs (length (join_spaces ts)).
Proof.
  intros Hn Hts. destruct Hts as [|f t fs ts [Hb Hr] Hts]; [done|]. rewrite join_separated.
  assert (closed (separated ts)) as Hcl.
  { rewrite <-(app_nil_r (separated ts)). apply closed_separated. by left. }
  set (s := t ++ separated ts) in *. assert (length s = length t + length (separated ts)) as Hs by apply length_app.
  assert (0 < length t) by (destruct Hb as (c & k & -> & _); cbn; lia).
  destruct (Hr s 0 (separated ts) (S (length s)) eq_refl Hcl) as (x & Hx & Hrun); [lia|].
  destruct (runs_read_all_rest s fs ts (length t) (length s)) as (xs & Hxs & Hrest);
    [done|by unfold s; rewrite drop_app_length|lia|lia|].
  exists (x :: xs). split; [by rewrite fmap_cons, Hx, Hxs|]. cbn [read_all_loop].
  eapply runs_bind; [apply runs_whitespace_none; by apply begins_form_begins|].
  destruct Hb as (c & k & -> & _).
  eapply runs_bind. { apply (runs_gets _ _ _ false). intros id. by eapply is_eof_false. }
  cbn iota. eapply runs_bind; [exact Hrun|]. eapply runs_bind; [exact Hrest|]. apply runs_ret.
Qed.

(** C18. The reader inverts the printer: the texts of readable forms, separated
    by spaces, are read as exactly these forms. *)
Theorem display_read_roundtrip fs :
  fs ≠ [] → Forall (λ f, readable f = true) fs →
  ∃ ts, display_all display fs = Some ts ∧ parse_forms (join_spaces ts) = Some (Ok fs).
Proof.
  intros Hn Hf. destruct (display_all_Forall2 (λ f t, begins_form t ∧ reads_back f t) fs) as (ts & Ets & Hts).
  { eapply Forall_impl; [exact Hf|]. exact readable_shown. }
  exists ts. split; [done|]. destruct (runs_read_all fs ts Hn Hts) as (xs & Hxs & Hrun).
  unfold parse_forms, read_forms, read_all, parser_new. rewrite reader_new_at. fold (parser_at (join_spaces ts) 0 0).
  unfold mbind, prog_bind. rewrite Hrun. destruct xs as [|x xs]; [by subst|]. cbn [fst mret prog_ret]. by rewrite Hxs.
Qed.
End roundtrip.

(** ** Concrete forms *)
Import Demo.

Definition sample_forms : list Form :=
  [FList [FSymbol "def"; FSymbol "x"; FVector [FNumber (-42); FString "aλ\b"; FCharacter 10; FCharacter 955]];
   FMap [(FKeyword "k/v", FSet [FNil; FBool true]); (FSymbol "-", FRegex "\d+")];
   FTagged "math" (FVector [FBigInteger (2 ^ 70)])].

Lemma display_read_roundtrip_witness :
  sample_forms ≠ [] ∧ Forall (λ f, readable f = true) sample_forms ∧
  ∃ ts, display_all display sample_forms = Some ts ∧ parse_forms (join_spaces ts) = Some (Ok sample_forms).
Proof.
  assert (Forall (λ f, readable f = true) sample_forms) as Hf by by repeat constructor.
  split; [done|]. split; [exact Hf|]. exact (display_read_roundtrip sample_forms ltac:(done) Hf).
Defined.

(** A tag is printed without a separator, so that a keyword after it becomes
    part of the tag and the tag takes the next form: [[#a :b 1]] is printed as
    [[#a:b 1]], which reads as another form. *)
Theorem tagged_keyword_misread :
  ∃ f g t,
    parse_forms (chars "[#a :b 1]") = Some (Ok [f]) ∧ display f = Some t ∧
    parse_forms t = Some (Ok [g]) ∧
    f = FVector [FTagged "a" (FKeyword "b"); FNumber 1] ∧ g = FVector [FTagged "a:b" (FNumber 1)].
Proof. do 3 eexists. split_and!; [by vm_compute|by vm_compute|by vm_compute|done|done]. Qed.

(** The character of a no-break space is read from its escape, and printed as a
    text that is not read. *)
Theorem space_character_unreadable :
  parse_forms (chars "\u00a0") = Some (Ok [FCharacter 160]) ∧
  display (FCharacter 160) = Some [92; 160]%N ∧
  parse_forms [92; 160]%N = Some (Err "Invalid character: \ [line 1, column 2]").
Proof. split_and!; by vm_compute. Qed.

(** [%01] and [%+1] count as the first argument, but are not rewritten to its
    name. *)
Theorem argument_spelling_unbound :
  parse_forms (chars "#(f %01 %+1)") =
    Some (Ok [FList [FSymbol "fn"; FVector [FSymbol "__reader_fn_0_1"];
                     FList [FSymbol "f"; FSymbol "__reader_fn_0_01"; FSymbol "__reader_fn_0_+1"]]]).
Proof. by vm_compute. Qed.

(** Two spellings of the first argument are distinct keys when the map is read
    and one key after the rewriting. *)
Theorem rewritten_keys_collide :
  parse_forms (chars "#(f {% 1 %1 2})") =
    Some (Ok [FList [FSymbol "fn"; FVector [FSymbol "__reader_fn_0_1"];
                     FList [FSymbol "f"; FMap [(FSymbol "__reader_fn_0_1", FNumber 1);
                                               (FSymbol "__reader_fn_0_1", FNumber 2)]]]]).
Proof. by vm_compute. Qed.

(** A discarded form cannot follow a prefix: the text after it is reported
    missing. *)
Theorem stacked_discard_rejected :
  parse_forms (chars "#_ #_ a b") = Some (Err "EOF after #_ [line 1, column 8]").
Proof. by vm_compute. Qed.
