(* ===== verification/DefinitionForms.v ===== *)
(** * Forms of definitions

    [core/form.rs] under [src/core/rust/src]: Var metadata out of forms, the
    metadata a definition gathers from its name, doc string, attribute map and
    parameters, and the name a definition binds. A keyword the name of which is
    invalid makes [Keyword::from] panic. Messages leave out debug renderings of
    forms. *)
From S2P Require Import Prelude Bytes Text Kernel Reader.

(** ** Metadata: lang/data/metadata.rs *)
Definition metadata_values_eqb (eqb : MetadataValue → MetadataValue → bool) :
    list MetadataValue → list MetadataValue → bool :=
  fix go l k :=
    match l, k with
    | [], [] => true
    | x :: l, y :: k => eqb x y && go l k
    | _, _ => false
    end.
Definition metadata_entries_eqb (eqb : MetadataValue → MetadataValue → bool) :
    list (MetadataValue * MetadataValue) → list (MetadataValue * MetadataValue) → bool :=
  fix go l k :=
    match l, k with
    | [], [] => true
    | (x, v) :: l, (y, w) :: k => eqb x y && eqb v w && go l k
    | _, _ => false
    end.

(** The derived [PartialEq]; names compare by their text. *)
Fixpoint metadata_value_eqb (a b : MetadataValue) : bool :=
  match a, b with
  | MRuntime x, MRuntime y => (x =? y)%N
  | MNil, MNil => true
  | MBoolean x, MBoolean y => eqb x y
  | MNumber x, MNumber y => (x =? y)%Z
  | MFloat x, MFloat y => f64_eqb x y
  | MBigInteger x, MBigInteger y => (x =? y)%Z
  | MCharacter x, MCharacter y => (x =? y)%N
  | MRegex x, MRegex y => bool_decide (x = y)
  | MTagged t x, MTagged u y => bool_decide (t = u) && metadata_value_eqb x y
  | MString x, MString y => bool_decide (x = y)
  | MKeyword x, MKeyword y | MSymbol x, MSymbol y => bool_decide (full_text x = full_text y)
  | MVector x, MVector y | MList x, MList y | MSet x, MSet y =>
      metadata_values_eqb metadata_value_eqb x y
  | MMap x, MMap y => metadata_entries_eqb metadata_value_eqb x y
  | _, _ => false
  end.

(** The keyword of a name that is valid as it stands. *)
Definition keyword_key (key : string) : MetadataValue := MKeyword (split_name key).

(** [Metadata::get]: the last entry wins. *)
Definition metadata_get (m : Metadata) (key : MetadataValue) : option MetadataValue :=
  snd <$> head (filter (λ e, metadata_value_eqb e.1 key = true) (reverse m)).
Definition get_keyword (m : Metadata) (key : string) : option MetadataValue :=
  metadata_get m (keyword_key key).
Definition flag (m : Metadata) (key : string) : bool :=
  match get_keyword m key with Some (MBoolean true) => true | _ => false end.
(** [metadata.is_some_and(|value| value.flag(key))]. *)
Definition has_flag (m : option Metadata) (key : string) : bool :=
  match m with Some m => flag m key | None => false end.

(** ** Metadata from forms *)
Definition finite_float (bits : N) : result string N :=
  if is_finite bits then Ok bits else Err "non-finite number".

Definition metadata_values (value : Form → result failure MetadataValue) :
    list Form → result failure (list MetadataValue) :=
  fix go l :=
    match l with
    | [] => Ok []
    | x :: l => v ← value x; vs ← go l; Ok (v :: vs)
    end.
Definition metadata_entries (value : Form → result failure MetadataValue) :
    list (Form * Form) → result failure (list (MetadataValue * MetadataValue)) :=
  fix go l :=
    match l with
    | [] => Ok []
    | (k, x) :: l => k ← value k; v ← value x; vs ← go l; Ok ((k, v) :: vs)
    end.

Fixpoint metadata_value (form : Form) : result failure MetadataValue :=
  match form with
  | FRuntimeLiteral value => Ok (MRuntime value)
  | FNil => Ok MNil
  | FBool value => Ok (MBoolean value)
  | FNumber value => Ok (MNumber value)
  | FFloat value => bits ← map_err Failed (finite_float value); Ok (MFloat bits)
  | FBigInteger value => Ok (MBigInteger value)
  | FCharacter value => Ok (MCharacter value)
  | FRegex value => Ok (MRegex value)
  | FTagged tag value => v ← metadata_value value; Ok (MTagged tag v)
  | FMetadata _ value => metadata_value value
  | FSymbol value => Ok (MSymbol (symbol_parse value))
  | FKeyword value => k ← keyword_from value; Ok (MKeyword k)
  | FString value => Ok (MString value)
  | FVector values => vs ← metadata_values metadata_value values; Ok (MVector vs)
  | FList values => vs ← metadata_values metadata_value values; Ok (MList vs)
  | FSet values => vs ← metadata_values metadata_value values; Ok (MSet vs)
  | FMap entries => es ← metadata_entries metadata_value entries; Ok (MMap es)
  end.

Definition metadata_from_form (form : Form) : result failure Metadata :=
  v ← metadata_value form;
  match v with
  | MMap entries => Ok entries
  | _ => Err (Failed "reader metadata must be a map")
  end.

Definition merge_metadata (existing overlay : option Metadata) : option Metadata :=
  match existing, overlay with
  | None, None => None
  | Some metadata, None | None, Some metadata => Some metadata
  | Some existing, Some overlay =>
      Some (foldl (λ entries e,
              filter (λ c, metadata_value_eqb c.1 e.1 = false) entries ++ [e]) existing overlay)
  end.

Definition assoc_metadata (metadata : option Metadata) (key : string) (value : MetadataValue) :
    option Metadata :=
  merge_metadata metadata (Some [(keyword_key key, value)]).

(** ** Inline targets *)
Definition symbol_name (form : Form) : option string :=
  match form_without_metadata form with FSymbol name => Some name | _ => None end.

Definition clause_target (params : Form) (body : list Form) : option string :=
  match body with
  | [body] =>
      match form_without_metadata params, form_without_metadata body with
      | FVector params, FList call =>
          parameter_names ← mapM symbol_name params;
          match parameter_names with
          | ["&"; rest] =>
              match call with
              | [FSymbol apply; FSymbol target; FSymbol argument] =>
                  if bool_decide (apply = "apply") && bool_decide (argument = rest) then Some target
                  else None
              | _ => None
              end
          | _ =>
              match call with
              | FSymbol target :: arguments =>
                  arguments ← mapM symbol_name arguments;
                  if decide (arguments = parameter_names) then Some target else None
              | _ => None
              end
          end
      | _, _ => None
      end
  | _ => None
  end.

Fixpoint clauses_target (target : option string) (forms : list Form) : option string :=
  match forms with
  | [] => target
  | clause :: forms =>
      match form_without_metadata clause with
      | FList (params :: body) =>
          candidate ← clause_target params body;
          match target with
          | Some value =>
              if decide (value = candidate) then clauses_target (Some candidate) forms else None
          | None => clauses_target (Some candidate) forms
          end
      | _ => None
      end
  end.

Definition is_vector (form : Form) : bool :=
  match form_without_metadata form with FVector _ => true | _ => false end.

Definition inline_forward_target (forms : list Form) : option string :=
  match forms with
  | params :: body =>
      if is_vector params then clause_target params body else clauses_target None forms
  | [] => None
  end.

(** ** Definitions *)
Definition clause_arglist (clause : Form) : result failure MetadataValue :=
  match form_without_metadata clause with
  | FList (params :: _) => metadata_value (form_without_metadata params)
  | _ => Err (Failed "function arity must be a list beginning with parameters")
  end.

Definition definition_metadata (metadata : option Metadata) (forms : list Form)
    (private macro_form : bool) : result failure (option Metadata * list Form) :=
  let '(metadata, rest) :=
    match forms with
    | first :: others =>
        match form_without_metadata first with
        | FString doc => (assoc_metadata metadata "doc" (MString doc), others)
        | _ => (metadata, forms)
        end
    | [] => (metadata, forms)
    end in
  '(metadata, rest) ←
    match rest with
    | first :: others =>
        match form_without_metadata first with
        | FMap entries =>
            overlay ← metadata_from_form (FMap entries);
            Ok (merge_metadata metadata (Some overlay), others)
        | _ => Ok (metadata, rest)
        end
    | [] => Ok (metadata, rest)
    end;
  match rest with
  | [] => Ok (metadata, rest)
  | first :: _ =>
      arglists ←
        (if is_vector first then v ← metadata_value (form_without_metadata first); Ok [v]
         else mapM clause_arglist rest);
      let metadata := assoc_metadata metadata "arglists" (MVector arglists) in
      let metadata :=
        if has_flag metadata "inline" then
          match inline_forward_target rest with
          | Some target =>
              assoc_metadata metadata "inline-target" (MSymbol (symbol_parse target))
          | None => metadata
          end
        else metadata in
      let metadata :=
        if private then assoc_metadata metadata "private" (MBoolean true) else metadata in
      let metadata :=
        if macro_form then assoc_metadata metadata "macro" (MBoolean true) else metadata in
      Ok (metadata, rest)
  end.

Definition schema_var_reference (metadata : option Metadata) : option Symbol :=
  metadata ← metadata;
  reference ← get_keyword metadata "schema";
  match reference with
  | MList [MSymbol operator; MSymbol target] =>
      if negb (is_some (namespace_part operator)) && bool_decide (name_part operator = "var")
      then Some target else None
  | _ => None
  end.

Definition binding_symbol (form : Form) (context : string) :
    result failure (string * option Metadata) :=
  match form with
  | FSymbol name => Ok (name, None)
  | FMetadata metadata (FSymbol name) =>
      m ← metadata_from_form metadata; Ok (name, Some m)
  | _ => Err (Failed (context +:+ " must be a symbol"))
  end.
