(* ===== verification/Destructure.v ===== *)
(** * Destructuring

    [vm/compiler/destructure.rs] under [src/core/rust/src]: binding patterns,
    [binding] and [letfn] are rewritten to forms whose bindings are symbols. The
    counter of temporaries is threaded as the state; an index out of range is a
    panic. *)
From S2P Require Import Prelude Bytes Text Kernel.

Abbreviation expansion := (prog N failure).

(** ** Building forms *)
Definition list_form (operator : string) (arguments : list Form) : Form :=
  FList (FSymbol operator :: arguments).
Definition call (operator : string) (arguments : list Form) : Form := list_form operator arguments.

Definition pattern (form : Form) : bool :=
  match form with FVector _ | FMap _ => true | _ => false end.

Definition is_symbol (form : Form) (text : string) : bool :=
  match form with FSymbol name => bool_decide (name = text) | _ => false end.
Definition is_keyword (form : Form) (text : string) : bool :=
  match form with FKeyword name => bool_decide (name = text) | _ => false end.

(** [next] is a [u64]; incrementing past its maximum is an overflow. *)
Definition temporary : expansion string := λ next,
  if (next =? U64_MAX)%N then (Err (Panicked "attempt to add with overflow"), next)
  else (Ok ("__hbc_destructure_" +:+ utf8 (decimal next)), (next + 1)%N).

Definition lookup_form (source key : Form) (default : option Form) : Form :=
  call "std.protocol.ilookup.ILookup/lookup"
    ([source; key] ++ match default with Some d => [d] | None => [] end).

Definition default_for (defaults : option Form) (name : string) : option Form :=
  match defaults with
  | Some (FMap entries) =>
      snd <$> head (filter (λ e, is_symbol e.1 name = true) entries)
  | _ => None
  end.

(** The symbol that names a value: the value, or a temporary bound to it. *)
Definition ensure_symbol (value : Form) : expansion (Form * list Form) :=
  match value with
  | FSymbol _ => mret (value, [])
  | _ => name ← temporary; mret (FSymbol name, [FSymbol name; value])
  end.

(** The lookups of [:keys], [:strs] and [:syms]. *)
Definition lookup_key (name symbol : string) : Form :=
  if decide (name = "keys") then FKeyword symbol
  else if decide (name = "strs") then FString symbol
  else list_form "quote" [FSymbol symbol].

Definition bind_names (source : Form) (defaults : option Form) (name : string) :
    list Form → expansion (list Form) :=
  fix go l :=
    match l with
    | [] => mret []
    | FSymbol symbol :: l =>
        rest ← go l;
        mret (FSymbol symbol ::
              lookup_form source (lookup_key name symbol) (default_for defaults symbol) :: rest)
    | _ :: _ => fail (Failed (":" +:+ name +:+ " destructuring expects symbols"))
    end.

Definition is_names_key (name : string) : bool :=
  bool_decide (name = "keys") || bool_decide (name = "strs") || bool_decide (name = "syms").

(** [bind] over a recursive occurrence of itself: the names and values it
    pushes to [output], in order. *)
Section bind.
Variable bind : Form → Form → expansion (list Form).

(** The loop of [bind_vector] from [index]; [items] is what is left from
    [cursor]. *)
Definition bind_items (source : Form) : Z → list Form → expansion (list Form) :=
  fix go index items :=
    match items with
    | [] => mret []
    | item :: items =>
        if is_symbol item "&" then
          match items with
          | [] => fail (Failed "vector & requires a binding")
          | rest :: items =>
              out ← bind rest (call "std.native.Base/vec"
                       [call "std.native.Iter/iter-drop" [FNumber index; source]]);
              tail ← go index items; mret (out ++ tail)
          end
        else if is_keyword item "as" then
          match items with
          | [] => fail (Failed "vector :as requires a binding")
          | alias :: items => out ← bind alias source; tail ← go index items; mret (out ++ tail)
          end
        else
          out ← bind item (lookup_form source (FNumber index) None);
          tail ← go (index + 1)%Z items; mret (out ++ tail)
    end.

Definition bind_entry (source : Form) (defaults : option Form) (binding key : Form) :
    expansion (list Form) :=
  match binding with
  | FKeyword name =>
      if decide (name = "as") then bind key source
      else if is_names_key name then
        match key with
        | FVector names => bind_names source defaults name names
        | _ => fail (Failed (":" +:+ name +:+ " destructuring expects a vector"))
        end
      else if decide (name = "or") then mret []
      else bind binding (lookup_form source key None)
  | _ => bind binding (lookup_form source key None)
  end.

Definition bind_entries (source : Form) (defaults : option Form) :
    list (Form * Form) → expansion (list Form) :=
  fix go entries :=
    match entries with
    | [] => mret []
    | (binding, key) :: entries =>
        out ← bind_entry source defaults binding key; tail ← go entries; mret (out ++ tail)
    end.
End bind.

(** [bind], [bind_vector] and [bind_map]. *)
Fixpoint bind (pattern value : Form) : expansion (list Form) :=
  match pattern with
  | FSymbol _ => mret [pattern; value]
  | FVector items =>
      '(source, out) ← ensure_symbol value;
      tail ← bind_items bind source 0 items;
      mret (out ++ tail)
  | FMap entries =>
      '(source, out) ← ensure_symbol value;
      let defaults := snd <$> head (filter (λ e, is_keyword e.1 "or" = true) entries) in
      tail ← bind_entries bind source defaults entries;
      mret (out ++ tail)
  | _ => fail (Failed "destructuring pattern must be a symbol, vector, or map")
  end.

(** ** Parameters *)
(** The loop of [expand_params]: the raw parameters, the bindings of the
    patterns, and whether the last item was the rest marker. *)
Fixpoint split_params (rest : bool) (params : list Form) : expansion (list Form * list Form * bool) :=
  match params with
  | [] => mret ([], [], rest)
  | param :: params =>
      if is_symbol param "&" then
        '(raw, bindings, rest) ← split_params true params; mret (param :: raw, bindings, rest)
      else if negb (pattern param) then
        '(raw, bindings, rest) ← split_params false params; mret (param :: raw, bindings, rest)
      else
        name ← temporary;
        out ← bind param (FSymbol name);
        '(raw, bindings, rest) ← split_params false params;
        mret (FSymbol name :: raw, out ++ bindings, rest)
  end.

Definition expand_params (params : Form) (body : list Form) :
    expansion (option (Form * list Form)) :=
  match params with
  | FVector params =>
      if negb (existsb pattern params) then mret None else
      '(raw, bindings, rest) ← split_params false params;
      if rest : bool then fail (Failed "the & rest marker requires a following parameter")
      else mret (Some (FVector raw, [list_form "let" (FVector bindings :: body)]))
  | _ => mret None
  end.

(** The clauses of a function or definition; [None] when one is not a list.
    [&parts[0]] panics on an empty list. *)
Fixpoint expand_clauses (changed : bool) (clauses : list Form) :
    expansion (option (bool * list Form)) :=
  match clauses with
  | [] => mret (Some (changed, []))
  | clause :: clauses =>
      match clause with
      | FList [] => fail (Panicked "index out of bounds")
      | FList (params :: body) =>
          expanded ← expand_params params body;
          let '(changed, clause) :=
            match expanded with
            | Some (params, body) => (true, FList (params :: body))
            | None => (changed, clause)
            end in
          rest ← expand_clauses changed clauses;
          mret ((λ r, (r.1, clause :: r.2)) <$> rest)
      | _ => mret None
      end
  end.

Definition expand_fn (items : list Form) : expansion (option Form) :=
  match items with
  | operator :: FVector params :: body =>
      expanded ← expand_params (FVector params) body;
      mret ((λ p, list_form "fn" (p.1 :: p.2)) <$> expanded)
  | _ =>
      expanded ← expand_clauses false (tail items);
      mret (match expanded with
            | Some (true, clauses) => Some (list_form "fn" clauses)
            | _ => None
            end)
  end.

(** The items before the first vector or list, and the rest. *)
Fixpoint split_definition (items : list Form) : list Form * list Form :=
  match items with
  | [] => ([], [])
  | item :: items =>
      match item with
      | FVector _ | FList _ => ([], item :: items)
      | _ => let '(before, rest) := split_definition items in (item :: before, rest)
      end
  end.

Definition expand_definition (items : list Form) : expansion (option Form) :=
  let '(before, rest) := split_definition items in
  match rest with
  | [] => mret None
  | FVector params :: body =>
      expanded ← expand_params (FVector params) body;
      mret ((λ p, FList (before ++ p.1 :: p.2)) <$> expanded)
  | _ =>
      expanded ← expand_clauses false rest;
      mret (match expanded with
            | Some (true, clauses) => Some (FList (before ++ clauses))
            | _ => None
            end)
  end.

(** ** Bindings *)
(** [chunks(2)] of a slice of even length. *)
Fixpoint pairs_of (l : list Form) : list (Form * Form) :=
  match l with
  | name :: value :: l => (name, value) :: pairs_of l
  | _ => []
  end.
Definition even_length (l : list Form) : bool := length l mod 2 =? 0.

Fixpoint bind_pairs (pairs : list (Form * Form)) : expansion (list Form) :=
  match pairs with
  | [] => mret []
  | (name, value) :: pairs =>
      out ← bind name value; tail ← bind_pairs pairs; mret (out ++ tail)
  end.

Definition expand_let (items : list Form) : expansion (option Form) :=
  match items with
  | operator :: FVector bindings :: body =>
      if negb (even_length bindings) || negb (existsb (λ p, pattern p.1) (pairs_of bindings))
      then mret None
      else output ← bind_pairs (pairs_of bindings);
           mret (Some (list_form "let" (FVector output :: body)))
  | _ => mret None
  end.

Fixpoint loop_pairs (pairs : list (Form * Form)) : expansion (list Form * list Form) :=
  match pairs with
  | [] => mret ([], [])
  | (FSymbol name, value) :: pairs =>
      '(raw, inner) ← loop_pairs pairs; mret (FSymbol name :: value :: raw, inner)
  | (name, value) :: pairs =>
      t ← temporary;
      out ← bind name (FSymbol t);
      '(raw, inner) ← loop_pairs pairs;
      mret (FSymbol t :: value :: raw, out ++ inner)
  end.

Definition expand_loop (items : list Form) : expansion (option Form) :=
  match items with
  | operator :: FVector bindings :: body =>
      if negb (even_length bindings) || negb (existsb (λ p, pattern p.1) (pairs_of bindings))
      then mret None
      else
        '(raw, inner) ← loop_pairs (pairs_of bindings);
        mret (Some (list_form "loop" (FVector raw ::
          match inner with
          | [] => body
          | _ => [list_form "let" (FVector inner :: body)]
          end)))
  | _ => mret None
  end.

(** ** Dynamic bindings *)
(** The temporaries with their values, the binds, and the unbinds in the
    order of the bindings. *)
Fixpoint binding_parts (pairs : list (Form * Form)) :
    expansion (list Form * list Form * list Form) :=
  match pairs with
  | [] => mret ([], [], [])
  | (FSymbol name, value) :: pairs =>
      t ← temporary;
      '(temporaries, binds, unbinds) ← binding_parts pairs;
      mret (FSymbol t :: value :: temporaries,
            call "__dynamic-bind" [FSymbol name; FSymbol t] :: binds,
            call "__dynamic-unbind" [FSymbol name] :: unbinds)
  | _ :: _ => fail (Failed "binding name must be a symbol")
  end.

Definition expand_binding (items : list Form) : expansion (option Form) :=
  match items with
  | operator :: FVector bindings :: body =>
      if negb (even_length bindings)
      then fail (Failed "binding bindings require name/value pairs") else
      '(temporaries, binds, unbinds) ← binding_parts (pairs_of bindings);
      mret (Some (list_form "let" [FVector temporaries;
        list_form "try" [list_form "do" (binds ++ body);
                         list_form "finally" [list_form "do" (reverse unbinds)]]]))
  | _ => mret None
  end.

(** ** Local functions *)
Fixpoint replace_letfn_refs (names : list (string * string)) (form : Form) : Form :=
  match form with
  | FSymbol symbol =>
      match head (filter (λ e, e.1 = symbol) names) with
      | Some (_, cell) => call "std.protocol.ideref.IDeref/deref" [FSymbol cell]
      | None => form
      end
  | FList items =>
      if match items with
         | FSymbol name :: _ => bool_decide (name = "quote") || bool_decide (name = "syntax-quote")
         | _ => false
         end
      then form else FList (replace_letfn_refs names <$> items)
  | FVector items => FVector (replace_letfn_refs names <$> items)
  | FSet items => FSet (replace_letfn_refs names <$> items)
  | FMap entries =>
      FMap ((λ '(key, value), (replace_letfn_refs names key, replace_letfn_refs names value)) <$> entries)
  | FMetadata metadata value =>
      FMetadata (replace_letfn_refs names metadata) (replace_letfn_refs names value)
  | FTagged tag value => FTagged tag (replace_letfn_refs names value)
  | _ => form
  end.

(** The first loop of [expand_letfn]: each definition's name, cell and parts
    after the name. *)
Fixpoint letfn_cells (definitions : list Form) : expansion (list (string * string * list Form)) :=
  match definitions with
  | [] => mret []
  | FList (FSymbol name :: parts) :: definitions =>
      if length parts <? 2 then fail (Failed "letfn definition requires parameters and a body") else
      cell ← temporary;
      rest ← letfn_cells definitions;
      mret ((name, cell, parts) :: rest)
  | FList _ :: _ => fail (Failed "letfn definition requires a name")
  | _ :: _ => fail (Failed "letfn definitions must be lists")
  end.

(** The cell of a name: the first definition's. *)
Definition cell_of (names : list (string * string)) (name : string) : string :=
  match head (filter (λ e, e.1 = name) names) with Some (_, cell) => cell | None => name end.

Definition expand_letfn (items : list Form) : expansion (option Form) :=
  match items with
  | operator :: FVector definitions :: body =>
      parsed ← letfn_cells definitions;
      let names := (λ d, d.1) <$> parsed in
      let cells := concat ((λ d, [FSymbol d.1.2; call "std.native.Base/atom" [FNil]]) <$> parsed) in
      let initialization :=
        (λ d, call "std.protocol.ireset.IReset/reset"
                [FSymbol (cell_of names d.1.1);
                 list_form "fn" (replace_letfn_refs names <$> d.2)]) <$> parsed in
      let aliases :=
        concat ((λ e, [FSymbol e.1; call "std.protocol.ideref.IDeref/deref" [FSymbol e.2]]) <$> names) in
      mret (Some (list_form "let" [FVector cells;
        list_form "do" (initialization ++ [list_form "let" (FVector aliases :: body)])]))
  | _ => mret None
  end.

Definition expand (form : Form) : expansion (option Form) :=
  match form with
  | FList (FSymbol operator :: arguments) =>
      let items := FSymbol operator :: arguments in
      if decide (operator = "let") then expand_let items
      else if decide (operator = "loop") then expand_loop items
      else if decide (operator = "fn") then expand_fn items
      else if decide (operator = "defn" ∨ operator = "defmacro") then expand_definition items
      else if decide (operator = "binding") then expand_binding items
      else if decide (operator = "letfn") then expand_letfn items
      else mret None
  | _ => mret None
  end.
