(* ===== verification/Vector.v ===== *)
(** * The persistent vector

    [src/core/rust/src/lang/data/vector.rs]: a tree of 32-way branches over
    32-element leaves with a separate tail, its persistent and its transient
    operations. Levels are counted in steps of [NODE_SHIFT], so a node at
    [level = depth * NODE_SHIFT] is handled at [depth]. [None] is a panic; an
    operation that returns [Option] has an option inside. An edit token decides
    whether a node is changed in place or copied; whether a node is also
    uniquely owned is an oracle, [unique]. *)
From S2P Require Import Prelude Kernel.

Definition NODE_SHIFT : nat := 5.
Definition NODE_WIDTH : nat := Nat.shiftl 1 NODE_SHIFT.
Definition NODE_MASK : nat := NODE_WIDTH - 1.
Definition NOEDIT : N := 0.

Definition tail_offset (size : nat) : nat :=
  if size <? NODE_WIDTH then 0
  else Nat.shiftl (Nat.shiftr (size - 1) NODE_SHIFT) NODE_SHIFT.

(** [(index >> level) & NODE_MASK]. *)
Definition slot_at (index depth : nat) : nat :=
  Nat.land (Nat.shiftr index (depth * NODE_SHIFT)) NODE_MASK.

Section vector.
Context {E : Type}.

Inductive Node :=
| Branch (token : N) (children : list (option Node))
| Leaf (token : N) (values : list E).

Definition empty_branch : Node := Branch NOEDIT (replicate NODE_WIDTH None).
Definition editable_empty_branch (token : N) : Node := Branch token (replicate NODE_WIDTH None).
Definition node_token (node : Node) : N :=
  match node with Branch token _ | Leaf token _ => token end.
Definition with_token (node : Node) (token : N) : Node :=
  match node with Branch _ children => Branch token children | Leaf _ values => Leaf token values end.

(** [children_mut]: [None] is the panic on a leaf. *)
Definition children_of (node : Node) : option (list (option Node)) :=
  match node with Branch _ children => Some children | Leaf _ _ => None end.
Definition values_of (node : Node) : option (list E) :=
  match node with Leaf _ values => Some values | Branch _ _ => None end.

(** [Rc::strong_count(node) == 1]. *)
Variable unique : Node → bool.

Definition ensure_editable (node : Node) (token : N) : Node :=
  if (node_token node =? token)%N && unique node then node else with_token node token.

Fixpoint new_path (token : N) (depth : nat) (node : Node) : Node :=
  match depth with
  | O => node
  | S depth => Branch token (Some (new_path token depth node) :: replicate (NODE_WIDTH - 1) None)
  end.

Fixpoint push_tail (parent : Node) (depth size : nat) (tail : Node) : option Node :=
  match depth with
  | O => None
  | S below =>
      children ← children_of parent;
      let index := slot_at (size - 1) depth in
      slot ← children !! index;
      child ← match below with
              | O => Some tail
              | S _ => match slot with
                       | Some child => push_tail child below size tail
                       | None => Some (new_path NOEDIT below tail)
                       end
              end;
      Some (Branch NOEDIT (<[index := Some child]> children))
  end.

Fixpoint push_tail_editable (token : N) (parent : Node) (depth size : nat) (tail : Node) :
    option Node :=
  match depth with
  | O => None
  | S below =>
      let parent := ensure_editable parent token in
      let index := slot_at (size - 1) depth in
      children ← children_of parent;
      slot ← children !! index;
      child ← match below with
              | O => Some tail
              | S _ => match slot with
                       | Some existing => push_tail_editable token existing below size tail
                       | None => Some (new_path token below tail)
                       end
              end;
      Some (Branch (node_token parent) (<[index := Some child]> children))
  end.

Fixpoint assoc_node (node : Node) (depth index : nat) (value : E) : option Node :=
  match depth with
  | O =>
      values ← values_of node;
      values !! Nat.land index NODE_MASK;;
      Some (Leaf NOEDIT (<[Nat.land index NODE_MASK := value]> values))
  | S below =>
      children ← children_of node;
      slot ← children !! slot_at index depth;
      child ← slot;
      child ← assoc_node child below index value;
      Some (Branch NOEDIT (<[slot_at index depth := Some child]> children))
  end.

Fixpoint assoc_editable (token : N) (node : Node) (depth index : nat) (value : E) : option Node :=
  let node := ensure_editable node token in
  match depth with
  | O =>
      values ← values_of node;
      values !! Nat.land index NODE_MASK;;
      Some (Leaf (node_token node) (<[Nat.land index NODE_MASK := value]> values))
  | S below =>
      children ← children_of node;
      slot ← children !! slot_at index depth;
      child ← slot;
      child ← assoc_editable token child below index value;
      Some (Branch (node_token node) (<[slot_at index depth := Some child]> children))
  end.

(** The inner [None] is a subtree that became empty. *)
Fixpoint pop_tail (node : Node) (depth size : nat) : option (option Node) :=
  match depth with
  | O => None
  | S below =>
      children ← children_of node;
      let index := slot_at (size - 2) depth in
      match below with
      | S _ =>
          slot ← children !! index;
          child ← slot;
          child ← pop_tail child below size;
          if negb (is_some child) && (index =? 0) then Some None
          else Some (Some (Branch NOEDIT (<[index := child]> children)))
      | O =>
          if index =? 0 then Some None
          else children !! index;; Some (Some (Branch NOEDIT (<[index := None]> children)))
      end
  end.

Fixpoint pop_tail_editable (token : N) (node : Node) (depth size : nat) : option (option Node) :=
  match depth with
  | O => None
  | S below =>
      let index := slot_at (size - 2) depth in
      if (below =? 0) && (index =? 0) then Some None
      else
        let node := ensure_editable node token in
        children ← children_of node;
        slot ← children !! index;
        match below with
        | S _ =>
            child ← slot;
            child ← pop_tail_editable token child below size;
            if negb (is_some child) && (index =? 0) then Some None
            else Some (Some (Branch (node_token node) (<[index := child]> children)))
        | O => Some (Some (Branch (node_token node) (<[index := None]> children)))
        end
  end.

(** ** The persistent vector *)
Record Standard := mkStandard {
  metadata : option Metadata;
  size : nat;
  shift : nat;
  root : Node;
  tail : list E;
}.

Definition depth_of (shift : nat) : nat := shift / NODE_SHIFT.

Definition standard_new : Standard := mkStandard None 0 NODE_SHIFT empty_branch [].

(** The walk of [array_for] and [leaf_values] to a leaf. *)
Fixpoint leaf_values (node : Node) (depth index : nat) : option (list E) :=
  match depth with
  | O => values_of node
  | S below =>
      children ← children_of node;
      slot ← children !! slot_at index depth;
      child ← slot;
      leaf_values child below index
  end.

Definition array_for (v : Standard) (index : nat) : option (list E) :=
  if size v <=? index then None
  else if tail_offset (size v) <=? index then Some (tail v)
  else leaf_values (root v) (depth_of (shift v)) index.

Definition get (v : Standard) (index : nat) : option E :=
  values ← array_for v index; values !! Nat.land index NODE_MASK.

(** A root over the old root and a path to the full tail. *)
Definition grown_root (token : N) (root : Node) (shift : nat) (tail_node : Node) : Node :=
  Branch token (Some root :: Some (new_path token (depth_of shift) tail_node)
                :: replicate (NODE_WIDTH - 2) None).

Definition root_overflows (size shift : nat) : bool :=
  Nat.shiftl 1 shift <? Nat.shiftr size NODE_SHIFT.

Definition push_last (v : Standard) (value : E) : option Standard :=
  if size v - tail_offset (size v) <? NODE_WIDTH then
    Some (mkStandard (metadata v) (S (size v)) (shift v) (root v) (tail v ++ [value]))
  else
    let tail_node := Leaf NOEDIT (tail v) in
    if root_overflows (size v) (shift v) then
      Some (mkStandard (metadata v) (S (size v)) (shift v + NODE_SHIFT)
              (grown_root NOEDIT (root v) (shift v) tail_node) [value])
    else
      root ← push_tail (root v) (depth_of (shift v)) (size v) tail_node;
      Some (mkStandard (metadata v) (S (size v)) (shift v) root [value]).

Definition push_last_owned (v : Standard) (value : E) : option Standard :=
  if size v - tail_offset (size v) <? NODE_WIDTH then
    Some (mkStandard (metadata v) (S (size v)) (shift v) (root v) (tail v ++ [value]))
  else
    let tail_node := Leaf NOEDIT (tail v) in
    if root_overflows (size v) (shift v) then
      Some (mkStandard (metadata v) (S (size v)) (shift v + NODE_SHIFT)
              (grown_root NOEDIT (root v) (shift v) tail_node) [value])
    else
      root ← push_tail_editable NOEDIT (root v) (depth_of (shift v)) (size v) tail_node;
      Some (mkStandard (metadata v) (S (size v)) (shift v) root [value]).

Definition with_root (root : Node) (v : Standard) : Standard :=
  mkStandard (metadata v) (size v) (shift v) root (tail v).
Definition with_tail (tail : list E) (v : Standard) : Standard :=
  mkStandard (metadata v) (size v) (shift v) (root v) tail.

Definition assoc_value (v : Standard) (index : nat) (value : E) : option (option Standard) :=
  if index =? size v then Some <$> push_last v value
  else if size v <=? index then Some None
  else if tail_offset (size v) <=? index then
    tail v !! Nat.land index NODE_MASK;;
    Some (Some (with_tail (<[Nat.land index NODE_MASK := value]> (tail v)) v))
  else
    root ← assoc_node (root v) (depth_of (shift v)) index value;
    Some (Some (with_root root v)).

Definition assoc_value_owned (v : Standard) (index : nat) (value : E) : option (option Standard) :=
  if index =? size v then Some <$> push_last_owned v value
  else if size v <=? index then Some None
  else if tail_offset (size v) <=? index then
    tail v !! Nat.land index NODE_MASK;;
    Some (Some (with_tail (<[Nat.land index NODE_MASK := value]> (tail v)) v))
  else
    root ← assoc_editable NOEDIT (root v) (depth_of (shift v)) index value;
    Some (Some (with_root root v)).

(** The first slot of a root whose second one is empty, one level down. *)
Definition collapse (root : Node) (shift : nat) : option (Node * nat) :=
  if NODE_SHIFT <? shift then
    match root with
    | Leaf _ _ => Some (root, shift)
    | Branch _ children =>
        second ← children !! 1;
        match second with
        | None => first ← children !! 0; child ← first; Some (child, shift - NODE_SHIFT)
        | Some _ => Some (root, shift)
        end
    end
  else Some (root, shift).

Definition pop_last_value (v : Standard) : option (option Standard) :=
  if size v =? 0 then Some None
  else if size v =? 1 then
    Some (Some (mkStandard (metadata v) 0 NODE_SHIFT empty_branch []))
  else if 1 <? size v - tail_offset (size v) then
    Some (Some (mkStandard (metadata v) (size v - 1) (shift v) (root v)
                  (take (pred (length (tail v))) (tail v))))
  else
    new_tail ← array_for v (size v - 2);
    popped ← pop_tail (root v) (depth_of (shift v)) (size v);
    collapsed ← collapse (default empty_branch popped) (shift v);
    Some (Some (mkStandard (metadata v) (size v - 1) collapsed.2 collapsed.1 new_tail)).

(** *** Iteration

    [Iter] walks a chunk at a time; [chunk = None] ends it. *)
Record Iter := mkIter {
  iter_index : nat;
  iter_end : nat;
  iter_base : nat;
  iter_chunk : option (list E);
}.

Definition ranged_iter (v : Standard) (start end_ : nat) : Iter :=
  mkIter start end_ (start - start mod NODE_WIDTH)
    (if start <? size v then array_for v start else None).

Definition iter (v : Standard) : Iter := ranged_iter v 0 (size v).

(** [Iter::next]: the outer [None] is a panic. *)
Definition iter_next (v : Standard) (it : Iter) : option (option E * Iter) :=
  if iter_end it <=? iter_index it then Some (None, it)
  else
    let it := if iter_index it - iter_base it =? NODE_WIDTH then
      mkIter (iter_index it) (iter_end it) (iter_base it + NODE_WIDTH) (array_for v (iter_index it))
    else it in
    match iter_chunk it with
    | None => Some (None, it)
    | Some chunk =>
        value ← chunk !! Nat.land (iter_index it) NODE_MASK;
        Some (Some value, mkIter (S (iter_index it)) (iter_end it) (iter_base it) (iter_chunk it))
    end.

(** Collects at most [fuel] items. *)
Fixpoint iter_collect (v : Standard) (fuel : nat) (it : Iter) : option (list E) :=
  match fuel with
  | O => Some []
  | S fuel =>
      item ← iter_next v it;
      match item with
      | (None, _) => Some []
      | (Some value, it) => values ← iter_collect v fuel it; Some (value :: values)
      end
  end.

(** *** Views *)
Record SubView := mkSubView { view_vector : Standard; view_start : nat; view_end : nat }.

Definition view_len (s : SubView) : nat := view_end s - view_start s.

Definition subview (v : Standard) (start end_ : nat) : option SubView :=
  if (end_ <? start) || (size v <? end_) then None else Some (mkSubView v start end_).

Definition view_get (s : SubView) (index : nat) : option E :=
  if view_len s <=? index then None else get (view_vector s) (view_start s + index).

Definition view_push_last (s : SubView) (value : E) : option SubView :=
  assigned ← assoc_value (view_vector s) (view_end s) value;
  vector ← assigned;
  Some (mkSubView vector (view_start s) (S (view_end s))).

Definition view_pop_last_value (s : SubView) : option SubView :=
  if view_end s =? view_start s then None
  else Some (mkSubView (view_vector s) (view_start s) (view_end s - 1)).

Definition view_assoc_value (s : SubView) (index : nat) (value : E) : option (option SubView) :=
  if view_len s <? index then Some None
  else if index =? view_len s then Some <$> view_push_last s value
  else
    assigned ← assoc_value (view_vector s) (view_start s + index) value;
    Some (vector ← assigned; Some (mkSubView vector (view_start s) (view_end s))).

Definition view_subview (s : SubView) (start end_ : nat) : option SubView :=
  if (end_ <? start) || (view_len s <? end_) then None
  else Some (mkSubView (view_vector s) (view_start s + start) (view_start s + end_)).

(** ** The transient vector *)
Record Mutable := mkMutable {
  editable : bool;
  token : N;
  m_size : nat;
  m_shift : nat;
  m_root : Node;
  m_tail : list E;
  m_metadata : option Metadata;
}.

(** [Mutable::new] with a fresh token. *)
Definition mutable_new (token : N) : Mutable :=
  mkMutable true token 0 NODE_SHIFT (editable_empty_branch token) [] None.

Definition from_standard (token : N) (v : Standard) : Mutable :=
  mkMutable true token (size v) (shift v) (with_token (root v) token) (tail v) (metadata v).

Definition check_editable (m : Mutable) : option () := if editable m then Some tt else None.

Definition nth_ref (m : Mutable) (index : nat) : option E :=
  if m_size m <=? index then None
  else if tail_offset (m_size m) <=? index then m_tail m !! Nat.land index NODE_MASK
  else values ← leaf_values (m_root m) (depth_of (m_shift m)) index;
       values !! Nat.land index NODE_MASK.

Definition mutable_get (m : Mutable) (index : nat) : option (option E) :=
  check_editable m;; Some (nth_ref m index).

Definition mutable_push_last (m : Mutable) (value : E) : option Mutable :=
  check_editable m;;
  if m_size m - tail_offset (m_size m) <? NODE_WIDTH then
    Some (mkMutable (editable m) (token m) (S (m_size m)) (m_shift m) (m_root m)
            (m_tail m ++ [value]) (m_metadata m))
  else
    let tail_node := Leaf (token m) (m_tail m) in
    if root_overflows (m_size m) (m_shift m) then
      Some (mkMutable (editable m) (token m) (S (m_size m)) (m_shift m + NODE_SHIFT)
              (grown_root (token m) (m_root m) (m_shift m) tail_node) [value] (m_metadata m))
    else
      root ← push_tail_editable (token m) (m_root m) (depth_of (m_shift m)) (m_size m) tail_node;
      Some (mkMutable (editable m) (token m) (S (m_size m)) (m_shift m) root [value] (m_metadata m)).

Definition mutable_assoc (m : Mutable) (index : nat) (value : E) : option Mutable :=
  check_editable m;;
  if index =? m_size m then mutable_push_last m value
  else if m_size m <=? index then None
  else if tail_offset (m_size m) <=? index then
    m_tail m !! Nat.land index NODE_MASK;;
    Some (mkMutable (editable m) (token m) (m_size m) (m_shift m) (m_root m)
            (<[Nat.land index NODE_MASK := value]> (m_tail m)) (m_metadata m))
  else
    root ← assoc_editable (token m) (m_root m) (depth_of (m_shift m)) index value;
    Some (mkMutable (editable m) (token m) (m_size m) (m_shift m) root (m_tail m) (m_metadata m)).

Definition mutable_pop_last (m : Mutable) : option (option E * Mutable) :=
  check_editable m;;
  if m_size m =? 0 then Some (None, m)
  else
    popped ← last (m_tail m);
    let rest := take (pred (length (m_tail m))) (m_tail m) in
    if m_size m =? 1 then
      Some (Some popped, mkMutable (editable m) (token m) 0 (m_shift m) (m_root m) rest (m_metadata m))
    else if 0 <? Nat.land (m_size m - 1) NODE_MASK then
      Some (Some popped, mkMutable (editable m) (token m) (m_size m - 1) (m_shift m) (m_root m) rest
                           (m_metadata m))
    else
      new_tail ← leaf_values (m_root m) (depth_of (m_shift m)) (m_size m - 2);
      rooted ← pop_tail_editable (token m) (m_root m) (depth_of (m_shift m)) (m_size m);
      collapsed ← collapse (default (editable_empty_branch (token m)) rooted) (m_shift m);
      Some (Some popped,
            mkMutable (editable m) (token m) (m_size m - 1) collapsed.2
              (if collapsed.2 =? m_shift m then collapsed.1
               else ensure_editable collapsed.1 (token m))
              new_tail (m_metadata m)).

Definition mutable_empty (m : Mutable) : option Mutable :=
  check_editable m;;
  Some (mkMutable (editable m) (token m) 0 NODE_SHIFT (editable_empty_branch (token m)) [] (m_metadata m)).

Fixpoint mutable_extend (m : Mutable) (values : list E) : option Mutable :=
  match values with
  | [] => Some m
  | value :: values => m ← mutable_push_last m value; mutable_extend m values
  end.

(** [Mutable::from_iter]. *)
Definition mutable_from_iter (token : N) (values : list E) : option Mutable :=
  mutable_extend (mutable_new token) values.

(** Freezes the transient: the result and the transient afterwards. *)
Definition to_persistent (m : Mutable) : option (Standard * Mutable) :=
  check_editable m;;
  Some (mkStandard (m_metadata m) (m_size m) (m_shift m) (m_root m) (m_tail m),
        mkMutable false (token m) (m_size m) (m_shift m) (m_root m) [] (m_metadata m)).

Definition from_iter (token : N) (values : list E) : option Standard :=
  m ← mutable_from_iter token values; frozen ← to_persistent m; Some frozen.1.
End vector.
Arguments Node : clear implicits.
Arguments Standard : clear implicits.
Arguments Mutable : clear implicits.
Arguments SubView : clear implicits.
Arguments Iter : clear implicits.
