(* ===== verification/VectorFacts.v ===== *)
(** * The vector refines the list

    A representation invariant for the trees of [Vector] - [like] relates a
    node to the elements below it, whatever its edit tokens - and the claims
    that every operation, persistent, owned or transient, acts on the list of
    elements. *)
From S2P Require Import Prelude Kernel Vector.

(** ** Index arithmetic *)

(** The elements a node at depth [d] can hold: 32 to the power of [d + 1]. *)
Definition cap (d : nat) : nat := 32 ^ S d.

#[global] Arguments cap : simpl never.

Lemma cap_S d : cap (S d) = cap d * 32.
Proof. unfold cap. rewrite (Nat.pow_succ_r' 32 (S d)). apply Nat.mul_comm. Qed.
Lemma cap_0 : cap 0 = 32.
Proof. done. Qed.
Lemma cap_leaves d : cap d = 32 * 32 ^ d.
Proof. unfold cap. apply Nat.pow_succ_r'. Qed.
Lemma cap_ge d : 32 ≤ cap d.
Proof. rewrite cap_leaves. pose proof (Nat.pow_nonzero 32 d ltac:(lia)). nia. Qed.
Lemma cap_lt d d' : d < d' → cap d < cap d'.
Proof. intros. unfold cap. apply Nat.pow_lt_mono_r; lia. Qed.

Lemma land_mask n : Nat.land n NODE_MASK = n mod 32.
Proof. apply (Nat.land_ones n 5). Qed.

Lemma slot_at_S i d : slot_at i (S d) = (i / cap d) mod 32.
Proof.
  unfold slot_at. rewrite land_mask, Nat.shiftr_div_pow2. do 2 f_equal.
  change NODE_SHIFT with 5. rewrite Nat.mul_comm, Nat.pow_mul_r. done.
Qed.

(** An index within a node splits into the slot and the index within it. *)
Lemma split_index i d :
  ∃ k r, slot_at i (S d) = k ∧ i mod cap d = r ∧ i mod cap (S d) = k * cap d + r ∧ k < 32 ∧ r < cap d.
Proof.
  exists (slot_at i (S d)), (i mod cap d). pose proof (cap_ge d). split_and!; [done|done| | |].
  - rewrite cap_S, Nat.Div0.mod_mul_r, slot_at_S. lia.
  - rewrite slot_at_S. apply Nat.mod_upper_bound. lia.
  - apply Nat.mod_upper_bound. lia.
Qed.

Lemma tail_offset_eq n : tail_offset n = (n - 1) / 32 * 32.
Proof.
  unfold tail_offset. change NODE_WIDTH with 32. destruct (Nat.ltb_spec n 32).
  - rewrite Nat.div_small by lia. done.
  - rewrite Nat.shiftl_mul_pow2, Nat.shiftr_div_pow2. done.
Qed.

Lemma tail_offset_bounds n : tail_offset n ≤ n ∧ n ≤ tail_offset n + 32 ∧ (0 < n → tail_offset n < n).
Proof. rewrite tail_offset_eq. pose proof (Nat.div_mod_eq (n - 1) 32). pose proof (Nat.mod_upper_bound (n - 1) 32). lia. Qed.

Lemma tail_offset_divide n : (32 | tail_offset n).
Proof. rewrite tail_offset_eq. apply Nat.divide_factor_r. Qed.

(** The offset only moves when the tail is full. *)
Lemma tail_offset_S n :
  tail_offset (S n) = if n - tail_offset n <? 32 then tail_offset n else n.
Proof.
  rewrite !tail_offset_eq. replace (S n - 1) with n by lia.
  pose proof (Nat.div_mod_eq n 32). pose proof (Nat.mod_upper_bound n 32).
  pose proof (Nat.div_mod_eq (n - 1) 32). pose proof (Nat.mod_upper_bound (n - 1) 32).
  destruct (Nat.ltb_spec (n - (n - 1) / 32 * 32) 32); nia.
Qed.

Lemma tail_offset_full n : ¬ n - tail_offset n < 32 → n = tail_offset n + 32.
Proof. pose proof (tail_offset_bounds n). lia. Qed.

Lemma divide_cap d : (32 | cap d).
Proof. rewrite cap_leaves. apply Nat.divide_factor_l. Qed.

(** ** Lists in pieces *)
Section pieces.
Context {E : Type}.
Implicit Types l : list E.

Definition piece (d k : nat) l : list E := take (cap d) (drop (k * cap d) l).

Lemma length_piece d k l : length (piece d k l) = cap d `min` (length l - k * cap d).
Proof. unfold piece. by rewrite length_take, length_drop. Qed.

Lemma lookup_piece d k l i :
  piece d k l !! i = if decide (i < cap d) then l !! (k * cap d + i) else None.
Proof.
  unfold piece. case_decide.
  - rewrite lookup_take_lt by done. apply lookup_drop.
  - by rewrite lookup_take_ge by lia.
Qed.

Lemma piece_ext d k l l' :
  (∀ i, i < cap d → l !! (k * cap d + i) = l' !! (k * cap d + i)) → piece d k l = piece d k l'.
Proof.
  intros H. apply list_eq. intros i. rewrite !lookup_piece. case_decide; [by apply H|done].
Qed.

Lemma piece_all d l : length l ≤ cap d → piece d 0 l = l.
Proof. intros. unfold piece. cbn. rewrite drop_0. by apply take_ge. Qed.
End pieces.

(** ** Trees and their elements *)
Section trees.
Context {E : Type}.
Implicit Types (l : list E) (node : Node E).

(** [node], at depth [d], is the tree of the elements [l]. *)
Fixpoint like (d : nat) (node : Node E) l : Prop :=
  match d with
  | O => (∃ token, node = Leaf token l) ∧ length l = 32
  | S d =>
      ∃ token children, node = Branch token children ∧ length children = 32 ∧
        length l ≤ cap (S d) ∧
        ∀ k o, children !! k = Some o →
          match o with
          | Some child => k * cap d < length l ∧ like d child (piece d k l)
          | None => length l ≤ k * cap d
          end
  end.

Definition slot_like (d k : nat) l (o : option (Node E)) : Prop :=
  match o with
  | Some child => k * cap d < length l ∧ like d child (piece d k l)
  | None => length l ≤ k * cap d
  end.

Lemma like_children d node l :
  like (S d) node l → ∃ children, children_of node = Some children ∧ length children = 32 ∧
    length l ≤ cap (S d) ∧ ∀ k o, children !! k = Some o → slot_like d k l o.
Proof. intros (t & cs & -> & Hlen & Hl & Hk). exists cs. done. Qed.

Lemma like_branch d t children l :
  length children = 32 → length l ≤ cap (S d) →
  (∀ k o, children !! k = Some o → slot_like d k l o) → like (S d) (Branch t children) l.
Proof. intros. by exists t, children. Qed.

Lemma like_token d node token l : like d (with_token node token) l ↔ like d node l.
Proof.
  destruct d as [|d]; cbn [like]; destruct node as [t cs|t vs]; cbn [with_token].
  - split; intros [[? [=]] _].
  - split; intros [[? [= _ <-]] ?]; (split; [by eexists|done]).
  - split; intros (? & ? & [= <- <-] & Hcs); (eexists _, _; split; [done|exact Hcs]).
  - split; by intros (? & ? & [=] & _).
Qed.

Lemma like_ensure unique d node token l : like d (ensure_editable unique node token) l ↔ like d node l.
Proof. unfold ensure_editable. destruct (_ && _); [done|apply like_token]. Qed.

Lemma children_ensure unique node token :
  children_of (ensure_editable unique node token) = children_of node.
Proof. unfold ensure_editable. destruct (_ && _); [done|by destruct node]. Qed.

Lemma values_ensure unique node token :
  values_of (ensure_editable unique node token) = values_of node.
Proof. unfold ensure_editable. destruct (_ && _); [done|by destruct node]. Qed.

Lemma like_empty d t : like (S d) (Branch t (replicate NODE_WIDTH None)) [].
Proof.
  apply like_branch; [by rewrite length_replicate|cbn; lia|].
  intros k o [-> _]%lookup_replicate_1. cbn. lia.
Qed.

(** The slot on the path of [i], when the node has an element there. *)
Lemma like_slot d node l i k r :
  like (S d) node l → i mod cap (S d) = k * cap d + r → slot_at i (S d) = k → k < 32 → r < cap d →
  k * cap d + r < length l →
  ∃ children child, children_of node = Some children ∧ length children = 32 ∧
    length l ≤ cap (S d) ∧ (∀ k o, children !! k = Some o → slot_like d k l o) ∧
    children !! k = Some (Some child) ∧ like d child (piece d k l) ∧ r < length (piece d k l).
Proof.
  intros Hlike Hi Hk Hk32 Hr Hlen. destruct (like_children _ _ _ Hlike) as (cs & Hcs & H32 & Hl & Hslots).
  destruct (lookup_lt_is_Some_2 cs k) as [o Ho]; [lia|]. pose proof (Hslots k o Ho) as Hok.
  destruct o as [child|]; cbn in Hok; [|lia]. destruct Hok as [_ Hchild].
  exists cs, child. split_and!; try done. rewrite length_piece. lia.
Qed.

(** *** Reading *)
Lemma like_leaf d node l i :
  like d node l → i mod cap d < length l →
  ∃ values, leaf_values node d i = Some values ∧ length values = 32 ∧
    ∀ j, j < 32 → values !! j = l !! (i mod cap d / 32 * 32 + j).
Proof.
  revert node l. induction d as [|d IH]; intros node l Hlike Hi.
  - destruct Hlike as [[t ->] Hl]. exists l. split_and!; [done|done|]. intros j Hj.
    rewrite cap_0 in *. rewrite (Nat.div_small (i mod 32)) by lia. done.
  - destruct (split_index i d) as (k & r & Hk & Hr & Hi' & Hk32 & Hrc). rewrite Hi' in *.
    destruct (like_slot d node l i k r) as (cs & child & Hcs & _ & _ & _ & Hck & Hchild & Hlen); [done..|].
    destruct (IH child (piece d k l) Hchild) as (values & Hv & H32 & Hj); [by rewrite Hr|].
    exists values. split_and!; [|done|].
    + cbn [leaf_values]. rewrite Hcs, Hk. cbn. by rewrite Hck.
    + intros j Hj32. rewrite (Hj j Hj32), Hr, lookup_piece.
      destruct (divide_cap d) as [q Hq]. rewrite Hq in *.
      pose proof (Nat.div_mod_eq r 32). pose proof (Nat.mod_upper_bound r 32 ltac:(lia)).
      assert (r / 32 < q) by (apply Nat.Div0.div_lt_upper_bound; lia).
      rewrite decide_True by lia. f_equal.
      replace (k * (q * 32) + r) with (r + (k * q) * 32) by lia. rewrite Nat.div_add by lia. lia.
Qed.

(** *** Writing one element

    The persistent and the transient path copies differ in the tokens of the
    new nodes only: [stamp]. *)
Fixpoint assoc_stamped (stamp : Node E → N) (node : Node E) (depth index : nat) (value : E) :
    option (Node E) :=
  match depth with
  | O =>
      values ← values_of node;
      values !! Nat.land index NODE_MASK;;
      Some (Leaf (stamp node) (<[Nat.land index NODE_MASK := value]> values))
  | S below =>
      children ← children_of node;
      slot ← children !! slot_at index depth;
      child ← slot;
      child ← assoc_stamped stamp child below index value;
      Some (Branch (stamp node) (<[slot_at index depth := Some child]> children))
  end.

Lemma assoc_node_stamped node d i x : assoc_node node d i x = assoc_stamped (λ _, NOEDIT) node d i x.
Proof.
  revert node. induction d as [|d IH]; intros node; [done|]. cbn [assoc_node assoc_stamped].
  repeat (apply option_bind_ext_fun; intros ?). by rewrite IH.
Qed.

Lemma assoc_editable_stamped unique token node d i x :
  assoc_editable unique token node d i x =
  assoc_stamped (λ n, node_token (ensure_editable unique n token)) node d i x.
Proof.
  revert node. induction d as [|d IH]; intros node; cbn [assoc_editable assoc_stamped].
  - by rewrite values_ensure.
  - rewrite children_ensure. repeat (apply option_bind_ext_fun; intros ?). by rewrite IH.
Qed.

Lemma assoc_stamped_like stamp d node l i x :
  like d node l → i mod cap d < length l →
  ∃ node', assoc_stamped stamp node d i x = Some node' ∧ like d node' (<[i mod cap d := x]> l).
Proof.
  revert node l. induction d as [|d IH]; intros node l Hlike Hi.
  - destruct Hlike as [[t ->] Hl]. cbn [assoc_stamped values_of mbind option_bind].
    rewrite land_mask. rewrite cap_0 in *.
    destruct (lookup_lt_is_Some_2 l (i mod 32) Hi) as [y Hy]. rewrite Hy. cbn.
    eexists. split; [done|]. split; [by eexists|by rewrite length_insert].
  - destruct (split_index i d) as (k & r & Hk & Hr & Hi' & Hk32 & Hrc). rewrite Hi' in *.
    destruct (like_slot d node l i k r) as (cs & child & Hcs & H32 & Hl & Hslots & Hck & Hchild & Hlen); [done..|].
    destruct (IH child (piece d k l) Hchild) as (child' & Hc' & Hlike'); [by rewrite Hr|]. rewrite Hr in Hlike'.
    cbn [assoc_stamped]. rewrite Hcs, Hk. cbn [mbind option_bind]. rewrite Hck. cbn [mbind option_bind].
    rewrite Hc'. cbn. eexists. split; [done|].
    apply like_branch; [by rewrite length_insert|by rewrite length_insert|].
    intros j o. rewrite list_lookup_insert_Some. intros [(<- & <- & _)|[Hj Ho]].
    + cbn. rewrite length_insert. split; [lia|].
      assert (piece d k (<[k * cap d + r:=x]> l) = <[r:=x]> (piece d k l)) as ->; [|done].
      unfold piece. rewrite drop_insert_ge by lia.
      replace (k * cap d + r - k * cap d) with r by lia. by rewrite take_insert_lt.
    + specialize (Hslots j o Ho). destruct o as [c|]; cbn in *; rewrite length_insert; [|done].
      split; [tauto|]. erewrite piece_ext; [apply Hslots|]. intros m Hm. cbn.
      apply list_lookup_insert_ne. intros Heq. apply Hj.
      destruct (Nat.lt_trichotomy j k) as [?|[?|?]]; [|done|]; nia.
Qed.


(** *** Appending a leaf *)
Fixpoint push_stamped (stamp : Node E → N) (token : N) (parent : Node E) (depth size : nat)
    (tail : Node E) : option (Node E) :=
  match depth with
  | O => None
  | S below =>
      children ← children_of parent;
      slot ← children !! slot_at (size - 1) depth;
      child ← match below with
              | O => Some tail
              | S _ => match slot with
                       | Some child => push_stamped stamp token child below size tail
                       | None => Some (new_path token below tail)
                       end
              end;
      Some (Branch (stamp parent) (<[slot_at (size - 1) depth := Some child]> children))
  end.

Lemma push_tail_stamped node d n tail :
  push_tail node d n tail = push_stamped (λ _, NOEDIT) NOEDIT node d n tail.
Proof.
  revert node. induction d as [|d IH]; intros node; [done|]. cbn [push_tail push_stamped].
  apply option_bind_ext_fun. intros cs. apply option_bind_ext_fun. intros slot.
  f_equiv. destruct d; [done|]. by destruct slot.
Qed.

Lemma push_tail_editable_stamped unique token node d n tail :
  push_tail_editable unique token node d n tail =
  push_stamped (λ x, node_token (ensure_editable unique x token)) token node d n tail.
Proof.
  revert node. induction d as [|d IH]; intros node; [done|]. cbn [push_tail_editable push_stamped].
  rewrite children_ensure. apply option_bind_ext_fun. intros cs. apply option_bind_ext_fun. intros slot.
  f_equiv. destruct d; [done|]. by destruct slot.
Qed.

Lemma new_path_like token d t l : length l = 32 → like d (new_path token d (Leaf t l)) l.
Proof.
  intros Hl. induction d as [|d IH]; [by split; [eexists|]|].
  pose proof (cap_ge d). pose proof (cap_ge (S d)). cbn [new_path]. apply like_branch; [done|lia|].
  intros [|k] o; cbn [lookup list_lookup].
  - intros [= <-]. split; [lia|]. by rewrite piece_all by lia.
  - intros [-> _]%lookup_replicate_1. cbn. nia.
Qed.

(** The elements after the last full slot. *)
Lemma piece_app d k l t :
  k * cap d ≤ length l → length l + length t ≤ S k * cap d → piece d k (l ++ t) = piece d k l ++ t.
Proof.
  intros H1 H2. unfold piece. rewrite drop_app_le by done.
  rewrite !take_ge; [done| |]; rewrite ?length_app, ?length_drop; lia.
Qed.

Lemma piece_app_before d k l t : S k * cap d ≤ length l → piece d k (l ++ t) = piece d k l.
Proof. intros H. apply piece_ext. intros i Hi. apply lookup_app_l. nia. Qed.

(** Filling the last slot in use, or the first free one. *)
Lemma replace_last t d cs l tail k child :
  length cs = 32 → (∀ k o, cs !! k = Some o → slot_like d k l o) → length tail = 32 → k < 32 →
  k * cap d ≤ length l → length l + 32 ≤ S k * cap d → like d child (piece d k l ++ tail) →
  like (S d) (Branch t (<[k := Some child]> cs)) (l ++ tail).
Proof.
  intros H32 Hslots Htail Hk Hle Hroom Hchild.
  apply like_branch; [by rewrite length_insert| |].
  - rewrite length_app, cap_S. pose proof (Nat.mul_le_mono_r (S k) 32 (cap d)). lia.
  - intros j o. rewrite list_lookup_insert_Some. intros [(<- & <- & _)|[Hj Ho]].
    + cbn [slot_like]. rewrite length_app, piece_app by lia. split; [lia|done].
    + specialize (Hslots j o Ho). apply Nat.lt_gt_cases in Hj as [Hj|Hj].
      * pose proof (Nat.mul_le_mono_r (S k) j (cap d) ltac:(lia)).
        destruct o; cbn [slot_like] in *; [lia|]. rewrite length_app. lia.
      * pose proof (Nat.mul_le_mono_r (S j) k (cap d) ltac:(lia)). pose proof (cap_ge d).
        destruct o; cbn [slot_like] in *; [|lia].
        rewrite length_app, piece_app_before by lia. split; [lia|tauto].
Qed.

Lemma split_leaves d l m k r :
  (32 | length l) → m mod cap (S d) = k * cap d + r → r < cap d →
  m mod cap (S d) / 32 = length l / 32 →
  length l = k * cap d + r / 32 * 32 ∧ r / 32 * 32 + 32 ≤ cap d.
Proof.
  intros [q Hq] Hm Hr H. destruct (divide_cap d) as [c Hc]. rewrite Hm, Hq, Hc in *.
  rewrite Nat.div_mul in H by lia. replace (k * (c * 32) + r) with (r + k * c * 32) in H by lia.
  rewrite Nat.div_add in H by lia.
  assert (r / 32 < c) by (apply Nat.Div0.div_lt_upper_bound; lia). lia.
Qed.

(** The index [m] is in the appended leaf. *)
Lemma push_stamped_like stamp token d node l m t tail :
  like (S d) node l → length tail = 32 → (32 | length l) →
  (m - 1) mod cap (S d) / 32 = length l / 32 →
  ∃ node', push_stamped stamp token node (S d) m (Leaf t tail) = Some node' ∧
    like (S d) node' (l ++ tail).
Proof.
  intros Hlike Htail. revert node l Hlike. induction d as [|d IH]; intros node l Hlike Hdiv Hm.
  all: match goal with |- ∃ _, push_stamped _ _ _ (S ?d) _ _ = _ ∧ _ =>
    destruct (split_index (m - 1) d) as (k & r & Hk & Hr & Hi & Hk32 & Hrc);
    destruct (split_leaves d l (m - 1) k r Hdiv Hi Hrc Hm) as [Hlen Hroom];
    destruct (like_children d node l Hlike) as (cs & Hcs & H32 & Hl & Hslots);
    destruct (lookup_lt_is_Some_2 cs k) as [o Ho]; [lia|];
    pose proof (length_piece d k l) as Hplen end.
  - cbn [push_stamped]. rewrite Hcs, Hk. cbn [mbind option_bind]. rewrite Ho. cbn [mbind option_bind].
    eexists. split; [done|]. rewrite cap_0 in *. apply replace_last; rewrite ?cap_0; try done; try lia.
    replace (piece 0 k l) with (@nil E) by (symmetry; apply nil_length_inv; lia).
    by split; [eexists|].
  - assert (∃ child, (match o with
        | Some child => push_stamped stamp token child (S d) m (Leaf t tail)
        | None => Some (new_path token (S d) (Leaf t tail)) end) = Some child ∧
        like (S d) child (piece (S d) k l ++ tail)) as (child & Hchild & Hlc).
    { specialize (Hslots k o Ho). destruct o as [child|]; cbn [slot_like] in Hslots.
      - destruct Hslots as [_ Hc]. apply (IH child _ Hc).
        + rewrite Hplen. exists (r / 32). lia.
        + rewrite Hr, Hplen. replace (cap (S d) `min` (length l - k * cap (S d))) with (r / 32 * 32) by lia.
          by rewrite Nat.div_mul.
      - eexists. split; [done|]. replace (piece (S d) k l) with (@nil E)
          by (symmetry; apply nil_length_inv; lia). by apply new_path_like. }
    change (push_stamped stamp token node (S (S d)) m (Leaf t tail)) with
      (children ← children_of node; slot ← children !! slot_at (m - 1) (S (S d));
       child ← (match slot with
        | Some child => push_stamped stamp token child (S d) m (Leaf t tail)
        | None => Some (new_path token (S d) (Leaf t tail)) end);
       Some (Branch (stamp node) (<[slot_at (m - 1) (S (S d)) := Some child]> children))).
    rewrite Hcs, Hk. cbn [mbind option_bind]. rewrite Ho. cbn [mbind option_bind].
    rewrite Hchild. eexists. split; [done|]. apply replace_last; try done; lia.
Qed.

(** *** Removing the last leaf *)
Fixpoint pop_stamped (stamp : Node E → N) (node : Node E) (depth size : nat) :
    option (option (Node E)) :=
  match depth with
  | O => None
  | S below =>
      children ← children_of node;
      slot ← children !! slot_at (size - 2) depth;
      match below with
      | S _ =>
          child ← slot;
          child ← pop_stamped stamp child below size;
          if negb (is_some child) && (slot_at (size - 2) depth =? 0) then Some None
          else Some (Some (Branch (stamp node) (<[slot_at (size - 2) depth := child]> children)))
      | O =>
          if slot_at (size - 2) depth =? 0 then Some None
          else Some (Some (Branch (stamp node) (<[slot_at (size - 2) depth := None]> children)))
      end
  end.

Lemma slot_at_lt i d : slot_at i (S d) < 32.
Proof. rewrite slot_at_S. apply Nat.mod_upper_bound. lia. Qed.

(** On a tree both variants do the same up to the tokens. *)
Lemma pop_tail_stamped d node l n :
  like d node l → pop_tail node d n = pop_stamped (λ _, NOEDIT) node d n.
Proof.
  revert node l. induction d as [|d IH]; intros node l Hlike; [done|].
  destruct (like_children d node l Hlike) as (cs & Hcs & H32 & _ & Hslots).
  destruct (lookup_lt_is_Some_2 cs (slot_at (n - 2) (S d))) as [o Ho]; [rewrite H32; apply slot_at_lt|].
  cbn [pop_tail pop_stamped]. rewrite Hcs. cbn [mbind option_bind]. rewrite Ho.
  destruct d as [|d]; cbn [mbind option_bind]; [by case_match|].
  specialize (Hslots _ o Ho). destruct o as [c|]; [|done]. cbn [mbind option_bind].
  destruct Hslots as [_ Hc]. by rewrite (IH _ _ Hc).
Qed.

Lemma pop_tail_editable_stamped unique token d node l n :
  like d node l →
  pop_tail_editable unique token node d n =
  pop_stamped (λ x, node_token (ensure_editable unique x token)) node d n.
Proof.
  revert node l. induction d as [|d IH]; intros node l Hlike; [done|].
  destruct (like_children d node l Hlike) as (cs & Hcs & H32 & _ & Hslots).
  destruct (lookup_lt_is_Some_2 cs (slot_at (n - 2) (S d))) as [o Ho]; [rewrite H32; apply slot_at_lt|].
  cbn [pop_tail_editable pop_stamped]. rewrite children_ensure, Hcs. cbn [mbind option_bind].
  rewrite Ho. destruct d as [|d]; cbn [mbind option_bind Nat.eqb andb]; [by case_match|].
  specialize (Hslots _ o Ho). destruct o as [c|]; [|done]. cbn [mbind option_bind].
  destruct Hslots as [_ Hc]. by rewrite (IH _ _ Hc).
Qed.

Lemma piece_take d k l n : S k * cap d ≤ n → piece d k (take n l) = piece d k l.
Proof. intros H. apply piece_ext. intros i Hi. apply lookup_take_lt. nia. Qed.

Lemma shrink_last t d cs l k o :
  length cs = 32 → (∀ k o, cs !! k = Some o → slot_like d k l o) → length l ≤ cap (S d) →
  k * cap d + 32 ≤ length l → length l ≤ S k * cap d →
  slot_like d k (take (length l - 32) l) o →
  like (S d) (Branch t (<[k := o]> cs)) (take (length l - 32) l).
Proof.
  intros H32 Hslots Hl Hk HSk Ho. assert (length (take (length l - 32) l) = length l - 32) as Hlen
    by (rewrite length_take; lia).
  apply like_branch; [by rewrite length_insert|lia|].
  intros j o'. rewrite list_lookup_insert_Some. intros [(<- & <- & _)|[Hj Ho']]; [done|].
  specialize (Hslots j o' Ho'). apply Nat.lt_gt_cases in Hj as [Hj|Hj].
  - pose proof (Nat.mul_le_mono_r (S k) j (cap d) ltac:(lia)).
    destruct o'; cbn [slot_like] in *; [lia|]. lia.
  - pose proof (Nat.mul_le_mono_r (S j) k (cap d) ltac:(lia)). pose proof (cap_ge d).
    destruct o'; cbn [slot_like] in *; [|lia]. rewrite Hlen, piece_take by lia. split; [lia|tauto].
Qed.

Lemma pop_stamped_like stamp d node l m :
  like (S d) node l → (32 | length l) → 0 < length l → (m - 2) mod cap (S d) = length l - 1 →
  ∃ o, pop_stamped stamp node (S d) m = Some o ∧
    match o with
    | None => length l = 32
    | Some node' => 32 < length l ∧ like (S d) node' (take (length l - 32) l)
    end.
Proof.
  revert node l. induction d as [|d IH]; intros node l Hlike [q Hq] Hpos Hm.
  all: match goal with |- ∃ _, pop_stamped _ _ (S ?d) _ = _ ∧ _ =>
    destruct (split_index (m - 2) d) as (k & r & Hk & Hr & Hi & Hk32 & Hrc);
    rewrite Hm in Hi;
    destruct (like_slot d node l (m - 2) k r Hlike) as
      (cs & child & Hcs & H32 & Hl & Hslots & Hck & Hchild & Hrl);
      [by rewrite Hm, Hi|done|done|done|lia|];
    pose proof (length_piece d k l) as Hplen; destruct (divide_cap d) as [c Hc];
    assert (r + 1 = (q - k * c) * 32) as Hr32 by nia end.
  - rewrite cap_0 in *. assert (r = 31) as -> by lia.
    cbn [pop_stamped]. rewrite Hcs, Hk. cbn [mbind option_bind]. rewrite Hck. cbn [mbind option_bind].
    destruct (Nat.eqb_spec k 0) as [->|Hk0]; eexists; (split; [done|]); cbn beta iota; [lia|]. split; [lia|].
    apply shrink_last; rewrite ?cap_0; try done; try lia. cbn [slot_like].
    rewrite length_take, cap_0. lia.
  - destruct (IH child _ Hchild) as (o & Hpop & Ho).
    { rewrite Hplen. exists (q - k * c). lia. }
    { rewrite Hplen. lia. }
    { rewrite Hr, Hplen. lia. }
    change (pop_stamped stamp node (S (S d)) m) with
      (children ← children_of node; slot ← children !! slot_at (m - 2) (S (S d));
       child ← slot; child ← pop_stamped stamp child (S d) m;
       if negb (is_some child) && (slot_at (m - 2) (S (S d)) =? 0) then Some None
       else Some (Some (Branch (stamp node) (<[slot_at (m - 2) (S (S d)) := child]> children)))).
    rewrite Hcs, Hk. cbn [mbind option_bind]. rewrite Hck. cbn [mbind option_bind].
    rewrite Hpop. cbn [mbind option_bind].
    assert (length (piece (S d) k l) = r + 1) as Hpl by lia. rewrite Hpl in Ho.
    destruct o as [node'|]; cbn [is_some negb andb].
    + destruct Ho as [Hr33 Hlike']. eexists. split; [done|]. split; [lia|].
      apply shrink_last; try done; try lia. cbn [slot_like]. rewrite length_take. split; [lia|].
      replace (piece (S d) k (take (length l - 32) l)) with (take (r + 1 - 32) (piece (S d) k l)); [done|].
      apply list_eq. intros i. rewrite lookup_piece. destruct (decide (i < r + 1 - 32)) as [Hi'|Hi'].
      * rewrite lookup_take_lt, lookup_piece, !decide_True by lia. by rewrite lookup_take_lt by lia.
      * rewrite lookup_take_ge by lia. case_decide; [|done]. by rewrite lookup_take_ge by lia.
    + destruct (Nat.eqb_spec k 0) as [->|Hk0]; eexists; (split; [done|]); cbn beta iota; [lia|]. split; [nia|].
      apply shrink_last; try done; try lia. cbn [slot_like]. rewrite length_take. lia.
Qed.
End trees.

(** ** The representation invariant

    A tree of all elements up to the tail, no higher than needed, and the tail. *)
Section shape.
Context {E : Type}.
Implicit Types (l : list E) (root : Node E).

Record shaped (n sh : nat) (root : Node E) (tail l : list E) : Prop := {
  s_size : n = length l;
  s_tail : tail = drop (tail_offset n) l;
  s_root : ∃ h, sh = S h * NODE_SHIFT ∧ like (S h) root (take (tail_offset n) l) ∧
    (h = 0 ∨ cap h < tail_offset n);
}.

Lemma depth_of_shift h : depth_of (S h * NODE_SHIFT) = S h.
Proof. unfold depth_of. by rewrite Nat.div_mul. Qed.

Lemma shaped_cap h root n l :
  length l = n → like (S h) root (take (tail_offset n) l) → tail_offset n ≤ cap (S h).
Proof.
  intros <- (? & ? & _ & _ & Hl & _). rewrite length_take in Hl.
  pose proof (tail_offset_bounds (length l)). lia.
Qed.

Lemma shaped_nil t : shaped 0 NODE_SHIFT (Branch t (replicate NODE_WIDTH None)) [] [].
Proof. split; [done|done|]. exists 0. split_and!; [done|apply like_empty|by left]. Qed.

Lemma tail_index n i : tail_offset n ≤ i → i < n → i mod 32 = i - tail_offset n ∧ i mod 32 < n - tail_offset n.
Proof.
  intros Hi Hn. pose proof (tail_offset_bounds n) as Hb. destruct (tail_offset_divide n) as [q Hq].
  assert (i mod 32 = i - tail_offset n) as ->; [|lia].
  replace i with (i - tail_offset n + q * 32) at 1 by lia.
  rewrite Nat.Div0.mod_add. apply Nat.mod_small. lia.
Qed.

(** *** Reading *)
Lemma shaped_tail_lookup n sh root tail l i :
  shaped n sh root tail l → tail_offset n ≤ i → i < n → tail !! (i mod 32) = l !! i.
Proof.
  intros [Hn -> _] Hi Hin. destruct (tail_index n i Hi Hin) as [-> _]. rewrite lookup_drop. f_equal. lia.
Qed.

Lemma shaped_tail_length n sh root tail l : shaped n sh root tail l → length tail = n - tail_offset n.
Proof. intros [-> -> _]. by rewrite length_drop. Qed.

Lemma shaped_leaf n sh root tail l i :
  shaped n sh root tail l → i < tail_offset n →
  ∃ values, leaf_values root (depth_of sh) i = Some values ∧ length values = 32 ∧
    ∀ j, j < 32 → values !! j = l !! (i / 32 * 32 + j).
Proof.
  intros [Hn _ (h & -> & Hlike & _)] Hi. pose proof (shaped_cap h root n l (eq_sym Hn) Hlike) as Hcap.
  pose proof (tail_offset_bounds n) as Hb.
  assert (i mod cap (S h) = i) as Hmod by (apply Nat.mod_small; lia).
  destruct (like_leaf (S h) root _ i Hlike) as (values & Hv & H32 & Hj).
  { rewrite Hmod, length_take. lia. }
  rewrite depth_of_shift. exists values. split_and!; [done|done|]. intros j Hj32.
  rewrite (Hj j Hj32), Hmod. apply lookup_take_lt. destruct (tail_offset_divide n) as [q Hq].
  assert (i / 32 < q) by (apply Nat.Div0.div_lt_upper_bound; lia). lia.
Qed.

Lemma div_mod_32 i : i / 32 * 32 + i mod 32 = i.
Proof. pose proof (Nat.div_mod_eq i 32). lia. Qed.

Lemma shaped_leaf_lookup n sh root tail l i :
  shaped n sh root tail l → i < tail_offset n →
  (values ← leaf_values root (depth_of sh) i; values !! (i mod 32)) = l !! i.
Proof.
  intros Hs Hi. destruct (shaped_leaf _ _ _ _ _ _ Hs Hi) as (values & -> & _ & Hj). cbn [mbind option_bind].
  rewrite Hj by (apply Nat.mod_upper_bound; lia). by rewrite div_mod_32.
Qed.

(** *** Appending *)
Lemma shaped_push_room n sh root tail l x :
  shaped n sh root tail l → n - tail_offset n < 32 → shaped (S n) sh root (tail ++ [x]) (l ++ [x]).
Proof.
  intros [Hn -> (h & Hsh & Hlike & Hmin)] Hroom. pose proof (tail_offset_bounds n) as Hb.
  pose proof (tail_offset_S n) as Hoff. rewrite (proj2 (Nat.ltb_lt _ _) Hroom) in Hoff.
  split; rewrite ?Hoff.
  - rewrite length_app. cbn. lia.
  - by rewrite drop_app_le by lia.
  - exists h. by rewrite take_app_le by lia.
Qed.

Lemma overflows_spec n h : (32 | n) → root_overflows n (S h * NODE_SHIFT) = (cap (S h) <? n).
Proof.
  intros [q ->]. unfold root_overflows. rewrite Nat.shiftr_div_pow2.
  change (2 ^ NODE_SHIFT) with 32. rewrite Nat.div_mul by lia.
  rewrite Nat.shiftl_1_l. change NODE_SHIFT with 5. rewrite (Nat.mul_comm (S h)), Nat.pow_mul_r.
  change (2 ^ 5) with 32. change (32 ^ S h) with (cap h). rewrite cap_S.
  destruct (Nat.ltb_spec (cap h) q), (Nat.ltb_spec (cap h * 32) (q * 32)); lia.
Qed.

(** What is known when the tail is full. *)
Lemma shaped_full n sh root tail l :
  shaped n sh root tail l → ¬ n - tail_offset n < 32 →
  n = tail_offset n + 32 ∧ (32 | n) ∧ length tail = 32 ∧ tail_offset (S n) = n ∧
  take (tail_offset n) l ++ tail = l.
Proof.
  intros Hs Hfull. pose proof (tail_offset_full n Hfull) as Hn. pose proof (tail_offset_S n) as Hoff.
  rewrite (proj2 (Nat.ltb_ge _ _)) in Hoff by lia. rewrite (shaped_tail_length _ _ _ _ _ Hs).
  split_and!; [done| |lia|done|].
  - rewrite Hn. apply Nat.divide_add_r; [apply tail_offset_divide|by exists 1].
  - rewrite (s_tail _ _ _ _ _ Hs). apply take_drop.
Qed.

Lemma shaped_new_tail n sh' root' l x h :
  n = length l → tail_offset (S n) = n → sh' = S h * NODE_SHIFT → like (S h) root' l →
  (h = 0 ∨ cap h < n) → shaped (S n) sh' root' [x] (l ++ [x]).
Proof.
  intros Hn Hoff Hsh Hlike Hmin. split; rewrite ?Hoff.
  - rewrite length_app. cbn. lia.
  - by rewrite drop_app_length' by done.
  - exists h. by rewrite take_app_length' by done.
Qed.

Lemma shaped_grow n sh root tail l x t t' :
  shaped n sh root tail l → ¬ n - tail_offset n < 32 → root_overflows n sh = true →
  shaped (S n) (sh + NODE_SHIFT) (grown_root t root sh (Leaf t' tail)) [x] (l ++ [x]).
Proof.
  intros Hs Hfull. destruct (shaped_full _ _ _ _ _ Hs Hfull) as (Hn & Hdiv & H32 & Hoff & Hsplit).
  destruct Hs as [Hlen Htail (h & -> & Hlike & Hmin)]. rewrite overflows_spec by done.
  intros Hover%Nat.ltb_lt. pose proof (shaped_cap h root n l (eq_sym Hlen) Hlike) as Hcap.
  assert (tail_offset n = cap (S h)) as Hocap.
  { destruct (tail_offset_divide n) as [q Hq], (divide_cap (S h)) as [c Hc]. lia. }
  pose proof (cap_ge (S h)) as Hge.
  apply (shaped_new_tail _ _ _ _ _ (S h)); [done|done|unfold NODE_SHIFT; lia| |right; lia].
  unfold grown_root. rewrite depth_of_shift. apply like_branch; [done|rewrite cap_S; lia|].
  intros [|[|k]] o; cbn [lookup list_lookup].
  - intros [= <-]. cbn [slot_like]. split; [lia|]. unfold piece. rewrite Nat.mul_0_l, drop_0.
    by rewrite <-Hocap.
  - intros [= <-]. cbn [slot_like]. split; [lia|]. unfold piece. rewrite Nat.mul_1_l, take_ge.
    + rewrite <-Hocap, <-Htail. exact (new_path_like t (S h) t' tail H32).
    + rewrite length_drop. lia.
  - intros [-> _]%lookup_replicate_1. cbn [slot_like]. nia.
Qed.

Lemma shaped_push n sh root tail l x stamp t t' :
  shaped n sh root tail l → ¬ n - tail_offset n < 32 → root_overflows n sh = false →
  ∃ root', push_stamped stamp t root (depth_of sh) n (Leaf t' tail) = Some root' ∧
    shaped (S n) sh root' [x] (l ++ [x]).
Proof.
  intros Hs Hfull. destruct (shaped_full _ _ _ _ _ Hs Hfull) as (Hn & Hdiv & H32 & Hoff & Hsplit).
  destruct Hs as [Hlen Htail (h & -> & Hlike & Hmin)]. rewrite overflows_spec by done.
  intros Hover%Nat.ltb_ge. rewrite depth_of_shift.
  assert (length (take (tail_offset n) l) = tail_offset n) as Htake by (rewrite length_take; lia).
  destruct (push_stamped_like stamp t h root _ n t' tail Hlike H32) as (root' & Hpush & Hlike').
  - rewrite Htake. apply tail_offset_divide.
  - rewrite Htake, Nat.mod_small by lia. destruct (tail_offset_divide n) as [q Hq].
    replace (n - 1) with (31 + q * 32) by lia. rewrite Nat.div_add, Hq, Nat.div_mul by lia. done.
  - exists root'. split; [done|]. rewrite Hsplit in Hlike'.
    apply (shaped_new_tail _ _ _ _ _ h); [done|done|done|done|]. destruct Hmin; [by left|right; lia].
Qed.

(** *** Writing one element *)
Lemma shaped_assoc_tail n sh root tail l i x :
  shaped n sh root tail l → tail_offset n ≤ i → i < n →
  is_Some (tail !! (i mod 32)) ∧ shaped n sh root (<[i mod 32 := x]> tail) (<[i := x]> l).
Proof.
  intros Hs Hi Hin. destruct (tail_index n i Hi Hin) as [Hm Hlt].
  pose proof (shaped_tail_length _ _ _ _ _ Hs) as Hlen. destruct Hs as [Hn -> (h & Hsh & Hlike & Hmin)].
  split; [by apply lookup_lt_is_Some; rewrite Hlen|]. split.
  - by rewrite length_insert.
  - by rewrite Hm, drop_insert_ge by lia.
  - exists h. by rewrite take_insert_ge by lia.
Qed.

Lemma shaped_assoc_root n sh root tail l i x stamp :
  shaped n sh root tail l → i < tail_offset n →
  ∃ root', assoc_stamped stamp root (depth_of sh) i x = Some root' ∧ shaped n sh root' tail (<[i := x]> l).
Proof.
  intros [Hn -> (h & -> & Hlike & Hmin)] Hi. pose proof (shaped_cap h root n l (eq_sym Hn) Hlike) as Hcap.
  assert (i mod cap (S h) = i) as Hmod by (apply Nat.mod_small; lia).
  pose proof (tail_offset_bounds n) as Hb.
  destruct (assoc_stamped_like stamp (S h) root _ i x Hlike) as (root' & Hr & Hlike').
  { rewrite Hmod, length_take. lia. }
  rewrite depth_of_shift. exists root'. split; [done|]. rewrite Hmod in Hlike'. split.
  - by rewrite length_insert.
  - by rewrite drop_insert_lt by lia.
  - exists h. by rewrite take_insert_lt by lia.
Qed.

(** *** Removing the last element *)
Lemma shaped_pop_room n sh root tail l :
  shaped n sh root tail l → 1 < n - tail_offset n →
  shaped (n - 1) sh root (take (pred (length tail)) tail) (take (pred (length l)) l).
Proof.
  intros Hs Hroom. pose proof (shaped_tail_length _ _ _ _ _ Hs) as Hlen.
  destruct Hs as [Hn Ht (h & Hsh & Hlike & Hmin)]. pose proof (tail_offset_bounds n) as Hb.
  pose proof (tail_offset_S (n - 1)) as Hoff. replace (S (n - 1)) with n in Hoff by lia.
  assert (tail_offset (n - 1) = tail_offset n) as Hoff'.
  { destruct (Nat.ltb_spec (n - 1 - tail_offset (n - 1)) 32); lia. }
  split; rewrite ?Hoff'.
  - rewrite length_take. lia.
  - rewrite Ht, length_drop, skipn_firstn_comm. f_equal. lia.
  - exists h. rewrite take_take. by replace (tail_offset n `min` pred (length l)) with (tail_offset n) by lia.
Qed.

Lemma collapse_spec h root t :
  like (S h) root t → 0 < length t → (h = 0 ∨ cap h ≤ length t) →
  ∃ h' root', collapse root (S h * NODE_SHIFT) = Some (root', S h' * NODE_SHIFT) ∧
    like (S h') root' t ∧ (h' = 0 ∨ cap h' < length t).
Proof.
  intros Hlike Hpos Hmin. destruct h as [|h]; [exists 0, root; by split_and!; [| |left]|].
  destruct Hmin as [|Hmin]; [done|].
  destruct Hlike as (tok & cs & -> & H32 & Hl & Hslots).
  assert (∀ k, k < 32 → ∃ o, cs !! k = Some o ∧ slot_like (S h) k t o) as Hslot.
  { intros k Hk. destruct (lookup_lt_is_Some_2 cs k) as [o Ho]; [lia|]. exists o. split; [done|].
    by apply Hslots. }
  destruct (Hslot 0) as (o0 & H0 & Ho0); [lia|]. destruct (Hslot 1) as (o1 & H1 & Ho1); [lia|].
  unfold collapse. rewrite (proj2 (Nat.ltb_lt _ _)) by (unfold NODE_SHIFT; lia).
  rewrite H1. cbn [mbind option_bind]. destruct o1 as [c1|]; cbn [slot_like] in Ho1.
  - exists (S h), (Branch tok cs). split_and!; [done| |right; lia].
    by exists tok, cs.
  - rewrite H0. cbn [mbind option_bind]. destruct o0 as [c0|]; cbn [slot_like] in Ho0; [|lia].
    destruct Ho0 as [_ Hc0]. rewrite piece_all in Hc0 by lia. cbn [mbind option_bind].
    exists h, c0. split_and!; [|done|].
    + do 2 f_equal.
    + destruct h; [by left|]. right. pose proof (cap_lt (S h) (S (S h))). lia.
Qed.

(** At the boundary the last leaf becomes the tail. *)
Lemma shaped_pop_root n sh root tail l stamp t :
  shaped n sh root tail l → 1 < n → n - tail_offset n = 1 →
  ∃ new_tail o root' sh', leaf_values root (depth_of sh) (n - 2) = Some new_tail ∧
    pop_stamped stamp root (depth_of sh) n = Some o ∧
    collapse (default (Branch t (replicate NODE_WIDTH None)) o) sh = Some (root', sh') ∧
    shaped (n - 1) sh' root' new_tail (take (pred (length l)) l) ∧
    like (depth_of sh) root (take (tail_offset n) l).
Proof.
  intros Hs Hn1 Hedge. destruct (tail_offset_divide n) as [q Hq].
  destruct (shaped_leaf _ _ _ _ _ (n - 2) Hs) as (values & Hv & H32 & Hj); [lia|].
  destruct Hs as [Hn Ht (h & -> & Hlike & Hmin)].
  pose proof (shaped_cap h root n l (eq_sym Hn) Hlike) as Hcap.
  set (tree := take (tail_offset n) l) in *.
  assert (length tree = tail_offset n) as Htree by (unfold tree; rewrite length_take; lia).
  assert (take (pred (length l)) l = tree) as -> by (unfold tree; f_equal; lia).
  assert (tail_offset (n - 1) = tail_offset n - 32) as Hoff.
  { rewrite (tail_offset_eq (n - 1)). replace (n - 1 - 1) with (31 + (q - 1) * 32) by lia.
    rewrite Nat.div_add by lia. change (31 / 32) with 0. lia. }
  rewrite depth_of_shift in *.
  destruct (pop_stamped_like stamp h root tree n Hlike) as (o & Hpop & Ho).
  { rewrite Htree. apply tail_offset_divide. }
  { lia. }
  { rewrite Nat.mod_small; lia. }
  assert (values = drop (tail_offset (n - 1)) tree) as Hvalues.
  { apply list_eq. intros j. destruct (decide (j < 32)) as [Hj32|Hj32].
    - rewrite Hj, lookup_drop, Hoff by done. unfold tree. rewrite lookup_take_lt by lia. f_equal.
      replace (n - 2) with (31 + (q - 1) * 32) by lia. rewrite Nat.div_add by lia.
      change (31 / 32) with 0. lia.
    - rewrite !lookup_ge_None_2; [done|rewrite length_drop; lia|lia]. }
  assert (take (tail_offset (n - 1)) tree = take (length tree - 32) tree) as Htake by (f_equal; lia).
  assert (∃ root' sh', collapse (default (Branch t (replicate NODE_WIDTH None)) o) (S h * NODE_SHIFT) =
            Some (root', sh') ∧ ∃ h', sh' = S h' * NODE_SHIFT ∧
            like (S h') root' (take (tail_offset (n - 1)) tree) ∧
            (h' = 0 ∨ cap h' < tail_offset (n - 1))) as (root' & sh' & Hcol & Hshape).
  { rewrite Htake. destruct o as [node'|]; cbn [default].
    - destruct Ho as [Hgt Hlike'].
      assert (length (take (length tree - 32) tree) = tail_offset (n - 1)) as Hlen'
        by (rewrite length_take; lia).
      destruct (collapse_spec h node' _ Hlike') as (h' & root' & Hcol & Hl' & Hm'); [lia| |].
      + destruct Hmin as [|Hmin]; [by left|right]. destruct (divide_cap h) as [c Hc]. lia.
      + rewrite Hlen' in Hm'. eauto 7.
    - assert (h = 0) as -> by (destruct Hmin; [done|]; pose proof (cap_ge h); lia).
      exists (Branch t (replicate NODE_WIDTH None)), NODE_SHIFT. split; [done|]. exists 0.
      split_and!; [done| |by left]. rewrite Ho. cbn [take Nat.sub]. apply like_empty. }
  exists values, o, root', sh'. split_and!; [done|done|done| |done]. split; [lia|done|done].
Qed.
End shape.

(** ** The persistent vector *)
Section persistent.
Context {E : Type}.
Variable unique : Node E → bool.
Implicit Types (v : Standard E) (l : list E).

Definition rep v l : Prop := shaped (size v) (shift v) (root v) (tail v) l.

(** Writing at [i], where the index after the last appends. *)
Definition assigned l (i : nat) (x : E) : list E :=
  if decide (i = length l) then l ++ [x] else <[i := x]> l.

Lemma rep_new : rep standard_new [].
Proof. apply shaped_nil. Qed.

Lemma rep_get v l i : rep v l → get v i = l !! i.
Proof.
  intros Hv. pose proof (s_size _ _ _ _ _ Hv) as Hn. unfold get, array_for. rewrite land_mask.
  destruct (Nat.leb_spec (size v) i); cbn [mbind option_bind].
  { symmetry. apply lookup_ge_None. lia. }
  destruct (Nat.leb_spec (tail_offset (size v)) i); cbn [mbind option_bind].
  - by eapply shaped_tail_lookup.
  - by eapply shaped_leaf_lookup.
Qed.

Lemma push_last_stamped v x (push : Node E → nat → nat → Node E → option (Node E)) stamp l :
  (∀ node d n tail, push node d n tail = push_stamped stamp NOEDIT node d n tail) → rep v l →
  ∃ v', (if size v - tail_offset (size v) <? NODE_WIDTH then
    Some (mkStandard (metadata v) (S (size v)) (shift v) (root v) (tail v ++ [x]))
  else
    let tail_node := Leaf NOEDIT (tail v) in
    if root_overflows (size v) (shift v) then
      Some (mkStandard (metadata v) (S (size v)) (shift v + NODE_SHIFT)
              (grown_root NOEDIT (root v) (shift v) tail_node) [x])
    else
      root ← push (root v) (depth_of (shift v)) (size v) tail_node;
      Some (mkStandard (metadata v) (S (size v)) (shift v) root [x])) = Some v' ∧
    rep v' (l ++ [x]) ∧ metadata v' = metadata v.
Proof.
  intros Hpush Hv. change NODE_WIDTH with 32.
  destruct (Nat.ltb_spec (size v - tail_offset (size v)) 32) as [Hroom|Hfull].
  { eexists. split_and!; [done| |done]. by apply shaped_push_room. }
  apply Nat.nlt_ge in Hfull. cbv zeta. destruct (root_overflows _ _) eqn:Ho.
  - eexists. split_and!; [done| |done]. by apply shaped_grow.
  - destruct (shaped_push _ _ _ _ _ x stamp NOEDIT NOEDIT Hv Hfull Ho) as (root' & Hr & Hs).
    rewrite Hpush, Hr. cbn [mbind option_bind]. by eexists.
Qed.

Lemma rep_push v l x :
  rep v l → ∃ v', push_last v x = Some v' ∧ rep v' (l ++ [x]) ∧ metadata v' = metadata v.
Proof. apply (push_last_stamped v x push_tail (λ _, NOEDIT)). intros. apply push_tail_stamped. Qed.

Lemma rep_push_owned v l x :
  rep v l → ∃ v', push_last_owned unique v x = Some v' ∧ rep v' (l ++ [x]) ∧ metadata v' = metadata v.
Proof.
  apply (push_last_stamped v x (push_tail_editable unique NOEDIT)
    (λ n, node_token (ensure_editable unique n NOEDIT))).
  intros. apply push_tail_editable_stamped.
Qed.

(** What writing at [i] returns. *)
Definition assigns v l (i : nat) (x : E) (r : option (Standard E)) : Prop :=
  match r with
  | Some v' => i ≤ length l ∧ rep v' (assigned l i x) ∧ metadata v' = metadata v
  | None => length l < i
  end.

Lemma assoc_stamped_rep v l i x (push : option (Standard E)) (assoc : option (Node E)) stamp :
  rep v l →
  (∃ v', push = Some v' ∧ rep v' (l ++ [x]) ∧ metadata v' = metadata v) →
  assoc = assoc_stamped stamp (root v) (depth_of (shift v)) i x →
  ∃ r, (if i =? size v then Some <$> push
        else if size v <=? i then Some None
        else if tail_offset (size v) <=? i then
          tail v !! Nat.land i NODE_MASK;;
          Some (Some (with_tail (<[Nat.land i NODE_MASK := x]> (tail v)) v))
        else root ← assoc; Some (Some (with_root root v))) = Some r ∧ assigns v l i x r.
Proof.
  intros Hv (v' & -> & Hv' & Hm) ->. pose proof (s_size _ _ _ _ _ Hv) as Hn. rewrite land_mask. unfold assigned.
  destruct (Nat.eqb_spec i (size v)) as [->|Hi].
  { eexists. split; [done|]. cbn. unfold assigned. rewrite decide_True by done. split_and!; [lia|done|done]. }
  destruct (Nat.leb_spec (size v) i); [eexists; split; [done|]; cbn; lia|].
  destruct (Nat.leb_spec (tail_offset (size v)) i) as [Ht|Ht].
  - destruct (shaped_assoc_tail _ _ _ _ _ i x Hv Ht) as [[y Hy] Hs]; [done|]. rewrite Hy.
    eexists. split; [done|]. unfold assigns, assigned. rewrite decide_False by lia.
    split_and!; [lia|done|done].
  - destruct (shaped_assoc_root _ _ _ _ _ i x stamp Hv Ht) as (root' & -> & Hs).
    eexists. split; [done|]. unfold assigns, assigned. rewrite decide_False by lia.
    split_and!; [lia|done|done].
Qed.

Lemma rep_assoc v l i x : rep v l → ∃ r, assoc_value v i x = Some r ∧ assigns v l i x r.
Proof.
  intros Hv. apply (assoc_stamped_rep v l i x _ _ (λ _, NOEDIT)); [done|by apply rep_push|].
  apply assoc_node_stamped.
Qed.

Lemma rep_assoc_owned v l i x :
  rep v l → ∃ r, assoc_value_owned unique v i x = Some r ∧ assigns v l i x r.
Proof.
  intros Hv. eapply (assoc_stamped_rep v l i x); [done|by apply rep_push_owned|].
  apply assoc_editable_stamped.
Qed.

Lemma rep_pop v l :
  rep v l → ∃ r, pop_last_value v = Some r ∧
    match r with
    | Some v' => l ≠ [] ∧ rep v' (take (pred (length l)) l) ∧ metadata v' = metadata v
    | None => l = []
    end.
Proof.
  intros Hv. pose proof (s_size _ _ _ _ _ Hv) as Hn. unfold pop_last_value.
  destruct (Nat.eqb_spec (size v) 0) as [H0|H0].
  { eexists. split; [done|]. apply nil_length_inv. lia. }
  assert (l ≠ []) as Hl by (intros ->; cbn in Hn; lia).
  destruct (Nat.eqb_spec (size v) 1) as [H1|H1].
  { eexists. split; [done|]. split_and!; [done| |done].
    assert (pred (length l) = 0) as -> by lia. apply shaped_nil. }
  pose proof (tail_offset_bounds (size v)) as Hb.
  destruct (Nat.ltb_spec 1 (size v - tail_offset (size v))) as [Hroom|Hedge].
  { eexists. split; [done|]. split_and!; [done| |done]. by apply shaped_pop_room. }
  destruct (shaped_pop_root _ _ _ _ _ (λ _, NOEDIT) NOEDIT Hv) as
    (nt & o & root' & sh' & Hleaf & Hpop & Hcol & Hs & Hlike); [lia|lia|].
  unfold array_for. rewrite (proj2 (Nat.leb_gt _ _)), (proj2 (Nat.leb_gt (tail_offset _) _)) by lia.
  rewrite Hleaf. cbn [mbind option_bind]. rewrite (pop_tail_stamped _ _ _ _ Hlike), Hpop.
  cbn [mbind option_bind]. unfold empty_branch. rewrite Hcol. cbn [mbind option_bind].
  eexists. split; [done|]. by split_and!.
Qed.

(** C30. A vector that represents a list answers every index as the list does,
    and its updates never panic: appending, writing at an index (which appends
    at the length and fails beyond it) and removing the last element represent
    the updated lists and keep the metadata. *)
Theorem persistent_vector_correct v l :
  rep v l →
  size v = length l ∧
  (∀ i, get v i = l !! i) ∧
  (∀ x, ∃ v', push_last v x = Some v' ∧ rep v' (l ++ [x]) ∧ metadata v' = metadata v) ∧
  (∀ i x, ∃ r, assoc_value v i x = Some r ∧ assigns v l i x r) ∧
  (∃ r, pop_last_value v = Some r ∧
    match r with
    | Some v' => l ≠ [] ∧ rep v' (take (pred (length l)) l) ∧ metadata v' = metadata v
    | None => l = []
    end).
Proof.
  intros Hv. split_and!.
  - apply Hv.
  - intros i. by apply rep_get.
  - intros x. by apply rep_push.
  - intros i x. by apply rep_assoc.
  - by apply rep_pop.
Qed.

(** The updates that take the vector over give the same results as those
    that copy, whichever nodes they may change in place. *)
Theorem owned_updates_agree v l x i :
  rep v l →
  (∃ v1 v2, push_last v x = Some v1 ∧ push_last_owned unique v x = Some v2 ∧
     ∀ j, get v1 j = get v2 j) ∧
  (∃ r1 r2, assoc_value v i x = Some r1 ∧ assoc_value_owned unique v i x = Some r2 ∧
     match r1, r2 with
     | Some v1, Some v2 => size v1 = size v2 ∧ ∀ j, get v1 j = get v2 j
     | None, None => True
     | _, _ => False
     end).
Proof.
  intros Hv. split.
  - destruct (rep_push v l x Hv) as (v1 & H1 & Hr1 & _), (rep_push_owned v l x Hv) as (v2 & H2 & Hr2 & _).
    exists v1, v2. split_and!; [done|done|]. intros j. by rewrite !(rep_get _ (l ++ [x])).
  - destruct (rep_assoc v l i x Hv) as (r1 & H1 & Hr1), (rep_assoc_owned v l i x Hv) as (r2 & H2 & Hr2).
    exists r1, r2. split_and!; [done|done|]. destruct r1 as [v1|], r2 as [v2|]; cbn in *; [|lia|lia|done].
    destruct Hr1 as (_ & Hr1 & _), Hr2 as (_ & Hr2 & _). split.
    + by rewrite (s_size _ _ _ _ _ Hr1), (s_size _ _ _ _ _ Hr2).
    + intros j. by rewrite !(rep_get _ (assigned l i x)).
Qed.
End persistent.

(** ** Iteration and views *)
Section views.
Context {E : Type}.
Implicit Types (v : Standard E) (s : SubView E) (l : list E).

(** The chunk of an index holds its whole block of 32. *)
Lemma rep_chunk v l i :
  rep v l → i < length l → ∃ chunk, array_for v i = Some chunk ∧
    ∀ j, j / 32 = i / 32 → j < length l → chunk !! (j mod 32) = l !! j.
Proof.
  intros Hv Hi. pose proof (s_size _ _ _ _ _ Hv) as Hn. destruct (tail_offset_divide (size v)) as [q Hq].
  pose proof (tail_offset_bounds (size v)) as Hb.
  unfold array_for. rewrite (proj2 (Nat.leb_gt _ _)) by lia.
  destruct (Nat.leb_spec (tail_offset (size v)) i) as [Ht|Ht].
  - eexists. split; [done|]. intros j Hj Hjl. eapply shaped_tail_lookup; [exact Hv| |lia].
    rewrite Hq in *. assert (q ≤ i / 32) by (apply Nat.div_le_lower_bound; lia).
    pose proof (div_mod_32 j). lia.
  - destruct (shaped_leaf _ _ _ _ _ i Hv Ht) as (values & -> & _ & Hj). eexists. split; [done|].
    intros j Hji Hjl. rewrite Hj, <-Hji, div_mod_32; [done|]. apply Nat.mod_upper_bound. lia.
Qed.

(** The position of an iterator over [l]. *)
Record iterates v l (it : Iter E) : Prop := {
  i_base : (32 | iter_base it);
  i_index : iter_base it ≤ iter_index it ≤ iter_base it + 32;
  i_end : iter_end it ≤ length l;
  i_chunk : iter_index it < iter_base it + 32 → iter_index it < iter_end it →
    ∃ chunk, iter_chunk it = Some chunk ∧
      ∀ j, j / 32 = iter_base it / 32 → j < length l → chunk !! (j mod 32) = l !! j;
}.

Lemma iter_next_correct v l it :
  rep v l → iterates v l it → iter_index it < iter_end it →
  ∃ it', iter_next v it = Some (l !! iter_index it, it') ∧ iterates v l it' ∧
    iter_index it' = S (iter_index it) ∧ iter_end it' = iter_end it.
Proof.
  intros Hv [[b Hb] Hi He Hchunk] Hlt. destruct it as [i e base chunk].
  cbn [iter_index iter_end iter_base iter_chunk] in *.
  assert (∃ base' c, (if i - base =? 32 then mkIter i e (base + 32) (array_for v i)
            else mkIter i e base chunk) = mkIter i e base' (Some c) ∧
          (32 | base') ∧ base' ≤ i < base' + 32 ∧
          ∀ j, j / 32 = base' / 32 → j < length l → c !! (j mod 32) = l !! j) as
    (base' & c & Hit & Hdiv & Hi' & Hc).
  { destruct (Nat.eqb_spec (i - base) 32) as [Hedge|Hedge].
    - destruct (rep_chunk v l i Hv) as (c & -> & Hc); [lia|].
      exists (base + 32), c. split_and!; [done|by exists (S b); lia|lia|lia|].
      assert (i = base + 32) as -> by lia. done.
    - destruct Hchunk as (c & -> & Hc); [lia|lia|].
      exists base, c. split_and!; [done|by exists b|lia|lia|done]. }
  unfold iter_next. cbn [iter_index iter_end iter_base iter_chunk].
  rewrite (proj2 (Nat.leb_gt _ _)) by done. change NODE_WIDTH with 32. rewrite Hit. cbv zeta beta.
  cbn [iter_index iter_end iter_base iter_chunk]. rewrite land_mask.
  destruct Hdiv as [b' Hb']. assert (i / 32 = base' / 32) as Hblock.
  { subst base'. rewrite Nat.div_mul by lia. replace i with (i - b' * 32 + b' * 32) by lia.
    rewrite Nat.div_add, Nat.div_small by lia. lia. }
  rewrite (Hc i Hblock) by lia. destruct (lookup_lt_is_Some_2 l i) as [x Hx]; [lia|]. rewrite Hx.
  cbn [mbind option_bind]. eexists. split_and!; [done| |done|done].
  split; cbn [iter_index iter_end iter_base iter_chunk]; [by exists b'|lia|done|]. by exists c.
Qed.

Lemma iter_collect_correct v l fuel it :
  rep v l → iterates v l it → iter_end it - iter_index it ≤ fuel →
  iter_collect v fuel it = Some (take (iter_end it - iter_index it) (drop (iter_index it) l)).
Proof.
  intros Hv. revert it. induction fuel as [|fuel IH]; intros it Hit Hfuel; cbn [iter_collect].
  { by replace (iter_end it - iter_index it) with 0 by lia. }
  destruct (Nat.leb_spec (iter_end it) (iter_index it)) as [Hend|Hlt].
  - unfold iter_next. rewrite (proj2 (Nat.leb_le _ _)) by done. cbn [mbind option_bind].
    by replace (iter_end it - iter_index it) with 0 by lia.
  - destruct (iter_next_correct v l it Hv Hit Hlt) as (it' & -> & Hit' & Hi' & He').
    cbn [mbind option_bind]. pose proof (i_end _ _ _ Hit) as He.
    destruct (lookup_lt_is_Some_2 l (iter_index it)) as [x Hx]; [lia|]. rewrite Hx.
    rewrite IH by (done || lia). rewrite Hi', He'. cbn [mbind option_bind].
    rewrite (drop_S l x (iter_index it) Hx).
    replace (iter_end it - iter_index it) with (S (iter_end it - S (iter_index it))) by lia. done.
Qed.

Lemma ranged_iter_iterates v l a b :
  rep v l → a ≤ b → b ≤ length l → iterates v l (ranged_iter v a b).
Proof.
  intros Hv Hab Hb. unfold ranged_iter. change NODE_WIDTH with 32.
  pose proof (div_mod_32 a). assert (a mod 32 < 32) by (apply Nat.mod_upper_bound; lia).
  split; cbn [iter_index iter_end iter_base iter_chunk]; [exists (a / 32); lia|lia|done|].
  intros _ Hlt. pose proof (s_size _ _ _ _ _ Hv) as Hn. rewrite (proj2 (Nat.ltb_lt _ _)) by lia.
  destruct (rep_chunk v l a Hv) as (c & -> & Hc); [lia|]. exists c. split; [done|].
  intros j Hj. apply Hc. rewrite Hj. replace (a - a mod 32) with (a / 32 * 32) by lia.
  by rewrite Nat.div_mul.
Qed.

(** A view shows a contiguous part of the vector's list. *)
Definition shows s (full l : list E) : Prop :=
  rep (view_vector s) full ∧ view_start s ≤ view_end s ≤ length full ∧
  l = take (view_end s - view_start s) (drop (view_start s) full).

Lemma shows_length s full l : shows s full l → length l = view_len s.
Proof. intros (_ & Hb & ->). unfold view_len. rewrite length_take, length_drop. lia. Qed.

Lemma shows_get s full l i : shows s full l → view_get s i = l !! i.
Proof.
  intros Hs. pose proof (shows_length _ _ _ Hs) as Hl. unfold view_get.
  destruct (Nat.leb_spec (view_len s) i) as [Hi|Hi].
  - symmetry. apply lookup_ge_None. lia.
  - destruct Hs as (Hv & Hb & ->). rewrite (rep_get _ _ _ Hv). unfold view_len in Hi.
    by rewrite lookup_take_lt, lookup_drop by lia.
Qed.

Lemma shows_push s full l x :
  shows s full l → ∃ s', view_push_last s x = Some s' ∧
    shows s' (assigned full (view_end s) x) (l ++ [x]).
Proof.
  intros (Hv & Hb & ->). unfold view_push_last.
  destruct (rep_assoc _ _ (view_end s) x Hv) as (r & -> & Hr). cbn [mbind option_bind].
  destruct r as [v'|]; cbn [assigns] in Hr; [|lia]. destruct Hr as (_ & Hr & _).
  eexists. split; [done|]. split_and!; cbn [view_vector view_start view_end]; [done|lia| |].
  { unfold assigned. case_decide; [rewrite length_app; cbn; lia|rewrite length_insert; lia]. }
  replace (S (view_end s) - view_start s) with (S (view_end s - view_start s)) by lia.
  unfold assigned. case_decide as He.
  - rewrite drop_app_le, !take_ge by (rewrite ?length_app, ?length_drop; cbn; lia). done.
  - rewrite drop_insert_ge by lia. set (k := view_end s - view_start s).
    assert (k < length (drop (view_start s) full)) as Hk by (rewrite length_drop; lia).
    rewrite insert_take_drop by done. rewrite take_app_ge by (rewrite length_take; lia).
    f_equal. rewrite length_take. replace (S k - k `min` length (drop (view_start s) full)) with 1 by lia.
    done.
Qed.

(** Iterating a vector yields its list; a view exists exactly for bounds in
    range and acts on the part of the list it shows, writing through to the
    vector below it. *)
Theorem views_correct v full a b :
  rep v full →
  iter_collect v (size v) (iter v) = Some full ∧
  match subview v a b with
  | None => b < a ∨ length full < b
  | Some s =>
      let l := take (b - a) (drop a full) in
      shows s full l ∧
      iter_collect v (view_len s) (ranged_iter v (view_start s) (view_end s)) = Some l ∧
      (∀ i, view_get s i = l !! i) ∧
      (∀ x, ∃ s', view_push_last s x = Some s' ∧ shows s' (assigned full b x) (l ++ [x])) ∧
      (view_pop_last_value s = None ↔ l = []) ∧
      (∀ i x, i < length l → ∃ s', view_assoc_value s i x = Some (Some s') ∧
         shows s' (<[a + i := x]> full) (<[i := x]> l))
  end.
Proof.
  intros Hv. pose proof (s_size _ _ _ _ _ Hv) as Hn. split.
  { unfold iter. rewrite (iter_collect_correct v full) by
      (done || (apply ranged_iter_iterates; [done|lia|lia]) || (cbn; lia)).
    unfold ranged_iter. cbn [iter_index iter_end]. rewrite Nat.sub_0_r, drop_0. f_equal.
    apply take_ge. lia. }
  unfold subview. destruct (Nat.ltb_spec b a); [by left|].
  destruct (Nat.ltb_spec (size v) b); cbn [orb]; [right; lia|].
  set (s := mkSubView v a b). assert (shows s full (take (b - a) (drop a full))) as Hs.
  { split; [done|]. cbn. split; [lia|done]. }
  cbv zeta. pose proof (shows_length _ _ _ Hs) as Hl. split_and!.
  - done.
  - rewrite (iter_collect_correct v full); [done|done| |done].
    apply ranged_iter_iterates; [done|cbn; lia|cbn; lia].
  - intros i. by eapply shows_get.
  - intros x. by apply (shows_push s).
  - unfold view_pop_last_value. unfold view_len in Hl. cbn [view_start view_end s] in *.
    destruct (Nat.eqb_spec b a) as [->|Hne].
    + split; [|done]. intros _. apply nil_length_inv. lia.
    + split; [done|]. intros Hnil. rewrite Hnil in Hl. cbn in Hl. lia.
  - intros i x Hi. unfold view_assoc_value. rewrite Hl in Hi.
    rewrite (proj2 (Nat.ltb_ge _ _)), (proj2 (Nat.eqb_neq _ _)) by lia.
    unfold view_len in Hi. cbn [view_start view_end view_vector s] in *.
    destruct (rep_assoc v full (a + i) x Hv) as (r & -> & Hr). cbn [mbind option_bind].
    destruct r as [v'|]; cbn [assigns] in Hr; [|lia]. destruct Hr as (_ & Hr & _).
    unfold assigned in Hr. rewrite decide_False in Hr by lia.
    eexists. split; [done|]. split_and!; cbn [view_vector view_start view_end]; [done|lia|rewrite length_insert; lia|].
    rewrite drop_insert_ge, take_insert_lt by lia. by replace (a + i - a) with i by lia.
Qed.
End views.

(** ** Transient sessions *)
Section transient.
Context {E : Type}.
Variable unique : Node E → bool.
Implicit Types (m : Mutable E) (l : list E).

Definition mrep m l : Prop :=
  editable m = true ∧ shaped (m_size m) (m_shift m) (m_root m) (m_tail m) l.

Lemma mrep_get m l i : mrep m l → nth_ref m i = l !! i.
Proof.
  intros [_ Hm]. pose proof (s_size _ _ _ _ _ Hm) as Hn. unfold nth_ref. rewrite land_mask.
  destruct (Nat.leb_spec (m_size m) i); [symmetry; apply lookup_ge_None; lia|].
  destruct (Nat.leb_spec (tail_offset (m_size m)) i).
  - by eapply shaped_tail_lookup.
  - by eapply shaped_leaf_lookup.
Qed.

Lemma mrep_push m l x :
  mrep m l → ∃ m', mutable_push_last unique m x = Some m' ∧ mrep m' (l ++ [x]).
Proof.
  intros [He Hm]. unfold mutable_push_last, check_editable. rewrite He. cbn [mbind option_bind].
  change NODE_WIDTH with 32.
  destruct (Nat.ltb_spec (m_size m - tail_offset (m_size m)) 32) as [Hroom|Hfull].
  { eexists. split; [done|]. split; [done|]. by apply shaped_push_room. }
  apply Nat.nlt_ge in Hfull. cbv zeta. destruct (root_overflows _ _) eqn:Ho.
  - eexists. split; [done|]. split; [done|]. by apply shaped_grow.
  - rewrite push_tail_editable_stamped.
    edestruct (shaped_push _ _ _ _ _ x
      (λ n, node_token (ensure_editable unique n (token m))) (token m) (token m) Hm Hfull Ho)
      as (root' & -> & Hs). cbn [mbind option_bind]. eexists. split; [done|]. by split.
Qed.

(** Writing beyond the length panics. *)
Lemma mrep_assoc m l i x :
  mrep m l → match mutable_assoc unique m i x with
             | Some m' => i ≤ length l ∧ mrep m' (assigned l i x)
             | None => length l < i
             end.
Proof.
  intros Hm. pose proof Hm as [He Hs]. pose proof (s_size _ _ _ _ _ Hs) as Hn.
  unfold mutable_assoc, check_editable. rewrite He, land_mask. cbn [mbind option_bind]. unfold assigned.
  destruct (Nat.eqb_spec i (m_size m)) as [->|Hi].
  { destruct (mrep_push m l x Hm) as (m' & -> & Hm'). rewrite decide_True by done. split; [lia|done]. }
  destruct (Nat.leb_spec (m_size m) i); [lia|]. rewrite decide_False by lia.
  destruct (Nat.leb_spec (tail_offset (m_size m)) i) as [Ht|Ht].
  - destruct (shaped_assoc_tail _ _ _ _ _ i x Hs Ht) as [[y ->] Hs']; [done|]. split; [lia|by split].
  - rewrite assoc_editable_stamped.
    edestruct (shaped_assoc_root _ _ _ _ _ i x
      (λ n, node_token (ensure_editable unique n (token m))) Hs Ht) as (root' & -> & Hs').
    cbn [mbind option_bind]. split; [lia|by split].
Qed.

Lemma mrep_pop m l :
  mrep m l → ∃ m', mutable_pop_last unique m = Some (last l, m') ∧ mrep m' (take (pred (length l)) l).
Proof.
  intros [He Hm]. pose proof (s_size _ _ _ _ _ Hm) as Hn. pose proof (tail_offset_bounds (m_size m)) as Hb.
  pose proof (shaped_tail_length _ _ _ _ _ Hm) as Hlen.
  unfold mutable_pop_last, check_editable. rewrite He. cbn [mbind option_bind].
  destruct (Nat.eqb_spec (m_size m) 0) as [H0|H0].
  { assert (l = []) as -> by (apply nil_length_inv; lia). by exists m. }
  assert (last (m_tail m) = last l) as Hlast.
  { rewrite !last_lookup, Hlen, (s_tail _ _ _ _ _ Hm), lookup_drop. f_equal. lia. }
  destruct (lookup_lt_is_Some_2 l (pred (length l))) as [x Hx]; [lia|].
  rewrite (last_lookup l), Hx in Hlast. rewrite (last_lookup l), Hx, Hlast. cbn [mbind option_bind]. cbv zeta.
  destruct (Nat.eqb_spec (m_size m) 1) as [H1|H1].
  { eexists. split; [done|]. split; [done|]. cbn [m_size m_shift m_root m_tail].
    destruct Hm as [_ Ht (h & Hsh & Hlike & Hmin)].
    assert (tail_offset (m_size m) = 0) as Ho by lia. rewrite Ho in *.
    replace (pred (length (m_tail m))) with 0 by lia. replace (pred (length l)) with 0 by lia.
    cbn [take]. split; [done|done|]. by exists h. }
  rewrite land_mask. pose proof (tail_offset_divide (m_size m)) as [q Hq].
  assert (0 < (m_size m - 1) mod 32 ↔ 1 < m_size m - tail_offset (m_size m)) as Hroom.
  { destruct (tail_index (m_size m) (m_size m - 1)) as [-> _]; lia. }
  destruct (Nat.ltb_spec 0 ((m_size m - 1) mod 32)) as [Hr|Hr].
  { eexists. split; [done|]. split; [done|]. apply shaped_pop_room; [done|by apply Hroom]. }
  edestruct (shaped_pop_root _ _ _ _ _
    (λ n, node_token (ensure_editable unique n (token m))) (token m) Hm)
    as (nt & o & root' & sh' & Hleaf & Hpop & Hcol & Hs & Hlike); [lia|lia|].
  rewrite Hleaf. cbn [mbind option_bind]. rewrite (pop_tail_editable_stamped _ _ _ _ _ _ Hlike), Hpop.
  cbn [mbind option_bind]. unfold editable_empty_branch. rewrite Hcol. cbn [mbind option_bind fst snd].
  eexists. split; [done|]. split; [done|]. cbn [m_size m_shift m_root m_tail].
  destruct (sh' =? m_shift m); [done|]. destruct Hs as [Hs1 Hs2 (h & Hs3 & Hs4 & Hs5)].
  split; [done|done|]. exists h. by rewrite like_ensure.
Qed.

(** A session, on the transient and on the list; [None] is a panic. *)
Inductive edit :=
| EPush (x : E)
| EAssoc (i : nat) (x : E)
| EPop
| EClear.

Definition apply_edit m (e : edit) : option (Mutable E) :=
  match e with
  | EPush x => mutable_push_last unique m x
  | EAssoc i x => mutable_assoc unique m i x
  | EPop => snd <$> mutable_pop_last unique m
  | EClear => mutable_empty m
  end.

Definition edit_list l (e : edit) : option (list E) :=
  match e with
  | EPush x => Some (l ++ [x])
  | EAssoc i x => if decide (i ≤ length l) then Some (assigned l i x) else None
  | EPop => Some (take (pred (length l)) l)
  | EClear => Some []
  end.

Fixpoint session {A} (apply : A → edit → option A) (a : A) (es : list edit) : option A :=
  match es with
  | [] => Some a
  | e :: es => a ← apply a e; session apply a es
  end.

Lemma apply_edit_correct m l e :
  mrep m l → match edit_list l e with
             | Some l' => ∃ m', apply_edit m e = Some m' ∧ mrep m' l'
             | None => apply_edit m e = None
             end.
Proof.
  intros Hm. destruct e as [x|i x| |]; cbn [edit_list apply_edit].
  - by apply mrep_push.
  - pose proof (mrep_assoc m l i x Hm) as Ha. case_decide as Hi; destruct (mutable_assoc _ _ _ _) as [m'|].
    + exists m'. by destruct Ha.
    + lia.
    + lia.
    + done.
  - destruct (mrep_pop m l Hm) as (m' & -> & Hm'). by exists m'.
  - destruct Hm as [He _]. unfold mutable_empty, check_editable. rewrite He. cbn [mbind option_bind].
    eexists. split; [done|]. split; [done|]. apply shaped_nil.
Qed.

Lemma session_correct m l es :
  mrep m l → match session edit_list l es with
             | Some l' => ∃ m', session apply_edit m es = Some m' ∧ mrep m' l'
             | None => session apply_edit m es = None
             end.
Proof.
  revert m l. induction es as [|e es IH]; intros m l Hm; cbn [session]; [by exists m|].
  pose proof (apply_edit_correct m l e Hm) as He. destruct (edit_list l e) as [l'|]; cbn [mbind option_bind].
  - destruct He as (m' & -> & Hm'). by apply IH.
  - by rewrite He.
Qed.

Lemma from_standard_mrep token v l : rep v l → mrep (from_standard token v) l.
Proof.
  intros [Hn Ht (h & Hsh & Hlike & Hmin)]. split; [done|]. split; [done|done|].
  exists h. cbn [from_standard m_shift m_root m_size]. by rewrite like_token.
Qed.

Lemma mrep_extend values m l :
  mrep m l → ∃ m', mutable_extend unique m values = Some m' ∧ mrep m' (l ++ values).
Proof.
  revert m l. induction values as [|x values IH]; intros m l Hm; cbn [mutable_extend].
  - exists m. by rewrite app_nil_r.
  - destruct (mrep_push m l x Hm) as (m' & -> & Hm'). cbn [mbind option_bind].
    destruct (IH m' _ Hm') as (m2 & H2 & Hr). exists m2. by rewrite <-app_assoc in Hr.
Qed.

Lemma from_iter_rep token values : ∃ v, from_iter unique token values = Some v ∧ rep v values.
Proof.
  unfold from_iter, mutable_from_iter.
  destruct (mrep_extend values (mutable_new token) []) as (m & -> & Hm);
    [split; [done|apply shaped_nil]|].
  destruct Hm as [He Hs]. cbn [mbind option_bind]. unfold to_persistent, check_editable. rewrite He.
  cbn [mbind option_bind fst]. by eexists.
Qed.

(** A transient session started from a vector panics exactly when it writes
    beyond the length, and otherwise freezes into a vector of the edited list,
    whichever nodes were changed in place; a frozen transient can no longer be
    edited. Building a vector from a list gives that list. *)
Theorem transient_vector_correct token v l es :
  rep v l →
  match session edit_list l es with
  | None => session apply_edit (from_standard token v) es = None
  | Some l' =>
      ∃ m v' m', session apply_edit (from_standard token v) es = Some m ∧
        (∀ i, mutable_get m i = Some (l' !! i)) ∧
        to_persistent m = Some (v', m') ∧ rep v' l' ∧ (∀ e, apply_edit m' e = None)
  end ∧
  (∀ token values, ∃ v', from_iter unique token values = Some v' ∧ rep v' values).
Proof.
  intros Hv. split.
  - pose proof (session_correct _ l es (from_standard_mrep token v l Hv)) as Hs.
    destruct (session edit_list l es) as [l'|]; [|done]. destruct Hs as (m & Hm & Hr).
    pose proof Hr as [He Hsh]. unfold to_persistent, mutable_get, check_editable.
    exists m. rewrite He. cbn [mbind option_bind]. eexists _, _. split_and!; [done| |done|exact Hsh|].
    + intros i. by rewrite (mrep_get m l').
    + by intros [].
  - intros. apply from_iter_rep.
Qed.
End transient.

(** ** Concrete vectors *)
Definition shared {E} (n : Node E) : bool := false.

Definition numbers : Standard nat :=
  default standard_new (from_iter shared 1 (seq 0 1057)).

Lemma numbers_rep : rep numbers (seq 0 1057).
Proof.
  unfold numbers. destruct (from_iter_rep (E:=nat) shared 1 (seq 0 1057)) as (v & -> & Hv). exact Hv.
Qed.

(** 1057 elements: 33 full leaves under two levels of branches, and a tail of one. *)
Lemma persistent_vector_correct_witness :
  shift numbers = 10 ∧ get numbers 1040 = Some 1040 ∧
  ∃ v, pop_last_value numbers = Some (Some v) ∧ rep v (seq 0 1056).
Proof.
  split; [vm_compute; reflexivity|].
  destruct (persistent_vector_correct numbers (seq 0 1057) numbers_rep) as (_ & Hget & _ & _ & r & Hr & Hl).
  split; [rewrite Hget; vm_compute; reflexivity|].
  destruct r as [v|]; [|discriminate Hl]. exists v. split; [exact Hr|]. exact (proj1 (proj2 Hl)).
Defined.

Lemma owned_updates_agree_witness :
  rep numbers (seq 0 1057) ∧
  ∃ v1 v2, push_last numbers 9 = Some v1 ∧ push_last_owned shared numbers 9 = Some v2 ∧
     ∀ j, get v1 j = get v2 j.
Proof.
  split; [exact numbers_rep|]. exact (proj1 (owned_updates_agree shared numbers _ 9 7 numbers_rep)).
Defined.

Lemma numbers_view : subview numbers 1000 1040 = Some (mkSubView numbers 1000 1040).
Proof. unfold subview. replace (size numbers) with 1057 by (vm_compute; reflexivity). reflexivity. Qed.

Lemma views_correct_witness :
  ∃ s, subview numbers 1000 1040 = Some s ∧ view_get s 5 = Some 1005.
Proof.
  pose proof (views_correct numbers _ 1000 1040 numbers_rep) as [_ Hs].
  rewrite numbers_view in Hs. destruct Hs as (_ & _ & Hget & _).
  exists (mkSubView numbers 1000 1040). split; [exact numbers_view|].
  rewrite Hget. vm_compute. reflexivity.
Defined.

Lemma transient_vector_correct_witness :
  ∃ m, session (apply_edit shared) (from_standard 2 numbers) [EPop; EAssoc 3 8; EPush 1] = Some m ∧
    mutable_get m 3 = Some (Some 8) ∧ mutable_get m 1056 = Some (Some 1).
Proof.
  pose proof (transient_vector_correct shared 2 numbers _ [EPop; EAssoc 3 8; EPush 1] numbers_rep) as [H _].
  vm_compute (session edit_list _ _) in H. destruct H as (m & v' & m' & Hm & Hget & _).
  exists m. split; [exact Hm|]. split; rewrite Hget; vm_compute; reflexivity.
Defined.
