(* ===== verification/Bits.v ===== *)
(** * Bitmaps and growable vectors

    The set of slots a [u32] bitmap denotes, its population count and the
    position of a slot among those present; Rust's [Vec::insert] and
    [Vec::remove], where [None] is a panic. *)
From S2P Require Import Prelude.

Fixpoint positive_ones (p : positive) : nat :=
  match p with
  | xH => 1
  | xO p => positive_ones p
  | xI p => S (positive_ones p)
  end.

(** [u32::count_ones]. *)
Definition count_ones (n : N) : nat :=
  match n with N0 => 0 | Npos p => positive_ones p end.

Definition vec_insert {A} (i : nat) (x : A) (l : list A) : option (list A) :=
  if i <=? length l then Some (take i l ++ x :: drop i l) else None.

Definition vec_remove {A} (i : nat) (l : list A) : option (list A) :=
  if i <? length l then Some (take i l ++ drop (S i) l) else None.

(** The slots below [w] that the bitmap holds, ascending. *)
Definition has (bitmap : N) (m : nat) : bool := N.testbit bitmap (N.of_nat m).
Definition members (w : nat) (bitmap : N) : list nat := filter (λ m, has bitmap m = true) (seq 0 w).
Definition one_bit (m : nat) : N := N.shiftl 1 (N.of_nat m).

Lemma vec_insert_app {A} (x : A) l r : vec_insert (length l) x (l ++ r) = Some (l ++ x :: r).
Proof.
  unfold vec_insert. rewrite length_app. destruct (Nat.leb_spec (length l) (length l + length r)); [|lia].
  by rewrite take_app_length, drop_app_length.
Qed.

Lemma vec_remove_app {A} (x : A) l r : vec_remove (length l) (l ++ x :: r) = Some (l ++ r).
Proof.
  unfold vec_remove. rewrite length_app. cbn [length].
  destruct (Nat.ltb_spec (length l) (length l + S (length r))); [|lia].
  rewrite take_app_length, <-Nat.add_1_r, drop_app_add. done.
Qed.

Lemma has_one_bit m n : has (one_bit m) n = bool_decide (m = n).
Proof.
  unfold has, one_bit. rewrite N.shiftl_1_l, N.pow2_bits_eqb.
  destruct (N.eqb_spec (N.of_nat m) (N.of_nat n)); case_bool_decide; done || lia.
Qed.

Lemma has_set bitmap m n : has (N.lor bitmap (one_bit m)) n = has bitmap n || bool_decide (m = n).
Proof. rewrite <-has_one_bit. apply N.lor_spec. Qed.

Lemma has_flip bitmap m n : has (N.lxor bitmap (one_bit m)) n = xorb (has bitmap n) (bool_decide (m = n)).
Proof. rewrite <-has_one_bit. apply N.lxor_spec. Qed.

Lemma has_land bitmap m : negb (N.land bitmap (one_bit m) =? 0)%N = has bitmap m.
Proof.
  destruct (has bitmap m) eqn:Hm.
  - apply negb_true_iff, N.eqb_neq. intros H0. assert (has (N.land bitmap (one_bit m)) m = true) as H.
    { unfold has. rewrite N.land_spec. fold (has bitmap m) (has (one_bit m) m).
      by rewrite Hm, has_one_bit, bool_decide_true. }
    rewrite H0 in H. unfold has in H. by rewrite N.bits_0 in H.
  - apply negb_false_iff, N.eqb_eq, N.bits_inj_0. intros n. rewrite N.land_spec.
    rewrite <-(N2Nat.id n). fold (has bitmap (N.to_nat n)) (has (one_bit m) (N.to_nat n)).
    rewrite has_one_bit. case_bool_decide; subst; [by rewrite Hm|by rewrite andb_false_r].
Qed.

Lemma filter_agree {A} (P Q : A → Prop) `{∀ x, Decision (P x), ∀ x, Decision (Q x)} (l : list A) :
  (∀ x, x ∈ l → P x ↔ Q x) → filter P l = filter Q l.
Proof.
  induction l as [|x l IH]; intros H1; [done|]. rewrite !filter_cons, IH by (intros; apply H1; by right).
  pose proof (H1 x ltac:(by left)). repeat case_decide; done || tauto.
Qed.

Lemma members_elem w bitmap m : m ∈ members w bitmap ↔ has bitmap m = true ∧ m < w.
Proof. unfold members. rewrite list_elem_of_filter, elem_of_seq. intuition lia. Qed.

Lemma members_S w bitmap :
  members (S w) bitmap = (if has bitmap 0 then [0] else []) ++ (S <$> members w (N.div2 bitmap)).
Proof.
  unfold members. cbn [seq]. rewrite filter_cons.
  assert (filter (λ m, has bitmap m = true) (seq 1 w) =
          S <$> filter (λ m, has (N.div2 bitmap) m = true) (seq 0 w)) as ->.
  { rewrite <-fmap_S_seq. induction (seq 0 w) as [|i l IH]; [done|].
    rewrite fmap_cons, !filter_cons, IH. unfold has. rewrite N.div2_spec, N.shiftr_spec by lia.
    replace (N.of_nat i + 1)%N with (N.of_nat (S i)) by lia. by case_decide. }
  by destruct (has bitmap 0).
Qed.

Lemma count_ones_div2 n : count_ones n = Nat.b2n (has n 0) + count_ones (N.div2 n).
Proof. by destruct n as [|[]]. Qed.

Lemma count_ones_members w bitmap :
  (bitmap < 2 ^ N.of_nat w)%N → count_ones bitmap = length (members w bitmap).
Proof.
  revert bitmap. induction w as [|w IH]; intros bitmap Hb.
  - assert (bitmap = 0)%N as -> by (cbn in Hb; lia). done.
  - rewrite count_ones_div2, members_S, length_app, length_fmap, <-IH.
    + by destruct (has bitmap 0).
    + rewrite Nat2N.inj_succ, N.pow_succ_r' in Hb. rewrite N.div2_div. apply N.Div0.div_lt_upper_bound. lia.
Qed.

(** [(bitmap & (bit - 1)).count_ones()] is the number of slots present below. *)
Lemma index_members bitmap m :
  count_ones (N.land bitmap (one_bit m - 1)) = length (members m bitmap).
Proof.
  assert (one_bit m - 1 = N.ones (N.of_nat m))%N as ->.
  { unfold one_bit, N.ones. by rewrite N.sub_1_r. }
  rewrite (count_ones_members m).
  - f_equal. apply filter_agree. intros n [_ Hn]%elem_of_seq. unfold has.
    rewrite N.land_spec, N.ones_spec_low by lia. by rewrite andb_true_r.
  - rewrite N.land_ones. apply N.mod_lt. apply N.pow_nonzero. lia.
Qed.

(** The slots above [m]. *)
Definition above (w m : nat) (bitmap : N) : list nat :=
  filter (λ m, has bitmap m = true) (seq (S m) (w - S m)).

Lemma members_split w m bitmap :
  m < w →
  members w bitmap = members m bitmap ++ (if has bitmap m then [m] else []) ++ above w m bitmap.
Proof.
  intros Hm. unfold members, above. replace w with (m + S (w - S m)) at 1 by lia.
  rewrite seq_app, filter_app. cbn [seq Nat.add]. rewrite filter_cons.
  by destruct (has bitmap m).
Qed.

Lemma members_agree w m b b' :
  (∀ n, n ≠ m → has b n = has b' n) → members m b = members m b' ∧ above w m b = above w m b'.
Proof.
  intros H. split; apply filter_agree; intros n Hn%elem_of_seq; rewrite H by lia; done.
Qed.

Lemma members_set w m bitmap :
  m < w → members w (N.lor bitmap (one_bit m)) = members m bitmap ++ m :: above w m bitmap.
Proof.
  intros Hm. rewrite (members_split w m) by done.
  destruct (members_agree w m (N.lor bitmap (one_bit m)) bitmap) as [-> ->].
  { intros n Hn. by rewrite has_set, bool_decide_false, orb_false_r. }
  by rewrite has_set, bool_decide_true, orb_true_r.
Qed.

Lemma members_clear w m bitmap :
  m < w → has bitmap m = true →
  members w (N.lxor bitmap (one_bit m)) = members m bitmap ++ above w m bitmap.
Proof.
  intros Hm Hh. rewrite (members_split w m) by done.
  destruct (members_agree w m (N.lxor bitmap (one_bit m)) bitmap) as [-> ->].
  { intros n Hn. by rewrite has_flip, bool_decide_false, xorb_false_r. }
  by rewrite has_flip, Hh, bool_decide_true.
Qed.

Lemma below_pow2 bitmap w : (∀ m, has bitmap m = true → m < w) → (bitmap < 2 ^ N.of_nat w)%N.
Proof.
  intros H. destruct (N.eq_dec bitmap 0) as [->|Hn]; [apply N.neq_0_lt_0, N.pow_nonzero; lia|].
  apply N.log2_lt_pow2; [lia|]. pose proof (H (N.to_nat (N.log2 bitmap))) as Hl. unfold has in Hl.
  rewrite N2Nat.id in Hl. specialize (Hl (N.bit_log2 _ Hn)). lia.
Qed.

Lemma has_below bitmap w m : (bitmap < 2 ^ N.of_nat w)%N → has bitmap m = true → m < w.
Proof.
  intros Hb Hm. apply Nat.nle_gt. intros Hle. unfold has in Hm.
  destruct (N.eq_dec bitmap 0) as [->|Hn]; [by rewrite N.bits_0 in Hm|].
  rewrite N.bits_above_log2 in Hm; [done|]. apply N.log2_lt_pow2 in Hb; lia.
Qed.

Lemma set_below bitmap w m :
  (bitmap < 2 ^ N.of_nat w)%N → m < w → (N.lor bitmap (one_bit m) < 2 ^ N.of_nat w)%N.
Proof.
  intros Hb Hm. apply below_pow2. intros n. rewrite has_set, orb_true_iff, bool_decide_eq_true.
  intros [H| ->]; [by eapply has_below|done].
Qed.

Lemma clear_below bitmap w m :
  (bitmap < 2 ^ N.of_nat w)%N → has bitmap m = true → (N.lxor bitmap (one_bit m) < 2 ^ N.of_nat w)%N.
Proof.
  intros Hb Hm. apply below_pow2. intros n. rewrite has_flip.
  case_bool_decide; subst; [by rewrite Hm|]. rewrite xorb_false_r. by apply has_below.
Qed.

Lemma filter_none {A} (P : A → Prop) `{∀ x, Decision (P x)} (l : list A) :
  (∀ x, x ∈ l → ¬ P x) → filter P l = [].
Proof.
  induction l as [|x l IH]; intros H1; [done|].
  rewrite filter_cons, decide_False by (apply H1; by left). apply IH. intros y Hy. apply H1. by right.
Qed.

Lemma members_one w m : m < w → members w (one_bit m) = [m].
Proof.
  intros Hm. rewrite (members_split w m) by done.
  unfold members, above. rewrite !filter_none, has_one_bit, bool_decide_true; [done|done|..];
    intros n Hn%elem_of_seq; rewrite has_one_bit, bool_decide_eq_true; lia.
Qed.

Lemma members_two w a b : a < b → b < w → members w (N.lor (one_bit a) (one_bit b)) = [a; b].
Proof.
  intros Ha Hb. rewrite members_set, members_one by lia. unfold above.
  rewrite filter_none; [done|]. intros n Hn%elem_of_seq. rewrite has_one_bit, bool_decide_eq_true. lia.
Qed.

Lemma members_zero w : members w 0 = [].
Proof. apply filter_none. intros n _. unfold has. by rewrite N.bits_0. Qed.

Lemma one_bit_below w m : m < w → (one_bit m < 2 ^ N.of_nat w)%N.
Proof. intros Hm. apply below_pow2. intros n. rewrite has_one_bit, bool_decide_eq_true. lia. Qed.

Lemma has_zero m : has 0 m = false.
Proof. apply N.bits_0. Qed.

Lemma land_has bitmap m : (N.land bitmap (one_bit m) =? 0)%N = negb (has bitmap m).
Proof. by rewrite <-has_land, negb_involutive. Qed.

Lemma count_ones_one_bit m : count_ones (one_bit m) = 1.
Proof. rewrite (count_ones_members (S m)), members_one by (try apply one_bit_below; lia). done. Qed.

Lemma members_nil w bitmap : (bitmap < 2 ^ N.of_nat w)%N → members w bitmap = [] → bitmap = 0%N.
Proof.
  intros Hb Hm. apply N.bits_inj_0. intros n. destruct (N.testbit bitmap n) eqn:E; [|done].
  assert (has bitmap (N.to_nat n) = true) as Hn by (unfold has; by rewrite N2Nat.id).
  assert (N.to_nat n ∈ members w bitmap) as Hin by (apply members_elem; split; [done|by eapply has_below]).
  rewrite Hm in Hin. by apply elem_of_nil in Hin.
Qed.

Lemma vec_remove_insert {A} i (x : A) l : vec_remove i (<[i := x]> l) = vec_remove i l.
Proof.
  unfold vec_remove. rewrite length_insert. destruct (i <? length l); [|done].
  by rewrite take_insert_ge, drop_insert_lt by lia.
Qed.
