(* ===== verification/HashMap.v ===== *)
(** * The persistent hash map

    [src/core/rust/src/lang/data/map.rs]: a compressed hash-array mapped prefix
    tree. A data node keeps its entries at the front of its slots, ascending by
    the hash bits of its level, and its sub-nodes at the end, descending; two
    bitmaps tell which bits are which. Keys whose hashes agree share a collision
    node. [None] is a panic, an overflowing shift, or the end of the recursion's
    fuel, of which [DEPTH] suffices for 64-bit hashes. The identity token of a
    map ([same_identity]) is not modelled. *)
From S2P Require Import Prelude Kernel Bits.

Definition SHIFT : nat := 5.
Definition MASK : N := 31.
Definition DEPTH : nat := 14.

(** What a key's [Hash] writes to its hasher. *)
Inductive hash_write :=
| Write (bytes : list N)
| WriteU64 (value : N).

(** [K: Clone + Eq + Hash], with the standard library's [DefaultHasher]. *)
Class Key (K : Type) := {
  key_eq : K → K → bool;
  hash_writes : K → list hash_write;
  default_finish : list (list N) → N;
}.

Class KeyLaws (K : Type) `{Key K} : Prop := {
  key_eq_refl x : key_eq x x = true;
  key_eq_sym x y : key_eq x y = true → key_eq y x = true;
  key_eq_trans x y z : key_eq x y = true → key_eq y z = true → key_eq x z = true;
  key_eq_hash x y : key_eq x y = true → hash_writes x = hash_writes y;
  default_finish_u64 bytes : (default_finish bytes < 2 ^ 64)%N;
}.

(** The probe takes the low half of the first [u64] written, if there is one. *)
Definition probe_captured (writes : list hash_write) : option N :=
  head (omap (λ w, match w with WriteU64 value => Some value | Write _ => None end) writes).

Definition probe_fallback (writes : list hash_write) : list (list N) :=
  omap (λ w, match w with Write bytes => Some bytes | WriteU64 _ => None end) writes.

Definition key_hash `{Key K} (key : K) : N :=
  match probe_captured (hash_writes key) with
  | Some hash => (hash mod 2 ^ 32)%N
  | None => default_finish (probe_fallback (hash_writes key))
  end.

Definition mask (hash : N) (shift : nat) : option nat :=
  if shift <? 64 then Some (N.to_nat (N.land (N.shiftr hash (N.of_nat shift)) MASK)) else None.

Definition bit (hash : N) (shift : nat) : option N :=
  one_bit <$> mask hash shift.

Definition index (bitmap bit : N) : nat := count_ones (N.land bitmap (bit - 1)).

Section map.
Context {K V : Type} `{Key K}.

Inductive Node :=
| Data (edit datamap nodemap : N) (slots : list Slot)
| Collision (edit hash : N) (entries : list (K * V))
with Slot :=
| Entry (hash : N) (key : K) (value : V)
| Sub (node : Node).

Definition empty_node : Node := Data 0 0 0 [].

Definition is_single (node : Node) : bool :=
  match node with
  | Data _ datamap nodemap _ => (nodemap =? 0)%N && (count_ones datamap =? 1)
  | Collision _ _ entries => length entries =? 1
  end.

Definition node_slot (datamap nodemap bit : N) : nat :=
  count_ones datamap + (count_ones nodemap - 1 - index nodemap bit).

(** The token a node is stamped with by [ensure], [0] outside of a transient. *)
Definition stamp (edit : option N) : N := default 0%N edit.

Fixpoint merge_two (fuel : nat) (edit : option N) (shift : nat)
    (a_hash : N) (a_key : K) (a_val : V) (b_hash : N) (b_key : K) (b_val : V) : option Node :=
  match fuel with
  | O => None
  | S fuel =>
      if (32 <? shift) && (a_hash =? b_hash)%N then
        Some (Collision (stamp edit) a_hash [(a_key, a_val); (b_key, b_val)])
      else
        abit ← bit a_hash shift; bbit ← bit b_hash shift;
        if (abit =? bbit)%N then
          node ← merge_two fuel edit (shift + SHIFT) a_hash a_key a_val b_hash b_key b_val;
          Some (Data (stamp edit) 0 abit [Sub node])
        else
          amask ← mask a_hash shift; bmask ← mask b_hash shift;
          Some (Data (stamp edit) (N.lor abit bbit) 0
                  (if amask <? bmask then [Entry a_hash a_key a_val; Entry b_hash b_key b_val]
                   else [Entry b_hash b_key b_val; Entry a_hash a_key a_val]))
  end.

Fixpoint merge_node (fuel : nat) (edit : option N) (shift : nat) (node_hash : N) (node : Node)
    (hash : N) (key : K) (value : V) : option Node :=
  match fuel with
  | O => None
  | S fuel =>
      abit ← bit node_hash shift; bbit ← bit hash shift;
      if (abit =? bbit)%N then
        node ← merge_node fuel edit (shift + SHIFT) node_hash node hash key value;
        Some (Data (stamp edit) 0 abit [Sub node])
      else Some (Data (stamp edit) bbit abit [Entry hash key value; Sub node])
  end.

(** [Iterator::position] of a key. *)
Fixpoint position (key : K) (entries : list (K * V)) : option nat :=
  match entries with
  | [] => None
  | (k, _) :: entries => if key_eq k key then Some 0 else S <$> position key entries
  end.

(** Whether a pair was added, and the node. *)
Fixpoint assoc_node (fuel : nat) (edit : option N) (shift : nat) (hash : N) (key : K) (value : V)
    (node : Node) : option (bool * Node) :=
  match fuel with
  | O => None
  | S below =>
      match node with
      | Collision _ node_hash entries =>
          if (node_hash =? hash)%N then
            match position key entries with
            | Some i =>
                entry ← entries !! i;
                Some (false, Collision (stamp edit) node_hash (<[i := (entry.1, value)]> entries))
            | None => Some (true, Collision (stamp edit) node_hash (entries ++ [(key, value)]))
            end
          else
            merged ← merge_node fuel edit shift node_hash node hash key value;
            Some (true, merged)
      | Data _ datamap nodemap slots =>
          b ← bit hash shift;
          if negb (N.land datamap b =? 0)%N then
            let i := index datamap b in
            slot ← slots !! i;
            match slot with
            | Entry old_hash old_key old_value =>
                if key_eq old_key key then
                  Some (false, Data (stamp edit) datamap nodemap (<[i := Entry hash key value]> slots))
                else
                  merged ← merge_two below edit (shift + SHIFT) old_hash old_key old_value hash key value;
                  slots ← vec_remove i slots;
                  let datamap := N.lxor datamap b in
                  let nodemap := N.lor nodemap b in
                  slots ← vec_insert (node_slot datamap nodemap b) (Sub merged) slots;
                  Some (true, Data (stamp edit) datamap nodemap slots)
            | Sub _ => None
            end
          else if negb (N.land nodemap b =? 0)%N then
            let i := node_slot datamap nodemap b in
            slot ← slots !! i;
            match slot with
            | Sub child =>
                result ← assoc_node below edit (shift + SHIFT) hash key value child;
                Some (result.1, Data (stamp edit) datamap nodemap (<[i := Sub result.2]> slots))
            | Entry _ _ _ => None
            end
          else
            slots ← vec_insert (index datamap b) (Entry hash key value) slots;
            Some (true, Data (stamp edit) (N.lor datamap b) nodemap slots)
      end
  end.

(** The inner option is whether the key is there. *)
Fixpoint find_node (fuel : nat) (shift : nat) (hash : N) (key : K) (node : Node) :
    option (option (K * V)) :=
  match fuel with
  | O => None
  | S fuel =>
      match node with
      | Collision _ node_hash entries =>
          if (node_hash =? hash)%N then Some (i ← position key entries; entries !! i) else Some None
      | Data _ datamap nodemap slots =>
          b ← bit hash shift;
          if negb (N.land datamap b =? 0)%N then
            slot ← slots !! index datamap b;
            match slot with
            | Entry _ k v => Some (if key_eq k key then Some (k, v) else None)
            | Sub _ => Some None
            end
          else if negb (N.land nodemap b =? 0)%N then
            slot ← slots !! node_slot datamap nodemap b;
            match slot with
            | Sub child => find_node fuel (shift + SHIFT) hash key child
            | Entry _ _ _ => Some None
            end
          else Some None
      end
  end.

(** The pair of a node that holds just one, as an entry. *)
Definition lifted_entry (node : Node) : option Slot :=
  match node with
  | Data _ _ _ slots =>
      slot ← slots !! 0; match slot with Entry _ _ _ => Some slot | Sub _ => None end
  | Collision _ hash entries => entry ← entries !! 0; Some (Entry hash entry.1 entry.2)
  end.

(** The entry of a pair whose key is not [key]. *)
Definition other_entry (key : K) (entries : list (K * V)) : option (K * V) :=
  snd <$> list_find (λ e, key_eq e.1 key = false) entries.

Fixpoint without_present (fuel : nat) (edit : option N) (shift : nat) (hash : N) (key : K)
    (node : Node) : option Node :=
  match fuel with
  | O => None
  | S fuel =>
      match node with
      | Collision _ node_hash entries =>
          if negb (node_hash =? hash)%N then None
          else if length entries =? 1 then Some (Data (stamp edit) 0 0 [])
          else if length entries =? 2 then
            kept ← other_entry key entries;
            b ← bit hash 0;
            Some (Data (stamp edit) b 0 [Entry hash kept.1 kept.2])
          else
            i ← position key entries;
            entries ← vec_remove i entries;
            Some (Collision (stamp edit) node_hash entries)
      | Data _ datamap nodemap slots =>
          b ← bit hash shift;
          if negb (N.land datamap b =? 0)%N then
            let i := index datamap b in
            if (count_ones datamap =? 2) && (nodemap =? 0)%N then
              new_datamap ← (if shift =? 0 then Some (N.lxor datamap b) else bit hash 0);
              kept ← slots !! (if i =? 0 then 1 else 0);
              Some (Data (stamp edit) new_datamap 0 [kept])
            else
              slots ← vec_remove i slots;
              Some (Data (stamp edit) (N.lxor datamap b) nodemap slots)
          else if (N.land nodemap b =? 0)%N then None
          else
            let i := node_slot datamap nodemap b in
            slot ← slots !! i;
            match slot with
            | Entry _ _ _ => None
            | Sub child =>
                child ← without_present fuel edit (shift + SHIFT) hash key child;
                if negb (is_single child) then
                  Some (Data (stamp edit) datamap nodemap (<[i := Sub child]> slots))
                else if (datamap =? 0)%N && (count_ones nodemap =? 1) then Some child
                else
                  lifted ← lifted_entry child;
                  slots ← vec_remove (node_slot datamap nodemap b) (<[i := Sub child]> slots);
                  let nodemap := N.lxor nodemap b in
                  let datamap := N.lor datamap b in
                  slots ← vec_insert (index datamap b) lifted slots;
                  Some (Data (stamp edit) datamap nodemap slots)
            end
      end
  end.

(** The entries in iteration order. *)
Fixpoint collect (fuel : nat) (node : Node) : option (list (K * V)) :=
  match fuel with
  | O => None
  | S fuel =>
      match node with
      | Collision _ _ entries => Some entries
      | Data _ datamap _ slots =>
          let data_arity := count_ones datamap in
          data ← mapM (λ slot, match slot with Entry _ k v => Some (k, v) | Sub _ => None end)
                   (take data_arity slots);
          children ← mapM (λ slot, match slot with Sub child => collect fuel child | Entry _ _ _ => None end)
                       (drop data_arity slots);
          Some (data ++ concat children)
      end
  end.

Record Standard := mkStandard {
  metadata : option Metadata;
  root : Node;
  size : nat;
}.

Definition standard_new : Standard := mkStandard None empty_node 0.

Definition find_entry (m : Standard) (key : K) : option (option (K * V)) :=
  find_node DEPTH 0 (key_hash key) key (root m).

Definition get (m : Standard) (key : K) : option (option V) :=
  found ← find_entry m key; Some (snd <$> (found : option (K * V))).

Definition assoc_value (m : Standard) (key : K) (value : V) : option Standard :=
  result ← assoc_node DEPTH None 0 (key_hash key) key value (root m);
  Some (mkStandard (metadata m) result.2 (size m + Nat.b2n result.1)).

Definition assoc_value_owned (m : Standard) (key : K) (value : V) : option Standard :=
  result ← assoc_node DEPTH (Some 0%N) 0 (key_hash key) key value (root m);
  Some (mkStandard (metadata m) result.2 (size m + Nat.b2n result.1)).

Definition dissoc_value (m : Standard) (key : K) : option Standard :=
  let hash := key_hash key in
  found ← find_node DEPTH 0 hash key (root m);
  match found with
  | None => Some m
  | Some _ =>
      root ← without_present DEPTH None 0 hash key (root m);
      Some (mkStandard (metadata m) root (size m - 1))
  end.

Definition entries (m : Standard) : option (list (K * V)) := collect DEPTH (root m).

Fixpoint extend (m : Standard) (items : list (K * V)) : option Standard :=
  match items with
  | [] => Some m
  | (key, value) :: items => m ← assoc_value m key value; extend m items
  end.

Definition from_iter (items : list (K * V)) : option Standard := extend standard_new items.

(** [entries().iter().all(...)] of [PartialEq], for the equality of the values. *)
Fixpoint all_match (value_eq : V → V → bool) (other : Standard) (es : list (K * V)) : option bool :=
  match es with
  | [] => Some true
  | (k, v) :: es =>
      found ← get other k;
      match found with
      | Some w => if value_eq w v then all_match value_eq other es else Some false
      | None => Some false
      end
  end.

Definition standard_eq (value_eq : V → V → bool) (m other : Standard) : option bool :=
  if negb (size m =? size other) then Some false
  else es ← entries m; all_match value_eq other es.

(** ** The transient map *)
Record Mutable := mkMutable {
  editable : bool;
  token : N;
  standard : Standard;
}.

Definition to_mutable (token : N) (m : Standard) : Mutable := mkMutable true token m.

Definition check (m : Mutable) : option () := if editable m then Some tt else None.

Definition mutable_assoc (m : Mutable) (key : K) (value : V) : option Mutable :=
  check m;;
  result ← assoc_node DEPTH (Some (token m)) 0 (key_hash key) key value (root (standard m));
  Some (mkMutable (editable m) (token m)
          (mkStandard (metadata (standard m)) result.2 (size (standard m) + Nat.b2n result.1))).

Definition mutable_dissoc (m : Mutable) (key : K) : option Mutable :=
  check m;;
  let hash := key_hash key in
  found ← find_node DEPTH 0 hash key (root (standard m));
  match found with
  | None => Some m
  | Some _ =>
      root ← without_present DEPTH (Some (token m)) 0 hash key (root (standard m));
      Some (mkMutable (editable m) (token m)
              (mkStandard (metadata (standard m)) root (size (standard m) - 1)))
  end.

Definition mutable_get (m : Mutable) (key : K) : option (option V) :=
  check m;; get (standard m) key.

(** Freezes the transient: the result and the transient afterwards. *)
Definition to_persistent (m : Mutable) : option (Standard * Mutable) :=
  check m;; Some (standard m, mkMutable false (token m) (standard m)).
End map.
Arguments Node : clear implicits.
Arguments Slot : clear implicits.
Arguments Standard : clear implicits.
Arguments Mutable : clear implicits.
