(* ===== verification/HashMapFacts.v ===== *)
(** * The hash map implements finite maps

    A node holds a list of entries ([holds]), the one its iteration yields; each
    update of a node is an update of that list. The claims state the map's
    operations on lookups, entries and size. *)
From S2P Require Import Prelude Kernel Bits HashMap.

(** ** Digits of a hash

    The bits a level looks at, and those all levels above it have looked at. *)
Definition digit (hash : N) (shift : nat) : nat := N.to_nat ((hash / 2 ^ N.of_nat shift) mod 32).
Definition prefix (hash : N) (shift : nat) : N := (hash mod 2 ^ N.of_nat shift)%N.

Lemma digit_lt hash shift : digit hash shift < 32.
Proof. unfold digit. pose proof (N.mod_lt (hash / 2 ^ N.of_nat shift) 32). lia. Qed.

Lemma mask_digit hash shift : shift < 64 → mask hash shift = Some (digit hash shift).
Proof.
  intros Hs. unfold mask, digit, MASK. destruct (Nat.ltb_spec shift 64); [|lia].
  by rewrite N.shiftr_div_pow2, (N.land_ones _ 5 : N.land _ 31 = _).
Qed.

Lemma bit_digit hash shift : shift < 64 → bit hash shift = Some (one_bit (digit hash shift)).
Proof. intros Hs. unfold bit. by rewrite mask_digit. Qed.

Lemma prefix_zero a b : prefix a 0 = prefix b 0.
Proof. unfold prefix. cbn. by rewrite !N.mod_1_r. Qed.

Lemma prefix_step a b shift :
  prefix a (shift + SHIFT) = prefix b (shift + SHIFT) ↔
  prefix a shift = prefix b shift ∧ digit a shift = digit b shift.
Proof.
  unfold prefix, digit, SHIFT. set (p := (2 ^ N.of_nat shift)%N).
  assert (p ≠ 0)%N by (apply N.pow_nonzero; lia).
  assert (∀ h, h mod 2 ^ N.of_nat (shift + 5) = h mod p + p * ((h / p) mod 32))%N as Hm.
  { intros h. rewrite Nat2N.inj_add, N.pow_add_r. fold p. by rewrite N.Div0.mod_mul_r. }
  rewrite !Hm. pose proof (N.mod_lt a p). pose proof (N.mod_lt b p).
  generalize dependent (a mod p)%N. generalize dependent (b mod p)%N.
  generalize ((a / p) mod 32)%N ((b / p) mod 32)%N. intros x y u Hu w Hw. split.
  - intros E. assert (x = y) as ->.
    { apply (f_equal (λ z, z / p)%N) in E.
      rewrite !(N.mul_comm p), !N.div_add, !N.div_small in E by auto. lia. }
    split; [nia|done].
  - intros [-> E]. f_equal. f_equal. lia.
Qed.

Lemma prefix_full a b shift :
  (a < 2 ^ 64)%N → (b < 2 ^ 64)%N → 64 ≤ shift → prefix a shift = prefix b shift → a = b.
Proof.
  intros Ha Hb Hs. assert (2 ^ 64 <= 2 ^ N.of_nat shift)%N by (apply N.pow_le_mono_r; lia).
  unfold prefix. by rewrite !N.mod_small by lia.
Qed.

Lemma prefix_le a b shift n : prefix a (shift + SHIFT * n) = prefix b (shift + SHIFT * n) →
  prefix a shift = prefix b shift.
Proof.
  induction n as [|n IH]; [by rewrite Nat.mul_0_r, Nat.add_0_r|].
  replace (shift + SHIFT * S n) with (shift + SHIFT * n + SHIFT) by lia.
  intros [Hp _]%prefix_step. auto.
Qed.

Lemma one_bit_inj a b : one_bit a = one_bit b ↔ a = b.
Proof.
  split; [|by intros ->]. intros E. pose proof (has_one_bit a b) as Ha.
  rewrite E, has_one_bit, bool_decide_true in Ha by done. symmetry in Ha. by apply bool_decide_eq_true in Ha.
Qed.

(** ** Lists of pairs numbered by the bits of a bitmap *)
Record located {A} (bitmap : N) (m : nat) (l r : list (nat * A)) : Prop := {
  lo_bound : m < 32;
  lo_left : l.*1 = members m bitmap;
  lo_right : r.*1 = above 32 m bitmap;
}.

Lemma split_at {A} (ds : list (nat * A)) bitmap m :
  ds.*1 = members 32 bitmap → m < 32 →
  if has bitmap m then ∃ l x r, ds = l ++ (m, x) :: r ∧ located bitmap m l r
  else ∃ l r, ds = l ++ r ∧ located bitmap m l r.
Proof.
  intros Hds Hm. rewrite (members_split 32 m) in Hds by done.
  apply fmap_app_inv in Hds as (l & r & Hl & Hr & ->).
  destruct (has bitmap m); symmetry in Hr.
  - apply fmap_cons_inv in Hr as ([? x] & r' & [= <-] & Hr & ->). by exists l, x, r'.
  - by exists l, r.
Qed.

Lemma located_index {A} bitmap m (l r : list (nat * A)) :
  located bitmap m l r → index bitmap (one_bit m) = length l.
Proof. intros [_ Hl _]. unfold index. by rewrite index_members, <-Hl, length_fmap. Qed.

Lemma located_agree {A} b b' m (l r : list (nat * A)) :
  (∀ n, n ≠ m → has b n = has b' n) → located b m l r → located b' m l r.
Proof. intros Hb [? Hl Hr]. destruct (members_agree 32 m b b' Hb) as [E1 E2]. split; congruence. Qed.

Lemma located_set {A} bitmap m (l r : list (nat * A)) :
  located bitmap m l r → located (N.lor bitmap (one_bit m)) m l r.
Proof. apply located_agree. intros n Hn. by rewrite has_set, bool_decide_false, orb_false_r. Qed.

Lemma located_flip {A} bitmap m (l r : list (nat * A)) :
  located bitmap m l r → located (N.lxor bitmap (one_bit m)) m l r.
Proof. apply located_agree. intros n Hn. by rewrite has_flip, bool_decide_false, xorb_false_r. Qed.

Lemma located_with {A} bitmap m x (l r : list (nat * A)) :
  located bitmap m l r → has bitmap m = true → (l ++ (m, x) :: r).*1 = members 32 bitmap.
Proof.
  intros [Hm Hl Hr] Hh. rewrite fmap_app, fmap_cons, Hl, Hr. by rewrite (members_split 32 m), Hh.
Qed.

Lemma located_without {A} bitmap m (l r : list (nat * A)) :
  located bitmap m l r → has bitmap m = false → (l ++ r).*1 = members 32 bitmap.
Proof. intros [Hm Hl Hr] Hh. rewrite fmap_app, Hl, Hr. by rewrite (members_split 32 m), Hh. Qed.

Lemma located_notin {A} bitmap m (l r : list (nat * A)) : located bitmap m l r → m ∉ (l ++ r).*1.
Proof.
  intros [_ Hl Hr]. rewrite fmap_app, Hl, Hr, elem_of_app, members_elem. unfold above.
  rewrite list_elem_of_filter, elem_of_seq. lia.
Qed.

Lemma count_ones_32 {A} (ds : list (nat * A)) bitmap :
  ds.*1 = members 32 bitmap → (bitmap < 2 ^ 32)%N → count_ones bitmap = length ds.
Proof. intros Hds Hb. rewrite (count_ones_members 32), <-Hds by done. by rewrite length_fmap. Qed.

Section facts.
Context {K V : Type} `{KeyLaws K}.
Implicit Types (es : list (K * V)) (ds : list (nat * (K * V))) (ns : list (nat * (Node K V * list (K * V)))).

Lemma key_hash_u64 (k : K) : (key_hash k < 2 ^ 64)%N.
Proof.
  unfold key_hash. destruct (probe_captured _).
  - etrans; [apply N.mod_lt|]; lia.
  - apply default_finish_u64.
Qed.

Lemma key_hash_eq (a b : K) : key_eq a b = true → key_hash a = key_hash b.
Proof. intros E. unfold key_hash. by rewrite (key_eq_hash _ _ E). Qed.

(** Keys a digit tells apart. *)
Lemma digit_apart (a b : K) shift :
  digit (key_hash a) shift ≠ digit (key_hash b) shift → key_eq a b = false.
Proof. intros Hd. destruct (key_eq a b) eqn:E; [|done]. by rewrite (key_hash_eq _ _ E) in Hd. Qed.

Definition absent (key : K) es : Prop := Forall (λ e, key_eq e.1 key = false) es.

#[export] Instance absent_perm key : Proper ((≡ₚ) ==> iff) (absent key).
Proof. unfold absent. intros ?? E. by rewrite E. Qed.

(** Every key of [es] has the digit [m]. *)
Definition with_digit (shift m : nat) es : Prop := Forall (λ e, digit (key_hash e.1) shift = m) es.

Lemma with_digit_absent shift m es key :
  with_digit shift m es → m ≠ digit (key_hash key) shift → absent key es.
Proof. intros Hes Hm. eapply Forall_impl; [exact Hes|]. intros e He. apply digit_apart with shift. congruence. Qed.

(** ** Layout of data nodes *)
Definition data_slot (x : nat * (K * V)) : Slot K V := Entry (key_hash x.2.1) x.2.1 x.2.2.
Definition child_slots ns : list (Slot K V) := (λ x, Sub x.2.1) <$> reverse ns.
Definition data_entries ds : list (K * V) := snd <$> ds.
Definition child_entries ns : list (K * V) := concat ((λ x, x.2.2) <$> reverse ns).

Record laid (shift : nat) (P : Node K V → list (K * V) → Prop) (datamap nodemap : N)
    (slots : list (Slot K V)) es ds ns : Prop := {
  l_shift : shift < 64;
  l_datamap : (datamap < 2 ^ 32)%N;
  l_nodemap : (nodemap < 2 ^ 32)%N;
  l_apart m : has datamap m = true → has nodemap m = false;
  l_ds : ds.*1 = members 32 datamap;
  l_ns : ns.*1 = members 32 nodemap;
  l_slots : slots = (data_slot <$> ds) ++ child_slots ns;
  l_es : es = data_entries ds ++ child_entries ns;
  l_digits : Forall (λ x, digit (key_hash x.2.1) shift = x.1) ds;
  l_children : Forall (λ x, P x.2.1 x.2.2 ∧ 2 ≤ length x.2.2 ∧ with_digit shift x.1 x.2.2) ns;
}.

Fixpoint holds (d shift : nat) (node : Node K V) es : Prop :=
  match d with
  | O => False
  | S d =>
      match node with
      | Collision _ hash entries =>
          es = entries ∧ 2 ≤ length entries ∧ Forall (λ e, key_hash e.1 = hash) entries
      | Data _ datamap nodemap slots =>
          ∃ ds ns, laid shift (holds d (shift + SHIFT)) datamap nodemap slots es ds ns
      end
  end.

Lemma child_slots_app l r : child_slots (l ++ r) = child_slots r ++ child_slots l.
Proof. unfold child_slots. by rewrite reverse_app, fmap_app. Qed.
Lemma child_slots_cons x r : child_slots (x :: r) = child_slots r ++ [Sub x.2.1].
Proof. unfold child_slots. by rewrite reverse_cons, fmap_app. Qed.
Lemma child_entries_app l r : child_entries (l ++ r) = child_entries r ++ child_entries l.
Proof. unfold child_entries. by rewrite reverse_app, fmap_app, concat_app. Qed.
Lemma child_entries_cons x r : child_entries (x :: r) = child_entries r ++ x.2.2.
Proof. unfold child_entries. rewrite reverse_cons, fmap_app, concat_app. cbn. by rewrite app_nil_r. Qed.
Lemma length_child_slots ns : length (child_slots ns) = length ns.
Proof. unfold child_slots. by rewrite length_fmap, length_reverse. Qed.

(** The entries of the other slots. *)
Lemma child_entries_middle l x r :
  child_entries (l ++ x :: r) ≡ₚ x.2.2 ++ child_entries (l ++ r).
Proof.
  rewrite !child_entries_app, child_entries_cons, <-app_assoc. apply Permutation_app_swap_app.
Qed.

Lemma data_entries_middle l x r : data_entries (l ++ x :: r) ≡ₚ x.2 :: data_entries (l ++ r).
Proof. unfold data_entries. rewrite !fmap_app, fmap_cons. symmetry. apply Permutation_middle. Qed.

Lemma collect_holds d shift node es : holds d shift node es → collect d node = Some es.
Proof.
  revert shift node es. induction d as [|d IH]; intros shift node es; cbn [holds collect]; [done|].
  destruct node as [e dm nm slots|e h en]; [|by intros [-> _]].
  intros (ds & ns & [_ Hdm _ _ Hds _ -> -> _ Hns]). rewrite (count_ones_32 ds) by done.
  rewrite take_app_length', drop_app_length' by (by rewrite length_fmap).
  assert (mapM (M:=option) (λ slot : Slot K V, match slot with Entry _ k v => Some (k, v) | Sub _ => None end)
            (data_slot <$> ds) = Some (data_entries ds)) as ->.
  { clear. induction ds as [|[m [k v]] ds IH]; [done|]. cbn [fmap list_fmap mapM]. cbn. cbn in IH. by rewrite IH. }
  assert (mapM (M:=option) (λ slot, match slot with Sub child => collect d child | Entry _ _ _ => None end)
            (child_slots ns) = Some ((λ x, x.2.2) <$> reverse ns)) as ->; [|done].
  unfold child_slots. apply Forall_reverse in Hns.
  induction Hns as [|[m [c e']] l [Hc _] _ IHl]; [done|]. cbn [fmap list_fmap]. cbn [mapM].
  cbn [snd fst] in Hc |- *. rewrite (IH _ _ _ Hc). cbn. cbn in IHl. by rewrite IHl.
Qed.

Lemma absent_data shift ds key :
  Forall (λ x, digit (key_hash x.2.1) shift = x.1) ds → digit (key_hash key) shift ∉ ds.*1 →
  absent key (data_entries ds).
Proof.
  intros Hds Hk. unfold absent, data_entries. rewrite Forall_fmap. rewrite !Forall_forall in *.
  intros x Hx. apply digit_apart with shift. rewrite (Hds x Hx). intros E. apply Hk. rewrite <-E.
  by apply list_elem_of_fmap_2.
Qed.

Lemma absent_children shift (P : Node K V → list (K * V) → Prop) ns key :
  Forall (λ x, P x.2.1 x.2.2 ∧ 2 ≤ length x.2.2 ∧ with_digit shift x.1 x.2.2) ns →
  digit (key_hash key) shift ∉ ns.*1 → absent key (child_entries ns).
Proof.
  intros Hns Hk. unfold absent, child_entries. rewrite Forall_concat, Forall_fmap, Forall_reverse.
  rewrite !Forall_forall in *. intros x Hx. destruct (Hns x Hx) as (_ & _ & Hd).
  eapply with_digit_absent; [exact Hd|]. intros E. apply Hk. rewrite <-E. by apply list_elem_of_fmap_2.
Qed.

(** *** Surgery on the slots of a data node *)
Section surgery.
Context {shift : nat} {P : Node K V → list (K * V) → Prop} {datamap nodemap : N}.
Context {slots : list (Slot K V)} {es : list (K * V)}.

Lemma laid_replace_data l m x r ns k v :
  laid shift P datamap nodemap slots es (l ++ (m, x) :: r) ns → digit (key_hash k) shift = m →
  laid shift P datamap nodemap (<[length l := Entry (key_hash k) k v]> slots)
    (data_entries (l ++ (m, (k, v)) :: r) ++ child_entries ns) (l ++ (m, (k, v)) :: r) ns.
Proof.
  intros [? ? ? ? Hds ? -> _ Hd ?] Hk. split; try done.
  - rewrite <-Hds. by rewrite !fmap_app, !fmap_cons.
  - rewrite !fmap_app, !fmap_cons, <-!app_assoc. cbn [app].
    rewrite <-(length_fmap data_slot l) at 1. rewrite insert_app_r_alt, Nat.sub_diag by done. done.
  - apply Forall_app in Hd as [? [_ ?]%Forall_cons]. by apply Forall_app_2; [|apply Forall_cons_2].
Qed.

Lemma laid_child_slot l m c r ds :
  laid shift P datamap nodemap slots es ds (l ++ (m, c) :: r) → located nodemap m l r →
  node_slot datamap nodemap (one_bit m) = length ds + length r ∧
  slots !! (length ds + length r) = Some (Sub c.1).
Proof.
  intros [? ? ? ? Hds Hns -> _ _ _] Hl. unfold node_slot.
  rewrite (located_index _ _ _ _ Hl), (count_ones_32 ds), (count_ones_32 _ _ Hns) by done.
  rewrite length_app. cbn [length]. split; [lia|].
  rewrite lookup_app_r by (rewrite length_fmap; lia). rewrite length_fmap.
  replace (length ds + length r - length ds) with (length r) by lia.
  rewrite child_slots_app, child_slots_cons, <-app_assoc.
  rewrite <-(length_child_slots r), lookup_app_r, Nat.sub_diag by done. done.
Qed.

Lemma laid_replace_child l m c r ds c' e' :
  laid shift P datamap nodemap slots es ds (l ++ (m, c) :: r) →
  P c' e' → 2 ≤ length e' → with_digit shift m e' →
  laid shift P datamap nodemap (<[length ds + length r := Sub c']> slots)
    (data_entries ds ++ child_entries (l ++ (m, (c', e')) :: r)) ds (l ++ (m, (c', e')) :: r).
Proof.
  intros [? ? ? ? ? Hns -> _ ? Hc] HP Hlen Hd. split; try done.
  - rewrite <-Hns. by rewrite !fmap_app, !fmap_cons.
  - rewrite insert_app_r_alt by (rewrite length_fmap; lia). rewrite length_fmap.
    replace (length ds + length r - length ds) with (length r) by lia. f_equal.
    rewrite !child_slots_app, !child_slots_cons, <-!app_assoc, <-(length_child_slots r).
    rewrite insert_app_r_alt, Nat.sub_diag by done. done.
  - apply Forall_app in Hc as [? [_ ?]%Forall_cons]. by apply Forall_app_2; [|apply Forall_cons_2].
Qed.

Lemma laid_insert_data l m r ns k v :
  laid shift P datamap nodemap slots es (l ++ r) ns → located datamap m l r →
  has datamap m = false → has nodemap m = false → digit (key_hash k) shift = m →
  ∃ slots', vec_insert (length l) (Entry (key_hash k) k v) slots = Some slots' ∧
    laid shift P (N.lor datamap (one_bit m)) nodemap slots'
      (data_entries (l ++ (m, (k, v)) :: r) ++ child_entries ns) (l ++ (m, (k, v)) :: r) ns.
Proof.
  intros [? ? ? Hap ? ? -> _ Hd ?] Hl Hm Hn Hk.
  eexists. split.
  - rewrite fmap_app, <-app_assoc, <-(length_fmap data_slot l). apply vec_insert_app.
  - split; try done.
    + apply (set_below _ 32); [done|apply Hl].
    + intros n. rewrite has_set, orb_true_iff, bool_decide_eq_true. intros [?| <-]; auto.
    + apply located_with; [by apply located_set|]. by rewrite has_set, bool_decide_true, orb_true_r.
    + by rewrite fmap_app, fmap_cons, <-!app_assoc.
    + apply Forall_app in Hd as [? ?]. by apply Forall_app_2; [|apply Forall_cons_2].
Qed.

Lemma laid_remove_data l m x r ns :
  laid shift P datamap nodemap slots es (l ++ (m, x) :: r) ns → located datamap m l r →
  has datamap m = true →
  ∃ slots', vec_remove (length l) slots = Some slots' ∧
    laid shift P (N.lxor datamap (one_bit m)) nodemap slots'
      (data_entries (l ++ r) ++ child_entries ns) (l ++ r) ns.
Proof.
  intros [? ? ? Hap ? ? -> _ Hd ?] Hl Hm. eexists. split.
  - rewrite fmap_app, fmap_cons, <-app_assoc. cbn [app]. rewrite <-(length_fmap data_slot l). apply vec_remove_app.
  - split; try done.
    + by apply (clear_below _ 32).
    + intros n. rewrite has_flip. case_bool_decide; subst; [by rewrite Hm|]. rewrite xorb_false_r. apply Hap.
    + apply located_without with m; [by apply located_flip|]. by rewrite has_flip, Hm, bool_decide_true.
    + by rewrite fmap_app, <-app_assoc.
    + apply Forall_app in Hd as [? [_ ?]%Forall_cons]. by apply Forall_app_2.
Qed.

Lemma laid_insert_child l m r ds c e :
  laid shift P datamap nodemap slots es ds (l ++ r) → located nodemap m l r →
  has datamap m = false → has nodemap m = false → P c e → 2 ≤ length e → with_digit shift m e →
  ∃ slots', vec_insert (node_slot datamap (N.lor nodemap (one_bit m)) (one_bit m)) (Sub c) slots = Some slots' ∧
    laid shift P datamap (N.lor nodemap (one_bit m)) slots'
      (data_entries ds ++ child_entries (l ++ (m, (c, e)) :: r)) ds (l ++ (m, (c, e)) :: r).
Proof.
  intros [? ? ? Hap ? ? -> _ ? Hc] Hl Hm Hn HP Hlen Hd.
  assert ((l ++ (m, (c, e)) :: r).*1 = members 32 (N.lor nodemap (one_bit m))) as Hns.
  { apply located_with; [by apply located_set|]. by rewrite has_set, bool_decide_true, orb_true_r. }
  assert (N.lor nodemap (one_bit m) < 2 ^ 32)%N by (apply (set_below _ 32); [done|apply Hl]).
  eexists. split.
  - unfold node_slot. rewrite (located_index _ _ _ _ (located_set _ _ _ _ Hl)), (count_ones_32 ds) by done.
    rewrite (count_ones_32 _ _ Hns), length_app by done. cbn [length].
    replace (length ds + (length l + S (length r) - 1 - length l)) with
      (length ((data_slot <$> ds) ++ child_slots r)) by (rewrite length_app, length_fmap, length_child_slots; lia).
    rewrite child_slots_app, app_assoc. apply vec_insert_app.
  - split; try done.
    + intros n Hdn. rewrite has_set, (Hap n Hdn). cbn. apply bool_decide_eq_false. congruence.
    + by rewrite child_slots_app, child_slots_cons, <-!app_assoc.
    + apply Forall_app in Hc as [? ?]. by apply Forall_app_2; [|apply Forall_cons_2].
Qed.

Lemma laid_remove_child l m c r ds :
  laid shift P datamap nodemap slots es ds (l ++ (m, c) :: r) → located nodemap m l r →
  has nodemap m = true →
  ∃ slots', vec_remove (length ds + length r) slots = Some slots' ∧
    laid shift P datamap (N.lxor nodemap (one_bit m)) slots'
      (data_entries ds ++ child_entries (l ++ r)) ds (l ++ r).
Proof.
  intros [? ? ? Hap ? ? -> _ ? Hc] Hl Hm. eexists. split.
  - rewrite child_slots_app, child_slots_cons, <-app_assoc, (app_assoc (data_slot <$> ds)).
    replace (length ds + length r) with (length ((data_slot <$> ds) ++ child_slots r))
      by (rewrite length_app, length_fmap, length_child_slots; lia).
    apply vec_remove_app.
  - split; try done.
    + by apply (clear_below _ 32).
    + intros n Hdn. rewrite has_flip, (Hap n Hdn). cbn. apply bool_decide_eq_false. intros ->.
      rewrite (Hap _ Hdn) in Hm. done.
    + apply located_without with m; [by apply located_flip|]. by rewrite has_flip, Hm, bool_decide_true.
    + by rewrite child_slots_app, <-app_assoc.
    + apply Forall_app in Hc as [? [_ ?]%Forall_cons]. by apply Forall_app_2.
Qed.
End surgery.

(** ** Finding a key *)
Lemma position_spec key es :
  match position key es with
  | Some i => ∃ l e r, es = l ++ e :: r ∧ length l = i ∧ key_eq e.1 key = true
  | None => absent key es
  end.
Proof.
  induction es as [|[k v] es IH]; cbn [position]; [apply Forall_nil_2|].
  destruct (key_eq k key) eqn:E; [by exists [], (k, v), es|].
  destruct (position key es) as [i|]; cbn.
  - destruct IH as (l & e & r & -> & <- & He). by exists ((k, v) :: l), e, r.
  - by apply Forall_cons_2.
Qed.

Lemma digit_not_other shift key ds ns (P : Node K V → list (K * V) → Prop) :
  Forall (λ x, digit (key_hash x.2.1) shift = x.1) ds →
  Forall (λ x, P x.2.1 x.2.2 ∧ 2 ≤ length x.2.2 ∧ with_digit shift x.1 x.2.2) ns →
  digit (key_hash key) shift ∉ ds.*1 → digit (key_hash key) shift ∉ ns.*1 →
  absent key (data_entries ds ++ child_entries ns).
Proof.
  intros Hds Hns Hd Hn. apply Forall_app_2; [by apply absent_data with shift|by eapply absent_children].
Qed.

Lemma not_has_members {A} (ds : list (nat * A)) bitmap m :
  ds.*1 = members 32 bitmap → has bitmap m = false → m ∉ ds.*1.
Proof. intros -> Hm. rewrite members_elem. intros [Hm' _]. congruence. Qed.

(** The three places a key's digit can be: an entry, a child, nowhere. *)
Inductive place shift (P : Node K V → list (K * V) → Prop) datamap nodemap slots es (key : K) : Prop :=
| InData l k v r ns :
    laid shift P datamap nodemap slots es (l ++ (digit (key_hash key) shift, (k, v)) :: r) ns →
    located datamap (digit (key_hash key) shift) l r →
    has datamap (digit (key_hash key) shift) = true →
    slots !! length l = Some (Entry (key_hash k) k v) → digit (key_hash k) shift = digit (key_hash key) shift →
    absent key (data_entries (l ++ r) ++ child_entries ns) → place shift P datamap nodemap slots es key
| InChild ds l c e r :
    laid shift P datamap nodemap slots es ds (l ++ (digit (key_hash key) shift, (c, e)) :: r) →
    located nodemap (digit (key_hash key) shift) l r →
    has datamap (digit (key_hash key) shift) = false → has nodemap (digit (key_hash key) shift) = true →
    node_slot datamap nodemap (one_bit (digit (key_hash key) shift)) = length ds + length r →
    slots !! (length ds + length r) = Some (Sub c) →
    P c e → 2 ≤ length e → with_digit shift (digit (key_hash key) shift) e →
    absent key (data_entries ds ++ child_entries (l ++ r)) → place shift P datamap nodemap slots es key
| Nowhere l r ns :
    laid shift P datamap nodemap slots es (l ++ r) ns →
    located datamap (digit (key_hash key) shift) l r →
    has datamap (digit (key_hash key) shift) = false → has nodemap (digit (key_hash key) shift) = false →
    absent key es → place shift P datamap nodemap slots es key.

Lemma find_place shift P datamap nodemap slots es ds ns key :
  laid shift P datamap nodemap slots es ds ns → place shift P datamap nodemap slots es key.
Proof.
  intros Hlaid. pose proof Hlaid as [_ _ _ Hap Hds Hns Hslots Hes Hd Hc].
  pose proof (digit_lt (key_hash key) shift) as Hm.
  pose proof (split_at ds datamap _ Hds Hm) as Hl.
  destruct (has datamap _) eqn:Hdm.
  - destruct Hl as (l & [k v] & r & -> & Hl).
    pose proof (not_has_members _ _ _ Hns (Hap _ Hdm)) as Hn.
    pose proof Hd as [Hd1 [Hd2 Hd3]%Forall_cons]%Forall_app.
    eapply InData; try done.
    + rewrite Hslots, fmap_app, fmap_cons, <-app_assoc. cbn [app].
      rewrite <-(length_fmap data_slot l). by rewrite list_lookup_middle.
    + apply digit_not_other with shift P; [by apply Forall_app_2|done|by eapply located_notin|done].
  - pose proof (not_has_members _ _ _ Hds Hdm) as Hn.
    pose proof (split_at ns nodemap _ Hns Hm) as Hl'. destruct (has nodemap _) eqn:Hnm.
    + destruct Hl' as (l' & c & r' & -> & Hl'). destruct c as [c e].
      destruct (laid_child_slot _ _ _ _ _ Hlaid Hl') as [Hi Hslot].
      pose proof Hc as [Hc1 [(HP & Hlen & Hdig) Hc2]%Forall_cons]%Forall_app.
      eapply InChild; try done.
      apply digit_not_other with shift P; [done|by apply Forall_app_2|done|by eapply located_notin].
    + destruct Hl as (l & r & -> & Hl). eapply Nowhere; try done.
      rewrite Hes. apply digit_not_other with shift P; [done..|]. by eapply not_has_members.
Qed.

Lemma laid_entries_data shift P datamap nodemap slots es l m x r ns :
  laid shift P datamap nodemap slots es (l ++ (m, x) :: r) ns →
  es ≡ₚ x :: data_entries (l ++ r) ++ child_entries ns.
Proof. intros [_ _ _ _ _ _ _ -> _ _]. by rewrite data_entries_middle. Qed.

Lemma laid_entries_child shift P datamap nodemap slots es l m c e r ds :
  laid shift P datamap nodemap slots es ds (l ++ (m, (c, e)) :: r) →
  es ≡ₚ e ++ data_entries ds ++ child_entries (l ++ r).
Proof.
  intros [_ _ _ _ _ _ _ -> _ _]. rewrite child_entries_middle. apply Permutation_app_swap_app.
Qed.

Definition finds (key : K) es (found : option (K * V)) : Prop :=
  match found with
  | Some e => e ∈ es ∧ key_eq e.1 key = true
  | None => absent key es
  end.

Lemma find_holds d shift key node es :
  holds d shift node es → ∃ found, find_node d shift (key_hash key) key node = Some found ∧ finds key es found.
Proof.
  revert shift node es. induction d as [|d IH]; intros shift node es; cbn [holds find_node]; [done|].
  destruct node as [e dm nm slots|e h en].
  - intros (ds & ns & Hlaid). pose proof (l_shift _ _ _ _ _ _ _ _ Hlaid) as Hs.
    rewrite bit_digit by done. cbn [mbind option_bind]. rewrite !has_land.
    destruct (find_place _ _ _ _ _ _ _ _ key Hlaid)
      as [l k v r ns' Hl Hlo Hdm Hslot _ Hab|ds' l c en r Hl Hlo Hdm Hnm Hi Hslot Hc _ _ Hab|l r ns' Hl Hlo Hdm Hnm Hab].
    + rewrite Hdm, (located_index _ _ _ _ Hlo), Hslot. cbn [mbind option_bind]. eexists. split; [done|].
      pose proof (laid_entries_data _ _ _ _ _ _ _ _ _ _ _ Hl) as Hes.
      destruct (key_eq k key) eqn:E; cbn.
      * split; [|done]. rewrite Hes. by left.
      * rewrite Hes. by apply Forall_cons_2.
    + rewrite Hdm, Hnm, Hi, Hslot. cbn [mbind option_bind].
      destruct (IH _ _ _ Hc) as (found & -> & Hf). eexists. split; [done|].
      pose proof (laid_entries_child _ _ _ _ _ _ _ _ _ _ _ _ Hl) as Hes.
      destruct found as [e0|]; cbn in *.
      * split; [|apply Hf]. rewrite Hes. apply elem_of_app. left. apply Hf.
      * rewrite Hes. by apply Forall_app_2.
    + rewrite Hdm, Hnm. by eexists.
  - intros (-> & _ & Hh). destruct (N.eqb_spec h (key_hash key)) as [->|Hne].
    + pose proof (position_spec key en) as Hp. destruct (position key en) as [i|]; cbn; [|by eexists].
      destruct Hp as (l & e0 & r & -> & <- & He). rewrite list_lookup_middle by done. eexists. split; [done|].
      split; [|done]. apply elem_of_app. right. by left.
    + eexists. split; [done|]. cbn. eapply Forall_impl; [exact Hh|]. cbn. intros e0 <-.
      destruct (key_eq e0.1 key) eqn:E; [|done]. by rewrite (key_hash_eq _ _ E) in Hne.
Qed.

(** ** Adding an entry *)

(** Small data nodes. *)
Lemma laid_two shift P a_key (a_val : V) b_key b_val :
  shift < 64 → digit (key_hash a_key) shift ≠ digit (key_hash b_key) shift →
  ∃ es, es ≡ₚ [(a_key, a_val); (b_key, b_val)] ∧
    ∃ ds, laid shift P
      (N.lor (one_bit (digit (key_hash a_key) shift)) (one_bit (digit (key_hash b_key) shift))) 0
      (if digit (key_hash a_key) shift <? digit (key_hash b_key) shift
       then [Entry (key_hash a_key) a_key a_val; Entry (key_hash b_key) b_key b_val]
       else [Entry (key_hash b_key) b_key b_val; Entry (key_hash a_key) a_key a_val]) es ds [].
Proof.
  intros Hs Hd. pose proof (digit_lt (key_hash a_key) shift). pose proof (digit_lt (key_hash b_key) shift).
  assert (N.lor (one_bit (digit (key_hash a_key) shift)) (one_bit (digit (key_hash b_key) shift)) < 2 ^ 32)%N.
  { apply (set_below _ 32); [by apply (one_bit_below 32)|done]. }
  destruct (Nat.ltb_spec (digit (key_hash a_key) shift) (digit (key_hash b_key) shift)).
  - eexists. split; [reflexivity|].
    exists [(digit (key_hash a_key) shift, (a_key, a_val)); (digit (key_hash b_key) shift, (b_key, b_val))].
    split; try done.
    + by rewrite members_two.
    + by repeat constructor.
  - eexists. split; [apply Permutation_swap|].
    exists [(digit (key_hash b_key) shift, (b_key, b_val)); (digit (key_hash a_key) shift, (a_key, a_val))].
    split; try done.
    + rewrite N.lor_comm, members_two by lia. done.
    + by repeat constructor.
Qed.

Lemma laid_one_child shift (P : Node K V → list (K * V) → Prop) m c e :
  shift < 64 → m < 32 → P c e → 2 ≤ length e → with_digit shift m e →
  laid shift P 0 (one_bit m) [Sub c] e [] [(m, (c, e))].
Proof.
  intros Hs Hm HP Hlen Hd. split; try done.
  - by apply (one_bit_below 32).
  - by rewrite members_one.
  - cbn. by rewrite app_nil_r.
  - by repeat constructor.
Qed.

Lemma laid_entry_child shift (P : Node K V → list (K * V) → Prop) m c e k v :
  shift < 64 → m < 32 → m ≠ digit (key_hash k) shift → P c e → 2 ≤ length e → with_digit shift m e →
  laid shift P (one_bit (digit (key_hash k) shift)) (one_bit m) [Entry (key_hash k) k v; Sub c]
    ((k, v) :: e) [(digit (key_hash k) shift, (k, v))] [(m, (c, e))].
Proof.
  intros Hs Hm Hne HP Hlen Hd. pose proof (digit_lt (key_hash k) shift). split; try done.
  - by apply (one_bit_below 32).
  - by apply (one_bit_below 32).
  - intros n. rewrite !has_one_bit, bool_decide_eq_true, bool_decide_eq_false. by intros <-.
  - by rewrite members_one.
  - by rewrite members_one.
  - cbn. by rewrite app_nil_r.
  - by repeat constructor.
  - by repeat constructor.
Qed.

(** Two hashes that agree on all digits above a level and differ, differ within 64 bits. *)
Lemma differ_below a b shift :
  (a < 2 ^ 64)%N → (b < 2 ^ 64)%N → prefix a shift = prefix b shift → a ≠ b → shift < 64.
Proof. intros Ha Hb Hp Hne. apply Nat.nle_gt. intros Hs. by apply Hne, (prefix_full a b shift). Qed.

Lemma levels_left d shift : SHIFT * d + shift = 70 → shift < 65 → 1 < d.
Proof. unfold SHIFT. lia. Qed.

Lemma merge_two_holds d edit shift a_key a_val b_key b_val :
  SHIFT * d + shift = 70 → 0 < d → prefix (key_hash a_key) shift = prefix (key_hash b_key) shift →
  ∃ node es, merge_two d edit shift (key_hash a_key) a_key a_val (key_hash b_key) b_key b_val = Some node ∧
    holds d shift node es ∧ es ≡ₚ [(a_key, a_val); (b_key, b_val)].
Proof.
  revert shift. induction d as [|d IH]; intros shift Hd Hpos Hp; [lia|]. cbn [merge_two].
  destruct ((32 <? shift) && (key_hash a_key =? key_hash b_key)%N) eqn:Hc.
  { apply andb_true_iff in Hc as [_ E%N.eqb_eq].
    eexists _, _. split; [done|]. split; [|reflexivity]. split; [done|]. split; [done|by repeat constructor]. }
  assert (shift < 64) as Hs.
  { apply Nat.nle_gt. intros Hs.
    rewrite (prefix_full _ _ _ (key_hash_u64 a_key) (key_hash_u64 b_key) Hs Hp), N.eqb_refl, andb_true_r in Hc.
    apply Nat.ltb_ge in Hc. lia. }
  clear Hc. rewrite !bit_digit, !mask_digit by done. cbn [mbind option_bind].
  pose proof (digit_lt (key_hash a_key) shift) as Hm.
  destruct (N.eqb_spec (one_bit (digit (key_hash a_key) shift)) (one_bit (digit (key_hash b_key) shift)))
    as [E%one_bit_inj|E].
  - edestruct (IH (shift + SHIFT)) as (node & es & -> & Hn & Hes);
      [unfold SHIFT in *; lia|unfold SHIFT in *; lia|by apply prefix_step|].
    eexists _, es. split; [done|]. split; [|done]. exists [], [(digit (key_hash a_key) shift, (node, es))].
    apply laid_one_child; [done..| |]; [by rewrite Hes|].
    unfold with_digit. rewrite Hes. by repeat constructor.
  - edestruct (laid_two shift (holds d (shift + SHIFT)) a_key a_val b_key b_val) as (es & Hes & ds & Hl);
      [done|by intros ?%one_bit_inj|].
    eexists _, es. split; [done|]. split; [|done]. by exists ds, [].
Qed.

Lemma merge_node_holds d edit shift e node_hash en key value :
  SHIFT * d + shift = 70 → node_hash ≠ key_hash key → 2 ≤ length en →
  Forall (λ e, key_hash e.1 = node_hash) en → prefix node_hash shift = prefix (key_hash key) shift →
  ∃ node es, merge_node d edit shift node_hash (Collision e node_hash en) (key_hash key) key value = Some node ∧
    holds d shift node es ∧ es ≡ₚ (key, value) :: en.
Proof.
  intros Hd Hne Hlen Hen. revert shift Hd. induction d as [|d IH]; intros shift Hd Hp.
  - assert (node_hash < 2 ^ 64)%N.
    { destruct en as [|e0 en]; [cbn in Hlen; lia|]. inversion_clear Hen; subst. apply key_hash_u64. }
    exfalso. apply Hne, (prefix_full _ _ shift); [done|apply key_hash_u64|unfold SHIFT in *; lia|done].
  - assert (shift < 64) as Hs.
    { destruct en as [|e0 en]; [cbn in Hlen; lia|]. pose proof (Forall_inv Hen) as E. cbn in E. subst.
      by apply (differ_below (key_hash e0.1) (key_hash key)); [apply key_hash_u64..|done|]. }
    cbn [merge_node]. rewrite !bit_digit by done. cbn [mbind option_bind].
    pose proof (digit_lt node_hash shift) as Hm.
    assert (∀ m es, es ≡ₚ (key, value) :: en → m = digit node_hash shift →
      digit node_hash shift = digit (key_hash key) shift → with_digit shift m es) as Hdig.
    { intros m es Hes -> E. unfold with_digit. rewrite Hes. apply Forall_cons_2; [done|].
      eapply Forall_impl; [exact Hen|]. by intros ? ->. }
    destruct (N.eqb_spec (one_bit (digit node_hash shift)) (one_bit (digit (key_hash key) shift)))
      as [E%one_bit_inj|E].
    + edestruct (IH (shift + SHIFT)) as (node & es & -> & Hn & Hes);
        [unfold SHIFT in *; lia|by apply prefix_step|].
      eexists _, es. split; [done|]. split; [|done]. exists [], [(digit node_hash shift, (node, es))].
      apply laid_one_child; [done..| |]; [by rewrite Hes; cbn; lia|]. by apply Hdig.
    + eexists _, ((key, value) :: en). split; [done|]. split; [|done]. do 2 eexists.
      apply laid_entry_child; [done|exact Hm|intros Hx; apply E; by rewrite Hx| |exact Hlen|].
      * destruct d as [|d]; [unfold SHIFT in *; lia|]. by split.
      * eapply Forall_impl; [exact Hen|]. by intros ? ->.
Qed.

(** What adding a pair does to the entries. *)
Definition updated (key : K) (value : V) es es' (added : bool) : Prop :=
  if added then absent key es ∧ es' ≡ₚ (key, value) :: es
  else ∃ k0 v0 k1 rest, es ≡ₚ (k0, v0) :: rest ∧ es' ≡ₚ (k1, value) :: rest ∧
         key_eq k0 key = true ∧ key_eq k1 key = true.

Lemma updated_frame key value es es' added ctx es0 es0' :
  updated key value es es' added → absent key ctx → es0 ≡ₚ es ++ ctx → es0' ≡ₚ es' ++ ctx →
  updated key value es0 es0' added.
Proof.
  intros Hu Hctx E E'. destruct added.
  - destruct Hu as [Ha Hes]. split; [rewrite E; by apply Forall_app_2|]. by rewrite E', Hes, E.
  - destruct Hu as (k0 & v0 & k1 & rest & Hes & Hes' & ? & ?).
    exists k0, v0, k1, (rest ++ ctx). by rewrite E, E', Hes, Hes'.
Qed.

Lemma updated_length key value es es' added :
  updated key value es es' added → length es' = length es + Nat.b2n added.
Proof.
  destruct added.
  - intros [_ ->]. cbn. lia.
  - intros (k0 & v0 & k1 & rest & -> & -> & _ & _). cbn. lia.
Qed.

Lemma updated_Forall (P : N → Prop) key value es es' added :
  updated key value es es' added → P (key_hash key) →
  Forall (λ e, P (key_hash e.1)) es → Forall (λ e, P (key_hash e.1)) es'.
Proof.
  destruct added.
  - intros [_ ->] HP Hes. by apply Forall_cons_2.
  - intros (k0 & v0 & k1 & rest & -> & -> & _ & E) HP [_ Hr]%Forall_cons.
    apply Forall_cons_2; [|done]. cbn. by rewrite (key_hash_eq _ _ E).
Qed.

(** [es] holds keys whose hashes agree with [hash] on the digits above a level. *)
Definition belongs (shift : nat) (hash : N) es : Prop :=
  Forall (λ e, prefix (key_hash e.1) shift = prefix hash shift) es.

#[export] Instance belongs_perm shift hash : Proper ((≡ₚ) ==> iff) (belongs shift hash).
Proof. unfold belongs. intros ?? E. by rewrite E. Qed.

Lemma belongs_step shift hash es :
  belongs shift hash es → with_digit shift (digit hash shift) es → belongs (shift + SHIFT) hash es.
Proof.
  unfold belongs, with_digit. rewrite !Forall_forall. intros Hp Hd e He. apply prefix_step. auto.
Qed.

Lemma belongs_child shift hash e ctx es :
  belongs shift hash es → es ≡ₚ e ++ ctx → with_digit shift (digit hash shift) e →
  belongs (shift + SHIFT) hash e.
Proof. intros Hb E Hd. rewrite E in Hb. apply Forall_app in Hb as [Hb _]. by apply belongs_step. Qed.

Lemma assoc_collision d edit shift key value stamped h en :
  SHIFT * d + shift = 70 → holds d shift (Collision stamped h en) en → belongs shift (key_hash key) en →
  ∃ added node es, assoc_node d edit shift (key_hash key) key value (Collision stamped h en) = Some (added, node) ∧
    holds d shift node es ∧ updated key value en es added.
Proof.
  intros Hd Hh Hb. destruct d as [|d]; [done|]. destruct Hh as (_ & Hlen & Hh). cbn [assoc_node].
  destruct (N.eqb_spec h (key_hash key)) as [->|Hne].
  - pose proof (position_spec key en) as Hp. destruct (position key en) as [i|].
    + destruct Hp as (l & [k0 v0] & r & -> & <- & He). rewrite list_lookup_middle by done.
      cbn [mbind option_bind fst]. rewrite insert_app_r_alt, Nat.sub_diag by done. cbn [insert list_insert].
      eexists _, _, _. split; [done|]. split.
      * split; [done|]. rewrite length_app in *. cbn [length] in *. split; [done|].
        apply Forall_app in Hh as [? [? ?]%Forall_cons]. by apply Forall_app_2; [|apply Forall_cons_2].
      * exists k0, v0, k0, (l ++ r). rewrite <-!Permutation_middle. done.
    + eexists _, _, _. split; [done|]. split.
      * split; [done|]. rewrite length_app. split; [lia|]. apply Forall_app_2; [done|]. by apply Forall_cons_2.
      * split; [done|]. by rewrite Permutation_app_comm.
  - edestruct (merge_node_holds (S d) edit shift stamped h en key value) as (node & es & -> & Hn & Hes);
      [done|done|done|done| |].
    { destruct en as [|e0 en]; [cbn in Hlen; lia|]. pose proof (Forall_inv Hh) as <-. by apply Forall_inv in Hb. }
    cbn [mbind option_bind]. eexists _, node, es. split; [done|]. split; [done|]. split; [|done].
    eapply Forall_impl; [exact Hh|]. cbn. intros e0 <-.
    destruct (key_eq e0.1 key) eqn:E; [|done]. by rewrite (key_hash_eq _ _ E) in Hne.
Qed.

Lemma assoc_holds d edit shift key value node es :
  SHIFT * d + shift = 70 → holds d shift node es → belongs shift (key_hash key) es →
  ∃ added node' es', assoc_node d edit shift (key_hash key) key value node = Some (added, node') ∧
    holds d shift node' es' ∧ updated key value es es' added.
Proof.
  revert shift node es. induction d as [|d IH]; intros shift node es Hd; [by intros|].
  destruct node as [stamped dm nm slots|stamped h en].
  2: { intros Hh Hb. pose proof Hh as (-> & _). by apply assoc_collision. }
  intros (ds & ns & Hlaid) Hb. pose proof (l_shift _ _ _ _ _ _ _ _ Hlaid) as Hs.
  assert (SHIFT * d + (shift + SHIFT) = 70 ∧ 0 < d) as [Hd' Hpos] by (unfold SHIFT in *; lia).
  cbn [assoc_node]. rewrite bit_digit by done. cbn [mbind option_bind]. rewrite !has_land.
  destruct (find_place _ _ _ _ _ _ _ _ key Hlaid)
    as [l k v r ns' Hl Hlo Hdm Hslot Hk Hab|ds' l c en r Hl Hlo Hdm Hnm Hi Hslot Hc Hlen Hdig Hab
       |l r ns' Hl Hlo Hdm Hnm Hab]; set (m := digit (key_hash key) shift) in *; rewrite ?Hdm, ?Hnm.
  - pose proof (laid_entries_data _ _ _ _ _ _ _ _ _ _ _ Hl) as Hes.
    rewrite (located_index _ _ _ _ Hlo), Hslot. cbn [mbind option_bind].
    destruct (key_eq k key) eqn:E.
    + eexists _, _, _. split; [done|]. split.
      { exists (l ++ (m, (key, value)) :: r), ns'. by eapply laid_replace_data. }
      exists k, v, key, (data_entries (l ++ r) ++ child_entries ns').
      rewrite data_entries_middle. by rewrite key_eq_refl.
    + destruct (merge_two_holds d edit (shift + SHIFT) k v key value) as (c & e & -> & Hc & He);
        [done|done| |].
      { apply prefix_step. split; [|done]. rewrite Hes in Hb. by apply Forall_inv in Hb. }
      cbn [mbind option_bind].
      destruct (laid_remove_data _ _ _ _ _ Hl Hlo Hdm) as (slots1 & -> & Hl1). cbn [mbind option_bind].
      pose proof (l_ns _ _ _ _ _ _ _ _ Hl1) as Hns.
      assert (has nm m = false) as Hnm by (by apply (l_apart _ _ _ _ _ _ _ _ Hl)).
      pose proof (split_at ns' nm m Hns (digit_lt _ _)) as Hsplit. rewrite Hnm in Hsplit.
      destruct Hsplit as (l2 & r2 & -> & Hlo2).
      edestruct (laid_insert_child l2 m r2 (l ++ r) c e Hl1 Hlo2) as (slots2 & -> & Hl2);
        [by rewrite has_flip, Hdm, bool_decide_true|done|done|by rewrite He| |].
      { unfold with_digit. rewrite He. by repeat constructor. }
      cbn [mbind option_bind]. eexists _, _, _. split; [done|]. split; [by do 2 eexists|].
      split.
      * rewrite Hes. by apply Forall_cons_2.
      * rewrite Hes, child_entries_middle. cbn [snd]. rewrite He.
        rewrite Permutation_app_swap_app. cbn [app]. apply Permutation_swap.
  - rewrite Hi, Hslot. cbn [mbind option_bind].
    pose proof (laid_entries_child _ _ _ _ _ _ _ _ _ _ _ _ Hl) as Hes.
    destruct (IH (shift + SHIFT) c en Hd' Hc) as (added & c' & en' & -> & Hc' & Hu).
    { by eapply belongs_child. }
    cbn [mbind option_bind fst snd]. eexists _, _, _. split; [done|]. split.
    { do 2 eexists. eapply laid_replace_child; [exact Hl|exact Hc'| |].
      - rewrite (updated_length _ _ _ _ _ Hu). lia.
      - by apply (updated_Forall (λ h, digit h shift = m) _ _ _ _ _ Hu). }
    eapply updated_frame; [exact Hu|exact Hab|exact Hes|].
    rewrite child_entries_middle. apply Permutation_app_swap_app.
  - rewrite (located_index _ _ _ _ Hlo).
    destruct (laid_insert_data l m r ns' key value Hl Hlo Hdm Hnm eq_refl) as (slots' & -> & Hl').
    cbn [mbind option_bind]. eexists _, _, _. split; [done|]. split; [by do 2 eexists|].
    split; [done|]. rewrite data_entries_middle. cbn [app snd].
    by rewrite (l_es _ _ _ _ _ _ _ _ Hl).
Qed.

(** ** Removing an entry *)

(** No two keys of a list are equal. *)
Fixpoint distinct es : Prop :=
  match es with [] => True | e :: es => absent e.1 es ∧ distinct es end.

Lemma key_eq_comm a b : key_eq a b = key_eq b a.
Proof. apply eq_true_iff_eq. split; apply key_eq_sym. Qed.

#[export] Instance distinct_perm : Proper ((≡ₚ) ==> iff) distinct.
Proof.
  assert (∀ es es', es ≡ₚ es' → distinct es → distinct es') as Hd; [|by intros ?? E; split; apply Hd].
  induction 1 as [|e es es' E IH|e e' es|es es' es'' _ IH _ IH']; cbn; [done| | |by auto].
  - intros [Ha Hd]. split; [by rewrite <-E|auto].
  - intros ([He Ha]%Forall_cons & Ha' & Hd). split_and!; [|done..].
    apply Forall_cons_2; [by rewrite key_eq_comm|done].
Qed.

Lemma distinct_app l r : distinct (l ++ r) → distinct l ∧ distinct r.
Proof.
  induction l as [|e l IH]; cbn; [done|]. intros [[Ha _]%Forall_app [? ?]%IH]. done.
Qed.

(** A node that holds a single pair, in the form the root has. *)
Definition single (node : Node K V) es : Prop :=
  ∃ stamped k v, node = Data stamped (one_bit (digit (key_hash k) 0)) 0 [Entry (key_hash k) k v] ∧ es = [(k, v)].

Lemma single_holds d node es : 0 < d → single node es → holds d 0 node es.
Proof.
  intros Hd (st & k & v & -> & ->). destruct d as [|d]; [lia|].
  exists [(digit (key_hash k) 0, (k, v))], []. pose proof (digit_lt (key_hash k) 0). split; try done.
  - lia.
  - by apply (one_bit_below 32).
  - by rewrite members_one.
  - by repeat constructor.
Qed.

Lemma single_is_single node es : single node es → is_single node = true.
Proof. intros (st & k & v & -> & _). cbn [is_single]. by rewrite count_ones_one_bit. Qed.

Lemma holds_not_single d shift node es : holds d shift node es → 2 ≤ length es → is_single node = false.
Proof.
  destruct d as [|d]; [done|]. destruct node as [st dm nm slots|st h en].
  - intros (ds & ns & [_ Hdm Hnm _ Hds Hns _ -> _ _]) Hlen. cbn [is_single].
    destruct (N.eqb_spec nm 0) as [->|]; [|done]. rewrite members_zero in Hns.
    apply fmap_nil_inv in Hns as ->. rewrite (count_ones_32 ds) by done. cbn [andb].
    unfold data_entries in Hlen. rewrite length_app, length_fmap in Hlen. cbn in Hlen.
    apply Nat.eqb_neq. lia.
  - intros (-> & _ & _) Hlen. cbn [is_single]. apply Nat.eqb_neq. lia.
Qed.

(** What is left of a node: a node of its own, a single pair to be lifted, or the root. *)
Definition outcome (d shift : nat) (node : Node K V) es : Prop :=
  (2 ≤ length es ∧ holds d shift node es) ∨ single node es ∨ (shift = 0 ∧ holds d 0 node es).

Lemma belongs_root d shift hash es :
  SHIFT * d + shift = 70 → shift ≠ 0 → belongs shift hash es → with_digit 0 (digit hash 0) es.
Proof.
  intros Hd Hs Hb. eapply Forall_impl; [exact Hb|]. cbn. intros e He.
  replace shift with (0 + SHIFT + SHIFT * (13 - d)) in He by (unfold SHIFT in *; lia).
  apply prefix_le in He. by apply prefix_step in He as [_ ?].
Qed.

Lemma children_length shift (P : Node K V → list (K * V) → Prop) datamap nodemap slots es ds ns :
  laid shift P datamap nodemap slots es ds ns → ns ≠ [] → 2 ≤ length (child_entries ns).
Proof.
  intros Hl Hne. destruct ns as [|x ns]; [done|]. pose proof (l_children _ _ _ _ _ _ _ _ Hl) as Hc.
  apply Forall_inv in Hc as (_ & Hlen & _). rewrite child_entries_cons, length_app. lia.
Qed.

Lemma length_data_entries ds : length (data_entries ds) = length ds.
Proof. apply length_fmap. Qed.

Lemma laid_no_children shift (P : Node K V → list (K * V) → Prop) datamap nodemap slots es ds ns :
  laid shift P datamap nodemap slots es ds ns → (nodemap =? 0)%N = bool_decide (ns = []).
Proof.
  intros [_ _ Hnm _ _ Hns _ _ _ _]. destruct (N.eqb_spec nodemap 0) as [->|Hne]; symmetry.
  - rewrite members_zero in Hns. apply fmap_nil_inv in Hns as ->. by apply bool_decide_eq_true.
  - apply bool_decide_eq_false. intros ->. by apply Hne, (members_nil 32).
Qed.

Lemma laid_no_data shift (P : Node K V → list (K * V) → Prop) datamap nodemap slots es ds ns :
  laid shift P datamap nodemap slots es ds ns → (datamap =? 0)%N = bool_decide (ds = []).
Proof.
  intros [_ Hdm _ _ Hds _ _ _ _ _]. destruct (N.eqb_spec datamap 0) as [->|Hne]; symmetry.
  - rewrite members_zero in Hds. apply fmap_nil_inv in Hds as ->. by apply bool_decide_eq_true.
  - apply bool_decide_eq_false. intros ->. by apply Hne, (members_nil 32).
Qed.

Lemma without_collision d edit shift key stamped h en :
  SHIFT * d + shift = 70 → holds d shift (Collision stamped h en) en → distinct en → ¬ absent key en →
  ∃ node e es', without_present d edit shift (key_hash key) key (Collision stamped h en) = Some node ∧
    en ≡ₚ e :: es' ∧ key_eq e.1 key = true ∧ outcome d shift node es'.
Proof.
  intros Hd Hh Hdis Hin. destruct d as [|d]; [done|]. destruct Hh as (_ & Hlen & Hh). cbn [without_present].
  pose proof (position_spec key en) as Hp. destruct (position key en) as [i|]; [|done].
  destruct Hp as (l & e & r & -> & Hi & He).
  assert (Forall (λ e, key_hash e.1 = h) (l ++ r) ∧ h = key_hash key) as [Hlr ->].
  { rewrite <-Permutation_middle in Hh. inversion_clear Hh; subst. split; [done|]. by rewrite (key_hash_eq _ _ He). }
  rewrite N.eqb_refl. cbn [negb]. rewrite length_app in *. cbn [length] in *.
  destruct (Nat.eqb_spec (length l + S (length r)) 1); [lia|].
  destruct (Nat.eqb_spec (length l + S (length r)) 2) as [H2|H2].
  - assert (∃ kept, other_entry key (l ++ e :: r) = Some kept ∧ l ++ r = [kept]) as (kept & -> & Hk).
    { rewrite <-Permutation_middle in Hdis. destruct Hdis as [Ha _]. unfold other_entry.
      assert (∀ x, x ∈ l ++ r → key_eq x.1 key = false) as Hx.
      { intros x Hx. destruct (key_eq x.1 key) eqn:E; [|done]. eapply Forall_forall in Ha; [|exact Hx]. cbn in Ha.
        rewrite (key_eq_trans _ _ _ E (key_eq_sym _ _ He)) in Ha. done. }
      destruct l as [|x [|]], r as [|y [|]]; cbn in H2; try lia; [exists y|exists x]; cbn; (split; [|done]).
      - rewrite decide_False by (by rewrite He). rewrite decide_True by (apply Hx; by left). done.
      - rewrite decide_True by (apply Hx; by left). done. }
    rewrite bit_digit by lia. cbn [mbind option_bind]. exists (Data (stamp edit) (one_bit (digit (key_hash key) 0)) 0
      [Entry (key_hash key) kept.1 kept.2]), e, [kept].
    split; [done|]. rewrite <-Permutation_middle, Hk. split; [done|]. split; [done|]. right; left.
    rewrite Hk in Hlr. inversion_clear Hlr. exists (stamp edit), kept.1, kept.2. destruct kept. cbn in *.
    by rewrite <-H1.
  - subst i. cbn [mbind option_bind]. rewrite vec_remove_app. cbn [mbind option_bind].
    eexists _, e, (l ++ r). split; [done|]. rewrite <-Permutation_middle. split; [done|]. split; [done|].
    left. rewrite length_app. split; [lia|]. split; [done|]. rewrite length_app. split; [lia|done].
Qed.

(** The entry is in the data region of the node. *)
Lemma without_data d edit shift key dm nm slots es l k v r ns :
  SHIFT * S d + shift = 70 →
  laid shift (holds d (shift + SHIFT)) dm nm slots es (l ++ (digit (key_hash key) shift, (k, v)) :: r) ns →
  located dm (digit (key_hash key) shift) l r → has dm (digit (key_hash key) shift) = true →
  belongs shift (key_hash key) es → 2 ≤ length es ∨ shift = 0 →
  ∃ node,
    (if (count_ones dm =? 2) && (nm =? 0)%N then
       new_datamap ← (if shift =? 0 then Some (N.lxor dm (one_bit (digit (key_hash key) shift)))
                      else bit (key_hash key) 0);
       kept ← slots !! (if length l =? 0 then 1 else 0);
       Some (Data (stamp edit) new_datamap 0 [kept])
     else
       slots ← vec_remove (length l) slots;
       Some (Data (stamp edit) (N.lxor dm (one_bit (digit (key_hash key) shift))) nm slots)) = Some node ∧
    outcome (S d) shift node (data_entries (l ++ r) ++ child_entries ns).
Proof.
  intros Hd Hl Hlo Hdm Hb Hlen. set (m := digit (key_hash key) shift) in *.
  destruct (laid_remove_data _ _ _ _ _ Hl Hlo Hdm) as (slots' & Hrem & Hl').
  assert (∃ st : N, holds (S d) shift (Data st (N.lxor dm (one_bit m)) nm slots')
    (data_entries (l ++ r) ++ child_entries ns)) as [st Hh] by (exists 0%N; by do 2 eexists).
  rewrite (count_ones_32 _ _ (l_ds _ _ _ _ _ _ _ _ Hl)) by apply (l_datamap _ _ _ _ _ _ _ _ Hl).
  rewrite (laid_no_children _ _ _ _ _ _ _ _ Hl). rewrite length_app. cbn [length].
  destruct (Nat.eqb_spec (length l + S (length r)) 2) as [H2|H2]; [case_bool_decide as Hns|]; cbn [andb].
  2, 3: rewrite Hrem; cbn [mbind option_bind]; eexists; split; [done|].
  2, 3: destruct (decide (shift = 0)) as [->|Hs]; [right; right; by split; [|apply Hh]|left; split; [|apply Hh]].
  - subst ns.
    assert (∃ x, l ++ r = [x] ∧ slots !! (if length l =? 0 then 1 else 0) = Some (data_slot x) ∧
                 slots' = [data_slot x]) as (x & Hx & -> & ->).
    { rewrite (l_slots _ _ _ _ _ _ _ _ Hl), (l_slots _ _ _ _ _ _ _ _ Hl').
      destruct l as [|x [|]], r as [|y [|]]; cbn in H2; try lia; [by exists y|by exists x]. }
    assert (x ∈ l ++ (m, (k, v)) :: r) as Hin.
    { rewrite Permutation_app_comm. cbn. right. rewrite Permutation_app_comm, Hx. by left. }
    rewrite Hx in Hh |- *. destruct (Nat.eqb_spec shift 0) as [->|Hs].
    + cbn [mbind option_bind]. eexists. split; [done|]. right; right. split; [done|].
      rewrite (l_slots _ _ _ _ _ _ _ _ Hl') in *.
      assert (nm = 0)%N as Hnm.
      { apply N.eqb_eq. rewrite (laid_no_children _ _ _ _ _ _ _ _ Hl). by apply bool_decide_eq_true. }
      rewrite Hnm in Hh. exact Hh.
    + rewrite bit_digit by lia. cbn [mbind option_bind]. eexists. split; [done|]. right; left.
      exists (stamp edit), x.2.1, x.2.2. split; [|by destruct x as [? []]].
      apply (belongs_root (S d)) in Hb; [|done..].
      assert (digit (key_hash x.2.1) 0 = digit (key_hash key) 0) as <-; [|done].
      apply (proj1 (Forall_forall _ _) Hb x.2). rewrite (l_es _ _ _ _ _ _ _ _ Hl). apply elem_of_app. left.
      unfold data_entries. by apply list_elem_of_fmap_2.
  - destruct Hlen as [Hlen| ->]; [|done].
    pose proof (children_length _ _ _ _ _ _ _ _ Hl Hns). rewrite length_app. lia.
  - destruct Hlen as [Hlen| ->]; [|done]. rewrite (laid_entries_data _ _ _ _ _ _ _ _ _ _ _ Hl) in Hlen.
    cbn [length] in Hlen. destruct (decide (ns = [])) as [->|Hns].
    + rewrite length_app, length_data_entries, length_app in *. cbn in *. lia.
    + pose proof (children_length _ _ _ _ _ _ _ _ Hl Hns). rewrite length_app. lia.
Qed.

Lemma absent_app key l r : absent key (l ++ r) ↔ absent key l ∧ absent key r.
Proof. apply Forall_app. Qed.

(** A child that is left with a single pair gives it to its parent. *)
Lemma lift_child d edit shift key dm nm slots es ds l c en r k v st e :
  SHIFT * S d + shift = 70 →
  laid shift (holds d (shift + SHIFT)) dm nm slots es ds (l ++ (digit (key_hash key) shift, (c, en)) :: r) →
  located nm (digit (key_hash key) shift) l r →
  has dm (digit (key_hash key) shift) = false → has nm (digit (key_hash key) shift) = true →
  with_digit shift (digit (key_hash key) shift) en → en ≡ₚ [e; (k, v)] →
  let b := one_bit (digit (key_hash key) shift) in
  let child := Data st (one_bit (digit (key_hash k) 0)) 0 [Entry (key_hash k) k v] in
  ∃ node es',
    (if (dm =? 0)%N && (count_ones nm =? 1) then Some child
     else
       lifted ← lifted_entry child;
       slots ← vec_remove (length ds + length r) (<[length ds + length r := Sub child]> slots);
       slots ← vec_insert (index (N.lor dm b) b) lifted slots;
       Some (Data (stamp edit) (N.lor dm b) (N.lxor nm b) slots)) = Some node ∧
    es ≡ₚ e :: es' ∧ outcome (S d) shift node es'.
Proof.
  intros Hd Hl Hlo Hdm Hnm Hdig Hen b child. subst b. set (m := digit (key_hash key) shift) in *.
  pose proof (laid_entries_child _ _ _ _ _ _ _ _ _ _ _ _ Hl) as Hes. rewrite Hen in Hes.
  rewrite (laid_no_data _ _ _ _ _ _ _ _ Hl).
  rewrite (count_ones_32 _ _ (l_ns _ _ _ _ _ _ _ _ Hl)) by apply (l_nodemap _ _ _ _ _ _ _ _ Hl).
  rewrite length_app. cbn [length].
  destruct (bool_decide (ds = []) && (length l + S (length r) =? 1)) eqn:Hone.
  - apply andb_true_iff in Hone as [->%bool_decide_eq_true Hlen%Nat.eqb_eq].
    assert (l = [] ∧ r = []) as [-> ->] by (split; apply nil_length_inv; lia).
    exists child, [(k, v)]. split; [done|]. split; [done|]. right; left. by exists st, k, v.
  - cbn [lifted_entry child lookup list_lookup mbind option_bind]. rewrite vec_remove_insert.
    destruct (laid_remove_child _ _ _ _ _ Hl Hlo Hnm) as (slots1 & -> & Hl1). cbn [mbind option_bind].
    pose proof (split_at ds dm m (l_ds _ _ _ _ _ _ _ _ Hl) (digit_lt _ _)) as Hsplit. rewrite Hdm in Hsplit.
    destruct Hsplit as (l2 & r2 & -> & Hlo2).
    unfold with_digit in Hdig. rewrite Hen in Hdig. apply Forall_inv_tail, Forall_inv in Hdig. cbn in Hdig.
    rewrite (located_index _ _ _ _ (located_set _ _ _ _ Hlo2)).
    destruct (laid_insert_data l2 m r2 (l ++ r) k v Hl1 Hlo2 Hdm) as (slots2 & -> & Hl2);
      [by rewrite has_flip, Hnm, bool_decide_true|done|].
    cbn [mbind option_bind].
    eexists _, (data_entries (l2 ++ (m, (k, v)) :: r2) ++ child_entries (l ++ r)). split; [done|]. split.
    + rewrite Hes, data_entries_middle. cbn [app snd]. done.
    + left. split; [|by do 2 eexists]. rewrite length_app, length_data_entries, length_app. cbn [length].
      destruct (decide (l ++ r = [])) as [Hnil|Hnil].
      * apply app_nil in Hnil as [-> ->]. cbn in Hone. rewrite andb_true_r in Hone.
        apply bool_decide_eq_false in Hone. destruct l2, r2; cbn; done || lia.
      * pose proof (children_length _ _ _ _ _ _ _ _ Hl1 Hnil). lia.
Qed.

Lemma without_holds d edit shift key node es :
  SHIFT * d + shift = 70 → holds d shift node es → belongs shift (key_hash key) es → distinct es →
  ¬ absent key es → 2 ≤ length es ∨ shift = 0 →
  ∃ node' e es', without_present d edit shift (key_hash key) key node = Some node' ∧
    es ≡ₚ e :: es' ∧ key_eq e.1 key = true ∧ outcome d shift node' es'.
Proof.
  revert shift node es. induction d as [|d IH]; intros shift node es Hd; [by intros|].
  destruct node as [stamped dm nm slots|stamped h en].
  2: { intros Hh Hb Hdis Hin _. pose proof Hh as (-> & _). by apply without_collision. }
  intros (ds & ns & Hlaid) Hb Hdis Hin Hlen. pose proof (l_shift _ _ _ _ _ _ _ _ Hlaid) as Hs.
  cbn [without_present]. rewrite (bit_digit _ shift) by done. cbn [mbind option_bind]. rewrite has_land, land_has.
  destruct (find_place _ _ _ _ _ _ _ _ key Hlaid)
    as [l k v r ns' Hl Hlo Hdm Hslot Hk Hab|ds' l c en r Hl Hlo Hdm Hnm Hi Hslot Hc Hlen' Hdig Hab
       |l r ns' Hl Hlo Hdm Hnm Hab]; [| |destruct (Hin Hab)]; rewrite Hdm, ?Hnm.
  - rewrite (located_index _ _ _ _ Hlo).
    destruct (without_data d edit shift key _ _ _ _ _ _ _ _ _ Hd Hl Hlo Hdm Hb Hlen) as (node' & E & Ho).
    exists node', (k, v), (data_entries (l ++ r) ++ child_entries ns'). split; [exact E|].
    pose proof (laid_entries_data _ _ _ _ _ _ _ _ _ _ _ Hl) as Hes. split; [done|]. split; [|done].
    cbn. apply not_false_iff_true. intros E'. apply Hin. rewrite Hes. by apply Forall_cons_2.
  - cbn [negb]. rewrite Hi, Hslot. cbn [mbind option_bind].
    pose proof (laid_entries_child _ _ _ _ _ _ _ _ _ _ _ _ Hl) as Hes.
    destruct (IH (shift + SHIFT) c en) as (c' & e & en' & -> & Hen & He & Ho); [unfold SHIFT in *; lia|done|..].
    { by eapply belongs_child. }
    { rewrite Hes in Hdis. by apply distinct_app in Hdis as [? _]. }
    { intros Ha. apply Hin. rewrite Hes. by apply absent_app. }
    { by left. }
    cbn [mbind option_bind]. unfold outcome in Ho. destruct Ho as [[Hlen2 Hc']|[Hsing|[? _]]]; [| |unfold SHIFT in *; lia].
    + rewrite (holds_not_single _ _ _ _ Hc' Hlen2). cbn [negb].
      assert (with_digit shift (digit (key_hash key) shift) en') as Hdig'.
      { unfold with_digit in Hdig. rewrite Hen in Hdig. by apply Forall_inv_tail in Hdig. }
      eexists _, e, (data_entries ds' ++ child_entries (l ++ (digit (key_hash key) shift, (c', en')) :: r)).
      split; [done|]. split; [|split; [done|]].
      2: { left. split; [|do 2 eexists; by eapply laid_replace_child].
           rewrite length_app, child_entries_middle, length_app. cbn [snd]. lia. }
      rewrite Hes, Hen, child_entries_middle. cbn [app snd]. apply Permutation_skip, Permutation_app_swap_app.
    + rewrite (single_is_single _ _ Hsing). cbn [negb]. destruct Hsing as (st & k & v & -> & ->).
      destruct (lift_child d edit shift key _ _ _ _ _ _ _ _ _ k v st e Hd Hl Hlo Hdm Hnm Hdig Hen)
        as (node' & es' & E & Hes' & Ho).
      exists node', e, es'. done.
Qed.

(** ** Maps *)
Record rep (m : Standard K V) es : Prop := {
  r_root : holds DEPTH 0 (root m) es;
  r_distinct : distinct es;
  r_size : size m = length es;
}.

(** The first pair with a key. *)
Fixpoint find_in (key : K) es : option (K * V) :=
  match es with
  | [] => None
  | e :: es => if key_eq e.1 key then Some e else find_in key es
  end.

Lemma key_eq_congr a b x : key_eq a b = true → key_eq x a = key_eq x b.
Proof.
  intros E. apply eq_true_iff_eq. split; intros Hx; [by eapply key_eq_trans|].
  eapply key_eq_trans; [exact Hx|]. by apply key_eq_sym.
Qed.

Lemma absent_congr a b es : key_eq a b = true → absent a es → absent b es.
Proof. intros E Ha. eapply Forall_impl; [exact Ha|]. cbn. intros e. by rewrite (key_eq_congr _ _ _ E). Qed.

Lemma find_in_congr a b es : key_eq a b = true → find_in a es = find_in b es.
Proof. intros E. induction es as [|e es IH]; cbn; [done|]. by rewrite (key_eq_congr _ _ _ E), IH. Qed.

Lemma find_in_finds key es : finds key es (find_in key es).
Proof.
  induction es as [|e es IH]; cbn [find_in]; [apply Forall_nil_2|].
  destruct (key_eq e.1 key) eqn:E; [split; [by left|done]|].
  destruct (find_in key es) as [e'|]; cbn in *; [split; [right; apply IH|apply IH]|by apply Forall_cons_2].
Qed.

Lemma absent_find key es : absent key es ↔ find_in key es = None.
Proof.
  split.
  - intros Ha. pose proof (find_in_finds key es) as Hf. destruct (find_in key es) as [e|]; [|done].
    destruct Hf as [Hin He]. eapply Forall_forall in Ha; [|exact Hin]. cbn in Ha. congruence.
  - intros E. pose proof (find_in_finds key es) as Hf. by rewrite E in Hf.
Qed.

Lemma finds_unique key es a b : distinct es → finds key es a → finds key es b → a = b.
Proof.
  intros Hd.
  assert (∀ e, e ∈ es → key_eq e.1 key = true → absent key es → False) as Hno.
  { intros e Hin He Ha. eapply Forall_forall in Ha; [|exact Hin]. cbn in Ha. congruence. }
  destruct a as [a|], b as [b|]; cbn; [|intros [] ?; exfalso; eauto|intros ? []; exfalso; eauto|done].
  intros [Ha Ea] [Hb Eb]. f_equal. apply elem_of_Permutation in Ha as [rest Hp].
  rewrite Hp in Hd, Hb. destruct Hd as [Habs _]. apply elem_of_cons in Hb as [->|Hb]; [done|].
  eapply Forall_forall in Habs; [|exact Hb]. cbn in Habs.
  rewrite (key_eq_trans _ _ _ Eb (key_eq_sym _ _ Ea)) in Habs. done.
Qed.

Lemma finds_perm key es es' found : es ≡ₚ es' → finds key es found → finds key es' found.
Proof. intros E. destruct found; cbn; by rewrite E. Qed.

Lemma find_in_perm key es es' : distinct es → es ≡ₚ es' → find_in key es = find_in key es'.
Proof.
  intros Hd E. apply (finds_unique key es); [done|apply find_in_finds|].
  eapply finds_perm; [by symmetry|apply find_in_finds].
Qed.

Lemma rep_find m es key : rep m es → find_entry m key = Some (find_in key es).
Proof.
  intros [Hr Hd _]. destruct (find_holds _ _ key _ _ Hr) as (found & E & Hf). unfold find_entry. rewrite E.
  f_equal. by eapply finds_unique; [|apply Hf|apply find_in_finds].
Qed.

Lemma map_rep_get m es key : rep m es → get m key = Some (snd <$> find_in key es).
Proof. intros Hm. unfold get. by rewrite (rep_find _ _ _ Hm). Qed.

Lemma map_rep_new : rep (standard_new (K:=K) (V:=V)) [].
Proof.
  split; [|done|done]. exists [], []. split; try done; cbn; lia.
Qed.

(** The list after adding a pair. *)
Definition assigned key value es es' : Prop :=
  distinct es' ∧ length es' = length es + (if is_some (find_in key es) then 0 else 1) ∧
  ∀ k, snd <$> find_in k es' = if key_eq key k then Some value else snd <$> find_in k es.

Lemma updated_assigned key value es es' added :
  distinct es → updated key value es es' added →
  assigned key value es es' ∧ added = bool_decide (find_in key es = None).
Proof.
  intros Hd Hu. pose proof (updated_length _ _ _ _ _ Hu) as Hlen. destruct added.
  - destruct Hu as [Ha Hes]. pose proof Ha as Hf%absent_find.
    assert (distinct es') as Hd' by (rewrite Hes; done).
    rewrite Hf. split; [|done]. split; [done|]. rewrite Hf. split; [done|].
    intros k. rewrite (find_in_perm k _ _ Hd' Hes). cbn. by destruct (key_eq key k).
  - destruct Hu as (k0 & v0 & k1 & rest & Hes & Hes' & E0 & E1).
    assert (key_eq k0 k1 = true) as E01 by (eapply key_eq_trans; [done|by apply key_eq_sym]).
    pose proof Hd as Hd0. rewrite Hes in Hd0. destruct Hd0 as [Ha Hdr].
    assert (distinct es') as Hd' by (rewrite Hes'; split; [by eapply absent_congr|done]).
    assert (find_in key es = Some (k0, v0)) as Hf by (rewrite (find_in_perm key _ _ Hd Hes); cbn; by rewrite E0).
    rewrite bool_decide_false by (by rewrite Hf). split; [|done]. split; [done|]. rewrite Hf. split; [done|].
    intros k. rewrite (find_in_perm k _ _ Hd' Hes'), (find_in_perm k _ _ Hd Hes). cbn.
    rewrite (key_eq_comm k1 k), (key_eq_congr _ _ k E1), (key_eq_comm k0 k), (key_eq_congr _ _ k E0).
    rewrite (key_eq_comm k key). by destruct (key_eq key k).
Qed.

Lemma rep_assoc_root edit m es key value :
  rep m es → ∃ added node es',
    assoc_node DEPTH edit 0 (key_hash key) key value (root m) = Some (added, node) ∧
    rep (mkStandard (metadata m) node (size m + Nat.b2n added)) es' ∧ assigned key value es es'.
Proof.
  intros [Hr Hd Hsz].
  destruct (assoc_holds DEPTH edit 0 key value _ _ eq_refl Hr) as (added & node & es' & -> & Hn & Hu).
  { apply Forall_true. intros e. apply prefix_zero. }
  exists added, node, es'. split; [done|]. destruct (updated_assigned _ _ _ _ _ Hd Hu) as [Ha _].
  split; [|done]. split; [done|apply Ha|]. cbn [size]. by rewrite (updated_length _ _ _ _ _ Hu), Hsz.
Qed.

(** The list after removing a key. *)
Definition removed key es es' : Prop :=
  distinct es' ∧ length es' = length es - (if is_some (find_in key es) then 1 else 0) ∧
  ∀ k, find_in k es' = if key_eq key k then None else find_in k es.

Lemma rep_without_root edit m es key :
  rep m es →
  match find_in key es with
  | None => removed key es es
  | Some _ => ∃ node es', without_present DEPTH edit 0 (key_hash key) key (root m) = Some node ∧
      rep (mkStandard (metadata m) node (size m - 1)) es' ∧ removed key es es'
  end.
Proof.
  intros [Hr Hd Hsz]. destruct (find_in key es) as [e0|] eqn:Hf.
  - destruct (without_holds DEPTH edit 0 key _ _ eq_refl Hr) as (node & e & es' & -> & Hes & He & Ho);
      [apply Forall_true; intros; apply prefix_zero|done|by rewrite absent_find, Hf|by right|].
    exists node, es'. split; [done|]. pose proof Hd as Hd'. rewrite Hes in Hd'. destruct Hd' as [Ha Hd'].
    split; [split|split; [|split]]; [|done| |done| |].
    + destruct Ho as [[_ Ho]|[Ho|[_ Ho]]]; [done| |done]. apply single_holds; [unfold DEPTH; lia|done].
    + cbn [size]. rewrite Hsz, Hes. cbn. lia.
    + rewrite Hf, Hes. cbn. lia.
    + intros k. rewrite (find_in_perm k _ _ Hd Hes). cbn.
      rewrite (key_eq_comm e.1 k), (key_eq_congr _ _ k He), (key_eq_comm k key).
      destruct (key_eq key k) eqn:E; [|done]. apply absent_find. eapply absent_congr; [|exact Ha].
      eapply key_eq_trans; [exact He|exact E].
  - split; [done|]. rewrite Hf. split; [cbn; lia|]. intros k. destruct (key_eq key k) eqn:E; [|done].
    by rewrite <-(find_in_congr _ _ _ E).
Qed.

Lemma map_rep_assoc m es key value :
  rep m es → ∃ m' es', assoc_value m key value = Some m' ∧ rep m' es' ∧ assigned key value es es' ∧
    metadata m' = metadata m.
Proof.
  intros Hm. destruct (rep_assoc_root None m es key value Hm) as (added & node & es' & E & Hr & Ha).
  unfold assoc_value. rewrite E. cbn [mbind option_bind]. eexists _, es'. by split_and!.
Qed.

Lemma rep_dissoc m es key :
  rep m es → ∃ m' es', dissoc_value m key = Some m' ∧ rep m' es' ∧ removed key es es' ∧
    metadata m' = metadata m.
Proof.
  intros Hm. pose proof (rep_without_root None m es key Hm) as Hw. pose proof (rep_find m es key Hm) as Hf.
  unfold dissoc_value. unfold find_entry in Hf. rewrite Hf. cbn [mbind option_bind].
  destruct (find_in key es) as [e|] eqn:E; [|exists m, es; by split_and!].
  destruct Hw as (node & es' & -> & Hr & Hrem). cbn [mbind option_bind]. eexists _, es'. by split_and!.
Qed.

Lemma rep_extend items m es :
  rep m es → ∃ m' es', extend m items = Some m' ∧ rep m' es' ∧
    ∀ k, snd <$> find_in k es' = snd <$> find_in k (reverse items ++ es).
Proof.
  revert m es. induction items as [|[key value] items IH]; intros m es Hm; cbn [extend]; [by exists m, es|].
  destruct (map_rep_assoc m es key value Hm) as (m1 & es1 & -> & Hm1 & (_ & _ & H1) & _). cbn [mbind option_bind].
  destruct (IH m1 es1 Hm1) as (m' & es' & E & Hm' & H'). exists m', es'. split; [done|]. split; [done|].
  intros k. rewrite H', reverse_cons, <-app_assoc. cbn [app].
  generalize (reverse items). clear -H1. intros l. induction l as [|e l IHl]; cbn [app find_in fst]; [|by destruct (key_eq e.1 k)].
  rewrite H1. by destruct (key_eq key k).
Qed.

Lemma assigned_get key value es es' m m' :
  rep m es → rep m' es' → assigned key value es es' →
  ∀ k, get m' k = if key_eq key k then Some (Some value) else get m k.
Proof.
  intros Hm Hm' (_ & _ & Ha) k. rewrite (map_rep_get _ _ k Hm), (map_rep_get _ _ k Hm'), Ha. by destruct (key_eq key k).
Qed.

Lemma removed_get key es es' m m' :
  rep m es → rep m' es' → removed key es es' →
  ∀ k, get m' k = if key_eq key k then Some None else get m k.
Proof.
  intros Hm Hm' (_ & _ & Ha) k. rewrite (map_rep_get _ _ k Hm), (map_rep_get _ _ k Hm'), Ha. by destruct (key_eq key k).
Qed.

(** C29. A map that holds a list of entries with distinct keys iterates over
    exactly them and finds exactly their keys; associating and dissociating
    never panic, keep the map well-formed, and change the lookup of that one
    key (of all keys equal to it) and the size as a finite map does. Building a
    map keeps the last value of each key. *)
Theorem hash_map_correct m es key value :
  rep m es →
  entries m = Some es ∧ size m = length es ∧
  (∃ found, find_entry m key = Some found ∧ finds key es found) ∧
  (∃ m' es', assoc_value m key value = Some m' ∧ rep m' es' ∧ metadata m' = metadata m ∧
     size m' = size m + (if is_some (find_in key es) then 0 else 1) ∧
     ∀ k, get m' k = if key_eq key k then Some (Some value) else get m k) ∧
  (∃ m' es', dissoc_value m key = Some m' ∧ rep m' es' ∧ metadata m' = metadata m ∧
     size m' = size m - (if is_some (find_in key es) then 1 else 0) ∧
     ∀ k, get m' k = if key_eq key k then Some None else get m k) ∧
  (∀ items, ∃ built, from_iter items = Some built ∧
     ∀ k, get built k = Some (snd <$> find_in k (reverse items))).
Proof.
  intros Hm. split_and!.
  - eapply collect_holds, Hm.
  - apply Hm.
  - exists (find_in key es). split; [by apply rep_find|apply find_in_finds].
  - destruct (map_rep_assoc m es key value Hm) as (m' & es' & E & Hm' & Ha & Hmeta).
    exists m', es'. split_and!; [done|done|done| |by eapply assigned_get].
    rewrite (r_size _ _ Hm), (r_size _ _ Hm'). apply Ha.
  - destruct (rep_dissoc m es key Hm) as (m' & es' & E & Hm' & Ha & Hmeta).
    exists m', es'. split_and!; [done|done|done| |by eapply removed_get].
    rewrite (r_size _ _ Hm), (r_size _ _ Hm'). apply Ha.
  - intros items. destruct (rep_extend items _ _ map_rep_new) as (built & es' & E & Hb & Hf).
    exists built. split; [done|]. intros k. by rewrite (map_rep_get _ _ _ Hb), Hf, app_nil_r.
Qed.

(** ** Equality *)
Lemma present_length es es' :
  distinct es → (∀ e, e ∈ es → ¬ absent e.1 es') → length es ≤ length es'.
Proof.
  revert es'. induction es as [|e es IH]; intros es' Hd Hp; cbn; [lia|]. destruct Hd as [Ha Hd].
  pose proof (Hp e ltac:(by left)) as He. rewrite absent_find in He. pose proof (find_in_finds e.1 es') as Hf.
  destruct (find_in e.1 es') as [e'|]; [|done]. destruct Hf as [[rest Hr]%elem_of_Permutation Ee].
  rewrite Hr. cbn. apply le_n_S, IH; [done|]. intros x Hx Habs. apply (Hp x); [by right|].
  rewrite Hr. apply Forall_cons_2; [|done]. destruct (key_eq e'.1 x.1) eqn:Ex; [|done].
  eapply Forall_forall in Ha; [|exact Hx]. cbn in Ha.
  rewrite (key_eq_trans _ _ _ (key_eq_sym _ _ Ex) Ee) in Ha. done.
Qed.

Lemma find_in_self es e : distinct es → e ∈ es → find_in e.1 es = Some e.
Proof.
  intros Hd Hin. apply (finds_unique e.1 es); [done|apply find_in_finds|]. split; [done|apply key_eq_refl].
Qed.

(** The lookups of two lists agree. *)
Definition same_lookups es es' : Prop := ∀ k, snd <$> find_in k es = snd <$> find_in k es'.

Lemma same_lookups_present es es' : distinct es → same_lookups es es' → length es ≤ length es'.
Proof.
  intros Hd Hs. apply present_length; [done|]. intros e He Ha. specialize (Hs e.1).
  rewrite (find_in_self _ _ Hd He) in Hs. apply absent_find in Ha. by rewrite Ha in Hs.
Qed.

Lemma matched_same es es' :
  distinct es → length es = length es' →
  (∀ e, e ∈ es → snd <$> find_in e.1 es' = Some e.2) → same_lookups es es'.
Proof.
  intros Hd Hlen Hm k. pose proof (find_in_finds k es) as Hf. destruct (find_in k es) as [e|] eqn:E.
  - destruct Hf as [Hin He]. rewrite <-(find_in_congr _ _ es' He), (Hm e Hin). done.
  - destruct (find_in k es') as [e'|] eqn:E'; [|done]. exfalso.
    assert (length ((k, e'.2) :: es) ≤ length es') as Hle; [|cbn in Hle; lia].
    apply present_length; [by split|]. intros x [->|Hx]%elem_of_cons Ha; apply absent_find in Ha.
    + cbn in Ha. congruence.
    + specialize (Hm x Hx). by rewrite Ha in Hm.
Qed.

Section equality.
Context (value_eq : V → V → bool) (value_eq_spec : ∀ v w, value_eq v w = true ↔ v = w).

Lemma all_match_spec other es l :
  rep other es →
  ∃ r, all_match value_eq other l = Some r ∧ (r = true ↔ ∀ e, e ∈ l → snd <$> find_in e.1 es = Some e.2).
Proof.
  intros Ho. induction l as [|[k v] l (r & IH & Hr)]; cbn [all_match].
  { exists true. split; [done|]. split; [|done]. by intros _ e ?%elem_of_nil. }
  rewrite (map_rep_get _ _ k Ho). cbn [mbind option_bind]. setoid_rewrite elem_of_cons.
  destruct (snd <$> find_in k es) as [w|] eqn:Ew; [destruct (value_eq w v) eqn:Ev|].
  - exists r. split; [done|]. apply value_eq_spec in Ev as ->. rewrite Hr.
    split; [by intros Hl e [->|]; auto|auto].
  - exists false. split; [done|]. split; [done|]. intros Hl. specialize (Hl (k, v) ltac:(by left)).
    cbn in Hl. rewrite Ew in Hl. injection Hl as ->. by rewrite (proj2 (value_eq_spec v v) eq_refl) in Ev.
  - exists false. split; [done|]. split; [done|]. intros Hl. specialize (Hl (k, v) ltac:(by left)).
    cbn in Hl. by rewrite Ew in Hl.
Qed.

(** Two maps are equal exactly when every lookup agrees: equality looks at
    the sizes and at the entries of one side only. *)
Theorem map_equality_correct m other es es' :
  rep m es → rep other es' →
  ∃ r, standard_eq value_eq m other = Some r ∧ (r = true ↔ ∀ k, get m k = get other k).
Proof.
  intros Hm Ho.
  assert ((∀ k, get m k = get other k) ↔ same_lookups es es') as Hiff.
  { unfold same_lookups. split; intros E k; specialize (E k); rewrite ?(map_rep_get _ _ k Hm), ?(map_rep_get _ _ k Ho) in *;
      congruence. }
  pose proof (r_distinct _ _ Hm) as Hd. pose proof (r_distinct _ _ Ho) as Hd'.
  setoid_rewrite Hiff. unfold standard_eq, entries. rewrite (r_size _ _ Hm), (r_size _ _ Ho).
  destruct (Nat.eqb_spec (length es) (length es')) as [Hlen|Hlen]; cbn [negb].
  2: { eexists. split; [done|]. split; [done|]. intros Hs. exfalso. apply Hlen, Nat.le_antisymm.
       - by apply same_lookups_present.
       - apply same_lookups_present; [done|]. intros k. by rewrite Hs. }
  rewrite (collect_holds _ _ _ _ (r_root _ _ Hm)). cbn [mbind option_bind].
  destruct (all_match_spec other es' es Ho) as (r & E & Hr). exists r. split; [exact E|]. rewrite Hr. split.
  - by apply matched_same.
  - intros Hs e He. rewrite <-Hs. by rewrite (find_in_self _ _ Hd He).
Qed.
End equality.

(** ** Transient sessions *)
Inductive edit :=
| EAssoc (key : K) (value : V)
| EDissoc (key : K).

Definition apply_edit (m : Mutable K V) (e : edit) : option (Mutable K V) :=
  match e with EAssoc k v => mutable_assoc m k v | EDissoc k => mutable_dissoc m k end.

Definition persistent_edit (m : Standard K V) (e : edit) : option (Standard K V) :=
  match e with EAssoc k v => assoc_value m k v | EDissoc k => dissoc_value m k end.

Fixpoint session {A} (apply : A → edit → option A) (a : A) (es : list edit) : option A :=
  match es with
  | [] => Some a
  | e :: es => a ← apply a e; session apply a es
  end.

(** A transient and a map that answer alike. *)
Definition alike (t : Mutable K V) (m : Standard K V) : Prop :=
  editable t = true ∧ metadata (standard t) = metadata m ∧
  ∃ es es', rep (standard t) es ∧ rep m es' ∧ same_lookups es es' ∧ length es = length es'.

Lemma same_lookups_some es es' k :
  same_lookups es es' → is_some (find_in k es) = is_some (find_in k es').
Proof. intros Hs. specialize (Hs k). by destruct (find_in k es), (find_in k es'). Qed.

Lemma assigned_same key value a b a' b' :
  same_lookups a b → length a = length b → assigned key value a a' → assigned key value b b' →
  same_lookups a' b' ∧ length a' = length b'.
Proof.
  intros Hs Hlen (_ & La & Ha) (_ & Lb & Hb). split.
  - intros k. rewrite Ha, Hb. destruct (key_eq key k); [done|apply Hs].
  - rewrite La, Lb, Hlen. by rewrite (same_lookups_some _ _ key Hs).
Qed.

Lemma removed_same key a b a' b' :
  same_lookups a b → length a = length b → removed key a a' → removed key b b' →
  same_lookups a' b' ∧ length a' = length b'.
Proof.
  intros Hs Hlen (_ & La & Ha) (_ & Lb & Hb). split.
  - intros k. rewrite Ha, Hb. destruct (key_eq key k); [done|apply Hs].
  - rewrite La, Lb, Hlen. by rewrite (same_lookups_some _ _ key Hs).
Qed.

Lemma apply_edit_alike t m e :
  alike t m → ∃ t' m', apply_edit t e = Some t' ∧ persistent_edit m e = Some m' ∧ alike t' m'.
Proof.
  intros (He & Hmeta & es & es' & Ht & Hm & Hs & Hlen).
  destruct e as [key value|key]; cbn [apply_edit persistent_edit]; unfold mutable_assoc, mutable_dissoc, check;
    rewrite He; cbn [mbind option_bind].
  - destruct (rep_assoc_root (Some (token t)) _ _ key value Ht) as (added & node & es1 & -> & Hr & Ha).
    destruct (map_rep_assoc m es' key value Hm) as (m' & es2 & -> & Hm' & Ha' & Hmeta').
    destruct (assigned_same _ _ _ _ _ _ Hs Hlen Ha Ha') as [Hs' Hlen'].
    cbn [mbind option_bind fst snd]. eexists _, m'. split; [done|]. split; [done|]. split; [done|].
    split; [cbn; congruence|]. by exists es1, es2.
  - pose proof (rep_without_root (Some (token t)) _ _ key Ht) as Hw.
    pose proof (rep_find _ _ key Ht) as Hf. unfold find_entry in Hf. rewrite Hf. cbn [mbind option_bind].
    destruct (rep_dissoc m es' key Hm) as (m' & es2 & -> & Hm' & Ha' & Hmeta').
    destruct (find_in key es) as [e0|] eqn:E.
    + destruct Hw as (node & es1 & -> & Hr & Ha). cbn [mbind option_bind].
      destruct (removed_same _ _ _ _ _ Hs Hlen Ha Ha') as [Hs' Hlen'].
      eexists _, m'. split; [done|]. split; [done|]. split; [done|]. split; [cbn; congruence|]. by exists es1, es2.
    + destruct (removed_same _ _ _ _ _ Hs Hlen Hw Ha') as [Hs' Hlen'].
      exists t, m'. split; [done|]. split; [done|]. split; [done|]. split; [congruence|]. by exists es, es2.
Qed.

(** A transient session performs the persistent updates: it never panics,
    its map answers every lookup as the persistently updated map and has its
    size and metadata, whichever nodes were edited in place; the frozen map
    equals it, and the transient can no longer be used. *)
Theorem transient_map_correct token m es edits :
  rep m es →
  ∃ t m' frozen t', session apply_edit (to_mutable token m) edits = Some t ∧
    session persistent_edit m edits = Some m' ∧
    to_persistent t = Some (frozen, t') ∧
    (∀ k, mutable_get t k = get m' k ∧ get frozen k = get m' k ∧ mutable_get t' k = None) ∧
    size frozen = size m' ∧ metadata frozen = metadata m' ∧ (∀ e, apply_edit t' e = None).
Proof.
  intros Hm. assert (alike (to_mutable token m) m) as Ha.
  { split; [done|]. split; [done|]. by exists es, es. }
  clear Hm es. generalize dependent (to_mutable token m). intros t0. revert t0 m.
  induction edits as [|e edits IH]; intros t m Ha; cbn [session].
  - destruct Ha as (He & Hmeta & es & es' & Ht & Hm & Hs & Hlen). exists t, m. eexists _, _.
    do 2 (split; [done|]). split; [unfold to_persistent, check; by rewrite He|]. split; [|split; [|split; [done|by intros []]]].
    + intros k. unfold mutable_get, check. rewrite He. cbn [mbind option_bind editable].
      rewrite (map_rep_get _ _ k Ht), (map_rep_get _ _ k Hm), (Hs k). done.
    + by rewrite (r_size _ _ Ht), (r_size _ _ Hm).
  - destruct (apply_edit_alike t m e Ha) as (t1 & m1 & -> & -> & Ha1). cbn [mbind option_bind]. by apply IH.
Qed.
End facts.

(** ** Concrete maps

    Keys that write one [u64]: the placement hash is its low half, so keys that
    differ above it collide. *)
#[export] Instance N_key : Key N := {
  key_eq := N.eqb;
  hash_writes n := [WriteU64 n];
  default_finish _ := 0%N;
}.

#[export] Instance N_key_laws : KeyLaws N.
Proof.
  split.
  - apply N.eqb_refl.
  - intros x y. by rewrite N.eqb_sym.
  - intros x y z ->%N.eqb_eq ->%N.eqb_eq. apply N.eqb_refl.
  - by intros x y ->%N.eqb_eq.
  - done.
Qed.

(** 1 and 33 share a root slot, 1 and [2 ^ 32 + 1] the whole hash. *)
Definition collider : N := 4294967297.
Definition sample_items : list (N * nat) := [(1%N, 10); (33%N, 11); (collider, 12); (5%N, 13); (collider, 14)].
Definition sample : Standard N nat := default standard_new (from_iter sample_items).
Definition sample_entries : list (N * nat) := default [] (entries sample).

Lemma sample_rep : rep sample sample_entries.
Proof.
  destruct (rep_extend sample_items (standard_new (K:=N) (V:=nat)) [] map_rep_new) as (m & es & E & Hm & _).
  unfold sample_entries. assert (sample = m) as -> by (unfold sample, from_iter; by rewrite E).
  unfold entries. by rewrite (collect_holds _ _ _ _ (r_root _ _ Hm)).
Qed.

Lemma hash_map_correct_witness :
  size sample = 4 ∧ ∃ m es, dissoc_value sample collider = Some m ∧ rep m es ∧
    get m collider = Some None ∧ get m 1%N = Some (Some 10).
Proof.
  destruct (hash_map_correct sample sample_entries collider 0 sample_rep)
    as (_ & Hsize & _ & _ & (m & es & E & Hm & _ & _ & Hget) & _).
  split; [rewrite Hsize; vm_compute; reflexivity|].
  exists m, es. split; [exact E|]. split; [exact Hm|]. split; rewrite Hget; vm_compute; reflexivity.
Defined.

Lemma map_equality_correct_witness :
  rep sample sample_entries ∧
  ∃ r, standard_eq Nat.eqb sample sample = Some r ∧ (r = true ↔ ∀ k, get sample k = get sample k).
Proof.
  split; [exact sample_rep|].
  exact (map_equality_correct Nat.eqb Nat.eqb_eq sample sample _ _ sample_rep sample_rep).
Defined.

Lemma transient_map_correct_witness :
  ∃ t, session apply_edit (to_mutable 7 sample) [EDissoc 1%N; EAssoc 65%N 3; EDissoc collider] = Some t ∧
    mutable_get t 65%N = Some (Some 3) ∧ mutable_get t 33%N = Some (Some 11).
Proof.
  destruct (transient_map_correct 7 sample _ [EDissoc 1%N; EAssoc 65%N 3; EDissoc collider] sample_rep)
    as (t & m & frozen & t' & Ht & Hm & _ & Hget & _).
  exists t. split; [exact Ht|]. vm_compute in Hm. injection Hm as Hm.
  split; rewrite (proj1 (Hget _)), <-Hm; vm_compute; reflexivity.
Defined.
