(* ===== verification/Deque.v ===== *)
(** * The persistent deque

    [src/core/rust/src/lang/data/deque.rs]: a finger tree of items measured by
    their number of elements. [None] is a panic (an index out of range, the
    [unreachable!] of [children], or a failed [debug_assert!], which only debug
    builds check). The second half relates a tree to the list of its elements. *)
From S2P Require Import Prelude Kernel.

#[warnings="-register-all"]
Inductive Item (E : Type) :=
| Leaf (value : E)
| Branch (measure : nat) (children : list (Item E)).
Arguments Leaf {E} _.
Arguments Branch {E} _ _.

Inductive FingerTree (E : Type) :=
| Empty
| Single (item : Item E)
| Deep (measure : nat) (prefix : list (Item E)) (middle : FingerTree E) (suffix : list (Item E)).
Arguments Empty {E}.
Arguments Single {E} _.
Arguments Deep {E} _ _ _ _.

Section deque.
Context {E : Type}.
Implicit Types (i : Item E) (t : FingerTree E).

(** ** Items *)
Definition item_measure i : nat := match i with Leaf _ => 1 | Branch measure _ => measure end.

Definition total_measure (items : list (Item E)) : nat := sum_list_with item_measure items.

Definition branch (children : list (Item E)) : option (Item E) :=
  if (2 <=? length children) && (length children <=? 3) then Some (Branch (total_measure children) children)
  else None.

(** The loops over items that look for an index: [hit] has the item's
    position, the item and the index inside it, [miss] the index left. *)
Definition seek {B} (hit : nat → Item E → nat → B) (miss : nat → B) : nat → list (Item E) → nat → B :=
  fix seek position items index :=
    match items with
    | [] => miss index
    | item :: items =>
        if index <? item_measure item then hit position item index
        else seek (S position) items (index - item_measure item)
    end.

Fixpoint item_get i (index : nat) : option E :=
  match i with
  | Leaf value => if index =? 0 then Some value else None
  | Branch _ children => seek (λ _ child index, item_get child index) (λ _, None) 0 children index
  end.

(** [replaced[position] = next]. *)
Definition put_at {A} (position : nat) (next : A) (items : list A) : list A := <[position := next]> items.

Fixpoint item_replace i (index : nat) (value : E) : option (option (Item E)) :=
  match i with
  | Leaf _ => Some (if index =? 0 then Some (Leaf value) else None)
  | Branch _ children =>
      seek (λ position child index,
              replaced ← item_replace child index value;
              match replaced with
              | None => Some None
              | Some next => Some <$> branch (put_at position next children)
              end)
        (λ _, Some None) 0 children index
  end.

Fixpoint item_collect i : list E :=
  match i with
  | Leaf value => [value]
  | Branch _ children => concat (item_collect <$> children)
  end.

Definition item_children i : option (list (Item E)) :=
  match i with Branch _ children => Some children | Leaf _ => None end.

(** ** Trees *)
Definition tree_measure t : nat :=
  match t with Empty => 0 | Single item => item_measure item | Deep measure _ _ _ => measure end.

Definition digits (items : list (Item E)) : bool := (1 <=? length items) && (length items <=? 4).

Definition deep (prefix : list (Item E)) (middle : FingerTree E) (suffix : list (Item E)) :
    option (FingerTree E) :=
  if digits prefix && digits suffix then
    Some (Deep (total_measure prefix + tree_measure middle + total_measure suffix) prefix middle suffix)
  else None.

Fixpoint push_first_item t (item : Item E) : option (FingerTree E) :=
  match t with
  | Empty => Some (Single item)
  | Single existing => deep [item] Empty [existing]
  | Deep _ prefix middle suffix =>
      if length prefix <? 4 then deep (item :: prefix) middle suffix
      else
        first ← prefix !! 0;
        node ← branch (drop 1 prefix);
        middle ← push_first_item middle node;
        deep [item; first] middle suffix
  end.

Fixpoint push_last_item t (item : Item E) : option (FingerTree E) :=
  match t with
  | Empty => Some (Single item)
  | Single existing => deep [existing] Empty [item]
  | Deep _ prefix middle suffix =>
      if length suffix <? 4 then deep prefix middle (suffix ++ [item])
      else
        node ← branch (take 3 suffix);
        middle ← push_last_item middle node;
        last ← suffix !! 3;
        deep prefix middle [last; item]
  end.

Definition from_items (items : list (Item E)) : option (FingerTree E) :=
  foldl (λ tree item, t ← tree; push_last_item t item) (Some Empty) items.

Fixpoint pop_first_item t : option (option (Item E * FingerTree E)) :=
  match t with
  | Empty => Some None
  | Single item => Some (Some (item, Empty))
  | Deep _ prefix middle suffix =>
      first ← prefix !! 0;
      if 1 <? length prefix then
        rest ← deep (drop 1 prefix) middle suffix; Some (Some (first, rest))
      else
        popped ← pop_first_item middle;
        match popped with
        | Some (node, next_middle) =>
            children ← item_children node;
            rest ← deep children next_middle suffix;
            Some (Some (first, rest))
        | None => rest ← from_items suffix; Some (Some (first, rest))
        end
  end.

Fixpoint pop_last_item t : option (option (Item E * FingerTree E)) :=
  match t with
  | Empty => Some None
  | Single item => Some (Some (item, Empty))
  | Deep _ prefix middle suffix =>
      if 1 <? length suffix then
        let last := length suffix - 1 in
        item ← suffix !! last;
        rest ← deep prefix middle (take last suffix);
        Some (Some (item, rest))
      else
        item ← suffix !! 0;
        popped ← pop_last_item middle;
        match popped with
        | Some (node, next_middle) =>
            children ← item_children node;
            rest ← deep prefix next_middle children;
            Some (Some (item, rest))
        | None => rest ← from_items prefix; Some (Some (item, rest))
        end
  end.

Fixpoint tree_get t (index : nat) : option E :=
  match t with
  | Empty => None
  | Single item => item_get item index
  | Deep _ prefix middle suffix =>
      seek (λ _ item index, item_get item index)
        (λ index,
           if index <? tree_measure middle then tree_get middle index
           else seek (λ _ item index, item_get item index) (λ _, None) 0 suffix
                  (index - tree_measure middle))
        0 prefix index
  end.

Fixpoint replace t (index : nat) (value : E) : option (option (FingerTree E)) :=
  match t with
  | Empty => Some None
  | Single item => r ← item_replace item index value; Some (option_map Single r)
  | Deep _ prefix middle suffix =>
      seek (λ position item index,
              r ← item_replace item index value;
              match r with
              | None => Some None
              | Some next => Some <$> deep (put_at position next prefix) middle suffix
              end)
        (λ index,
           if index <? tree_measure middle then
             r ← replace middle index value;
             match r with None => Some None | Some next => Some <$> deep prefix next suffix end
           else
             seek (λ position item index,
                     r ← item_replace item index value;
                     match r with
                     | None => Some None
                     | Some next => Some <$> deep prefix middle (put_at position next suffix)
                     end)
               (λ _, Some None) 0 suffix (index - tree_measure middle))
        0 prefix index
  end.

Fixpoint collect t : list E :=
  match t with
  | Empty => []
  | Single item => item_collect item
  | Deep _ prefix middle suffix =>
      concat (item_collect <$> prefix) ++ collect middle ++ concat (item_collect <$> suffix)
  end.

(** ** The deque *)
Record Standard := mkStandard { metadata : option Metadata; tree : FingerTree E }.
Implicit Types q : Standard.

Definition standard_new : Standard := mkStandard None Empty.
Definition len q : nat := tree_measure (tree q).
Definition get q (index : nat) : option E := tree_get (tree q) index.
Definition with_tree q (t : FingerTree E) : Standard := mkStandard (metadata q) t.
Definition push_first q (value : E) : option Standard :=
  with_tree q <$> push_first_item (tree q) (Leaf value).
Definition push_last q (value : E) : option Standard :=
  with_tree q <$> push_last_item (tree q) (Leaf value).
Definition pop_first_value q : option Standard :=
  r ← pop_first_item (tree q);
  Some (match r with Some (_, tree) => with_tree q tree | None => q end).
Definition pop_last_value q : option Standard :=
  r ← pop_last_item (tree q);
  Some (match r with Some (_, tree) => with_tree q tree | None => q end).
Definition assoc_value q (index : nat) (value : E) : option (option Standard) :=
  r ← replace (tree q) index value; Some (option_map (with_tree q) r).
Definition iter q : list E := collect (tree q).
Definition from_iter (values : list E) : option Standard :=
  foldl (λ deque value, q ← deque; push_last q value) (Some standard_new) values.
Definition peek_first q : option E := get q 0.
Definition peek_last q : option E := match len q with O => None | S i => get q i end.
Definition standard_eq `{EqDecision E} q1 q2 : bool := bool_decide (len q1 = len q2) && bool_decide (iter q1 = iter q2).
End deque.
Arguments Standard E : clear implicits.
