(* ===== verification/DequeFacts.v ===== *)
(** * Deques implement lists

    A well-formed tree of depth [d] holds perfect 2-3 items of depth [d] in
    digits of one to four, one level deeper in its middle. *)
From S2P Require Import Prelude Kernel Deque.

Section facts.
Context {E : Type}.
Implicit Types (i : Item E) (t : FingerTree E) (items : list (Item E)) (q : Standard E).

Definition flat items : list E := concat (item_collect <$> items).

Fixpoint item_ok (d : nat) i : Prop :=
  match d, i with
  | O, Leaf _ => True
  | S d, Branch measure children =>
      2 ≤ length children ≤ 3 ∧ measure = total_measure children ∧ Forall (item_ok d) children
  | _, _ => False
  end.

Definition digits_ok (d : nat) items : Prop := 1 ≤ length items ≤ 4 ∧ Forall (item_ok d) items.

Fixpoint tree_ok (d : nat) t : Prop :=
  match t with
  | Empty => True
  | Single item => item_ok d item
  | Deep measure prefix middle suffix =>
      measure = total_measure prefix + tree_measure middle + total_measure suffix ∧
      digits_ok d prefix ∧ tree_ok (S d) middle ∧ digits_ok d suffix
  end.

(** ** Measures *)
Lemma flat_cons i items : flat (i :: items) = item_collect i ++ flat items.
Proof. done. Qed.
Lemma flat_app items1 items2 : flat (items1 ++ items2) = flat items1 ++ flat items2.
Proof. unfold flat. by rewrite fmap_app, concat_app. Qed.
Lemma flat_single i : flat [i] = item_collect i.
Proof. apply app_nil_r. Qed.

Lemma measured_flat items :
  Forall (λ i, item_measure i = length (item_collect i)) items → total_measure items = length (flat items).
Proof.
  induction 1 as [|i items Hi _ IH]; [done|]. rewrite flat_cons, length_app, <-Hi, <-IH. done.
Qed.

Lemma item_ok_measure d i : item_ok d i → item_measure i = length (item_collect i).
Proof.
  revert i. induction d as [|d IH]; intros [v|m cs]; cbn; try done.
  intros (_ & -> & Hcs). apply measured_flat. eapply Forall_impl; [exact Hcs|]. intros j. apply IH.
Qed.

Lemma item_ok_nonempty d i : item_ok d i → item_collect i ≠ [].
Proof.
  revert i. induction d as [|d IH]; intros [v|m cs]; cbn; try done.
  intros (Hl & _ & Hcs). destruct Hcs as [|j cs Hj _]; [cbn in Hl; lia|]. cbn.
  intros [H _]%app_eq_nil. by apply IH in Hj.
Qed.

Lemma items_ok_measured d items :
  Forall (item_ok d) items → Forall (λ i, item_measure i = length (item_collect i)) items.
Proof. intros H. eapply Forall_impl; [exact H|]. intros i. apply item_ok_measure. Qed.

Lemma items_ok_measure d items : Forall (item_ok d) items → total_measure items = length (flat items).
Proof. intros H. by eapply measured_flat, items_ok_measured. Qed.

Lemma tree_ok_measure d t : tree_ok d t → tree_measure t = length (collect t).
Proof.
  revert d. induction t as [|i|m p mid IH s]; intros d; cbn; [done|apply item_ok_measure|].
  intros (-> & [_ Hp] & Hm & [_ Hs]). rewrite !length_app. fold (flat p) (flat s).
  rewrite (items_ok_measure _ _ Hp), (items_ok_measure _ _ Hs), (IH _ Hm). lia.
Qed.

(** ** Building *)
Lemma branch_ok d items :
  2 ≤ length items ≤ 3 → Forall (item_ok d) items →
  ∃ i, branch items = Some i ∧ item_ok (S d) i ∧ item_collect i = flat items.
Proof.
  intros Hl Hi. unfold branch. rewrite !(proj2 (Nat.leb_le _ _)) by lia. eexists. split; [done|]. by split.
Qed.

Lemma deep_ok d prefix middle suffix :
  digits_ok d prefix → tree_ok (S d) middle → digits_ok d suffix →
  ∃ t, deep prefix middle suffix = Some t ∧ tree_ok d t ∧ collect t = flat prefix ++ collect middle ++ flat suffix.
Proof.
  intros Hp Hm Hs. unfold deep, digits. destruct Hp as [Hp Hp'], Hs as [Hs Hs'].
  rewrite !(proj2 (Nat.leb_le _ _)) by lia. eexists. split; [done|]. by split.
Qed.

Lemma digits_ok_single d i : item_ok d i → digits_ok d [i].
Proof. intros Hi. split; [cbn; lia|by constructor]. Qed.

Lemma deque_push_first_ok d t i :
  tree_ok d t → item_ok d i →
  ∃ t', push_first_item t i = Some t' ∧ tree_ok d t' ∧ collect t' = item_collect i ++ collect t.
Proof.
  revert d i. induction t as [|j|m p mid IH s]; intros d i Ht Hi; cbn [push_first_item].
  - by exists (Single i); rewrite app_nil_r.
  - destruct (deep_ok d [i] Empty [j]) as (t & -> & Ht' & Hc); [by apply digits_ok_single|done|by apply digits_ok_single|].
    exists t. by rewrite Hc, !flat_single.
  - destruct Ht as (-> & [Hl Hp] & Hm & Hs). destruct (Nat.ltb_spec (length p) 4) as [Hlt|Hge].
    + destruct (deep_ok d (i :: p) mid s) as (t & -> & Ht' & Hc); [split; [cbn; lia|by constructor]|done|done|].
      exists t. by rewrite Hc, flat_cons, <-app_assoc.
    + destruct p as [|a p]; [cbn in Hge; lia|]. cbn [lookup list_lookup mbind option_bind drop]. rewrite drop_0.
      apply Forall_cons in Hp as [Ha Hp]. cbn in Hl, Hge.
      destruct (branch_ok d p) as (node & -> & Hn & Hnc); [lia|done|]. cbn [mbind option_bind].
      destruct (IH (S d) node Hm Hn) as (mid' & -> & Hm' & Hmc). cbn [mbind option_bind].
      destruct (deep_ok d [i; a] mid' s) as (t & -> & Ht' & Hc); [split; [cbn; lia|by repeat constructor]|done|done|].
      exists t. split; [done|]. split; [done|]. rewrite Hc, Hmc, Hnc. cbn [collect]. fold (flat (a :: p)) (flat s).
      rewrite !flat_cons, <-!app_assoc. done.
Qed.

Lemma deque_push_last_ok d t i :
  tree_ok d t → item_ok d i →
  ∃ t', push_last_item t i = Some t' ∧ tree_ok d t' ∧ collect t' = collect t ++ item_collect i.
Proof.
  revert d i. induction t as [|j|m p mid IH s]; intros d i Ht Hi; cbn [push_last_item].
  - by exists (Single i).
  - destruct (deep_ok d [j] Empty [i]) as (t & -> & Ht' & Hc); [by apply digits_ok_single|done|by apply digits_ok_single|].
    exists t. by rewrite Hc, !flat_single.
  - destruct Ht as (-> & Hp & Hm & [Hl Hs]). destruct (Nat.ltb_spec (length s) 4) as [Hlt|Hge].
    + destruct (deep_ok d p mid (s ++ [i])) as (t & -> & Ht' & Hc); [done|done| |].
      { split; [rewrite length_app; cbn; lia|]. apply Forall_app. by repeat constructor. }
      exists t. rewrite Hc, flat_app, flat_single. cbn [collect]. by rewrite <-!app_assoc.
    + destruct s as [|a [|b [|c [|e [|]]]]]; cbn in Hl, Hge; try lia. cbn [take lookup list_lookup mbind option_bind].
      rewrite !Forall_cons in Hs. destruct Hs as (Ha & Hb & Hc & He & _).
      destruct (branch_ok d [a; b; c]) as (node & -> & Hn & Hnc); [cbn; lia|by repeat constructor|]. cbn [mbind option_bind].
      destruct (IH (S d) node Hm Hn) as (mid' & -> & Hm' & Hmc). cbn [mbind option_bind].
      destruct (deep_ok d p mid' [e; i]) as (t & -> & Ht' & Hct); [done|done|split; [cbn; lia|by repeat constructor]|].
      exists t. split; [done|]. split; [done|]. rewrite Hct, Hmc, Hnc. cbn [collect].
      change (concat (item_collect <$> [a; b; c; e])) with (flat ([a; b; c] ++ [e])).
      change (flat [e; i]) with (flat ([e] ++ [i])). rewrite !flat_app, !flat_single, <-!app_assoc. done.
Qed.

Lemma from_items_ok d items :
  Forall (item_ok d) items → ∃ t, from_items items = Some t ∧ tree_ok d t ∧ collect t = flat items.
Proof.
  intros H. unfold from_items.
  assert (∀ t0, tree_ok d t0 → ∃ t, foldl (λ tree item, t ← tree; push_last_item t item) (Some t0) items = Some t ∧
    tree_ok d t ∧ collect t = collect t0 ++ flat items) as Hf; [|by apply (Hf Empty)].
  induction H as [|i items Hi _ IH]; intros t0 Ht0; cbn [foldl].
  - exists t0. by rewrite app_nil_r.
  - cbn [mbind option_bind]. destruct (deque_push_last_ok d t0 i Ht0 Hi) as (t1 & -> & Ht1 & Hc1).
    destruct (IH t1 Ht1) as (t & -> & Ht & Hc). exists t. by rewrite Hc, Hc1, flat_cons, <-app_assoc.
Qed.
(** ** Popping *)
Lemma children_ok d i : item_ok (S d) i → ∃ cs, item_children i = Some cs ∧ digits_ok d cs ∧ flat cs = item_collect i.
Proof. destruct i as [v|m cs]; [done|]. intros (Hl & _ & Hcs). exists cs. split; [done|]. split; [|done]. split; [lia|done]. Qed.

Lemma deque_pop_first_ok d t :
  tree_ok d t →
  ∃ r, pop_first_item t = Some r ∧
    match r with
    | Some (i, t') => item_ok d i ∧ tree_ok d t' ∧ collect t = item_collect i ++ collect t'
    | None => t = Empty
    end.
Proof.
  revert d. induction t as [|j|m p mid IH s]; intros d Ht; cbn [pop_first_item].
  - by exists None.
  - exists (Some (j, Empty)). by rewrite app_nil_r.
  - destruct Ht as (-> & [Hl Hp] & Hm & Hs). destruct p as [|a p]; [cbn in Hl; lia|].
    apply Forall_cons in Hp as [Ha Hp]. cbn [lookup list_lookup mbind option_bind drop]. rewrite drop_0.
    cbn [collect]. fold (flat (a :: p)) (flat s). rewrite flat_cons. cbn [length] in Hl |- *.
    destruct (Nat.ltb_spec 1 (S (length p))) as [Hlt|Hge].
    + destruct (deep_ok d p mid s) as (t & -> & Ht & Hc); [by split; [lia|]|done|done|].
      exists (Some (a, t)). by rewrite Hc, <-app_assoc.
    + destruct p; [|cbn in Hge; lia]. change (flat []) with (@nil E). rewrite app_nil_r.
      destruct (IH (S d) Hm) as ([[node mid']|] & -> & Hr); cbn [mbind option_bind].
      * destruct Hr as (Hn & Hm' & Hmc). destruct (children_ok d node Hn) as (cs & -> & Hcs & Hcc). cbn [mbind option_bind].
        destruct (deep_ok d cs mid' s) as (t & -> & Ht & Hc); [done..|].
        exists (Some (a, t)). by rewrite Hc, Hmc, Hcc, <-!app_assoc.
      * subst mid. destruct (from_items_ok d s) as (t & -> & Ht & Hc); [apply Hs|].
        exists (Some (a, t)). by rewrite Hc.
Qed.

Lemma deque_pop_last_ok d t :
  tree_ok d t →
  ∃ r, pop_last_item t = Some r ∧
    match r with
    | Some (i, t') => item_ok d i ∧ tree_ok d t' ∧ collect t = collect t' ++ item_collect i
    | None => t = Empty
    end.
Proof.
  revert d. induction t as [|j|m p mid IH s]; intros d Ht; cbn [pop_last_item].
  - by exists None.
  - by exists (Some (j, Empty)).
  - destruct Ht as (-> & Hp & Hm & [Hl Hs]). cbn [collect]. fold (flat p) (flat s).
    destruct s as [|a s _] using rev_ind; [cbn in Hl; lia|]. rewrite length_app in *. cbn [length] in *.
    apply Forall_app in Hs as [Hs Ha]. apply Forall_cons in Ha as [Ha _]. rewrite flat_app, flat_single.
    destruct (Nat.ltb_spec 1 (length s + 1)) as [Hlt|Hge].
    + replace (length s + 1 - 1) with (length s) by lia. rewrite list_lookup_middle, take_app_length by done.
      cbn [mbind option_bind].
      destruct (deep_ok d p mid s) as (t & -> & Ht & Hc); [done|done|by split; [lia|]|].
      exists (Some (a, t)). by rewrite Hc, <-!app_assoc.
    + destruct s; [|cbn in Hge; lia]. change (flat []) with (@nil E). cbn [app lookup list_lookup mbind option_bind].
      destruct (IH (S d) Hm) as ([[node mid']|] & -> & Hr); cbn [mbind option_bind].
      * destruct Hr as (Hn & Hm' & Hmc). destruct (children_ok d node Hn) as (cs & -> & Hcs & Hcc). cbn [mbind option_bind].
        destruct (deep_ok d p mid' cs) as (t & -> & Ht & Hc); [done..|].
        exists (Some (a, t)). by rewrite Hc, Hmc, Hcc, <-!app_assoc.
      * subst mid. destruct (from_items_ok d p) as (t & -> & Ht & Hc); [apply Hp|].
        exists (Some (a, t)). by rewrite Hc.
Qed.

(** ** Indices *)
Lemma seek_spec {B} (hit : nat → Item E → nat → B) (miss : nat → B) position items index :
  Forall (λ i, item_measure i = length (item_collect i)) items →
  (∃ l i r j, items = l ++ i :: r ∧ j < length (item_collect i) ∧ index = length (flat l) + j ∧
     seek hit miss position items index = hit (position + length l) i j) ∨
  (length (flat items) ≤ index ∧ seek hit miss position items index = miss (index - length (flat items))).
Proof.
  intros H. revert position index. induction H as [|i items Hi _ IH]; intros position index; cbn [seek].
  - right. cbn. split; [lia|]. by rewrite Nat.sub_0_r.
  - rewrite Hi. destruct (Nat.ltb_spec index (length (item_collect i))) as [Hlt|Hge].
    + left. exists [], i, items, index. cbn. by rewrite Nat.add_0_r.
    + destruct (IH (S position) (index - length (item_collect i))) as [(l & k & r & j & -> & Hj & Hidx & ->)|[Hlen ->]].
      * left. exists (i :: l), k, r, j. rewrite flat_cons, length_app. cbn [length app].
        split; [done|]. split; [done|]. split; [lia|]. by rewrite <-Nat.add_succ_comm.
      * right. rewrite flat_cons, length_app. split; [lia|]. f_equal. lia.
Qed.

Lemma flat_middle l i r : flat (l ++ i :: r) = flat l ++ item_collect i ++ flat r.
Proof. by rewrite flat_app, flat_cons. Qed.

Lemma lookup_middle (l m r : list E) j : j < length m → (l ++ m ++ r) !! (length l + j) = m !! j.
Proof. intros Hj. rewrite lookup_app_r by lia. rewrite lookup_app_l by lia. f_equal. lia. Qed.

Lemma insert_middle (l m r : list E) j x :
  j < length m → <[length l + j := x]> (l ++ m ++ r) = l ++ <[j := x]> m ++ r.
Proof. intros Hj. rewrite insert_app_r. by rewrite insert_app_l. Qed.

Lemma item_get_ok d i index : item_ok d i → item_get i index = item_collect i !! index.
Proof.
  revert i index. induction d as [|d IH]; intros [v|m cs] index; cbn [item_ok]; try done.
  - intros _. cbn. by destruct index.
  - intros (_ & _ & Hcs). cbn [item_get item_collect]. fold (flat cs).
    destruct (seek_spec (λ _ child index, item_get child index) (λ _, None) 0 cs index)
      as [(l & i & r & j & -> & Hj & -> & ->)|[Hlen ->]]; [by eapply items_ok_measured| |].
    + apply Forall_app in Hcs as [_ [Hi _]%Forall_cons]. rewrite flat_middle, lookup_middle by done. by apply IH.
    + symmetry. by apply lookup_ge_None_2.
Qed.

Lemma seek_get_ok d items index (miss : nat → option E) :
  Forall (item_ok d) items →
  seek (λ _ i index, item_get i index) miss 0 items index =
    if index <? length (flat items) then flat items !! index else miss (index - length (flat items)).
Proof.
  intros Hi. destruct (seek_spec (λ _ i index, item_get i index) miss 0 items index)
    as [(l & i & r & j & -> & Hj & -> & ->)|[Hlen ->]]; [by eapply items_ok_measured| |].
  - apply Forall_app in Hi as [_ [Hi _]%Forall_cons]. rewrite flat_middle, lookup_middle, (item_get_ok d) by done.
    rewrite (proj2 (Nat.ltb_lt _ _)); [done|]. rewrite !length_app. lia.
  - by rewrite (proj2 (Nat.ltb_ge _ _)).
Qed.

Lemma tree_get_ok d t index : tree_ok d t → tree_get t index = collect t !! index.
Proof.
  revert d index. induction t as [|i|m p mid IH s]; intros d index; cbn [tree_get]; [done|apply item_get_ok|].
  intros (_ & [_ Hp] & Hm & [_ Hs]). cbn [collect]. fold (flat p) (flat s).
  rewrite (seek_get_ok d) by done. rewrite (tree_ok_measure _ _ Hm).
  destruct (Nat.ltb_spec index (length (flat p))) as [H1|H1]; [by rewrite lookup_app_l|].
  rewrite lookup_app_r by done. destruct (Nat.ltb_spec (index - length (flat p)) (length (collect mid))) as [H2|H2].
  - rewrite lookup_app_l by done. by eapply IH.
  - rewrite lookup_app_r by done. rewrite (seek_get_ok d) by done.
    destruct (Nat.ltb_spec (index - length (flat p) - length (collect mid)) (length (flat s))); [done|].
    symmetry. by apply lookup_ge_None_2.
Qed.
(** ** Replacement *)
Definition replaces {A} (ok : A → Prop) (elements : A → list E) (l : list E) (index : nat) (value : E)
    (r : option (option A)) : Prop :=
  ∃ o, r = Some o ∧
    match o with
    | Some x => index < length l ∧ ok x ∧ elements x = <[index := value]> l
    | None => length l ≤ index
    end.

Lemma put_at_middle {A} (l r : list A) (x y : A) : put_at (0 + length l) y (l ++ x :: r) = l ++ y :: r.
Proof. unfold put_at. rewrite Nat.add_0_l, <-(Nat.add_0_r (length l)). by rewrite insert_app_r. Qed.

(** A loop that replaces inside the item it finds and rebuilds around it. *)
Lemma seek_replace_ok {A} d (ok : A → Prop) elements (build : list (Item E) → option A) miss items index value
    (pre post : list E) :
  Forall (item_ok d) items →
  (∀ i j, item_ok d i → replaces (item_ok d) item_collect (item_collect i) j value (item_replace i j value)) →
  (∀ items', length items' = length items → Forall (item_ok d) items' →
     ∃ x, build items' = Some x ∧ ok x ∧ elements x = pre ++ flat items' ++ post) →
  (length (flat items) ≤ index →
     replaces ok elements (pre ++ flat items ++ post) (length pre + index) value (miss (index - length (flat items)))) →
  replaces ok elements (pre ++ flat items ++ post) (length pre + index) value
    (seek (λ position i j,
       r ← item_replace i j value;
       match r with None => Some None | Some next => Some <$> build (put_at position next items) end)
     miss 0 items index).
Proof.
  intros Hok Hitem Hbuild Hmiss.
  destruct (seek_spec (λ position i j,
    r ← item_replace i j value;
    match r with None => Some None | Some next => Some <$> build (put_at position next items) end)
    miss 0 items index) as [(l & i & r & j & Hitems & Hj & Hidx & ->)|[Hlen ->]];
    [by eapply items_ok_measured| |by apply Hmiss].
  pose proof Hok as Hok'. rewrite Hitems in Hok'. apply Forall_app in Hok' as [Hl [Hi Hr]%Forall_cons].
  destruct (Hitem i j Hi) as (o & -> & Ho). cbn [mbind option_bind]. destruct o as [i'|]; [|lia].
  destruct Ho as (_ & Hi' & Hc). rewrite Hitems, put_at_middle.
  destruct (Hbuild (l ++ i' :: r)) as (x & -> & Hx & Hxc).
  { by rewrite Hitems, !length_app. }
  { apply Forall_app. split; [done|]. by constructor. }
  exists (Some x). split; [done|]. rewrite !flat_middle in *. rewrite !length_app. split; [lia|]. split; [done|].
  rewrite Hxc, Hc, Hidx. rewrite insert_app_r, <-!app_assoc, insert_app_r, insert_app_l by done. done.
Qed.

Lemma item_replace_ok d i index value :
  item_ok d i → replaces (item_ok d) item_collect (item_collect i) index value (item_replace i index value).
Proof.
  revert i index. induction d as [|d IH]; intros [v|m cs] index; cbn [item_ok]; try done.
  - intros _. cbn. destruct index as [|index]; eexists; (split; [done|]); cbn; [|lia].
    split; [lia|]. by split.
  - intros (Hl & _ & Hcs). cbn [item_replace item_collect]. fold (flat cs).
    pose proof (seek_replace_ok d (item_ok (S d)) item_collect branch (λ _, Some None) cs index value [] []) as H.
    cbn [app length Nat.add] in H. rewrite app_nil_r in H. apply H; [done|intros; by apply IH| |].
    + intros items Hlen Hok. destruct (branch_ok d items) as (i & ? & ? & Hc); [lia|done|].
      exists i. by rewrite app_nil_r.
    + intros Hlen. by exists None.
Qed.

Lemma replace_ok d t index value :
  tree_ok d t → replaces (tree_ok d) collect (collect t) index value (replace t index value).
Proof.
  revert d index. induction t as [|i|m p mid IH s]; intros d index; cbn [replace].
  - intros _. exists None. cbn. split; [done|lia].
  - intros Hi. destruct (item_replace_ok d i index value Hi) as (o & -> & Ho). cbn [mbind option_bind].
    exists (option_map Single o). split; [done|]. by destruct o.
  - intros (_ & [Hpl Hp] & Hm & [Hsl Hs]). cbn [collect]. fold (flat p) (flat s).
    pose proof (λ miss, seek_replace_ok d (tree_ok d) collect (λ p, deep p mid s) miss p index value []
      (collect mid ++ flat s)) as H. cbn [app length Nat.add] in H. apply H; clear H; [done|intros; by apply item_replace_ok| |].
    { intros items Hlen Hok. apply deep_ok; [by rewrite <-Hlen in Hpl|done|by split]. }
    intros Hlen. rewrite (tree_ok_measure _ _ Hm).
    destruct (Nat.ltb_spec (index - length (flat p)) (length (collect mid))) as [H1|H1].
    + destruct (IH (S d) (index - length (flat p)) Hm) as (o & -> & Ho). cbn [mbind option_bind].
      destruct o as [mid'|]; [|lia]. destruct Ho as (_ & Hm' & Hmc).
      destruct (deep_ok d p mid' s) as (t & -> & Ht & Hc); [by split|done|by split|]. exists (Some t).
      split; [done|]. rewrite !length_app. split; [lia|]. split; [done|].
      by rewrite Hc, Hmc, insert_app_r_alt, insert_app_l by lia.
    + pose proof (seek_replace_ok d (tree_ok d) collect (λ s, deep p mid s) (λ _, Some None) s
        (index - length (flat p) - length (collect mid)) value (flat p ++ collect mid) []) as H.
      rewrite app_nil_r, length_app, <-app_assoc in H.
      replace (length (flat p) + length (collect mid) + (index - length (flat p) - length (collect mid)))
        with index in H by lia.
      apply H; [done|intros; by apply item_replace_ok| |].
      * intros items Hlen' Hok. rewrite app_nil_r, <-app_assoc. apply deep_ok; [by split|done|by rewrite <-Hlen' in Hsl].
      * intros Hlen'. exists None. split; [done|]. rewrite !length_app. lia.
Qed.

(** ** Depth *)
Fixpoint depth t : nat := match t with Deep _ _ middle _ => S (depth middle) | _ => 0 end.

Lemma item_size d i : item_ok d i → 2 ^ d ≤ length (item_collect i).
Proof.
  revert i. induction d as [|d IH]; intros [v|m cs]; cbn [item_ok]; try done.
  intros (Hl & _ & Hcs). cbn [item_collect]. fold (flat cs).
  destruct Hcs as [|i1 cs H1 Hcs]; [cbn in Hl; lia|]. destruct Hcs as [|i2 cs H2 Hcs]; [cbn in Hl; lia|].
  apply IH in H1, H2. rewrite !flat_cons, !length_app. cbn [Nat.pow]. lia.
Qed.

Lemma digits_size d items : digits_ok d items → 2 ^ d ≤ length (flat items).
Proof.
  intros [Hl Hi]. destruct Hi as [|i items Hi _]; [cbn in Hl; lia|]. apply item_size in Hi.
  rewrite flat_cons, length_app. lia.
Qed.

Lemma tree_depth d t : tree_ok d t → t ≠ Empty → 2 ^ (d + depth t) ≤ length (collect t).
Proof.
  revert d. induction t as [|i|m p mid IH s]; intros d; [done| |]; cbn [tree_ok collect depth].
  - intros Hi _. rewrite Nat.add_0_r. by apply item_size.
  - intros (_ & Hp%digits_size & Hm & Hs%digits_size) _. rewrite !length_app. fold (flat p) (flat s).
    rewrite <-Nat.add_succ_comm. destruct mid as [|i|m' p' mid' s'].
    + cbn. rewrite Nat.add_0_r. cbn [Nat.pow]. lia.
    + specialize (IH _ Hm ltac:(done)). lia.
    + specialize (IH _ Hm ltac:(done)). lia.
Qed.

(** ** Deques *)
Definition rep q (l : list E) : Prop := tree_ok 0 (tree q) ∧ collect (tree q) = l.

(** The deque a successful operation returns, keeping the metadata. *)
Definition yields q (l : list E) (r : option (Standard E)) : Prop :=
  ∃ q', r = Some q' ∧ rep q' l ∧ metadata q' = metadata q.

Lemma yields_tree q t l : tree_ok 0 t → collect t = l → yields q l (Some (with_tree q t)).
Proof. intros Ht Hl. exists (with_tree q t). split; [done|]. by split; [split|]. Qed.

Lemma push_last_rep q l x : rep q l → yields q (l ++ [x]) (push_last q x).
Proof.
  intros [Ht <-]. destruct (deque_push_last_ok 0 (tree q) (Leaf x) Ht I) as (t & Hp & Ht' & Hc).
  unfold push_last. rewrite Hp. by apply yields_tree.
Qed.

Lemma len_rep q l : rep q l → len q = length l.
Proof. intros [Ht <-]. by eapply tree_ok_measure. Qed.

Lemma get_rep q l index : rep q l → get q index = l !! index.
Proof. intros [Ht <-]. by eapply tree_get_ok. Qed.

Lemma pop_first_rep q l : rep q l → yields q (drop 1 l) (pop_first_value q).
Proof.
  intros [Ht <-]. unfold pop_first_value. destruct (deque_pop_first_ok 0 (tree q) Ht) as ([[i t]|] & -> & Hr); cbn [mbind option_bind].
  - destruct Hr as (Hi & Ht' & ->). destruct i as [v|]; [|done]. by apply yields_tree.
  - exists q. split; [done|]. split; [|done]. split; [done|]. by rewrite Hr.
Qed.

Lemma pop_last_rep q l : rep q l → yields q (take (pred (length l)) l) (pop_last_value q).
Proof.
  intros [Ht <-]. unfold pop_last_value. destruct (deque_pop_last_ok 0 (tree q) Ht) as ([[i t]|] & -> & Hr); cbn [mbind option_bind].
  - destruct Hr as (Hi & Ht' & ->). destruct i as [v|]; [|done]. apply yields_tree; [done|].
    cbn [item_collect]. rewrite length_app, Nat.add_1_r. cbn [pred]. by rewrite take_app_length.
  - exists q. split; [done|]. split; [|done]. split; [done|]. by rewrite Hr.
Qed.

Lemma deque_from_iter_rep l : ∃ q, from_iter l = Some q ∧ rep q l.
Proof.
  unfold from_iter.
  assert (∀ q k, rep q k → ∃ q', foldl (λ deque value, q ← deque; push_last q value) (Some q) l = Some q' ∧ rep q' (k ++ l))
    as H; [|by apply (H standard_new [])].
  induction l as [|x l IH]; intros q k Hq; cbn [foldl].
  - exists q. by rewrite app_nil_r.
  - cbn [mbind option_bind]. destruct (push_last_rep q k x Hq) as (q1 & -> & Hq1 & _).
    destruct (IH q1 _ Hq1) as (q' & -> & Hq'). exists q'. by rewrite <-app_assoc in Hq'.
Qed.

(** C33. The finger-tree deque implements lists: pushing and popping at both
    ends, indexing, replacing, the first and last element, iteration and
    building from a list; no operation panics, all keep the metadata, and the
    depth of the tree is logarithmic in its length. *)
Theorem deque_correct q l :
  rep q l →
  len q = length l ∧ iter q = l ∧ (∀ index, get q index = l !! index) ∧
  peek_first q = head l ∧ peek_last q = last l ∧
  (∀ x, yields q (x :: l) (push_first q x)) ∧
  (∀ x, yields q (l ++ [x]) (push_last q x)) ∧
  yields q (drop 1 l) (pop_first_value q) ∧
  yields q (take (pred (length l)) l) (pop_last_value q) ∧
  (∀ index x, replaces (λ q', rep q' (iter q') ∧ metadata q' = metadata q) iter l index x (assoc_value q index x)) ∧
  (l ≠ [] → 2 ^ depth (tree q) ≤ length l) ∧
  (∃ q', from_iter l = Some q' ∧ rep q' l).
Proof.
  intros Hq. split; [by apply len_rep|]. split; [apply Hq|]. split; [intros; by apply get_rep|].
  split; [unfold peek_first; rewrite (get_rep q l) by done; by destruct l|].
  split.
  { unfold peek_last. rewrite (len_rep q l), last_lookup by done. destruct l as [|x l]; [done|]. by apply get_rep. }
  split.
  { intros x. destruct Hq as [Ht <-]. destruct (deque_push_first_ok 0 (tree q) (Leaf x) Ht I) as (t & Hp & Ht' & Hc).
    unfold push_first. rewrite Hp. by apply yields_tree. }
  split; [intros; by apply push_last_rep|]. split; [by apply pop_first_rep|]. split; [by apply pop_last_rep|].
  split; [|split; [|apply deque_from_iter_rep]].
  - intros index x. destruct Hq as [Ht <-]. unfold assoc_value.
    destruct (replace_ok 0 (tree q) index x Ht) as (o & -> & Ho). cbn [mbind option_bind].
    eexists. split; [done|]. destruct o as [t|]; [|done]. by destruct Ho as (? & ? & Hc).
  - intros Hl. destruct Hq as [Ht <-]. apply (tree_depth 0); [done|]. by intros E0; rewrite E0 in Hl.
Qed.
End facts.

(** A deque of a hundred numbers, four levels deep. *)
Definition numbers : Standard nat := match from_iter (seq 0 100) with Some q => q | None => standard_new end.

Lemma deque_correct_witness :
  depth (tree numbers) = 4 ∧ get numbers 57 = Some 57 ∧ ∃ q, pop_first_value numbers = Some q ∧ iter q = seq 1 99.
Proof.
  assert (rep numbers (seq 0 100)) as Hq.
  { split; vm_compute; repeat constructor. }
  destruct (deque_correct numbers (seq 0 100) Hq) as (_ & _ & Hget & _ & _ & _ & _ & (q & Hq' & Hr & _) & _).
  split; [vm_compute; reflexivity|]. split; [rewrite Hget; reflexivity|]. exists q. split; [exact Hq'|].
  exact (proj2 Hr).
Defined.
