(* ===== verification/ChunkList.v ===== *)
(** * The persistent list and its ring buffer

    [src/core/rust/src/lang/data/list.rs]: a chain of 32-slot chunks, and the
    transient list, a ring buffer whose capacity is a power of two. A chain of
    shared chunks is the list of its chunks; [None] is a panic. The shared
    [editable] flag is modelled for one handle. *)
From S2P Require Import Prelude Kernel Bytes.

Definition CHUNK_SIZE : nat := 32.
Definition DEFAULT_CAPACITY : nat := 4.

(** [array[i] = x]. *)
Definition set_at {A} (i : nat) (x : A) (l : list A) : option (list A) :=
  if i <? length l then Some (<[i := x]> l) else None.

(** [wrapping_sub(1)] on a [usize]. *)
Definition wrapping_pred (n : N) : N := if (n =? 0)%N then USIZE_MAX else (n - 1)%N.

(** [next_power_of_two] of a positive number. *)
Definition next_power_of_two (n : nat) : nat := 2 ^ Nat.log2_up n.

Section lists.
Context {E : Type}.

Record Chunk := mkChunk { array : list (option E); offset : nat; count : nat }.
Record Standard := mkStandard { metadata : option Metadata; head : list Chunk; size : nat }.
Implicit Types (s : Standard) (c : Chunk).

Definition empty_block : list (option E) := replicate CHUNK_SIZE None.
Definition standard_new : Standard := mkStandard None [] 0.

(** ** The persistent list *)
Definition push_first s (value : E) : option Standard :=
  head ←
    match head s with
    | c :: next =>
        if 0 <? offset c then
          array ← set_at (offset c - 1) (Some value) (array c);
          Some (mkChunk array (offset c - 1) (count c + 1) :: next)
        else
          array ← set_at (CHUNK_SIZE - 1) (Some value) empty_block;
          Some (mkChunk array (CHUNK_SIZE - 1) 1 :: head s)
    | [] =>
        array ← set_at (CHUNK_SIZE - 1) (Some value) empty_block;
        Some [mkChunk array (CHUNK_SIZE - 1) 1]
    end;
  Some (mkStandard (metadata s) head (size s + 1)).

Definition pop_first_value s : option Standard :=
  if size s =? 0 then Some s
  else
    match head s with
    | [] => None
    | c :: next =>
        if 1 <? count c then
          Some (mkStandard (metadata s) (mkChunk (array c) (offset c + 1) (count c - 1) :: next) (size s - 1))
        else Some (mkStandard (metadata s) next (size s - 1))
    end.

(** The loop of [get]. *)
Fixpoint chain_get (chain : list Chunk) (index : nat) : option (option E) :=
  match chain with
  | [] => Some None
  | c :: next =>
      if index <? count c then array c !! (offset c + index) else chain_get next (index - count c)
  end.

Definition get s (index : nat) : option (option E) :=
  if size s <=? index then Some None else chain_get (head s) index.

Record Iter := mkIter { chunk : list Chunk; index : nat }.
Definition iter s : Iter := mkIter (head s) 0.

(** [Iterator::next]. *)
Fixpoint chain_next (chain : list Chunk) (index : nat) : option (option E * Iter) :=
  match chain with
  | [] => Some (None, mkIter [] index)
  | c :: next =>
      if index <? count c then
        value ← array c !! (offset c + index); Some (value, mkIter (c :: next) (index + 1))
      else chain_next next 0
  end.
Definition iter_next (it : Iter) : option (option E * Iter) := chain_next (chunk it) (index it).

(** What a [for] loop over the iterator sees; [None] is also the end of the fuel. *)
Fixpoint drain (fuel : nat) (it : Iter) : option (list E) :=
  match fuel with
  | O => None
  | S fuel =>
      r ← iter_next it;
      match r with
      | (None, _) => Some []
      | (Some value, it) => rest ← drain fuel it; Some (value :: rest)
      end
  end.

Definition standard_eq `{EqDecision E} (fuel : nat) s1 s2 : option bool :=
  if bool_decide (size s1 = size s2) then
    l1 ← drain fuel (iter s1); l2 ← drain fuel (iter s2); Some (bool_decide (l1 = l2))
  else Some false.

(** ** The ring buffer *)
Definition ring_capacity (capacity : nat) : nat := next_power_of_two (Nat.max capacity 1).

Record Mutable := mkMutable {
  editable : bool;
  elements : list (option E);
  mask : nat;
  ring_size : nat;
  ring_offset : nat;
  ring_metadata : option Metadata;
}.
Implicit Types m : Mutable.

Definition ring_new : Mutable :=
  let capacity := ring_capacity DEFAULT_CAPACITY in
  mkMutable true (replicate capacity None) (capacity - 1) 0 0 None.

(** The inner loop of [from_standard], which fills slots from [i] on. *)
Definition copy_chunk c (r : nat * list (option E)) : option (nat * list (option E)) :=
  foldl (λ r j,
      r ← r;
      value ← array c !! (offset c + j);
      elements ← set_at (fst r) value (snd r);
      Some (S (fst r), elements))
    (Some r) (seq 0 (count c)).

Definition from_standard s : option Mutable :=
  let capacity := ring_capacity (size s + 1) in
  r ← foldl (λ r c, r ← r; copy_chunk c r) (Some (0, replicate capacity None)) (head s);
  Some (mkMutable true (snd r) (capacity - 1) (size s) 0 (metadata s)).

Definition check_editable m : option () := if editable m then Some tt else None.

Definition slot m (i : nat) : nat := Nat.land (ring_offset m + i) (mask m).

Definition resize (new_capacity : nat) m : option Mutable :=
  r ← foldl (λ r i,
      r ← r;
      value ← fst r !! slot m i;
      old ← set_at (slot m i) None (fst r);
      new ← set_at i value (snd r);
      Some (old, new))
    (Some (elements m, replicate new_capacity None)) (seq 0 (ring_size m));
  Some (mkMutable (editable m) (snd r) (new_capacity - 1) (ring_size m) 0 (ring_metadata m)).

Definition with_elements (elements : list (option E)) (offset size : nat) m : Mutable :=
  mkMutable (editable m) elements (mask m) size offset (ring_metadata m).

Definition ring_len m : option nat := check_editable m;; Some (ring_size m).

Definition ring_get m (index : nat) : option (option E) :=
  check_editable m;;
  if ring_size m <=? index then Some None else elements m !! slot m index.

Definition ring_iter m : option (list E) :=
  check_editable m;;
  mapM (λ i, value ← elements m !! slot m i; value) (seq 0 (ring_size m)).

Definition grow m : option Mutable :=
  if ring_size m =? length (elements m) then resize (ring_size m * 2) m else Some m.

Definition ring_push_first m (value : E) : option Mutable :=
  check_editable m;;
  m ← grow m;
  let offset := N.to_nat (N.land (wrapping_pred (N.of_nat (ring_offset m))) (N.of_nat (mask m))) in
  elements ← set_at offset (Some value) (elements m);
  Some (with_elements elements offset (ring_size m + 1) m).

Definition ring_push_last m (value : E) : option Mutable :=
  check_editable m;;
  m ← grow m;
  elements ← set_at (slot m (ring_size m)) (Some value) (elements m);
  Some (with_elements elements (ring_offset m) (ring_size m + 1) m).

Definition ring_pop_first m : option (option E * Mutable) :=
  check_editable m;;
  if ring_size m =? 0 then Some (None, m)
  else
    value ← elements m !! ring_offset m;
    elements ← set_at (ring_offset m) None (elements m);
    Some (value, with_elements elements (slot m 1) (ring_size m - 1) m).

Definition ring_pop_last m : option (option E * Mutable) :=
  check_editable m;;
  if ring_size m =? 0 then Some (None, m)
  else
    let last := slot m (ring_size m - 1) in
    value ← elements m !! last;
    elements ← set_at last None (elements m);
    Some (value, with_elements elements (ring_offset m) (ring_size m - 1) m).

Definition ring_assoc m (index : nat) (value : E) : option (option E * Mutable) :=
  check_editable m;;
  if index =? ring_size m then m ← ring_push_last m value; Some (None, m)
  else if negb (index <? ring_size m) then None
  else
    old ← elements m !! slot m index;
    elements ← set_at (slot m index) (Some value) (elements m);
    Some (old, with_elements elements (ring_offset m) (ring_size m) m).

Definition ring_empty m : option Mutable :=
  check_editable m;; Some (with_elements ((λ _, None) <$> elements m) 0 0 m).

(** The block of a chunk: [std::array::from_fn]. *)
Definition cut_block m (start count : nat) : option (list (option E)) :=
  mapM (λ i, if i <? count then elements m !! slot m (start + i) else Some None) (seq 0 CHUNK_SIZE).

(** The loop of [to_persistent]; a turn takes at least one element. *)
Fixpoint cut_chunks (fuel : nat) m (remaining : nat) (next : list Chunk) : option (list Chunk) :=
  if remaining =? 0 then Some next
  else
    match fuel with
    | O => None
    | S fuel =>
        let count := if remaining mod CHUNK_SIZE =? 0 then CHUNK_SIZE else remaining mod CHUNK_SIZE in
        let start := remaining - count in
        array ← cut_block m start count;
        cut_chunks fuel m (remaining - count) (mkChunk array 0 count :: next)
    end.

Definition to_persistent m : option (Standard * Mutable) :=
  check_editable m;;
  chain ← cut_chunks (ring_size m) m (ring_size m) [];
  Some (mkStandard (ring_metadata m) chain (ring_size m),
        mkMutable false (elements m) (mask m) (ring_size m) (ring_offset m) (ring_metadata m)).

(** ** Persistent operations by way of the ring buffer *)
Definition push_last s (value : E) : option Standard :=
  m ← from_standard s; m ← ring_push_last m value; r ← to_persistent m; Some (fst r).

Definition pop_last_value s : option Standard :=
  m ← from_standard s; p ← ring_pop_last m; r ← to_persistent (snd p); Some (fst r).

Definition assoc s (index : nat) (value : E) : option Standard :=
  m ← from_standard s; p ← ring_assoc m index value; r ← to_persistent (snd p); Some (fst r).

Definition ring_from_iter (values : list E) : option Mutable :=
  foldl (λ ring value, m ← ring; ring_push_last m value) (Some ring_new) values.

Definition from_iter (values : list E) : option Standard :=
  m ← ring_from_iter values; r ← to_persistent m; Some (fst r).
End lists.
Arguments Chunk E : clear implicits.
Arguments Standard E : clear implicits.
Arguments Iter E : clear implicits.
Arguments Mutable E : clear implicits.
