(* ===== verification/ChunkListFacts.v ===== *)
(** * Chunked lists and ring buffers implement lists

    [rep] relates a persistent list to its elements, [ring_ok] a ring buffer.
    A ring buffer of [2 ^ 63] slots cannot be allocated, so growing is
    considered below [2 ^ 62] elements. *)
From S2P Require Import Prelude Kernel Bytes ChunkList.

(** ** Arithmetic of a ring *)
Lemma mod_wrap o n a : o < n → a ≤ n → (o + a) mod n = if o + a <? n then o + a else o + a - n.
Proof.
  intros Ho Ha. destruct (Nat.ltb_spec (o + a) n) as [H|H]; [by apply Nat.mod_small|].
  replace (o + a) with ((o + a - n) + 1 * n) at 1 by lia. rewrite Nat.Div0.mod_add. apply Nat.mod_small. lia.
Qed.

Lemma mod_inj o n a b : o < n → a < n → b < n → (o + a) mod n = (o + b) mod n → a = b.
Proof. intros Ho Ha Hb. rewrite !mod_wrap by lia. destruct (Nat.ltb_spec (o + a) n), (Nat.ltb_spec (o + b) n); lia. Qed.

Lemma pow2_pos k : 0 < 2 ^ k.
Proof. pose proof (Nat.pow_nonzero 2 k). lia. Qed.

Lemma land_ring_mask k a : Nat.land a (2 ^ k - 1) = a mod 2 ^ k.
Proof. rewrite <-Nat.land_ones, Nat.ones_equiv, Nat.sub_1_r. done. Qed.

Lemma of_nat_mask k : N.of_nat (2 ^ k - 1) = N.ones (N.of_nat k).
Proof. rewrite N.ones_equiv, Nnat.Nat2N.inj_sub, Nnat.Nat2N.inj_pow, N.sub_1_r. done. Qed.

(** Stepping back over the start of the ring. *)
Lemma wrapping_pred_mask k o :
  k ≤ 64 → o < 2 ^ k →
  N.to_nat (N.land (wrapping_pred (N.of_nat o)) (N.of_nat (2 ^ k - 1))) = if o =? 0 then 2 ^ k - 1 else o - 1.
Proof.
  intros Hk Ho. assert (0 < 2 ^ k) as Hpos by lia. destruct (Nat.eqb_spec o 0) as [->|Hne].
  - change (wrapping_pred (N.of_nat 0)) with (N.ones 64). rewrite of_nat_mask, N.land_comm, N.land_ones.
    rewrite N.mod_small; [by rewrite <-of_nat_mask, Nnat.Nat2N.id|]. rewrite <-of_nat_mask.
    assert (N.of_nat (2 ^ k) ≤ 2 ^ 64)%N as H; [|lia]. rewrite Nnat.Nat2N.inj_pow.
    change (N.of_nat 2) with 2%N. apply N.pow_le_mono_r; lia.
  - unfold wrapping_pred. destruct (N.eqb_spec (N.of_nat o) 0) as [|_]; [lia|].
    rewrite of_nat_mask, N.land_ones, N.mod_small; [lia|].
    change 2%N with (N.of_nat 2). rewrite <-Nnat.Nat2N.inj_pow. lia.
Qed.

Lemma set_at_ok {A} i (x : A) l : i < length l → set_at i x l = Some (<[i := x]> l).
Proof. intros H. unfold set_at. by rewrite (proj2 (Nat.ltb_lt _ _)). Qed.

Lemma next_power_of_two_spec n : 0 < n → n ≤ next_power_of_two n < 2 * n.
Proof.
  intros Hn. unfold next_power_of_two. destruct (decide (n = 1)) as [->|]; [cbn; lia|].
  pose proof (Nat.log2_up_spec n ltac:(lia)) as [H1 H2]. split; [done|].
  assert (0 < Nat.log2_up n) as Hp by (apply Nat.log2_up_pos; lia).
  destruct (Nat.log2_up n) as [|k]; [lia|]. cbn [pred Nat.pow] in *. lia.
Qed.

Section facts.
Context {E : Type}.
Implicit Types (c : Chunk E) (s : Standard E) (m : Mutable E) (l : list E).

(** ** Chains *)
Definition chunk_ok c l : Prop :=
  length (array c) = CHUNK_SIZE ∧ offset c + count c ≤ CHUNK_SIZE ∧ count c = length l ∧ l ≠ [] ∧
  ∀ i, i < length l → array c !! (offset c + i) = Some (l !! i).

Inductive chain_ok : list (Chunk E) → list E → Prop :=
| chain_nil : chain_ok [] []
| chain_cons c chain l1 l2 : chunk_ok c l1 → chain_ok chain l2 → chain_ok (c :: chain) (l1 ++ l2).

Definition rep s l : Prop := chain_ok (head s) l ∧ size s = length l.

Lemma rep_list_new : rep standard_new [].
Proof. split; [constructor|done]. Qed.

Lemma chain_get_ok chain l i : chain_ok chain l → i < length l → chain_get chain i = Some (l !! i).
Proof.
  intros H. revert i. induction H as [|c chain l1 l2 (_ & _ & Hcount & _ & Hc) _ IH]; intros i Hi; [cbn in Hi; lia|].
  rewrite length_app in Hi. cbn [chain_get]. rewrite Hcount. destruct (Nat.ltb_spec i (length l1)) as [Hlt|Hge].
  - rewrite lookup_app_l by done. by apply Hc.
  - rewrite lookup_app_r by done. apply IH. lia.
Qed.

Lemma get_ok s l i : rep s l → get s i = Some (l !! i).
Proof.
  intros [Hc Hs]. unfold get. rewrite Hs. destruct (Nat.leb_spec (length l) i) as [H|H].
  - by rewrite lookup_ge_None_2.
  - by apply chain_get_ok.
Qed.

(** *** Iteration *)
Definition iter_ok (it : Iter E) l : Prop :=
  match chunk it with
  | [] => l = []
  | c :: next => ∃ l1 l2, chunk_ok c l1 ∧ chain_ok next l2 ∧ index it ≤ length l1 ∧ l = drop (index it) l1 ++ l2
  end.

Lemma iter_start chain l : chain_ok chain l → iter_ok (mkIter chain 0) l.
Proof. destruct 1 as [|c chain l1 l2 Hc Hl]; [done|]. exists l1, l2. split_and!; [done..|cbn; lia|done]. Qed.

Lemma chain_next_ok chain i l :
  iter_ok (mkIter chain i) l →
  match l with
  | [] => ∃ it, chain_next chain i = Some (None, it)
  | x :: l => ∃ it, chain_next chain i = Some (Some x, it) ∧ iter_ok it l
  end.
Proof.
  revert i l. induction chain as [|c chain IH]; intros i l; cbn [iter_ok chunk chain_next].
  - intros ->. by eexists.
  - cbn [index]. intros (l1 & l2 & Hc & Hl & Hi & ->). pose proof Hc as (_ & _ & Hcount & _ & Hget). rewrite Hcount.
    destruct (Nat.ltb_spec i (length l1)) as [Hlt|Hge].
    + destruct (lookup_lt_is_Some_2 l1 i Hlt) as [x Hx]. rewrite Hget, Hx by done. cbn [mbind option_bind].
      rewrite (drop_S l1 x i Hx). cbn [app]. eexists. split; [done|]. exists l1, l2. cbn [index].
      rewrite Nat.add_1_r. split_and!; done.
    + rewrite drop_ge by done. cbn [app]. apply IH. by apply iter_start.
Qed.

Lemma drain_ok fuel it l : iter_ok it l → length l < fuel → drain fuel it = Some l.
Proof.
  revert it l. induction fuel as [|fuel IH]; intros [chain i] l Hit Hf; [lia|]. cbn [drain]. unfold iter_next. cbn [chunk index].
  pose proof (chain_next_ok chain i l Hit) as H. destruct l as [|x l].
  - destruct H as [it ->]. done.
  - destruct H as (it & -> & Hit'). cbn [mbind option_bind]. rewrite (IH it l Hit'); [done|]. cbn in Hf. lia.
Qed.

(** *** The front *)
Lemma singleton_chunk x : chunk_ok (mkChunk (<[CHUNK_SIZE - 1 := Some x]> empty_block) (CHUNK_SIZE - 1) 1) [x].
Proof. split_and!; try done. intros i Hi. cbn in Hi. by replace i with 0 by lia. Qed.

Lemma push_first_ok s l x :
  rep s l → ∃ s', push_first s x = Some s' ∧ rep s' (x :: l) ∧ metadata s' = metadata s.
Proof.
  intros [Hc Hs]. unfold push_first.
  assert (set_at (CHUNK_SIZE - 1) (Some x) (@empty_block E) = Some (<[CHUNK_SIZE - 1 := Some x]> empty_block)) as Hset
    by done.
  destruct Hc as [|c chain l1 l2 Hc Hl].
  - rewrite Hset. eexists. split; [done|]. split; [|done]. split; [|by cbn; rewrite Hs].
    apply (chain_cons _ _ [x] []); [apply singleton_chunk|constructor].
  - pose proof Hc as (Hlen & Hwin & Hcount & Hne & Hget). destruct (Nat.ltb_spec 0 (offset c)) as [Hlt|Hge].
    + rewrite set_at_ok by (unfold CHUNK_SIZE in *; lia). cbn [mbind option_bind]. eexists. split; [done|].
      split; [|done]. split; [|cbn; rewrite Hs; lia]. apply (chain_cons _ _ (x :: l1) l2); [|done].
      split_and!; cbn [array offset count length]; [by rewrite length_insert|lia|lia|done|].
      intros [|i] Hi.
      * rewrite Nat.add_0_r, list_lookup_insert_eq by (unfold CHUNK_SIZE in *; lia). done.
      * rewrite list_lookup_insert_ne by lia. replace (offset c - 1 + S i) with (offset c + i) by lia.
        apply Hget. lia.
    + rewrite Hset. eexists. split; [done|]. split; [|done]. split; [|cbn; rewrite Hs; cbn; lia].
      apply (chain_cons _ _ [x] (l1 ++ l2)); [apply singleton_chunk|by constructor].
Qed.

Lemma pop_first_ok s l :
  rep s l → ∃ s', pop_first_value s = Some s' ∧ rep s' (drop 1 l) ∧ metadata s' = metadata s.
Proof.
  destruct s as [md chain n]. intros [Hc Hs]. unfold pop_first_value. cbn [head size metadata] in *. subst n.
  destruct Hc as [|c chain l1 l2 Hc Hl]; [eexists; split; [done|]; split; [apply rep_list_new|done]|].
  destruct Hc as (Hlen & Hwin & Hcount & Hne & Hget). destruct l1 as [|x l1]; [done|]. cbn [length app Nat.eqb drop].
  rewrite drop_0, Hcount. cbn [length]. destruct (Nat.ltb_spec 1 (S (length l1))) as [Hlt|Hge].
  - eexists. split; [done|]. split; [|done]. split; [|cbn [size]; lia]. constructor; [|done].
    cbn [length] in Hcount. split_and!; cbn [array offset count]; [done|lia|lia|intros ->; cbn in Hlt; lia|].
    intros i Hi. replace (offset c + 1 + i) with (offset c + S i) by lia. apply Hget. cbn. lia.
  - destruct l1; [|cbn in Hge; lia]. eexists. split; [done|]. split; [|done]. split; [done|cbn [size app]; lia].
Qed.

(** ** Ring buffers *)
Definition slots (k o : nat) (elements : list (option E)) l : Prop :=
  ∀ i, i < length l → elements !! ((o + i) mod 2 ^ k) = Some (l !! i).

Definition ring_ok m l : Prop :=
  editable m = true ∧ ring_size m = length l ∧
  ∃ k, k ≤ 63 ∧ length (elements m) = 2 ^ k ∧ mask m = 2 ^ k - 1 ∧ ring_offset m < 2 ^ k ∧ length l ≤ 2 ^ k ∧
    slots k (ring_offset m) (elements m) l.

Lemma slot_ok m k i : mask m = 2 ^ k - 1 → slot m i = (ring_offset m + i) mod 2 ^ k.
Proof. intros Hk. unfold slot. by rewrite Hk, land_ring_mask. Qed.

Lemma ring_new_ok : ring_ok ring_new [].
Proof. split; [done|]. split; [done|]. exists 2. split_and!; try (cbn; lia). intros i Hi. cbn in Hi. lia. Qed.

(** Copying positions into the front of a fresh buffer. *)
Lemma resize_ok k' m l :
  ring_ok m l → k' ≤ 63 → length l ≤ 2 ^ k' →
  ∃ m', resize (2 ^ k') m = Some m' ∧ ring_ok m' l ∧ ring_metadata m' = ring_metadata m ∧ length (elements m') = 2 ^ k'.
Proof.
  intros (He & Hsize & k & Hk & Hlen & Hmask & Ho & Hfit & Hslots) Hk' Hfit'. unfold resize. rewrite Hsize.
  assert (∀ n, n ≤ length l → ∃ old new,
    foldl (λ r i, r ← r; value ← fst r !! slot m i; old ← set_at (slot m i) None (fst r);
             new ← set_at i value (snd r); Some (old, new))
      (Some (elements m, replicate (2 ^ k') None)) (seq 0 n) = Some (old, new) ∧
    length old = 2 ^ k ∧ length new = 2 ^ k' ∧
    (∀ i, n ≤ i → i < length l → old !! ((ring_offset m + i) mod 2 ^ k) = Some (l !! i)) ∧
    (∀ i, i < n → new !! i = Some (l !! i))) as H.
  { induction n as [|n IH]; intros Hn.
    - exists (elements m), (replicate (2 ^ k') None). rewrite length_replicate. split_and!; try done; [|intros; lia].
      intros i _ Hi. by apply Hslots.
    - destruct IH as (old & new & Hf & Hlo & Hln & Hold & Hnew); [lia|].
      assert ((ring_offset m + n) mod 2 ^ k < 2 ^ k) as Hin by (apply Nat.mod_upper_bound; lia).
      rewrite seq_S, foldl_app, Hf. cbn [foldl Nat.add mbind option_bind fst snd].
      rewrite (slot_ok m k) by done. rewrite Hold by lia. cbn [mbind option_bind].
      rewrite !set_at_ok by lia. cbn [mbind option_bind]. eexists _, _. split; [done|]. rewrite !length_insert.
      split_and!; [done..| |].
      + intros i Hi Hil. rewrite list_lookup_insert_ne; [apply Hold; lia|]. intros E0. apply mod_inj in E0; lia.
      + intros i Hi. destruct (decide (i = n)) as [->|Hne].
        * by rewrite list_lookup_insert_eq by lia.
        * rewrite list_lookup_insert_ne by done. apply Hnew. lia. }
  destruct (H (length l) (le_n _)) as (old & new & -> & _ & Hln & _ & Hnew). cbn [mbind option_bind snd].
  eexists. split; [done|]. split; [|done]. split; [done|]. cbn [ring_size]. split; [done|].
  exists k'. cbn [elements mask ring_offset]. split_and!; try done; [apply pow2_pos|].
  intros i Hi. cbn [Nat.add]. rewrite Nat.mod_small by lia. by apply Hnew.
Qed.

Definition below l : Prop := (N.of_nat (length l) < 2 ^ 62)%N.

Lemma below_pow l k : below l → length l = 2 ^ k → k < 62.
Proof.
  unfold below. intros Hb Hl. rewrite Hl, Nnat.Nat2N.inj_pow in Hb. change (N.of_nat 2) with 2%N in Hb.
  apply N.pow_lt_mono_r_iff in Hb; lia.
Qed.

Lemma grow_ok m l :
  ring_ok m l → below l →
  ∃ m', grow m = Some m' ∧ ring_ok m' l ∧ ring_metadata m' = ring_metadata m ∧ length l < length (elements m').
Proof.
  intros Hm Hb. pose proof Hm as (He & Hsize & k & Hk & Hlen & Hmask & Ho & Hfit & Hslots). unfold grow. rewrite Hsize.
  destruct (Nat.eqb_spec (length l) (length (elements m))) as [Heq|Hne].
  - rewrite Hlen in Heq. pose proof (below_pow l k Hb Heq) as Hk2.
    rewrite Heq. replace (2 ^ k * 2) with (2 ^ S k) by (cbn; lia).
    destruct (resize_ok (S k) m l Hm) as (m' & -> & Hm' & Hmd & Hl'); [lia|cbn [Nat.pow]; lia|].
    exists m'. split_and!; try done. rewrite Hl'. cbn [Nat.pow]. lia.
  - exists m. split_and!; try done. lia.
Qed.

Lemma check_ok {A} m l (p : option A) : ring_ok m l → (check_editable m;; p) = p.
Proof. intros [He _]. unfold check_editable. by rewrite He. Qed.
(** *** Operations *)
Lemma ring_size_lt {m l} k : length (elements m) = 2 ^ k → ∀ a, (ring_offset m + a) mod 2 ^ k < length (elements m).
Proof. intros -> a. apply Nat.mod_upper_bound. pose proof (pow2_pos k). lia. Qed.

Lemma ring_push_last_ok m l x :
  ring_ok m l → below l →
  ∃ m', ring_push_last m x = Some m' ∧ ring_ok m' (l ++ [x]) ∧ ring_metadata m' = ring_metadata m.
Proof.
  intros Hm Hb. unfold ring_push_last. rewrite (check_ok m l) by done.
  destruct (grow_ok m l Hm Hb) as (m1 & -> & (He & Hsize & k & Hk & Hlen & Hmask & Ho & Hfit & Hslots) & Hmd & Hroom).
  cbn [mbind option_bind]. rewrite (slot_ok m1 k), Hsize by done.
  rewrite set_at_ok by by apply (ring_size_lt (l := l)). cbn [mbind option_bind]. eexists. split; [done|].
  split; [|done]. split; [done|]. cbn [ring_size with_elements]. rewrite length_app. split; [done|].
  exists k. cbn [elements mask ring_offset with_elements length]. rewrite length_insert.
  split_and!; try done; [lia|]. intros i Hi. rewrite length_app in Hi. cbn [length] in Hi.
  destruct (decide (i = length l)) as [->|Hne].
  - rewrite list_lookup_insert_eq by by apply (ring_size_lt (l := l)). by rewrite list_lookup_middle.
  - rewrite list_lookup_insert_ne; [|intros E0; apply mod_inj in E0; lia].
    rewrite lookup_app_l by lia. apply Hslots. lia.
Qed.

Lemma ring_push_first_ok m l x :
  ring_ok m l → below l →
  ∃ m', ring_push_first m x = Some m' ∧ ring_ok m' (x :: l) ∧ ring_metadata m' = ring_metadata m.
Proof.
  intros Hm Hb. unfold ring_push_first. rewrite (check_ok m l) by done.
  destruct (grow_ok m l Hm Hb) as (m1 & -> & (He & Hsize & k & Hk & Hlen & Hmask & Ho & Hfit & Hslots) & Hmd & Hroom).
  cbn [mbind option_bind]. rewrite Hmask, (wrapping_pred_mask k) by (done || lia).
  set (o := if ring_offset m1 =? 0 then 2 ^ k - 1 else ring_offset m1 - 1).
  assert (o < 2 ^ k ∧ ∀ i, i < 2 ^ k → (o + S i) mod 2 ^ k = (ring_offset m1 + i) mod 2 ^ k) as [Hol Hoi].
  { unfold o. destruct (Nat.eqb_spec (ring_offset m1) 0) as [->|Hne]; split; try lia; intros i Hi; rewrite !mod_wrap by lia.
    - destruct (Nat.ltb_spec (2 ^ k - 1 + S i) (2 ^ k)), (Nat.ltb_spec (0 + i) (2 ^ k)); lia.
    - destruct (Nat.ltb_spec (ring_offset m1 - 1 + S i) (2 ^ k)), (Nat.ltb_spec (ring_offset m1 + i) (2 ^ k)); lia. }
  clearbody o. rewrite set_at_ok by lia. cbn [mbind option_bind]. eexists. split; [done|].
  split; [|done]. split; [done|]. cbn [ring_size with_elements length]. split; [lia|].
  exists k. cbn [elements mask ring_offset with_elements]. rewrite length_insert.
  split_and!; try done; [lia|]. intros i Hi. cbn [length] in Hi. destruct i as [|i].
  - rewrite Nat.add_0_r, Nat.mod_small by done. by rewrite list_lookup_insert_eq by lia.
  - rewrite list_lookup_insert_ne.
    + rewrite Hoi by lia. apply Hslots. lia.
    + intros E0. rewrite <-(Nat.mod_small o (2 ^ k)), <-(Nat.add_0_r o) in E0 at 1 by done. apply mod_inj in E0; lia.
Qed.

Lemma ring_pop_first_ok m l :
  ring_ok m l →
  ∃ m', ring_pop_first m = Some (l !! 0, m') ∧ ring_ok m' (drop 1 l) ∧ ring_metadata m' = ring_metadata m.
Proof.
  intros Hm. unfold ring_pop_first. rewrite (check_ok m l) by done.
  pose proof Hm as (He & Hsize & k & Hk & Hlen & Hmask & Ho & Hfit & Hslots). rewrite Hsize.
  destruct l as [|x l]; [by exists m|]. cbn [length Nat.eqb drop]. rewrite drop_0.
  pose proof (Hslots 0 ltac:(cbn; lia)) as H0. rewrite Nat.add_0_r, Nat.mod_small in H0 by done. rewrite H0.
  cbn [mbind option_bind]. rewrite set_at_ok by lia. cbn [mbind option_bind]. eexists. split; [done|]. split; [|done].
  split; [done|]. cbn [ring_size with_elements]. split; [lia|].
  exists k. cbn [elements mask ring_offset with_elements length] in *. rewrite length_insert, (slot_ok m k) by done.
  assert ((ring_offset m + 1) mod 2 ^ k < 2 ^ k) as Ho1 by (apply Nat.mod_upper_bound; lia).
  split_and!; try done; [lia|]. intros i Hi. rewrite Nat.Div0.add_mod_idemp_l, <-Nat.add_assoc. cbn [Nat.add].
  rewrite list_lookup_insert_ne; [by rewrite Hslots by (cbn; lia)|].
  intros E0. rewrite <-(Nat.mod_small (ring_offset m) (2 ^ k)), <-(Nat.add_0_r (ring_offset m)) in E0 at 1 by done.
  apply mod_inj in E0; lia.
Qed.

Lemma ring_pop_last_ok m l :
  ring_ok m l →
  ∃ m', ring_pop_last m = Some (last l, m') ∧ ring_ok m' (take (pred (length l)) l) ∧ ring_metadata m' = ring_metadata m.
Proof.
  intros Hm. unfold ring_pop_last. rewrite (check_ok m l) by done.
  pose proof Hm as (He & Hsize & k & Hk & Hlen & Hmask & Ho & Hfit & Hslots). rewrite Hsize, last_lookup.
  destruct (decide (l = [])) as [->|Hne]; [by exists m|].
  assert (0 < length l) as Hpos by (destruct l; [done|cbn; lia]).
  destruct (Nat.eqb_spec (length l) 0) as [|_]; [lia|].
  rewrite (slot_ok m k), Hslots by (done || lia). rewrite Nat.sub_1_r. cbn [mbind option_bind].
  rewrite set_at_ok by by apply (ring_size_lt (l := l)). cbn [mbind option_bind]. eexists. split; [done|]. split; [|done].
  split; [done|]. cbn [ring_size with_elements]. rewrite length_take. split; [lia|].
  exists k. cbn [elements mask ring_offset with_elements]. rewrite length_insert.
  split_and!; try done; [lia|]. intros i Hi. rewrite length_take in Hi. rewrite lookup_take_lt by lia.
  rewrite list_lookup_insert_ne; [apply Hslots; lia|]. intros E0. apply mod_inj in E0; lia.
Qed.

Lemma ring_get_ok m l i : ring_ok m l → ring_get m i = Some (l !! i).
Proof.
  intros Hm. unfold ring_get. rewrite (check_ok m l) by done.
  pose proof Hm as (_ & -> & k & Hk & Hlen & Hmask & Ho & Hfit & Hslots).
  destruct (Nat.leb_spec (length l) i) as [H|H]; [by rewrite lookup_ge_None_2|].
  rewrite (slot_ok m k) by done. by apply Hslots.
Qed.

Lemma mapM_seq {A} (f : nat → option A) (g : nat → A) a n :
  (∀ i, a ≤ i → i < a + n → f i = Some (g i)) → mapM f (seq a n) = Some (g <$> seq a n).
Proof.
  revert a. induction n as [|n IH]; intros a H; [done|]. cbn [seq mapM fmap list_fmap]. rewrite H by lia. cbn [mbind option_bind].
  rewrite IH; [done|]. intros i Hi Hn. apply H; lia.
Qed.

Lemma fmap_lookup_seq l : (λ i, l !! i) <$> seq 0 (length l) = Some <$> l.
Proof.
  apply list_eq. intros i. rewrite !list_lookup_fmap. destruct (decide (i < length l)) as [Hi|Hi].
  - rewrite lookup_seq_lt by done. cbn. by destruct (lookup_lt_is_Some_2 l i Hi) as [x ->].
  - rewrite (proj2 (lookup_ge_None _ _)) by (rewrite length_seq; lia). by rewrite lookup_ge_None_2 by lia.
Qed.

Lemma ring_iter_ok m l : ring_ok m l → ring_iter m = Some l.
Proof.
  intros Hm. unfold ring_iter. rewrite (check_ok m l) by done.
  pose proof Hm as (_ & -> & k & Hk & Hlen & Hmask & Ho & Hfit & Hslots).
  apply mapM_Some. apply Forall2_lookup. intros i. destruct (decide (i < length l)) as [Hi|Hi].
  - rewrite lookup_seq_lt by done. destruct (lookup_lt_is_Some_2 l i Hi) as [x Hx]. rewrite Hx. constructor.
    cbn [Nat.add]. rewrite (slot_ok m k), Hslots, Hx by done. done.
  - rewrite (proj2 (lookup_ge_None _ _)) by (rewrite length_seq; lia). rewrite lookup_ge_None_2 by lia. constructor.
Qed.

Lemma ring_assoc_ok m l i x :
  ring_ok m l → below l →
  if i <=? length l then
    ∃ m', ring_assoc m i x = Some (l !! i, m') ∧ ring_ok m' (if i =? length l then l ++ [x] else <[i := x]> l) ∧
      ring_metadata m' = ring_metadata m
  else ring_assoc m i x = None.
Proof.
  intros Hm Hb. unfold ring_assoc. rewrite (check_ok m l) by done. pose proof Hm as (_ & Hsize & _). rewrite Hsize.
  destruct (Nat.leb_spec i (length l)) as [Hle|Hgt].
  - destruct (Nat.eqb_spec i (length l)) as [->|Hne].
    + destruct (ring_push_last_ok m l x Hm Hb) as (m' & -> & Hm' & Hmd). exists m'. by rewrite lookup_ge_None_2.
    + rewrite (proj2 (Nat.ltb_lt _ _)) by lia. cbn [negb].
      pose proof Hm as (He & _ & k & Hk & Hlen & Hmask & Ho & Hfit & Hslots).
      rewrite (slot_ok m k), Hslots by (done || lia). cbn [mbind option_bind].
      rewrite set_at_ok by by apply (ring_size_lt (l := l)). eexists. split; [done|]. split; [|done].
      split; [done|]. cbn [ring_size with_elements]. rewrite length_insert. split; [done|].
      exists k. cbn [elements mask ring_offset with_elements]. rewrite !length_insert. split_and!; try done.
      intros j Hj. rewrite length_insert in Hj. destruct (decide (j = i)) as [->|Hji].
      * by rewrite !list_lookup_insert_eq by (done || by apply (ring_size_lt (l := l))).
      * rewrite !list_lookup_insert_ne; [by apply Hslots|done|]. intros E0. apply mod_inj in E0; lia.
  - destruct (Nat.eqb_spec i (length l)); [lia|]. by rewrite (proj2 (Nat.ltb_ge _ _)) by lia.
Qed.

Lemma ring_empty_ok m l :
  ring_ok m l → ∃ m', ring_empty m = Some m' ∧ ring_ok m' [] ∧ ring_metadata m' = ring_metadata m.
Proof.
  intros Hm. unfold ring_empty. rewrite (check_ok m l) by done. eexists. split; [done|]. split; [|done].
  destruct Hm as (He & _ & k & Hk & Hlen & Hmask & Ho & _). split; [done|]. split; [done|]. exists k.
  cbn [elements mask ring_offset with_elements length]. rewrite length_fmap.
  split_and!; try done; try lia. intros i Hi. cbn in Hi. lia.
Qed.

(** *** Between the two *)
Lemma cut_block_ok m l start count :
  ring_ok m l → start + count ≤ length l →
  cut_block m start count = Some ((λ i, if i <? count then l !! (start + i) else None) <$> seq 0 CHUNK_SIZE).
Proof.
  intros (_ & _ & k & Hk & Hlen & Hmask & Ho & Hfit & Hslots) Hc. apply mapM_seq. intros i _ Hi.
  destruct (Nat.ltb_spec i count) as [Hlt|]; [|done]. rewrite (slot_ok m k) by done. apply Hslots. lia.
Qed.

Lemma cut_chunks_ok fuel m l remaining next :
  ring_ok m l → remaining ≤ length l → remaining ≤ fuel → chain_ok next (drop remaining l) →
  ∃ chain, cut_chunks fuel m remaining next = Some chain ∧ chain_ok chain l.
Proof.
  intros Hm. revert remaining next. induction fuel as [|fuel IH]; intros n next Hn Hf Hnext; cbn [cut_chunks].
  { replace n with 0 in * by lia. exists next. by rewrite drop_0 in Hnext. }
  destruct (Nat.eqb_spec n 0) as [->|Hne]; [exists next; by rewrite drop_0 in Hnext|].
  set (count := if n mod CHUNK_SIZE =? 0 then CHUNK_SIZE else n mod CHUNK_SIZE).
  assert (0 < count ∧ count ≤ CHUNK_SIZE ∧ count ≤ n) as (Hc0 & Hc1 & Hc2).
  { unfold count. pose proof (Nat.mod_upper_bound n CHUNK_SIZE ltac:(done)) as Hu.
    pose proof (Nat.div_mod n CHUNK_SIZE ltac:(done)) as Hdm. unfold CHUNK_SIZE in *.
    destruct (Nat.eqb_spec (n mod 32) 0); lia. }
  clearbody count. rewrite (cut_block_ok m l) by (done || lia). cbn [mbind option_bind].
  apply IH; [lia..|]. replace (drop (n - count) l) with (take count (drop (n - count) l) ++ drop n l).
  2: { rewrite <-(take_drop count (drop (n - count) l)) at 2. rewrite drop_drop. do 2 f_equal. lia. }
  assert (length (take count (drop (n - count) l)) = count) as Hl by (rewrite length_take, length_drop; lia).
  constructor; [|done]. split_and!; cbn [array offset ChunkList.count]; [by rewrite length_fmap, length_seq|lia|done| |].
  - intros E0. rewrite E0 in Hl. cbn in Hl. lia.
  - intros i Hi. rewrite Hl in Hi. cbn [Nat.add]. rewrite list_lookup_fmap, lookup_seq_lt by lia.
    cbn [fmap option_fmap option_map Nat.add]. rewrite (proj2 (Nat.ltb_lt _ _)) by done. by rewrite lookup_take_lt, lookup_drop by done.
Qed.

Lemma to_persistent_ok m l :
  ring_ok m l →
  ∃ s m', to_persistent m = Some (s, m') ∧ rep s l ∧ metadata s = ring_metadata m ∧ editable m' = false.
Proof.
  intros Hm. unfold to_persistent. rewrite (check_ok m l) by done. pose proof Hm as (_ & Hsize & _). rewrite Hsize.
  destruct (cut_chunks_ok (length l) m l (length l) [] Hm) as (chain & -> & Hc); [done..| |].
  { rewrite drop_ge by done. constructor. }
  eexists _, _. split; [done|]. by split.
Qed.

(** The slots from [i] on hold [l], those before are those of [old]. *)
Definition filled (i : nat) (old : list (option E)) l (new : list (option E)) : Prop :=
  length new = length old ∧ (∀ j, j < i → new !! j = old !! j) ∧ (∀ j, j < length l → new !! (i + j) = Some (l !! j)).

Lemma copy_chunk_ok c l i old :
  chunk_ok c l → i + length l ≤ length old →
  ∃ new, copy_chunk c (i, old) = Some (i + length l, new) ∧ filled i old l new.
Proof.
  intros (_ & _ & Hcount & _ & Hget) Hi. unfold copy_chunk. rewrite Hcount.
  assert (∀ n, n ≤ length l → ∃ new,
    foldl (λ r j, r ← r; value ← array c !! (offset c + j); elements ← set_at (fst r) value (snd r);
             Some (S (fst r), elements)) (Some (i, old)) (seq 0 n) = Some (i + n, new) ∧ filled i old (take n l) new) as H.
  { induction n as [|n IH]; intros Hn.
    - exists old. rewrite Nat.add_0_r. split; [done|]. split; [done|]. split; [done|]. intros j Hj. rewrite take_0 in Hj. cbn in Hj. lia.
    - destruct IH as (new & Hf & Hl & Hb & Hnew); [lia|]. rewrite seq_S, foldl_app, Hf. cbn [foldl Nat.add mbind option_bind fst snd].
      rewrite Hget by lia. cbn [mbind option_bind]. rewrite set_at_ok by lia. cbn [mbind option_bind].
      eexists. split; [by rewrite Nat.add_succ_r|]. split_and!.
      + by rewrite length_insert.
      + intros j Hj. rewrite list_lookup_insert_ne by lia. by apply Hb.
      + intros j Hj. rewrite length_take in Hj. destruct (decide (j = n)) as [->|Hjn].
        * rewrite list_lookup_insert_eq by lia. by rewrite lookup_take_lt by lia.
        * rewrite list_lookup_insert_ne, Hnew by (rewrite ?length_take; lia). by rewrite !lookup_take_lt by lia. }
  destruct (H (length l) (le_n _)) as (new & Hf & Hnew). exists new. by rewrite firstn_all in Hnew.
Qed.

Lemma copy_chain_ok chain l i old :
  chain_ok chain l → i + length l ≤ length old →
  ∃ new, foldl (λ r c, r ← r; copy_chunk c r) (Some (i, old)) chain = Some (i + length l, new) ∧ filled i old l new.
Proof.
  intros Hc. revert i old. induction Hc as [|c chain l1 l2 Hc _ IH]; intros i old Hi.
  { exists old. cbn. rewrite Nat.add_0_r. split; [done|]. split; [done|]. split; [done|]. intros j Hj. cbn in Hj. lia. }
  rewrite length_app in Hi. cbn [foldl mbind option_bind].
  destruct (copy_chunk_ok c l1 i old Hc) as (new1 & -> & Hl1 & Hb1 & Hn1); [lia|].
  destruct (IH (i + length l1) new1) as (new & -> & Hl & Hb & Hn); [lia|]. exists new.
  split; [by rewrite length_app, Nat.add_assoc|]. split_and!; [congruence| |].
  - intros j Hj. rewrite Hb by lia. by apply Hb1.
  - intros j Hj. rewrite length_app in Hj. destruct (Nat.lt_ge_cases j (length l1)) as [Hlt|Hge].
    + rewrite Hb, Hn1, lookup_app_l by lia. done.
    + rewrite lookup_app_r by done. replace (i + j) with (i + length l1 + (j - length l1)) by lia. apply Hn. lia.
Qed.

Lemma from_standard_ok s l :
  rep s l → below l →
  ∃ m, from_standard s = Some m ∧ ring_ok m l ∧ ring_metadata m = metadata s ∧ length l < length (elements m).
Proof.
  intros [Hc Hs] Hb. unfold from_standard. rewrite Hs. unfold ring_capacity.
  rewrite Nat.max_l by lia. pose proof (next_power_of_two_spec (length l + 1) ltac:(lia)) as [Hp1 Hp2].
  unfold next_power_of_two in *. set (k := Nat.log2_up (length l + 1)) in *.
  destruct (copy_chain_ok (head s) l 0 (replicate (2 ^ k) None) Hc) as (new & -> & Hl & _ & Hn);
    [rewrite length_replicate; lia|]. rewrite length_replicate in Hl. cbn [mbind option_bind snd].
  eexists. split; [done|]. split; [|split; [done|cbn; lia]]. split; [done|]. split; [done|].
  exists k. cbn [elements mask ring_offset]. split_and!; try done; try lia.
  - assert (N.of_nat (2 ^ k) < 2 ^ 64)%N as H.
    { unfold below in Hb. change (2 ^ 64)%N with (4 * 2 ^ 62)%N. lia. }
    rewrite Nnat.Nat2N.inj_pow in H. change (N.of_nat 2) with 2%N in H. apply N.pow_lt_mono_r_iff in H; lia.
  - intros i Hi. cbn [Nat.add]. rewrite Nat.mod_small by lia. by apply Hn.
Qed.
(** ** What the operations return *)
Definition yields s l (r : option (Standard E)) : Prop :=
  ∃ s', r = Some s' ∧ rep s' l ∧ metadata s' = metadata s.

Definition ring_yields m l (r : option (Mutable E)) : Prop :=
  ∃ m', r = Some m' ∧ ring_ok m' l ∧ ring_metadata m' = ring_metadata m.

(** The element an operation returns, and the ring it leaves. *)
Definition ring_returns m (x : option E) l (r : option (option E * Mutable E)) : Prop :=
  ∃ m', r = Some (x, m') ∧ ring_ok m' l ∧ ring_metadata m' = ring_metadata m.

Lemma thaw_freeze s l l' (f : Mutable E → option (Mutable E)) :
  rep s l → below l → (∀ m, ring_ok m l → ring_yields m l' (f m)) →
  yields s l' (m ← from_standard s; m ← f m; r ← to_persistent m; Some (fst r)).
Proof.
  intros Hs Hb Hf. destruct (from_standard_ok s l Hs Hb) as (m & -> & Hm & Hmd & _). cbn [mbind option_bind].
  destruct (Hf m Hm) as (m1 & -> & Hm1 & Hmd1). cbn [mbind option_bind].
  destruct (to_persistent_ok m1 l' Hm1) as (s' & m2 & -> & Hs' & Hmd' & _). exists s'. cbn. split_and!; [done..|congruence].
Qed.

Lemma push_last_ok s l x : rep s l → below l → yields s (l ++ [x]) (push_last s x).
Proof. intros Hs Hb. apply (thaw_freeze s l); [done..|]. intros m Hm. by apply ring_push_last_ok. Qed.

Lemma pop_last_ok s l : rep s l → below l → yields s (take (pred (length l)) l) (pop_last_value s).
Proof.
  intros Hs Hb. pose proof (thaw_freeze s l (take (pred (length l)) l) (λ m, snd <$> ring_pop_last m) Hs Hb) as H.
  unfold pop_last_value. destruct (from_standard s) as [m|]; cbn [mbind option_bind] in *.
  - destruct (ring_pop_last m) as [p|] eqn:E0; apply H; intros m' Hm';
      destruct (ring_pop_last_ok m' l Hm') as (m2 & -> & ? & ?); by exists m2.
  - apply H. intros m' Hm'. destruct (ring_pop_last_ok m' l Hm') as (m2 & -> & ? & ?); by exists m2.
Qed.

Lemma assoc_ok s l i x :
  rep s l → below l →
  if i <=? length l then yields s (if i =? length l then l ++ [x] else <[i := x]> l) (assoc s i x)
  else assoc s i x = None.
Proof.
  intros Hs Hb. unfold assoc. destruct (from_standard_ok s l Hs Hb) as (m & -> & Hm & Hmd & _). cbn [mbind option_bind].
  pose proof (ring_assoc_ok m l i x Hm Hb) as Ha. destruct (i <=? length l); [|by rewrite Ha].
  destruct Ha as (m1 & -> & Hm1 & Hmd1). cbn [mbind option_bind snd].
  destruct (to_persistent_ok m1 _ Hm1) as (s' & m2 & -> & Hs' & Hmd' & _). exists s'. cbn. split_and!; [done..|congruence].
Qed.

Lemma below_prefix l1 l2 : below (l1 ++ l2) → below l1.
Proof. unfold below. rewrite length_app. lia. Qed.

Lemma ring_from_iter_ok l : below l → ∃ m, ring_from_iter l = Some m ∧ ring_ok m l ∧ ring_metadata m = None.
Proof.
  intros Hb. unfold ring_from_iter.
  assert (∀ k m, ring_ok m k → below (k ++ l) → ring_metadata m = None → ∃ m',
    foldl (λ ring value, m ← ring; ring_push_last m value) (Some m) l = Some m' ∧ ring_ok m' (k ++ l) ∧ ring_metadata m' = None)
    as H; [|apply (H []); [apply ring_new_ok|done|done]].
  clear Hb. induction l as [|x l IH]; intros k m Hm Hb Hmd; cbn [foldl].
  - exists m. by rewrite app_nil_r.
  - cbn [mbind option_bind].
    destruct (ring_push_last_ok m k x Hm) as (m1 & -> & Hm1 & Hmd1); [by apply below_prefix in Hb|].
    destruct (IH (k ++ [x]) m1 Hm1) as (m' & -> & Hm' & Hmd'); [by rewrite <-app_assoc|congruence|].
    exists m'. by rewrite <-app_assoc in Hm'.
Qed.

Lemma from_iter_ok l : below l → ∃ s, from_iter l = Some s ∧ rep s l ∧ metadata s = None.
Proof.
  intros Hb. unfold from_iter. destruct (ring_from_iter_ok l Hb) as (m & -> & Hm & Hmd). cbn [mbind option_bind].
  destruct (to_persistent_ok m l Hm) as (s & m' & -> & Hs & Hsd & _). exists s. cbn. split_and!; [done..|congruence].
Qed.

(** C34. The chunked list implements lists: indexing, iteration, updates at both
    ends, association and building agree with the list operations, keep the
    metadata and panic only when associating beyond the end. *)
Theorem list_correct s l :
  rep s l → below l →
  size s = length l ∧
  (∀ i, get s i = Some (l !! i)) ∧
  (∀ fuel, length l < fuel → drain fuel (iter s) = Some l) ∧
  (∀ x, yields s (x :: l) (push_first s x)) ∧
  yields s (drop 1 l) (pop_first_value s) ∧
  (∀ x, yields s (l ++ [x]) (push_last s x)) ∧
  yields s (take (pred (length l)) l) (pop_last_value s) ∧
  (∀ i x, if i <=? length l then yields s (if i =? length l then l ++ [x] else <[i := x]> l) (assoc s i x)
          else assoc s i x = None) ∧
  (∃ s', from_iter l = Some s' ∧ rep s' l).
Proof.
  intros Hs Hb. split; [apply Hs|]. split; [intros; by apply get_ok|].
  split; [intros fuel Hf; apply drain_ok; [apply iter_start, Hs|done]|].
  split; [intros; by apply push_first_ok|]. split; [by apply pop_first_ok|]. split; [intros; by apply push_last_ok|].
  split; [by apply pop_last_ok|]. split; [intros; by apply assoc_ok|].
  destruct (from_iter_ok l Hb) as (s' & ? & ? & _). by exists s'.
Qed.

(** The ring buffer implements lists through wrapping and growing, and is
    frozen by [to_persistent]: the persistent list has its elements, and every
    operation on the transient afterwards panics. *)
Theorem ring_correct m l :
  ring_ok m l → below l →
  ring_len m = Some (length l) ∧ (∀ i, ring_get m i = Some (l !! i)) ∧ ring_iter m = Some l ∧
  (∀ x, ring_yields m (x :: l) (ring_push_first m x)) ∧
  (∀ x, ring_yields m (l ++ [x]) (ring_push_last m x)) ∧
  ring_returns m (l !! 0) (drop 1 l) (ring_pop_first m) ∧
  ring_returns m (last l) (take (pred (length l)) l) (ring_pop_last m) ∧
  (∀ i x, if i <=? length l then
            ring_returns m (l !! i) (if i =? length l then l ++ [x] else <[i := x]> l) (ring_assoc m i x)
          else ring_assoc m i x = None) ∧
  ring_yields m [] (ring_empty m) ∧
  (∃ s m', to_persistent m = Some (s, m') ∧ rep s l ∧ metadata s = ring_metadata m ∧
     ring_len m' = None ∧ ring_iter m' = None ∧ to_persistent m' = None ∧ ring_empty m' = None ∧
     ring_pop_first m' = None ∧ ring_pop_last m' = None ∧
     ∀ i x, ring_get m' i = None ∧ ring_push_first m' x = None ∧ ring_push_last m' x = None ∧ ring_assoc m' i x = None).
Proof.
  intros Hm Hb. split; [unfold ring_len; rewrite (check_ok m l) by done; f_equal; apply Hm|].
  split; [intros; by apply ring_get_ok|]. split; [by apply ring_iter_ok|].
  split; [intros; by apply ring_push_first_ok|]. split; [intros; by apply ring_push_last_ok|].
  split; [by apply ring_pop_first_ok|]. split; [by apply ring_pop_last_ok|].
  split; [intros; by apply ring_assoc_ok|]. split; [by eapply ring_empty_ok|].
  destruct (to_persistent_ok m l Hm) as (s & m' & Hp & Hs & Hmd & He). exists s, m'.
  split; [done|]. split; [done|]. split; [done|].
  unfold ring_len, ring_iter, to_persistent, ring_empty, ring_pop_first, ring_pop_last, ring_get, ring_push_first,
    ring_push_last, ring_assoc, check_editable. by rewrite He.
Qed.
End facts.

(** Forty numbers and one in front: an open block, a full one and a short one. *)
Definition forty : Standard nat :=
  match s ← from_iter (seq 1 40); push_first s 0 with Some s => s | None => standard_new end.

Lemma forty_rep : rep forty (seq 0 41).
Proof.
  destruct (from_iter_ok (seq 1 40)) as (s & Hs & Hrep & _); [unfold below; cbn; lia|].
  destruct (push_first_ok s (seq 1 40) 0 Hrep) as (s' & Hs' & Hrep' & _).
  unfold forty. rewrite Hs. cbn [mbind option_bind]. by rewrite Hs'.
Qed.

Lemma list_correct_witness :
  get forty 33 = Some (Some 33) ∧ (∃ s, pop_last_value forty = Some s ∧ rep s (seq 0 40)) ∧ assoc forty 42 7 = None.
Proof.
  destruct (list_correct forty (seq 0 41) forty_rep) as (_ & Hget & _ & _ & _ & _ & (s & Hs & Hr & _) & Hassoc & _).
  { unfold below. vm_compute. reflexivity. }
  split; [rewrite Hget; reflexivity|]. split; [exists s; split; [exact Hs|exact Hr]|]. exact (Hassoc 42 7).
Defined.

(** A ring that wraps around its end. *)
Definition wrapped : Mutable nat :=
  mkMutable true [Some 3; None; Some 1; Some 2] 3 3 2 None.

Lemma ring_correct_witness :
  ring_ok wrapped [1; 2; 3] ∧ ring_iter wrapped = Some [1; 2; 3] ∧
  ∃ m, ring_push_first wrapped 0 = Some m ∧ ring_ok m [0; 1; 2; 3].
Proof.
  assert (ring_ok wrapped [1; 2; 3]) as Hm.
  { split; [reflexivity|]. split; [reflexivity|]. exists 2.
    split; [lia|]. split; [reflexivity|]. split; [reflexivity|]. split; [cbn; lia|]. split; [cbn; lia|].
    intros [|[|[|i]]] Hi; try reflexivity. cbn in Hi. lia. }
  split; [exact Hm|]. destruct (ring_correct wrapped [1; 2; 3] Hm) as (_ & _ & Hiter & Hpush & _).
  { unfold below. vm_compute. reflexivity. }
  split; [exact Hiter|]. destruct (Hpush 0) as (m & Hp & Hr & _). exists m. split; [exact Hp|exact Hr].
Defined.
