(* ===== verification/Queue.v ===== *)
(** * The persistent queue

    [src/core/rust/src/lang/data/queue.rs]: a head vector read from an offset,
    a list of full segments and a tail vector. [None] is a panic; the vectors
    and the list of segments are those of [Vector] and [ChunkList]. *)
From S2P Require Import Prelude Kernel Vector ChunkList.

Definition MAX_LENGTH : nat := 1024.

Section queue.
Context {E : Type}.
Local Abbreviation Vec := (Vector.Standard E).

Record Standard := mkStandard {
  metadata : option Metadata;
  size : nat;
  offset : nat;
  head : Vec;
  tail : Vec;
  buffer : ChunkList.Standard Vec;
}.
Implicit Types q : Standard.

Definition standard_new : Standard :=
  mkStandard None 0 0 Vector.standard_new Vector.standard_new ChunkList.standard_new.

Definition vec_is_empty (v : Vec) : bool := Vector.size v =? 0.

(** [v.get(v.len() - 1)]: the subtraction underflows on an empty vector. *)
Definition vec_last (v : Vec) : option (option E) :=
  match Vector.size v with O => None | S n => Some (Vector.get v n) end.

(** [v.iter()], to its end. *)
Definition vec_items (v : Vec) : option (list E) := Vector.iter_collect v (S (Vector.size v)) (Vector.iter v).

Definition peek_first q : option E := if size q =? 0 then None else Vector.get (head q) (offset q).

Definition peek_last q : option (option E) :=
  if size q =? 0 then Some None
  else if negb (vec_is_empty (tail q)) then vec_last (tail q)
  else
    match ChunkList.size (buffer q) with
    | S n =>
        segment ← ChunkList.get (buffer q) n;
        match segment with Some v => vec_last v | None => Some None end
    | O => vec_last (head q)
    end.

Definition get q (index : nat) : option (option E) :=
  if size q <=? index then Some None
  else
    let head_remaining := Vector.size (head q) - offset q in
    if index <? head_remaining then Some (Vector.get (head q) (offset q + index))
    else
      let after := index - head_remaining in
      let chunk := after / MAX_LENGTH in
      let column := after mod MAX_LENGTH in
      if chunk <? ChunkList.size (buffer q) then
        segment ← ChunkList.get (buffer q) chunk;
        Some (segment ≫= λ v, Vector.get v column)
      else Some (Vector.get (tail q) column).

Definition push_last q (value : E) : option Standard :=
  let space := MAX_LENGTH - offset q in
  if size q <? space then
    head ← Vector.push_last (head q) value;
    Some (mkStandard (metadata q) (size q + 1) (offset q) head (tail q) (buffer q))
  else
    tail ← Vector.push_last (tail q) value;
    if Vector.size tail <? MAX_LENGTH then
      Some (mkStandard (metadata q) (size q + 1) (offset q) (head q) tail (buffer q))
    else
      buffer ← ChunkList.push_last (buffer q) tail;
      Some (mkStandard (metadata q) (size q + 1) (offset q) (head q) Vector.standard_new buffer).

(** [head.iter().skip(offset)], the segments, the tail. *)
Definition iter q : option (list E) :=
  front ← vec_items (head q);
  segments ← ChunkList.drain (S (ChunkList.size (buffer q))) (ChunkList.iter (buffer q));
  middle ← mapM vec_items segments;
  back ← vec_items (tail q);
  Some (drop (offset q) front ++ concat middle ++ back).

Definition from_iter (values : list E) : option Standard :=
  foldl (λ queue value, q ← queue; push_last q value) (Some standard_new) values.

Definition with_meta (metadata : option Metadata) q : Standard :=
  mkStandard metadata (size q) (offset q) (head q) (tail q) (buffer q).

Definition push_first q (value : E) : option Standard :=
  values ← iter q; r ← from_iter (value :: values); Some (with_meta (metadata q) r).

Definition pop_first_value q : option Standard :=
  if size q =? 0 then Some q
  else
    let offset := offset q + 1 in
    if offset <? MAX_LENGTH then
      Some (mkStandard (metadata q) (size q - 1) offset (head q) (tail q) (buffer q))
    else if ChunkList.size (buffer q) =? 0 then
      Some (mkStandard (metadata q) (size q - 1) 0 (tail q) Vector.standard_new (buffer q))
    else
      segment ← ChunkList.get (buffer q) 0;
      head ← segment;
      buffer ← ChunkList.pop_first_value (buffer q);
      Some (mkStandard (metadata q) (size q - 1) 0 head (tail q) buffer).

Definition pop_last_value q : option Standard :=
  if size q =? 0 then Some q
  else if negb (vec_is_empty (tail q)) then
    popped ← Vector.pop_last_value (tail q);
    tail ← popped;
    Some (mkStandard (metadata q) (size q - 1) (offset q) (head q) tail (buffer q))
  else
    match ChunkList.size (buffer q) with
    | O =>
        popped ← Vector.pop_last_value (head q);
        Some (mkStandard (metadata q) (size q - 1) (offset q) (default Vector.standard_new popped) (tail q) (buffer q))
    | S n =>
        segment ← ChunkList.get (buffer q) n;
        tail ← segment;
        buffer ← ChunkList.pop_last_value (buffer q);
        Some (mkStandard (metadata q) (size q - 1) (offset q) (head q) tail buffer)
    end.

Definition standard_eq `{EqDecision E} q1 q2 : option bool :=
  if bool_decide (size q1 = size q2) then
    l1 ← iter q1; l2 ← iter q2; Some (bool_decide (l1 = l2))
  else Some false.

(** ** The transient queue: a cell that is updated in place *)
Record Mutable := mkMutable { value : Standard }.
Definition to_mutable q : Mutable := mkMutable q.
Definition mutable_push_last (m : Mutable) (x : E) : option Mutable := mkMutable <$> push_last (value m) x.
Definition mutable_push_first (m : Mutable) (x : E) : option Mutable := mkMutable <$> push_first (value m) x.
Definition mutable_pop_first (m : Mutable) : option Mutable := mkMutable <$> pop_first_value (value m).
Definition mutable_pop_last (m : Mutable) : option Mutable := mkMutable <$> pop_last_value (value m).
Definition mutable_empty (m : Mutable) : Mutable := mkMutable standard_new.
Definition to_persistent (m : Mutable) : Standard := value m.
End queue.
Arguments Standard E : clear implicits.
Arguments Mutable E : clear implicits.

(** A queue of numbers from 0 on. *)
Definition numbers (n : nat) : Standard nat :=
  match from_iter (seq 0 n) with Some q => q | None => standard_new end.
