(* ===== verification/QueueFacts.v ===== *)
(** * What the queue implements

    [queue_ok] relates a queue to its elements. Every operation implements the
    list's, except removing the last element when the tail is empty and a
    segment is buffered. *)
From S2P Require Import Prelude Kernel Vector VectorFacts ChunkList ChunkListFacts Queue.

Section facts.
Context {E : Type}.
Implicit Types (q : Queue.Standard E) (v : Vector.Standard E) (l : list E).

Lemma vec_size v l : VectorFacts.rep v l → Vector.size v = length l.
Proof. apply s_size. Qed.

Lemma vec_items_ok v l : VectorFacts.rep v l → vec_items v = Some l.
Proof.
  intros Hv. unfold vec_items, Vector.iter. pose proof (vec_size v l Hv) as Hn.
  rewrite (iter_collect_correct v l); [|done|apply ranged_iter_iterates; [done|lia|lia]|].
  - cbn [Vector.ranged_iter Vector.iter_end Vector.iter_index]. rewrite Nat.sub_0_r, drop_0, Hn. by rewrite firstn_all.
  - cbn [Vector.ranged_iter Vector.iter_end Vector.iter_index]. lia.
Qed.

Lemma vec_last_ok v l : VectorFacts.rep v l → l ≠ [] → vec_last v = Some (last l).
Proof.
  intros Hv Hl. unfold vec_last. rewrite (vec_size v l Hv). destruct (length l) eqn:Hn; [by apply nil_length_inv in Hn|].
  by rewrite (rep_get v l), last_lookup, Hn.
Qed.

Lemma vec_push v l x : VectorFacts.rep v l → ∃ v', Vector.push_last v x = Some v' ∧ VectorFacts.rep v' (l ++ [x]).
Proof. intros Hv. destruct (rep_push v l x Hv) as (v' & ? & ? & _). by exists v'. Qed.

Lemma vec_pop v l :
  VectorFacts.rep v l → l ≠ [] →
  ∃ v', Vector.pop_last_value v = Some (Some v') ∧ VectorFacts.rep v' (take (pred (length l)) l).
Proof.
  intros Hv Hl. destruct (rep_pop v l Hv) as ([v'|] & Hp & H); [|done]. exists v'. split; [done|]. apply H.
Qed.

(** The parts a queue stores. *)
Record stored q (front : list E) (segments : list (list E)) (back : list E) : Prop := {
  p_head : VectorFacts.rep (Queue.head q) front;
  p_tail : VectorFacts.rep (Queue.tail q) back;
  p_buffer : ∃ vs, ChunkListFacts.rep (buffer q) vs ∧ Forall2 VectorFacts.rep vs segments;
}.

(** The shape of a queue that has only as many elements as its size. *)
Record queue_parts q (front : list E) (segments : list (list E)) (back : list E) : Prop := {
  p_stored : stored q front segments back;
  p_segments : Forall (λ s, length s = MAX_LENGTH) segments;
  p_front : length front ≤ MAX_LENGTH;
  p_back : length back < MAX_LENGTH;
  p_offset : Queue.offset q ≤ length front ∧ Queue.offset q < MAX_LENGTH;
  p_full : segments ≠ [] ∨ back ≠ [] → length front = MAX_LENGTH;
  p_size : Queue.size q + Queue.offset q = length front + length (concat segments) + length back;
}.

Definition contents q (front : list E) (segments : list (list E)) (back : list E) : list E :=
  drop (Queue.offset q) front ++ concat segments ++ back.

Definition queue_ok q l : Prop :=
  ∃ front segments back, queue_parts q front segments back ∧ l = contents q front segments back.

Lemma queue_size q l : queue_ok q l → Queue.size q = length l.
Proof.
  intros (f & ss & b & Hq & ->). unfold contents. rewrite !length_app, length_drop.
  pose proof (p_size _ _ _ _ Hq). pose proof (p_offset _ _ _ _ Hq). lia.
Qed.

Lemma queue_new : queue_ok Queue.standard_new [].
Proof.
  exists [], [], []. split; [|done]. split; cbn; try done; try (unfold MAX_LENGTH; lia).
  - split; [apply VectorFacts.rep_new..|]. exists []. split; [apply ChunkListFacts.rep_list_new|constructor].
  - by intros [].
Qed.

Lemma segments_length (ss : list (list E)) :
  Forall (λ s, length s = MAX_LENGTH) ss → length (concat ss) = length ss * MAX_LENGTH.
Proof. induction 1 as [|s ss Hs _ IH]; [done|]. cbn [concat length]. rewrite length_app, Hs, IH. lia. Qed.

Lemma buffer_size q f ss b : stored q f ss b → ChunkList.size (buffer q) = length ss.
Proof. intros Hq. destruct (p_buffer _ _ _ _ Hq) as (vs & [_ ->] & Hvs). by eapply Forall2_length. Qed.

Lemma buffer_get q f ss b i s :
  stored q f ss b → ss !! i = Some s →
  ∃ v, ChunkList.get (buffer q) i = Some (Some v) ∧ VectorFacts.rep v s.
Proof.
  intros Hq Hi. destruct (p_buffer _ _ _ _ Hq) as (vs & Hb & Hvs).
  destruct (Forall2_lookup_r _ _ _ _ _ Hvs Hi) as (v & Hv & Hrep). exists v. by rewrite (get_ok _ vs), Hv.
Qed.

Lemma buffer_below q f ss b vs :
  queue_parts q f ss b → Forall2 VectorFacts.rep vs ss → below (contents q f ss b) → below vs.
Proof.
  unfold below, contents. intros Hq Hvs. rewrite !length_app, (segments_length ss) by apply Hq.
  rewrite (Forall2_length _ _ _ Hvs). unfold MAX_LENGTH. lia.
Qed.

(** ** Reading *)
Lemma segments_lookup (ss : list (list E)) (i : nat) :
  Forall (λ s, length s = MAX_LENGTH) ss → i < length ss * MAX_LENGTH →
  ∃ s, ss !! (i / MAX_LENGTH) = Some s ∧ concat ss !! i = s !! (i mod MAX_LENGTH).
Proof.
  intros Hss. assert (MAX_LENGTH ≠ 0) as Hm by done. set (n := MAX_LENGTH) in *. clearbody n.
  revert i. induction Hss as [|s ss Hs _ IH]; intros i Hi; [cbn in Hi; lia|].
  cbn [concat length] in *. destruct (Nat.lt_ge_cases i n) as [Hlt|Hge].
  - exists s. rewrite Nat.div_small, Nat.mod_small by done. split; [done|]. rewrite lookup_app_l by lia. done.
  - destruct (IH (i - n)) as (s' & Hs' & Hc); [lia|]. exists s'.
    replace i with (i - n + 1 * n) by lia. rewrite Nat.div_add, Nat.Div0.mod_add, Nat.add_1_r by done.
    split; [done|]. rewrite lookup_app_r by lia. rewrite <-Hc. f_equal. lia.
Qed.

Lemma stored_get q f ss b i :
  stored q f ss b → Forall (λ s, length s = MAX_LENGTH) ss → length b ≤ MAX_LENGTH → Queue.offset q ≤ length f →
  i < Queue.size q → i < length (contents q f ss b) → Queue.get q i = Some (contents q f ss b !! i).
Proof.
  intros Hq Hss Hb Ho Hi H. unfold Queue.get. rewrite (proj2 (Nat.leb_gt _ _)) by done. unfold contents in *.
  rewrite !length_app, length_drop in H. rewrite (vec_size _ f) by apply Hq.
  destruct (Nat.ltb_spec i (length f - Queue.offset q)) as [H1|H1].
  - rewrite lookup_app_l by (rewrite length_drop; lia). by rewrite (rep_get _ f), lookup_drop by apply Hq.
  - rewrite lookup_app_r by (rewrite length_drop; lia). rewrite length_drop.
    set (j := i - (length f - Queue.offset q)). rewrite (buffer_size q f ss b Hq).
    pose proof (segments_length ss Hss) as Hlen. pose proof (Nat.div_mod j MAX_LENGTH ltac:(done)) as Hj.
    destruct (Nat.ltb_spec (j / MAX_LENGTH) (length ss)) as [H2|H2].
    + assert (j < length ss * MAX_LENGTH) as Hjl.
      { pose proof (Nat.mod_upper_bound j MAX_LENGTH ltac:(done)). nia. }
      destruct (segments_lookup ss j Hss Hjl) as (s & Hs & Hc).
      destruct (buffer_get q f ss b _ s Hq Hs) as (v & -> & Hv). cbn [mbind option_bind].
      rewrite lookup_app_l by lia. by rewrite Hc, (rep_get v s).
    + assert (length ss * MAX_LENGTH ≤ j) as Hjl by nia.
      rewrite lookup_app_r by lia. rewrite (rep_get _ b) by apply Hq. do 2 f_equal. rewrite Hlen.
      replace j with (j - length ss * MAX_LENGTH + length ss * MAX_LENGTH) at 1 by lia.
      rewrite Nat.Div0.mod_add. apply Nat.mod_small. lia.
Qed.

Lemma queue_get q l i : queue_ok q l → Queue.get q i = Some (l !! i).
Proof.
  intros Hq. pose proof (queue_size q l Hq) as Hsize. destruct (Nat.lt_ge_cases i (length l)) as [H|H].
  - destruct Hq as (f & ss & b & Hq & ->). destruct Hq as [Hst Hss Hf Hb [Ho _] _ _].
    apply stored_get; try done; lia.
  - unfold Queue.get. rewrite Hsize, (proj2 (Nat.leb_le _ _)) by done. by rewrite lookup_ge_None_2.
Qed.

Lemma iter_parts q f ss b : stored q f ss b → Queue.iter q = Some (contents q f ss b).
Proof.
  intros Hq. unfold Queue.iter. rewrite (vec_items_ok (Queue.head q) f) by apply Hq. cbn [mbind option_bind].
  destruct (p_buffer _ _ _ _ Hq) as (vs & [Hb Hbs] & Hvs).
  rewrite (drain_ok _ _ vs); [|by apply iter_start|lia]. cbn [mbind option_bind].
  assert (mapM vec_items vs = Some ss) as ->.
  { apply mapM_Some. eapply Forall2_impl; [exact Hvs|]. intros v s. apply vec_items_ok. }
  cbn [mbind option_bind]. by rewrite (vec_items_ok (Queue.tail q) b) by apply Hq.
Qed.

Lemma queue_iter q l : queue_ok q l → Queue.iter q = Some l.
Proof. intros (f & ss & b & Hq & ->). apply iter_parts, Hq. Qed.

(** The head is used up only when nothing is left. *)
Lemma front_open q f ss b : queue_parts q f ss b → contents q f ss b ≠ [] → Queue.offset q < length f.
Proof.
  intros Hq Hne. pose proof (p_offset _ _ _ _ Hq) as [Ho Ho2].
  destruct (decide (Queue.offset q = length f)) as [E0|]; [|lia]. exfalso. apply Hne. unfold contents.
  rewrite drop_ge by lia.
  destruct (decide (ss = [])) as [->|Hs]; [|rewrite (p_full _ _ _ _ Hq) in E0; [lia|by left]].
  destruct (decide (b = [])) as [->|Hb]; [done|rewrite (p_full _ _ _ _ Hq) in E0; [lia|by right]].
Qed.

Lemma nonempty_size q l : queue_ok q l → l ≠ [] → (Queue.size q =? 0) = false.
Proof. intros Hq Hl. rewrite (queue_size q l Hq). by destruct l. Qed.

Lemma queue_peek_first q l : queue_ok q l → Queue.peek_first q = list.head l.
Proof.
  intros Hq. unfold Queue.peek_first. destruct (decide (l = [])) as [->|Hne]; [by rewrite (queue_size q [] Hq)|].
  rewrite (nonempty_size q l) by done. destruct Hq as (f & ss & b & Hq & ->).
  rewrite (rep_get _ f) by apply Hq. pose proof (front_open q f ss b Hq Hne) as Ho. unfold contents.
  destruct (lookup_lt_is_Some_2 f _ Ho) as [x Hx]. by rewrite Hx, (drop_S f x _ Hx).
Qed.

Lemma last_segment (ss : list (list E)) s :
  Forall (λ s, length s = MAX_LENGTH) (ss ++ [s]) → last (concat (ss ++ [s])) = last s ∧ s ≠ [].
Proof.
  intros [_ [Hs _]%Forall_cons]%Forall_app. assert (s ≠ []) as Hne by (intros ->; done). split; [|done].
  rewrite concat_app, last_app. cbn [concat]. rewrite app_nil_r. destruct (last s) eqn:E0; [done|].
  by apply last_None in E0.
Qed.

Lemma queue_peek_last q l : queue_ok q l → Queue.peek_last q = Some (last l).
Proof.
  intros Hq. unfold Queue.peek_last. destruct (decide (l = [])) as [->|Hne]; [by rewrite (queue_size q [] Hq)|].
  rewrite (nonempty_size q l) by done. destruct Hq as (f & ss & b & Hq & ->). unfold vec_is_empty.
  pose proof (front_open q f ss b Hq Hne) as Ho. unfold contents.
  rewrite (vec_size _ b), (buffer_size q f ss b) by apply Hq. destruct (decide (b = [])) as [->|Hb].
  - cbn [length Nat.eqb negb]. rewrite app_nil_r. destruct ss as [|s ss _] using rev_ind.
    + cbn [length concat]. rewrite app_nil_r, (vec_last_ok _ f) by (apply Hq || intros ->; cbn in Ho; lia).
      rewrite !last_lookup, lookup_drop, length_drop. do 2 f_equal. lia.
    + destruct (last_segment ss s) as [Hlast Hs]; [apply Hq|].
      rewrite length_app, Nat.add_1_r. destruct (buffer_get q f (ss ++ [s]) [] (length ss) s (p_stored _ _ _ _ Hq)) as (v & -> & Hv).
      { by rewrite list_lookup_middle. }
      cbn [mbind option_bind]. rewrite (vec_last_ok v s) by done. rewrite last_app, Hlast.
      destruct (last s) eqn:E0; [done|]. by apply last_None in E0.
  - assert ((length b =? 0) = false) as -> by (by destruct b). cbn [negb].
    rewrite (vec_last_ok _ b) by (apply Hq || done). rewrite !last_app.
    destruct (last b) eqn:E0; [done|]. by apply last_None in E0.
Qed.

(** ** Updating *)
Definition yields q l (r : option (Queue.Standard E)) : Prop :=
  ∃ q', r = Some q' ∧ queue_ok q' l ∧ Queue.metadata q' = Queue.metadata q.

Lemma queue_push_last q l x : queue_ok q l → below l → yields q (l ++ [x]) (Queue.push_last q x).
Proof.
  intros (f & ss & b & Hq & ->) Hbelow. unfold Queue.push_last.
  pose proof Hq as [[Hhead Htail (vs & Hbuf & Hvs)] Hss Hf Hb [Ho Ho2] Hfull Hsize].
  destruct (Nat.ltb_spec (Queue.size q) (MAX_LENGTH - Queue.offset q)) as [Hroom|Hfulled].
  - assert (ss = [] ∧ b = []) as [-> ->].
    { split; [destruct ss; [done|]|destruct b; [done|]]; rewrite Hfull in Hsize; cbn [length] in *; try lia; auto. }
    destruct (vec_push _ f x Hhead) as (v & -> & Hv). cbn [mbind option_bind]. eexists. split; [done|]. split; [|done].
    exists (f ++ [x]), [], []. cbn in Hsize. split.
    + split; cbn; rewrite ?length_app; cbn; try done; try lia; [by split; [..|exists vs]|by intros []].
    + unfold contents. cbn. by rewrite !app_nil_r, drop_app_le by lia.
  - assert (length f = MAX_LENGTH) as Hfl.
    { destruct (decide (ss = [])) as [->|]; [|by apply Hfull; left].
      destruct (decide (b = [])) as [->|]; [|by apply Hfull; right]. cbn in Hsize. lia. }
    destruct (vec_push _ b x Htail) as (v & -> & Hv). cbn [mbind option_bind]. rewrite (vec_size v _ Hv), length_app.
    cbn [length]. destruct (Nat.ltb_spec (length b + 1) MAX_LENGTH) as [Hlt|Hge].
    + eexists. split; [done|]. split; [|done]. exists f, ss, (b ++ [x]). split.
      * split; cbn [Queue.head Queue.tail buffer Queue.offset Queue.size]; rewrite ?length_app; cbn [length]; try done; [by split; [..|exists vs]|lia].
      * unfold contents. cbn [Queue.offset]. by rewrite <-!app_assoc.
    + destruct (ChunkListFacts.push_last_ok (buffer q) vs v Hbuf) as (buf & -> & Hbuf' & _).
      { by eapply buffer_below. }
      cbn [mbind option_bind]. eexists. split; [done|]. split; [|done]. exists f, (ss ++ [b ++ [x]]), [].
      split.
      * split; cbn [Queue.head Queue.tail buffer Queue.offset Queue.size]; try done.
        -- split; [done|apply VectorFacts.rep_new|]. exists (vs ++ [v]). split; [done|]. apply Forall2_app; [done|]. constructor; [done|constructor].
        -- apply Forall_app. split; [done|]. repeat constructor. rewrite length_app. cbn [length]. lia.
        -- cbn. unfold MAX_LENGTH. lia.
        -- rewrite concat_app, length_app. cbn [concat length]. rewrite app_nil_r, length_app. cbn [length]. lia.
      * unfold contents. cbn [Queue.offset]. rewrite concat_app. cbn [concat]. by rewrite !app_nil_r, <-!app_assoc.
Qed.

Lemma queue_from_iter l : below l → ∃ q, Queue.from_iter l = Some q ∧ queue_ok q l ∧ Queue.metadata q = None.
Proof.
  intros Hb. unfold Queue.from_iter.
  assert (∀ k q, queue_ok q k → below (k ++ l) → Queue.metadata q = None → ∃ q',
    foldl (λ queue value, q ← queue; Queue.push_last q value) (Some q) l = Some q' ∧ queue_ok q' (k ++ l) ∧
    Queue.metadata q' = None) as H; [|apply (H []); [apply queue_new|done|done]].
  clear Hb. induction l as [|x l IH]; intros k q Hq Hb Hmd; cbn [foldl].
  - exists q. by rewrite app_nil_r.
  - cbn [mbind option_bind]. destruct (queue_push_last q k x Hq) as (q1 & -> & Hq1 & Hmd1); [by apply below_prefix in Hb|].
    destruct (IH (k ++ [x]) q1 Hq1) as (q' & -> & Hq' & Hmd'); [by rewrite <-app_assoc|congruence|].
    exists q'. by rewrite <-app_assoc in Hq'.
Qed.

Lemma queue_push_first q l x : queue_ok q l → below (x :: l) → yields q (x :: l) (Queue.push_first q x).
Proof.
  intros Hq Hb. unfold Queue.push_first. rewrite (queue_iter q l Hq). cbn [mbind option_bind].
  destruct (queue_from_iter (x :: l) Hb) as (q' & -> & (f & ss & b & Hq' & E0) & _). cbn [mbind option_bind].
  eexists. split; [done|]. split; [|done]. exists f, ss, b. split; [|done].
  by destruct Hq' as [[] ? ? ? ? ? ?].
Qed.

Lemma queue_pop_first q l : queue_ok q l → below l → yields q (drop 1 l) (Queue.pop_first_value q).
Proof.
  intros Hq Hb. unfold Queue.pop_first_value.
  destruct (decide (l = [])) as [->|Hne]; [rewrite (queue_size q [] Hq); by exists q|].
  rewrite (nonempty_size q l) by done. destruct Hq as (f & ss & b & Hq & ->).
  pose proof (front_open q f ss b Hq Hne) as Hopen.
  pose proof Hq as [[Hhead Htail (vs & Hbuf & Hvs)] Hss Hf Hbk [Ho Ho2] Hfull Hsize].
  assert (∀ n, n = Queue.offset q + 1 → drop 1 (contents q f ss b) = drop n f ++ concat ss ++ b) as Hdrop.
  { intros n ->. unfold contents. rewrite drop_app_le by (rewrite length_drop; lia). by rewrite drop_drop. }
  destruct (Nat.ltb_spec (Queue.offset q + 1) MAX_LENGTH) as [Hlt|Hge].
  - eexists. split; [done|]. split; [|done]. exists f, ss, b. split; [|by apply Hdrop].
    split; cbn [Queue.head Queue.tail buffer Queue.offset Queue.size]; try done; [by split; [..|exists vs]|lia|lia].
  - assert (Queue.offset q + 1 = MAX_LENGTH ∧ length f = MAX_LENGTH) as [Eo Ef] by lia.
    rewrite (Hdrop MAX_LENGTH), (drop_ge f) by lia. cbn [app].
    rewrite (buffer_size q f ss b (p_stored _ _ _ _ Hq)). destruct ss as [|s ss]; cbn [length Nat.eqb].
    + eexists. split; [done|]. split; [|done]. exists b, [], []. split; [|unfold contents; cbn; by rewrite app_nil_r].
      cbn [concat length] in *.
      split; cbn [Queue.head Queue.tail buffer Queue.offset Queue.size]; try done.
      * split; [done|apply VectorFacts.rep_new|]. by exists vs.
      * lia.
      * cbn. unfold MAX_LENGTH. lia.
      * unfold MAX_LENGTH in *; lia.
      * by intros [].
      * cbn. lia.
    + destruct (buffer_get q f (s :: ss) b 0 s (p_stored _ _ _ _ Hq) eq_refl) as (v & -> & Hv). cbn [mbind option_bind].
      destruct (ChunkListFacts.pop_first_ok (buffer q) vs Hbuf) as (buf & -> & Hbuf' & _). cbn [mbind option_bind].
      eexists. split; [done|]. split; [|done]. exists s, ss, b. apply Forall_cons in Hss as [Hs Hss].
      cbn [concat] in *. rewrite length_app in Hsize.
      split; [|unfold contents; cbn [Queue.offset]; by rewrite drop_0, <-app_assoc].
      split; cbn [Queue.head Queue.tail buffer Queue.offset Queue.size]; try done; try (unfold MAX_LENGTH in *; lia).
      split; [done..|]. exists (drop 1 vs). split; [done|]. inversion Hvs; subst. cbn [drop]. by rewrite drop_0.
Qed.

(** [pop_last_value] removes nothing when the last segment becomes the tail. *)
Definition promotes q : bool := vec_is_empty (Queue.tail q) && negb (ChunkList.size (buffer q) =? 0).

Lemma queue_pop_last q l :
  queue_ok q l → promotes q = false → yields q (take (pred (length l)) l) (Queue.pop_last_value q).
Proof.
  intros Hq Hp. unfold Queue.pop_last_value.
  destruct (decide (l = [])) as [->|Hne]; [rewrite (queue_size q [] Hq); by exists q|].
  rewrite (nonempty_size q l) by done. destruct Hq as (f & ss & b & Hq & ->).
  pose proof (front_open q f ss b Hq Hne) as Hopen. unfold promotes in Hp. unfold vec_is_empty in *.
  rewrite (vec_size _ b), (buffer_size q f ss b) in * by apply Hq.
  pose proof Hq as [[Hhead Htail (vs & Hbuf & Hvs)] Hss Hf Hbk [Ho Ho2] Hfull Hsize].
  destruct (decide (b = [])) as [->|Hb].
  - destruct ss as [|s ss]; [|done]. cbn [length Nat.eqb negb concat] in *.
    destruct (vec_pop _ f Hhead) as (v & -> & Hv); [by intros ->; cbn in Hopen; lia|]. cbn [mbind option_bind default].
    eexists. split; [done|]. split; [|done]. exists (take (pred (length f)) f), [], [].
    assert (length (take (pred (length f)) f) = pred (length f)) as Hl by (rewrite length_take; lia). split.
    + split; cbn [Queue.head Queue.tail buffer Queue.offset Queue.size concat length]; rewrite ?Hl; try done; try lia; [by split; [..|exists vs]|by intros []].
    + unfold contents. cbn [Queue.offset concat]. rewrite !app_nil_r, length_drop, take_drop_commute. f_equal. f_equal. lia.
  - assert ((length b =? 0) = false) as -> by (by destruct b). cbn [negb].
    destruct (vec_pop _ b Htail Hb) as (v & -> & Hv). cbn [mbind option_bind].
    assert (0 < length b) as Hpos by (destruct b; [done|cbn; lia]).
    eexists. split; [done|]. split; [|done]. exists f, ss, (take (pred (length b)) b).
    assert (length (take (pred (length b)) b) = pred (length b)) as Hl by (rewrite length_take; lia). split.
    + split; cbn [Queue.head Queue.tail buffer Queue.offset Queue.size]; rewrite ?Hl; try done; try lia; [by split; [..|exists vs]|].
      intros _. apply Hfull. by right.
    + unfold contents. cbn [Queue.offset]. rewrite !app_assoc, (length_app _ b), take_app_ge by lia. do 2 f_equal. lia.
Qed.
(** *** Removing the last element of a buffered segment *)
Lemma promotes_parts q l :
  queue_ok q l → promotes q = true →
  ∃ f ss s, queue_parts q f (ss ++ [s]) [] ∧ l = contents q f (ss ++ [s]) [] ∧ length f = MAX_LENGTH ∧ length s = MAX_LENGTH.
Proof.
  intros (f & ss & b & Hq & ->) [Ht Hb]%andb_true_iff. unfold vec_is_empty in Ht.
  rewrite (vec_size _ b) in Ht by apply Hq. rewrite (buffer_size q f ss b (p_stored _ _ _ _ Hq)) in Hb.
  assert (b = []) as -> by (by destruct b). destruct ss as [|s ss _] using rev_ind; [done|].
  exists f, ss, s. split; [done|]. split; [done|]. pose proof (p_segments _ _ _ _ Hq) as [_ [Hs _]%Forall_cons]%Forall_app.
  split; [|done]. apply (p_full _ _ _ _ Hq). left. by destruct ss.
Qed.

Lemma promoted q l :
  queue_ok q l → promotes q = true → below l →
  ∃ q' f ss s, Queue.pop_last_value q = Some q' ∧ stored q' f ss s ∧ Queue.offset q' < MAX_LENGTH ∧
    Queue.size q' = pred (length l) ∧ l = contents q' f ss s ∧
    Forall (λ s, length s = MAX_LENGTH) ss ∧ length f = MAX_LENGTH ∧ length s = MAX_LENGTH.
Proof.
  intros Hq Hp Hbelow. pose proof (queue_size q l Hq) as Hsize.
  destruct (promotes_parts q l Hq Hp) as (f & ss & s & Hparts & -> & Hf & Hs).
  pose proof Hparts as [Hst Hss _ _ [_ Ho] _ _]. pose proof Hst as [Hhead Htail (vs & Hbuf & Hvs)].
  unfold Queue.pop_last_value. rewrite (nonempty_size q (contents q f (ss ++ [s]) [])); [|done|].
  2: { unfold contents. rewrite concat_app. cbn [concat]. intros E0. apply (f_equal length) in E0.
       rewrite !length_app in E0. cbn in E0. unfold MAX_LENGTH in *. lia. }
  apply andb_true_iff in Hp as [Ht _]. rewrite Ht. cbn [negb].
  rewrite (buffer_size q f (ss ++ [s]) [] Hst), length_app, Nat.add_1_r.
  destruct (buffer_get q f (ss ++ [s]) [] (length ss) s Hst) as (v & -> & Hv); [by rewrite list_lookup_middle|].
  cbn [mbind option_bind]. destruct (ChunkListFacts.pop_last_ok (buffer q) vs Hbuf) as (buf & -> & Hbuf' & _).
  { by eapply buffer_below. }
  cbn [mbind option_bind]. eexists _, f, ss, s. split; [done|].
  apply Forall2_app_inv_r in Hvs as (vs1 & vs2 & Hvs1 & Hvs2 & ->). inversion Hvs2 as [|v2 ? ? ? _ Hn]; subst.
  inversion Hn; subst. apply Forall_app in Hss as [Hss _].
  rewrite length_app, Nat.add_1_r in Hbuf'. cbn [pred] in Hbuf'. rewrite take_app_length in Hbuf'.
  split_and!; try done.
  - split; [done..|]. by exists vs1.
  - cbn [Queue.size]. rewrite Hsize. lia.
  - unfold contents. cbn [Queue.offset]. rewrite concat_app. cbn [concat]. by rewrite !app_nil_r.
Qed.

(** C32. The queue implements lists: length, both ends, indexing, iteration,
    pushing at both ends, removing the first element, and removing the last
    one unless the tail is empty while a segment is buffered. Nothing panics
    and the metadata is kept. *)
Theorem queue_correct q l :
  queue_ok q l → below l →
  Queue.size q = length l ∧ Queue.iter q = Some l ∧ (∀ i, Queue.get q i = Some (l !! i)) ∧
  Queue.peek_first q = list.head l ∧ Queue.peek_last q = Some (last l) ∧
  (∀ x, yields q (l ++ [x]) (Queue.push_last q x)) ∧
  (∀ x, below (x :: l) → yields q (x :: l) (Queue.push_first q x)) ∧
  yields q (drop 1 l) (Queue.pop_first_value q) ∧
  (promotes q = false → yields q (take (pred (length l)) l) (Queue.pop_last_value q)) ∧
  (∃ q', Queue.from_iter l = Some q' ∧ queue_ok q' l).
Proof.
  intros Hq Hb. split; [by apply queue_size|]. split; [by apply queue_iter|]. split; [intros; by apply queue_get|].
  split; [by apply queue_peek_first|]. split; [by apply queue_peek_last|]. split; [intros; by apply queue_push_last|].
  split; [intros; by apply queue_push_first|]. split; [by apply queue_pop_first|]. split; [intros; by apply queue_pop_last|].
  destruct (queue_from_iter l Hb) as (q' & ? & ? & _). by exists q'.
Qed.

(** Removing the last element when the tail is empty and a segment is
    buffered only shortens the size: iteration still yields the element. After
    one more push the queue yields an element more than its length, and the
    last index answers with the removed element instead of the pushed one. *)
Theorem queue_pop_last_keeps_element q l :
  queue_ok q l → promotes q = true → below l →
  ∃ q', Queue.pop_last_value q = Some q' ∧ Queue.size q' = pred (length l) ∧
    Queue.iter q' = Some l ∧ Queue.peek_last q' = Some (last l) ∧
    ∀ x, ∃ q'', Queue.push_last q' x = Some q'' ∧ Queue.size q'' = length l ∧
      Queue.iter q'' = Some (l ++ [x]) ∧ Queue.get q'' (pred (length l)) = Some (last l) ∧
      Queue.peek_last q'' = Some (Some x).
Proof.
  intros Hq Hp Hb. destruct (promoted q l Hq Hp Hb) as (q' & f & ss & s & Hpop & Hst & Ho & Hsize & -> & Hss & Hf & Hs).
  exists q'. split; [done|]. split; [done|]. split; [by apply iter_parts|].
  pose proof (segments_length ss Hss) as Hlen. pose proof Hst as [Hhead Htail (vs & Hbuf & Hvs)].
  assert (s ≠ []) as Hne by (by intros ->). assert (last (contents q' f ss s) = last s) as Hlast.
  { unfold contents. rewrite !last_app. destruct (last s) eqn:E0; [done|]. by apply last_None in E0. }
  assert (length (contents q' f ss s) = MAX_LENGTH - Queue.offset q' + (length ss * MAX_LENGTH + MAX_LENGTH)) as Hl
    by (unfold contents; rewrite !length_app, length_drop, Hlen, Hf, Hs; lia).
  assert ((Queue.size q' =? 0) = false) as Hne0 by (apply Nat.eqb_neq; unfold MAX_LENGTH in *; lia).
  split.
  { unfold Queue.peek_last, vec_is_empty. rewrite Hne0, (vec_size _ s) by apply Hst. rewrite Hs. cbn [negb Nat.eqb MAX_LENGTH].
    rewrite Hlast. by apply vec_last_ok. }
  intros x. unfold Queue.push_last. rewrite (proj2 (Nat.ltb_ge _ _)) by (unfold MAX_LENGTH in *; lia).
  destruct (vec_push _ s x Htail) as (v & -> & Hv). cbn [mbind option_bind].
  rewrite (vec_size v _ Hv), length_app, Hs. cbn [length]. rewrite (proj2 (Nat.ltb_ge _ _)) by lia.
  destruct (ChunkListFacts.push_last_ok (buffer q') vs v Hbuf) as (buf & -> & Hbuf' & _).
  { unfold below in *. rewrite Hl in Hb. rewrite (Forall2_length _ _ _ Hvs). unfold MAX_LENGTH in *. lia. }
  cbn [mbind option_bind]. eexists. split; [done|]. split; [cbn [Queue.size]; unfold MAX_LENGTH in *; lia|].
  match goal with |- Queue.iter ?q = _ ∧ _ => set (q'' := q) end.
  assert (stored q'' f (ss ++ [s ++ [x]]) []) as Hst''.
  { split; [done|apply VectorFacts.rep_new|]. exists (vs ++ [v]). split; [done|]. apply Forall2_app; [done|].
    constructor; [done|constructor]. }
  split; [|split].
  - rewrite (iter_parts q'' f (ss ++ [s ++ [x]]) []) by done. unfold contents. rewrite concat_app. cbn [concat].
    by rewrite !app_nil_r, <-!app_assoc.
  - unfold Queue.get. cbn [q'' Queue.size Queue.head Queue.offset]. rewrite Hsize.
    rewrite (proj2 (Nat.leb_gt _ _)) by lia. rewrite (vec_size _ f Hhead), Hf.
    rewrite (proj2 (Nat.ltb_ge _ _)) by (unfold MAX_LENGTH in *; lia).
    replace (pred (length (contents q' f ss s)) - (MAX_LENGTH - Queue.offset q'))
      with (pred MAX_LENGTH + length ss * MAX_LENGTH) by (unfold MAX_LENGTH in *; lia).
    rewrite Nat.div_add, Nat.Div0.mod_add by done. rewrite Nat.div_small, Nat.mod_small by (unfold MAX_LENGTH; lia).
    rewrite (buffer_size q'' f (ss ++ [s ++ [x]]) [] Hst''), length_app. cbn [length Nat.add].
    rewrite (proj2 (Nat.ltb_lt _ _)) by lia.
    destruct (buffer_get q'' f (ss ++ [s ++ [x]]) [] (length ss) (s ++ [x]) Hst'') as (w & Hw & Hrep); [by rewrite list_lookup_middle|].
    cbn [buffer] in Hw |- *. rewrite Hw. cbn [mbind option_bind].
    rewrite (rep_get w _ _ Hrep), lookup_app_l, Hlast, last_lookup, Hs by (unfold MAX_LENGTH in *; lia). done.
  - unfold Queue.peek_last. assert ((Queue.size q'' =? 0) = false) as -> by (cbn [q'' Queue.size]; apply Nat.eqb_neq; lia).
    cbn [q'' Queue.tail]. change (vec_is_empty Vector.standard_new) with true. cbn [negb].
    rewrite (buffer_size q'' f (ss ++ [s ++ [x]]) [] Hst''), length_app, Nat.add_1_r.
    destruct (buffer_get q'' f (ss ++ [s ++ [x]]) [] (length ss) (s ++ [x]) Hst'') as (w & Hw & Hrep); [by rewrite list_lookup_middle|].
    rewrite Hw. cbn [mbind option_bind]. rewrite (vec_last_ok w _ Hrep), last_snoc by (by destruct s). done.
Qed.
End facts.

Lemma numbers_ok n : below (seq 0 n) → queue_ok (Queue.numbers n) (seq 0 n).
Proof.
  intros Hb. destruct (queue_from_iter (seq 0 n) Hb) as (q & Hq & Hok & _). unfold Queue.numbers. by rewrite Hq.
Qed.

Lemma numbers_below n : (N.of_nat n < 2 ^ 62)%N → below (seq 0 n).
Proof. unfold below. by rewrite length_seq. Qed.

Lemma queue_correct_witness :
  Queue.peek_last (Queue.numbers 1030) = Some (Some 1029) ∧
  ∃ q, Queue.pop_last_value (Queue.numbers 1030) = Some q ∧ Queue.size q = 1029.
Proof.
  pose proof (numbers_below 1030 ltac:(lia)) as Hb.
  destruct (queue_correct (Queue.numbers 1030) (seq 0 1030) (numbers_ok 1030 Hb) Hb)
    as (_ & _ & _ & _ & Hlast & _ & _ & _ & Hpop & _).
  split; [rewrite Hlast; vm_compute; reflexivity|].
  destruct Hpop as (q & Hq & Hok & _); [vm_compute; reflexivity|]. exists q. split; [exact Hq|].
  rewrite (queue_size q _ Hok). vm_compute. reflexivity.
Defined.

Lemma queue_pop_last_keeps_element_witness :
  promotes (Queue.numbers 2048) = true ∧
  ∃ q, Queue.pop_last_value (Queue.numbers 2048) = Some q ∧ Queue.size q = 2047 ∧ Queue.iter q = Some (seq 0 2048).
Proof.
  pose proof (numbers_below 2048 ltac:(lia)) as Hb.
  assert (promotes (Queue.numbers 2048) = true) as Hp by (vm_compute; reflexivity). split; [exact Hp|].
  destruct (queue_pop_last_keeps_element (Queue.numbers 2048) (seq 0 2048) (numbers_ok 2048 Hb) Hp Hb)
    as (q & Hq & Hs & Hi & _).
  exists q. split; [exact Hq|]. split; [rewrite Hs; vm_compute; reflexivity|exact Hi].
Defined.
