(* ===== verification/Trie.v ===== *)
(** * The persistent trie

    [src/core/rust/src/lang/data/trie.rs]: nodes with a [BTreeMap] from
    characters to children. A key is the list of its characters, a [BTreeMap]
    its list of entries in the order of the keys. *)
From S2P Require Import Prelude Kernel.

(** ** Ordered maps keyed by characters *)
Section btree.
Context {A : Type}.
Implicit Types m : list (N * A).

Fixpoint bt_get (k : N) m : option A :=
  match m with
  | [] => None
  | (k', x) :: m => if (k =? k')%N then Some x else bt_get k m
  end.

Fixpoint bt_insert (k : N) (x : A) m : list (N * A) :=
  match m with
  | [] => [(k, x)]
  | (k', y) :: m' =>
      if (k =? k')%N then (k, x) :: m'
      else if (k <? k')%N then (k, x) :: m
      else (k', y) :: bt_insert k x m'
  end.

Fixpoint bt_remove (k : N) m : list (N * A) :=
  match m with
  | [] => []
  | (k', y) :: m => if (k =? k')%N then m else (k', y) :: bt_remove k m
  end.
End btree.

(** ** Nodes *)
#[warnings="-register-all"]
Inductive Node (V : Type) := mkNode (children : list (N * Node V)) (value : option V).
Arguments mkNode {V} _ _.

Section trie.
Context {V : Type}.
Implicit Types n : Node V.

Definition children n : list (N * Node V) := match n with mkNode children _ => children end.
Definition value n : option V := match n with mkNode _ value => value end.
Definition node_default : Node V := mkNode [] None.

Fixpoint assoc_node n (chars : list N) (x : V) : Node V :=
  match chars with
  | [] => mkNode (children n) (Some x)
  | ch :: chars =>
      let child := default node_default (bt_get ch (children n)) in
      mkNode (bt_insert ch (assoc_node child chars x) (children n)) (value n)
  end.

(** The end of [dissoc_node]: a node that holds nothing is dropped. *)
Definition prune (children : list (N * Node V)) (value : option V) : option (Node V) :=
  if negb (is_some value) && bool_decide (length children = 0) then None else Some (mkNode children value).

Fixpoint dissoc_node n (chars : list N) : option (Node V) :=
  match chars with
  | [] => prune (children n) None
  | ch :: chars =>
      child ← bt_get ch (children n);
      match dissoc_node child chars with
      | Some next => prune (bt_insert ch next (children n)) (value n)
      | None => prune (bt_remove ch (children n)) (value n)
      end
  end.

(** The loop of [get]. *)
Fixpoint node_get n (chars : list N) : option V :=
  match chars with
  | [] => value n
  | ch :: chars => child ← bt_get ch (children n); node_get child chars
  end.

(** The [collect] of [entries]. *)
Fixpoint collect n (prefix : list N) : list (list N * V) :=
  match n with
  | mkNode children value =>
      match value with Some x => [(prefix, x)] | None => [] end ++
      concat (map (λ p, collect p.2 (prefix ++ [p.1])) children)
  end.

(** ** The trie *)
Record Standard := mkStandard { metadata : option Metadata; root : Node V; size : nat }.
Implicit Types t : Standard.

Definition standard_new : Standard := mkStandard None node_default 0.
Definition get t (key : list N) : option V := node_get (root t) key.
Definition assoc_value t (key : list N) (x : V) : Standard :=
  mkStandard (metadata t) (assoc_node (root t) key x)
    (size t + (if is_some (get t key) then 0 else 1)).
Definition dissoc_value t (key : list N) : Standard :=
  if is_some (get t key) then
    mkStandard (metadata t) (default node_default (dissoc_node (root t) key)) (size t - 1)
  else t.
Definition entries t : list (list N * V) := collect (root t) [].
Definition iter t : list (list N) := (entries t).*1.
Definition equality `{EqDecision V} t1 t2 : bool :=
  bool_decide (size t1 = size t2) && forallb (λ p, bool_decide (get t2 p.1 = Some p.2)) (entries t1).

(** ** The transient trie; [None] is a panic *)
Record Mutable := mkMutable { editable : bool; trie : Standard }.
Implicit Types m : Mutable.
Definition to_mutable t : Mutable := mkMutable true t.
Definition check m : option () := if editable m then Some tt else None.
Definition mutable_assoc m (key : list N) (x : V) : option Mutable :=
  check m;; Some (mkMutable (editable m) (assoc_value (trie m) key x)).
Definition mutable_dissoc m (key : list N) : option Mutable :=
  check m;; Some (mkMutable (editable m) (dissoc_value (trie m) key)).
Definition deref m : option Standard := check m;; Some (trie m).
Definition to_persistent m : option (Standard * Mutable) :=
  check m;; Some (trie m, mkMutable false (trie m)).
End trie.
Arguments Standard V : clear implicits.
Arguments Mutable V : clear implicits.
