(* ===== verification/TrieFacts.v ===== *)
(** * Tries implement finite maps

    A well-formed trie has ordered children and no dead branch, so it is
    determined by its lookups. *)
From S2P Require Import Prelude Kernel Trie.

(** ** Ordered maps *)
Section btree.
Context {A : Type}.
Implicit Types m : list (N * A).

Definition keys_sorted m : Prop := StronglySorted (λ a b, (a.1 < b.1)%N) m.

Lemma keys_sorted_cons k x m :
  keys_sorted ((k, x) :: m) ↔ keys_sorted m ∧ ∀ k' y, (k', y) ∈ m → (k < k')%N.
Proof.
  unfold keys_sorted. split.
  - intros [Hs Hx]%StronglySorted_inv. split; [done|]. rewrite Forall_forall in Hx. intros k' y Hin. by apply (Hx (k', y)).
  - intros [Hs Hx]. constructor; [done|]. apply Forall_forall. intros [k' y] Hin. by eapply Hx.
Qed.

Lemma bt_get_elem k x m : keys_sorted m → bt_get k m = Some x ↔ (k, x) ∈ m.
Proof.
  induction m as [|[k' y] m IH]; [by split; [|intros ?%elem_of_nil]|]. intros [Hs Hx]%keys_sorted_cons. cbn [bt_get].
  rewrite elem_of_cons. destruct (N.eqb_spec k k') as [->|Hne].
  - split; [intros [= ->]; by left|]. intros [[= ->]|Hin]; [done|]. apply Hx in Hin. lia.
  - rewrite IH by done. split; [by right|]. intros [[= -> ->]|?]; done.
Qed.

Lemma bt_get_below k m : (∀ k' y, (k', y) ∈ m → (k < k')%N) → bt_get k m = None.
Proof.
  induction m as [|[k' y] m IH]; [done|]. intros H. cbn [bt_get]. destruct (N.eqb_spec k k') as [->|Hne].
  - pose proof (H k' y ltac:(by left)). lia.
  - apply IH. intros k'' z Hin. eapply H. by right.
Qed.

Lemma bt_insert_elem k x m p : p ∈ bt_insert k x m → p = (k, x) ∨ p ∈ m.
Proof.
  induction m as [|[k' y] m IH]; cbn [bt_insert]; [by intros ?%list_elem_of_singleton; left|].
  destruct (k =? k')%N; [|destruct (k <? k')%N]; rewrite ?elem_of_cons; naive_solver.
Qed.

Lemma bt_insert_sorted k x m : keys_sorted m → keys_sorted (bt_insert k x m).
Proof.
  induction m as [|[k' y] m IH]; intros Hm; cbn [bt_insert]; [repeat constructor|].
  pose proof Hm as [Hs Hx]%keys_sorted_cons.
  destruct (N.eqb_spec k k') as [->|Hne]; [by apply keys_sorted_cons|].
  destruct (N.ltb_spec k k') as [Hlt|Hge]; apply keys_sorted_cons; (split; [auto|]).
  - intros k'' z [[= -> ->]|Hin]%elem_of_cons; [done|]. apply Hx in Hin. lia.
  - intros k'' z [[= -> ->]|Hin]%bt_insert_elem; [lia|]. by eapply Hx.
Qed.

Lemma bt_get_insert k x m k' : bt_get k' (bt_insert k x m) = if (k' =? k)%N then Some x else bt_get k' m.
Proof.
  induction m as [|[k1 y] m IH]; cbn [bt_insert bt_get]; [done|].
  destruct (N.eqb_spec k k1) as [->|Hne]; cbn [bt_get]; [by destruct (k' =? k1)%N|].
  destruct (N.ltb_spec k k1); cbn [bt_get]; [done|]. rewrite IH.
  destruct (N.eqb_spec k' k1), (N.eqb_spec k' k); congruence.
Qed.

Lemma bt_remove_elem k m p : p ∈ bt_remove k m → p ∈ m.
Proof.
  induction m as [|[k' y] m IH]; cbn [bt_remove]; [done|].
  destruct (k =? k')%N; rewrite ?elem_of_cons; naive_solver.
Qed.

Lemma bt_remove_sorted k m : keys_sorted m → keys_sorted (bt_remove k m).
Proof.
  induction m as [|[k' y] m IH]; intros Hm; cbn [bt_remove]; [done|]. pose proof Hm as [Hs Hx]%keys_sorted_cons.
  destruct (k =? k')%N; [done|]. apply keys_sorted_cons. split; [auto|].
  intros k'' z Hin%bt_remove_elem. by eapply Hx.
Qed.

Lemma bt_get_remove k m k' :
  keys_sorted m → bt_get k' (bt_remove k m) = if (k' =? k)%N then None else bt_get k' m.
Proof.
  induction m as [|[k1 y] m IH]; intros Hm; cbn [bt_remove bt_get]; [by destruct (k' =? k)%N|].
  apply keys_sorted_cons in Hm as [Hs Hx].
  destruct (N.eqb_spec k k1) as [->|Hne].
  - destruct (N.eqb_spec k' k1) as [E0|]; [rewrite E0; by apply bt_get_below|done].
  - cbn [bt_get]. rewrite IH by done. destruct (N.eqb_spec k' k1), (N.eqb_spec k' k); congruence.
Qed.

Lemma bt_ext m1 m2 : keys_sorted m1 → keys_sorted m2 → (∀ k, bt_get k m1 = bt_get k m2) → m1 = m2.
Proof.
  revert m2. induction m1 as [|[k x] m1 IH]; intros [|[k' x'] m2] H1 H2 H; [done|..].
  - specialize (H k'). cbn in H. by rewrite N.eqb_refl in H.
  - specialize (H k). cbn in H. by rewrite N.eqb_refl in H.
  - pose proof H1 as [Hs1 Hx1]%keys_sorted_cons. pose proof H2 as [Hs2 Hx2]%keys_sorted_cons.
    assert ((k, x) ∈ (k', x') :: m2) as Hk by (apply bt_get_elem; [done|]; rewrite <-H; cbn; by rewrite N.eqb_refl).
    assert ((k', x') ∈ (k, x) :: m1) as Hk' by (apply bt_get_elem; [done|]; rewrite H; cbn; by rewrite N.eqb_refl).
    assert ((k, x) = (k', x')) as [= -> ->].
    { apply elem_of_cons in Hk as [?|Hk]; [done|]. apply elem_of_cons in Hk' as [?|Hk']; [done|].
      apply Hx2 in Hk. apply Hx1 in Hk'. lia. }
    f_equal. apply IH; try done. intros k0. specialize (H k0). cbn in H. destruct (N.eqb_spec k0 k') as [E0|]; [|done].
    rewrite E0. by rewrite !bt_get_below.
Qed.
End btree.

Section trie.
Context {V : Type}.
Implicit Types (n : Node V) (t : Standard V) (m : Mutable V).

Definition live n : Prop := children n ≠ [] ∨ is_Some (value n).

Inductive node_ok : Node V → Prop :=
| node_ok_intro cs v :
    keys_sorted cs → (∀ ch c, (ch, c) ∈ cs → node_ok c) → (∀ ch c, (ch, c) ∈ cs → live c) → node_ok (mkNode cs v).

Lemma node_ok_default : node_ok node_default.
Proof. constructor; [constructor|..]; by intros ?? ?%elem_of_nil. Qed.

Lemma node_ok_child n ch c : node_ok n → bt_get ch (children n) = Some c → node_ok c ∧ live c.
Proof. intros [cs v Hs Hok Hl] Hc%bt_get_elem; [|done]. split; eauto. Qed.

Lemma node_ok_sorted n : node_ok n → keys_sorted (children n).
Proof. by destruct 1. Qed.

Lemma live_key n : node_ok n → live n → ∃ k x, node_get n k = Some x.
Proof.
  induction 1 as [cs v Hs _ IH Hl]. intros [Hne|[x Hx]]; [|by exists [], x]. cbn in Hne.
  destruct cs as [|[ch c] cs]; [done|]. destruct (IH ch c) as (k & x & Hk); [by left|eapply Hl; by left|].
  exists (ch :: k), x. cbn. by rewrite N.eqb_refl.
Qed.

(** A well-formed node is determined by its lookups. *)
Lemma node_canonical n1 n2 : node_ok n1 → node_ok n2 → (∀ k, node_get n1 k = node_get n2 k) → n1 = n2.
Proof.
  intros H1. revert n2. induction H1 as [cs1 v1 Hs1 Hok1 IH Hl1]. intros n2 H2. destruct H2 as [cs2 v2 Hs2 Hok2 Hl2]. intros H.
  f_equal; [|exact (H [])]. apply bt_ext; [done..|]. intros ch.
  assert (∀ k, (bt_get ch cs1 ≫= λ c, node_get c k) = (bt_get ch cs2 ≫= λ c, node_get c k)) as Hch
    by (intros k; exact (H (ch :: k))).
  destruct (bt_get ch cs1) as [c1|] eqn:E1, (bt_get ch cs2) as [c2|] eqn:E2; [| | |done]; cbn in Hch.
  - apply bt_get_elem in E1, E2; [|done..]. f_equal. eapply IH; eauto.
  - apply bt_get_elem in E1; [|done]. destruct (live_key c1) as (k & x & Hk); eauto. rewrite Hch in Hk. done.
  - apply bt_get_elem in E2; [|done]. destruct (live_key c2) as (k & x & Hk); eauto. rewrite <-Hch in Hk. done.
Qed.

(** ** Updates *)
Lemma assoc_live n k x : live (assoc_node n k x).
Proof.
  destruct k as [|ch k]; cbn; [right; by eexists|]. left. cbn. destruct (children n) as [|[ch' c] cs]; [done|].
  cbn [bt_insert]. by destruct (ch =? ch')%N; [|destruct (ch <? ch')%N].
Qed.

Lemma child_ok n ch : node_ok n → node_ok (default node_default (bt_get ch (children n))).
Proof. intros Hn. destruct (bt_get ch (children n)) eqn:E; [by eapply node_ok_child|apply node_ok_default]. Qed.

Lemma insert_child_ok cs v ch c :
  node_ok (mkNode cs v) → node_ok c → live c → node_ok (mkNode (bt_insert ch c cs) v).
Proof.
  intros Hn Hc Hl. inversion Hn as [?? Hs Hok Hlive]; subst. constructor; [by apply bt_insert_sorted|..];
    intros ch' c' [[= -> ->]|Hin]%bt_insert_elem; eauto.
Qed.

Lemma node_assoc_ok n k x : node_ok n → node_ok (assoc_node n k x).
Proof.
  revert n. induction k as [|ch k IH]; intros n Hn; cbn [assoc_node].
  - destruct Hn as [cs v Hs Hok Hl]. by constructor.
  - pose proof (child_ok n ch Hn) as Hc. destruct n as [cs v]. apply insert_child_ok; [done|by apply IH|apply assoc_live].
Qed.

Lemma get_default k : node_get (@node_default V) k = None.
Proof. by destruct k. Qed.

Lemma get_assoc n k x k' :
  node_get (assoc_node n k x) k' = if bool_decide (k' = k) then Some x else node_get n k'.
Proof.
  revert n k'. induction k as [|ch k IH]; intros n [|ch' k']; cbn [assoc_node node_get children value]; [done|done|done|].
  rewrite bt_get_insert. destruct (N.eqb_spec ch' ch) as [->|Hne].
  - cbn [mbind option_bind]. rewrite IH. case_bool_decide as E1; case_bool_decide as E2; try congruence.
    destruct (bt_get ch (children n)); [done|apply get_default].
  - rewrite bool_decide_eq_false_2 by congruence. done.
Qed.

Lemma prune_spec cs (v : option V) :
  match prune cs v with
  | Some n => n = mkNode cs v ∧ live n
  | None => cs = [] ∧ v = None
  end.
Proof.
  unfold prune, live. destruct v as [x|]; cbn [is_some negb andb]; [split; [done|right; by eexists]|].
  case_bool_decide as H; [by apply nil_length_inv in H|]. split; [done|]. left. cbn. by intros ->.
Qed.

Lemma prune_get cs (v : option V) k : node_get (default node_default (prune cs v)) k = node_get (mkNode cs v) k.
Proof. pose proof (prune_spec cs v) as H. destruct (prune cs v) as [n|]; [by destruct H as [-> _]|]. by destruct H as [-> ->]. Qed.

(** Removing a key that is there. *)
Lemma dissoc_spec n k :
  node_ok n → is_Some (node_get n k) →
  (∀ k', node_get (default node_default (dissoc_node n k)) k' = if bool_decide (k' = k) then None else node_get n k') ∧
  (∀ n', dissoc_node n k = Some n' → node_ok n' ∧ live n').
Proof.
  revert n. induction k as [|ch k IH]; intros n Hn Hk; cbn [dissoc_node].
  - split.
    + intros k'. rewrite prune_get. case_bool_decide as E; [by subst|]. by destruct k'.
    + intros n' Hn'. pose proof (prune_spec (children n) None) as Hp. rewrite Hn' in Hp. destruct Hp as [-> Hl].
      split; [|done]. destruct Hn. by constructor.
  - cbn [node_get] in Hk. destruct (bt_get ch (children n)) as [c|] eqn:Hc; [|by destruct Hk]. cbn [mbind option_bind] in *.
    destruct (node_ok_child n ch c Hn Hc) as [Hcok Hcl]. destruct (IH c Hcok Hk) as [Hget Hok].
    assert (∀ cs, (∀ ch', bt_get ch' cs = if (ch' =? ch)%N then dissoc_node c k else bt_get ch' (children n)) →
      ∀ k', node_get (mkNode cs (value n)) k' = if bool_decide (k' = ch :: k) then None else node_get n k') as Hcs.
    { intros cs Hcs [|ch' k']; cbn [node_get children value]; [by rewrite bool_decide_eq_false_2|]. rewrite Hcs.
      destruct (N.eqb_spec ch' ch) as [->|Hne]; [|by rewrite bool_decide_eq_false_2 by congruence].
      rewrite Hc. cbn [mbind option_bind]. specialize (Hget k').
      assert ((dissoc_node c k ≫= λ c, node_get c k') = node_get (default node_default (dissoc_node c k)) k') as ->.
      { destruct (dissoc_node c k); [done|]. by rewrite get_default. }
      rewrite Hget. repeat case_bool_decide; congruence. }
    destruct (dissoc_node c k) as [c'|] eqn:Hd; (split; [intros k'; rewrite prune_get; apply Hcs|]).
    + intros ch'. apply bt_get_insert.
    + intros n' Hn'. pose proof (prune_spec (bt_insert ch c' (children n)) (value n)) as Hp. rewrite Hn' in Hp.
      destruct Hp as [-> Hl]. split; [|done]. destruct (Hok c' eq_refl) as [Hok' Hl']. destruct n as [cs v].
      by apply insert_child_ok.
    + intros ch'. rewrite bt_get_remove by by apply node_ok_sorted. by destruct (ch' =? ch)%N.
    + intros n' Hn'. pose proof (prune_spec (bt_remove ch (children n)) (value n)) as Hp. rewrite Hn' in Hp.
      destruct Hp as [-> Hl]. split; [|done]. destruct Hn as [cs v Hs Hok' Hl']. constructor; [by apply bt_remove_sorted|..];
        intros ch' c'' Hin%bt_remove_elem; eauto.
Qed.

(** ** The entries *)
Lemma elem_of_concat {A} (x : A) ls : x ∈ concat ls ↔ ∃ l, x ∈ l ∧ l ∈ ls.
Proof.
  rewrite list_elem_of_In, in_concat. setoid_rewrite list_elem_of_In. naive_solver.
Qed.

Lemma collect_elem n prefix k x :
  node_ok n → (k, x) ∈ collect n prefix ↔ ∃ k', k = prefix ++ k' ∧ node_get n k' = Some x.
Proof.
  intros Hn. revert prefix k x. induction Hn as [cs v Hs Hok IH Hl]. intros prefix k x. cbn [collect].
  rewrite elem_of_app, elem_of_concat. split.
  - intros [Hin|(l & Hin & Hl')].
    + exists []. rewrite app_nil_r. destruct v as [y|]; [|by apply elem_of_nil in Hin].
      by apply list_elem_of_singleton in Hin as [= -> ->].
    + apply list_elem_of_fmap in Hl' as ([ch c] & -> & Hc). cbn [fst snd] in Hin.
      apply (IH ch c Hc) in Hin as (k' & -> & Hk'). exists (ch :: k'). rewrite <-app_assoc. split; [done|].
      cbn [node_get children]. apply bt_get_elem in Hc; [|done]. by rewrite Hc.
  - intros ([|ch k'] & -> & Hk'); cbn [node_get children value] in Hk'.
    + left. rewrite Hk', app_nil_r. by left.
    + right. destruct (bt_get ch cs) as [c|] eqn:Hc; [|done]. cbn [mbind option_bind] in Hk'.
      apply bt_get_elem in Hc; [|done]. exists (collect c (prefix ++ [ch])). split.
      * apply (IH ch c Hc). exists k'. by rewrite <-app_assoc.
      * apply list_elem_of_fmap. by exists (ch, c).
Qed.

(** The lexicographic order of the keys, by code point. *)
Fixpoint key_lt (k1 k2 : list N) : Prop :=
  match k1, k2 with
  | _, [] => False
  | [], _ :: _ => True
  | c1 :: k1, c2 :: k2 => (c1 < c2)%N ∨ c1 = c2 ∧ key_lt k1 k2
  end.

Lemma key_lt_irrefl k : ¬ key_lt k k.
Proof. induction k as [|c k IH]; cbn; [by intros []|]. intros [?|[_ ?]]; [lia|done]. Qed.

Lemma key_lt_app p k1 k2 : key_lt k1 k2 → key_lt (p ++ k1) (p ++ k2).
Proof. induction p; cbn; auto. Qed.

Definition entries_sorted (l : list (list N * V)) : Prop := StronglySorted (λ a b, key_lt a.1 b.1) l.

Lemma collect_sorted n prefix : node_ok n → entries_sorted (collect n prefix).
Proof.
  intros Hn. revert prefix. induction Hn as [cs v Hs Hok IH Hl]. intros prefix. cbn [collect].
  assert (entries_sorted (concat (map (λ p, collect p.2 (prefix ++ [p.1])) cs))) as Hcs.
  { clear Hl. induction cs as [|[ch c] cs IHcs]; [constructor|]. cbn [map concat].
    pose proof Hs as [Hs' Hlt]%keys_sorted_cons. apply StronglySorted_app. split_and!.
    - intros [k1 x1] [k2 x2] H1 H2. apply collect_elem in H1 as (k' & -> & _); [|by eapply Hok; left].
      apply elem_of_concat in H2 as (l & H2 & Hl). apply list_elem_of_fmap in Hl as ([ch' c'] & -> & Hc').
      apply collect_elem in H2 as (k'' & -> & _); [|by eapply Hok; right]. cbn [fst snd]. rewrite <-!app_assoc.
      apply key_lt_app. left. by eapply Hlt.
    - by eapply IH; left.
    - apply IHcs; [done|..]; intros ch' c' Hin; [eapply Hok|eapply IH]; by right. }
  destruct v as [x|]; [|done]. constructor; [done|]. apply Forall_forall. intros [k y] Hin.
  apply elem_of_concat in Hin as (l & Hin & Hl'). apply list_elem_of_fmap in Hl' as ([ch c] & -> & Hc).
  apply collect_elem in Hin as (k' & -> & _); [|by eapply Hok]. cbn [fst snd].
  rewrite <-app_assoc, <-(app_nil_r prefix) at 1. by apply key_lt_app.
Qed.

Lemma entries_sorted_nodup l : entries_sorted l → NoDup l.*1.
Proof.
  induction 1 as [|[k x] l Hs IH Hx]; cbn; constructor; [|done]. intros ([k' y] & -> & Hin)%list_elem_of_fmap.
  rewrite Forall_forall in Hx. by eapply key_lt_irrefl, (Hx _ Hin).
Qed.

(** ** The trie as a finite map *)
Definition to_map t : gmap (list N) V := list_to_map (entries t).

(** The invariant of the tries the operations make. *)
Record trie_ok t : Prop := {
  ok_root : node_ok (root t);
  ok_size : size t = length (entries t);
}.

Lemma lookup_to_map t k : node_ok (root t) → to_map t !! k = get t k.
Proof.
  intros Hok. apply option_eq. intros x. unfold to_map, get.
  rewrite <-elem_of_list_to_map by by apply entries_sorted_nodup, collect_sorted.
  unfold entries. rewrite collect_elem by done. cbn. naive_solver.
Qed.

Lemma entries_length t : node_ok (root t) → length (entries t) = base.size (to_map t).
Proof.
  intros Hok. unfold to_map. rewrite map_size_list_to_map; [done|]. by apply entries_sorted_nodup, collect_sorted.
Qed.

Lemma new_ok : trie_ok standard_new.
Proof. split; [apply node_ok_default|done]. Qed.

Lemma assoc_value_ok t k x : trie_ok t → trie_ok (assoc_value t k x) ∧ to_map (assoc_value t k x) = <[k:=x]> (to_map t).
Proof.
  intros [Hok Hsize]. assert (node_ok (root (assoc_value t k x))) as Hok' by by apply node_assoc_ok.
  assert (to_map (assoc_value t k x) = <[k:=x]> (to_map t)) as Hmap.
  { apply map_eq. intros k'. rewrite lookup_to_map, lookup_insert, lookup_to_map by done. unfold get. cbn.
    rewrite get_assoc. repeat case_decide || case_bool_decide; congruence. }
  split; [split; [done|]|done]. rewrite entries_length, Hmap by done. cbn [assoc_value size].
  rewrite Hsize, entries_length by done. rewrite map_size_insert, lookup_to_map by done. destruct (get t k); cbn; lia.
Qed.

Lemma dissoc_value_ok t k : trie_ok t → trie_ok (dissoc_value t k) ∧ to_map (dissoc_value t k) = delete k (to_map t).
Proof.
  intros [Hok Hsize]. unfold dissoc_value. destruct (get t k) as [x|] eqn:Hk; cbn [is_some].
  2:{ split; [done|]. rewrite delete_id; [done|]. by rewrite lookup_to_map. }
  destruct (dissoc_spec (root t) k Hok ltac:(by exists x)) as [Hget Hroot].
  set (t' := mkStandard _ _ _). assert (node_ok (root t')) as Hok'.
  { cbn. destruct (dissoc_node (root t) k) eqn:E; [by eapply Hroot|apply node_ok_default]. }
  assert (to_map t' = delete k (to_map t)) as Hmap.
  { apply map_eq. intros k'. rewrite lookup_to_map, lookup_delete, lookup_to_map by done. unfold get at 1. cbn.
    rewrite Hget. repeat case_decide || case_bool_decide; try congruence. done. }
  split; [split; [done|]|done]. rewrite entries_length, Hmap by done. unfold t'; cbn [size].
  rewrite Hsize, entries_length by done. rewrite map_size_delete, lookup_to_map, Hk by done. cbn. lia.
Qed.

Lemma equality_ok `{EqDecision V} t1 t2 :
  trie_ok t1 → trie_ok t2 → equality t1 t2 = true ↔ root t1 = root t2.
Proof.
  intros [Hok1 Hs1] [Hok2 Hs2]. unfold equality. rewrite andb_true_iff, bool_decide_eq_true, forallb_forall. split.
  - intros [Hs H]. apply node_canonical; [done..|]. intros k. change (get t1 k = get t2 k).
    rewrite <-!lookup_to_map by done. f_equal. apply map_subseteq_size_eq.
    + apply map_subseteq_spec. intros k' x Hx. rewrite lookup_to_map in Hx |- * by done.
      rewrite <-lookup_to_map in Hx by done. apply elem_of_list_to_map_2, list_elem_of_In, H in Hx.
      by apply bool_decide_eq_true in Hx.
    + rewrite <-!entries_length by done. lia.
  - intros Hr. assert (entries t1 = entries t2) as He by (unfold entries; by rewrite Hr). split; [by rewrite Hs1, Hs2, He|].
    intros [k x] Hin%list_elem_of_In. apply bool_decide_eq_true. cbn. unfold get. rewrite <-Hr.
    apply collect_elem in Hin as (k' & -> & Hk'); done.
Qed.

Lemma root_map t1 t2 : trie_ok t1 → trie_ok t2 → root t1 = root t2 ↔ to_map t1 = to_map t2.
Proof.
  intros [Hok1 _] [Hok2 _]. split.
  - intros Hr. unfold to_map, entries. by rewrite Hr.
  - intros Hm. apply node_canonical; [done..|]. intros k. change (get t1 k = get t2 k).
    rewrite <-!lookup_to_map by done. by rewrite Hm.
Qed.

(** ** Transient sessions *)
Inductive edit := Edit_assoc (key : list N) (x : V) | Edit_dissoc (key : list N).
Definition run_edit m (e : edit) : option (Mutable V) :=
  match e with Edit_assoc k x => mutable_assoc m k x | Edit_dissoc k => mutable_dissoc m k end.
Definition run_edits : option (Mutable V) → list edit → option (Mutable V) := foldl (λ om e, om ≫= λ m, run_edit m e).
Definition spec_edit (m : gmap (list N) V) (e : edit) : gmap (list N) V :=
  match e with Edit_assoc k x => <[k:=x]> m | Edit_dissoc k => delete k m end.

Lemma session_ok (es : list edit) t :
  trie_ok t → ∃ t', run_edits (Some (to_mutable t)) es = Some (to_mutable t') ∧
    trie_ok t' ∧ to_map t' = foldl spec_edit (to_map t) es.
Proof.
  revert t. induction es as [|[k x|k] es IH]; intros t Ht; [by exists t|..]; cbn.
  - destruct (assoc_value_ok t k x Ht) as [Ht' <-]. by apply (IH (assoc_value t k x)).
  - destruct (dissoc_value_ok t k Ht) as [Ht' <-]. by apply (IH (dissoc_value t k)).
Qed.
End trie.

(** ** The contract *)
Section claims.
Context {V : Type} `{EqDecision V}.
Implicit Types t : Standard V.

(** C35. A trie implements a finite map from strings. Adding and removing a key
    preserve the invariant and act as insertion and deletion on the map, a
    lookup reads the map, the length is the size of the map, and the entries
    are those of the map in lexicographic order of the keys. Two tries are equal by the code's
    comparison exactly when they hold the same entries, and then
    their nodes are the same: no update leaves a dead branch behind. A
    transient session reads as the same updates, and after
    [to_persistent] no operation goes through. *)
Theorem trie_correct t key x :
  trie_ok t →
  trie_ok (V:=V) standard_new ∧ to_map (V:=V) standard_new = ∅ ∧
  (trie_ok (assoc_value t key x) ∧ to_map (assoc_value t key x) = <[key:=x]> (to_map t)) ∧
  (trie_ok (dissoc_value t key) ∧ to_map (dissoc_value t key) = delete key (to_map t)) ∧
  get t key = to_map t !! key ∧
  size t = base.size (to_map t) ∧
  (entries t ≡ₚ map_to_list (to_map t) ∧ entries_sorted (entries t)) ∧
  (∀ t', trie_ok t' → equality t t' = true ↔ to_map t = to_map t') ∧
  (∀ t', trie_ok t' → equality t t' = true ↔ root t = root t') ∧
  (∀ es, ∃ t' frozen,
    (run_edits (Some (to_mutable t)) es ≫= to_persistent) = Some (t', frozen) ∧
    trie_ok t' ∧ to_map t' = foldl spec_edit (to_map t) es ∧
    deref frozen = None ∧ to_persistent frozen = None ∧ ∀ e, run_edit frozen e = None).
Proof.
  intros Ht. pose proof Ht as [Hok Hs]. split; [apply new_ok|]. split; [done|].
  split; [by apply assoc_value_ok|]. split; [by apply dissoc_value_ok|]. split; [by rewrite lookup_to_map|].
  split; [by rewrite Hs, entries_length|]. split.
  { split; [|by apply collect_sorted]. symmetry. apply map_to_list_to_map. by apply entries_sorted_nodup, collect_sorted. }
  split. { intros t' Ht'. rewrite equality_ok by done. by apply root_map. }
  split; [intros t' Ht'; by apply equality_ok|]. intros es. destruct (session_ok es t Ht) as (t' & -> & Ht' & Hm).
  exists t', (mkMutable false t'). split; [done|]. split; [done|]. split; [done|]. by split_and!; [..|intros []].
Qed.

End claims.

Lemma trie_correct_witness :
  let t := assoc_value (assoc_value standard_new [99; 97; 116]%N 1) [99; 97]%N 2 in
  let t' := dissoc_value t [99; 97; 116]%N in
  trie_ok t ∧ size t = 2 ∧ entries t' = [([99; 97]%N, 2)] ∧ to_map t' = delete [99; 97; 116]%N (to_map t).
Proof.
  intros t t'. pose proof (trie_correct (V:=nat) standard_new [99; 97; 116]%N 1 new_ok) as (_ & _ & [H1 _] & _).
  pose proof (trie_correct _ [99; 97]%N 2 H1) as (_ & _ & [H2 _] & _).
  pose proof (trie_correct _ [99; 97; 116]%N 0 H2) as (_ & _ & _ & [_ H3] & _).
  split; [exact H2|]. split; [reflexivity|]. split; [reflexivity|exact H3].
Defined.
