(* ===== verification/Task.v ===== *)
(** * Promises

    [src/core/rust/src/task/promise.rs]: the shared cells behind promises, the
    queue of continuations and the registry of promises to make progress on.
    A promise is an address into a [Store] of cells; the thread-local queues are
    fields of the store. The closures this file makes itself (forwarding to an
    adopting promise, polling and waiting for a source) are data; the closures
    of its callers are arbitrary [script]s over the methods of this file. *)
From S2P Require Import Prelude Kernel.

(** ** Rejections and states *)
Inductive PromiseRejection :=
| RMessage (message : string)
| RValue (value : Value)
| RCancelled (value : Value).

Inductive PromiseState :=
| Pending
| Fulfilled (value : Value)
| Rejected (error : PromiseRejection).

(** [Value::display] of [core/value.rs]. *)
Class Display := display : Value → string.

Definition rejection_value (r : PromiseRejection) : Value :=
  match r with RMessage message => VString message | RValue value | RCancelled value => value end.

Definition rejection_message `{Display} (r : PromiseRejection) : string :=
  match r with RMessage message => message | RValue value | RCancelled value => display value end.

Definition is_cancelled (r : PromiseRejection) : bool :=
  match r with
  | RCancelled _ => true
  | RMessage message => bool_decide (message = "cancelled")
  | RValue _ => false
  end.

(** [PromiseRejection::cancelled]. *)
Definition cancelled : PromiseRejection := RCancelled (VMap
  [(VKeyword "code", VKeyword "task/cancelled");
   (VKeyword "message", VString "cancelled");
   (VKeyword "origin", VKeyword "runtime");
   (VKeyword "retryable", VBool false)]).

Definition is_pending (s : PromiseState) : bool := match s with Pending => true | _ => false end.

Lemma is_pending_spec s : is_pending s = true ↔ s = Pending.
Proof. by destruct s. Qed.
Lemma not_pending_spec s : is_pending s = false ↔ s ≠ Pending.
Proof. by destruct s. Qed.

Module Promise.

(** ** Cells

    Closures made elsewhere are known by a number, which [Host] interprets. *)
Inductive continuation :=
| Forward (destination : N)
| HostContinuation (closure : N).

Inductive progress_fn :=
| FromSource (source : N)
| HostClosure (closure : N).

Record PromiseHooks := mkHooks {
  poller : option progress_fn;
  cooperative_polling : bool;
  waiter : option progress_fn;
  cancel_hook : option N;
}.
Definition hooks_default : PromiseHooks := mkHooks None false None None.

Record PromiseInner := mkInner {
  cell_state : PromiseState;
  continuations : list continuation;
  deferred : option (N * N);
  hooks : PromiseHooks;
  adopted_from : option N;
  progress_registered : bool;
}.
Definition inner_new : PromiseInner := mkInner Pending [] None hooks_default None false.

(** A queued call of a continuation. [origin], the promise it was subscribed
    to, is only there for the statements. *)
Record job := mkJob { origin : N; callee : continuation; argument : PromiseState }.

(** [CONTINUATION_QUEUE], [DRAINING_CONTINUATIONS], [SUBSCRIBED_PROMISES] and
    [PROGRESSING_PROMISES] are thread-local; [clock] is [Instant::now()] in
    nanoseconds. [dropped] are the promises whose last strong reference is
    gone. The last two fields are history for the statements: the
    subscriptions made and the continuations called. *)
Record Store (H : Type) := mkStore {
  promises : gmap N PromiseInner;
  dropped : gset N;
  queue : list job;
  draining : bool;
  subscribed : list N;
  progressing : list N;
  clock : N;
  host : H;
  subscriptions : list (N * continuation);
  called : list job;
}.
Arguments mkStore {H} _ _ _ _ _ _ _ _ _ _.
Arguments promises {H} _.
Arguments dropped {H} _.
Arguments queue {H} _.
Arguments draining {H} _.
Arguments subscribed {H} _.
Arguments progressing {H} _.
Arguments clock {H} _.
Arguments host {H} _.
Arguments subscriptions {H} _.
Arguments called {H} _.

Definition store_new {H} (h : H) : Store H := mkStore ∅ ∅ [] false [] [] 0 h [] [].

(** ** Methods as data

    The methods a closure may call, with the type of what they return.
    [WaitUntil], [Progress] and [Drain] are the loops of this file; [Upgrade] is
    [WeakPromise::upgrade]; [CallHost] calls a function of the callers' own, so
    that their code can loop; [Elapse] and [Release] let time pass and a last
    reference go, at any point. *)
Inductive command : Type → Type :=
| New : command N
| State (p : N) : command PromiseState
| WaitState (p : N) : command PromiseState
| WaitStateTimeout (p timeout : N) : command PromiseState
| WaitUntil (p deadline : N) : command PromiseState
| NotifyCancel (p : N) : command ()
| Cancel (p : N) : command bool
| Schedule (p delay task : N) : command ()
| Resolve (p : N) (value : Value) : command bool
| RejectRejection (p : N) (error : PromiseRejection) : command bool
| OnSettle (p : N) (k : continuation) : command ()
| RegisterProgress (p : N) : command ()
| Adopt (p other : N) : command bool
| SetPoller (p closure : N) : command ()
| SetCooperativePoller (p closure : N) : command ()
| SetWaiter (p closure : N) : command ()
| SetCancelHook (p closure : N) : command ()
| Progress : command ()
| Drain : command ()
| Upgrade (p : N) : command bool
| CallHost (closure : N) : command N
| Elapse (duration : N) : command ()
| Release (p : N) : command ().

(** Code of a caller: reads and writes of its own state, and calls of this
    file's methods, in any finite combination. *)
Inductive script (H A : Type) : Type :=
| Return (result : A)
| Get (k : H → script H A)
| Put (h : H) (k : script H A)
| Invoke {B : Type} (c : command B) (k : B → script H A).
Arguments Return {H A} _.
Arguments Get {H A} _.
Arguments Put {H A} _ _.
Arguments Invoke {H A B} _ _.

Fixpoint script_bind {H A B} (c : script H A) (f : A → script H B) : script H B :=
  match c with
  | Return x => f x
  | Get k => Get (λ h, script_bind (k h) f)
  | Put h c => Put h (script_bind c f)
  | Invoke c k => Invoke c (λ y, script_bind (k y) f)
  end.
#[export] Instance script_mret H : MRet (script H) := λ _, Return.
#[export] Instance script_mbind H : MBind (script H) := λ _ _ f c, script_bind c f.

(** What the numbers of closures stand for. *)
Class Host (H : Type) := {
  on_state : N → PromiseState → script H ();
  on_poll : N → script H ();
  on_wait : N → script H ();
  on_cancel : N → script H ();
  on_task : N → script H (result string Value);
  on_call : N → script H N;
}.

Section promises.
Context {H : Type} `{!Host H}.
Local Abbreviation S' := (Store H).
Implicit Types s : S'.

(** A method on the store; [None] is running out of fuel. *)
Definition op (A : Type) : Type := S' → option (A * S').
#[export] Instance op_ret : MRet op := λ _ x s, Some (x, s).
#[export] Instance op_bind : MBind op :=
  λ _ _ f m s, match m s with Some (x, s') => f x s' | None => None end.
Definition read {A} (f : S' → A) : op A := λ s, Some (f s, s).
Definition write (f : S' → S') : op () := λ s, Some (tt, f s).

(** ** Access to cells *)
Definition cell s (p : N) : PromiseInner := default inner_new (promises s !! p).
Definition raw_state s (p : N) : PromiseState := cell_state (cell s p).

Definition set_cell (p : N) (c : PromiseInner) s : S' :=
  mkStore (<[p := c]> (promises s)) (dropped s) (queue s) (draining s) (subscribed s)
    (progressing s) (clock s) (host s) (subscriptions s) (called s).
Definition update_cell (p : N) (f : PromiseInner → PromiseInner) s : S' :=
  set_cell p (f (cell s p)) s.
Definition with_queue (q : list job) s : S' :=
  mkStore (promises s) (dropped s) q (draining s) (subscribed s) (progressing s) (clock s)
    (host s) (subscriptions s) (called s).
Definition with_draining (b : bool) s : S' :=
  mkStore (promises s) (dropped s) (queue s) b (subscribed s) (progressing s) (clock s)
    (host s) (subscriptions s) (called s).
Definition with_subscribed (l : list N) s : S' :=
  mkStore (promises s) (dropped s) (queue s) (draining s) l (progressing s) (clock s)
    (host s) (subscriptions s) (called s).
Definition with_progressing (l : list N) s : S' :=
  mkStore (promises s) (dropped s) (queue s) (draining s) (subscribed s) l (clock s)
    (host s) (subscriptions s) (called s).
Definition with_clock (t : N) s : S' :=
  mkStore (promises s) (dropped s) (queue s) (draining s) (subscribed s) (progressing s) t
    (host s) (subscriptions s) (called s).
Definition with_host (h : H) s : S' :=
  mkStore (promises s) (dropped s) (queue s) (draining s) (subscribed s) (progressing s)
    (clock s) h (subscriptions s) (called s).
Definition with_dropped (d : gset N) s : S' :=
  mkStore (promises s) d (queue s) (draining s) (subscribed s) (progressing s) (clock s)
    (host s) (subscriptions s) (called s).
(** History: a subscription is recorded when it is stored or queued. *)
Definition subscribe (p : N) (k : continuation) s : S' :=
  mkStore (promises s) (dropped s) (queue s) (draining s) (subscribed s) (progressing s)
    (clock s) (host s) (subscriptions s ++ [(p, k)]) (called s).
Definition call (j : job) s : S' :=
  mkStore (promises s) (dropped s) (queue s) (draining s) (subscribed s) (progressing s)
    (clock s) (host s) (subscriptions s) (called s ++ [j]).

(** [WeakPromise::upgrade]. *)
Definition upgrade s (p : N) : option N := if decide (p ∈ dropped s) then None else Some p.

Definition set_deferred (d : option (N * N)) (c : PromiseInner) : PromiseInner :=
  mkInner (cell_state c) (continuations c) d (hooks c) (adopted_from c) (progress_registered c).
Definition set_hooks (h : PromiseHooks) (c : PromiseInner) : PromiseInner :=
  mkInner (cell_state c) (continuations c) (deferred c) h (adopted_from c) (progress_registered c).
Definition set_adopted_from (q : option N) (c : PromiseInner) : PromiseInner :=
  mkInner (cell_state c) (continuations c) (deferred c) (hooks c) q (progress_registered c).
Definition set_progress_registered (b : bool) (c : PromiseInner) : PromiseInner :=
  mkInner (cell_state c) (continuations c) (deferred c) (hooks c) (adopted_from c) b.
Definition push_continuation (k : continuation) (c : PromiseInner) : PromiseInner :=
  mkInner (cell_state c) (continuations c ++ [k]) (deferred c) (hooks c) (adopted_from c)
    (progress_registered c).

(** [set_poller], [set_cooperative_poller], [set_waiter], [set_cancel_hook]. *)
Definition set_poller (f : progress_fn) (c : PromiseInner) : PromiseInner :=
  set_hooks (mkHooks (Some f) false (waiter (hooks c)) (cancel_hook (hooks c))) c.
Definition set_cooperative_poller (f : progress_fn) (c : PromiseInner) : PromiseInner :=
  set_hooks (mkHooks (Some f) true (waiter (hooks c)) (cancel_hook (hooks c))) c.
Definition set_waiter (f : progress_fn) (c : PromiseInner) : PromiseInner :=
  set_hooks (mkHooks (poller (hooks c)) (cooperative_polling (hooks c)) (Some f)
    (cancel_hook (hooks c))) c.
Definition set_cancel_hook (f : N) (c : PromiseInner) : PromiseInner :=
  set_hooks (mkHooks (poller (hooks c)) (cooperative_polling (hooks c)) (waiter (hooks c))
    (Some f)) c.

(** [Promise::new]. *)
Definition new : op N := λ s,
  let p := fresh (dom (promises s)) in Some (p, set_cell p inner_new s).

(** ** The methods

    [self] is the recursion: the methods call each other, and callers'
    closures, without bound. *)
Section methods.
Variable self : ∀ A : Type, command A → op A.
Arguments self {A} _.

Fixpoint run {A} (c : script H A) : op A :=
  match c with
  | Return x => mret x
  | Get k => λ s, run (k (host s)) s
  | Put h k => write (with_host h);; run k
  | Invoke c k => x ← self c; run (k x)
  end.

(** *** Settling *)

(** [continuation(state)]. The forwarding continuation of [adopt] ignores a
    pending state. *)
Definition call_continuation (j : job) : op () :=
  write (call j);;
  match callee j with
  | Forward destination =>
      match argument j with
      | Fulfilled value => self (Resolve destination value);; mret tt
      | Rejected error => self (RejectRejection destination error);; mret tt
      | Pending => mret tt
      end
  | HostContinuation c => run (on_state c (argument j))
  end.

(** The loop of [enqueue_continuation]. *)
Definition drain : op () :=
  q ← read queue;
  match q with
  | [] => mret tt
  | j :: rest => write (with_queue rest);; call_continuation j;; self Drain
  end.

Definition enqueue_continuation (j : job) : op () :=
  write (λ s, with_queue (queue s ++ [j]) s);;
  busy ← read draining;
  if busy : bool then mret tt
  else write (with_draining true);; self Drain;; write (with_draining false).

(** The block of [settle] under the cell's borrow. *)
Definition take_continuations (p : N) (next : PromiseState) : op (option (list continuation)) :=
  λ s, let c := cell s p in
  if is_pending (cell_state c) then
    Some (Some (continuations c),
          set_cell p (mkInner next [] None hooks_default None (progress_registered c)) s)
  else Some (None, s).

Definition enqueue_all (p : N) (next : PromiseState) : list continuation → op () :=
  fix enqueue_all ks :=
    match ks with
    | [] => mret tt
    | k :: ks => enqueue_continuation (mkJob p k next);; enqueue_all ks
    end.

Definition settle (p : N) (next : PromiseState) : op bool :=
  taken ← take_continuations p next;
  match taken with
  | None => mret false
  | Some ks => enqueue_all p next ks;; mret true
  end.

Definition settle_result (destination : N) (r : result string Value) : op () :=
  match r with
  | Ok (VPromise source) => self (Adopt destination source);; mret tt
  | Ok value => settle destination (Fulfilled value);; mret tt
  | Err error => settle destination (Rejected (RMessage error));; mret tt
  end.

(** *** Reading the state *)
Definition run_deferred_if_ready (p : N) : op () :=
  d ← read (λ s, deferred (cell s p));
  now ← read clock;
  match d with
  | Some (due, task) =>
      if (due <=? now)%N then
        write (update_cell p (set_deferred None));;
        r ← run (on_task task);
        settle_result p r
      else mret tt
  | None => mret tt
  end.

Definition poll (f : option progress_fn) : op () :=
  match f with
  | None => mret tt
  | Some (FromSource source) => self (State source);; mret tt
  | Some (HostClosure c) => run (on_poll c)
  end.

Definition state (p : N) : op PromiseState :=
  run_deferred_if_ready p;;
  f ← read (λ s, poller (hooks (cell s p)));
  poll f;;
  read (λ s, raw_state s p).

(** *** Subscribing *)
Definition register_progress (p : N) : op () := write (λ s,
  let c := cell s p in
  if progress_registered c || negb (is_pending (cell_state c)) then s
  else
    let s := update_cell p (set_progress_registered true) s in
    with_subscribed (subscribed s ++ [p]) s).

Definition on_settle (p : N) (k : continuation) : op () :=
  st ← self (State p);
  if is_pending st then
    write (λ s, subscribe p k (update_cell p (push_continuation k) s));;
    register_progress p
  else write (subscribe p k);; enqueue_continuation (mkJob p k st).

(** *** Adoption *)

(** The walk of [adoption_would_cycle] from [current]. *)
Fixpoint adoption_walk (fuel : nat) (p : N) (seen : gset N) (current : N) s : bool :=
  if decide (p = current) then true
  else if decide (current ∈ seen) then true
  else
    match fuel with
    | O => false
    | S fuel =>
        match adopted_from (cell s current) ≫= upgrade s with
        | Some next => adoption_walk fuel p ({[current]} ∪ seen) next s
        | None => false
        end
    end.

Definition adoption_would_cycle (p source : N) s : bool :=
  adoption_walk (S (size (promises s))) p ∅ source s.

Definition adopt (p other : N) : op bool :=
  cycle ← read (λ s, bool_decide (p = other) || adoption_would_cycle p other s);
  if cycle : bool then settle p (Rejected (RMessage "promise adoption cycle"))
  else
    st ← self (State other);
    match st with
    | Pending =>
        own ← self (State p);
        if negb (is_pending own) then mret false
        else
          write (update_cell p (set_adopted_from (Some other)));;
          write (update_cell p (set_poller (FromSource other)));;
          write (update_cell p (set_waiter (FromSource other)));;
          self (OnSettle other (Forward p));;
          mret true
    | Fulfilled value => settle p (Fulfilled value)
    | Rejected error => settle p (Rejected error)
    end.

(** *** Cancellation and scheduling *)
Definition notify_cancel (p : N) : op () :=
  hook ← read (λ s, cancel_hook (hooks (cell s p)));
  source ← read (λ s, adopted_from (cell s p));
  match hook with Some c => run (on_cancel c) | None => mret tt end;;
  source ← read (λ s, source ≫= upgrade s);
  match source with Some q => self (Cancel q);; mret tt | None => mret tt end.

Definition cancel (p : N) : op bool :=
  st ← read (λ s, raw_state s p);
  if negb (is_pending st) then mret false
  else self (NotifyCancel p);; settle p (Rejected cancelled).

Definition schedule (p delay task : N) : op () :=
  if (delay =? 0)%N then r ← run (on_task task); settle_result p r
  else write (λ s, update_cell p (set_deferred (Some (clock s + delay, task)%N)) s).

(** *** Waiting *)
Definition MILLISECOND : N := 1000000.

(** A promise is polled unless it is being polled already. *)
Definition progress_one (p : N) : op () :=
  busy ← read (λ s, existsb (λ q, bool_decide (upgrade s q = Some p)) (progressing s));
  if busy : bool then mret tt
  else
    write (λ s, with_progressing (progressing s ++ [p]) s);;
    self (State p);;
    write (λ s, with_progressing (take (pred (length (progressing s))) (progressing s)) s).

Definition progress_all : list N → op () :=
  fix progress_all ps :=
    match ps with
    | [] => mret tt
    | p :: ps => progress_one p;; progress_all ps
    end.

Definition still_pending s (p : N) : bool :=
  match upgrade s p with Some p => is_pending (raw_state s p) | None => false end.

Definition progress_subscribed_promises : op () :=
  write (λ s, with_subscribed
    (filter (λ p, still_pending s p = true) (subscribed s)) s);;
  ps ← read (λ s, omap (upgrade s) (subscribed s));
  progress_all ps.

Definition call_waiter (f : progress_fn) : op () :=
  match f with
  | FromSource source => self (WaitState source);; mret tt
  | HostClosure c => run (on_wait c)
  end.

Definition sleep (duration : N) : op () := write (λ s, with_clock (clock s + duration) s).

Definition wait_state (p : N) : op PromiseState :=
  self Progress;;
  st ← self (State p);
  if negb (is_pending st) then mret st
  else
    c ← read (λ s, cell s p);
    now ← read clock;
    let pollable := cooperative_polling (hooks c) && is_some (poller (hooks c)) in
    let delay := (λ d : N * N, (d.1 - now)%N) <$> deferred c in
    match (if pollable then None else waiter (hooks c)) with
    | Some w => call_waiter w;; self Progress;; self (State p)
    | None =>
        if negb (is_some delay) && negb (pollable && is_some (waiter (hooks c))) then mret st
        else
          sleep (N.min (default MILLISECOND delay) MILLISECOND);;
          self (WaitState p)
    end.

(** The loop of [wait_state_timeout]. *)
Definition wait_until (p deadline : N) : op PromiseState :=
  self Progress;;
  st ← self (State p);
  now ← read clock;
  if negb (is_pending st) || (deadline <=? now)%N then mret st
  else
    sleep (N.min (deadline - now) MILLISECOND);;
    self (WaitUntil p deadline).

Definition wait_state_timeout (p timeout : N) : op PromiseState :=
  self Progress;;
  now ← read clock;
  self (WaitUntil p (now + timeout)%N).

Definition method {A} (c : command A) : op A :=
  match c in command A return op A with
  | New => new
  | State p => state p
  | WaitState p => wait_state p
  | WaitStateTimeout p timeout => wait_state_timeout p timeout
  | WaitUntil p deadline => wait_until p deadline
  | NotifyCancel p => notify_cancel p
  | Cancel p => cancel p
  | Schedule p delay task => schedule p delay task
  | Resolve p value => settle p (Fulfilled value)
  | RejectRejection p error => settle p (Rejected error)
  | OnSettle p k => on_settle p k
  | RegisterProgress p => register_progress p
  | Adopt p other => adopt p other
  | SetPoller p c => write (update_cell p (set_poller (HostClosure c)))
  | SetCooperativePoller p c => write (update_cell p (set_cooperative_poller (HostClosure c)))
  | SetWaiter p c => write (update_cell p (set_waiter (HostClosure c)))
  | SetCancelHook p c => write (update_cell p (set_cancel_hook c))
  | Progress => progress_subscribed_promises
  | Drain => drain
  | Upgrade p => read (λ s, is_some (upgrade s p))
  | CallHost c => run (on_call c)
  | Elapse d => sleep d
  | Release p => write (λ s, with_dropped ({[p]} ∪ dropped s) s)
  end.
End methods.

(** A method call nests to depth [fuel] at most. *)
Fixpoint perform (fuel : nat) {A} (c : command A) : op A :=
  match fuel with
  | O => λ _, None
  | S fuel => method (λ A, perform fuel (A:=A)) c
  end.

Definition perform_script (fuel : nat) {A} (c : script H A) : op A :=
  run (λ A, perform fuel (A:=A)) c.
End promises.

End Promise.
