(* ===== verification/Promises.v ===== *)
(** * What promises guarantee

    The claims about [Task]: settling is final, every continuation is called
    exactly once, an adopting promise never outlives its source's settlement,
    and when the check for adoption cycles is exact - for arbitrary code of the
    callers, nested to any depth. *)
From S2P Require Import Prelude Kernel Task.
Import Promise.

Create HintDb promise discriminated.

(** ** A calculus of preserved relations

    [R s s'] relates the store before and after a method. *)
Section keeping.
Context {H : Type} `{!Host H}.
Implicit Types s : Store H.
Local Abbreviation op := (op (H:=H)).

(** What the relations below do not look at may change freely. *)
Record same_core (s s' : Store H) : Prop := {
  sc_state p : cell_state (cell s' p) = cell_state (cell s p);
  sc_continuations p : continuations (cell s' p) = continuations (cell s p);
  sc_adopted p : adopted_from (cell s' p) = adopted_from (cell s p);
  sc_queue : queue s' = queue s;
  sc_draining : draining s' = draining s;
  sc_progressing : progressing s' = progressing s;
  sc_subscriptions : subscriptions s' = subscriptions s;
  sc_called : called s' = called s;
  sc_dropped : dropped s ⊆ dropped s';
}.

Lemma cell_set_cell p c q s :
  cell (set_cell p c s) q = if decide (q = p) then c else cell s q.
Proof.
  unfold cell, set_cell. cbn. case_decide as Hq; [subst; by rewrite lookup_insert_eq|].
  by rewrite lookup_insert_ne.
Qed.

Lemma same_core_update p f s :
  cell_state (f (cell s p)) = cell_state (cell s p) →
  continuations (f (cell s p)) = continuations (cell s p) →
  adopted_from (f (cell s p)) = adopted_from (cell s p) →
  same_core s (update_cell p f s).
Proof.
  intros Hst Hk Ha. split; try done; intros q; unfold update_cell; rewrite cell_set_cell;
    case_decide as Hq; by subst.
Qed.

Lemma new_spec s p s' :
  new s = Some (p, s') → (p ∉ dom (promises s)) ∧ (∀ q, cell s' q = cell s q).
Proof.
  intros [= <- <-]. pose proof (is_fresh (dom (promises s))) as Hf. split; [done|].
  intros q. rewrite cell_set_cell. case_decide as Hq; [|done]. subst. unfold cell.
  apply not_elem_of_dom in Hf. by rewrite Hf.
Qed.

(** What [method] calls of its own accord: everything but a subscription of a
    caller's closure and a function of the callers. *)
Definition internal {A} (c : command A) : Prop :=
  match c with OnSettle _ (HostContinuation _) | CallHost _ => False | _ => True end.

(** The closures of the callers, but for continuations. *)
Inductive body : ∀ A, script H A → Prop :=
| body_poll c : body () (on_poll c)
| body_wait c : body () (on_wait c)
| body_cancel c : body () (on_cancel c)
| body_task c : body _ (on_task c)
| body_call c : body N (on_call c).
#[local] Hint Constructors body : core.

Section relation.
Variable R : relation (Store H).
Context `{!PreOrder R}.

Definition keeps {A} (o : op A) : Prop := ∀ s x s', o s = Some (x, s') → R s s'.

Lemma keeps_ret {A} (x : A) : keeps (mret x).
Proof. intros s y s' [= <- <-]. reflexivity. Qed.
Lemma keeps_bind {A B} (o : op A) (k : A → op B) :
  keeps o → (∀ x, keeps (k x)) → keeps (o ≫= k).
Proof.
  unfold mbind, op_bind. intros Ho Hk s y s'. destruct (o s) as [[x s1]|] eqn:E; [|done].
  intros Hs. etrans; [by eapply Ho|by eapply Hk].
Qed.
Lemma keeps_read {A} (f : Store H → A) : keeps (read f).
Proof. intros s y s' [= <- <-]. reflexivity. Qed.
Lemma keeps_write (f : Store H → Store H) : (∀ s, R s (f s)) → keeps (write f).
Proof. intros Hf s y s' [= <- <-]. apply Hf. Qed.

(** A change that neither [same_core] nor the callers' state sees. *)
Hypothesis R_quiet : ∀ s s', same_core s s' → host s' = host s → R s s'.

Lemma keeps_core (f : Store H → Store H) : (∀ s, same_core s (f s) ∧ host (f s) = host s) → keeps (write f).
Proof. intros Hf. apply keeps_write. intros s. by apply R_quiet; apply Hf. Qed.

Lemma keeps_update p f :
  (∀ c, cell_state (f c) = cell_state c ∧ continuations (f c) = continuations c ∧
        adopted_from (f c) = adopted_from c) →
  keeps (write (update_cell p f)).
Proof. intros Hf. apply keeps_core. intros s. split; [|done]. by apply same_core_update; apply Hf. Qed.

Lemma keeps_new : keeps new.
Proof.
  intros s p s' Hn. apply R_quiet; [|by injection Hn as <- <-]. pose proof (new_spec _ _ _ Hn) as [_ Hc].
  injection Hn as <- <-. split; try done; by intros q; rewrite Hc.
Qed.

(** The recursion keeps [R] on the commands that are allowed, and so do the
    closures of the callers. *)
Variable allowed : ∀ A, command A → Prop.
Hypothesis allowed_internal : ∀ A (c : command A), internal c → allowed A c.
Variable self : ∀ A : Type, command A → op A.
Hypothesis self_keeps : ∀ A c, allowed A c → keeps (self A c).
Hypothesis body_keeps : ∀ A c, body A c → keeps (run self c).

Hypothesis settle_keeps : ∀ p next, next ≠ Pending → keeps (settle self p next).

Lemma keeps_when {A} (b : bool) (o o' : op A) : keeps o → keeps o' → keeps (if b then o else o').
Proof. by destruct b. Qed.

Local Ltac keep :=
  repeat first
    [ assumption | apply keeps_ret | apply keeps_read | apply self_keeps, allowed_internal; exact I
    | apply body_keeps; by constructor
    | apply settle_keeps; discriminate | apply keeps_when
    | apply keeps_bind; [|intros ?] | apply keeps_update; intros ?; by split_and?
    | apply keeps_core; by (intros s; split) | match goal with |- keeps (match ?x with _ => _ end) => destruct x end ].

Lemma keeps_settle_result p r : keeps (settle_result self p r).
Proof. unfold settle_result. keep. Qed.

Lemma keeps_state p : keeps (state self p).
Proof.
  unfold state, run_deferred_if_ready, poll. keep. apply keeps_settle_result.
Qed.

Lemma keeps_register_progress p : keeps (register_progress p).
Proof.
  apply keeps_core. intros s. cbv beta zeta. case_match; [done|]. split; [|done].
  destruct (same_core_update p (set_progress_registered true) s); [done..|]. by split.
Qed.

Lemma keeps_notify_cancel p : keeps (notify_cancel self p).
Proof. unfold notify_cancel. keep. Qed.
Lemma keeps_cancel p : keeps (cancel self p).
Proof. unfold cancel. keep. Qed.

Lemma keeps_schedule p delay task : keeps (schedule self p delay task).
Proof.
  unfold schedule. keep; [apply keeps_settle_result|].
  apply keeps_core. intros s. split; [|done]. by apply (same_core_update p (set_deferred _)).
Qed.

Lemma keeps_wait_state p : keeps (wait_state self p).
Proof. unfold wait_state, call_waiter, sleep. keep. Qed.
Lemma keeps_wait_until p deadline : keeps (wait_until self p deadline).
Proof. unfold wait_until, sleep. keep. Qed.
Lemma keeps_wait_state_timeout p timeout : keeps (wait_state_timeout self p timeout).
Proof. unfold wait_state_timeout. keep. Qed.

Hypothesis progress_keeps : ∀ p, keeps (progress_one self p).
Lemma keeps_progress : keeps (progress_subscribed_promises self).
Proof.
  unfold progress_subscribed_promises. keep.
  match goal with |- keeps (progress_all self ?l) => induction l as [|p l IH] end; cbn.
  - apply keeps_ret.
  - apply keeps_bind; [apply progress_keeps|done].
Qed.

Hypothesis on_settle_keeps : ∀ p k, allowed _ (OnSettle p k) → keeps (on_settle self p k).
Hypothesis adopt_keeps : ∀ p q, keeps (adopt self p q).
Hypothesis drain_keeps : keeps (drain self).

Lemma keeps_method {A} (c : command A) : allowed A c → keeps (method self c).
Proof.
  intros Hc. destruct c; cbn [method]; unfold sleep;
    eauto using keeps_new, keeps_state, keeps_wait_state, keeps_wait_state_timeout,
      keeps_wait_until, keeps_notify_cancel, keeps_cancel, keeps_schedule, keeps_register_progress,
      keeps_progress; keep.
  apply keeps_core. intros s. split; [|done]. split; try done. cbn. set_solver.
Qed.

(** Any code keeps a relation that does not look at the callers' state. *)
Lemma keeps_run {A} (c : script H A) :
  (∀ s h, R s (with_host h s)) → (∀ A c, keeps (self A c)) → keeps (run self c).
Proof.
  intros Hh Hself. induction c as [x|k IH|h k IH|B c k IH]; cbn [run].
  - apply keeps_ret.
  - intros s y s'. apply IH.
  - apply keeps_bind; [|done]. by apply keeps_write.
  - apply keeps_bind; [apply Hself|done].
Qed.
End relation.

(** The methods whose effect a relation has to account for, and the closures
    of the callers; [allowed] are the commands it covers. *)
Record KeptBy (allowed : ∀ A, command A → Prop) (R : relation (Store H)) : Prop := {
  by_preorder :: PreOrder R;
  by_internal A (c : command A) : internal c → allowed A c;
  by_quiet s s' : same_core s s' → host s' = host s → R s s';
  by_body fuel A (c : script H A) : (∀ A c, allowed A c → keeps R (perform fuel (A:=A) c)) →
    body A c → keeps R (run (λ A, perform fuel (A:=A)) c);
  by_progress fuel p : (∀ A c, allowed A c → keeps R (perform fuel (A:=A) c)) →
    keeps R (progress_one (λ A, perform fuel (A:=A)) p);
  by_settle fuel p next : (∀ A c, allowed A c → keeps R (perform fuel (A:=A) c)) → next ≠ Pending →
    keeps R (settle (λ A, perform fuel (A:=A)) p next);
  by_on_settle fuel p k : (∀ A c, allowed A c → keeps R (perform fuel (A:=A) c)) →
    allowed _ (OnSettle p k) → keeps R (on_settle (λ A, perform fuel (A:=A)) p k);
  by_adopt fuel p q : (∀ A c, allowed A c → keeps R (perform fuel (A:=A) c)) →
    (∀ next, next ≠ Pending → keeps R (settle (λ A, perform fuel (A:=A)) p next)) →
    keeps R (adopt (λ A, perform fuel (A:=A)) p q);
  by_drain fuel : (∀ A c, allowed A c → keeps R (perform fuel (A:=A) c)) →
    keeps R (drain (λ A, perform fuel (A:=A)));
}.

Lemma perform_keeps_by allowed R fuel A (c : command A) :
  KeptBy allowed R → allowed A c → keeps R (perform fuel c).
Proof.
  intros K. pose proof (by_preorder _ _ K). revert A c.
  induction fuel as [|fuel IH]; intros A c Hc; [by intros s x s'|]. cbn [perform].
  refine (keeps_method R (by_quiet _ _ K) allowed (by_internal _ _ K) _ IH _ _ _ _ _ _ c Hc);
    intros; [by apply (by_body _ _ K)|by apply (by_settle _ _ K)|by apply (by_progress _ _ K)
    |by apply (by_on_settle _ _ K)| |by apply (by_drain _ _ K)].
  apply (by_adopt _ _ K); [exact IH|]. intros. by apply (by_settle _ _ K).
Qed.

(** Relations that do not look at the callers' state cover every command. *)
Record Kept (R : relation (Store H)) : Prop := {
  kept_preorder :: PreOrder R;
  kept_core s s' : same_core s s' → R s s';
  kept_progress fuel p : (∀ A c, keeps R (perform fuel (A:=A) c)) →
    keeps R (progress_one (λ A, perform fuel (A:=A)) p);
  kept_settle fuel p next : (∀ A c, keeps R (perform fuel (A:=A) c)) → next ≠ Pending →
    keeps R (settle (λ A, perform fuel (A:=A)) p next);
  kept_on_settle fuel p k : (∀ A c, keeps R (perform fuel (A:=A) c)) →
    keeps R (on_settle (λ A, perform fuel (A:=A)) p k);
  kept_adopt fuel p q : (∀ A c, keeps R (perform fuel (A:=A) c)) →
    (∀ next, next ≠ Pending → keeps R (settle (λ A, perform fuel (A:=A)) p next)) →
    keeps R (adopt (λ A, perform fuel (A:=A)) p q);
  kept_drain fuel : (∀ A c, keeps R (perform fuel (A:=A) c)) →
    keeps R (drain (λ A, perform fuel (A:=A)));
}.

Lemma with_host_core s h : same_core s (with_host h s).
Proof. by split. Qed.

Lemma Kept_by R : Kept R → KeptBy (λ _ _, True) R.
Proof.
  intros [Hp Hc H1 H2 H3 H4 H5]. split; try done; intros; try by auto.
  apply keeps_run; [done|intros; apply Hc, with_host_core|auto].
Qed.

Lemma perform_keeps R fuel A (c : command A) : Kept R → keeps R (perform fuel c).
Proof. intros K. by apply (perform_keeps_by (λ _ _, True)); [apply Kept_by|]. Qed.

Lemma perform_script_keeps R fuel A (c : script H A) : Kept R → keeps R (perform_script fuel c).
Proof.
  intros K. pose proof (kept_preorder _ K).
  apply keeps_run; [done|intros; by apply K, with_host_core|]. intros B c'. by apply perform_keeps.
Qed.

(** A relation that is kept from [same_core] on does not see quiet changes. *)
Lemma core_quiet (R : relation (Store H)) :
  (∀ s s', same_core s s' → R s s') → ∀ s s', same_core s s' → host s' = host s → R s s'.
Proof. auto. Qed.
Lemma core_host (R : relation (Store H)) : (∀ s s', same_core s s' → R s s') → ∀ s h, R s (with_host h s).
Proof. intros Hc s h. by apply Hc, with_host_core. Qed.

(** ** What the methods return *)
Lemma bind_some {A B} (o : op A) (k : A → op B) s y s' :
  (o ≫= k) s = Some (y, s') ↔ ∃ x s1, o s = Some (x, s1) ∧ k x s1 = Some (y, s').
Proof. unfold mbind, op_bind. destruct (o s) as [[x s1]|]; naive_solver. Qed.

Lemma perform_state fuel p s st s' : perform fuel (State p) s = Some (st, s') → st = raw_state s' p.
Proof.
  destruct fuel as [|fuel]; [done|]. cbn [perform method]. unfold state.
  intros (? & ? & _ & (? & ? & _ & (? & ? & _ & [= <- <-])%bind_some)%bind_some)%bind_some. done.
Qed.

Lemma perform_drain fuel s x s' : perform fuel Drain s = Some (x, s') → queue s' = [].
Proof.
  revert s. induction fuel as [|fuel IH]; intros s; [done|]. cbn [perform method]. unfold drain.
  intros (q & s1 & [= <- <-] & Hs)%bind_some. destruct (queue s) as [|j rest] eqn:Hq.
  - by injection Hs as <- <-.
  - apply bind_some in Hs as (? & ? & _ & (? & ? & _ & Hs)%bind_some). by eapply IH.
Qed.

Lemma take_continuations_spec p next s taken s' :
  take_continuations p next s = Some (taken, s') →
  (raw_state s p = Pending ∧ taken = Some (continuations (cell s p)) ∧
   s' = set_cell p (mkInner next [] None hooks_default None (progress_registered (cell s p))) s) ∨
  (raw_state s p ≠ Pending ∧ taken = None ∧ s' = s).
Proof.
  unfold take_continuations, raw_state. destruct (is_pending _) eqn:Hp; intros [= <- <-].
  - left. by apply is_pending_spec in Hp.
  - right. by apply not_pending_spec in Hp.
Qed.
End keeping.

(** ** Fuel

    A method that returns does so with any more fuel, with the same result. *)
Section fuel.
Context {H : Type} `{!Host H}.
Implicit Types s : Store H.

Definition extends {A} (o o' : Promise.op (H:=H) A) : Prop := ∀ s r, o s = Some r → o' s = Some r.

Lemma extends_refl {A} (o : Promise.op A) : extends o o.
Proof. by intros s r. Qed.
#[local] Hint Resolve extends_refl : core.
Lemma extends_bind {A B} (o o' : Promise.op A) (k k' : A → Promise.op B) :
  extends o o' → (∀ x, extends (k x) (k' x)) → extends (o ≫= k) (o' ≫= k').
Proof.
  intros Ho Hk s [y s'] (x & s1 & Hx & Hy)%bind_some. apply bind_some. exists x, s1.
  split; [by apply Ho|by apply Hk].
Qed.
Lemma extends_when {A} (b : bool) (o1 o1' o2 o2' : Promise.op A) :
  extends o1 o1' → extends o2 o2' → extends (if b then o1 else o2) (if b then o1' else o2').
Proof. by destruct b. Qed.

Section methods.
Variables self self' : ∀ A : Type, command A → Promise.op (H:=H) A.
Hypothesis self_extends : ∀ A c, extends (self A c) (self' A c).

Lemma extends_run {A} (c : script H A) : extends (run self c) (run self' c).
Proof.
  induction c as [x|k IH|h k IH|B c k IH]; cbn [run]; [done| | |].
  - intros s r. apply IH.
  - apply extends_bind; [done|by intros].
  - apply extends_bind; [apply self_extends|done].
Qed.

Local Ltac extend_with known :=
  repeat first
    [ known | apply extends_refl | apply self_extends | apply extends_run | apply extends_when
    | apply extends_bind; [|intros ?]
    | match goal with |- extends (match ?x with _ => _ end) _ => destruct x end ].

Lemma extends_enqueue j : extends (enqueue_continuation self j) (enqueue_continuation self' j).
Proof. unfold enqueue_continuation. extend_with ltac:(apply extends_refl). Qed.

Lemma extends_settle p next : extends (settle self p next) (settle self' p next).
Proof.
  apply extends_bind; [apply extends_refl|intros [ks|]]; [|apply extends_refl].
  apply extends_bind; [|intros; apply extends_refl].
  induction ks as [|k ks IH]; cbn; [done|]. apply extends_bind; [apply extends_enqueue|done].
Qed.

Lemma extends_settle_result p r : extends (settle_result self p r) (settle_result self' p r).
Proof. unfold settle_result. extend_with ltac:(apply extends_settle). Qed.

Lemma extends_progress : extends (progress_subscribed_promises self) (progress_subscribed_promises self').
Proof.
  unfold progress_subscribed_promises.
  apply extends_bind; [apply extends_refl|intros _]. apply extends_bind; [apply extends_refl|intros l].
  induction l as [|p l IH]; cbn; [done|]. apply extends_bind; [|done].
  unfold progress_one. extend_with ltac:(apply extends_refl).
Qed.

Lemma extends_method {A} (c : command A) : extends (method self c) (method self' c).
Proof.
  destruct c; cbn [method]; try done;
    unfold state, wait_state, wait_state_timeout, wait_until, notify_cancel, cancel, schedule,
      on_settle, adopt, drain, call_continuation, run_deferred_if_ready, poll, call_waiter;
    cbv zeta;
    extend_with ltac:(first [apply extends_settle | apply extends_settle_result
      | apply extends_enqueue | apply extends_progress]).
Qed.
End methods.

Lemma perform_more n m A (c : command A) s r :
  n ≤ m → perform n c s = Some r → perform m c s = Some r.
Proof.
  intros Hnm. revert m A c s r Hnm. induction n as [|n IH]; intros m A c s r Hnm; [done|].
  destruct m as [|m]; [lia|]. cbn [perform]. apply extends_method. intros B c' s' r'. apply IH. lia.
Qed.
End fuel.

Ltac kbind := refine (keeps_bind _ _ _ _ _).
Ltac kret := refine (keeps_ret _ _).
Ltac kread := refine (keeps_read _ _).

(** ** Settling is final *)
Section finality.
Context {H : Type} `{!Host H}.
Implicit Types s : Store H.

Record stays_settled s s' : Prop := {
  ss_state p : raw_state s p ≠ Pending → raw_state s' p = raw_state s p;
  ss_dropped : dropped s ⊆ dropped s';
}.

#[local] Instance stays_settled_preorder : PreOrder stays_settled.
Proof.
  split; [by split|]. intros s1 s2 s3 [H12 Hd12] [H23 Hd23]. split; [|by etrans].
  intros p Hp. rewrite <-(H12 p Hp). apply H23. by rewrite H12.
Qed.

Lemma stays_settled_core s s' : same_core s s' → stays_settled s s'.
Proof. intros Hc. split; [intros p _; apply Hc|apply Hc]. Qed.

(** Everything but the cells is irrelevant here. *)
Lemma stays_settled_cells (f : Store H → Store H) :
  (∀ s, promises (f s) = promises s ∧ dropped (f s) = dropped s) → keeps stays_settled (write f).
Proof.
  intros Hf. apply keeps_write. intros s. destruct (Hf s) as [Hp Hd]. split; [|by rewrite Hd].
  intros p _. unfold raw_state, cell. by rewrite Hp.
Qed.

Lemma stays_settled_update p f :
  (∀ c, cell_state (f c) = cell_state c) → keeps stays_settled (write (update_cell p f)).
Proof.
  intros Hf. apply keeps_write. intros s. split; [|done]. intros q _. unfold raw_state, update_cell.
  rewrite cell_set_cell. case_decide; [subst; apply Hf|done].
Qed.

Section methods.
Variable self : ∀ A : Type, command A → Promise.op (H:=H) A.
Hypothesis self_keeps : ∀ A c, keeps stays_settled (self A c).

Lemma call_continuation_final j : keeps stays_settled (call_continuation self j).
Proof.
  unfold call_continuation. kbind; [by apply stays_settled_cells|intros _].
  destruct (callee j); [|by refine (keeps_run _ _ _ (core_host _ stays_settled_core) _)].
  destruct (argument j); repeat first [kret | apply self_keeps | kbind; intros].
Qed.

Lemma drain_final : keeps stays_settled (drain self).
Proof.
  unfold drain. kbind; [kread|intros q]. destruct q; [kret|].
  repeat first [by apply stays_settled_cells | apply self_keeps | apply call_continuation_final
               | kbind; intros].
Qed.

Lemma enqueue_final j : keeps stays_settled (enqueue_continuation self j).
Proof.
  unfold enqueue_continuation. kbind; [by apply stays_settled_cells|intros _].
  kbind; [kread|intros []]; [kret|].
  repeat first [by apply stays_settled_cells | apply self_keeps | kbind; intros].
Qed.

Lemma enqueue_all_final p next ks : keeps stays_settled (enqueue_all self p next ks).
Proof.
  induction ks as [|k ks IH]; cbn; [kret|].
  kbind; [apply enqueue_final|done].
Qed.

Lemma settle_final p next : keeps stays_settled (settle self p next).
Proof.
  unfold settle. kbind.
  - intros s taken s' [(Hp & -> & ->)|(_ & _ & ->)]%take_continuations_spec; [|done].
    split; [|done]. intros q Hq. unfold raw_state. rewrite cell_set_cell. case_decide; congruence.
  - intros [ks|]; [|kret]. kbind; [apply enqueue_all_final|intros].
    kret.
Qed.
End methods.

Lemma stays_settled_kept : Kept stays_settled.
Proof.
  split; try tc_solve.
  - exact stays_settled_core.
  - intros fuel p IH. unfold progress_one. kbind; [kread|intros []]; [kret|].
    repeat first [by apply stays_settled_cells | apply IH | kbind; intros].
  - intros fuel p next IH _. by apply settle_final.
  - intros fuel p k IH. unfold on_settle. kbind; [apply IH|intros st].
    apply keeps_when; (kbind; [|intros _]).
    + apply keeps_write. intros s. split; [|done]. intros q _. unfold raw_state, cell, subscribe. cbn -[lookup].
      change (promises (update_cell p (push_continuation k) s)) with
        (<[p := push_continuation k (cell s p)]> (promises s)).
      destruct (decide (q = p)) as [->|]; [by rewrite lookup_insert_eq|by rewrite lookup_insert_ne].
    + refine (keeps_register_progress _ (core_quiet _ stays_settled_core) _).
    + by apply stays_settled_cells.
    + by apply enqueue_final.
  - intros fuel p q IH Hs. unfold adopt. kbind; [kread|intros []]; [by apply Hs|].
    kbind; [apply IH|intros []]; [|by apply Hs..].
    kbind; [apply IH|intros own]. apply keeps_when; [kret|].
    repeat first [by apply stays_settled_update | apply IH | kret | kbind; intros].
  - intros fuel IH. by apply drain_final.
Qed.
End finality.

(** ** The queue is drained

    Outside a callback the queue is empty; the stack of promises being polled
    is what it was. *)
Section quiescence.
Context {H : Type} `{!Host H}.
Implicit Types s : Store H.

Record calm s s' : Prop := {
  calm_progressing : progressing s' = progressing s;
  calm_busy : draining s = true → draining s' = true;
  calm_idle : draining s = false → queue s = [] → draining s' = false ∧ queue s' = [];
}.

#[local] Instance calm_preorder : PreOrder calm.
Proof.
  split; [by split|]. intros s1 s2 s3 [Hp Hb Hi] [Hp' Hb' Hi']. split; [congruence|auto|].
  intros Hd Hq. destruct (Hi Hd Hq). auto.
Qed.

Lemma calm_same s s' :
  queue s' = queue s → draining s' = draining s → progressing s' = progressing s → calm s s'.
Proof. intros Hq Hd Hp. split; [done|by rewrite Hd|by rewrite Hd, Hq]. Qed.

Lemma calm_core s s' : same_core s s' → calm s s'.
Proof. intros Hc. apply calm_same; apply Hc. Qed.

Lemma calm_write (f : Store H → Store H) :
  (∀ s, queue (f s) = queue s ∧ draining (f s) = draining s ∧ progressing (f s) = progressing s) →
  keeps calm (write f).
Proof. intros Hf. apply keeps_write. intros s. apply calm_same; apply Hf. Qed.

Section methods.
Variable fuel : nat.
Local Abbreviation self := (λ A, perform fuel (A:=A)).
Hypothesis IH : ∀ A c, keeps calm (perform fuel (A:=A) c).

Lemma call_continuation_calm j : keeps calm (call_continuation self j).
Proof.
  unfold call_continuation. kbind; [by apply calm_write|intros _].
  destruct (callee j); [|by refine (keeps_run _ _ _ (core_host _ calm_core) _)].
  destruct (argument j); repeat first [kret | apply IH | kbind; intros].
Qed.

Lemma drain_calm : keeps calm (drain self).
Proof.
  intros s x s'. unfold drain. intros (q & s1 & [= <- <-] & Hs)%bind_some.
  destruct (queue s) as [|j rest] eqn:Hq; [by injection Hs as <- <-|].
  apply bind_some in Hs as (? & s1 & [= <- <-] & Hs).
  transitivity (with_queue rest s); [split; cbn; [done..|congruence]|].
  revert Hs. apply (keeps_bind calm (call_continuation self j)); [apply call_continuation_calm|auto].
Qed.

Lemma enqueue_calm j : keeps calm (enqueue_continuation self j).
Proof.
  intros s x s'. unfold enqueue_continuation.
  intros (? & s1 & [= <- <-] & (b & s2 & [= <- <-] & Hs)%bind_some)%bind_some. cbn [draining with_queue] in Hs.
  destruct (draining s) eqn:Hd; [injection Hs as <- <-; split; cbn; [done..|congruence]|].
  apply bind_some in Hs as (? & s1 & [= <- <-] & (? & s2 & Hdrain & [= <- <-])%bind_some).
  pose proof (perform_drain _ _ _ _ Hdrain) as Hq. destruct (IH _ _ _ _ _ Hdrain) as [Hp _ _].
  split; cbn; [exact Hp|congruence|done].
Qed.

Lemma settle_calm p next : keeps calm (settle self p next).
Proof.
  unfold settle. kbind.
  - intros s taken s' [(_ & _ & ->)|(_ & _ & ->)]%take_continuations_spec; by apply calm_same.
  - intros [ks|]; [|kret]. kbind; [|intros; kret].
    induction ks as [|k ks IHks]; cbn; [kret|]. kbind; [apply enqueue_calm|done].
Qed.

Lemma progress_one_calm p : keeps calm (progress_one self p).
Proof.
  unfold progress_one. kbind; [kread|intros []; [kret|]].
  intros s x s' (? & s1 & [= <- <-] & (st & s2 & Hst & [= <- <-])%bind_some)%bind_some.
  destruct (IH _ _ _ _ _ Hst) as [Hp Hb Hi]. cbn in Hp. split; cbn; [|exact Hb|exact Hi].
  rewrite Hp, length_app, Nat.add_1_r. cbn. by rewrite take_app_length.
Qed.
End methods.

Lemma calm_kept : Kept calm.
Proof.
  split; try tc_solve.
  - exact calm_core.
  - intros. by apply progress_one_calm.
  - intros. by apply settle_calm.
  - intros fuel p k IH. unfold on_settle. kbind; [apply IH|intros st].
    apply keeps_when; (kbind; [by apply calm_write|intros _]).
    + refine (keeps_register_progress _ (core_quiet _ calm_core) _).
    + by apply enqueue_calm.
  - intros fuel p q IH Hs. unfold adopt. kbind; [kread|intros []]; [by apply Hs|].
    kbind; [apply IH|intros []]; [|by apply Hs..].
    kbind; [apply IH|intros own]. apply keeps_when; [kret|].
    repeat first [by apply calm_write | apply IH | kret | kbind; intros].
  - intros. by apply drain_calm.
Qed.
End quiescence.

(** ** Every continuation is called exactly once

    [held] are the jobs a method has taken from a cell or from the queue and
    not yet called; [excused] are the adoptions being made. *)
Section consistency.
Context {H : Type} `{!Host H}.
Implicit Types (s : Store H) (held : list job) (excused : list (N * N)).

(** The continuations subscribed to [p], and those among the jobs. *)
Definition subscribed_to (p : N) s : list continuation :=
  (filter (λ x, x.1 = p) (subscriptions s)).*2.
Definition jobs_of (p : N) (l : list job) : list continuation :=
  callee <$> filter (λ j, origin j = p) l.

Definition forwards (d p : N) (j : job) : Prop := origin j = p ∧ callee j = Forward d.

Record consistent held excused s : Prop := {
  c_conserved p :
    subscribed_to p s ≡ₚ jobs_of p (called s ++ queue s ++ held) ++ continuations (cell s p);
  c_jobs : Forall (λ j, argument j ≠ Pending ∧ raw_state s (origin j) = argument j)
    (called s ++ queue s ++ held);
  c_settled p : raw_state s p ≠ Pending → continuations (cell s p) = [];
  c_adopted d p : raw_state s d = Pending → adopted_from (cell s d) = Some p →
    (d, p) ∈ excused ∨ Forward d ∈ continuations (cell s p) ∨
    Exists (forwards d p) (queue s ++ held);
}.

Definition keeps_consistent s s' : Prop :=
  ∀ held excused, consistent held excused s → consistent held excused s'.

#[local] Instance keeps_consistent_preorder : PreOrder keeps_consistent.
Proof. split; [by intros s held excused|]. intros s1 s2 s3 H12 H23 held excused Hs. auto. Qed.

#[export] Instance jobs_of_perm p : Proper ((≡ₚ) ==> (≡ₚ)) (jobs_of p).
Proof. intros l l' Hl. unfold jobs_of. by rewrite Hl. Qed.

Lemma jobs_of_app p l k : jobs_of p (l ++ k) = jobs_of p l ++ jobs_of p k.
Proof. unfold jobs_of. by rewrite filter_app, fmap_app. Qed.

(** Jobs may move, as long as none is lost and none that forwards leaves the
    queue unaccounted. *)
Lemma consistent_move held held' excused excused' s s' :
  (∀ p, cell s' p = cell s p) → subscriptions s' = subscriptions s →
  called s' ++ queue s' ++ held' ≡ₚ called s ++ queue s ++ held →
  (∀ d p, (d, p) ∈ excused ∨ Exists (forwards d p) (queue s ++ held) →
          (d, p) ∈ excused' ∨ Exists (forwards d p) (queue s' ++ held')) →
  consistent held excused s → consistent held' excused' s'.
Proof.
  intros Hc Hsub Hp He [H1 H2 H3 H4]. split.
  - intros p. unfold subscribed_to. rewrite Hsub, Hc, Hp. apply H1.
  - unfold raw_state. setoid_rewrite Hc. by rewrite Hp.
  - intros p. unfold raw_state. rewrite Hc. apply H3.
  - intros d p. unfold raw_state. rewrite !Hc. intros Hd Ha.
    destruct (H4 d p Hd Ha) as [He'|[Hk|He']]; [|by right; left|];
      (destruct (He d p) as [|]; [by auto|by left|by right; right]).
Qed.

Lemma keeps_consistent_core s s' : same_core s s' → keeps_consistent s s'.
Proof.
  intros [Hst Hk Ha Hq _ _ Hs Hc _] held excused [H1 H2 H3 H4]. split; unfold raw_state in *.
  - intros p. unfold subscribed_to. rewrite Hs, Hc, Hq, Hk. apply H1.
  - setoid_rewrite Hst. by rewrite Hc, Hq.
  - intros p. rewrite Hst, Hk. apply H3.
  - intros d p. rewrite Hst, Ha, Hk, Hq. apply H4.
Qed.

(** Settling takes the continuations of the cell as jobs. *)
Lemma consistent_take p next held excused s :
  raw_state s p = Pending → next ≠ Pending → consistent held excused s →
  consistent (held ++ ((λ k, mkJob p k next) <$> continuations (cell s p))) excused
    (set_cell p (mkInner next [] None hooks_default None (progress_registered (cell s p))) s).
Proof.
  intros Hp Hnext [H1 H2 H3 H4]. unfold raw_state in *.
  set (jobs := (λ k, mkJob p k next) <$> continuations (cell s p)).
  assert (Hjobs : called s ++ queue s ++ held ++ jobs = (called s ++ queue s ++ held) ++ jobs)
    by (by rewrite <-!app_assoc).
  split; unfold raw_state;
    change (called (set_cell p ?c s)) with (called s);
    change (queue (set_cell p ?c s)) with (queue s);
    change (subscribed_to ?q (set_cell p ?c s)) with (subscribed_to q s); rewrite ?Hjobs.
  - intros q.
    rewrite H1, cell_set_cell, (jobs_of_app q _ jobs), <-app_assoc. f_equiv. unfold jobs_of, jobs.
    case_decide as Hq; cbn -[cell].
    + subst q. rewrite filter_Forall_id, app_nil_r by (by apply Forall_fmap, Forall_true).
      rewrite <-list_fmap_compose.
      change (continuations (cell s p) ≡ₚ id <$> continuations (cell s p)).
      by rewrite list_fmap_id.
    + rewrite filter_Forall_nil; [done|]. apply Forall_fmap, Forall_true. by intros k ?; subst.
  - apply Forall_app. split.
    + eapply Forall_impl; [exact H2|]. intros j [Hj Hs]. split; [done|].
      rewrite cell_set_cell. case_decide; [|done]. unfold raw_state in Hs. congruence.
    + apply Forall_fmap, Forall_true. intros k. cbn -[cell]. split; [done|].
      rewrite cell_set_cell. by rewrite decide_True.
  - intros q. rewrite cell_set_cell. case_decide; [done|apply H3].
  - intros d q. rewrite !cell_set_cell. case_decide as Hd; [done|]. intros Hs Ha.
    destruct (H4 d q Hs Ha) as [|[Hk|Hx]]; [by left| |].
    + right. case_decide as Hq; [|by left]. subst q. right.
      rewrite app_assoc. apply Exists_app. right. apply Exists_exists.
      exists (mkJob p (Forward d) next). split; [|done]. apply list_elem_of_fmap. eauto.
    + right. right. rewrite app_assoc. apply Exists_app. by left.
Qed.

Lemma consistent_unexcuse d p held excused s :
  raw_state s d ≠ Pending → consistent held ((d, p) :: excused) s → consistent held excused s.
Proof.
  intros Hd [H1 H2 H3 H4]. split; [done..|]. intros d' p' Hp Ha.
  destruct (H4 d' p' Hp Ha) as [[[= -> ->]|]%elem_of_cons|]; [done|by left|by right].
Qed.

Lemma consistent_weaken held held' excused s :
  held' ≡ₚ held → consistent held excused s → consistent held' excused s.
Proof. intros Hh. apply consistent_move; [done..|by rewrite Hh|]. by setoid_rewrite Hh. Qed.

Definition superset (X X' : list (N * N)) (p : N) (k : continuation) : Prop :=
  ∀ d q, (d, q) ∈ X → (d, q) ∈ X' ∨ (k = Forward d ∧ q = p).

Lemma subscribed_to_subscribe q p k s :
  subscribed_to q (subscribe p k s) = subscribed_to q s ++ (if decide (p = q) then [k] else []).
Proof.
  unfold subscribed_to. cbn. rewrite filter_app, fmap_app. f_equal.
  rewrite filter_cons. cbn. by case_decide.
Qed.

Lemma cell_subscribe p k s q : cell (subscribe p k s) q = cell s q.
Proof. done. Qed.

Lemma consistent_wait p k held X X' s :
  raw_state s p = Pending → superset X X' p k → consistent held X s →
  consistent held X' (subscribe p k (update_cell p (push_continuation k) s)).
Proof.
  intros Hp HX [H1 H2 H3 H4]. set (s' := update_cell p (push_continuation k) s).
  assert (Hst : ∀ q, raw_state (subscribe p k s') q = raw_state s q).
  { intros q. unfold raw_state, s', update_cell. rewrite cell_subscribe, cell_set_cell.
    case_decide; by subst. }
  assert (Hk : ∀ q, continuations (cell (subscribe p k s') q) =
                      continuations (cell s q) ++ if decide (p = q) then [k] else []).
  { intros q. unfold s', update_cell. rewrite cell_subscribe, cell_set_cell.
    destruct (decide (q = p)), (decide (p = q)); subst; try done. cbn. by rewrite app_nil_r. }
  split.
  - intros q. rewrite subscribed_to_subscribe, Hk, app_assoc. f_equiv. apply H1.
  - change (called (subscribe p k s')) with (called s). change (queue (subscribe p k s')) with (queue s).
    by setoid_rewrite Hst.
  - intros q. rewrite Hst, Hk. intros Hq. rewrite decide_False by congruence.
    rewrite app_nil_r. by apply H3.
  - change (queue (subscribe p k s')) with (queue s). intros d q. rewrite Hst, Hk. intros Hd Ha.
    assert (adopted_from (cell s d) = Some q) as Ha'.
    { revert Ha. unfold s', update_cell. rewrite cell_subscribe, cell_set_cell. case_decide; by subst. }
    rewrite elem_of_app. destruct (H4 d q Hd Ha') as [HdX|]; [|tauto].
    destruct (HX d q HdX) as [|[-> ->]]; [by left|]. right. left. right.
    rewrite decide_True by done. by left.
Qed.

Lemma consistent_ready p k held X X' s :
  raw_state s p ≠ Pending → superset X X' p k → consistent held X s →
  consistent (mkJob p k (raw_state s p) :: held) X' (subscribe p k s).
Proof.
  intros Hp HX [H1 H2 H3 H4].
  assert (Hperm : called s ++ queue s ++ mkJob p k (raw_state s p) :: held ≡ₚ
            (called s ++ queue s ++ held) ++ [mkJob p k (raw_state s p)]).
  { rewrite <-!app_assoc. do 2 f_equiv. apply Permutation_cons_append. }
  split; change (called (subscribe p k s)) with (called s);
    change (queue (subscribe p k s)) with (queue s); [| |exact H3|].
  - intros q. rewrite subscribed_to_subscribe, H1, Hperm,
      (jobs_of_app q _ [mkJob p k _]), <-!(app_assoc _ _ (continuations _)), <-app_assoc, cell_subscribe.
    f_equiv. rewrite (comm (++)). f_equiv. unfold jobs_of. rewrite filter_cons. cbn. by case_decide.
  - rewrite Hperm. apply Forall_app. split; [exact H2|]. by apply Forall_singleton.
  - intros d q Hd Ha. destruct (H4 d q Hd Ha) as [HdX|[|Hx]]; [|by right; left|].
    + destruct (HX d q HdX) as [|[-> ->]]; [by left|]. right. right.
      apply Exists_app. right. by left.
    + right. right. apply Exists_app. apply Exists_app in Hx as [|]; [by left|by right; right].
Qed.

(** What [settle] does to its promise. *)
Lemma settle_spec fuel p next s b s' :
  settle (λ A, perform fuel (A:=A)) p next s = Some (b, s') → next ≠ Pending →
  b = is_pending (raw_state s p) ∧ raw_state s' p = if b then next else raw_state s p.
Proof.
  unfold settle. intros (taken & s1 & Ht & Hs)%bind_some Hnext.
  destruct (take_continuations_spec _ _ _ _ _ Ht) as [(Hp & -> & ->)|(Hp & -> & ->)].
  - apply bind_some in Hs as (? & s2 & Hs & [= <- <-]). rewrite Hp. split; [done|].
    set (s1 := set_cell _ _ _) in *.
    assert (raw_state s1 p = next) as Hs1 by (unfold s1, raw_state; by rewrite cell_set_cell, decide_True).
    rewrite <-Hs1. eapply (enqueue_all_final (λ A, perform fuel (A:=A)));
      [intros; apply perform_keeps, stays_settled_kept|exact Hs|congruence].
  - injection Hs as <- <-. by apply not_pending_spec in Hp as ->.
Qed.

Lemma settle_settles fuel p next s b s' :
  settle (λ A, perform fuel (A:=A)) p next s = Some (b, s') → next ≠ Pending → raw_state s' p ≠ Pending.
Proof.
  intros Hs Hnext. destruct (settle_spec _ _ _ _ _ _ Hs Hnext) as [-> ->].
  destruct (is_pending _) eqn:Hp; [done|by apply not_pending_spec].
Qed.

Section methods.
Variable fuel : nat.
Local Abbreviation self := (λ A, perform fuel (A:=A)).
Hypothesis IH : ∀ A c, keeps keeps_consistent (perform fuel (A:=A) c).

(** A job that is called has left [held]. *)
Lemma call_continuation_consistent j held excused s x s' :
  consistent (j :: held) excused s → call_continuation self j s = Some (x, s') →
  consistent held excused s'.
Proof.
  intros Hc (? & s1 & [= <- <-] & Hs)%bind_some.
  assert (∀ X, (∀ d p, (d, p) ∈ excused ∨ forwards d p j → (d, p) ∈ X) →
            consistent held X (call j s)) as Hcall.
  { intros X HX. eapply (consistent_move (_ :: held) _ excused _ s); [done..| | |exact Hc]; cbn.
    - rewrite <-app_assoc. apply Permutation_app_head. cbn [app]. apply Permutation_middle.
    - intros d p. setoid_rewrite Exists_app. rewrite Exists_cons. specialize (HX d p). tauto. }
  assert (argument j ≠ Pending) as Hj.
  { apply c_jobs, Forall_app in Hc as [_ Hc]. apply Forall_app in Hc as [_ Hc].
    by apply Forall_cons in Hc as [[? _] _]. }
  destruct (callee j) as [d|c] eqn:Hk.
  - assert (consistent held ((d, origin j) :: excused) (call j s)) as Hd.
    { apply Hcall. intros d' p [|[<- Hk']]; [by right|]. rewrite Hk in Hk'. injection Hk' as <-. left. }
    destruct (argument j); [done|..]; apply bind_some in Hs as (b & s1 & Hs & [= <- <-]);
      apply (consistent_unexcuse d (origin j));
      (destruct fuel as [|n]; [done|cbn [perform method] in Hs; by eapply settle_settles])
      || by eapply IH.
  - eapply (keeps_run _ self _ (core_host _ keeps_consistent_core) IH); [exact Hs|]. apply Hcall.
    intros d p [|[_ Hk']]; [done|]. congruence.
Qed.

Lemma drain_consistent : keeps keeps_consistent (drain self).
Proof.
  intros s x s' (q & s1 & [= <- <-] & Hs)%bind_some held excused Hc.
  destruct (queue s) as [|j rest] eqn:Hq; [by injection Hs as <- <-|].
  apply bind_some in Hs as (? & s1 & [= <- <-] & (? & s1 & Hj & Hs)%bind_some).
  eapply IH; [exact Hs|]. eapply call_continuation_consistent; [|exact Hj].
  eapply (consistent_move held _ excused _ s); [done..| | |exact Hc]; cbn; rewrite Hq; cbn.
  - by rewrite <-Permutation_middle.
  - intros d p. rewrite !Exists_app, !Exists_cons, Exists_app. tauto.
Qed.

Lemma enqueue_consistent j held excused s x s' :
  consistent (j :: held) excused s → enqueue_continuation self j s = Some (x, s') →
  consistent held excused s'.
Proof.
  intros Hc (? & s1 & [= <- <-] & (b & s2 & [= <- <-] & Hs)%bind_some)%bind_some.
  assert (∀ b, consistent held excused (with_draining b (with_queue (queue s ++ [j]) s))) as Hq.
  { intros b. eapply (consistent_move (_ :: held) _ excused _ s); [done..| | |exact Hc]; cbn; rewrite <-app_assoc; cbn; [done|].
    intros d p. rewrite !Exists_app. tauto. }
  cbn [draining with_queue] in Hs. destruct (draining s) eqn:Hd.
  - injection Hs as <- <-. specialize (Hq (draining s)). by destruct Hq; split.
  - apply bind_some in Hs as (? & s1 & [= <- <-] & (? & s2 & Hs & [= <- <-])%bind_some).
    apply (IH _ _ _ _ _ Hs) in Hq. by destruct Hq; split.
Qed.

Lemma enqueue_all_consistent p next ks held excused s x s' :
  consistent (held ++ ((λ k, mkJob p k next) <$> ks)) excused s →
  enqueue_all self p next ks s = Some (x, s') → consistent held excused s'.
Proof.
  revert s. induction ks as [|k ks IHk]; cbn; intros s Hc Hs.
  - injection Hs as <- <-. by rewrite app_nil_r in Hc.
  - apply bind_some in Hs as (? & s1 & Hk & Hs). apply (IHk s1); [|done].
    eapply enqueue_consistent; [|exact Hk]. eapply consistent_weaken; [|exact Hc].
    apply Permutation_middle.
Qed.

Lemma settle_consistent p next : next ≠ Pending → keeps keeps_consistent (settle self p next).
Proof.
  intros Hnext s b s' (taken & s1 & Ht & Hs)%bind_some held excused Hc.
  destruct (take_continuations_spec _ _ _ _ _ Ht) as [(Hp & -> & ->)|(Hp & -> & ->)].
  - apply bind_some in Hs as (? & s2 & Hs & [= <- <-]).
    eapply enqueue_all_consistent; [|exact Hs]. by apply consistent_take.
  - by injection Hs as <- <-.
Qed.

(** A subscription to [p] may settle the account of an adoption of [p]. *)
Lemma on_settle_consistent p k held X X' s x s' :
  superset X X' p k → consistent held X s → on_settle self p k s = Some (x, s') →
  consistent held X' s'.
Proof.
  intros HX Hc (st & s1 & Hst & Hs)%bind_some.
  pose proof (perform_state _ _ _ _ _ Hst) as ->. apply (IH _ _ _ _ _ Hst) in Hc.
  destruct (is_pending _) eqn:Hp; apply bind_some in Hs as (? & s2 & [= <- <-] & Hs).
  - refine (keeps_register_progress _ (core_quiet _ keeps_consistent_core) _ _ _ _ Hs _ _ _).
    apply consistent_wait with X; [by apply is_pending_spec|done|done].
  - eapply enqueue_consistent; [|exact Hs].
    apply consistent_ready with X; [by apply not_pending_spec|done|done].
Qed.
End methods.

(** Setting [adopted_from] excuses the adoption until it is subscribed. *)
Lemma consistent_adopt d p held excused s :
  consistent held excused s →
  consistent held ((d, p) :: excused) (update_cell d (set_adopted_from (Some p)) s).
Proof.
  intros [H1 H2 H3 H4]. set (s' := update_cell d (set_adopted_from (Some p)) s).
  assert (∀ q, raw_state s' q = raw_state s q ∧ continuations (cell s' q) = continuations (cell s q) ∧
    adopted_from (cell s' q) = if decide (q = d) then Some p else adopted_from (cell s q)) as Hc.
  { intros q. unfold raw_state, s', update_cell. rewrite cell_set_cell. case_decide; by subst. }
  split.
  - intros q. rewrite (proj1 (proj2 (Hc q))). apply H1.
  - eapply Forall_impl; [exact H2|]. intros j. by rewrite (proj1 (Hc _)).
  - intros q. destruct (Hc q) as (-> & -> & _). apply H3.
  - intros d' q. destruct (Hc d') as (-> & _ & ->). destruct (Hc q) as (_ & -> & _).
    case_decide as Hd; [subst|].
    + intros _ [= <-]. left. left.
    + intros Hp Ha. destruct (H4 d' q Hp Ha) as [|]; [by left; right|by right].
Qed.

Lemma keeps_consistent_kept : Kept keeps_consistent.
Proof.
  assert (∀ (f : Store H → Store H), (∀ s, promises (f s) = promises s ∧ queue (f s) = queue s ∧
    called (f s) = called s ∧ subscriptions (f s) = subscriptions s) →
    keeps keeps_consistent (write f)) as Hw.
  { intros f Hf. apply keeps_write. intros s held X. destruct (Hf s) as (Hp & Hq & Hc & Hs).
    apply consistent_move; rewrite ?Hq, ?Hc; try done. intros p. unfold cell. by rewrite Hp. }
  split; try tc_solve.
  - exact keeps_consistent_core.
  - intros fuel p IH. unfold progress_one. kbind; [kread|intros []; [kret|]].
    repeat first [by apply Hw | apply IH | kbind; intros].
  - intros fuel p next IH Hnext. by apply settle_consistent.
  - intros fuel p k IH s x s' Hs held X Hc. eapply on_settle_consistent; [exact IH| |exact Hc|exact Hs].
    intros d q. by left.
  - intros fuel p q IH Hs. unfold adopt. kbind; [kread|intros []]; [by apply Hs|].
    kbind; [apply IH|intros []]; [|by apply Hs..].
    kbind; [apply IH|intros own]. apply keeps_when; [kret|].
    intros s x s' (? & s1 & [= <- <-] & (? & s2 & Hp & (? & s3 & Hw' &
      (? & s5 & Hk & [= <- <-])%bind_some)%bind_some)%bind_some)%bind_some held X Hc.
    apply (consistent_adopt p q) in Hc.
    apply (keeps_update _ (core_quiet _ keeps_consistent_core) p (set_poller (FromSource q))) in Hp; [|done].
    apply (keeps_update _ (core_quiet _ keeps_consistent_core) p (set_waiter (FromSource q))) in Hw'; [|done].
    apply Hp, Hw' in Hc. destruct fuel as [|n]; [done|]. cbn [perform method] in Hk.
    refine (on_settle_consistent n _ _ _ _ _ _ _ _ _ _ Hc Hk).
    + intros A c s4 y s4' Hy. apply (IH A c s4 y s4'). apply (perform_more n); [lia|done].
    + intros d r [[= -> ->]|]%elem_of_cons; [by right|by left].
  - intros. by apply drain_consistent.
Qed.
End consistency.

(** ** Claims about every run

    The callers' code is any [script], over any interpretation of its closures. *)
Section claims.
Context {H : Type} `{!Host H}.
Implicit Types s : Store H.

(** The source of an adoption is settled by the cancellation. *)
Lemma cancel_settles fuel p s b s' : perform fuel (Cancel p) s = Some (b, s') → raw_state s' p ≠ Pending.
Proof.
  destruct fuel as [|fuel]; [done|]. cbn [perform method]. unfold cancel.
  intros (st & s1 & [= <- <-] & Hc)%bind_some.
  destruct (is_pending (raw_state s p)) eqn:Hp; cbn [negb] in Hc.
  - apply bind_some in Hc as (? & s2 & _ & Hs). by eapply settle_settles.
  - injection Hc as <- <-. by apply not_pending_spec.
Qed.

Lemma notify_cancel_settles fuel p q s x s' :
  perform fuel (NotifyCancel p) s = Some (x, s') → adopted_from (cell s p) = Some q →
  q ∈ dropped s' ∨ raw_state s' q ≠ Pending.
Proof.
  destruct fuel as [|fuel]; [done|]. cbn [perform method]. unfold notify_cancel.
  intros (hook & s1 & [= <- <-] & (src & s4 & [= <- <-] & (? & s2 & _ & (? & s5 & [= <- <-] & Hq)%bind_some)
    %bind_some)%bind_some)%bind_some Ha.
  rewrite Ha in Hq. cbn in Hq. unfold upgrade in Hq. case_decide as Hd.
  - left. by injection Hq as <- <-.
  - right. apply bind_some in Hq as (b & s3 & Hq & [= <- <-]). by eapply cancel_settles.
Qed.

(** C25. A settled promise keeps its state, whatever runs. *)
Theorem settling_is_final fuel A (c : script H A) s x s' p :
  perform_script fuel c s = Some (x, s') → raw_state s p ≠ Pending → raw_state s' p = raw_state s p.
Proof. intros Hs. apply (perform_script_keeps _ _ _ _ stays_settled_kept _ _ _ Hs). Qed.

Lemma consistent_new (h : H) : consistent [] [] (store_new h).
Proof. split; try done. Qed.

Lemma script_consistent fuel A (c : script H A) h x s :
  perform_script fuel c (store_new h) = Some (x, s) → consistent [] [] s ∧ queue s = [].
Proof.
  intros Hs. split.
  - eapply (perform_script_keeps _ _ _ _ keeps_consistent_kept); [exact Hs|apply consistent_new].
  - by apply (perform_script_keeps _ _ _ _ calm_kept _ _ _ Hs).
Qed.

(** C23. After any run from the start, the continuation queue is empty and no
    promise is being polled; the subscriptions to a promise are, without loss or
    duplication, the continuations called for it and those still waiting, which
    only a pending promise has; and every call passed the state its promise
    settled with. *)
Theorem continuations_exactly_once fuel A (c : script H A) h x s :
  perform_script fuel c (store_new h) = Some (x, s) →
  queue s = [] ∧ draining s = false ∧ progressing s = [] ∧
  (∀ p, subscribed_to p s ≡ₚ jobs_of p (called s) ++ continuations (cell s p) ∧
        (raw_state s p ≠ Pending → continuations (cell s p) = [])) ∧
  (∀ j, j ∈ called s → argument j ≠ Pending ∧ raw_state s (origin j) = argument j).
Proof.
  intros Hs. destruct (script_consistent _ _ _ _ _ _ Hs) as [[H1 H2 H3 _] Hq].
  rewrite Hq, app_nil_r in H2. setoid_rewrite Hq in H1. setoid_rewrite app_nil_r in H1.
  destruct (perform_script_keeps _ _ _ _ calm_kept _ _ _ Hs) as [Hp _ Hi].
  destruct Hi as [Hd _]; [reflexivity..|]. split_and!; [exact Hq|exact Hd|exact Hp| |].
  - intros p. split; [apply H1|apply H3].
  - by apply Forall_forall.
Qed.

(** C24. After any run from the start, a promise that adopted another and is
    still pending adopted a pending promise, which will forward its state to
    it: no promise is left behind by the settlement of its source. *)
Theorem adoption_follows fuel A (c : script H A) h x s d p :
  perform_script fuel c (store_new h) = Some (x, s) →
  raw_state s d = Pending → adopted_from (cell s d) = Some p →
  raw_state s p = Pending ∧ Forward d ∈ continuations (cell s p).
Proof.
  intros Hs Hd Ha. destruct (script_consistent _ _ _ _ _ _ Hs) as [[_ _ H3 H4] Hq].
  destruct (H4 d p Hd Ha) as [Hx|[Hk|Hx]].
  - by apply elem_of_nil in Hx.
  - split; [|done]. destruct (is_pending (raw_state s p)) eqn:Hn; [by apply is_pending_spec|].
    apply not_pending_spec in Hn. rewrite (H3 p Hn) in Hk. by apply elem_of_nil in Hk.
  - rewrite Hq in Hx. by apply Exists_nil in Hx.
Qed.

(** Cancelling leaves a promise settled: as cancelled if the call says so,
    unchanged if it had settled before, and otherwise as its cancellation hook
    or its source left it; a source it had adopted is settled as well, unless
    its last reference is gone. *)
Theorem cancel_correct fuel p s b s' :
  perform fuel (Cancel p) s = Some (b, s') →
  raw_state s' p ≠ Pending ∧
  (b = true → raw_state s p = Pending ∧ raw_state s' p = Rejected cancelled) ∧
  (raw_state s p ≠ Pending → b = false ∧ s' = s) ∧
  (∀ q, raw_state s p = Pending → adopted_from (cell s p) = Some q →
        q ∈ dropped s' ∨ raw_state s' q ≠ Pending).
Proof.
  intros Hc. destruct fuel as [|fuel]; [done|]. cbn [perform method] in Hc.
  apply bind_some in Hc as (st & s1 & [= <- <-] & Hc).
  destruct (is_pending (raw_state s p)) eqn:Hp; cbn [negb] in Hc.
  2:{ injection Hc as <- <-. apply not_pending_spec in Hp. by split_and!. }
  apply is_pending_spec in Hp. apply bind_some in Hc as (? & s2 & Hn & Hset).
  pose proof (settle_final _ (λ A c, perform_keeps _ fuel A c stays_settled_kept) _ _ _ _ _ Hset) as Hf.
  destruct (settle_spec _ _ _ _ _ _ Hset) as [Hb Hst]; [done|]. rewrite Hst. split_and!.
  - destruct b; [done|]. by apply not_pending_spec.
  - intros ->. done.
  - congruence.
  - intros q _ Hq. eapply notify_cancel_settles in Hn as [Hd|Hs]; [| |exact Hq].
    + left. by apply (ss_dropped _ _ Hf).
    + right. rewrite (ss_state _ _ Hf q Hs). exact Hs.
Qed.
End claims.

(** ** Concrete runs

    A caller that logs the closures it is called with. Closure 3 subscribes
    once more to promise 0 when it is called. *)
#[export] Instance logging : Host (list N) := {
  on_state c _ := Get (λ l, Put (l ++ [c])
    (if (c =? 3)%N then Invoke (OnSettle 0 (HostContinuation 5)) Return else Return tt));
  on_poll c := Get (λ l, Put (l ++ [c]) (Return tt));
  on_wait c := Get (λ l, Put (l ++ [c]) (Return tt));
  on_cancel c := Get (λ l, Put (l ++ [c]) (Return tt));
  on_call c := Return c;
  on_task c := if (c =? 1)%N then Return (Ok (VPromise 0)) else Return (Ok (VNumber 42));
}.

(** Promise 1 adopts promise 0, to which two closures subscribe. *)
Definition subscribing : script (list N) bool :=
  Invoke New (λ a, Invoke New (λ b, Invoke (Adopt b a) (λ _,
  Invoke (OnSettle a (HostContinuation 3)) (λ _,
  Invoke (OnSettle a (HostContinuation 4)) (λ _, Return true))))).
Definition settling : script (list N) bool :=
  Invoke New (λ a, Invoke New (λ b, Invoke (Adopt b a) (λ _,
  Invoke (OnSettle a (HostContinuation 3)) (λ _,
  Invoke (OnSettle a (HostContinuation 4)) (λ _, Invoke (Resolve a (VNumber 7)) Return))))).

Definition after (c : script (list N) bool) : Store (list N) :=
  match perform_script 20 c (store_new []) with Some (_, s) => s | None => store_new [] end.

Lemma after_run c b : fst <$> perform_script 20 c (store_new []) = Some b →
  perform_script 20 c (store_new []) = Some (b, after c).
Proof. unfold after. destruct (perform_script _ _ _) as [[]|]; [|done]. by intros [= ->]. Qed.

(** A continuation subscribed while another is called overtakes those that were
    waiting: [settle] queues one at a time and drains in between. *)
Example overtaking : host (after settling) = [3; 5; 4]%N.
Proof. vm_compute. reflexivity. Qed.

Lemma settling_is_final_witness :
  raw_state (after settling) 1 = Fulfilled (VNumber 7) ∧
  ∀ x s', perform_script 20 (Invoke (Resolve 1 VNil) Return) (after settling) = Some (x, s') →
          raw_state s' 1 = Fulfilled (VNumber 7).
Proof.
  split; [vm_compute; reflexivity|]. intros x s' Hs.
  rewrite (settling_is_final 20 bool (Invoke (Resolve 1 VNil) Return) (after settling) x s' 1 Hs);
    vm_compute; [reflexivity|discriminate].
Defined.

Lemma continuations_exactly_once_witness :
  queue (after settling) = [] ∧ jobs_of 0 (called (after settling)) =
    [Forward 1; HostContinuation 3; HostContinuation 5; HostContinuation 4] ∧
  subscribed_to 0 (after settling) ≡ₚ
    jobs_of 0 (called (after settling)) ++ continuations (cell (after settling) 0).
Proof.
  destruct (continuations_exactly_once 20 bool settling [] true (after settling))
    as (Hq & _ & _ & Hp & _).
  - apply after_run. vm_compute. reflexivity.
  - split; [exact Hq|]. split; [vm_compute; reflexivity|]. exact (proj1 (Hp 0%N)).
Defined.

Lemma adoption_follows_witness :
  raw_state (after subscribing) 0 = Pending ∧ Forward 1 ∈ continuations (cell (after subscribing) 0).
Proof.
  apply (adoption_follows 20 bool subscribing [] true (after subscribing) 1 0);
    [apply after_run|..]; vm_compute; reflexivity.
Defined.

Lemma cancel_correct_witness :
  ∃ b s', perform 20 (Cancel 1) (after subscribing) = Some (b, s') ∧
    raw_state s' 1 ≠ Pending ∧ (0%N ∈ dropped s' ∨ raw_state s' 0 ≠ Pending).
Proof.
  destruct (perform 20 (Cancel 1) (after subscribing)) as [[b s']|] eqn:E;
    [|vm_compute in E; discriminate E].
  exists b, s'. split; [reflexivity|].
  destruct (cancel_correct 20 1 (after subscribing) b s' E) as (H1 & _ & _ & H4). split; [exact H1|].
  apply (H4 0%N); vm_compute; reflexivity.
Defined.
