(* ===== verification/Adoption.v ===== *)
(** * Adoption and waiting

    The claims about [Task] that concern one method at a time: what the check
    for adoption cycles computes, that it keeps adoptions acyclic as long as
    reading a state runs no foreign code, and how it is missed otherwise; and
    that waiting for a delayed promise returns its result. *)
From S2P Require Import Prelude Kernel Task Promises.
Import Promise.

(** ** The adoption graph *)
Section graph.
Context {H : Type}.
Implicit Types s : Store H.

(** One step of the walk: from a promise to the one it adopted. *)
Definition adopts s (x y : N) : Prop := adopted_from (cell s x) ≫= upgrade s = Some y.

Definition cyclic_from s (x : N) : Prop := ∃ y, rtc (adopts s) x y ∧ tc (adopts s) y y.

Lemma adopts_det s x y z : adopts s x y → adopts s x z → y = z.
Proof. unfold adopts. congruence. Qed.

Lemma adopts_dom s x y : adopts s x y → x ∈ dom (promises s).
Proof.
  unfold adopts, cell. intros Hx. apply elem_of_dom. by destruct (promises s !! x).
Qed.

Lemma rtc_adopts_step s x y z :
  adopts s x y → rtc (adopts s) x z → x = z ∨ rtc (adopts s) y z.
Proof.
  intros Hxy Hxz. destruct Hxz as [|? w ? Hw Hwz]; [by left|]. right.
  by rewrite (adopts_det s x y w).
Qed.

Lemma cyclic_from_step s x y : adopts s x y → cyclic_from s x ↔ cyclic_from s y.
Proof.
  intros Hxy. split; intros (z & Hz & Hc).
  - destruct (rtc_adopts_step s x y z Hxy Hz) as [<-|Hyz]; [|by exists z].
    exists x. split; [|done]. inversion Hc as [? ? Hx|? w ? Hx Hw]; subst.
    + by rewrite (adopts_det s _ _ _ Hxy Hx).
    + rewrite (adopts_det s _ _ _ Hx Hxy) in Hw. by apply tc_rtc.
  - exists z. split; [by eapply rtc_l|done].
Qed.

Lemma adoption_walk_spec fuel p seen x s :
  (∀ y, y ∈ seen → y ∈ dom (promises s) ∧ tc (adopts s) y x) →
  size (dom (promises s)) < fuel + size seen →
  adoption_walk fuel p seen x s = true ↔ rtc (adopts s) x p ∨ cyclic_from s x.
Proof.
  revert seen x. induction fuel as [|fuel IH]; intros seen x Hseen Hfuel; cbn [adoption_walk].
  { pose proof (subseteq_size seen (dom (promises s))) as Hsub. exfalso.
    assert (seen ⊆ dom (promises s)) by (intros y Hy; by apply Hseen). apply Hsub in H0. lia. }
  destruct (decide (p = x)) as [->|Hp]; [split; [by left|done]|].
  destruct (decide (x ∈ seen)) as [Hx|Hx].
  { split; [|done]. right. exists x. split; [done|by apply Hseen]. }
  destruct (adopted_from (cell s x) ≫= upgrade s) as [y|] eqn:Hy.
  - rewrite IH.
    + rewrite (cyclic_from_step s x y Hy).
      assert (rtc (adopts s) x p → rtc (adopts s) y p).
      { intros Hxp. by destruct (rtc_adopts_step s x y p Hy Hxp). }
      assert (rtc (adopts s) y p → rtc (adopts s) x p) by by eapply rtc_l.
      tauto.
    + intros z [->%elem_of_singleton|Hz]%elem_of_union.
      * split; [by eapply adopts_dom|by apply tc_once].
      * destruct (Hseen z Hz). split; [done|by eapply tc_r].
    + rewrite size_union, size_singleton by set_solver. lia.
  - assert (∀ z, ¬ adopts s x z) as Hn by (intros z; unfold adopts; by rewrite Hy).
    split; [done|]. intros [Hr|(z & Hz & Hc)].
    + by inversion Hr; subst; [|edestruct Hn].
    + inversion Hz; subst; [|by edestruct Hn]. by inversion Hc; subst; edestruct Hn.
Qed.

(** The cycle check of [adopt] decides whether the source already follows
    the promise through adoptions (or follows a cycle), and its loop ends
    within the number of promises. *)
Theorem adoption_would_cycle_correct p source s :
  adoption_would_cycle p source s = true ↔ rtc (adopts s) source p ∨ cyclic_from s source.
Proof.
  apply adoption_walk_spec; [by intros y ?%elem_of_empty|].
  rewrite size_empty, size_dom. lia.
Qed.
End graph.

(** ** Adoption on a quiet store

    Reading a state runs the poller of [adopt] only: nothing is due, and no
    promise has another poller. *)
Section quiet.
Context {H : Type} `{!Host H}.
Implicit Types s : Store H.

Record quiet s : Prop := {
  q_deferred p : deferred (cell s p) = None;
  q_poller p : poller (hooks (cell s p)) = FromSource <$> adopted_from (cell s p);
  q_dropped : dropped s = ∅;
}.

Definition acyclic s : Prop := ∀ x, ¬ tc (adopts s) x x.

Lemma quiet_adopts s x y : quiet s → adopts s x y ↔ adopted_from (cell s x) = Some y.
Proof.
  intros Hq. unfold adopts, upgrade. rewrite (q_dropped s Hq).
  destruct (adopted_from (cell s x)) as [z|]; cbn; [|done]. by rewrite decide_False by set_solver.
Qed.

Lemma quiet_state_from s fuel (seen : gset N) x :
  quiet s → acyclic s → (∀ y, y ∈ seen → y ∈ dom (promises s) ∧ tc (adopts s) y x) →
  size (dom (promises s)) < fuel + size seen →
  perform fuel (State x) s = Some (raw_state s x, s).
Proof.
  intros Hq Ha. revert seen x. induction fuel as [|fuel IH]; intros seen x Hseen Hfuel.
  { assert (seen ⊆ dom (promises s)) as Hsub%subseteq_size by (intros y Hy; by apply Hseen). lia. }
  cbn [perform method]. unfold state, run_deferred_if_ready, mbind, op_bind, read.
  rewrite (q_deferred s Hq). cbn [mret op_ret]. rewrite (q_poller s Hq).
  destruct (adopted_from (cell s x)) as [y|] eqn:Hy; cbn -[perform]; [|done].
  unfold mbind, op_bind. apply (quiet_adopts s x y Hq) in Hy. rewrite (IH ({[x]} ∪ seen)); [done| |].
  - intros z [->%elem_of_singleton|Hz]%elem_of_union.
    + split; [by eapply adopts_dom|by apply tc_once].
    + destruct (Hseen z Hz). split; [done|by eapply tc_r].
  - rewrite size_union, size_singleton; [lia|]. intros z ->%elem_of_singleton Hz.
    by apply (Ha x), Hseen.
Qed.

(** Reading a state changes nothing, within a unit of fuel per promise. *)
Lemma quiet_state s fuel x :
  quiet s → acyclic s → size (promises s) < fuel → perform fuel (State x) s = Some (raw_state s x, s).
Proof.
  intros Hq Ha Hfuel. apply (quiet_state_from s fuel ∅); [done..|by intros y ?%elem_of_empty|].
  rewrite size_empty, size_dom. lia.
Qed.

(** *** The new edge *)
Definition links s s' (p q : N) : Prop :=
  ∀ x y, adopts s' x y ↔ if decide (x = p) then y = q else adopts s x y.

Lemma links_from s s' p q y :
  links s s' p q → ¬ rtc (adopts s) q p → rtc (adopts s') q y → rtc (adopts s) q y.
Proof.
  intros Hl Hn. apply (rtc_ind_r (λ y, rtc (adopts s) q y)); [done|].
  intros x z _ Hz Hx. apply Hl in Hz. case_decide; [by subst|]. by eapply rtc_r.
Qed.

Lemma links_path s s' p q x y :
  links s s' p q → tc (adopts s') x y →
  tc (adopts s) x y ∨ (rtc (adopts s') x p ∧ rtc (adopts s') q y).
Proof.
  intros Hl. induction 1 as [x y Hxy|x z y Hxz Hzy IH].
  - apply Hl in Hxy. case_decide; subst; [by right|left; by apply tc_once].
  - pose proof Hxz as Hxz'. apply Hl in Hxz. case_decide; subst.
    + right. split; [done|by apply tc_rtc].
    + destruct IH as [|[Hp Hq]]; [left; by eapply tc_l|]. right. split; [by eapply rtc_l|done].
Qed.

Lemma links_acyclic s s' p q :
  links s s' p q → acyclic s → ¬ rtc (adopts s) q p → acyclic s'.
Proof.
  intros Hl Ha Hn x Hx. destruct (links_path s s' p q x x Hl Hx) as [|[Hxp Hqx]]; [by apply (Ha x)|].
  apply Hn. eapply links_from; [done..|]. by etrans.
Qed.

(** The cell [adopt] leaves behind. *)
Definition adopting (q : N) (c : PromiseInner) : PromiseInner :=
  set_waiter (FromSource q) (set_poller (FromSource q) (set_adopted_from (Some q) c)).

Lemma set_cell_twice p c c' s : set_cell p c' (set_cell p c s) = set_cell p c' s.
Proof. unfold set_cell. cbn. by rewrite insert_insert_eq. Qed.

Lemma update_cell_twice p f g s : update_cell p g (update_cell p f s) = update_cell p (g ∘ f) s.
Proof.
  unfold update_cell. rewrite cell_set_cell, decide_True, set_cell_twice by done. done.
Qed.

Lemma quiet_adopting p q s :
  quiet s → quiet (update_cell p (adopting q) s) ∧ links s (update_cell p (adopting q) s) p q.
Proof.
  intros Hs. assert (quiet (update_cell p (adopting q) s)) as Hs'.
  { split; [| |apply (q_dropped s Hs)]; intros x; unfold update_cell; rewrite cell_set_cell;
      case_decide; subst; cbn; [apply Hs..|done|apply Hs]. }
  split; [done|]. intros x y. rewrite (quiet_adopts _ x y Hs').
  unfold update_cell. rewrite cell_set_cell. case_decide; cbn; [naive_solver|].
  by rewrite (quiet_adopts s).
Qed.

(** Adding a continuation leaves the graph alone. *)
Lemma quiet_same s s' :
  quiet s → dropped s' = dropped s →
  (∀ p, deferred (cell s' p) = deferred (cell s p) ∧ hooks (cell s' p) = hooks (cell s p) ∧
        adopted_from (cell s' p) = adopted_from (cell s p)) →
  quiet s' ∧ (∀ x y, adopts s' x y ↔ adopts s x y).
Proof.
  intros Hs Hd Hc. assert (quiet s') as Hs'.
  { split; intros; [destruct (Hc p) as (-> & _ & _)|destruct (Hc p) as (_ & -> & ->)|rewrite Hd]; apply Hs. }
  split; [done|]. intros x y. rewrite !quiet_adopts by done. by destruct (Hc x) as (_ & _ & ->).
Qed.

Definition ADOPTION_CYCLE : PromiseState := Rejected (RMessage "promise adoption cycle").

(** Subscribing to a pending promise of a quiet store. *)
Lemma quiet_on_settle s n p k :
  quiet s → acyclic s → size (promises s) < n → raw_state s p = Pending →
  ∃ s', perform (S n) (OnSettle p k) s = Some (tt, s') ∧
        quiet s' ∧ (∀ x y, adopts s' x y ↔ adopts s x y) ∧
        (∀ q, adopted_from (cell s' q) = adopted_from (cell s q)) ∧ k ∈ continuations (cell s' p).
Proof.
  intros Hq Ha Hn Hp. set (s1 := subscribe p k (update_cell p (push_continuation k) s)).
  assert (∀ q, deferred (cell s1 q) = deferred (cell s q) ∧ hooks (cell s1 q) = hooks (cell s q) ∧
               adopted_from (cell s1 q) = adopted_from (cell s q)) as H1.
  { intros q. unfold s1, update_cell. rewrite cell_subscribe, cell_set_cell. case_decide; by subst. }
  assert (k ∈ continuations (cell s1 p)) as Hk.
  { unfold s1, update_cell. rewrite cell_subscribe, cell_set_cell, decide_True by done.
    cbn. apply elem_of_app. right. by left. }
  destruct (register_progress (H:=H) p s1) as [[[] s2]|] eqn:Hr; [|done].
  exists s2. split.
  - cbn [perform method]. unfold on_settle, mbind, op_bind.
    rewrite (quiet_state s n p Hq Ha Hn), Hp. cbn [is_pending]. exact Hr.
  - assert (∀ q, cell s2 q = cell s1 q ∨
        cell s2 q = set_progress_registered true (cell s1 q)) as H2.
    { intros q. injection Hr as <-. case_match; [by left|].
      unfold update_cell. change (cell (with_subscribed ?l ?s) q) with (cell s q).
      rewrite cell_set_cell. case_decide; subst; [by right|by left]. }
    assert (dropped s2 = dropped s) as Hd by (injection Hr as <-; by case_match).
    destruct (quiet_same s s2 Hq Hd) as [Hq2 Hl].
    { intros q. destruct (H1 q) as (<- & <- & <-). by destruct (H2 q) as [->| ->]. }
    split_and!; [done|done| |].
    + intros q. destruct (H1 q) as (_ & _ & <-). by destruct (H2 q) as [->| ->].
    + by destruct (H2 p) as [->| ->].
Qed.

(** C26. On a quiet, acyclic store, adopting a pending promise either links the
    two - recording the source and subscribing to it - and keeps the store
    quiet and acyclic, or, when that would close a cycle, rejects the adopting
    promise instead. *)
Theorem adopt_correct s p q :
  quiet s → acyclic s → raw_state s p = Pending → raw_state s q = Pending →
  (¬ (p = q ∨ rtc (adopts s) q p) →
   ∃ fuel s', perform fuel (Adopt p q) s = Some (true, s') ∧
     adopted_from (cell s' p) = Some q ∧ Forward p ∈ continuations (cell s' q) ∧
     quiet s' ∧ acyclic s') ∧
  (p = q ∨ rtc (adopts s) q p → ∀ fuel b s', perform fuel (Adopt p q) s = Some (b, s') →
   b = true ∧ raw_state s' p = ADOPTION_CYCLE).
Proof.
  intros Hq Ha Hp Hs. assert (adoption_would_cycle p q s = true ↔ rtc (adopts s) q p) as Hc.
  { unfold adoption_would_cycle. rewrite adoption_walk_spec.
    - split; [|by left]. intros [|(y & _ & Hy)]; [done|by destruct (Ha y)].
    - by intros y ?%elem_of_empty.
    - rewrite size_empty, size_dom. lia. }
  split.
  - intros Hn. set (n := S (S (size (promises s)))).
    destruct (quiet_adopting p q s Hq) as [Hq1 Hl].
    set (s1 := update_cell p (adopting q) s) in *.
    assert (acyclic s1) as Ha1 by (eapply links_acyclic; [exact Hl|done|tauto]).
    assert (raw_state s1 q = Pending) as Hs1.
    { unfold raw_state, s1, update_cell. rewrite cell_set_cell. case_decide; by subst. }
    destruct (quiet_on_settle s1 n q (Forward p)) as (s2 & Hset & Hq2 & Hl2 & Hf2 & Hk2); [done..| |done|].
    { unfold s1, update_cell, set_cell. cbn -[cell]. destruct (decide (p ∈ dom (promises s))) as [Hin|Hin].
      - rewrite <-!size_dom, dom_insert_L, subseteq_union_1_L by set_solver. rewrite size_dom. lia.
      - rewrite map_size_insert_None by (by apply not_elem_of_dom). lia. }
    exists (S (S n)), s2. split_and!; [|rewrite Hf2|done|done|].
    + change (adopt (λ A, perform (S n) (A:=A)) p q s = Some (true, s2)).
      unfold adopt, read, mbind, op_bind, write. rewrite bool_decide_false by tauto.
      destruct (adoption_would_cycle p q s) eqn:Hw; [tauto|]. cbn [orb]. cbv beta.
      rewrite quiet_state, Hs by (done || (unfold n; lia)). cbv beta iota.
      rewrite quiet_state, Hp by (done || (unfold n; lia)). cbv beta iota. cbn [is_pending negb].
      assert (update_cell p (set_waiter (FromSource q)) (update_cell p (set_poller (FromSource q))
        (update_cell p (set_adopted_from (Some q)) s)) = s1) as ->.
      { unfold s1. rewrite !update_cell_twice. reflexivity. }
      by rewrite Hset.
    + unfold s1, update_cell. by rewrite cell_set_cell, decide_True.
    + assert (∀ x y, tc (adopts s2) x y → tc (adopts s1) x y) as Htc.
      { induction 1 as [x y Hxy|x y z Hxy _ IH]; [apply tc_once|eapply tc_l; [|exact IH]]; by apply Hl2. }
      intros x Hx. by apply (Ha1 x), Htc.
  - intros Hcyc fuel b s' Hb. destruct fuel as [|fuel]; [done|]. cbn [perform method] in Hb.
    unfold adopt in Hb. apply bind_some in Hb as (c & s1 & [= <- <-] & Hb).
    rewrite (proj2 (orb_true_iff _ _)) in Hb.
    + destruct (settle_spec _ _ _ _ _ _ Hb) as [-> ->]; [done|]. by rewrite Hp.
    + destruct Hcyc as [->|Hr]; [left; by apply bool_decide_true|right; by apply Hc].
Qed.
End quiet.

(** ** A cycle the check misses

    Promise 1 is due, and its task returns promise 0. *)
Definition crossing : script (list N) bool :=
  Invoke New (λ a, Invoke New (λ b, Invoke (Schedule b 5 1) (λ _,
  Invoke (Elapse 5) (λ _, Return true)))).

(** Two promises that poll each other. *)
Record spinning (s : Store (list N)) : Prop := {
  sp_deferred p : (p = 0 ∨ p = 1)%N → deferred (cell s p) = None;
  sp_zero : poller (hooks (cell s 0)) = Some (FromSource 1);
  sp_one : poller (hooks (cell s 1)) = Some (FromSource 0);
}.

Lemma spinning_state s fuel p :
  spinning s → (p = 0 ∨ p = 1)%N → perform fuel (State p) s = None.
Proof.
  intros Hs. revert p. induction fuel as [|fuel IH]; intros p Hp; [done|]. cbn [perform method].
  unfold state, run_deferred_if_ready, mbind, op_bind, read. rewrite (sp_deferred s Hs p Hp).
  cbn [mret op_ret]. destruct Hp as [-> | ->]; [rewrite (sp_zero s Hs)|rewrite (sp_one s Hs)];
    cbn -[perform]; unfold mbind, op_bind; rewrite IH; auto.
Qed.

(** The store after a method of known result. *)
Definition next {A} (c : command A) (s : Store (list N)) : Store (list N) :=
  match perform 20 c s with Some (_, s') => s' | None => s end.

Lemma perform_next {A} (c : command A) s x n :
  fst <$> perform 20 c s = Some x → 20 ≤ n → perform n c s = Some (x, next c s).
Proof.
  unfold next. intros Hx Hn. destruct (perform 20 c s) as [[y s']|] eqn:E; [|done].
  injection Hx as ->. by apply (perform_more 20).
Qed.

Definition polled : Store (list N) := next (State 0) (next (State 1) (after crossing)).
Definition crossed : Store (list N) :=
  update_cell 0 (set_waiter (FromSource 1)) (update_cell 0 (set_poller (FromSource 1))
    (update_cell 0 (set_adopted_from (Some 1%N)) polled)).

Lemma crossed_spinning : spinning crossed.
Proof. split; [intros p [-> | ->]|..]; vm_compute; reflexivity. Qed.

(** [adopt] checks for a cycle before it reads the state of the source. That
    read may run the source's delayed task, whose result may make the source
    adopt the promise; then both adopt each other and the next read of either
    never returns: the call has no result for any fuel, although no cycle was
    there when it was checked. *)
Theorem adoption_cycle_missed :
  fst <$> perform_script 20 crossing (store_new []) = Some true ∧
  raw_state (after crossing) 0 = Pending ∧ raw_state (after crossing) 1 = Pending ∧
  adoption_would_cycle 0 1 (after crossing) = false ∧
  (∀ fuel, perform fuel (Adopt 0 1) (after crossing) = None).
Proof.
  split_and!; [vm_compute; reflexivity..|]. intros fuel.
  destruct (perform fuel (Adopt 0 1) (after crossing)) as [[b s']|] eqn:E; [exfalso|done].
  apply (perform_more fuel (S (S (fuel + 20)))) in E; [|lia].
  set (n := S (fuel + 20)) in E. assert (20 ≤ n) as Hn by lia.
  change (adopt (λ A, perform n (A:=A)) 0 1 (after crossing) = Some (b, s')) in E.
  unfold adopt in E. apply bind_some in E as (c & s0 & [= <- <-] & E).
  replace (adoption_would_cycle 0 1 (after crossing)) with false in E
    by (vm_compute; reflexivity).
  unfold mbind, op_bind, read, write in E. cbv beta in E.
  rewrite (perform_next (State 1) _ Pending n) in E; [|vm_compute; reflexivity|done].
  cbv beta iota in E.
  rewrite (perform_next (State 0) _ Pending n) in E; [|vm_compute; reflexivity|done].
  cbv beta iota in E. cbn [is_pending negb] in E. fold polled in E. fold crossed in E.
  change (perform n (OnSettle 1 (Forward 0)) crossed) with
    (on_settle (λ A, perform (fuel + 20) (A:=A)) 1 (Forward 0) crossed) in E.
  unfold on_settle, mbind, op_bind in E.
  rewrite (spinning_state _ _ 1 crossed_spinning) in E; [done|by right].
Qed.

(** ** Waiting for a delayed promise *)
Section waiting.
Context {H : Type} `{!Host H}.
Implicit Types s : Store H.

(** Only the delay can settle [p]: it has no hooks, nobody subscribed to it,
    and no other promise makes progress meanwhile. *)
Record delayed s (p due task : N) : Prop := {
  d_state : raw_state s p = Pending;
  d_deferred : deferred (cell s p) = Some (due, task);
  d_hooks : hooks (cell s p) = hooks_default;
  d_continuations : continuations (cell s p) = [];
  d_subscribed : subscribed s = [];
}.

Definition is_promise (v : Value) : bool := match v with VPromise _ => true | _ => false end.

Lemma progress_nothing s fuel : subscribed s = [] → 0 < fuel → perform fuel Progress s = Some (tt, s).
Proof.
  intros Hs Hf. destruct fuel as [|fuel]; [lia|]. cbn [perform method].
  unfold progress_subscribed_promises, write, read, mbind, op_bind. rewrite Hs. cbn.
  destruct s. cbn in Hs. by subst.
Qed.

Lemma delayed_early s p due task fuel :
  delayed s p due task → (clock s < due)%N → 0 < fuel → perform fuel (State p) s = Some (Pending, s).
Proof.
  intros Hd Hlt Hf. destruct fuel as [|fuel]; [lia|]. cbn [perform method].
  unfold state, run_deferred_if_ready, read, mbind, op_bind.
  rewrite (d_deferred _ _ _ _ Hd), (proj2 (N.leb_gt _ _)) by done. cbn [mret op_ret].
  rewrite (d_hooks _ _ _ _ Hd). cbn. by rewrite (d_state _ _ _ _ Hd).
Qed.

Lemma delayed_due s p due task v fuel :
  delayed s p due task → (due ≤ clock s)%N → on_task task = Return (Ok v) → is_promise v = false →
  0 < fuel → ∃ s', perform fuel (State p) s = Some (Fulfilled v, s') ∧
    clock s' = clock s ∧ raw_state s' p = Fulfilled v.
Proof.
  intros Hd Hle Htask Hv Hf. destruct fuel as [|fuel]; [lia|]. cbn [perform method].
  set (s1 := update_cell p (set_deferred None) s).
  assert (settle_result (λ A, perform fuel (A:=A)) p (Ok v) s1 = Some (tt, set_cell p
    (mkInner (Fulfilled v) [] None hooks_default None (progress_registered (cell s1 p))) s1)) as Hset.
  { assert (raw_state s1 p = Pending) as Hs1.
    { unfold s1, raw_state, update_cell. rewrite cell_set_cell, decide_True by done. apply Hd. }
    assert (continuations (cell s1 p) = []) as Hk1.
    { unfold s1, update_cell. rewrite cell_set_cell, decide_True by done. apply Hd. }
    unfold raw_state in Hs1. destruct v; try done;
      unfold settle_result, settle, take_continuations, mbind, op_bind;
      rewrite Hs1, Hk1; done. }
  set (s2 := set_cell p _ s1) in Hset.
  assert (cell s2 p = mkInner (Fulfilled v) [] None hooks_default None (progress_registered (cell s1 p)))
    as Hc by (unfold s2; by rewrite cell_set_cell, decide_True).
  exists s2. unfold state, run_deferred_if_ready, read, write, mbind, op_bind.
  rewrite (d_deferred _ _ _ _ Hd), (proj2 (N.leb_le _ _)), Htask by done. cbn [run mret op_ret].
  fold s1. rewrite Hset. cbv beta iota. rewrite Hc. cbn [poll poller hooks hooks_default].
  unfold mret, op_ret. cbv beta iota. unfold raw_state. by rewrite Hc.
Qed.

Lemma delayed_sleep s p due task d :
  delayed s p due task → delayed (with_clock (clock s + d)%N s) p due task.
Proof. intros Hd. split; apply Hd. Qed.

(** Waiting for a delayed promise returns the result of its task and sleeps
    exactly until it is due, within one nesting per millisecond of delay. *)
Theorem wait_delayed s p due task v fuel :
  delayed s p due task → on_task task = Return (Ok v) → is_promise v = false →
  N.to_nat ((due - clock s + 999999) / 1000000) + 1 < fuel →
  ∃ s', perform fuel (WaitState p) s = Some (Fulfilled v, s') ∧
    clock s' = N.max (clock s) due ∧ raw_state s' p = Fulfilled v.
Proof.
  revert s. induction fuel as [|fuel IH]; intros s Hd Htask Hv Hfuel; [by apply Nat.nlt_0_r in Hfuel|].
  assert (0 < fuel) as Hpos by (revert Hfuel; generalize (N.to_nat ((due - clock s + 999999) / 1000000)); lia).
  cbn [perform method]. unfold wait_state, mbind, op_bind.
  rewrite progress_nothing by (done || apply Hd).
  destruct (N.le_gt_cases due (clock s)) as [Hle|Hlt].
  - destruct (delayed_due s p due task v fuel Hd Hle Htask Hv Hpos) as (s' & -> & Hclk & Hst).
    cbn [is_pending negb]. exists s'. split_and!; [done| |done].
    rewrite Hclk. by rewrite N.max_l.
  - rewrite (delayed_early s p due task) by done. cbn [is_pending negb].
    unfold read, sleep, write. rewrite (d_hooks _ _ _ _ Hd), (d_deferred _ _ _ _ Hd). cbn -[perform N.min N.sub].
    set (d := N.min (due - clock s) MILLISECOND).
    destruct (IH (with_clock (clock s + d)%N s)) as (s' & Hw & Hclk & Hst);
      [by apply delayed_sleep|done|done| |].
    + unfold d in *. cbn [clock with_clock]. unfold MILLISECOND in *.
      assert ((due - (clock s + N.min (due - clock s) 1000000) + 999999) / 1000000 + 1 =
              (due - clock s + 999999) / 1000000)%N as Hdiv.
      { destruct (N.le_gt_cases (due - clock s) 1000000) as [Hs|Hs]; [rewrite N.min_l by lia|rewrite N.min_r by lia].
        - replace (due - (clock s + (due - clock s)))%N with 0%N by lia.
          apply N.div_unique with ((due - clock s) - 1)%N; [lia|]. change ((0 + 999999) / 1000000)%N with 0%N. lia.
        - replace (due - clock s + 999999)%N with
            ((due - (clock s + 1000000) + 999999) + 1 * 1000000)%N by lia.
          by rewrite N.div_add. }
      rewrite <-Hdiv, N2Nat.inj_add in Hfuel. revert Hfuel.
      generalize (N.to_nat ((due - (clock s + N.min (due - clock s) 1000000) + 999999) / 1000000)). lia.
    + exists s'. split; [exact Hw|]. split; [|done]. rewrite Hclk. cbn [clock with_clock]. unfold d, MILLISECOND. lia.
Qed.
End waiting.

(** ** Concrete runs *)

(** Two fresh promises, 0 and 1. *)
Definition pair_of_promises : Store (list N) := next New (next New (store_new [])).

Lemma cell_next_new s q : cell (next New s) q = cell s q.
Proof.
  unfold next. destruct (perform 20 New s) as [[p s']|] eqn:E; [|done].
  change (new s = Some (p, s')) in E. by apply new_spec in E as [_ ->].
Qed.

Lemma pair_cells q : cell pair_of_promises q = inner_new.
Proof. unfold pair_of_promises. by rewrite !cell_next_new. Qed.

Lemma adopt_correct_witness :
  (∃ fuel s', perform fuel (Adopt 0 1) pair_of_promises = Some (true, s') ∧
     adopted_from (cell s' 0) = Some 1%N ∧ Forward 0 ∈ continuations (cell s' 1) ∧ acyclic s') ∧
  (∀ fuel b s', perform fuel (Adopt 0 0) pair_of_promises = Some (b, s') →
     b = true ∧ raw_state s' 0 = ADOPTION_CYCLE).
Proof.
  assert (quiet pair_of_promises) as Hq.
  { split; [intros p; by rewrite pair_cells..|vm_compute; reflexivity]. }
  assert (∀ x y, ¬ adopts pair_of_promises x y) as Hn.
  { intros x y. unfold adopts. by rewrite pair_cells. }
  assert (acyclic pair_of_promises) as Ha.
  { intros x Hx. by destruct Hx; edestruct Hn. }
  split.
  - destruct (adopt_correct pair_of_promises 0 1) as [H1 _];
      [exact Hq|exact Ha|vm_compute; reflexivity|vm_compute; reflexivity|].
    destruct H1 as (fuel & s' & H1 & H2 & H3 & _ & H4).
    { intros [[=]|Hr]. inversion Hr as [|? z ? Hz]; by apply (Hn 1%N z). }
    by exists fuel, s'.
  - destruct (adopt_correct pair_of_promises 0 0) as [_ H1];
      [exact Hq|exact Ha|vm_compute; reflexivity|vm_compute; reflexivity|].
    apply H1. by left.
Defined.

(** Promise 0, due in 5.5 milliseconds. *)
Definition due_later : Store (list N) := next (Schedule 0 5500000 2) (next New (store_new [])).

Lemma wait_delayed_witness :
  ∃ s', perform 8 (WaitState 0) due_later = Some (Fulfilled (VNumber 42), s') ∧
    clock s' = 5500000%N ∧ raw_state s' 0 = Fulfilled (VNumber 42).
Proof.
  apply (wait_delayed due_later 0 5500000 2 (VNumber 42) 8);
    [split; vm_compute; reflexivity|reflexivity|reflexivity|apply Nat.ltb_lt; vm_compute; reflexivity].
Defined.
