(* ===== verification/Program.v ===== *)
(** * Programs

    [src/core/rust/src/vm/program.rs] and [vm/source_map.rs]: the compiled
    program, its limits and its schema queries. *)
From S2P Require Import Prelude Bytes Opcode Kernel.

(** ** Limits *)
Definition MAX_CONSTANTS : N := 2 ^ 24.
Definition MAX_INSTRUCTIONS : N := 2 ^ 24.
Definition MAX_LOCALS : N := U16_MAX.
Definition MAX_OPERAND_STACK : Z := 4096.

(** ** Source maps *)
Definition SourceMap := list (option Position).
Definition record (m : SourceMap) (position : option Position) : SourceMap := m ++ [position].
Definition source_map_pop (m : SourceMap) : SourceMap := take (pred (length m)) m.
Definition position_at (m : SourceMap) (instruction : nat) : option Position :=
  mjoin (m !! instruction).

(** ** Functions *)
Record CatchEntry := mkCatchEntry { class : string; binding : N; catch_target : N }.
Record TryEntry := mkTryEntry {
  try_start : N;
  try_end : N;
  depth : N;
  catches : list CatchEntry;
  finally : option N;
  pending_value : option N;
  pending_error : option N;
}.
Record FunctionPrototype := mkFunction {
  name : option string;
  async_function : bool;
  arity : N;
  variadic : bool;
  capture_count : N;
  local_count : N;
  max_stack : N;
  code : list Instruction;
  source_map : SourceMap;
  handlers : list TryEntry;
}.

(** ** Programs *)
Record Program := mkProgram {
  namespace : option string;
  constants : list Value;
  var_metadata : list Metadata;
  schema_types : gmap string SchemaType;
  function_types : gmap string SchemaType;
  inferred_function_types : gmap string SchemaType;
  functions : list FunctionPrototype;
  entry : N;
}.

(** [&self.functions[self.entry]]: [None] is the panic. *)
Definition entry_function (p : Program) : option FunctionPrototype :=
  functions p !! N.to_nat (entry p).

(** The [while let SchemaType::Reference] loop of [function_schema]. *)
Fixpoint resolve_reference (fuel : nat) (types : gmap string SchemaType)
    (visited : gset string) (schema : SchemaType) : SchemaType :=
  match fuel, schema with
  | S fuel, Reference target =>
      if decide (target ∈ visited) then schema else
      match types !! target with
      | None => schema
      | Some resolved => resolve_reference fuel types ({[ target ]} ∪ visited) resolved
      end
  | _, _ => schema
  end.

Definition qualified_name (p : Program) (f : FunctionPrototype) : option string :=
  n ← name f;
  if string_contains SLASH n then Some n
  else ns ← namespace p; Some (ns +:+ "/" +:+ n).

Definition function_schema (p : Program) (function : N) : option SchemaType :=
  prototype ← functions p !! N.to_nat function;
  qualified ← qualified_name p prototype;
  schema ← (match function_types p !! qualified with
            | Some schema => Some schema
            | None => inferred_function_types p !! qualified
            end);
  Some (resolve_reference (S (size (schema_types p))) (schema_types p) ∅ schema).

Definition is_i64 (value : SchemaType) : bool :=
  match value with
  | Primitive name => bool_decide (name = "int") || bool_decide (name = "long")
  | _ => false
  end.

Definition function_has_i64_parameters (p : Program) (function : N) : bool :=
  match functions p !! N.to_nat function with
  | None => false
  | Some prototype =>
      match function_schema p function with
      | Some (Function_ arities) =>
          existsb (λ arity_schema,
            (length (fixed arity_schema) =? N.to_nat (arity prototype)) &&
            eqb (is_some (rest arity_schema)) (variadic prototype) &&
            forallb is_i64 (fixed arity_schema) &&
            match rest arity_schema with Some value => is_i64 value | None => true end)
            arities
      | _ => false
      end
  end.

(** ** Schema resolution *)
Section resolution.
Variable types : gmap string SchemaType.

(** One step of following a named schema. *)
Definition follows (s s' : SchemaType) : Prop :=
  ∃ target, s = Reference target ∧ types !! target = Some s'.

(** The schemas a resolution may have stepped through. *)
Definition unvisited (visited : gset string) : nat := size (dom types ∖ visited).

Lemma unvisited_insert visited target s :
  types !! target = Some s → target ∉ visited →
  S (unvisited ({[ target ]} ∪ visited)) = unvisited visited.
Proof.
  intros Ht Hv. apply elem_of_dom_2 in Ht. unfold unvisited.
  assert (dom types ∖ visited = {[ target ]} ∪ (dom types ∖ ({[ target ]} ∪ visited))) as ->.
  { apply set_eq. intros x. destruct (decide (x = target)); set_solver. }
  assert ({[ target ]} ## dom types ∖ ({[ target ]} ∪ visited)) as Hdisj by set_solver.
  pose proof (size_union _ _ Hdisj) as ->. pose proof (size_singleton (C:=gset string) target). lia.
Qed.

(** The invariant of the loop: every visited name leads back to the schema
    under consideration. *)
Lemma resolve_reference_spec fuel visited s :
  unvisited visited < fuel →
  (∀ t, t ∈ visited → tc follows (Reference t) s) →
  let r := resolve_reference fuel types visited s in
  rtc follows s r ∧ ((∀ s', ¬ follows r s') ∨ tc follows r r).
Proof.
  revert visited s. induction fuel as [|fuel IH]; intros visited s Hfuel Hvisited; [lia|].
  destruct s as [|target| | | | | | | | | | |]; simpl;
    try (split; [done|left; by intros s' (? & ? & ?)]).
  destruct (decide (target ∈ visited)) as [Hin|Hin]; [split; [done|right; auto]|].
  destruct (types !! target) as [s'|] eqn:Ht.
  2: { split; [done|left]. intros s' (? & [= <-] & Hs'). congruence. }
  assert (follows (Reference target) s') as Hstep by (exists target; done).
  destruct (IH ({[ target ]} ∪ visited) s') as [Hr Hend].
  - pose proof (unvisited_insert visited target s' Ht Hin). lia.
  - intros t [->%elem_of_singleton|Hv]%elem_of_union; [by apply tc_once|].
    eapply tc_r; [by apply Hvisited|done].
  - split; [by eapply rtc_l|done].
Qed.

Lemma resolve_reference_fuel fuel fuel' visited s :
  unvisited visited < fuel → unvisited visited < fuel' →
  resolve_reference fuel types visited s = resolve_reference fuel' types visited s.
Proof.
  revert fuel' visited s. induction fuel as [|fuel IH]; intros [|fuel'] visited s H H'; [lia..|].
  destruct s as [|target| | | | | | | | | | |]; simpl; try done.
  destruct (decide (target ∈ visited)) as [Hin|Hin]; [done|].
  destruct (types !! target) as [s'|] eqn:Ht; [|done].
  pose proof (unvisited_insert visited target s' Ht Hin). apply IH; lia.
Qed.
End resolution.

(** The schema of a function is reached from its annotation by following
    named references, and resolution stops only at a schema that names nothing
    further or at a reference that lies on a cycle; recursive schema graphs
    never make it loop. *)
Theorem function_schema_resolved p function schema :
  function_schema p function = Some schema →
  ∃ f qualified annotation,
    functions p !! N.to_nat function = Some f ∧ qualified_name p f = Some qualified ∧
    (function_types p !! qualified = Some annotation ∨
     function_types p !! qualified = None ∧
     inferred_function_types p !! qualified = Some annotation) ∧
    rtc (follows (schema_types p)) annotation schema ∧
    ((∀ s', ¬ follows (schema_types p) schema s') ∨ tc (follows (schema_types p)) schema schema) ∧
    ∀ extra, resolve_reference (S (size (schema_types p)) + extra) (schema_types p) ∅ annotation
             = schema.
Proof.
  unfold function_schema. intros (f & Hf & (q & Hq & (a & Ha & [= <-])%bind_Some)%bind_Some)%bind_Some.
  assert (unvisited (schema_types p) ∅ < S (size (schema_types p))) as Hfuel.
  { unfold unvisited. rewrite difference_empty_L, size_dom. lia. }
  destruct (resolve_reference_spec (schema_types p) _ ∅ a Hfuel) as [Hr Hend]; [set_solver|].
  exists f, q, a. split_and!; [done|done| |exact Hr|exact Hend|].
  - destruct (function_types p !! q); naive_solver.
  - intros extra. apply (resolve_reference_fuel _ _ (S (size (schema_types p)))); lia.
Qed.

(** A named recursive schema: [:user/f] is annotated by [Node], a cycle. *)
Definition recursive_program : Program :=
  mkProgram (Some "user") [] []
    (<["Node" := Reference "Link"]> (<["Link" := Reference "Node"]> ∅))
    (<["user/f" := Reference "Node"]> ∅) ∅
    [mkFunction (Some "f") false 0 false 0 0 1 [Nil; Return] [None; None] []] 0.

Lemma function_schema_resolved_witness :
  function_schema recursive_program 0 = Some (Reference "Node") ∧
  tc (follows (schema_types recursive_program)) (Reference "Node") (Reference "Node").
Proof.
  split; [vm_compute; reflexivity|].
  destruct (function_schema_resolved recursive_program 0 (Reference "Node"))
    as (f & q & a & _ & _ & _ & _ & [Hend|Hcycle] & _); [vm_compute; reflexivity| |exact Hcycle].
  destruct (Hend (Reference "Link")). exists "Node". split; reflexivity.
Defined.
