(* ===== verification/Scope.v ===== *)
(** * Lexical scopes

    [vm/compiler/scope.rs] under [src/core/rust/src]: the slots of lexical names
    while a function is compiled, with slots reused across sibling scopes, and
    the compile errors of [vm/error.rs]. *)
From S2P Require Import Prelude Bytes Kernel Program.

(** ** Compile errors: vm/error.rs *)
Inductive CompileErrorKind :=
| KParse | KUnsupportedForm | KUnboundSymbol | KArity | KRecur | KInvalidEffect | KLimit | KInternal.
Record CompileError := mkCompileError {
  kind : CompileErrorKind; error_text : string; error_position : option Position }.

#[export] Instance error_kind_eq_dec : EqDecision CompileErrorKind.
Proof. solve_decision. Defined.

(** ** Scope stacks *)
Record Scope := mkScope { names : gmap string N; saved_next : N }.
(** The innermost scope is the head of [scopes]. *)
Record ScopeStack := mkScopeStack { scopes : list Scope; next_slot : N; high_water : N }.

Definition scopes_new : ScopeStack := mkScopeStack [] 0 0.

Definition push_scope (s : ScopeStack) : ScopeStack :=
  mkScopeStack (mkScope ∅ (next_slot s) :: scopes s) (next_slot s) (high_water s).

(** [None] is the panic on an unbalanced pop. *)
Definition pop_scope (s : ScopeStack) : option ScopeStack :=
  match scopes s with
  | scope :: rest => Some (mkScopeStack rest (saved_next scope) (high_water s))
  | [] => None
  end.

Definition slot_limit : CompileError :=
  mkCompileError KLimit "local slots exceed limit of 65535" None.

(** [None] is the panic without an open scope. *)
Definition declare (name : string) (s : ScopeStack) : option (result CompileError (N * ScopeStack)) :=
  match scopes s with
  | [] => None
  | scope :: rest =>
      let slot := next_slot s in
      Some (if (MAX_LOCALS <=? slot)%N then Err slot_limit else
        let next := (slot + 1)%N in
        Ok (slot, mkScopeStack (mkScope (<[name := slot]> (names scope)) (saved_next scope) :: rest)
                    next (N.max (high_water s) next)))
  end.

Definition declare_hidden (s : ScopeStack) : result CompileError (N * ScopeStack) :=
  let slot := next_slot s in
  if (MAX_LOCALS <=? slot)%N then Err slot_limit else
  let next := (slot + 1)%N in
  Ok (slot, mkScopeStack (scopes s) next (N.max (high_water s) next)).

Fixpoint resolve_in (name : string) (scopes : list Scope) : option N :=
  match scopes with
  | [] => None
  | scope :: scopes =>
      match names scope !! name with Some slot => Some slot | None => resolve_in name scopes end
  end.
Definition resolve (s : ScopeStack) (name : string) : option N := resolve_in name (scopes s).

(** ** The lexical environment

    What a stack of scopes means: blocks of bindings, innermost first, the
    latest binding of a block first. A stack represents an environment when
    resolution finds the binding a lookup finds, and no two visible or hidden
    bindings share a slot. *)
Definition environment := list (list (string * N)).

Definition lookup_block (name : string) (b : list (string * N)) : option N :=
  snd <$> head (filter (λ e, e.1 = name) b).
Fixpoint lookup_environment (name : string) (e : environment) : option N :=
  match e with
  | [] => None
  | b :: e => match lookup_block name b with Some slot => Some slot | None => lookup_environment name e end
  end.

(** Every slot of a block is taken between the slots of the blocks outside it
    and [next]. *)
Inductive represents : environment → list Scope → N → Prop :=
| represents_nil next : represents [] [] next
| represents_cons b e scope rest next :
    (∀ name, names scope !! name = lookup_block name b) →
    Forall (λ x, (saved_next scope ≤ x.2 < next)%N) b →
    NoDup b.*2 →
    (saved_next scope ≤ next)%N →
    represents e rest (saved_next scope) →
    represents (b :: e) (scope :: rest) next.

Record scopes_ok (e : environment) (s : ScopeStack) : Prop := {
  scopes_represent : represents e (scopes s) (next_slot s);
  scopes_high : (next_slot s ≤ high_water s ≤ MAX_LOCALS)%N;
}.

Lemma represents_resolve e l n name : represents e l n → resolve_in name l = lookup_environment name e.
Proof.
  induction 1 as [|b e scope rest next Hn _ _ _ _ IH]; simpl; [done|].
  rewrite Hn. by destruct (lookup_block name b).
Qed.

Lemma represents_mono e l n n' : represents e l n → (n ≤ n')%N → represents e l n'.
Proof.
  intros [|b e' scope rest next Hn Hb Hd Hs Hr] Hle; constructor; try done; [|lia].
  eapply Forall_impl; [done|]. intros x [??]. lia.
Qed.

Lemma represents_slots e l n : represents e l n →
  Forall (λ slot, (slot < n)%N) (concat e).*2 ∧ NoDup (concat e).*2.
Proof.
  induction 1 as [|b e scope rest next _ Hb Hd Hs _ [IH1 IH2]]; simpl; [by split; [constructor|constructor]|].
  rewrite fmap_app, Forall_app. split_and!.
  - rewrite Forall_fmap. eapply Forall_impl; [done|]. intros x [??]. simpl. lia.
  - eapply Forall_impl; [done|]. simpl. lia.
  - apply NoDup_app. split_and!; [done| |done].
    intros slot Hin Hout. apply list_elem_of_fmap in Hin as (x & -> & Hx).
    rewrite Forall_forall in Hb; rewrite Forall_forall in IH1. apply Hb in Hx. apply IH1 in Hout. lia.
Qed.

Lemma lookup_environment_slot e name slot :
  lookup_environment name e = Some slot → slot ∈ (concat e).*2.
Proof.
  induction e as [|b e IH]; simpl; [done|].
  destruct (lookup_block name b) as [s|] eqn:Hb.
  - intros [= ->]. rewrite fmap_app. apply elem_of_app. left.
    unfold lookup_block in Hb. destruct (filter _ b) as [|x r] eqn:Hf; [done|]. injection Hb as <-.
    apply list_elem_of_fmap. exists x. split; [done|].
    assert (x ∈ filter (λ e : string * N, e.1 = name) b) as Hx by (rewrite Hf; left).
    by apply list_elem_of_filter in Hx as [_ ?].
  - intros Hs. rewrite fmap_app. apply elem_of_app. auto.
Qed.

(** The slots a resolved name can have are those of the frame. *)
Lemma resolve_below e s name slot :
  scopes_ok e s → resolve s name = Some slot → (slot < high_water s)%N.
Proof.
  intros [Hr [Hh _]] H. unfold resolve in H. rewrite (represents_resolve e _ _ _ Hr) in H.
  apply lookup_environment_slot in H. destruct (represents_slots _ _ _ Hr) as [Hf _].
  rewrite Forall_forall in Hf. apply Hf in H. lia.
Qed.

(** What each operation means for the environment. *)
Record scope_refinement (e : environment) (s : ScopeStack) : Prop := {
  refines_resolve name : resolve s name = lookup_environment name e;
  refines_slots : NoDup (concat e).*2 ∧ Forall (λ slot, (slot < high_water s)%N) (concat e).*2;
  refines_push : scopes_ok ([] :: e) (push_scope s);
  refines_pop b outer : e = b :: outer →
    ∃ s', pop_scope s = Some s' ∧ scopes_ok outer s' ∧ high_water s' = high_water s;
  refines_declare b outer name : e = b :: outer →
    declare name s = Some (Err slot_limit) ∧ next_slot s = MAX_LOCALS ∨
    (∃ slot s', declare name s = Some (Ok (slot, s')) ∧ (slot ∉ (concat e).*2) ∧
      (slot < high_water s')%N ∧ scopes_ok (((name, slot) :: b) :: outer) s');
  refines_hidden :
    declare_hidden s = Err slot_limit ∧ next_slot s = MAX_LOCALS ∨
    (∃ slot s', declare_hidden s = Ok (slot, s') ∧ (slot ∉ (concat e).*2) ∧
      (slot < high_water s')%N ∧ scopes_ok e s' ∧ (slot < next_slot s')%N);
}.

Lemma declare_represents b outer s name :
  scopes_ok (b :: outer) s → (next_slot s < MAX_LOCALS)%N →
  ∃ s', declare name s = Some (Ok (next_slot s, s')) ∧
    scopes_ok (((name, next_slot s) :: b) :: outer) s' ∧ (next_slot s < high_water s')%N.
Proof.
  intros [Hr [Hh Hm]] Hlt. inversion Hr as [|? ? scope rest ? Hn Hb Hd Hs Ho Heq Hscopes]; subst.
  unfold declare. rewrite <- Hscopes. rewrite (proj2 (N.leb_gt _ _)) by done.
  eexists. split_and!; [done| |simpl; lia]. split; simpl; [|lia].
  constructor; simpl; [| | |lia|done].
  - intros n. rewrite lookup_insert. unfold lookup_block. rewrite filter_cons. simpl.
    destruct (decide (name = n)); [done|]. apply Hn.
  - constructor; [simpl; lia|]. eapply Forall_impl; [done|]. intros x [??]. lia.
  - constructor; [|done]. intros Hin. apply list_elem_of_fmap in Hin as (x & Hx & Hin).
    rewrite Forall_forall in Hb. apply Hb in Hin. lia.
Qed.

Lemma scopes_new_ok : scopes_ok [] scopes_new.
Proof. split; [constructor|vm_compute; done]. Qed.

Lemma push_ok e s : scopes_ok e s → scopes_ok ([] :: e) (push_scope s).
Proof. intros [Hr Hh]. split; [|done]. constructor; simpl; try done. constructor. Qed.

(** C17. A scope stack implements the block-structured environment it represents:
    resolution finds the innermost, latest binding; all bindings in scope have
    slots of their own, inside the frame; a declaration takes a free slot or
    reports the limit; closing a scope forgets exactly its bindings and never
    lowers the frame's size. *)
Theorem scope_correct e s : scopes_ok e s → scope_refinement e s.
Proof.
  intros Hok. pose proof Hok as [Hr [Hh Hm]].
  destruct (represents_slots _ _ _ Hr) as [Hf Hd].
  assert (∀ slot, (next_slot s ≤ slot)%N → slot ∉ (concat e).*2) as Hfresh.
  { intros slot Hle Hin. rewrite Forall_forall in Hf. apply Hf in Hin. lia. }
  split.
  - intros name. by apply represents_resolve with (n := next_slot s).
  - split; [done|]. eapply Forall_impl; [done|]. simpl. lia.
  - by apply push_ok.
  - intros b outer ->. inversion Hr as [|? ? scope rest ? _ _ _ Hs Ho Heq Hscopes]; subst.
    unfold pop_scope. rewrite <- Hscopes. eexists. split_and!; [done| |done]. split; simpl; [done|lia].
  - intros b outer name ->. destruct (decide (next_slot s < MAX_LOCALS)%N) as [Hlt|Hge].
    + right. destruct (declare_represents b outer s name Hok Hlt) as (s' & Hs' & Hok' & Hl).
      exists (next_slot s), s'. split_and!; [done|apply Hfresh; lia|done|done].
    + left. unfold declare. destruct (scopes s) as [|scope rest]; [by inversion Hr|].
      rewrite (proj2 (N.leb_le _ _)) by lia. split; [done|lia].
  - unfold declare_hidden. destruct (decide (next_slot s < MAX_LOCALS)%N) as [Hlt|Hge].
    + right. rewrite (proj2 (N.leb_gt _ _)) by done. eexists _, _.
      split_and!; [done|apply Hfresh; lia|simpl; lia| |simpl; lia].
      split; simpl; [|lia]. eapply represents_mono; [done|lia].
    + left. rewrite (proj2 (N.leb_le _ _)) by lia. split; [done|lia].
Qed.

(** A parameter shadowed by a binding of an inner scope. *)
Example scope_correct_witness :
  ∃ s1 s2, declare "x" (push_scope scopes_new) = Some (Ok (0%N, s1)) ∧
    declare "x" (push_scope s1) = Some (Ok (1%N, s2)) ∧
    resolve s2 "x" = Some 1%N ∧ scope_refinement [[("x", 1%N)]; [("x", 0%N)]] s2.
Proof.
  destruct (declare_represents [] [] (push_scope scopes_new) "x") as (s1 & H1 & Hok1 & _);
    [apply push_ok, scopes_new_ok|reflexivity|].
  destruct (declare_represents [] [[("x", 0%N)]] (push_scope s1) "x") as (s2 & H2 & Hok2 & _);
    [by apply push_ok|vm_compute in H1; injection H1 as <-; reflexivity|].
  assert (next_slot (push_scope s1) = 1%N) as Hnext by (vm_compute in H1; injection H1 as <-; reflexivity).
  rewrite Hnext in H2, Hok2. exists s1, s2.
  pose proof (scope_correct _ _ Hok2) as Hs2.
  split_and!; [done|done|by rewrite (refines_resolve _ _ Hs2)|done].
Defined.
