(* ===== verification/Compiler.v ===== *)
(** * The compiler: state and emission

    [vm/compiler.rs] under [src/core/rust/src]: the shared state of a compilation
    and the stack of functions being compiled, the constant pool, emission and
    the patching of jumps; the names a program can refer to, of
    [vm/compiler/globals.rs]; the operators of [core/primitive.rs]. *)
From S2P Require Import Prelude Bytes Text Opcode Kernel Reader Printer Program DefinitionForms Scope.

(** ** Primitive operators: core/primitive.rs *)
Inductive IntrinsicOp :=
| Add | Subtract | Multiply | Divide | Remainder | Modulo | Equal
| Less | LessOrEqual | Greater | GreaterOrEqual.

Definition from_symbol (symbol : string) : option IntrinsicOp :=
  if decide (symbol = "+") then Some Add
  else if decide (symbol = "-") then Some Subtract
  else if decide (symbol = "*") then Some Multiply
  else if decide (symbol = "/") then Some Divide
  else if decide (symbol = "mod") then Some Modulo
  else if decide (symbol = "=") then Some Equal
  else if decide (symbol = "<") then Some Less
  else if decide (symbol = "<=") then Some LessOrEqual
  else if decide (symbol = ">") then Some Greater
  else if decide (symbol = ">=") then Some GreaterOrEqual
  else None.

Definition operator (op : IntrinsicOp) : string :=
  match op with
  | Add => "+" | Subtract => "-" | Multiply => "*" | Divide => "/" | Remainder => "rem"
  | Modulo => "mod" | Equal => "=" | Less => "<" | LessOrEqual => "<=" | Greater => ">"
  | GreaterOrEqual => ">="
  end.

(** ** What the compiler asks of the runtime

    [W] is the state guest code can change: macro expansion and the preparation
    of namespaces run it. A Var is its address; [registry_resolve] and
    [namespace_resolve] take the text [Symbol::parse] is applied to. *)
Class CompilerEnv (W : Type) := {
  vm_macroexpand : Form → prog W string Form;
  prepare_namespace_form : Form → prog W string ();
  form_to_value : Form → result string Value;
  float_value : N → Value;
  character_value : N → Value;
  regex_value : string → Value;
  big_integer_value : Z → Value;
  uuid_tag_value : Value → result string Value;
  (** [matches!(value, Number | Float | BigInteger)]. *)
  is_number : Value → bool;
  (** The language equality of values, [PartialEq for Value]. *)
  value_eqb : Value → Value → bool;
  apply_intrinsic : IntrinsicOp → list Value → result string Value;
  canonical_intrinsic_callable_symbol : string → option string;
  (** The namespace registry: whether one is active, [current().name()],
      [find(name).is_some()], the Vars it and its namespaces resolve. *)
  namespace_registry : W → bool;
  current_namespace : W → string;
  find_namespace : string → W → bool;
  registry_resolve : string → W → option N;
  namespace_resolve : string → string → W → option N;
  lazy_target : string → string → W → option string;
  has_alias : string → string → W → bool;
  var_symbol : N → W → Symbol;
  hara_metadata : N → W → option Metadata;
}.

(** ** Limits and text *)
Definition MAX_PRIMITIVE_ARGUMENTS : nat := 255.
Definition MAX_CAPTURES : nat := 255.

(** [usize as u32], [as u16] and [as u8]. *)
Definition as_u32 (n : nat) : N := (N.of_nat n mod 4294967296)%N.
Definition as_u16 (n : nat) : N := (N.of_nat n mod 65536)%N.
Definition as_u8 (n : nat) : N := (N.of_nat n mod 256)%N.

Fixpoint strip_string (prefix s : string) : option string :=
  match prefix, s with
  | EmptyString, _ => Some s
  | String a prefix, String b s => if decide (a = b) then strip_string prefix s else None
  | String _ _, EmptyString => None
  end.
Definition has_prefix (prefix s : string) : bool := is_some (strip_string prefix s).

(** The [Display] of a [ValidationError]: the instruction has at least four
    digits. *)
Definition validation_text (message : string) (instruction : option N) : string :=
  match instruction with
  | Some i =>
      let digits := utf8 (decimal i) in
      "validation failed at " +:+ String.concat EmptyString (replicate (4 - String.length digits) "0")
        +:+ digits +:+ ": " +:+ message
  | None => "validation failed: " +:+ message
  end.

(** ** Compile state *)
(** A form with its span and, when the parser's nodes match its elements, the
    nodes of the elements. *)
Record Child := mkChild { child_form : Form; child_span : Span; child_nodes : option (list SpannedForm) }.

Record LoopContext := mkLoop { header : nat; loop_slots : list N }.
Record TryContext := mkTry { has_finally : bool; loop_depth : nat }.

(** The heads of [loops] and [tries] are the innermost. *)
Record FnContext := mkFnContext {
  proto_id : nat;
  fn_name : option string;
  params : N;
  fn_variadic : bool;
  suspend_allowed : bool;
  fn_async : bool;
  captures : list (string * option Position);
  fn_code : list Instruction;
  fn_source_map : SourceMap;
  fn_scopes : ScopeStack;
  loops : list LoopContext;
  tries : list TryContext;
  fn_handlers : list TryEntry;
  fallthrough : bool;
}.

Definition with_code (code : list Instruction) (map : SourceMap) (c : FnContext) : FnContext :=
  mkFnContext (proto_id c) (fn_name c) (params c) (fn_variadic c) (suspend_allowed c) (fn_async c)
    (captures c) code map (fn_scopes c) (loops c) (tries c) (fn_handlers c) (fallthrough c).
Definition with_scopes (s : ScopeStack) (c : FnContext) : FnContext :=
  mkFnContext (proto_id c) (fn_name c) (params c) (fn_variadic c) (suspend_allowed c) (fn_async c)
    (captures c) (fn_code c) (fn_source_map c) s (loops c) (tries c) (fn_handlers c) (fallthrough c).
Definition with_loops (l : list LoopContext) (c : FnContext) : FnContext :=
  mkFnContext (proto_id c) (fn_name c) (params c) (fn_variadic c) (suspend_allowed c) (fn_async c)
    (captures c) (fn_code c) (fn_source_map c) (fn_scopes c) l (tries c) (fn_handlers c) (fallthrough c).
Definition with_tries (l : list TryContext) (c : FnContext) : FnContext :=
  mkFnContext (proto_id c) (fn_name c) (params c) (fn_variadic c) (suspend_allowed c) (fn_async c)
    (captures c) (fn_code c) (fn_source_map c) (fn_scopes c) (loops c) l (fn_handlers c) (fallthrough c).
Definition with_handlers (l : list TryEntry) (c : FnContext) : FnContext :=
  mkFnContext (proto_id c) (fn_name c) (params c) (fn_variadic c) (suspend_allowed c) (fn_async c)
    (captures c) (fn_code c) (fn_source_map c) (fn_scopes c) (loops c) (tries c) l (fallthrough c).
Definition with_fallthrough (b : bool) (c : FnContext) : FnContext :=
  mkFnContext (proto_id c) (fn_name c) (params c) (fn_variadic c) (suspend_allowed c) (fn_async c)
    (captures c) (fn_code c) (fn_source_map c) (fn_scopes c) (loops c) (tries c) (fn_handlers c) b.

(** The head of [contexts] is the function being compiled. *)
Record Compiler (W : Type) := mkCompiler {
  own_namespace : string;
  pool : list Value;
  constant_index : list (Value * N);
  prototypes : list FunctionPrototype;
  contexts : list FnContext;
  globals : list string;
  macro_shadows : gset string;
  excluded_foundation_libraries : gset string;
  allow_unbound_globals : bool;
  inline_globals : gmap string string;
  metadata_table : list Metadata;
  top_level : bool;
  next_destructure_id : N;
  world : W;
}.
Arguments mkCompiler {W} _ _ _ _ _ _ _ _ _ _ _ _ _ _.
Arguments own_namespace {W} _.
Arguments pool {W} _.
Arguments constant_index {W} _.
Arguments prototypes {W} _.
Arguments contexts {W} _.
Arguments globals {W} _.
Arguments macro_shadows {W} _.
Arguments excluded_foundation_libraries {W} _.
Arguments allow_unbound_globals {W} _.
Arguments inline_globals {W} _.
Arguments metadata_table {W} _.
Arguments top_level {W} _.
Arguments next_destructure_id {W} _.
Arguments world {W} _.

(** How a compilation ends without a program: with an error, by a panic, by a
    failed debug assertion (in a debug build), or when the fuel of the model
    runs out. *)
Inductive compile_stop :=
| Rejected (error : CompileError)
| Crashed
| Asserted
| Exhausted.

Section compiler.
Context {W : Type} `{CompilerEnv W}.
Abbreviation comp := (prog (Compiler W) compile_stop).
Implicit Types c : Compiler W.

Definition with_pool (l : list Value) (i : list (Value * N)) c : Compiler W :=
  mkCompiler (own_namespace c) l i (prototypes c) (contexts c) (globals c) (macro_shadows c)
    (excluded_foundation_libraries c) (allow_unbound_globals c) (inline_globals c) (metadata_table c)
    (top_level c) (next_destructure_id c) (world c).
Definition with_prototypes (l : list FunctionPrototype) c : Compiler W :=
  mkCompiler (own_namespace c) (pool c) (constant_index c) l (contexts c) (globals c) (macro_shadows c)
    (excluded_foundation_libraries c) (allow_unbound_globals c) (inline_globals c) (metadata_table c)
    (top_level c) (next_destructure_id c) (world c).
Definition with_contexts (l : list FnContext) c : Compiler W :=
  mkCompiler (own_namespace c) (pool c) (constant_index c) (prototypes c) l (globals c) (macro_shadows c)
    (excluded_foundation_libraries c) (allow_unbound_globals c) (inline_globals c) (metadata_table c)
    (top_level c) (next_destructure_id c) (world c).
Definition with_globals (l : list string) c : Compiler W :=
  mkCompiler (own_namespace c) (pool c) (constant_index c) (prototypes c) (contexts c) l (macro_shadows c)
    (excluded_foundation_libraries c) (allow_unbound_globals c) (inline_globals c) (metadata_table c)
    (top_level c) (next_destructure_id c) (world c).
Definition with_macro_shadows (s : gset string) c : Compiler W :=
  mkCompiler (own_namespace c) (pool c) (constant_index c) (prototypes c) (contexts c) (globals c) s
    (excluded_foundation_libraries c) (allow_unbound_globals c) (inline_globals c) (metadata_table c)
    (top_level c) (next_destructure_id c) (world c).
Definition with_inline_globals (m : gmap string string) c : Compiler W :=
  mkCompiler (own_namespace c) (pool c) (constant_index c) (prototypes c) (contexts c) (globals c)
    (macro_shadows c) (excluded_foundation_libraries c) (allow_unbound_globals c) m (metadata_table c)
    (top_level c) (next_destructure_id c) (world c).
Definition with_metadata_table (l : list Metadata) c : Compiler W :=
  mkCompiler (own_namespace c) (pool c) (constant_index c) (prototypes c) (contexts c) (globals c)
    (macro_shadows c) (excluded_foundation_libraries c) (allow_unbound_globals c) (inline_globals c) l
    (top_level c) (next_destructure_id c) (world c).
Definition with_top_level (b : bool) c : Compiler W :=
  mkCompiler (own_namespace c) (pool c) (constant_index c) (prototypes c) (contexts c) (globals c)
    (macro_shadows c) (excluded_foundation_libraries c) (allow_unbound_globals c) (inline_globals c)
    (metadata_table c) b (next_destructure_id c) (world c).
Definition with_runtime (next : N) (w : W) c : Compiler W :=
  mkCompiler (own_namespace c) (pool c) (constant_index c) (prototypes c) (contexts c) (globals c)
    (macro_shadows c) (excluded_foundation_libraries c) (allow_unbound_globals c) (inline_globals c)
    (metadata_table c) (top_level c) next w.

(** [placeholder]. *)
Definition placeholder (name : option string) (arity capture_count : N) (variadic async : bool) :
    FunctionPrototype :=
  mkFunction name async arity variadic capture_count 0 0 [] [] [].

Definition new_context (proto_id : nat) (name : option string) (params : N)
    (variadic suspend_allowed async : bool) (captures : list (string * option Position))
    (scopes : ScopeStack) : FnContext :=
  mkFnContext proto_id name params variadic suspend_allowed async captures [] [] scopes [] [] [] true.

(** [Compiler::new]. *)
Definition compiler_new (excluded : gset string) (allow_unbound : bool) (w : W) : Compiler W :=
  mkCompiler (if namespace_registry w then current_namespace w else "user")
    [] [] [placeholder None 0 0 false false]
    [new_context 0 None 0 false false false [] (push_scope scopes_new)]
    [] ∅ excluded allow_unbound ∅ [] true 0 w.

(** ** Errors *)
Definition reject {A} (k : CompileErrorKind) (message : string) (position : option Position) : comp A :=
  fail (Rejected (mkCompileError k message position)).
Definition reject_at {A} (k : CompileErrorKind) (message : string) (s : Span) : comp A :=
  reject k message (Some (start s)).
(** [map_err] of a runtime error. *)
Definition checked_at {A} (k : CompileErrorKind) (s : Span) (r : result string A) : comp A :=
  match r with Ok x => mret x | Err message => reject_at k message s end.
Definition checked_failure {A} (s : Span) (prefix : string) (r : result failure A) : comp A :=
  match r with
  | Ok x => mret x
  | Err (Failed message) => reject_at KUnsupportedForm (prefix +:+ message) s
  | Err (Panicked _) => fail Crashed
  end.
(** A [Result] of the state's own errors whose panic is [None]. *)
Definition or_crash {A} (o : option A) : comp A :=
  match o with Some x => mret x | None => fail Crashed end.

(** ** The current function *)
Definition ctx : comp FnContext := λ c,
  match contexts c with
  | x :: _ => (Ok x, c)
  | [] => (Err Crashed, c)
  end.
Definition update_ctx (f : FnContext → FnContext) : comp () := λ c,
  match contexts c with
  | x :: rest => (Ok tt, with_contexts (f x :: rest) c)
  | [] => (Err Crashed, c)
  end.
Definition reads_on : comp bool := x ← ctx; mret (fallthrough x).
Definition set_fallthrough (b : bool) : comp () := update_ctx (with_fallthrough b).
Definition here : comp nat := x ← ctx; mret (length (fn_code x)).
Definition lookup_name (name : string) : comp (option N) := x ← ctx; mret (resolve (fn_scopes x) name).

(** ** Emission *)
(** [debug_assert!(context.fallthrough)] is checked. *)
Definition emit (instruction : Instruction) (position : option Position) : comp nat :=
  x ← ctx;
  if negb (fallthrough x) then fail Asserted else
  update_ctx (with_code (fn_code x ++ [instruction]) (record (fn_source_map x) position));;
  mret (length (fn_code x)).
Definition emit_ (instruction : Instruction) (position : option Position) : comp () :=
  emit instruction position;; mret tt.
Definition emit_at (instruction : Instruction) (s : Span) : comp () :=
  emit_ instruction (Some (start s)).

Definition patch_jump (at_ target : nat) : comp () :=
  x ← ctx;
  i ← (match fn_code x !! at_ with
       | Some (Jump _) => mret (Jump (as_u32 target))
       | Some (JumpIfFalse _) => mret (JumpIfFalse (as_u32 target))
       | _ => fail Crashed
       end);
  update_ctx (with_code (<[at_ := i]> (fn_code x)) (fn_source_map x)).

(** ** Constants *)
Definition pool_limit {A} (s : Span) : comp A :=
  reject_at KLimit "constant pool exceeds limit of 16777216" s.

(** The index an equal constant has in the map. *)
Definition interned (value : Value) (index : list (Value * N)) : option N :=
  snd <$> head (filter (λ e, value_eqb e.1 value = true) index).

Definition constant_index_of (value : Value) (s : Span) : comp N :=
  c ← gets id;
  let intern := negb (is_number value) in
  match (if intern then interned value (constant_index c) else None) with
  | Some index => mret index
  | None =>
      if (MAX_CONSTANTS <=? N.of_nat (length (pool c)))%N then pool_limit s else
      let index := as_u32 (length (pool c)) in
      modify (with_pool (pool c ++ [value])
                (if intern then (value, index) :: constant_index c else constant_index c));;
      mret index
  end.
Definition constant (value : Value) (s : Span) : comp () :=
  index ← constant_index_of value s; emit_at (Constant index) s.
Definition unique_constant (value : Value) (s : Span) : comp () :=
  c ← gets id;
  if (MAX_CONSTANTS <=? N.of_nat (length (pool c)))%N then pool_limit s else
  modify (with_pool (pool c ++ [value]) (constant_index c));;
  emit_at (Constant (as_u32 (length (pool c)))) s.
Definition name_constant (name : string) (s : Span) : comp N := constant_index_of (VString name) s.

(** [compact_integer]. *)
Definition compact_integer (z : Z) : Value :=
  if ((-2 ^ 63 <=? z) && (z <? 2 ^ 63))%Z then VNumber z else big_integer_value z.

(** ** Guest code and temporaries *)
Definition guest {A} (m : prog W string A) : comp (result string A) := λ c,
  let '(r, w) := m (world c) in (Ok r, with_runtime (next_destructure_id c) w c).
Definition expanding {A} (m : prog N failure A) : comp (result failure A) := λ c,
  let '(r, next) := m (next_destructure_id c) in (Ok r, with_runtime next (world c) c).

(** ** Scopes *)
Definition open_scope : comp () := update_ctx (λ x, with_scopes (push_scope (fn_scopes x)) x).
Definition close_scope : comp () :=
  x ← ctx;
  s ← or_crash (pop_scope (fn_scopes x));
  update_ctx (with_scopes s).

(** [declare(..).map_err(|error| CompileError::new(error.kind(), ..))]. *)
Definition declare_local (name : string) (position : option Position) : comp N :=
  x ← ctx;
  r ← or_crash (declare name (fn_scopes x));
  match r with
  | Ok (slot, s) => update_ctx (with_scopes s);; mret slot
  | Err e => reject (kind e) (error_text e) position
  end.
Definition declare_hidden_local : comp N :=
  x ← ctx;
  match declare_hidden (fn_scopes x) with
  | Ok (slot, s) => update_ctx (with_scopes s);; mret slot
  | Err e => fail (Rejected e)
  end.

(** An error is kept while [cleanup] runs. *)
Definition attempt {A} (m : comp A) : comp (result CompileError A) := λ c,
  match m c with
  | (Ok x, c) => (Ok (Ok x), c)
  | (Err (Rejected e), c) => (Ok (Err e), c)
  | (Err e, c) => (Err e, c)
  end.
Definition rethrow {A} (r : result CompileError A) : comp A :=
  match r with Ok x => mret x | Err e => fail (Rejected e) end.

(** ** Global names: vm/compiler/globals.rs *)
Definition is_global c (name : string) : bool := bool_decide (name ∈ globals c).
Definition declare_program_global (name : string) : comp () :=
  modify (λ c, if is_global c name then c else with_globals (globals c ++ [name]) c).

(** [registry.find(&self.namespace).unwrap_or_else(|| registry.current())]. *)
Definition compiling_namespace c : string :=
  if find_namespace (own_namespace c) (world c) then own_namespace c else current_namespace (world c).

(** kernel/generated.rs *)
Definition foundation_library_alias (library : string) : option string :=
  if decide (library = "string") then Some "str"
  else if decide (library = "promise") then Some "promise"
  else if decide (library = "bytes") then Some "bytes"
  else if decide (library = "coroutine") then Some "co"
  else if decide (library = "pretty") then Some "pretty"
  else None.

Definition excluded_foundation_symbol c (name : string) : bool :=
  match split_slash name with
  | None => false
  | Some (namespace, _) =>
      existsb (λ library,
        bool_decide (namespace = "std.foundation." +:+ library) ||
        bool_decide (foundation_library_alias library = Some namespace))
        (elements (excluded_foundation_libraries c))
  end.

(** [syntax_symbol] of core/value.rs. *)
Definition syntax_symbol (name : string) : bool :=
  bool_decide (name ∈ ["."; "binding"; "comment"; "declare"; "def"; "defmacro"; "defn"; "do"; "field";
    "fn"; "if"; "let"; "letfn"; "loop"; "ns"; "ns+"; "quote"; "read-forms"; "recur"; "require";
    "set!"; "syntax-quote"; "throw"; "try"; "var"]).

Definition visible_namespace c (name : string) : bool :=
  namespace_registry (world c) &&
  (is_some (lazy_target (compiling_namespace c) name (world c)) ||
   has_alias (compiling_namespace c) name (world c) ||
   find_namespace name (world c)).

Definition or_else {A} (o o' : option A) : option A := match o with Some x => Some x | None => o' end.
Definition is_declared c (prefix name : string) : bool :=
  match strip_string prefix name with Some local => is_global c local | None => false end.

Definition visible_global c (name : string) : bool :=
  let w := world c in
  if excluded_foundation_symbol c name then false
  else if allow_unbound_globals c && negb (syntax_symbol name) && negb (is_some (from_symbol name))
          && negb (visible_namespace c name) then true
  else
    is_declared c "-/" name || is_global c name || is_declared c (own_namespace c +:+ "/") name ||
    (namespace_registry w &&
     let current := compiling_namespace c in
     let parts := split_slash name in
     (match parts with Some (alias, _) => is_some (lazy_target current alias w) | None => false end ||
      match or_else
              (or_else
                (match parts with
                 | Some (namespace, _) =>
                     if find_namespace namespace w then registry_resolve name w else None
                 | None => None
                 end)
                (namespace_resolve current name w))
              (registry_resolve name w) with
      | Some var =>
          negb (is_some (from_symbol name)) ||
          negb (bool_decide (namespace_part (var_symbol var w) = Some "std.foundation"))
      | None => false
      end)).

Definition visible_bytecode_callable c (name : string) : bool :=
  let w := world c in
  if excluded_foundation_symbol c name then false else
  match canonical_intrinsic_callable_symbol name with
  | None => false
  | Some canonical =>
      if namespace_registry w then
        is_some (or_else (registry_resolve canonical w)
                         (namespace_resolve (compiling_namespace c) canonical w))
      else true
  end.

Definition global_name c (name : string) : string :=
  let w := world c in
  if negb (namespace_registry w) then name else
  let current := compiling_namespace c in
  default name
    match strip_string "-/" name with
    | Some local => Some (own_namespace c +:+ "/" +:+ local)
    | None =>
        match split_slash name with
        | None =>
            if is_global c name then Some (own_namespace c +:+ "/" +:+ name)
            else (λ var, full_text (var_symbol var w)) <$> registry_resolve name w
        | Some (alias, local) =>
            or_else
              ((λ var, full_text (var_symbol var w)) <$>
                 (if find_namespace alias w then registry_resolve name w
                  else namespace_resolve current name w))
              ((λ target, target +:+ "/" +:+ local) <$> lazy_target current alias w)
        end
    end.
Definition global_name_constant (name : string) (s : Span) : comp N :=
  c ← gets id; constant_index_of (VString (global_name c name)) s.
Definition emit_get_global (name : string) (s : Span) : comp () :=
  index ← global_name_constant name s; emit_at (GetGlobal index) s.

Definition require_owned_global (name : string) (s : Span) : comp () :=
  c ← gets id;
  let w := world c in
  if negb (namespace_registry w) then mret tt else
  match namespace_resolve (compiling_namespace c) name w with
  | None => mret tt
  | Some var =>
      match namespace_part (var_symbol var w) with
      | None => mret tt
      | Some owner =>
          if bool_decide (owner = own_namespace c) || bool_decide (owner = "std.foundation") then mret tt
          else reject_at KUnsupportedForm
                 ("Cannot replace referred Var without ns omission: " +:+ name) s
      end
  end.

Definition var_metadata_index (metadata : option Metadata) : comp (option N) :=
  match metadata with
  | None => mret None
  | Some metadata =>
      c ← gets id;
      modify (with_metadata_table (metadata_table c ++ [metadata]));;
      mret (Some (as_u16 (length (metadata_table c))))
  end.

(** ** Coroutines and host calls *)
Definition same_var (source target : option N) : bool :=
  match source, target with Some a, Some b => (a =? b)%N | _, _ => false end.

Definition is_coroutine_var c (name member : string) : bool :=
  let canonical := "std.native.Coroutine/" +:+ member in
  let legacy := "std.foundation.coroutine/" +:+ member in
  let w := world c in
  bool_decide (name = canonical) || bool_decide (name = legacy) ||
  (namespace_registry w &&
   existsb (λ target, same_var (registry_resolve name w) (registry_resolve target w))
     [canonical; legacy]).

Definition is_host_call_var c (name : string) : bool :=
  let canonical := "std.native.Host/call" in
  let w := world c in
  bool_decide (name = canonical) ||
  (namespace_registry w && same_var (registry_resolve name w) (registry_resolve canonical w)).

(** [inline_target] of vm/compiler/calls.rs. *)
Definition inline_target c (name : string) : option string :=
  match inline_globals c !! name with
  | Some target => Some target
  | None =>
      let w := world c in
      if negb (namespace_registry w) then None else
      var ← or_else (registry_resolve name w) (namespace_resolve (compiling_namespace c) name w);
      metadata ← hara_metadata var w;
      value ← get_keyword metadata "inline-target";
      match value with MSymbol target => Some (full_text target) | _ => None end
  end.
End compiler.
