(* ===== verification/Numeric.v ===== *)
(** * Numbers

    [numeric.rs], the arithmetic and the bit operations of [core/primitive.rs],
    and the conversions between numbers and text: integers of 64 bits that are
    promoted to big ones, IEEE doubles, and the comparisons between them.
    A [BigInt] is an integer; a double is its bits, with the Standard Library's
    specification of IEEE arithmetic. *)
From S2P Require Import Prelude Bytes Text Compiler.
From Corelib Require Import SpecFloat.
From Stdlib Require Import Ascii.
#[local] Open Scope Z_scope.

(** ** Values *)
(** What the operations tell apart of a [Value]; [X] stands for the others. *)
Inductive Value (X : Type) :=
| Number (value : Z)
| BigInteger (value : Z)
| Float (bits : N)
| Bool (value : bool)
| Nil
| Text (value : list char)
| Other (value : X).
Arguments Number {X} _.
Arguments BigInteger {X} _.
Arguments Float {X} _.
Arguments Bool {X} _.
Arguments Nil {X}.
Arguments Text {X} _.
Arguments Other {X} _.

(** ** Machine integers *)
Definition I64_MIN : Z := -9223372036854775808.
Definition I64_MAX : Z := 9223372036854775807.
Definition in_i64 (z : Z) : bool := (I64_MIN <=? z) && (z <=? I64_MAX).
(** [BigInt::to_i64], [to_u16], [to_u64] and [to_usize]. *)
Definition to_i64 (z : Z) : option Z := if in_i64 z then Some z else None.
Definition to_unsigned (maximum z : Z) : option Z := if (0 <=? z) && (z <=? maximum) then Some z else None.
Definition to_u16 : Z → option Z := to_unsigned 65535.
Definition to_u64 : Z → option Z := to_unsigned (Z.of_N U64_MAX).
Definition to_usize : Z → option Z := to_unsigned (Z.of_N USIZE_MAX).

(** [i64::checked_add] and the like. *)
Definition checked_add (a b : Z) : option Z := to_i64 (a + b).
Definition checked_sub (a b : Z) : option Z := to_i64 (a - b).
Definition checked_mul (a b : Z) : option Z := to_i64 (a * b).
Definition checked_div (a b : Z) : option Z := if b =? 0 then None else to_i64 (Z.quot a b).
Definition checked_rem (a b : Z) : option Z :=
  if (b =? 0) || ((a =? I64_MIN) && (b =? -1)) then None else Some (Z.rem a b).
Definition checked_neg (a : Z) : option Z := to_i64 (- a).
Definition checked_abs (a : Z) : option Z := to_i64 (Z.abs a).

(** ** Doubles *)
Definition f64_spec (bits : N) : spec_float :=
  let '(s, e, m) := f64_fields bits in
  if (e =? 2047)%N then (if (m =? 0)%N then S754_infinity s else S754_nan)
  else let '(s, m, e) := f64_parts bits in
       match m with N0 => S754_zero s | Npos p => S754_finite s p e end.

Definition f64_add (a b : N) : N := f64_of_spec (SFadd 53 1024 (f64_spec a) (f64_spec b)).
Definition f64_sub (a b : N) : N := f64_of_spec (SFsub 53 1024 (f64_spec a) (f64_spec b)).
Definition f64_mul (a b : N) : N := f64_of_spec (SFmul 53 1024 (f64_spec a) (f64_spec b)).
Definition f64_div (a b : N) : N := f64_of_spec (SFdiv 53 1024 (f64_spec a) (f64_spec b)).
(** [%]: the exact remainder, with the dividend's sign. *)
Definition f64_rem (a b : N) : N :=
  f64_of_spec
    match f64_spec a, f64_spec b with
    | S754_finite s m e, S754_finite _ m' e' =>
        let d := Z.min e e' in
        match (Zpos m * 2 ^ (e - d)) mod (Zpos m' * 2 ^ (e' - d)) with
        | 0 => S754_zero s
        | r => binary_normalize 53 1024 (if s then - r else r) d s
        end
    | S754_zero s, (S754_finite _ _ _ | S754_infinity _) => S754_zero s
    | S754_finite s m e, S754_infinity _ => S754_finite s m e
    | _, _ => S754_nan
    end.
Definition f64_neg (a : N) : N := N.lxor a (2 ^ 63).
Definition f64_abs (a : N) : N := (a mod 2 ^ 63)%N.
Definition f64_is_zero (a : N) : bool := (a mod 2 ^ 63 =? 0)%N.
Definition f64_compare (a b : N) : option comparison := SFcompare (f64_spec a) (f64_spec b).
(** [i64 as f64]. *)
Definition f64_of_integer (z : Z) : N := f64_of_spec (binary_normalize 53 1024 z 0 false).
(** [f64::trunc]: the bits of the fraction are cleared. *)
Definition f64_trunc (a : N) : N :=
  let '(_, _, e) := f64_parts a in
  if negb (is_finite a) || (0 <=? e) then a
  else if 52 <? - e then N.shiftl (N.shiftr a 63) 63
  else N.shiftl (N.shiftr a (Z.to_N (- e))) (Z.to_N (- e)).

(** ** [numeric.rs] *)
Inductive IntegerKind := Long | BigIntegerKind.
Inductive ArithmeticOp := OpAdd | OpSubtract | OpMultiply | OpDivide | OpRemainder | OpModulo.

Section numeric.
Context {X : Type}.
Abbreviation Value := (Value X).
(** [BigInt::to_f64]: [None], or the nearest double, which may be infinite. *)
Variable bigint_to_f64 : Z → option N.

(** [CanonicalInteger::from_bigint] and [compact_integer]. *)
Definition compact_integer (value : Z) : Value :=
  match to_i64 value with Some value => Number value | None => BigInteger value end.

Definition integer_kind (value : Value) : option IntegerKind :=
  match value with
  | Number _ => Some Long
  | BigInteger value => Some (match to_i64 value with Some _ => Long | None => BigIntegerKind end)
  | _ => None
  end.
Definition is_numeric_value (value : Value) : bool :=
  match value with Number _ | BigInteger _ | Float _ => true | _ => false end.
Definition is_float (value : Value) : bool := match value with Float _ => true | _ => false end.

Definition integer_value (value : Value) : result string Z :=
  match value with
  | Number value | BigInteger value => Ok value
  | _ => Err "expected an integer"
  end.
Definition finite_float (bits : N) : result string N :=
  if is_finite bits then Ok bits else Err "non-finite number".
Definition float_value (value : Value) : result string N :=
  match value with
  | Float bits => finite_float bits
  | Number value => Ok (f64_of_integer value)
  | BigInteger value =>
      match bigint_to_f64 value with
      | Some bits => if is_finite bits then Ok bits else Err "numeric value is outside double range"
      | None => Err "numeric value is outside double range"
      end
  | _ => Err "expected a numeric value"
  end.

(** The fields of the bits, as the source takes them apart. *)
Definition compare_integer_to_float (integer : Z) (floating : N) : option comparison :=
  if negb (is_finite floating) then None
  else if f64_is_zero floating then Some (integer ?= 0)
  else
    let negative := negb (N.shiftr floating 63 =? 0)%N in
    let exponent_bits := Z.of_N (N.land (N.shiftr floating 52) 2047) in
    let fraction := Z.of_N (N.land floating 4503599627370495) in
    let '(significand, exponent) :=
      if exponent_bits =? 0 then (fraction, -1022 - 52)
      else (Z.lor fraction (Z.shiftl 1 52), exponent_bits - 1023 - 52) in
    let signed := if negative then - significand else significand in
    if 0 <=? exponent then Some (integer ?= Z.shiftl signed exponent)
    else Some (Z.shiftl integer (- exponent) ?= signed).

Definition divides (op : ArithmeticOp) : bool :=
  match op with OpDivide | OpRemainder | OpModulo => true | _ => false end.

Definition float_binary (op : ArithmeticOp) (left right : N) : result string Value :=
  if divides op && f64_is_zero right then Err "division by zero" else
  let value :=
    match op with
    | OpAdd => f64_add left right
    | OpSubtract => f64_sub left right
    | OpMultiply => f64_mul left right
    | OpDivide => f64_div left right
    | OpRemainder | OpModulo => f64_rem left right
    end in
  value ← finite_float value; Ok (Float value).

Definition integer_binary (op : ArithmeticOp) (left right : Z) : result string Value :=
  if divides op && (right =? 0) then Err "division by zero" else
  Ok (compact_integer
    match op with
    | OpAdd => left + right
    | OpSubtract => left - right
    | OpMultiply => left * right
    | OpDivide => Z.quot left right
    | OpRemainder | OpModulo => Z.rem left right
    end).

Definition numeric_binary (op : ArithmeticOp) (left right : Value) : result string Value :=
  if negb (is_numeric_value left) || negb (is_numeric_value right) then Err "expected numeric values"
  else if is_float left || is_float right then
    l ← float_value left; r ← float_value right; float_binary op l r
  else l ← integer_value left; r ← integer_value right; integer_binary op l r.

Definition numeric_quotient (left right : Value) : result string Value :=
  if negb (is_numeric_value left) || negb (is_numeric_value right) then Err "quot expects numeric values"
  else if is_float left || is_float right then
    l ← float_value left; r ← float_value right;
    if f64_is_zero r then Err "division by zero"
    else q ← finite_float (f64_trunc (f64_div l r)); Ok (Float q)
  else l ← integer_value left; r ← integer_value right; integer_binary OpDivide l r.

Definition numeric_compare (left right : Value) : result string (option comparison) :=
  if negb (is_numeric_value left) || negb (is_numeric_value right) then Ok None else
  match left, right with
  | Float l, Float r => finite_float l;; finite_float r;; Ok (f64_compare l r)
  | Float l, _ =>
      finite_float l;;
      i ← integer_value right;
      Ok (CompOpp <$> compare_integer_to_float i l)
  | _, Float r =>
      finite_float r;;
      i ← integer_value left;
      Ok (compare_integer_to_float i r)
  | _, _ => l ← integer_value left; r ← integer_value right; Ok (Some (l ?= r))
  end.

Definition numeric_equal (left right : Value) : option bool :=
  if negb (is_numeric_value left) || negb (is_numeric_value right) then None
  else Some (match numeric_compare left right with Ok (Some Eq) => true | _ => false end).
Definition numeric_total_compare (left right : Value) : option comparison :=
  if negb (is_numeric_value left) || negb (is_numeric_value right) then None
  else match numeric_compare left right with Ok o => o | Err _ => None end.

Definition numeric_negate (value : Value) : result string Value :=
  match value with
  | Number value =>
      Ok (match checked_neg value with Some value => Number value | None => BigInteger (Z.abs value) end)
  | BigInteger value => Ok (compact_integer (- value))
  | Float value => value ← finite_float (f64_neg value); Ok (Float value)
  | _ => Err "expected a numeric value"
  end.
Definition numeric_abs (value : Value) : result string Value :=
  match value with
  | Number value =>
      Ok (match checked_abs value with Some value => Number value | None => BigInteger (Z.abs value) end)
  | BigInteger value => Ok (compact_integer (Z.abs value))
  | Float value => value ← finite_float (f64_abs value); Ok (Float value)
  | _ => Err "expected a numeric value"
  end.

Definition bit_not (value : Value) : result string Value :=
  value ← integer_value value; Ok (compact_integer (Z.lnot value)).
Definition bit_binary (operation : string) (left right : Value) : result string Value :=
  left ← integer_value left;
  right ← integer_value right;
  if decide (operation = "bit-and") then Ok (compact_integer (Z.land left right))
  else if decide (operation = "bit-or") then Ok (compact_integer (Z.lor left right))
  else if decide (operation = "bit-xor") then Ok (compact_integer (Z.lxor left right))
  else Err ("unknown bit operation: " +:+ operation).
Definition shift_distance (value : Value) : result string Z :=
  value ← integer_value value;
  if value <? 0 then Err "shift distance must be a non-negative integer"
  else ok_or (to_usize value) "shift distance is outside the host index range".
Definition bit_shift (left : bool) (value distance : Value) : result string Value :=
  value ← integer_value value;
  distance ← shift_distance distance;
  Ok (compact_integer (if left then Z.shiftl value distance else Z.shiftr value distance)).

(** The integer a double stands for. *)
Definition f64_to_bigint_exact (value : N) : option Z :=
  if negb (is_finite value) || negb (is_some (f64_integral value)) then None else
  let negative := negb (N.shiftr value 63 =? 0)%N in
  let exponent := Z.of_N (N.land (N.shiftr value 52) 2047) - 1023 in
  let mantissa := Z.of_N (N.land value 4503599627370495) in
  if exponent =? -1023 then (if mantissa =? 0 then Some 0 else None) else
  let mantissa := Z.lor mantissa (Z.shiftl 1 52) in
  let exponent := exponent - 52 in
  result ← (if 0 <=? exponent then Some (mantissa * 2 ^ exponent)
            else let divisor := 2 ^ (- exponent) in
                 if Z.rem mantissa divisor =? 0 then Some (Z.quot mantissa divisor) else None);
  Some (if negative then - result else result).

Definition boundary_integer (value : Value) : result string Z :=
  match value with
  | Number value | BigInteger value => Ok value
  | Float value =>
      if is_finite value then
        ok_or (f64_to_bigint_exact value) "floating-point value is not an exact integer"
      else Err "floating-point value is not an exact integer"
  | _ => Err "expected a numeric value"
  end.
Definition to_i64_exact (value : Value) : result string Z :=
  z ← boundary_integer value; ok_or (to_i64 z) "integer is outside signed 64-bit range".
Definition to_i64_integer (value : Value) : result string Z :=
  match value with
  | Number value => Ok value
  | BigInteger value => ok_or (to_i64 value) "integer is outside signed 64-bit range"
  | _ => Err "expected a signed 64-bit integer"
  end.
Definition to_i64_truncating (value : Value) : result string Z :=
  match value with
  | Number value => Ok value
  | BigInteger value => ok_or (to_i64 value) "integer is outside signed 64-bit range"
  | Float value =>
      if is_finite value then
        z ← ok_or (f64_to_bigint_exact (f64_trunc value)) "floating-point value is outside signed 64-bit range";
        ok_or (to_i64 z) "integer is outside signed 64-bit range"
      else Err "floating-point value is not finite"
  | _ => Err "expected a numeric value"
  end.
Definition to_u16_exact (value : Value) : result string Z :=
  z ← boundary_integer value; ok_or (to_u16 z) "integer is outside unsigned 16-bit range".
Definition to_u64_exact (value : Value) : result string Z :=
  z ← boundary_integer value; ok_or (to_u64 z) "integer is outside unsigned 64-bit range".
Definition to_usize_exact (value : Value) : result string Z :=
  z ← boundary_integer value; ok_or (to_usize z) "integer is outside the host index range".
Definition to_f64_explicit (value : Value) : result string N := float_value value.

(** [parse_integer_digits]: a [CanonicalInteger], as a value. *)
Definition parse_integer_digits `{TextEnv} (digits : list char) (radix : N) (negative : bool) : option Value :=
  value ← parse_bytes digits radix;
  Some (compact_integer (if negative then - value else value)).

(** ** The operators of [core/primitive.rs] *)
(** [==] of values of which not both are numeric. *)
Variable other_eqb : Value → Value → bool.
Definition value_eqb (left right : Value) : bool :=
  match numeric_equal left right with Some e => e | None => other_eqb left right end.

Definition arithmetic (op : IntrinsicOp) : option ArithmeticOp :=
  match op with
  | Add => Some OpAdd
  | Subtract => Some OpSubtract
  | Multiply => Some OpMultiply
  | Divide => Some OpDivide
  | Remainder => Some OpRemainder
  | Modulo => Some OpModulo
  | _ => None
  end.
(** Whether the comparison operator accepts an ordering. *)
Definition accepts (op : IntrinsicOp) (o : comparison) : bool :=
  match op, o with
  | Less, Lt => true
  | LessOrEqual, (Lt | Eq) => true
  | Greater, Gt => true
  | GreaterOrEqual, (Gt | Eq) => true
  | _, _ => false
  end.
Definition compare_values (op : IntrinsicOp) (left right : Value) : result string bool :=
  o ← numeric_compare left right;
  match o with
  | Some o => Ok (accepts op o)
  | None => Err (operator op +:+ " expects numbers")
  end.

(** [unwrap] of a checked operation that overflows goes through [BigInt]. *)
Definition promoting (op : ArithmeticOp) (checked : option Z) (left right : Z) : result string Value :=
  match checked with
  | Some value => Ok (Number value)
  | None => numeric_binary op (Number left) (Number right)
  end.

Definition apply_binary_numbers (primitive : IntrinsicOp) (left right : Z) : result failure Value :=
  let failed := map_err Failed in
  match primitive with
  | Add => failed (promoting OpAdd (checked_add left right) left right)
  | Subtract => failed (promoting OpSubtract (checked_sub left right) left right)
  | Multiply => failed (promoting OpMultiply (checked_mul left right) left right)
  | Divide =>
      if right =? 0 then Err (Failed "division by zero")
      else failed (promoting OpDivide (checked_div left right) left right)
  | Remainder | Modulo =>
      if right =? 0 then Err (Failed "division by zero")
      else if (left =? I64_MIN) && (right =? -1) then Ok (Number 0)
      else match checked_rem left right with
           | Some value => Ok (Number value)
           | None => Err (Panicked "remainder overflow handled above")
           end
  | Equal => Ok (Bool (left =? right))
  | _ => Ok (Bool (accepts primitive (left ?= right)))
  end.

(** The message of operands that are not numbers names the operator. *)
Definition operator_error (primitive : IntrinsicOp) (error : string) : string :=
  if decide (error = "expected numeric values") then operator primitive +:+ " expects numbers" else error.

Definition apply_binary_intrinsic (primitive : IntrinsicOp) (left right : Value) : result failure Value :=
  match left, right with
  | Number l, Number r => apply_binary_numbers primitive l r
  | _, _ =>
      match arithmetic primitive with
      | Some operation =>
          map_err (λ e, Failed (operator_error primitive e)) (numeric_binary operation left right)
      | None =>
          match primitive with
          | Equal => Ok (Bool (value_eqb left right))
          | _ => b ← map_err Failed (compare_values primitive left right); Ok (Bool b)
          end
      end
  end.

Fixpoint fold_intrinsic (primitive : IntrinsicOp) (result : Value) (arguments : list Value) :
    Prelude.result failure Value :=
  match arguments with
  | [] => Ok result
  | argument :: arguments =>
      result ← apply_binary_intrinsic primitive result argument;
      fold_intrinsic primitive result arguments
  end.

(** The loop over [windows(2)]. *)
Fixpoint compare_windows (primitive : IntrinsicOp) (first : Value) (arguments : list Value) :
    result failure Value :=
  match arguments with
  | [] => Ok (Bool true)
  | second :: arguments =>
      matches ← map_err Failed (compare_values primitive first second);
      if matches : bool then compare_windows primitive second arguments else Ok (Bool false)
  end.

Definition apply_intrinsic (primitive : IntrinsicOp) (arguments : list Value) : result failure Value :=
  let op := operator primitive in
  match arguments with
  | [l; r] => apply_binary_intrinsic primitive l r
  | _ =>
      match primitive with
      | Add | Subtract | Multiply | Divide | Remainder | Modulo =>
          match arguments with
          | [] => Err (Failed (op +:+ " expects arguments"))
          | first :: rest =>
              if match primitive with Remainder | Modulo => true | _ => false end
              then Err (Failed (op +:+ " expects two numbers"))
              else
                match rest with
                | [] =>
                    match primitive with
                    | Subtract => map_err Failed (numeric_negate first)
                    | Divide => apply_binary_intrinsic Divide (Number 1) first
                    | _ =>
                        if negb (is_numeric_value first) then Err (Failed (op +:+ " expects numbers"))
                        else Ok first
                    end
                | _ => fold_intrinsic primitive first rest
                end
          end
      | Equal =>
          match arguments with
          | first :: (_ :: _) as rest => Ok (Bool (forallb (λ value, value_eqb value first) (drop 1 arguments)))
          | _ => Err (Failed "= expects at least 2 arguments")
          end
      | _ =>
          match arguments with
          | first :: (_ :: _) as rest => compare_windows primitive first rest
          | _ => Err (Failed (op +:+ " expects at least two arguments"))
          end
      end
  end.

(** ** Bits and conversions *)
Definition bit_operation (op : string) : string :=
  let op := default op (strip_string "std.native.Bits/" op) in
  if decide (op = "and") then "bit-and"
  else if decide (op = "or") then "bit-or"
  else if decide (op = "xor") then "bit-xor"
  else if decide (op = "not") then "bit-not"
  else if decide (op = "shift-left") then "bit-shift-left"
  else if decide (op = "shift-right") then "bit-shift-right"
  else op.

Definition bit_values (op : string) (values : list Value) : result string Value :=
  let op := bit_operation op in
  if decide (op = "bit-not") then
    match values with
    | [value] => map_err (λ _, "bit-not expects one integer") (bit_not value)
    | _ => Err "bit-not expects one integer"
    end
  else if bool_decide (op ∈ ["bit-and"; "bit-or"; "bit-xor"]) then
    match values with
    | [l; r] =>
        map_err (λ e, if decide (e = "expected an integer") then op +:+ " expects integers" else e)
          (bit_binary op l r)
    | _ => Err (op +:+ " expects two integers")
    end
  else if bool_decide (op ∈ ["bit-shift-left"; "bit-shift-right"]) then
    match values with
    | [value; distance] => bit_shift (bool_decide (op = "bit-shift-left")) value distance
    | _ => Err (op +:+ " expects an integer and distance")
    end
  else Err ("unknown bit operation: " +:+ op).

(** [parse::<i64>]. *)
Definition parse_i64 (l : list char) : option Z :=
  let '(negative, digits) := strip_sign l in
  match digits with
  | [] => None
  | _ => n ← digits_value 10 digits; to_i64 (if negative then - Z.of_N n else Z.of_N n)
  end.
(** Not empty, and the same when trimmed. *)
Definition trimmed (l : list char) : bool :=
  nonempty l && negb (first_is is_whitespace l) && negb (last_is is_whitespace l).

(** The length of the digits in front. *)
Definition digit_run (l : list char) : list char * list char :=
  let run := take_while is_ascii_digit l in (run, drop (length run) l).
Definition decimal_double_text (l : list char) : bool :=
  let l := match l with c :: rest => if (c =? ch "+")%N || (c =? ch "-")%N then rest else l | [] => [] end in
  let '(whole, l) := digit_run l in
  let '(fraction, l) :=
    match l with c :: rest => if (c =? ch ".")%N then digit_run rest else ([], l) | [] => ([], []) end in
  if negb (nonempty (whole ++ fraction)) then false else
  match l with
  | [] => true
  | c :: rest =>
      if (c =? ch "e")%N || (c =? ch "E")%N then
        let rest :=
          match rest with c :: rest' => if (c =? ch "+")%N || (c =? ch "-")%N then rest' else rest | [] => [] end in
        let '(exponent, l) := digit_run rest in
        nonempty exponent && negb (nonempty l)
      else false
  end.

Definition number_conversion_value (operation : string) (value : Value) : result string Value :=
  let operation := default operation (strip_string "std.native.Num/" operation) in
  if decide (operation = "long") then
    z ← map_err (λ e, "long: " +:+ e) (to_i64_truncating value); Ok (Number z)
  else if decide (operation = "double") then
    bits ← map_err (λ e, "double: " +:+ e) (to_f64_explicit value); Ok (Float bits)
  else if decide (operation = "parse-long") then
    match value with
    | Text text =>
        if trimmed text then Ok (match parse_i64 text with Some z => Number z | None => Nil end)
        else Ok Nil
    | _ => Err "parse-long expects a string"
    end
  else if decide (operation = "parse-double") then
    match value with
    | Text text =>
        if negb (trimmed text) then Ok Nil
        else if bool_decide (text ∈ chars <$> ["NaN"; "Infinity"; "+Infinity"; "-Infinity"]) then
          Err "non-finite number"
        else if negb (decimal_double_text text) then Ok Nil
        else parsed ← ok_or (parse_f64 text) "non-finite number";
             bits ← finite_float parsed; Ok (Float bits)
    | _ => Err "parse-double expects a string"
    end
  else Err ("unknown number conversion: " +:+ operation).
End numeric.
