(* ===== verification/NumericFacts.v ===== *)
(** * The arithmetic of numbers

    The operators compute with exact integers, comparisons are those of the
    numbers meant, also between integers and doubles, and conversions accept
    exactly the numbers that fit. *)
From S2P Require Import Prelude Bytes Text Compiler Numeric.
From Corelib Require Import SpecFloat.
#[local] Open Scope Z_scope.

(** ** The number a value stands for *)
(** In units of [2^-1074], of which every finite double is a multiple. *)
Definition UNIT : Z := 2 ^ 1074.
Definition f64_scaled (bits : N) : Z :=
  let '(s, m, e) := f64_parts bits in (if s : bool then -1 else 1) * (Z.of_N m * 2 ^ (e + 1074)).

Section numbers.
Context {X : Type}.
Definition scaled (v : Value X) : option Z :=
  match v with
  | Number z | BigInteger z => Some (z * UNIT)
  | Float bits => if is_finite bits then Some (f64_scaled bits) else None
  | _ => None
  end.
(** The widths of the source's types. *)
Definition width_ok (v : Value X) : Prop :=
  match v with
  | Number z => in_i64 z = true
  | Float bits => (bits < 2 ^ 64)%N
  | _ => True
  end.
End numbers.

(** ** The bits of a double *)
Section bits.
Variable bits : N.
Hypothesis wide : (bits < 2 ^ 64)%N.
Let fraction := N.land bits 4503599627370495.
Let exponent := N.land (N.shiftr bits 52) 2047.

Lemma fraction_fields : fraction = (bits mod 2 ^ 52)%N.
Proof. unfold fraction. change 4503599627370495%N with (N.ones 52). apply N.land_ones. Qed.
Lemma exponent_fields : exponent = (N.shiftr bits 52 mod 2048)%N.
Proof. unfold exponent. change 2047%N with (N.ones 11). rewrite N.land_ones. done. Qed.
Lemma negative_fields : negb (N.shiftr bits 63 =? 0)%N = N.testbit bits 63.
Proof.
  rewrite N.testbit_eqb, N.shiftr_div_pow2.
  assert (bits / 2 ^ 63 < 2)%N as Hs by (apply N.Div0.div_lt_upper_bound; exact wide).
  rewrite N.mod_small by done. destruct (N.eqb_spec (bits / 2 ^ 63) 0) as [-> |]; [done|].
  destruct (bits / 2 ^ 63)%N as [|[| |]]; try done; lia.
Qed.
End bits.

(** The parts of a finite double. *)
Record f64_ok (m : N) (e : Z) : Prop := {
  parts_mantissa : (m < 2 ^ 53)%N;
  parts_exponent : -1074 <= e <= 971;
  parts_canonical : (2 ^ 52 <= m)%N \/ e = -1074;
}.
Lemma f64_parts_inv bits s m e :
  f64_parts bits = (s, m, e) →
  let low := (bits mod 2 ^ 52)%N in
  let high := (N.shiftr bits 52 mod 2048)%N in
  s = N.testbit bits 63 ∧
  ((high = 0%N ∧ m = low ∧ e = -1074) ∨ (high ≠ 0%N ∧ m = (low + 2 ^ 52)%N ∧ e = Z.of_N high - 1075)).
Proof.
  unfold f64_parts, f64_fields. cbn zeta.
  generalize (bits mod 2 ^ 52)%N (N.shiftr bits 52 mod 2048)%N (2 ^ 52)%N (N.testbit bits 63).
  intros low high top sign. destruct (N.eqb_spec high 0); intros [= <- <- <-]; auto.
Qed.
Lemma f64_parts_ok bits s m e : is_finite bits = true → f64_parts bits = (s, m, e) → f64_ok m e.
Proof.
  unfold is_finite, f64_fields. intros Hf%negb_true_iff%N.eqb_neq Hp. apply f64_parts_inv in Hp as [_ Hp].
  assert (bits mod 2 ^ 52 < 2 ^ 52)%N as Hm by by apply N.mod_lt.
  assert (N.shiftr bits 52 mod 2048 < 2048)%N as He by by apply N.mod_lt.
  revert Hf Hm He Hp. cbn zeta. generalize (bits mod 2 ^ 52)%N (N.shiftr bits 52 mod 2048)%N.
  intros low high Hf Hm He [(E & -> & ->)|(E & -> & ->)]; split;
    change (2 ^ 53)%N with 9007199254740992%N; change (2 ^ 52)%N with 4503599627370496%N in *; lia.
Qed.

Lemma parts_sign bits s m e : f64_parts bits = (s, m, e) → N.testbit bits 63 = s.
Proof. by intros [-> _]%f64_parts_inv. Qed.

Lemma f64_zero bits :
  is_finite bits = true → (bits < 2 ^ 64)%N → f64_is_zero bits = true ↔ ∃ s e, f64_parts bits = (s, 0%N, e).
Proof.
  intros Hf Hw. unfold f64_is_zero. rewrite N.eqb_eq.
  assert (bits mod 2 ^ 63 = (N.shiftr bits 52 mod 2048) * 2 ^ 52 + bits mod 2 ^ 52)%N as ->.
  { rewrite N.shiftr_div_pow2. change (2 ^ 63)%N with (2 ^ 52 * 2048)%N. rewrite N.Div0.mod_mul_r. lia. }
  split.
  - intros [[E|E]%N.eq_mul_0 El]%N.eq_add_0; [|done]. unfold f64_parts, f64_fields. rewrite E, El. by eexists _, _.
  - intros (s & e & [_ [(-> & <- & _)|(_ & E & _)]]%f64_parts_inv); [done|].
    symmetry in E. apply N.eq_add_0 in E as [_ E]. done.
Qed.

(** ** Comparisons *)
Lemma lor_top a : 0 <= a < 2 ^ 52 → Z.lor a (Z.shiftl 1 52) = a + 2 ^ 52.
Proof.
  intros Ha. change (Z.shiftl 1 52) with (2 ^ 52). rewrite <- Z.add_lor_land.
  replace (Z.land a (2 ^ 52)) with 0; [lia|]. symmetry. apply Z.bits_inj'. intros n Hn.
  rewrite Z.bits_0, Z.land_spec. destruct (Z.eq_dec n 52) as [->|Hne].
  - rewrite <- (Z.mod_small a (2 ^ 52)) by done. by rewrite Z.mod_pow2_bits_high by lia.
  - by rewrite Z.pow2_bits_false, andb_false_r by lia.
Qed.

Lemma compare_scale a b k : 0 < k → (a * k ?= b * k) = (a ?= b).
Proof. intros Hk. symmetry. apply Zmult_compare_compat_r. lia. Qed.

(** The significand and exponent the source takes from the bits. *)
Lemma significand_parts bits :
  is_finite bits = true →
  let exponent_bits := Z.of_N (N.land (N.shiftr bits 52) 2047) in
  let fraction := Z.of_N (N.land bits 4503599627370495) in
  ∀ s m e, f64_parts bits = (s, m, e) →
  (if exponent_bits =? 0 then (fraction, -1022 - 52)
   else (Z.lor fraction (Z.shiftl 1 52), exponent_bits - 1023 - 52)) = (Z.of_N m, e).
Proof.
  intros Hf exponent_bits fraction s m e Hp. apply f64_parts_inv in Hp. revert Hp. cbn zeta.
  pose proof (fraction_fields bits) as Ef. pose proof (exponent_fields bits) as Ee. cbn zeta in Ef, Ee.
  assert (bits mod 2 ^ 52 < 2 ^ 52)%N as Hm by by apply N.mod_lt.
  unfold exponent_bits, fraction. rewrite Ef, Ee. clear Ef Ee. revert Hm.
  generalize (bits mod 2 ^ 52)%N (N.shiftr bits 52 mod 2048)%N.
  intros low high Hm [_ [(-> & -> & ->)|(E & -> & ->)]]; [done|].
  rewrite (proj2 (Z.eqb_neq _ _)) by lia. rewrite lor_top; [f_equal; lia|].
  change (2 ^ 52)%N with 4503599627370496%N in *. change (2 ^ 52) with 4503599627370496. lia.
Qed.

Lemma compare_integer_exact z bits :
  is_finite bits = true → (bits < 2 ^ 64)%N →
  compare_integer_to_float z bits = Some (z * UNIT ?= f64_scaled bits).
Proof.
  intros Hf Hw. unfold compare_integer_to_float, f64_scaled. rewrite Hf. cbn [negb].
  destruct (f64_parts bits) as [[s m] e] eqn:Ep. pose proof (f64_parts_ok _ _ _ _ Hf Ep) as [_ He _].
  destruct (f64_is_zero bits) eqn:Ez.
  { apply f64_zero in Ez as (s' & e' & Ez); [|done|done]. rewrite Ez in Ep. injection Ep as <- <- <-.
    rewrite <- (compare_scale z 0 UNIT) by done. do 2 f_equal. destruct s'; lia. }
  rewrite (significand_parts _ Hf _ _ _ Ep), negative_fields by done.
  rewrite (parts_sign _ _ _ _ Ep).
  set (signed := if s then - Z.of_N m else Z.of_N m).
  assert ((if s then -1 else 1) * (Z.of_N m * 2 ^ (e + 1074)) = signed * 2 ^ (e + 1074)) as ->.
  { unfold signed. destruct s; lia. }
  destruct (Z.leb_spec 0 e).
  - rewrite Z.shiftl_mul_pow2, Z.pow_add_r, Z.mul_assoc by lia. f_equal. symmetry. by apply compare_scale.
  - rewrite Z.shiftl_mul_pow2 by lia. f_equal. unfold UNIT. replace 1074 with (- e + (e + 1074)) at 1 by lia.
    rewrite Z.pow_add_r, Z.mul_assoc by lia. symmetry. apply compare_scale. apply Z.pow_pos_nonneg; lia.
Qed.

Lemma larger_exponent m1 e1 m2 e2 :
  f64_ok m1 e1 → f64_ok m2 e2 → e1 < e2 →
  Z.of_N m1 * 2 ^ (e1 + 1074) < Z.of_N m2 * 2 ^ (e2 + 1074).
Proof.
  intros [H1 E1 _] [H2 E2 C2] He.
  assert (2 ^ 52 ≤ m2)%N as Hm by (destruct C2; [done|lia]).
  assert (0 < 2 ^ (e1 + 1074)) as Hp by (apply Z.pow_pos_nonneg; lia).
  assert (2 ^ (e2 + 1074) = 2 ^ (e1 + 1074) * 2 ^ 1 * 2 ^ (e2 - e1 - 1)) as ->.
  { rewrite <- !Z.pow_add_r by lia. f_equal. lia. }
  assert (1 <= 2 ^ (e2 - e1 - 1)) as Hq by (apply Z.pow_le_mono_r with (b := 0); lia).
  change (2 ^ 53)%N with 9007199254740992%N in H1. change (2 ^ 52)%N with 4503599627370496%N in Hm.
  change (2 ^ 1) with 2.
  revert Hp Hq. generalize (2 ^ (e1 + 1074)) (2 ^ (e2 - e1 - 1)). intros p q Hp Hq.
  replace (Z.of_N m2 * (p * 2 * q)) with (2 * Z.of_N m2 * p * q) by ring.
  apply Z.lt_le_trans with (2 * Z.of_N m2 * p * 1).
  - rewrite Z.mul_1_r. apply Z.mul_lt_mono_pos_r; lia.
  - apply Z.mul_le_mono_nonneg_l; [|done]. apply Z.mul_nonneg_nonneg; lia.
Qed.

Lemma same_exponent (m1 m2 : positive) e :
  0 <= e → (Zpos m1 * 2 ^ e ?= Zpos m2 * 2 ^ e) = Pos.compare m1 m2.
Proof. intros He. rewrite compare_scale by (apply Z.pow_pos_nonneg; lia). done. Qed.

Lemma compare_positive (m1 m2 : positive) e1 e2 :
  f64_ok (Npos m1) e1 → f64_ok (Npos m2) e2 →
  (Zpos m1 * 2 ^ (e1 + 1074) ?= Zpos m2 * 2 ^ (e2 + 1074)) =
    match e1 ?= e2 with Lt => Lt | Gt => Gt | Eq => Pos.compare m1 m2 end.
Proof.
  intros H1 H2. destruct (Z.compare_spec e1 e2) as [->|Hlt|Hgt].
  - apply same_exponent. destruct H2. lia.
  - apply Z.compare_lt_iff. by apply (larger_exponent (Npos m1) e1 (Npos m2) e2).
  - apply Z.compare_gt_iff. by apply (larger_exponent (Npos m2) e2 (Npos m1) e1).
Qed.

Lemma f64_compare_exact a b :
  is_finite a = true → is_finite b = true → f64_compare a b = Some (f64_scaled a ?= f64_scaled b).
Proof.
  intros Ha Hb. unfold f64_compare, f64_scaled.
  assert (∀ x, is_finite x = true → ∃ s m e, f64_parts x = (s, m, e) ∧ f64_ok m e ∧
    f64_spec x = match m with N0 => S754_zero s | Npos p => S754_finite s p e end) as Hspec.
  { intros x Hx. destruct (f64_parts x) as [[s m] e] eqn:E. exists s, m, e. split; [done|].
    split; [by eapply f64_parts_ok|]. unfold f64_spec, is_finite in *.
    destruct (f64_fields x) as [[s' e'] m'] eqn:Ef. apply negb_true_iff in Hx. by rewrite Hx, E. }
  destruct (Hspec a Ha) as (s1 & m1 & e1 & -> & O1 & ->), (Hspec b Hb) as (s2 & m2 & e2 & -> & O2 & ->).
  assert (∀ e, -1074 <= e → 0 < 2 ^ (e + 1074)) as Hp by (intros e He; apply Z.pow_pos_nonneg; lia).
  pose proof (Hp e1 ltac:(destruct O1; lia)) as P1. pose proof (Hp e2 ltac:(destruct O2; lia)) as P2.
  destruct m1 as [|m1], m2 as [|m2]; cbn [SFcompare Z.of_N].
  - rewrite !Z.mul_0_l, !Z.mul_0_r. done.
  - rewrite Z.mul_0_l, Z.mul_0_r. f_equal. destruct s2; symmetry; [apply Z.compare_gt_iff|apply Z.compare_lt_iff]; lia.
  - rewrite Z.mul_0_l, Z.mul_0_r. f_equal. destruct s1; symmetry; [apply Z.compare_lt_iff|apply Z.compare_gt_iff]; lia.
  - pose proof (compare_positive _ _ _ _ O1 O2) as Hc. f_equal. destruct s1, s2.
    + rewrite !(Z.mul_comm (-1)), <- !Z.opp_eq_mul_m1, Z.compare_opp, (Z.compare_antisym (Zpos m1 * _)), Hc. by destruct (e1 ?= e2).
    + symmetry. apply Z.compare_lt_iff. lia.
    + symmetry. apply Z.compare_gt_iff. lia.
    + rewrite !Z.mul_1_l, Hc. by destruct (e1 ?= e2).
Qed.

Section order.
Context {X : Type}.
Variable bigint_to_f64 : Z → option N.
Variable other_eqb : Value X → Value X → bool.
Implicit Types a b v : Value X.
Abbreviation apply_intrinsic := (apply_intrinsic bigint_to_f64 other_eqb).
Abbreviation apply_binary_intrinsic := (apply_binary_intrinsic bigint_to_f64 other_eqb).

Lemma UNIT_pos : 0 < UNIT.
Proof. done. Qed.
Lemma scaled_numeric v x : scaled v = Some x → is_numeric_value v = true.
Proof. by destruct v. Qed.

Lemma numeric_compare_exact a b x y :
  width_ok a → width_ok b → scaled a = Some x → scaled b = Some y → numeric_compare a b = Ok (Some (x ?= y)).
Proof.
  intros Wa Wb Ha Hb. unfold numeric_compare. rewrite (scaled_numeric _ _ Ha), (scaled_numeric _ _ Hb).
  pose proof UNIT_pos. cbn [negb orb]. destruct a as [i|i|f| | | |]; try done; destruct b as [j|j|g| | | |]; try done;
    cbn [scaled] in Ha, Hb; unfold finite_float;
    try (destruct (is_finite f) eqn:Hf; [|done]); try (destruct (is_finite g) eqn:Hg; [|done]);
    injection Ha as <-; injection Hb as <-; cbn;
    rewrite ?compare_scale, ?compare_integer_exact, ?f64_compare_exact by done; try done; cbn;
    by rewrite (Z.compare_antisym (j * UNIT)).
Qed.
Lemma numeric_equal_exact a b x y :
  width_ok a → width_ok b → scaled a = Some x → scaled b = Some y → numeric_equal a b = Some (x =? y).
Proof.
  intros Wa Wb Ha Hb. unfold numeric_equal.
  rewrite (scaled_numeric _ _ Ha), (scaled_numeric _ _ Hb), (numeric_compare_exact _ _ _ _ Wa Wb Ha Hb).
  cbn. f_equal. rewrite Z.eqb_compare. by destruct (x ?= y).
Qed.

(** What a comparison operator says of numbers. *)
Fixpoint adjacent (op : IntrinsicOp) (x : Z) (l : list Z) : bool :=
  match l with [] => true | y :: l => accepts op (x ?= y) && adjacent op y l end.
Definition compares (op : IntrinsicOp) (l : list Z) : bool :=
  match l with
  | [] => true
  | x :: l => match op with Equal => forallb (λ y, y =? x) l | _ => adjacent op x l end
  end.
Definition comparison_op (op : IntrinsicOp) : Prop := arithmetic op = None.

Lemma compare_values_exact op a b x y :
  width_ok a → width_ok b → scaled a = Some x → scaled b = Some y →
  compare_values op a b = Ok (accepts op (x ?= y)).
Proof. intros Wa Wb Ha Hb. unfold compare_values. by rewrite (numeric_compare_exact _ _ _ _ Wa Wb Ha Hb). Qed.

Lemma compare_windows_exact op vs : ∀ a x xs,
  width_ok a → scaled a = Some x → Forall width_ok vs → Forall2 (λ v y, scaled v = Some y) vs xs →
  compare_windows op a vs = Ok (Bool (adjacent op x xs)).
Proof.
  induction vs as [|b vs IH]; intros a x xs Wa Ha Hw Hs.
  - by apply Forall2_nil_inv_l in Hs as ->.
  - apply Forall2_cons_inv_l in Hs as (y & ys & Hb & Hs & ->). apply Forall_cons in Hw as [Wb Hw].
    cbn [compare_windows adjacent]. rewrite (compare_values_exact _ _ _ _ _ Wa Wb Ha Hb). cbn.
    destruct (accepts op (x ?= y)); [|done]. by apply IH.
Qed.

Lemma compare_two_exact op a b x y :
  comparison_op op → width_ok a → width_ok b → scaled a = Some x → scaled b = Some y →
  apply_binary_intrinsic op a b = Ok (Bool (compares op [x; y])).
Proof.
  intros Hop Wa Wb Ha Hb. pose proof UNIT_pos as Hu.
  assert (op = Equal ∨ (op ≠ Equal ∧ compares op [x; y] = accepts op (x ?= y))) as [->|[Hne Hc]].
  { destruct op; try done; [by left|..]; right; cbn; by rewrite andb_true_r. }
  - cbn [compares forallb]. rewrite andb_true_r, Z.eqb_sym.
    assert (Numeric.apply_binary_intrinsic bigint_to_f64 other_eqb Equal a b = Ok (Bool (value_eqb other_eqb a b)) ∨
      ∃ i j, a = Number i ∧ b = Number j) as [->|(i & j & -> & ->)].
    { destruct a, b; try (by left); right; eauto. }
    + unfold value_eqb. by rewrite (numeric_equal_exact _ _ _ _ Wa Wb Ha Hb).
    + injection Ha as <-. injection Hb as <-. cbn. by rewrite !Z.eqb_compare, compare_scale.
  - rewrite Hc.
    assert (apply_binary_intrinsic op a b = (b ← map_err Failed (compare_values op a b); Ok (Bool b)) ∨
      ∃ i j, a = Number i ∧ b = Number j) as [->|(i & j & -> & ->)].
    { destruct op; try done; destruct a, b; try (by left); right; eauto. }
    + by rewrite (compare_values_exact _ _ _ _ _ Wa Wb Ha Hb).
    + injection Ha as <-. injection Hb as <-. rewrite compare_scale by done. by destruct op.
Qed.

(** C10. Comparisons of numbers are exact: [=], [<], [<=], [>] and [>=], with any
    number of arguments, say what holds of the numbers the arguments stand for,
    whether they are small or big integers or doubles; a double is never
    rounded to an integer nor an integer to a double. *)
Theorem comparisons_exact op vs xs :
  comparison_op op → (2 <= length vs)%nat → Forall width_ok vs → Forall2 (λ v x, scaled v = Some x) vs xs →
  apply_intrinsic op vs = Ok (Bool (compares op xs)).
Proof.
  intros Hop Hl Hw Hs. destruct vs as [|a [|b vs]]; [simpl in Hl; lia..|].
  apply Forall2_cons_inv_l in Hs as (x & ys & Ha & Hs & ->).
  apply Forall2_cons_inv_l in Hs as (y & zs & Hb & Hs & ->).
  apply Forall_cons in Hw as [Wa Hw]. pose proof Hw as [Wb Hw']%Forall_cons.
  destruct vs as [|c vs].
  { apply Forall2_nil_inv_l in Hs as ->. by apply compare_two_exact. }
  assert (Forall2 (λ v x, scaled v = Some x) (b :: c :: vs) (y :: zs)) as Hall by by constructor.
  assert (op = Equal ∨ op ≠ Equal) as [->|Hne] by (destruct op; auto).
  - cbn [Numeric.apply_intrinsic drop compares]. do 2 f_equal. clear Hs Hb Hl. revert Hw. revert Hall.
    generalize (b :: c :: vs) (y :: zs). intros l k. induction 1 as [|v z l k Hv _ IH]; intros Hw; [done|].
    apply Forall_cons in Hw as [Wv Hw]. cbn [forallb]. rewrite IH by done. f_equal.
    unfold value_eqb. by rewrite (numeric_equal_exact _ _ _ _ Wv Wa Hv Ha).
  - transitivity (compare_windows op a (b :: c :: vs)); [by destruct op|].
    rewrite (compare_windows_exact op (b :: c :: vs) a x (y :: zs)) by done. by destruct op.
Qed.
End order.

(** ** Arithmetic *)
(** An operator on two integers, but for a division by zero. *)
Definition exact_step (op : IntrinsicOp) (a b : Z) : option Z :=
  match op with
  | Add => Some (a + b)
  | Subtract => Some (a - b)
  | Multiply => Some (a * b)
  | Divide => if b =? 0 then None else Some (Z.quot a b)
  | Remainder | Modulo => if b =? 0 then None else Some (Z.rem a b)
  | _ => None
  end.
Fixpoint exact_fold (op : IntrinsicOp) (a : Z) (l : list Z) : option Z :=
  match l with [] => Some a | b :: l => c ← exact_step op a b; exact_fold op c l end.
Definition exact (op : IntrinsicOp) (l : list Z) : option Z :=
  match l with
  | [] => None
  | [z] => match op with Subtract => Some (- z) | Divide => exact_step Divide 1 z | _ => Some z end
  | z :: l => exact_fold op z l
  end.

Section arithmetic.
Context {X : Type}.
Variable bigint_to_f64 : Z → option N.
Variable other_eqb : Value X → Value X → bool.
Abbreviation apply_intrinsic := (apply_intrinsic bigint_to_f64 other_eqb).
Abbreviation apply_binary_intrinsic := (apply_binary_intrinsic bigint_to_f64 other_eqb).

Definition integer_result (o : option Z) : result failure (Value X) :=
  match o with Some z => Ok (compact_integer z) | None => Err (Failed "division by zero") end.

Lemma compact_integer_number z : in_i64 z = true → compact_integer (X := X) z = Number z.
Proof. unfold compact_integer, to_i64. by intros ->. Qed.
Lemma to_i64_promoting op z l r :
  numeric_binary (X := X) bigint_to_f64 op (Number l) (Number r) = Ok (compact_integer z) →
  promoting (X := X) bigint_to_f64 op (to_i64 z) l r = Ok (compact_integer z).
Proof. intros Hn. unfold promoting, compact_integer in *. by destruct (to_i64 z). Qed.

Lemma rem_range l r : in_i64 l = true → r ≠ 0 → in_i64 (Z.rem l r) = true.
Proof.
  unfold in_i64, I64_MIN, I64_MAX. intros Hl Hr.
  destruct (Z.le_gt_cases 0 l) as [Hp|Hn].
  - pose proof (Z.rem_nonneg l r Hr Hp). pose proof (Z.rem_le l r) as Hle. pose proof (Z.rem_bound_abs l r Hr).
    assert (Z.rem l r <= l); [|lia]. rewrite <- Z.rem_abs_r by done. apply Z.rem_le; lia.
  - pose proof (Z.rem_nonpos l r Hr ltac:(lia)). assert (l <= Z.rem l r); [|lia].
    rewrite <- Z.rem_abs_r by done. replace l with (- (- l)) by lia. rewrite Z.rem_opp_l by lia.
    pose proof (Z.rem_le (- l) (Z.abs r) ltac:(lia) ltac:(lia)). lia.
Qed.

Lemma remainder_number l r :
  in_i64 l = true →
  (if r =? 0 then Err (Failed "division by zero")
   else if (l =? I64_MIN) && (r =? -1) then Ok (Number (X := X) 0)
   else match checked_rem l r with
        | Some value => Ok (Number value)
        | None => Err (Panicked "remainder overflow handled above")
        end) = integer_result (if r =? 0 then None else Some (Z.rem l r)).
Proof.
  intros Hl. destruct (Z.eqb_spec r 0) as [->|Hr]; [done|]. unfold checked_rem.
  rewrite (proj2 (Z.eqb_neq r 0)) by done. cbn [orb integer_result].
  rewrite compact_integer_number by by apply rem_range.
  destruct (_ && _) eqn:E; [|done]. apply andb_true_iff in E as [->%Z.eqb_eq ->%Z.eqb_eq]. done.
Qed.

Lemma numbers_exact op l r :
  arithmetic op ≠ None → in_i64 l = true → in_i64 r = true →
  apply_binary_numbers (X := X) bigint_to_f64 op l r = integer_result (exact_step op l r).
Proof.
  intros Hop Hl Hr. destruct op; try done; cbn [apply_binary_numbers exact_step].
  - unfold checked_add. by rewrite (to_i64_promoting OpAdd).
  - unfold checked_sub. by rewrite (to_i64_promoting OpSubtract).
  - unfold checked_mul. by rewrite (to_i64_promoting OpMultiply).
  - destruct (Z.eqb_spec r 0) as [->|Hne]; [done|]. unfold checked_div.
    rewrite (proj2 (Z.eqb_neq _ _)) by done. rewrite (to_i64_promoting OpDivide); [done|].
    unfold numeric_binary, integer_binary. cbn. by rewrite (proj2 (Z.eqb_neq _ _)).
  - by apply remainder_number.
  - by apply remainder_number.
Qed.

Lemma numeric_binary_exact op o l r :
  arithmetic op = Some o →
  map_err (λ e, Failed (operator_error op e))
    (numeric_binary bigint_to_f64 o (compact_integer (X := X) l) (compact_integer r)) =
  integer_result (exact_step op l r).
Proof.
  intros Hop. unfold numeric_binary.
  assert (∀ z, is_numeric_value (compact_integer (X := X) z) = true ∧ is_float (compact_integer (X := X) z) = false ∧
    integer_value (compact_integer (X := X) z) = Ok z) as Hz.
  { intros z. unfold compact_integer. unfold to_i64. by destruct (in_i64 z). }
  destruct (Hz l) as (-> & -> & ->), (Hz r) as (-> & -> & ->). cbn. unfold integer_binary.
  destruct op; try done; injection Hop as <-; cbn; destruct (r =? 0); done.
Qed.

Lemma binary_exact op l r :
  arithmetic op ≠ None →
  apply_binary_intrinsic op (compact_integer l) (compact_integer r) = integer_result (exact_step op l r).
Proof.
  intros Hop. destruct (arithmetic op) as [o|] eqn:Ho; [|done].
  pose proof (numeric_binary_exact op o l r Ho) as Hn.
  assert (∀ z, in_i64 z = true ∧ compact_integer (X := X) z = Number z ∨
    compact_integer (X := X) z = BigInteger z) as Hz.
  { intros z. unfold compact_integer, to_i64. destruct (in_i64 z); auto. }
  destruct (Hz l) as [[Hl El]|El], (Hz r) as [[Hr Er]|Er]; rewrite El, Er in *;
    [apply numbers_exact; by rewrite ?Ho|cbn; by rewrite Ho..].
Qed.

Lemma fold_exact op l : ∀ z,
  arithmetic op ≠ None →
  fold_intrinsic bigint_to_f64 other_eqb op (compact_integer z) (compact_integer <$> l) =
    integer_result (exact_fold op z l).
Proof.
  induction l as [|y l IH]; intros z Hop; [done|]. cbn [fold_intrinsic fmap list_fmap exact_fold].
  rewrite binary_exact by done. destruct (exact_step op z y) as [c|]; [|done]. by apply IH.
Qed.

Lemma negate_exact z : numeric_negate (compact_integer (X := X) z) = Ok (compact_integer (- z)).
Proof.
  unfold compact_integer at 1. unfold to_i64. destruct (in_i64 z) eqn:Hz; [|done]. cbn.
  unfold checked_neg, compact_integer. destruct (to_i64 (- z)) eqn:E; [done|].
  unfold to_i64, in_i64, I64_MIN, I64_MAX in *. destruct (_ && _) eqn:E' in E; [done|]. do 2 f_equal. lia.
Qed.

(** C9. Integer arithmetic is exact at every width: the operators, with any
    number of integers, give the integer that arithmetic on unbounded integers
    gives, as a 64-bit number exactly when it fits and as a big integer
    otherwise; division by zero is the only error, and none panics. *)
Theorem arithmetic_exact op zs :
  arithmetic op ≠ None → zs ≠ [] → (op = Remainder ∨ op = Modulo → length zs = 2%nat) →
  apply_intrinsic op (compact_integer <$> zs) = integer_result (exact op zs).
Proof.
  intros Hop Hne Htwo. destruct zs as [|a [|b zs]]; [done|..].
  - assert (op ≠ Remainder ∧ op ≠ Modulo) as [Hr Hm] by (split; intros ->; naive_solver).
    assert (is_numeric_value (compact_integer (X := X) a) = true) as Ha.
    { unfold compact_integer. by destruct (to_i64 a). }
    destruct op; try done; cbn [fmap list_fmap Numeric.apply_intrinsic exact].
    + by rewrite Ha.
    + by rewrite negate_exact.
    + by rewrite Ha.
    + rewrite <- (compact_integer_number 1) by done. by apply binary_exact.
  - destruct zs as [|c zs].
    + cbn [fmap list_fmap Numeric.apply_intrinsic]. rewrite binary_exact by done.
      cbn [exact exact_fold]. by destruct (exact_step op a b).
    + transitivity (fold_intrinsic bigint_to_f64 other_eqb op (compact_integer a) (compact_integer <$> b :: c :: zs)).
      * destruct op; try done; naive_solver.
      * by rewrite fold_exact.
Qed.
End arithmetic.

(** ** Conversions *)
Lemma f64_scaled_signed bits s m e :
  f64_parts bits = (s, m, e) →
  f64_scaled bits = (if s then - Z.of_N m else Z.of_N m) * 2 ^ (e + 1074).
Proof. intros Hp. unfold f64_scaled. rewrite Hp. destruct s; lia. Qed.

Lemma UNIT_split e : -1074 <= e <= 0 → UNIT = 2 ^ (- e) * 2 ^ (e + 1074).
Proof. intros He. unfold UNIT. rewrite <- Z.pow_add_r by lia. f_equal. lia. Qed.

Lemma scaled_integer a e z : -1074 <= e < 0 → a * 2 ^ (e + 1074) = z * UNIT ↔ a = z * 2 ^ (- e).
Proof.
  intros He. rewrite (UNIT_split e), Z.mul_assoc by lia.
  assert (0 < 2 ^ (e + 1074)) as Hp by (apply Z.pow_pos_nonneg; lia). split; [|by intros ->].
  apply Z.mul_reg_r. lia.
Qed.
Lemma scaled_large a e z : 0 <= e → a * 2 ^ (e + 1074) = z * UNIT ↔ a * 2 ^ e = z.
Proof.
  intros He. unfold UNIT. rewrite Z.pow_add_r, Z.mul_assoc by lia. split; [|by intros <-].
  by apply Z.mul_reg_r.
Qed.

Lemma integral_parts bits s m e :
  is_finite bits = true → f64_parts bits = (s, m, e) →
  is_some (f64_integral bits) = (0 <=? e) || (m mod 2 ^ Z.to_N (- e) =? 0)%N.
Proof.
  intros Hf Hp. unfold f64_integral. rewrite Hp. destruct (0 <=? e); [done|]. cbn. by destruct (_ =? _)%N.
Qed.

Lemma subnormal_parts bits s m e :
  is_finite bits = true → f64_parts bits = (s, m, e) →
  (Z.of_N (N.land (N.shiftr bits 52) 2047) - 1023 = -1023 ↔ (m < 2 ^ 52)%N) ∧
  ((m < 2 ^ 52)%N → e = -1074 ∧ Z.of_N (N.land bits 4503599627370495) = Z.of_N m).
Proof.
  intros Hf Hp. apply f64_parts_inv in Hp as [_ Hp]. revert Hp. cbn zeta.
  pose proof (fraction_fields bits) as Ef. pose proof (exponent_fields bits) as Ee. cbn zeta in Ef, Ee.
  rewrite Ef, Ee. assert (bits mod 2 ^ 52 < 2 ^ 52)%N as Hb by by apply N.mod_lt. clear Ef Ee. revert Hb.
  generalize (bits mod 2 ^ 52)%N (N.shiftr bits 52 mod 2048)%N.
  change (2 ^ 52)%N with 4503599627370496%N. intros low high Hb [(E & -> & ->)|(E & -> & ->)]; (split; [split|]); lia.
Qed.

Lemma mod_N_Z m d : 0 < d → (m mod Z.to_N d =? 0)%N = (Z.of_N m mod d =? 0).
Proof.
  intros Hd. apply eq_bool_prop_intro. rewrite !Is_true_true, N.eqb_eq, Z.eqb_eq.
  rewrite <- N2Z.inj_iff, N2Z.inj_mod, Z2N.id by lia. done.
Qed.

(** The value of [f64_to_bigint_exact] over the parts. *)
Lemma bigint_parts bits s m e :
  is_finite bits = true → (bits < 2 ^ 64)%N → f64_parts bits = (s, m, e) →
  f64_to_bigint_exact bits =
    let sign z := if s then - z else z in
    if 0 <=? e then Some (sign (Z.of_N m * 2 ^ e))
    else if Z.of_N m mod 2 ^ (- e) =? 0 then Some (sign (Z.of_N m / 2 ^ (- e))) else None.
Proof.
  intros Hf Hw Hp. pose proof (f64_parts_ok _ _ _ _ Hf Hp) as [Hm He Hc].
  unfold f64_to_bigint_exact. rewrite (integral_parts _ _ _ _ Hf Hp), Hf, negative_fields by done.
  rewrite (parts_sign _ _ _ _ Hp).
  destruct (subnormal_parts _ _ _ _ Hf Hp) as [Hsub Hfr]. cbn [negb orb].
  pose proof (significand_parts _ Hf _ _ _ Hp) as Hsig. cbn zeta in Hsig |- *.
  assert (0 <= e ∨ (e < 0 ∧ 0 < 2 ^ (- e) ∧ (2 ^ Z.to_N (- e))%N = Z.to_N (2 ^ (- e)))) as [Hpos|(Hneg & Hd & Hd')].
  { destruct (Z.le_gt_cases 0 e); [by left|right]. split_and!; [done|apply Z.pow_pos_nonneg; lia|].
    apply N2Z.inj. rewrite N2Z.inj_pow, !Z2N.id; lia. }
  - rewrite (proj2 (Z.leb_le 0 e)) by done. cbn [orb negb].
    assert (Z.of_N (N.land (N.shiftr bits 52) 2047) - 1023 ≠ -1023) as Hne by (intros E; apply Hsub, Hfr in E as [E _]; lia).
    rewrite (proj2 (Z.eqb_neq _ _)) by done. rewrite (proj2 (Z.eqb_neq _ _)) in Hsig by lia.
    apply pair_equal_spec in Hsig as [-> ->]. rewrite (proj2 (Z.leb_le 0 e)) by done. done.
  - rewrite (proj2 (Z.leb_gt 0 e)) by done. cbn [orb]. rewrite Hd', mod_N_Z by done.
    destruct (Z.eqb_spec (Z.of_N m mod 2 ^ (- e)) 0) as [E|E]; [|done]. cbn [negb].
    destruct (Z.eqb_spec (Z.of_N (N.land (N.shiftr bits 52) 2047) - 1023) (-1023)) as [Es|Es].
    + apply Hsub in Es. destruct (Hfr Es) as [-> ->].
      assert (Z.of_N m < 2 ^ 1074) as Hlt.
      { apply Z.lt_trans with (2 ^ 52); [|done]. change (2 ^ 52)%N with 4503599627370496%N in Es.
        change (2 ^ 52) with 4503599627370496. lia. }
      rewrite Z.mod_small in E by (change (- -1074) with 1074; lia). rewrite E. cbn. by destruct s.
    + rewrite (proj2 (Z.eqb_neq _ _)) in Hsig by lia. apply pair_equal_spec in Hsig as [-> ->].
      rewrite (proj2 (Z.leb_gt 0 e)) by done.
      rewrite Z.rem_mod_nonneg, Z.quot_div_nonneg by lia. rewrite E. done.
Qed.

Lemma bigint_exact bits z :
  is_finite bits = true → (bits < 2 ^ 64)%N →
  f64_to_bigint_exact bits = Some z ↔ f64_scaled bits = z * UNIT.
Proof.
  intros Hf Hw. destruct (f64_parts bits) as [[s m] e] eqn:Hp. pose proof (f64_parts_ok _ _ _ _ Hf Hp) as [_ He _].
  rewrite (f64_scaled_signed _ _ _ _ Hp), (bigint_parts _ _ _ _ Hf Hw Hp). cbn zeta.
  destruct (Z.leb_spec 0 e) as [Hpos|Hneg].
  - rewrite scaled_large by done. split; [intros [= <-]|intros <-; f_equal]; destruct s; lia.
  - rewrite scaled_integer by lia. assert (0 < 2 ^ (- e)) as Hd by (apply Z.pow_pos_nonneg; lia).
    destruct (Z.eqb_spec (Z.of_N m mod 2 ^ (- e)) 0) as [E|E].
    + apply Z.div_exact in E; [|lia]. split; [intros [= <-]; destruct s; lia|]. intros Hz. f_equal.
      destruct s; [|nia]. apply Z.mul_reg_r with (2 ^ (- e)); lia.
    + split; [done|]. intros Hz. destruct E.
      assert (Z.of_N m = (if s then - z else z) * 2 ^ (- e)) as -> by (destruct s; lia). by rewrite Z.mod_mul by lia.
Qed.

(** Clearing the low bits leaves the fields above. *)
Lemma cleared_fields bits k :
  (k ≤ 52)%N →
  let cleared := N.shiftl (N.shiftr bits k) k in
  (N.shiftr cleared 52 = N.shiftr bits 52)%N ∧ N.testbit cleared 63 = N.testbit bits 63 ∧
  (cleared mod 2 ^ 52 = (bits mod 2 ^ 52) / 2 ^ k * 2 ^ k)%N ∧ (cleared ≤ bits)%N.
Proof.
  intros Hk cleared. unfold cleared. rewrite !N.shiftr_div_pow2, N.shiftl_mul_pow2.
  assert (2 ^ k ≠ 0)%N as Hp by by apply N.pow_nonzero.
  assert (2 ^ 52 = 2 ^ k * 2 ^ (52 - k))%N as E52 by (rewrite <- N.pow_add_r; f_equal; lia).
  assert (2 ^ (52 - k) ≠ 0)%N as Hq by by apply N.pow_nonzero.
  split_and!.
  - rewrite E52, <- !N.Div0.div_div. by rewrite N.div_mul.
  - rewrite <- N.shiftl_mul_pow2, <- N.shiftr_div_pow2, N.shiftl_spec_high' by lia.
    rewrite N.shiftr_spec'. f_equal. lia.
  - rewrite E52, (N.mul_comm (bits / 2 ^ k)), N.Div0.mul_mod_distr_l by done. rewrite N.mul_comm. f_equal.
    rewrite N.Div0.mod_mul_r, N.mul_comm, N.div_add by done.
    by rewrite (N.div_small (bits mod 2 ^ k)) by by apply N.mod_lt.
  - rewrite N.mul_comm. by apply N.Div0.mul_div_le.
Qed.

Lemma trunc_exact bits :
  is_finite bits = true → (bits < 2 ^ 64)%N →
  is_finite (f64_trunc bits) = true ∧ (f64_trunc bits < 2 ^ 64)%N ∧
  f64_scaled (f64_trunc bits) = Z.quot (f64_scaled bits) UNIT * UNIT.
Proof.
  intros Hf Hw. destruct (f64_parts bits) as [[s m] e] eqn:Hp. pose proof (f64_parts_ok _ _ _ _ Hf Hp) as [Hm He Hc].
  pose proof (f64_scaled_signed _ _ _ _ Hp) as Hs. unfold f64_trunc. rewrite Hp, Hf. cbn [negb orb].
  destruct (Z.leb_spec 0 e) as [Hpos|Hneg].
  { split_and!; [done|done|]. rewrite Hs. unfold UNIT. rewrite Z.pow_add_r, Z.mul_assoc, Z.quot_mul by lia. done. }
  assert (0 < 2 ^ (e + 1074)) as Hu by (apply Z.pow_pos_nonneg; lia).
  assert (0 < 2 ^ (- e)) as Hd by (apply Z.pow_pos_nonneg; lia).
  pose proof (UNIT_split e ltac:(lia)) as EU.
  assert (Z.quot (f64_scaled bits) UNIT = if s then - (Z.of_N m / 2 ^ (- e)) else Z.of_N m / 2 ^ (- e)) as ->.
  { rewrite Hs, EU, Z.quot_mul_cancel_r by lia. destruct s; [rewrite Z.quot_opp_l by lia; f_equal|];
      by apply Z.quot_div_nonneg; lia. }
  destruct (Z.ltb_spec 52 (- e)) as [Hbig|Hsmall].
  - assert (Z.of_N m / 2 ^ (- e) = 0) as ->.
    { apply Z.div_small. split; [lia|]. apply Z.lt_le_trans with (2 ^ 53).
      - change (2 ^ 53)%N with 9007199254740992%N in Hm. change (2 ^ 53) with 9007199254740992. lia.
      - apply Z.pow_le_mono_r; lia. }
    assert (N.shiftr bits 63 = 0 ∨ N.shiftr bits 63 = 1)%N as [-> | ->].
    { rewrite N.shiftr_div_pow2. assert (bits / 2 ^ 63 < 2)%N as Hn by (apply N.Div0.div_lt_upper_bound; exact Hw).
      revert Hn. generalize (bits / 2 ^ 63)%N. lia. }
    + split_and!; [done|done|]. by destruct s.
    + split_and!; [done|done|]. by destruct s.
  - destruct (cleared_fields bits (Z.to_N (- e)) ltac:(lia)) as (Hhigh & Hsign & Hlow & Hle).
    split; [unfold is_finite, f64_fields in *; by rewrite Hhigh|].
    split; [by eapply N.le_lt_trans|].
    assert (2 ^ Z.to_N (- e) = Z.to_N (2 ^ (- e)))%N as Ed by (apply N2Z.inj; rewrite N2Z.inj_pow, !Z2N.id; lia).
    assert (f64_parts (N.shiftl (N.shiftr bits (Z.to_N (- e))) (Z.to_N (- e))) =
      (s, (m / 2 ^ Z.to_N (- e) * 2 ^ Z.to_N (- e))%N, e)) as Hp'.
    { destruct (f64_parts_inv _ _ _ _ Hp) as [Hsg [(_ & _ & E)|(Eh & Em & Ee)]]; [lia|].
      unfold f64_parts, f64_fields. rewrite Hhigh, Hsign, Hlow, (proj2 (N.eqb_neq _ _) Eh), <- Hsg, <- Ee, Em.
      do 2 f_equal.
      assert (2 ^ 52 = 2 ^ (52 - Z.to_N (- e)) * 2 ^ Z.to_N (- e))%N as E52 by (rewrite <- N.pow_add_r; f_equal; lia).
      generalize (bits mod 2 ^ 52)%N. intros low. rewrite E52, N.div_add by by apply N.pow_nonzero.
      by rewrite N.mul_add_distr_r. }
    rewrite (f64_scaled_signed _ _ _ _ Hp'), EU, Z.mul_assoc. f_equal.
    rewrite N2Z.inj_mul, N2Z.inj_div, Ed, Z2N.id by lia. destruct s; lia.
Qed.

Section conversions.
Context {X : Type}.
Implicit Types v : Value X.

Lemma UNIT_inj a b : a * UNIT = b * UNIT → a = b.
Proof. apply Z.mul_reg_r. done. Qed.

Lemma boundary_exact v z : width_ok v → boundary_integer v = Ok z ↔ scaled v = Some (z * UNIT).
Proof.
  intros Hw. destruct v as [i|i|bits| | | |]; cbn [boundary_integer scaled width_ok] in *; try (by split).
  1,2: split; [by intros [= ->]|]; intros [= E%UNIT_inj]; by subst.
  destruct (is_finite bits) eqn:Hf; [|by split].
  split.
  - destruct (f64_to_bigint_exact bits) as [y|] eqn:E; [|done]. intros [= ->]. f_equal. by apply bigint_exact.
  - intros [= E]. apply bigint_exact in E; [|done|done]. by rewrite E.
Qed.

Lemma within_exact (P : Z → option Z) message v z :
  width_ok v → (∀ y z, P y = Some z → y = z) →
  (y ← boundary_integer v; ok_or (P y) message) = Ok z ↔ P z = Some z ∧ scaled v = Some (z * UNIT).
Proof.
  intros Hw HP. rewrite result_bind_ok. split.
  - intros (y & E & Hz). destruct (P y) as [z'|] eqn:Ey; [|done]. injection Hz as ->.
    pose proof (HP _ _ Ey) as ->. split; [done|]. by apply boundary_exact.
  - intros [Hz E]. exists z. split; [by apply boundary_exact|]. by rewrite Hz.
Qed.

Lemma to_i64_some y z : to_i64 y = Some z ↔ y = z ∧ in_i64 z = true.
Proof. unfold to_i64. destruct (in_i64 y) eqn:E; split; [intros [= ->]; done|intros [-> ?]; done|done|intros [-> ?]; congruence]. Qed.
Lemma to_unsigned_some m y z : to_unsigned m y = Some z ↔ y = z ∧ 0 <= z <= m.
Proof.
  unfold to_unsigned. destruct (_ && _) eqn:E.
  - split; [intros [= ->]; split; [done|lia]|by intros [-> ?]].
  - split; [done|]. intros [-> ?]. lia.
Qed.

(** C11. Conversions accept exactly the numbers that fit: an integer of the host
    is returned for a number, whether an integer or a double, when and only when
    the number is that integer and is in range; truncation rounds a finite
    number toward zero, and is refused only when the result is out of range. *)
Theorem conversions_exact v z :
  width_ok v →
  (to_i64_exact v = Ok z ↔ in_i64 z = true ∧ scaled v = Some (z * UNIT)) ∧
  (to_u16_exact v = Ok z ↔ 0 <= z <= 65535 ∧ scaled v = Some (z * UNIT)) ∧
  (to_u64_exact v = Ok z ↔ 0 <= z < 2 ^ 64 ∧ scaled v = Some (z * UNIT)) ∧
  (to_usize_exact v = Ok z ↔ 0 <= z < 2 ^ 64 ∧ scaled v = Some (z * UNIT)) ∧
  (to_i64_truncating v = Ok z ↔ in_i64 z = true ∧ ∃ x, scaled v = Some x ∧ z = Z.quot x UNIT).
Proof.
  intros Hw. unfold to_i64_exact, to_u16_exact, to_u64_exact, to_usize_exact, to_u16, to_u64, to_usize.
  rewrite !within_exact by (done || (intros ? ? E; apply to_i64_some in E || apply to_unsigned_some in E; by destruct E)).
  rewrite !to_unsigned_some, to_i64_some. change (Z.of_N U64_MAX) with (2 ^ 64 - 1). change (Z.of_N USIZE_MAX) with (2 ^ 64 - 1).
  split_and!; [naive_solver|naive_solver|naive_solver lia|naive_solver lia|].
  assert (∀ y, Z.quot (y * UNIT) UNIT = y) as Hq by (intros y; by apply Z.quot_mul).
  destruct v as [i|i|bits| | | |]; cbn [to_i64_truncating scaled width_ok] in *; try (split; [done|by intros (_ & ? & ? & _)]).
  - split; [intros [= ->]; split; [done|]; eexists; by rewrite Hq|].
    intros (Hz & x & [= <-] & ->). by rewrite Hq.
  - destruct (to_i64 i) as [y|] eqn:E; cbn.
    + apply to_i64_some in E as [-> Hy]. split; [intros [= ->]; split; [done|]; eexists; by rewrite Hq|].
      intros (Hz & x & [= <-] & ->). by rewrite Hq.
    + split; [done|]. intros (Hz & x & [= <-] & ->). rewrite Hq in Hz. unfold to_i64 in E. by rewrite Hz in E.
  - destruct (is_finite bits) eqn:Hf; [|split; [done|by intros (_ & ? & ? & _)]].
    destruct (trunc_exact bits Hf Hw) as (Hf' & Hw' & Ht).
    apply (bigint_exact _ _ Hf' Hw') in Ht. rewrite Ht. cbn.
    destruct (to_i64 (f64_scaled bits ÷ UNIT)) as [y|] eqn:E; cbn.
    + apply to_i64_some in E as [<- Hy]. split; [intros [= <-]; eauto|]. intros (_ & x & [= <-] & ->). done.
    + split; [done|]. intros (Hz & x & [= <-] & ->). unfold to_i64 in E. by rewrite Hz in E.
Qed.
End conversions.

(** ** Concrete numbers *)
Module NumberDemo.
(** [2^53] and [1.5]. *)
Definition two_53 : N := 4845873199050653696.
Definition one_half : N := 4609434218613702656.
Definition apply_intrinsic : IntrinsicOp → list (Value unit) → result failure (Value unit) :=
  Numeric.apply_intrinsic (λ _, None) (λ _ _, false).

(** As doubles the two numbers would be equal. *)
Lemma comparisons_exact_witness :
  apply_intrinsic Equal [Number 9007199254740993; Float two_53] = Ok (Bool false) ∧
  apply_intrinsic Less [Number 1; Float one_half; Float two_53; Number 9007199254740993; BigInteger (2 ^ 70)] = Ok (Bool true).
Proof.
  split.
  - apply (comparisons_exact (λ _, None) (λ _ _, false) Equal _ [9007199254740993 * UNIT; 2 ^ 53 * UNIT]);
      [done|simpl; lia|repeat constructor|repeat constructor].
  - apply (comparisons_exact (λ _, None) (λ _ _, false) Less _
      [UNIT; 3 * 2 ^ 1073; 2 ^ 53 * UNIT; 9007199254740993 * UNIT; 2 ^ 70 * UNIT]);
      [done|simpl; lia|repeat constructor|repeat constructor].
Defined.

Lemma arithmetic_exact_witness :
  apply_intrinsic Add [Number I64_MAX; Number 1; Number (-1)] = Ok (Number I64_MAX) ∧
  apply_intrinsic Divide [Number I64_MIN; Number (-1)] = Ok (BigInteger (2 ^ 63)) ∧
  apply_intrinsic Multiply [Number (2 ^ 40); Number (2 ^ 40)] = Ok (BigInteger (2 ^ 80)) ∧
  apply_intrinsic Remainder [Number 7; Number 0] = Err (Failed "division by zero").
Proof.
  assert (∀ op zs, arithmetic op ≠ None → zs ≠ [] → (op = Remainder ∨ op = Modulo → length zs = 2%nat) →
    apply_intrinsic op (compact_integer <$> zs) = integer_result (exact op zs)) as H.
  { exact (arithmetic_exact (λ _, None) (λ _ _, false)). }
  split_and!.
  - exact (H Add [I64_MAX; 1; -1] ltac:(done) ltac:(done) ltac:(naive_solver)).
  - exact (H Divide [I64_MIN; -1] ltac:(done) ltac:(done) ltac:(naive_solver)).
  - exact (H Multiply [2 ^ 40; 2 ^ 40] ltac:(done) ltac:(done) ltac:(naive_solver)).
  - exact (H Remainder [7; 0] ltac:(done) ltac:(done) ltac:(naive_solver)).
Defined.

Lemma conversions_exact_witness :
  to_u64_exact (X := unit) (Float two_53) = Ok (2 ^ 53) ∧
  to_i64_truncating (X := unit) (Float (f64_neg one_half)) = Ok (-1) ∧
  to_u16_exact (X := unit) (Float one_half) ≠ Ok 1.
Proof.
  split_and!.
  - destruct (conversions_exact (X := unit) (Float two_53) (2 ^ 53) eq_refl) as (_ & _ & H & _).
    apply H. split; [lia|reflexivity].
  - destruct (conversions_exact (X := unit) (Float (f64_neg one_half)) (-1) eq_refl) as (_ & _ & _ & _ & H).
    apply H. split; [reflexivity|]. exists (- (3 * 2 ^ 1073)). split; reflexivity.
  - destruct (conversions_exact (X := unit) (Float one_half) 1 eq_refl) as (_ & H & _).
    intros [_ E]%H. vm_compute in E. discriminate E.
Defined.
End NumberDemo.
