(* ===== verification/NumericHash.v ===== *)
(** * Hashes of numbers

    [lang/hash/mod.rs] and the hash of numbers in [numeric.rs] and
    [core/value.rs]: a number is hashed through its decimal text, with the
    formula of Java's [BigDecimal]. Numbers that are equal hash alike, whatever
    represents them, as long as the text of a double is its exact value. *)
From S2P Require Import Prelude Bytes Text Compiler Numeric NumericFacts.
From Stdlib Require Import Ascii.
#[local] Open Scope Z_scope.

(** ** Wrapping arithmetic *)
(** The value of a two's-complement integer of the width. *)
Definition wrap (width z : Z) : Z := (z + 2 ^ (width - 1)) mod 2 ^ width - 2 ^ (width - 1).
Definition wrap32 : Z → Z := wrap 32.
Definition wrap64 : Z → Z := wrap 64.
(** [as u32]. *)
Definition low32 (z : Z) : Z := z mod 2 ^ 32.
Definition saturate64 (z : Z) : Z := Z.max I64_MIN (Z.min I64_MAX z).

(** ** Plain values *)
Definition encode_utf16 (c : char) : list Z :=
  if (c <? 65536)%N then [Z.of_N c]
  else let c := Z.of_N c - 65536 in [55296 + c / 1024; 56320 + c mod 1024].
Definition java_string_hash (s : list char) : Z :=
  foldl (λ h unit, wrap32 (wrap32 (h * 31) + unit)) 0 (s ≫= encode_utf16).
Definition hash_seed (obj_name : list char) : Z := java_string_hash (chars "::" ++ obj_name).
Definition hash_bool (b : bool) : Z := if b then 1231 else 1237.
Definition hash_char (c : char) : Z := wrap32 (Z.of_N c).
(** The bytes are sign-extended. *)
Definition hash_bytes (bytes : list Z) : Z := foldl (λ h b, wrap32 (wrap32 (h * 31) + wrap 8 b)) 1 bytes.

(** ** Collections *)
Definition compose_ordered (obj_name : list char) (items : list Z) : Z :=
  foldl (λ acc h, wrap64 (wrap64 (acc * 31) + h)) (hash_seed obj_name) items.
Definition compose_unordered (obj_name : list char) (items : list Z) : Z :=
  foldl (λ acc h, wrap64 (acc + h)) (hash_seed obj_name) items.
Definition compose_entry (key_hash value_hash : Z) : Z :=
  compose_ordered (chars "SEQUENTIAL") [key_hash; value_hash].

(** ** Decimal numbers *)
Definition biginteger_hash (words_be : list Z) (signum : Z) : Z :=
  wrap32 (foldl (λ h w, wrap32 (wrap32 (h * 31) + wrap32 w)) 0 words_be * signum).

(** The magnitude is a [u128]: shifting drops what is above. *)
Definition magnitude (words_be : list Z) : Z :=
  foldl (λ acc w, Z.lor (Z.shiftl acc 32 mod 2 ^ 128) w) 0 words_be.
Definition bigdecimal_hash (words_be : list Z) (signum scale : Z) : Z :=
  if signum =? 0 then scale else
  let mag := magnitude words_be in
  if mag <? 2 ^ 63 then
    let temp := wrap32 (wrap32 (wrap32 (low32 (Z.shiftr mag 32)) * 31) + Z.land mag 4294967295) in
    let signed := if signum <? 0 then wrap32 (- temp) else temp in
    wrap32 (wrap32 (31 * signed) + scale)
  else wrap32 (wrap32 (31 * biginteger_hash words_be signum) + scale).

(** The digits of an exponent; what follows them is not looked at. *)
Definition exponent_value (digits : list char) : Z :=
  foldl (λ exp c, saturate64 (saturate64 (exp * 10) + (Z.of_N c - 48))) 0 digits.
Fixpoint parse_decimal_from (l : list char) (digits : list Z) (seen_dot any_digit : bool) (scale : Z) :
    option (list Z * bool * Z) :=
  match l with
  | [] => Some (digits, any_digit, scale)
  | c :: l =>
      if is_ascii_digit c then
        parse_decimal_from l (digits ++ [Z.of_N c - 48]) seen_dot true
          (if seen_dot then wrap64 (scale + 1) else scale)
      else if (c =? ch ".")%N && negb seen_dot then parse_decimal_from l digits true any_digit scale
      else if (c =? ch "e")%N || (c =? ch "E")%N then
        let '(eneg, l) := strip_sign l in
        match take_while is_ascii_digit l with
        | [] => None
        | run =>
            let exp := exponent_value run in
            Some (digits, any_digit, wrap64 (scale - (if eneg : bool then - exp else exp)))
        end
      else None
  end.
Fixpoint skip_zeros (digits : list Z) : list Z :=
  match digits with d :: rest => if d =? 0 then skip_zeros rest else digits | [] => [] end.
Definition parse_decimal (s : list char) : option (Z * list Z * Z) :=
  let '(neg, l) := strip_sign s in
  '(digits, any_digit, scale) ← parse_decimal_from l [] false false 0;
  if negb any_digit then None else
  match skip_zeros digits with
  | [] => Some (0, [0], 0)
  | digits => Some (if neg : bool then -1 else 1, digits, scale)
  end.

(** One digit into the words, least significant first. *)
Fixpoint times_ten (words : list Z) (carry : Z) : list Z * Z :=
  match words with
  | [] => ([], carry)
  | w :: words =>
      let v := w * 10 + carry in
      let '(words, carry) := times_ten words (Z.shiftr v 32) in
      (low32 v :: words, carry)
  end.
(** [while carry > 0] of 64 bits: two turns at most. *)
Fixpoint push_carry (turns : nat) (words : list Z) (carry : Z) : list Z :=
  match turns with
  | O => words
  | S turns => if carry >? 0 then push_carry turns (words ++ [low32 carry]) (Z.shiftr carry 32) else words
  end.
Definition push_digit (words : list Z) (digit : Z) : list Z :=
  let '(words, carry) := times_ten words digit in push_carry 2 words carry.
(** The most significant word first. *)
Fixpoint drop_zero_words (words_be : list Z) : list Z :=
  match words_be with
  | w :: rest => if (w =? 0) && nonempty rest then drop_zero_words rest else words_be
  | [] => []
  end.
Definition digits_to_words_be (digits : list Z) : list Z := drop_zero_words (reverse (foldl push_digit [0] digits)).

(** The digits from the last one: each zero dropped lowers the scale. *)
Fixpoint strip_zeros (reversed : list Z) (scale : Z) : list Z * Z :=
  match reversed with
  | d :: rest => if d =? 0 then strip_zeros rest (wrap64 (scale - 1)) else (reversed, scale)
  | [] => ([], scale)
  end.
Definition canonical_decimal_hash (signum : Z) (digits : list Z) (scale : Z) : Z :=
  if signum =? 0 then 0 else
  let '(digits, scale) := strip_zeros (reverse digits) scale in
  bigdecimal_hash (digits_to_words_be (reverse digits)) signum (wrap32 scale).
Definition canonical_decimal_str_hash (s : list char) : Z :=
  match parse_decimal s with
  | Some (signum, digits, scale) => canonical_decimal_hash signum digits scale
  | None => java_string_hash s
  end.

(** ** Numbers *)
Definition hash_long (n : Z) : Z := canonical_decimal_str_hash (decimal_Z n).
Definition hash_long_placement (n : Z) : Z :=
  let text := decimal_Z n in
  match parse_decimal text with
  | Some (signum, digits, scale) => bigdecimal_hash (digits_to_words_be digits) signum (wrap32 scale)
  | None => java_string_hash text
  end.

Section values.
Context {X : Type} `{TextEnv}.
Implicit Types v : Value X.

(** [hash_double]: it asserts that the number is finite. *)
Definition hash_double (bits : N) : result failure Z :=
  if negb (is_finite bits) then Err (Panicked "non-finite number")
  else if f64_is_zero bits then Ok 0
  else Ok (canonical_decimal_str_hash (float_display bits)).

Definition numeric_hash v : option (result failure Z) :=
  match v with
  | Number value => Some (Ok (canonical_decimal_str_hash (decimal_Z value)))
  | BigInteger value => Some (Ok (canonical_decimal_str_hash (bigint_display value)))
  | Float value => Some (hash_double value)
  | _ => None
  end.

(** [Value::hash]: what it writes for a number; in the mode that places keys
    in a map, integral numbers keep their trailing zeros. *)
Definition write_hash (champ_placement : bool) v : option (result failure Z) :=
  let written h := h mod 2 ^ 64 in
  let placed : option Z :=
    match v with
    | Number value => Some (hash_long_placement value)
    | Float bits =>
        if is_finite bits && is_some (f64_integral bits) then
          hash_long_placement <$> parse_i64 (float_display bits)
        else None
    | _ => None
    end in
  match (if champ_placement then placed else None) with
  | Some h => Some (Ok (written h))
  | None => fmap (M := result failure) written <$> numeric_hash v
  end.
End values.
