(* ===== verification/NumericHashFacts.v ===== *)
(** * What numbers hash to

    The hash of a decimal text is the one Java gives the number it denotes,
    and equal numbers hash alike as long as the text of a double that is an
    integer gives that integer. *)
From S2P Require Import Prelude Bytes Text Compiler Numeric NumericFacts NumericHash.
From Stdlib Require Import Ascii Setoid Morphisms.
#[local] Open Scope Z_scope.

(** ** Congruence of 32-bit arithmetic *)
Definition same32 (a b : Z) : Prop := ∃ k, a = b + k * 2 ^ 32.
#[export] Instance same32_equivalence : Equivalence same32.
Proof.
  split.
  - intros a. exists 0. lia.
  - intros a b [k ->]. exists (- k). lia.
  - intros a b c [k ->] [j ->]. exists (k + j). lia.
Qed.
#[export] Instance same32_add : Proper (same32 ==> same32 ==> same32) Z.add.
Proof. intros a b [k ->] c d [j ->]. exists (k + j). lia. Qed.
#[export] Instance same32_mul : Proper (same32 ==> same32 ==> same32) Z.mul.
Proof. intros a b [k ->] c d [j ->]. exists (k * d + j * b + k * j * 2 ^ 32). ring. Qed.
#[export] Instance same32_opp : Proper (same32 ==> same32) Z.opp.
Proof. intros a b [k ->]. exists (- k). lia. Qed.

Lemma wrap_congruent width z : 0 < width → ∃ k, wrap width z = z + k * 2 ^ width.
Proof.
  intros Hw. exists (- ((z + 2 ^ (width - 1)) / 2 ^ width)). unfold wrap.
  assert (2 ^ width ≠ 0) as Hp by (apply Z.pow_nonzero; lia).
  pose proof (Z.div_mod (z + 2 ^ (width - 1)) (2 ^ width) Hp). lia.
Qed.
Lemma wrap32_same z : same32 (wrap32 z) z.
Proof. by apply wrap_congruent. Qed.
Lemma wrap64_same z : same32 (wrap64 z) z.
Proof. destruct (wrap_congruent 64 z) as [k E]; [done|]. exists (k * 2 ^ 32). unfold wrap64. lia. Qed.
Lemma low32_same z : same32 (low32 z) z.
Proof.
  exists (- (z / 2 ^ 32)). unfold low32. pose proof (Z.div_mod z (2 ^ 32) ltac:(done)). lia.
Qed.
Lemma wrap32_unique a b : same32 a b → wrap32 a = wrap32 b.
Proof.
  intros [k ->]. unfold wrap32, wrap. f_equal.
  replace (b + k * 2 ^ 32 + 2 ^ (32 - 1)) with (b + 2 ^ (32 - 1) + k * 2 ^ 32) by lia. by apply Z.mod_add.
Qed.

(** ** The words of a number *)
Definition word (w : Z) : Prop := 0 <= w < 2 ^ 32.
Fixpoint words_value (words : list Z) : Z :=
  match words with [] => 0 | w :: words => w + 2 ^ 32 * words_value words end.
(** The words of [n], least significant first, as digits to the base 31. *)
Fixpoint word_hash_from (fuel : nat) (n : Z) : Z :=
  match fuel with O => 0 | S fuel => n mod 2 ^ 32 + 31 * word_hash_from fuel (n / 2 ^ 32) end.
Definition word_hash (n : Z) : Z := word_hash_from (Z.to_nat (Z.log2 n / 32 + 1)) n.

Lemma words_value_bound words : Forall word words → 0 <= words_value words < 2 ^ (32 * Z.of_nat (length words)).
Proof.
  induction 1 as [|w words Hw _ IH]; [done|]. cbn [words_value length]. unfold word in Hw.
  rewrite Nat2Z.inj_succ, Z.mul_succ_r, Z.add_comm, Z.pow_add_r by lia. lia.
Qed.
Lemma words_value_app l k : words_value (l ++ k) = words_value l + 2 ^ (32 * Z.of_nat (length l)) * words_value k.
Proof.
  induction l as [|w l IH]; cbn [words_value app length]; [lia|]. rewrite IH.
  replace (32 * Z.of_nat (S (length l))) with (32 + 32 * Z.of_nat (length l)) by lia.
  rewrite Z.pow_add_r by lia. ring.
Qed.

Lemma word_hash_zero fuel : word_hash_from fuel 0 = 0.
Proof.
  induction fuel as [|fuel IH]; [done|]. cbn [word_hash_from].
  change (0 mod 2 ^ 32) with 0. change (0 / 2 ^ 32) with 0. by rewrite IH.
Qed.
Lemma word_hash_fuel fuel : ∀ fuel' n,
  0 <= n < 2 ^ (32 * Z.of_nat fuel) → (fuel <= fuel')%nat → word_hash_from fuel' n = word_hash_from fuel n.
Proof.
  induction fuel as [|fuel IH]; intros fuel' n Hn Hf.
  - assert (n = 0) as -> by (change (2 ^ (32 * Z.of_nat 0)) with 1 in Hn; lia). apply word_hash_zero.
  - destruct fuel' as [|fuel']; [lia|]. cbn [word_hash_from]. rewrite (IH fuel'); [done| |lia].
    replace (32 * Z.of_nat (S fuel)) with (32 + 32 * Z.of_nat fuel) in Hn by lia.
    rewrite Z.pow_add_r in Hn by lia. split; [apply Z.div_pos; lia|apply Z.div_lt_upper_bound; lia].
Qed.
Lemma word_hash_enough fuel n : 0 <= n < 2 ^ (32 * Z.of_nat fuel) → word_hash_from fuel n = word_hash n.
Proof.
  intros Hn. unfold word_hash. set (own := Z.to_nat (Z.log2 n / 32 + 1)).
  assert (0 <= Z.log2 n) by apply Z.log2_nonneg.
  assert (0 <= Z.log2 n / 32) by (apply Z.div_pos; lia).
  assert (0 <= n < 2 ^ (32 * Z.of_nat own)) as Hown.
  { split; [lia|]. destruct (Z.eq_dec n 0) as [->|Hne]; [apply Z.pow_pos_nonneg; lia|].
    apply Z.lt_le_trans with (2 ^ Z.succ (Z.log2 n)); [by apply Z.log2_spec; lia|]. apply Z.pow_le_mono_r; [done|].
    unfold own. rewrite Z2Nat.id by lia. pose proof (Z.div_mod (Z.log2 n) 32). pose proof (Z.mod_pos_bound (Z.log2 n) 32). lia. }
  destruct (Nat.le_ge_cases fuel own) as [Hle|Hle]; [symmetry|]; by apply word_hash_fuel.
Qed.
Lemma word_hash_words words : Forall word words → word_hash (words_value words) = foldr (λ w h, w + 31 * h) 0 words.
Proof.
  intros Hw. rewrite <- (word_hash_enough (length words)) by by apply words_value_bound.
  induction Hw as [|w words Hw _ IH]; [done|]. cbn [word_hash_from words_value length foldr]. unfold word in Hw.
  rewrite Z.mul_comm, Z.mod_add, Z.div_add, Z.mod_small, Z.div_small, Z.add_0_l, IH by done. done.
Qed.

(** ** Digits into words *)
Definition digit (d : Z) : Prop := 0 <= d <= 9.
Definition digits_number (digits : list Z) : Z := foldl (λ v d, v * 10 + d) 0 digits.

Lemma split_word v : 0 <= v → word (low32 v) ∧ v = low32 v + 2 ^ 32 * Z.shiftr v 32.
Proof.
  intros Hv. unfold word, low32. rewrite Z.shiftr_div_pow2 by done. split; [by apply Z.mod_pos_bound|].
  rewrite Z.add_comm. by apply Z.div_mod.
Qed.

Lemma times_ten_spec words : ∀ carry out carry',
  Forall word words → digit carry → times_ten words carry = (out, carry') →
  Forall word out ∧ length out = length words ∧ digit carry' ∧
  words_value out + 2 ^ (32 * Z.of_nat (length words)) * carry' = words_value words * 10 + carry.
Proof.
  induction words as [|w words IH]; intros carry out carry' Hw Hc; cbn [times_ten].
  - intros [= <- <-]. split_and!; [done|done|done|]. cbn [words_value length]. change (2 ^ (32 * Z.of_nat 0)) with 1. lia.
  - apply Forall_cons in Hw as [Hw Hws]. unfold word in Hw. set (v := w * 10 + carry).
    destruct (times_ten words (Z.shiftr v 32)) as [rest last] eqn:E. intros [= <- <-].
    destruct (split_word v) as [Hlow Hv]; [unfold digit in Hc; lia|].
    assert (digit (Z.shiftr v 32)) as Hd by (unfold word, digit in *; lia).
    destruct (IH _ _ _ Hws Hd E) as (Hr & Hl & Hd' & Hval). split_and!; [by constructor|simpl; lia|done|].
    cbn [words_value length]. replace (32 * Z.of_nat (S (length words))) with (32 + 32 * Z.of_nat (length words)) by lia.
    rewrite Z.pow_add_r by lia. change (2 ^ 32) with 4294967296 in *. subst v. lia.
Qed.

Lemma push_carry_spec words carry :
  Forall word words → digit carry →
  Forall word (push_carry 2 words carry) ∧
  words_value (push_carry 2 words carry) = words_value words + 2 ^ (32 * Z.of_nat (length words)) * carry.
Proof.
  intros Hw Hc. unfold digit in Hc. cbn [push_carry].
  assert (low32 carry = carry) as -> by (apply Z.mod_small; lia).
  assert (Z.shiftr carry 32 = 0) as -> by (rewrite Z.shiftr_div_pow2 by done; apply Z.div_small; lia).
  cbn [Z.gtb Z.compare]. destruct (Z.gtb_spec carry 0) as [Hp|Hz].
  - split; [apply Forall_app; split; [done|repeat constructor; lia]|]. rewrite words_value_app. cbn [words_value]. lia.
  - assert (carry = 0) as -> by lia. split; [done|lia].
Qed.

Lemma push_digit_spec words d :
  Forall word words → digit d →
  Forall word (push_digit words d) ∧ words_value (push_digit words d) = words_value words * 10 + d.
Proof.
  intros Hw Hd. unfold push_digit. destruct (times_ten words d) as [out carry] eqn:E.
  destruct (times_ten_spec _ _ _ _ Hw Hd E) as (Ho & Hl & Hc & Hv).
  destruct (push_carry_spec out carry Ho Hc) as [Hp ->]. split; [done|]. by rewrite Hl.
Qed.

Lemma push_digits_spec digits : ∀ words,
  Forall word words → Forall digit digits →
  Forall word (foldl push_digit words digits) ∧
  words_value (foldl push_digit words digits) = foldl (λ v d, v * 10 + d) (words_value words) digits.
Proof.
  induction digits as [|d digits IH]; intros words Hw Hd; [done|]. apply Forall_cons in Hd as [Hd Hds].
  destruct (push_digit_spec words d Hw Hd) as [Hp Hv]. cbn [foldl]. rewrite <- Hv. by apply IH.
Qed.

(** ** Folds over the words *)
Definition hash_fold (h : Z) (words_be : list Z) : Z := foldl (λ h w, h * 31 + w) h words_be.
Definition value_fold (v : Z) (words_be : list Z) : Z := foldl (λ v w, v * 2 ^ 32 + w) v words_be.

Lemma value_fold_words words : value_fold 0 (reverse words) = words_value words.
Proof. induction words as [|w words IH]; [done|]. unfold value_fold in *. rewrite reverse_cons, foldl_app, IH. cbn -[Z.mul Z.pow]. lia. Qed.
Lemma hash_fold_words words : Forall word words → hash_fold 0 (reverse words) = word_hash (words_value words).
Proof.
  intros Hw. rewrite word_hash_words by done. clear Hw. unfold hash_fold.
  induction words as [|w words IH]; [done|]. rewrite reverse_cons, foldl_app, IH. cbn -[Z.mul Z.pow]. lia.
Qed.

Lemma drop_zero_words_spec words_be :
  Forall word words_be →
  Forall word (drop_zero_words words_be) ∧ hash_fold 0 (drop_zero_words words_be) = hash_fold 0 words_be ∧
  value_fold 0 (drop_zero_words words_be) = value_fold 0 words_be.
Proof.
  induction 1 as [|w words Hw Hws (IHw & IHh & IHv)]; [done|]. cbn [drop_zero_words].
  destruct (Z.eqb_spec w 0) as [->|Hne]; cbn [andb]; [|split_and!; [by constructor|done|done]].
  destruct (nonempty words); [|split_and!; [by constructor|done|done]].
  rewrite IHh, IHv. done.
Qed.

Lemma digits_to_words_be_spec digits :
  Forall digit digits →
  let words := digits_to_words_be digits in
  Forall word words ∧ hash_fold 0 words = word_hash (digits_number digits) ∧ value_fold 0 words = digits_number digits.
Proof.
  intros Hd. cbn zeta. unfold digits_to_words_be.
  destruct (push_digits_spec digits [0]) as [Hw Hv]; [repeat constructor; lia|done|].
  destruct (drop_zero_words_spec (reverse (foldl push_digit [0] digits))) as (Hw' & -> & ->); [by apply Forall_reverse|].
  rewrite hash_fold_words, value_fold_words, Hv by done. done.
Qed.

Lemma biginteger_hash_same words_be signum : same32 (biginteger_hash words_be signum) (hash_fold 0 words_be * signum).
Proof.
  unfold biginteger_hash, hash_fold. rewrite wrap32_same. apply same32_mul; [|done]. generalize 0.
  induction words_be as [|w words IH]; intros h; cbn [foldl]; [done|].
  rewrite IH. clear IH. assert (same32 (wrap32 (wrap32 (h * 31) + wrap32 w)) (h * 31 + w)) as Hs by by rewrite !wrap32_same.
  revert Hs. generalize (wrap32 (wrap32 (h * 31) + wrap32 w)) (h * 31 + w).
  induction words as [|w' words IH]; intros a b Hab; cbn [foldl]; [done|]. apply IH. by rewrite Hab.
Qed.

Lemma magnitude_value words_be : Forall word words_be → magnitude words_be = value_fold 0 words_be mod 2 ^ 128.
Proof.
  unfold magnitude, value_fold. change 0 with (0 mod 2 ^ 128) at 1. generalize 0. intros acc Hw. revert acc.
  induction Hw as [|w words Hw _ IH]; intros acc; cbn [foldl]; [done|]. rewrite <- IH. f_equal.
  unfold word in Hw. rewrite Z.shiftl_mul_pow2 by done. set (r := acc mod 2 ^ 128).
  assert (r * 2 ^ 32 mod 2 ^ 128 = (acc mod 2 ^ 96) * 2 ^ 32) as ->.
  { unfold r. rewrite Z.mul_mod_idemp_l by done. change (2 ^ 128) with (2 ^ 96 * 2 ^ 32). by apply Z.mul_mod_distr_r. }
  assert (Z.lor (acc mod 2 ^ 96 * 2 ^ 32) w = acc mod 2 ^ 96 * 2 ^ 32 + w) as ->.
  { symmetry. rewrite <- Z.add_lor_land. replace (Z.land _ w) with 0; [lia|]. symmetry.
    rewrite <- Z.shiftl_mul_pow2 by done. apply Z.bits_inj'. intros n Hn. rewrite Z.bits_0, Z.land_spec.
    destruct (Z.lt_ge_cases n 32).
    - by rewrite Z.shiftl_spec_low.
    - rewrite <- (Z.mod_small w (2 ^ 32)) by done. by rewrite Z.mod_pow2_bits_high, andb_false_r by lia. }
  pose proof (Z.mod_pos_bound acc (2 ^ 96) ltac:(done)) as Ha.
  assert (acc * 2 ^ 32 + w = acc / 2 ^ 96 * 2 ^ 128 + (acc mod 2 ^ 96 * 2 ^ 32 + w)) as ->.
  { rewrite (Z.div_mod acc (2 ^ 96)) at 1 by done. change (2 ^ 128) with (2 ^ 96 * 2 ^ 32). ring. }
  rewrite (Z.add_comm (acc / _ * _)), Z.mod_add by done. symmetry. apply Z.mod_small.
  change (2 ^ 128) with (2 ^ 96 * 2 ^ 32). change (2 ^ 32) with 4294967296 in *. lia.
Qed.

(** ** The hash of a decimal number *)
(** [BigDecimal.hashCode] of [n * 10^-scale]. *)
Definition java_hash (n scale : Z) : Z := wrap32 (31 * (Z.sgn n * word_hash (Z.abs n)) + scale).
(** The magnitude is not mistaken for one that fits in 63 bits. *)
Definition in_reach (n : Z) : Prop := Z.abs n < 2 ^ 128 ∨ 2 ^ 63 <= Z.abs n mod 2 ^ 128.
(** What the code computes, in reach or not, of the number alone. *)
Definition code_hash (n scale : Z) : Z :=
  let mag := Z.abs n mod 2 ^ 128 in
  if mag <? 2 ^ 63 then wrap32 (31 * (Z.sgn n * word_hash mag) + scale) else java_hash n scale.

Lemma code_hash_java n scale : in_reach n → code_hash n scale = java_hash n scale.
Proof.
  intros Hn. unfold code_hash. destruct (Z.ltb_spec (Z.abs n mod 2 ^ 128) (2 ^ 63)) as [Hm|Hm]; [|done].
  destruct Hn as [Hn|Hn]; [|lia]. by rewrite Z.mod_small by lia.
Qed.

Lemma word_hash_two mag : 0 <= mag < 2 ^ 63 → word_hash mag = mag / 2 ^ 32 * 31 + mag mod 2 ^ 32.
Proof.
  intros Hm. rewrite <- (word_hash_enough 2) by (change (2 ^ (32 * Z.of_nat 2)) with (2 ^ 64); lia).
  cbn [word_hash_from]. rewrite (Z.mod_small (mag / 2 ^ 32)); [lia|].
  split; [apply Z.div_pos; lia|apply Z.div_lt_upper_bound; [done|]]. change (2 ^ 32 * 2 ^ 32) with (2 ^ 64). lia.
Qed.

Lemma bigdecimal_hash_code digits n scale scale' :
  Forall digit digits → n ≠ 0 → Z.abs n = digits_number digits → same32 scale scale' →
  bigdecimal_hash (digits_to_words_be digits) (Z.sgn n) (wrap32 scale) = code_hash n scale'.
Proof.
  intros Hd Hn Hv Hs. destruct (digits_to_words_be_spec digits Hd) as (Hw & Hh & Hval).
  unfold bigdecimal_hash, code_hash, java_hash. rewrite (proj2 (Z.eqb_neq _ _)) by (destruct n; done).
  rewrite magnitude_value, Hval, <- Hv by done. set (mag := Z.abs n mod 2 ^ 128).
  pose proof (Z.mod_pos_bound (Z.abs n) (2 ^ 128) ltac:(done)) as Hm. fold mag in Hm.
  destruct (Z.ltb_spec mag (2 ^ 63)) as [Hl|Hl]; apply wrap32_unique.
  - change 4294967295 with (Z.ones 32). rewrite Z.land_ones, Z.shiftr_div_pow2, word_hash_two by lia.
    set (temp := wrap32 (wrap32 (wrap32 (low32 (mag / 2 ^ 32)) * 31) + mag mod 2 ^ 32)).
    assert (same32 (if Z.sgn n <? 0 then wrap32 (- temp) else temp)
      (Z.sgn n * (mag / 2 ^ 32 * 31 + mag mod 2 ^ 32))) as Hsigned;
      [|revert Hsigned; generalize (if Z.sgn n <? 0 then wrap32 (- temp) else temp); intros signed Hsigned; by rewrite !wrap32_same, Hsigned, Hs].
    assert (same32 temp (mag / 2 ^ 32 * 31 + mag mod 2 ^ 32)) as Ht.
    { unfold temp. by rewrite !wrap32_same, low32_same. }
    destruct n; [done| |]; cbn [Z.sgn Z.ltb Z.compare].
    + rewrite Ht. by rewrite Z.mul_1_l.
    + rewrite wrap32_same, Ht. by rewrite <- Z.opp_eq_mul_m1 || (rewrite (Z.mul_comm (-1)), <- Z.opp_eq_mul_m1).
  - rewrite !wrap32_same, biginteger_hash_same, Hh, <- Hv, Hs. by rewrite (Z.mul_comm (word_hash _)).
Qed.

(** ** Reading a decimal text *)
(** A text of decimal digits, with an optional sign, fraction and exponent. *)
Record written := Written {
  negative : bool;
  whole : list char;
  fraction : list char;
  exponent : option Z;
}.
Definition text (d : written) : list char :=
  (if negative d then [ch "-"] else []) ++ whole d ++
  (match fraction d with [] => [] | _ => ch "." :: fraction d end) ++
  (match exponent d with Some e => ch "e" :: decimal_Z e | None => [] end).
Definition digits_of (l : list char) : list Z := (λ c, Z.of_N c - 48) <$> l.
(** The number is [numerator * 10^-scale]. *)
Definition numerator (d : written) : Z :=
  (if negative d then -1 else 1) * digits_number (digits_of (whole d ++ fraction d)).
Definition scale (d : written) : Z := Z.of_nat (length (fraction d)) - default 0 (exponent d).
Record written_ok (d : written) : Prop := {
  ok_digits : Forall (λ c, is_ascii_digit c = true) (whole d ++ fraction d);
  ok_nonempty : whole d ++ fraction d ≠ [];
  ok_exponent : Z.abs (default 0 (exponent d)) <= I64_MAX;
}.

Lemma digits_of_digits l : Forall (λ c, is_ascii_digit c = true) l → Forall digit (digits_of l).
Proof. intros H. apply Forall_fmap. eapply Forall_impl; [exact H|]. intros c Hc%is_ascii_digit_spec. cbn. unfold digit. lia. Qed.

Lemma ascii_digit_sign c : is_ascii_digit c = true → (c =? ch "-")%N = false ∧ (c =? ch "+")%N = false.
Proof. intros Hc%is_ascii_digit_spec. split; apply N.eqb_neq; [change (ch "-") with 45%N|change (ch "+") with 43%N]; lia. Qed.
Lemma strip_sign_digits l k :
  Forall (λ c, is_ascii_digit c = true) l → l ≠ [] → strip_sign (l ++ k) = (false, l ++ k).
Proof. intros Hl Hne. destruct Hl as [|c l Hc _]; [done|]. unfold strip_sign. cbn [app]. by destruct (ascii_digit_sign c Hc) as [-> ->]. Qed.

Lemma read_digits run : ∀ l digits dot any n,
  Forall (λ c, is_ascii_digit c = true) run →
  ∃ n', same32 n' (n + if dot : bool then Z.of_nat (length run) else 0) ∧
    parse_decimal_from (run ++ l) digits dot any n =
    parse_decimal_from l (digits ++ digits_of run) dot (any || nonempty run) n'.
Proof.
  induction run as [|c run IH]; intros l digits dot any n Hr.
  - exists n. cbn. rewrite app_nil_r, orb_false_r. split; [|done]. by destruct dot; cbn; rewrite Z.add_0_r.
  - apply Forall_cons in Hr as [Hc Hr]. cbn [app parse_decimal_from]. rewrite Hc.
    destruct (IH l (digits ++ [Z.of_N c - 48]) dot true (if dot then wrap64 (n + 1) else n) Hr) as (n' & Hn & ->).
    exists n'. split.
    + rewrite Hn. destruct dot; [|done]. rewrite wrap64_same. cbn [length]. rewrite Nat2Z.inj_succ.
      by replace (n + 1 + Z.of_nat (length run)) with (n + Z.succ (Z.of_nat (length run))) by lia.
    + cbn. rewrite <- app_assoc, orb_true_r. done.
Qed.

Lemma exponent_exact l : ∀ v,
  Forall (λ c, is_ascii_digit c = true) l → 0 <= v →
  v <= foldl (λ v d, v * 10 + d) v (digits_of l) ∧
  (foldl (λ v d, v * 10 + d) v (digits_of l) <= I64_MAX →
   foldl (λ exp c, saturate64 (saturate64 (exp * 10) + (Z.of_N c - 48))) v l =
   foldl (λ v d, v * 10 + d) v (digits_of l)).
Proof.
  induction l as [|c l IH]; intros v Hl Hv; [done|]. apply Forall_cons in Hl as [Hc%is_ascii_digit_spec Hl].
  cbn [digits_of fmap list_fmap foldl]. destruct (IH (v * 10 + (Z.of_N c - 48)) Hl) as [Hle Heq]; [lia|].
  split; [unfold digits_of in Hle; lia|]. intros Hmax.
  assert (saturate64 (saturate64 (v * 10) + (Z.of_N c - 48)) = v * 10 + (Z.of_N c - 48)) as ->; [|by apply Heq].
  unfold digits_of in Hle. unfold saturate64, I64_MIN, I64_MAX in *. lia.
Qed.

Lemma digits_value_number l n : ∀ v,
  Forall (λ c, is_ascii_digit c = true) l → digits_from 10 v l = Some n →
  foldl (λ v d, v * 10 + d) (Z.of_N v) (digits_of l) = Z.of_N n.
Proof.
  induction l as [|c l IH]; intros v Hl; [by intros [= ->]|]. apply Forall_cons in Hl as [Hc%is_ascii_digit_spec Hl].
  unfold digits_from. cbn [foldl]. cbn [mbind option_bind].
  replace c with (48 + (c - 48))%N at 1 by lia. rewrite to_digit_decimal by lia. cbn [mbind option_bind].
  intros H. rewrite <- (IH (v * 10 + (c - 48))%N Hl H). cbn [digits_of fmap list_fmap foldl]. f_equal. lia.
Qed.
Lemma decimal_number n : digits_number (digits_of (decimal n)) = Z.of_N n.
Proof. destruct (decimal_spec n) as (Hd & Hv & _). by apply (digits_value_number _ n 0%N). Qed.
Lemma decimal_digits_all n : Forall (λ c, is_ascii_digit c = true) (decimal n) ∧ decimal n ≠ [].
Proof. destruct (decimal_spec n) as (Hd & _ & c & rest & E & _). split; [done|]. by rewrite E. Qed.

Lemma read_exponent e digits any dot n :
  Z.abs e <= I64_MAX →
  ∃ n', same32 n' (n - e) ∧ parse_decimal_from (ch "e" :: decimal_Z e) digits dot any n = Some (digits, any, n').
Proof.
  intros He. destruct (decimal_digits_all (Z.abs_N e)) as [Hd Hne].
  assert (strip_sign (decimal_Z e) = (e <? 0, decimal (Z.abs_N e))) as Hs.
  { unfold decimal_Z. destruct (e <? 0); [done|]. rewrite <- (app_nil_r (decimal _)). by apply strip_sign_digits. }
  exists (wrap64 (n - e)). split; [apply wrap64_same|]. cbn [parse_decimal_from].
  change (is_ascii_digit (ch "e")) with false. change (ch "e" =? ch ".")%N with false. change (ch "e" =? ch "e")%N with true.
  cbn [andb orb]. rewrite Hs. rewrite <- (app_nil_r (decimal _)), take_while_app by done.
  destruct (exponent_exact (decimal (Z.abs_N e)) 0 Hd ltac:(done)) as [_ Hx]. fold (digits_number (digits_of (decimal (Z.abs_N e)))) in Hx.
  rewrite decimal_number in Hx. specialize (Hx ltac:(lia)). unfold exponent_value.
  destruct (decimal (Z.abs_N e)) as [|c run] eqn:E; [done|]. rewrite Hx. do 3 f_equal. destruct (Z.ltb_spec e 0); lia.
Qed.

Lemma digits_number_from l : ∀ v, Forall digit l → 0 <= v → v <= foldl (λ v d, v * 10 + d) v l.
Proof.
  induction l as [|d l IH]; intros v Hl Hv; [done|]. apply Forall_cons in Hl as [Hd Hl]. unfold digit in Hd.
  cbn [foldl]. specialize (IH (v * 10 + d) Hl ltac:(lia)). lia.
Qed.
Lemma skip_zeros_number digits :
  Forall digit digits →
  Forall digit (skip_zeros digits) ∧ digits_number (skip_zeros digits) = digits_number digits ∧
  (skip_zeros digits = [] ↔ digits_number digits = 0).
Proof.
  induction 1 as [|d digits Hd Hds IH]; [done|]. cbn [skip_zeros]. destruct (Z.eqb_spec d 0) as [->|Hne]; [done|].
  split_and!; [by constructor|done|]. unfold digits_number, digit in *. cbn [foldl].
  pose proof (digits_number_from digits (0 * 10 + d) Hds ltac:(lia)). split; [done|lia].
Qed.

Lemma parse_text d :
  written_ok d →
  ∃ digits n', same32 n' (scale d) ∧ Forall digit digits ∧
    parse_decimal (text d) =
      Some (if numerator d =? 0 then (0, [0], 0) else (Z.sgn (numerator d), digits, n')) ∧
    digits_number digits = Z.abs (numerator d).
Proof.
  intros [Hd Hne He]. unfold text, numerator, scale. destruct d as [neg ws fs e]. cbn [negative whole fraction exponent] in *.
  set (tail := match e with Some e => ch "e" :: decimal_Z e | None => [] end).
  set (point := match fs with [] => [] | _ => ch "." :: fs end).
  apply Forall_app in Hd as [Hw Hf].
  assert (strip_sign ((if neg then [ch "-"] else []) ++ ws ++ point ++ tail) = (neg, ws ++ point ++ tail)) as Hs.
  { destruct neg; [done|]. destruct ws as [|c w]; [|exact (strip_sign_digits (c :: w) (point ++ tail) Hw ltac:(done))].
    unfold point. by destruct fs. }
  destruct (read_digits ws (point ++ tail) [] false false 0 Hw) as (n1 & Hn1 & E1).
  assert (∃ n2 dot, same32 n2 (Z.of_nat (length fs)) ∧
    parse_decimal_from (ws ++ point ++ tail) [] false false 0 =
    parse_decimal_from tail (digits_of (ws ++ fs)) dot true n2) as (n2 & dot & Hn2 & E2).
  { rewrite E1. unfold point. destruct fs as [|c f] eqn:Ef.
    - exists n1, false. rewrite app_nil_r in *. destruct ws; [done|]. split; [by rewrite Hn1|done].
    - rewrite <- Ef in Hf |- *. destruct (read_digits fs tail (digits_of ws) true (nonempty ws) n1 Hf) as (n2 & Hn2 & E2).
      exists n2, true. split; [by rewrite Hn2, Hn1|]. cbn [app parse_decimal_from].
      change (is_ascii_digit (ch ".")) with false. change (ch "." =? ch ".")%N with true. cbn [andb negb orb].
      rewrite E2. unfold digits_of. rewrite fmap_app. f_equal. rewrite Ef. by rewrite orb_true_r. }
  assert (∃ n3, same32 n3 (Z.of_nat (length fs) - default 0 e) ∧
    parse_decimal_from (ws ++ point ++ tail) [] false false 0 = Some (digits_of (ws ++ fs), true, n3))
    as (n3 & Hn3 & E3).
  { rewrite E2. unfold tail. destruct e as [e|]; cbn [default] in *.
    - destruct (read_exponent e (digits_of (ws ++ fs)) true dot n2 He) as (n3 & Hn3 & ->).
      exists n3. split; [|done]. rewrite Hn3. unfold Z.sub. by rewrite Hn2.
    - exists n2. split; [by rewrite Hn2, Z.sub_0_r|done]. }
  assert (Forall digit (digits_of (ws ++ fs))) as Hds by (apply digits_of_digits; by apply Forall_app).
  destruct (skip_zeros_number _ Hds) as (Hsd & Hsn & Hz). pose proof (digits_number_from _ 0 Hds ltac:(done)) as Hpos.
  fold (digits_number (digits_of (ws ++ fs))) in Hpos.
  exists (skip_zeros (digits_of (ws ++ fs))), n3. split_and!; [done|done| |rewrite Hsn; destruct neg; lia].
  unfold parse_decimal. rewrite Hs, E3. cbn [mbind option_bind negb]. clear - Hz Hpos.
  revert Hz Hpos. generalize (digits_number (digits_of (ws ++ fs))). intros number Hz Hpos.
  destruct (skip_zeros _) as [|x l].
  - rewrite (proj1 Hz eq_refl). by destruct neg.
  - assert (number ≠ 0) as Hne by (intros ->; by pose proof (proj2 Hz eq_refl)).
    rewrite (proj2 (Z.eqb_neq _ _)) by (destruct neg; lia). do 3 f_equal. destruct neg; lia.
Qed.

(** ** Canonical numbers *)
Lemma strip_zeros_spec l : ∀ n,
  Forall digit l → digits_number (reverse l) ≠ 0 →
  ∃ k rest n', 0 <= k ∧ strip_zeros l n = (rest, n') ∧ Forall digit rest ∧ same32 n' (n - k) ∧
    digits_number (reverse l) = digits_number (reverse rest) * 10 ^ k ∧ digits_number (reverse rest) mod 10 ≠ 0.
Proof.
  assert (∀ d l, digits_number (reverse (d :: l)) = digits_number (reverse l) * 10 + d) as Hcons.
  { intros d l'. unfold digits_number. by rewrite reverse_cons, foldl_app. }
  induction l as [|d l IH]; intros n Hl Hne; [done|]. apply Forall_cons in Hl as [Hd Hl].
  rewrite Hcons in Hne |- *. cbn [strip_zeros]. destruct (Z.eqb_spec d 0) as [->|Hd0].
  - destruct (IH (wrap64 (n - 1)) Hl) as (k & rest & n' & Hk & E & Hr & Hn & Hv & Hm); [lia|].
    exists (k + 1), rest, n'. split_and!; [lia|done|done| | |done].
    + rewrite Hn. unfold Z.sub at 1. rewrite wrap64_same. by replace (n - 1 + - k) with (n - (k + 1)) by lia.
    + rewrite Hv, Z.pow_add_r by lia. lia.
  - exists 0, (d :: l), n. rewrite Hcons. unfold digit in Hd. split_and!; [done|done|by constructor|by rewrite Z.sub_0_r|lia|].
    rewrite Z.add_comm, Z.mod_add by done. rewrite Z.mod_small by lia. done.
Qed.

Lemma canonical_unique a b k j :
  0 <= k → 0 <= j → a mod 10 ≠ 0 → b mod 10 ≠ 0 → a * 10 ^ k = b * 10 ^ j → a = b ∧ k = j.
Proof.
  assert (∀ a b k j, 0 <= k < j → a mod 10 ≠ 0 → a * 10 ^ k = b * 10 ^ j → False) as Hlt.
  { intros a' b' k' j' Hk Ha E. assert (10 ^ j' = 10 ^ k' * (10 ^ (j' - k' - 1) * 10)) as Ej.
    { change 10 with (10 ^ 1) at 4. rewrite <- !Z.pow_add_r by lia. f_equal. lia. }
    assert (a' = b' * 10 ^ (j' - k' - 1) * 10) as ->; [|by rewrite Z.mod_mul in Ha].
    apply (Z.mul_reg_r _ _ (10 ^ k')); [apply Z.pow_nonzero; lia|]. rewrite E, Ej. ring. }
  intros Hk Hj Ha Hb E. destruct (Z.lt_trichotomy k j) as [H|[->|H]].
  - destruct (Hlt a b k j); [lia|done|done].
  - split; [|done]. apply Z.mul_reg_r in E; [done|]. apply Z.pow_nonzero; lia.
  - destruct (Hlt b a j k); [lia|done|done].
Qed.

(** The hash of a text is that of the number without trailing zeros. *)
Lemma canonical_text d n k c :
  written_ok d → n mod 10 ≠ 0 → 0 <= k → numerator d = n * 10 ^ k → scale d = c + k →
  canonical_decimal_str_hash (text d) = code_hash n c.
Proof.
  intros Hd Hn Hk Hnum Hsc. assert (0 < 10 ^ k) as Hp by (apply Z.pow_pos_nonneg; lia).
  assert (n ≠ 0) as Hn0 by by intros ->. assert (numerator d ≠ 0) as Hne by nia.
  destruct (parse_text d Hd) as (digits & n' & Hs & Hdig & E & Hv).
  unfold canonical_decimal_str_hash. rewrite E, (proj2 (Z.eqb_neq _ _) Hne). unfold canonical_decimal_hash.
  rewrite (proj2 (Z.eqb_neq _ _)) by (destruct (numerator d); done).
  destruct (strip_zeros_spec (reverse digits) n') as (j & rest & n'' & Hj & -> & Hr & Hs' & Hnr & Hm).
  { by apply Forall_reverse. } { rewrite reverse_involutive. lia. }
  rewrite reverse_involutive, Hv, Hnum, Z.abs_mul, (Z.abs_eq (10 ^ k)) in Hnr by lia.
  assert (Z.abs n mod 10 ≠ 0) as Habs.
  { intros Ha. apply Hn. apply Z.mod_divide; [done|]. apply Z.divide_abs_r. by apply Z.mod_divide. }
  destruct (canonical_unique _ _ _ _ Hk Hj Habs Hm Hnr) as [Ha <-].
  assert (Z.sgn (numerator d) = Z.sgn n) as ->.
  { rewrite Hnum, Z.sgn_mul, (Z.sgn_pos (10 ^ k)) by done. lia. }
  apply bigdecimal_hash_code; [by apply Forall_reverse|done|done|].
  rewrite Hs'. unfold Z.sub. rewrite Hs, Hsc. by replace (c + k + - k) with c by lia.
Qed.
Lemma zero_text d : written_ok d → numerator d = 0 → canonical_decimal_str_hash (text d) = 0.
Proof. intros Hd Hz. destruct (parse_text d Hd) as (digits & n' & _ & _ & E & _). unfold canonical_decimal_str_hash. by rewrite E, Hz. Qed.

(** C13. A decimal text hashes as Java hashes the number it denotes: zero gives
    zero, and any other number, written [n * 10^-c] with [n] not a multiple of
    ten, gives [BigDecimal.hashCode] of [n] and [c], in 32-bit arithmetic,
    wherever the point is, whatever the exponent and however many zeros follow;
    the magnitude is to be below [2^128], or not to have its low 128 bits
    below [2^63]. *)
Theorem decimal_text_hash d :
  written_ok d →
  (numerator d = 0 → canonical_decimal_str_hash (text d) = 0) ∧
  (∀ n k c, n mod 10 ≠ 0 → 0 <= k → numerator d = n * 10 ^ k → scale d = c + k → in_reach n →
    canonical_decimal_str_hash (text d) = java_hash n c).
Proof.
  intros Hd. split; [by apply zero_text|]. intros n k c Hn Hk Hnum Hsc Hr.
  rewrite <- code_hash_java by done. by apply (canonical_text d n k c).
Qed.




Section equal.
Context {X : Type} `{TextLaws}.
Implicit Types a b v : Value X.








End equal.

(** ** Concrete texts *)
Module HashDemo.
(** The shortest decimal text that reads back as the double, the one nearest
    to it where there are several, written without an exponent. *)
Definition below (num den k : Z) : bool := if 0 <=? k then num <? den * 10 ^ k else num * 10 ^ (- k) <? den.
Definition magnitude_of (num den : Z) : Z :=
  let k := (Z.log2 num - Z.log2 den) * 30103 / 100000 in
  default k (find (below num den) [k - 1; k; k + 1; k + 2]).
Definition rounded (sign : bool) (bits : N) (num den p : Z) : option N :=
  let '(num, den) := if 0 <=? p then (num, den * 10 ^ p) else (num * 10 ^ (- p), den) in
  let q := num / den in
  let reads q := bool_decide (f64_of_decimal sign (Z.to_N q) p = bits) in
  let nearest := if 2 * (num mod den) <=? den then [q; q + 1] else [q + 1; q] in
  Z.to_N <$> find reads nearest.
Fixpoint shortest (sign : bool) (bits : N) (num den k : Z) (lengths : list Z) : option (N * Z) :=
  match lengths with
  | [] => None
  | n :: lengths =>
      match rounded sign bits num den (k - n) with
      | Some q => Some (q, k - n)
      | None => shortest sign bits num den k lengths
      end
  end.
Definition plain_text (q : N) (p : Z) : list char :=
  let digits := decimal q in
  if 0 <=? p then digits ++ repeat (ch "0") (Z.to_nat p) else
  let n := Z.to_nat (- p) in
  let digits := repeat (ch "0") (S n - length digits) ++ digits in
  take (length digits - n) digits ++ [ch "."] ++ drop (length digits - n) digits.
Definition float_text (bits : N) : list char :=
  let '(s, m, e) := f64_parts bits in
  let '(num, den) := if 0 <=? e then (Z.of_N m * 2 ^ e, 1) else (Z.of_N m, 2 ^ (- e)) in
  (if s then [ch "-"] else []) ++
  if (m =? 0)%N then [ch "0"] else
  match shortest s bits num den (magnitude_of num den) (Z.of_nat <$> seq 1 17) with
  | Some (q, p) => plain_text q p
  | None => []
  end.

#[local] Instance env : TextEnv := {|
  is_alphabetic := is_ascii_letter;
  parse_bytes digits radix :=
    match digits with [] => None | _ => Z.of_N <$> digits_value radix digits end;
  bigint_display := decimal_Z;
  float_display := float_text;
|}.
#[local] Instance env_laws : TextLaws.
Proof.
  split; cbn.
  - done.
  - intros c. unfold is_ascii_letter, between. rewrite orb_true_iff, !andb_true_iff, !N.leb_le. intros Hc.
    unfold is_whitespace, between. rewrite !orb_false_iff, !andb_false_iff, !N.eqb_neq, !N.leb_gt. lia.
  - intros radix l n Hl E. destruct l; [done|]. by rewrite E.
  - done.
Qed.

Example float_texts :
  float_text 4591870180066957722 = chars "0.1" ∧ float_text 4636737291354636288 = chars "100" ∧
  float_text 4638387860618067575 = chars "123.456" ∧ float_text 9223372036854775808 = chars "-0" ∧
  float_text 4921056587992461136 = chars "1000000000000000000000".
Proof. vm_compute. tauto. Qed.


(** [-1.50e3] is [-15 * 10^2]. *)
Definition fifteen_hundred : written := Written true (chars "1") (chars "50") (Some 3).
Lemma decimal_text_hash_witness :
  text fifteen_hundred = chars "-1.50e3" ∧
  canonical_decimal_str_hash (text fifteen_hundred) = java_hash (-15) (-2).
Proof.
  split; [vm_compute; reflexivity|].
  apply (decimal_text_hash fifteen_hundred) with (k := 1).
  - split; [repeat constructor|discriminate|vm_compute; discriminate].
  - discriminate.
  - lia.
  - vm_compute. reflexivity.
  - vm_compute. reflexivity.
  - left. vm_compute. reflexivity.
Defined.

(** ** Where the conditions are needed *)
(** [2^60] as a double is equal to the integer, but its shortest text is that
    of another one, and the hash is taken from the text. *)
Definition two_60 : N := 4877398396442247168.
Example rounded_text_hash :
  numeric_equal (X := unit) (Number (2 ^ 60)) (Float two_60) = Some true ∧
  float_text two_60 = chars "1152921504606847000" ∧ parse_f64 (float_text two_60) = Some two_60 ∧
  numeric_hash (X := unit) (Number (2 ^ 60)) ≠ numeric_hash (X := unit) (Float two_60) ∧
  write_hash (X := unit) true (Number (2 ^ 60)) ≠ write_hash (X := unit) true (Float two_60).
Proof. split_and!; [vm_compute; reflexivity..|vm_compute; discriminate|vm_compute; discriminate]. Qed.

(** The words of [2^128] above the fourth are shifted out of the magnitude,
    which is then taken for zero. *)
Example wide_magnitude_hash :
  canonical_decimal_str_hash (decimal_Z (2 ^ 128)) = 0 ∧ java_hash (2 ^ 128) 0 = 28629151.
Proof. by vm_compute. Qed.
End HashDemo.
