(* ===== verification/Portable.v ===== *)
(** * The portable value codec

    The crate [crates/hta-codec] ([lib.rs]) with the values of [crates/abi]:
    HTA0 frames of immutable values, in a canonical encoding that sorts the
    elements of sets and the keys of maps by their bytes. Where the source
    carries the nesting depth, [levels] is how many levels are left:
    [MAX_NESTING_DEPTH + 1] less the depth. *)
From S2P Require Import Prelude Bytes Text Compiler Numeric.
From Stdlib Require Import Ascii Strings.Byte.
#[local] Open Scope N_scope.

(** ** Values ([hara_abi]) *)
Record ExceptionSite := mkSite {
  namespace : option string;
  resource : option string;
  line : N;
  column : N;
}.
Record ExceptionProvenance := mkProvenance {
  created_at : option ExceptionSite;
  throws : list ExceptionSite;
}.
(** [ImmutableValue]. A double is its bits; a [BTreeMap] is the list of its
    entries in the order of its keys. *)
Inductive Immutable :=
| PNil
| PBoolean (value : bool)
| PString (value : string)
| PInteger (value : Z)
| PFloat (bits : N)
| PCharacter (value : char)
| PBigInteger (value : string)
| PRegex (value : string)
| PBytes (value : list byte)
| PKeyword (value : string)
| PSymbol (value : string)
| PList (values : list Immutable)
| PVector (values : list Immutable)
| PMapEntry (values : list Immutable)
| PTuple (values : list Immutable)
| PCons (values : list Immutable)
| PQueue (values : list Immutable)
| PSet (values : list Immutable)
| POrderedSet (values : list Immutable)
| PSortedSet (values : list Immutable)
| PMap (entries : list (Immutable * Immutable))
| POrderedMap (entries : list (Immutable * Immutable))
| PSortedMap (entries : list (Immutable * Immutable))
| PTrie (entries : list (string * Immutable))
| PRecord (fields : list (string * Immutable))
| PTagged (tag : string) (form : Immutable)
| PExceptionInfo (message : string) (data : Immutable) (cause : option Immutable)
    (provenance : ExceptionProvenance)
| PStruct (name : string) (fields : list string) (values : list Immutable)
| PPointer (context : string) (fields : list (string * Immutable))
| PVarRef (symbol : string).

(** The provider ABI's closed subset ([Value] of [hara_abi]). *)
Inductive AbiValue :=
| ANil
| ABoolean (value : bool)
| AString (value : string)
| AInteger (value : Z)
| ABigInteger (value : string)
| AFloat (bits : N)
| ABytes (value : list byte)
| AKeyword (value : string)
| AVector (values : list AbiValue)
| ARecord (fields : list (string * AbiValue)).

(** ** Orders of byte strings *)
#[export] Instance octet_eq_dec : EqDecision byte := Byte.byte_eq_dec.
Fixpoint bytes_leb (l k : list byte) : bool :=
  match l, k with
  | [], _ => true
  | _ :: _, [] => false
  | a :: l, b :: k => if Byte.to_N a =? Byte.to_N b then bytes_leb l k else Byte.to_N a <? Byte.to_N b
  end.
Definition bytes_le (l k : list byte) : Prop := bytes_leb l k = true.
#[export] Instance bytes_le_dec : RelDecision bytes_le.
Proof. intros l k. unfold bytes_le. apply _. Defined.
Definition key_le {A} (x y : list byte * A) : Prop := bytes_le x.1 y.1.
#[export] Instance key_le_dec {A} : RelDecision (@key_le A).
Proof. intros x y. apply bytes_le_dec. Defined.

Definition string_bytes (s : string) : list byte := String.list_byte_of_string s.
(** [BTreeMap::insert], with whether the key was there. *)
Fixpoint btree_insert {A} (k : string) (v : A) (l : list (string * A)) : list (string * A) * bool :=
  match l with
  | [] => ([(k, v)], false)
  | (k', v') :: rest =>
      if decide (k = k') then ((k, v) :: rest, true)
      else if bytes_leb (string_bytes k) (string_bytes k') then ((k, v) :: l, false)
      else let '(rest, old) := btree_insert k v rest in ((k', v') :: rest, old)
  end.
Definition btree_of {A} (l : list (string * A)) : list (string * A) :=
  foldl (λ m kv, (btree_insert kv.1 kv.2 m).1) [] l.
Definition btree_get {A} (k : string) (l : list (string * A)) : option A :=
  snd <$> find (λ kv, bool_decide (kv.1 = k)) l.

(** ** The wire format *)
Definition MAGIC : list byte := string_bytes "HTA0".
Definition MAX_FRAME_BYTES : N := 67108864.
Definition MAX_NESTING_DEPTH : nat := 256.

Definition NIL : N := 0.
Definition FALSE : N := 1.
Definition TRUE : N := 2.
Definition I64 : N := 3.
Definition STRING : N := 4.
Definition BYTES : N := 5.
Definition KEYWORD : N := 6.
Definition SYMBOL : N := 7.
Definition LIST : N := 8.
Definition VECTOR : N := 9.
Definition SET : N := 10.
Definition MAP : N := 11.
Definition F64 : N := 15.
Definition CHARACTER : N := 19.
Definition BIG_INTEGER : N := 20.
Definition REGEX : N := 22.
Definition TUPLE : N := 23.
Definition CONS : N := 24.
Definition QUEUE : N := 25.
Definition ORDERED_MAP : N := 26.
Definition SORTED_MAP : N := 27.
Definition TRIE : N := 28.
Definition ORDERED_SET : N := 29.
Definition SORTED_SET : N := 30.
Definition TAGGED : N := 31.
Definition EXCEPTION_INFO : N := 32.
Definition STRUCT : N := 33.
Definition POINTER : N := 34.
Definition VAR_REF : N := 35.
Definition MAP_ENTRY : N := 38.

Definition number_text (n : N) : string := utf8 (decimal n).

(** ** Exceptions *)
Definition optional_text (o : option string) : Immutable := match o with Some s => PString s | None => PNil end.
Definition site_value (site : ExceptionSite) : Immutable :=
  PRecord (btree_of [
    ("namespace"%string, optional_text (namespace site));
    ("resource"%string, optional_text (resource site));
    ("line"%string, PInteger (u64_as_i64 (line site)));
    ("column"%string, PInteger (u64_as_i64 (column site)))]).
Definition provenance_value (provenance : ExceptionProvenance) : Immutable :=
  PRecord (btree_of [
    ("ex/created-at"%string, match created_at provenance with Some site => site_value site | None => PNil end);
    ("ex/throws"%string, PVector (site_value <$> throws provenance))]).

Definition malformed {A} (message : string) : result failure A :=
  Err (Failed ("hta/value-malformed: " +:+ message)).
Definition decode_site (value : Immutable) : result failure ExceptionSite :=
  match value with
  | PRecord fields =>
      match btree_get "namespace" fields, btree_get "resource" fields, btree_get "line" fields,
            btree_get "column" fields with
      | Some n, Some r, Some l, Some c =>
          if negb (length fields =? 4)%nat then malformed "invalid exception provenance site" else
          let optional_string name value :=
            match value with
            | PNil => Ok None
            | PString value => Ok (Some value)
            | _ => malformed ("invalid exception provenance " +:+ name)
            end in
          let nonnegative name value :=
            match value with
            | PInteger value =>
                if (0 <=? value)%Z then Ok (Z.to_N value)
                else malformed ("invalid exception provenance " +:+ name)
            | _ => malformed ("invalid exception provenance " +:+ name)
            end in
          namespace ← optional_string "namespace"%string n;
          resource ← optional_string "resource"%string r;
          line ← nonnegative "line"%string l;
          column ← nonnegative "column"%string c;
          Ok (mkSite namespace resource line column)
      | _, _, _, _ => malformed "invalid exception provenance site"
      end
  | _ => malformed "invalid exception provenance site"
  end.
Definition decode_provenance (value : Immutable) : result failure ExceptionProvenance :=
  match value with
  | PRecord fields =>
      match btree_get "ex/created-at" fields, btree_get "ex/throws" fields with
      | Some created, Some thrown =>
          if negb (length fields =? 2)%nat then malformed "invalid exception provenance fields" else
          created_at ← match created with PNil => Ok None | value => Some <$> decode_site value end;
          match thrown with
          | PVector throws => throws ← mapM decode_site throws; Ok (mkProvenance created_at throws)
          | _ => malformed "invalid exception throws provenance"
          end
      | _, _ => malformed "invalid exception provenance fields"
      end
  | _ => malformed "invalid exception provenance"
  end.

(** ** Big integers *)
Definition ascii_codes (s : string) : list N := Byte.to_N <$> string_bytes s.
Definition codes_text (l : list N) : string := String.string_of_list_byte (byte_of_N <$> l).
Fixpoint trim_zeros (l : list N) : list N :=
  match l with c :: rest => if c =? ch "0" then trim_zeros rest else l | [] => [] end.
Definition canonical_big_integer (value : string) : result failure Immutable :=
  let text := ascii_codes value in
  let '(negative, digits) :=
    match text with c :: rest => if c =? ch "-" then (true, rest) else (false, text) | [] => (false, []) end in
  if negb (nonempty digits) || negb (all_digits digits) then malformed "invalid big integer" else
  let digits := trim_zeros digits in
  let digits := match digits with [] => [ch "0"] | _ => digits end in
  let canonical := if negative && bool_decide (digits ≠ [ch "0"]) then ch "-" :: digits else digits in
  match parse_i64 canonical with
  | Some value => Ok (PInteger value)
  | None => Ok (PBigInteger (codes_text canonical))
  end.

(** ** The encoder *)
(** The buffer written to; every write checks the size of the frame. *)
Abbreviation output := (prog (list byte) failure).
Definition put (l : list byte) : output () := λ out,
  let next := N.of_nat (length out) + N.of_nat (length l) in
  if USIZE_MAX <? next then (Err (Failed "hta/frame-too-large: length overflow"), out)
  else if MAX_FRAME_BYTES <? next then
    (Err (Failed ("hta/frame-too-large: encoded frame exceeds " +:+ number_text MAX_FRAME_BYTES +:+ " bytes")), out)
  else (Ok tt, out ++ l).
Definition push (value : N) : output () := put [byte_of_N value].
Definition put_len (len : nat) : output () :=
  if N.of_nat len <=? U32_MAX then put (to_be_bytes 4 (N.of_nat len))
  else fail (Failed "hta/value-too-large: container or scalar length exceeds u32").
Definition write_sized (tag : N) (l : list byte) : output () := push tag;; put_len (length l);; put l.

(** What is written into a buffer of its own. *)
Definition bare (m : output ()) : result failure (list byte) :=
  match m [] with (Ok _, out) => Ok out | (Err e, _) => Err e end.

(** [Vec::dedup]. *)
Fixpoint dedup (l : list (list byte)) : list (list byte) :=
  match l with
  | x :: rest =>
      match dedup rest with
      | (y :: _) as rest' => if decide (x = y) then rest' else x :: rest'
      | [] => [x]
      end
  | [] => []
  end.
Fixpoint adjacent_equal (l : list (list byte)) : bool :=
  match l with
  | x :: rest => match rest with y :: _ => bool_decide (x = y) || adjacent_equal rest | [] => false end
  | [] => false
  end.

Section encoder.
(** [encode_value] one level down. *)
Variable encode : Immutable → output ().

Definition encode_sequence (tag : N) (values : list Immutable) : output () :=
  push tag;; put_len (length values);; each encode values.
Definition encode_map_entry (values : list Immutable) : output () :=
  if negb (length values =? 2)%nat then fail (Failed "hta/value-invalid: map entry must contain two values")
  else encode_sequence MAP_ENTRY values.
Definition encode_unordered_sequence (tag : N) (values : list Immutable) : output () :=
  encoded ← lift (mapM (λ value, bare (encode value)) values);
  let encoded := dedup (merge_sort bytes_le encoded) in
  push tag;; put_len (length encoded);; each put encoded.

Definition encode_entry (entry : Immutable * Immutable) : result failure (list byte * list byte) :=
  key ← bare (encode entry.1); value ← bare (encode entry.2); Ok (key, value).
Definition put_entries (entries : list (list byte * list byte)) : output () :=
  each (λ entry, put entry.1;; put entry.2) entries.
Definition encode_map (tag : N) (values : list (Immutable * Immutable)) (canonical_order : bool) : output () :=
  entries ← lift (mapM encode_entry values);
  let entries := if canonical_order then merge_sort key_le entries else entries in
  if adjacent_equal entries.*1 then fail (Failed "hta/value-invalid: duplicate map key") else
  push tag;; put_len (length entries);; put_entries entries.
Definition encode_record (values : list (string * Immutable)) : output () :=
  push MAP;; put_len (length values);;
  entries ← lift (mapM (λ field, encode_entry (PKeyword field.1, field.2)) values);
  put_entries (merge_sort key_le entries).

(** The fields of a pointer are written two levels down. *)
Definition encode_step (encode_fields : list (string * Immutable) → output ()) (value : Immutable) : output () :=
  match value with
  | PNil => push NIL
  | PBoolean b => push (if b then TRUE else FALSE)
  | PInteger value => push I64;; put (to_be_bytes 8 (i64_as_u64 value))
  | PFloat bits =>
      if negb (is_finite bits) then fail (Failed "hta/non-finite number")
      else push F64;; put (to_be_bytes 8 bits)
  | PCharacter value => push CHARACTER;; put (to_be_bytes 4 value)
  | PBigInteger value =>
      value ← lift (canonical_big_integer value);
      match value with
      | PInteger value => push I64;; put (to_be_bytes 8 (i64_as_u64 value))
      | PBigInteger value => write_sized BIG_INTEGER (string_bytes value)
      | _ => fail (Panicked "canonical big integer returned a non-integer value")
      end
  | PString value => write_sized STRING (string_bytes value)
  | PBytes value => write_sized BYTES value
  | PKeyword value => write_sized KEYWORD (string_bytes value)
  | PRegex value => write_sized REGEX (string_bytes value)
  | PSymbol value => write_sized SYMBOL (string_bytes value)
  | PList values => encode_sequence LIST values
  | PVector values => encode_sequence VECTOR values
  | PMapEntry values => encode_map_entry values
  | PTuple values => encode_sequence VECTOR values
  | PCons values => encode_sequence CONS values
  | PQueue values => encode_sequence QUEUE values
  | PSet values => encode_unordered_sequence SET values
  | POrderedSet values => encode_sequence ORDERED_SET values
  | PSortedSet values => encode_unordered_sequence SORTED_SET values
  | PMap values => encode_map MAP values true
  | POrderedMap values => encode_map ORDERED_MAP values false
  | PSortedMap values => encode_map SORTED_MAP values false
  | PTrie values => encode_map TRIE ((λ entry, (PString entry.1, entry.2)) <$> values) false
  | PRecord values => encode_record values
  | PTagged tag form => push TAGGED;; encode (PSymbol tag);; encode form
  | PExceptionInfo message data cause provenance =>
      if negb match data with PMap _ | PRecord _ => true | _ => false end then
        fail (Failed "hta/value-invalid: exception data must be a map")
      else if match cause with Some (PExceptionInfo _ _ _ _) | None => false | _ => true end then
        fail (Failed "hta/value-invalid: exception cause must be an Exception")
      else
        push EXCEPTION_INFO;; encode (PString message);; encode data;;
        encode (default PNil cause);; encode (provenance_value provenance)
  | PStruct name fields values =>
      if negb (length fields =? length values)%nat then fail (Failed "hta/value-invalid: struct arity mismatch")
      else push STRUCT;; encode (PString name);; encode (PVector (PString <$> fields));; encode (PVector values)
  | PPointer context fields => push POINTER;; encode (PKeyword context);; encode_fields fields
  | PVarRef symbol => push VAR_REF;; encode (PSymbol symbol)
  end.
End encoder.

Fixpoint encode_value (levels : nat) (value : Immutable) : output () :=
  match levels with
  | O => fail (Failed "hta/value-too-deep")
  | S levels => encode_step (encode_value levels) (encode_record (encode_value (pred levels))) value
  end.

Definition encode_immutable (value : Immutable) : result failure (list byte) :=
  bare (put MAGIC;; encode_value (S MAX_NESTING_DEPTH) value).

(** ** The decoder *)
Definition take_bytes (size : N) : read (list byte) := λ r,
  let end_ := cursor r + size in
  if USIZE_MAX <? end_ then (malformed "length overflow", r)
  else if N.of_nat (length (bytes r)) <? end_ then (malformed "truncated value", r)
  else (Ok (take (N.to_nat size) (drop (N.to_nat (cursor r)) (bytes r))), mkReader (bytes r) end_).
Definition take_byte : read N := l ← take_bytes 1; mret (from_be_bytes l).
Definition take_len : read N := l ← take_bytes 4; mret (from_be_bytes l).
Definition sized : read (list byte) := len ← take_len; take_bytes len.
Definition text : read string :=
  l ← sized;
  if utf8_valid l then mret (String.string_of_list_byte l) else lift (malformed "invalid UTF-8").

Section decoder.
(** [Reader::value] one level down. *)
Variable value : read Immutable.

Definition sequence : read (list Immutable) :=
  len ← take_len;
  rest ← gets (λ r, N.of_nat (remaining r));
  if rest <? len then lift (malformed "impossible sequence length")
  else times (N.to_nat len) value.
Definition entries : read (list (Immutable * Immutable)) :=
  len ← take_len;
  rest ← gets (λ r, N.of_nat (remaining r));
  if rest / 2 <? len then lift (malformed "impossible map length")
  else times (N.to_nat len) (key ← value; value ← value; mret (key, value)).

Definition keyword_key (entry : Immutable * Immutable) : option (string * Immutable) :=
  match entry.1 with PKeyword key => Some (key, entry.2) | _ => None end.
(** The entries of a record into a [BTreeMap]; a key that is there is an error. *)
Fixpoint record_from (record : list (string * Immutable)) (fields : list (string * Immutable)) :
    result failure (list (string * Immutable)) :=
  match fields with
  | [] => Ok record
  | (key, value) :: fields =>
      let '(record, old) := btree_insert key value record in
      if old : bool then malformed ("duplicate portable record key :" +:+ key)
      else record_from record fields
  end.
Definition map_value (tag : N) : read Immutable :=
  entries ← entries;
  match (if tag =? MAP then mapM keyword_key entries else None) with
  | Some fields => record ← lift (record_from [] fields); mret (PRecord record)
  | None =>
      mret (if tag =? MAP then PMap entries
            else if tag =? ORDERED_MAP then POrderedMap entries else PSortedMap entries)
  end.
Definition trie_entry (entry : Immutable * Immutable) : result failure (string * Immutable) :=
  match entry.1 with PString key => Ok (key, entry.2) | _ => malformed "invalid trie key" end.
Definition trie : read Immutable :=
  entries ← entries; entries ← lift (mapM trie_entry entries); mret (PTrie entries).
Definition struct_field (value : Immutable) : result failure string :=
  match value with PString value => Ok value | _ => malformed "invalid struct field" end.
Definition structure : read Immutable :=
  name ← value;
  match name with
  | PString name =>
      fields ← value;
      match fields with
      | PVector fields =>
          fields ← lift (mapM struct_field fields);
          values ← value;
          match values with
          | PVector values =>
              if negb (length fields =? length values)%nat then lift (malformed "struct arity mismatch")
              else mret (PStruct name fields values)
          | _ => lift (malformed "invalid struct values")
          end
      | _ => lift (malformed "invalid struct fields")
      end
  | _ => lift (malformed "invalid struct name")
  end.
Definition exception_info : read Immutable :=
  message ← value;
  match message with
  | PString message =>
      data ← value;
      cause ← value;
      cause ← match cause with
              | PNil => mret None
              | PExceptionInfo _ _ _ _ => mret (Some cause)
              | _ => lift (malformed "invalid exception cause")
              end;
      if negb match data with PMap _ | PRecord _ => true | _ => false end then
        lift (malformed "invalid exception data")
      else
        provenance ← value;
        provenance ← lift (decode_provenance provenance);
        mret (PExceptionInfo message data cause provenance)
  | _ => lift (malformed "invalid exception message")
  end.

Definition dispatch (tag : N) : read Immutable :=
  match tag with
  | 0 => mret PNil
  | 1 => mret (PBoolean false)
  | 2 => mret (PBoolean true)
  | 3 => l ← take_bytes 8; mret (PInteger (u64_as_i64 (from_be_bytes l)))
  | 15 =>
      l ← take_bytes 8;
      let bits := from_be_bytes l in
      if negb (is_finite bits) then fail (Failed "hta/non-finite number") else mret (PFloat bits)
  | 19 =>
      l ← take_bytes 4;
      let c := from_be_bytes l in
      if scalar c then mret (PCharacter c) else lift (malformed "invalid character scalar")
  | 4 => s ← text; mret (PString s)
  | 5 => l ← sized; mret (PBytes l)
  | 6 => s ← text; mret (PKeyword s)
  | 7 => s ← text; mret (PSymbol s)
  | 20 => s ← text; lift (canonical_big_integer s)
  | 22 => s ← text; mret (PRegex s)
  | 8 => l ← sequence; mret (PList l)
  | 9 => l ← sequence; mret (PVector l)
  | 23 => l ← sequence; mret (PTuple l)
  | 38 =>
      l ← sequence;
      if negb (length l =? 2)%nat then lift (malformed "map entry must contain two values")
      else mret (PMapEntry l)
  | 24 => l ← sequence; if nonempty l then mret (PCons l) else lift (malformed "empty cons")
  | 25 => l ← sequence; mret (PQueue l)
  | 10 => l ← sequence; mret (PSet l)
  | 29 => l ← sequence; mret (POrderedSet l)
  | 30 => l ← sequence; mret (PSortedSet l)
  | 11 | 26 | 27 => map_value tag
  | 28 => trie
  | 31 =>
      tag ← value;
      match tag with
      | PSymbol tag => form ← value; mret (PTagged tag form)
      | _ => lift (malformed "invalid tagged literal tag")
      end
  | 32 => exception_info
  | 33 => structure
  | 34 =>
      context ← value;
      match context with
      | PKeyword context =>
          fields ← value;
          match fields with
          | PRecord fields => mret (PPointer context fields)
          | _ => lift (malformed "invalid pointer fields")
          end
      | _ => lift (malformed "invalid pointer context")
      end
  | 35 =>
      symbol ← value;
      match symbol with
      | PSymbol symbol => mret (PVarRef symbol)
      | _ => lift (malformed "invalid Var reference")
      end
  | 12 | 13 | 14 | 16 | 17 | 18 =>
      fail (Failed ("hta/value-unsupported: runtime wire tag " +:+ number_text tag +:+ " is not portable"))
  | _ => lift (malformed ("unknown tag " +:+ number_text tag))
  end.
End decoder.

Fixpoint value (levels : nat) : read Immutable :=
  match levels with
  | O => fail (Failed "hta/value-too-deep")
  | S levels => tag ← take_byte; dispatch (value levels) tag
  end.

Definition decode_immutable (frame : list byte) : result failure Immutable :=
  let len := N.of_nat (length frame) in
  if MAX_FRAME_BYTES <? len then
    Err (Failed ("hta/frame-too-large: " +:+ number_text len +:+ " exceeds " +:+ number_text MAX_FRAME_BYTES +:+ " bytes"))
  else if negb (bool_decide (MAGIC `prefix_of` frame)) then Err (Failed "hta/frame-invalid: expected HTA0 magic")
  else
    match value (S MAX_NESTING_DEPTH) (reader_new (drop (length MAGIC) frame)) with
    | (Ok value, r) =>
        if cursor r =? N.of_nat (length (bytes r)) then Ok value
        else Err (Failed "hta/frame-invalid: trailing bytes")
    | (Err e, _) => Err e
    end.

Definition decode_immutable_canonical (frame : list byte) (max_bytes : N) : result failure Immutable :=
  let len := N.of_nat (length frame) in
  if (max_bytes =? 0) || (MAX_FRAME_BYTES <? max_bytes) then
    Err (Failed ("hta/maximum-invalid: requested maximum must be between 1 and " +:+ number_text MAX_FRAME_BYTES +:+ " bytes"))
  else if max_bytes <? len then
    Err (Failed ("hta/frame-too-large: " +:+ number_text len +:+ " exceeds requested maximum " +:+ number_text max_bytes +:+ " bytes"))
  else
    value ← decode_immutable frame;
    canonical ← encode_immutable value;
    if negb (bool_decide (canonical = frame)) then
      Err (Failed "hta/frame-noncanonical: decoded value has different canonical bytes")
    else Ok value.

(** ** The provider ABI *)
Fixpoint abi_to_immutable (value : AbiValue) : result failure Immutable :=
  match value with
  | ANil => Ok PNil
  | ABoolean value => Ok (PBoolean value)
  | AString value => Ok (PString value)
  | AInteger value => Ok (PInteger value)
  | ABigInteger value => canonical_big_integer value
  | AFloat bits => if negb (is_finite bits) then Err (Failed "hta/non-finite number") else Ok (PFloat bits)
  | ABytes value => Ok (PBytes value)
  | AKeyword value => Ok (PKeyword value)
  | AVector values => PVector <$> mapM abi_to_immutable values
  | ARecord values =>
      PRecord <$> mapM (λ field, pair (field.1 : string) <$> abi_to_immutable field.2) values
  end.
Fixpoint immutable_to_abi (value : Immutable) : result failure AbiValue :=
  match value with
  | PNil => Ok ANil
  | PBoolean value => Ok (ABoolean value)
  | PString value => Ok (AString value)
  | PInteger value => Ok (AInteger value)
  | PBigInteger value =>
      value ← canonical_big_integer value;
      match value with
      | PInteger value => Ok (AInteger value)
      | PBigInteger value => Ok (ABigInteger value)
      | _ => Err (Panicked "canonical big integer returned a non-integer value")
      end
  | PFloat bits => if negb (is_finite bits) then Err (Failed "hta/non-finite number") else Ok (AFloat bits)
  | PBytes value => Ok (ABytes value)
  | PKeyword value => Ok (AKeyword value)
  | PVector values => AVector <$> mapM immutable_to_abi values
  | PRecord values =>
      ARecord <$> mapM (λ field, pair (field.1 : string) <$> immutable_to_abi field.2) values
  | _ => Err (Failed "hta/value-unsupported: immutable value is outside the provider ABI")
  end.
Definition encode (value : AbiValue) : result failure (list byte) :=
  value ← abi_to_immutable value; encode_immutable value.
Definition decode (frame : list byte) : result failure AbiValue :=
  value ← decode_immutable frame; immutable_to_abi value.
Definition decode_canonical (frame : list byte) (max_bytes : N) : result failure AbiValue :=
  value ← decode_immutable_canonical frame max_bytes; immutable_to_abi value.
