(* ===== verification/PortableOrder.v ===== *)
(** * Sorted keys

    What the portable codec needs of sorting: byte strings are totally ordered,
    a stable sort commutes with a map that keeps the keys, a list with distinct
    keys has one sorted order, and [BTreeMap] insertion keeps it. *)
From S2P Require Import Prelude Bytes Text Numeric Portable.
From Stdlib Require Import Strings.Byte.

(** ** Byte strings *)
Lemma octet_eqb_eq a b : (Byte.to_N a =? Byte.to_N b)%N = true ↔ a = b.
Proof.
  rewrite N.eqb_eq. split; [|by intros ->]. intros H.
  by rewrite <-(byte_of_N_to_N a), <-(byte_of_N_to_N b), H.
Qed.

#[export] Instance bytes_le_total : Total bytes_le.
Proof.
  intros l. unfold bytes_le. induction l as [|a l IH]; intros [|b k]; cbn; auto.
  rewrite (N.eqb_sym (Byte.to_N b)). destruct (N.eqb_spec (Byte.to_N a) (Byte.to_N b)); [apply IH|].
  rewrite !N.ltb_lt. lia.
Qed.
#[export] Instance bytes_le_antisymm : AntiSymm (=) bytes_le.
Proof.
  intros l. unfold bytes_le. induction l as [|a l IH]; intros [|b k]; cbn; [done..|].
  rewrite (N.eqb_sym (Byte.to_N b)). destruct (Byte.to_N a =? Byte.to_N b)%N eqn:E.
  - apply octet_eqb_eq in E as ->. intros ??. f_equal. by apply IH.
  - rewrite !N.ltb_lt. lia.
Qed.
#[export] Instance bytes_le_trans : Transitive bytes_le.
Proof.
  intros l. unfold bytes_le. induction l as [|a l IH]; intros [|b k] [|c m]; cbn; try done.
  destruct (N.eqb_spec (Byte.to_N a) (Byte.to_N b)) as [Hab|Hab],
    (N.eqb_spec (Byte.to_N b) (Byte.to_N c)) as [Hbc|Hbc],
    (N.eqb_spec (Byte.to_N a) (Byte.to_N c)) as [Hac|Hac]; rewrite ?N.ltb_lt; try lia. apply IH.
Qed.
#[export] Instance key_le_total {A} : Total (@key_le A).
Proof. intros x y. apply (total bytes_le). Qed.
#[export] Instance key_le_trans {A} : Transitive (@key_le A).
Proof. intros x y z. apply bytes_le_trans. Qed.

Lemma string_bytes_inj s t : string_bytes s = string_bytes t → s = t.
Proof.
  unfold string_bytes. intros H. by rewrite <-(String.string_of_list_byte_of_string s), H,
    String.string_of_list_byte_of_string.
Qed.

(** ** Sorting *)
Section sort_fmap.
Context {A B : Type} (R : relation A) (S : relation B) `{!RelDecision R, !RelDecision S} (f : A → B).
Hypothesis order : ∀ x y, R x y ↔ S (f x) (f y).

Lemma list_merge_fmap l k : f <$> list_merge R l k = list_merge S (f <$> l) (f <$> k).
Proof.
  revert k. induction l as [|x l IHl]; intros k; [by destruct k|].
  induction k as [|y k IHk]; [done|].
  change (f <$> x :: l) with (f x :: (f <$> l)) in *. change (f <$> y :: k) with (f y :: (f <$> k)).
  rewrite !list_merge_cons. destruct (decide (R x y)) as [Hr|Hr].
  - rewrite decide_True by by apply order. cbn. f_equal. apply (IHl (y :: k)).
  - rewrite decide_False by by rewrite <-order. cbn. f_equal. apply IHk.
Qed.

Let runs : list (option (list A)) → list (option (list B)) :=
  fmap (M := list) (fmap (M := option) (fmap (M := list) f)).

Lemma merge_list_to_stack_fmap st l :
  runs (merge_list_to_stack R st l) = merge_list_to_stack S (runs st) (f <$> l).
Proof.
  revert l. induction st as [|[k|] st IH]; intros l; cbn; [done| |done].
  f_equal. by rewrite <-list_merge_fmap, <-IH.
Qed.

Lemma merge_sort_fmap l : f <$> merge_sort R l = merge_sort S (f <$> l).
Proof.
  unfold merge_sort. change (@nil (option (list B))) with (runs []).
  generalize (@nil (option (list A))). induction l as [|x l IH]; intros st; cbn.
  - induction st as [|[k|] st IH]; cbn; [done| |done]. by rewrite list_merge_fmap, IH.
  - by rewrite IH, merge_list_to_stack_fmap.
Qed.
End sort_fmap.

Lemma NoDup_fmap_eq {A B} (f : A → B) (l : list A) x y :
  NoDup (f <$> l) → x ∈ l → y ∈ l → f x = f y → x = y.
Proof.
  induction l as [|z l IH]; [by intros _ ?%elem_of_nil|]. cbn. intros [Hz Hl]%NoDup_cons.
  intros [->|Hx]%elem_of_cons [->|Hy]%elem_of_cons E; [done| | |by apply IH].
  - destruct Hz. rewrite E. by apply list_elem_of_fmap_2.
  - destruct Hz. rewrite <-E. by apply list_elem_of_fmap_2.
Qed.

(** Distinct keys have one sorted order. *)
Lemma merge_sort_key {A} (l k : list (list byte * A)) :
  NoDup l.*1 → StronglySorted key_le l → k ≡ₚ l → merge_sort key_le k = l.
Proof.
  intros Hl Hs Hk. apply (StronglySorted_unique_strong key_le);
    [|apply StronglySorted_merge_sort; apply _|done|by rewrite merge_sort_Permutation].
  intros x y Hx Hy H1 H2. rewrite merge_sort_Permutation, Hk in Hx.
  apply (NoDup_fmap_eq fst l); [done..|]. by apply (anti_symm bytes_le).
Qed.

Lemma merge_sort_bytes l : StronglySorted bytes_le l → merge_sort bytes_le l = l.
Proof.
  intros Hs. apply (StronglySorted_unique bytes_le);
    [apply StronglySorted_merge_sort; apply _|done|apply merge_sort_Permutation].
Qed.

(** No two neighbours of a sorted list are equal: none are. *)
Lemma adjacent_equal_sorted l :
  StronglySorted bytes_le l → adjacent_equal l = false → NoDup l.
Proof.
  induction 1 as [|x l Hl IH Hx]; [constructor|]. cbn [adjacent_equal]. intros Ha.
  constructor; [|apply IH; destruct l; [done|by apply orb_false_iff in Ha as [_ ?]]].
  destruct l as [|y l]; [by intros ?%elem_of_nil|]. apply orb_false_iff in Ha as [Hxy%bool_decide_eq_false _].
  intros [->|Hin]%elem_of_cons; [done|]. destruct Hxy. apply (anti_symm bytes_le).
  - by apply Forall_cons in Hx as [? _].
  - apply StronglySorted_cons in Hl as [Hy _]. by eapply Forall_forall in Hy.
Qed.
Lemma adjacent_equal_NoDup l : NoDup l → adjacent_equal l = false.
Proof.
  induction 1 as [|x l Hx _ IH]; [done|]. cbn. destruct l as [|y l]; [done|].
  rewrite IH, orb_false_r. apply bool_decide_eq_false. set_solver.
Qed.

(** [dedup] of a list that carries something with each key. *)
Fixpoint dedup_keys {A} (l : list (list byte * A)) : list (list byte * A) :=
  match l with
  | x :: rest =>
      match dedup_keys rest with
      | (y :: _) as rest' => if decide (x.1 = y.1) then rest' else x :: rest'
      | [] => [x]
      end
  | [] => []
  end.

Lemma dedup_keys_fst {A} (l : list (list byte * A)) : (dedup_keys l).*1 = dedup l.*1.
Proof.
  induction l as [|x l IH]; [done|]. cbn. rewrite <-IH. destruct (dedup_keys l) as [|y k]; [done|].
  cbn. by case_decide.
Qed.
Lemma dedup_keys_sub {A} (l : list (list byte * A)) x : x ∈ dedup_keys l → x ∈ l.
Proof.
  revert x. induction l as [|y l IH]; intros x; cbn; [done|].
  destruct (dedup_keys l) as [|z k]; [set_solver|]. case_decide; set_solver.
Qed.
Lemma dedup_in l x : x ∈ dedup l → x ∈ l.
Proof.
  revert x. induction l as [|y l IH]; intros x; cbn; [done|].
  destruct (dedup l) as [|z k]; [set_solver|]. case_decide; set_solver.
Qed.
Lemma dedup_sorted l :
  StronglySorted bytes_le l → StronglySorted bytes_le (dedup l) ∧ NoDup (dedup l).
Proof.
  induction 1 as [|x l Hl [IHs IHn] Hx]; [split; constructor|]. cbn.
  assert (Forall (bytes_le x) (dedup l)) as Hx'.
  { apply Forall_forall. intros y Hy%dedup_in. by eapply Forall_forall in Hx. }
  destruct (dedup l) as [|y k] eqn:E in *; [split; repeat constructor; by intros ?%elem_of_nil|].
  case_decide as Hxy; [done|]. split; [by constructor|]. constructor; [|done].
  intros [->|Hin]%elem_of_cons; [done|]. destruct Hxy.
  apply Forall_cons in Hx' as [Hxy _]. apply (anti_symm bytes_le); [done|].
  apply StronglySorted_cons in IHs as [Hy _]. by eapply Forall_forall in Hy.
Qed.
Lemma dedup_NoDup l : NoDup l → dedup l = l.
Proof.
  induction 1 as [|x l Hx _ IH]; [done|]. cbn. rewrite IH. destruct l as [|y l]; [done|].
  rewrite decide_False; [done|]. set_solver.
Qed.

(** ** Maps ordered by their keys *)
Definition key_bytes {A} (field : string * A) : list byte * (string * A) := (string_bytes field.1, field).
(** The entries of a [BTreeMap]: each key is below the next. *)
Definition ordered {A} (l : list (string * A)) : Prop :=
  StronglySorted key_le (key_bytes <$> l) ∧ NoDup l.*1.
#[export] Instance ordered_dec {A} (l : list (string * A)) : Decision (ordered l).
Proof. unfold ordered. apply _. Defined.

Lemma key_bytes_NoDup {A} (l : list (string * A)) : NoDup l.*1 → NoDup (key_bytes <$> l).*1.
Proof.
  intros H. rewrite <-list_fmap_compose.
  replace (fst ∘ key_bytes <$> l) with (string_bytes <$> l.*1) by by rewrite <-list_fmap_compose.
  apply NoDup_fmap_2_strong; [|done]. intros s t _ _. apply string_bytes_inj.
Qed.

Lemma ordered_unique {A} (l k : list (string * A)) : ordered l → ordered k → l ≡ₚ k → l = k.
Proof.
  intros [Hl Hln] [Hk Hkn] Hp.
  assert (∀ x : list (string * A), (key_bytes <$> x).*2 = x) as Hinv.
  { intros x. rewrite <-list_fmap_compose. apply list_fmap_id. }
  rewrite <-(Hinv l), <-(Hinv k). f_equal.
  rewrite <-(merge_sort_key (key_bytes <$> l) (key_bytes <$> l)) by (done || by apply key_bytes_NoDup).
  apply merge_sort_key; [by apply key_bytes_NoDup|done|]. by rewrite Hp.
Qed.

Lemma btree_insert_perm {A} k (v : A) l :
  k ∉ l.*1 → (btree_insert k v l).1 ≡ₚ (k, v) :: l ∧ (btree_insert k v l).2 = false.
Proof.
  induction l as [|[k' v'] l IH]; [done|]. cbn. rewrite not_elem_of_cons. intros [Hk Hin].
  rewrite decide_False by done. destruct (bytes_leb _ _); [done|].
  destruct (IH Hin) as [IH1 IH2]. destruct (btree_insert k v l) as [rest old]. cbn in *.
  split; [|done]. rewrite IH1. constructor.
Qed.

Lemma btree_insert_ordered {A} k (v : A) l :
  ordered l → k ∉ l.*1 → ordered (btree_insert k v l).1.
Proof.
  intros [Hs Hn] Hk. split; [|rewrite (proj1 (btree_insert_perm k v l Hk)); by constructor].
  clear Hn. induction l as [|[k' v'] l IH]; [repeat constructor|].
  cbn in *. rewrite not_elem_of_cons in Hk. destruct Hk as [Hne Hk].
  apply StronglySorted_cons in Hs as [Hx Hs]. rewrite decide_False by done.
  destruct (bytes_leb (string_bytes k) (string_bytes k')) eqn:Hle; cbn.
  - constructor; [by constructor|]. constructor; [exact Hle|].
    eapply Forall_impl; [exact Hx|]. intros y Hy. eapply (bytes_le_trans _ (string_bytes k')); [exact Hle|exact Hy].
  - assert (bytes_le (string_bytes k') (string_bytes k)) as Hle'.
    { destruct (total bytes_le (string_bytes k) (string_bytes k')) as [H|H]; [|done].
      unfold bytes_le in H. congruence. }
    specialize (IH Hs Hk). pose proof (btree_insert_perm k v l Hk) as [Hp _].
    destruct (btree_insert k v l) as [rest old]. cbn in *. constructor; [done|].
    rewrite Hp. constructor; [exact Hle'|exact Hx].
Qed.

Lemma record_from_ordered {A} (acc l : list (string * A)) :
  ordered acc → NoDup (acc ++ l).*1 →
  ordered (foldl (λ m kv, (btree_insert kv.1 kv.2 m).1) acc l) ∧
  foldl (λ m kv, (btree_insert kv.1 kv.2 m).1) acc l ≡ₚ acc ++ l.
Proof.
  revert acc. induction l as [|[k v] l IH]; intros acc Ho Hn; cbn; [by rewrite app_nil_r|].
  assert (k ∉ acc.*1) as Hk.
  { rewrite fmap_app in Hn. cbn in Hn. apply NoDup_app in Hn as (_ & Hn & _). intros Hin. by apply (Hn k Hin), list_elem_of_here. }
  destruct (btree_insert_perm k v acc Hk) as [Hp _].
  destruct (IH (btree_insert k v acc).1) as [H1 H2].
  - by apply btree_insert_ordered.
  - rewrite Hp. by rewrite <-Permutation_middle in Hn.
  - split; [done|]. rewrite H2, Hp. apply Permutation_middle.
Qed.

Lemma record_from_foldl acc l :
  NoDup (acc ++ l).*1 → record_from acc l = Ok (foldl (λ m kv, (btree_insert kv.1 kv.2 m).1) acc l).
Proof.
  revert acc. induction l as [|[k v] l IH]; intros acc Hn; cbn; [done|].
  assert (k ∉ acc.*1) as Hk.
  { rewrite fmap_app in Hn. cbn in Hn. apply NoDup_app in Hn as (_ & Hn & _). intros Hin. by apply (Hn k Hin), list_elem_of_here. }
  destruct (btree_insert_perm k v acc Hk) as [Hp Ho].
  destruct (btree_insert k v acc) as [rest old]. cbn in *. rewrite Ho. apply IH.
  rewrite Hp. by rewrite <-Permutation_middle in Hn.
Qed.

Lemma ordered_nil {A} : ordered (@nil (string * A)).
Proof. split; constructor. Qed.

(** Distinct keys collected in any order. *)
Lemma btree_of_ordered {A} (l : list (string * A)) :
  NoDup l.*1 → ordered (btree_of l) ∧ btree_of l ≡ₚ l.
Proof. intros H. by apply (record_from_ordered [] l ordered_nil). Qed.
Lemma record_from_ok l : NoDup l.*1 → record_from [] l = Ok (btree_of l).
Proof. intros H. by apply (record_from_foldl [] l). Qed.
Lemma btree_of_id {A} (l k : list (string * A)) : ordered l → k ≡ₚ l → btree_of k = l.
Proof.
  intros Ho Hk. assert (NoDup k.*1) as Hn by (rewrite Hk; apply Ho).
  destruct (btree_of_ordered k Hn) as [H1 H2]. apply ordered_unique; [done..|]. by rewrite H2.
Qed.
