(* ===== verification/PortableNormal.v ===== *)
(** * The normal form of a portable value

    The normal form of a value, which is what its frame decodes to, and the
    calculus that proves it: [codes] relates an encoder, the encoder of the
    normal form and the decoder by the bytes all three agree on. *)
From S2P Require Import Prelude Bytes Text Numeric Portable PortableOrder.
From Stdlib Require Import Ascii Strings.Byte.

(** ** Values that a frame can carry

    What Rust's types ensure (valid strings, integers at their width, sorted
    [BTreeMap]s), and two conditions the encoder does not check: a [Cons] has an
    element, and the lines and columns of a site are below 2^63. *)
Definition portable_text (s : string) : bool := bool_decide (rust_string s).
Definition portable_site (site : ExceptionSite) : bool :=
  match namespace site with Some s => portable_text s | None => true end &&
  match resource site with Some s => portable_text s | None => true end &&
  (line site <? 2 ^ 63)%N && (column site <? 2 ^ 63)%N.
Definition portable_provenance (provenance : ExceptionProvenance) : bool :=
  match created_at provenance with Some site => portable_site site | None => true end &&
  forallb portable_site (throws provenance).

Fixpoint portable (value : Immutable) : bool :=
  match value with
  | PNil | PBoolean _ | PBytes _ => true
  | PInteger value => in_i64 value
  | PFloat bits => (bits <=? U64_MAX)%N
  | PCharacter value => scalar value
  | PString value | PBigInteger value | PRegex value | PKeyword value | PSymbol value
  | PVarRef value => portable_text value
  | PList values | PVector values | PMapEntry values | PTuple values | PQueue values | PSet values
  | POrderedSet values | PSortedSet values => forallb portable values
  | PCons values => nonempty values && forallb portable values
  | PMap entries | POrderedMap entries | PSortedMap entries =>
      forallb (λ entry, portable entry.1 && portable entry.2) entries
  | PTrie entries => forallb (λ entry, portable_text entry.1 && portable entry.2) entries
  | PRecord fields =>
      bool_decide (ordered fields) && forallb (λ field, portable_text field.1 && portable field.2) fields
  | PTagged tag form => portable_text tag && portable form
  | PExceptionInfo message data cause provenance =>
      portable_text message && portable data && match cause with Some cause => portable cause | None => true end &&
      portable_provenance provenance
  | PStruct name fields values => portable_text name && forallb portable_text fields && forallb portable values
  | PPointer context fields =>
      portable_text context && bool_decide (ordered fields) &&
      forallb (λ field, portable_text field.1 && portable field.2) fields
  end.

(** ** The normal form *)
Section normal.
Variable encode : Immutable → output ().
(** The normal form one level down and two levels down. *)
Variable norm norm' : Immutable → Immutable.

(** The bytes of an element. *)
Definition wire (value : Immutable) : list byte :=
  match bare (encode value) with Ok l => l | Err _ => [] end.
Definition sorted_values (values : list Immutable) : list Immutable :=
  (dedup_keys (merge_sort key_le ((λ value, (wire value, norm value)) <$> values))).*2.
Definition norm_entry (entry : Immutable * Immutable) : Immutable * Immutable := (norm entry.1, norm entry.2).
Definition sorted_entries (entries : list (Immutable * Immutable)) : list (Immutable * Immutable) :=
  (merge_sort key_le ((λ entry, (wire entry.1, norm_entry entry)) <$> entries)).*2.

Definition normal_step (value : Immutable) : Immutable :=
  match value with
  | PBigInteger text => match canonical_big_integer text with Ok value => value | Err _ => value end
  | PList values => PList (norm <$> values)
  | PVector values | PTuple values => PVector (norm <$> values)
  | PMapEntry values => PMapEntry (norm <$> values)
  | PCons values => PCons (norm <$> values)
  | PQueue values => PQueue (norm <$> values)
  | POrderedSet values => POrderedSet (norm <$> values)
  | PSet values => PSet (sorted_values values)
  | PSortedSet values => PSortedSet (sorted_values values)
  | PMap entries =>
      match mapM keyword_key (sorted_entries entries) with
      | Some fields => PRecord (btree_of fields)
      | None => PMap (sorted_entries entries)
      end
  | POrderedMap entries => POrderedMap (norm_entry <$> entries)
  | PSortedMap entries => PSortedMap (norm_entry <$> entries)
  | PTrie entries => PTrie (prod_map id norm <$> entries)
  | PRecord fields => PRecord (prod_map id norm <$> fields)
  | PTagged tag form => PTagged tag (norm form)
  | PExceptionInfo message data cause provenance => PExceptionInfo message (norm data) (norm <$> cause) provenance
  | PStruct name fields values => PStruct name fields (norm' <$> values)
  | PPointer context fields => PPointer context (prod_map id norm' <$> fields)
  | PNil | PBoolean _ | PInteger _ | PFloat _ | PCharacter _ | PString _ | PBytes _ | PKeyword _ | PRegex _
  | PSymbol _ | PVarRef _ => value
  end.
End normal.

Fixpoint normal (levels : nat) (value : Immutable) : Immutable :=
  match levels with
  | O => value
  | S levels => normal_step (encode_value levels) (normal levels) (normal (pred levels)) value
  end.
Definition normal_form (value : Immutable) : Immutable := normal (S MAX_NESTING_DEPTH) value.

(** ** Writing *)
Definition fits (l : list byte) : Prop := (N.of_nat (length l) ≤ MAX_FRAME_BYTES)%N.
Lemma fits_app l k : fits (l ++ k) → fits l ∧ fits k.
Proof. unfold fits. rewrite length_app. lia. Qed.
Lemma fits_nil : fits [].
Proof. unfold fits, MAX_FRAME_BYTES. cbn. lia. Qed.
Lemma fits_isize l : fits l → (N.of_nat (length l) ≤ ISIZE_MAX)%N.
Proof. unfold fits, MAX_FRAME_BYTES, ISIZE_MAX. lia. Qed.

(** [m] writes exactly [e], and fails exactly when the frame would be too large. *)
Definition writes (m : output ()) (e : list byte) : Prop :=
  ∀ out out', fits out → m out = (Ok tt, out') ↔ out' = out ++ e ∧ fits out'.

Lemma writes_put e : writes (put e) e.
Proof.
  intros out out' Ho. unfold put, fits, USIZE_MAX, U64_MAX, MAX_FRAME_BYTES in *.
  destruct (N.ltb_spec 18446744073709551615 (N.of_nat (length out) + N.of_nat (length e))).
  { split; [done|]. intros [-> H']. rewrite length_app in H'. lia. }
  destruct (N.ltb_spec 67108864 (N.of_nat (length out) + N.of_nat (length e))).
  { split; [done|]. intros [-> H']. rewrite length_app in H'. lia. }
  split.
  - intros [= <-]. rewrite length_app. split; [done|lia].
  - by intros [-> _].
Qed.
Lemma writes_ret : writes (mret tt) [].
Proof.
  intros out out' Ho. rewrite app_nil_r. split; [by intros [= <-]|]. by intros [-> _].
Qed.
Lemma writes_bind m1 m2 e1 e2 : writes m1 e1 → writes m2 e2 → writes (m1;; m2) (e1 ++ e2).
Proof.
  intros H1 H2 out out' Ho. rewrite prog_bind_ok. split.
  - intros ([] & mid & [-> Hmid]%H1 & [-> Hout]%H2); [|done..]. by rewrite <-app_assoc in *.
  - rewrite app_assoc. intros [-> Hout]. destruct (fits_app _ _ Hout) as [Hmid _].
    exists tt, (out ++ e1). split; [by apply H1|by apply H2].
Qed.
Lemma writes_each {A} (f : A → output ()) l es :
  Forall2 (λ x e, writes (f x) e) l es → writes (each f l) (concat es).
Proof. induction 1 as [|x e l es Hx _ IH]; cbn; [apply writes_ret|by apply writes_bind]. Qed.
Lemma writes_ext m m' e : (∀ out, m' out = m out) → writes m e → writes m' e.
Proof. intros Hm H out out'. rewrite Hm. apply H. Qed.
Lemma writes_put_len n : (N.of_nat n ≤ U32_MAX)%N → writes (put_len n) (to_be_bytes 4 (N.of_nat n)).
Proof. intros Hn%N.leb_le. unfold put_len. rewrite Hn. apply writes_put. Qed.
Lemma writes_lift {A} (x : A) (k : A → output ()) e : writes (k x) e → writes (lift (Ok x) ≫= k) e.
Proof. by apply writes_ext. Qed.

Lemma writes_bare m e l : writes m e → bare m = Ok l ↔ l = e ∧ fits e.
Proof.
  intros H. unfold bare. specialize (H [] l fits_nil). cbn in H.
  split.
  - destruct (m []) as [[[]|] out]; [|done]. intros [= <-]. destruct (proj1 H eq_refl). by subst.
  - intros [-> He]. by rewrite (proj2 H (conj eq_refl He)).
Qed.
Lemma writes_unique m e e' : writes m e → writes m e' → fits e → e = e'.
Proof.
  intros H H' He. assert (m [] = (Ok tt, e)) as Hm by (apply H; [apply fits_nil|done]).
  by apply H' in Hm as [-> _]; [|apply fits_nil].
Qed.

(** ** Reading *)
Lemma reads_take_bytes e : reads (take_bytes (N.of_nat (length e))) e e.
Proof.
  intros pre suf Hlen. unfold take_bytes, USIZE_MAX, U64_MAX, ISIZE_MAX in *. cbn [cursor bytes].
  rewrite !length_app in *.
  destruct (N.ltb_spec 18446744073709551615 (N.of_nat (length pre) + N.of_nat (length e))); [lia|].
  destruct (N.ltb_spec (N.of_nat (length pre + (length e + length suf)))
             (N.of_nat (length pre) + N.of_nat (length e))); [lia|].
  rewrite !Nnat.Nat2N.id, drop_app_length, take_app_length.
  do 2 f_equal. lia.
Qed.
Lemma reads_take_be (w : nat) n :
  (n < 256 ^ N.of_nat w)%N →
  reads (l ← take_bytes (N.of_nat w); mret (from_be_bytes l)) (to_be_bytes w n) n.
Proof.
  intros Hn. rewrite <-(from_to_be_bytes w n Hn) at 2. apply reads_map.
  rewrite <-(length_to_be_bytes w n) at 1. apply reads_take_bytes.
Qed.
Lemma reads_fixed {A} (w : nat) n (f : N → A) :
  (n < 256 ^ N.of_nat w)%N →
  reads (l ← take_bytes (N.of_nat w); mret (f (from_be_bytes l))) (to_be_bytes w n) (f n).
Proof.
  intros Hn. rewrite <-(from_to_be_bytes w n Hn) at 2. apply (reads_map _ (λ l, f (from_be_bytes l))).
  rewrite <-(length_to_be_bytes w n) at 1. apply reads_take_bytes.
Qed.
Lemma reads_take_len n : (N.of_nat n ≤ U32_MAX)%N → reads take_len (to_be_bytes 4 (N.of_nat n)) (N.of_nat n).
Proof. intros Hn. apply (reads_take_be 4). unfold U32_MAX in Hn. cbn. lia. Qed.
Lemma reads_lift {A} (x : A) : reads (lift (Ok x)) [] x.
Proof. apply reads_ret. Qed.
Lemma reads_sized l : (N.of_nat (length l) ≤ U32_MAX)%N → reads sized (to_be_bytes 4 (N.of_nat (length l)) ++ l) l.
Proof. intros Hl. eapply reads_bind; [by apply reads_take_len|apply reads_take_bytes]. Qed.
Lemma reads_text s :
  (N.of_nat (length (string_bytes s)) ≤ U32_MAX)%N → portable_text s = true →
  reads text (to_be_bytes 4 (N.of_nat (length (string_bytes s))) ++ string_bytes s) s.
Proof.
  intros Hl Hs%bool_decide_eq_true. unfold text. rewrite <-(app_nil_r (_ ++ _)). eapply reads_bind; [by apply reads_sized|].
  unfold rust_string in Hs. unfold string_bytes. rewrite Hs, String.string_of_list_byte_of_string. apply reads_ret.
Qed.

Lemma reads_times {A} (m : read A) es vs :
  Forall2 (λ e v, reads m e v) es vs → reads (times (length vs) m) (concat es) vs.
Proof.
  induction 1 as [|e v es vs He _ IH]; cbn; [apply reads_ret|].
  eapply reads_bind; [exact He|]. by apply reads_map.
Qed.
Lemma concat_nonempty (es : list (list byte)) :
  Forall (λ e, e ≠ []) es → length es ≤ length (concat es).
Proof.
  induction 1 as [|e es He _ IH]; cbn; [lia|]. rewrite length_app. destruct e; [done|]. cbn. lia.
Qed.

(** The bytes left are at least the [n] that the length check asks for. *)
Lemma reads_checked {A} (k : N → N) n (m : read A) message e v :
  (∀ x y, x ≤ y → k x ≤ k y)%N → (n ≤ k (N.of_nat (length e)))%N → reads m e v →
  reads (rest ← gets (λ r, N.of_nat (remaining r)); if (k rest <? n)%N then lift (malformed message) else m) e v.
Proof.
  intros Hk Hn Hm pre suf Hlen. unfold mbind, prog_bind, gets, remaining. cbn [bytes cursor].
  rewrite (proj2 (N.ltb_ge _ _)); [by apply Hm|]. etrans; [exact Hn|]. apply Hk. rewrite !length_app. lia.
Qed.

Lemma value_nonempty L e v : reads (value L) e v → e ≠ [].
Proof.
  intros H ->. specialize (H [] [] ltac:(cbn; unfold ISIZE_MAX; lia)). by destruct L.
Qed.

Lemma reads_sequence L es vs :
  Forall2 (λ e v, reads (value L) e v) es vs → (N.of_nat (length vs) ≤ U32_MAX)%N →
  reads (sequence (value L)) (to_be_bytes 4 (N.of_nat (length vs)) ++ concat es) vs.
Proof.
  intros H Hn. eapply reads_bind; [by apply reads_take_len|].
  apply (reads_checked id); [done| |rewrite Nnat.Nat2N.id; by apply reads_times].
  rewrite <-(Forall2_length _ _ _ H). unfold id.
  assert (length es ≤ length (concat es)); [|lia]. apply concat_nonempty.
  apply Forall_forall. intros e He. destruct (proj1 (Forall2_lookup_elem _ _ _ H) e He) as (v & _ & Hv).
  by eapply value_nonempty.
Qed.

(** ** Agreement of encoder, normal form and decoder *)
Definition codes {A} (m m' : output ()) (r : read A) (v : A) : Prop :=
  ∀ out out', fits out → m out = (Ok tt, out') → ∃ e, writes m e ∧ writes m' e ∧ reads r e v.

Lemma codes_intro {A} m m' (r : read A) v e : writes m e → writes m' e → reads r e v → codes m m' r v.
Proof. intros ??? out out' _ _. by exists e. Qed.
Lemma codes_bind {A B} m1 m1' m2 m2' (r : read A) (k : A → read B) v1 v2 :
  codes m1 m1' r v1 → codes m2 m2' (k v1) v2 → codes (m1;; m2) (m1';; m2') (r ≫= k) v2.
Proof.
  intros H1 H2 out out' Ho ([] & mid & Hm1 & Hm2)%prog_bind_ok.
  destruct (H1 _ _ Ho Hm1) as (e1 & Hw1 & Hw1' & Hr1).
  apply Hw1 in Hm1 as [-> Hmid]; [|done].
  destruct (H2 _ _ Hmid Hm2) as (e2 & Hw2 & Hw2' & Hr2).
  exists (e1 ++ e2). split_and!; [by apply writes_bind..|by eapply reads_bind].
Qed.
(** The last reader returns what was assembled. *)
Lemma codes_last {A B} m m' (r : read A) (k : A → read B) v1 v2 :
  codes m m' r v1 → reads (k v1) [] v2 → codes m m' (r ≫= k) v2.
Proof.
  intros H Hk out out' Ho Hm. destruct (H _ _ Ho Hm) as (e & Hw & Hw' & Hr).
  exists e. split_and!; [done..|]. rewrite <-(app_nil_r e). by eapply reads_bind.
Qed.
Lemma codes_ext {A} m m' (r r' : read A) v : (∀ s, r' s = r s) → codes m m' r v → codes m m' r' v.
Proof.
  intros Hr H out out' Ho Hm. destruct (H _ _ Ho Hm) as (e & Hw & Hw' & Hre).
  exists e. split_and!; [done..|]. intros pre suf Hl. rewrite Hr. by apply Hre.
Qed.
Lemma codes_fail {A} err m' (r : read A) v : codes (fail err) m' r v.
Proof. by intros out out' _ [=]. Qed.

Lemma reads_tag L tag e v :
  (tag < 256)%N → reads (dispatch (value L) tag) e v → reads (value (S L)) (byte_of_N tag :: e) v.
Proof.
  intros Ht H. apply (reads_bind take_byte _ [byte_of_N tag] e tag); [|done].
  apply (reads_take_be 1). by rewrite N.pow_1_r.
Qed.
Lemma codes_tag L tag m m' v :
  (tag < 256)%N → codes m m' (dispatch (value L) tag) v → codes (push tag;; m) (push tag;; m') (value (S L)) v.
Proof.
  intros Ht H out out' Ho ([] & mid & Hp & Hm)%prog_bind_ok.
  pose proof (writes_put [byte_of_N tag]) as Hw. apply Hw in Hp as [-> Hmid]; [|done].
  destruct (H _ _ Hmid Hm) as (e & Hw1 & Hw2 & Hr). exists (byte_of_N tag :: e).
  split_and!; [by apply (writes_bind _ _ [_])..|by apply reads_tag].
Qed.
Lemma codes_bare_tag L tag v :
  (tag < 256)%N → reads (dispatch (value L) tag) [] v → codes (push tag) (push tag) (value (S L)) v.
Proof. intros Ht H. eapply codes_intro; [apply writes_put..|by apply reads_tag]. Qed.

Lemma put_len_ok n out out' : put_len n out = (Ok tt, out') → (N.of_nat n ≤ U32_MAX)%N.
Proof. unfold put_len. destruct (N.leb_spec (N.of_nat n) U32_MAX); [done|]. by intros [=]. Qed.
Lemma codes_len n : codes (put_len n) (put_len n) take_len (N.of_nat n).
Proof.
  intros out out' _ Hn%put_len_ok. exists (to_be_bytes 4 (N.of_nat n)).
  split_and!; [by apply writes_put_len..|by apply reads_take_len].
Qed.
Lemma codes_sized l : codes (put_len (length l);; put l) (put_len (length l);; put l) sized l.
Proof. eapply codes_bind; [apply codes_len|]. eapply codes_intro; [apply writes_put..|apply reads_take_bytes]. Qed.
Lemma codes_string s :
  portable_text s = true →
  codes (put_len (length (string_bytes s));; put (string_bytes s))
        (put_len (length (string_bytes s));; put (string_bytes s)) text s.
Proof.
  intros Hs%bool_decide_eq_true. eapply codes_last; [apply codes_sized|].
  unfold rust_string in Hs. unfold string_bytes. rewrite Hs, String.string_of_list_byte_of_string. apply reads_ret.
Qed.
(** A text after its tag. *)
Lemma codes_string_tag L tag (f : string → Immutable) s v :
  (tag < 256)%N → (∀ r, dispatch (value L) tag r = (s ← text; mret (f s)) r) → portable_text s = true → v = f s →
  codes (write_sized tag (string_bytes s)) (write_sized tag (string_bytes s)) (value (S L)) v.
Proof.
  intros Ht Hd Hs ->. apply codes_tag; [done|]. eapply codes_ext; [exact Hd|].
  eapply codes_last; [by apply codes_string|]. apply reads_ret.
Qed.
Lemma codes_fixed_tag {A} L tag (w : nat) n (f : N → A) (k : A → read Immutable) v :
  (tag < 256)%N → (n < 256 ^ N.of_nat w)%N →
  (∀ r, dispatch (value L) tag r = (l ← take_bytes (N.of_nat w); k (f (from_be_bytes l))) r) →
  reads (k (f n)) [] v →
  codes (push tag;; put (to_be_bytes w n)) (push tag;; put (to_be_bytes w n)) (value (S L)) v.
Proof.
  intros Ht Hn Hd Hk. apply codes_tag; [done|]. eapply codes_ext; [exact Hd|].
  eapply codes_intro; [apply writes_put..|].
  assert (reads (x ← (l ← take_bytes (N.of_nat w); mret (f (from_be_bytes l))); k x) (to_be_bytes w n) v) as H.
  { rewrite <-(app_nil_r (to_be_bytes w n)). eapply reads_bind; [by apply reads_fixed|done]. }
  intros pre suf Hl. specialize (H pre suf Hl). revert H. unfold mbind, prog_bind, mret, prog_ret.
  by destruct (take_bytes _ _) as [[] ].
Qed.

Section level.
Context (L : nat).
Hypothesis level : ∀ v, portable v = true → codes (encode_value L v) (encode_value L (normal L v)) (value L) (normal L v).

(** Bytes together with the normal value they stand for. *)
Definition good (x : list byte * Immutable) : Prop :=
  writes (encode_value L x.2) x.1 ∧ reads (value L) x.1 x.2 ∧ fits x.1.

Lemma bare_good v l :
  portable v = true → bare (encode_value L v) = Ok l →
  good (l, normal L v) ∧ writes (encode_value L v) l ∧ wire (encode_value L) v = l.
Proof.
  intros Hv Hb. unfold wire. rewrite Hb.
  assert (encode_value L v [] = (Ok tt, l)) as Hm.
  { revert Hb. unfold bare. destruct (encode_value L v []) as [[[]|] out]; [|done]. by intros [= ->]. }
  destruct (level v Hv [] l fits_nil Hm) as (e & Hw & Hw' & Hr).
  destruct (proj1 (Hw _ _ fits_nil) Hm) as [He Hl]. cbn in He. by subst e.
Qed.
Lemma bare_of_good x : good x → bare (encode_value L x.2) = Ok x.1.
Proof. intros (Hw & _ & Hf). by apply (writes_bare _ x.1). Qed.

Lemma each_good vs out out' :
  forallb portable vs = true → fits out → each (encode_value L) vs out = (Ok tt, out') →
  ∃ xs, Forall good xs ∧ xs.*2 = normal L <$> vs ∧ Forall2 (λ v e, writes (encode_value L v) e) vs xs.*1.
Proof.
  revert out. induction vs as [|v vs IH]; intros out Hv Ho Hm; [by exists []|].
  cbn in Hv. apply andb_true_iff in Hv as [Hv Hvs].
  cbn in Hm. apply prog_bind_ok in Hm as ([] & mid & Hm1 & Hm2).
  destruct (level v Hv _ _ Ho Hm1) as (e & Hw & Hw' & Hr). apply Hw in Hm1 as [-> Hmid]; [|done].
  destruct (IH _ Hvs Hmid Hm2) as (xs & Hxs & Hn & Hws). exists ((e, normal L v) :: xs).
  split_and!; [|cbn; by rewrite Hn|by constructor].
  constructor; [|done]. split_and!; [done..|]. by destruct (fits_app _ _ Hmid).
Qed.

Lemma reads_good xs :
  Forall good xs → (N.of_nat (length xs) ≤ U32_MAX)%N →
  reads (sequence (value L)) (to_be_bytes 4 (N.of_nat (length xs)) ++ concat xs.*1) xs.*2.
Proof.
  intros Hx Hn. rewrite <-(length_fmap snd xs). apply reads_sequence; [|by rewrite length_fmap].
  rewrite Forall2_fmap. apply Forall_Forall2_diag. eapply Forall_impl; [exact Hx|]. by intros x (_ & ? & _).
Qed.

Lemma writes_sequence tag vs es :
  Forall2 (λ v e, writes (encode_value L v) e) vs es → (N.of_nat (length vs) ≤ U32_MAX)%N →
  writes (encode_sequence (encode_value L) tag vs)
    (byte_of_N tag :: to_be_bytes 4 (N.of_nat (length vs)) ++ concat es).
Proof.
  intros H Hn. apply (writes_bind _ _ [_]); [apply writes_put|].
  apply writes_bind; [by apply writes_put_len|by apply writes_each].
Qed.

Lemma writes_good_sequence tag xs :
  Forall good xs → (N.of_nat (length xs) ≤ U32_MAX)%N →
  writes (encode_sequence (encode_value L) tag xs.*2)
    (byte_of_N tag :: to_be_bytes 4 (N.of_nat (length xs)) ++ concat xs.*1).
Proof.
  intros Hx Hn. rewrite <-(length_fmap snd xs). apply writes_sequence; [|by rewrite length_fmap].
  rewrite Forall2_fmap. apply Forall_Forall2_diag. eapply Forall_impl; [exact Hx|]. by intros x (? & _).
Qed.

(** The elements in their order. *)
Lemma codes_sequence tag k vs v :
  (tag < 256)%N → (∀ r, dispatch (value L) tag r = (sequence (value L) ≫= k) r) →
  forallb portable vs = true → reads (k (normal L <$> vs)) [] v →
  codes (encode_sequence (encode_value L) tag vs) (encode_sequence (encode_value L) tag (normal L <$> vs))
    (value (S L)) v.
Proof.
  intros Ht Hd Hv Hk. apply codes_tag; [done|]. eapply codes_ext; [exact Hd|].
  intros out out' Ho ([] & mid & Hl & Hm)%prog_bind_ok. pose proof (put_len_ok _ _ _ Hl) as Hn.
  apply (writes_put_len _ Hn) in Hl as [-> Hmid]; [|done].
  destruct (each_good _ _ _ Hv Hmid Hm) as (xs & Hx & Hxs & Hw).
  assert (length vs = length xs) as Hlen by (rewrite <-(length_fmap snd xs), Hxs; by rewrite length_fmap).
  rewrite length_fmap. exists (to_be_bytes 4 (N.of_nat (length vs)) ++ concat xs.*1). split_and!.
  - apply writes_bind; [by apply writes_put_len|by apply writes_each].
  - apply writes_bind; [by apply writes_put_len|]. apply writes_each. rewrite <-Hxs, Forall2_fmap.
    apply Forall_Forall2_diag. eapply Forall_impl; [exact Hx|]. by intros x (? & _).
  - rewrite Hlen in *. rewrite <-(app_nil_r (_ ++ _)). eapply reads_bind; [by apply reads_good|]. by rewrite Hxs.
Qed.

(** The elements sorted by their bytes, each once. *)
Lemma codes_unordered tag k vs v :
  (tag < 256)%N → (∀ r, dispatch (value L) tag r = (sequence (value L) ≫= k) r) →
  forallb portable vs = true →
  reads (k (sorted_values (encode_value L) (normal L) vs)) [] v →
  codes (encode_unordered_sequence (encode_value L) tag vs)
    (encode_unordered_sequence (encode_value L) tag (sorted_values (encode_value L) (normal L) vs))
    (value (S L)) v.
Proof.
  intros Ht Hd Hv Hk out out' Ho Hm.
  unfold encode_unordered_sequence in Hm at 1. apply prog_bind_ok in Hm as (es & s & [= Hes <-] & Hm).
  pose proof (proj1 (mapM_ok _ _ _) Hes) as Hes2.
  unfold sorted_values in *. set (P := (λ value, (wire (encode_value L) value, normal L value)) <$> vs) in *.
  assert (P.*1 = es ∧ Forall good P) as [HP Hgood].
  { subst P. clear -Hes2 Hv level. induction Hes2 as [|v e vs es Hb _ IH]; cbn; [done|].
    cbn in Hv. apply andb_true_iff in Hv as [Hv Hvs]. destruct (IH Hvs) as [-> ?].
    destruct (bare_good v e Hv Hb) as (? & _ & ->). split; [done|by constructor]. }
  set (Q := dedup_keys (merge_sort key_le P)) in *.
  assert (Q.*1 = dedup (merge_sort bytes_le es)) as HQ.
  { subst Q. rewrite dedup_keys_fst, <-HP. f_equal. by apply merge_sort_fmap. }
  assert (Forall good Q) as HgQ.
  { apply Forall_forall. intros x Hx%dedup_keys_sub. rewrite merge_sort_Permutation in Hx.
    by eapply Forall_forall in Hgood. }
  destruct (dedup_sorted (merge_sort bytes_le es)) as [Hs Hn]; [apply StronglySorted_merge_sort; apply _|].
  assert (mapM (λ value, bare (encode_value L value)) Q.*2 = Ok Q.*1) as HmQ.
  { apply mapM_ok. rewrite Forall2_fmap. apply Forall_Forall2_diag. eapply Forall_impl; [exact HgQ|].
    intros x. apply bare_of_good. }
  rewrite <-HQ in *. clearbody Q. clear P HP Hgood.
  apply prog_bind_ok in Hm as ([] & mid & Hp & ([] & mid' & Hl & Hm)%prog_bind_ok).
  apply put_len_ok in Hl. rewrite length_fmap in Hl.
  assert (writes (push tag;; put_len (length Q.*1);; each put Q.*1)
    (byte_of_N tag :: to_be_bytes 4 (N.of_nat (length Q)) ++ concat Q.*1)) as Hw.
  { apply (writes_bind _ _ [_]); [apply writes_put|]. rewrite length_fmap.
    apply writes_bind; [by apply writes_put_len|]. apply writes_each.
    apply Forall_Forall2_diag, Forall_true. intros x. apply writes_put. }
  exists (byte_of_N tag :: to_be_bytes 4 (N.of_nat (length Q)) ++ concat Q.*1). split_and!.
  - unfold encode_unordered_sequence. rewrite Hes. apply writes_lift. by rewrite <-HQ.
  - unfold encode_unordered_sequence. rewrite HmQ. apply writes_lift.
    by rewrite merge_sort_bytes, dedup_NoDup.
  - apply reads_tag; [done|]. rewrite <-(app_nil_r (_ ++ _)).
    assert (reads (sequence (value L) ≫= k) ((to_be_bytes 4 (N.of_nat (length Q)) ++ concat Q.*1) ++ []) v) as H.
    { eapply reads_bind; [by apply reads_good|done]. }
    intros pre suf. rewrite Hd. apply H.
Qed.
End level.

(** ** Maps *)
(** The bytes of a key, those of its value, and the normal forms. *)
Abbreviation quad := (list byte * (list byte * (Immutable * Immutable)))%type.
Definition entry_bytes (x : quad) : list byte * list byte := (x.1, x.2.1).
Definition entry_pair (x : quad) : Immutable * Immutable := x.2.2.
Definition keyed_pair (x : quad) : list byte * (Immutable * Immutable) := (x.1, x.2.2).
Definition body (l : list quad) : list byte := concat ((λ x, x.1 ++ x.2.1) <$> l).
Definition keyword (field : string * Immutable) : Immutable * Immutable := (PKeyword field.1, field.2).

Lemma keyword_keys l fields : mapM (M := option) keyword_key l = Some fields ↔ l = keyword <$> fields.
Proof.
  rewrite mapM_Some. split.
  - induction 1 as [|[k v] [s w] l fields H _ IH]; [done|]. destruct k; try done. injection H as <- <-. cbn. by f_equal.
  - intros ->. rewrite Forall2_fmap_l. apply Forall_Forall2_diag, Forall_true. by intros [].
Qed.

Lemma NoDup_keywords (g : string → list byte) (l : list quad) fields :
  entry_pair <$> l = keyword <$> fields → Forall (λ x, ∀ s, x.2.2.1 = PKeyword s → x.1 = g s) l →
  NoDup l.*1 → NoDup fields.*1.
Proof.
  intros He Hg. assert (l.*1 = g <$> fields.*1) as ->; [|apply NoDup_fmap_1].
  revert fields He. induction Hg as [|x l Hx _ IH]; intros [|f fields]; cbn; [done..|].
  intros [= Hp He]. f_equal; [|by apply IH]. apply Hx. unfold entry_pair in Hp. by rewrite Hp.
Qed.

Section map_level.
Context (L : nat).
Hypothesis level : ∀ v, portable v = true → codes (encode_value L v) (encode_value L (normal L v)) (value L) (normal L v).

Definition good_entry (x : quad) : Prop := good L (x.1, x.2.2.1) ∧ good L (x.2.1, x.2.2.2).

Lemma encode_entry_good x : good_entry x → encode_entry (encode_value L) (entry_pair x) = Ok (entry_bytes x).
Proof.
  intros [Hk Hv]. unfold encode_entry, entry_pair.
  apply bare_of_good in Hk, Hv. cbn in Hk, Hv. by rewrite Hk; cbn; rewrite Hv.
Qed.
Lemma encode_entries_good l :
  Forall good_entry l → mapM (encode_entry (encode_value L)) (entry_pair <$> l) = Ok (entry_bytes <$> l).
Proof.
  intros H. apply mapM_ok. rewrite Forall2_fmap. apply Forall_Forall2_diag. eapply Forall_impl; [exact H|].
  apply encode_entry_good.
Qed.

Lemma entries_good entries es :
  forallb (λ entry, portable entry.1 && portable entry.2) entries = true →
  mapM (encode_entry (encode_value L)) entries = Ok es →
  ∃ l : list quad, Forall good_entry l ∧ entry_bytes <$> l = es ∧
    keyed_pair <$> l = (λ entry, (wire (encode_value L) entry.1, norm_entry (normal L) entry)) <$> entries.
Proof.
  intros Hp Hes. apply mapM_ok in Hes. revert Hp.
  induction Hes as [|[k v] e entries es He _ IH]; intros Hp; [by exists []|].
  cbn in Hp. apply andb_true_iff in Hp as [[Hk Hv]%andb_true_iff Hp]. destruct (IH Hp) as (l & Hl & Hb & Hq).
  unfold encode_entry in He. cbn in He.
  apply result_bind_ok in He as (kb & Hkb & (vb & Hvb & [= <-])%result_bind_ok).
  destruct (bare_good L level k kb Hk Hkb) as (Hgk & _ & Hwk).
  destruct (bare_good L level v vb Hv Hvb) as (Hgv & _).
  exists ((kb, (vb, (normal L k, normal L v))) :: l). split_and!.
  - by constructor.
  - cbn. by rewrite Hb.
  - cbn. by rewrite Hq, Hwk.
Qed.

Lemma writes_entries l : writes (put_entries (entry_bytes <$> l)) (body l).
Proof.
  apply writes_each. rewrite Forall2_fmap. apply Forall_Forall2_diag, Forall_true. intros x.
  apply writes_bind; apply writes_put.
Qed.

Lemma reads_entries l :
  Forall good_entry l → (N.of_nat (length l) ≤ U32_MAX)%N →
  reads (entries (value L)) (to_be_bytes 4 (N.of_nat (length l)) ++ body l) (entry_pair <$> l).
Proof.
  intros Hl Hn. eapply reads_bind; [by apply reads_take_len|].
  assert (2 * length l ≤ length (body l)) as Hlen.
  { unfold body. clear Hn. induction Hl as [|x l [(_ & Hk%value_nonempty & _) (_ & Hv%value_nonempty & _)] _ IH]; [done|].
    cbn in *. rewrite !length_app. destruct x.1; [done|]. destruct x.2.1; [done|]. cbn. lia. }
  apply (reads_checked (λ x, x / 2)%N).
  - intros x y Hxy. by apply N.Div0.div_le_mono.
  - apply N.div_le_lower_bound; lia.
  - rewrite Nnat.Nat2N.id, <-(length_fmap entry_pair l). apply reads_times.
    rewrite Forall2_fmap. apply Forall_Forall2_diag. eapply Forall_impl; [exact Hl|].
    intros x [(_ & Hk & _) (_ & Hv & _)]. eapply reads_bind; [exact Hk|]. cbn.
    apply (reads_map (value L) (λ v, (x.2.2.1, v))) in Hv. unfold entry_pair. by destruct x as (? & ? & ? & ?).
Qed.

(** What is written for entries whose bytes are known. *)
Lemma writes_map tag entries (l0 l : list quad) canon :
  mapM (encode_entry (encode_value L)) entries = Ok (entry_bytes <$> l0) →
  l = (if canon : bool then merge_sort key_le l0 else l0) →
  adjacent_equal l.*1 = false → (N.of_nat (length l) ≤ U32_MAX)%N →
  writes (encode_map (encode_value L) tag entries canon)
    (byte_of_N tag :: to_be_bytes 4 (N.of_nat (length l)) ++ body l).
Proof.
  intros He Hl Ha Hn. unfold encode_map. rewrite He. apply writes_lift.
  assert ((if canon then merge_sort key_le (entry_bytes <$> l0) else entry_bytes <$> l0) = entry_bytes <$> l) as ->.
  { rewrite Hl. destruct canon; [|done]. symmetry. by apply merge_sort_fmap. }
  replace ((entry_bytes <$> l).*1) with l.*1 by by rewrite <-list_fmap_compose.
  rewrite Ha. apply (writes_bind _ _ [_]); [apply writes_put|].
  rewrite length_fmap. apply writes_bind; [by apply writes_put_len|apply writes_entries].
Qed.

Lemma map_runs tag entries canon out out' :
  forallb (λ entry, portable entry.1 && portable entry.2) entries = true → fits out →
  encode_map (encode_value L) tag entries canon out = (Ok tt, out') →
  ∃ l0 l : list quad,
    mapM (encode_entry (encode_value L)) entries = Ok (entry_bytes <$> l0) ∧
    l = (if canon : bool then merge_sort key_le l0 else l0) ∧ Forall good_entry l ∧
    adjacent_equal l.*1 = false ∧ (N.of_nat (length l) ≤ U32_MAX)%N ∧
    keyed_pair <$> l0 = (λ entry, (wire (encode_value L) entry.1, norm_entry (normal L) entry)) <$> entries.
Proof.
  intros Hp Ho Hm. unfold encode_map in Hm. apply prog_bind_ok in Hm as (es & s & [= Hes <-] & Hm).
  destruct (entries_good entries es Hp Hes) as (l0 & Hg & <- & Hk).
  exists l0, (if canon then merge_sort key_le l0 else l0).
  assert ((if canon then merge_sort key_le (entry_bytes <$> l0) else entry_bytes <$> l0) =
    entry_bytes <$> (if canon then merge_sort key_le l0 else l0)) as Heq.
  { destruct canon; [|done]. symmetry. by apply merge_sort_fmap. }
  rewrite Heq in Hm. rewrite length_fmap in Hm. set (l := if canon then _ else _) in *.
  assert (Forall good_entry l) as Hgl.
  { subst l. destruct canon; [|done]. by rewrite merge_sort_Permutation. }
  replace ((entry_bytes <$> l).*1) with l.*1 in Hm by by rewrite <-list_fmap_compose.
  destruct (adjacent_equal l.*1) eqn:Ha; [done|].
  apply prog_bind_ok in Hm as ([] & mid & _ & ([] & mid' & Hl & _)%prog_bind_ok).
  apply put_len_ok in Hl. by rewrite Hes.
Qed.

(** Entries in the order they are given. *)
Lemma codes_map_in_order tag (k : list (Immutable * Immutable) → read Immutable) values v :
  (tag < 256)%N → (∀ r, dispatch (value L) tag r = (entries (value L) ≫= k) r) →
  forallb (λ entry, portable entry.1 && portable entry.2) values = true →
  reads (k (norm_entry (normal L) <$> values)) [] v →
  codes (encode_map (encode_value L) tag values false)
    (encode_map (encode_value L) tag (norm_entry (normal L) <$> values) false) (value (S L)) v.
Proof.
  intros Ht Hd Hp Hk out out' Ho Hm.
  destruct (map_runs _ _ _ _ _ Hp Ho Hm) as (l0 & l & He & -> & Hg & Ha & Hn & Hq).
  assert (entry_pair <$> l0 = norm_entry (normal L) <$> values) as Hpairs.
  { apply (f_equal (fmap snd)) in Hq. by rewrite <-!list_fmap_compose in Hq. }
  exists (byte_of_N tag :: to_be_bytes 4 (N.of_nat (length l0)) ++ body l0). split_and!.
  - by apply (writes_map _ _ l0 l0 false).
  - apply (writes_map _ _ l0 l0 false); [|done..]. rewrite <-Hpairs. by apply encode_entries_good.
  - apply reads_tag; [done|]. rewrite <-(app_nil_r (_ ++ _)).
    assert (reads (entries (value L) ≫= k) ((to_be_bytes 4 (N.of_nat (length l0)) ++ body l0) ++ []) v) as H.
    { eapply reads_bind; [by apply reads_entries|]. by rewrite Hpairs. }
    intros pre suf. rewrite Hd. apply H.
Qed.

Lemma normal_keyword k : normal L (PKeyword k) = PKeyword k.
Proof. by destruct L. Qed.

Lemma writes_record fields (l0 : list quad) :
  mapM (encode_entry (encode_value L)) (keyword <$> fields) = Ok (entry_bytes <$> l0) →
  (N.of_nat (length fields) ≤ U32_MAX)%N →
  writes (encode_record (encode_value L) fields)
    (byte_of_N MAP :: to_be_bytes 4 (N.of_nat (length fields)) ++ body (merge_sort key_le l0)).
Proof.
  intros He Hn. unfold encode_record. apply (writes_bind _ _ [_]); [apply writes_put|].
  apply writes_bind; [by apply writes_put_len|].
  rewrite mapM_fmap_index in He. unfold keyword in He. rewrite He. apply writes_lift.
  assert (merge_sort key_le (entry_bytes <$> l0) = entry_bytes <$> merge_sort key_le l0) as ->
    by (symmetry; by apply merge_sort_fmap).
  apply writes_entries.
Qed.

(** A record whose entries were read in the order of their bytes. *)
Lemma reads_record l fields :
  Forall good_entry l → (N.of_nat (length l) ≤ U32_MAX)%N →
  entry_pair <$> l = keyword <$> fields → NoDup fields.*1 →
  reads (value (S L)) (byte_of_N MAP :: to_be_bytes 4 (N.of_nat (length l)) ++ body l) (PRecord (btree_of fields)).
Proof.
  intros Hg Hn Hp Hd. apply reads_tag; [done|]. rewrite <-(app_nil_r (_ ++ _)).
  change (dispatch (value L) MAP) with (map_value (value L) MAP).
  eapply reads_bind; [by apply reads_entries|].
  change (MAP =? MAP)%N with true. cbn [andb].
  rewrite (proj2 (keyword_keys _ fields) Hp), record_from_ok by done. apply reads_ret.
Qed.

Lemma codes_record fields :
  ordered fields → forallb (λ field, portable_text field.1 && portable field.2) fields = true →
  codes (encode_record (encode_value L) fields) (encode_record (encode_value L) (prod_map id (normal L) <$> fields))
    (value (S L)) (PRecord (prod_map id (normal L) <$> fields)).
Proof.
  intros Hord Hp out out' Ho Hm. set (fields' := prod_map id (normal L) <$> fields) in *.
  unfold encode_record in Hm at 1.
  apply prog_bind_ok in Hm as ([] & mid & _ & ([] & mid' & Hn%put_len_ok & (es & s & [= Hes <-] & _)%prog_bind_ok)%prog_bind_ok).
  rewrite <-(mapM_fmap_index keyword) in Hes.
  destruct (entries_good (keyword <$> fields) es) as (l0 & Hg & <- & Hq); [|done|].
  { apply forallb_Forall, Forall_fmap. apply forallb_Forall in Hp. exact Hp. }
  assert (entry_pair <$> l0 = keyword <$> fields') as Hpairs.
  { apply (f_equal (fmap snd)) in Hq. rewrite <-!list_fmap_compose in Hq.
    subst fields'. rewrite <-list_fmap_compose. etrans; [exact Hq|]. apply list_fmap_ext. intros i [k v] _.
    cbn. unfold norm_entry, keyword. cbn. by rewrite normal_keyword. }
  assert (length l0 = length fields) as Hlen.
  { rewrite <-(length_fmap entry_pair l0), Hpairs. subst fields'. by rewrite !length_fmap. }
  assert (length (merge_sort key_le l0) = length fields) as Hlen'.
  { rewrite <-Hlen. apply Permutation_length, merge_sort_Permutation. }
  exists (byte_of_N MAP :: to_be_bytes 4 (N.of_nat (length fields)) ++ body (merge_sort key_le l0)). split_and!.
  - by apply writes_record.
  - rewrite <-(length_fmap (prod_map id (normal L)) fields). apply writes_record; [|by rewrite length_fmap].
    fold fields'. rewrite <-Hpairs. by apply encode_entries_good.
  - assert (ordered fields') as Hord'.
    { destruct Hord as [Hs Hnd]. subst fields'. split.
      - rewrite <-list_fmap_compose. change (key_bytes ∘ prod_map id (normal L)) with
          ((λ x : list byte * (string * Immutable), (x.1, prod_map id (normal L) x.2)) ∘ key_bytes).
        rewrite list_fmap_compose. by eapply StronglySorted_fmap; [|exact Hs].
      - by rewrite <-list_fmap_compose. }
    assert (∃ fs, entry_pair <$> merge_sort key_le l0 = keyword <$> fs ∧ fs ≡ₚ fields') as (fs & Hfs & Hperm).
    { destruct (Permutation_map_inv keyword fields' (l1 := entry_pair <$> merge_sort key_le l0)) as (fs & H1 & H2).
      - change (map keyword fields') with (keyword <$> fields'). by rewrite <-Hpairs, merge_sort_Permutation.
      - exists fs. by split; [|symmetry]. }
    rewrite <-(btree_of_id fields' fs Hord' Hperm), <-Hlen'. apply reads_record.
    + by rewrite merge_sort_Permutation.
    + by rewrite Hlen'.
    + done.
    + rewrite Hperm. apply Hord'.
Qed.

Lemma codes_map_sorted entries :
  forallb (λ entry, portable entry.1 && portable entry.2) entries = true →
  codes (encode_map (encode_value L) MAP entries true)
    (encode_value (S L) (normal (S L) (PMap entries))) (value (S L)) (normal (S L) (PMap entries)).
Proof.
  intros Hp out out' Ho Hm. cbn [normal normal_step].
  destruct (map_runs _ _ _ _ _ Hp Ho Hm) as (l0 & l & He & Hl & Hg & Ha & Hn & Hq).
  assert (sorted_entries (encode_value L) (normal L) entries = entry_pair <$> l) as ->.
  { unfold sorted_entries. rewrite <-Hq, Hl.
    rewrite <-(merge_sort_fmap key_le key_le keyed_pair) by done. by rewrite <-list_fmap_compose. }
  assert (StronglySorted key_le l) as Hs by (rewrite Hl; apply StronglySorted_merge_sort; apply _).
  assert (NoDup l.*1) as Hnd.
  { apply adjacent_equal_sorted; [|done]. by eapply StronglySorted_fmap; [|exact Hs]. }
  exists (byte_of_N MAP :: to_be_bytes 4 (N.of_nat (length l)) ++ body l).
  split; [by apply (writes_map _ _ l0 l true)|].
  destruct (mapM (M := option) keyword_key (entry_pair <$> l)) as [fields|] eqn:Hkey.
  - pose proof (proj1 (keyword_keys _ _) Hkey) as Hpairs.
    assert (NoDup fields.*1) as Hnf.
    { apply (NoDup_keywords (λ s, wire (encode_value L) (PKeyword s)) l); [done| |done].
      eapply Forall_impl; [exact Hg|]. intros x [Hk _] s Hxs.
      apply bare_of_good in Hk. cbn in Hk. rewrite Hxs in Hk. unfold wire. by rewrite Hk. }
    destruct (btree_of_ordered fields Hnf) as [_ Hperm].
    split; [|by apply reads_record].
    destruct (Permutation_map_inv entry_pair l (l1 := keyword <$> btree_of fields)) as (l1 & Hl1 & Hp1).
    { change (map entry_pair l) with (entry_pair <$> l). by rewrite Hpairs, Hperm. }
    assert (merge_sort key_le l1 = l) as <-.
    { apply merge_sort_key; [done..|by symmetry]. }
    rewrite (Permutation_length (merge_sort_Permutation key_le l1)).
    assert (length (btree_of fields) = length l1) as <-.
    { rewrite <-(length_fmap keyword), Hl1. apply length_map. }
    apply writes_record.
    + rewrite Hl1. apply encode_entries_good. by rewrite <-Hp1.
    + rewrite Hperm, <-(length_fmap keyword fields), <-Hpairs. by rewrite length_fmap.
  - split.
    + apply (writes_map _ _ l l true); [by apply encode_entries_good|symmetry; by apply merge_sort_key|done..].
    + apply reads_tag; [done|]. rewrite <-(app_nil_r (_ ++ _)).
      change (dispatch (value L) MAP) with (map_value (value L) MAP).
      eapply reads_bind; [by apply reads_entries|].
      change (MAP =? MAP)%N with true. cbn [andb]. rewrite Hkey. apply reads_ret.
Qed.
End map_level.

(** ** Scalars with a normal form *)
Lemma ascii_utf8 l : Forall (λ b, (Byte.to_N b < 128)%N) l → utf8_valid l = true.
Proof.
  induction 1 as [|b l Hb _ IH]; [done|]. cbn [utf8_valid].
  assert (within 0 127 b = true) as ->; [|done].
  unfold within. apply andb_true_iff. rewrite !N.leb_le. lia.
Qed.
Lemma ascii_codes_text l : Forall (λ c, (c < 256)%N) l → ascii_codes (codes_text l) = l.
Proof.
  intros H. unfold ascii_codes, codes_text, string_bytes. rewrite String.list_byte_of_string_of_list_byte.
  rewrite <-list_fmap_compose. induction H as [|c l Hc _ IH]; [done|]. cbn. rewrite IH.
  by rewrite to_N_byte_of_N, N.mod_small.
Qed.
Lemma codes_portable l : Forall (λ c, (c < 128)%N) l → portable_text (codes_text l) = true.
Proof.
  intros H. apply bool_decide_eq_true. unfold rust_string, codes_text.
  rewrite String.list_byte_of_string_of_list_byte. apply ascii_utf8, Forall_fmap.
  eapply Forall_impl; [exact H|]. intros c Hc. change (Byte.to_N (byte_of_N c) < 128)%N.
  cbv beta in Hc.   rewrite to_N_byte_of_N, N.mod_small; lia.
Qed.

Lemma all_digits_Forall l : all_digits l = true ↔ Forall (λ c, is_ascii_digit c = true) l.
Proof. apply forallb_Forall. Qed.
Lemma trim_zeros_digits l : all_digits l = true → all_digits (trim_zeros l) = true.
Proof.
  induction l as [|c l IH]; [done|]. cbn [all_digits forallb trim_zeros]. intros [Hc Hl]%andb_true_iff.
  destruct (c =? ch "0")%N; [by apply IH|]. unfold all_digits. cbn. by rewrite Hc.
Qed.
Lemma trim_zeros_idemp l : trim_zeros (trim_zeros l) = trim_zeros l.
Proof.
  induction l as [|c l IH]; [done|]. cbn [trim_zeros]. destruct (c =? ch "0")%N eqn:Hc; [done|]. cbn [trim_zeros]. by rewrite Hc.
Qed.

(** The sign and the digits of a decimal text, without leading zeros. *)
Definition canonical_digits (l : list N) : list N := match trim_zeros l with [] => [ch "0"] | l => l end.
Lemma canonical_digits_ok l :
  all_digits l = true →
  all_digits (canonical_digits l) = true ∧ nonempty (canonical_digits l) = true ∧
  canonical_digits (canonical_digits l) = canonical_digits l.
Proof.
  intros Hl. unfold canonical_digits. pose proof (trim_zeros_digits l Hl) as Ht.
  pose proof (trim_zeros_idemp l) as Hi. destruct (trim_zeros l) as [|c k]; [done|]. by rewrite Hi.
Qed.

Definition signed (negative : bool) (digits : list N) : list N :=
  if negative && bool_decide (digits ≠ [ch "0"]) then ch "-" :: digits else digits.
Definition compact (l : list N) : Immutable :=
  match parse_i64 l with Some value => PInteger value | None => PBigInteger (codes_text l) end.

(** [canonical_big_integer] by its sign and digits. *)
Lemma canonical_big_integer_signed negative digits s :
  ascii_codes s = (if negative : bool then [ch "-"] else []) ++ digits →
  (negative = false → match digits with c :: _ => (c =? ch "-")%N = false | [] => True end) →
  canonical_big_integer s =
    if negb (nonempty digits) || negb (all_digits digits) then malformed "invalid big integer"
    else Ok (compact (signed negative (canonical_digits digits))).
Proof.
  intros Hs Hd. unfold canonical_big_integer. rewrite Hs.
  assert (match (if negative then [ch "-"] else []) ++ digits with
          | c :: rest => if (c =? ch "-")%N then (true, rest) else (false, (if negative then [ch "-"] else []) ++ digits)
          | [] => (false, [])
          end = (negative, digits)) as ->.
  { destruct negative; [reflexivity|]. specialize (Hd eq_refl). destruct digits as [|c l]; [reflexivity|]. cbn [app]. by rewrite Hd. }
  destruct (_ || _); [done|]. unfold compact, signed, canonical_digits.
  by destruct (trim_zeros digits), (parse_i64 _).
Qed.

Lemma canonical_big_integer_ok s v :
  canonical_big_integer s = Ok v →
  ∃ negative digits, all_digits digits = true ∧ nonempty digits = true ∧
    canonical_digits digits = digits ∧ v = compact (signed negative digits).
Proof.
  intros H.
  assert (∃ negative digits, ascii_codes s = (if negative : bool then [ch "-"] else []) ++ digits ∧
    (negative = false → match digits with c :: _ => (c =? ch "-")%N = false | [] => True end)) as (negative & digits & H1 & H2).
  { destruct (ascii_codes s) as [|c l]; [by exists false, []|].
    destruct (c =? ch "-")%N eqn:Hc; [apply N.eqb_eq in Hc as ->; by exists true, l|by exists false, (c :: l)]. }
  rewrite (canonical_big_integer_signed negative digits s H1 H2) in H.
  destruct (negb (nonempty digits) || negb (all_digits digits)) eqn:Hb; [done|].
  apply orb_false_iff in Hb as [_ Hb%negb_false_iff].
  destruct (canonical_digits_ok digits Hb) as (Ha & Hn & Hc).
  injection H as <-. by exists negative, (canonical_digits digits).
Qed.

Lemma signed_small negative digits : all_digits digits = true → Forall (λ c, (c < 128)%N) (signed negative digits).
Proof.
  intros H%all_digits_Forall. assert (Forall (λ c, (c < 128)%N) digits) as Hd.
  { eapply Forall_impl; [exact H|]. intros c Hc%is_ascii_digit_spec. lia. }
  unfold signed. destruct (_ && _); [constructor; [by vm_compute|done]|done].
Qed.

(** The integer of a text is at its width, or the text is canonical. *)
Lemma canonical_big_integer_cases s v :
  canonical_big_integer s = Ok v →
  (∃ z, v = PInteger z ∧ in_i64 z = true) ∨
  (∃ t, v = PBigInteger t ∧ portable_text t = true ∧ canonical_big_integer t = Ok (PBigInteger t)).
Proof.
  intros (negative & digits & Ha & Hn & Hc & ->)%canonical_big_integer_ok. unfold compact.
  destruct (parse_i64 (signed negative digits)) as [z|] eqn:Hp.
  - left. exists z. split; [done|]. revert Hp. unfold parse_i64. destruct (strip_sign _) as [s' l].
    destruct l as [|d l]; [done|]. destruct (digits_value 10 _) as [n|]; [|done]. cbn. unfold to_i64.
    destruct (in_i64 _) eqn:Hz; [|done]. by intros [= <-].
  - right. exists (codes_text (signed negative digits)).
    pose proof (signed_small negative digits Ha) as Hs.
    split_and!; [done|by apply codes_portable|].
    rewrite (canonical_big_integer_signed (negative && bool_decide (digits ≠ [ch "0"])) digits).
    + rewrite Ha, Hn. cbn [negb orb]. rewrite Hc. f_equal.
      assert (signed (negative && bool_decide (digits ≠ [ch "0"])) digits = signed negative digits) as ->.
      { unfold signed. by destruct negative, (bool_decide _). }
      unfold compact. by rewrite Hp.
    + rewrite ascii_codes_text by (eapply Forall_impl; [exact Hs|]; cbn; lia).
      unfold signed. by destruct (negative && _).
    + intros _. destruct digits as [|c l]; [done|]. unfold all_digits in Ha. cbn in Ha.
      apply andb_true_iff in Ha as [Hd%is_ascii_digit_spec _]. apply N.eqb_neq. change (ch "-") with 45%N. lia.
Qed.

(** *** Provenance *)
Lemma site_value_eq site :
  site_value site = PRecord [("column"%string, PInteger (u64_as_i64 (column site)));
    ("line"%string, PInteger (u64_as_i64 (line site)));
    ("namespace"%string, optional_text (namespace site)); ("resource"%string, optional_text (resource site))].
Proof. reflexivity. Qed.
Lemma provenance_value_eq p :
  provenance_value p = PRecord [("ex/created-at"%string, from_option site_value PNil (created_at p));
    ("ex/throws"%string, PVector (site_value <$> throws p))].
Proof. by destruct p as [[] ]. Qed.

Lemma portable_line n : (n <? 2 ^ 63)%N = true → in_i64 (u64_as_i64 n) = true ∧ u64_as_i64 n = Z.of_N n.
Proof.
  unfold u64_as_i64. intros Hn. rewrite Hn. apply N.ltb_lt in Hn. split; [|done].
  unfold in_i64, I64_MIN, I64_MAX. apply andb_true_iff. rewrite !Z.leb_le. change (2 ^ 63)%N with 9223372036854775808%N in Hn. lia.
Qed.
Lemma portable_optional o :
  match o with Some s => portable_text s | None => true end = true → portable (optional_text o) = true.
Proof. by destruct o. Qed.

Lemma portable_site_value site : portable_site site = true → portable (site_value site) = true.
Proof.
  unfold portable_site. intros [[[Hn Hr]%andb_true_iff Hl]%andb_true_iff Hc]%andb_true_iff.
  rewrite site_value_eq. cbn [portable forallb fst snd].
  rewrite !portable_optional by done. destruct (portable_line _ Hl) as [-> _], (portable_line _ Hc) as [-> _].
  rewrite !andb_true_r. apply bool_decide_eq_true. split; [|apply (bool_decide_eq_true_1 _); by vm_compute].
  repeat (constructor; [|repeat (constructor; [by vm_compute|]); constructor]). constructor.
Qed.
Lemma portable_provenance_value p : portable_provenance p = true → portable (provenance_value p) = true.
Proof.
  unfold portable_provenance. intros [Hc Ht]%andb_true_iff. rewrite provenance_value_eq.
  cbn [portable forallb fst snd].
  assert (portable (from_option site_value PNil (created_at p)) = true) as ->
    by (destruct (created_at p); [by apply portable_site_value|done]).
  assert (forallb portable (site_value <$> throws p) = true) as ->.
  { apply forallb_Forall in Ht. apply forallb_Forall, Forall_fmap. eapply Forall_impl; [exact Ht|].
    intros site. apply portable_site_value. }
  rewrite !andb_true_r. apply bool_decide_eq_true. split; [|apply (bool_decide_eq_true_1 _); by vm_compute].
  repeat (constructor; [|repeat (constructor; [by vm_compute|]); constructor]). constructor.
Qed.

Lemma decode_site_value site : portable_site site = true → decode_site (site_value site) = Ok site.
Proof.
  unfold portable_site. intros [[[Hn Hr]%andb_true_iff Hl]%andb_true_iff Hc]%andb_true_iff.
  rewrite site_value_eq. destruct (portable_line _ Hl) as [_ ->], (portable_line _ Hc) as [_ ->].
  destruct site as [n r l c]. cbn [namespace resource line column]. unfold decode_site, btree_get.
  by destruct n, r, l, c.
Qed.
Lemma decode_provenance_value p : portable_provenance p = true → decode_provenance (provenance_value p) = Ok p.
Proof.
  unfold portable_provenance. intros [Hc Ht]%andb_true_iff. rewrite provenance_value_eq.
  destruct p as [created thrown]. cbn [created_at throws] in *.
  assert (mapM decode_site (site_value <$> thrown) = Ok thrown) as Hm.
  { apply mapM_ok. rewrite Forall2_fmap_l. apply Forall_Forall2_diag. apply forallb_Forall in Ht.
    eapply Forall_impl; [exact Ht|]. intros site. apply decode_site_value. }
  unfold decode_provenance, btree_get. cbn [find fst snd].
  change (bool_decide ("ex/created-at" = "ex/created-at")%string) with true.
  change (bool_decide ("ex/created-at" = "ex/throws")%string) with false.
  change (bool_decide ("ex/throws" = "ex/throws")%string) with true. cbn [fmap option_fmap option_map length Nat.eqb negb snd].
  destruct created as [site|]; cbn [from_option].
  - assert (∀ v, decode_site v = Ok site →
      match v with PNil => Ok None | value => Some <$> decode_site value end = Ok (Some site)) as Hs.
    { intros v Hv. destruct v; try done; by rewrite Hv. }
    rewrite (Hs _ (decode_site_value site Hc)). cbn. by rewrite Hm.
  - cbn. by rewrite Hm.
Qed.

Lemma normal_record L fields : normal L (PRecord fields) = PRecord (prod_map id (normal (pred L)) <$> fields).
Proof.
  destruct L; [|done]. cbn. f_equal. symmetry. etrans; [|apply list_fmap_id]. apply list_fmap_ext. by intros ? [] _.
Qed.
Lemma normal_vector L values : normal L (PVector values) = PVector (normal (pred L) <$> values).
Proof. destruct L; [|done]. cbn. f_equal. symmetry. apply list_fmap_id. Qed.
Lemma normal_optional L o : normal L (optional_text o) = optional_text o.
Proof. by destruct L, o. Qed.
Lemma normal_site_value L site : normal L (site_value site) = site_value site.
Proof.
  rewrite site_value_eq, normal_record. cbn. unfold prod_map. cbn. rewrite !normal_optional. by destruct (pred L).
Qed.
Lemma normal_provenance_value L p : normal L (provenance_value p) = provenance_value p.
Proof.
  rewrite provenance_value_eq, normal_record. cbn [fmap list_fmap prod_map fst snd id]. unfold prod_map. cbn [fst snd id].
  rewrite normal_vector. repeat f_equal.
  - destruct (created_at p); [apply normal_site_value|by destruct (pred L)].
  - rewrite <-list_fmap_compose. apply list_fmap_ext. intros ? site _. apply normal_site_value.
Qed.

(** ** Every value *)
Lemma codes_guard {A} (b : bool) m m' (r : read A) err v :
  (b = false → codes m m' r v) → codes (if b then fail err else m) m' r v.
Proof. destruct b; [intros _; apply codes_fail|by intros H; apply H]. Qed.
Lemma codes_at {A} m m' (r : read A) v v' : v = v' → codes m m' r v → codes m m' r v'.
Proof. by intros ->. Qed.

Lemma be_u64 z : (i64_as_u64 z < 256 ^ N.of_nat 8)%N.
Proof. unfold i64_as_u64. pose proof (Z.mod_pos_bound z (2 ^ 64)). cbn. lia. Qed.
Lemma in_i64_range z : in_i64 z = true → (- 2 ^ 63 ≤ z < 2 ^ 63)%Z.
Proof. unfold in_i64, I64_MIN, I64_MAX. intros [H1%Z.leb_le H2%Z.leb_le]%andb_true_iff. lia. Qed.
Lemma codes_integer L z :
  in_i64 z = true →
  codes (push I64;; put (to_be_bytes 8 (i64_as_u64 z))) (push I64;; put (to_be_bytes 8 (i64_as_u64 z)))
    (value (S L)) (PInteger z).
Proof.
  intros Hz. apply (codes_fixed_tag L I64 8 (i64_as_u64 z) u64_as_i64 (λ z, mret (PInteger z))); [done|apply be_u64|done|].
  rewrite i64_u64_i64 by by apply in_i64_range. apply reads_ret.
Qed.

Lemma is_map_normal L data :
  match data with PMap _ | PRecord _ => true | _ => false end = true →
  match normal L data with PMap _ | PRecord _ => true | _ => false end = true.
Proof.
  destruct data; try done; intros _; destruct L; try done. cbn. by destruct (mapM _ _).
Qed.
Lemma is_exception_normal L cause :
  match cause with Some (PExceptionInfo _ _ _ _) | None => false | _ => true end = false →
  match normal L <$> cause with Some (PExceptionInfo _ _ _ _) | None => false | _ => true end = false.
Proof. destruct cause as [[] |]; try done; by destruct L. Qed.

Lemma normal_scalar L v :
  match v with PString _ | PKeyword _ | PSymbol _ | PNil => true | _ => false end = true → normal L v = v.
Proof. by destruct v, L. Qed.

Section step.
Context (L : nat).
Hypothesis level : ∀ v, portable v = true → codes (encode_value L v) (encode_value L (normal L v)) (value L) (normal L v).

(** A value one level down whose normal form is known. *)
Lemma level_at v v' : portable v = true → normal L v = v' →
  codes (encode_value L v) (encode_value L v') (value L) v'.
Proof. intros Hv <-. by apply level. Qed.

Lemma codes_cause message data cause provenance :
  portable_provenance provenance = true →
  match data with PMap _ | PRecord _ => true | _ => false end = true →
  match cause with Some (PExceptionInfo _ _ _ _) | None => false | _ => true end = false →
  codes (encode_value L (provenance_value provenance)) (encode_value L (provenance_value provenance))
    (cause ← match default PNil cause with
             | PNil => mret None
             | PExceptionInfo _ _ _ _ => mret (Some (default PNil cause))
             | _ => lift (malformed "invalid exception cause")
             end;
     if negb match data with PMap _ | PRecord _ => true | _ => false end then
       lift (malformed "invalid exception data")
     else
       provenance ← value L;
       provenance ← lift (decode_provenance provenance);
       mret (PExceptionInfo message data cause provenance))
    (PExceptionInfo message data cause provenance).
Proof.
  intros Hp Hd Hc.
  apply (codes_ext _ _ (provenance ← value L; provenance ← lift (decode_provenance provenance);
    mret (PExceptionInfo message data cause provenance))).
  { intros s. rewrite Hd. destruct cause as [[] |]; done. }
  eapply codes_last.
  - apply level_at; [by apply portable_provenance_value|apply normal_provenance_value].
  - rewrite decode_provenance_value by done. apply reads_ret.
Qed.

Lemma codes_exception message data cause provenance :
  portable (PExceptionInfo message data cause provenance) = true →
  codes (encode_value (S L) (PExceptionInfo message data cause provenance))
    (encode_value (S L) (normal (S L) (PExceptionInfo message data cause provenance))) (value (S L))
    (normal (S L) (PExceptionInfo message data cause provenance)).
Proof.
  cbn [portable]. intros [[[Hm Hd]%andb_true_iff Hc]%andb_true_iff Hp]%andb_true_iff.
  cbn [normal normal_step encode_value encode_step].
  apply codes_guard. intros Hdata%negb_false_iff. apply codes_guard. intros Hcause.
  apply (is_map_normal L) in Hdata. apply (is_exception_normal L) in Hcause.
  rewrite Hdata, Hcause. cbn [negb]. apply codes_tag; [done|].
  change (dispatch (value L) EXCEPTION_INFO) with (exception_info (value L)).
  eapply codes_bind; [by apply (level_at (PString message) (PString message)); [|apply normal_scalar]|].
  eapply codes_bind; [by apply level|].
  eapply codes_bind.
  { apply (level_at _ (default PNil (normal L <$> cause))).
    - by destruct cause.
    - destruct cause; [done|]. by apply normal_scalar. }
  by apply codes_cause.
Qed.

Lemma normal_strings fields : normal L (PVector (PString <$> fields)) = PVector (PString <$> fields).
Proof.
  rewrite normal_vector. f_equal. rewrite <-list_fmap_compose. apply list_fmap_ext. intros i s _. by destruct (pred L).
Qed.
Lemma portable_strings fields : forallb portable_text fields = true → portable (PVector (PString <$> fields)) = true.
Proof. intros H%forallb_Forall. apply forallb_Forall, Forall_fmap. exact H. Qed.

Lemma codes_structure name fields values :
  portable (PStruct name fields values) = true →
  codes (encode_value (S L) (PStruct name fields values))
    (encode_value (S L) (normal (S L) (PStruct name fields values))) (value (S L))
    (normal (S L) (PStruct name fields values)).
Proof.
  cbn [portable]. intros [[Hn Hf]%andb_true_iff Hv]%andb_true_iff.
  cbn [normal normal_step encode_value encode_step]. rewrite length_fmap.
  apply codes_guard. intros Hlen. rewrite Hlen. apply codes_tag; [done|].
  change (dispatch (value L) STRUCT) with (structure (value L)).
  eapply codes_bind; [by apply (level_at (PString name) (PString name)); [|apply normal_scalar]|].
  eapply codes_bind; [apply level_at; [by apply portable_strings|apply normal_strings]|].
  assert (mapM struct_field (PString <$> fields) = Ok fields) as Hm.
  { apply mapM_ok. rewrite Forall2_fmap_l. by apply Forall_Forall2_diag, Forall_true. }
  cbn beta iota. rewrite Hm.
  apply (codes_ext _ _ (values ← value L;
          match values with
          | PVector values =>
              if negb (length fields =? length values)%nat then lift (malformed "struct arity mismatch")
              else mret (PStruct name fields values)
          | _ => lift (malformed "invalid struct values")
          end)); [done|].
  eapply codes_last; [apply (level_at (PVector values)); [done|apply normal_vector]|].
  cbn beta iota. rewrite length_fmap, Hlen. apply reads_ret.
Qed.

Lemma codes_pointer context fields :
  portable (PPointer context fields) = true →
  codes (encode_value (S L) (PPointer context fields))
    (encode_value (S L) (normal (S L) (PPointer context fields))) (value (S L))
    (normal (S L) (PPointer context fields)).
Proof.
  cbn [portable]. intros [[Hc Ho]%andb_true_iff Hf]%andb_true_iff.
  destruct (decide (L = 0)) as [HL|HL].
  { rewrite HL. by intros out out' _ ([] & mid & _ & ([] & mid' & [=] & _)%prog_bind_ok)%prog_bind_ok. }
  cbn [normal normal_step encode_value encode_step]. apply codes_tag; [done|].
  change (dispatch (value L) POINTER) with
    (context ← value L;
      match context with
      | PKeyword context =>
          fields ← value L;
          match fields with
          | PRecord fields => mret (PPointer context fields)
          | _ => lift (malformed "invalid pointer fields")
          end
      | _ => lift (malformed "invalid pointer context")
      end).
  eapply codes_bind; [by apply (level_at (PKeyword context) (PKeyword context)); [|apply normal_scalar]|].
  cbn beta iota.
  destruct L as [|L']; [done|]. eapply codes_last.
  - apply (codes_at _ _ _ (normal (S L') (PRecord fields))); [apply normal_record|].
    assert (portable (PRecord fields) = true) as Hr by (cbn [portable]; by rewrite Ho, Hf).
    pose proof (level _ Hr) as H. rewrite normal_record in H |- *. exact H.
  - apply reads_ret.
Qed.
End step.

Lemma codes_big_integer L s :
  codes (encode_value (S L) (PBigInteger s)) (encode_value (S L) (normal (S L) (PBigInteger s))) (value (S L))
    (normal (S L) (PBigInteger s)).
Proof.
  cbn [normal normal_step]. destruct (canonical_big_integer s) as [v|] eqn:Hc.
  - destruct (canonical_big_integer_cases s v Hc) as [(z & -> & Hz)|(t & -> & Ht & Hct)].
    + intros out out' Ho Hm. cbn [encode_value encode_step] in *. rewrite Hc in *.
      destruct (codes_integer L z Hz out out' Ho Hm) as (e & ? & ? & ?). by exists e.
    + intros out out' Ho Hm. cbn [encode_value encode_step] in *. rewrite Hc, Hct in *.
      assert (codes (write_sized BIG_INTEGER (string_bytes t)) (write_sized BIG_INTEGER (string_bytes t)) (value (S L)) (PBigInteger t)) as H.
      { apply codes_tag; [done|].
        change (dispatch (value L) BIG_INTEGER) with (s ← text; lift (canonical_big_integer s)).
        eapply codes_last; [by apply codes_string|]. rewrite Hct. apply reads_ret. }
      destruct (H out out' Ho Hm) as (e & ? & ? & ?). by exists e.
  - intros out out' _ Hm. cbn [encode_value encode_step] in Hm. by rewrite Hc in Hm.
Qed.

(** The bytes written for a value are read as its normal form, which has the same bytes. *)
Lemma codes_value L v :
  portable v = true → codes (encode_value L v) (encode_value L (normal L v)) (value L) (normal L v).
Proof.
  revert v. induction L as [|L level]; intros v Hv; [apply codes_fail|].
  destruct v; cbn [portable] in Hv; try (by apply codes_exception); try (by apply codes_structure);
    try (by apply codes_pointer); try (by apply codes_map_sorted);
    cbn [normal normal_step encode_value encode_step].
  - by apply codes_bare_tag; [|apply reads_ret].
  - destruct value; by apply codes_bare_tag; [|apply reads_ret].
  - by apply (codes_string_tag L STRING PString).
  - by apply codes_integer.
  - apply codes_guard. intros Hf. rewrite Hf.
    apply (codes_fixed_tag L F64 8 bits id
      (λ bits, if negb (is_finite bits) then fail (Failed "hta/non-finite number") else mret (PFloat bits)));
      [done| |done|unfold id; rewrite Hf; apply reads_ret].
    apply N.leb_le in Hv. unfold U64_MAX in Hv. cbn. lia.
  - apply (codes_fixed_tag L CHARACTER 4 value id
      (λ c, if scalar c then mret (PCharacter c) else lift (malformed "invalid character scalar")));
      [done| |done|unfold id; rewrite Hv; apply reads_ret].
    unfold scalar in Hv. apply orb_true_iff in Hv as [Hv%N.ltb_lt|[_ Hv%N.leb_le]%andb_true_iff]; cbn; lia.
  - by apply codes_big_integer.
  - by apply (codes_string_tag L REGEX PRegex).
  - apply codes_tag; [done|]. change (dispatch (Portable.value L) BYTES) with (l ← sized; mret (PBytes l)).
    eapply codes_last; [apply codes_sized|apply reads_ret].
  - by apply (codes_string_tag L KEYWORD PKeyword).
  - by apply (codes_string_tag L SYMBOL PSymbol).
  - by apply (codes_sequence L level LIST (λ l, mret (PList l))); [| | |apply reads_ret].
  - by apply (codes_sequence L level VECTOR (λ l, mret (PVector l))); [| | |apply reads_ret].
  - unfold encode_map_entry. rewrite length_fmap. apply codes_guard. intros Hl. rewrite Hl.
    apply (codes_sequence L level MAP_ENTRY (λ l, if negb (length l =? 2)%nat
      then lift (malformed "map entry must contain two values") else mret (PMapEntry l))); [done..|].
    rewrite length_fmap, Hl. apply reads_ret.
  - by apply (codes_sequence L level VECTOR (λ l, mret (PVector l))); [| | |apply reads_ret].
  - apply andb_true_iff in Hv as [Hn Hv].
    apply (codes_sequence L level CONS (λ l, if nonempty l then mret (PCons l) else lift (malformed "empty cons"))); [done..|].
    destruct values; [done|]. apply reads_ret.
  - by apply (codes_sequence L level QUEUE (λ l, mret (PQueue l))); [| | |apply reads_ret].
  - by apply (codes_unordered L level SET (λ l, mret (PSet l))); [| | |apply reads_ret].
  - by apply (codes_sequence L level ORDERED_SET (λ l, mret (POrderedSet l))); [| | |apply reads_ret].
  - by apply (codes_unordered L level SORTED_SET (λ l, mret (PSortedSet l))); [| | |apply reads_ret].
  - by apply (codes_map_in_order L level ORDERED_MAP (λ l, mret (POrderedMap l))); [| | |apply reads_ret].
  - by apply (codes_map_in_order L level SORTED_MAP (λ l, mret (PSortedMap l))); [| | |apply reads_ret].
  - set (wrap := λ entry : string * Immutable, (PString entry.1, entry.2)).
    assert (wrap <$> (prod_map id (normal L) <$> entries) = norm_entry (normal L) <$> (wrap <$> entries)) as ->.
    { rewrite <-!list_fmap_compose. apply list_fmap_ext. intros i [s v] _.
      unfold compose, norm_entry, wrap, prod_map. cbn [fst snd]. by rewrite (normal_scalar L (PString s)). }
    apply (codes_map_in_order L level TRIE (λ l, entries ← lift (mapM trie_entry l); mret (PTrie entries))); [done|done| |].
    + apply forallb_Forall, Forall_fmap. by apply forallb_Forall in Hv.
    + assert (mapM trie_entry (norm_entry (normal L) <$> (wrap <$> entries)) = Ok (prod_map id (normal L) <$> entries)) as ->.
      { rewrite <-list_fmap_compose. apply mapM_ok. rewrite Forall2_fmap. apply Forall_Forall2_diag, Forall_true.
        intros [s v]. unfold compose, norm_entry, wrap, trie_entry. cbn [fst snd]. by rewrite (normal_scalar L (PString s)). }
      apply reads_ret.
  - apply andb_true_iff in Hv as [Ho%bool_decide_eq_true Hv]. by apply codes_record.
  - apply andb_true_iff in Hv as [Ht Hv]. apply codes_tag; [done|].
    change (dispatch (Portable.value L) TAGGED) with
      (tag ← Portable.value L;
       match tag with
       | PSymbol tag => form ← Portable.value L; mret (PTagged tag form)
       | _ => lift (malformed "invalid tagged literal tag")
       end).
    eapply codes_bind; [by apply (level_at L level (PSymbol tag) (PSymbol tag)); [|apply normal_scalar]|].
    eapply codes_last; [by apply level|apply reads_ret].
  - apply codes_tag; [done|].
    change (dispatch (Portable.value L) VAR_REF) with
      (symbol ← Portable.value L;
       match symbol with PSymbol symbol => mret (PVarRef symbol) | _ => lift (malformed "invalid Var reference") end).
    eapply codes_last; [by apply (level_at L level (PSymbol symbol) (PSymbol symbol)); [|apply normal_scalar]|].
    apply reads_ret.
Qed.
