(* ===== verification/PortableFacts.v ===== *)
(** * Facts about the portable value codec

    What a frame carries, what the decoder returns, and the values of the
    provider ABI: round trips and canonical frames. *)
From S2P Require Import Prelude Bytes Text Numeric Portable PortableOrder PortableNormal.
From Stdlib Require Import Ascii Strings.Byte.

(** ** Frames *)
Lemma codes_frame v frame :
  portable v = true → encode_immutable v = Ok frame →
  (1 ≤ N.of_nat (length frame))%N ∧ encode_immutable (normal_form v) = Ok frame ∧ decode_immutable frame = Ok (normal_form v).
Proof.
  intros Hv He. unfold encode_immutable, normal_form in *. set (levels := S MAX_NESTING_DEPTH) in *.
  assert ((put MAGIC;; encode_value levels v) [] = (Ok tt, frame)) as Hm.
  { revert He. unfold bare. destruct ((put MAGIC;; encode_value levels v) []) as [[[]|] out]; [|done]. by intros [= ->]. }
  apply prog_bind_ok in Hm as ([] & mid & Hmagic & Hm).
  apply (writes_put MAGIC) in Hmagic as [-> Hmid]; [|apply fits_nil].
  destruct (codes_value levels v Hv _ _ Hmid Hm) as (e & Hw & Hw' & Hr).
  destruct (proj1 (Hw _ _ Hmid) Hm) as [Heq Hf]. cbn [app] in Heq. subst frame.
  split_and!; [rewrite length_app; cbn; lia|apply (writes_bare _ (MAGIC ++ e)); [by apply writes_bind; [apply writes_put|]|done]|].
  unfold decode_immutable. unfold fits in Hf. rewrite (proj2 (N.ltb_ge _ _) Hf).
  rewrite (bool_decide_eq_true_2 (MAGIC `prefix_of` MAGIC ++ e)) by by exists e. cbn [negb].
  rewrite drop_app_length. fold levels. specialize (Hr [] []). cbn [app] in Hr. rewrite app_nil_r in Hr.
  assert (fits e) as Hfe by by destruct (fits_app _ _ Hf). specialize (Hr (fits_isize e Hfe)).
  unfold reader_new. change (N.of_nat (length [])) with 0%N in Hr. rewrite Hr. cbn [cursor bytes length Nat.add].
  by rewrite N.eqb_refl.
Qed.

Lemma decode_canonical_ok frame maximum v :
  decode_immutable_canonical frame maximum = Ok v ↔
  (1 ≤ maximum ≤ MAX_FRAME_BYTES)%N ∧ (N.of_nat (length frame) ≤ maximum)%N ∧
  decode_immutable frame = Ok v ∧ encode_immutable v = Ok frame.
Proof.
  unfold decode_immutable_canonical.
  destruct ((maximum =? 0)%N || (MAX_FRAME_BYTES <? maximum)%N) eqn:Hm.
  { split; [done|]. intros (Hr & _). apply orb_true_iff in Hm as [Hm%N.eqb_eq|Hm%N.ltb_lt]; lia. }
  apply orb_false_iff in Hm as [H0%N.eqb_neq H1%N.ltb_ge].
  destruct (N.ltb_spec maximum (N.of_nat (length frame))) as [Hl|Hl]; [split; [done|lia]|].
  rewrite result_bind_ok. split.
  - intros (w & Hd & (canonical & Hc & H)%result_bind_ok).
    case_bool_decide as Heq; [|done]. cbn in H. injection H as ->. subst canonical. split_and!; [lia..|done|done].
  - intros (_ & _ & Hd & He). exists v. split; [done|]. apply result_bind_ok. exists frame. split; [done|].
    by rewrite bool_decide_eq_true_2.
Qed.

(** ** What the decoder returns *)
Definition decodes_to {A} (r : read A) (P : A → Prop) : Prop := ∀ s v s', r s = (Ok v, s') → P v.

Lemma decodes_ret {A} (v : A) (P : A → Prop) : P v → decodes_to (mret v) P.
Proof. by intros H s v' s' [= <- _]. Qed.
Lemma decodes_fail {A} e (P : A → Prop) : decodes_to (fail e) P.
Proof. by intros s v s' [=]. Qed.
Lemma decodes_malformed {A} m (P : A → Prop) : decodes_to (lift (malformed m)) P.
Proof. by intros s v s' [=]. Qed.
Lemma decodes_any {A} (r : read A) : decodes_to r (λ _, True).
Proof. done. Qed.
Lemma decodes_bind {A B} (r : read A) (k : A → read B) (P : A → Prop) (Q : B → Prop) :
  decodes_to r P → (∀ x, P x → decodes_to (k x) Q) → decodes_to (r ≫= k) Q.
Proof. intros Hr Hk s v s' (x & s0 & Hx%Hr & Hv)%prog_bind_ok. by eapply Hk. Qed.
Lemma decodes_lift {A} (m : result failure A) (P : A → Prop) : (∀ v, m = Ok v → P v) → decodes_to (lift m) P.
Proof. intros H s v s' [= Hm _]. by apply H. Qed.
Lemma decodes_if {A} (b : bool) (r1 r2 : read A) P :
  (b = true → decodes_to r1 P) → (b = false → decodes_to r2 P) → decodes_to (if b then r1 else r2) P.
Proof. destruct b; auto. Qed.
Lemma decodes_times {A} n (r : read A) P : decodes_to r P → decodes_to (times n r) (Forall P).
Proof.
  intros Hr. induction n as [|n IH]; [by apply decodes_ret|]. cbn.
  eapply decodes_bind; [exact Hr|]. intros x Hx. eapply decodes_bind; [exact IH|]. intros xs Hxs.
  apply decodes_ret. by constructor.
Qed.

Lemma decodes_text : decodes_to text (λ s, portable_text s = true).
Proof.
  eapply decodes_bind; [apply decodes_any|]. intros l _. apply decodes_if; intros Hl; [|apply decodes_malformed].
  apply decodes_ret. apply bool_decide_eq_true. unfold rust_string. by rewrite String.list_byte_of_string_of_list_byte.
Qed.
Lemma take_bytes_length n s l s' : take_bytes n s = (Ok l, s') → N.of_nat (length l) = n.
Proof.
  unfold take_bytes. destruct (_ <? _)%N; [done|]. destruct (N.ltb_spec (N.of_nat (length (bytes s))) (cursor s + n)); [done|].
  intros [= <- _]. rewrite length_take, length_drop. lia.
Qed.
Lemma decodes_take_be (w : nat) : decodes_to (take_bytes (N.of_nat w)) (λ l, (from_be_bytes l < 256 ^ N.of_nat w)%N).
Proof.
  intros s l s' Hl%take_bytes_length. pose proof (from_be_bytes_bound l) as H. by rewrite Hl in H.
Qed.

Lemma btree_insert_new {A} k (v : A) l : ordered l → (btree_insert k v l).2 = false → k ∉ l.*1.
Proof.
  induction l as [|[k' v'] l IH]; intros [Hs Hn]; [set_solver|]. cbn in *.
  apply StronglySorted_cons in Hs as [Hx Hs]. apply NoDup_cons in Hn as [_ Hn].
  case_decide as Hk; [done|]. destruct (bytes_leb (string_bytes k) (string_bytes k')) eqn:Hle; cbn.
  - intros _. rewrite not_elem_of_cons. split; [done|]. intros Hin.
    apply list_elem_of_fmap in Hin as ([k2 w] & -> & Hin). destruct Hk.
    apply string_bytes_inj, (anti_symm bytes_le); [exact Hle|].
    rewrite Forall_forall in Hx. apply (Hx (key_bytes (k2, w))). by apply list_elem_of_fmap_2.
  - specialize (IH (conj Hs Hn)). destruct (btree_insert k v l) as [rest old]. cbn in *.
    intros Hold. rewrite not_elem_of_cons. split; [done|by apply IH].
Qed.
Lemma record_from_new acc l r :
  ordered acc → record_from acc l = Ok r → ordered r ∧ r ≡ₚ acc ++ l.
Proof.
  revert acc. induction l as [|[k v] l IH]; intros acc Ho; cbn; [intros [= <-]; by rewrite app_nil_r|].
  destruct (btree_insert k v acc) as [rest old] eqn:Hi. destruct old; [done|]. intros Hr.
  assert (k ∉ acc.*1) as Hk by (apply (btree_insert_new k v); [done|by rewrite Hi]).
  pose proof (btree_insert_ordered k v acc Ho Hk) as Ho'. destruct (btree_insert_perm k v acc Hk) as [Hp _].
  rewrite Hi in Ho', Hp. cbn in *. destruct (IH rest Ho' Hr) as [H1 H2]. split; [done|].
  rewrite H2, Hp. apply Permutation_middle.
Qed.
Lemma forallb_perm {A} (p : A → bool) l k : l ≡ₚ k → forallb p k = true → forallb p l = true.
Proof. intros Hp. rewrite !forallb_Forall. by rewrite Hp. Qed.

Lemma btree_get_portable k (fields : list (string * Immutable)) v :
  forallb (λ field, portable_text field.1 && portable field.2) fields = true →
  btree_get k fields = Some v → portable v = true.
Proof.
  intros H (field & Hf & ->)%fmap_Some. apply find_some in Hf as [Hin _].
  rewrite forallb_forall in H. apply H in Hin. by apply andb_true_iff in Hin as [_ ?].
Qed.
Lemma decode_site_portable v site : portable v = true → decode_site v = Ok site → portable_site site = true.
Proof.
  destruct v; try done. cbn [portable decode_site]. intros [_ Hf]%andb_true_iff.
  destruct (btree_get "namespace" fields) as [n|] eqn:Hn; [|done].
  destruct (btree_get "resource" fields) as [r|] eqn:Hr; [|done].
  destruct (btree_get "line" fields) as [l|] eqn:Hl; [|done].
  destruct (btree_get "column" fields) as [c|] eqn:Hc; [|done].
  apply (btree_get_portable _ _ _ Hf) in Hn, Hr, Hl, Hc.
  destruct (negb _); [done|].
  intros (n' & Hn' & (r' & Hr' & (l' & Hl' & (c' & Hc' & [= <-])%result_bind_ok)%result_bind_ok)%result_bind_ok)%result_bind_ok.
  unfold portable_site. cbn [namespace resource line column].
  assert (∀ z : Z, in_i64 z = true → (0 <=? z)%Z = true → (Z.to_N z <? 2 ^ 63)%N = true) as Hz.
  { unfold in_i64, I64_MAX. intros z [_ H%Z.leb_le]%andb_true_iff H0%Z.leb_le. apply N.ltb_lt.
    change (2 ^ 63)%N with 9223372036854775808%N. lia. }
  repeat (apply andb_true_iff; split).
  - destruct n; try done; injection Hn' as <-; done.
  - destruct r; try done; injection Hr' as <-; done.
  - destruct l; try done. destruct (0 <=? value)%Z eqn:H0; [|done]. injection Hl' as <-. by apply Hz.
  - destruct c; try done. destruct (0 <=? value)%Z eqn:H0; [|done]. injection Hc' as <-. by apply Hz.
Qed.
Lemma decode_provenance_portable v p : portable v = true → decode_provenance v = Ok p → portable_provenance p = true.
Proof.
  destruct v; try done. cbn [portable decode_provenance]. intros [_ Hf]%andb_true_iff.
  destruct (btree_get "ex/created-at" fields) as [created|] eqn:Hc; [|done].
  destruct (btree_get "ex/throws" fields) as [thrown|] eqn:Ht; [|done].
  apply (btree_get_portable _ _ _ Hf) in Hc, Ht.
  destruct (negb _); [done|]. intros (c' & Hc' & H)%result_bind_ok. destruct thrown; try done.
  apply result_bind_ok in H as (ts & Hts & [= <-]). unfold portable_provenance. cbn [created_at throws].
  apply andb_true_iff. split.
  - assert (∀ x, c' = Some x → decode_site created = Ok x) as Hx.
    { intros x ->. revert Hc'. destruct created; try done; intros (y & Hy & [= <-])%result_fmap_ok; done. }
    destruct c' as [x|]; [|done]. by apply (decode_site_portable created), Hx.
  - apply mapM_ok in Hts. cbn [portable] in Ht. clear -Hts Ht.
    induction Hts as [|v s vs ss Hs _ IH]; [done|]. cbn in *. apply andb_true_iff in Ht as [Hv Hvs].
    apply andb_true_iff. split; [by apply (decode_site_portable v)|by apply IH].
Qed.

Section decodes_level.
Context (L : nat).
Hypothesis level : decodes_to (value L) (λ v, portable v = true).

Lemma decodes_sequence : decodes_to (sequence (value L)) (λ vs, forallb portable vs = true).
Proof.
  eapply decodes_bind; [apply decodes_any|]. intros n _. eapply decodes_bind; [apply decodes_any|]. intros rest _.
  apply decodes_if; intros _; [apply decodes_malformed|].
  intros s v s' H%(decodes_times _ _ _ level). by apply forallb_Forall.
Qed.
Lemma decodes_entries :
  decodes_to (entries (value L)) (λ l, forallb (λ entry, portable entry.1 && portable entry.2) l = true).
Proof.
  eapply decodes_bind; [apply decodes_any|]. intros n _. eapply decodes_bind; [apply decodes_any|]. intros rest _.
  apply decodes_if; intros _; [apply decodes_malformed|].
  assert (decodes_to (key ← value L; v ← value L; mret (key, v)) (λ entry, portable entry.1 && portable entry.2 = true)) as He.
  { eapply decodes_bind; [exact level|]. intros k Hk. eapply decodes_bind; [exact level|]. intros v Hv.
    apply decodes_ret. cbn. by rewrite Hk, Hv. }
  intros s v s' H%(decodes_times _ _ _ He). by apply forallb_Forall.
Qed.
Lemma decodes_sequence_as (f : list Immutable → Immutable) :
  (∀ l, portable (f l) = forallb portable l) →
  decodes_to (l ← sequence (value L); mret (f l)) (λ v, portable v = true).
Proof.
  intros Hf. eapply decodes_bind; [apply decodes_sequence|]. intros l Hl. apply decodes_ret. by rewrite Hf.
Qed.
Lemma decodes_text_as (f : string → Immutable) :
  (∀ s, portable (f s) = portable_text s) → decodes_to (s ← text; mret (f s)) (λ v, portable v = true).
Proof.
  intros Hf. eapply decodes_bind; [apply decodes_text|]. intros l Hl. apply decodes_ret. by rewrite Hf.
Qed.

Lemma decodes_map tag : decodes_to (map_value (value L) tag) (λ v, portable v = true).
Proof.
  eapply decodes_bind; [apply decodes_entries|]. intros l Hl.
  destruct (tag =? MAP)%N.
  - destruct (mapM (M := option) keyword_key l) as [fields|] eqn:Hk.
    + eapply decodes_bind; [apply decodes_lift; intros v Hv; exact Hv|]. intros r Hr. apply decodes_ret.
      apply keyword_keys in Hk as ->.
      destruct (record_from_new [] fields r ordered_nil Hr) as [Ho Hp]. cbn [app portable] in *.
      rewrite bool_decide_eq_true_2 by done. cbn [andb]. apply (forallb_perm _ _ _ Hp).
      apply forallb_Forall. apply forallb_Forall, Forall_fmap in Hl. exact Hl.
    + by apply decodes_ret.
  - apply decodes_ret. by destruct (tag =? ORDERED_MAP)%N.
Qed.
Lemma decodes_trie : decodes_to (trie (value L)) (λ v, portable v = true).
Proof.
  eapply decodes_bind; [apply decodes_entries|]. intros l Hl.
  eapply decodes_bind; [apply decodes_lift; intros v Hv; exact Hv|]. intros es Hes%mapM_ok. apply decodes_ret.
  cbn [portable]. induction Hes as [|[k v] [s w] l es He _ IH]; [done|]. cbn in *.
  apply andb_true_iff in Hl as [[Hk Hv]%andb_true_iff Hl]. destruct k; try done. injection He as <- <-.
  cbn in *. rewrite Hk, Hv. by apply IH.
Qed.
Lemma decodes_structure : decodes_to (structure (value L)) (λ v, portable v = true).
Proof.
  eapply decodes_bind; [exact level|]. intros [] Hn; try apply decodes_malformed.
  eapply decodes_bind; [exact level|]. intros [] Hf; try apply decodes_malformed.
  eapply decodes_bind; [apply decodes_lift; intros v Hv; exact Hv|]. intros fields Hfields%mapM_ok.
  eapply decodes_bind; [exact level|]. intros [] Hv; try apply decodes_malformed.
  apply decodes_if; intros _; [apply decodes_malformed|]. apply decodes_ret. cbn [portable] in *.
  rewrite Hn, Hv, andb_true_r. cbn [andb]. clear -Hf Hfields.
  induction Hfields as [|v s vs ss Hs _ IH]; [done|]. cbn in *. apply andb_true_iff in Hf as [Hv Hf].
  destruct v; try done. injection Hs as <-. cbn in Hv. rewrite Hv. by apply IH.
Qed.
Lemma decodes_exception : decodes_to (exception_info (value L)) (λ v, portable v = true).
Proof.
  eapply decodes_bind; [exact level|]. intros [] Hm; try apply decodes_malformed.
  eapply decodes_bind; [exact level|]. intros data Hd.
  eapply decodes_bind; [exact level|]. intros cause Hc.
  apply (decodes_bind _ _ (λ cause, match cause with Some cause => portable cause | None => true end = true)).
  { destruct cause; try apply decodes_malformed; by apply decodes_ret. }
  intros cause' Hc'. apply decodes_if; intros _; [apply decodes_malformed|].
  eapply decodes_bind; [exact level|]. intros p Hp.
  eapply decodes_bind; [apply decodes_lift; intros v Hv; exact Hv|]. intros p' Hp'.
  apply decodes_ret. cbn [portable] in *. rewrite Hm, Hd, Hc'. by apply (decode_provenance_portable p).
Qed.
Lemma decodes_tagged :
  decodes_to (tag ← value L;
          match tag with
          | PSymbol tag => form ← value L; mret (PTagged tag form)
          | _ => lift (malformed "invalid tagged literal tag")
          end) (λ v, portable v = true).
Proof.
  eapply decodes_bind; [exact level|]. intros [] Ht; try apply decodes_malformed.
  eapply decodes_bind; [exact level|]. intros form Hf. apply decodes_ret. cbn [portable] in *. by rewrite Ht, Hf.
Qed.
Lemma decodes_pointer :
  decodes_to (context ← value L;
          match context with
          | PKeyword context =>
              fields ← value L;
              match fields with
              | PRecord fields => mret (PPointer context fields)
              | _ => lift (malformed "invalid pointer fields")
              end
          | _ => lift (malformed "invalid pointer context")
          end) (λ v, portable v = true).
Proof.
  eapply decodes_bind; [exact level|]. intros [] Hc; try apply decodes_malformed.
  eapply decodes_bind; [exact level|]. intros [] Hf; try apply decodes_malformed.
  apply decodes_ret. cbn [portable] in *. by rewrite Hc.
Qed.
Lemma decodes_var_ref :
  decodes_to (symbol ← value L;
          match symbol with PSymbol symbol => mret (PVarRef symbol) | _ => lift (malformed "invalid Var reference") end)
    (λ v, portable v = true).
Proof.
  eapply decodes_bind; [exact level|]. intros [] Hc; try apply decodes_malformed. by apply decodes_ret.
Qed.
Lemma decodes_integer : decodes_to (l ← take_bytes 8; mret (PInteger (u64_as_i64 (from_be_bytes l)))) (λ v, portable v = true).
Proof.
  eapply decodes_bind; [apply (decodes_take_be 8)|]. cbv beta. intros l Hl. apply decodes_ret. cbn [portable].
  pose proof (u64_as_i64_range (from_be_bytes l)) as H. unfold in_i64, I64_MIN, I64_MAX.
  apply andb_true_iff. rewrite !Z.leb_le. unfold U64_MAX in H. change (256 ^ N.of_nat 8)%N with 18446744073709551616%N in Hl. lia.
Qed.
Lemma decodes_float :
  decodes_to (l ← take_bytes 8;
          let bits := from_be_bytes l in
          if negb (is_finite bits) then fail (Failed "hta/non-finite number") else mret (PFloat bits))
    (λ v, portable v = true).
Proof.
  eapply decodes_bind; [apply (decodes_take_be 8)|]. cbv beta zeta. intros l Hl.
  apply decodes_if; intros _; [apply decodes_fail|]. apply decodes_ret. cbn [portable].
  apply N.leb_le. unfold U64_MAX. change (256 ^ N.of_nat 8)%N with 18446744073709551616%N in Hl. lia.
Qed.
Lemma decodes_big_integer : decodes_to (s ← text; lift (canonical_big_integer s)) (λ v, portable v = true).
Proof.
  eapply decodes_bind; [apply decodes_any|]. intros s _. apply decodes_lift. intros v Hv.
  by destruct (canonical_big_integer_cases s v Hv) as [(z & -> & Hz)|(t & -> & Ht & _)].
Qed.

Lemma decodes_dispatch tag : decodes_to (dispatch (value L) tag) (λ v, portable v = true).
Proof.
  unfold dispatch. repeat case_match; subst;
    try apply decodes_malformed; try apply decodes_fail; try (by apply decodes_ret);
    try (by apply decodes_text_as); try (by apply decodes_sequence_as); try apply decodes_map; try apply decodes_trie;
    try apply decodes_tagged; try apply decodes_exception; try apply decodes_structure; try apply decodes_pointer;
    try apply decodes_var_ref; try apply decodes_integer; try apply decodes_float; try apply decodes_big_integer.
  - eapply decodes_bind; [apply decodes_any|]. cbv beta zeta. intros l _.
    apply decodes_if; intros Hs; [by apply decodes_ret|apply decodes_malformed].
  - eapply decodes_bind; [apply decodes_any|]. intros l _. by apply decodes_ret.
  - eapply decodes_bind; [apply decodes_sequence|]. intros l Hl.
    apply decodes_if; intros _; [apply decodes_malformed|]. by apply decodes_ret.
  - eapply decodes_bind; [apply decodes_sequence|]. intros l Hl.
    apply decodes_if; intros Hn; [|apply decodes_malformed]. apply decodes_ret. cbn [portable]. by rewrite Hn.
Qed.
End decodes_level.

Lemma decodes_value L : decodes_to (value L) (λ v, portable v = true).
Proof.
  induction L as [|L IH]; [apply decodes_fail|].
  eapply decodes_bind; [apply decodes_any|]. intros tag _. by apply decodes_dispatch.
Qed.
Lemma decoded_portable frame v : decode_immutable frame = Ok v → portable v = true.
Proof.
  unfold decode_immutable. destruct (_ <? _)%N; [done|]. destruct (negb _); [done|].
  destruct (value (S MAX_NESTING_DEPTH) _) as [[w|] r] eqn:Hv; [|done].
  destruct (cursor r =? _)%N; [|done]. intros [= <-]. by eapply decodes_value.
Qed.

(** ** The provider ABI *)
(** What Rust's types ensure of an [AbiValue]. *)
Fixpoint abi_portable (value : AbiValue) : bool :=
  match value with
  | ANil | ABoolean _ | ABytes _ | ABigInteger _ => true
  | AString value | AKeyword value => portable_text value
  | AInteger value => in_i64 value
  | AFloat bits => (bits <=? U64_MAX)%N
  | AVector values => forallb abi_portable values
  | ARecord fields =>
      bool_decide (ordered fields) && forallb (λ field, portable_text field.1 && abi_portable field.2) fields
  end.
(** Integers of any text become integers at their width, or canonical text. *)
Fixpoint abi_normal (value : AbiValue) : AbiValue :=
  match value with
  | ABigInteger text =>
      match canonical_big_integer text with
      | Ok (PInteger value) => AInteger value
      | Ok (PBigInteger value) => ABigInteger value
      | _ => value
      end
  | AVector values => AVector (abi_normal <$> values)
  | ARecord fields => ARecord (prod_map id abi_normal <$> fields)
  | _ => value
  end.

Section abi_induction.
Variable P : AbiValue → Prop.
Hypothesis scalar_case : ∀ v, match v with AVector _ | ARecord _ => False | _ => True end → P v.
Hypothesis vector_case : ∀ values, Forall P values → P (AVector values).
Hypothesis record_case : ∀ fields, Forall (λ field, P field.2) fields → P (ARecord fields).

Fixpoint abi_value_ind (v : AbiValue) : P v :=
  match v with
  | AVector values =>
      vector_case values ((fix all l : Forall P l :=
        match l with [] => Forall_nil_2 _ | v :: l => Forall_cons_2 _ _ _ (abi_value_ind v) (all l) end) values)
  | ARecord fields =>
      record_case fields ((fix all l : Forall (λ field, P field.2) l :=
        match l with [] => Forall_nil_2 _ | kv :: l => Forall_cons_2 _ _ _ (abi_value_ind kv.2) (all l) end) fields)
  | v => scalar_case v I
  end.
End abi_induction.

Lemma ordered_fst {A B} (l : list (string * A)) (k : list (string * B)) : l.*1 = k.*1 → ordered l → ordered k.
Proof.
  intros Hlk [Hs Hn]. split; [|by rewrite <-Hlk].
  assert (∀ C (l : list (string * C)), StronglySorted key_le (key_bytes <$> l) ↔ StronglySorted bytes_le (string_bytes <$> l.*1)) as Hiff.
  { clear. intros C l. induction l as [|[s x] l IH]; cbn; [split; constructor|].
    rewrite !StronglySorted_cons, IH, !Forall_fmap. done. }
  apply Hiff. rewrite <-Hlk. by apply Hiff.
Qed.

(** A value of the ABI as the codec carries it. *)
Definition crosses (a : AbiValue) : Prop :=
  ∀ v, abi_portable a = true → abi_to_immutable a = Ok v →
    portable v = true ∧ (∀ L, normal L v = v) ∧ immutable_to_abi v = Ok (abi_normal a).

Lemma crosses_vector values : Forall crosses values → crosses (AVector values).
Proof.
  intros H v Hp (vs & Hvs & <-)%result_fmap_ok. cbn [abi_portable] in Hp.
  assert (forallb portable vs = true ∧ Forall (λ v, ∀ L, normal L v = v) vs ∧
    mapM immutable_to_abi vs = Ok (abi_normal <$> values)) as (H1 & H2 & H3).
  { apply mapM_ok in Hvs. revert Hp H. induction Hvs as [|a v values vs Hv _ IH]; intros Hp H; [done|].
    cbn in Hp. apply andb_true_iff in Hp as [Ha Hp]. apply Forall_cons in H as [Hc H].
    destruct (IH Hp H) as (H1 & H2 & H3). destruct (Hc v Ha Hv) as (G1 & G2 & G3). split_and!.
    - cbn. by rewrite G1.
    - by constructor.
    - cbn. by rewrite G3; cbn; rewrite H3. }
  split_and!; [done| |cbn; by rewrite H3].
  intros L. rewrite normal_vector. f_equal. rewrite <-(list_fmap_id vs) at 2.
  apply list_fmap_ext. intros i v Hv. eapply Forall_lookup in H2; [|exact Hv]. apply H2.
Qed.

Lemma crosses_record fields : Forall (λ field, crosses field.2) fields → crosses (ARecord fields).
Proof.
  intros H v Hp (vs & Hvs & <-)%result_fmap_ok. cbn [abi_portable] in Hp.
  apply andb_true_iff in Hp as [Ho%bool_decide_eq_true Hp].
  assert (fields.*1 = vs.*1 ∧ forallb (λ field, portable_text field.1 && portable field.2) vs = true ∧
    Forall (λ field, ∀ L, normal L field.2 = field.2) vs ∧
    mapM (λ field, pair (field.1 : string) <$> immutable_to_abi field.2) vs = Ok (prod_map id abi_normal <$> fields))
    as (H0 & H1 & H2 & H3).
  { apply mapM_ok in Hvs. clear Ho. revert Hp H. induction Hvs as [|[s a] [s' v] fields vs Hv _ IH]; intros Hp H; [done|].
    apply result_fmap_ok in Hv as (v' & Hv & [= <- <-]).
    cbn in Hp. apply andb_true_iff in Hp as [[Hs Ha]%andb_true_iff Hp]. apply Forall_cons in H as [Hc H].
    destruct (IH Hp H) as (H0 & H1 & H2 & H3). destruct (Hc v' Ha Hv) as (G1 & G2 & G3). split_and!.
    - cbn. by rewrite H0.
    - cbn. by rewrite Hs, G1.
    - by constructor.
    - cbn. rewrite G3. cbn. by rewrite H3. }
  split_and!.
  - cbn [portable]. rewrite H1, bool_decide_eq_true_2; [done|]. by eapply ordered_fst.
  - intros L. rewrite normal_record. f_equal. rewrite <-(list_fmap_id vs) at 2.
    apply list_fmap_ext. intros i [s v] Hv. eapply Forall_lookup in H2; [|exact Hv]. cbn in *. by rewrite H2.
  - cbn. by rewrite H3.
Qed.

Lemma crosses_all a : crosses a.
Proof.
  apply abi_value_ind; [|apply crosses_vector|apply crosses_record]. clear a.
  intros [] Hs v Hp Hv; try done; cbn [abi_to_immutable] in Hv; try (injection Hv as <-; split_and!; [done|by intros []|done]).
  - destruct (canonical_big_integer_cases _ _ Hv) as [(z & -> & Hz)|(t & -> & Ht & Hct)].
    + split_and!; [done|by intros []|]. cbn [abi_normal]. by rewrite Hv.
    + split_and!; [done| |].
      * intros []; [done|]. cbn [normal normal_step]. by rewrite Hct.
      * cbn [abi_normal immutable_to_abi]. rewrite Hv. by rewrite Hct.
  - destruct (is_finite bits) eqn:Hf; [|done]. injection Hv as <-. split_and!; [done|by intros []|].
    cbn [immutable_to_abi]. by rewrite Hf.
Qed.

(** ** The properties *)
(** C14. Whatever the encoder accepts the decoders give back: a frame encoded
    from a value decodes, strictly and canonically, to the value's normal form
    (sets and maps sorted by their bytes, keyword maps as records, tuples as
    vectors, integers at their width), and the normal form has the same frame.
    Two values have the same frame exactly when they have the same normal form. *)
Theorem portable_roundtrip v w frame maximum :
  portable v = true → encode_immutable v = Ok frame →
  (N.of_nat (length frame) ≤ maximum ≤ MAX_FRAME_BYTES)%N →
  decode_immutable frame = Ok (normal_form v) ∧
  decode_immutable_canonical frame maximum = Ok (normal_form v) ∧
  encode_immutable (normal_form v) = Ok frame ∧
  (portable w = true → ∀ frame', encode_immutable w = Ok frame' → frame' = frame ↔ normal_form w = normal_form v).
Proof.
  intros Hv He Hm. destruct (codes_frame v frame Hv He) as (Hf & Hn & Hd).
  split_and!; [done| |done|].
  - apply decode_canonical_ok. split_and!; [lia..|done|done].
  - intros Hw frame' He'. destruct (codes_frame w frame' Hw He') as (_ & Hn' & Hd').
    split; [intros ->; congruence|]. intros Heq. rewrite Heq in Hn'. congruence.
Qed.

(** C15. The canonical decoder accepts exactly the frames of the values that are
    their own normal form, so that an accepted frame and the value it decodes to
    determine each other; every value it returns satisfies what Rust's types
    ensure of it. *)
Theorem canonical_frames_exact frame maximum v :
  decode_immutable_canonical frame maximum = Ok v ↔
  (N.of_nat (length frame) ≤ maximum ≤ MAX_FRAME_BYTES)%N ∧
  portable v = true ∧ normal_form v = v ∧ encode_immutable v = Ok frame.
Proof.
  rewrite decode_canonical_ok. split.
  - intros (Hm & Hl & Hd & He). pose proof (decoded_portable frame v Hd) as Hp.
    destruct (codes_frame v frame Hp He) as (_ & _ & Hd'). split_and!; [lia..|done| |done]. congruence.
  - intros (Hm & Hp & Hn & He). destruct (codes_frame v frame Hp He) as (Hf & _ & Hd). rewrite Hn in Hd.
    split_and!; [lia..|done|done].
Qed.

(** C16. A value of the provider ABI comes back from its frame as it was, but
    that a big integer comes back at its width or as its canonical text. *)
Theorem abi_roundtrip a frame maximum :
  abi_portable a = true → encode a = Ok frame →
  (N.of_nat (length frame) ≤ maximum ≤ MAX_FRAME_BYTES)%N →
  decode frame = Ok (abi_normal a) ∧ decode_canonical frame maximum = Ok (abi_normal a).
Proof.
  intros Ha (v & Hv & He)%result_bind_ok Hm. destruct (crosses_all a v Ha Hv) as (Hp & Hn & Hi).
  destruct (codes_frame v frame Hp He) as (Hf & _ & Hd). unfold normal_form in Hd. rewrite Hn in Hd.
  unfold decode, decode_canonical. split; [by rewrite Hd|].
  assert (decode_immutable_canonical frame maximum = Ok v) as ->; [|done].
  apply decode_canonical_ok. split_and!; [lia..|done|done].
Qed.

Module PortableDemo.
Definition sample : Immutable :=
  PMap [(PString "b", PTuple [PInteger 7; PBigInteger "-0012"]);
        (PInteger 3, PSet [PString "y"; PString "x"; PString "y"])].
Definition bytes_of (value : Immutable) : list byte :=
  match encode_immutable value with Ok l => l | Err _ => [] end.

Lemma portable_roundtrip_witness :
  decode_immutable (bytes_of sample) =
    Ok (PMap [(PInteger 3, PSet [PString "x"; PString "y"]);
              (PString "b", PVector [PInteger 7; PInteger (-12)])]).
Proof.
  destruct (portable_roundtrip sample PNil (bytes_of sample) 100) as [H _]; [by vm_compute..|].
  rewrite H. by vm_compute.
Defined.

Definition abi_sample : AbiValue :=
  ARecord [("a"%string, ABigInteger "9223372036854775808"); ("b"%string, AVector [ABigInteger "007"; ANil])].
Lemma abi_roundtrip_witness :
  match encode abi_sample with
  | Ok frame => decode frame = Ok (ARecord [("a"%string, ABigInteger "9223372036854775808");
                                            ("b"%string, AVector [AInteger 7; ANil])])
  | Err _ => False
  end.
Proof.
  destruct (encode abi_sample) as [frame|] eqn:He; [|by vm_compute in He].
  destruct (abi_roundtrip abi_sample frame MAX_FRAME_BYTES) as [H _];
    [by vm_compute|exact He|vm_compute in He; injection He as <-; by vm_compute|].
  rewrite H. by vm_compute.
Defined.

(** An empty [Cons] is written, and what is written does not decode. *)
Example empty_cons_frame :
  encode_immutable (PCons []) = Ok (MAGIC ++ [byte_of_N CONS; x00; x00; x00; x00]) ∧
  decode_immutable (MAGIC ++ [byte_of_N CONS; x00; x00; x00; x00]) = Err (Failed "hta/value-malformed: empty cons").
Proof. split; by vm_compute. Qed.

(** A repeated key is found only next to its twin: apart, it is written. *)
Example repeated_key_frame :
  encode_immutable (POrderedMap [(PInteger 1, PNil); (PInteger 1, PNil)]) =
    Err (Failed "hta/value-invalid: duplicate map key") ∧
  decode_immutable (bytes_of (POrderedMap [(PInteger 1, PNil); (PInteger 2, PNil); (PInteger 1, PNil)])) =
    Ok (POrderedMap [(PInteger 1, PNil); (PInteger 2, PNil); (PInteger 1, PNil)]).
Proof. split; by vm_compute. Qed.

(** A line of 2^63 or more is written as a negative integer, which does not decode. *)
Example wide_line_frame :
  let site := mkSite None None (2 ^ 63) 0 in
  decode_immutable (bytes_of (PExceptionInfo "m" (PMap []) None (mkProvenance (Some site) []))) =
    Err (Failed "hta/value-malformed: invalid exception provenance line").
Proof. by vm_compute. Qed.

(** Symbols, characters, lists and maps with other keys decode. *)
Example runtime_tags_decode :
  decode_immutable (bytes_of (PList [PSymbol "f"; PCharacter 955; PMap [(PInteger 1, PNil)]])) =
    Ok (PList [PSymbol "f"; PCharacter 955; PMap [(PInteger 1, PNil)]]).
Proof. by vm_compute. Qed.
End PortableDemo.
