(* ===== verification/Captures.v ===== *)
(** * Captures

    The walk over a function's body that finds its free variables, and the
    predicates on bodies, of [vm/compiler/functions.rs] and
    [vm/compiler/calls.rs] under [src/core/rust/src]. A slice past the end of a
    form's children is a panic. *)
From S2P Require Import Prelude Bytes Text Opcode Kernel Reader Printer Program DefinitionForms Destructure Scope Compiler.

Section captures.
Context {W : Type} `{CompilerEnv W}.
Abbreviation comp := (prog (Compiler W) compile_stop).

(** [list_children]: the parser's nodes when there is one for each element. *)
Definition list_children (elements : list Form) (s : Span) (nodes : option (list SpannedForm)) :
    list Child :=
  match nodes with
  | Some nodes =>
      if length nodes =? length elements
      then (λ n, mkChild (form n) (span n) (Some (children n))) <$> nodes
      else (λ e, mkChild e s None) <$> elements
  | None => (λ e, mkChild e s None) <$> elements
  end.

(** [&l[n..]]. *)
Definition slice_from {A} (n : nat) (l : list A) : comp (list A) :=
  if n <=? length l then mret (drop n l) else fail Crashed.

Definition head_is (names : list string) (values : list Form) : bool :=
  match values with FSymbol name :: _ => bool_decide (name ∈ names) | _ => false end.

(** ** Suspension *)
Fixpoint form_may_suspend (c : Compiler W) (form : Form) : bool :=
  match form with
  | FMetadata _ value | FTagged _ value => form_may_suspend c value
  | FList values =>
      match values with
      | FSymbol name :: _ => is_coroutine_var c name "await" || is_coroutine_var c name "yield"
      | _ => false
      end || existsb (form_may_suspend c) values
  | FVector values | FSet values => existsb (form_may_suspend c) values
  | FMap entries => existsb (λ e, form_may_suspend c e.1 || form_may_suspend c e.2) entries
  | _ => false
  end.

(** ** Binding names of a pattern *)
Fixpoint collect_pattern_names (pattern : Form) : list string :=
  match pattern with
  | FSymbol name => if decide (name = "&") then [] else [name]
  | FVector items =>
      concat ((λ item, if is_symbol item "&" || is_keyword item "as" then []
                       else collect_pattern_names item) <$> items)
  | FMap entries =>
      concat ((λ '(binding, value),
        match binding with
        | FKeyword name =>
            if is_names_key name then
              match value with
              | FVector names => concat (collect_pattern_names <$> names)
              | _ => []
              end
            else if decide (name = "as") then collect_pattern_names value
            else []
        | _ => collect_pattern_names binding
        end) <$> entries)
  | _ => []
  end.

(** ** Free variables *)
Abbreviation free := (list (string * option Position)).

Definition is_free (name : string) (found : free) : bool := existsb (λ f, bool_decide (f.1 = name)) found.

(** A [for] loop that threads what was found. *)
Definition collect_each {A} (collect : A → free → comp free) : list A → free → comp free :=
  fix go l found :=
    match l with
    | [] => mret found
    | x :: l => found ← collect x found; go l found
    end.

(** A prospective capture: no binding of the function, not found before, and
    either an enclosing local or nothing a global reference can name. *)
Definition reference (name : string) (s : Span) (intrinsic : bool) (bound : list string)
    (found : free) : comp free :=
  if bool_decide (name ∈ bound) || is_free name found then mret found else
  local ← lookup_name name;
  c ← gets id;
  if is_some local ||
     (negb (visible_global c name) && negb (intrinsic && is_some (from_symbol name)) &&
      negb (visible_bytecode_callable c name) && negb (visible_namespace c name))
  then mret (found ++ [(name, Some (start s))]) else mret found.

Definition nested_child (s : Span) (form : Form) : Child := mkChild form s None.

Section walk.
Variable collect : list string → Child → free → comp free.
Abbreviation each_child bound := (collect_each (collect bound)).

(** The pairs of a binding vector: an initializer sees the earlier names. *)
Fixpoint collect_pairs (bound : list string) (pairs : list Child) (found : free) :
    comp (list string * free) :=
  match pairs with
  | name :: initializer :: pairs =>
      found ← collect bound initializer found;
      collect_pairs (bound ++ collect_pattern_names (child_form name)) pairs found
  | _ => mret (bound, found)
  end.

Fixpoint collect_values (bound : list string) (pairs : list Child) (found : free) : comp free :=
  match pairs with
  | _ :: value :: pairs => found ← collect bound value found; collect_values bound pairs found
  | _ => mret found
  end.

Definition bindings_of (c : Child) : option (list Child) :=
  match child_form c with
  | FVector l | FList l => Some (list_children l (child_span c) (child_nodes c))
  | _ => None
  end.

Definition collect_dot (bound : list string) (l : list Child) (found : free) : comp free :=
  found ← (match l !! 1 with Some receiver => collect bound receiver found | None => mret found end);
  match l !! 2 with
  | Some method =>
      match child_form method with
      | FList arguments =>
          arguments ← slice_from 1 arguments;
          each_child bound (nested_child (child_span method) <$> arguments) found
      | _ => mret found
      end
  | None => mret found
  end.

Definition collect_catch (bound : list string) (l : list Child) (found : free) : comp free :=
  match l with
  | _ :: binding :: handler =>
      match child_form binding with
      | FSymbol name => each_child (bound ++ [name]) handler found
      | _ =>
          match handler with
          | name :: first :: others =>
              let bound := match child_form name with FSymbol n => bound ++ [n] | _ => bound end in
              each_child bound (first :: others) found
          | _ => each_child bound (tail l) found
          end
      end
  | _ => each_child bound (tail l) found
  end.

Definition collect_let (bound : list string) (l : list Child) (found : free) : comp free :=
  match l with
  | _ :: bindings :: body =>
      match bindings_of bindings with
      | Some pairs =>
          '(bound, found) ← collect_pairs bound pairs found; each_child bound body found
      | None => each_child bound (tail l) found
      end
  | _ => mret found
  end.

Definition collect_binding (bound : list string) (l : list Child) (found : free) : comp free :=
  found ← (match l !! 1 with
           | Some bindings =>
               match bindings_of bindings with
               | Some pairs => collect_values bound pairs found
               | None => mret found
               end
           | None => mret found
           end);
  body ← slice_from 2 l;
  each_child bound body found.

Definition collect_set (bound : list string) (l : list Child) (found : free) : comp free :=
  found ← (match l !! 1 with
           | Some place =>
               match child_form place with
               | FList parts =>
                   if head_is ["field"] parts then
                     match list_children parts (child_span place) (child_nodes place) !! 1 with
                     | Some receiver => collect bound receiver found
                     | None => mret found
                     end
                   else collect bound place found
               | FSymbol _ => mret found
               | _ => collect bound place found
               end
           | None => mret found
           end);
  replacements ← slice_from 2 l;
  each_child bound replacements found.

Definition definition_name (c : Child) : list string :=
  match child_form c with FList (FSymbol name :: _) => [name] | _ => [] end.

Definition collect_definition (bound : list string) (definition : Child) (found : free) : comp free :=
  match child_form definition with
  | FList (_ :: params :: first :: others) =>
      let names := match params with FVector params => concat (collect_pattern_names <$> params) | _ => [] end in
      each_child (bound ++ names) (nested_child (child_span definition) <$> first :: others) found
  | _ => mret found
  end.

Definition collect_letfn (bound : list string) (l : list Child) (found : free) : comp free :=
  let definitions :=
    match l !! 1 with
    | Some bindings =>
        match child_form bindings with
        | FVector definitions => list_children definitions (child_span bindings) (child_nodes bindings)
        | _ => []
        end
    | None => []
    end in
  let bound := bound ++ concat (definition_name <$> definitions) in
  found ← collect_each (collect_definition bound) definitions found;
  body ← slice_from 2 l;
  each_child bound body found.

Definition vector_names (form : Form) : list string :=
  match form_without_metadata form with
  | FVector params => concat (collect_pattern_names <$> params)
  | _ => []
  end.

Definition collect_clause (bound : list string) (clause : Child) (found : free) : comp free :=
  match form_without_metadata (child_form clause) with
  | FList (first :: others) =>
      match list_children (first :: others) (child_span clause) (child_nodes clause) with
      | params :: body => each_child (bound ++ vector_names (child_form params)) body found
      | [] => mret found
      end
  | _ => collect bound clause found
  end.

Definition collect_fn (bound : list string) (l : list Child) (found : free) : comp free :=
  match l with
  | _ :: params :: body =>
      if is_vector (child_form params) then
        each_child (bound ++ vector_names (child_form params)) body found
      else collect_each (collect_clause bound) (tail l) found
  | _ => collect_each (collect_clause bound) (tail l) found
  end.

(** [collect_syntax_free], which descends to what is unquoted. *)
Fixpoint collect_syntax_free (bound : list string) (s : Span) (form : Form) (found : free) : comp free :=
  match form with
  | FMetadata _ value => collect_syntax_free bound s value found
  | FList values =>
      if head_is ["unquote"; "unquote-splicing"] values then
        match values with
        | _ :: value :: _ => collect bound (nested_child s value) found
        | _ => mret found
        end
      else collect_each (collect_syntax_free bound s) values found
  | FVector values | FSet values => collect_each (collect_syntax_free bound s) values found
  | FMap entries =>
      collect_each (λ '(key, value) found,
        found ← collect_syntax_free bound s key found; collect_syntax_free bound s value found)
        entries found
  | _ => mret found
  end.

(** The arms over the operator of a list. *)
Definition collect_operator (bound : list string) (head : string) (l : list Child) (found : free) :
    comp free :=
  let arguments := tail l in
  c ← gets id;
  if is_coroutine_var c head "await" || is_coroutine_var c head "yield" || is_host_call_var c head
  then each_child bound arguments found
  else if bool_decide (head ∈ ["if"; "and"; "or"; "cond"; "do"; "recur"; "try"; "throw"; "finally"])
  then each_child bound arguments found
  else if decide (head = "quote") then mret found
  else if decide (head = ".") then collect_dot bound l found
  else if decide (head = "syntax-quote") then
    match l !! 1 with
    | Some template => collect_syntax_free bound (child_span template) (child_form template) found
    | None => mret found
    end
  else if decide (head = "catch") then collect_catch bound l found
  else if bool_decide (head ∈ ["let"; "loop"]) then collect_let bound l found
  else if decide (head = "binding") then collect_binding bound l found
  else if decide (head = "field") then
    match l !! 1 with Some receiver => collect bound receiver found | None => mret found end
  else if decide (head = "set!") then collect_set bound l found
  else if decide (head = "letfn") then collect_letfn bound l found
  else if decide (head = "fn") then collect_fn bound l found
  else if bool_decide (head ∈ ["ns"; "ns+"; "require"]) then mret found
  else if decide (head = "def") then
    match l !! 2 with Some initializer => collect bound initializer found | None => mret found end
  else if bool_decide (head ∈ ["defn"; "var"]) then mret found
  else if is_some (from_symbol head) && negb (visible_global c head) then each_child bound arguments found
  else
    found ← (match l with
             | operator :: _ => reference head (child_span operator) false bound found
             | [] => mret found
             end);
    each_child bound arguments found.
End walk.

(** [collect_free]: [bound] are the names bound at the form; the fuel bounds
    the depth of the walk through expanded macros. *)
Fixpoint collect_free (fuel : nat) (bound : list string) (child : Child) (found : free) : comp free :=
  match fuel with
  | O => fail Exhausted
  | S fuel =>
      let collect := collect_free fuel in
      match child_form child with
      | FSymbol name => reference name (child_span child) true bound found
      | FList (first :: others) =>
          let elements := first :: others in
          expanded ←
            (if head_is ["quote"; "syntax-quote"] elements then mret None else
             r ← guest (vm_macroexpand (child_form child));
             mret (match r with
                   | Ok e => if form_eqb e (child_form child) then None else Some e
                   | Err _ => None
                   end));
          match expanded with
          | Some e => collect bound (mkChild e (child_span child) None) found
          | None =>
              let l := list_children elements (child_span child) (child_nodes child) in
              match first with
              | FSymbol head => collect_operator collect bound head l found
              | _ => collect_each (collect bound) l found
              end
          end
      | FMetadata _ value => collect bound (nested_child (child_span child) value) found
      | FVector values | FSet values =>
          collect_each (collect bound) (nested_child (child_span child) <$> values) found
      | FMap entries =>
          collect_each (λ '(key, value) found,
            found ← collect bound (nested_child (child_span child) key) found;
            collect bound (nested_child (child_span child) value) found) entries found
      | _ => mret found
      end
  end.

(** ** Recurrence in a body: vm/compiler/calls.rs *)
Fixpoint contains_recur (form : Form) : bool :=
  match form with
  | FList values => head_is ["recur"] values || existsb contains_recur values
  | FVector values | FSet values => existsb contains_recur values
  | FMap entries => existsb (λ e, contains_recur e.1 || contains_recur e.2) entries
  | FTagged _ value | FMetadata _ value => contains_recur value
  | _ => false
  end.
End captures.
