(* ===== verification/Validate.v ===== *)
(** * Program validation

    [src/core/rust/src/vm/validate.rs]: the abstract interpretation that assigns
    one operand-stack height to every instruction, the handler-table checks and
    the whole-program entry point. The theorems characterise the accepted
    programs declaratively, show that validation always terminates without
    panicking, and record what validation does not establish. *)
From S2P Require Import Prelude Bytes Opcode Kernel Program.

(** ** Outcomes

    [Invalid] is the source's [ValidationError]; [Panics] an out-of-bounds
    index; [OutOfFuel] marks a worklist run longer than the fuel allows. The
    last two are shown never to happen. *)
Record ValidationError := mkValidationError { message : string; instruction : option N }.
Inductive validation_failure :=
| Invalid (error : ValidationError)
| Panics
| OutOfFuel.
Abbreviation checked := (result validation_failure).

Definition invalid {A} (message : string) (instruction : option N) : checked A :=
  Err (Invalid (mkValidationError message instruction)).
Definition indexed {A} (o : option A) : checked A := ok_or o Panics.
Definition require (condition : bool) (message : string) (at_ : option N) : checked () :=
  if condition then Ok tt else invalid message at_.

(** A [for] loop of checks. *)
Fixpoint check_all {A} (check : A → checked ()) (l : list A) : checked () :=
  match l with
  | [] => Ok tt
  | x :: l => check x;; check_all check l
  end.

(** [core::value_to_form]: the reader form of a runtime value, when it has one. *)
Class ValueForms := value_to_form : Value → result string Form.

(** ** Operand checks *)
Section validate.
Context `{ValueForms}.
Variable program : Program.

(** [index as usize >= list.len()], negated. *)
Definition in_bounds {A} (index : N) (l : list A) : bool := (index <? N.of_nat (length l))%N.

Definition constant_at (index : N) : option Value := constants program !! N.to_nat index.
Definition is_string_constant (index : N) : bool :=
  match constant_at index with Some (VString _) => true | _ => false end.

Definition string_constant (index : N) (at_ : option N) : checked () :=
  match constant_at index with
  | Some (VString _) => Ok tt
  | Some _ => invalid ("global name constant " +:+ pretty index +:+ " is not a string") at_
  | None => invalid ("constant index " +:+ pretty index +:+ " out of range") at_
  end.

(** The forms a [NamespaceOperation] may retain in the constant pool. *)
Definition is_management_form (value : Value) : bool :=
  match value_to_form value with
  | Ok form =>
      match form_without_metadata form with
      | FList (FSymbol operator :: _) =>
          bool_decide (operator = "ns") || bool_decide (operator = "ns+") ||
          bool_decide (operator = "require")
      | _ => false
      end
  | Err _ => false
  end.

Definition check_namespace_operation (constant : N) (at_ : option N) : checked () :=
  match constant_at constant with
  | None => invalid ("constant index " +:+ pretty constant +:+ " out of range") at_
  | Some value =>
      require (is_management_form value)
        ("namespace-management constant " +:+ pretty constant +:+ " is invalid") at_
  end.

Definition check_closure (prototype captures : N) (at_ : option N) : checked () :=
  match functions program !! N.to_nat prototype with
  | None => invalid ("closure prototype " +:+ pretty prototype +:+ " out of range") at_
  | Some target =>
      require (captures =? capture_count target)%N
        ("closure captures " +:+ pretty captures +:+ " but prototype expects " +:+
         pretty (capture_count target)) at_
  end.

Definition arity_accepts (target : FunctionPrototype) (argc : N) : bool :=
  if variadic target then (arity target <=? argc)%N else (argc =? arity target)%N.

Definition check_call_static (function : FunctionPrototype) (prototype argc : N)
    (at_ : option N) : checked () :=
  match functions program !! N.to_nat prototype with
  | None => invalid ("callstatic target " +:+ pretty prototype +:+ " out of range") at_
  | Some target =>
      require (arity_accepts target argc)
        ("callstatic argc " +:+ pretty argc +:+ " but prototype expects " +:+
         pretty (arity target)) at_;;
      require (capture_count target =? capture_count function)%N
        "callstatic capture count differs from current function" at_
  end.

Definition check_definition (name : N) (metadata : option N) (at_ : option N) : checked () :=
  string_constant name at_;;
  match metadata with
  | Some metadata =>
      require (in_bounds metadata (var_metadata program))
        ("var metadata index " +:+ pretty metadata +:+ " out of range") at_
  | None => Ok tt
  end.

(** The operand checks independent of control flow. *)
Definition check_operands (function : FunctionPrototype) (i : Instruction)
    (at_ : option N) : checked () :=
  match i with
  | Constant index =>
      require (in_bounds index (constants program))
        ("constant index " +:+ pretty index +:+ " out of range") at_
  | LoadLocal slot | StoreLocal slot =>
      require (slot <? local_count function)%N
        ("local slot " +:+ pretty slot +:+ " out of range") at_
  | IntrinsicCall target _ | ProtocolCall target _ | IntrinsicValue target =>
      string_constant target at_
  | BuiltinValue constant =>
      require (is_string_constant constant)
        ("builtin name constant " +:+ pretty constant +:+ " is invalid") at_
  | NamespaceValue constant =>
      require (is_string_constant constant)
        ("namespace name constant " +:+ pretty constant +:+ " is invalid") at_
  | NamespaceOperation constant => check_namespace_operation constant at_
  | DynamicBind constant | DynamicUnbind constant =>
      require (is_string_constant constant)
        ("binding name constant " +:+ pretty constant +:+ " is invalid") at_
  | Jump target | JumpIfFalse target =>
      require (in_bounds target (code function))
        ("jump target " +:+ pretty target +:+ " out of range") at_
  | Closure prototype captures => check_closure prototype captures at_
  | CallStatic prototype argc => check_call_static function prototype argc at_
  | GetGlobal index | SetGlobal index | VarGlobal index | MutableFieldGet index
  | MutableFieldSet index | DeclareGlobal index => string_constant index at_
  | DefGlobal name metadata | DefMacro name metadata => check_definition name metadata at_
  | MakeMultiArity name _ => string_constant name at_
  | _ => Ok tt
  end.

(** ** The stack analysis *)
Variable function : FunctionPrototype.
Abbreviation work := (nat * N)%type.

(** [handler_starts]: the handler entries by the index of their first
    instruction, in table order. *)
Definition handler_starts : gmap nat (list nat) :=
  foldl (λ m e, let start := N.to_nat (try_start e.2) in
                <[start := default [] (m !! start) ++ [e.1]]> m)
        ∅ (imap pair (handlers function)).

(** Handler regions are reached by unwinding: each target is seeded with the
    height at its entry's start. *)
Definition seed_target (what : string) (entry : TryEntry) (target : N) (height : N) :
    checked work :=
  if in_bounds target (code function) then Ok (N.to_nat target, height)
  else invalid (what +:+ " target " +:+ pretty target +:+ " out of range")
         (Some (try_start entry)).

Definition seed_entry (height : N) (entry : TryEntry) : checked (list work) :=
  catch_work ← mapM (λ c, seed_target "catch" entry (catch_target c) height) (catches entry);
  match finally entry with
  | Some target => w ← seed_target "finally" entry target height; Ok (catch_work ++ [w])
  | None => Ok catch_work
  end.

Definition seed_handlers (ip : nat) (height : N) : checked (list work) :=
  match handler_starts !! ip with
  | None => Ok []
  | Some entries =>
      mjoin <$> mapM (λ index, e ← indexed (handlers function !! index); seed_entry height e)
        entries
  end.

Definition push_fallthrough (ip : nat) (height : N) : checked (list work) :=
  if S ip =? length (code function) then
    invalid "missing return: control falls off the end of the function" (Some (N.of_nat ip))
  else Ok [(S ip, height)].

Definition push_successors (ip : nat) (next : N) (i : Instruction) : checked (list work) :=
  match i with
  | Jump target => Ok [(N.to_nat target, next)]
  | JumpIfFalse target =>
      through ← push_fallthrough ip next;
      Ok ((N.to_nat target, next) :: through)
  | _ => push_fallthrough ip next
  end.

(** Stack effects and successors. *)
Definition successors (ip : nat) (height : N) (i : Instruction) : checked (list work) :=
  let at_ := Some (N.of_nat ip) in
  match i with
  | Return =>
      require (height =? 1)%N
        ("return with stack height " +:+ pretty height +:+ ", expected 1") at_;;
      Ok []
  | Throw | Rethrow => require (negb (height <? 1)%N) "stack underflow" at_;; Ok []
  | _ =>
      effect ← indexed (stack_effect i);
      let next := (Z.of_N height + effect)%Z in
      require (negb (next <? 0)%Z) "stack underflow" at_;;
      require (negb (MAX_OPERAND_STACK <? next)%Z)
        "operand stack exceeds limit of 4096" at_;;
      push_successors ip (Z.to_N next) i
  end.

(** The work one visited instruction adds, in the order it is pushed. *)
Definition visit (ip : nat) (height : N) : checked (list work) :=
  seeds ← seed_handlers ip height;
  i ← indexed (code function !! ip);
  check_operands function i (Some (N.of_nat ip));;
  next ← successors ip height i;
  Ok (seeds ++ next).

(** The worklist loop; the head of [worklist] is the end of the source's
    vector. *)
Fixpoint analyse (fuel : nat) (heights : list (option N)) (worklist : list work) :
    checked (list (option N)) :=
  match fuel with
  | O => Err OutOfFuel
  | S fuel =>
      match worklist with
      | [] => Ok heights
      | (ip, height) :: worklist =>
          seen ← indexed (heights !! ip);
          match seen with
          | Some existing =>
              if (existing =? height)%N then analyse fuel heights worklist
              else invalid ("inconsistent stack heights " +:+ pretty existing +:+ " and " +:+
                            pretty height +:+ " at join") (Some (N.of_nat ip))
          | None =>
              pushed ← visit ip height;
              analyse fuel (<[ip := Some height]> heights) (reverse pushed ++ worklist)
          end
      end
  end.

(** Every visit pushes at most two successors and its handlers' targets, and
    no instruction is visited twice. *)
Definition analysis_fuel : nat :=
  2 + 2 * length (code function) +
  sum_list ((λ e, S (length (catches e))) <$> handlers function).

Fixpoint collect_heights (ip : nat) (heights : list (option N)) : checked (list N) :=
  match heights with
  | [] => Ok []
  | Some height :: heights => (cons height) <$> collect_heights (S ip) heights
  | None :: _ => invalid "unreachable instruction" (Some (N.of_nat ip))
  end.

Definition stack_heights : checked (list N) :=
  require (negb (length (code function) =? 0)) "function has no code" None;;
  require (negb (MAX_INSTRUCTIONS <? N.of_nat (length (code function)))%N)
    "code exceeds limit of 16777216 instructions" None;;
  require (negb (MAX_LOCALS <? local_count function)%N) "local count exceeds slot limit" None;;
  heights ← analyse analysis_fuel (replicate (length (code function)) None) [(0, 0%N)];
  collect_heights 0 heights.

(** ** Handler tables *)
Definition disjoint_ranges (a b : TryEntry) : bool :=
  ((try_end a <=? try_start b) || (try_end b <=? try_start a))%N.
Definition nested_ranges (a b : TryEntry) : bool :=
  (((try_start a <=? try_start b) && (try_end b <=? try_end a)) ||
   ((try_start b <=? try_start a) && (try_end a <=? try_end b)))%N.

Definition check_catch (entry : TryEntry) (catch : CatchEntry) : checked () :=
  require (in_bounds (catch_target catch) (code function))
    ("catch target " +:+ pretty (catch_target catch) +:+ " out of range") (Some (try_start entry));;
  require (binding catch <? local_count function)%N
    ("catch binding slot " +:+ pretty (binding catch) +:+ " out of range") (Some (try_start entry)).

Definition check_pending (entry : TryEntry) : checked () :=
  let at_ := Some (try_start entry) in
  match finally entry, pending_value entry, pending_error entry with
  | Some finally, Some value, Some flag =>
      require (in_bounds finally (code function))
        ("finally target " +:+ pretty finally +:+ " out of range") at_;;
      require ((value <? local_count function) && (flag <? local_count function))%N
        "pending slot out of range" at_
  | None, None, None => Ok tt
  | _, _, _ =>
      invalid "pending slots must be present exactly when finally is present" at_
  end.

Definition check_nesting (entry other : TryEntry) : checked () :=
  require (disjoint_ranges entry other || nested_ranges entry other)
    "try ranges must not partially overlap" (Some (try_start entry)).

Definition check_entry (heights : list N) (entry : TryEntry) (later : list TryEntry) : checked () :=
  let at_ := Some (try_start entry) in
  require ((try_start entry <? try_end entry) &&
           (try_end entry <=? N.of_nat (length (code function))))%N
    ("try range [" +:+ pretty (try_start entry) +:+ ", " +:+ pretty (try_end entry) +:+
     ") out of bounds or empty") at_;;
  height ← indexed (heights !! N.to_nat (try_start entry));
  require (height =? depth entry)%N
    ("handler depth " +:+ pretty (depth entry) +:+ " disagrees with computed " +:+
     pretty height) at_;;
  check_all (check_catch entry) (catches entry);;
  check_pending entry;;
  check_all (check_nesting entry) later.

Fixpoint check_handlers (heights : list N) (entries : list TryEntry) : checked () :=
  match entries with
  | [] => Ok tt
  | entry :: later => check_entry heights entry later;; check_handlers heights later
  end.

Definition validate_handlers (heights : list N) : checked () :=
  check_handlers heights (handlers function).

Definition max_height (heights : list N) : N := foldr N.max 0%N heights.

Definition validate_function : checked () :=
  require (length (source_map function) =? length (code function))
    "source map length does not match code length" None;;
  heights ← stack_heights;
  require (max_height heights =? max_stack function)%N
    ("declared max_stack " +:+ pretty (max_stack function) +:+ " disagrees with computed " +:+
     pretty (max_height heights)) None;;
  validate_handlers heights.
End validate.

(** ** Whole programs *)
Section validate_program.
Context `{ValueForms}.

Definition arity_declared (function : FunctionPrototype) (schema : FunctionSchema) : bool :=
  (length (fixed schema) =? N.to_nat (arity function)) &&
  eqb (is_some (rest schema)) (variadic function).

(** [index as u16] wraps. *)
Definition validate_declared_arity (program : Program) (index : nat) : checked () :=
  function ← indexed (functions program !! index);
  match function_schema program (N.of_nat index mod 65536) with
  | Some (Function_ arities) =>
      require (existsb (arity_declared function) arities)
        ("function schema for " +:+ default "<anonymous>" (name function) +:+ " has no " +:+
         pretty (arity function) +:+ "-argument arity" +:+
         (if variadic function then " with rest arguments" else "")) None
  | _ => Ok tt
  end.

Definition in_function (multiple : bool) (index : nat) (failure : validation_failure) :
    validation_failure :=
  match failure with
  | Invalid e =>
      Invalid (if multiple
               then mkValidationError ("function " +:+ pretty index +:+ ": " +:+ message e)
                      (instruction e)
               else e)
  | _ => failure
  end.

Definition validate_one (program : Program) (multiple : bool)
    (indexed_function : nat * FunctionPrototype) : checked () :=
  map_err (in_function multiple indexed_function.1)
    (validate_declared_arity program indexed_function.1;;
     validate_function program indexed_function.2).

Definition validate (program : Program) : checked () :=
  require (negb (MAX_CONSTANTS <? N.of_nat (length (constants program)))%N)
    "constant pool exceeds limit of 16777216" None;;
  require (negb (length (functions program) =? 0)) "program has no functions" None;;
  require (in_bounds (entry program) (functions program))
    "entry function index out of range" None;;
  check_all (validate_one program (1 <? length (functions program)))
    (imap pair (functions program)).
End validate_program.

(** ** Reading off success *)
Lemma require_ok c m a u : require c m a = Ok u ↔ c = true.
Proof. destruct c, u; cbn; naive_solver. Qed.

Lemma then_ok {A} (m : checked ()) (k : checked A) y : (m;; k) = Ok y ↔ m = Ok tt ∧ k = Ok y.
Proof. rewrite result_bind_ok. split; [by intros ([] & ? & ?)|by intros []; exists tt]. Qed.

Lemma check_all_ok {A} (check : A → checked ()) l :
  check_all check l = Ok tt ↔ Forall (λ x, check x = Ok tt) l.
Proof.
  induction l as [|x l IH]; cbn [check_all]; [by split|].
  by rewrite then_ok, IH, Forall_cons.
Qed.

(** A check fails only with a validation error. *)
Definition benign {A} (m : checked A) : Prop := ∀ e, m = Err e → ∃ v, e = Invalid v.

Lemma benign_ok {A} (x : A) : benign (Ok x).
Proof. by intros e [=]. Qed.
Lemma benign_invalid {A} m a : benign (@invalid A m a).
Proof. intros e [= <-]. eauto. Qed.
Lemma benign_require c m a : benign (require c m a).
Proof. destruct c; [apply benign_ok|apply benign_invalid]. Qed.
Lemma benign_bind {A B} (m : checked A) (f : A → checked B) :
  benign m → (∀ x, m = Ok x → benign (f x)) → benign (m ≫= f).
Proof. destruct m as [x|e]; cbn; intros Hm Hf; [by apply Hf|]. intros e' [= <-]. by apply Hm. Qed.
Lemma benign_fmap {A B} (m : checked A) (f : A → B) : benign m → benign (f <$> m).
Proof. destruct m as [x|e]; cbn; intros Hm; [apply benign_ok|]. intros e' [= <-]. by apply Hm. Qed.
Lemma benign_indexed {A} (o : option A) : is_Some o → benign (indexed o).
Proof. intros [x ->]. apply benign_ok. Qed.
Lemma benign_check_all {A} (check : A → checked ()) l :
  Forall (λ x, benign (check x)) l → benign (check_all check l).
Proof. induction 1; cbn; [apply benign_ok|]. by apply benign_bind. Qed.
Lemma benign_mapM {A B} (f : A → checked B) l :
  Forall (λ x, benign (f x)) l → benign (mapM f l).
Proof.
  induction 1; cbn; [apply benign_ok|]. apply benign_bind; [done|]. intros k _.
  apply benign_bind; [done|]. intros ks _. apply benign_ok.
Qed.
Create HintDb benign discriminated.
#[export] Hint Resolve benign_ok benign_invalid benign_require benign_bind benign_fmap
  benign_indexed benign_check_all benign_mapM : benign.

(** ** The declarative height assignment *)
Section specification.
Context `{ValueForms}.
Variable program : Program.
Variable function : FunctionPrototype.

(** The operands of an instruction refer to existing things of the right kind. *)
Definition operands_ok (i : Instruction) : Prop :=
  match i with
  | Constant index => in_bounds index (constants program) = true
  | LoadLocal slot | StoreLocal slot => (slot < local_count function)%N
  | IntrinsicCall c _ | ProtocolCall c _ | IntrinsicValue c | BuiltinValue c
  | NamespaceValue c | DynamicBind c | DynamicUnbind c | GetGlobal c | SetGlobal c
  | VarGlobal c | MutableFieldGet c | MutableFieldSet c | DeclareGlobal c
  | MakeMultiArity c _ => is_string_constant program c = true
  | NamespaceOperation c =>
      ∃ v, constant_at program c = Some v ∧ is_management_form v = true
  | Jump target | JumpIfFalse target => in_bounds target (code function) = true
  | Closure prototype captures =>
      ∃ target, functions program !! N.to_nat prototype = Some target ∧
                captures = capture_count target
  | CallStatic prototype argc =>
      ∃ target, functions program !! N.to_nat prototype = Some target ∧
                arity_accepts target argc = true ∧
                capture_count target = capture_count function
  | DefGlobal name metadata | DefMacro name metadata =>
      is_string_constant program name = true ∧
      match metadata with
      | Some m => in_bounds m (var_metadata program) = true
      | None => True
      end
  | _ => True
  end.

Lemma string_constant_ok c a : string_constant program c a = Ok tt ↔ is_string_constant program c = true.
Proof.
  unfold string_constant, is_string_constant. destruct (constant_at program c) as [[]|]; cbn; naive_solver.
Qed.

Lemma check_operands_ok i a :
  check_operands program function i a = Ok tt ↔ operands_ok i.
Proof.
  destruct i; cbn [check_operands operands_ok]; rewrite ?require_ok, ?string_constant_ok, ?N.ltb_lt;
    try done.
  - unfold check_closure. destruct (functions program !! _); [rewrite require_ok, N.eqb_eq|]; cbn; naive_solver.
  - unfold check_call_static. destruct (functions program !! _) as [t|]; [|cbn; naive_solver].
    rewrite then_ok, !require_ok, N.eqb_eq. naive_solver.
  - unfold check_definition. rewrite then_ok, string_constant_ok.
    destruct metadata; rewrite ?require_ok; naive_solver.
  - unfold check_definition. rewrite then_ok, string_constant_ok.
    destruct metadata; rewrite ?require_ok; naive_solver.
  - unfold check_namespace_operation. destruct (constant_at program index) as [v|];
      [rewrite require_ok|]; cbn; naive_solver.
Qed.

Lemma check_operands_benign i a : benign (check_operands program function i a).
Proof.
  assert (∀ c, benign (string_constant program c a)).
  { intros c. unfold string_constant. destruct (constant_at program c) as [[]|]; auto with benign. }
  destruct i; cbn [check_operands];
    unfold check_closure, check_call_static, check_definition, check_namespace_operation;
    repeat case_match; auto with benign.
Qed.

(** What the terminals require of the height. *)
Definition terminal_ok (i : Instruction) (height : N) : Prop :=
  match i with
  | Return => height = 1%N
  | Throw | Rethrow => (1 ≤ height)%N
  | _ => True
  end.

(** Control reaches [target] with [next] operands from instruction [ip] at
    height [height]: by fallthrough, by a jump, or by unwinding into a handler
    whose protected range starts at [ip]. *)
Inductive flows (ip : nat) (height : N) : nat → Z → Prop :=
| flow_next i effect :
    code function !! ip = Some i → falls_through i = true → stack_effect i = Some effect →
    flows ip height (S ip) (Z.of_N height + effect)
| flow_jump i target effect :
    code function !! ip = Some i → jump_target i = Some target → stack_effect i = Some effect →
    flows ip height (N.to_nat target) (Z.of_N height + effect)
| flow_catch e c :
    e ∈ handlers function → N.to_nat (try_start e) = ip → c ∈ catches e →
    flows ip height (N.to_nat (catch_target c)) (Z.of_N height)
| flow_finally e target :
    e ∈ handlers function → N.to_nat (try_start e) = ip → finally e = Some target →
    flows ip height (N.to_nat target) (Z.of_N height).

(** [heights] assigns every instruction the one operand count it runs at. *)
Record well_stacked (heights : list N) : Prop := {
  ws_length : length heights = length (code function);
  ws_entry : heights !! 0 = Some 0%N;
  ws_bound : Forall (λ h, Z.of_N h ≤ MAX_OPERAND_STACK)%Z heights;
  ws_operands ip i : code function !! ip = Some i → operands_ok i;
  ws_terminal ip i h : code function !! ip = Some i → heights !! ip = Some h → terminal_ok i h;
  ws_flow ip h target next : heights !! ip = Some h → flows ip h target next →
    ∃ h', heights !! target = Some h' ∧ Z.of_N h' = next;
}.

(** Some execution path leads to the instruction. *)
Definition reaches (heights : list N) : nat → Prop :=
  rtc (λ ip target, ∃ h next, heights !! ip = Some h ∧ flows ip h target next) 0.
End specification.

(** ** One visit of the analysis *)
Section visits.
Context `{ValueForms}.
Variable program : Program.
Variable function : FunctionPrototype.

(** The handler entries whose protected range starts at [ip], and where they
    lead. *)
Definition entries_at (ip : nat) : list TryEntry :=
  filter (λ e, N.to_nat (try_start e) = ip) (handlers function).
Definition targets (e : TryEntry) : list N :=
  (catch_target <$> catches e) ++ option_list (finally e).
Definition handler_targets (ip : nat) : list N := entries_at ip ≫= targets.

Lemma handler_starts_fold ip (l : list (nat * TryEntry)) m :
  default [] (foldl (λ m e, let start := N.to_nat (try_start e.2) in
                <[start := default [] (m !! start) ++ [e.1]]> m) m l !! ip) =
  default [] ((m : gmap nat (list nat)) !! ip) ++
  (filter (λ e, N.to_nat (try_start e.2) = ip) l).*1.
Proof.
  revert m. induction l as [|[index e] l IH]; intros m; cbn [foldl]; [by rewrite app_nil_r|].
  rewrite IH, filter_cons. cbn. case_decide as Hip; subst.
  - rewrite lookup_insert_eq. cbn. by rewrite <-app_assoc.
  - by rewrite lookup_insert_ne by done.
Qed.

Lemma handler_starts_lookup ip :
  default [] (handler_starts function !! ip) =
  (filter (λ e, N.to_nat (try_start e.2) = ip) (imap pair (handlers function))).*1.
Proof. apply handler_starts_fold. Qed.

Lemma seed_handlers_entries ip height :
  seed_handlers function ip height =
  mjoin <$> mapM (seed_entry function height) (entries_at ip).
Proof.
  assert (seed_handlers function ip height =
    mjoin <$> mapM (λ index, e ← indexed (handlers function !! index); seed_entry function height e)
      (default [] (handler_starts function !! ip))) as ->.
  { unfold seed_handlers. by destruct (handler_starts function !! ip). }
  rewrite handler_starts_lookup, mapM_fmap_index. f_equal.
  assert (entries_at ip =
    (filter (λ e, N.to_nat (try_start e.2) = ip) (imap pair (handlers function))).*2) as ->.
  { unfold entries_at. rewrite <-(imap_pair_snd (handlers function)) at 1.
    generalize (imap pair (handlers function)).
    induction l as [|[index e] l IH]; [done|]. rewrite fmap_cons, !filter_cons.
    cbn. case_decide; cbn; by rewrite IH. }
  rewrite mapM_fmap_index. apply mapM_result_ext, Forall_forall.
  intros [index e] [_ Hin%elem_of_imap_pair]%list_elem_of_filter. cbn. by rewrite Hin.
Qed.

Definition seeds (height : N) (l : list N) : list (nat * N) := (λ t, (N.to_nat t, height)) <$> l.

Lemma seed_target_ok what e target height w :
  seed_target function what e target height = Ok w ↔
  in_bounds target (code function) = true ∧ w = (N.to_nat target, height).
Proof. unfold seed_target. destruct (in_bounds _ _); cbn; naive_solver. Qed.

Lemma seed_catches_ok e height l ws :
  mapM (λ c, seed_target function "catch" e (catch_target c) height) l = Ok ws ↔
  Forall (λ t, in_bounds t (code function) = true) (catch_target <$> l) ∧
  ws = seeds height (catch_target <$> l).
Proof.
  revert ws. induction l as [|c l IH]; intros ws; cbn [mapM].
  { split; [intros [= <-]; split; [constructor|done]|intros [_ ->]; done]. }
  unfold seeds in *. rewrite !fmap_cons.
  rewrite result_bind_ok, Forall_cons. setoid_rewrite seed_target_ok.
  setoid_rewrite result_bind_ok. setoid_rewrite IH. split.
  - intros (x & (? & ->) & ks & (? & ->) & [= <-]). done.
  - intros [[? ?] ->]. eexists. split; [done|]. by eexists.
Qed.

Lemma seed_entry_ok e height ws :
  seed_entry function height e = Ok ws ↔
  Forall (λ t, in_bounds t (code function) = true) (targets e) ∧ ws = seeds height (targets e).
Proof.
  unfold seed_entry, targets, seeds. rewrite result_bind_ok, Forall_app, fmap_app.
  setoid_rewrite seed_catches_ok. destruct (finally e) as [t|]; cbn [option_list option_rect fmap list_fmap].
  - setoid_rewrite result_bind_ok. setoid_rewrite seed_target_ok.
    rewrite Forall_singleton. split.
    + intros (x & (? & ->) & y & (? & ->) & [= <-]). done.
    + intros [[? ?] ->]. eexists. split; [done|]. by eexists.
  - rewrite !app_nil_r. split.
    + intros (x & (? & ->) & [= <-]). split; [split; [done|constructor]|done].
    + intros [[? _] ->]. by eexists.
Qed.

Lemma seed_handlers_ok ip height ws :
  seed_handlers function ip height = Ok ws ↔
  Forall (λ t, in_bounds t (code function) = true) (handler_targets ip) ∧
  ws = seeds height (handler_targets ip).
Proof.
  rewrite seed_handlers_entries, result_fmap_ok. unfold handler_targets.
  revert ws. induction (entries_at ip) as [|e l IH]; intros ws; cbn [mapM].
  - split; [by intros (? & [= <-] & <-)|intros [_ ->]; exists []; done].
  - setoid_rewrite result_bind_ok. setoid_rewrite seed_entry_ok. setoid_rewrite result_bind_ok.
    cbn [mbind list_bind]. rewrite Forall_app. unfold seeds in *. rewrite fmap_app. split.
    + intros (x & (w & (Hw & ->) & y & Hy & [= <-]) & <-).
      destruct (proj1 (IH (mjoin y))) as [? Hj]; [eauto|].
      split; [done|]. exact (f_equal (app _) Hj).
    + intros [[He Hl] ->]. destruct (proj2 (IH _) (conj Hl eq_refl)) as (x & Hx & Hj).
      eexists. split; [eexists; split; [by split|]; by eexists|]. exact (f_equal (app _) Hj).
Qed.

Lemma elem_of_handler_targets ip t :
  t ∈ handler_targets ip ↔
  ∃ e, e ∈ handlers function ∧ N.to_nat (try_start e) = ip ∧
       ((∃ c, c ∈ catches e ∧ t = catch_target c) ∨ finally e = Some t).
Proof.
  unfold handler_targets, targets, entries_at. rewrite list_elem_of_bind.
  setoid_rewrite elem_of_app. setoid_rewrite list_elem_of_fmap.
  setoid_rewrite list_elem_of_filter.
  assert (∀ o : option N, t ∈ option_list o ↔ o = Some t) as Ho.
  { intros [x|]; cbn; rewrite ?list_elem_of_singleton, ?elem_of_nil; naive_solver. }
  setoid_rewrite Ho. naive_solver.
Qed.

(** Where ordinary control goes. *)
Definition steps (ip : nat) (i : Instruction) : list nat :=
  match jump_target i with Some t => [N.to_nat t] | None => [] end ++
  (if falls_through i then [S ip] else []).
Definition next_height (height : N) (i : Instruction) : Z :=
  (Z.of_N height + default 0 (stack_effect i))%Z.

Lemma push_fallthrough_ok ip height ws :
  push_fallthrough function ip height = Ok ws ↔
  S ip ≠ length (code function) ∧ ws = [(S ip, height)].
Proof.
  unfold push_fallthrough. destruct (Nat.eqb_spec (S ip) (length (code function))); cbn; naive_solver.
Qed.

Lemma push_successors_ok ip next i ws :
  is_Some (stack_effect i) →
  push_successors function ip next i = Ok ws ↔
  (falls_through i = true → S ip ≠ length (code function)) ∧
  ws = (λ t, (t, next)) <$> steps ip i.
Proof.
  intros [effect Heffect].
  assert (push_fallthrough function ip next = Ok ws ↔
    (true = true → S ip ≠ length (code function)) ∧ ws = [(S ip, next)]) as Hfall.
  { rewrite push_fallthrough_ok. naive_solver. }
  destruct i; try exact Hfall; try done; cbn; clear Hfall.
  - naive_solver.
  - rewrite result_bind_ok. setoid_rewrite push_fallthrough_ok. split.
    + intros (x & [? ->] & [= <-]). done.
    + intros [Hne ->]. exists [(S ip, next)]. split; [|done]. split; [by apply Hne|done].
Qed.

Lemma successors_continue ip height i effect :
  stack_effect i = Some effect →
  successors function ip height i =
  (require (negb (Z.of_N height + effect <? 0)%Z) "stack underflow" (Some (N.of_nat ip));;
   require (negb (MAX_OPERAND_STACK <? Z.of_N height + effect)%Z)
     "operand stack exceeds limit of 4096" (Some (N.of_nat ip));;
   push_successors function ip (Z.to_N (Z.of_N height + effect)) i).
Proof. destruct i; intros [= <-]; reflexivity. Qed.

Lemma successors_ok ip height i ws :
  successors function ip height i = Ok ws ↔
  terminal_ok i height ∧
  (is_Some (stack_effect i) → 0 ≤ next_height height i ≤ MAX_OPERAND_STACK)%Z ∧
  (falls_through i = true → S ip ≠ length (code function)) ∧
  ws = (λ t, (t, Z.to_N (next_height height i))) <$> steps ip i.
Proof.
  unfold next_height. destruct (stack_effect i) as [effect|] eqn:Heffect.
  - rewrite (successors_continue ip height i effect Heffect), !then_ok, !require_ok,
      !negb_true_iff, !Z.ltb_ge, push_successors_ok by eauto.
    assert (terminal_ok i height) by (by destruct i). cbn [default].
    split; [naive_solver|]. intros (_ & Hb & Hf & ->). pose proof (Hb ltac:(eauto)). naive_solver.
  - assert (∀ c : bool, (is_Some (@None Z) → 0 ≤ Z.of_N height + 0 ≤ MAX_OPERAND_STACK)%Z) as Hn
      by (by intros _ []).
    destruct i; try done; cbn [successors terminal_ok falls_through steps jump_target app fmap list_fmap default];
      rewrite then_ok, require_ok, ?N.eqb_eq, ?negb_true_iff, ?N.ltb_ge;
      (split; [intros [? [= <-]]|intros (? & _ & _ & ->)]; split_and!; try done; by intros []).
Qed.

Definition visit_weight (ip : nat) : nat := 2 + length (handler_targets ip).

Lemma visit_ok ip height ws :
  visit program function ip height = Ok ws ↔
  ∃ i, code function !! ip = Some i ∧ operands_ok program function i ∧ terminal_ok i height ∧
    Forall (λ t, in_bounds t (code function) = true) (handler_targets ip) ∧
    (is_Some (stack_effect i) → 0 ≤ next_height height i ≤ MAX_OPERAND_STACK)%Z ∧
    (falls_through i = true → S ip ≠ length (code function)) ∧
    ws = seeds height (handler_targets ip) ++
         ((λ t, (t, Z.to_N (next_height height i))) <$> steps ip i).
Proof.
  unfold visit. rewrite result_bind_ok. setoid_rewrite result_bind_ok.
  setoid_rewrite then_ok. setoid_rewrite result_bind_ok.
  setoid_rewrite check_operands_ok. setoid_rewrite seed_handlers_ok. setoid_rewrite successors_ok.
  unfold indexed. split.
  - intros (? & [? ->] & i & Hi & ? & ? & (? & ? & ? & ->) & [= <-]).
    destruct (code function !! ip) as [i'|] eqn:Hc; cbn in Hi; simplify_eq. naive_solver.
  - intros (i & -> & ? & ? & ? & ? & ? & ->). eexists. split; [done|]. exists i.
    split; [done|]. split; [done|]. eexists. split; [|done]. done.
Qed.
End visits.

(** ** The analysis loop *)
Section analysis.
Context `{ValueForms}.
Variable program : Program.
Variable function : FunctionPrototype.
Local Abbreviation len := (length (code function)).
Local Abbreviation visits := (visit program function).
Local Abbreviation flow := (flows function).

Lemma stack_effect_continues i :
  is_Some (stack_effect i) ↔ falls_through i = true ∨ is_Some (jump_target i).
Proof. destruct i; cbn; split; intros; naive_solver. Qed.

Lemma in_bounds_lt {A} (t : N) (l : list A) : in_bounds t l = true ↔ N.to_nat t < length l.
Proof. unfold in_bounds. rewrite N.ltb_lt. lia. Qed.

Lemma elem_of_steps ip i t :
  t ∈ steps ip i ↔ (∃ n, jump_target i = Some n ∧ t = N.to_nat n) ∨ falls_through i = true ∧ t = S ip.
Proof.
  unfold steps. rewrite elem_of_app.
  destruct (jump_target i), (falls_through i); rewrite ?list_elem_of_singleton, ?elem_of_nil; naive_solver.
Qed.

Lemma length_steps ip i : length (steps ip i) ≤ 2.
Proof. unfold steps. destruct (jump_target i), (falls_through i); cbn; lia. Qed.
Local Opaque steps handler_targets.

Lemma flows_inv ip h i t z :
  code function !! ip = Some i → flow ip h t z ↔
  t ∈ steps ip i ∧ is_Some (stack_effect i) ∧ z = next_height h i ∨
  (∃ n, n ∈ handler_targets function ip ∧ t = N.to_nat n ∧ z = Z.of_N h).
Proof.
  intros Hi. rewrite elem_of_steps. setoid_rewrite elem_of_handler_targets. unfold next_height. split.
  - intros Hf. destruct Hf as [i' e Hi' Hf He|i' n e Hi' Hj He|e c ? ? ?|e n ? ? ?]; simplify_eq.
    + left. rewrite He. naive_solver.
    + left. rewrite He. naive_solver.
    + right. naive_solver.
    + right. naive_solver.
  - intros [([(n & Hj & ->)|[Hf ->]] & [e He] & ->)|(n & (e & He & <- & [(c & Hc & ->)|Hf]) & -> & ->)].
    + rewrite He. by eapply flow_jump.
    + rewrite He. by eapply flow_next.
    + by eapply flow_catch.
    + by eapply flow_finally.
Qed.

Lemma visit_flows ip h ws :
  visits ip h = Ok ws →
  (∀ t z, flow ip h t z → ∃ h', (t, h') ∈ ws ∧ Z.of_N h' = z) ∧
  (∀ t h', (t, h') ∈ ws →
     flow ip h t (Z.of_N h') ∧ t < len ∧
     ((Z.of_N h ≤ MAX_OPERAND_STACK)%Z → (Z.of_N h' ≤ MAX_OPERAND_STACK)%Z)) ∧
  length ws ≤ visit_weight function ip.
Proof.
  intros (i & Hi & Hop & _ & Hin & Hnext & Hfall & ->)%visit_ok. rewrite Forall_forall in Hin.
  setoid_rewrite (flows_inv ip h i); [|done..]. setoid_rewrite elem_of_app. unfold seeds.
  setoid_rewrite list_elem_of_fmap. split_and!.
  - intros t z [(Ht & He & ->)|(n & Hn & -> & ->)].
    + exists (Z.to_N (next_height h i)). split; [right; eauto|]. specialize (Hnext He). lia.
    + exists h. split; [left; eauto|done].
  - intros t h' [(n & [= -> ->] & Hn)|(t' & [= -> ->] & Ht)].
    + split_and!; [right; eauto|apply in_bounds_lt, Hin, Hn|done].
    + assert (is_Some (stack_effect i)) as He.
      { apply stack_effect_continues. apply elem_of_steps in Ht. naive_solver. }
      specialize (Hnext He). split_and!; [left; split_and!; [done|done|lia]| |lia].
      apply elem_of_steps in Ht as [(n & Hj & ->)|[Hf ->]].
      * apply in_bounds_lt. destruct i; simplify_eq/=; done.
      * pose proof (lookup_lt_Some _ _ _ Hi). specialize (Hfall Hf). lia.
  - unfold visit_weight. rewrite length_app, !length_fmap. pose proof (length_steps ip i). lia.
Qed.

Lemma visit_complete ip h i :
  code function !! ip = Some i → operands_ok program function i → terminal_ok i h →
  (∀ t z, flow ip h t z → t < len ∧ (0 ≤ z ≤ MAX_OPERAND_STACK)%Z) →
  ∃ ws, visits ip h = Ok ws.
Proof.
  intros Hi Hop Hterm Hflow. setoid_rewrite (flows_inv ip h i) in Hflow; [|done..].
  setoid_rewrite visit_ok. eexists. exists i. split_and!; try done.
  - apply Forall_forall. intros n Hn. apply in_bounds_lt.
    apply (Hflow _ (Z.of_N h)). right. eauto.
  - intros He. assert (∃ t, t ∈ steps ip i) as [t Ht].
    { setoid_rewrite elem_of_steps. apply stack_effect_continues in He as [|[? ?]]; eauto. }
    apply (Hflow t). left. eauto.
  - intros Hf Hlen. destruct (Hflow (S ip) (next_height h i)); [|lia].
    left. rewrite elem_of_steps, stack_effect_continues. naive_solver.
Qed.

Lemma visit_benign ip h : ip < len → benign (visits ip h).
Proof.
  intros [i Hi]%lookup_lt_is_Some. unfold visit. rewrite seed_handlers_entries.
  apply benign_bind.
  - apply benign_fmap, benign_mapM, Forall_forall. intros e _. unfold seed_entry.
    assert (∀ what t, benign (seed_target function what e t h)).
    { intros what t. unfold seed_target. destruct (in_bounds _ _); auto with benign. }
    apply benign_bind; [apply benign_mapM, Forall_forall; auto|].
    intros ws _. destruct (finally e); auto with benign.
  - intros ws _. rewrite Hi. cbn. apply benign_bind; [apply check_operands_benign|]. intros _ _.
    apply benign_bind; [|auto with benign].
    assert (∀ n, benign (push_fallthrough function ip n)).
    { intros n. unfold push_fallthrough. case_match; auto with benign. }
    destruct (stack_effect i) as [e|] eqn:He.
    + rewrite (successors_continue _ _ _ _ _ He).
      do 2 (apply benign_bind; [auto with benign|intros _ _]).
      destruct i; cbn; auto with benign.
    + destruct i; try done; cbn; auto with benign.
Qed.
End analysis.

(** ** The worklist invariant *)
Section worklist.
Context `{ValueForms}.
Variable program : Program.
Variable function : FunctionPrototype.
Local Abbreviation len := (length (code function)).
Local Abbreviation visits := (visit program function).
Local Abbreviation flow := (flows function).
Local Abbreviation run := (analyse program function).

Definition visited (heights : list (option N)) (ip : nat) (h : N) : Prop :=
  heights !! ip = Some (Some h).

(** Paths labelled with the height they arrive at. *)
Inductive path : nat → N → Prop :=
| path_entry : path 0 0
| path_flow ip h t h' : path ip h → flow ip h t (Z.of_N h') → path t h'.

Record worklist_inv (heights : list (option N)) (worklist : list (nat * N)) : Prop := {
  wi_length : length heights = len;
  wi_work ip h : (ip, h) ∈ worklist → ip < len ∧ (Z.of_N h ≤ MAX_OPERAND_STACK)%Z ∧ path ip h;
  wi_visited ip h : visited heights ip h →
    (Z.of_N h ≤ MAX_OPERAND_STACK)%Z ∧ path ip h ∧
    ∃ ws, visits ip h = Ok ws ∧
      ∀ t h', (t, h') ∈ ws → visited heights t h' ∨ (t, h') ∈ worklist;
  wi_entry : visited heights 0 0 ∨ (0, 0%N) ∈ worklist;
}.

Lemma visited_insert heights ip h t h' :
  heights !! ip = Some None →
  visited (<[ip := Some h]> heights) t h' ↔ t = ip ∧ h' = h ∨ visited heights t h'.
Proof.
  intros Hip. unfold visited. pose proof (lookup_lt_Some _ _ _ Hip).
  destruct (decide (t = ip)) as [->|Hne].
  - rewrite list_lookup_insert_eq by done. rewrite Hip. naive_solver.
  - rewrite list_lookup_insert_ne by done. naive_solver.
Qed.

Lemma worklist_inv_start : 0 < len → worklist_inv (replicate len None) [(0, 0%N)].
Proof.
  intros Hlen. split.
  - apply length_replicate.
  - intros ip h [= -> ->]%list_elem_of_singleton. split_and!; [done|done|constructor].
  - intros ip h Hv. unfold visited in Hv. apply lookup_replicate in Hv. naive_solver.
  - right. by apply list_elem_of_singleton.
Qed.

(** A join already visited at the same height is dropped. *)
Lemma worklist_inv_join heights worklist ip h :
  worklist_inv heights ((ip, h) :: worklist) → visited heights ip h →
  worklist_inv heights worklist.
Proof.
  intros [Hl Hw Hv He] Hip. split; [done| | |].
  - intros t h' Ht. apply Hw. by right.
  - intros t h' Ht. destruct (Hv t h' Ht) as (? & ? & ws & Hws & Hedge). split_and!; [done..|].
    exists ws. split; [done|]. intros u k Hu.
    destruct (Hedge u k Hu) as [?|[[= -> ->]|?]%elem_of_cons]; auto.
  - destruct He as [?|[[= <- <-]|?]%elem_of_cons]; auto.
Qed.

Lemma worklist_inv_visit heights worklist ip h ws :
  worklist_inv heights ((ip, h) :: worklist) → heights !! ip = Some None →
  visits ip h = Ok ws →
  worklist_inv (<[ip := Some h]> heights) (reverse ws ++ worklist).
Proof.
  intros [Hl Hw Hv He] Hip Hws. destruct (Hw ip h) as (Hlt & Hb & Hp); [by left|].
  destruct (visit_flows program function ip h ws Hws) as (_ & Hflows & _). split.
  - by rewrite length_insert.
  - intros t h' [Ht|Ht]%elem_of_app; [rewrite elem_of_reverse in Ht|apply Hw; by right].
    destruct (Hflows t h' Ht) as (? & ? & ?). split_and!; [done|auto|by eapply path_flow].
  - intros t h' [[-> ->]|Ht]%visited_insert; [|..|done].
    + split_and!; [done..|]. exists ws. split; [done|]. intros u k Hu. right.
      apply elem_of_app. left. by apply elem_of_reverse.
    + destruct (Hv t h' Ht) as (? & ? & ws' & Hws' & Hedge). split_and!; [done..|].
      exists ws'. split; [done|]. intros u k Hu. rewrite visited_insert by done.
      rewrite elem_of_app. destruct (Hedge u k Hu) as [?|[[= -> ->]|?]%elem_of_cons]; auto.
  - rewrite visited_insert, elem_of_app by done.
    destruct He as [?|[[= <- <-]|?]%elem_of_cons]; auto.
Qed.

Lemma analyse_sound fuel heights worklist final :
  worklist_inv heights worklist → run fuel heights worklist = Ok final →
  worklist_inv final [].
Proof.
  revert heights worklist. induction fuel as [|fuel IH]; intros heights worklist Hinv; [done|].
  cbn [analyse]. destruct worklist as [|[ip h] worklist]; [by intros [= <-]|].
  intros (seen & Hseen & Hrun)%result_bind_ok. unfold indexed in Hseen.
  destruct (heights !! ip) as [o|] eqn:Hip; simplify_eq/=. destruct seen as [existing|].
  - destruct (N.eqb_spec existing h) as [->|]; [|done].
    eapply IH, Hrun. by eapply worklist_inv_join.
  - apply result_bind_ok in Hrun as (ws & Hws & Hrun).
    eapply IH, Hrun. by apply worklist_inv_visit.
Qed.

(** *** Termination *)
Definition pending (heights : list (option N)) : nat :=
  sum_list (imap (λ ip o, match o with None => visit_weight function ip | Some _ => 0 end) heights).

Lemma pending_insert heights ip h :
  heights !! ip = Some None →
  pending (<[ip := Some h]> heights) + visit_weight function ip = pending heights.
Proof.
  intros Hip. unfold pending.
  pose proof (sum_list_imap_insert
    (λ ip o, match o with None => visit_weight function ip | Some _ => 0 end)
    heights ip None (Some h) Hip) as Hsum. cbn beta iota in Hsum. lia.
Qed.

Lemma analyse_benign fuel heights worklist :
  worklist_inv heights worklist → length worklist + pending heights < fuel →
  benign (run fuel heights worklist).
Proof.
  revert heights worklist. induction fuel as [|fuel IH]; intros heights worklist Hinv Hfuel; [lia|].
  cbn [analyse]. destruct worklist as [|[ip h] worklist]; [apply benign_ok|].
  destruct (wi_work _ _ Hinv ip h) as (Hip & _); [by left|].
  rewrite <-(wi_length _ _ Hinv) in Hip. apply lookup_lt_is_Some in Hip as [seen Hip].
  rewrite Hip. cbn [indexed ok_or mbind result_bind]. cbn in Hfuel. destruct seen as [existing|].
  - destruct (N.eqb_spec existing h) as [->|]; [|apply benign_invalid].
    apply IH; [by eapply worklist_inv_join|lia].
  - apply benign_bind.
    + apply visit_benign. rewrite <-(wi_length _ _ Hinv). by eapply lookup_lt_Some.
    + intros ws Hws. apply IH; [by apply worklist_inv_visit|].
      destruct (visit_flows program function ip h ws Hws) as (_ & _ & Hlen).
      pose proof (pending_insert heights ip h Hip). rewrite length_app, length_reverse. lia.
Qed.

Lemma length_handler_targets ip :
  length (handler_targets function ip) ≤
  sum_list ((λ e, if decide (N.to_nat (try_start e) = ip) then S (length (catches e)) else 0)
              <$> handlers function).
Proof.
  unfold handler_targets, entries_at. induction (handlers function) as [|e l IH]; [done|].
  rewrite filter_cons, fmap_cons. cbn. case_decide; [|done]. cbn. rewrite length_app.
  unfold targets at 1. rewrite length_app, length_fmap.
  destruct (finally e); cbn in *; lia.
Qed.

Lemma total_weight {A} (hs : list TryEntry) (l : list A) :
  sum_list (imap (λ ip (_ : A), 2 + sum_list ((λ e, if decide (N.to_nat (try_start e) = ip)
    then S (length (catches e)) else 0) <$> hs)) l) ≤
  2 * length l + sum_list ((λ e, S (length (catches e))) <$> hs).
Proof.
  induction hs as [|e hs IH].
  - cbn [fmap list_fmap]. clear. induction l as [|x l IH]; [done|].
    rewrite imap_cons. cbn in *. unfold compose. cbn. lia.
  - rewrite (imap_ext _ (λ ip (_ : A), (if decide (N.to_nat (try_start e) = ip)
      then S (length (catches e)) else 0) + (2 + sum_list ((λ e, if decide (N.to_nat (try_start e) = ip)
      then S (length (catches e)) else 0) <$> hs)))).
    + rewrite sum_list_imap_add.
      pose proof (sum_list_imap_single (N.to_nat (try_start e)) (S (length (catches e))) l).
      rewrite !fmap_cons, !sum_list_cons. lia.
    + intros i x _. rewrite !fmap_cons, !sum_list_cons. lia.
Qed.

Lemma pending_start :
  length [(0, 0%N)] + pending (replicate len None) < analysis_fuel function.
Proof.
  unfold pending, analysis_fuel.
  pose proof (total_weight (handlers function) (replicate len (@None N))) as Htotal.
  rewrite length_replicate in Htotal.
  enough (sum_list (imap (λ ip (o : option N), match o with None => visit_weight function ip | Some _ => 0 end)
    (replicate len None)) ≤ sum_list (imap (λ ip (_ : option N), 2 + sum_list ((λ e,
      if decide (N.to_nat (try_start e) = ip) then S (length (catches e)) else 0)
      <$> handlers function)) (replicate len None))) by (cbn [length]; lia).
  apply sum_list_imap_le. intros i o [-> _]%lookup_replicate. unfold visit_weight.
  pose proof (length_handler_targets i). lia.
Qed.
End worklist.

(** ** The analysis computes the height assignment *)
Section heights.
Context `{ValueForms}.
Variable program : Program.
Variable function : FunctionPrototype.
Local Abbreviation len := (length (code function)).

Lemma collect_heights_ok ip heights hs :
  collect_heights ip heights = Ok hs ↔ heights = Some <$> hs.
Proof.
  revert ip hs. induction heights as [|[h|] heights IH]; intros ip hs; cbn [collect_heights].
  - destruct hs; cbn; naive_solver.
  - rewrite result_fmap_ok. setoid_rewrite IH. destruct hs; cbn; naive_solver.
  - destruct hs; cbn; naive_solver.
Qed.

Lemma collect_heights_benign ip heights : benign (collect_heights ip heights).
Proof.
  revert ip. induction heights as [|[h|] heights IH]; intros ip; cbn [collect_heights];
    auto with benign.
Qed.

Lemma worklist_inv_well_stacked hs :
  0 < len → worklist_inv program function (Some <$> hs) [] → well_stacked program function hs.
Proof.
  intros Hlen [Hl _ Hv He].
  assert (∀ ip h, hs !! ip = Some h → visited (Some <$> hs) ip h) as Hvis.
  { intros ip h Hip. unfold visited. rewrite list_lookup_fmap. by rewrite Hip. }
  assert (∀ ip h, visited (Some <$> hs) ip h → hs !! ip = Some h) as Hvis'.
  { intros ip h Hip. unfold visited in Hip. rewrite list_lookup_fmap in Hip.
    destruct (hs !! ip); by simplify_eq/=. }
  assert (∀ ip i h, code function !! ip = Some i → hs !! ip = Some h →
    operands_ok program function i ∧ terminal_ok i h) as Hops.
  { intros ip i h Hi Hip. destruct (Hv ip h (Hvis ip h Hip)) as (_ & _ & ws & Hws & _).
    apply visit_ok in Hws as (i' & Hi' & ? & ? & _). by simplify_eq. }
  split.
  - by rewrite length_fmap in Hl.
  - destruct He as [He|?%elem_of_nil]; auto. by apply Hvis'.
  - apply Forall_lookup. intros ip h Hip. by apply (Hv ip h), Hvis.
  - intros ip i Hi. assert (is_Some (hs !! ip)) as [h Hip].
    { apply lookup_lt_is_Some. rewrite length_fmap in Hl. rewrite Hl. by eapply lookup_lt_Some. }
    by eapply Hops.
  - intros ip i h Hi Hip. by eapply Hops.
  - intros ip h t z Hip Hflow. destruct (Hv ip h (Hvis ip h Hip)) as (_ & _ & ws & Hws & Hedge).
    destruct (visit_flows program function ip h ws Hws) as (Hf & _).
    destruct (Hf t z Hflow) as (h' & Hin & <-). exists h'. split; [|done].
    destruct (Hedge t h' Hin) as [?|?%elem_of_nil]; auto. done.
Qed.

Lemma path_reaches hs :
  well_stacked program function hs →
  ∀ ip h, path function ip h → hs !! ip = Some h ∧ reaches function hs ip.
Proof.
  intros Hws. induction 1 as [|ip h t h' _ [Hip Hr] Hflow].
  - split; [exact (ws_entry _ _ _ Hws)|constructor].
  - destruct (ws_flow _ _ _ Hws ip h t (Z.of_N h') Hip Hflow) as (h'' & Ht & ?%N2Z.inj); subst.
    split; [done|]. eapply rtc_r; [done|]. eauto.
Qed.

(** On a program with a height assignment the loop never meets an error. *)
Lemma analyse_complete hs fuel heights worklist :
  well_stacked program function hs → worklist_inv program function heights worklist →
  length worklist + pending function heights < fuel →
  ∃ final, analyse program function fuel heights worklist = Ok final.
Proof.
  intros Hhs. revert heights worklist.
  induction fuel as [|fuel IH]; intros heights worklist Hinv Hfuel; [lia|].
  cbn [analyse]. destruct worklist as [|[ip h] worklist]; [by eexists|].
  destruct (wi_work _ _ _ _ Hinv ip h) as (Hip & _ & Hp); [by left|].
  destruct (path_reaches hs Hhs ip h Hp) as [Hh _].
  rewrite <-(wi_length _ _ _ _ Hinv) in Hip. apply lookup_lt_is_Some in Hip as [seen Hip].
  rewrite Hip. cbn [indexed ok_or mbind result_bind]. cbn in Hfuel. destruct seen as [existing|].
  - destruct (wi_visited _ _ _ _ Hinv ip existing Hip) as (_ & Hp' & _).
    destruct (path_reaches hs Hhs ip existing Hp') as [Hh' _]. simplify_eq.
    rewrite N.eqb_refl. apply IH; [by eapply worklist_inv_join|lia].
  - assert (is_Some (code function !! ip)) as [i Hi].
    { apply lookup_lt_is_Some. rewrite <-(ws_length _ _ _ Hhs). by eapply lookup_lt_Some. }
    destruct (visit_complete program function ip h i) as [ws Hws]; [done| | | |].
    + by eapply ws_operands.
    + by eapply ws_terminal.
    + intros t z Hflow. destruct (ws_flow _ _ _ Hhs ip h t z Hh Hflow) as (h' & Ht & <-).
      pose proof (lookup_lt_Some _ _ _ Ht). rewrite (ws_length _ _ _ Hhs) in *.
      split; [done|]. pose proof (ws_bound _ _ _ Hhs) as Hb. rewrite Forall_lookup in Hb.
      specialize (Hb _ _ Ht). lia.
    + rewrite Hws. apply IH; [by apply worklist_inv_visit|].
      destruct (visit_flows program function ip h ws Hws) as (_ & _ & Hlen).
      pose proof (pending_insert function heights ip h Hip).
      rewrite length_app, length_reverse. lia.
Qed.

(** At the end every path's target has been visited. *)
Lemma worklist_inv_closed hs final :
  well_stacked program function hs → worklist_inv program function final [] →
  (∀ ip h, visited final ip h → hs !! ip = Some h) ∧
  (∀ ip, reaches function hs ip → ∃ h, visited final ip h).
Proof.
  intros Hhs Hinv. split.
  - intros ip h Hip. destruct (wi_visited _ _ _ _ Hinv ip h Hip) as (_ & Hp & _).
    by apply (path_reaches hs Hhs).
  - intros ip Hr. pattern ip. eapply rtc_ind_r; [|..|exact Hr].
    + destruct (wi_entry _ _ _ _ Hinv) as [?|?%elem_of_nil]; [eauto|done].
    + intros a b _ (h & z & Ha & Hflow) [h' Hv].
      destruct (wi_visited _ _ _ _ Hinv a h' Hv) as (_ & Hp & ws & Hws & Hedge).
      apply (path_reaches hs Hhs) in Hp as [Ha' _]. assert (h' = h) as -> by congruence.
      destruct (visit_flows program function a h ws Hws) as (Hf & _).
      destruct (Hf b z Hflow) as (k & Hin & _).
      destruct (Hedge b k Hin) as [?|?%elem_of_nil]; [eauto|done].
Qed.

Lemma stack_heights_spec hs :
  stack_heights program function = Ok hs ↔
  0 < len ∧ (N.of_nat len ≤ MAX_INSTRUCTIONS)%N ∧ (local_count function ≤ MAX_LOCALS)%N ∧
  well_stacked program function hs ∧ ∀ ip, ip < len → reaches function hs ip.
Proof.
  unfold stack_heights. rewrite !then_ok, !require_ok, !negb_true_iff, Nat.eqb_neq, !N.ltb_ge,
    result_bind_ok. setoid_rewrite collect_heights_ok. split.
  - intros (Hne & ? & ? & final & Hrun & ->). assert (0 < len) as Hlen by lia.
    apply analyse_sound in Hrun; [|by apply worklist_inv_start].
    pose proof (worklist_inv_well_stacked hs Hlen Hrun) as Hhs. split_and!; try done.
    intros ip Hip. rewrite <-(ws_length _ _ _ Hhs) in Hip. apply lookup_lt_is_Some in Hip as [h Hip].
    destruct (wi_visited _ _ _ _ Hrun ip h) as (_ & Hp & _).
    { unfold visited. rewrite list_lookup_fmap. by rewrite Hip. }
    by eapply path_reaches.
  - intros (Hlen & ? & ? & Hhs & Hreach). split; [lia|]. split; [done|]. split; [done|].
    pose proof (worklist_inv_start program function Hlen) as Hstart.
    destruct (analyse_complete hs (analysis_fuel function) _ _ Hhs Hstart) as [final Hrun];
      [apply pending_start|].
    exists final. split; [done|]. apply analyse_sound in Hrun; [|done].
    destruct (worklist_inv_closed hs final Hhs Hrun) as [Hagree Hclosed].
    apply list_eq_same_length with len; [by rewrite length_fmap, (ws_length _ _ _ Hhs)|
      by apply (wi_length _ _ _ _ Hrun)|].
    intros ip o o' Hip Ho Ho'. destruct (Hclosed ip (Hreach ip Hip)) as [h Hv].
    pose proof (Hagree ip h Hv) as Hh. unfold visited in Hv.
    rewrite list_lookup_fmap, Hh in Ho'. by simplify_eq/=.
Qed.

Lemma stack_heights_benign : benign (stack_heights program function).
Proof.
  unfold stack_heights. apply benign_bind; [auto with benign|]. intros [] Hlen%require_ok.
  rewrite negb_true_iff, Nat.eqb_neq in Hlen.
  do 2 (apply benign_bind; [auto with benign|intros _ _]).
  apply benign_bind; [|intros; apply collect_heights_benign].
  apply analyse_benign; [apply worklist_inv_start; lia|apply pending_start].
Qed.
End heights.

(** ** The handler table *)
Section handler_table.
Variable function : FunctionPrototype.
Local Abbreviation len := (length (code function)).

Definition pending_ok (e : TryEntry) : Prop :=
  match finally e, pending_value e, pending_error e with
  | Some target, Some value, Some flag =>
      N.to_nat target < len ∧ (value < local_count function)%N ∧ (flag < local_count function)%N
  | None, None, None => True
  | _, _, _ => False
  end.

Definition laminar (a b : TryEntry) : Prop :=
  (try_end a ≤ try_start b ∨ try_end b ≤ try_start a ∨
   (try_start a ≤ try_start b ∧ try_end b ≤ try_end a) ∨
   (try_start b ≤ try_start a ∧ try_end a ≤ try_end b))%N.

Record entry_ok (heights : list N) (e : TryEntry) : Prop := {
  eo_range : (try_start e < try_end e)%N ∧ N.to_nat (try_end e) ≤ len;
  eo_depth : heights !! N.to_nat (try_start e) = Some (depth e);
  eo_catches : Forall (λ c, N.to_nat (catch_target c) < len ∧
                            (binding c < local_count function)%N) (catches e);
  eo_pending : pending_ok e;
}.

Definition handler_table_ok (heights : list N) : Prop :=
  Forall (entry_ok heights) (handlers function) ∧ ForallOrdPairs laminar (handlers function).

Lemma check_entry_ok heights e later :
  check_entry function heights e later = Ok tt ↔
  entry_ok heights e ∧ Forall (laminar e) later.
Proof.
  unfold check_entry. rewrite then_ok, require_ok, andb_true_iff, N.ltb_lt, N.leb_le, result_bind_ok.
  repeat setoid_rewrite then_ok.
  setoid_rewrite require_ok. setoid_rewrite N.eqb_eq. repeat setoid_rewrite check_all_ok.
  assert (check_pending function e = Ok tt ↔ pending_ok e) as Hpending.
  { unfold check_pending, pending_ok.
    destruct (finally e), (pending_value e), (pending_error e); try (by split; [intros [=]|intros []]).
    rewrite then_ok, !require_ok, in_bounds_lt, andb_true_iff, !N.ltb_lt. done. }
  assert (Forall (λ x, check_nesting e x = Ok tt) later ↔ Forall (laminar e) later) as Hnest.
  { apply Forall_proper; [|done]. intros b. unfold check_nesting, laminar.
    rewrite require_ok. unfold disjoint_ranges, nested_ranges.
    rewrite !orb_true_iff, !andb_true_iff, !N.leb_le. tauto. }
  assert (Forall (λ x, check_catch function e x = Ok tt) (catches e) ↔
    Forall (λ c, N.to_nat (catch_target c) < len ∧ (binding c < local_count function)%N) (catches e)) as Hcatch.
  { apply Forall_proper; [|done]. intros c. unfold check_catch.
    by rewrite then_ok, !require_ok, in_bounds_lt, N.ltb_lt. }
  setoid_rewrite Hpending. setoid_rewrite Hnest. setoid_rewrite Hcatch. unfold indexed. split.
  - intros ([? ?] & h & Hh & -> & ? & ? & ?). split; [|done]. split; [lia| |done..].
    destruct (heights !! _); by simplify_eq/=.
  - intros [[[? ?] Hd ? ?] ?]. rewrite Hd. split; [lia|]. eexists. split; [done|]. split_and!; done.
Qed.

Lemma validate_handlers_ok heights :
  validate_handlers function heights = Ok tt ↔ handler_table_ok heights.
Proof.
  unfold validate_handlers, handler_table_ok.
  induction (handlers function) as [|e l IH]; cbn [check_handlers].
  - split; [split; constructor|done].
  - rewrite then_ok, check_entry_ok, IH, Forall_cons. split.
    + intros ([? ?] & ? & ?). split; [done|by constructor].
    + intros [[? ?] Hp]. inversion Hp; subst. done.
Qed.

Lemma validate_handlers_benign heights :
  length heights = len → benign (validate_handlers function heights).
Proof.
  intros Hlen. unfold validate_handlers. induction (handlers function) as [|e l IH];
    cbn [check_handlers]; [auto with benign|].
  apply benign_bind; [|intros _ _; exact IH]. unfold check_entry.
  apply benign_bind; [auto with benign|].
  intros [] Hr%require_ok. rewrite andb_true_iff, N.ltb_lt, N.leb_le in Hr. apply benign_bind.
  { apply benign_indexed, lookup_lt_is_Some. rewrite Hlen. lia. }
  intros h _. apply benign_bind; [auto with benign|intros _ _].
  apply benign_bind; [apply benign_check_all, Forall_forall; intros c _; unfold check_catch; auto with benign|intros _ _].
  apply benign_bind; [unfold check_pending; repeat case_match; auto with benign|intros _ _].
  apply benign_check_all, Forall_forall. intros b _. unfold check_nesting. auto with benign.
Qed.
End handler_table.

(** ** Valid programs *)
Section valid.
Context `{ValueForms}.

Definition arity_ok (p : Program) (index : nat) (f : FunctionPrototype) : Prop :=
  ∀ arities, function_schema p (N.of_nat index mod 65536) = Some (Function_ arities) →
    ∃ a, a ∈ arities ∧ length (fixed a) = N.to_nat (arity f) ∧
         (is_Some (rest a) ↔ variadic f = true).

Record valid_function (p : Program) (index : nat) (f : FunctionPrototype) (heights : list N) :
    Prop := {
  vf_arity : arity_ok p index f;
  vf_map : length (source_map f) = length (code f);
  vf_code : 0 < length (code f) ∧ (N.of_nat (length (code f)) ≤ MAX_INSTRUCTIONS)%N ∧
            (local_count f ≤ MAX_LOCALS)%N;
  vf_heights : well_stacked p f heights;
  vf_reachable ip : ip < length (code f) → reaches f heights ip;
  vf_max : max_height heights = max_stack f;
  vf_handlers : handler_table_ok f heights;
}.

Record valid_program (p : Program) : Prop := {
  vp_constants : (N.of_nat (length (constants p)) ≤ MAX_CONSTANTS)%N;
  vp_entry : N.to_nat (entry p) < length (functions p);
  vp_functions index f : functions p !! index = Some f → ∃ heights, valid_function p index f heights;
}.

Lemma validate_declared_arity_ok p index f :
  functions p !! index = Some f →
  validate_declared_arity p index = Ok tt ↔ arity_ok p index f.
Proof.
  intros Hf. unfold validate_declared_arity, arity_ok. rewrite Hf. cbn [indexed ok_or mbind result_bind].
  destruct (function_schema p _) as [[]|]; try (split; [intros _ ? [=]|done]).
  rewrite require_ok, existsb_exists. setoid_rewrite <-elem_of_list_In || setoid_rewrite <-list_elem_of_In.
  split.
  - intros (a & Ha & Hd) ? [= <-]. exists a. split; [done|]. unfold arity_declared in Hd.
    rewrite andb_true_iff, Nat.eqb_eq, eqb_true_iff in Hd. destruct Hd as [? <-].
    split; [done|]. destruct (rest a); cbn; split; naive_solver.
  - intros Ha. destruct (Ha _ eq_refl) as (a & Hin & Hlen & Hrest). exists a. split; [done|].
    unfold arity_declared. rewrite andb_true_iff, Nat.eqb_eq, eqb_true_iff. split; [done|].
    destruct (rest a), (variadic f); cbn; try done.
    + by destruct Hrest as [Hr _]; discriminate Hr.
    + by destruct Hrest as [_ [? ?]].
Qed.

Lemma validate_function_ok p f :
  validate_function p f = Ok tt ↔
  length (source_map f) = length (code f) ∧ ∃ hs, stack_heights p f = Ok hs ∧
    max_height hs = max_stack f ∧ handler_table_ok f hs.
Proof.
  unfold validate_function. rewrite then_ok, require_ok, Nat.eqb_eq, result_bind_ok.
  repeat setoid_rewrite then_ok. setoid_rewrite require_ok. setoid_rewrite N.eqb_eq.
  setoid_rewrite validate_handlers_ok. done.
Qed.

Lemma validate_one_ok p multiple index f :
  functions p !! index = Some f →
  validate_one p multiple (index, f) = Ok tt ↔ ∃ hs, valid_function p index f hs.
Proof.
  intros Hf. unfold validate_one. rewrite map_err_ok, then_ok.
  rewrite (validate_declared_arity_ok p index f Hf), validate_function_ok.
  setoid_rewrite stack_heights_spec. split.
  - intros (? & ? & hs & (? & ? & ? & ? & ?) & ? & ?). exists hs. by split.
  - intros (hs & [? ? (? & ? & ?) ? ? ? ?]). split; [done|]. split; [done|]. exists hs. done.
Qed.

Lemma validate_spec p : validate p = Ok tt ↔ valid_program p.
Proof.
  unfold validate. rewrite !then_ok, !require_ok, !negb_true_iff, N.ltb_ge, Nat.eqb_neq,
    in_bounds_lt, check_all_ok. split.
  - intros (? & ? & ? & Hall). split; [done|done|]. intros index f Hf.
    apply validate_one_ok with (1 <? length (functions p)); [done|].
    rewrite Forall_forall in Hall. by apply Hall, elem_of_imap_pair.
  - intros [? ? Hall]. split_and!; [done|lia|done|]. apply Forall_forall.
    intros [index f] Hf%elem_of_imap_pair. apply validate_one_ok; [done|]. by apply Hall.
Qed.

(** C1. [validate] accepts exactly the valid programs: the pool and entry are
    in range, every annotated function has an arity its schema declares, and
    every function has a height assignment under which each instruction is
    reachable, its operands exist, both ends of every control transfer agree,
    the declared [max_stack] is the maximum and the handler table is laminar
    with the depths of the assignment. *)
Theorem validate_correct p : validate p = Ok tt ↔ valid_program p.
Proof. apply validate_spec. Qed.

Lemma validate_function_benign p f : benign (validate_function p f).
Proof.
  unfold validate_function. apply benign_bind; [auto with benign|intros _ _].
  apply benign_bind; [apply stack_heights_benign|]. intros hs Hhs.
  apply benign_bind; [auto with benign|intros _ _]. apply validate_handlers_benign.
  apply stack_heights_spec in Hhs as (_ & _ & _ & Hws & _). exact (ws_length _ _ _ Hws).
Qed.

Lemma validate_benign p : benign (validate p).
Proof.
  unfold validate. do 3 (apply benign_bind; [auto with benign|intros _ _]).
  apply benign_check_all, Forall_forall. intros [index f] Hf%elem_of_imap_pair.
  unfold validate_one. assert (∀ m, benign m → benign (map_err (A:=()) (in_function
    (1 <? length (functions p)) index) m)) as Hmap.
  { intros [x|e] Hm; cbn; [apply benign_ok|]. intros e' [= <-].
    destruct (Hm e eq_refl) as [v ->]. cbn. eauto. }
  apply Hmap, benign_bind.
  - unfold validate_declared_arity. cbn. rewrite Hf. cbn. repeat case_match; auto with benign.
  - intros _ _. apply validate_function_benign.
Qed.

(** Validation is total: on every program, however malformed, it returns a
    verdict or a validation error; no index is out of bounds and the worklist
    runs dry within its fuel. *)
Theorem validate_total p :
  validate p = Ok tt ∨ ∃ e, validate p = Err (Invalid e).
Proof.
  pose proof (validate_benign p) as Hb. destruct (validate p) as [[]|e]; [by left|].
  destruct (Hb e eq_refl) as [v ->]. eauto.
Qed.

(** The analysis assigns the unique consistent heights: it succeeds with
    [heights] exactly when they are one operand count per instruction,
    consistent along every control transfer and unwinding, within the limits,
    and every instruction is reachable. *)
Theorem stack_heights_correct p f heights :
  stack_heights p f = Ok heights ↔
  0 < length (code f) ∧ (N.of_nat (length (code f)) ≤ MAX_INSTRUCTIONS)%N ∧
  (local_count f ≤ MAX_LOCALS)%N ∧ well_stacked p f heights ∧
  ∀ ip, ip < length (code f) → reaches f heights ip.
Proof. apply stack_heights_spec. Qed.

(** Two successful height assignments of the same function coincide. *)
Lemma well_stacked_unique p f heights heights' ip :
  well_stacked p f heights → well_stacked p f heights' → reaches f heights ip →
  heights !! ip = heights' !! ip.
Proof.
  intros Hw Hw' Hr. pattern ip. eapply rtc_ind_r; [|..|exact Hr].
  - by rewrite (ws_entry _ _ _ Hw), (ws_entry _ _ _ Hw').
  - intros a b _ (h & z & Ha & Hflow) Heq. rewrite Ha in Heq. symmetry in Heq.
    destruct (ws_flow _ _ _ Hw a h b z Ha Hflow) as (k & Hk & <-).
    destruct (ws_flow _ _ _ Hw' a h b _ Heq Hflow) as (k' & Hk' & ?%N2Z.inj). congruence.
Qed.
End valid.
