(* ===== verification/Lowering.v ===== *)
(** * Lowering

    [vm/compiler.rs] and its submodules [bindings], [calls], [coroutines],
    [exceptions], [functions], [globals], [literals] and [recur] under
    [src/core/rust/src]: the lowering of each form to instructions. The methods
    call each other through [compile_form]; they are stated over it, and
    [compile_form] itself has fuel for the depth of forms and expansions. *)
From S2P Require Import Prelude Bytes Text Opcode Kernel Reader Printer Program DefinitionForms Destructure Scope Compiler Captures Validate.

Section lowering.
Context {W : Type} `{TextEnv} `{CompilerEnv W}.
Abbreviation comp := (prog (Compiler W) compile_stop).

Variable compile_form : Form → Span → option (list SpannedForm) → bool → comp ().
Variable collect_free : list string → Child → list (string * option Position) →
  comp (list (string * option Position)).

Definition compile_child (c : Child) (tail : bool) : comp () :=
  compile_form (child_form c) (child_span c) (child_nodes c) tail.
Definition compile_nested (s : Span) (form : Form) : comp () := compile_form form s None false.

(** [if self.ctx().fallthrough { .. }]. *)
Definition if_live (m : comp ()) : comp () :=
  live ← reads_on; if live : bool then m else mret tt.

(** ** Sequences *)
Fixpoint sequence_loop (top tail : bool) (l : list Child) : comp () :=
  match l with
  | [] => mret tt
  | child :: l =>
      if_live (
        modify (with_top_level top);;
        match l with
        | [] => compile_child child tail
        | _ =>
            compile_child child false;;
            if_live (emit_at Pop (child_span child));;
            sequence_loop top tail l
        end)
  end.

Definition compile_sequence (l : list Child) (tail : bool) : comp () :=
  match l with
  | [] => emit_ Nil None
  | _ =>
      c ← gets id;
      sequence_loop (top_level c && (length (contexts c) =? 1)) tail l
  end.

(** ** Conditionals *)
Definition patch_all (jumps : list nat) (target : nat) : comp () := each (λ j, patch_jump j target) jumps.

Definition compile_if (l : list Child) (s : Span) (tail : bool) : comp () :=
  match l with
  | _ :: condition :: then_ :: others =>
      if 1 <? length others then reject_at KArity "if expects 2 or 3 arguments" s else
      compile_child condition false;;
      if_live (
        jump_else ← emit (JumpIfFalse 0) (Some (start (child_span condition)));
        compile_child then_ tail;;
        then_fell ← reads_on;
        jump_end ← (if then_fell : bool
                    then j ← emit (Jump 0) (Some (start (child_span then_))); mret (Some j)
                    else mret None);
        set_fallthrough true;;
        else_target ← here;
        match others with
        | else_form :: _ => compile_child else_form tail
        | [] => emit_at Nil s
        end;;
        else_fell ← reads_on;
        end_ ← here;
        patch_jump jump_else else_target;;
        match jump_end with Some j => patch_jump j end_ | None => mret tt end;;
        set_fallthrough (then_fell || else_fell))
  | _ => reject_at KArity "if expects 2 or 3 arguments" s
  end.

(** [children[1..children.len() - 1]]. *)
Definition middle (l : list Child) : list Child := drop 1 (removelast l).

Fixpoint and_loop (l : list Child) : comp (list nat) :=
  match l with
  | [] => mret []
  | child :: l =>
      compile_child child false;;
      live ← reads_on;
      if negb live then mret [] else
      emit_at Dup (child_span child);;
      j ← emit (JumpIfFalse 0) (Some (start (child_span child)));
      emit_at Pop (child_span child);;
      js ← and_loop l;
      mret (j :: js)
  end.

Definition compile_and (l : list Child) (s : Span) (tail : bool) : comp () :=
  match l with
  | [_] => emit_at True_ s
  | _ =>
      false_jumps ← and_loop (middle l);
      if_live (last ← or_crash (last l); compile_child last tail);;
      last_fell ← reads_on;
      end_ ← here;
      patch_all false_jumps end_;;
      set_fallthrough (last_fell || negb (length false_jumps =? 0))
  end.

Fixpoint or_loop (l : list Child) : comp (list nat) :=
  match l with
  | [] => mret []
  | child :: l =>
      compile_child child false;;
      live ← reads_on;
      if negb live then mret [] else
      emit_at Dup (child_span child);;
      false_jump ← emit (JumpIfFalse 0) (Some (start (child_span child)));
      j ← emit (Jump 0) (Some (start (child_span child)));
      next ← here;
      patch_jump false_jump next;;
      emit_at Pop (child_span child);;
      js ← or_loop l;
      mret (j :: js)
  end.

Definition compile_or (l : list Child) (s : Span) (tail : bool) : comp () :=
  match l with
  | [_] => emit_at Nil s
  | _ =>
      end_jumps ← or_loop (middle l);
      if_live (last ← or_crash (last l); compile_child last tail);;
      last_fell ← reads_on;
      end_ ← here;
      patch_all end_jumps end_;;
      set_fallthrough (last_fell || negb (length end_jumps =? 0))
  end.

Fixpoint cond_loop (s : Span) (tail : bool) (clauses : list Child) (end_jumps : list nat) : comp () :=
  match clauses with
  | test :: expression :: clauses =>
      compile_child test false;;
      live ← reads_on;
      if negb live then end_ ← here; patch_all end_jumps end_ else
      next_jump ← emit (JumpIfFalse 0) (Some (start (child_span test)));
      compile_child expression tail;;
      fell ← reads_on;
      end_jumps ← (if fell : bool
                   then j ← emit (Jump 0) (Some (start (child_span expression)));
                        mret (end_jumps ++ [j])
                   else mret end_jumps);
      set_fallthrough true;;
      next ← here;
      patch_jump next_jump next;;
      cond_loop s tail clauses end_jumps
  | _ =>
      emit_at Nil s;;
      end_ ← here;
      patch_all end_jumps end_
  end.

Definition compile_cond (l : list Child) (s : Span) (tail : bool) : comp () :=
  let clauses := drop 1 l in
  if negb (length clauses mod 2 =? 0) then reject_at KArity "cond expects test/expression pairs" s
  else cond_loop s tail clauses [].

(** ** Bindings *)
Definition compile_dynamic_binding (l : list Child) (s : Span) (bind : bool) : comp () :=
  if negb (length l =? (if bind then 3 else 2)) then
    reject_at KArity (if bind then "dynamic bind expects a Var and value"
                      else "dynamic unbind expects a Var") s
  else
    target ← or_crash (l !! 1);
    match child_form target with
    | FSymbol name =>
        index ← global_name_constant name (child_span target);
        if bind then
          value ← or_crash (l !! 2);
          compile_child value false;;
          if_live (emit_at (DynamicBind index) s)
        else emit_at (DynamicUnbind index) s
    | _ => reject_at KUnsupportedForm "dynamic binding target must be a symbol" (child_span target)
    end.

Fixpoint bindings_loop (form_name : string) (pairs : list Child) : comp (list N) :=
  match pairs with
  | name :: initializer :: pairs =>
      match child_form name with
      | FSymbol symbol =>
          compile_child initializer false;;
          live ← reads_on;
          if negb live then mret [] else
          slot ← declare_local symbol (Some (start (child_span name)));
          emit_at (StoreLocal slot) (child_span name);;
          slots ← bindings_loop form_name pairs;
          mret (slot :: slots)
      | _ => reject_at KUnsupportedForm (form_name +:+ " destructuring is not supported") (child_span name)
      end
  | _ => mret []
  end.

Definition compile_bindings (l : list Child) (form_name : string) : comp (list N) :=
  bindings ← or_crash (l !! 1);
  match child_form bindings with
  | FList pairs | FVector pairs =>
      if negb (length pairs mod 2 =? 0) then
        reject_at KArity (form_name +:+ " bindings require name/value pairs") (child_span bindings)
      else bindings_loop form_name (list_children pairs (child_span bindings) (child_nodes bindings))
  | _ => reject_at KArity (form_name +:+ " expects a binding list or vector") (child_span bindings)
  end.

Definition compile_let (l : list Child) (s : Span) (tail : bool) : comp () :=
  if length l <? 3 then reject_at KArity "let expects bindings and a body" s else
  open_scope;;
  result ← attempt (compile_bindings l "let";; compile_sequence (drop 2 l) tail);
  close_scope;;
  rethrow result.

Definition compile_loop (l : list Child) (s : Span) : comp () :=
  if length l <? 3 then reject_at KArity "loop expects bindings and a body" s else
  open_scope;;
  result ← attempt (
    slots ← compile_bindings l "loop";
    header ← here;
    update_ctx (λ x, with_loops (mkLoop header slots :: loops x) x);;
    result ← attempt (compile_sequence (drop 2 l) true);
    update_ctx (λ x, with_loops (tail (loops x)) x);;
    rethrow result);
  close_scope;;
  rethrow result.

(** ** Recurrence *)
Definition store_all (slots : list N) (s : Span) : comp () := each (λ slot, emit_at (StoreLocal slot) s) slots.

Definition compile_recur (l : list Child) (s : Span) (tail : bool) : comp () :=
  x ← ctx;
  match loops x with
  | [] => reject_at KRecur "recur must be inside loop" s
  | context :: outer =>
      if (length l =? 1) && negb (length (loop_slots context) =? 0) then
        reject_at KRecur "recur expects values" s
      else if existsb (λ entry, has_finally entry && (length outer <? loop_depth entry)) (tries x) then
        reject_at KRecur "recur cannot cross a finally boundary" s
      else if negb tail then reject_at KRecur "recur must be in tail position" s
      else if negb (length l - 1 =? length (loop_slots context)) then
        reject_at KRecur "loop recur arity mismatch" s
      else
        each (λ argument, compile_child argument false) (drop 1 l);;
        if_live (
          store_all (reverse (loop_slots context)) s;;
          emit_at (Jump (as_u32 (header context))) s;;
          set_fallthrough false)
  end.

(** ** Calls *)
Definition compile_call_arguments (l : list Child) (s : Span) : comp () :=
  if MAX_PRIMITIVE_ARGUMENTS <? length l - 1 then
    reject_at KLimit "calls support at most 255 arguments" s
  else each (λ argument, compile_child argument false) (drop 1 l).

Definition compile_host_call (l : list Child) (s : Span) : comp () :=
  if negb (length l =? 4) then
    reject_at KArity "std.native.Host/call expects service, method, and an argument vector" s
  else compile_call_arguments l s;; if_live (emit_at HostCall s).

Definition compile_intrinsic_call (target : string) (l : list Child) (s : Span) : comp () :=
  let argc := length l - 1 in
  if 255 <? argc then reject_at KLimit "intrinsic calls support at most 255 arguments" s else
  each (λ argument, compile_child argument false) (drop 1 l);;
  if_live (
    index ← name_constant target s;
    emit_at (if has_prefix "std.protocol." target then ProtocolCall index (as_u8 argc)
             else IntrinsicCall index (as_u8 argc)) s).

Definition compile_forwarded_call (target : string) (l : list Child) (s : Span) : comp () :=
  match canonical_intrinsic_callable_symbol target with
  | Some canonical => compile_intrinsic_call canonical l s
  | None =>
      index ← global_name_constant target s;
      emit_at (GetGlobal index) s;;
      compile_call_arguments l s;;
      if_live (emit_at (Call (as_u8 (length l - 1))) s)
  end.

(** The load of the value a name stands for, at [span]. *)
Definition load_operator (name : string) (s : Span) : comp () :=
  slot ← lookup_name name;
  c ← gets id;
  match slot with
  | Some slot => emit_at (LoadLocal slot) s
  | None =>
      if visible_global c name then emit_get_global name s
      else if visible_bytecode_callable c name then
        index ← name_constant name s; emit_at (BuiltinValue index) s
      else if visible_namespace c name then
        index ← name_constant name s; emit_at (NamespaceValue index) s
      else reject_at KUnboundSymbol ("unbound symbol: " +:+ name) s
  end.

Definition compile_dynamic_call (name : string) (l : list Child) (s : Span) : comp () :=
  load_operator name s;;
  compile_call_arguments l s;;
  if_live (emit_at (Call (as_u8 (length l - 1))) s).

Definition compile_static_or_dynamic_call (name : string) (l : list Child) (s : Span) : comp () :=
  let argc := as_u8 (length l - 1) in
  x ← ctx;
  c ← gets id;
  if bool_decide (fn_name x = Some name) && (length (captures x) =? 0) then
    let prototype := as_u16 (proto_id x) in
    target ← or_crash (prototypes c !! N.to_nat prototype);
    if arity_accepts target argc then
      compile_call_arguments l s;;
      if_live (emit_at (CallStatic prototype argc) s)
    else compile_dynamic_call name l s
  else compile_dynamic_call name l s.

Definition compile_named_call (name : string) (l : list Child) (s : Span) : comp () :=
  slot ← lookup_name name;
  c ← gets id;
  match slot with
  | Some _ => compile_static_or_dynamic_call name l s
  | None =>
      match canonical_intrinsic_callable_symbol name with
      | Some target => compile_intrinsic_call target l s
      | None =>
          match inline_target c name with
          | Some target => compile_forwarded_call target l s
          | None => compile_static_or_dynamic_call name l s
          end
      end
  end.

(** The loop that declares the parameters of an immediate function. *)
Fixpoint declare_params (params : list Child) : comp (list (N * Span)) :=
  match params with
  | [] => mret []
  | param :: params =>
      match child_form param with
      | FSymbol name =>
          slot ← declare_local name (Some (start (child_span param)));
          slots ← declare_params params;
          mret ((slot, child_span param) :: slots)
      | _ => fail Crashed
      end
  end.

Definition plain_param (form : Form) : bool :=
  match form with FSymbol name => negb (bool_decide (name = "&")) | _ => false end.

(** The parameters and body of a callee that is a function literal whose
    parameters are plain names, one for each argument. *)
Definition immediate_fn (l : list Child) : option (list Child * list Child) :=
  callee ← l !! 0;
  match child_form callee with
  | FList elements =>
      if negb (head_is ["fn"] elements) then None else
      match list_children elements (child_span callee) (child_nodes callee) with
      | _ :: parameters :: first :: others =>
          match child_form parameters with
          | FVector params =>
              let body := first :: others in
              if negb (length params =? length l - 1) || negb (forallb plain_param params) ||
                 existsb (λ b, contains_recur (child_form b)) body
              then None
              else Some (list_children params (child_span parameters) (child_nodes parameters), body)
          | _ => None
          end
      | _ => None
      end
  | _ => None
  end.

Definition compile_immediate_fn_call (l : list Child) (s : Span) : comp bool :=
  match immediate_fn l with
  | None => mret false
  | Some (param_children, body) =>
      if MAX_PRIMITIVE_ARGUMENTS <? length param_children then
        reject_at KLimit "calls support at most 255 arguments" s
      else
        each (λ argument, compile_child argument false) (drop 1 l);;
        live ← reads_on;
        if negb live then mret true else
        open_scope;;
        result ← attempt (
          slots ← declare_params param_children;
          each (λ e, emit_at (StoreLocal e.1) e.2) (reverse slots);;
          compile_sequence body false);
        close_scope;;
        rethrow result;;
        mret true
  end.

(** The prototype of a capture-free function literal that was just emitted. *)
Definition direct_prototype (argc : N) : comp (option N) :=
  x ← ctx;
  c ← gets id;
  match last (fn_code x) with
  | Some (Closure prototype 0) =>
      if length (captures x) =? 0 then
        target ← or_crash (prototypes c !! N.to_nat prototype);
        mret (if arity_accepts target argc then Some prototype else None)
      else mret None
  | _ => mret None
  end.

Definition compile_expression_call (l : list Child) (s : Span) : comp () :=
  handled ← compile_immediate_fn_call l s;
  if handled : bool then mret tt else
  callee ← or_crash (l !! 0);
  compile_child callee false;;
  if_live (
    let argc := as_u8 (length l - 1) in
    direct ← direct_prototype argc;
    match direct with
    | Some _ =>
        update_ctx (λ x, with_code (removelast (fn_code x)) (source_map_pop (fn_source_map x)) x)
    | None => mret tt
    end;;
    compile_call_arguments l s;;
    if_live (
      match direct with
      | Some prototype => emit_at (CallStatic prototype argc) s
      | None => emit_at (Call argc) s
      end)).

(** ** Functions *)
(** The fixed and rest parameters: the names and where the marker stood. *)
Fixpoint parameter_names (params : list Child) (names : list string) (rest_at : option nat) :
    comp (list string * option nat) :=
  match params with
  | [] => mret (names, rest_at)
  | param :: params =>
      match child_form param with
      | FSymbol name =>
          if decide (name = "&") then
            if is_some rest_at then
              reject_at KArity "function parameters support a single & rest parameter" (child_span param)
            else parameter_names params names (Some (length names))
          else parameter_names params (names ++ [name]) rest_at
      | _ => reject_at KUnsupportedForm "fn destructuring is not supported" (child_span param)
      end
  end.

(** [scopes.declare] on the scopes of the function to be opened. *)
Fixpoint declare_all (names : list (string * option Position)) (s : ScopeStack) : comp ScopeStack :=
  match names with
  | [] => mret s
  | (name, position) :: names =>
      r ← or_crash (declare name s);
      match r with
      | Ok (_, s) => declare_all names s
      | Err e => reject (kind e) (error_text e) position
      end
  end.

Definition close_context : comp FnContext := λ c,
  match contexts c with
  | [] => (Err Crashed, c)
  | x :: rest =>
      if proto_id x <? length (prototypes c) then
        let f := mkFunction (fn_name x) (fn_async x) (params x) (fn_variadic x)
                   (as_u16 (length (captures x))) (high_water (fn_scopes x)) 0
                   (fn_code x) (fn_source_map x) (fn_handlers x) in
        (Ok x, with_contexts rest (with_prototypes (<[proto_id x := f]> (prototypes c)) c))
      else (Err Crashed, with_contexts rest c)
  end.

Definition load_capture (capture : string * option Position) : comp () :=
  slot ← lookup_name capture.1;
  match slot with
  | Some slot => emit_ (LoadLocal slot) capture.2
  | None => reject KUnboundSymbol ("unbound symbol: " +:+ capture.1) capture.2
  end.

Definition parameter_elements (c : Child) : comp (list Form) :=
  match form_without_metadata (child_form c) with
  | FVector elements => mret elements
  | FList _ => reject_at KUnsupportedForm "function parameters must be a vector" (child_span c)
  | _ => reject_at KArity "function parameters must be a vector" (child_span c)
  end.

Definition function_arity (c : Child) (names : list string) (rest_at : option nat) : comp (N * bool) :=
  match rest_at with
  | Some fixed =>
      if length names =? S fixed then mret (as_u16 fixed, true)
      else reject_at KArity "the & rest parameter must be the last parameter" (child_span c)
  | None => mret (as_u16 (length names), false)
  end.

(** The context of a body: its prototype is reserved, its parameters and
    captures are declared. *)
Definition open_function (name : option string) (parameters : Child) (body : list Child) (s : Span)
    (async_function may_suspend : bool) : comp () :=
  elements ← parameter_elements parameters;
  let param_children := list_children elements (child_span parameters) (child_nodes parameters) in
  '(names, rest_at) ← parameter_names param_children [] None;
  '(arity, variadic) ← function_arity parameters names rest_at;
  free ← collect_each (collect_free names) body [];
  if MAX_CAPTURES <? length free then
    reject_at KLimit "closures support at most 255 captures" s
  else
    c ← gets id;
    modify (with_prototypes (prototypes c ++
      [placeholder name arity (as_u16 (length free)) variadic async_function]));;
    scopes ← declare_all
      (zip names ((λ p, Some (start (child_span p))) <$> param_children) ++ free)
      (push_scope scopes_new);
    modify (λ c', with_contexts
      (new_context (length (prototypes c)) name arity variadic may_suspend async_function free scopes
         :: contexts c') c').

Definition compile_function (name : option string) (parameters : Child) (body : list Child) (s : Span)
    (async_function may_suspend : bool) : comp () :=
  open_function name parameters body s async_function may_suspend;;
  compiled ← attempt (compile_sequence body true;; if_live (emit_ Return None));
  context ← close_context;
  rethrow compiled;;
  each load_capture (captures context);;
  emit_at (Closure (as_u16 (proto_id context)) (as_u8 (length (captures context)))) s.

Definition metadata_flag (form : Form) (key : string) : comp bool :=
  match form with
  | FMetadata metadata _ =>
      match metadata_from_form metadata with
      | Ok m => mret (flag m key)
      | Err (Failed message) => reject KUnsupportedForm message None
      | Err (Panicked _) => fail Crashed
      end
  | _ => mret false
  end.

Definition any_may_suspend (l : list Child) : comp bool :=
  c ← gets id; mret (existsb (λ child, form_may_suspend c (child_form child)) l).

(** The clauses of a function with several arities; [clause_parts] is how a
    clause is taken apart and its asynchrony decided. *)
Section clauses.
Variable clause_parts : Child → comp (Child * list Child * bool).
Variable limit : string.
Variable limit_span : Child → Span.
Variable s : Span.

Fixpoint compile_clauses (count : nat) (clauses : list Child) : comp nat :=
  match clauses with
  | [] => mret count
  | clause :: clauses =>
      '(parameters, body, async_function) ← clause_parts clause;
      suspends ← any_may_suspend body;
      compile_function None parameters body s async_function (async_function || suspends);;
      if 255 <? S count then reject_at KLimit limit (limit_span clause)
      else compile_clauses (S count) clauses
  end.
End clauses.

Definition is_list (form : Form) : bool :=
  match form_without_metadata form with FList _ => true | _ => false end.

Definition fn_clause (clause : Child) : comp (Child * list Child * bool) :=
  match form_without_metadata (child_form clause) with
  | FList forms =>
      match list_children forms (child_span clause) (child_nodes clause) with
      | parameters :: first :: others =>
          async_function ← metadata_flag (child_form parameters) "async";
          mret (parameters, first :: others, async_function)
      | _ => reject_at KArity "fn clause expects parameters and a body" (child_span clause)
      end
  | _ => reject_at KUnsupportedForm "fn multi-arity clauses must be lists" (child_span clause)
  end.

Definition compile_fn_form (l : list Child) (s : Span) : comp () :=
  match l with
  | _ :: parameters :: body =>
      if (length l =? 2) && negb (is_list (child_form parameters)) then
        reject_at KArity "fn expects parameters and a body" s
      else if is_vector (child_form parameters) then
        async_function ← metadata_flag (child_form parameters) "async";
        suspends ← any_may_suspend body;
        compile_function None parameters body s async_function (async_function || suspends)
      else if negb (is_list (child_form parameters)) then
        reject_at KUnsupportedForm "function parameters must be a vector" (child_span parameters)
      else
        count ← compile_clauses fn_clause "fn supports at most 255 arity clauses" child_span s 0
                  (parameters :: body);
        index ← name_constant "<anonymous>" s;
        emit_at (MakeMultiArity index (as_u8 count)) s
  | _ => reject_at KArity "fn expects parameters and a body" s
  end.

(** ** Global definitions: vm/compiler/globals.rs *)
Definition macro_params (form : Form) : result string Form :=
  match form_without_metadata form with
  | FVector params => Ok (FVector (FSymbol "&form" :: FSymbol "&env" :: params))
  | _ => Err "macro parameters must be a vector"
  end.

Fixpoint compile_macro_clauses (s : Span) (count : nat) (clauses : list Child) : comp nat :=
  match clauses with
  | [] => mret count
  | clause :: clauses =>
      match form_without_metadata (child_form clause) with
      | FList (parameters :: first :: others) =>
          parameters ← checked_at KUnsupportedForm (child_span clause) (macro_params parameters);
          compile_function None (nested_child (child_span clause) parameters)
            (nested_child (child_span clause) <$> first :: others) s false false;;
          if 255 <? S count then reject_at KLimit "defmacro supports at most 255 arity clauses" s
          else compile_macro_clauses s (S count) clauses
      | FList _ => reject_at KArity "defmacro clause expects parameters and a body" (child_span clause)
      | _ => reject_at KUnsupportedForm "defmacro multi-arity clauses must be lists" (child_span clause)
      end
  end.

(** The name of a definition, its metadata and what follows them. *)
Definition definition_parts (l : list Child) (context : string) (macro_form : bool) :
    comp (string * option Metadata * list Child) :=
  name_child ← or_crash (l !! 1);
  '(name, metadata) ← checked_failure (child_span name_child) EmptyString
    (binding_symbol (child_form name_child) context);
  require_owned_global name (child_span name_child);;
  '(metadata, rest) ← checked_failure (child_span name_child) (name +:+ ": ")
    (definition_metadata metadata (child_form <$> drop 2 l) false macro_form);
  mret (name, metadata, drop (length l - length rest) l).

Definition compile_defmacro (l : list Child) (s : Span) (top : bool) : comp () :=
  if negb top then reject_at KUnsupportedForm "defmacro is only supported as a top-level statement" s
  else if length l <? 4 then reject_at KArity "defmacro expects a name, parameters, and a body" s else
  name_child ← or_crash (l !! 1);
  '(name, metadata, clauses) ← definition_parts l "defmacro name" true;
  match clauses with
  | [] => reject_at KArity "defmacro expects a name, parameters, and a body" s
  | parameters :: body =>
      metadata ← var_metadata_index metadata;
      declare_program_global name;;
      modify (λ c, with_macro_shadows (macro_shadows c ∖ {[ name ]}) c);;
      (if is_vector (child_form parameters) then
        implicit ← checked_at KUnsupportedForm (child_span parameters) (macro_params (child_form parameters));
        compile_function (Some name) (nested_child (child_span parameters) implicit) body s false false
      else
        count ← compile_macro_clauses s 0 clauses;
        index ← name_constant name (child_span name_child);
        emit_at (MakeMultiArity index (as_u8 count)) s);;
      index ← name_constant name (child_span name_child);
      emit_at (DefMacro index metadata) s
  end.

Definition defn_clause (async_function : bool) (clause : Child) : comp (Child * list Child * bool) :=
  match child_form clause with
  | FList forms =>
      match list_children forms (child_span clause) (child_nodes clause) with
      | parameters :: first :: others => mret (parameters, first :: others, async_function)
      | _ => reject_at KArity "defn clause expects parameters and a body" (child_span clause)
      end
  | _ => reject_at KUnsupportedForm "defn multi-arity clauses must be lists" (child_span clause)
  end.

Definition record_definition (name : string) (metadata : option Metadata) : comp () :=
  (if has_flag metadata "macro" then mret tt
   else modify (λ c, with_macro_shadows ({[ name ]} ∪ macro_shadows c) c));;
  match (m ← metadata; get_keyword m "inline-target") with
  | Some (MSymbol target) =>
      modify (λ c, with_inline_globals (<[name := full_text target]> (inline_globals c)) c)
  | _ => mret tt
  end.

Definition compile_defn (l : list Child) (s : Span) : comp () :=
  if length l <? 4 then reject_at KArity "defn expects a name, parameters, and a body" s else
  name_child ← or_crash (l !! 1);
  '(name, metadata, clauses) ← definition_parts l "defn name" false;
  c ← gets id;
  match schema_var_reference metadata with
  | Some schema =>
      if visible_global c (full_text schema) then mret tt
      else reject_at KUnboundSymbol ("schema Var does not exist: " +:+ full_text schema) (child_span name_child)
  | None => mret tt
  end;;
  match clauses with
  | [] => reject_at KArity "defn expects a name, parameters, and a body" s
  | parameters :: body =>
      let async_function := has_flag metadata "async" in
      record_definition name metadata;;
      metadata ← var_metadata_index metadata;
      declare_program_global name;;
      (if is_vector (child_form parameters) then
        suspends ← any_may_suspend body;
        compile_function (Some name) parameters body s async_function (async_function || suspends)
      else
        count ← compile_clauses (defn_clause async_function) "defn supports at most 255 arity clauses"
                  (λ _, s) s 0 clauses;
        index ← name_constant name (child_span name_child);
        emit_at (MakeMultiArity index (as_u8 count)) s);;
      if_live (
        index ← name_constant name (child_span name_child);
        emit_at (DefGlobal index metadata) s;;
        emit_at Pop s;;
        emit_at (VarGlobal index) s)
  end.

Fixpoint declare_loop (names : list Child) : comp () :=
  match names with
  | [] => mret tt
  | child :: names =>
      match child_form child with
      | FSymbol name =>
          declare_program_global name;;
          index ← name_constant name (child_span child);
          emit_at (DeclareGlobal index) (child_span child);;
          match names with [] => mret tt | _ => emit_at Pop (child_span child) end;;
          declare_loop names
      | _ => reject_at KArity "declare expects name symbols" (child_span child)
      end
  end.

Definition compile_declare (l : list Child) (s : Span) (top : bool) : comp () :=
  if negb top then reject_at KUnsupportedForm "declare is only supported as a top-level statement" s else
  match drop 1 l with
  | [] => emit_at Nil s
  | names => declare_loop names
  end.

(** An unqualified field name. *)
Definition field_of (form : Form) : option string :=
  match form with
  | FKeyword field | FSymbol field => if string_contains SLASH field then None else Some field
  | _ => None
  end.

Definition compile_field (l : list Child) (s : Span) : comp () :=
  match l with
  | [_; instance; name] =>
      match field_of (child_form name) with
      | None => reject_at KUnsupportedForm "field name must be an unqualified keyword or symbol" (child_span name)
      | Some field =>
          compile_child instance false;;
          if_live (
            index ← name_constant field (child_span name);
            emit_at (MutableFieldGet index) s)
      end
  | _ => reject_at KArity "field expects a mutable value and field name" s
  end.

Definition compile_instance_of (l : list Child) (s : Span) : comp () :=
  if negb (length l =? 3) then
    reject_at KArity "instance? expects a struct or mutable type and value" s
  else
    each (λ argument, compile_child argument false) (drop 1 l);;
    if_live (emit_at InstanceOf s).

(** ** Bindings of globals: vm/compiler/bindings.rs *)
Definition compile_def (l : list Child) (s : Span) : comp () :=
  match l with
  | [_; name_child; initializer] =>
      '(name, metadata) ← checked_failure (child_span name_child) EmptyString
        (binding_symbol (child_form name_child) "def name");
      require_owned_global name (child_span name_child);;
      let macro_value := has_flag metadata "macro" in
      metadata ← var_metadata_index metadata;
      compile_child initializer false;;
      if_live (
        declare_program_global name;;
        (if macro_value then mret tt
         else modify (λ c, with_macro_shadows ({[ name ]} ∪ macro_shadows c) c));;
        index ← name_constant name (child_span name_child);
        emit_at (DefGlobal index metadata) s)
  | _ => reject_at KArity "def expects a name and value" s
  end.

Definition compile_set_field (place : Child) (parts : list Form) (value : Child) (s : Span) : comp () :=
  match list_children parts (child_span place) (child_nodes place) with
  | [_; receiver; name] =>
      match field_of (child_form name) with
      | None =>
          reject_at KUnsupportedForm "set! field place expects an unqualified literal field" (child_span name)
      | Some field =>
          compile_child receiver false;;
          if_live (
            compile_child value false;;
            if_live (
              index ← name_constant field (child_span name);
              emit_at (MutableFieldSet index) s))
      end
  | _ => reject_at KArity "set! field place expects a receiver and field" (child_span place)
  end.

Definition compile_set_global (place value : Child) (s : Span) : comp () :=
  match child_form place with
  | FSymbol name =>
      slot ← lookup_name name;
      c ← gets id;
      if is_some slot then
        reject_at KUnsupportedForm
          ("set! targets a global var: " +:+ name +:+ " is a lexical binding") (child_span place)
      else if negb (visible_global c name) then
        reject_at KUnboundSymbol ("unbound var: " +:+ name) (child_span place)
      else
        require_owned_global name (child_span place);;
        compile_child value false;;
        if_live (
          index ← name_constant name (child_span place);
          emit_at (SetGlobal index) s)
  | _ => reject_at KUnsupportedForm "set! expects a name symbol or field place" (child_span place)
  end.

Definition compile_set (l : list Child) (s : Span) : comp () :=
  match l with
  | [_; place; value] =>
      match child_form place with
      | FList parts =>
          if head_is ["field"] parts then compile_set_field place parts value s
          else compile_set_global place value s
      | _ => compile_set_global place value s
      end
  | _ => reject_at KArity "set! expects a place and value" s
  end.

Definition compile_var (l : list Child) (s : Span) : comp () :=
  match l with
  | [_; target] =>
      match child_form target with
      | FSymbol name =>
          c ← gets id;
          if negb (visible_global c name) then
            reject_at KUnboundSymbol ("unbound var: " +:+ name) (child_span target)
          else
            index ← name_constant name (child_span target);
            emit_at (VarGlobal index) s
      | _ => reject_at KUnsupportedForm "var expects a name symbol" (child_span target)
      end
  | _ => reject_at KArity "var expects a name symbol" s
  end.

(** ** Suspension: vm/compiler/coroutines.rs *)
Definition compile_suspension (l : list Child) (s : Span) (arity effect : string) (i : Instruction) :
    comp () :=
  match l with
  | [_; value] =>
      x ← ctx;
      if negb (suspend_allowed x) then reject_at KInvalidEffect effect s else
      compile_child value false;;
      if_live (emit_at i s)
  | _ => reject_at KArity arity s
  end.
Definition compile_await (l : list Child) (s : Span) : comp () :=
  compile_suspension l s "co/await expects one promise" "co/await requires ^:async or co/create" Await.
Definition compile_yield (l : list Child) (s : Span) : comp () :=
  compile_suspension l s "co/yield expects one value" "co/yield requires a coroutine function" Yield.

(** ** Exceptions: vm/compiler/exceptions.rs *)
Definition is_clause (c : Child) : bool :=
  match child_form c with FList elements => head_is ["catch"; "finally"] elements | _ => false end.

(** The body forms before the first clause, and the clauses. *)
Fixpoint split_clauses (l : list Child) : list Child * list Child :=
  match l with
  | [] => ([], [])
  | c :: l =>
      if is_clause c then ([], c :: l)
      else let '(body, clauses) := split_clauses l in (c :: body, clauses)
  end.

Record CatchClause := mkCatch { catch_name : string; catch_position : Position; catch_body : list Child }.

Fixpoint parse_clauses (clauses : list Child) : comp (list CatchClause * list Child) :=
  match clauses with
  | [] => mret ([], [])
  | clause :: clauses =>
      match child_form clause with
      | FList elements =>
          let l := list_children elements (child_span clause) (child_nodes clause) in
          if head_is ["finally"] elements then
            if length l <? 2 then reject_at KArity "finally expects a body" (child_span clause) else
            '(catches, body) ← parse_clauses clauses;
            mret (catches, drop 1 l ++ body)
          else
            match l with
            | [_; binding; handler] =>
                match child_form binding with
                | FSymbol name =>
                    '(catches, body) ← parse_clauses clauses;
                    mret (mkCatch name (start (child_span binding)) [handler] :: catches, body)
                | _ => reject_at KArity "catch binding must be symbol" (child_span binding)
                end
            | _ => reject_at KArity "catch expects a binding symbol and one handler form; typed host catch clauses are not part of Hara" (child_span clause)
            end
      | _ => fail Crashed
      end
  end.

Definition update_entry (index : nat) (f : TryEntry → TryEntry) : comp () :=
  x ← ctx;
  e ← or_crash (fn_handlers x !! index);
  update_ctx (with_handlers (<[index := f e]> (fn_handlers x))).
Definition with_end (n : N) (e : TryEntry) : TryEntry :=
  mkTryEntry (try_start e) n (depth e) (catches e) (finally e) (pending_value e) (pending_error e).
Definition with_catch (c : CatchEntry) (e : TryEntry) : TryEntry :=
  mkTryEntry (try_start e) (try_end e) (depth e) (catches e ++ [c]) (finally e) (pending_value e)
    (pending_error e).
Definition with_finally (n : N) (e : TryEntry) : TryEntry :=
  mkTryEntry (try_start e) (try_end e) (depth e) (catches e) (Some n) (pending_value e) (pending_error e).
Definition with_depth (n : N) (e : TryEntry) : TryEntry :=
  mkTryEntry (try_start e) (try_end e) n (catches e) (finally e) (pending_value e) (pending_error e).

(** The end of a body or clause: its result goes to the pending slot when
    there is a finally; the jump still to be patched. *)
Definition leave_region (pending : option N) : comp nat :=
  match pending with
  | Some slot => emit_ (StoreLocal slot) None;; emit (Jump 0) None
  | None => emit (Jump 0) None
  end.

(** The catch clauses of entry [index]: the jumps out of those that fall
    through. *)
Fixpoint catch_loop (index : nat) (tail : bool) (pending : option N) (clauses : list CatchClause) :
    comp (list nat) :=
  match clauses with
  | [] => mret []
  | clause :: clauses =>
      target ← here;
      open_scope;;
      binding ← declare_local (catch_name clause) (Some (catch_position clause));
      update_entry index (with_catch (mkCatchEntry "Exception" binding (as_u32 target)));;
      set_fallthrough true;;
      compile_sequence (catch_body clause) tail;;
      fell ← reads_on;
      jumps ← (if fell : bool then j ← leave_region pending; mret [j] else mret []);
      close_scope;;
      rest ← catch_loop index tail pending clauses;
      mret (jumps ++ rest)
  end.

Definition finally_region (index : nat) (flag pending : N) (jumps : list nat) (body : list Child)
    (s : Span) : comp () :=
  target ← here;
  update_entry index (with_finally (as_u32 target));;
  patch_all jumps target;;
  set_fallthrough true;;
  compile_sequence body false;;
  fell ← reads_on;
  (if fell : bool then
    emit_ Pop None;;
    emit_ (LoadLocal flag) None;;
    jump_normal ← emit (JumpIfFalse 0) None;
    emit_ (LoadLocal pending) None;;
    emit_at Rethrow s;;
    normal ← here;
    patch_jump jump_normal normal;;
    emit_ (LoadLocal pending) None
  else mret tt);;
  set_fallthrough fell.

(** The slots that hold a region's result and whether it is an error. *)
Definition pending_slots (has_finally : bool) (s : Span) : comp (option (N * N)) :=
  if has_finally then
    value ← declare_hidden_local;
    flag ← declare_hidden_local;
    emit_at False_ s;;
    emit_at (StoreLocal flag) s;;
    mret (Some (value, flag))
  else mret None.

Definition compile_try (l : list Child) (s : Span) (tail : bool) : comp () :=
  let '(body, clauses) := split_clauses (drop 1 l) in
  match head (filter (λ c, is_clause c = false) clauses) with
  | Some c => reject_at KArity "try clauses must follow body" (child_span c)
  | None =>
      '(catches, finally_body) ← parse_clauses clauses;
      let has_finally := negb (length finally_body =? 0) in
      pending ← pending_slots has_finally s;
      x ← ctx;
      let index := length (fn_handlers x) in
      update_ctx (λ x, with_handlers (fn_handlers x ++
        [mkTryEntry (as_u32 (length (fn_code x))) 0 0 [] None (fst <$> pending) (snd <$> pending)]) x);;
      update_ctx (λ x, with_tries (mkTry has_finally (length (loops x)) :: tries x) x);;
      let region_tail := tail && negb has_finally in
      compile_sequence body region_tail;;
      body_fell ← reads_on;
      jumps ← (if body_fell : bool then j ← leave_region (fst <$> pending); mret [j] else mret []);
      end_ ← here;
      update_entry index (with_end (as_u32 end_));;
      clause_jumps ← catch_loop index region_tail (fst <$> pending) catches;
      match pending with
      | Some (value, flag) => finally_region index flag value (jumps ++ clause_jumps) finally_body s
      | None =>
          after ← here;
          patch_all (jumps ++ clause_jumps) after;;
          set_fallthrough (body_fell || negb (length clause_jumps =? 0))
      end;;
      update_ctx (λ x, with_tries (List.tl (tries x)) x)
  end.

Definition compile_throw (l : list Child) (s : Span) : comp () :=
  match l with
  | [_; argument] =>
      compile_child argument false;;
      if_live (emit_at Throw s;; set_fallthrough false)
  | _ => reject_at KArity "throw expects one value" s
  end.

(** ** Literals: vm/compiler/literals.rs *)
Definition value_of_form (form : Form) (s : Span) : comp Value :=
  checked_at KUnsupportedForm s (form_to_value form).

Definition compile_quote (l : list Child) (s : Span) : comp () :=
  match l with
  | [_; quoted] => value ← value_of_form (child_form quoted) s; unique_constant value s
  | _ => reject_at KArity "quote expects one argument" s
  end.

Definition collection_count (count : nat) (s : Span) : comp N :=
  if (65535 <? N.of_nat count)%N then reject_at KLimit "collection literal exceeds 65535 items" s
  else mret (N.of_nat count).

Definition unquote_argument (form : Form) (operator : string) : option (result string Form) :=
  match form_without_metadata form with
  | FList parts =>
      if head_is [operator] parts then
        Some (match parts with
              | [_; argument] => Ok argument
              | _ => Err (operator +:+ " expects one argument")
              end)
      else None
  | _ => None
  end.

(** [compile_syntax_value]; [whole] is the form with its metadata. *)
Section syntax.
Variable s : Span.

Definition spliced_element (syntax_value : Form → comp ()) (spliced : bool) (value : Form) : comp () :=
  match unquote_argument value "unquote-splicing" with
  | Some argument => argument ← checked_at KArity s argument; compile_nested s argument
  | None =>
      syntax_value value;;
      if spliced then emit_at (BuildList 1) s else mret tt
  end.

Definition syntax_collection (syntax_value : Form → comp ()) (vector : bool) (values : list Form) : comp () :=
  let spliced := existsb (λ v, is_some (unquote_argument v "unquote-splicing")) values in
  each (spliced_element syntax_value spliced) values;;
  count ← collection_count (length values) s;
  if spliced then
    emit_at (ConcatList count) s;;
    if vector then emit_at ToVector s else mret tt
  else emit_at (if vector then BuildVector count else BuildList count) s.

Fixpoint compile_syntax_value (nested : bool) (whole form : Form) : comp () :=
  let element value := compile_syntax_value true value value in
  match form with
  | FMetadata _ value => compile_syntax_value nested whole value
  | FList values =>
      match unquote_argument form "unquote" with
      | Some argument => argument ← checked_at KArity s argument; compile_nested s argument
      | None =>
          if is_some (unquote_argument form "unquote-splicing") then
            reject_at KUnsupportedForm
              (if nested then "unquote-splicing is only valid as a collection element"
               else "unquote-splicing is not valid at the root of syntax-quote") s
          else syntax_collection element false values
      end
  | FVector values => syntax_collection element true values
  | FMap entries =>
      each (λ '(key, value), element key;; element value) entries;;
      emit_at (BuildMap (as_u16 (length entries))) s
  | FSet values => each element values;; emit_at (BuildSet (as_u16 (length values))) s
  | _ => value ← value_of_form whole s; constant value s
  end.
End syntax.

Definition compile_syntax_quote (l : list Child) (s : Span) : comp () :=
  match l with
  | [_; template] => compile_syntax_value s false (child_form template) (child_form template)
  | _ => reject_at KArity "syntax-quote expects one argument" s
  end.

Fixpoint constant_form (form : Form) : bool :=
  match form with
  | FNil | FBool _ | FNumber _ | FFloat _ | FBigInteger _ | FCharacter _ | FRegex _ | FKeyword _
  | FString _ => true
  | FTagged _ value | FMetadata _ value => constant_form value
  | FVector values | FSet values => forallb constant_form values
  | FMap entries => forallb (λ e, constant_form e.1 && constant_form e.2) entries
  | FRuntimeLiteral _ | FSymbol _ | FList _ => false
  end.

Fixpoint literal_collection_form (form : Form) : bool :=
  match form with
  | FNil | FBool _ | FNumber _ | FFloat _ | FString _ | FKeyword _ | FCharacter _ | FBigInteger _
  | FRegex _ => true
  | FVector values | FSet values => forallb literal_collection_form values
  | FMap entries => forallb (λ e, literal_collection_form e.1 && literal_collection_form e.2) entries
  | _ => false
  end.

(** The value of a primitive applied to constants. *)
Definition folded (op : IntrinsicOp) (arguments : list Form) : option Value :=
  if forallb constant_form arguments then
    match mapM form_to_value arguments with
    | Ok values => match apply_intrinsic op values with Ok value => Some value | Err _ => None end
    | Err _ => None
    end
  else None.

Definition compile_primitive (l : list Child) (s : Span) (op : IntrinsicOp) : comp () :=
  let argc := length l - 1 in
  if MAX_PRIMITIVE_ARGUMENTS <? argc then
    reject_at KLimit "primitive calls support at most 255 arguments" s
  else
    match folded op (child_form <$> drop 1 l) with
    | Some value => constant value s
    | None =>
        each (λ argument, compile_child argument false) (drop 1 l);;
        if_live (
          target ← name_constant (operator op) s;
          emit_at (IntrinsicCall target (as_u8 argc)) s)
    end.

(** ** Forms *)
Definition unsupported (form : Form) (s : Span) : comp () :=
  match form with
  | FList (FSymbol name :: _) => reject_at KUnsupportedForm ("unsupported operator: " +:+ name) s
  | _ =>
      text ← or_crash (display form);
      reject_at KUnsupportedForm ("unsupported form: " +:+ utf8 text) s
  end.

Definition compile_entries (entries : list (Form * Form)) (s : Span) : comp () :=
  each (λ '(key, value), compile_nested s key;; compile_nested s value) entries.

Definition compile_tagged (whole : Form) (tag : string) (value : Form) (s : Span) : comp () :=
  if decide (tag = "uuid") then
    match value with
    | FString text =>
        value ← checked_at KParse s (uuid_tag_value (VString text)); constant value s
    | _ => reject_at KUnsupportedForm "#uuid expects a UUID string literal" s
    end
  else if decide (tag = "arr") then
    match value with
    | FVector values =>
        if MAX_PRIMITIVE_ARGUMENTS <? length values then
          reject_at KLimit "#arr supports at most 255 elements" s
        else
          each (compile_nested s) values;;
          target ← name_constant "std.native.Arr/new" s;
          emit_at (IntrinsicCall target (as_u8 (length values))) s
    | _ => reject_at KUnsupportedForm "#arr expects a vector literal" s
    end
  else if decide (tag = "obj") then
    match value with
    | FMap entries =>
        let arguments := 2 * length entries in
        if MAX_PRIMITIVE_ARGUMENTS <? arguments then
          reject_at KLimit "#obj supports at most 127 entries" s
        else
          compile_entries entries s;;
          target ← name_constant "std.native.Obj/new" s;
          emit_at (IntrinsicCall target (as_u8 arguments)) s
    | _ => reject_at KUnsupportedForm "#obj expects a map literal" s
    end
  else unsupported whole s.

Definition compile_symbol (name : string) (s : Span) : comp () :=
  slot ← lookup_name name;
  c ← gets id;
  match slot with
  | Some slot => emit_at (LoadLocal slot) s
  | None =>
      if visible_global c name then emit_get_global name s
      else if is_some (from_symbol name) then
        target ← name_constant name s; emit_at (IntrinsicValue target) s
      else if visible_bytecode_callable c name then
        index ← name_constant name s; emit_at (BuiltinValue index) s
      else if visible_namespace c name then
        index ← name_constant name s; emit_at (NamespaceValue index) s
      else reject_at KUnboundSymbol ("unbound symbol: " +:+ name) s
  end.

Definition compile_dot (elements : list Form) (s : Span) : comp () :=
  match elements with
  | [_; receiver; method] =>
      match method with
      | FList (FSymbol method_name :: arguments) =>
          compile_nested s receiver;;
          each (compile_nested s) arguments;;
          index ← name_constant method_name s;
          emit_at (DotCall index (as_u8 (length arguments))) s
      | FList _ => reject_at KUnsupportedForm "dot method must be a symbol" s
      | _ => reject_at KUnsupportedForm "dot call expects a method list" s
      end
  | _ => reject_at KUnsupportedForm "dot expects a receiver and method" s
  end.

Definition compile_namespace_operation (form : Form) (s : Span) : comp () :=
  value ← value_of_form form s;
  index ← constant_index_of value s;
  emit_at (NamespaceOperation index) s.

(** The arms over the operator of a list. *)
Definition compile_operator (name : string) (form : Form) (elements : list Form) (l : list Child)
    (s : Span) (top tail : bool) : comp () :=
  c ← gets id;
  x ← ctx;
  let local := is_some (resolve (fn_scopes x) name) in
  if is_coroutine_var c name "await" then compile_await l s
  else if is_coroutine_var c name "yield" then compile_yield l s
  else if is_host_call_var c name then compile_host_call l s
  else if decide (name = ".") then compile_dot elements s
  else if decide (name = "if") then compile_if l s tail
  else if decide (name = "and") then compile_and l s tail
  else if decide (name = "or") then compile_or l s tail
  else if decide (name = "cond") then compile_cond l s tail
  else if decide (name = "quote") then compile_quote l s
  else if decide (name = "comment") then emit_at Nil s
  else if decide (name = "syntax-quote") then compile_syntax_quote l s
  else if decide (name = "do") then
    modify (with_top_level top);; compile_sequence (drop 1 l) tail
  else if decide (name = "let") then compile_let l s tail
  else if decide (name = "loop") then compile_loop l s
  else if decide (name = "recur") then compile_recur l s tail
  else if decide (name = "fn") then compile_fn_form l s
  else if decide (name = "def") then compile_def l s
  else if decide (name = "defn") then compile_defn l s
  else if decide (name = "defmacro") then compile_defmacro l s top
  else if decide (name = "declare") then compile_declare l s top
  else if decide (name = "var") then compile_var l s
  else if decide (name = "set!") then compile_set l s
  else if bool_decide (name = "require") || (bool_decide (name ∈ ["ns"; "ns+"]) && negb top) then
    compile_namespace_operation form s
  else if bool_decide (name ∈ ["ns"; "ns+"]) then
    if negb top then unsupported form s else emit_at Nil s
  else if decide (name = "field") then compile_field l s
  else if decide (name = "instance?") then compile_instance_of l s
  else if decide (name = "try") then compile_try l s tail
  else if decide (name = "__dynamic-bind") then compile_dynamic_binding l s true
  else if decide (name = "__dynamic-unbind") then compile_dynamic_binding l s false
  else if decide (name = "throw") then compile_throw l s
  else if bool_decide (name ∈ ["in-ns"; "await"]) && negb local && negb (visible_global c name) then
    unsupported form s
  else
    match from_symbol name with
    | Some op =>
        if has_prefix "std.native.Arr/" name || has_prefix "std.native.Obj/" name then
          compile_primitive l s op
        else if local || visible_global c name then compile_named_call name l s
        else compile_primitive l s op
    | None => compile_named_call name l s
    end.

Definition compile_list (form : Form) (elements : list Form) (s : Span)
    (nodes : option (list SpannedForm)) (top tail : bool) : comp () :=
  match elements with
  | [] => constant (VList []) s
  | first :: _ =>
      let l := list_children elements s nodes in
      match first with
      | FSymbol name => compile_operator name form elements l s top tail
      | _ => compile_expression_call l s
      end
  end.

(** The match of [compile_form] on the form. *)
Definition compile_dispatch (form : Form) (s : Span) (nodes : option (list SpannedForm))
    (top tail : bool) : comp () :=
  match form with
  | FRuntimeLiteral _ => value ← value_of_form form s; unique_constant value s
  | FNil => emit_at Nil s
  | FBool true => emit_at True_ s
  | FBool false => emit_at False_ s
  | FNumber value => constant (VNumber value) s
  | FFloat value => bits ← checked_at KParse s (finite_float value); constant (float_value bits) s
  | FString value => constant (VString value) s
  | FKeyword value =>
      name ← checked_failure s EmptyString (keyword_from value); constant (VKeyword (full_text name)) s
  | FCharacter value => constant (character_value value) s
  | FBigInteger value => constant (compact_integer value) s
  | FRegex value => constant (regex_value value) s
  | FTagged tag value => compile_tagged form tag value s
  | FVector values =>
      if forallb literal_collection_form values then
        value ← value_of_form form s; unique_constant value s
      else
        each (compile_nested s) values;;
        count ← collection_count (length values) s;
        emit_at (BuildVector count) s
  | FMap entries =>
      if (65535 <? N.of_nat (length entries))%N then reject_at KLimit "map literal exceeds 65535 entries" s
      else compile_entries entries s;; emit_at (BuildMap (as_u16 (length entries))) s
  | FSet values =>
      each (compile_nested s) values;;
      count ← collection_count (length values) s;
      emit_at (BuildSet count) s
  | FMetadata _ value => modify (with_top_level top);; compile_form value s None tail
  | FSymbol name => compile_symbol name s
  | FList elements => compile_list form elements s nodes top tail
  end.

(** Whether a list's operator names something that hides a macro. *)
Definition shadowed (c : Compiler W) (values : list Form) : bool :=
  match values with
  | FSymbol name :: _ =>
      match split_slash name with
      | Some (owner, local) =>
          (bool_decide (owner = own_namespace c) || bool_decide (owner = "-")) &&
          bool_decide (local ∈ macro_shadows c)
      | None => bool_decide (name ∈ macro_shadows c)
      end
  | _ => false
  end.

(** The expansion of a list's macro, when it changes the form. *)
Definition expand_macro (form : Form) (s : Span) : comp (option Form) :=
  match form_without_metadata form with
  | FList values =>
      c ← gets id;
      if head_is ["quote"; "syntax-quote"; "comment"] values || shadowed c values then mret None else
      r ← guest (vm_macroexpand form);
      expanded ← checked_at KUnsupportedForm s r;
      mret (if form_eqb expanded form then None else Some expanded)
  | _ => mret None
  end.
End lowering.

(** ** Compilation *)
Section compile.
Context {W : Type} `{TextEnv} `{ValueForms} `{CompilerEnv W}.
Abbreviation comp := (prog (Compiler W) compile_stop).

Fixpoint compile_form (fuel : nat) (form : Form) (s : Span) (nodes : option (list SpannedForm))
    (tail : bool) : comp () :=
  match fuel with
  | O => fail Exhausted
  | S fuel =>
      c ← gets id;
      let top := top_level c in
      modify (with_top_level false);;
      if_live (
        r ← expanding (expand form);
        expanded ← checked_failure s EmptyString r;
        match expanded with
        | Some expanded => modify (with_top_level top);; compile_form fuel expanded s None tail
        | None =>
            expanded ← expand_macro form s;
            match expanded with
            | Some expanded => modify (with_top_level top);; compile_form fuel expanded s None tail
            | None =>
                compile_dispatch (compile_form fuel) (collect_free fuel) form s nodes top tail
            end
        end)
  end.

(** [predeclare_top_level]. *)
Definition predeclare (l : list SpannedForm) : comp () :=
  each (λ node,
    match form_without_metadata (form node) with
    | FList (FSymbol operator :: items) =>
        if decide (operator = "declare") then
          each (λ item,
            match form_without_metadata item with
            | FSymbol name =>
                if string_contains SLASH name then mret tt else declare_program_global name
            | _ => mret tt
            end) items
        else mret tt
    | _ => mret tt
    end) l.

(** [heights[start]] of each handler. *)
Definition patch_depths (heights : list N) (entries : list TryEntry) : option (list TryEntry) :=
  mapM (λ e, h ← heights !! N.to_nat (try_start e); Some (with_depth h e)) entries.

Definition with_analysis (heights : list N) (entries : list TryEntry) (f : FunctionPrototype) :
    FunctionPrototype :=
  mkFunction (name f) (async_function f) (arity f) (variadic f) (capture_count f) (local_count f)
    (max_height heights) (code f) (source_map f) entries.

Definition internal (failure : validation_failure) : compile_stop :=
  match failure with
  | Invalid e => Rejected (mkCompileError KInternal
                   (validation_text (Validate.message e) (instruction e)) None)
  | Panics | OutOfFuel => Crashed
  end.

Definition with_functions (l : list FunctionPrototype) (p : Program) : Program :=
  mkProgram (namespace p) (constants p) (var_metadata p) (schema_types p) (function_types p)
    (inferred_function_types p) l (entry p).

(** The loop of [finish] from function [index]. *)
Fixpoint analyse_functions (n index : nat) (program : Program) : result compile_stop Program :=
  match n with
  | O => Ok program
  | S n =>
      f ← ok_or (functions program !! index) Crashed;
      heights ← map_err internal (stack_heights program f);
      entries ← ok_or (patch_depths heights (handlers f)) Crashed;
      analyse_functions n (S index)
        (with_functions (<[index := with_analysis heights entries f]> (functions program)) program)
  end.

Definition finish : comp Program :=
  if_live (emit_ Return None);;
  close_context;;
  c ← gets id;
  let program := mkProgram None (pool c) (metadata_table c) ∅ ∅ ∅ (prototypes c) 0 in
  program ← lift (analyse_functions (length (functions program)) 0 program);
  lift (map_err internal (validate program));;
  mret program.

Definition node_child (n : SpannedForm) : Child := mkChild (form n) (span n) (Some (children n)).

(** [compile_spanned_forms_without_namespace_preparation]: the result with
    the runtime's state. *)
Definition compile_forms (fuel : nat) (forms : list SpannedForm) (excluded : gset string)
    (allow_unbound : bool) (w : W) : result compile_stop Program * W :=
  let '(r, c) :=
    (predeclare forms;;
     compile_sequence (compile_form fuel) (node_child <$> forms) true;;
     finish) (compiler_new excluded allow_unbound w) in
  (r, world c).

(** [prepare_top_level_namespaces]. *)
Fixpoint prepare (position : Position) (f : Form) : prog W compile_stop () :=
  match f with
  | FMetadata _ value => prepare position value
  | FList (FSymbol operator :: items) =>
      if bool_decide (operator = "ns") || bool_decide (operator = "ns+") then λ w,
        match prepare_namespace_form f w with
        | (Ok tt, w) => (Ok tt, w)
        | (Err message, w) => (Err (Rejected (mkCompileError KUnsupportedForm message (Some position))), w)
        end
      else if decide (operator = "do") then each (prepare position) items
      else mret tt
  | _ => mret tt
  end.
Definition prepare_top_level_namespaces (forms : list SpannedForm) : prog W compile_stop () :=
  each (λ n, prepare (start (span n)) (form n)) forms.

(** [compile_source]: read, prepare the namespaces, compile. A parser panic
    is a panic; the parser's fuel suffices. *)
Definition compile_source (fuel : nat) (source : list char) : prog W compile_stop Program :=
  match read_forms source with
  | Err (ParseFailed e) =>
      fail (Rejected (mkCompileError KParse (Reader.message e) (Some (Reader.error_position e))))
  | Err ParserPanic => fail Crashed
  | Err NoFuel => fail Exhausted
  | Ok forms =>
      prepare_top_level_namespaces forms;;
      compile_forms fuel forms ∅ false
  end.

(** [synthetic_spanned_form]. *)
Fixpoint synthetic_spanned_form (f : Form) : SpannedForm :=
  let position := mkPosition 0 1 1 in
  let nodes :=
    match f with
    | FList values | FVector values | FSet values => synthetic_spanned_form <$> values
    | FMap entries =>
        concat ((λ '(key, value), [synthetic_spanned_form key; synthetic_spanned_form value]) <$> entries)
    | FTagged _ value | FMetadata _ value => [synthetic_spanned_form value]
    | _ => []
    end in
  mkSpanned f (mkSpan position position) nodes.

(** [source_uses_dynamic_evaluation]. *)
Definition local_part (name : string) : string :=
  utf8 (reverse (take_while (λ c, negb (c =? 47)%N) (reverse (chars name)))).
Definition dynamic_symbol (name : string) : bool :=
  bool_decide (local_part name ∈ ["defonce"; "eval"; "eval-in"; "eval-in-ns"; "load-string"; "with-ns"]).
Fixpoint contains_dynamic (f : Form) : bool :=
  match f with
  | FMetadata _ value | FTagged _ value => contains_dynamic value
  | FList values =>
      match values with FSymbol name :: _ => dynamic_symbol name | _ => false end
      || existsb contains_dynamic values
  | FVector values | FSet values => existsb contains_dynamic values
  | FMap entries => existsb (λ e, contains_dynamic e.1 || contains_dynamic e.2) entries
  | _ => false
  end.
End compile.
