(* ===== verification/Frame.v ===== *)
(** * Slots and frames

    [src/core/rust/src/vm/slot.rs] and [vm/frame.rs]: the compact values the
    machine computes with, and one execution frame with its local slots and its
    operand-stack base. An [Rc] is kept with its address, so that pointer
    equality is equality of addresses. *)
From S2P Require Import Prelude Bytes Opcode Kernel Program.

(** ** Slots *)
Inductive VmSlot :=
| SNumber (value : Z)
| SBool (value : bool)
| SNil
| SValue (value : Value)
| SInlineClosure (prototype : N) (identity : N)
| SClosure (address : N) (closure : VmClosure)
| SMultiArity (address : N) (dispatch : VmMultiArity)
with VmClosure :=
| mkClosure (closure_prototype : N) (captures : list VmSlot)
with VmMultiArity :=
| mkMultiArity (dispatch_name : string) (clauses : list VmClosure).

Definition closure_prototype (c : VmClosure) : N := let 'mkClosure p _ := c in p.
Definition captures (c : VmClosure) : list VmSlot := let 'mkClosure _ l := c in l.
Definition dispatch_name (d : VmMultiArity) : string := let 'mkMultiArity n _ := d in n.
Definition clauses (d : VmMultiArity) : list VmClosure := let 'mkMultiArity _ l := d in l.

(** [runtime_value] and [into_runtime_value]. *)
Definition runtime_value (slot : VmSlot) : option Value :=
  match slot with
  | SNumber value => Some (VNumber value)
  | SBool value => Some (VBool value)
  | SNil => Some VNil
  | SValue value => Some value
  | SInlineClosure _ _ | SClosure _ _ | SMultiArity _ _ => None
  end.

Definition truthy (slot : VmSlot) : bool :=
  match slot with SBool false | SNil => false | _ => true end.

(** [impl From<Value> for VmSlot]. *)
Definition slot_of_value (value : Value) : VmSlot :=
  match value with
  | VNumber value => SNumber value
  | VBool value => SBool value
  | VNil => SNil
  | value => SValue value
  end.

Lemma runtime_value_slot_of_value v : runtime_value (slot_of_value v) = Some v.
Proof. by destruct v. Qed.

Lemma truthy_slot_of_value v : truthy (slot_of_value v) = value_truthy v.
Proof. by destruct v as [|[]| | | | | | | | | |]. Qed.

(** ** Frames *)
Record Frame := mkFrame { locals : list VmSlot; base : nat }.

Definition frame_entry (local_count : nat) : Frame := mkFrame (replicate local_count SNil) 0.

(** [locals.clear(); locals.resize(local_count, Nil)]. *)
Definition recycle (buffer : list VmSlot) (local_count : nat) : list VmSlot :=
  take 0 buffer ++ replicate local_count SNil.

(** Writes [values] from slot [start] on; writes past the end are dropped, as
    [get_mut] gives no cell for them. *)
Fixpoint fill (locals : list VmSlot) (start : nat) (values : list VmSlot) : list VmSlot :=
  match values with
  | [] => locals
  | value :: values => fill (<[start := value]> locals) (S start) values
  end.

(** Returns the frame and the drained argument buffer. *)
Definition call_reusing (buffer : list VmSlot) (local_count arity : nat)
    (args captures : list VmSlot) (base : nat) : Frame * list VmSlot :=
  (mkFrame (fill (fill (recycle buffer local_count) 0 args) arity captures) base, []).

Definition frame_call (local_count arity : nat) (args captures : list VmSlot) (base : nat) : Frame :=
  fst (call_reusing [] local_count arity args captures base).

(** Writes with [locals[index] = value]: [None] is the panic of an index past
    the end. *)
Fixpoint fill_indexed (locals : list VmSlot) (start : nat) (values : list VmSlot) :
    option (list VmSlot) :=
  match values with
  | [] => Some locals
  | value :: values =>
      if start <? length locals then fill_indexed (<[start := value]> locals) (S start) values
      else None
  end.

(** The frame of a static call and the caller's remaining stack. [stack.len()
    - argc] is a [usize] subtraction, so a shorter stack panics too. *)
Definition call_static_reusing (buffer : list VmSlot) (local_count : nat)
    (stack : list VmSlot) (argc : nat) : option (Frame * list VmSlot) :=
  if length stack <? argc then None else
  let base := length stack - argc in
  locals ← fill_indexed (recycle buffer local_count) 0 (drop base stack);
  Some (mkFrame locals base, take base stack).

Definition local (f : Frame) (slot : N) : option VmSlot := locals f !! N.to_nat slot.

Definition slot_range (f : Frame) (start count : nat) : option (list VmSlot) :=
  if length (locals f) <? start + count then None
  else Some (take count (drop start (locals f))).

(** Stores a value; the source's [false] for a slot out of range is [None]. *)
Definition store (f : Frame) (slot : N) (value : VmSlot) : option Frame :=
  if N.to_nat slot <? length (locals f)
  then Some (mkFrame (<[N.to_nat slot := value]> (locals f)) (base f)) else None.

(** ** Frame lemmas *)
Lemma length_recycle buffer n : length (recycle buffer n) = n.
Proof. unfold recycle. by rewrite length_app, length_replicate. Qed.

Lemma length_fill l start values : length (fill l start values) = length l.
Proof.
  revert l start. induction values as [|v values IH]; intros l start; cbn; [done|].
  by rewrite IH, length_insert.
Qed.

Lemma lookup_fill l start values i :
  fill l start values !! i =
  if decide (start ≤ i < start + length values ∧ i < length l)
  then values !! (i - start) else l !! i.
Proof.
  revert l start. induction values as [|v values IH]; intros l start; cbn [fill length].
  { case_decide; [lia|done]. }
  rewrite IH, length_insert. destruct (decide (i = start)) as [->|Hne].
  - rewrite (decide_False (P := S start ≤ start < _ ∧ _)) by lia.
    case_decide as Hin.
    + rewrite list_lookup_insert_eq by lia. by rewrite Nat.sub_diag.
    + rewrite list_insert_ge by lia. done.
  - rewrite list_lookup_insert_ne by done. repeat case_decide; try lia; [|done].
    by replace (i - start) with (S (i - S start)) by lia.
Qed.

(** Arguments written into a recycled frame. *)
Lemma fill_recycle buffer n args :
  length args ≤ n → fill (recycle buffer n) 0 args = args ++ replicate (n - length args) SNil.
Proof.
  intros Hn. apply list_eq. intros i. rewrite lookup_fill, length_recycle, Nat.sub_0_r.
  unfold recycle. rewrite take_0, app_nil_l. destruct (Nat.lt_ge_cases i (length args)).
  - rewrite decide_True by lia. by rewrite lookup_app_l.
  - rewrite decide_False by lia. rewrite lookup_app_r by lia.
    destruct (Nat.lt_ge_cases i n).
    + by rewrite !lookup_replicate_2 by lia.
    + by rewrite !lookup_ge_None_2 by (rewrite length_replicate; lia).
Qed.

Lemma fill_indexed_fill l start values :
  start + length values ≤ length l → fill_indexed l start values = Some (fill l start values).
Proof.
  revert l start. induction values as [|v values IH]; intros l start Hlen; cbn [fill_indexed fill length] in *; [done|].
  rewrite (proj2 (Nat.ltb_lt _ _)) by lia. apply IH. rewrite length_insert. lia.
Qed.

Lemma fill_indexed_panics l start values :
  start ≤ length l → length l < start + length values → fill_indexed l start values = None.
Proof.
  revert l start. induction values as [|v values IH]; intros l start Hs Hlen; cbn [fill_indexed length] in *; [lia|].
  destruct (Nat.ltb_spec start (length l)); [|done]. apply IH; rewrite length_insert; lia.
Qed.

(** A call frame holds the arguments in the parameter slots, the captures
    directly above the [arity] parameters and [nil] everywhere else, whatever
    the recycled buffer held; captures win where they overlap an argument, and
    what does not fit is dropped. *)
Theorem call_reusing_layout buffer local_count arity args captures base i :
  let '(f, drained) := call_reusing buffer local_count arity args captures base in
  Frame.base f = base ∧ drained = [] ∧ length (locals f) = local_count ∧
  (i < local_count →
   locals f !! i =
   Some (match captures !! (i - arity) with
         | Some v => if decide (arity ≤ i) then v else default SNil (args !! i)
         | None => default SNil (args !! i)
         end)).
Proof.
  cbn. split; [done|]. split; [done|].
  split; [by rewrite !length_fill, length_recycle|]. intros Hi.
  rewrite !lookup_fill, length_fill, length_recycle.
  assert (recycle buffer local_count !! i = Some SNil) as Hnil.
  { unfold recycle. cbn. by apply lookup_replicate_2. }
  assert ((if decide (0 ≤ i < 0 + length args ∧ i < local_count) then args !! (i - 0)
    else recycle buffer local_count !! i) = Some (default SNil (args !! i))) as ->.
  { rewrite Hnil, Nat.sub_0_r. case_decide as Hd.
    - destruct (lookup_lt_is_Some_2 args i) as [v Hv]; [lia|]. by rewrite Hv.
    - by rewrite (lookup_ge_None_2 args i) by lia. }
  case_decide as Hd.
  - destruct (lookup_lt_is_Some_2 captures (i - arity)) as [v Hv]; [lia|].
    rewrite Hv, decide_True by lia. done.
  - destruct (captures !! (i - arity)) eqn:Hc; [|done].
    apply lookup_lt_Some in Hc. rewrite decide_False by lia. done.
Qed.

(** The static call path moves its operands straight into the recycled
    frame: when they fit the callee's slots the result is the frame the general
    path builds from a temporary argument vector, over the same caller stack;
    when they do not, it panics. *)
Lemma call_static_reusing_equiv buffer local_count stack argc :
  argc ≤ length stack →
  let caller := take (length stack - argc) stack in
  let args := drop (length stack - argc) stack in
  call_static_reusing buffer local_count stack argc =
  if decide (argc ≤ local_count)
  then Some (fst (call_reusing buffer local_count argc args [] (length caller)), caller)
  else None.
Proof.
  intros Hargc caller args. unfold call_static_reusing.
  rewrite (proj2 (Nat.ltb_ge _ _)) by lia.
  assert (length args = argc) as Hargs by (unfold args; rewrite length_drop; lia).
  fold args caller. case_decide.
  - rewrite fill_indexed_fill by (rewrite length_recycle; lia). cbn.
    unfold caller at 2. rewrite length_take. by rewrite Nat.min_l by lia.
  - by rewrite fill_indexed_panics by (rewrite ?length_recycle; lia).
Qed.

