(* ===== verification/Machine.v ===== *)
(** * The stack machine

    [src/core/rust/src/vm/machine.rs], [machine/dispatch.rs],
    [machine/globals.rs] and [machine/constants.rs], without the tracing-JIT
    and instrumentation features: frames, calls, the single-instruction
    dispatch, unwinding through the static handler tables, suspension and
    resumption. The runtime the machine calls ([crate::core]) is an interface,
    [Runtime], over its own state. The frame stack [calls] is kept with the
    most recent frame first; operand stacks are vectors growing at the end. *)
From S2P Require Import Prelude Bytes Opcode Kernel Task Program Frame.

(** ** Errors and outcomes *)
Record VmError := mkVmError { message : string; instruction : N; position : option Position }.

(** [VmError::new(message, ip as u32, position)]. *)
Definition vm_error (message : string) (ip : nat) (position : option Position) : VmError :=
  mkVmError message (N.of_nat ip mod 2 ^ 32) position.

Record ExceptionSite := mkExceptionSite {
  site_namespace : option string; site_line : N; site_column : N }.

(** [VmOutcome]; [OPanics] is an unwinding Rust panic. *)
Inductive VmOutcome :=
| OReturned (value : Value)
| OFailed (error : VmError)
| OSuspended (promise : N)
| OYielded (value : Value)
| OPanics (message : string).

(** Result of executing one instruction. *)
Inductive Dispatch :=
| DNext (ip : nat)
| DUnwound (ip : nat)
| DCall (callee : VmSlot) (args : list VmSlot)
| DCallStatic (prototype : N) (args captures : list VmSlot)
| DCallStaticDirect (prototype argc : N)
| DReturned (value : VmSlot)
| DFailed (error : VmError)
| DSuspended (promise : N)
| DYielded (value : Value)
| DPanics (message : string).

(** ** The machine *)
Record SavedFrame := mkSavedFrame {
  saved_function : nat; saved_frame : Frame; call_ip : nat }.

Record Machine (W : Type) := mkMachine {
  function : nat;
  frame : Frame;
  stack : list VmSlot;
  scratch : list Value;
  calls : list SavedFrame;
  free_locals : list (list VmSlot);
  free_args : list (list VmSlot);
  vm_globals : gmap N VmSlot;
  next_closure_identity : N;
  ip : nat;
  world : W;
}.
Arguments mkMachine {W} _ _ _ _ _ _ _ _ _ _ _.
Arguments function {W} _.
Arguments frame {W} _.
Arguments stack {W} _.
Arguments scratch {W} _.
Arguments calls {W} _.
Arguments free_locals {W} _.
Arguments free_args {W} _.
Arguments vm_globals {W} _.
Arguments next_closure_identity {W} _.
Arguments ip {W} _.
Arguments world {W} _.

(** ** The runtime boundary

    The operations of [crate::core] the machine calls, each over the runtime's
    state: intrinsics and protocols, Vars and namespaces, collections,
    exceptions, promises and foreign calls. *)
Class Runtime (W : Type) := {
  apply_intrinsic_name : string → list Value → prog W string Value;
  protocol_intrinsic_call : string → list Value → prog W string Value;
  resolve_foundation : string → W → option Value;
  direct_function_value : string → W → option Value;
  bytecode_callable_value : string → prog W string Value;
  vm_resolve_namespace_value : string → prog W string Value;
  eval_bytecode_management : Value → prog W string Value;
  bytecode_dynamic_bind : string → Value → prog W string ();
  bytecode_dynamic_unbind : string → prog W string ();
  vm_resolve_global : string → prog W string N;
  deref_value : N → W → Value;
  vm_def_global : string → Value → option Metadata → prog W string N;
  vm_def_macro : string → Value → option Metadata → prog W string N;
  registry_resolve : string → prog W string N;
  binding_is_local : N → W → bool;
  reset_value : N → Value → W → W;
  vm_declare_global : string → prog W string ();
  mutable_field_value : Value → string → prog W string Value;
  mutable_field_set : Value → string → Value → prog W string Value;
  named_instance_of : Value → Value → prog W string Value;
  vm_build_map : list Value → prog W string Value;
  vm_build_set : list Value → prog W string Value;
  vm_build_vector : list Value → prog W string Value;
  vm_build_list : list Value → prog W string Value;
  vm_concat_list : list Value → prog W string Value;
  vm_to_vector : Value → prog W string Value;
  call_host_value : Value → Value → Value → prog W string Value;
  dot_call_values : Value → string → list Value → prog W string Value;
  call_value : option ExceptionSite → Value → list Value → prog W string Value;
  closure_value : VmClosure → W → N * W;
  arity_dispatcher : string → list N → W → Value * W;
  allocate : W → N * W;
  promise_state : N → W → PromiseState * W;
  error_message : PromiseRejection → W → string;
  promise_rejection_error : PromiseRejection → W → string * W;
  catch_matches : string → string → W → bool;
  caught_error : string → W → Value * W;
  thrown_error_at : Value → option ExceptionSite → W → string * W;
  spawn_async : Machine W → W → N * W;
}.

Section machine.
Context {W : Type} `{Runtime W}.
Variable program : Program.
Local Abbreviation M := (Machine W).
Implicit Types m : M.

Definition with_stack (s : list VmSlot) m : M :=
  mkMachine (function m) (frame m) s (scratch m) (calls m) (free_locals m) (free_args m)
    (vm_globals m) (next_closure_identity m) (ip m) (world m).
Definition with_frame (f : Frame) m : M :=
  mkMachine (function m) f (stack m) (scratch m) (calls m) (free_locals m) (free_args m)
    (vm_globals m) (next_closure_identity m) (ip m) (world m).
Definition with_scratch (l : list Value) m : M :=
  mkMachine (function m) (frame m) (stack m) l (calls m) (free_locals m) (free_args m)
    (vm_globals m) (next_closure_identity m) (ip m) (world m).
Definition with_free_locals (l : list (list VmSlot)) m : M :=
  mkMachine (function m) (frame m) (stack m) (scratch m) (calls m) l (free_args m)
    (vm_globals m) (next_closure_identity m) (ip m) (world m).
Definition with_free_args (l : list (list VmSlot)) m : M :=
  mkMachine (function m) (frame m) (stack m) (scratch m) (calls m) (free_locals m) l
    (vm_globals m) (next_closure_identity m) (ip m) (world m).
Definition with_vm_globals (g : gmap N VmSlot) m : M :=
  mkMachine (function m) (frame m) (stack m) (scratch m) (calls m) (free_locals m) (free_args m)
    g (next_closure_identity m) (ip m) (world m).
Definition with_identity (n : N) m : M :=
  mkMachine (function m) (frame m) (stack m) (scratch m) (calls m) (free_locals m) (free_args m)
    (vm_globals m) n (ip m) (world m).
Definition with_ip (n : nat) m : M :=
  mkMachine (function m) (frame m) (stack m) (scratch m) (calls m) (free_locals m) (free_args m)
    (vm_globals m) (next_closure_identity m) n (world m).
Definition with_world (w : W) m : M :=
  mkMachine (function m) (frame m) (stack m) (scratch m) (calls m) (free_locals m) (free_args m)
    (vm_globals m) (next_closure_identity m) (ip m) w.

Definition push (value : VmSlot) m : M := with_stack (stack m ++ [value]) m.
(** [self.stack.truncate(depth)]. *)
Definition truncate (depth : nat) m : M := with_stack (take depth (stack m)) m.

(** [self.program.functions[usize::from(prototype)]]. *)
Definition function_at (index : nat) : option FunctionPrototype := functions program !! index.

(** ** Primitive steps of the machine's methods *)
Abbreviation op := (prog M failure).

(** Run a runtime operation on the machine's world. *)
Definition core {A} (f : prog W string A) : op A := λ m,
  let '(r, w) := f (world m) in (map_err Failed r, with_world w m).
Definition core_total {A} (f : W → A * W) : op A := λ m,
  let '(x, w) := f (world m) in (Ok x, with_world w m).
Definition panic {A} (message : string) : op A := fail (Panicked message).
(** An index the source takes without a check. *)
Definition index {A} (o : option A) : op A := lift (ok_or o (Panicked "index out of bounds")).
Definition expect {A} (o : option A) (message : string) : op A :=
  lift (ok_or o (Failed message)).

(** [self.stack.pop()]. *)
Definition pop_slot : prog M failure (option VmSlot) := λ m,
  match last (stack m) with
  | Some v => (Ok (Some v), truncate (pred (length (stack m))) m)
  | None => (Ok None, m)
  end.
Definition pop_or_underflow : op VmSlot := v ← pop_slot; expect v "stack underflow".
(** [self.stack.drain(self.stack.len() - count..)] after the length check. *)
Definition drain (count : nat) : op (list VmSlot) := λ m,
  let start := length (stack m) - count in
  (Ok (drop start (stack m)), truncate start m).
Definition require_operands (count : nat) : op () := λ m,
  if length (stack m) <? count then (Err (Failed "stack underflow"), m) else (Ok tt, m).
Definition push_value (v : Value) : op () := modify (push (slot_of_value v)).

(** [constant_string] of [machine/constants.rs]. *)
Definition constant_string (index : N) : option string :=
  match constants program !! N.to_nat index with Some (VString value) => Some value | _ => None end.

(** ** Escaping values *)
Definition into_value (slot : VmSlot) : op Value :=
  match slot with
  | SNumber value => mret (VNumber value)
  | SBool value => mret (VBool value)
  | SNil => mret VNil
  | SValue value => mret value
  | SInlineClosure prototype _ =>
      index (function_at (N.to_nat prototype));;
      address ← core_total (closure_value (mkClosure prototype []));
      mret (VFunction address)
  | SClosure _ closure =>
      index (function_at (N.to_nat (closure_prototype closure)));;
      address ← core_total (closure_value closure); mret (VFunction address)
  | SMultiArity _ dispatch =>
      functions ← mapM (λ closure,
        index (function_at (N.to_nat (closure_prototype closure)));;
        core_total (closure_value closure)) (clauses dispatch);
      core_total (arity_dispatcher (dispatch_name dispatch) functions)
  end.

Definition callable_key (value : Value) : option N :=
  match value with VFunction address => Some address | _ => None end.

Definition remember_vm_global (value : Value) (slot : VmSlot) : op () :=
  match callable_key value with
  | Some key => modify (λ m, with_vm_globals (<[key := slot]> (vm_globals m)) m)
  | None => mret tt
  end.

(** ** Construction *)
Definition machine_new (index : nat) (f : Frame) (w : W) : M :=
  mkMachine index f [] [] [] [] [] ∅ 0 0 w.

(** [Machine::entry]: [None] is the panic of an entry index out of range. *)
Definition machine_entry (w : W) : option M :=
  f ← function_at (N.to_nat (entry program));
  Some (machine_new (N.to_nat (entry program)) (frame_entry (N.to_nat (local_count f))) w).

(** Packs the arguments beyond the fixed parameters into a list; returns the
    frame's arguments and the slot its captures start at. *)
Definition pack_rest (proto : FunctionPrototype) (args : list VmSlot) : op (list VmSlot * nat) :=
  let arity := N.to_nat (arity proto) in
  if variadic proto then
    let fixed := arity `min` length args in
    rest ← mapM into_value (drop fixed args);
    mret (take fixed args ++ [slot_of_value (VList rest)], S fixed)
  else mret (args, arity).

(** [Machine::call_slots]: a fresh machine over the caller's world; the
    converted rest arguments touch the world only. *)
Definition call_slots (prototype : N) (args captures : list VmSlot) : op M :=
  proto ← index (function_at (N.to_nat prototype));
  packed ← pack_rest proto args;
  w ← gets world;
  mret (machine_new (N.to_nat prototype)
    (frame_call (N.to_nat (local_count proto)) packed.2 packed.1 captures 0) w).

(** ** Calls *)
Definition arity_expectation (proto : FunctionPrototype) : string :=
  if variadic proto then "at least " +:+ pretty (arity proto) else pretty (arity proto).

Definition accepts_argc (proto : FunctionPrototype) (argc : nat) : bool :=
  if variadic proto then N.to_nat (arity proto) <=? argc else N.to_nat (arity proto) =? argc.

Definition check_arity (prototype : N) (argc : nat) : op () :=
  proto ← index (function_at (N.to_nat prototype));
  if accepts_argc proto argc then mret tt
  else fail (Failed ("function expects " +:+ arity_expectation proto +:+ " arguments")).

(** [self.free_locals.pop().unwrap_or_default()]. *)
Definition take_locals : op (list VmSlot) := λ m,
  match free_locals m with
  | buffer :: rest => (Ok buffer, with_free_locals rest m)
  | [] => (Ok [], m)
  end.
Definition take_args : op (list VmSlot) := λ m,
  match free_args m with
  | buffer :: rest => (Ok buffer, with_free_args rest m)
  | [] => (Ok [], m)
  end.
Definition give_args (buffer : list VmSlot) : op () :=
  modify (λ m, with_free_args (buffer :: free_args m) m).

(** Saves the caller and starts [prototype] in [f]. *)
Definition push_frame (prototype : nat) (f : Frame) : op () := modify (λ m,
  mkMachine prototype f (stack m) (scratch m)
    (mkSavedFrame (function m) (frame m) (ip m) :: calls m) (free_locals m) (free_args m)
    (vm_globals m) (next_closure_identity m) 0 (world m)).

Definition enter_prototype (prototype : N) (args captures : list VmSlot) : op () :=
  proto ← index (function_at (N.to_nat prototype));
  packed ← pack_rest proto args;
  buffer ← take_locals;
  base ← gets (λ m, length (stack m));
  let framed := call_reusing buffer (N.to_nat (local_count proto)) packed.2 packed.1 captures base in
  give_args framed.2;;
  push_frame (N.to_nat prototype) framed.1.

Definition enter_static_direct (prototype argc : N) : op () :=
  proto ← index (function_at (N.to_nat prototype));
  buffer ← take_locals;
  s ← gets stack;
  entered ← index (call_static_reusing buffer (N.to_nat (local_count proto)) s (N.to_nat argc));
  modify (with_stack entered.2);;
  push_frame (N.to_nat prototype) entered.1.

Definition enter_or_spawn (prototype : N) (args captures : list VmSlot) : op () :=
  proto ← index (function_at (N.to_nat prototype));
  if async_function proto then
    child ← call_slots prototype args captures;
    globals ← gets vm_globals;
    identity ← gets next_closure_identity;
    promise ← core_total (spawn_async (with_vm_globals globals (with_identity identity child)));
    push_value (VPromise promise);;
    modify (λ m, with_ip (S (ip m)) m)
  else enter_prototype prototype args captures.

(** The VM closure a runtime function was made from, when the machine still
    knows it. *)
Definition known_callee (callee : VmSlot) m : VmSlot :=
  match callee with
  | SValue value =>
      default callee (key ← callable_key value; vm_globals m !! key)
  | _ => callee
  end.

Definition matching_clause (argc : nat) (closure : VmClosure) : option bool :=
  proto ← function_at (N.to_nat (closure_prototype closure));
  Some (accepts_argc proto argc).

(** [dispatch.clauses.iter().find(..)]. *)
Fixpoint find_clause (argc : nat) (l : list VmClosure) : op (option VmClosure) :=
  match l with
  | [] => mret None
  | closure :: l =>
      fits ← index (matching_clause argc closure);
      if fits : bool then mret (Some closure) else find_clause argc l
  end.

(** The source position of the current instruction, as an exception site. *)
Definition site_of (f : FunctionPrototype) (at_ : nat) : option ExceptionSite :=
  (λ p, mkExceptionSite (namespace program) (line p) (column p)) <$> position_at (source_map f) at_.

Definition enter_callable (callee : VmSlot) (args : list VmSlot) : op () :=
  callee ← gets (known_callee callee);
  match callee with
  | SInlineClosure prototype _ =>
      check_arity prototype (length args);;
      enter_or_spawn prototype args []
  | SClosure _ closure =>
      check_arity (closure_prototype closure) (length args);;
      enter_or_spawn (closure_prototype closure) args (captures closure)
  | SMultiArity _ dispatch =>
      found ← find_clause (length args) (clauses dispatch);
      closure ← expect found
        (dispatch_name dispatch +:+ " has no arity " +:+ pretty (length args));
      enter_or_spawn (closure_prototype closure) args (captures closure)
  | value =>
      callee ← into_value value;
      runtime_args ← mapM into_value args;
      give_args [];;
      current ← gets function;
      f ← index (function_at current);
      at_ ← gets ip;
      value ← core (call_value (site_of f at_) callee runtime_args);
      push_value value;;
      modify (λ m, with_ip (S (ip m)) m)
  end.

(** Pops the callee and arguments for a [Call] instruction. *)
Definition collect_call (argc : N) : op (VmSlot * list VmSlot) :=
  require_operands (S (N.to_nat argc));;
  buffer ← take_args;
  operands ← drain (N.to_nat argc);
  callee ← pop_slot;
  callee ← lift (ok_or callee (Panicked "callee checked above"));
  mret (callee, buffer ++ operands).

Definition collect_call_static (f : FunctionPrototype) (prototype argc : N) :
    op (N * list VmSlot * list VmSlot) :=
  require_operands (N.to_nat argc);;
  proto ← expect (function_at (N.to_nat prototype))
    ("callstatic target " +:+ pretty prototype +:+ " out of range");
  buffer ← take_args;
  operands ← drain (N.to_nat argc);
  let capture_base := N.to_nat (arity f) + (if variadic f then 1 else 0) in
  current ← gets frame;
  captured ← expect (slot_range current capture_base (N.to_nat (capture_count proto)))
    "capture slots out of range";
  mret (prototype, buffer ++ operands, captured).

Definition exec_closure (prototype captured : N) : op () :=
  let count := N.to_nat captured in
  require_operands count;;
  expect (function_at (N.to_nat prototype))
    ("closure prototype " +:+ pretty prototype +:+ " out of range");;
  if count =? 0 then
    identity ← gets next_closure_identity;
    modify (λ m, with_identity ((next_closure_identity m + 1) mod 2 ^ 64) m);;
    modify (push (SInlineClosure prototype identity))
  else
    operands ← drain count;
    address ← core_total allocate;
    modify (push (SClosure address (mkClosure prototype operands))).

(** ** Collections and globals ([machine/globals.rs]) *)
Definition exec_build_collection (count : N) (map set : bool) : op () :=
  require_operands (N.to_nat count);;
  operands ← drain (N.to_nat count);
  values ← mapM into_value operands;
  value ← core (if map then vm_build_map values
                else if set then vm_build_set values
                else vm_build_vector values);
  push_value value.

Definition exec_build_list (count : N) (concatenate : bool) : op () :=
  require_operands (N.to_nat count);;
  operands ← drain (N.to_nat count);
  values ← mapM into_value operands;
  value ← core (if concatenate then vm_concat_list values else vm_build_list values);
  push_value value.

Definition exec_to_vector : op () :=
  slot ← pop_or_underflow;
  value ← into_value slot;
  value ← core (vm_to_vector value);
  push_value value.

Definition name_operand (index : N) : op string :=
  expect (constant_string index) ("constant index " +:+ pretty index +:+ " out of range").

Definition exec_get_global (index : N) : op () :=
  name ← name_operand index;
  var ← core (vm_resolve_global name);
  value ← gets (λ m, deref_value var (world m));
  push_value value.

(** [program.var_metadata[usize::from(index)]]. *)
Definition metadata_operand (metadata : option N) : op (option Metadata) :=
  match metadata with
  | Some i => table ← index (var_metadata program !! N.to_nat i); mret (Some table)
  | None => mret None
  end.

Definition exec_def_global (name : N) (metadata : option N) : op () :=
  name ← name_operand name;
  slot ← pop_or_underflow;
  metadata ← metadata_operand metadata;
  runtime_value ← into_value slot;
  var ← core (vm_def_global name runtime_value metadata);
  remember_vm_global runtime_value slot;;
  push_value (VVar var).

Definition exec_def_macro (name : N) (metadata : option N) : op () :=
  name ← name_operand name;
  slot ← pop_or_underflow;
  metadata ← metadata_operand metadata;
  runtime_value ← into_value slot;
  var ← core (vm_def_macro name runtime_value metadata);
  defined ← gets (λ m, deref_value var (world m));
  remember_vm_global defined slot;;
  modify (push slot).

Definition exec_set_global (index : N) : op () :=
  name ← name_operand index;
  slot ← pop_or_underflow;
  var ← core (registry_resolve name);
  is_local ← gets (λ m, binding_is_local var (world m));
  (if is_local : bool then mret tt
   else fail (Failed ("Cannot replace referred Var without ns omission: " +:+ name)));;
  runtime_value ← into_value slot;
  modify (λ m, with_world (reset_value var runtime_value (world m)) m);;
  remember_vm_global runtime_value slot;;
  modify (push slot).

Definition exec_var_global (index : N) : op () :=
  name ← name_operand index;
  var ← core (vm_resolve_global name);
  push_value (VVar var).

Definition exec_declare_global (index : N) : op () :=
  name ← name_operand index;
  core (vm_declare_global name);;
  modify (push SNil).

Definition exec_mutable_field_get (index : N) : op () :=
  field ← name_operand index;
  slot ← pop_or_underflow;
  value ← into_value slot;
  value ← core (mutable_field_value value field);
  push_value value.

Definition exec_mutable_field_set (index : N) : op () :=
  field ← name_operand index;
  replacement ← pop_or_underflow;
  receiver ← pop_or_underflow;
  replacement ← into_value replacement;
  receiver ← into_value receiver;
  value ← core (mutable_field_set receiver field replacement);
  push_value value.

Definition exec_instance_of : op () :=
  value ← pop_or_underflow;
  ty ← pop_or_underflow;
  ty ← into_value ty;
  value ← into_value value;
  value ← core (named_instance_of ty value);
  push_value value.

Definition as_clause (slot : VmSlot) : option VmClosure :=
  match slot with
  | SInlineClosure prototype _ => Some (mkClosure prototype [])
  | SClosure _ closure => Some closure
  | _ => None
  end.

Definition exec_make_multi_arity (name count : N) : op () :=
  require_operands (N.to_nat count);;
  dispatch_name ← name_operand name;
  s ← gets stack;
  found ← expect (mapM as_clause (drop (length s - N.to_nat count) s))
    "multi-arity clauses must be functions";
  drain (N.to_nat count);;
  address ← core_total allocate;
  modify (push (SMultiArity address (mkMultiArity dispatch_name found))).

(** ** Unwinding *)
Inductive halt :=
| HFailed (error : VmError)
| HPanics (message : string).

(** [self.error(function, message)]. *)
Definition error_at (f : FunctionPrototype) (message : string) m : VmError :=
  vm_error message (ip m) (position_at (source_map f) (ip m)).

Definition covers (entry : TryEntry) (error_ip : nat) : bool :=
  (N.to_nat (try_start entry) <=? error_ip) && (error_ip <? N.to_nat (try_end entry)).

Definition bind_caught (slot : N) (message : string) m : option M :=
  let '(value, w) := caught_error message (world m) in
  f ← store (frame m) slot (slot_of_value value);
  Some (with_frame f (with_world w m)).

(** The first matching [catch] of an entry. *)
Definition try_catches (f : FunctionPrototype) (message : string) (entry : TryEntry) (depth : nat) m :
    option (result halt nat * M) :=
  catch ← head (filter (λ c, catch_matches message (class c) (world m) = true) (catches entry));
  let m := truncate depth m in
  Some (match bind_caught (binding catch) message m with
        | Some m => (Ok (N.to_nat (catch_target catch)), m)
        | None => (Err (HFailed (error_at f "catch binding slot out of range" m)),
                   with_world (caught_error message (world m)).2 m)
        end).

Definition try_finally (f : FunctionPrototype) (message : string) (entry : TryEntry) (depth : nat) m :
    option (result halt nat * M) :=
  target ← finally entry;
  Some (match pending_value entry, pending_error entry with
        | Some value_slot, Some flag_slot =>
            let m := truncate depth m in
            match bind_caught value_slot message m with
            | Some m' =>
                match store (frame m') flag_slot (SBool true) with
                | Some frame => (Ok (N.to_nat target), with_frame frame m')
                | None => (Err (HFailed (error_at f "pending slot out of range" m')), m')
                end
            | None => (Err (HFailed (error_at f "pending slot out of range" m)),
                       with_world (caught_error message (world m)).2 m)
            end
        | _, _ => (Err (HFailed (error_at f "handler pending slots missing" m)), m)
        end).

(** One entry of the reverse-order search: [None] goes on to the next. *)
Definition try_entry (f : FunctionPrototype) (message : string) (entry : TryEntry) m :
    option (result halt nat * M) :=
  if covers entry (ip m) then
    let depth := base (frame m) + N.to_nat (depth entry) in
    if length (stack m) <? depth then
      Some (Err (HFailed (error_at f "handler stack depth out of range" m)), m)
    else
      match try_catches f message entry depth m with
      | Some r => Some r
      | None => try_finally f message entry depth m
      end
  else None.

Fixpoint search_handlers (f : FunctionPrototype) (message : string) (entries : list TryEntry) m :
    option (result halt nat * M) :=
  match entries with
  | [] => None
  | entry :: entries =>
      match try_entry f message entry m with
      | Some r => Some r
      | None => search_handlers f message entries m
      end
  end.

(** Leaves the current frame for its caller at the call instruction. *)
Definition pop_frame (caller : SavedFrame) (rest : list SavedFrame) (return_ip : nat) m : M :=
  mkMachine (saved_function caller) (saved_frame caller) (take (base (frame m)) (stack m))
    (scratch m) rest (locals (frame m) :: free_locals m) (free_args m) (vm_globals m)
    (next_closure_identity m) return_ip (world m).

(** The loop of [raise]; [callers] is the machine's frame stack. *)
Fixpoint unwind (message : string) (callers : list SavedFrame) m : result halt nat * M :=
  match function_at (function m) with
  | None => (Err (HPanics "index out of bounds"), m)
  | Some f =>
      match search_handlers f message (reverse (handlers f)) m with
      | Some r => r
      | None =>
          match callers with
          | [] => (Err (HFailed (error_at f message m)), m)
          | caller :: callers => unwind message callers (pop_frame caller callers (call_ip caller) m)
          end
      end
  end.

Definition raise (message : string) : prog M halt nat := λ m, unwind message (calls m) m.

(** ** Control of a dispatched instruction *)
Abbreviation action := (prog M Dispatch).

Definition halted (h : halt) : Dispatch :=
  match h with HFailed e => DFailed e | HPanics s => DPanics s end.

(** Raise [message] and return from [dispatch]. *)
Definition raised {A} (message : string) : action A := λ m,
  match raise message m with
  | (Ok target, m) => (Err (DUnwound target), m)
  | (Err h, m) => (Err (halted h), m)
  end.

(** [guarded!] and the matches that route an error through [raise]. *)
Definition or_raise {A} (o : op A) : action A := λ m,
  match o m with
  | (Ok x, m) => (Ok x, m)
  | (Err (Failed message), m) => raised message m
  | (Err (Panicked message), m) => (Err (DPanics message), m)
  end.

(** [return Dispatch::Failed(self.error(function, message))]. *)
Definition failed {A} (f : FunctionPrototype) (message : string) : action A := λ m,
  (Err (DFailed (error_at f message m)), m).
Definition or_fail {A} (f : FunctionPrototype) (o : op A) : action A := λ m,
  match o m with
  | (Ok x, m) => (Ok x, m)
  | (Err (Failed message), m) => failed f message m
  | (Err (Panicked message), m) => (Err (DPanics message), m)
  end.
Definition leave {A} (d : Dispatch) : action A := fail d.

(** ** Dispatch ([machine/dispatch.rs])

    [f] is the current function. Each group returns the next control action;
    an early [return] of the source is the error of [action]. *)
Definition next : action Dispatch := gets (λ m, DNext (S (ip m))).

Definition dispatch_constant (i : N) : action Dispatch :=
  value ← or_raise (expect (constants program !! N.to_nat i)
    ("constant index " +:+ pretty i +:+ " out of range"));
  modify (push (slot_of_value value));;
  next.

Definition dispatch_load_local (slot : N) : action Dispatch :=
  current ← gets frame;
  value ← or_raise (expect (local current slot) ("local slot " +:+ pretty slot +:+ " out of range"));
  modify (push value);;
  next.

Definition dispatch_store_local (slot : N) : action Dispatch :=
  value ← or_raise pop_or_underflow;
  current ← gets frame;
  stored ← or_raise (expect (store current slot value)
    ("local slot " +:+ pretty slot +:+ " out of range"));
  modify (with_frame stored);;
  next.

Definition dispatch_dup (f : FunctionPrototype) : action Dispatch :=
  s ← gets stack;
  value ← or_fail f (expect (last s) "stack underflow");
  modify (push value);;
  next.

(** Function slots compare by identity; anything else goes to the runtime. *)
Definition identical (left right : VmSlot) : option bool :=
  match left, right with
  | SClosure a _, SClosure b _ => Some (a =? b)%N
  | SInlineClosure _ a, SInlineClosure _ b => Some (a =? b)%N
  | SMultiArity a _, SMultiArity b _ => Some (a =? b)%N
  | (SClosure _ _ | SInlineClosure _ _ | SMultiArity _ _), _
  | _, (SClosure _ _ | SInlineClosure _ _ | SMultiArity _ _) => Some false
  | _, _ => None
  end.

Definition slots_equal (left right : VmSlot) : op VmSlot :=
  match identical left right with
  | Some same => mret (SBool same)
  | None =>
      match runtime_value left, runtime_value right with
      | Some l, Some r => slot_of_value <$> core (apply_intrinsic_name "=" [l; r])
      | _, _ => fail (Failed "= expects values")
      end
  end.

Definition call_intrinsic (protocol : bool) (name : string) (argc : nat) : op VmSlot :=
  if bool_decide (name = "=") && (argc =? 2) then
    right ← pop_slot;
    right ← lift (ok_or right (Panicked "intrinsic arity checked above"));
    left ← pop_slot;
    left ← lift (ok_or left (Panicked "intrinsic arity checked above"));
    slots_equal left right
  else
    operands ← drain argc;
    values ← mapM into_value operands;
    modify (with_scratch values);;
    slot_of_value <$> core (if protocol then protocol_intrinsic_call name values
                            else apply_intrinsic_name name values).

Definition DEREF : string := "std.protocol.ideref.IDeref/deref".

(** A pending promise under a protocol [deref] suspends before its operand is
    taken. *)
Definition suspend_on_deref (protocol : bool) (name : string) (argc : nat) : action () :=
  if protocol && bool_decide (name = DEREF) && (argc =? 1) then
    s ← gets stack;
    match last s ≫= runtime_value with
    | Some (VPromise promise) =>
        state ← (λ m, let '(st, w) := promise_state promise (world m) in (Ok st, with_world w m));
        match state with
        | Pending => leave (DSuspended promise)
        | _ => mret tt
        end
    | _ => mret tt
    end
  else mret tt.

Definition dispatch_intrinsic (f : FunctionPrototype) (protocol : bool) (target argc : N) :
    action Dispatch :=
  name ← or_fail f (expect (constant_string target)
    ("intrinsic target constant " +:+ pretty target +:+ " is invalid"));
  or_raise (require_operands (N.to_nat argc));;
  suspend_on_deref protocol name (N.to_nat argc);;
  value ← or_raise (call_intrinsic protocol name (N.to_nat argc));
  modify (push value);;
  next.

Definition dispatch_jump_if_false (target : N) : action Dispatch :=
  condition ← or_raise pop_or_underflow;
  if truthy condition then next else mret (DNext (N.to_nat target)).

Definition dispatch_intrinsic_value (f : FunctionPrototype) (target : N) : action Dispatch :=
  name ← or_fail f (expect (constant_string target)
    ("intrinsic target constant " +:+ pretty target +:+ " is invalid"));
  w ← gets world;
  value ← or_fail f (expect (match resolve_foundation name w with
                             | Some value => Some value
                             | None => direct_function_value name w
                             end) ("missing direct intrinsic callable: " +:+ name));
  modify (push (slot_of_value value));;
  next.

Definition dispatch_builtin_value (f : FunctionPrototype) (i : N) : action Dispatch :=
  name ← or_fail f (expect (constant_string i)
    ("builtin name constant " +:+ pretty i +:+ " is invalid"));
  value ← or_fail f (core (bytecode_callable_value name));
  modify (push (slot_of_value value));;
  next.

Definition dispatch_namespace_value (f : FunctionPrototype) (i : N) : action Dispatch :=
  name ← or_fail f (expect (constant_string i)
    ("namespace name constant " +:+ pretty i +:+ " is invalid"));
  value ← or_fail f (core (vm_resolve_namespace_value name));
  modify (push (slot_of_value value));;
  next.

Definition dispatch_namespace_operation (f : FunctionPrototype) (i : N) : action Dispatch :=
  value ← or_fail f (expect (constants program !! N.to_nat i)
    ("constant index " +:+ pretty i +:+ " out of range"));
  value ← or_raise (core (eval_bytecode_management value));
  modify (push (slot_of_value value));;
  next.

Definition dispatch_dynamic_bind (f : FunctionPrototype) (i : N) : action Dispatch :=
  name ← or_fail f (expect (constant_string i)
    ("binding name constant " +:+ pretty i +:+ " is invalid"));
  slot ← or_fail f pop_or_underflow;
  or_raise (value ← into_value slot; core (bytecode_dynamic_bind name value));;
  modify (push SNil);;
  next.

Definition dispatch_dynamic_unbind (f : FunctionPrototype) (i : N) : action Dispatch :=
  name ← or_fail f (expect (constant_string i)
    ("binding name constant " +:+ pretty i +:+ " is invalid"));
  or_raise (core (bytecode_dynamic_unbind name));;
  modify (push SNil);;
  next.

Definition dispatch_call (argc : N) : action Dispatch :=
  collected ← or_raise (collect_call argc);
  mret (DCall collected.1 collected.2).

Definition is_direct (proto : FunctionPrototype) : bool :=
  (capture_count proto =? 0)%N && negb (async_function proto) && negb (variadic proto).

Definition dispatch_call_static (f : FunctionPrototype) (prototype argc : N) : action Dispatch :=
  if match function_at (N.to_nat prototype) with Some proto => is_direct proto | None => false end
  then
    or_raise (require_operands (N.to_nat argc));;
    mret (DCallStaticDirect prototype argc)
  else
    collected ← or_raise (collect_call_static f prototype argc);
    mret (DCallStatic collected.1.1 collected.1.2 collected.2).

Definition dispatch_throw (f : FunctionPrototype) : action Dispatch :=
  slot ← or_raise pop_or_underflow;
  value ← or_raise (into_value slot);
  at_ ← gets ip;
  match value with
  | VExceptionInfo _ =>
      message ← or_raise (core_total (thrown_error_at value (site_of f at_)));
      raised message
  | _ => failed f "throw expects an Exception value created by ex"
  end.

Definition dispatch_rethrow (f : FunctionPrototype) : action Dispatch :=
  slot ← or_raise pop_or_underflow;
  at_ ← gets ip;
  match runtime_value slot with
  | Some (VExceptionInfo address) =>
      message ← or_raise (core_total (thrown_error_at (VExceptionInfo address) (site_of f at_)));
      raised message
  | Some (VString message) => raised message
  | Some _ => raised "rethrow expects an Exception or pending error value"
  | None => raised "rethrow expects a string message"
  end.

Definition dispatch_await (f : FunctionPrototype) : action Dispatch :=
  s ← gets stack;
  slot ← or_fail f (expect (last s) "stack underflow");
  match runtime_value slot with
  | Some (VPromise promise) =>
      state ← or_raise (core_total (promise_state promise));
      match state with
      | Pending => leave (DSuspended promise)
      | Fulfilled value =>
          or_raise pop_slot;;
          modify (push (slot_of_value value));;
          next
      | Rejected error =>
          or_raise pop_slot;;
          message ← gets (λ m, error_message error (world m));
          raised message
      end
  | _ => raised "await expects a promise"
  end.

Definition dispatch_yield (f : FunctionPrototype) : action Dispatch :=
  slot ← or_fail f pop_or_underflow;
  value ← or_raise (into_value slot);
  mret (DYielded value).

Definition dispatch_host_call (f : FunctionPrototype) : action Dispatch :=
  or_fail f (require_operands 3);;
  operands ← or_raise (drain 3);
  values ← or_fail f (expect (mapM runtime_value operands) "Host/call expects values");
  value ← or_raise (match values with
                    | [service; target; arguments] =>
                        core (call_host_value service target arguments)
                    | _ => panic "three host arguments"
                    end);
  modify (push (slot_of_value value));;
  next.

Definition dispatch_dot_call (f : FunctionPrototype) (method argc : N) : action Dispatch :=
  let count := S (N.to_nat argc) in
  or_fail f (require_operands count);;
  name ← or_fail f (expect (constant_string method) "dot method constant is invalid");
  operands ← or_raise (drain count);
  values ← or_raise (mapM into_value operands);
  value ← or_raise (match values with
                    | receiver :: arguments => core (dot_call_values receiver name arguments)
                    | [] => panic "dot receiver was counted"
                    end);
  modify (push (slot_of_value value));;
  next.

Definition dispatch_return (f : FunctionPrototype) : action Dispatch :=
  value ← or_fail f pop_or_underflow;
  mret (DReturned value).

Definition guarded (o : op ()) : action Dispatch := or_raise o;; next.

(** [pairs.saturating_mul(2)] on [u16]. *)
Definition saturating_double (pairs : N) : N := N.min U16_MAX (2 * pairs).

Definition dispatch_action (f : FunctionPrototype) (i : Instruction) : action Dispatch :=
  match i with
  | Constant i => dispatch_constant i
  | Nil => modify (push SNil);; next
  | True_ => modify (push (SBool true));; next
  | False_ => modify (push (SBool false));; next
  | LoadLocal slot => dispatch_load_local slot
  | StoreLocal slot => dispatch_store_local slot
  | Pop => or_raise pop_or_underflow;; next
  | Dup => dispatch_dup f
  | IntrinsicCall target argc => dispatch_intrinsic f false target argc
  | ProtocolCall target argc => dispatch_intrinsic f true target argc
  | Jump target => mret (DNext (N.to_nat target))
  | JumpIfFalse target => dispatch_jump_if_false target
  | IntrinsicValue target => dispatch_intrinsic_value f target
  | BuiltinValue i => dispatch_builtin_value f i
  | NamespaceValue i => dispatch_namespace_value f i
  | NamespaceOperation i => dispatch_namespace_operation f i
  | DynamicBind i => dispatch_dynamic_bind f i
  | DynamicUnbind i => dispatch_dynamic_unbind f i
  | Closure prototype captured => guarded (exec_closure prototype captured)
  | Call argc => dispatch_call argc
  | CallStatic prototype argc => dispatch_call_static f prototype argc
  | Throw => dispatch_throw f
  | Rethrow => dispatch_rethrow f
  | GetGlobal i => guarded (exec_get_global i)
  | DefGlobal name metadata => guarded (exec_def_global name metadata)
  | SetGlobal i => guarded (exec_set_global i)
  | VarGlobal i => guarded (exec_var_global i)
  | DeclareGlobal i => guarded (exec_declare_global i)
  | MutableFieldGet i => guarded (exec_mutable_field_get i)
  | MutableFieldSet i => guarded (exec_mutable_field_set i)
  | InstanceOf => guarded exec_instance_of
  | MakeMultiArity name count => guarded (exec_make_multi_arity name count)
  | BuildVector count => guarded (exec_build_collection count false false)
  | BuildMap pairs => guarded (exec_build_collection (saturating_double pairs) true false)
  | BuildSet count => guarded (exec_build_collection count false true)
  | BuildList count => guarded (exec_build_list count false)
  | ConcatList count => guarded (exec_build_list count true)
  | ToVector => guarded exec_to_vector
  | DefMacro name metadata => guarded (exec_def_macro name metadata)
  | Await => dispatch_await f
  | Yield => dispatch_yield f
  | HostCall => dispatch_host_call f
  | DotCall method argc => dispatch_dot_call f method argc
  | Return => dispatch_return f
  end.

Definition dispatch (f : FunctionPrototype) (i : Instruction) m : Dispatch * M :=
  match dispatch_action f i m with
  | (Ok d, m) | (Err d, m) => (d, m)
  end.

(** ** The run loop *)
Definition outcome_of (h : halt) : VmOutcome :=
  match h with HFailed e => OFailed e | HPanics s => OPanics s end.

(** A failed call is raised at the call instruction. *)
Definition finish_call (o : op ()) m : option VmOutcome * M :=
  match o m with
  | (Ok _, m) => (None, m)
  | (Err (Panicked message), m) => (Some (OPanics message), m)
  | (Err (Failed message), m) =>
      match raise message m with
      | (Ok target, m) => (None, with_ip target m)
      | (Err h, m) => (Some (outcome_of h), m)
      end
  end.

(** [enter_or_spawn] and [enter_static_direct] return nothing: they enter or
    panic. *)
Definition finish_static (o : op ()) m : option VmOutcome * M :=
  match o m with
  | (Ok _, m) => (None, m)
  | (Err (Panicked message | Failed message), m) => (Some (OPanics message), m)
  end.

Definition finish_return (value : VmSlot) m : option VmOutcome * M :=
  match calls m with
  | caller :: rest =>
      (None, push value (pop_frame caller rest (S (call_ip caller)) m))
  | [] =>
      let m := truncate (base (frame m)) m in
      match into_value value m with
      | (Ok v, m) => (Some (OReturned v), m)
      | (Err (Panicked message | Failed message), m) => (Some (OPanics message), m)
      end
  end.

(** One iteration of the loop: [None] continues. *)
Definition step m : option VmOutcome * M :=
  match function_at (function m) with
  | None => (Some (OFailed (vm_error "function index out of range" 0 None)), m)
  | Some f =>
      match code f !! ip m with
      | None => (Some (OFailed (error_at f "instruction pointer out of range" m)), m)
      | Some i =>
          match dispatch f i m with
          | (DNext ip, m) | (DUnwound ip, m) => (None, with_ip ip m)
          | (DCall callee args, m) => finish_call (enter_callable callee args) m
          | (DCallStatic prototype args captures, m) =>
              finish_static (enter_or_spawn prototype args captures) m
          | (DCallStaticDirect prototype argc, m) =>
              finish_static (enter_static_direct prototype argc) m
          | (DReturned value, m) => finish_return value m
          | (DSuspended promise, m) => (Some (OSuspended promise), m)
          | (DYielded value, m) => (Some (OYielded value), m)
          | (DFailed error, m) => (Some (OFailed error), m)
          | (DPanics message, m) => (Some (OPanics message), m)
          end
      end
  end.

(** The loop, for at most [fuel] instructions: a guest program may run
    forever. *)
Fixpoint run (fuel : nat) m : option (VmOutcome * M) :=
  match fuel with
  | O => None
  | S fuel =>
      match step m with
      | (Some outcome, m) => Some (outcome, m)
      | (None, m) => run fuel m
      end
  end.

(** ** Resumption *)
Definition suspended_at_deref (f : FunctionPrototype) m : bool :=
  match code f !! ip m with
  | Some (ProtocolCall target argc) =>
      (argc =? 1)%N && bool_decide (constant_string target = Some DEREF)
  | _ => false
  end.

Definition suspended_at_await (f : FunctionPrototype) m : bool :=
  bool_decide (code f !! ip m = Some Await).

Inductive resumption :=
| Resumed
| Stopped (outcome : VmOutcome).

(** [resume] up to its call of [run]. *)
Definition settle (state : PromiseState) m : resumption * M :=
  match function_at (function m) with
  | None => (Stopped (OFailed (vm_error "function index out of range" 0 None)), m)
  | Some f =>
      let deref := suspended_at_deref f m in
      if negb deref && negb (suspended_at_await f m) then
        (Stopped (OFailed (error_at f "VM is not suspended at await or deref" m)), m)
      else
        match state with
        | Pending =>
            match last (stack m) ≫= runtime_value with
            | Some (VPromise promise) => (Stopped (OSuspended promise), m)
            | _ => (Stopped (OFailed (error_at f
                     (if deref then "deref expects a promise" else "await expects a promise") m)), m)
            end
        | Fulfilled value =>
            let m := truncate (pred (length (stack m))) m in
            (Resumed, with_ip (S (ip m)) (push (slot_of_value value) m))
        | Rejected error =>
            let m := truncate (pred (length (stack m))) m in
            let '(message, w) := if deref then promise_rejection_error error (world m)
                                 else (error_message error (world m), world m) in
            match raise message (with_world w m) with
            | (Ok target, m) => (Resumed, with_ip target m)
            | (Err h, m) => (Stopped (outcome_of h), m)
            end
        end
  end.

Definition resume (fuel : nat) (state : PromiseState) m : option (VmOutcome * M) :=
  match settle state m with
  | (Resumed, m) => run fuel m
  | (Stopped outcome, m) => Some (outcome, m)
  end.

Definition resume_yield (fuel : nat) (value : Value) m : option (VmOutcome * M) :=
  match function_at (function m) with
  | None => Some (OFailed (vm_error "function index out of range" 0 None), m)
  | Some f =>
      if bool_decide (code f !! ip m = Some Yield) then
        run fuel (with_ip (S (ip m)) (push (slot_of_value value) m))
      else Some (OFailed (error_at f "VM is not suspended at yield" m), m)
  end.

(** [run_entry]. *)
Definition run_entry (fuel : nat) (w : W) : option (result VmOutcome Value) :=
  match machine_entry w with
  | None => Some (Err (OPanics "index out of bounds"))
  | Some m =>
      match run fuel m with
      | None => None
      | Some (OReturned value, _) => Some (Ok value)
      | Some (OSuspended _, _) =>
          Some (Err (OFailed (vm_error "VM fiber suspended on an unresolved promise" 0 None)))
      | Some (OYielded _, _) =>
          Some (Err (OFailed (vm_error "coroutine/yield used outside of a coroutine" 0 None)))
      | Some (outcome, _) => Some (Err outcome)
      end
  end.
End machine.
