(* ===== verification/Evaluation.v ===== *)
(** * The core language

    What the forms mean that the compiler lowers within one function: literals,
    local variables, [if], [do], [let], [and], [or], [loop] with [recur], and
    the primitive operators. The meaning is an evaluator in the style of the
    language's own evaluator, over an environment of values; it is what compiled
    programs are measured against. Everything else, a local variable in operator
    position included, is [Outside]. *)
From S2P Require Import Prelude Bytes Text Opcode Kernel Reader Program Compiler Machine.
#[local] Open Scope nat_scope.

(** What a form gives: a value, or new values for the innermost loop. *)
Inductive answer :=
| Gives (v : Value)
| Recurs (values : list Value).

(** An evaluation ends early with a raised error; [Outside] when the form is
    not of the core language or the fuel runs out. *)
Inductive stop :=
| Raises (message : string)
| Outside.

Abbreviation bindings := (gmap string Value).

(** The value of a literal. *)
Definition literal_of (form : Form) : option Value :=
  match form with
  | FNil => Some VNil
  | FBool b => Some (VBool b)
  | FNumber z => Some (VNumber z)
  | FString s => Some (VString s)
  | FKeyword s => match keyword_from s with Ok name => Some (VKeyword (full_text name)) | Err _ => None end
  | FList [] => Some (VList [])
  | _ => None
  end.

Section evaluation.
Context {R : Type} `{Runtime R}.
Abbreviation evaluation := (prog R stop).

Definition value_of (a : answer) : evaluation Value :=
  match a with Gives v => mret v | Recurs _ => fail Outside end.

Definition apply_operator (op : IntrinsicOp) (values : list Value) : evaluation answer := λ r,
  match apply_intrinsic_name (operator op) values r with
  | (Ok v, r) => (Ok (Gives v), r)
  | (Err message, r) => (Err (Raises message), r)
  end.

Fixpoint bind_all (names : list string) (values : list Value) (env : bindings) : option bindings :=
  match names, values with
  | [], [] => Some env
  | name :: names, v :: values => bind_all names values (<[name := v]> env)
  | _, _ => None
  end.

(** Over a recursive occurrence of the evaluator. *)
Section forms.
Variable eval : bindings → Form → evaluation answer.

Definition eval_value (env : bindings) (form : Form) : evaluation Value :=
  a ← eval env form; value_of a.

Fixpoint eval_values (env : bindings) (l : list Form) : evaluation (list Value) :=
  match l with
  | [] => mret []
  | form :: l => v ← eval_value env form; values ← eval_values env l; mret (v :: values)
  end.

Fixpoint eval_body (env : bindings) (l : list Form) : evaluation answer :=
  match l with
  | [] => mret (Gives VNil)
  | form :: l =>
      match l with
      | [] => eval env form
      | _ => eval_value env form;; eval_body env l
      end
  end.

Fixpoint eval_and (env : bindings) (l : list Form) : evaluation answer :=
  match l with
  | [] => mret (Gives (VBool true))
  | form :: l =>
      match l with
      | [] => eval env form
      | _ => v ← eval_value env form;
             if value_truthy v then eval_and env l else mret (Gives v)
      end
  end.

Fixpoint eval_or (env : bindings) (l : list Form) : evaluation answer :=
  match l with
  | [] => mret (Gives VNil)
  | form :: l =>
      match l with
      | [] => eval env form
      | _ => v ← eval_value env form;
             if value_truthy v then mret (Gives v) else eval_or env l
      end
  end.

(** The environment behind sequential bindings, and the names bound. *)
Fixpoint eval_bindings (env : bindings) (l : list Form) : evaluation (bindings * list string) :=
  match l with
  | [] => mret (env, [])
  | FSymbol name :: initializer :: l =>
      v ← eval_value env initializer;
      r ← eval_bindings (<[name := v]> env) l;
      mret (r.1, name :: r.2)
  | _ => fail Outside
  end.

Fixpoint iterate (names : list string) (body : list Form) (fuel : nat) (env : bindings) :
    evaluation answer :=
  match fuel with
  | O => fail Outside
  | S fuel =>
      a ← eval_body env body;
      match a with
      | Gives v => mret (Gives v)
      | Recurs values =>
          match bind_all names values env with
          | Some env => iterate names body fuel env
          | None => fail Outside
          end
      end
  end.

Definition eval_if (env : bindings) (l : list Form) : evaluation answer :=
  match l with
  | condition :: then_ :: others =>
      v ← eval_value env condition;
      if value_truthy v then eval env then_
      else match others with else_ :: _ => eval env else_ | [] => mret (Gives VNil) end
  | _ => fail Outside
  end.

Definition eval_let (env : bindings) (l : list Form) : evaluation answer :=
  match l with
  | FVector pairs :: body => r ← eval_bindings env pairs; eval_body r.1 body
  | _ => fail Outside
  end.

Definition eval_loop (fuel : nat) (env : bindings) (l : list Form) : evaluation answer :=
  match l with
  | FVector pairs :: body => r ← eval_bindings env pairs; iterate r.2 body fuel r.1
  | _ => fail Outside
  end.

(** A list with the name [op] in front. *)
Definition eval_list (fuel : nat) (env : bindings) (op : string) (l : list Form) : evaluation answer :=
  if decide (op = "if") then eval_if env l
  else if decide (op = "and") then eval_and env l
  else if decide (op = "or") then eval_or env l
  else if decide (op = "do") then eval_body env l
  else if decide (op = "let") then eval_let env l
  else if decide (op = "loop") then eval_loop fuel env l
  else if decide (op = "recur") then values ← eval_values env l; mret (Recurs values)
  else
    match from_symbol op, env !! op with
    | Some primitive, None => values ← eval_values env l; apply_operator primitive values
    | _, _ => fail Outside
    end.
End forms.

(** The fuel bounds the nesting of forms and the turns of each loop. *)
Fixpoint eval (fuel : nat) (env : bindings) (form : Form) : evaluation answer :=
  match fuel with
  | O => fail Outside
  | S fuel =>
      match literal_of form with
      | Some v => mret (Gives v)
      | None =>
          match form with
          | FSymbol name => match env !! name with Some v => mret (Gives v) | None => fail Outside end
          | FList (FSymbol op :: l) => eval_list (eval fuel) fuel env op l
          | _ => fail Outside
          end
      end
  end.

(** The forms of a source, as an implicit [do]. *)
Definition eval_program (fuel : nat) (forms : list Form) : evaluation answer :=
  eval_body (eval fuel) ∅ forms.
End evaluation.

(** ** The language, syntactically *)
Definition CORE_OPERATORS : list string := ["if"; "and"; "or"; "do"; "let"; "loop"; "recur"].
Definition core_name (op : string) : bool := bool_decide (op ∈ CORE_OPERATORS) || is_some (from_symbol op).

Section core.
Variable core : Form → bool.
Fixpoint core_pairs (l : list Form) : bool :=
  match l with
  | [] => true
  | FSymbol _ :: initializer :: l => core initializer && core_pairs l
  | _ => false
  end.
Definition core_arguments (op : string) (l : list Form) : bool :=
  if bool_decide (op ∈ ["let"; "loop"]) then
    match l with FVector pairs :: body => core_pairs pairs && forallb core body | _ => false end
  else forallb core l.
End core.

(** The forms that are built from the operators of the core language only. *)
Fixpoint core_form (form : Form) : bool :=
  match form with
  | FNil | FBool _ | FNumber _ | FString _ | FKeyword _ | FSymbol _ | FList [] => true
  | FList (FSymbol op :: l) => core_name op && core_arguments core_form op l
  | _ => false
  end.
