(* ===== verification/CoreCode.v ===== *)
(** * Code that computes core forms

    When a piece of a function's code computes what an evaluation gives, for the
    machine of [Machine] and the evaluator of [Evaluation]: [computes], and one
    lemma for each construct of the core language. *)
From S2P Require Import Prelude Bytes Text Opcode Kernel Reader Program Scope Compiler Frame Machine Evaluation.
#[local] Open Scope nat_scope.

(** ** The machine, step by step *)
Section steps.
Context {R : Type} `{Runtime R}.
Variables (p : Program) (m0 : Machine R) (f : FunctionPrototype).
Hypothesis current : functions p !! function m0 = Some f.
Hypothesis outermost : calls m0 = [].
Hypothesis unguarded : handlers f = [].

(** The machine [m0] at another place of its function. *)
Definition at_ (pc : nat) (st loc : list VmSlot) (scr : list Value) (r : R) : Machine R :=
  mkMachine (function m0) (mkFrame loc (base (frame m0))) st scr (calls m0) (free_locals m0)
    (free_args m0) (vm_globals m0) (next_closure_identity m0) pc r.

Definition moves (m m' : Machine R) : Prop := step p m = (None, m').
Abbreviation reaches := (rtc moves).
(** The run fails with the error, in the runtime's state [r]. *)
Definition raises (m : Machine R) (text : string) (r : R) : Prop :=
  ∃ m1 e m2, reaches m m1 ∧ step p m1 = (Some (OFailed e), m2) ∧ Machine.message e = text ∧ world m2 = r.

(** From [m] the machine does what an evaluation does: it reaches a state that
    stands for the result, or fails with the raised error. *)
Definition does {A} (m : Machine R) (e : result stop A * R) (Q : A → R → Machine R → Prop) : Prop :=
  match e with
  | (Ok a, r) => ∃ m', reaches m m' ∧ Q a r m'
  | (Err (Raises text), r) => raises m text r
  | (Err Outside, _) => True
  end.

Lemma does_ret {A} m (a : A) r (Q : A → R → Machine R → Prop) : Q a r m → does m (Ok a, r) Q.
Proof. intros HQ. by exists m. Qed.

Lemma raises_reaches m m1 text r : reaches m m1 → raises m1 text r → raises m text r.
Proof. intros Hm (m2 & e & m3 & H2 & H3). exists m2, e, m3. split; [by etrans|done]. Qed.

Lemma does_reaches {A} m m1 e (Q : A → R → Machine R → Prop) : reaches m m1 → does m1 e Q → does m e Q.
Proof.
  intros Hm. destruct e as [[a|[text|]] r]; cbn; [|by apply raises_reaches|done].
  intros (m2 & H2 & HQ). exists m2. split; [by etrans|done].
Qed.

Lemma does_step {A} m m1 e (Q : A → R → Machine R → Prop) :
  step p m = (None, m1) → does m1 e Q → does m e Q.
Proof. intros Hm. apply does_reaches. by apply rtc_once. Qed.

Lemma does_bind {A B} m (e : prog R stop A) (k : A → prog R stop B) r Q Q' :
  does m (e r) Q → (∀ a r1 m1, Q a r1 m1 → does m1 (k a r1) Q') → does m ((e ≫= k) r) Q'.
Proof.
  intros He Hk. unfold mbind, prog_bind. destruct (e r) as [[a|[text|]] r1]; [|done|done].
  destruct He as (m1 & Hm & HQ). eapply does_reaches; [done|]. by apply Hk.
Qed.

Lemma does_impl {A} m e (Q Q' : A → R → Machine R → Prop) :
  does m e Q → (∀ a r m1, Q a r m1 → Q' a r m1) → does m e Q'.
Proof.
  destruct e as [[a|[text|]] r]; cbn; [|done|done]. intros (m1 & Hm & HQ) Hi. exists m1. auto.
Qed.

(** *** Instructions *)
Section instruction.
Context (pc : nat) (st loc : list VmSlot) (scr : list Value) (r : R).
Abbreviation fetches i := (code f !! pc = Some i).

Ltac run_step := unfold or_raise, or_fail, expect, lift, gets, modify, ok_or, mbind, prog_bind; cbn.
Ltac step_code Hi :=
  unfold step, function_at; cbn [function at_]; rewrite current; cbn [ip at_]; rewrite Hi;
  unfold dispatch, dispatch_action.

Lemma step_constant i v :
  fetches (Constant i) → constants p !! N.to_nat i = Some v →
  step p (at_ pc st loc scr r) = (None, at_ (S pc) (st ++ [slot_of_value v]) loc scr r).
Proof. intros Hi Hv. step_code Hi. unfold dispatch_constant. run_step. by rewrite Hv. Qed.

Lemma step_nil : fetches Nil →
  step p (at_ pc st loc scr r) = (None, at_ (S pc) (st ++ [SNil]) loc scr r).
Proof. intros Hi. by step_code Hi. Qed.
Lemma step_true : fetches True_ →
  step p (at_ pc st loc scr r) = (None, at_ (S pc) (st ++ [SBool true]) loc scr r).
Proof. intros Hi. by step_code Hi. Qed.
Lemma step_false : fetches False_ →
  step p (at_ pc st loc scr r) = (None, at_ (S pc) (st ++ [SBool false]) loc scr r).
Proof. intros Hi. by step_code Hi. Qed.

Lemma step_load_local slot v :
  fetches (LoadLocal slot) → loc !! N.to_nat slot = Some v →
  step p (at_ pc st loc scr r) = (None, at_ (S pc) (st ++ [v]) loc scr r).
Proof.
  intros Hi Hv. step_code Hi. unfold dispatch_load_local, local. run_step. by rewrite Hv.
Qed.

Lemma pop_snoc v :
  pop_or_underflow (at_ pc (st ++ [v]) loc scr r) = (Ok v, at_ pc st loc scr r).
Proof.
  unfold pop_or_underflow, pop_slot, mbind, prog_bind. cbn. rewrite last_snoc. cbn.
  unfold expect, lift, truncate, with_stack. cbn. rewrite length_app, Nat.add_1_r. cbn.
  by rewrite take_app_length.
Qed.

Lemma step_store_local slot v :
  fetches (StoreLocal slot) → N.to_nat slot < length loc →
  step p (at_ pc (st ++ [v]) loc scr r) = (None, at_ (S pc) st (<[N.to_nat slot := v]> loc) scr r).
Proof.
  intros Hi Hs. step_code Hi. unfold dispatch_store_local, store. run_step. rewrite pop_snoc.
  apply Nat.ltb_lt in Hs. cbn in *. by rewrite Hs.
Qed.

Lemma step_pop v : fetches Pop →
  step p (at_ pc (st ++ [v]) loc scr r) = (None, at_ (S pc) st loc scr r).
Proof.
  intros Hi. step_code Hi. run_step. by rewrite pop_snoc.
Qed.

Lemma step_dup v : fetches Dup →
  step p (at_ pc (st ++ [v]) loc scr r) = (None, at_ (S pc) ((st ++ [v]) ++ [v]) loc scr r).
Proof.
  intros Hi. step_code Hi. unfold dispatch_dup. run_step. by rewrite last_snoc.
Qed.

Lemma step_jump target : fetches (Jump target) →
  step p (at_ pc st loc scr r) = (None, at_ (N.to_nat target) st loc scr r).
Proof. intros Hi. by step_code Hi. Qed.

Lemma step_jump_if_false target v : fetches (JumpIfFalse target) →
  step p (at_ pc (st ++ [slot_of_value v]) loc scr r) =
    (None, at_ (if value_truthy v then S pc else N.to_nat target) st loc scr r).
Proof.
  intros Hi. step_code Hi. unfold dispatch_jump_if_false. run_step. rewrite pop_snoc. cbn.
  rewrite truthy_slot_of_value. by destruct (value_truthy v).
Qed.

(** *** Primitive operators *)
Lemma into_values vs m : mapM (into_value p) (slot_of_value <$> vs) m = (Ok vs, m).
Proof.
  induction vs as [|v vs IH]; [done|]. apply prog_bind_ok. exists v, m. split; [by destruct v|].
  apply prog_bind_ok. by exists vs, m.
Qed.

Lemma drain_values vs :
  drain (length vs) (at_ pc (st ++ (slot_of_value <$> vs)) loc scr r) =
    (Ok (slot_of_value <$> vs), at_ pc st loc scr r).
Proof.
  unfold drain. cbn [stack at_]. rewrite length_app, length_fmap, Nat.add_sub.
  rewrite drop_app_length. unfold truncate, with_stack. cbn. by rewrite take_app_length.
Qed.

Lemma raised_fails {A} text m :
  function m = function m0 → calls m = [] →
  raised (A := A) p text m = (Err (DFailed (error_at f text m)), m).
Proof.
  intros Hf Hc. unfold raised, raise. rewrite Hc. cbn. unfold function_at. rewrite Hf, current.
  by rewrite unguarded.
Qed.

Lemma operands_there vs :
  require_operands (length vs) (at_ pc (st ++ (slot_of_value <$> vs)) loc scr r) =
    (Ok tt, at_ pc (st ++ (slot_of_value <$> vs)) loc scr r).
Proof.
  unfold require_operands. cbn [stack at_]. rewrite length_app, length_fmap.
  by rewrite (proj2 (Nat.ltb_ge _ _)) by lia.
Qed.

Lemma call_intrinsic_values name vs : ∃ scr',
  call_intrinsic p false name (length vs) (at_ pc (st ++ (slot_of_value <$> vs)) loc scr r) =
    match apply_intrinsic_name name vs r with
    | (Ok v, r') => (Ok (slot_of_value v), at_ pc st loc scr' r')
    | (Err text, r') => (Err (Failed text), at_ pc st loc scr' r')
    end.
Proof.
  unfold call_intrinsic. destruct (_ && _) eqn:Heq.
  - apply andb_true_iff in Heq as [Hname Htwo]. apply bool_decide_eq_true in Hname as ->.
    apply Nat.eqb_eq in Htwo. destruct vs as [|a [|b [|]]]; try done. exists scr.
    assert (∀ v l, pop_slot (at_ pc (l ++ [v]) loc scr r) = (Ok (Some v), at_ pc l loc scr r)) as Hpop.
    { intros v l. unfold pop_slot. cbn. rewrite last_snoc. unfold truncate, with_stack. cbn.
      rewrite length_app, Nat.add_1_r. cbn. by rewrite take_app_length. }
    unfold lift, mbind, prog_bind. cbn.
    change [slot_of_value a; slot_of_value b] with ([slot_of_value a] ++ [slot_of_value b]).
    rewrite (app_assoc st), Hpop. cbn. rewrite Hpop. cbn. unfold slots_equal.
    assert (identical (slot_of_value a) (slot_of_value b) = None) as -> by (by destruct a, b).
    rewrite !runtime_value_slot_of_value. unfold core, fmap, prog_fmap, mbind, prog_bind. cbn.
    by destruct (apply_intrinsic_name "=" [a; b] r) as [[v|text] r'].
  - exists vs. unfold mbind, prog_bind. rewrite drain_values, into_values.
    unfold modify, core, fmap, prog_fmap, mbind, prog_bind. cbn.
    by destruct (apply_intrinsic_name name vs r) as [[v|text] r'].
Qed.

Lemma step_intrinsic op i argc vs :
  fetches (IntrinsicCall i argc) → constants p !! N.to_nat i = Some (VString (operator op)) →
  N.to_nat argc = length vs →
  does (at_ pc (st ++ (slot_of_value <$> vs)) loc scr r) (apply_operator op vs r)
    (λ a r' m', ∃ v scr', a = Gives v ∧ m' = at_ (S pc) (st ++ [slot_of_value v]) loc scr' r').
Proof.
  intros Hi Hop Hargc. destruct (call_intrinsic_values (operator op) vs) as [scr' Hcall].
  assert (step p (at_ pc (st ++ (slot_of_value <$> vs)) loc scr r) =
    match apply_intrinsic_name (operator op) vs r with
    | (Ok v, r') => (None, at_ (S pc) (st ++ [slot_of_value v]) loc scr' r')
    | (Err text, r') => let m := at_ pc st loc scr' r' in (Some (OFailed (error_at f text m)), m)
    end) as Hs.
  { step_code Hi. unfold dispatch_intrinsic, constant_string. run_step. rewrite Hop, Hargc, operands_there.
    cbn. rewrite Hcall. destruct (apply_intrinsic_name (operator op) vs r) as [[v|text] r']; [done|].
    by rewrite raised_fails. }
  unfold apply_operator, does. destruct (apply_intrinsic_name (operator op) vs r) as [[v|text] r'].
  - eexists. split; [by apply rtc_once|]. by eexists _, _.
  - eexists _, _, _. split_and!; [done|exact Hs|done|done].
Qed.
End instruction.

(** ** Places, locals and variables *)
Definition stands (b : nat) (l : list Instruction) : Prop :=
  ∀ i ins, l !! i = Some ins → code f !! (b + i) = Some ins.

Lemma stands_app b l l' : stands b (l ++ l') → stands b l ∧ stands (b + length l) l'.
Proof.
  intros Hs. split; intros i ins Hi.
  - apply Hs. by apply lookup_app_l_Some.
  - rewrite <- Nat.add_assoc. apply Hs. rewrite lookup_app_r by lia.
    by replace (length l + i - length l) with i by lia.
Qed.
Lemma stands_cons b i l : stands b (i :: l) → code f !! b = Some i ∧ stands (S b) l.
Proof.
  intros Hs. split; [rewrite <- (Nat.add_0_r b); by apply Hs|].
  intros j ins Hj. rewrite Nat.add_succ_comm. by apply Hs.
Qed.

(** The slot of each visible name holds its value. *)
Definition agrees (env : bindings) (slot_of : string → option N) (loc : list VmSlot) : Prop :=
  ∀ name, match slot_of name with
          | Some slot => ∃ v, env !! name = Some v ∧ loc !! N.to_nat slot = Some (slot_of_value v)
          | None => env !! name = None
          end.

(** The slots below [n] are as they were. *)
Definition keeps (n : N) (loc loc' : list VmSlot) : Prop :=
  length loc' = length loc ∧ ∀ i, i < N.to_nat n → loc' !! i = loc !! i.
(** The loop's slots have new values, the others below [n] are as they were. *)
Definition rebinds (slots : list N) (values : list Value) (n : N) (loc loc' : list VmSlot) : Prop :=
  length loc' = length loc ∧
  Forall2 (λ slot v, loc' !! N.to_nat slot = Some (slot_of_value v)) slots values ∧
  ∀ i, i < N.to_nat n → N.of_nat i ∉ slots → loc' !! i = loc !! i.

Definition below (slot_of : string → option N) (n : N) : Prop :=
  ∀ name slot, slot_of name = Some slot → (slot < n)%N.

Lemma keeps_refl n loc : keeps n loc loc.
Proof. done. Qed.
Lemma keeps_trans n n' loc loc1 loc2 :
  keeps n loc loc1 → keeps n' loc1 loc2 → (n ≤ n')%N → keeps n loc loc2.
Proof.
  intros [L1 K1] [L2 K2] Hn. split; [congruence|]. intros i Hi. rewrite K2, K1 by lia. done.
Qed.
Lemma rebinds_keeps slots vs n n' loc loc1 loc2 :
  keeps n loc loc1 → rebinds slots vs n' loc1 loc2 → (n ≤ n')%N → rebinds slots vs n loc loc2.
Proof.
  intros [L1 K1] (L2 & F2 & K2) Hn. split_and!; [congruence|done|]. intros i Hi Hs.
  rewrite K2, K1 by (done || lia). done.
Qed.
Lemma agrees_keeps env slot_of n loc loc' :
  agrees env slot_of loc → below slot_of n → keeps n loc loc' → agrees env slot_of loc'.
Proof.
  intros Ha Hb [_ Hk] name. specialize (Ha name). destruct (slot_of name) as [slot|] eqn:E; [|done].
  destruct Ha as (v & Hv & Hl). exists v. split; [done|]. apply Hb in E. rewrite Hk by lia. done.
Qed.

(** ** Code that computes an evaluation *)
Section computes.
(** The constants known so far, and the slots the frame has at least. *)
Context (pool : list Value) (size : N) (slot_of : string → option N) (n : N).
Hypothesis visible : below slot_of n.

(** Entered at [b], the code does what [e] does at every fuel; [lands] says
    where a result leads. *)
Definition executes {A} (b : nat) (l : list Instruction) (e : nat → bindings → prog R stop A)
    (lands : list VmSlot → list VmSlot → A → R → Machine R → Prop) : Prop :=
  pool `prefix_of` constants p → stands b l →
  ∀ fuel env st loc scr r, N.to_nat size ≤ length loc → agrees env slot_of loc →
    does (at_ b st loc scr r) (e fuel env r) (lands st loc).

(** A value is left on the stack at [b'], when that is reached ([live]); new
    values for the loop [lp] are bound at its header. *)
Definition answers (lp : option LoopContext) (b' : nat) (live : bool) (st loc : list VmSlot)
    (a : answer) (r : R) (m : Machine R) : Prop :=
  match a with
  | Gives v => live = true ∧ ∃ loc' scr',
      m = at_ b' (st ++ [slot_of_value v]) loc' scr' r ∧ keeps n loc loc'
  | Recurs values => ∃ context loc' scr', lp = Some context ∧
      m = at_ (header context) st loc' scr' r ∧ rebinds (loop_slots context) values n loc loc'
  end.
Definition computes lp b l live (e : nat → bindings → prog R stop answer) : Prop :=
  executes b l e (answers lp (b + length l) live).

(** The values are pushed. *)
Definition pushes b l live (e : nat → bindings → prog R stop (list Value)) : Prop :=
  executes b l e (λ st loc values r m, live = true ∧ ∃ loc' scr',
    m = at_ (b + length l) (st ++ (slot_of_value <$> values)) loc' scr' r ∧ keeps n loc loc').

Lemma executes_ext {A} b l (e e' : nat → bindings → prog R stop A) Q :
  executes b l e Q →
  (∀ fuel env r, (e' fuel env r).1 = Err Outside ∨ ∃ fuel', e' fuel env r = e fuel' env r) →
  executes b l e' Q.
Proof.
  intros He Hext Hp Hs fuel env st loc scr r Hl Ha.
  destruct (Hext fuel env r) as [Ho|[fuel' ->]]; [|by apply He].
  destruct (e' fuel env r) as [[?|[]] r']; done.
Qed.

Lemma executes_outside {A} b l (e : nat → bindings → prog R stop A) Q :
  (∀ fuel env r, (e fuel env r).1 = Err Outside) → executes b l e Q.
Proof.
  intros Ho Hp Hs fuel env st loc scr r Hl Ha. specialize (Ho fuel env r).
  by destruct (e fuel env r) as [[?|[]] r'].
Qed.

Lemma computes_loop_any lp b l live e : computes None b l live e → computes lp b l live e.
Proof.
  intros He Hp Hs fuel env st loc scr r Hl Ha. eapply does_impl; [by apply He|].
  intros [v|values] r1 m1; [done|]. by intros (? & ? & ? & ? & _).
Qed.

(** A part whose value is used by what follows. *)
Lemma value_then {A} b l live e fuel env st loc scr r (k : Value → prog R stop A)
    (Q : A → R → Machine R → Prop) :
  computes None b l live e → pool `prefix_of` constants p → stands b l → N.to_nat size ≤ length loc →
  agrees env slot_of loc →
  (∀ v loc1 scr1 r1, live = true → keeps n loc loc1 → agrees env slot_of loc1 →
     N.to_nat size ≤ length loc1 →
     does (at_ (b + length l) (st ++ [slot_of_value v]) loc1 scr1 r1) (k v r1) Q) →
  does (at_ b st loc scr r) ((v ← (a ← e fuel env; value_of a); k v) r) Q.
Proof.
  intros He Hp Hs Hl Ha Hk. eapply does_bind.
  - eapply does_bind; [by apply He|]. intros [v|values] r1 m1; cbn [answers]; [|done].
    intros Hv. apply does_ret. exact Hv.
  - intros v r1 m1 (Hlive & loc1 & scr1 & -> & Hkeep). apply Hk; [done|done| |].
    + by eapply agrees_keeps.
    + by destruct Hkeep as [-> _].
Qed.

(** Behind a part that does not end nothing is computed. *)
Lemma executes_dead {A} b l e (k : nat → bindings → Value → prog R stop A) Q :
  computes None b l false e →
  executes b l (λ fuel env, v ← (a ← e fuel env; value_of a); k fuel env v) Q.
Proof. intros He Hp Hs fuel env st loc scr r Hl Ha. by eapply value_then. Qed.

Lemma computes_push lp b i v :
  (pool `prefix_of` constants p → code f !! b = Some i → ∀ st loc scr r,
     step p (at_ b st loc scr r) = (None, at_ (S b) (st ++ [slot_of_value v]) loc scr r)) →
  computes lp b [i] true (λ _ _, mret (Gives v)).
Proof.
  intros Hstep Hp [Hi _]%stands_cons fuel env st loc scr r Hl Ha. cbn [length].
  rewrite Nat.add_1_r. eapply does_step; [by apply Hstep|]. apply does_ret. split; [done|].
  by eexists _, _.
Qed.

Lemma computes_local lp b slot name :
  slot_of name = Some slot →
  computes lp b [LoadLocal slot] true
    (λ _ env, match env !! name with Some v => mret (Gives v) | None => fail Outside end).
Proof.
  intros Hslot Hp [Hi _]%stands_cons fuel env st loc scr r Hl Ha.
  specialize (Ha name). rewrite Hslot in Ha. destruct Ha as (v & -> & Hv). cbn [length].
  rewrite Nat.add_1_r. eapply does_step; [by eapply step_load_local|]. apply does_ret.
  split; [done|]. by eexists _, _.
Qed.

(** ** Conditionals *)
Hypothesis short : (N.of_nat (length (code f)) < 4294967296)%N.

Lemma stands_end b l : stands b l → l ≠ [] → b + length l ≤ length (code f).
Proof.
  intros Hs Hl. destruct (last l) as [i|] eqn:E; [|by apply last_None in E].
  rewrite last_lookup in E. apply Hs, lookup_lt_Some in E. destruct l; [done|]. cbn [length] in *. lia.
Qed.
Lemma as_u32_small t : t ≤ length (code f) → N.to_nat (as_u32 t) = t.
Proof. intros Ht. unfold as_u32. rewrite N.mod_small by lia. lia. Qed.

(** The answer of a part that is the answer of the whole. *)
Lemma answers_part lp b1 b2 live1 live2 st loc loc1 a r m :
  keeps n loc loc1 → (live1 = true → live2 = true ∧ b1 = b2) →
  answers lp b1 live1 st loc1 a r m → answers lp b2 live2 st loc a r m.
Proof.
  intros Hk Hlive. destruct a as [v|values]; cbn.
  - intros (Hl & loc' & scr' & -> & Hk'). destruct (Hlive Hl) as [-> ->]. split; [done|].
    exists loc', scr'. split; [done|]. by eapply keeps_trans.
  - intros (context & loc' & scr' & ? & ? & Hr). exists context, loc', scr'. split_and!; [done|done|].
    by eapply rebinds_keeps.
Qed.

Lemma answers_jump lp b1 b2 live st loc m e :
  b2 ≤ length (code f) → (live = true → code f !! b1 = Some (Jump (as_u32 b2))) →
  does m e (answers lp b1 live st loc) → does m e (answers lp b2 live st loc).
Proof.
  intros Hb Hj He. destruct e as [[[v|values]|[text|]] r]; try done. cbn in *.
  destruct He as (m1 & Hm & Hlive & loc' & scr' & -> & Hk).
  exists (at_ b2 (st ++ [slot_of_value v]) loc' scr' r). split.
  - eapply rtc_r; [done|]. unfold moves. rewrite <- (as_u32_small b2 Hb). apply step_jump; auto.
  - split; [done|]. by exists loc', scr'.
Qed.

Lemma computes_if lp b lc lt le live2 live3 else_at end_at e1 e2 e3 :
  let jump := if live2 : bool then [Jump (as_u32 end_at)] else [] in
  else_at = b + length lc + 1 + length lt + length jump → end_at = else_at + length le →
  computes None b lc true e1 →
  computes lp (b + length lc + 1) lt live2 e2 →
  computes lp else_at le live3 e3 →
  computes lp b (lc ++ JumpIfFalse (as_u32 else_at) :: lt ++ jump ++ le) (live2 || live3)
    (λ fuel env, v ← (a ← e1 fuel env; value_of a); if value_truthy v then e2 fuel env else e3 fuel env).
Proof.
  intros jump Helse Hendq H1 H2 H3 Hp Hs fuel env st loc scr r Hl Ha.
  assert (end_at = b + length (lc ++ JumpIfFalse (as_u32 else_at) :: lt ++ jump ++ le)) as Hend.
  { rewrite length_app. cbn [length]. rewrite !length_app. lia. }
  rewrite <- Hend. assert (end_at ≤ length (code f)) as Hlen.
  { rewrite Hend. apply stands_end; [done|]. by destruct lc. }
  apply stands_app in Hs as [Hs1 [Hjf Hs]%stands_cons]. apply stands_app in Hs as [Hs2 Hs].
  apply stands_app in Hs as [Hsj Hs3].
  eapply value_then; [done..|]. intros v loc1 scr1 r1 _ Hk Ha1 Hl1.
  eapply does_step; [by eapply step_jump_if_false|].
  replace (S (b + length lc)) with (b + length lc + 1) in * by lia.
  destruct (value_truthy v).
  - apply does_impl with (Q := answers lp end_at live2 st loc).
    + eapply answers_jump; [done| |eapply does_impl; [by apply H2|]].
      * intros ->. by apply stands_cons in Hsj as [Hsj _].
      * intros a r2 m2. by apply answers_part.
    + intros a r2 m2. apply answers_part; [done|]. by intros ->.
  - rewrite as_u32_small by lia. rewrite <- Helse in Hs3.
    eapply does_impl; [by apply H3|]. intros a r2 m2. apply answers_part; [done|]. intros ->.
    split; [by destruct live2|lia].
Qed.

(** ** Sequences *)
Lemma computes_then lp b l1 l2 live e1 e2 :
  computes None b l1 true e1 → computes lp (b + length l1 + 1) l2 live e2 →
  computes lp b (l1 ++ Pop :: l2) live (λ fuel env, (a ← e1 fuel env; value_of a);; e2 fuel env).
Proof.
  intros H1 H2 Hp Hs fuel env st loc scr r Hl Ha.
  apply stands_app in Hs as [Hs1 [Hpop Hs2]%stands_cons].
  eapply value_then; [done..|]. intros v loc1 scr1 r1 _ Hk Ha1 Hl1.
  eapply does_step; [by apply step_pop|]. replace (S (b + length l1)) with (b + length l1 + 1) in * by lia.
  eapply does_impl; [by apply H2|]. intros a r2 m2. apply answers_part; [done|]. intros ->. split; [done|].
  rewrite length_app. cbn. lia.
Qed.

(** ** Short-circuit operators *)
Lemma computes_and lp b l1 l2 live end_at e1 e2 :
  end_at = b + length l1 + 3 + length l2 →
  computes None b l1 true e1 → computes lp (b + length l1 + 3) l2 live e2 →
  computes lp b (l1 ++ Dup :: JumpIfFalse (as_u32 end_at) :: Pop :: l2) true
    (λ fuel env, v ← (a ← e1 fuel env; value_of a);
       if value_truthy v then e2 fuel env else mret (Gives v)).
Proof.
  intros Hend H1 H2 Hp Hs fuel env st loc scr r Hl Ha.
  assert (end_at = b + length (l1 ++ Dup :: JumpIfFalse (as_u32 end_at) :: Pop :: l2)) as Hend'.
  { rewrite length_app. cbn [length]. lia. }
  rewrite <- Hend'. assert (end_at ≤ length (code f)) as Hlen.
  { rewrite Hend'. apply stands_end; [done|]. by destruct l1. }
  apply stands_app in Hs as [Hs1 [Hdup [Hjf [Hpop Hs2]%stands_cons]%stands_cons]%stands_cons].
  eapply value_then; [done..|]. intros v loc1 scr1 r1 _ Hk Ha1 Hl1.
  eapply does_step; [by apply step_dup|]. eapply does_step; [by eapply step_jump_if_false|].
  destruct (value_truthy v).
  - eapply does_step; [by apply step_pop|].
    replace (S (S (S (b + length l1)))) with (b + length l1 + 3) in * by lia.
    eapply does_impl; [by apply H2|]. intros a r2 m2. apply answers_part; [done|]. intros ->. split; [done|lia].
  - rewrite as_u32_small by done. apply does_ret. split; [done|]. by exists loc1, scr1.
Qed.

Lemma computes_or lp b l1 l2 live next end_at e1 e2 :
  next = b + length l1 + 3 → end_at = next + 1 + length l2 →
  computes None b l1 true e1 → computes lp (next + 1) l2 live e2 →
  computes lp b (l1 ++ Dup :: JumpIfFalse (as_u32 next) :: Jump (as_u32 end_at) :: Pop :: l2) true
    (λ fuel env, v ← (a ← e1 fuel env; value_of a);
       if value_truthy v then mret (Gives v) else e2 fuel env).
Proof.
  intros Hnext Hend H1 H2 Hp Hs fuel env st loc scr r Hl Ha.
  assert (end_at = b + length (l1 ++ Dup :: JumpIfFalse (as_u32 next) :: Jump (as_u32 end_at) :: Pop :: l2))
    as Hend'.
  { rewrite length_app. cbn [length]. lia. }
  rewrite <- Hend'. assert (end_at ≤ length (code f)) as Hlen.
  { rewrite Hend'. apply stands_end; [done|]. by destruct l1. }
  apply stands_app in Hs as [Hs1 [Hdup [Hjf [Hj [Hpop Hs2]%stands_cons]%stands_cons]%stands_cons]%stands_cons].
  eapply value_then; [done..|]. intros v loc1 scr1 r1 _ Hk Ha1 Hl1.
  eapply does_step; [by apply step_dup|]. eapply does_step; [by eapply step_jump_if_false|].
  destruct (value_truthy v).
  - eapply does_step; [by apply step_jump|]. rewrite as_u32_small by done.
    apply does_ret. split; [done|]. by exists loc1, scr1.
  - rewrite as_u32_small by lia. replace (S (S (S (b + length l1)))) with next in * by lia.
    eapply does_step; [by apply step_pop|]. replace (S next) with (next + 1) in * by lia.
    eapply does_impl; [by apply H2|]. intros a r2 m2. apply answers_part; [done|]. intros ->. split; [done|lia].
Qed.

(** ** Operators *)
Lemma pushes_nil b : pushes b [] true (λ _ _, mret []).
Proof.
  intros Hp Hs fuel env st loc scr r Hl Ha. apply does_ret. split; [done|].
  exists loc, scr. cbn. by rewrite app_nil_r, Nat.add_0_r.
Qed.
Lemma pushes_cons b l1 l2 live e1 e2 :
  computes None b l1 true e1 → pushes (b + length l1) l2 live e2 →
  pushes b (l1 ++ l2) live
    (λ fuel env, v ← (a ← e1 fuel env; value_of a); values ← e2 fuel env; mret (v :: values)).
Proof.
  intros H1 H2 Hp Hs fuel env st loc scr r Hl Ha. apply stands_app in Hs as [Hs1 Hs2].
  eapply value_then; [done..|]. intros v loc1 scr1 r1 _ Hk Ha1 Hl1.
  eapply does_bind; [by apply H2|]. intros values r2 m2 (Hlive & loc2 & scr2 & -> & Hk2).
  apply does_ret. split; [done|]. exists loc2, scr2. cbn [fmap list_fmap].
  rewrite length_app, Nat.add_assoc, <- app_assoc. split; [done|]. by eapply keeps_trans.
Qed.

Lemma computes_primitive lp b l i argc op e :
  pushes b l true e → pool !! N.to_nat i = Some (VString (operator op)) →
  (∀ fuel env r values r', e fuel env r = (Ok values, r') → N.to_nat argc = length values) →
  computes lp b (l ++ [IntrinsicCall i argc]) true (λ fuel env, values ← e fuel env; apply_operator op values).
Proof.
  intros He Hi Hargc Hp Hs fuel env st loc scr r Hl Ha. apply stands_app in Hs as [Hs1 [Hcall _]%stands_cons].
  specialize (He Hp Hs1 fuel env st loc scr r Hl Ha). specialize (Hargc fuel env r).
  unfold mbind, prog_bind. destruct (e fuel env r) as [[values|[text|]] r1]; [|done|done].
  destruct He as (m1 & Hm & _ & loc1 & scr1 & -> & Hk). eapply does_reaches; [done|].
  eapply does_impl; [eapply step_intrinsic; [done| |by eapply Hargc]|].
  { by eapply prefix_lookup_Some. }
  intros a r2 m2 (v & scr2 & -> & ->). split; [done|]. exists loc1, scr2.
  rewrite length_app. cbn. replace (b + (length l + 1)) with (S (b + length l)) by lia. done.
Qed.
End computes.

(** More constants and more slots change nothing. *)
Lemma executes_mono {A} pool pool' size size' slot_of b l (e : nat → bindings → prog R stop A) Q :
  pool `prefix_of` pool' → (size ≤ size')%N →
  executes pool size slot_of b l e Q → executes pool' size' slot_of b l e Q.
Proof.
  intros Hpool Hsize He Hp Hs fuel env st loc scr r Hl Ha. apply He; [by etrans|done|lia|done].
Qed.

(** ** Bindings *)
Definition update (name : string) (slot : N) (slot_of : string → option N) : string → option N :=
  λ x, if decide (x = name) then Some slot else slot_of x.
Fixpoint declares (names : list string) (slots : list N) (slot_of slot_of' : string → option N) : Prop :=
  match names, slots with
  | [], [] => ∀ x, slot_of' x = slot_of x
  | name :: names, slot :: slots => declares names slots (update name slot slot_of) slot_of'
  | _, _ => False
  end.

Lemma executes_slots {A} pool size slot_of slot_of' b l (e : nat → bindings → prog R stop A) Q :
  (∀ x, slot_of' x = slot_of x) →
  executes pool size slot_of b l e Q → executes pool size slot_of' b l e Q.
Proof.
  intros Heq He Hp Hs fuel env st loc scr r Hl Ha. apply He; [done..|].
  intros name. rewrite <- Heq. apply Ha.
Qed.

(** The values are stored in the slots of their names. *)
Definition binds (pool : list Value) (size : N) (slot_of : string → option N) (n : N)
    (slot_of' : string → option N) (names : list string) (b : nat) (l : list Instruction) (live : bool)
    (e : nat → bindings → prog R stop (bindings * list string)) : Prop :=
  executes pool size slot_of b l e (λ st loc res r m, live = true ∧ res.2 = names ∧ ∃ loc' scr',
    m = at_ (b + length l) st loc' scr' r ∧ keeps n loc loc' ∧ agrees res.1 slot_of' loc').

Lemma agrees_update env slot_of n loc name v :
  agrees env slot_of loc → below slot_of n → N.to_nat n < length loc →
  agrees (<[name := v]> env) (update name n slot_of) (<[N.to_nat n := slot_of_value v]> loc).
Proof.
  intros Ha Hb Hn x. specialize (Ha x). unfold update. destruct (decide (x = name)) as [->|Hne].
  - exists v. split; [apply lookup_insert_eq|]. by apply list_lookup_insert_eq.
  - rewrite lookup_insert_ne by done. destruct (slot_of x) as [slot|] eqn:E; [|done].
    destruct Ha as (u & Hu & Hl). exists u. split; [done|]. apply Hb in E.
    by rewrite list_lookup_insert_ne by lia.
Qed.

Lemma keeps_insert n loc v : keeps n loc (<[N.to_nat n := v]> loc).
Proof.
  split; [apply length_insert|]. intros i Hi. by rewrite list_lookup_insert_ne by lia.
Qed.

Section scoped.
Context (pool : list Value) (size : N) (slot_of : string → option N) (n : N).
Hypothesis visible : below slot_of n.
Hypothesis short : (N.of_nat (length (code f)) < 4294967296)%N.

Lemma binds_nil slot_of' b :
  (∀ x, slot_of' x = slot_of x) →
  binds pool size slot_of n slot_of' [] b [] true (λ _ env, mret (env, [])).
Proof.
  intros Heq Hp Hs fuel env st loc scr r Hl Ha. apply does_ret. split_and!; [done|done|].
  exists loc, scr. rewrite Nat.add_0_r. split_and!; [done|done|]. intros x. rewrite Heq. apply Ha.
Qed.

Lemma binds_cons slot_of' name names b l1 l2 live e1 e2 :
  (n < size)%N → computes pool size slot_of n None b l1 true e1 →
  binds pool size (update name n slot_of) (n + 1) slot_of' names (b + length l1 + 1) l2 live e2 →
  binds pool size slot_of n slot_of' (name :: names) b (l1 ++ StoreLocal n :: l2) live
    (λ fuel env, v ← (a ← e1 fuel env; value_of a);
       res ← e2 fuel (<[name := v]> env); mret (res.1, name :: res.2)).
Proof.
  intros Hn H1 H2 Hp Hs fuel env st loc scr r Hl Ha.
  apply stands_app in Hs as [Hs1 [Hstore Hs2]%stands_cons].
  eapply value_then; [done..|]. intros v loc1 scr1 r1 _ Hk Ha1 Hl1.
  eapply does_step; [eapply step_store_local; [done|lia]|].
  replace (S (b + length l1)) with (b + length l1 + 1) in * by lia.
  eapply does_bind; [apply H2|]; [done|done|by rewrite length_insert|apply agrees_update; [done|done|lia]|].
  intros [env2 names2] r2 m2 (Hlive & Hnames & loc2 & scr2 & -> & Hk2 & Ha2). cbn in Hnames, Ha2. subst.
  apply does_ret. cbn [fst snd]. split_and!; [done|done|]. exists loc2, scr2. rewrite length_app. cbn [length].
  split_and!; [f_equal; lia| |done]. eapply keeps_trans; [done| |reflexivity].
  eapply keeps_trans; [apply keeps_insert|done|lia].
Qed.

Lemma computes_let slot_of' n' lp names b lb l live live2 eb e :
  (n ≤ n')%N → binds pool size slot_of n slot_of' names b lb live eb →
  (live = true → computes pool size slot_of' n' lp (b + length lb) l live2 e) →
  computes pool size slot_of n lp b (lb ++ l) live2 (λ fuel env, res ← eb fuel env; e fuel res.1).
Proof.
  intros Hn Hb He Hp Hs fuel env st loc scr r Hl Ha. apply stands_app in Hs as [Hs1 Hs2].
  eapply does_bind; [by apply Hb|]. intros [env1 names1] r1 m1 (Hlive & _ & loc1 & scr1 & -> & Hk & Ha1).
  eapply does_impl; [apply He; try done; by destruct Hk as [-> _]|].
  intros [v|values] r2 m2; cbn.
  - intros (? & loc2 & scr2 & -> & Hk2). split; [done|]. exists loc2, scr2.
    rewrite length_app, Nat.add_assoc. split; [done|]. by eapply keeps_trans.
  - intros (context & loc2 & scr2 & ? & -> & Hr). exists context, loc2, scr2. split_and!; [done|done|].
    by eapply rebinds_keeps.
Qed.

(** ** Loops *)
(** The values on the stack go to the slots, the last one first. *)
Lemma stores_reach slots : ∀ values b st loc scr r,
  length values = length slots → NoDup slots → Forall (λ slot, N.to_nat slot < length loc) slots →
  stands b (StoreLocal <$> reverse slots) →
  ∃ loc', reaches (at_ b (st ++ (slot_of_value <$> values)) loc scr r)
                  (at_ (b + length slots) st loc' scr r) ∧
    length loc' = length loc ∧
    Forall2 (λ slot v, loc' !! N.to_nat slot = Some (slot_of_value v)) slots values ∧
    ∀ i, N.of_nat i ∉ slots → loc' !! i = loc !! i.
Proof.
  induction slots as [|slot slots IH] using rev_ind; intros values b st loc scr r Hlen Hnd Hin Hs.
  - destruct values; [|done]. exists loc. cbn. rewrite app_nil_r, Nat.add_0_r. split_and!; done || constructor.
  - destruct values as [|v values _] using rev_ind; [rewrite length_app in Hlen; cbn in Hlen; lia|].
    rewrite !length_app in Hlen. cbn in Hlen. rewrite reverse_app in Hs.
    apply stands_cons in Hs as [Hi Hs]. apply NoDup_app in Hnd as (Hnd & Hd & _).
    apply Forall_app in Hin as [Hin Hslot]. apply Forall_cons in Hslot as [Hslot _].
    destruct (IH values (S b) st (<[N.to_nat slot := slot_of_value v]> loc) scr r) as
      (loc' & Hm & Hl & Hf & Hk); [lia|done|by rewrite length_insert|done|].
    assert (slot ∉ slots) as Hout by (intros Hx; apply (Hd _ Hx); by left).
    exists loc'. rewrite length_insert in Hl. split_and!; [|done| |].
    + rewrite fmap_app, app_assoc, length_app. cbn [length].
      replace (b + (length slots + 1)) with (S b + length slots) by lia.
      eapply rtc_l; [|exact Hm]. by apply step_store_local.
    + apply Forall2_app; [done|]. constructor; [|done].
      rewrite Hk by (by rewrite N2Nat.id). by apply list_lookup_insert_eq.
    + intros i Hi'. rewrite Hk by (intros Hx; apply Hi', elem_of_app; by left).
      rewrite list_lookup_insert_ne; [done|]. intros <-. apply Hi', elem_of_app. right.
      rewrite N2Nat.id. by left.
Qed.

(** New values for the names of the loop, at its header. *)
Lemma computes_recur context b l e :
  pushes pool size slot_of n b l true e →
  NoDup (loop_slots context) → Forall (λ slot, (slot < size)%N) (loop_slots context) →
  header context ≤ b →
  (∀ fuel env r values r', e fuel env r = (Ok values, r') → length values = length (loop_slots context)) →
  computes pool size slot_of n (Some context) b
    (l ++ (StoreLocal <$> reverse (loop_slots context)) ++ [Jump (as_u32 (header context))]) false
    (λ fuel env, values ← e fuel env; mret (Recurs values)).
Proof.
  intros He Hnd Hin Hheader Hlen Hp Hs fuel env st loc scr r Hl Ha.
  assert (header context ≤ length (code f)) as Hshort.
  { assert (b + length (l ++ (StoreLocal <$> reverse (loop_slots context)) ++
      [Jump (as_u32 (header context))]) ≤ length (code f)); [|lia].
    apply stands_end; [done..|]. destruct l; [|done]. by destruct (StoreLocal <$> _). }
  apply stands_app in Hs as [Hs1 Hs]. apply stands_app in Hs as [Hs2 [Hj _]%stands_cons].
  specialize (He Hp Hs1 fuel env st loc scr r Hl Ha). specialize (Hlen fuel env r).
  unfold mbind, prog_bind. destruct (e fuel env r) as [[values|[text|]] r1]; [|done|done].
  destruct He as (m1 & Hm & _ & loc1 & scr1 & -> & Hk). eapply does_reaches; [done|].
  destruct Hk as [Hlk Hk].
  destruct (stores_reach (loop_slots context) values (b + length l) st loc1 scr1 r1) as
    (loc2 & Hm2 & Hl2 & Hf2 & Hk2); [by eapply Hlen|done| |done|].
  { eapply Forall_impl; [done|]. intros slot Hslot. cbn in Hslot. lia. }
  eapply does_reaches; [done|]. rewrite length_fmap, length_reverse in Hj.
  eapply does_step; [by apply step_jump|]. rewrite as_u32_small by done. apply does_ret.
  exists context, loc2, scr1. split_and!; [done|done|]. split_and!; [lia|done|].
  intros i Hi Hout. rewrite Hk2, Hk by done. done.
Qed.

(** A loop whose names are rebound. *)
Lemma declares_out names slots x : ∀ slot_of0 slot_of',
  declares names slots slot_of0 slot_of' → x ∉ names → slot_of' x = slot_of0 x.
Proof.
  revert slots. induction names as [|name names IH]; intros [|slot slots] slot_of0 slot_of' Hd Hx; try done.
  apply not_elem_of_cons in Hx as [Hne Hx]. rewrite (IH _ _ _ Hd Hx). unfold update. by rewrite decide_False.
Qed.

Definition right_at (slot_of' : string → option N) (loc' : list VmSlot) (env : bindings) (x : string) : Prop :=
  match slot_of' x with
  | Some slot => ∃ v, env !! x = Some v ∧ loc' !! N.to_nat slot = Some (slot_of_value v)
  | None => env !! x = None
  end.

Lemma bind_all_right slot_of' loc' names : ∀ slots values env slot_of0,
  declares names slots slot_of0 slot_of' →
  Forall2 (λ slot v, loc' !! N.to_nat slot = Some (slot_of_value v)) slots values →
  (∀ x, x ∈ names ∨ right_at slot_of' loc' env x) →
  ∃ env', bind_all names values env = Some env' ∧ agrees env' slot_of' loc'.
Proof.
  induction names as [|name names IH]; intros [|slot slots] values env slot_of0 Hd Hf Hx; try done.
  - apply Forall2_nil_inv_l in Hf as ->. exists env. split; [done|]. intros x.
    by destruct (Hx x) as [?%not_elem_of_nil|].
  - apply Forall2_cons_inv_l in Hf as (v & values' & Hv & Hf & ->). cbn [bind_all].
    eapply IH; [exact Hd|done|]. intros x. destruct (decide (x ∈ names)) as [|Hout]; [by left|right].
    pose proof (declares_out names slots x _ _ Hd Hout) as Hsame. unfold right_at. rewrite Hsame. unfold update.
    destruct (decide (x = name)) as [->|Hne]; [exists v; by rewrite lookup_insert_eq|].
    rewrite lookup_insert_ne by done. destruct (Hx x) as [[|]%elem_of_cons|Hr]; [done|done|].
    unfold right_at in Hr. rewrite Hsame in Hr. unfold update in Hr.
    by rewrite decide_False in Hr.
Qed.

Lemma rebound_agrees slot_of' n' names slots values env loc loc' :
  declares names slots slot_of slot_of' → below slot_of' n' → Forall (λ slot, (n ≤ slot)%N) slots →
  agrees env slot_of' loc → rebinds slots values n' loc loc' →
  ∃ env', bind_all names values env = Some env' ∧ agrees env' slot_of' loc'.
Proof.
  intros Hd Hb' Hn Ha (_ & Hf & Hk). eapply bind_all_right; [done|done|]. intros x.
  destruct (decide (x ∈ names)) as [|Hx]; [by left|right]. specialize (Ha x). unfold right_at.
  destruct (slot_of' x) as [slot|] eqn:E; [|done]. destruct Ha as (v & Hv & Hl). exists v. split; [done|].
  rewrite Hk; [done|apply Hb' in E; lia|]. rewrite N2Nat.id. intros Hin.
  rewrite Forall_forall in Hn. apply Hn in Hin. rewrite (declares_out _ _ _ _ _ Hd Hx) in E.
  apply visible in E. lia.
Qed.

Lemma computes_loop slot_of' n' lp names slots b lb l live ev turns body eb :
  (n ≤ n')%N → declares names slots slot_of slot_of' → below slot_of' n' →
  Forall (λ slot, (n ≤ slot)%N) slots →
  binds pool size slot_of n slot_of' names b lb true eb →
  computes pool size slot_of' n' (Some (mkLoop (b + length lb) slots)) (b + length lb) l live
    (λ fuel env, eval_body (ev fuel) env body) →
  computes pool size slot_of n lp b (lb ++ l) live
    (λ fuel env, res ← eb fuel env; iterate (ev fuel) res.2 body (turns fuel) res.1).
Proof.
  intros Hn Hd Hb' Hslots Hb He Hp Hs fuel env st loc scr r Hl Ha. apply stands_app in Hs as [Hs1 Hs2].
  eapply does_bind; [by apply Hb|]. intros [env1 names1] r1 m1 (_ & Hnames & loc1 & scr1 & -> & Hk & Ha1).
  cbn [fst snd] in *. subst names1. rewrite length_app, Nat.add_assoc.
  destruct Hk as [Hlk Hk]. assert (keeps n loc loc1) as Hkeep by done. clear Hk. rewrite <- Hlk in Hl.
  generalize (turns fuel) as k. intros k. clear Hlk.
  revert env1 loc1 scr1 r1 Ha1 Hl Hkeep. induction k as [|k IH]; intros env1 loc1 scr1 r1 Ha1 Hl Hkeep; [done|].
  cbn [iterate]. eapply does_bind; [by apply He|].
  intros [v|values] r2 m2; cbn [answers].
  - intros (Hlive & loc2 & scr2 & -> & Hk2). apply does_ret. split; [done|]. exists loc2, scr2.
    split; [done|]. by eapply keeps_trans.
  - intros (context & loc2 & scr2 & [= <-] & -> & Hr). cbn [header loop_slots] in *.
    destruct (rebound_agrees slot_of' n' names slots values env1 loc1 loc2) as (env2 & -> & Ha2); [done..|].
    destruct Hr as (Hlr & _ & Hkr). apply IH; [done|by rewrite Hlr|].
    eapply keeps_trans; [exact Hkeep| |reflexivity]. split; [done|]. intros i Hi. apply Hkr; [lia|].
    intros Hin. rewrite Forall_forall in Hslots. apply Hslots in Hin. lia.
Qed.
End scoped.
End steps.
