(* ===== verification/Scheduler.v ===== *)
(** * The scheduler of asynchronous calls

    [src/core/rust/src/vm/machine/async_runtime.rs]: machines that wait for a
    promise are children of a scheduler; a continuation on the promise queues
    them, polling resumes them and settles their results. The scheduler's
    closures - pollers, waiters, cancel hooks and continuations - are scripts of
    [Task]; guest code, the machines' own runs among it, is arbitrary. *)
From S2P Require Import Prelude Kernel Task.
From S2P Require Machine.
Import Promise.

(** ** Closures

    [Guest] closures belong to guest code; the others are made by this file.
    [Drain_ready] and [Spawn] are its loop over [ready] and its entry point. *)
Inductive closure :=
| Guest (c : N)
| Ready (id : N)
| Poll
| Wait (identity : N)
| Cancel_result (identity : N)
| Drain_ready
| Spawn (machine : N).

(** A closure's number for [Task]. *)
Definition closure_number (c : closure) : N :=
  match c with
  | Guest c => 8 * c
  | Ready id => 8 * id + 1
  | Poll => 2
  | Wait i => 8 * i + 3
  | Cancel_result i => 8 * i + 4
  | Drain_ready => 5
  | Spawn m => 8 * m + 6
  end.

Definition closure_of (n : N) : closure :=
  let i := (n / 8)%N in
  match (n mod 8)%N with
  | 0 => Guest i
  | 1 => Ready i
  | 2 => Poll
  | 3 => Wait i
  | 4 => Cancel_result i
  | 5 => Drain_ready
  | _ => Spawn i
  end%N.

(** What [Machine::run] and [Machine::resume] return. *)
Inductive Outcome :=
| Returned (value : Value)
| Failed (error : Machine.VmError)
| Suspended (pending : N)
| Yielded (value : Value).

(** ** Guest code

    A script over the guest's own state, with its own closures, that may also
    call asynchronous functions and [poll_async]. A machine is a handle; what
    it holds is part of the guest's state. *)
Inductive code (G A : Type) : Type :=
| CReturn (result : A)
| CGet (k : G → code G A)
| CPut (g : G) (k : code G A)
| CInvoke {B : Type} (c : command B) (k : B → code G A)
| CSpawn (machine : N) (k : N → code G A)
| CPollAsync (k : N → code G A).
Arguments CReturn {G A} _.
Arguments CGet {G A} _.
Arguments CPut {G A} _ _.
Arguments CInvoke {G A B} _ _.
Arguments CSpawn {G A} _ _.
Arguments CPollAsync {G A} _.

Class GuestCode (G : Type) := {
  machine_run : N → code G Outcome;
  machine_resume : N → PromiseState → code G Outcome;
  guest_state : N → PromiseState → code G ();
  guest_poll : N → code G ();
  guest_wait : N → code G ();
  guest_cancel : N → code G ();
  guest_task : N → code G (result string Value);
  guest_call : N → code G N;
}.

(** ** The scheduler's state *)
Record AsyncChild := mkAsyncChild { machine : N; result : N; pending : N }.

Record AsyncScheduler := mkAsyncScheduler {
  next_id : N;
  children : gmap N AsyncChild;
  ready : list (N * PromiseState);
  polling : bool;
}.
Definition scheduler_default : AsyncScheduler := mkAsyncScheduler 0 ∅ [] false.

(** The order in which a [HashMap] is iterated, which the language leaves
    open. *)
Class HashOrder := {
  child_order : gmap N AsyncChild → list (N * AsyncChild);
  child_order_perm m : child_order m ≡ₚ map_to_list m;
}.

(** [World] is the host state of [Task]: the guest's and the scheduler's. The
    last fields are history for the statements: the promises children were
    retained for, the children resumed and with what, the results of the
    asynchronous calls, and those whose child a cancel hook removed. *)
Record World (G : Type) := mkWorld {
  guest : G;
  scheduler : AsyncScheduler;
  retained : list N;
  resumed : list (N * PromiseState);
  results : list N;
  cancels : list N;
}.
Arguments mkWorld {G} _ _ _ _ _ _.
Arguments guest {G} _.
Arguments scheduler {G} _.
Arguments retained {G} _.
Arguments resumed {G} _.
Arguments results {G} _.
Arguments cancels {G} _.
Definition world_new {G} (g : G) : World G := mkWorld g scheduler_default [] [] [] [].

Section scheduler.
Context {G : Type} `{!GuestCode G} `{!HashOrder}.
Local Abbreviation W := (World G).
Local Abbreviation script := (script W).
Implicit Types (w : W) (a : AsyncScheduler).

Definition with_guest (g : G) w : W := mkWorld g (scheduler w) (retained w) (resumed w) (results w) (cancels w).
Definition with_scheduler (a : AsyncScheduler) w : W :=
  mkWorld (guest w) a (retained w) (resumed w) (results w) (cancels w).
Definition note_retained (p : N) w : W :=
  mkWorld (guest w) (scheduler w) (retained w ++ [p]) (resumed w) (results w) (cancels w).
Definition note_resumed (r : N * PromiseState) w : W :=
  mkWorld (guest w) (scheduler w) (retained w) (resumed w ++ [r]) (results w) (cancels w).
Definition note_result (r : N) w : W :=
  mkWorld (guest w) (scheduler w) (retained w) (resumed w) (results w ++ [r]) (cancels w).
Definition note_cancel (r : N) w : W :=
  mkWorld (guest w) (scheduler w) (retained w) (resumed w) (results w) (cancels w ++ [r]).

Definition set_children (m : gmap N AsyncChild) a : AsyncScheduler := mkAsyncScheduler (next_id a) m (ready a) (polling a).
Definition set_ready (r : list (N * PromiseState)) a : AsyncScheduler := mkAsyncScheduler (next_id a) (children a) r (polling a).
Definition set_polling (b : bool) a : AsyncScheduler := mkAsyncScheduler (next_id a) (children a) (ready a) b.

(** *** Guest code as a script *)
Definition guest_continuation (k : continuation) : continuation :=
  match k with
  | Forward d => Forward d
  | HostContinuation c => HostContinuation (closure_number (Guest c))
  end.

Definition guest_command {B} (c : command B) : command B :=
  match c in command B return command B with
  | Schedule p delay task => Schedule p delay (closure_number (Guest task))
  | OnSettle p k => OnSettle p (guest_continuation k)
  | SetPoller p c => SetPoller p (closure_number (Guest c))
  | SetCooperativePoller p c => SetCooperativePoller p (closure_number (Guest c))
  | SetWaiter p c => SetWaiter p (closure_number (Guest c))
  | SetCancelHook p c => SetCancelHook p (closure_number (Guest c))
  | CallHost c => CallHost (closure_number (Guest c))
  | c => c
  end.

Fixpoint embed {A} (c : code G A) : script A :=
  match c with
  | CReturn x => Return x
  | CGet k => Get (λ w, embed (k (guest w)))
  | CPut g k => Get (λ w, Put (with_guest g w) (embed k))
  | CInvoke c k => Invoke (guest_command c) (λ x, embed (k x))
  | CSpawn m k => Invoke (CallHost (closure_number (Spawn m))) (λ r, embed (k r))
  | CPollAsync k => Invoke (CallHost (closure_number Poll)) (λ n, embed (k n))
  end.

(** *** The methods *)
Definition modify (f : W → W) : script () := Get (λ w, Put (f w) (Return tt)).
Definition invoke {B} (c : command B) : script B := Invoke c Return.
Definition borrow : script AsyncScheduler := Get (λ w, Return (scheduler w)).
Definition update (f : AsyncScheduler → AsyncScheduler) : script () :=
  modify (λ w, with_scheduler (f (scheduler w)) w).

(** [settle_result] of [task/promise.rs]. *)
Definition settle_result (destination : N) (r : Prelude.result string Value) : script () :=
  match r with
  | Ok (VPromise source) => invoke (Adopt destination source);; mret tt
  | Ok value => invoke (Resolve destination value);; mret tt
  | Err error => invoke (RejectRejection destination (RMessage error));; mret tt
  end.

(** A child's identifier and the scheduler that holds it. *)
Definition retain (child : AsyncChild) a : N * AsyncScheduler :=
  (next_id a,
   mkAsyncScheduler ((next_id a + 1) mod 2 ^ 64) (<[next_id a := child]> (children a)) (ready a) (polling a)).

Definition retain_async_child (machine result pending : N) : script () :=
  id ← Get (λ w,
    let '(id, a) := retain (mkAsyncChild machine result pending) (scheduler w) in
    Put (note_retained pending (with_scheduler a w)) (Return id));
  invoke (OnSettle pending (HostContinuation (closure_number (Ready id)))).

(** The continuation it registers. *)
Definition on_ready (id : N) (state : PromiseState) : script () :=
  update (λ a, set_ready (ready a ++ [(id, state)]) a).

Definition finish_async (machine result : N) (outcome : Outcome) : script () :=
  match outcome with
  | Returned value => settle_result result (Ok value)
  | Failed error => invoke (RejectRejection result (RMessage (Machine.message error)));; mret tt
  | Suspended pending => retain_async_child machine result pending
  | Yielded _ => invoke (RejectRejection result (RMessage "coroutine/yield used outside of a coroutine"));; mret tt
  end.

(** One turn of the loop of [poll_scheduler], and the turns after it. *)
Definition drain_ready : script N :=
  a ← borrow;
  match ready a with
  | [] => mret 0%N
  | (id, state) :: rest =>
      update (set_ready rest);;
      a ← borrow;
      match children a !! id with
      | None => invoke (CallHost (closure_number Drain_ready))
      | Some child =>
          update (λ a, set_children (delete id (children a)) a);;
          live ← invoke (Upgrade (result child));
          if negb live then
            invoke (Cancel (pending child));; invoke (CallHost (closure_number Drain_ready))
          else
            modify (note_resumed (id, state));;
            outcome ← embed (machine_resume (machine child) state);
            finish_async (machine child) (result child) outcome;;
            count ← invoke (CallHost (closure_number Drain_ready));
            mret (1 + count)%N
      end
  end.

Definition poll_states : list N → script () :=
  fix poll_states ps :=
    match ps with
    | [] => mret tt
    | p :: ps => invoke (State p);; poll_states ps
    end.

Definition poll_scheduler : script N :=
  a ← borrow;
  if polling a then mret 0%N
  else
    update (set_polling true);;
    a ← borrow;
    poll_states ((λ c, pending c.2) <$> child_order (children a));;
    count ← invoke (CallHost (closure_number Drain_ready));
    update (set_polling false);;
    mret count.

(** The children, in order, whose result is alive and has an identity. *)
Definition children_of (identity : N) : list (N * AsyncChild) → script (list (N * AsyncChild)) :=
  fix children_of cs :=
    match cs with
    | [] => mret []
    | (id, child) :: cs =>
        live ← invoke (Upgrade (result child));
        found ← children_of cs;
        mret (if live && bool_decide (result child = identity) then (id, child) :: found else found)
    end.

Definition wait_async_result (identity : N) : script () :=
  invoke (CallHost (closure_number Poll));;
  a ← borrow;
  found ← children_of identity (child_order (children a));
  match found with
  | [] => mret tt
  | (_, child) :: _ =>
      state ← invoke (WaitState (pending child));
      if is_pending state then invoke (CallHost (closure_number Poll));; mret tt
      else invoke (CallHost (closure_number (Wait identity)));; mret tt
  end.

Definition cancel_children : list N → script () :=
  fix cancel_children ids :=
    match ids with
    | [] => mret tt
    | id :: ids =>
        a ← borrow;
        match children a !! id with
        | None => cancel_children ids
        | Some child =>
            modify (λ w, note_cancel (result child)
              (with_scheduler (set_children (delete id (children (scheduler w))) (scheduler w)) w));;
            invoke (Cancel (pending child));;
            cancel_children ids
        end
    end.

Definition cancel_async_result (identity : N) : script () :=
  a ← borrow;
  found ← children_of identity (child_order (children a));
  cancel_children (found.*1).

(** The result promise of an asynchronous call, with its hooks. *)
Definition new_result : script N :=
  result ← invoke New;
  modify (note_result result);;
  invoke (SetPoller result (closure_number Poll));;
  invoke (SetWaiter result (closure_number (Wait result)));;
  invoke (SetCancelHook result (closure_number (Cancel_result result)));;
  mret result.

Definition spawn_async (machine : N) : script N :=
  result ← new_result;
  outcome ← embed (machine_run machine);
  finish_async machine result outcome;;
  mret result.

Definition async_result_from_outcome (machine : N) (outcome : Outcome) : script N :=
  result ← new_result;
  finish_async machine result outcome;;
  mret result.

Definition async_result (machine : N) : script N :=
  outcome ← embed (machine_run machine);
  async_result_from_outcome machine outcome.

(** *** The closures *)
#[export] Instance World_host : Host W := {
  on_state n state :=
    match closure_of n with
    | Guest c => embed (guest_state c state)
    | Ready id => on_ready id state
    | _ => mret tt
    end;
  on_poll n :=
    match closure_of n with
    | Guest c => embed (guest_poll c)
    | Poll => poll_scheduler;; mret tt
    | _ => mret tt
    end;
  on_wait n :=
    match closure_of n with
    | Guest c => embed (guest_wait c)
    | Wait identity => wait_async_result identity
    | _ => mret tt
    end;
  on_cancel n :=
    match closure_of n with
    | Guest c => embed (guest_cancel c)
    | Cancel_result identity => cancel_async_result identity
    | _ => mret tt
    end;
  on_task n :=
    match closure_of n with Guest c => embed (guest_task c) | _ => mret (Err EmptyString) end;
  on_call n :=
    match closure_of n with
    | Guest c => embed (guest_call c)
    | Poll => poll_scheduler
    | Wait identity => wait_async_result identity;; mret 0%N
    | Drain_ready => drain_ready
    | Spawn machine => spawn_async machine
    | _ => mret 0%N
    end;
}.
End scheduler.
