(* ===== verification/SchedulerFacts.v ===== *)
(** * What the scheduler guarantees

    For arbitrary guest code: no child is left behind by the settlement of the
    promise it waits for, a machine is resumed at most once per suspension and
    with the right state, and the result of every asynchronous call is accounted
    for. *)
From S2P Require Import Prelude Kernel Task Promises Scheduler.
Import Promise.

(** ** What every run only adds to *)
Section growth.
Context {H : Type} `{!Host H}.
Implicit Types s : Store H.

(** A promise is settled or will be by the one it adopted. *)
Definition accounted (p : N) s : Prop := raw_state s p ≠ Pending ∨ adopted_from (cell s p) ≠ None.

Record grows s s' : Prop := {
  g_subscriptions x : x ∈ subscriptions s → x ∈ subscriptions s';
  g_accounted p : accounted p s → accounted p s';
}.

#[local] Instance grows_preorder : PreOrder grows.
Proof. split; [by split|]. intros s1 s2 s3 [H1 H2] [H3 H4]. split; auto. Qed.

Lemma grows_core s s' : same_core s s' → grows s s'.
Proof.
  intros [Hst _ Ha _ _ _ Hs _ _]. split; [by rewrite Hs|]. intros p. unfold accounted, raw_state. by rewrite Hst, Ha.
Qed.

Lemma grows_cells (f : Store H → Store H) :
  (∀ s, promises (f s) = promises s ∧ subscriptions (f s) = subscriptions s) → keeps grows (write f).
Proof.
  intros Hf. apply keeps_write. intros s. destruct (Hf s) as [Hp Hs]. split; [by rewrite Hs|].
  intros p. unfold accounted, raw_state, cell. by rewrite Hp.
Qed.

Lemma grows_update p f :
  (∀ c, cell_state (f c) = cell_state c ∧ (adopted_from c ≠ None → adopted_from (f c) ≠ None)) →
  keeps grows (write (update_cell p f)).
Proof.
  intros Hf. apply keeps_write. intros s. split; [done|]. intros q. unfold accounted, raw_state, update_cell.
  rewrite cell_set_cell. case_decide as E; [|done]. subst q. destruct (Hf (cell s p)) as [-> Ha]. tauto.
Qed.

Section methods.
Variable self : ∀ A : Type, command A → Promise.op (H:=H) A.
Hypothesis self_keeps : ∀ A c, keeps grows (self A c).

Lemma call_continuation_grows j : keeps grows (call_continuation self j).
Proof.
  unfold call_continuation. kbind; [by apply grows_cells|intros _].
  destruct (callee j); [|by refine (keeps_run _ _ _ (core_host _ grows_core) _)].
  destruct (argument j); repeat first [kret | apply self_keeps | kbind; intros].
Qed.

Lemma enqueue_grows j : keeps grows (enqueue_continuation self j).
Proof.
  unfold enqueue_continuation. kbind; [by apply grows_cells|intros _]. kbind; [kread|intros []]; [kret|].
  repeat first [by apply grows_cells | apply self_keeps | kbind; intros].
Qed.

Lemma settle_grows p next : next ≠ Pending → keeps grows (settle self p next).
Proof.
  intros Hn. unfold settle. kbind.
  - intros s taken s' [(Hp & -> & ->)|(_ & _ & ->)]%take_continuations_spec; [|done].
    split; [done|]. intros q Hq. unfold accounted, raw_state in *. rewrite cell_set_cell. case_decide; [by left|done].
  - intros [ks|]; [|kret]. kbind; [|intros; kret]. induction ks as [|k ks IH]; cbn; [kret|].
    kbind; [apply enqueue_grows|done].
Qed.
End methods.

Lemma grows_kept : Kept grows.
Proof.
  split; try tc_solve.
  - exact grows_core.
  - intros fuel p IH. unfold progress_one. kbind; [kread|intros []; [kret|]].
    repeat first [by apply grows_cells | apply IH | kbind; intros].
  - intros fuel p next IH. by apply settle_grows.
  - intros fuel p k IH. unfold on_settle. kbind; [apply IH|intros st]. apply keeps_when; (kbind; [|intros _]).
    + apply keeps_write. intros s. split; [intros x Hx; apply elem_of_app; by left|]. intros q.
      unfold accounted, raw_state. rewrite cell_subscribe. unfold update_cell. rewrite cell_set_cell.
      case_decide; [by subst|done].
    + refine (keeps_register_progress _ (core_quiet _ grows_core) _).
    + apply keeps_write. intros s. split; [intros x Hx; apply elem_of_app; by left|done].
    + by apply enqueue_grows.
  - intros fuel p q IH Hs. unfold adopt. kbind; [kread|intros []]; [by apply Hs|].
    kbind; [apply IH|intros []]; [|by apply Hs..]. kbind; [apply IH|intros own]. apply keeps_when; [kret|].
    repeat first [by apply grows_update | apply IH | kret | kbind; intros].
  - intros fuel IH. unfold drain. kbind; [kread|intros q]. destruct q; [kret|].
    repeat first [by apply grows_cells | apply IH | by apply call_continuation_grows | kbind; intros].
Qed.

Lemma perform_grows fuel A (c : command A) s x s' : perform fuel c s = Some (x, s') → grows s s'.
Proof. apply perform_keeps, grows_kept. Qed.

Lemma perform_settled fuel A (c : command A) s x s' : perform fuel c s = Some (x, s') → stays_settled s s'.
Proof. apply perform_keeps, stays_settled_kept. Qed.

(** ** What single commands achieve *)
Lemma resolve_settles fuel p v s b s' : perform fuel (Resolve p v) s = Some (b, s') → raw_state s' p ≠ Pending.
Proof. destruct fuel; [done|]. intros Hs. by eapply settle_settles. Qed.

Lemma reject_settles fuel p e s b s' : perform fuel (RejectRejection p e) s = Some (b, s') → raw_state s' p ≠ Pending.
Proof. destruct fuel; [done|]. intros Hs. by eapply settle_settles. Qed.

Lemma adopt_accounts fuel p q s b s' : perform fuel (Adopt p q) s = Some (b, s') → accounted p s'.
Proof.
  destruct fuel as [|fuel]; [done|]. cbn [perform method]. unfold adopt.
  intros (c & s1 & [= <- <-] & Hs)%bind_some. destruct (_ || _); [left; by eapply settle_settles|].
  apply bind_some in Hs as (st & s2 & _ & Hs). destruct st; [|left; by eapply settle_settles..].
  apply bind_some in Hs as (own & s3 & Hown & Hs). apply perform_state in Hown as ->.
  destruct (is_pending (raw_state s3 p)) eqn:E; cbn [negb] in Hs.
  2:{ injection Hs as <- <-. left. by apply not_pending_spec. }
  apply bind_some in Hs as (? & s4 & [= <- <-] & (? & s5 & [= <- <-] & (? & s6 & [= <- <-] & (? & s7 & Hk & [= <- <-])
    %bind_some)%bind_some)%bind_some).
  apply perform_grows in Hk. apply Hk. right. unfold update_cell. rewrite !cell_set_cell, !decide_True by done. done.
Qed.

Lemma upgrade_live fuel p s b s' : perform fuel (Upgrade p) s = Some (b, s') → s' = s ∧ (b = false → p ∈ dropped s).
Proof.
  destruct fuel; [done|]. intros [= <- <-]. split; [done|]. unfold upgrade. by case_decide.
Qed.

Lemma new_result_cell fuel s p s' : perform fuel New s = Some (p, s') → host s' = host s ∧ same_core s s'.
Proof.
  destruct fuel; [done|]. intros Hn. change (new s = Some (p, s')) in Hn. pose proof (new_spec _ _ _ Hn) as [_ Hc].
  injection Hn as <- <-. split; [done|]. split; try done; by intros q; rewrite Hc.
Qed.
End growth.

(** ** Running scripts *)
Section scripts.
Context {H : Type} `{!Host H}.
Variable self : ∀ A : Type, command A → Promise.op (H:=H) A.

Lemma run_bind {A B} (c : script H A) (f : A → script H B) s y s' :
  run self (c ≫= f) s = Some (y, s') ↔ ∃ x s1, run self c s = Some (x, s1) ∧ run self (f x) s1 = Some (y, s').
Proof.
  change (run self (script_bind c f) s = Some (y, s') ↔ ∃ x s1, run self c s = Some (x, s1) ∧ run self (f x) s1 = Some (y, s')).
  revert s. induction c as [x|k IH|h c IH|D c k IH]; intros s; cbn [script_bind run].
  - split; [by exists x, s|]. by intros (? & ? & [= <- <-] & ?).
  - apply IH.
  - rewrite bind_some. split.
    + intros (? & s1 & [= <- <-] & (x & s2 & Hx & Hy)%IH). exists x, s2. split; [|done]. apply bind_some. eauto.
    + intros (x & s2 & (? & s1 & [= <- <-] & Hx)%bind_some & Hy). exists tt, (with_host h s). split; [done|].
      apply IH. eauto.
  - rewrite bind_some. split.
    + intros (z & s1 & Hz & (x & s2 & Hx & Hy)%IH). exists x, s2. split; [|done]. apply bind_some. eauto.
    + intros (x & s2 & (z & s1 & Hz & Hx)%bind_some & Hy). exists z, s1. split; [done|]. apply IH. eauto.
Qed.

Lemma run_invoke {A} (c : command A) s x s' : run self (Invoke c Return) s = Some (x, s') ↔ self A c s = Some (x, s').
Proof.
  cbn [run]. rewrite bind_some. split; [by intros (? & ? & ? & [= <- <-])|]. intros Hs. by exists x, s'.
Qed.

Lemma keeps_run_bind (R : relation (Store H)) `{!PreOrder R} {A B} (c : script H A) (f : A → script H B) :
  keeps R (run self c) → (∀ x, keeps R (run self (f x))) → keeps R (run self (c ≫= f)).
Proof. intros Hc Hf s y s' (x & s1 & Hx & Hy)%run_bind. etrans; [by eapply Hc|by eapply Hf]. Qed.

Lemma keeps_run_invoke (R : relation (Store H)) `{!PreOrder R} {A} (c : command A) :
  keeps R (self A c) → keeps R (run self (Invoke c Return)).
Proof. intros Hc s x s' Hs%run_invoke. by eapply Hc. Qed.
End scripts.

(** ** Closures *)
Lemma tag_spec i r : (r < 8)%N → ((8 * i + r) / 8 = i ∧ (8 * i + r) mod 8 = r)%N.
Proof.
  intros Hr. split; [symmetry; by apply (N.div_unique _ 8 i r)|symmetry; by apply (N.mod_unique _ 8 i r)].
Qed.

Lemma closure_of_number c : closure_of (closure_number c) = c.
Proof.
  unfold closure_of, closure_number. destruct c as [c|id| |i|i| |m]; try reflexivity;
    [pose proof (tag_spec c 0) as Ht; rewrite N.add_0_r in Ht
    |pose proof (tag_spec id 1) as Ht|pose proof (tag_spec i 3) as Ht|pose proof (tag_spec i 4) as Ht
    |pose proof (tag_spec m 6) as Ht]; by destruct Ht as [-> ->].
Qed.

Lemma closure_of_ready n id : closure_of n = Ready id ↔ n = closure_number (Ready id).
Proof.
  split; [|intros ->; apply closure_of_number]. unfold closure_of, closure_number.
  pose proof (N.div_mod' n 8) as Hn. revert Hn. generalize (n / 8)%N (n mod 8)%N. intros q [|r] Hn Hc; [done|].
  repeat (destruct r as [r|r|]; try done). by injection Hc as <-.
Qed.

(** ** The invariant *)
Section scheduler.
Context {G : Type} `{!GuestCode G} `{!HashOrder}.
Local Abbreviation W := (World G).
Implicit Types (s : Store W) (w : W).
Local Abbreviation op := (Promise.op (H:=W)).

Definition sched s : AsyncScheduler := scheduler (host s).
Definition ready_of (id : N) : continuation := HostContinuation (closure_number (Ready id)).

(** Fewer children than identifiers, so that none is used twice. *)
Definition bounded s : Prop := (N.of_nat (length (retained (host s))) ≤ 2 ^ 64)%N.

(** An identifier is the place of its child in the history. *)
Definition retained_for s (id p : N) : Prop := retained (host s) !! N.to_nat id = Some p.

(** [X] are the children not subscribed yet, [Y] the results of the machines
    that are running. *)
Record sched_inv (X Y : list N) s : Prop := {
  si_next : next_id (sched s) = (N.of_nat (length (retained (host s))) mod 2 ^ 64)%N;
  si_child id c : children (sched s) !! id = Some c → retained_for s id (pending c);
  si_subscribed id p : retained_for s id p → id ∈ X ∨ (p, ready_of id) ∈ subscriptions s;
  si_only id p : (p, ready_of id) ∈ subscriptions s → retained_for s id p;
  si_waiting p k : k ∈ continuations (cell s p) → (p, k) ∈ subscriptions s;
  si_queued j : j ∈ queue s → (origin j, callee j) ∈ subscriptions s;
  si_called j : j ∈ called s → (origin j, callee j) ∈ subscriptions s;
  si_ready id st : (id, st) ∈ ready (sched s) ++ resumed (host s) →
    ∃ j, j ∈ called s ∧ callee j = ready_of id ∧ argument j = st;
  si_woken id c j : children (sched s) !! id = Some c → j ∈ called s → callee j = ready_of id →
    (id, argument j) ∈ ready (sched s);
  si_once : NoDup (resumed (host s)).*1;
  si_gone id st : (id, st) ∈ resumed (host s) → children (sched s) !! id = None;
  si_results r : r ∈ results (host s) →
    accounted r s ∨ r ∈ Y ∨ r ∈ cancels (host s) ∨ r ∈ dropped s ∨
    ∃ id c, children (sched s) !! id = Some c ∧ result c = r;
}.

(** [P] is a fact about [s] that follows from the invariant. *)
Record sched_keeps_if (P : Prop) s s' : Prop := {
  sk_polling : polling (sched s') = polling (sched s);
  sk_retained : retained (host s) `prefix_of` retained (host s');
  sk_inv : bounded s' → P → ∀ X Y, sched_inv X Y s → sched_inv X Y s';
}.
Definition sched_keeps : relation (Store W) := sched_keeps_if True.

Lemma bounded_before s s' : retained (host s) `prefix_of` retained (host s') → bounded s' → bounded s.
Proof. intros Hl%prefix_length Hb. unfold bounded in *. lia. Qed.

Lemma keeps_if_trans P Q s1 s2 s3 :
  (P → Q) → sched_keeps_if P s1 s2 → sched_keeps_if Q s2 s3 → sched_keeps_if P s1 s3.
Proof.
  intros HPQ [H1 H2 H3] [H4 H5 H6]. split; [congruence|by etrans|].
  intros Hb HP X Y Hi. apply H6; [done|auto|]. apply H3; [by eapply bounded_before|done..].
Qed.

#[local] Instance sched_keeps_preorder : PreOrder sched_keeps.
Proof. split; [by split|]. intros s1 s2 s3. by apply keeps_if_trans. Qed.

(** A step that leaves the scheduler and the histories alone. *)
Lemma inv_same X Y s s' :
  host s' = host s → subscriptions s' = subscriptions s → called s' = called s →
  (∀ j, j ∈ queue s' → j ∈ queue s ∨ (origin j, callee j) ∈ subscriptions s) →
  (∀ p k, k ∈ continuations (cell s' p) → k ∈ continuations (cell s p) ∨ (p, k) ∈ subscriptions s) →
  (∀ p, accounted p s → accounted p s') → dropped s ⊆ dropped s' →
  sched_inv X Y s → sched_inv X Y s'.
Proof.
  intros Hh Hs Hc Hq Hk Ha Hd [H1 H2 H3 H4 H5 H6 H7 H8 H9 H10 H11 H12].
  split; unfold sched, retained_for in *; rewrite ?Hh, ?Hs, ?Hc; try done.
  - intros p k Hp. apply Hk in Hp as [Hp|Hp]; [by apply H5|done].
  - intros j Hj. apply Hq in Hj as [Hj|Hj]; [by apply H6|done].
  - intros r Hr. destruct (H12 r Hr) as [|[|[|[|]]]]; eauto 6.
Qed.

Lemma sched_keeps_same s s' :
  host s' = host s → subscriptions s' = subscriptions s → called s' = called s →
  (∀ j, j ∈ queue s' → j ∈ queue s ∨ (origin j, callee j) ∈ subscriptions s) →
  (∀ p k, k ∈ continuations (cell s' p) → k ∈ continuations (cell s p) ∨ (p, k) ∈ subscriptions s) →
  (∀ p, accounted p s → accounted p s') → dropped s ⊆ dropped s' →
  sched_keeps s s'.
Proof.
  intros Hh **. split; [unfold sched; by rewrite Hh|by rewrite Hh|]. intros _ _ X Y. by apply inv_same.
Qed.

Lemma sched_keeps_quiet s s' : same_core s s' → host s' = host s → sched_keeps s s'.
Proof.
  intros Hc Hh. apply sched_keeps_same; try done; try apply Hc.
  - intros j. rewrite (sc_queue _ _ Hc). by left.
  - intros p k. rewrite (sc_continuations _ _ Hc). by left.
  - intros p. apply grows_core in Hc. apply Hc.
Qed.

(** Commands that subscribe none of the scheduler's continuations. *)
Definition foreign (k : continuation) : Prop := ∀ id, k ≠ ready_of id.
Definition allowed A (c : command A) : Prop := match c with OnSettle _ k => foreign k | _ => True end.

Lemma allowed_internal A (c : command A) : internal c → allowed A c.
Proof. destruct c; try done. by destruct k. Qed.

(** *** Continuations *)
Lemma ready_of_inj id id' : ready_of id = ready_of id' → id = id'.
Proof.
  unfold ready_of. intros Hn.
  apply (f_equal (λ k, match k with HostContinuation n => closure_of n | Forward _ => Poll end)) in Hn.
  cbv beta iota in Hn. rewrite !closure_of_number in Hn. by injection Hn.
Qed.

Lemma retained_for_fun s id p q : retained_for s id p → retained_for s id q → p = q.
Proof. unfold retained_for. congruence. Qed.

Lemma inv_subscribe X X' Y p k s s' :
  host s' = host s → subscriptions s' = subscriptions s ++ [(p, k)] → called s' = called s → queue s' = queue s →
  (∀ q k', k' ∈ continuations (cell s' q) → k' ∈ continuations (cell s q) ∨ (q = p ∧ k' = k)) →
  (∀ q, accounted q s → accounted q s') → dropped s' = dropped s →
  (∀ id, k = ready_of id → retained_for s id p) → (∀ id, id ∈ X → id ∈ X' ∨ k = ready_of id) →
  sched_inv X Y s → sched_inv X' Y s'.
Proof.
  intros Hh Hs Hc Hq Hk Ha Hd Hr HX [H1 H2 H3 H4 H5 H6 H7 H8 H9 H10 H11 H12].
  split; unfold sched, retained_for in *; rewrite ?Hh, ?Hs, ?Hc, ?Hq, ?Hd; try done.
  - intros id q Hid. rewrite elem_of_app, list_elem_of_singleton. destruct (H3 id q Hid) as [Hx|]; [|by right; left].
    destruct (HX id Hx) as [|Hk']; [by left|]. right. right. subst k. f_equal. specialize (Hr id eq_refl).
    rewrite Hid in Hr. by injection Hr.
  - intros id q. rewrite elem_of_app, list_elem_of_singleton. intros [|[= -> <-]]; [by apply H4|by apply Hr].
  - intros q k' Hq'. rewrite elem_of_app, list_elem_of_singleton.
    apply Hk in Hq' as [Hq'|[-> ->]]; [left; by apply H5|by right].
  - intros j Hj. apply elem_of_app. left. by apply H6.
  - intros j Hj. apply elem_of_app. left. by apply H7.
  - intros r Hin. destruct (H12 r Hin) as [|[|[|[|]]]]; eauto 6.
Qed.

(** The continuation of a child queues it. *)
Lemma inv_ready X Y j id s :
  callee j = ready_of id → (origin j, callee j) ∈ subscriptions s → sched_inv X Y s →
  sched_inv X Y (with_host (with_scheduler (set_ready (ready (sched s) ++ [(id, argument j)]) (sched s)) (host s)) (call j s)).
Proof.
  intros Hj Hsub [H1 H2 H3 H4 H5 H6 H7 H8 H9 H10 H11 H12]. split; try done.
  - intros j'. cbn -[cell]. rewrite elem_of_app, list_elem_of_singleton. intros [|Hj']; [by apply H7|by subst j'].
  - intros id' st. cbn -[cell]. rewrite <-app_assoc, elem_of_app, elem_of_app, list_elem_of_singleton.
    intros Hin. assert ((id', st) ∈ ready (sched s) ++ resumed (host s) ∨ (id', st) = (id, argument j)) as [Hin'|[= -> ->]].
    { rewrite elem_of_app. tauto. }
    + destruct (H8 _ _ Hin') as (j' & Hj' & ?). exists j'. split; [|done]. apply elem_of_app. by left.
    + exists j. split; [|done]. apply elem_of_app. right. by left.
  - intros id' c j'. cbn -[cell]. rewrite !elem_of_app, !list_elem_of_singleton. intros Hc [Hj'|Hj'] Hk.
    + left. by eapply H9.
    + right. subst j'. rewrite Hj in Hk. by apply ready_of_inj in Hk as ->.
Qed.

(** Calling any other continuation. *)
Lemma inv_call X Y j s :
  foreign (callee j) → (origin j, callee j) ∈ subscriptions s → sched_inv X Y s → sched_inv X Y (call j s).
Proof.
  intros Hj Hsub [H1 H2 H3 H4 H5 H6 H7 H8 H9 H10 H11 H12]. split; try done.
  - intros j'. cbn -[cell]. rewrite elem_of_app, list_elem_of_singleton. intros [|Hj']; [by apply H7|by subst j'].
  - intros id st Hin. destruct (H8 _ _ Hin) as (j' & Hj' & ?). exists j'. split; [|done]. apply elem_of_app. by left.
  - intros id c j'. cbn -[cell]. rewrite elem_of_app, list_elem_of_singleton. intros Hc [Hj'|Hj'] Hk; [by eapply H9|].
    subst j'. by destruct (Hj id).
Qed.

(** *** The methods of promises *)
Section methods.
Variable fuel : nat.
Local Abbreviation self := (λ A, perform (H:=W) fuel (A:=A)).
Hypothesis IH : ∀ A c, allowed A c → keeps sched_keeps (perform (H:=W) fuel (A:=A) c).

Lemma performed {A} (c : command A) s x s' : perform fuel c s = Some (x, s') → allowed A c → sched_keeps s s'.
Proof. intros Hs Hc. by eapply IH. Qed.

Lemma foreign_number n : (∀ id, closure_of n ≠ Ready id) → foreign (HostContinuation n).
Proof.
  intros Hc id Hn. apply (f_equal (λ k, match k with HostContinuation n => closure_of n | Forward _ => Poll end)) in Hn.
  unfold ready_of in Hn. cbv beta iota in Hn. rewrite closure_of_number in Hn. by destruct (Hc id).
Qed.

Lemma guest_allowed {B} (c : command B) : allowed B (guest_command c).
Proof. destruct c; try done. cbn [guest_command allowed]. destruct k; [done|]. apply foreign_number. intros id. by rewrite closure_of_number. Qed.

Lemma with_guest_keeps s g : sched_keeps s (with_host (with_guest g (host s)) s).
Proof. split; [done..|]. by intros _ _ X Y []. Qed.

Lemma embed_keeps {A} (c : code G A) : keeps sched_keeps (run self (embed c)).
Proof.
  induction c as [x|k IHk|g k IHk|B c k IHk|m k IHk|k IHk]; cbn [embed run].
  - kret.
  - intros s y s'. apply IHk.
  - intros s y s' (? & s1 & [= <- <-] & Hs)%bind_some. etrans; [apply with_guest_keeps|by eapply IHk].
  - kbind; [apply IH, guest_allowed|done].
  - kbind; [by apply IH|done].
  - kbind; [by apply IH|done].
Qed.

Lemma call_continuation_keeps j s x s' :
  call_continuation self j s = Some (x, s') → sched_keeps_if ((origin j, callee j) ∈ subscriptions s) s s'.
Proof.
  intros (? & s1 & [= <- <-] & Hs)%bind_some.
  assert (foreign (callee j) → sched_keeps_if ((origin j, callee j) ∈ subscriptions s) s (call j s)) as Hcall.
  { intros Hf. split; [done..|]. intros _ Hsub X Y. by apply inv_call. }
  destruct (callee j) as [d|n] eqn:Hk.
  - eapply keeps_if_trans; [intros _; exact I|by apply Hcall|]. destruct (argument j).
    + by injection Hs as <- <-.
    + apply bind_some in Hs as (b & s2 & Hb & [= <- <-]). by apply performed in Hb.
    + apply bind_some in Hs as (b & s2 & Hb & [= <- <-]). by apply performed in Hb.
  - cbn [on_state World_host] in Hs. destruct (closure_of n) as [c|id| | | | |] eqn:Hn.
    2:{ apply closure_of_ready in Hn. subst n. cbn in Hs. injection Hs as <- <-. split; [done..|].
        intros _ Hsub X Y. rewrite <-Hk in Hsub. by apply inv_ready. }
    all: eapply keeps_if_trans; [intros _; exact I|apply Hcall, foreign_number; intros id; by rewrite Hn|].
    1: by eapply embed_keeps.
    all: by injection Hs as <- <-.
Qed.

(** Only the queue changes. *)
Lemma queued_keeps P s s' :
  promises s' = promises s → host s' = host s → subscriptions s' = subscriptions s → called s' = called s →
  dropped s' = dropped s →
  (P → ∀ j, j ∈ queue s' → j ∈ queue s ∨ (origin j, callee j) ∈ subscriptions s) → sched_keeps_if P s s'.
Proof.
  intros Hp Hh Hs Hc Hd Hq. split; [unfold sched; by rewrite Hh|by rewrite Hh|]. intros _ HP X Y.
  apply inv_same; try done.
  - by apply Hq.
  - intros p k. unfold cell. rewrite Hp. by left.
  - intros p. unfold accounted, raw_state, cell. by rewrite Hp.
  - by rewrite Hd.
Qed.

Lemma drain_keeps : keeps sched_keeps (drain self).
Proof.
  intros s x s' (q & s1 & [= <- <-] & Hs)%bind_some. destruct (queue s) as [|j rest] eqn:Hq; [by injection Hs as <- <-|].
  apply bind_some in Hs as (? & s1 & [= <- <-] & (? & s2 & Hj & Hs)%bind_some).
  transitivity s2; [|by apply performed in Hs]. apply call_continuation_keeps in Hj as [H1 H2 H3]. split; [done..|].
  intros Hb _ X Y Hi. apply H3; [done|cbn; eapply si_queued; [exact Hi|rewrite Hq; by left]|].
  revert Hi. apply inv_same; try done; [|by left]. intros j' Hj'. left. rewrite Hq. by right.
Qed.

Lemma enqueue_keeps j s x s' :
  enqueue_continuation self j s = Some (x, s') → sched_keeps_if ((origin j, callee j) ∈ subscriptions s) s s'.
Proof.
  intros (? & s1 & [= <- <-] & (b & s2 & [= <- <-] & Hs)%bind_some)%bind_some. cbn [draining with_queue] in Hs.
  assert (∀ b, sched_keeps_if ((origin j, callee j) ∈ subscriptions s) s (with_draining b (with_queue (queue s ++ [j]) s))) as Hq.
  { intros b. apply queued_keeps; try done. intros Hsub j'. cbn. rewrite elem_of_app, list_elem_of_singleton.
    intros [|Hj']; [by left|subst; by right]. }
  destruct (draining s) eqn:Hd.
  - injection Hs as <- <-. specialize (Hq (draining s)). by destruct s.
  - apply bind_some in Hs as (? & s1 & [= <- <-] & (? & s2 & Hs & [= <- <-])%bind_some).
    eapply keeps_if_trans; [intros _; exact I|apply (Hq true)|].
    transitivity s2; [by apply performed in Hs|]. by apply queued_keeps; auto.
Qed.

Lemma enqueue_all_keeps p next ks s x s' :
  enqueue_all self p next ks s = Some (x, s') → sched_keeps_if (∀ k, k ∈ ks → (p, k) ∈ subscriptions s) s s'.
Proof.
  revert s. induction ks as [|k ks IHk]; cbn; intros s Hs; [by injection Hs as <- <-|].
  apply bind_some in Hs as (? & s1 & Hk & Hs).
  assert (grows s s1) as Hg by by eapply (enqueue_grows self); [intros; apply perform_keeps, grows_kept|].
  apply enqueue_keeps in Hk. apply IHk in Hs. destruct Hk as [H1 H2 H3], Hs as [H4 H5 H6].
  split; [congruence|by etrans|]. intros Hb Hks X Y Hi.
  apply H6; [done|intros k' Hk'; apply Hg, Hks; by right|].
  apply H3; [by eapply bounded_before|apply Hks; by left|done].
Qed.

Lemma settle_keeps p next : next ≠ Pending → keeps sched_keeps (settle self p next).
Proof.
  intros Hnext s b s' (taken & s1 & Ht & Hs)%bind_some.
  destruct (take_continuations_spec _ _ _ _ _ Ht) as [(Hp & -> & ->)|(Hp & -> & ->)]; [|by injection Hs as <- <-].
  apply bind_some in Hs as (? & s2 & Hs & [= <- <-]). apply enqueue_all_keeps in Hs as [H1 H2 H3].
  split; [done..|]. intros Hb _ X Y Hi. apply H3; [done|intros k; by apply si_waiting with X Y|].
  revert Hi. apply inv_same; try done; [by left|..]; intros q.
  - intros k. rewrite cell_set_cell. case_decide; [by intros ?%elem_of_nil|by left].
  - unfold accounted, raw_state. rewrite cell_set_cell. case_decide; [by left|done].
Qed.

Lemma retained_for_prefix s s' id p :
  retained (host s) `prefix_of` retained (host s') → retained_for s id p → retained_for s' id p.
Proof. intros Hp Hr. by eapply prefix_lookup_Some. Qed.

Lemma cell_push p k s q :
  cell (subscribe p k (update_cell p (push_continuation k) s)) q =
  if decide (q = p) then push_continuation k (cell s p) else cell s q.
Proof. rewrite cell_subscribe. unfold update_cell. by rewrite cell_set_cell. Qed.

(** Subscribing, also for a child: [X] loses the child that subscribes. *)
Lemma on_settle_inv p k s x s' :
  on_settle self p k s = Some (x, s') →
  polling (sched s') = polling (sched s) ∧ retained (host s) `prefix_of` retained (host s') ∧
  (bounded s' → ∀ X X' Y, (∀ id, k = ready_of id → retained_for s id p) →
     (∀ id, id ∈ X → id ∈ X' ∨ k = ready_of id) → sched_inv X Y s → sched_inv X' Y s').
Proof.
  intros (st & s1 & Hst & Hs)%bind_some. apply performed in Hst as [H1 H2 H3]; [|done].
  destruct (is_pending st); apply bind_some in Hs as (? & s2 & [= <- <-] & Hs).
  - apply (keeps_register_progress sched_keeps sched_keeps_quiet) in Hs as [H4 H5 H6].
    split; [by rewrite H4|]. split; [by etrans|]. intros Hb X X' Y Hr HX Hi. apply H6; [done..|].
    apply H3 in Hi; [|by eapply bounded_before|done]. revert Hi.
    apply (inv_subscribe X X' Y p k); try done.
    + intros q k'. rewrite cell_push. case_decide as E; [|by left]. subst q. cbn. rewrite elem_of_app, list_elem_of_singleton. tauto.
    + intros q. unfold accounted, raw_state. rewrite cell_push. case_decide; [by subst|done].
    + intros id Hid. by eapply retained_for_prefix, Hr.
  - apply enqueue_keeps in Hs as [H4 H5 H6]. split; [by rewrite H4|]. split; [by etrans|].
    intros Hb X X' Y Hr HX Hi. apply H6; [done|apply elem_of_app; right; by left|].
    apply H3 in Hi; [|by eapply bounded_before|done]. revert Hi.
    apply (inv_subscribe X X' Y p k); try done; [by left|]. intros id Hid. by eapply retained_for_prefix, Hr.
Qed.

Lemma on_settle_keeps p k : foreign k → keeps sched_keeps (on_settle self p k).
Proof.
  intros Hk s x s' Hs. apply on_settle_inv in Hs as (H1 & H2 & H3). split; [done..|]. intros Hb _ X Y.
  apply H3; [done|intros id E; by destruct (Hk id)|by left].
Qed.

Lemma adopt_keeps p q : keeps sched_keeps (adopt self p q).
Proof.
  assert (∀ f, (∀ c, cell_state (f c) = cell_state c ∧ continuations (f c) = continuations c ∧
    (adopted_from c ≠ None → adopted_from (f c) ≠ None)) → keeps sched_keeps (write (update_cell p f))) as Hu.
  { intros f Hf. apply keeps_write. intros s. destruct (Hf (cell s p)) as (Hst & Hk & Ha).
    apply sched_keeps_same; try done; [by left|..]; intros r;
      unfold accounted, raw_state, update_cell; rewrite cell_set_cell; (case_decide as E; [subst r|by auto]).
    - rewrite Hk. by left.
    - rewrite Hst. tauto. }
  unfold adopt. kbind; [kread|intros []]; [by apply settle_keeps|].
  kbind; [by apply IH|intros []]; [|by apply settle_keeps..].
  kbind; [by apply IH|intros own]. apply keeps_when; [kret|].
  repeat first [by apply Hu | by apply IH | kret | kbind; intros].
Qed.

Lemma progress_one_keeps p : keeps sched_keeps (progress_one self p).
Proof.
  unfold progress_one. kbind; [kread|intros []; [kret|]].
  repeat first [apply keeps_write; intros s; by apply queued_keeps; auto | by apply IH | kbind; intros].
Qed.
End methods.

(** *** The scheduler's own scripts *)
Section scripts.
Variable fuel : nat.
Local Abbreviation self := (λ A, perform (H:=W) fuel (A:=A)).
Hypothesis IH : ∀ A c, allowed A c → keeps sched_keeps (perform (H:=W) fuel (A:=A) c).

(** The call whose result is [r] stops running. *)
Record sched_ends (r : N) s s' : Prop := {
  se_polling : polling (sched s') = polling (sched s);
  se_retained : retained (host s) `prefix_of` retained (host s');
  se_inv : bounded s' → ∀ X Y, sched_inv X (r :: Y) s → sched_inv X Y s';
}.

Lemma run_modify f s x s' : run self (modify f) s = Some (x, s') → s' = with_host (f (host s)) s.
Proof. by intros [= <- <-]. Qed.

Lemma on_settle_performed p k s x s' :
  perform fuel (OnSettle p k) s = Some (x, s') →
  polling (sched s') = polling (sched s) ∧ retained (host s) `prefix_of` retained (host s') ∧
  (bounded s' → ∀ X X' Y, (∀ id, k = ready_of id → retained_for s id p) →
     (∀ id, id ∈ X → id ∈ X' ∨ k = ready_of id) → sched_inv X Y s → sched_inv X' Y s').
Proof.
  destruct fuel as [|n] eqn:E; [done|]. apply (on_settle_inv n).
  intros A c Hc s1 y s1' Hs. eapply IH; [exact Hc|]. rewrite E. apply (perform_more n); [lia|exact Hs].
Qed.

Lemma retained_bound s id p : retained_for s id p → (id < N.of_nat (length (retained (host s))))%N.
Proof. intros Hr%lookup_lt_Some. lia. Qed.

(** A new child, which is yet to subscribe. *)
Definition retaining (m r p : N) s : Store W :=
  with_host (note_retained p (with_scheduler (retain (mkAsyncChild m r p) (sched s)).2 (host s))) s.

Lemma inv_retain X Y s m r p :
  bounded (retaining m r p s) → sched_inv X (r :: Y) s →
  retained_for (retaining m r p s) (next_id (sched s)) p ∧
  sched_inv (next_id (sched s) :: X) Y (retaining m r p s).
Proof.
  set (s' := retaining m r p s). intros Hb [H1 H2 H3 H4 H5 H6 H7 H8 H9 H10 H11 H12].
  set (id := next_id (sched s)) in *. set (l := retained (host s)) in *.
  assert (retained (host s') = l ++ [p]) as Hl by done.
  assert (children (sched s') = <[id := mkAsyncChild m r p]> (children (sched s))) as Hch by done.
  assert (id = N.of_nat (length l)) as Hid.
  { rewrite H1. apply N.mod_small. unfold bounded in Hb. rewrite Hl, length_app in Hb. cbn in Hb. lia. }
  assert (∀ id' q, retained_for s' id' q ↔ retained_for s id' q ∨ (id' = id ∧ q = p)) as Hret.
  { intros id' q. unfold retained_for. rewrite Hl. fold l. rewrite lookup_snoc_Some. split.
    - intros [[_ ?]|[? ?]]; [by left|right; split; [lia|done]].
    - intros [Hq|[-> ->]]; [left; split; [by eapply lookup_lt_Some|done]|right; split; [lia|done]]. }
  assert (∀ q, ¬ retained_for s id q) as Hnew.
  { intros q Hq%retained_bound. fold l in Hq. lia. }
  assert (∀ id' q, retained_for s id' q → id' ≠ id) as Hold by (intros id' q Hq ->; by eapply Hnew).
  split; [apply Hret; by right|]. split; try done.
  - change (((id + 1) mod 2 ^ 64)%N = (N.of_nat (length (l ++ [p])) mod 2 ^ 64)%N). rewrite length_app.
    f_equal. rewrite Hid. cbn [length]. lia.
  - intros id' c. rewrite Hch. rewrite lookup_insert_Some. intros [[<- <-]|[_ Hc]]; apply Hret; [by right|left; by apply H2].
  - intros id' q Hq. rewrite elem_of_cons. apply Hret in Hq as [Hq|[-> ->]]; [|by left; left].
    destruct (H3 id' q Hq); [by left; right|by right].
  - intros id' q Hq. apply Hret. left. by apply H4.
  - intros id' c j. rewrite Hch, lookup_insert_Some. intros [[<- <-]|[_ Hc]] Hj Hk; [|by eapply H9].
    exfalso. specialize (H7 j Hj). rewrite Hk in H7. by eapply Hnew, H4.
  - intros id' st Hin. rewrite Hch, lookup_insert_ne; [by eapply H11|].
    destruct (H8 id' st) as (j & Hj & Hk & _); [apply elem_of_app; by right|].
    specialize (H7 j Hj). rewrite Hk in H7. apply not_eq_sym. by eapply Hold, H4.
  - intros r' Hr'. rewrite Hch. destruct (H12 r' Hr') as [|[[->|]%elem_of_cons|[|[|(id' & c & Hc & <-)]]]]; [by left| | | | |].
    + do 4 right. exists id. eexists. split; [apply lookup_insert_eq|done].
    + by right; left.
    + by do 2 right; left.
    + by do 3 right; left.
    + do 4 right. exists id', c. split; [|done]. rewrite lookup_insert_ne; [done|].
      apply not_eq_sym. by eapply Hold, H2.
Qed.

Lemma retain_ends m r p s x s' : run self (retain_async_child m r p) s = Some (x, s') → sched_ends r s s'.
Proof.
  unfold retain_async_child. intros (id & s1 & Hs1 & Hs)%run_bind. apply run_invoke in Hs.
  change (Some (next_id (sched s), retaining m r p s) = Some (id, s1)) in Hs1. injection Hs1 as <- <-.
  apply on_settle_performed in Hs as (H1 & H2 & H3). split.
  - by rewrite H1.
  - etrans; [|exact H2]. by eexists.
  - intros Hb X Y Hinv. destruct (inv_retain X Y s m r p) as [Hr Hi1]; [by eapply bounded_before|done|].
    apply (H3 Hb (next_id (sched s) :: X)); [|by intros id [->|]%elem_of_cons; [right|left]|done].
    intros id E. by apply ready_of_inj in E as <-.
Qed.

(** The same with the result of a running call settled. *)
Lemma inv_accounted X Y r s : accounted r s → sched_inv X (r :: Y) s → sched_inv X Y s.
Proof.
  intros Ha [H1 H2 H3 H4 H5 H6 H7 H8 H9 H10 H11 H12]. split; try done.
  intros r' Hr'. destruct (H12 r' Hr') as [|[[->|]%elem_of_cons|]]; [by left|by left|by right; left|by right; right].
Qed.

Lemma ends_accounted r s s' : sched_keeps s s' → accounted r s' → sched_ends r s s'.
Proof.
  intros [H1 H2 H3] Ha. split; [done..|]. intros Hb X Y Hi. apply inv_accounted with r; [done|]. by apply H3.
Qed.

Lemma invoke_ends {A B} r (c : command A) (y : B) s x s' :
  run self (invoke c;; mret y) s = Some (x, s') → allowed A c →
  (∀ z s1, perform fuel c s = Some (z, s1) → accounted r s1) → sched_ends r s s'.
Proof.
  intros (z & s1 & Hs%run_invoke & [= <- <-])%run_bind Hc Ha.
  apply ends_accounted; [by eapply IH|by eapply Ha].
Qed.

Lemma finish_ends m r o s x s' : run self (finish_async m r o) s = Some (x, s') → sched_ends r s s'.
Proof.
  destruct o as [v|e|p|v]; cbn [finish_async].
  - unfold settle_result. intros Hs. destruct v; (eapply invoke_ends; [exact Hs|done|]); intros z s1 Hz;
      first [by left; eapply resolve_settles | by eapply adopt_accounts].
  - intros Hs. eapply invoke_ends; [exact Hs|done|]. intros z s1 Hz. left. by eapply reject_settles.
  - apply retain_ends.
  - intros Hs. eapply invoke_ends; [exact Hs|done|]. intros z s1 Hz. left. by eapply reject_settles.
Qed.

Lemma invoke_keeps {A} (c : command A) : allowed A c → keeps sched_keeps (run self (invoke c)).
Proof. intros Hc s x s' Hs%run_invoke. by eapply IH. Qed.

(** *** Polling *)
Definition with_sched (f : AsyncScheduler → AsyncScheduler) s : Store W :=
  with_host (with_scheduler (f (sched s)) (host s)) s.

Lemma borrow_keeps : keeps sched_keeps (run self borrow).
Proof. by intros s a s' [= _ <-]. Qed.

Lemma run_update f s x s' : run self (update f) s = Some (x, s') → s' = with_sched f s.
Proof. by intros [= <- <-]. Qed.

Lemma inv_polling X Y b s : sched_inv X Y s → sched_inv X Y (with_sched (set_polling b) s).
Proof. by intros []. Qed.

(** A turn takes a queued child whose continuation was called. *)
Definition taking (id : N) (rest : list (N * PromiseState)) s : Store W :=
  with_sched (λ a, set_children (delete id (children a)) a) (with_sched (set_ready rest) s).

Lemma inv_taking X Y s id st rest :
  ready (sched s) = (id, st) :: rest → sched_inv X Y s →
  (children (sched s) !! id = None → sched_inv X Y (with_sched (set_ready rest) s)) ∧
  (∀ c, children (sched s) !! id = Some c →
     sched_inv X (result c :: Y) (with_host (note_resumed (id, st) (host (taking id rest s))) (taking id rest s)) ∧
     (result c ∈ dropped s → sched_inv X Y (taking id rest s))).
Proof.
  intros Hr [H1 H2 H3 H4 H5 H6 H7 H8 H9 H10 H11 H12]. rewrite Hr in H8, H9.
  split; [|intros c Hc; split].
  - intros Hn. split; try done.
    + intros id' st' Hin. apply H8. by right.
    + intros id' c j Hc Hj Hk. pose proof (H9 id' c j Hc Hj Hk) as [[= -> _]|]%elem_of_cons; [|done].
      change (children (sched s) !! id = Some c) in Hc. congruence.
  - split; try done.
    + intros id' c'. cbn. rewrite lookup_delete_Some. intros [_ Hc']. by apply H2.
    + intros id' st'. cbn. rewrite !elem_of_app, list_elem_of_singleton. intros Hin. apply H8.
      rewrite elem_of_app, elem_of_cons. tauto.
    + intros id' c' j. cbn. rewrite lookup_delete_Some. intros [Hne Hc'] Hj Hk.
      pose proof (H9 id' c' j Hc' Hj Hk) as [[= -> _]|]%elem_of_cons; [|done]. done.
    + cbn. rewrite fmap_app. apply NoDup_app. split; [done|]. split; [|apply NoDup_singleton].
      intros id' Hin Hid%list_elem_of_singleton. apply list_elem_of_fmap in Hin as ([id'' st''] & E & Hin).
      apply H11 in Hin. cbn in Hid, E. congruence.
    + intros id' st'. cbn. rewrite elem_of_app, list_elem_of_singleton. intros [Hin|[= -> ->]]; [|apply lookup_delete_eq].
      apply lookup_delete_None. right. by eapply H11.
    + intros r Hin. cbn. destruct (H12 r Hin) as [|[|[|[|(id' & c' & Hc' & <-)]]]]; [by left|by right; left; right|by do 2 right; left|by do 3 right; left|].
      destruct (decide (id' = id)) as [->|Hne]; [right; left; apply elem_of_cons; left; congruence|].
      do 4 right. exists id', c'. by rewrite lookup_delete_ne.
  - intros Hd. split; try done.
    + intros id' c'. cbn. rewrite lookup_delete_Some. intros [_ Hc']. by apply H2.
    + intros id' st'. cbn. intros Hin. apply H8. by right.
    + intros id' c' j. cbn. rewrite lookup_delete_Some. intros [Hne Hc'] Hj Hk.
      pose proof (H9 id' c' j Hc' Hj Hk) as [[= -> _]|]%elem_of_cons; [|done]. done.
    + intros id' st' Hin. cbn. apply lookup_delete_None. right. by eapply H11.
    + intros r Hin. cbn. destruct (H12 r Hin) as [|[|[|[|(id' & c' & Hc' & <-)]]]]; [by left|by right; left|by do 2 right; left|by do 3 right; left|].
      destruct (decide (id' = id)) as [->|Hne]; [do 3 right; left; replace c' with c by congruence; exact Hd|].
      do 4 right. exists id', c'. by rewrite lookup_delete_ne.
Qed.

Lemma resumed_keeps id st rest c m r o s s2 s3 s4 x :
  ready (sched s) = (id, st) :: rest → children (sched s) !! id = Some c → r = result c →
  sched_keeps (with_host (note_resumed (id, st) (host (taking id rest s))) (taking id rest s)) s2 →
  run self (finish_async m r o) s2 = Some (x, s3) → sched_keeps s3 s4 → sched_keeps s s4.
Proof.
  intros Hr Hc -> [H1 H2 H3] [H4 H5 H6]%finish_ends [H7 H8 H9]. split.
  - rewrite H7, H4, H1. done.
  - etrans; [|exact H8]. etrans; [|exact H5]. exact H2.
  - intros Hb _ X Y Hi. assert (bounded s3) as Hb3 by by eapply bounded_before.
    assert (bounded s2) as Hb2 by by eapply bounded_before.
    apply H9; [done..|]. apply H6; [done|]. apply H3; [done..|].
    destruct (inv_taking X Y s id st rest Hr Hi) as [_ Ht]. by apply (Ht c).
Qed.

Lemma drain_ready_keeps : keeps sched_keeps (run self drain_ready).
Proof.
  unfold drain_ready. intros s n s' (a & s1 & [= <- <-] & Hs)%run_bind. fold (sched s) in Hs.
  destruct (ready (sched s)) as [|[id st] rest] eqn:Hr; [by injection Hs as <- <-|].
  apply run_bind in Hs as (? & s1 & ->%run_update & (a & s1' & [= <- <-] & Hs)%run_bind).
  change (children (set_ready rest (sched s))) with (children (sched s)) in Hs.
  destruct (children (sched s) !! id) as [c|] eqn:Hc.
  - apply run_bind in Hs as (? & s1 & ->%run_update & (live & s2 & Hl%run_invoke & Hs)%run_bind).
    fold (taking id rest s) in Hl. apply upgrade_live in Hl as [-> Hl]. destruct live; cbn [negb] in Hs.
    + apply run_bind in Hs as (? & s1 & ->%run_modify & (o & s2 & Ho & (? & s3 & Hf & (count & s4 & Hd%run_invoke & [= <- <-])
        %run_bind)%run_bind)%run_bind).
      apply (embed_keeps fuel IH) in Ho. apply (performed fuel IH) in Hd; [|done]. by eapply resumed_keeps.
    + apply run_bind in Hs as (? & s1 & Hcan%run_invoke & Hd%run_invoke).
      apply (performed fuel IH) in Hcan; [|done]. apply (performed fuel IH) in Hd; [|done].
      transitivity s1; [|done]. transitivity (taking id rest s); [|done]. split; [done..|]. intros _ _ X Y Hi.
      destruct (inv_taking X Y s id st rest Hr Hi) as [_ Ht]. apply (Ht c); [done|]. by apply Hl.
  - apply run_invoke in Hs. apply (performed fuel IH) in Hs; [|done].
    transitivity (with_sched (set_ready rest) s); [|done]. split; [done..|]. intros _ _ X Y Hi.
    by apply (inv_taking X Y s id st rest).
Qed.

Lemma poll_states_keeps ps : keeps sched_keeps (run self (poll_states ps)).
Proof.
  induction ps as [|p ps IHps]; cbn [poll_states]; [kret|].
  refine (keeps_run_bind _ _ _ _ _ _); [by apply invoke_keeps|done].
Qed.

Lemma poll_scheduler_keeps : keeps sched_keeps (run self poll_scheduler).
Proof.
  unfold poll_scheduler. intros s n s' (a & s1 & [= <- <-] & Hs)%run_bind. fold (sched s) in Hs.
  destruct (polling (sched s)) eqn:Hp; [by injection Hs as <- <-|].
  apply run_bind in Hs as (? & s1 & ->%run_update & (a & s1' & [= <- <-] & (? & s2 & Hst%poll_states_keeps &
    (count & s3 & Hd%run_invoke & (? & s4 & ->%run_update & [= <- <-])%run_bind)%run_bind)%run_bind)%run_bind).
  apply (performed fuel IH) in Hd; [|done]. destruct Hst as [H1 H2 H3], Hd as [H4 H5 H6].
  split; [by rewrite Hp| |].
  - etrans; [exact H2|exact H5].
  - intros Hb _ X Y Hi. apply inv_polling. apply H6; [done..|]. apply H3; [by eapply bounded_before|done|].
    by apply inv_polling.
Qed.

Lemma children_of_same i cs s found s' : run self (children_of i cs) s = Some (found, s') → s' = s.
Proof.
  revert s found s'. induction cs as [|[id c] cs IHcs]; intros s found s'; cbn [children_of]; [by intros [= <- <-]|].
  intros (live & s1 & [-> _]%run_invoke%upgrade_live & (l & s2 & ->%IHcs & [= <- <-])%run_bind)%run_bind. done.
Qed.

Lemma wait_async_result_keeps i : keeps sched_keeps (run self (wait_async_result i)).
Proof.
  unfold wait_async_result. refine (keeps_run_bind _ _ _ _ _ _); [by apply invoke_keeps|intros _].
  refine (keeps_run_bind _ _ _ _ _ _); [apply borrow_keeps|intros a].
  refine (keeps_run_bind _ _ _ _ _ _); [by intros s f s' ->%children_of_same|intros [|[id c] found]]; [kret|].
  refine (keeps_run_bind _ _ _ _ _ _); [by apply invoke_keeps|intros st].
  destruct (is_pending st); (refine (keeps_run_bind _ _ _ _ _ _); [by apply invoke_keeps|intros; kret]).
Qed.

(** Removing a child by its cancel hook. *)
Definition cancelling (id r : N) s : Store W :=
  with_host (note_cancel r (with_scheduler (set_children (delete id (children (sched s))) (sched s)) (host s))) s.

Lemma inv_cancelling X Y id c s :
  children (sched s) !! id = Some c → sched_inv X Y s → sched_inv X Y (cancelling id (result c) s).
Proof.
  intros Hc [H1 H2 H3 H4 H5 H6 H7 H8 H9 H10 H11 H12]. split; try done.
  - intros id' c'. cbn. rewrite lookup_delete_Some. intros [_ Hc']. by apply H2.
  - intros id' c' j. cbn. rewrite lookup_delete_Some. intros [_ Hc'] Hj Hk. by eapply H9.
  - intros id' st' Hin. cbn. apply lookup_delete_None. right. by eapply H11.
  - intros r Hin. cbn. rewrite elem_of_app, list_elem_of_singleton.
    destruct (H12 r Hin) as [|[|[|[|(id' & c' & Hc' & <-)]]]]; [by left|by right; left|by do 2 right; left; left|by do 3 right; left|].
    destruct (decide (id' = id)) as [->|Hne]; [do 2 right; left; right; congruence|].
    do 4 right. exists id', c'. by rewrite lookup_delete_ne.
Qed.

Lemma cancel_children_keeps ids : keeps sched_keeps (run self (cancel_children ids)).
Proof.
  induction ids as [|id ids IHids]; cbn [cancel_children]; [kret|].
  intros s x s' (a & s1 & [= <- <-] & Hs)%run_bind. fold (sched s) in Hs.
  destruct (children (sched s) !! id) as [c|] eqn:Hc; [|by eapply IHids].
  apply run_bind in Hs as (? & s1 & ->%run_modify & (b & s2 & Hcan%run_invoke & Hs%IHids)%run_bind).
  apply (performed fuel IH) in Hcan; [|done]. etrans; [|exact Hs]. etrans; [|exact Hcan].
  split; [done..|]. intros _ _ X Y. by apply inv_cancelling.
Qed.

Lemma cancel_async_result_keeps i : keeps sched_keeps (run self (cancel_async_result i)).
Proof.
  unfold cancel_async_result. refine (keeps_run_bind _ _ _ _ _ _); [apply borrow_keeps|intros a].
  refine (keeps_run_bind _ _ _ _ _ _); [by intros s f s' ->%children_of_same|intros found]. apply cancel_children_keeps.
Qed.

(** *** Asynchronous calls *)
Lemma inv_result X Y r s : sched_inv X Y s → sched_inv X (r :: Y) (with_host (note_result r (host s)) s).
Proof.
  intros [H1 H2 H3 H4 H5 H6 H7 H8 H9 H10 H11 H12]. split; try done.
  intros r'. cbn. rewrite elem_of_app, list_elem_of_singleton, elem_of_cons. intros [Hr| ->]; [|by right; left; left].
  destruct (H12 r' Hr) as [|[|]]; [by left|by right; left; right|by do 2 right].
Qed.

Lemma new_result_begins s r s' :
  run self new_result s = Some (r, s') →
  polling (sched s') = polling (sched s) ∧ retained (host s) `prefix_of` retained (host s') ∧
  (bounded s' → ∀ X Y, sched_inv X Y s → sched_inv X (r :: Y) s').
Proof.
  unfold new_result. intros (r' & s1 & Hn%run_invoke & (? & s2 & ->%run_modify & (? & s3 & H1%run_invoke &
    (? & s4 & H2%run_invoke & (? & s5 & H3%run_invoke & [= <- <-])%run_bind)%run_bind)%run_bind)%run_bind)%run_bind.
  apply (performed fuel IH) in Hn; [|done]. apply (performed fuel IH) in H1; [|done].
  apply (performed fuel IH) in H2; [|done]. apply (performed fuel IH) in H3; [|done].
  assert (sched_keeps (with_host (note_result r' (host s1)) s1) s5) as [H4 H5 H6] by (etrans; [exact H1|by etrans]).
  destruct Hn as [H7 H8 H9]. split; [by rewrite H4|]. split; [by etrans|]. intros Hb X Y Hi.
  apply H6; [done..|]. apply inv_result, H9; [|done..].
  by eapply (bounded_before (with_host (note_result r' (host s1)) s1)).
Qed.

Lemma spawn_async_keeps m : keeps sched_keeps (run self (spawn_async m)).
Proof.
  unfold spawn_async. intros s r s' (r' & s1 & (H1 & H2 & H3)%new_result_begins & (o & s2 & Ho &
    (? & s3 & Hf%finish_ends & [= <- <-])%run_bind)%run_bind)%run_bind.
  apply (embed_keeps fuel IH) in Ho as [H4 H5 H6]. destruct Hf as [H7 H8 H9].
  split; [congruence|etrans; [done|by etrans]|]. intros Hb _ X Y Hi.
  assert (bounded s2) as Hb2 by by eapply bounded_before. assert (bounded s1) as Hb1 by by eapply bounded_before.
  apply H9; [done|]. apply H6; [done..|]. by apply H3.
Qed.

Lemma async_result_from_outcome_keeps m o : keeps sched_keeps (run self (async_result_from_outcome m o)).
Proof.
  unfold async_result_from_outcome. intros s r s' (r' & s1 & (H1 & H2 & H3)%new_result_begins &
    (? & s3 & Hf%finish_ends & [= <- <-])%run_bind)%run_bind. destruct Hf as [H7 H8 H9].
  split; [congruence|by etrans|]. intros Hb _ X Y Hi. apply H9; [done|]. apply H3; [by eapply bounded_before|done].
Qed.

Lemma async_result_keeps m : keeps sched_keeps (run self (async_result m)).
Proof.
  unfold async_result. refine (keeps_run_bind _ _ _ _ _ _); [by apply embed_keeps|intros o].
  apply async_result_from_outcome_keeps.
Qed.

Lemma body_keeps A (c : script W A) : body A c → keeps sched_keeps (run self c).
Proof.
  destruct 1 as [n|n|n|n|n]; cbn [on_poll on_wait on_cancel on_task on_call World_host]; destruct (closure_of n);
    try (by kret); try (by apply embed_keeps).
  - refine (keeps_run_bind _ _ _ _ _ _); [apply poll_scheduler_keeps|intros; kret].
  - apply wait_async_result_keeps.
  - apply cancel_async_result_keeps.
  - apply poll_scheduler_keeps.
  - refine (keeps_run_bind _ _ _ _ _ _); [apply wait_async_result_keeps|intros; kret].
  - apply drain_ready_keeps.
  - apply spawn_async_keeps.
Qed.
End scripts.

Lemma sched_kept : KeptBy allowed sched_keeps.
Proof.
  split; try tc_solve.
  - apply allowed_internal.
  - apply sched_keeps_quiet.
  - intros fuel A c IH. by apply body_keeps.
  - intros fuel p IH. by apply progress_one_keeps.
  - intros fuel p next IH. by apply settle_keeps.
  - intros fuel p k IH Hk. by apply on_settle_keeps.
  - intros fuel p q IH _. by apply adopt_keeps.
  - intros fuel IH. by apply drain_keeps.
Qed.

(** *** Runs from the start *)
Lemma inv_start g : sched_inv [] [] (store_new (world_new g)).
Proof.
  split; try done.
  - intros id p Hp. by apply elem_of_nil in Hp.
  - intros p k Hk. by apply elem_of_nil in Hk.
  - intros j Hj. by apply elem_of_nil in Hj.
  - intros j Hj. by apply elem_of_nil in Hj.
  - intros id st Hj. by apply elem_of_nil in Hj.
  - constructor.
  - intros r Hr. by apply elem_of_nil in Hr.
Qed.

(** What holds between two calls from outside. *)
Record at_rest s : Prop := {
  ar_consistent : consistent [] [] s;
  ar_queue : queue s = [];
  ar_draining : draining s = false;
  ar_polling : polling (sched s) = false;
  ar_inv : bounded s → sched_inv [] [] s;
}.

Lemma start_at_rest g : at_rest (store_new (world_new g)).
Proof. split; [apply consistent_new|done..|intros _; apply inv_start]. Qed.

Lemma step_at_rest s s' :
  keeps_consistent s s' → calm s s' → sched_keeps s s' → at_rest s → at_rest s'.
Proof.
  intros Hc [_ _ Hi] [H1 H2 H3] [H4 H5 H6 H7 H8]. destruct (Hi H6 H5) as [H9 H10].
  split; [by apply Hc|done|done|by rewrite H1|]. intros Hb. apply H3; [done..|]. apply H8. by eapply bounded_before.
Qed.

Lemma guest_at_rest fuel A (c : code G A) s x s' :
  perform_script fuel (embed c) s = Some (x, s') → at_rest s → at_rest s'.
Proof.
  intros Hs. apply step_at_rest.
  - eapply (perform_script_keeps _ _ _ _ keeps_consistent_kept), Hs.
  - eapply (perform_script_keeps _ _ _ _ calm_kept), Hs.
  - eapply (embed_keeps fuel), Hs. intros B d Hd. by apply (perform_keeps_by allowed), Hd; apply sched_kept.
Qed.

Lemma poll_at_rest fuel s n s' :
  perform fuel (CallHost (closure_number Poll)) s = Some (n, s') → at_rest s → at_rest s'.
Proof.
  intros Hs. apply step_at_rest.
  - eapply perform_keeps, Hs. apply keeps_consistent_kept.
  - eapply perform_keeps, Hs. apply calm_kept.
  - eapply (perform_keeps_by allowed), Hs; [apply sched_kept|done].
Qed.

(** A child waits for a pending promise, which will queue it, or is queued with
    the state its promise settled with. *)
Definition attended s (id : N) (c : AsyncChild) : Prop :=
  (raw_state s (pending c) = Pending ∧ ready_of id ∈ continuations (cell s (pending c))) ∨
  (raw_state s (pending c) ≠ Pending ∧ (id, raw_state s (pending c)) ∈ ready (sched s)).

Lemma child_attended s id c : at_rest s → bounded s → children (sched s) !! id = Some c → attended s id c.
Proof.
  intros [[H1 H2 H3 H4] Hq _ _ Hi] Hb Hc. specialize (Hi Hb). rewrite Hq in H2. setoid_rewrite Hq in H1. cbn in H1, H2.
  setoid_rewrite app_nil_r in H1. rewrite app_nil_r in H2.
  destruct (si_subscribed _ _ _ Hi id (pending c)) as [Hx|Hx]; [by apply Hi|by apply elem_of_nil in Hx|].
  assert (ready_of id ∈ subscribed_to (pending c) s) as Hsub.
  { unfold subscribed_to. apply list_elem_of_fmap. exists (pending c, ready_of id). split; [done|].
    by apply list_elem_of_filter. }
  rewrite H1, elem_of_app in Hsub. destruct Hsub as [Hj|Hk].
  - right. unfold jobs_of in Hj. apply list_elem_of_fmap in Hj as (j & Hj & [Ho Hin]%list_elem_of_filter).
    rewrite Forall_forall in H2. destruct (H2 j Hin) as [Ha Hs]. rewrite Ho in Hs. rewrite Hs. split; [done|].
    by eapply si_woken.
  - left. split; [|done]. destruct (is_pending (raw_state s (pending c))) eqn:E; [by apply is_pending_spec|].
    apply not_pending_spec, H3 in E. rewrite E in Hk. by apply elem_of_nil in Hk.
Qed.

(** *** Polling empties the queue of children *)
Lemma drain_ready_empties fuel s n s' :
  perform fuel (CallHost (closure_number Drain_ready)) s = Some (n, s') → ready (sched s') = [].
Proof.
  revert s n. induction fuel as [|fuel IH]; intros s n; [done|]. cbn [perform method on_call World_host].
  rewrite closure_of_number. unfold drain_ready. intros (a & s1 & [= <- <-] & Hs)%run_bind. fold (sched s) in Hs.
  destruct (ready (sched s)) as [|[id st] rest] eqn:Hr; [by injection Hs as <- <-|].
  apply run_bind in Hs as (? & s1 & _ & (a & s2 & _ & Hs)%run_bind).
  destruct (children a !! id) as [c|]; [|by apply run_invoke, IH in Hs].
  apply run_bind in Hs as (? & s3 & _ & (live & s4 & _ & Hs)%run_bind). destruct live; cbn [negb] in Hs.
  - apply run_bind in Hs as (? & s5 & _ & (o & s6 & _ & (? & s7 & _ & (count & s8 & Hd%run_invoke & [= <- <-])
      %run_bind)%run_bind)%run_bind). by eapply IH.
  - apply run_bind in Hs as (? & s5 & _ & Hd%run_invoke). by eapply IH.
Qed.

Lemma poll_empties fuel s n s' :
  perform fuel (CallHost (closure_number Poll)) s = Some (n, s') → polling (sched s) = false → ready (sched s') = [].
Proof.
  destruct fuel as [|fuel]; [done|]. cbn [perform method on_call World_host]. rewrite closure_of_number.
  unfold poll_scheduler. intros (a & s1 & [= <- <-] & Hs)%run_bind Hp. fold (sched s) in Hs. rewrite Hp in Hs.
  apply run_bind in Hs as (? & s1 & _ & (a & s2 & _ & (? & s3 & _ & (count & s4 & Hd%run_invoke & (? & s5 & Hu%run_update
    & [= <- <-])%run_bind)%run_bind)%run_bind)%run_bind). subst s5. by apply drain_ready_empties in Hd.
Qed.
End scheduler.

(** ** Claims about every run *)
Section claims.
Context {G : Type} `{!GuestCode G} `{!HashOrder}.
Implicit Types s : Store (World G).

(** C27. No child is left behind. After any run of guest code from the start,
    every suspended machine the scheduler holds either waits for a promise that
    is pending and has its continuation, or is queued with the state its promise
    settled with; and a poll that returns leaves the queue empty, so that every
    machine it leaves waits for a promise that is still pending. *)
Theorem no_child_left_behind fuel A (c : code G A) g x s :
  perform_script fuel (embed c) (store_new (world_new g)) = Some (x, s) → bounded s →
  polling (sched s) = false ∧
  (∀ id child, children (sched s) !! id = Some child → attended s id child) ∧
  (∀ fuel' n s', perform fuel' (CallHost (closure_number Poll)) s = Some (n, s') → bounded s' →
     ready (sched s') = [] ∧
     ∀ id child, children (sched s') !! id = Some child →
       raw_state s' (pending child) = Pending ∧ ready_of id ∈ continuations (cell s' (pending child))).
Proof.
  intros Hs Hb. pose proof (guest_at_rest _ _ _ _ _ _ Hs (start_at_rest g)) as Hr.
  split; [apply Hr|]. split; [intros id child; by apply child_attended|]. intros fuel' n s' Hp Hb'.
  pose proof (poll_empties _ _ _ _ Hp (ar_polling _ Hr)) as He. split; [done|]. intros id child Hc.
  destruct (child_attended s' id child) as [|[_ Hin]]; [by eapply poll_at_rest|done..|].
  rewrite He in Hin. by apply elem_of_nil in Hin.
Qed.

(** A machine is resumed at most once per suspension: after any run of guest
    code no child was resumed twice, none that was resumed is still held, and
    each was resumed with the state its promise has settled with. *)
Theorem resumed_once fuel A (c : code G A) g x s :
  perform_script fuel (embed c) (store_new (world_new g)) = Some (x, s) → bounded s →
  NoDup (resumed (host s)).*1 ∧
  ∀ id st, (id, st) ∈ resumed (host s) →
    children (sched s) !! id = None ∧ st ≠ Pending ∧ ∃ p, retained_for s id p ∧ raw_state s p = st.
Proof.
  intros Hs Hb. pose proof (guest_at_rest _ _ _ _ _ _ Hs (start_at_rest g)) as [[_ H2 _ _] _ _ _ Hi].
  specialize (Hi Hb). split; [apply Hi|]. intros id st Hin. split; [by eapply si_gone|].
  destruct (si_ready _ _ _ Hi id st) as (j & Hj & Hk & Ha); [apply elem_of_app; by right|].
  apply Forall_app in H2 as [H2 _]. rewrite Forall_forall in H2. destruct (H2 j Hj) as [Hn Hst].
  rewrite Ha in Hn, Hst. split; [done|]. exists (origin j). split; [|done]. apply (si_only _ _ _ Hi).
  rewrite <-Hk. by apply (si_called _ _ _ Hi).
Qed.

(** C28. Every asynchronous call is accounted for. After any run of guest code
    the result of each is settled; or it adopted a pending promise that will
    forward its state; or a machine the scheduler holds will settle it, and is
    not left behind; or nobody can see it any more; or its cancel hook ran. *)
Theorem async_results_accounted fuel A (c : code G A) g x s r :
  perform_script fuel (embed c) (store_new (world_new g)) = Some (x, s) → bounded s → r ∈ results (host s) →
  raw_state s r ≠ Pending ∨
  (∃ p, adopted_from (cell s r) = Some p ∧ raw_state s p = Pending ∧ Forward r ∈ continuations (cell s p)) ∨
  (∃ id child, children (sched s) !! id = Some child ∧ result child = r ∧ attended s id child) ∨
  r ∈ dropped s ∨ r ∈ cancels (host s).
Proof.
  intros Hs Hb Hin. pose proof (guest_at_rest _ _ _ _ _ _ Hs (start_at_rest g)) as Hr.
  pose proof (ar_inv _ Hr Hb) as Hi.
  destruct (is_pending (raw_state s r)) eqn:Hp; [|left; by apply not_pending_spec]. apply is_pending_spec in Hp. right.
  destruct (si_results _ _ _ Hi r Hin) as [[|Ha]|[Hy|[|[|(id & child & Hc & He)]]]];
    [done| |by apply elem_of_nil in Hy|by do 3 right|by do 2 right; left|].
  - left. destruct (adopted_from (cell s r)) as [p|] eqn:E; [|done]. exists p. split; [done|].
    destruct Hr as [[_ _ H3 H4] Hq _ _ _]. destruct (H4 r p Hp E) as [Hx|[Hk|Hx]].
    + by apply elem_of_nil in Hx.
    + split; [|done]. destruct (is_pending (raw_state s p)) eqn:Hn; [by apply is_pending_spec|].
      apply not_pending_spec, H3 in Hn. rewrite Hn in Hk. by apply elem_of_nil in Hk.
    + rewrite Hq in Hx. by apply Exists_nil in Hx.
  - right. left. exists id, child. split; [done|]. split; [done|]. by apply child_attended.
Qed.
Lemma settle_pending fuel p next s b s' :
  settle (λ A, perform fuel (A:=A)) p next s = Some (b, s') → next ≠ Pending → raw_state s p = Pending →
  raw_state s' p = next.
Proof. intros Hs Hn Hp. destruct (settle_spec _ _ _ _ _ _ Hs Hn) as [-> ->]. by rewrite Hp. Qed.

Lemma on_settle_subscribes fuel p k s x s' :
  perform fuel (OnSettle p k) s = Some (x, s') → (p, k) ∈ subscriptions s'.
Proof.
  destruct fuel as [|fuel]; [done|]. cbn [perform method]. unfold on_settle.
  assert (∀ s, (p, k) ∈ subscriptions s ++ [(p, k)]) as Hin by (intros s0; apply elem_of_app; right; by left).
  intros (st & s1 & _ & Hs)%bind_some. destruct (is_pending st); apply bind_some in Hs as (? & s2 & [= <- <-] & Hs).
  - apply (keeps_register_progress grows (core_quiet _ grows_core)) in Hs. apply Hs, Hin.
  - apply (enqueue_grows (λ A, perform fuel (A:=A))) in Hs; [apply Hs, Hin|].
    intros A c s3 y s4 Hy. by eapply perform_grows.
Qed.

(** What a machine's outcome does to the result of its call, while that is
    pending: a value it returned fulfils it, and a promise is adopted; an error
    rejects it with its message, a yield with the reason that it is not in a
    coroutine; and a suspended machine is held under the next identifier, with a
    continuation on the promise it waits for. *)
Theorem finish_async_correct fuel machine r outcome s x s' :
  perform_script fuel (finish_async machine r outcome) s = Some (x, s') → raw_state s r = Pending →
  match outcome with
  | Returned (VPromise _) => accounted r s'
  | Returned value => raw_state s' r = Fulfilled value
  | Failed error => raw_state s' r = Rejected (RMessage (Machine.message error))
  | Suspended pending =>
      (pending, ready_of (next_id (sched s))) ∈ subscriptions s' ∧
      retained (host s) ++ [pending] `prefix_of` retained (host s')
  | Yielded _ => raw_state s' r = Rejected (RMessage "coroutine/yield used outside of a coroutine")
  end.
Proof.
  unfold perform_script. intros Hs Hp.
  assert (∀ B (c : command B) (y : ()) s2, run (λ A, perform fuel (A:=A)) (invoke c;; mret y) s = Some (x, s2) →
    ∃ z n, perform (S n) c s = Some (z, s2)) as Hi.
  { intros B c y s2 (z & s1 & Hc%run_invoke & [= <- <-])%run_bind. destruct fuel as [|n]; [done|by exists z, n]. }
  destruct outcome as [v|e|p|v]; cbn [finish_async] in Hs.
  - destruct v; apply Hi in Hs as (z & n & Hs); first [by eapply adopt_accounts | by eapply settle_pending].
  - apply Hi in Hs as (z & n & Hs). by eapply settle_pending.
  - unfold retain_async_child in Hs. apply run_bind in Hs as (id & s1 & Hs1 & Hs%run_invoke).
    change (Some (next_id (sched s), retaining machine r p s) = Some (id, s1)) in Hs1. injection Hs1 as <- <-.
    split; [by apply on_settle_subscribes in Hs|].
    apply on_settle_performed in Hs as (_ & H2 & _); [exact H2|]. intros A c. by apply (perform_keeps_by allowed), sched_kept.
  - apply Hi in Hs as (z & n & Hs). by eapply settle_pending.
Qed.
End claims.

(** ** A wait that never ends *)
Section stuck.
Context {G : Type} `{!GuestCode G} `{!HashOrder}.
Implicit Types s : Store (World G).

(** A poll is running, and a queued child, whose promise has settled, will
    settle [r]. *)
Record stuck (r : N) s : Prop := {
  st_polling : polling (sched s) = true;
  st_child : ∃ id c, children (sched s) !! id = Some c ∧ result c = r;
  st_live : r ∉ dropped s;
  st_settled id c : children (sched s) !! id = Some c → result c = r →
    raw_state s (pending c) ≠ Pending ∧ deferred (cell s (pending c)) = None ∧
    poller (hooks (cell s (pending c))) = None;
  st_quiet p : p ∈ subscribed s → still_pending s p = false;
}.

Lemma children_of_found fuel r cs s found s' :
  run (λ A, perform fuel (A:=A)) (children_of (G:=G) r cs) s = Some (found, s') → r ∉ dropped s →
  s' = s ∧ ∀ x, x ∈ found ↔ x ∈ cs ∧ result x.2 = r.
Proof.
  revert s found s'. induction cs as [|[id c] cs IH]; intros s found s'; cbn [children_of].
  - intros [= <- <-] _. split; [done|]. intros x. rewrite elem_of_nil. naive_solver.
  - intros (live & s1 & [-> Hlive]%run_invoke%upgrade_live & (l & s2 & Hl & [= <- <-])%run_bind)%run_bind Hr.
    destruct (IH _ _ _ Hl Hr) as [-> Hx]. split; [done|]. intros x. rewrite elem_of_cons.
    case_bool_decide as E; [|rewrite andb_false_r, Hx; naive_solver].
    destruct live; [|by rewrite E in Hlive; destruct Hr; apply Hlive]. cbn [andb]. rewrite elem_of_cons, Hx. naive_solver.
Qed.

Lemma progress_quiet fuel s x s' :
  perform fuel Progress s = Some (x, s') → (∀ p, p ∈ subscribed s → still_pending s p = false) →
  s' = with_subscribed [] s.
Proof.
  destruct fuel as [|fuel]; [done|]. cbn [perform method]. unfold progress_subscribed_promises.
  intros (? & s1 & [= <- <-] & (ps & s2 & [= <- <-] & Hs)%bind_some)%bind_some Hq.
  match type of Hs with context [filter ?P (subscribed s)] => assert (filter P (subscribed s) = []) as Hf end.
  { apply filter_Forall_nil, Forall_forall. intros p Hp. by rewrite (Hq p Hp). }
  cbn [subscribed with_subscribed] in Hs. rewrite !Hf in Hs. by injection Hs as <- <-.
Qed.

Lemma settled_state fuel p s st s' :
  perform fuel (State p) s = Some (st, s') → deferred (cell s p) = None → poller (hooks (cell s p)) = None →
  st = raw_state s p ∧ s' = s.
Proof.
  destruct fuel as [|fuel]; [done|]. cbn [perform method]. unfold state, run_deferred_if_ready.
  unfold mbind, op_bind, read. intros Hs Hd Hp. rewrite Hd in Hs. cbn [mret op_ret] in Hs. unfold mret, op_ret in Hs.
  rewrite Hp in Hs. cbn in Hs. by injection Hs as <- <-.
Qed.

(** Nothing moves any more: the queue of children is only emptied by the poll
    that waits. *)
Lemma stuck_wait r s fuel : stuck r s → perform fuel (CallHost (closure_number (Wait r))) s = None.
Proof.
  revert s. induction fuel as [|fuel IH]; intros s Hs; [done|].
  destruct (perform (S fuel) _ s) as [[n s']|] eqn:E; [exfalso|done].
  cbn [perform method on_call World_host] in E. rewrite closure_of_number in E.
  apply run_bind in E as (? & s1 & E & _). unfold wait_async_result in E.
  apply run_bind in E as (m & s2 & Hp%run_invoke & (a & s3 & [= <- <-] & (found & s4 & Hf & E)%run_bind)%run_bind).
  assert (s2 = s) as ->.
  { destruct fuel; [done|]. cbn [perform method on_call World_host] in Hp. rewrite closure_of_number in Hp.
    apply run_bind in Hp as (a & s5 & [= <- <-] & Hp). fold (sched s) in Hp. rewrite (st_polling _ _ Hs) in Hp.
    by injection Hp as <- <-. }
  apply children_of_found in Hf as [-> Hf]; [|apply Hs].
  destruct found as [|[id c] found].
  { destruct (st_child _ _ Hs) as (id & c & Hc & Hr). apply (elem_of_nil (id, c)), Hf. split; [|done].
    rewrite child_order_perm. by apply elem_of_map_to_list. }
  destruct (proj1 (Hf (id, c))) as [Hc Hr]; [by left|]. rewrite child_order_perm in Hc. apply elem_of_map_to_list in Hc.
  destruct (st_settled _ _ Hs id c Hc Hr) as (Hst & Hd & Hpo).
  apply run_bind in E as (st & s5 & Hw%run_invoke & E).
  assert (st = raw_state s (pending c) ∧ s5 = with_subscribed [] s) as [-> ->].
  { destruct fuel; [done|]. cbn [perform method] in Hw. unfold wait_state in Hw.
    apply bind_some in Hw as (? & s6 & Hpr & (st' & s7 & Hw & E')%bind_some).
    apply progress_quiet in Hpr as ->; [|apply Hs]. apply settled_state in Hw as [-> ->]; [|done..].
    apply not_pending_spec in Hst. unfold raw_state, cell in *. cbn in E'. rewrite Hst in E'. cbn in E'.
    by injection E' as <- <-. }
  apply not_pending_spec in Hst. rewrite Hst in E. apply run_bind in E as (k & s6 & Hk%run_invoke & _).
  rewrite IH in Hk; [done|]. destruct Hs as [H1 H2 H3 H4 H5]. split; try done. by intros p Hin%elem_of_nil.
Qed.
End stuck.

(** ** Concrete runs

    A machine awaits the promise of its own number. Resumed with 5 it waits for
    promise 3, as a native call that needs its value would, and otherwise returns
    what it was resumed with. *)
#[export] Instance in_order : HashOrder := { child_order := map_to_list; child_order_perm _ := Permutation_refl _ }.
#[export] Instance awaiting : GuestCode () := {
  machine_run m := CReturn (Suspended m);
  machine_resume _ state :=
    match state with
    | Fulfilled (VNumber 5) => CInvoke (WaitState 3) (λ _, CReturn (Returned VNil))
    | Fulfilled v => CReturn (Returned v)
    | _ => CReturn (Returned VNil)
    end;
  guest_state _ _ := CReturn tt;
  guest_poll _ := CReturn tt;
  guest_wait _ := CReturn tt;
  guest_cancel _ := CReturn tt;
  guest_task _ := CReturn (Ok VNil);
  guest_call _ := CReturn 0%N;
}.

(** Two calls, waiting for promises 0 and 1, with results 2 and 3; the promises
    are resolved, or only the first is. *)
Definition two_calls (first : Z) (second : option Z) : code () bool :=
  CInvoke New (λ p, CInvoke New (λ q, CSpawn p (λ _, CSpawn q (λ _,
  CInvoke (Resolve p (VNumber first)) (λ _,
  match second with Some v => CInvoke (Resolve q (VNumber v)) CReturn | None => CReturn true end))))).

Definition after_calls (first : Z) (second : option Z) : Store (World ()) :=
  match perform_script 40 (embed (two_calls first second)) (store_new (world_new tt)) with
  | Some (_, s) => s
  | None => store_new (world_new tt)
  end.

Lemma after_calls_run first second :
  fst <$> perform_script 40 (embed (two_calls first second)) (store_new (world_new tt)) = Some true →
  perform_script 40 (embed (two_calls first second)) (store_new (world_new tt)) = Some (true, after_calls first second).
Proof. unfold after_calls. destruct (perform_script _ _ _) as [[]|]; [|done]. by intros [= ->]. Qed.

(** What a script leaves behind, with any fuel from 40 on. *)
Definition left_by {A} (c : script (World ()) A) (s : Store (World ())) : Store (World ()) :=
  match perform_script 40 c s with Some (_, s') => s' | None => s end.

Lemma run_left {A} (c : script (World ()) A) s x n y s' :
  run (λ A, perform n (A:=A)) c s = Some (y, s') → 40 ≤ n → fst <$> perform_script 40 c s = Some x →
  y = x ∧ s' = left_by c s.
Proof.
  unfold left_by. intros Hs Hn Hx. destruct (perform_script 40 c s) as [[z s1]|] eqn:E; [|done]. injection Hx as ->.
  unfold perform_script in E. apply (extends_run _ (λ A, perform n (A:=A))) in E; [|intros B d s2 r; by apply perform_more].
  rewrite Hs in E. by injection E as -> ->.
Qed.

Lemma perform_left {A} (c : command A) s x n y s' :
  perform n c s = Some (y, s') → 40 ≤ n → fst <$> perform_script 40 (invoke c) s = Some x →
  y = x ∧ s' = left_by (invoke c) s.
Proof. intros Hs. apply run_left. by apply run_invoke. Qed.

(** What a poll runs before its loop. *)
Definition poll_prefix : script (World ()) () :=
  update (set_polling true);; a ← borrow; poll_states ((λ c, pending c.2) <$> child_order (children a)).

Definition polled_two : Store (World ()) :=
  left_by poll_prefix (after_calls 5 (Some 6%Z)).
Definition resuming_first : Store (World ()) :=
  with_host (note_resumed (0%N, Fulfilled (VNumber 5)) (host (taking 0 [(1%N, Fulfilled (VNumber 6))] polled_two)))
    (taking 0 [(1%N, Fulfilled (VNumber 6))] polled_two).
Definition waiting_for_second : Store (World ()) := left_by (invoke (State 3)) (left_by (invoke Progress) resuming_first).

Lemma waiting_stuck : stuck 3 waiting_for_second.
Proof.
  split.
  - vm_compute. reflexivity.
  - exists 1%N, (mkAsyncChild 1 3 1). vm_compute. done.
  - vm_compute. set_solver.
  - intros id c Hc _. assert (map_Forall (λ _ c, raw_state waiting_for_second (pending c) ≠ Pending ∧
      deferred (cell waiting_for_second (pending c)) = None ∧ poller (hooks (cell waiting_for_second (pending c))) = None)
      (children (sched waiting_for_second))) as Hall.
    { apply map_Forall_to_list. vm_compute. repeat constructor; done. }
    by apply (Hall id).
  - apply Forall_forall. vm_compute. repeat constructor.
Qed.

(** Waiting for the second result while the first machine is resumed. *)
Definition second_result : PromiseInner :=
  mkInner Pending [] None
    (mkHooks (Some (HostClosure (closure_number Poll))) false (Some (HostClosure (closure_number (Wait 3))))
       (Some (closure_number (Cancel_result 3)))) None false.

Lemma waiter_stuck n s st s' :
  stuck 3 s → cell s 3 = second_result →
  (c ← read (λ s, cell s 3);
   now ← read clock;
   let pollable := cooperative_polling (hooks c) && is_some (poller (hooks c)) in
   let delay := (λ d : N * N, (d.1 - now)%N) <$> deferred c in
   match (if pollable then None else waiter (hooks c)) with
   | Some w =>
       call_waiter (λ A, perform n (A:=A)) w;; perform n Progress;; perform n (State 3)
   | None =>
       if negb (is_some delay) && negb (pollable && is_some (waiter (hooks c))) then mret Pending
       else sleep (N.min (default MILLISECOND delay) MILLISECOND);; perform n (WaitState 3)
   end) s = Some (st, s') → False.
Proof.
  intros Hst Hc Hs. apply bind_some in Hs as (c & s3 & [= <- <-] & (now & s4 & [= <- <-] & Hs)%bind_some).
  rewrite Hc in Hs. cbn [second_result hooks cooperative_polling poller is_some andb waiter call_waiter] in Hs.
  apply bind_some in Hs as (? & s5 & Hw & _). cbn [call_waiter on_wait World_host] in Hw. rewrite closure_of_number in Hw.
  pose proof (stuck_wait 3 _ (S n) Hst) as Hn'. cbn [perform method on_call World_host] in Hn'.
  rewrite closure_of_number in Hn'. assert (run (λ A, perform n (A:=A)) (wait_async_result 3;; mret 0%N) s
    = Some (0%N, s5)) as E by (apply run_bind; eauto). by rewrite E in Hn'.
Qed.

Lemma resumed_waits n st s' : perform n (WaitState 3) resuming_first = Some (st, s') → 41 ≤ n → False.
Proof.
  destruct n as [|n]; [lia|]. cbn [perform method]. unfold wait_state. intros Hs Hn.
  apply bind_some in Hs as (? & s1 & Hp & Hs). apply (perform_left _ _ tt) in Hp as [_ ->]; [|lia|vm_compute; reflexivity].
  apply bind_some in Hs as (st1 & s2 & Hp & Hs). apply (perform_left _ _ Pending) in Hp as [-> ->]; [|lia|vm_compute; reflexivity].
  fold waiting_for_second in Hs. cbn [is_pending negb] in Hs.
  refine (waiter_stuck n _ st s' waiting_stuck _ Hs). vm_compute. reflexivity.
Qed.

Lemma poll_starts n s k s' :
  perform (S n) (CallHost (closure_number Poll)) s = Some (k, s') → polling (sched s) = false →
  ∃ s1 k' s2, run (λ A, perform n (A:=A)) poll_prefix s = Some (tt, s1) ∧
    perform n (CallHost (closure_number Drain_ready)) s1 = Some (k', s2).
Proof.
  cbn [perform method on_call World_host]. rewrite closure_of_number. unfold poll_scheduler.
  intros (a & s1 & [= <- <-] & E)%run_bind Hp. fold (sched s) in E. rewrite Hp in E.
  apply run_bind in E as ([] & s1 & H1 & (a & s2 & H2 & ([] & s3 & H3 & (count & s4 & H4%run_invoke & _)%run_bind)%run_bind)%run_bind).
  exists s3, count, s4. split; [|done]. apply run_bind. exists tt, s1. split; [done|]. apply run_bind. eauto.
Qed.

Lemma drain_starts n s k s' id st rest c :
  perform (S n) (CallHost (closure_number Drain_ready)) s = Some (k, s') →
  ready (sched s) = (id, st) :: rest → children (sched s) !! id = Some c → result c ∉ dropped s →
  ∃ o s2, run (λ A, perform n (A:=A)) (embed (machine_resume (machine c) st))
    (with_host (note_resumed (id, st) (host (taking id rest s))) (taking id rest s)) = Some (o, s2).
Proof.
  cbn [perform method on_call World_host]. rewrite closure_of_number. unfold drain_ready.
  intros (b & s5 & [= <- <-] & E)%run_bind Hr Hc Hl. fold (sched s) in E. rewrite Hr in E.
  apply run_bind in E as (? & s5 & ->%run_update & (b & s6 & [= <- <-] & E)%run_bind).
  change (children (set_ready rest (sched s))) with (children (sched s)) in E. rewrite Hc in E.
  apply run_bind in E as (? & s5 & ->%run_update & (live & s6 & Hlive%run_invoke & E)%run_bind).
  apply upgrade_live in Hlive as [-> Hlive]. destruct live; cbn [negb] in E; [|by destruct Hl; apply Hlive].
  apply run_bind in E as (? & s5 & ->%run_modify & (o & s6 & E & _)%run_bind). eauto.
Qed.

(** A machine that is resumed by a poll and waits for the result of another
    asynchronous call can wait forever, although the promise that call depends
    on has settled: the waiter polls, which does nothing while a poll is
    running, finds the child still held, sees that its promise has settled, and
    starts over. Here two calls await two promises, both are resolved, the first
    machine waits for the second result when it is resumed, and the poll has no
    result for any fuel. *)
Theorem nested_wait_never_returns :
  fst <$> perform_script 40 (embed (two_calls 5 (Some 6%Z))) (store_new (world_new tt)) = Some true ∧
  raw_state (after_calls 5 (Some 6%Z)) 0 = Fulfilled (VNumber 5) ∧
  raw_state (after_calls 5 (Some 6%Z)) 1 = Fulfilled (VNumber 6) ∧
  ready (sched (after_calls 5 (Some 6%Z))) = [(0%N, Fulfilled (VNumber 5)); (1%N, Fulfilled (VNumber 6))] ∧
  ∀ fuel, perform fuel (CallHost (closure_number Poll)) (after_calls 5 (Some 6%Z)) = None.
Proof.
  split_and!; [vm_compute; reflexivity..|]. intros fuel.
  destruct (perform fuel _ _) as [[n s']|] eqn:E; [exfalso|done].
  apply (perform_more fuel (S (S (fuel + 41)))) in E; [|lia]. set (m := S (fuel + 41)) in E.
  apply poll_starts in E as (s1 & k & s2 & H1 & H2); [|vm_compute; reflexivity].
  apply (run_left poll_prefix _ tt) in H1 as [_ ->]; [|unfold m; lia|vm_compute; reflexivity].
  apply (drain_starts _ _ _ _ 0 (Fulfilled (VNumber 5)) [(1%N, Fulfilled (VNumber 6))] (mkAsyncChild 0 2 0)) in H2
    as (o & s3 & H3); [|vm_compute; reflexivity|vm_compute; reflexivity|vm_compute; set_solver].
  apply (bind_some (perform (fuel + 41) (WaitState 3))) in H3 as (st & s4 & H3 & _).
  eapply resumed_waits; [exact H3|lia].
Qed.

Lemma after_calls_bounded first second :
  length (retained (host (after_calls first second))) = 2 → bounded (after_calls first second).
Proof. intros Hl. unfold bounded. by rewrite Hl. Qed.

(** One machine is queued with 7, the other waits; a poll resumes the first. *)
Lemma no_child_left_behind_witness :
  attended (after_calls 7 None) 0 (mkAsyncChild 0 2 0) ∧ attended (after_calls 7 None) 1 (mkAsyncChild 1 3 1) ∧
  ∃ s', perform 40 (CallHost (closure_number Poll)) (after_calls 7 None) = Some (1%N, s') ∧
    raw_state s' 2 = Fulfilled (VNumber 7) ∧ ready (sched s') = [].
Proof.
  assert (bounded (after_calls 7 None)) as Hb by (apply after_calls_bounded; vm_compute; reflexivity).
  destruct (no_child_left_behind 40 bool (two_calls 7 None) tt true (after_calls 7 None)) as (_ & Hc & Hp).
  - apply after_calls_run. vm_compute. reflexivity.
  - exact Hb.
  - split; [apply Hc; vm_compute; reflexivity|]. split; [apply Hc; vm_compute; reflexivity|].
    destruct (perform 40 (CallHost (closure_number Poll)) (after_calls 7 None)) as [[n s']|] eqn:E;
      [|vm_compute in E; discriminate E].
    exists s'. assert (n = 1%N ∧ s' = left_by (invoke (CallHost (closure_number Poll))) (after_calls 7 None)) as [-> ->].
    { apply (perform_left _ _ 1%N _ _ _ E); [lia|vm_compute; reflexivity]. }
    split; [reflexivity|]. split; [vm_compute; reflexivity|].
    apply (Hp 40 1%N _ E). unfold bounded. vm_compute. discriminate.
Defined.

(** The same run, polled by the guest. *)
Definition polled_call : code () bool := CInvoke New (λ p, CSpawn p (λ _,
  CInvoke (Resolve p (VNumber 7)) (λ _, CPollAsync (λ n, CReturn (n =? 1)%N)))).
Definition after_polled_call : Store (World ()) := left_by (embed polled_call) (store_new (world_new tt)).

Lemma polled_call_run :
  perform_script 40 (embed polled_call) (store_new (world_new tt)) = Some (true, after_polled_call).
Proof.
  destruct (perform_script 40 (embed polled_call) (store_new (world_new tt))) as [[b s]|] eqn:E; [|vm_compute in E; discriminate E].
  destruct (run_left (embed polled_call) _ true 40 b s E) as [-> ->]; [lia|vm_compute; reflexivity|reflexivity].
Qed.

Lemma resumed_once_witness :
  resumed (host after_polled_call) = [(0%N, Fulfilled (VNumber 7))] ∧
  ∃ p, retained_for after_polled_call 0 p ∧ raw_state after_polled_call p = Fulfilled (VNumber 7).
Proof.
  split; [vm_compute; reflexivity|].
  destruct (resumed_once 40 bool polled_call tt true after_polled_call polled_call_run) as [_ H].
  - unfold bounded. vm_compute. discriminate.
  - apply (H 0%N (Fulfilled (VNumber 7))). vm_compute. left.
Defined.

Lemma async_results_accounted_witness :
  2%N ∈ results (host (after_calls 7 None)) ∧
  (raw_state (after_calls 7 None) 2 ≠ Pending ∨
   (∃ p, adopted_from (cell (after_calls 7 None) 2) = Some p ∧ raw_state (after_calls 7 None) p = Pending ∧
      Forward 2 ∈ continuations (cell (after_calls 7 None) p)) ∨
   (∃ id child, children (sched (after_calls 7 None)) !! id = Some child ∧ result child = 2%N ∧
      attended (after_calls 7 None) id child) ∨
   2%N ∈ dropped (after_calls 7 None) ∨ 2%N ∈ cancels (host (after_calls 7 None))).
Proof.
  assert (2%N ∈ results (host (after_calls 7 None))) as Hin by (vm_compute; left).
  split; [exact Hin|].
  apply (async_results_accounted 40 bool (two_calls 7 None) tt true (after_calls 7 None) 2); [| |exact Hin].
  - apply after_calls_run. vm_compute. reflexivity.
  - apply after_calls_bounded. vm_compute. reflexivity.
Defined.

(** A machine that returns at once; its result is promise 0. *)
Lemma finish_async_correct_witness :
  let s := left_by (invoke New) (store_new (world_new tt)) in
  ∃ s', perform_script 40 (finish_async 7 0 (Returned (VNumber 3))) s = Some (tt, s') ∧
    raw_state s' 0 = Fulfilled (VNumber 3).
Proof.
  intros s. destruct (perform_script 40 (finish_async 7 0 (Returned (VNumber 3))) s) as [[[] s']|] eqn:E;
    [|vm_compute in E; discriminate E].
  exists s'. split; [reflexivity|].
  apply (finish_async_correct 40 7 0 (Returned (VNumber 3)) s tt s' E). vm_compute. reflexivity.
Defined.
