(* ===== verification/Safety.v ===== *)
(** * Machine safety

    What validation gives the machine of [Machine]: on a validated program whose
    instructions find their operands in their own frame ([covered]) and whose
    parameters and captures fit their slots ([fits]), every reachable machine
    state keeps one invariant, [machine_ok] - operand counts as analysed,
    frames of the declared size, a well-formed frame stack, clean recycled
    buffers - and the machine never panics. The file ends with what validation
    alone does not give: validated programs that underflow, read their caller's
    operands or panic. *)
From S2P Require Import Prelude Bytes Opcode Kernel Task Program Validate Frame Machine.

(** ** The invariant *)
Section invariant.
Context {W : Type} `{!ValueForms} `{!Runtime W}.
Variable program : Program.
Local Abbreviation M := (Machine W).
Local Abbreviation at_function := (function_at program).
Implicit Types m : M.

(** Every function slot names a function of the program. *)
Inductive slot_ok : VmSlot → Prop :=
| slot_number z : slot_ok (SNumber z)
| slot_bool b : slot_ok (SBool b)
| slot_nil : slot_ok SNil
| slot_value v : slot_ok (SValue v)
| slot_inline p identity : is_Some (at_function (N.to_nat p)) → slot_ok (SInlineClosure p identity)
| slot_closure a c : closure_ok c → slot_ok (SClosure a c)
| slot_multi a name l : Forall closure_ok l → slot_ok (SMultiArity a (mkMultiArity name l))
with closure_ok : VmClosure → Prop :=
| closure_intro p l : is_Some (at_function (N.to_nat p)) → Forall slot_ok l →
    closure_ok (mkClosure p l).

(** The operands of every instruction lie in its own frame. *)
Definition covered (f : FunctionPrototype) (heights : list N) : Prop :=
  ∀ ip i h, code f !! ip = Some i → heights !! ip = Some h → pops i ≤ N.to_nat h.

(** Parameters, the rest list and the captures fit the local slots. *)
Definition fits (f : FunctionPrototype) : Prop :=
  (arity f + (if variadic f then 1 else 0) + capture_count f ≤ local_count f)%N.

(** A function as validated, with its heights. *)
Record sound_function (f : FunctionPrototype) (heights : list N) : Prop := {
  sf_heights : well_stacked program f heights;
  sf_handlers : handler_table_ok f heights;
  sf_covered : covered f heights;
  sf_fits : fits f;
}.

Definition sound_program : Prop :=
  (∀ i f, at_function i = Some f → ∃ heights, sound_function f heights) ∧
  is_Some (at_function (N.to_nat (entry program))).

Definition locals_ok (f : FunctionPrototype) (l : list VmSlot) : Prop :=
  length l = N.to_nat (local_count f) ∧ Forall slot_ok l.

Definition is_call (i : Instruction) : bool :=
  match i with Call _ | CallStatic _ _ => true | _ => false end.

(** The suspended callers below a frame based at the given height: each is
    stopped at a call whose operands have been taken. *)
Inductive frames_ok : nat → list SavedFrame → Prop :=
| frames_nil b : frames_ok b []
| frames_cons caller rest f heights i h :
    at_function (saved_function caller) = Some f → sound_function f heights →
    locals_ok f (locals (saved_frame caller)) →
    code f !! call_ip caller = Some i → is_call i = true →
    heights !! call_ip caller = Some h →
    frames_ok (base (saved_frame caller)) rest →
    frames_ok (base (saved_frame caller) + N.to_nat h - pops i) (caller :: rest).

(** The part of the invariant that holds in the middle of an instruction, with
    [n] operands on the stack. *)
Record holds (f : FunctionPrototype) (b : nat) (at_ : nat) (callers : list SavedFrame)
    (fn : nat) (n : nat) m : Prop := {
  h_function : function m = fn;
  h_base : base (frame m) = b;
  h_locals : locals_ok f (locals (frame m));
  h_calls : calls m = callers;
  h_ip : ip m = at_;
  h_stack : length (stack m) = n;
  h_slots : Forall slot_ok (stack m);
  h_args : Forall (λ buffer, buffer = []) (free_args m);
  h_globals : map_Forall (λ _, slot_ok) (vm_globals m);
}.

(** The invariant between instructions. *)
Definition machine_ok m : Prop :=
  ∃ f heights h,
    at_function (function m) = Some f ∧ sound_function f heights ∧
    heights !! ip m = Some h ∧ frames_ok (base (frame m)) (calls m) ∧
    holds f (base (frame m)) (ip m) (calls m) (function m) (base (frame m) + N.to_nat h) m.

(** ** A calculus for the machine's methods

    [method n o n' Φ]: started with [n] operands, [o] completes with [n']
    operands and a result in [Φ], or fails with a message; it keeps the frame
    and never panics. *)
Section methods.
Variables (f : FunctionPrototype) (b at_ : nat) (callers : list SavedFrame) (fn : nat).
Hypothesis Hfn : at_function fn = Some f.
Local Abbreviation st := (holds f b at_ callers fn).

Definition method {A} (n : nat) (o : prog M failure A) (n' : nat) (Φ : A → Prop) : Prop :=
  ∀ m, st n m →
    match o m with
    | (Ok x, m') => st n' m' ∧ Φ x
    | (Err (Failed _), m') => ∃ k, st k m'
    | (Err (Panicked _), _) => False
    end.

Lemma method_ret {A} n (x : A) (Φ : A → Prop) : Φ x → method n (mret x) n Φ.
Proof. by intros Hx m Hm. Qed.

Lemma method_fail {A} n s n' (Φ : A → Prop) : method n (fail (Failed s)) n' Φ.
Proof. intros m Hm. by exists n. Qed.

Lemma method_bind {A B} n n1 n2 (o : prog M failure A) (k : A → prog M failure B) Φ Ψ :
  method n o n1 Φ → (∀ x, Φ x → method n1 (k x) n2 Ψ) → method n (o ≫= k) n2 Ψ.
Proof.
  intros Ho Hk m Hm. specialize (Ho m Hm). unfold mbind, prog_bind.
  destruct (o m) as [[x|[s|s]] m']; [|done..]. destruct Ho as [Hm' Hx]. by apply Hk.
Qed.

Lemma method_weaken {A} n n1 n2 (o : prog M failure A) (Φ Ψ : A → Prop) :
  method n o n1 Φ → n1 = n2 → (∀ x, Φ x → Ψ x) → method n o n2 Ψ.
Proof.
  intros Ho -> HΦ m Hm. specialize (Ho m Hm). destruct (o m) as [[x|[s|s]] m']; naive_solver.
Qed.

Lemma method_gets {A} n (g : M → A) (Φ : A → Prop) :
  (∀ m, st n m → Φ (g m)) → method n (gets g) n Φ.
Proof. intros Hg m Hm. cbn. auto. Qed.

Lemma method_modify n n' (g : M → M) :
  (∀ m, st n m → st n' (g m)) → method n (modify g) n' (λ _, True).
Proof. intros Hg m Hm. cbn. auto. Qed.

Lemma method_expect {A} n (o : option A) s (Φ : A → Prop) :
  (∀ x, o = Some x → Φ x) → method n (expect o s) n Φ.
Proof. intros Ho m Hm. destruct o; cbn; eauto. Qed.

Lemma method_index {A} n (o : option A) (Φ : A → Prop) :
  (∃ x, o = Some x ∧ Φ x) → method n (index o) n Φ.
Proof. intros (x & -> & Hx) m Hm. by cbn. Qed.

Lemma st_world n m w : st n m → st n (with_world w m).
Proof. by intros []. Qed.

Lemma method_core {A} n (g : prog W string A) : method n (core g) n (λ _, True).
Proof.
  intros m Hm. unfold core. destruct (g (world m)) as [[x|e] w]; cbn.
  - split; [by apply st_world|done].
  - exists n. by apply st_world.
Qed.

Lemma method_core_total {A} n (g : W → A * W) : method n (core_total g) n (λ _, True).
Proof.
  intros m Hm. unfold core_total. destruct (g (world m)) as [x w]; cbn.
  split; [by apply st_world|done].
Qed.

Lemma method_mapM {A B} n (g : A → prog M failure B) l (Φ : A → Prop) :
  (∀ x, Φ x → method n (g x) n (λ _, True)) → Forall Φ l → method n (mapM g l) n (λ _, True).
Proof.
  intros Hg. induction 1 as [|x l Hx _ IH]; cbn [mapM]; [by apply method_ret|].
  eapply method_bind; [by apply Hg|]. intros y _.
  eapply method_bind; [exact IH|]. intros ys _. by apply method_ret.
Qed.

(** *** Stack operations *)
Lemma st_stack n m s : st n m → Forall slot_ok s → st (length s) (with_stack s m).
Proof. by intros []. Qed.

Lemma st_take n m k : st n m → k ≤ n → st k (truncate k m).
Proof.
  intros Hm Hk. unfold truncate. pose proof (h_stack _ _ _ _ _ _ _ Hm) as Hlen.
  rewrite <-(length_take_le (stack m) k) at 1 by lia. eapply st_stack; [done|].
  apply Forall_take. by destruct Hm.
Qed.

Lemma st_push n m v : st n m → slot_ok v → st (S n) (push v m).
Proof.
  intros Hm Hv. unfold push. pose proof (h_stack _ _ _ _ _ _ _ Hm) as Hlen.
  replace (S n) with (length (stack m ++ [v])) by (rewrite length_app; cbn; lia).
  eapply st_stack; [done|]. apply Forall_app. split; [by destruct Hm|]. by constructor.
Qed.

Lemma slot_ok_value v : slot_ok (slot_of_value v).
Proof. destruct v; constructor. Qed.

Lemma method_push n v : slot_ok v → method n (modify (push v)) (S n) (λ _, True).
Proof. intros Hv. apply method_modify. intros m Hm. by apply st_push. Qed.

Lemma method_push_value n v : method n (push_value v) (S n) (λ _, True).
Proof. apply method_push, slot_ok_value. Qed.

Lemma method_pop_slot n :
  1 ≤ n → method n pop_slot (n - 1) (λ o, ∃ v, o = Some v ∧ slot_ok v).
Proof.
  intros Hn m Hm. unfold pop_slot. pose proof (h_stack _ _ _ _ _ _ _ Hm) as Hlen.
  destruct (last (stack m)) as [v|] eqn:Hv.
  - rewrite Hlen. replace (pred n) with (n - 1) by lia.
    split; [apply st_take with n; [done|lia]|]. exists v. split; [done|].
    pose proof (h_slots _ _ _ _ _ _ _ Hm) as Hs. rewrite Forall_forall in Hs.
    apply Hs. by apply last_Some_elem_of.
  - apply last_None in Hv. rewrite Hv in Hlen. cbn in Hlen. lia.
Qed.

Lemma method_pop n : 1 ≤ n → method n pop_or_underflow (n - 1) slot_ok.
Proof.
  intros Hn. eapply method_bind; [by apply method_pop_slot|].
  intros o (v & -> & Hv). apply method_expect. by intros ? [= <-].
Qed.

Lemma method_drain n k :
  k ≤ n → method n (drain k) (n - k) (λ l, length l = k ∧ Forall slot_ok l).
Proof.
  intros Hk m Hm. unfold drain. pose proof (h_stack _ _ _ _ _ _ _ Hm) as Hlen. split.
  - rewrite Hlen. apply st_take with n; [done|lia].
  - rewrite length_drop. split; [lia|]. apply Forall_drop. by destruct Hm.
Qed.

Lemma method_require n k : method n (require_operands k) n (λ _, True).
Proof.
  intros m Hm. unfold require_operands. destruct (length (stack m) <? k); [by exists n|done].
Qed.

(** *** Escaping values *)
Lemma method_closure_value n c :
  closure_ok c →
  method n (index (at_function (N.to_nat (closure_prototype c)));; core_total (closure_value c)) n
    (λ _, True).
Proof.
  intros [p l [g Hg] _]. eapply method_bind.
  - apply (method_index n _ (λ _, True)). eauto.
  - intros _ _. apply method_core_total.
Qed.

Lemma method_into_value n v : slot_ok v → method n (into_value program v) n (λ _, True).
Proof.
  destruct 1 as [| | | |p identity Hp|a c Hc|a name l Hl]; cbn [into_value];
    try by apply method_ret.
  - eapply method_bind; [apply (method_index n _ (λ _, True)); destruct Hp; eauto|].
    intros _ _. eapply method_bind; [apply method_core_total|]. intros. by apply method_ret.
  - destruct Hc as [p l Hp Hl]. cbn.
    eapply method_bind; [apply (method_index n _ (λ _, True)); destruct Hp; eauto|].
    intros _ _. eapply method_bind; [apply method_core_total|]. intros. by apply method_ret.
  - eapply method_bind; [|intros; apply method_core_total].
    apply (method_mapM n _ l closure_ok); [|done]. apply method_closure_value.
Qed.

Lemma method_into_values n l :
  Forall slot_ok l → method n (mapM (into_value program) l) n (λ _, True).
Proof. apply method_mapM. apply method_into_value. Qed.

Lemma method_remember n v s :
  slot_ok s → method n (remember_vm_global v s) n (λ _, True).
Proof.
  intros Hs. unfold remember_vm_global. destruct (callable_key v); [|by apply method_ret].
  apply method_modify. intros m []. split; try done. cbn. by apply map_Forall_insert_2.
Qed.

(** *** The instruction methods *)
Lemma method_name n i : method n (name_operand program i) n (λ _, True).
Proof. by apply method_expect. Qed.

Lemma method_metadata n metadata :
  match metadata with Some i => in_bounds i (var_metadata program) = true | None => True end →
  method n (metadata_operand program metadata) n (λ _, True).
Proof.
  intros Hm. destruct metadata as [i|]; [|by apply method_ret]. cbn.
  apply in_bounds_lt, lookup_lt_is_Some in Hm as [table Ht].
  eapply method_bind; [apply (method_index n _ (λ _, True)); eauto|]. intros. by apply method_ret.
Qed.

Ltac method_side := cbn beta in *; first [lia | done | by eauto | by destruct_and?; eauto].
Ltac method_leaf :=
  first
    [ apply method_core | apply method_core_total | apply method_push_value
    | apply method_name | apply method_require
    | apply method_ret; method_side
    | apply method_pop; method_side
    | apply method_drain; method_side
    | apply method_into_value; method_side
    | apply method_into_values; method_side
    | apply method_remember; method_side
    | apply method_metadata; method_side
    | apply method_push; first [method_side | by constructor]
    | apply method_fail
    | apply (method_expect _ _ _ (λ _, True)); done
    | apply (method_gets _ _ (λ _, True)); done ].
Ltac method_one := eapply method_bind; [method_leaf | intros ? ?; cbn beta in *; destruct_and?].
Ltac method_run := repeat first [method_leaf | method_one].
Ltac method_solve := eapply method_weaken; [method_run | lia | done].

Lemma method_build_collection n count map set :
  N.to_nat count ≤ n →
  method n (exec_build_collection program count map set) (S (n - N.to_nat count)) (λ _, True).
Proof. intros Hn. unfold exec_build_collection. method_solve. Qed.

Lemma method_build_list n count concatenate :
  N.to_nat count ≤ n →
  method n (exec_build_list program count concatenate) (S (n - N.to_nat count)) (λ _, True).
Proof. intros Hn. unfold exec_build_list. method_solve. Qed.

Lemma method_to_vector n : 1 ≤ n → method n (exec_to_vector program) n (λ _, True).
Proof. intros Hn. unfold exec_to_vector. method_solve. Qed.

Lemma method_get_global n i : method n (exec_get_global program i) (S n) (λ _, True).
Proof. unfold exec_get_global. method_solve. Qed.

Lemma method_def_global n name metadata :
  1 ≤ n → match metadata with Some i => in_bounds i (var_metadata program) = true | None => True end →
  method n (exec_def_global program name metadata) n (λ _, True).
Proof. intros Hn Hm. unfold exec_def_global. method_solve. Qed.

Lemma method_def_macro n name metadata :
  1 ≤ n → match metadata with Some i => in_bounds i (var_metadata program) = true | None => True end →
  method n (exec_def_macro program name metadata) n (λ _, True).
Proof. intros Hn Hm. unfold exec_def_macro. method_solve. Qed.

Lemma method_reset n v value :
  method n (modify (λ m, with_world (reset_value v value (world m)) m)) n (λ _, True).
Proof. apply method_modify. intros m Hm. by apply st_world. Qed.

Lemma method_set_global n i : 1 ≤ n → method n (exec_set_global program i) n (λ _, True).
Proof.
  intros Hn. unfold exec_set_global. apply method_weaken with (S (n - 1)) (λ _, True); [|lia|done].
  method_run. eapply method_bind; [|intros ? _].
  - instantiate (1 := λ _, True). case_match; [by apply (method_ret _ _ (λ _, True))|apply method_fail].
  - method_run. eapply method_bind; [apply method_reset|intros ? _]. method_run.
Qed.

Lemma method_var_global n i : method n (exec_var_global program i) (S n) (λ _, True).
Proof. unfold exec_var_global. method_solve. Qed.

Lemma method_declare_global n i : method n (exec_declare_global program i) (S n) (λ _, True).
Proof. unfold exec_declare_global. method_solve. Qed.

Lemma method_field_get n i : 1 ≤ n → method n (exec_mutable_field_get program i) n (λ _, True).
Proof. intros Hn. unfold exec_mutable_field_get. method_solve. Qed.

Lemma method_field_set n i :
  2 ≤ n → method n (exec_mutable_field_set program i) (n - 1) (λ _, True).
Proof. intros Hn. unfold exec_mutable_field_set. method_solve. Qed.

Lemma method_instance_of n : 2 ≤ n → method n (exec_instance_of program) (n - 1) (λ _, True).
Proof. intros Hn. unfold exec_instance_of. method_solve. Qed.

Lemma as_clause_ok s c : slot_ok s → as_clause s = Some c → closure_ok c.
Proof. destruct 1; cbn; intros [=]; subst; [by constructor|done]. Qed.

Lemma method_multi_arity n name count :
  N.to_nat count ≤ n →
  method n (exec_make_multi_arity program name count) (S (n - N.to_nat count)) (λ _, True).
Proof.
  intros Hn. unfold exec_make_multi_arity. do 2 method_one. eapply method_bind; [apply (method_gets _ _ (Forall slot_ok)); by destruct 1|].
  intros s Hs. eapply method_bind; [apply (method_expect _ _ _ (Forall closure_ok))|].
  - intros l Hl. apply mapM_Some in Hl. assert (Forall slot_ok (drop (length s - N.to_nat count) s)) as Hd by by apply Forall_drop.
    revert Hd.
    induction Hl as [|y c l l' Hy _ IH]; [constructor|]. intros [Hy' Hl']%Forall_cons.
    constructor; [by eapply as_clause_ok|auto].
  - intros l Hl. do 2 method_one. apply method_push. by constructor.
Qed.

Lemma method_closure n p captured :
  N.to_nat captured ≤ n → is_Some (at_function (N.to_nat p)) →
  method n (exec_closure program p captured) (S (n - N.to_nat captured)) (λ _, True).
Proof.
  intros Hn Hp. unfold exec_closure. method_run.
  destruct (Nat.eqb_spec (N.to_nat captured) 0) as [->|].
  - rewrite Nat.sub_0_r. method_run. eapply method_bind.
    { apply method_modify. intros m []. by split. }
    intros _ _. apply method_push. by constructor.
  - method_run.
Qed.

Lemma method_take_args n : method n take_args n (λ l, l = []).
Proof.
  intros m Hm. unfold take_args. destruct (free_args m) as [|l rest] eqn:Hargs; [done|].
  pose proof (h_args _ _ _ _ _ _ _ Hm) as Hall. rewrite Hargs in Hall.
  apply Forall_cons in Hall as [-> Hrest]. split; [|done]. destruct Hm. by split.
Qed.

Lemma method_collect_call n argc :
  S (N.to_nat argc) ≤ n →
  method n (collect_call argc) (n - S (N.to_nat argc))
    (λ r, slot_ok r.1 ∧ Forall slot_ok r.2 ∧ length r.2 = N.to_nat argc).
Proof.
  intros Hn. unfold collect_call. method_run.
  eapply method_bind; [apply method_take_args|intros ? ->]. method_run.
  eapply method_bind; [apply method_pop_slot; lia|]. intros o (v & -> & Hv). cbn.
  replace (n - S (N.to_nat argc)) with (n - N.to_nat argc - 1) by lia. by apply method_ret.
Qed.

Lemma method_collect_call_static n g p argc :
  f = g → N.to_nat argc ≤ n → is_Some (at_function (N.to_nat p)) →
  method n (collect_call_static program g p argc) (n - N.to_nat argc)
    (λ r, r.1.1 = p ∧ Forall slot_ok r.1.2 ∧ length r.1.2 = N.to_nat argc ∧ Forall slot_ok r.2).
Proof.
  intros <- Hn [proto Hp]. unfold collect_call_static. do 2 method_one.
  eapply method_bind; [apply method_take_args|intros ? ->]. method_one.
  eapply method_bind; [apply (method_gets _ _ (λ fr, Forall slot_ok (locals fr)))|].
  { intros m Hm. by destruct (h_locals _ _ _ _ _ _ _ Hm). }
  intros fr Hfr. cbn beta in Hfr.
  eapply method_bind; [apply (method_expect _ _ _ (Forall slot_ok))|].
  { intros l. unfold slot_range. case_match; [done|]. intros [= <-]. by apply Forall_take, Forall_drop. }
  intros l Hl. by apply method_ret.
Qed.
End methods.

(** ** Unwinding *)
Section unwinding.

Lemma effect_pops_pushes i e :
  stack_effect i = Some e → e = (Z.of_nat (pushes i) - Z.of_nat (pops i))%Z.
Proof.
  rewrite stack_effect_pops_pushes. destruct (falls_through i) eqn:Hf; [by intros [= <-]|].
  destruct i; try done. by intros [= <-].
Qed.

Lemma machine_ok_intro f heights b at_ callers fn t h m :
  at_function fn = Some f → sound_function f heights → heights !! t = Some h →
  frames_ok b callers → holds f b at_ callers fn (b + N.to_nat h) m →
  machine_ok (with_ip t m).
Proof.
  intros Hf Hs Hh Hc [<- <- Hl <- Hip Hst Hsl Ha Hg]. exists f, heights, h. cbn. by split_and!.
Qed.

(** After an instruction has run, its successors have the analysed height. *)
Lemma machine_ok_step f heights b at_ at' callers fn i h t m :
  at_function fn = Some f → sound_function f heights → frames_ok b callers →
  code f !! at_ = Some i → heights !! at_ = Some h → t ∈ steps at_ i →
  holds f b at' callers fn (b + (N.to_nat h - pops i) + pushes i) m →
  machine_ok (with_ip t m).
Proof.
  intros Hf Hs Hc Hi Hh Ht Hm.
  assert (is_Some (stack_effect i)) as [e He].
  { apply stack_effect_continues. apply elem_of_steps in Ht. naive_solver. }
  destruct (ws_flow _ _ _ (sf_heights _ _ Hs) at_ h t (next_height h i)) as (h' & Hh' & Heq).
  { done. }
  { apply (flows_inv f at_ h i); [done|]. left. by rewrite He. }
  eapply machine_ok_intro; try done. unfold next_height in Heq. rewrite He in Heq.
  apply effect_pops_pushes in He. pose proof (sf_covered _ _ Hs at_ i h Hi Hh). cbn in Heq.
  replace (b + N.to_nat h') with (b + (N.to_nat h - pops i) + pushes i) by lia. done.
Qed.

Definition raise_ok (r : result halt nat * M) : Prop :=
  match r with
  | (Ok t, m) => machine_ok (with_ip t m)
  | (Err (HFailed _), _) => True
  | (Err (HPanics _), _) => False
  end.

Lemma store_ok f fr slot v fr' :
  locals_ok f (locals fr) → slot_ok v → store fr slot v = Some fr' →
  locals_ok f (locals fr') ∧ base fr' = base fr.
Proof.
  intros [Hlen Hl] Hv. unfold store. case_match; [|done]. intros [= <-]. cbn.
  split; [|done]. split; [by rewrite length_insert|]. by apply Forall_insert.
Qed.

Lemma holds_frame f b at_ callers fn n m fr :
  holds f b at_ callers fn n m → locals_ok f (locals fr) → base fr = b →
  holds f b at_ callers fn n (with_frame fr m).
Proof. intros [] Hl Hb. by split. Qed.

Lemma bind_caught_ok f b at_ callers fn n m slot message m' :
  holds f b at_ callers fn n m → bind_caught slot message m = Some m' →
  holds f b at_ callers fn n m'.
Proof.
  intros Hm. unfold bind_caught. destruct (caught_error message (world m)) as [v w].
  intros (fr & Hfr & [= <-])%bind_Some.
  destruct (store_ok f _ _ _ _ (h_locals _ _ _ _ _ _ _ Hm) (slot_ok_value v) Hfr) as [Hl Hb].
  apply holds_frame; [by apply st_world|done|]. rewrite Hb. by destruct Hm.
Qed.

Lemma handler_height f heights e t :
  sound_function f heights → e ∈ handlers f →
  (∃ c, c ∈ catches e ∧ t = catch_target c) ∨ finally e = Some t →
  heights !! N.to_nat t = Some (depth e).
Proof.
  intros Hs He Ht. destruct (sf_handlers _ _ Hs) as [Hall _]. rewrite Forall_forall in Hall.
  pose proof (eo_depth _ _ _ (Hall e He)) as Hd.
  destruct (ws_flow _ _ _ (sf_heights _ _ Hs) _ _ (N.to_nat t) (Z.of_N (depth e)) Hd)
    as (h' & Hh' & ?%N2Z.inj); [|by subst].
  destruct Ht as [(c & Hc & ->)|Hf]; [by eapply flow_catch|by eapply flow_finally].
Qed.

Lemma try_entry_ok f heights b at_ callers fn n m message e r :
  at_function fn = Some f → sound_function f heights → frames_ok b callers →
  holds f b at_ callers fn n m → e ∈ handlers f →
  try_entry f message e m = Some r → raise_ok r.
Proof.
  intros Hf Hs Hc Hm He. unfold try_entry. case_match; [|done].
  rewrite (h_base _ _ _ _ _ _ _ Hm), (h_stack _ _ _ _ _ _ _ Hm).
  destruct (Nat.ltb_spec n (b + N.to_nat (depth e))); [by intros [= <-]|].
  assert (holds f b at_ callers fn (b + N.to_nat (depth e))
    (truncate (b + N.to_nat (depth e)) m)) as Ht by by eapply st_take.
  set (mt := truncate _ m) in *.
  destruct (try_catches f message e _ m) as [r'|] eqn:Hcatch; unfold try_catches in Hcatch.
  - intros [= <-]. apply bind_Some in Hcatch as (c & Hfind & [= <-]).
    fold mt. destruct (bind_caught (binding c) message mt) as [m'|] eqn:Hb; [|done]. cbn.
    eapply machine_ok_intro; try done; [|by eapply bind_caught_ok].
    eapply handler_height; try done. left. exists c. split; [|done].
    apply head_Some_elem_of, list_elem_of_filter in Hfind. by destruct Hfind.
  - clear Hcatch. unfold try_finally. intros (t & Hfin & [= <-])%bind_Some. fold mt.
    assert (heights !! N.to_nat t = Some (depth e)) as Hh by (eapply handler_height; eauto).
    destruct (pending_value e) as [v|], (pending_error e) as [g|]; try done.
    destruct (bind_caught v message mt) as [m'|] eqn:Hb; [|done].
    pose proof (bind_caught_ok _ _ _ _ _ _ _ _ _ _ Ht Hb) as Hm'.
    destruct (store (frame m') g (SBool true)) as [fr|] eqn:Hst; [|done]. cbn.
    destruct (store_ok f _ _ _ _ (h_locals _ _ _ _ _ _ _ Hm') (slot_bool true) Hst) as [Hl Hbase].
    eapply machine_ok_intro; try done. apply holds_frame; [done|done|].
    rewrite Hbase. by destruct Hm'.
Qed.

Lemma search_handlers_ok f heights b at_ callers fn n m message l r :
  at_function fn = Some f → sound_function f heights → frames_ok b callers →
  holds f b at_ callers fn n m → (∀ e, e ∈ l → e ∈ handlers f) →
  search_handlers f message l m = Some r → raise_ok r.
Proof.
  intros Hf Hs Hc Hm. induction l as [|e l IH]; intros Hl; cbn; [done|].
  destruct (try_entry f message e m) as [r'|] eqn:He.
  - intros [= <-]. eapply try_entry_ok; try done. apply Hl. by left.
  - apply IH. intros e' He'. apply Hl. by right.
Qed.

Lemma holds_pop_frame f b at_ callers fn n m g caller rest return_ip :
  holds f b at_ callers fn n m → locals_ok g (locals (saved_frame caller)) →
  holds g (base (saved_frame caller)) return_ip rest (saved_function caller) (b `min` n)
    (pop_frame caller rest return_ip m).
Proof.
  intros [Hfn Hb Hl Hc Hip Hst Hsl Ha Hg] Hlg. split; try done; cbn.
  - rewrite length_take, Hst, Hb. done.
  - by apply Forall_take.
Qed.

Lemma unwind_ok f heights b at_ callers fn n m message :
  at_function fn = Some f → sound_function f heights → frames_ok b callers →
  holds f b at_ callers fn n m → raise_ok (unwind program message callers m).
Proof.
  intros Hf Hs Hc. revert f heights at_ fn n m Hf Hs.
  induction Hc as [b|caller rest f' heights' i h Hf' Hs' Hl' Hi Hcall Hh Hc IH];
    intros f heights at_ fn n m Hf Hs Hm; cbn [unwind];
    rewrite (h_function _ _ _ _ _ _ _ Hm), Hf;
    destruct (search_handlers f message (reverse (handlers f)) m) as [r|] eqn:Hsearch.
  - eapply search_handlers_ok; [done|done|constructor|done| |done].
    intros e. by rewrite elem_of_reverse.
  - done.
  - eapply search_handlers_ok; [done|done| |done| |done].
    + by eapply frames_cons.
    + intros e. by rewrite elem_of_reverse.
  - by eapply IH, holds_pop_frame.
Qed.

Lemma raise_ok_intro f heights b at_ callers fn n m message :
  at_function fn = Some f → sound_function f heights → frames_ok b callers →
  holds f b at_ callers fn n m → raise_ok (raise program message m).
Proof.
  intros Hf Hs Hc Hm. unfold raise. rewrite (h_calls _ _ _ _ _ _ _ Hm). by eapply unwind_ok.
Qed.
End unwinding.

(** ** One instruction *)
Section dispatching.
Variables (f : FunctionPrototype) (heights : list N) (b at_ : nat)
  (callers : list SavedFrame) (fn : nat) (i : Instruction) (h : N).
Hypothesis Hfn : at_function fn = Some f.
Hypothesis Hsound : sound_function f heights.
Hypothesis Hframes : frames_ok b callers.
Hypothesis Hi : code f !! at_ = Some i.
Hypothesis Hh : heights !! at_ = Some h.
Local Abbreviation st := (holds f b at_ callers fn).
Local Abbreviation method := (method f b at_ callers fn).

Lemma operands_available : pops i ≤ N.to_nat h.
Proof. by eapply sf_covered. Qed.

Lemma instruction_operands : operands_ok program f i.
Proof. exact (ws_operands _ _ _ (sf_heights _ _ Hsound) at_ i Hi). Qed.

(** An early return of [dispatch]. *)
Definition exit_ok (d : Dispatch) m : Prop :=
  match d with
  | DUnwound t => machine_ok (with_ip t m)
  | DFailed _ => True
  | DSuspended _ => machine_ok m
  | _ => False
  end.

Definition acts {A} (n : nat) (a : prog M Dispatch A) (n' : nat) (Φ : A → Prop) : Prop :=
  ∀ m, st n m →
    match a m with
    | (Ok x, m') => st n' m' ∧ Φ x
    | (Err d, m') => exit_ok d m'
    end.

Lemma acts_ret {A} n (x : A) (Φ : A → Prop) : Φ x → acts n (mret x) n Φ.
Proof. by intros Hx m Hm. Qed.

Lemma acts_bind {A B} n n1 n2 (a : prog M Dispatch A) (k : A → prog M Dispatch B) Φ Ψ :
  acts n a n1 Φ → (∀ x, Φ x → acts n1 (k x) n2 Ψ) → acts n (a ≫= k) n2 Ψ.
Proof.
  intros Ha Hk m Hm. specialize (Ha m Hm). unfold mbind, prog_bind.
  destruct (a m) as [[x|d] m']; [|done]. destruct Ha as [Hm' Hx]. by apply Hk.
Qed.

Lemma acts_gets {A} n (g : M → A) (Φ : A → Prop) :
  (∀ m, st n m → Φ (g m)) → acts n (gets g) n Φ.
Proof. intros Hg m Hm. cbn. auto. Qed.

Lemma acts_raised {A} n message n' (Φ : A → Prop) : acts n (raised program message) n' Φ.
Proof.
  intros m Hm. unfold raised.
  pose proof (raise_ok_intro _ _ _ _ _ _ _ _ message Hfn Hsound Hframes Hm) as Hr.
  destruct (raise program message m) as [[t|[e|s]] m']; cbn in *; done.
Qed.

Lemma acts_failed {A} n g message n' (Φ : A → Prop) : acts n (failed g message) n' Φ.
Proof. by intros m Hm. Qed.

Lemma acts_or_raise {A} n (o : prog M failure A) n' Φ : method n o n' Φ → acts n (or_raise program o) n' Φ.
Proof.
  intros Ho m Hm. specialize (Ho m Hm). unfold or_raise.
  destruct (o m) as [[x|[s|s]] m']; [done| |done]. destruct Ho as [k Hk].
  by apply (acts_raised k s n' Φ).
Qed.

Lemma acts_or_fail {A} n g (o : prog M failure A) n' Φ : method n o n' Φ → acts n (or_fail g o) n' Φ.
Proof.
  intros Ho m Hm. specialize (Ho m Hm). unfold or_fail. by destruct (o m) as [[x|[s|s]] m'].
Qed.

Lemma acts_push n v : slot_ok v → acts n (modify (push v)) (S n) (λ _, True).
Proof. intros Hv m Hm. split; [by apply st_push|done]. Qed.

Lemma acts_next n (Φ : Dispatch → Prop) : Φ (DNext (S at_)) → acts n next n Φ.
Proof.
  intros HΦ. apply acts_gets. intros m Hm. by rewrite (h_ip _ _ _ _ _ _ _ Hm).
Qed.

(** What a completed [dispatch] leaves to the [run] loop. *)
Definition settles (n : nat) (d : Dispatch) : Prop :=
  match d with
  | DNext t => t ∈ steps at_ i ∧ n = b + (N.to_nat h - pops i) + pushes i
  | DCall callee args =>
      is_call i = true ∧ n = b + N.to_nat h - pops i ∧ slot_ok callee ∧ Forall slot_ok args
  | DCallStatic p args captured =>
      is_call i = true ∧ n = b + N.to_nat h - pops i ∧ is_Some (at_function (N.to_nat p)) ∧
      Forall slot_ok args ∧ Forall slot_ok captured
  | DCallStaticDirect p argc =>
      i = CallStatic p argc ∧ n = b + N.to_nat h ∧
      ∃ g, at_function (N.to_nat p) = Some g ∧ is_direct g = true ∧ arity g = argc
  | DReturned v => slot_ok v ∧ n = b
  | DYielded _ => i = Yield ∧ S n = b + N.to_nat h
  | _ => False
  end.

Lemma acts_through n : falls_through i = true → n = b + (N.to_nat h - pops i) + pushes i →
  acts n next n (settles n).
Proof.
  intros Hf Hn. apply acts_next. cbn. split; [|done]. apply elem_of_steps. auto.
Qed.

Lemma acts_guarded n' (o : prog M failure ()) :
  falls_through i = true → n' = b + (N.to_nat h - pops i) + pushes i →
  method (b + N.to_nat h) o n' (λ _, True) →
  acts (b + N.to_nat h) (guarded program o) n' (settles n').
Proof.
  intros Hf Hn Ho. unfold guarded. eapply acts_bind; [by apply acts_or_raise|].
  intros _ _. by apply acts_through.
Qed.

(** [acts] with the operand count the instruction leaves. *)
Definition dispatches (a : prog M Dispatch Dispatch) : Prop :=
  ∀ m, st (b + N.to_nat h) m →
    match a m with
    | (Ok d, m') => ∃ n, st n m' ∧ settles n d
    | (Err d, m') => exit_ok d m'
    end.

Lemma acts_dispatches n a : acts (b + N.to_nat h) a n (settles n) → dispatches a.
Proof. intros Ha m Hm. specialize (Ha m Hm). destruct (a m) as [[d|d] m']; eauto. Qed.

Local Abbreviation top := (b + N.to_nat h).

Lemma acts_expect_raise {A} n (o : option A) s (Φ : A → Prop) :
  (∀ x, o = Some x → Φ x) → acts n (or_raise program (expect o s)) n Φ.
Proof. intros Ho. by apply acts_or_raise, method_expect. Qed.

Lemma acts_expect_fail {A} n g (o : option A) s (Φ : A → Prop) :
  (∀ x, o = Some x → Φ x) → acts n (or_fail g (expect o s)) n Φ.
Proof. intros Ho. by apply acts_or_fail, method_expect. Qed.

Lemma acts_pop n : 1 ≤ n → acts n (or_raise program pop_or_underflow) (n - 1) slot_ok.
Proof. intros Hn. by apply acts_or_raise, method_pop. Qed.

Lemma acts_push_through n v :
  slot_ok v → falls_through i = true → S n = b + (N.to_nat h - pops i) + pushes i →
  acts n (modify (push v);; next) (S n) (settles (S n)).
Proof.
  intros Hv Hf Hn. eapply acts_bind; [by apply acts_push|]. intros _ _. by apply acts_through.
Qed.

Ltac settle_count Hj := rewrite ?Hj; cbn [pops pushes falls_through]; lia.
Ltac available Hj := let H := fresh "Hpops" in
  pose proof operands_available as H; rewrite Hj in H; cbn [pops] in H.

Lemma dispatch_constant_ok c : i = Constant c → dispatches (dispatch_constant program c).
Proof.
  intros Hj. eapply acts_dispatches, acts_bind; [by apply (acts_expect_raise _ _ _ (λ _, True))|].
  intros v _. apply acts_push_through; [apply slot_ok_value|by rewrite Hj|settle_count Hj].
Qed.

Lemma dispatch_literal_ok v :
  i = Nil ∧ v = SNil ∨ i = True_ ∧ v = SBool true ∨ i = False_ ∧ v = SBool false →
  dispatches (modify (push v);; next).
Proof.
  intros [[Hj ->]|[[Hj ->]|[Hj ->]]];
    (eapply acts_dispatches, acts_push_through; [constructor|by rewrite Hj|settle_count Hj]).
Qed.

Lemma dispatch_load_local_ok slot : i = LoadLocal slot → dispatches (dispatch_load_local program slot).
Proof.
  intros Hj. eapply acts_dispatches, acts_bind; [apply (acts_gets _ _ (λ fr, locals_ok f (locals fr)));
    by destruct 1|]. intros fr [_ Hl].
  eapply acts_bind; [apply (acts_expect_raise _ _ _ slot_ok)|].
  - intros v Hv. rewrite Forall_forall in Hl. by apply Hl, (list_elem_of_lookup_2 _ _ _ Hv).
  - intros v Hv. apply acts_push_through; [done|by rewrite Hj|settle_count Hj].
Qed.

Lemma acts_store_next n slot v message :
  slot_ok v → acts n next n (settles n) →
  acts n (current ← gets frame;
          stored ← or_raise program (expect (store current slot v) message);
          modify (with_frame stored);;
          next) n (settles n).
Proof.
  intros Hv Hnext m Hm. unfold mbind, prog_bind. cbn [gets].
  destruct (store (frame m) slot v) as [fr|] eqn:Hfr; unfold or_raise; cbn [expect lift ok_or].
  - destruct (store_ok f _ _ _ _ (h_locals _ _ _ _ _ _ _ Hm) Hv Hfr) as [Hl Hb].
    apply (Hnext (with_frame fr m)). apply holds_frame; [done|done|]. rewrite Hb. by destruct Hm.
  - pose proof (acts_raised n message n (λ _ : Frame, False) m Hm) as Hr.
    destruct (raised program message m) as [[x|d] m']; [by destruct Hr|done].
Qed.

Lemma dispatch_store_local_ok slot : i = StoreLocal slot → dispatches (dispatch_store_local program slot).
Proof.
  intros Hj. available Hj. eapply acts_dispatches, acts_bind; [apply acts_pop; lia|]. intros v Hv.
  apply acts_store_next; [done|]. apply acts_through; [by rewrite Hj|settle_count Hj].
Qed.

Lemma dispatch_pop_ok : i = Pop → dispatches (or_raise program pop_or_underflow;; next).
Proof.
  intros Hj. available Hj. eapply acts_dispatches, acts_bind; [apply acts_pop; lia|]. intros v Hv.
  apply acts_through; [by rewrite Hj|settle_count Hj].
Qed.

Lemma stack_last_ok n m v : st n m → last (stack m) = Some v → slot_ok v.
Proof.
  intros Hm Hv. pose proof (h_slots _ _ _ _ _ _ _ Hm) as Hs. rewrite Forall_forall in Hs.
  apply Hs. by apply last_Some_elem_of.
Qed.

Lemma dispatch_dup_ok : i = Dup → dispatches (dispatch_dup f).
Proof.
  intros Hj. available Hj. eapply acts_dispatches, acts_bind; [apply (acts_gets _ _ (Forall slot_ok)); by destruct 1|].
  intros s Hs. eapply acts_bind; [apply (acts_expect_fail _ _ _ _ slot_ok)|].
  - intros v Hv. rewrite Forall_forall in Hs. apply Hs. by apply last_Some_elem_of.
  - intros v Hv. apply acts_push_through; [done|by rewrite Hj|settle_count Hj].
Qed.

(** A pending promise suspends in front of its operand: the machine is left as
    it was. *)
Lemma machine_ok_suspended m w : st top m → machine_ok (with_world w m).
Proof.
  intros Hm. pose proof (st_world _ _ _ _ _ _ _ w Hm) as [<- <- Hl <- <- Hst Hsl Ha Hg].
  exists f, heights, h. by split_and!.
Qed.

Lemma acts_suspend_on_deref protocol name argc :
  acts top (suspend_on_deref protocol name argc) top (λ _, True).
Proof.
  unfold suspend_on_deref. destruct (protocol && _ && _); [|by apply acts_ret].
  intros m Hm. unfold mbind at 1, prog_bind at 1. cbn.
  destruct (last (stack m) ≫= runtime_value) as [[]|]; try done. cbn.
  destruct (promise_state address (world m)) as [st' w] eqn:Hp.
  unfold mbind, prog_bind. rewrite Hp. destruct st'; cbn.
  - by apply machine_ok_suspended.
  - split; [by apply st_world|done].
  - split; [by apply st_world|done].
Qed.

Lemma method_lift {A} n (x : A) (Φ : A → Prop) : Φ x → method n (lift (Ok x)) n Φ.
Proof. by intros Hx m Hm. Qed.

Lemma method_slots_equal n l r :
  method n (slots_equal l r) n slot_ok.
Proof.
  unfold slots_equal. destruct (identical l r); [apply method_ret; constructor|].
  destruct (runtime_value l), (runtime_value r); try apply method_fail.
  eapply method_bind; [apply method_core|]. intros res _. apply method_ret, slot_ok_value.
Qed.

Lemma method_call_intrinsic n protocol name argc :
  argc ≤ n → method n (call_intrinsic program protocol name argc) (n - argc) slot_ok.
Proof.
  intros Hn. unfold call_intrinsic. destruct (bool_decide _ && _) eqn:Heq.
  - apply andb_true_iff in Heq as [_ ->%Nat.eqb_eq].
    eapply method_bind; [apply method_pop_slot; lia|]. intros o (r & -> & Hr).
    eapply method_bind; [by apply (method_lift _ _ slot_ok)|]. intros r' Hr'.
    eapply method_bind; [apply method_pop_slot; lia|]. intros o (l & -> & Hl).
    eapply method_bind; [by apply (method_lift _ _ slot_ok)|]. intros l' Hl'.
    eapply method_weaken; [apply method_slots_equal|lia|done].
  - eapply method_bind; [by apply method_drain|]. intros l [_ Hl].
    eapply method_bind; [by apply method_into_values|]. intros values _. eapply method_bind.
    { apply (method_modify _ _ _ _ _ (n - argc) (n - argc)). intros m []. by split. }
    intros _ _. eapply method_bind; [apply method_core|]. intros res _. apply method_ret, slot_ok_value.
Qed.

Lemma dispatch_intrinsic_ok protocol target argc :
  i = (if protocol : bool then ProtocolCall target argc else IntrinsicCall target argc) →
  dispatches (dispatch_intrinsic program f protocol target argc).
Proof.
  intros Hj. assert (pops i = N.to_nat argc ∧ pushes i = 1 ∧ falls_through i = true) as (Hp & Hq & Hft).
  { rewrite Hj. by destruct protocol. }
  pose proof operands_available as Hav. rewrite Hp in Hav.
  eapply acts_dispatches, acts_bind; [by apply (acts_expect_fail _ _ _ _ (λ _, True))|]. intros name _.
  eapply acts_bind; [apply acts_or_raise, method_require|]. intros _ _.
  eapply acts_bind; [apply acts_suspend_on_deref|]. intros _ _.
  eapply acts_bind; [apply acts_or_raise, (method_call_intrinsic _ _ _ (N.to_nat argc)); lia|].
  intros v Hv. apply acts_push_through; [done|done|]. rewrite Hp, Hq. lia.
Qed.

Lemma dispatch_jump_ok target : i = Jump target → dispatches (mret (DNext (N.to_nat target))).
Proof.
  intros Hj. eapply acts_dispatches, acts_ret. cbn. split; [|settle_count Hj].
  apply elem_of_steps. left. exists target. by rewrite Hj.
Qed.

Lemma dispatch_jump_if_false_ok target :
  i = JumpIfFalse target → dispatches (dispatch_jump_if_false program target).
Proof.
  intros Hj. available Hj. eapply acts_dispatches, acts_bind; [apply acts_pop; lia|]. intros v Hv.
  destruct (truthy v).
  - apply acts_through; [by rewrite Hj|settle_count Hj].
  - apply acts_ret. cbn. split; [|settle_count Hj].
    apply elem_of_steps. left. exists target. by rewrite Hj.
Qed.

(** The instructions that push what the runtime returns. *)
Lemma acts_core_raise n (g : prog W string Value) :
  acts n (or_raise program (core g)) n (λ _, True).
Proof. apply acts_or_raise, method_core. Qed.
Lemma acts_core_fail n g' (g : prog W string Value) :
  acts n (or_fail g' (core g)) n (λ _, True).
Proof. apply acts_or_fail, method_core. Qed.

Lemma dispatch_value_ok c :
  (i = IntrinsicValue c → dispatches (dispatch_intrinsic_value program f c)) ∧
  (i = BuiltinValue c → dispatches (dispatch_builtin_value program f c)) ∧
  (i = NamespaceValue c → dispatches (dispatch_namespace_value program f c)) ∧
  (i = NamespaceOperation c → dispatches (dispatch_namespace_operation program f c)).
Proof.
  split_and!; intros Hj;
    (eapply acts_dispatches, acts_bind; [by apply (acts_expect_fail _ _ _ _ (λ _, True))|]; intros name _).
  - eapply acts_bind; [by apply (acts_gets _ _ (λ _, True))|]. intros w _.
    eapply acts_bind; [by apply (acts_expect_fail _ _ _ _ (λ _, True))|]. intros v _.
    apply acts_push_through; [apply slot_ok_value|by rewrite Hj|settle_count Hj].
  - eapply acts_bind; [apply acts_core_fail|]. intros v _.
    apply acts_push_through; [apply slot_ok_value|by rewrite Hj|settle_count Hj].
  - eapply acts_bind; [apply acts_core_fail|]. intros v _.
    apply acts_push_through; [apply slot_ok_value|by rewrite Hj|settle_count Hj].
  - eapply acts_bind; [apply acts_core_raise|]. intros v _.
    apply acts_push_through; [apply slot_ok_value|by rewrite Hj|settle_count Hj].
Qed.

Lemma dispatch_dynamic_ok c :
  (i = DynamicBind c → dispatches (dispatch_dynamic_bind program f c)) ∧
  (i = DynamicUnbind c → dispatches (dispatch_dynamic_unbind program f c)).
Proof.
  split; intros Hj; available Hj;
    (eapply acts_dispatches, acts_bind; [by apply (acts_expect_fail _ _ _ _ (λ _, True))|]; intros name _).
  - eapply acts_bind; [apply acts_or_fail, method_pop; lia|]. intros v Hv.
    eapply acts_bind; [apply acts_or_raise|].
    + eapply method_bind; [by apply method_into_value|]. intros value _. apply method_core.
    + intros _ _. apply acts_push_through; [constructor|by rewrite Hj|settle_count Hj].
  - eapply acts_bind; [apply acts_or_raise, method_core|]. intros _ _.
    apply acts_push_through; [constructor|by rewrite Hj|settle_count Hj].
Qed.

Lemma dispatch_call_ok argc : i = Call argc → dispatches (dispatch_call program argc).
Proof.
  intros Hj. available Hj. eapply acts_dispatches, acts_bind.
  { apply acts_or_raise, method_collect_call. lia. }
  intros [callee args] (Hc & Ha & _). apply acts_ret. cbn in *. rewrite Hj. cbn. split_and!; first [done|lia].
Qed.

Lemma dispatch_call_static_ok p argc :
  i = CallStatic p argc → dispatches (dispatch_call_static program f p argc).
Proof.
  intros Hj. available Hj. pose proof instruction_operands as Hops. rewrite Hj in Hops.
  destruct Hops as (g & Hg & Harity & Hcaptures). unfold dispatch_call_static.
  unfold function_at at 1. rewrite Hg. destruct (is_direct g) eqn:Hdirect.
  - eapply acts_dispatches, acts_bind; [apply acts_or_raise, method_require|]. intros _ _.
    apply acts_ret. cbn. split_and!; [done|done|]. exists g. split_and!; [done|done|].
    unfold is_direct in Hdirect. apply andb_true_iff in Hdirect as [_ Hv%negb_true_iff].
    unfold arity_accepts in Harity. rewrite Hv in Harity. by apply N.eqb_eq in Harity.
  - eapply acts_dispatches, acts_bind.
    { apply acts_or_raise, method_collect_call_static; [done|lia|]. by exists g. }
    intros [[p' args] captured] (-> & Ha & _ & Hc). apply acts_ret. cbn in *. rewrite Hj. cbn.
    split_and!; first [done|lia|by exists g].
Qed.

Lemma dispatch_throw_ok : i = Throw → dispatches (dispatch_throw program f).
Proof.
  intros Hj. available Hj. apply (acts_dispatches 0). eapply acts_bind; [apply acts_pop; lia|].
  intros v Hv. eapply acts_bind; [by apply acts_or_raise, method_into_value|]. intros value _.
  eapply acts_bind; [by apply (acts_gets _ _ (λ _, True))|]. intros a _.
  destruct value; try apply acts_failed.
  eapply acts_bind; [apply acts_or_raise, method_core_total|]. intros message _. apply acts_raised.
Qed.

Lemma dispatch_rethrow_ok : i = Rethrow → dispatches (dispatch_rethrow program f).
Proof.
  intros Hj. available Hj. apply (acts_dispatches 0). eapply acts_bind; [apply acts_pop; lia|].
  intros v Hv. eapply acts_bind; [by apply (acts_gets _ _ (λ _, True))|]. intros a _.
  destruct (runtime_value v) as [[]|]; try apply acts_raised.
  eapply acts_bind; [apply acts_or_raise, method_core_total|]. intros message _. apply acts_raised.
Qed.

Lemma dispatch_yield_ok : i = Yield → dispatches (dispatch_yield program f).
Proof.
  intros Hj. available Hj. eapply acts_dispatches, acts_bind.
  { apply acts_or_fail, method_pop. lia. }
  intros v Hv. eapply acts_bind; [by apply acts_or_raise, method_into_value|]. intros value _.
  apply acts_ret. cbn. split; [done|lia].
Qed.

Lemma dispatch_return_ok : i = Return → dispatches (dispatch_return f).
Proof.
  intros Hj. available Hj. eapply acts_dispatches, acts_bind.
  { apply acts_or_fail, method_pop. lia. }
  intros v Hv. apply acts_ret. cbn. split; [done|].
  pose proof (ws_terminal _ _ _ (sf_heights _ _ Hsound) at_ i h Hi Hh) as Ht. rewrite Hj in Ht.
  cbn in Ht. subst. lia.
Qed.

Lemma dispatch_await_ok : i = Await → dispatches (dispatch_await program f).
Proof.
  intros Hj. available Hj. assert (acts top (dispatch_await program f) top (settles top)) as Hacts;
    [|by apply (acts_dispatches top)].
  intros m Hm. unfold dispatch_await, mbind at 1, prog_bind at 1. cbn [gets].
  destruct (last (stack m)) as [v|] eqn:Hlast; [|done].
  unfold mbind at 1, prog_bind at 1, or_fail at 1. cbn [expect lift ok_or].
  destruct (runtime_value v) as [[]|]; try by apply (acts_raised top).
  unfold mbind at 1, prog_bind at 1, or_raise at 1, core_total at 1.
  destruct (promise_state address (world m)) as [state w].
  assert (st top (with_world w m)) as Hw by by apply st_world.
  destruct state as [|value|error].
  - by apply machine_ok_suspended.
  - revert Hw. generalize (with_world w m). change (acts top
      (or_raise program pop_slot;; modify (push (slot_of_value value));; next) top (settles top)).
    eapply acts_bind; [apply acts_or_raise, method_pop_slot; lia|]. intros _ _.
    replace top with (S (top - 1)) at 2 3 by lia.
    apply acts_push_through; [apply slot_ok_value|by rewrite Hj|settle_count Hj].
  - revert Hw. generalize (with_world w m). change (acts top
      (or_raise program pop_slot;;
       message ← gets (λ m, error_message error (world m)); raised program message) top (settles top)).
    eapply acts_bind; [apply acts_or_raise, method_pop_slot; lia|]. intros _ _.
    eapply acts_bind; [by apply (acts_gets _ _ (λ _, True))|]. intros message _. apply acts_raised.
Qed.

Lemma dispatch_host_call_ok : i = HostCall → dispatches (dispatch_host_call program f).
Proof.
  intros Hj. available Hj. eapply acts_dispatches, acts_bind; [apply acts_or_fail, method_require|].
  intros _ _. eapply acts_bind; [apply acts_or_raise, method_drain; lia|]. intros l [Hlen _].
  eapply acts_bind; [apply (acts_expect_fail _ _ _ _ (λ vs, length vs = 3))|].
  { intros vs Hvs. apply mapM_Some in Hvs. apply Forall2_length in Hvs. congruence. }
  intros vs Hvs. destruct vs as [|x [|y [|z [|]]]]; try done.
  eapply acts_bind; [apply acts_core_raise|]. intros v _.
  apply acts_push_through; [apply slot_ok_value|by rewrite Hj|settle_count Hj].
Qed.

Lemma method_values_length n l :
  Forall slot_ok l → method n (mapM (into_value program) l) n (λ vs, length vs = length l).
Proof.
  induction 1 as [|v l Hv _ IH]; cbn [mapM]; [by apply method_ret|].
  eapply method_bind; [by apply method_into_value|]. intros x _.
  eapply method_bind; [exact IH|]. intros xs Hxs. apply method_ret. cbn. by rewrite Hxs.
Qed.

Lemma dispatch_dot_call_ok name argc :
  i = DotCall name argc → dispatches (dispatch_dot_call program f name argc).
Proof.
  intros Hj. available Hj. eapply acts_dispatches, acts_bind; [apply acts_or_fail, method_require|].
  intros _ _. eapply acts_bind; [by apply (acts_expect_fail _ _ _ _ (λ _, True))|]. intros s _.
  eapply acts_bind; [apply acts_or_raise, method_drain; lia|]. intros l [Hlen Hl].
  eapply acts_bind; [by apply acts_or_raise, method_values_length|].
  intros [|receiver arguments] Hvs; [cbn in Hvs; lia|].
  eapply acts_bind; [apply acts_core_raise|]. intros v _.
  apply acts_push_through; [apply slot_ok_value|by rewrite Hj|settle_count Hj].
Qed.

(** [saturating_mul] is never reached: the analysed heights are small. *)
Lemma saturating_double_pops pairs :
  i = BuildMap pairs → saturating_double pairs = (2 * pairs)%N.
Proof.
  intros Hj. available Hj. pose proof (ws_bound _ _ _ (sf_heights _ _ Hsound)) as Hb.
  rewrite Forall_lookup in Hb. specialize (Hb _ _ Hh). unfold MAX_OPERAND_STACK in Hb.
  unfold saturating_double, U16_MAX. lia.
Qed.

(** The instructions [dispatch] guards. *)
Definition guarded_method (j : Instruction) : option (prog M failure ()) :=
  match j with
  | Closure p captured => Some (exec_closure program p captured)
  | GetGlobal c => Some (exec_get_global program c)
  | DefGlobal name metadata => Some (exec_def_global program name metadata)
  | SetGlobal c => Some (exec_set_global program c)
  | VarGlobal c => Some (exec_var_global program c)
  | DeclareGlobal c => Some (exec_declare_global program c)
  | MutableFieldGet c => Some (exec_mutable_field_get program c)
  | MutableFieldSet c => Some (exec_mutable_field_set program c)
  | InstanceOf => Some (exec_instance_of program)
  | MakeMultiArity name count => Some (exec_make_multi_arity program name count)
  | BuildVector count => Some (exec_build_collection program count false false)
  | BuildMap pairs => Some (exec_build_collection program (saturating_double pairs) true false)
  | BuildSet count => Some (exec_build_collection program count false true)
  | BuildList count => Some (exec_build_list program count false)
  | ConcatList count => Some (exec_build_list program count true)
  | ToVector => Some (exec_to_vector program)
  | DefMacro name metadata => Some (exec_def_macro program name metadata)
  | _ => None
  end.

Lemma guarded_method_ok o :
  guarded_method i = Some o →
  method top o (b + (N.to_nat h - pops i) + pushes i) (λ _, True).
Proof.
  pose proof operands_available as Hav. pose proof instruction_operands as Hops.
  pose proof saturating_double_pops as Hsat.
  revert Hav Hops Hsat. generalize i. intros j Hav Hops Hsat Ho.
  destruct j; try done; injection Ho as <-; cbn in Hav, Hops |- *;
    try rewrite (Hsat _ eq_refl);
    (eapply method_weaken; [first
      [ apply method_closure; [lia|destruct Hops as (g & Hg & _); by exists g]
      | apply method_get_global | apply method_var_global | apply method_declare_global
      | apply method_def_global; [lia|apply Hops] | apply method_def_macro; [lia|apply Hops]
      | apply method_set_global; lia | apply method_field_get; lia | apply method_field_set; lia
      | apply method_instance_of; lia | apply method_multi_arity; lia
      | apply method_build_collection; lia | apply method_build_list; lia
      | apply method_to_vector; lia ] | lia | done]).
Qed.

Lemma guarded_ok o : guarded_method i = Some o → dispatches (guarded program o).
Proof.
  intros Ho. eapply acts_dispatches, acts_guarded; [|reflexivity|by apply guarded_method_ok].
  revert Ho. generalize i. by intros [].
Qed.

Lemma dispatch_action_ok : dispatches (dispatch_action program f i).
Proof.
  assert (∀ j, i = j → dispatches (dispatch_action program f j)) as Hall; [|by apply Hall].
  intros j Hj. destruct j; cbn [dispatch_action];
    first
      [ by apply dispatch_constant_ok | by apply dispatch_literal_ok; auto
      | by apply dispatch_load_local_ok | by apply dispatch_store_local_ok
      | by apply dispatch_pop_ok | by apply dispatch_dup_ok
      | by apply (dispatch_intrinsic_ok false) | by apply (dispatch_intrinsic_ok true)
      | by apply dispatch_jump_ok | by apply dispatch_jump_if_false_ok
      | by apply dispatch_value_ok | by apply dispatch_dynamic_ok
      | by apply dispatch_call_ok | by apply dispatch_call_static_ok
      | by apply dispatch_throw_ok | by apply dispatch_rethrow_ok
      | by apply dispatch_await_ok | by apply dispatch_yield_ok
      | by apply dispatch_host_call_ok | by apply dispatch_dot_call_ok
      | by apply dispatch_return_ok
      | by apply guarded_ok; rewrite Hj ].
Qed.
End dispatching.

(** ** Calls and returns *)
Section calling.
Variables (f : FunctionPrototype) (heights : list N) (b at_ : nat)
  (callers : list SavedFrame) (fn : nat) (i : Instruction) (h : N).
Hypothesis Hprogram : sound_program.
Hypothesis Hfn : at_function fn = Some f.
Hypothesis Hsound : sound_function f heights.
Hypothesis Hframes : frames_ok b callers.
Hypothesis Hi : code f !! at_ = Some i.
Hypothesis Hh : heights !! at_ = Some h.
Hypothesis Hcall : is_call i = true.
Local Abbreviation st := (holds f b at_ callers fn).
Local Abbreviation method := (method f b at_ callers fn).
Local Abbreviation taken := (b + N.to_nat h - pops i).

(** [o] enters a callee or completes the call, or fails with a message. *)
Definition enters (n : nat) (o : prog M failure ()) : Prop :=
  ∀ m, st n m →
    match o m with
    | (Ok _, m') => machine_ok m'
    | (Err (Failed _), m') => ∃ k, st k m'
    | (Err (Panicked _), _) => False
    end.

Lemma enters_bind {A} n n' (o : prog M failure A) k Φ :
  method n o n' Φ → (∀ x, Φ x → enters n' (k x)) → enters n (o ≫= k).
Proof.
  intros Ho Hk m Hm. specialize (Ho m Hm). unfold mbind, prog_bind.
  destruct (o m) as [[x|[s|s]] m']; [|done..]. destruct Ho as [Hm' Hx]. by apply Hk.
Qed.

Lemma call_available : pops i ≤ N.to_nat h.
Proof. by eapply sf_covered. Qed.

(** The callee's first instruction runs at height zero above the caller's
    remaining operands. *)
Lemma entered_ok p g fr m :
  at_function p = Some g → st taken m → locals_ok g (locals fr) → base fr = taken →
  machine_ok (mkMachine p fr (stack m) (scratch m)
    (mkSavedFrame (function m) (frame m) (ip m) :: calls m) (free_locals m) (free_args m)
    (vm_globals m) (next_closure_identity m) 0 (world m)).
Proof.
  intros Hg [Hf' Hb' Hl Hc Hip Hlen Hsl Ha Hgl] Hlg Hbase.
  destruct (proj1 Hprogram p g Hg) as [hs Hs]. exists g, hs, 0%N. cbn.
  split_and!; [done|done|by apply (ws_entry _ _ _ (sf_heights _ _ Hs))| |].
  - rewrite Hbase, Hc, Hf', Hip, <-Hb'.
    eapply (frames_cons (mkSavedFrame fn (frame m) at_)); cbn; try done. by rewrite Hb'.
  - split; try done. cbn. rewrite Hlen, Hbase. cbn. lia.
Qed.

Lemma method_take_locals n : method n take_locals n (λ _, True).
Proof.
  intros m Hm. unfold take_locals. destruct (free_locals m); [done|].
  split; [|done]. destruct Hm. by split.
Qed.

Lemma method_give_args n : method n (give_args []) n (λ _, True).
Proof. intros m []. split; [|done]. split; try done. cbn. by constructor. Qed.

Lemma method_pack_rest n g args :
  Forall slot_ok args → method n (pack_rest program g args) n (λ r, Forall slot_ok r.1).
Proof.
  intros Ha. unfold pack_rest. destruct (variadic g); [|by apply method_ret].
  eapply method_bind; [by apply method_into_values, Forall_drop|]. intros l _.
  apply method_ret. cbn. apply Forall_app. split; [by apply Forall_take|].
  constructor; [constructor|constructor].
Qed.

Lemma recycle_ok buffer n : Forall slot_ok (recycle buffer n).
Proof. unfold recycle. cbn. apply Forall_replicate. constructor. Qed.

Lemma fill_ok l start values :
  Forall slot_ok l → Forall slot_ok values → Forall slot_ok (fill l start values).
Proof.
  intros Hl Hv. revert l start Hl. induction Hv as [|v values Hv _ IH]; intros l start Hl; cbn; [done|].
  apply IH. by apply Forall_insert.
Qed.

Lemma call_reusing_ok g buffer a args captured base' :
  Forall slot_ok args → Forall slot_ok captured →
  locals_ok g (locals (call_reusing buffer (N.to_nat (local_count g)) a args captured base').1).
Proof.
  intros Ha Hc. cbn. split; [by rewrite !length_fill, length_recycle|].
  apply fill_ok; [|done]. apply fill_ok; [apply recycle_ok|done].
Qed.

Lemma enters_prototype p args captured :
  is_Some (at_function (N.to_nat p)) → Forall slot_ok args → Forall slot_ok captured →
  enters taken (enter_prototype program p args captured).
Proof.
  intros [g Hg] Ha Hc. unfold enter_prototype.
  eapply enters_bind; [apply (method_index _ _ _ _ _ _ _ (λ g', g' = g)); by eauto|]. intros ? ->.
  eapply enters_bind; [by apply method_pack_rest|]. intros packed Hp.
  eapply enters_bind; [apply method_take_locals|]. intros buffer _.
  eapply enters_bind; [apply (method_gets _ _ _ _ _ _ _ (λ n, n = taken)); by destruct 1|].
  intros n ->. cbn beta zeta. eapply enters_bind; [apply method_give_args|]. intros _ _.
  intros m Hm. cbn. eapply entered_ok; [done|done|by apply call_reusing_ok|done].
Qed.

Lemma enters_static_direct p argc g :
  i = CallStatic p argc → at_function (N.to_nat p) = Some g → is_direct g = true → arity g = argc →
  enters (b + N.to_nat h) (enter_static_direct program p argc).
Proof.
  intros Hj Hg Hdirect Harity. pose proof call_available as Hav. rewrite Hj in Hav. cbn in Hav.
  unfold enter_static_direct.
  eapply enters_bind; [apply (method_index _ _ _ _ _ _ _ (λ g', g' = g)); by eauto|]. intros ? ->.
  eapply enters_bind; [apply method_take_locals|]. intros buffer _.
  intros m Hm. unfold mbind, prog_bind. cbn [gets].
  pose proof (h_stack _ _ _ _ _ _ _ Hm) as Hlen.
  destruct (proj1 Hprogram _ _ Hg) as [hs Hs]. pose proof (sf_fits _ _ Hs) as Hfit.
  unfold fits in Hfit. rewrite call_static_reusing_equiv by lia.
  rewrite decide_True by lia. cbn [index lift ok_or fst snd]. unfold modify.
  pose proof (h_slots _ _ _ _ _ _ _ Hm) as Hsl.
  assert (st taken (truncate taken m)) as Ht by (apply st_take with (b + N.to_nat h); [done|lia]).
  unfold push_frame, modify. replace (length (stack m) - N.to_nat argc) with taken
    by (rewrite Hlen, Hj; cbn; lia).
  eapply (entered_ok _ g _ (truncate taken m)); [done|done| |].
  - apply call_reusing_ok; [by apply Forall_drop|constructor].
  - cbn. rewrite length_take. lia.
Qed.

(** A completed call continues behind its instruction with one result. *)
Lemma enters_complete n v :
  slot_ok v → n = taken →
  enters n (modify (push v);; modify (λ m, with_ip (S (ip m)) m)).
Proof.
  intros Hv -> m Hm. change (machine_ok (with_ip (S (ip m)) (push v m))).
  assert (st (S taken) (push v m)) as Hp by by apply st_push.
  pose proof call_available. rewrite (h_ip _ _ _ _ _ _ _ Hm).
  eapply machine_ok_step with (i := i); try done.
  - apply elem_of_steps. right. split; [|done]. by destruct i.
  - replace (b + (N.to_nat h - pops i) + pushes i) with (S taken); [done|].
    assert (pushes i = 1) as -> by by destruct i. lia.
Qed.

Lemma method_call_slots n p args captured :
  is_Some (at_function (N.to_nat p)) → Forall slot_ok args →
  method n (call_slots program p args captured) n (λ _, True).
Proof.
  intros [g Hg] Ha. unfold call_slots.
  eapply method_bind; [apply (method_index _ _ _ _ _ _ _ (λ _, True)); by eauto|]. intros g' _.
  eapply method_bind; [by apply method_pack_rest|]. intros packed _.
  eapply method_bind; [by apply (method_gets _ _ _ _ _ _ _ (λ _, True))|]. intros w _.
  by apply method_ret.
Qed.

Lemma enters_or_spawn p args captured :
  is_Some (at_function (N.to_nat p)) → Forall slot_ok args → Forall slot_ok captured →
  enters taken (enter_or_spawn program p args captured).
Proof.
  intros Hp Ha Hc. unfold enter_or_spawn.
  eapply enters_bind; [apply (method_index _ _ _ _ _ _ _ (λ _, True)); destruct Hp; by eauto|].
  intros g _. destruct (async_function g); [|by apply enters_prototype].
  eapply enters_bind; [by apply method_call_slots|]. intros child _.
  eapply enters_bind; [by apply (method_gets _ _ _ _ _ _ _ (λ _, True))|]. intros globals _.
  eapply enters_bind; [by apply (method_gets _ _ _ _ _ _ _ (λ _, True))|]. intros identity _.
  eapply enters_bind; [apply method_core_total|]. intros promise _.
  apply enters_complete; [apply slot_ok_value|done].
Qed.

Lemma known_callee_ok n m v : st n m → slot_ok v → slot_ok (known_callee v m).
Proof.
  intros Hm Hv. unfold known_callee. destruct v; try done.
  destruct (callable_key value ≫= _) as [s|] eqn:Hk; [|constructor]. cbn.
  apply bind_Some in Hk as (key & _ & Hs). by apply (h_globals _ _ _ _ _ _ _ Hm) in Hs.
Qed.

Lemma method_find_clause n argc l :
  Forall closure_ok l →
  method n (find_clause program argc l) n (λ o, ∀ c, o = Some c → closure_ok c).
Proof.
  induction 1 as [|c l Hc _ IH]; cbn [find_clause]; [by apply method_ret|].
  eapply method_bind.
  - apply (method_index _ _ _ _ _ _ _ (λ _, True)). destruct Hc as [p vs [g Hg] _].
    unfold matching_clause. cbn. rewrite Hg. cbn. eauto.
  - intros [] _; [|done]. apply method_ret. by intros ? [= <-].
Qed.

Lemma enters_callable callee args :
  slot_ok callee → Forall slot_ok args → enters taken (enter_callable program callee args).
Proof.
  intros Hcallee Ha. unfold enter_callable.
  eapply enters_bind; [apply (method_gets _ _ _ _ _ _ _ slot_ok)|].
  { intros m Hm. by eapply known_callee_ok. }
  intros v Hv. assert (∀ p argc, is_Some (at_function (N.to_nat p)) →
    method taken (check_arity program p argc) taken (λ _, True)) as Harity.
  { intros p argc [g Hg]. eapply method_bind;
      [apply (method_index _ _ _ _ _ _ _ (λ _, True)); by eauto|]. intros g' _.
    destruct (accepts_argc g' argc); [by apply (method_ret _ _ _ _ _ _ _ (λ _, True))|apply method_fail]. }
  assert (∀ v', slot_ok v' → enters taken (callee ← into_value program v';
      runtime_args ← mapM (into_value program) args;
      give_args [];;
      current ← gets function;
      f ← index (at_function current);
      at_ ← gets ip;
      value ← core (call_value (site_of program f at_) callee runtime_args);
      push_value value;;
      modify (λ m, with_ip (S (ip m)) m))) as Hforeign.
  { intros v' Hv'. eapply enters_bind; [by apply method_into_value|]. intros callee' _.
    eapply enters_bind; [by apply method_into_values|]. intros values _.
    eapply enters_bind; [apply method_give_args|]. intros _ _.
    eapply enters_bind; [apply (method_gets _ _ _ _ _ _ _ (λ n, n = fn)); by destruct 1|]. intros ? ->.
    eapply enters_bind; [apply (method_index _ _ _ _ _ _ _ (λ _, True)); by eauto|]. intros g _.
    eapply enters_bind; [by apply (method_gets _ _ _ _ _ _ _ (λ _, True))|]. intros a _.
    eapply enters_bind; [apply method_core|]. intros value _.
    apply enters_complete; [apply slot_ok_value|done]. }
  destruct Hv as [z|x| |v|p identity Hp|a c Hc|a name l Hl]; try (apply Hforeign; constructor).
  - eapply enters_bind; [by apply Harity|]. intros _ _. by apply enters_or_spawn.
  - destruct Hc as [p vs Hp Hvs]. eapply enters_bind; [by apply Harity|]. intros _ _.
    by apply enters_or_spawn.
  - eapply enters_bind; [by apply method_find_clause|]. intros o Ho.
    eapply enters_bind; [apply (method_expect _ _ _ _ _ _ _ _ closure_ok); exact Ho|].
    intros c [p vs Hp Hvs]. by apply enters_or_spawn.
Qed.
End calling.

(** ** Steps and runs *)
Section running.
Hypothesis Hprogram : sound_program.

(** A machine stopped at [Yield] with its operand taken. *)
Definition yielded m : Prop :=
  ∃ f heights h,
    at_function (function m) = Some f ∧ sound_function f heights ∧
    code f !! ip m = Some Yield ∧ heights !! ip m = Some h ∧
    frames_ok (base (frame m)) (calls m) ∧
    ∃ n, S n = base (frame m) + N.to_nat h ∧
         holds f (base (frame m)) (ip m) (calls m) (function m) n m.

(** What a finished run leaves: a suspended machine can be resumed. *)
Definition outcome_ok (o : VmOutcome) m : Prop :=
  match o with
  | OPanics _ => False
  | OSuspended _ => machine_ok m
  | OYielded _ => yielded m
  | OReturned _ | OFailed _ => True
  end.

Definition stepped (r : option VmOutcome * M) : Prop :=
  match r with
  | (None, m) => machine_ok m
  | (Some o, m) => outcome_ok o m
  end.

Lemma fetch m f heights h :
  sound_function f heights → heights !! ip m = Some h → is_Some (code f !! ip m).
Proof.
  intros Hs Hh. apply lookup_lt_is_Some. rewrite <-(ws_length _ _ _ (sf_heights _ _ Hs)).
  by eapply lookup_lt_Some.
Qed.

Lemma raised_stepped f heights b at_ callers fn n m message :
  at_function fn = Some f → sound_function f heights → frames_ok b callers →
  holds f b at_ callers fn n m →
  stepped (match raise program message m with
           | (Ok target, m) => (None, with_ip target m)
           | (Err h, m) => (Some (outcome_of h), m)
           end).
Proof.
  intros Hf Hs Hc Hm. pose proof (raise_ok_intro _ _ _ _ _ _ _ _ message Hf Hs Hc Hm) as Hr.
  by destruct (raise program message m) as [[t|[e|s]] m'].
Qed.

Lemma finish_call_ok f heights b at_ callers fn n m o :
  at_function fn = Some f → sound_function f heights → frames_ok b callers →
  holds f b at_ callers fn n m → enters f b at_ callers fn n o →
  stepped (finish_call program o m).
Proof.
  intros Hf Hs Hc Hm Ho. specialize (Ho m Hm). unfold finish_call.
  destruct (o m) as [[[]|[s|s]] m']; [done| |done].
  destruct Ho as [k Hk]. by eapply raised_stepped.
Qed.

(** The methods without an error result fail only by a panic. *)
Definition infallible {A} (o : prog M failure A) : Prop :=
  ∀ m s m', o m ≠ (Err (Failed s), m').

Lemma infallible_ret {A} (x : A) : infallible (mret x).
Proof. by intros m s m' [=]. Qed.
Lemma infallible_bind {A B} (o : prog M failure A) (k : A → prog M failure B) :
  infallible o → (∀ x, infallible (k x)) → infallible (o ≫= k).
Proof.
  intros Ho Hk m s m'. unfold mbind, prog_bind. specialize (Ho m).
  destruct (o m) as [[x|e] m0]; [apply Hk|]. intros [= -> <-]. by destruct (Ho s m0).
Qed.
Lemma infallible_index {A} (o : option A) : infallible (index o).
Proof. by intros m s m'; destruct o. Qed.
Lemma infallible_gets {A} (g : M → A) : infallible (gets g).
Proof. by intros m s m' [=]. Qed.
Lemma infallible_modify (g : M → M) : infallible (modify g).
Proof. by intros m s m' [=]. Qed.
Lemma infallible_core_total {A} (g : W → A * W) : infallible (core_total g).
Proof. intros m s m'. unfold core_total. by destruct (g (world m)). Qed.
Lemma infallible_mapM {A B} (g : A → prog M failure B) l :
  (∀ x, infallible (g x)) → infallible (mapM g l).
Proof.
  intros Hg. induction l as [|x l IH]; cbn [mapM]; [apply infallible_ret|].
  apply infallible_bind; [done|]. intros y. apply infallible_bind; [done|].
  intros ys. apply infallible_ret.
Qed.
Lemma infallible_take_locals : infallible take_locals.
Proof. intros m s m'. unfold take_locals. by destruct (free_locals m). Qed.

Create HintDb infallible.
Local Hint Resolve infallible_ret infallible_bind infallible_index infallible_gets
  infallible_modify infallible_core_total infallible_mapM infallible_take_locals : infallible.

Lemma infallible_into_value v : infallible (into_value program v).
Proof. destruct v; cbn [into_value]; auto 10 with infallible. Qed.
Local Hint Resolve infallible_into_value : infallible.

Lemma infallible_pack_rest g args : infallible (pack_rest program g args).
Proof. unfold pack_rest. destruct (variadic g); auto with infallible. Qed.
Local Hint Resolve infallible_pack_rest : infallible.

Lemma infallible_enter_or_spawn p args captured : infallible (enter_or_spawn program p args captured).
Proof.
  unfold enter_or_spawn, call_slots, enter_prototype, give_args, push_frame, push_value.
  apply infallible_bind; [auto with infallible|]. intros g. destruct (async_function g);
    repeat first [apply infallible_bind; [auto 20 with infallible|intros ?]|auto 20 with infallible].
Qed.

Lemma infallible_enter_static p argc : infallible (enter_static_direct program p argc).
Proof.
  unfold enter_static_direct, push_frame.
  repeat first [apply infallible_bind; [auto 20 with infallible|intros ?]|auto 20 with infallible].
Qed.

Lemma finish_static_ok f b at_ callers fn n m o :
  holds f b at_ callers fn n m → enters f b at_ callers fn n o → infallible o →
  stepped (finish_static o m).
Proof.
  intros Hm Ho Hinf. specialize (Ho m Hm). specialize (Hinf m). unfold finish_static.
  destruct (o m) as [[[]|[s|s]] m']; [done| |done]. by destruct (Hinf s m').
Qed.

Lemma finish_return_ok f b at_ callers fn m v :
  frames_ok b callers → holds f b at_ callers fn b m → slot_ok v →
  stepped (finish_return program v m).
Proof.
  intros Hc Hm Hv. unfold finish_return. rewrite (h_calls _ _ _ _ _ _ _ Hm). destruct Hc as
    [b|caller rest g heights i h Hg Hs Hl Hi Hcall Hh Hc].
  - rewrite (h_base _ _ _ _ _ _ _ Hm). assert (holds f b at_ [] fn b (truncate b m)) as Ht.
    { by apply st_take with b. }
    pose proof (method_into_value f b at_ [] fn b v Hv _ Ht) as Hiv.
    pose proof (infallible_into_value v (truncate b m)) as Hinf.
    destruct (into_value program v (truncate b m)) as [[x|[s|s]] m']; [done| |done].
    by destruct (Hinf s m').
  - cbn [stepped]. set (b' := base (saved_frame caller) + N.to_nat h - pops i) in *.
    pose proof (holds_pop_frame _ _ _ _ _ _ _ g caller rest (S (call_ip caller)) Hm Hl) as Hp.
    rewrite Nat.min_id in Hp. apply (st_push _ _ _ _ _ _ _ v) in Hp; [|done].
    pose proof (sf_covered _ _ Hs _ _ _ Hi Hh) as Hcov.
    assert (pushes i = 1 ∧ falls_through i = true) as [Hpush Hfall] by by destruct i.
    change (machine_ok (with_ip (S (call_ip caller))
      (push v (pop_frame caller rest (S (call_ip caller)) m)))).
    eapply (machine_ok_step g heights _ (call_ip caller) _ rest (saved_function caller) i h); try done.
    + apply elem_of_steps. auto.
    + replace (base (saved_frame caller) + (N.to_nat h - pops i) + pushes i) with (S b') by lia. done.
Qed.

(** One iteration of the loop keeps the invariant and never panics. *)
Lemma step_ok m : machine_ok m → stepped (step program m).
Proof.
  intros (f & heights & h & Hf & Hs & Hh & Hc & Hm). unfold step. rewrite Hf.
  destruct (fetch m f heights h Hs Hh) as [i Hi]. rewrite Hi.
  pose proof (dispatch_action_ok f heights _ _ _ _ i h Hf Hs Hc Hi Hh m Hm) as Hd.
  unfold dispatch. destruct (dispatch_action program f i m) as [[d|d] m'].
  - destruct Hd as (n & Hm' & Hd). destruct d; cbn in Hd; try done.
    + destruct Hd as [Ht ->]. by eapply machine_ok_step.
    + destruct Hd as (Hcall & -> & Hv & Ha). eapply finish_call_ok; try done.
      by eapply enters_callable.
    + destruct Hd as (Hcall & -> & Hp & Ha & Hcap). eapply finish_static_ok; [done| |].
      * by eapply enters_or_spawn.
      * apply infallible_enter_or_spawn.
    + destruct Hd as (Hj & -> & g & Hg & Hdir & Har). eapply finish_static_ok; [done| |].
      * eapply enters_static_direct; try done. by rewrite Hj.
      * apply infallible_enter_static.
    + destruct Hd as [Hv ->]. by eapply finish_return_ok.
    + destruct Hd as [Hj Hn]. cbn. exists f, heights, h.
      pose proof Hm' as [H1 H2 H3 H4 H5 _ _ _ _]. rewrite H1, H5, H4, H2, <-Hj.
      split_and!; try done. exists n. by split.
  - destruct d; cbn in Hd; done.
Qed.

Lemma run_ok fuel m o m' :
  machine_ok m → run program fuel m = Some (o, m') → outcome_ok o m'.
Proof.
  revert m. induction fuel as [|fuel IH]; intros m Hm; cbn [run]; [done|].
  pose proof (step_ok m Hm) as Hstep. destruct (step program m) as [[o'|] m0].
  - by intros [= <- <-].
  - by apply IH.
Qed.

Lemma machine_entry_ok w : ∃ m, machine_entry program w = Some m ∧ machine_ok m.
Proof.
  destruct (proj2 Hprogram) as [f Hf]. destruct (proj1 Hprogram _ _ Hf) as [heights Hs].
  unfold machine_entry. rewrite Hf. eexists. split; [done|]. exists f, heights, 0%N. cbn.
  split_and!; [done|done|exact (ws_entry _ _ _ (sf_heights _ _ Hs))|constructor|].
  split; cbn; try done; try by constructor.
  split; [by rewrite length_replicate|]. apply Forall_replicate. constructor.
Qed.

(** Resuming a suspended machine is safe whatever the promise settled to. *)
Lemma settle_ok state m : machine_ok m →
  match settle program state m with
  | (Resumed, m') => machine_ok m'
  | (Stopped o, m') => outcome_ok o m'
  end.
Proof.
  intros (f & heights & h & Hf & Hs & Hh & Hc & Hm). unfold settle. rewrite Hf.
  destruct (negb _ && negb _) eqn:Hat; [done|].
  assert (∃ i, code f !! ip m = Some i ∧ pops i = 1 ∧ pushes i = 1 ∧ falls_through i = true)
    as (i & Hi & Hpops & Hpush & Hfall).
  { apply andb_false_iff in Hat as [Hat|Hat]; apply negb_false_iff in Hat.
    - unfold suspended_at_deref in Hat. destruct (code f !! ip m) as [[]|]; try done.
      eexists. split; [done|]. apply andb_true_iff in Hat as [->%N.eqb_eq _]. done.
    - unfold suspended_at_await in Hat. apply bool_decide_eq_true in Hat. eauto. }
  pose proof (sf_covered _ _ Hs _ _ _ Hi Hh) as Hcov. rewrite Hpops in Hcov.
  pose proof (h_stack _ _ _ _ _ _ _ Hm) as Hlen.
  assert (holds f (base (frame m)) (ip m) (calls m) (function m) (base (frame m) + N.to_nat h - 1)
    (truncate (pred (length (stack m))) m)) as Ht.
  { rewrite Hlen. replace (pred (base (frame m) + N.to_nat h)) with (base (frame m) + N.to_nat h - 1) by lia.
    eapply st_take; [done|lia]. }
  destruct state as [|value|error].
  - destruct (last (stack m) ≫= runtime_value) as [[]|]; try done.
    exists f, heights, h. by split_and!.
  - apply (st_push _ _ _ _ _ _ _ (slot_of_value value)) in Ht; [|apply slot_ok_value].
    cbn [ip truncate with_stack]. eapply (machine_ok_step f heights _ (ip m)); try done.
    + apply elem_of_steps. auto.
    + replace (base (frame m) + (N.to_nat h - pops i) + pushes i)
        with (S (base (frame m) + N.to_nat h - 1)) by lia. done.
  - set (mt := truncate _ m) in *.
    destruct (if suspended_at_deref program f m then _ else _) as [message w].
    apply (st_world _ _ _ _ _ _ _ w) in Ht.
    pose proof (raise_ok_intro _ _ _ _ _ _ _ _ message Hf Hs Hc Ht) as Hr.
    by destruct (raise program message (with_world w mt)) as [[t|[e|s]] m'].
Qed.

Lemma resume_ok fuel state m o m' :
  machine_ok m → resume program fuel state m = Some (o, m') → outcome_ok o m'.
Proof.
  intros Hm. unfold resume. pose proof (settle_ok state m Hm) as Hs.
  destruct (settle program state m) as [[|o0] m0]; [by apply run_ok|by intros [= <- <-]].
Qed.

Lemma resume_yield_ok fuel value m o m' :
  yielded m → resume_yield program fuel value m = Some (o, m') → outcome_ok o m'.
Proof.
  intros (f & heights & h & Hf & Hs & Hi & Hh & Hc & n & Hn & Hm). unfold resume_yield.
  rewrite Hf, bool_decide_eq_true_2 by done. apply run_ok.
  apply (st_push _ _ _ _ _ _ _ (slot_of_value value)) in Hm; [|apply slot_ok_value].
  pose proof (sf_covered _ _ Hs _ _ _ Hi Hh) as Hcov. cbn in Hcov.
  eapply (machine_ok_step f heights _ (ip m) _ _ _ Yield); try done.
  - apply elem_of_steps. auto.
  - cbn. replace (base (frame m) + (N.to_nat h - 1) + 1) with (S n) by lia. done.
Qed.
End running.
End invariant.
