(* ===== verification/Runs.v ===== *)
(** * Runs of validated programs

    The claims about the machine of [Machine]: a validated program whose
    operands stay in their frames never panics, whatever the runtime answers
    and however often the machine is suspended and resumed; unwinding lands in
    the innermost handler that takes the error; both call paths build the same
    frame. The last part shows what [validate] alone does not exclude. The
    invariant and its preservation are in [Safety]. *)
From S2P Require Import Prelude Bytes Opcode Kernel Task Program Validate Frame Machine Safety.

(** ** A small runtime

    An instance of the runtime interface over a counter of allocations, for the
    concrete runs of this file. *)
#[local] Instance toy_forms : ValueForms := λ _, Err "no form".

Definition toy_intrinsic (name : string) (args : list Value) : prog N string Value := λ w,
  match args with
  | [VNumber a; VNumber b] =>
      (if decide (name = "+") then Ok (VNumber (a + b))
       else if decide (name = "=") then Ok (VBool (a =? b)%Z)
       else Err "unknown intrinsic", w)
  | _ => (Err "unknown intrinsic", w)
  end.

Definition unavailable {A} : prog N string A := fail "not available".

#[local] Instance toy : Runtime N := {
  apply_intrinsic_name := toy_intrinsic;
  protocol_intrinsic_call := toy_intrinsic;
  resolve_foundation _ _ := None;
  direct_function_value _ _ := None;
  bytecode_callable_value _ := unavailable;
  vm_resolve_namespace_value _ := unavailable;
  eval_bytecode_management _ := unavailable;
  bytecode_dynamic_bind _ _ := unavailable;
  bytecode_dynamic_unbind _ := unavailable;
  vm_resolve_global _ := unavailable;
  deref_value _ _ := VNil;
  vm_def_global _ _ _ := unavailable;
  vm_def_macro _ _ _ := unavailable;
  registry_resolve _ := unavailable;
  binding_is_local _ _ := false;
  reset_value _ _ w := w;
  vm_declare_global _ := unavailable;
  mutable_field_value _ _ := unavailable;
  mutable_field_set _ _ _ := unavailable;
  named_instance_of _ _ := unavailable;
  vm_build_map _ := unavailable;
  vm_build_set _ := unavailable;
  vm_build_vector _ := unavailable;
  vm_build_list l := mret (VList l);
  vm_concat_list l := mret (VList l);
  vm_to_vector _ := unavailable;
  call_host_value _ _ _ := unavailable;
  dot_call_values _ _ _ := unavailable;
  call_value _ _ _ := fail "not a function";
  closure_value _ w := (w, w + 1)%N;
  arity_dispatcher _ _ w := (VFunction w, w + 1)%N;
  allocate w := (w, w + 1)%N;
  promise_state _ w := (Pending, w);
  error_message _ _ := "rejected";
  promise_rejection_error _ w := ("rejected", w);
  catch_matches _ class _ := bool_decide (class = "Error");
  caught_error message w := (VString message, w);
  thrown_error_at _ _ w := ("thrown", w);
  spawn_async _ w := (w, w + 1)%N;
}.

Definition plain_function (arity captures locals stack : N) (code : list Instruction)
    (handlers : list TryEntry) : FunctionPrototype :=
  mkFunction None false arity false captures locals stack code
    (replicate (length code) None) handlers.
Definition plain_program (constants : list Value) (functions : list FunctionPrototype) : Program :=
  mkProgram None constants [] ∅ ∅ ∅ functions 0.

(** [(+ 20 22)] through a static call. *)
Definition adder : Program := plain_program [VNumber 20; VNumber 22; VString "+"]
  [plain_function 0 0 0 2 [Constant 0; Constant 1; CallStatic 1 2; Return] [];
   plain_function 2 0 2 2 [LoadLocal 0; LoadLocal 1; IntrinsicCall 2 2; Return] []].

(** A handler around a call whose callee awaits a value that is no promise. *)
Definition catcher : Program := plain_program []
  [plain_function 0 0 1 1 [CallStatic 1 0; Return; LoadLocal 0; Return]
     [mkTryEntry 0 1 0 [mkCatchEntry "Other" 0 2; mkCatchEntry "Error" 0 2] None None None];
   plain_function 0 0 0 1 [Nil; Await; Return] []].

(** A promise awaited, and a value yielded. *)
Definition waiter : Program := plain_program [VPromise 7]
  [plain_function 0 0 0 1 [Constant 0; Await; Yield; Return] []].

Example adder_runs : validate adder = Ok tt ∧ run_entry adder 20 0%N = Some (Ok (VNumber 42)).
Proof. split; vm_compute; reflexivity. Qed.
Example catcher_runs :
  validate catcher = Ok tt ∧
  run_entry catcher 20 0%N = Some (Ok (VString "await expects a promise")).
Proof. split; vm_compute; reflexivity. Qed.
Example waiter_runs : validate waiter = Ok tt ∧
  match machine_entry waiter 0%N ≫= run waiter 20 with
  | Some (OSuspended 7, m) =>
      match resume waiter 20 (Fulfilled (VNumber 5)) m with
      | Some (OYielded (VNumber 5), m) =>
          fst <$> resume_yield waiter 20 (VNumber 42) m = Some (OReturned (VNumber 42))
      | _ => False
      end
  | _ => False
  end.
Proof. split; vm_compute; reflexivity. Qed.

(** ** Self-contained programs

    The check [validate] leaves out: every instruction's operands are among the
    operands of its own frame, and parameters and captures fit the slots. *)
Section self_contained.
Context `{!ValueForms}.

Definition operands_covered (code : list Instruction) (heights : list N) : bool :=
  forallb (λ p, pops p.1 <=? N.to_nat p.2) (zip code heights).

Definition slots_fit (f : FunctionPrototype) : bool :=
  (arity f + (if variadic f then 1 else 0) + capture_count f <=? local_count f)%N.

Definition self_contained (p : Program) : bool :=
  forallb (λ f, match stack_heights p f with
                | Ok heights => operands_covered (code f) heights && slots_fit f
                | Err _ => false
                end) (functions p).

Lemma operands_covered_ok f heights :
  operands_covered (code f) heights = true → covered f heights.
Proof.
  unfold operands_covered. rewrite forallb_forall. intros Hall ip i h Hi Hh.
  apply Nat.leb_le. apply (Hall (i, h)). apply list_elem_of_In, list_elem_of_lookup.
  exists ip. by rewrite lookup_zip_with, Hi, Hh.
Qed.

(** Validation and this check are what the machine's invariant needs. *)
Lemma validated_sound p :
  validate p = Ok tt → self_contained p = true → sound_program p.
Proof.
  intros [_ Hentry Hfunctions]%validate_spec Hself. split.
  - intros i f Hf. destruct (Hfunctions i f Hf) as [hs [_ _ (? & ? & ?) Hh Hr _ Ht]].
    exists hs. unfold self_contained in Hself. rewrite forallb_forall in Hself.
    specialize (Hself f). rewrite (proj2 (stack_heights_spec p f hs)) in Hself.
    + rewrite andb_true_iff in Hself. destruct Hself as [Hcov Hfit].
      { eapply list_elem_of_In, list_elem_of_lookup_2. exact Hf. }
      split; [done|done|by apply operands_covered_ok|]. unfold fits. by apply N.leb_le.
    + done.
  - by apply lookup_lt_is_Some.
Qed.
End self_contained.

(** ** Safety *)
Section safety.
Context {W : Type} `{!ValueForms} `{!Runtime W}.
Variable program : Program.
Implicit Types m : Machine W.

(** C3. On a validated, self-contained program the machine has an entry state
    in the invariant [machine_ok]; in every state of the invariant the
    instruction is there and finds its operands in its own frame, whose locals
    have the declared count, and the step neither panics nor leaves the
    invariant - whatever the runtime answers. *)
Theorem machine_step_safe :
  validate program = Ok tt → self_contained program = true →
  (∀ w, ∃ m, machine_entry program w = Some m ∧ machine_ok program m) ∧
  (∀ m, machine_ok program m →
     (∃ f i, function_at program (function m) = Some f ∧ code f !! ip m = Some i ∧
             base (frame m) + pops i ≤ length (stack m) ∧
             length (locals (frame m)) = N.to_nat (local_count f)) ∧
     match step program m with
     | (None, m') => machine_ok program m'
     | (Some outcome, m') => outcome_ok program outcome m'
     end).
Proof.
  intros Hv Hself. pose proof (validated_sound _ Hv Hself) as Hp. split.
  - intros w. by apply machine_entry_ok.
  - intros m Hm. split; [|exact (step_ok program Hp m Hm)].
    destruct Hm as (f & hs & h & Hf & Hs & Hh & _ & Hm).
    destruct (fetch _ m f hs h Hs Hh) as [i Hi]. exists f, i. split_and!; [done|done| |].
    + rewrite (h_stack _ _ _ _ _ _ _ _ Hm). pose proof (sf_covered _ _ _ Hs _ _ _ Hi Hh). lia.
    + by destruct (h_locals _ _ _ _ _ _ _ _ Hm).
Qed.

(** C2. Running such a program never panics, for any number of instructions;
    a suspended run leaves a machine that can be resumed with any promise
    state, a yielded one a machine that can be resumed with any value, and
    these runs do not panic either. *)
Theorem run_never_panics w fuel outcome m' :
  validate program = Ok tt → self_contained program = true →
  (∃ m, machine_entry program w = Some m ∧ run program fuel m = Some (outcome, m')) →
  match outcome with
  | OPanics _ => False
  | OSuspended _ => ∀ fuel' state o m, resume program fuel' state m' = Some (o, m) →
                      outcome_ok program o m
  | OYielded _ => ∀ fuel' value o m, resume_yield program fuel' value m' = Some (o, m) →
                      outcome_ok program o m
  | OReturned _ | OFailed _ => True
  end.
Proof.
  intros Hv Hself (m & Hentry & Hrun). pose proof (validated_sound _ Hv Hself) as Hp.
  destruct (machine_entry_ok program Hp w) as (m0 & Hm0 & Hok).
  rewrite Hm0 in Hentry. injection Hentry as ->.
  pose proof (run_ok program Hp _ _ _ _ Hok Hrun) as Ho. destruct outcome; cbn in Ho; try done.
  - intros fuel' state o m1. by apply resume_ok.
  - intros fuel' v o m1. by apply resume_yield_ok.
Qed.

(** [k] instructions that do not end the run. *)
Fixpoint advance (k : nat) m : option (Machine W) :=
  match k with
  | O => Some m
  | S k => match step program m with (None, m') => advance k m' | _ => None end
  end.

Lemma advance_ok k m m' :
  sound_program program → machine_ok program m → advance k m = Some m' → machine_ok program m'.
Proof.
  intros Hp. revert m. induction k as [|k IH]; cbn [advance]; intros m Hm; [by intros [= <-]|].
  pose proof (step_ok program Hp m Hm) as Hs. destruct (step program m) as [[o|] m0]; [done|].
  by apply IH.
Qed.

Lemma advance_entry_ok k w m :
  sound_program program → machine_entry program w ≫= advance k = Some m → machine_ok program m.
Proof.
  intros Hp (m0 & Hm0 & Hm)%bind_Some. destruct (machine_entry_ok program Hp w) as (m1 & Hm1 & Hok).
  rewrite Hm0 in Hm1. injection Hm1 as <-. by eapply advance_ok.
Qed.
End safety.

Lemma machine_step_safe_witness :
  validate adder = Ok tt ∧ self_contained adder = true ∧
  ∃ m, machine_entry adder 0%N = Some m ∧ machine_ok adder m.
Proof.
  split; [vm_compute; reflexivity|]. split; [vm_compute; reflexivity|].
  destruct (machine_step_safe (W:=N) adder) as [He _];
    [vm_compute; reflexivity|vm_compute; reflexivity|]. exact (He 0%N).
Defined.

(** The awaiting program, suspended after two instructions. *)
Definition suspended : option (VmOutcome * Machine N) := machine_entry waiter 0%N ≫= run waiter 2.

Lemma run_never_panics_witness :
  self_contained waiter = true ∧
  match suspended with
  | Some (OSuspended 7, m) =>
      ∀ fuel state o m', resume waiter fuel state m = Some (o, m') → outcome_ok waiter o m'
  | _ => False
  end.
Proof.
  split; [vm_compute; reflexivity|].
  destruct suspended as [[o m]|] eqn:Hs; [|vm_compute in Hs; discriminate Hs].
  destruct o as [| |promise| |]; try (vm_compute in Hs; discriminate Hs).
  assert (promise = 7%N) as -> by (vm_compute in Hs; congruence).
  apply (run_never_panics (W:=N) waiter 0%N 2 (OSuspended 7) m);
    [vm_compute; reflexivity|vm_compute; reflexivity|].
  unfold suspended in Hs. apply bind_Some in Hs as (m0 & ? & ?). by exists m0.
Defined.

(** ** Unwinding *)
Section unwinding.
Context {W : Type} `{!ValueForms} `{!Runtime W}.
Variable program : Program.
Implicit Types m : Machine W.

Definition matching (message : string) (e : TryEntry) m : option CatchEntry :=
  head (filter (λ c, catch_matches message (class c) (world m) = true) (catches e)).

(** The search stops at an entry that covers the instruction and has a matching
    [catch], a [finally], or a depth the stack does not reach. *)
Definition stops (message : string) m (e : TryEntry) : bool :=
  covers e (ip m) &&
  ((length (stack m) <? base (frame m) + N.to_nat (depth e)) ||
   is_some (matching message e m) || is_some (finally e)).

(** The innermost entry, of the innermost frame that has one: [m'] is the
    machine with the frames in between popped. *)
Inductive unwinds (message : string) : Machine W → TryEntry → Machine W → Prop :=
| unwinds_here m f before e after :
    function_at program (function m) = Some f → handlers f = before ++ e :: after →
    stops message m e = true → Forall (λ e', stops message m e' = false) after →
    unwinds message m e m
| unwinds_caller m f caller rest e m' :
    function_at program (function m) = Some f →
    Forall (λ e', stops message m e' = false) (handlers f) → calls m = caller :: rest →
    unwinds message (pop_frame caller rest (call_ip caller) m) e m' →
    unwinds message m e m'.

Inductive uncaught (message : string) : Machine W → Machine W → Prop :=
| uncaught_here m f :
    function_at program (function m) = Some f →
    Forall (λ e, stops message m e = false) (handlers f) → calls m = [] → uncaught message m m
| uncaught_caller m f caller rest m' :
    function_at program (function m) = Some f →
    Forall (λ e, stops message m e = false) (handlers f) → calls m = caller :: rest →
    uncaught message (pop_frame caller rest (call_ip caller) m) m' →
    uncaught message m m'.

(** Control is at the handler [t] of [e], in the frame of [m]: operands above
    the handler's depth are gone and the caught error is in its slot. *)
Record landed (message : string) (e : TryEntry) m (t : nat) (m' : Machine W) : Prop := {
  l_function : function m' = function m;
  l_calls : calls m' = calls m;
  l_base : base (frame m') = base (frame m);
  l_stack : stack m' = take (base (frame m) + N.to_nat (depth e)) (stack m);
  l_depth : base (frame m) + N.to_nat (depth e) ≤ length (stack m);
  l_world : world m' = (caught_error message (world m)).2;
  l_target :
    let caught := slot_of_value (caught_error message (world m)).1 in
    match matching message e m with
    | Some c => t = N.to_nat (catch_target c) ∧ local (frame m') (binding c) = Some caught
    | None => ∃ target value flag,
        finally e = Some target ∧ pending_value e = Some value ∧ pending_error e = Some flag ∧
        t = N.to_nat target ∧ (value ≠ flag → local (frame m') value = Some caught) ∧
        local (frame m') flag = Some (SBool true)
    end;
}.

Lemma try_entry_stops f message e m :
  try_entry f message e m = None ↔ stops message m e = false.
Proof.
  unfold try_entry, stops. destruct (covers e (ip m)); [|done].
  destruct (Nat.ltb_spec (length (stack m)) (base (frame m) + N.to_nat (depth e))); [done|].
  unfold try_catches, try_finally, matching. cbn.
  destruct (head _); [done|]. cbn. by destruct (finally e).
Qed.

Lemma search_handlers_stops f message l m :
  match search_handlers f message l m with
  | None => Forall (λ e, stops message m e = false) l
  | Some r => ∃ before e after, l = before ++ e :: after ∧ stops message m e = true ∧
      Forall (λ e', stops message m e' = false) before ∧ try_entry f message e m = Some r
  end.
Proof.
  induction l as [|e l IH]; cbn [search_handlers]; [constructor|].
  destruct (try_entry f message e m) as [r|] eqn:He.
  - exists [], e, l. split; [done|]. split; [|by split].
    apply not_false_is_true. intros Hs. apply (try_entry_stops f) in Hs. congruence.
  - apply try_entry_stops in He. destruct (search_handlers f message l m) as [r|]; [|by constructor].
    destruct IH as (before & e' & after & -> & ? & ? & ?). exists (e :: before), e', after.
    split; [done|]. split; [done|]. split; [by constructor|done].
Qed.

Lemma store_in_range (fr : Frame) slot v :
  N.to_nat slot < length (locals fr) →
  store fr slot v = Some (mkFrame (<[N.to_nat slot := v]> (locals fr)) (base fr)).
Proof. intros Hs. unfold store. by rewrite (proj2 (Nat.ltb_lt _ _)). Qed.

Lemma bind_caught_lookup f b at_ callers fn n m slot message :
  holds program f b at_ callers fn n m → (slot < local_count f)%N →
  bind_caught slot message m =
  Some (with_frame (mkFrame (<[N.to_nat slot := slot_of_value (caught_error message (world m)).1]>
                       (locals (frame m))) (base (frame m)))
         (with_world (caught_error message (world m)).2 m)) ∧
  N.to_nat slot < length (locals (frame m)).
Proof.
  intros Hm Hs. destruct (h_locals _ _ _ _ _ _ _ _ Hm) as [Hl _].
  assert (N.to_nat slot < length (locals (frame m))) as Hlt by lia. split; [|done].
  unfold bind_caught. destruct (caught_error message (world m)) as [v w] eqn:Hc.
  rewrite store_in_range by done. done.
Qed.

(** An entry that stops the search is entered, or the stack is too short. *)
Lemma try_entry_landed f heights b at_ callers fn n message e m r :
  sound_function program f heights → holds program f b at_ callers fn n m → e ∈ handlers f →
  try_entry f message e m = Some r →
  match r with
  | (Ok t, m') => landed message e m t m'
  | (Err (HFailed _), _) => length (stack m) < base (frame m) + N.to_nat (depth e)
  | (Err (HPanics _), _) => False
  end.
Proof.
  intros Hs Hm He. destruct (sf_handlers _ _ _ Hs) as [Hall _]. rewrite Forall_forall in Hall.
  destruct (Hall e He) as [_ _ Hcatches Hpending]. rewrite Forall_forall in Hcatches.
  unfold try_entry. destruct (covers e (ip m)); [|done].
  destruct (Nat.ltb_spec (length (stack m)) (base (frame m) + N.to_nat (depth e))) as [|Hdepth];
    [by intros [= <-]|].
  assert (holds program f b at_ callers fn (base (frame m) + N.to_nat (depth e))
    (truncate (base (frame m) + N.to_nat (depth e)) m)) as Ht.
  { pose proof (h_stack _ _ _ _ _ _ _ _ Hm). eapply st_take; [done|lia]. }
  unfold try_catches. fold (matching message e m). destruct (matching message e m) as [c|] eqn:Hc; cbn.
  - intros [= <-]. assert (c ∈ catches e) as Hin.
    { apply head_Some_elem_of, list_elem_of_filter in Hc. by destruct Hc. }
    destruct (Hcatches c Hin) as [_ Hslot].
    destruct (bind_caught_lookup _ _ _ _ _ _ _ _ message Ht Hslot) as [-> Hlt].
    split; try done. cbn. rewrite Hc. split; [done|]. by apply list_lookup_insert_eq.
  - unfold try_finally. intros (t & Hfin & [= <-])%bind_Some.
    unfold pending_ok in Hpending. rewrite Hfin in Hpending.
    destruct (pending_value e) as [v|] eqn:Hv, (pending_error e) as [g|] eqn:Hg; try done.
    destruct Hpending as (_ & Hvs & Hgs).
    destruct (bind_caught_lookup _ _ _ _ _ _ _ _ message Ht Hvs) as [-> Hlt]. cbn in Hlt |- *.
    assert (N.to_nat g < length (locals (frame m))) as Hlg.
    { destruct (h_locals _ _ _ _ _ _ _ _ Hm) as [Hl _]. lia. }
    rewrite store_in_range by (cbn; by rewrite length_insert).
    split; try done. cbn. rewrite Hc. exists t, v, g. split_and!; try done.
    + intros Hne. unfold local. cbn. rewrite list_lookup_insert_ne by lia.
      by apply list_lookup_insert_eq.
    + unfold local. cbn. apply list_lookup_insert_eq. by rewrite length_insert.
Qed.

Definition raised_correctly (message : string) m (r : result halt nat * Machine W) : Prop :=
  match r with
  | (Ok t, m') => ∃ e m1, unwinds message m e m1 ∧ landed message e m1 t m'
  | (Err (HFailed error), m') =>
      (uncaught message m m' ∧ Machine.message error = message) ∨
      ∃ e m1, unwinds message m e m1 ∧ length (stack m1) < base (frame m1) + N.to_nat (depth e)
  | (Err (HPanics _), _) => False
  end.

Lemma raised_correctly_here f heights b at_ callers fn n message m r :
  function_at program fn = Some f → sound_function program f heights →
  holds program f b at_ callers fn n m →
  search_handlers f message (reverse (handlers f)) m = Some r → raised_correctly message m r.
Proof.
  intros Hf Hs Hm Hr. pose proof (search_handlers_stops f message (reverse (handlers f)) m) as Hsearch.
  rewrite Hr in Hsearch. destruct Hsearch as (before & e & after & Hl & Hstop & Hbefore & Htry).
  assert (handlers f = reverse after ++ e :: reverse before) as Hh.
  { rewrite <-(reverse_involutive (handlers f)), Hl, reverse_app, reverse_cons, <-app_assoc. done. }
  assert (unwinds message m e m) as Hu.
  { econstructor; try done; [by rewrite (h_function _ _ _ _ _ _ _ _ Hm)|].
    apply Forall_forall. intros e'. rewrite elem_of_reverse. revert e'. by apply Forall_forall. }
  assert (e ∈ handlers f) as He by (rewrite Hh; apply elem_of_app; right; left).
  pose proof (try_entry_landed _ _ _ _ _ _ _ _ _ _ _ Hs Hm He Htry) as Hland.
  destruct r as [[t|[error|s]] m']; cbn; [by eauto|right; by eauto|done].
Qed.

Lemma unwind_correct f heights b at_ callers fn n message m :
  function_at program fn = Some f → sound_function program f heights →
  frames_ok program b callers → holds program f b at_ callers fn n m →
  raised_correctly message m (unwind program message callers m).
Proof.
  intros Hf Hs Hc. revert f heights at_ fn n m Hf Hs.
  induction Hc as [b|caller rest g heights' i h Hg Hs' Hl' Hi Hcall Hh Hc IH];
    intros f heights at_ fn n m Hf Hs Hm; cbn [unwind];
    rewrite (h_function _ _ _ _ _ _ _ _ Hm), Hf;
    pose proof (search_handlers_stops f message (reverse (handlers f)) m) as Hnone;
    destruct (search_handlers f message (reverse (handlers f)) m) as [r|] eqn:Hsearch;
    try (by eapply raised_correctly_here);
    assert (Forall (λ e, stops message m e = false) (handlers f)) as Hall by
      (apply Forall_forall; intros e He; rewrite Forall_forall in Hnone;
       apply Hnone; by rewrite elem_of_reverse);
    assert (function_at program (function m) = Some f) as Hfm by
      by rewrite (h_function _ _ _ _ _ _ _ _ Hm).
  - left. split; [|done]. econstructor; [done|done|]. by destruct Hm.
  - pose proof (h_calls _ _ _ _ _ _ _ _ Hm) as Hcm.
    specialize (IH g heights' (call_ip caller) (saved_function caller) _ _ Hg Hs'
      (holds_pop_frame _ _ _ _ _ _ _ _ g caller rest (call_ip caller) Hm Hl')).
    destruct (unwind program message rest _) as [[t|[error|s]] m'].
    + destruct IH as (e & m1 & Hu & Hland). exists e, m1. split; [|done]. by eapply unwinds_caller.
    + destruct IH as [[Hu Hmsg]|(e & m1 & Hu & Hlen)].
      * left. split; [|done]. by eapply uncaught_caller.
      * right. exists e, m1. split; [|done]. by eapply unwinds_caller.
    + done.
Qed.

(** C22. Raising an error in any state of the invariant enters the innermost
    handler: the frames with no handler that stops the error are popped, the
    last such entry of the remaining frame's table wins, operands above the
    handler's depth are dropped, the first matching [catch] (else the
    [finally]) gets the error bound to its slot; and the run fails, with this
    message, exactly when no frame has such an entry - or the stack is below
    the handler's depth. *)
Theorem raise_correct m message :
  machine_ok program m → raised_correctly message m (raise program message m).
Proof.
  intros (f & hs & h & Hf & Hs & Hh & Hc & Hm). unfold raise. by eapply unwind_correct.
Qed.
End unwinding.

(** The catching program inside the callee of its protected call. *)
Definition inside_callee : option (Machine N) := machine_entry catcher 0%N ≫= advance catcher 2.

Lemma raise_correct_witness :
  match inside_callee with
  | Some m =>
      (function m =? 1) = true ∧ machine_ok catcher m ∧
      raised_correctly catcher "await expects a promise" m
        (raise catcher "await expects a promise" m)
  | None => False
  end.
Proof.
  assert (sound_program catcher) as Hp by (apply validated_sound; vm_compute; reflexivity).
  destruct inside_callee as [m|] eqn:Hm; [|vm_compute in Hm; discriminate Hm].
  pose proof (advance_entry_ok catcher 2 0%N m Hp Hm) as Hok.
  split; [vm_compute in Hm; injection Hm as <-; reflexivity|].
  split; [exact Hok|]. apply (raise_correct catcher m). exact Hok.
Defined.

(** ** Static calls *)
Section static_calls.
Context {W : Type} `{!ValueForms} `{!Runtime W}.
Variable program : Program.
Implicit Types m : Machine W.

(** The general path of [CallStatic]: collect operands and captures into
    temporary vectors, then enter. *)
Definition general_call_static (f : FunctionPrototype) (prototype argc : N) :
    prog (Machine W) failure () :=
  collected ← collect_call_static program f prototype argc;
  enter_or_spawn program collected.1.1 collected.1.2 collected.2.

Lemma slot_range_none f fr :
  locals_ok program f (locals fr) → fits f →
  slot_range fr (N.to_nat (arity f) + (if variadic f then 1 else 0)) 0 = Some [].
Proof.
  intros [Hl _] Hf. unfold slot_range, fits in *.
  rewrite (proj2 (Nat.ltb_ge _ _)); [by rewrite take_0|]. destruct (variadic f); lia.
Qed.

(** The machine a call to [g] starts with the given frame and caller stack. *)
Definition called (p : nat) (fr : Frame) (caller_stack : list VmSlot)
    (buffers args_buffers : list (list VmSlot)) m : Machine W :=
  mkMachine p fr caller_stack (scratch m) (mkSavedFrame (function m) (frame m) (ip m) :: calls m)
    buffers args_buffers (vm_globals m) (next_closure_identity m) 0 (world m).

Section direct.
Variables (g : FunctionPrototype) (p argc : N) (m : Machine W).
Let count := N.to_nat argc.
Let caller_stack := take (length (stack m) - count) (stack m).
Let args := drop (length (stack m) - count) (stack m).
Hypothesis Hg : functions program !! N.to_nat p = Some g.
Hypothesis Hstack : count ≤ length (stack m).
Hypothesis Hroom : count ≤ N.to_nat (local_count g).

Lemma enter_static_direct_called :
  enter_static_direct program p argc m =
  (Ok tt, called (N.to_nat p)
     (call_reusing (default [] (head (free_locals m))) (N.to_nat (local_count g)) count args []
        (length caller_stack)).1 caller_stack (tail (free_locals m)) (free_args m) m).
Proof.
  unfold enter_static_direct, function_at. rewrite Hg.
  destruct m as [fn fr st sc cs fl fa vg ni ip0 w] eqn:Hm. cbn in *.
  assert (∀ buffer, call_static_reusing buffer (N.to_nat (local_count g)) st count =
    Some ((call_reusing buffer (N.to_nat (local_count g)) count args [] (length caller_stack)).1,
          caller_stack)) as Hreuse.
  { intros buffer. rewrite call_static_reusing_equiv by done. by rewrite decide_True. }
  unfold mbind, prog_bind, index, lift, take_locals, gets. cbn -[call_static_reusing call_reusing].
  destruct fl as [|buffer fl]; cbn -[call_static_reusing call_reusing];
    by rewrite Hreuse.
Qed.

Lemma general_call_static_called f :
  is_direct g = true → arity g = argc →
  slot_range (frame m) (N.to_nat (arity f) + (if variadic f then 1 else 0)) 0 = Some [] →
  Forall (λ buffer, buffer = []) (free_args m) →
  general_call_static f p argc m =
  (Ok tt, called (N.to_nat p)
     (call_reusing (default [] (head (free_locals m))) (N.to_nat (local_count g)) count args []
        (length caller_stack)).1 caller_stack (tail (free_locals m)) ([] :: tail (free_args m)) m).
Proof.
  intros Hdirect Harity Hrange Hargs. unfold is_direct in Hdirect.
  rewrite !andb_true_iff, !negb_true_iff, N.eqb_eq in Hdirect. destruct Hdirect as [[Hcap Hasync] Hvar].
  unfold general_call_static, collect_call_static, enter_or_spawn, enter_prototype, pack_rest,
    function_at, require_operands, drain, take_args, take_locals, give_args, push_frame.
  rewrite Hg. destruct m as [fn fr st sc cs fl fa vg ni ip0 w] eqn:Hm.
  cbn -[call_reusing slot_range Nat.ltb] in *.
  unfold mbind, prog_bind, index, expect, lift, gets, modify, mret, prog_ret.
  cbn -[call_reusing slot_range Nat.ltb]. rewrite (proj2 (Nat.ltb_ge _ _)) by done.
  rewrite Hcap. change (N.to_nat 0) with 0. destruct fa as [|buffer fa]; [|apply Forall_cons in Hargs as [-> _]];
    cbn -[call_reusing slot_range]; rewrite Hrange; cbn -[call_reusing]; rewrite ?Hg;
    cbn -[call_reusing]; rewrite Hasync; cbn -[call_reusing]; rewrite ?Hg; cbn -[call_reusing];
    rewrite Hvar; cbn -[call_reusing]; rewrite Harity;
    destruct fl as [|buffer' fl]; reflexivity.
Qed.
End direct.

(** For a direct callee whose parameters fit, the specialised static call
    is the general one: both enter the same frame - the arguments in the
    parameter slots, [nil] in the others - over the same caller stack, and
    differ only in the recycled argument buffers. *)
Theorem static_call_agrees m f g p argc :
  machine_ok program m → function_at program (function m) = Some f →
  code f !! ip m = Some (CallStatic p argc) →
  function_at program (N.to_nat p) = Some g → is_direct g = true → fits g →
  ∃ m' buffers,
    enter_static_direct program p argc m = (Ok tt, m') ∧
    general_call_static f p argc m = (Ok tt, with_free_args buffers m') ∧
    calls m' = mkSavedFrame (function m) (frame m) (ip m) :: calls m ∧
    stack m = stack m' ++ take (N.to_nat argc) (locals (frame m')) ∧
    Forall (eq SNil) (drop (N.to_nat argc) (locals (frame m'))).
Proof.
  intros (f' & hs & h & Hf' & Hs & Hh & _ & Hm) Hf Hi Hg Hdirect Hfits. rewrite Hf in Hf'.
  injection Hf' as <-. destruct (ws_operands _ _ _ (sf_heights _ _ _ Hs) _ _ Hi) as (g' & Hg' & Har & _).
  unfold function_at in Hg. rewrite Hg in Hg'. injection Hg' as <-.
  pose proof (sf_covered _ _ _ Hs _ _ _ Hi Hh) as Hcov. cbn in Hcov.
  pose proof (h_stack _ _ _ _ _ _ _ _ Hm) as Hlen.
  assert (variadic g = false) as Hvar by
    (by apply andb_prop in Hdirect as [_ Hv%negb_true_iff]).
  unfold arity_accepts in Har. rewrite Hvar, N.eqb_eq in Har.
  assert (N.to_nat argc ≤ N.to_nat (local_count g)) as Hroom by (unfold fits in Hfits; lia).
  eexists _, _. split_and!.
  - apply enter_static_direct_called; [done|lia|done].
  - rewrite (general_call_static_called g p argc m Hg); try done; [lia| |].
    + apply slot_range_none; [exact (h_locals _ _ _ _ _ _ _ _ Hm)|exact (sf_fits _ _ _ Hs)].
    + exact (h_args _ _ _ _ _ _ _ _ Hm).
  - done.
  - cbn. rewrite fill_recycle by (rewrite length_drop; lia).
    rewrite take_app_length' by (rewrite length_drop; lia). by rewrite take_drop.
  - cbn. rewrite fill_recycle by (rewrite length_drop; lia).
    rewrite drop_app_length' by (rewrite length_drop; lia). by apply Forall_replicate.
Qed.
End static_calls.

(** The adding program at its call. *)
Definition at_call : option (Machine N) := machine_entry adder 0%N ≫= advance adder 2.

Lemma static_call_agrees_witness :
  match at_call with
  | Some m =>
      machine_ok adder m ∧ ∃ m' buffers,
        enter_static_direct adder 1 2 m = (Ok tt, m') ∧
        general_call_static adder (plain_function 0 0 0 2 [Constant 0; Constant 1; CallStatic 1 2; Return] [])
          1 2 m = (Ok tt, with_free_args buffers m') ∧
        stack m = stack m' ++ take 2 (locals (frame m'))
  | None => False
  end.
Proof.
  assert (sound_program adder) as Hp by (apply validated_sound; vm_compute; reflexivity).
  destruct at_call as [m|] eqn:Hm; [|vm_compute in Hm; discriminate Hm].
  pose proof (advance_entry_ok adder 2 0%N m Hp Hm) as Hok. split; [exact Hok|].
  destruct (static_call_agrees adder m
    (plain_function 0 0 0 2 [Constant 0; Constant 1; CallStatic 1 2; Return] [])
    (plain_function 2 0 2 2 [LoadLocal 0; LoadLocal 1; IntrinsicCall 2 2; Return] []) 1 2)
    as (m' & buffers & H1 & H2 & _ & H3 & _).
  - exact Hok.
  - vm_compute in Hm. injection Hm as <-. vm_compute. reflexivity.
  - vm_compute in Hm. injection Hm as <-. vm_compute. reflexivity.
  - vm_compute. reflexivity.
  - vm_compute. reflexivity.
  - vm_compute. discriminate.
  - exists m', buffers. split; [exact H1|]. split; [exact H2|exact H3].
Defined.

(** ** What validation leaves open *)

(** The callee, of no parameters, duplicates an operand of its caller. *)
Definition leaking : Program := plain_program [VNumber 41; VString "+"]
  [plain_function 0 0 0 2 [Constant 0; CallStatic 1 0; IntrinsicCall 1 2; Return] [];
   plain_function 0 0 0 1 [Dup; Return] []].
(** The entry duplicates an operand it does not have. *)
Definition underflowing : Program := plain_program []
  [plain_function 0 0 0 1 [Dup; Return] []].
(** The callee declares a parameter but no slot for it. *)
Definition slotless : Program := plain_program []
  [plain_function 0 0 0 1 [Nil; CallStatic 1 1; Return] []; plain_function 1 0 0 1 [Nil; Return] []].

(** [validate] accepts programs that are not self-contained: one whose
    callee returns an operand of its caller, one that fails with a stack
    underflow when it runs, and one whose call panics on a frame without a slot
    for the argument. *)
Theorem validation_gaps :
  (validate leaking = Ok tt ∧ self_contained leaking = false ∧
   run_entry leaking 10 0%N = Some (Ok (VNumber 82))) ∧
  (validate underflowing = Ok tt ∧ self_contained underflowing = false ∧
   run_entry underflowing 10 0%N =
     Some (Err (OFailed (vm_error "stack underflow" 0 None)))) ∧
  (validate slotless = Ok tt ∧ self_contained slotless = false ∧
   run_entry slotless 10 0%N = Some (Err (OPanics "index out of bounds"))).
Proof. repeat split; vm_compute; reflexivity. Qed.
