(* ===== verification/Segments.v ===== *)
(** * The code the compiler emits

    What [Lowering] appends to a function's code, as segments: a segment states
    which operand heights it needs on entry and guarantees at its exits, for
    every function its code ends up in. [yields] is the calculus of the methods
    that append one segment. *)
From S2P Require Import Prelude Bytes Text Opcode Kernel Reader Printer Program DefinitionForms Destructure Scope Compiler Captures Validate Lowering Runs.
#[local] Open Scope nat_scope.

(** ** Segments *)
Section segments.
Context `{ValueForms}.

(** A function whose heights agree along every transfer of control, as
    validation establishes. *)
Definition settled (f : FunctionPrototype) (heights : list N) : Prop :=
  ∀ ip h target next, heights !! ip = Some h → flows f ip h target next →
    ∃ h', heights !! target = Some h' ∧ Z.of_N h' = next.

(** The same handler but for its depth. *)
Definition same_handler (e e' : TryEntry) : Prop :=
  try_start e = try_start e' ∧ catches e = catches e' ∧ finally e = finally e'.

(** The instructions stand at [b], and the handlers are among the function's. *)
Definition placed (f : FunctionPrototype) (b : nat) (l : list Instruction) (hs : list TryEntry) : Prop :=
  (∀ k i, l !! k = Some i → code f !! (b + k) = Some i) ∧
  (∀ e, e ∈ hs → ∃ e', e' ∈ handlers f ∧ same_handler e e').

(** At [p] there are at least [n] operands. *)
Definition at_least (heights : list N) (p n : nat) : Prop :=
  ∃ h, heights !! p = Some h ∧ n ≤ N.to_nat h.

(** Entered at [b] with [a] operands over any base, every instruction of the
    segment finds its operands over that base once those before it are placed,
    and each exit [(p, o)] is reached with [o] operands over it. *)
Definition seg (b : nat) (l : list Instruction) (hs : list TryEntry) (a : nat)
    (exits : list (nat * nat)) : Prop :=
  (l = [] → ∀ p o, (p, o) ∈ exits → o ≤ a) ∧
  ∀ f heights, settled f heights → ∀ g, at_least heights b (g + a) →
    (∀ k i, l !! k = Some i → placed f b (take k l) hs → (N.of_nat (b + k) < 4294967296)%N →
       at_least heights (b + k) (g + pops i)) ∧
    (∀ p o, (p, o) ∈ exits → placed f b l hs → (N.of_nat p < 4294967296)%N →
       at_least heights p (g + o)).

Lemma at_least_weaken heights p n n' : at_least heights p n → n' ≤ n → at_least heights p n'.
Proof. intros (h & Hh & Hn) Hle. exists h. split; [done|lia]. Qed.

Lemma seg_sub b l hs a exits a' exits' :
  seg b l hs a exits → a ≤ a' →
  (∀ p o, (p, o) ∈ exits' → ∃ o', (p, o') ∈ exits ∧ o ≤ o') →
  seg b l hs a' exits'.
Proof.
  intros [Hn Hs] Ha He. split.
  { intros Hl p o Hin. destruct (He p o Hin) as (o' & Hin' & Ho). specialize (Hn Hl _ _ Hin'). lia. }
  intros f heights Hf g Hb. destruct (Hs f heights Hf g) as [Hc Hx]; [eapply at_least_weaken; [done|lia]|].
  split; [done|]. intros p o Hin Hp Hlt. destruct (He p o Hin) as (o' & Hin' & Ho).
  eapply at_least_weaken; [by apply Hx|lia].
Qed.

Lemma seg_nil b a : seg b [] [] a [(b, a)].
Proof.
  split; [by intros _ p o [= -> ->]%list_elem_of_singleton|].
  intros f heights _ g Hb. split; [intros k i Hk; by rewrite lookup_nil in Hk|].
  intros p o Hin _ _. apply list_elem_of_singleton in Hin as [= -> ->]. done.
Qed.

Lemma placed_app f b l l' hs hs' :
  placed f b (l ++ l') (hs ++ hs') → placed f b l hs ∧ placed f (b + length l) l' hs'.
Proof.
  intros [Hc Hh]. split; split.
  - intros k i Hk. apply Hc. by apply lookup_app_l_Some.
  - intros e He. apply Hh, elem_of_app. by left.
  - intros k i Hk. rewrite <- Nat.add_assoc. apply Hc. rewrite lookup_app_r by lia.
    by replace (length l + k - length l) with k by lia.
  - intros e He. apply Hh, elem_of_app. by right.
Qed.

(** What is appended at an exit of a segment continues it. *)
Lemma seg_cut b l hs a exits m l' hs' exits' out :
  seg b l hs a exits → (b + length l, m) ∈ exits → seg (b + length l) l' hs' m exits' →
  (∀ p o, (p, o) ∈ exits' → b + length l ≤ p) →
  (∀ p o, (p, o) ∈ out → (p, o) ∈ exits ∨ (p, o) ∈ exits') →
  seg b (l ++ l') (hs ++ hs') a out.
Proof.
  intros [N1 H1] Hm [N2 H2] Hfw Hout. split.
  { intros [-> ->]%app_nil p o Hin. pose proof (N1 eq_refl _ _ Hm).
    destruct (Hout p o Hin) as [Hi|Hi]; [by apply (N1 eq_refl p)|]. specialize (N2 eq_refl _ _ Hi). lia. }
  intros f heights Hf g Hb. destruct (H1 f heights Hf g Hb) as [Hc1 Hx1].
  split.
  - intros k i Hk Hp Hlt. destruct (decide (k < length l)) as [Hk'|Hge].
    + rewrite lookup_app_l in Hk by done. apply Hc1; [done| |done].
      rewrite take_app_le in Hp by lia. rewrite <- (app_nil_r (take k l)) in Hp.
      by apply placed_app in Hp as [Hp _].
    + rewrite lookup_app_r in Hk by lia. rewrite take_app_ge in Hp by lia.
      apply placed_app in Hp as [Hp1 Hp2].
      assert (at_least heights (b + length l) (g + m)) as Hl by (apply Hx1; [done|done|lia]).
      destruct (H2 f heights Hf g Hl) as [Hc2 _].
      replace (b + k) with (b + length l + (k - length l)) by lia. apply Hc2; [done|done|lia].
  - intros p o Hin Hp Hlt. apply placed_app in Hp as [Hp1 Hp2].
    destruct (Hout p o Hin) as [?|Hin']; [by apply Hx1|]. pose proof (Hfw _ _ Hin').
    assert (at_least heights (b + length l) (g + m)) as Hl by (apply Hx1; [done|done|lia]).
    destruct (H2 f heights Hf g Hl) as [_ Hx2]. by apply Hx2.
Qed.

Lemma seg_frame b l hs a exits c :
  seg b l hs a exits → seg b l hs (a + c) (prod_map id (λ o, o + c) <$> exits).
Proof.
  intros [Hn Hs]. split.
  { intros Hl p o Hin. apply list_elem_of_fmap in Hin as ([p' o'] & [= -> ->] & Hin).
    specialize (Hn Hl _ _ Hin). lia. }
  intros f heights Hf g Hb.
  destruct (Hs f heights Hf (g + c)) as [Hc Hx]; [eapply at_least_weaken; [done|lia]|].
  split.
  - intros k i Hk Hp Hlt. eapply at_least_weaken; [by apply Hc|lia].
  - intros p o Hin Hp Hlt. apply list_elem_of_fmap in Hin as ([p' o'] & [= -> ->] & Hin).
    eapply at_least_weaken; [by apply Hx|simpl; lia].
Qed.

(** Without its last instruction a segment ends where that instruction finds
    its operands. *)
Lemma seg_removelast b l i hs a exits :
  seg b (l ++ [i]) hs a exits → pops i ≤ a → seg b l hs a [(b + length l, pops i)].
Proof.
  intros [_ Hs] Hi. split; [by intros _ p o [= -> ->]%list_elem_of_singleton|].
  intros f heights Hf g Hb. destruct (Hs f heights Hf g Hb) as [Hc _]. split.
  - intros k j Hk Hp Hlt. apply Hc; [by apply lookup_app_l_Some| |done].
    rewrite take_app_le; [done|]. apply lookup_lt_Some in Hk. lia.
  - intros p o [= -> ->]%list_elem_of_singleton Hp Hlt. apply Hc; [|by rewrite take_app_length|done].
    rewrite lookup_app_r by lia. by rewrite Nat.sub_diag.
Qed.

Lemma seg_handlers b l hs hs' a exits :
  seg b l hs a exits → (∀ e, e ∈ hs → e ∈ hs') → seg b l hs' a exits.
Proof.
  intros [Hn Hs] Hsub. split; [done|]. intros f heights Hf g Hb. destruct (Hs f heights Hf g Hb) as [Hc Hx].
  split.
  - intros k i Hk [Hp1 Hp2]. apply Hc; [done|]. split; [done|auto].
  - intros p o Hin [Hp1 Hp2]. apply Hx; [done|]. split; [done|auto].
Qed.

Lemma as_u32_id p : (N.of_nat p < 4294967296)%N → N.to_nat (as_u32 p) = p.
Proof. intros Hp. unfold as_u32. rewrite N.mod_small by done. lia. Qed.

(** The targets of a handler that protects a range from the segment's start. *)
Lemma seg_handler b l hs a exits e targets :
  seg b l hs a exits → e ∈ hs → try_start e = as_u32 b →
  (∀ p o, (p, o) ∈ targets → b ≤ p ∧ o ≤ a ∧
     ((∃ c, c ∈ catches e ∧ catch_target c = as_u32 p) ∨ finally e = Some (as_u32 p))) →
  seg b l hs a (exits ++ targets).
Proof.
  intros [Hnil Hs] He Hb Ht. split.
  { intros Hl p o [Hin|Hin]%elem_of_app; [by eapply Hnil|]. by destruct (Ht _ _ Hin) as (? & ? & _). }
  intros f heights Hf g Hg. destruct (Hs f heights Hf g Hg) as [Hc Hx]. split; [done|].
  intros p o [Hin|Hin]%elem_of_app Hp Hlt; [by apply Hx|].
  destruct (Ht p o Hin) as (Hle & Ho & Htarget). destruct Hp as [_ Hph].
  destruct (Hph e He) as (e' & He' & Hsame1 & Hsame2 & Hsame3). destruct Hg as (h & Hh & Hn).
  assert (N.to_nat (try_start e') = b) as Hstart by (rewrite <- Hsame1, Hb; apply as_u32_id; lia).
  destruct (Hf b h p (Z.of_N h)) as (h' & Hh' & Heq); [done| |exists h'; split; [done|lia]].
  rewrite <- (as_u32_id p) by done. destruct Htarget as [(c & Hcatch & <-)|Hfin].
  - rewrite <- Hstart. eapply flow_catch; [exact He'|done|by rewrite <- Hsame2].
  - rewrite <- Hstart. eapply flow_finally; [exact He'|done|by rewrite <- Hsame3].
Qed.

(** ** Single instructions *)
(** An instruction entered with [m] operands, of which it takes some. *)
Lemma seg_step b i m exits :
  pops i ≤ m →
  (∀ p o, (p, o) ∈ exits →
     (p = S b ∧ falls_through i = true ∧ o ≤ m - pops i + pushes i) ∨
     (o ≤ m - pops i ∧ (i = Jump (as_u32 p) ∨ i = JumpIfFalse (as_u32 p)))) →
  seg b [i] [] m exits.
Proof.
  intros Hm He. split; [done|]. intros f heights Hf g (h & Hh & Hn).
  split.
  - intros [|k] j Hj _ _; [|by destruct k]. injection Hj as <-. rewrite Nat.add_0_r. exists h.
    split; [done|lia].
  - intros p o Hin [Hc _] Hlt.
    assert (code f !! b = Some i) as Hi by (rewrite <- (Nat.add_0_r b); by apply Hc).
    destruct (He p o Hin) as [(-> & Hfall & Ho)|[Ho Hj]].
    + destruct (Hf b h (S b) (Z.of_N h + (Z.of_nat (pushes i) - Z.of_nat (pops i)))%Z)
        as (h' & Hh' & Heq); [done| |].
      * apply flow_next with i; [done|done|]. by rewrite stack_effect_pops_pushes, Hfall.
      * exists h'. split; [done|lia].
    + assert (∃ effect, jump_target i = Some (as_u32 p) ∧ stack_effect i = Some effect ∧
               effect = (- Z.of_nat (pops i))%Z) as (effect & Ht & Hs & ->).
      { destruct Hj as [-> | ->]; cbn; eexists; split_and!; done. }
      destruct (Hf b h (N.to_nat (as_u32 p)) (Z.of_N h + - Z.of_nat (pops i))%Z)
        as (h' & Hh' & Heq); [done|by eapply flow_jump|].
      rewrite as_u32_id in Hh' by done. exists h'. split; [done|lia].
Qed.

(** An instruction after a segment. *)
Lemma seg_snoc b l hs a exits m i out :
  seg b l hs a exits → (b + length l, m) ∈ exits → pops i ≤ m →
  (∀ p o, (p, o) ∈ out →
     (p, o) ∈ exits ∨
     (p = S (b + length l) ∧ falls_through i = true ∧ o ≤ m - pops i + pushes i) ∨
     (b + length l ≤ p ∧ o ≤ m - pops i ∧ (i = Jump (as_u32 p) ∨ i = JumpIfFalse (as_u32 p)))) →
  seg b (l ++ [i]) hs a out.
Proof.
  intros Hs Hm Hi Hout. rewrite <- (app_nil_r hs).
  pose (more := filter (λ e, (e.1 = S (b + length l) ∧ falls_through i = true ∧ e.2 ≤ m - pops i + pushes i) ∨
     (b + length l ≤ e.1 ∧ e.2 ≤ m - pops i ∧ (i = Jump (as_u32 e.1) ∨ i = JumpIfFalse (as_u32 e.1)))) out).
  apply (seg_cut b l hs a exits m [i] [] more out); [done|done| | |].
  - apply seg_step; [done|]. intros p o [Hp _]%list_elem_of_filter. cbn in Hp. tauto.
  - intros p o [Hp _]%list_elem_of_filter. cbn in Hp. destruct Hp as [(-> & _)|(? & _)]; lia.
  - intros p o Hin. destruct (Hout p o Hin) as [?|Hp]; [by left|right].
    by apply list_elem_of_filter.
Qed.
End segments.

(** ** Methods that append a segment *)
Section calculus.
Context {W : Type} `{TextEnv} `{ValueForms} `{CompilerEnv W}.
Abbreviation comp := (prog (Compiler W) compile_stop).
Implicit Types c : Compiler W.
Implicit Types x : FnContext.

(** A prototype whose body is compiled: its slots hold its parameters and
    captures, and no instruction reaches below the frame. *)
Definition good (f : FunctionPrototype) : Prop :=
  code f ≠ [] → slots_fit f = true ∧ seg 0 (code f) (handlers f) 0 [].
Definition inv c : Prop := Forall good (prototypes c).

Record same_frame x x' : Prop := {
  same_id : proto_id x' = proto_id x;
  same_params : params x' = params x;
  same_variadic : fn_variadic x' = fn_variadic x;
  same_captures : captures x' = captures x;
  more_slots : (high_water (fn_scopes x) ≤ high_water (fn_scopes x'))%N;
}.

Definition end_of x : nat := length (fn_code x).
Definition exit_of x (o : nat) : list (nat * nat) := if fallthrough x then [(end_of x, o)] else [].

(** From [x] to [x'], when control reaches the end of [x]; nothing is emitted
    otherwise. *)
Definition extends x x' (a o : nat) : Prop :=
  same_frame x x' ∧
  if fallthrough x then
    ∃ l hs, fn_code x' = fn_code x ++ l ∧ fn_handlers x' = fn_handlers x ++ hs ∧
            seg (end_of x) l hs a (exit_of x' o)
  else fn_code x' = fn_code x ∧ fn_handlers x' = fn_handlers x ∧ fallthrough x' = false.

Definition yields {A} (m : comp A) (a o : nat) : Prop :=
  ∀ c x rest r c', inv c → contexts c = x :: rest → m c = (Ok r, c') →
    inv c' ∧ ∃ x', contexts c' = x' :: rest ∧ extends x x' a o.

(** Methods that touch neither the functions nor their prototypes. *)
Definition quiet {A} (m : comp A) : Prop :=
  ∀ c r c', m c = (Ok r, c') → contexts c' = contexts c ∧ prototypes c' = prototypes c.

Lemma same_frame_refl x : same_frame x x.
Proof. by split. Qed.
Lemma same_frame_trans x y z : same_frame x y → same_frame y z → same_frame x z.
Proof. intros [] []. split; try congruence. lia. Qed.

Lemma code_extends_refl x a : extends x x a a.
Proof.
  split; [apply same_frame_refl|]. unfold exit_of. destruct (fallthrough x) eqn:E; [|done].
  exists [], []. rewrite !app_nil_r. split_and!; [done|done|]. apply seg_nil.
Qed.

Lemma exit_of_forward x p o o' : (p, o') ∈ exit_of x o → p = end_of x ∧ o' = o ∧ fallthrough x = true.
Proof.
  unfold exit_of. destruct (fallthrough x); [|by intros ?%not_elem_of_nil].
  by intros [= -> ->]%list_elem_of_singleton.
Qed.

Lemma code_extends_trans x y z a m o : extends x y a m → extends y z m o → extends x z a o.
Proof.
  intros [F1 H1'] [F2 H2']. split; [by eapply same_frame_trans|].
  destruct (fallthrough x).
  - destruct H1' as (l & hs & Hc & Hh & Hs). destruct (fallthrough y) eqn:Ey.
    + destruct H2' as (l' & hs' & Hc' & Hh' & Hs').
      exists (l ++ l'), (hs ++ hs'). rewrite Hc', Hc, Hh', Hh, !app_assoc. split_and!; [done|done|].
      assert (end_of y = end_of x + length l) as Hend by (unfold end_of; rewrite Hc, length_app; done).
      rewrite Hend in Hs'. apply (seg_cut _ _ _ _ (exit_of y m) m l' hs' (exit_of z o)); [done| |done| |].
      * unfold exit_of. rewrite Ey, Hend. by left.
      * intros p q (-> & _)%exit_of_forward. unfold end_of. rewrite Hc', Hc, !length_app. lia.
      * auto.
    + destruct H2' as (Hc' & Hh' & Ez). exists l, hs. rewrite Hc', Hh', Hc, Hh.
      split_and!; [done|done|]. eapply seg_sub; [exact Hs|done|].
      intros p q (_ & _ & ?)%exit_of_forward. congruence.
  - destruct H1' as (Hc & Hh & Ey). rewrite Ey in H2'. destruct H2' as (Hc' & Hh' & Ez).
    by rewrite Hc', Hh', Hc, Hh.
Qed.

Lemma extends_weaken x y a o a' o' : extends x y a o → a ≤ a' → o' ≤ o → extends x y a' o'.
Proof.
  intros [F Hx] Ha Ho. split; [done|]. destruct (fallthrough x); [|done].
  destruct Hx as (l & hs & Hc & Hh & Hs). exists l, hs. split_and!; [done|done|].
  eapply seg_sub; [exact Hs|done|]. intros p q (-> & -> & E)%exit_of_forward.
  exists o. split; [|done]. unfold exit_of. rewrite E. by left.
Qed.

Lemma extends_frame x y a o k : extends x y a o → extends x y (a + k) (o + k).
Proof.
  intros [F Hx]. split; [done|]. destruct (fallthrough x); [|done].
  destruct Hx as (l & hs & Hc & Hh & Hs). exists l, hs. split_and!; [done|done|].
  eapply seg_sub; [apply seg_frame; exact Hs|done|]. intros p q (-> & -> & E)%exit_of_forward.
  exists (o + k). split; [|done]. apply list_elem_of_fmap. exists (end_of y, o).
  split; [done|]. unfold exit_of. rewrite E. by left.
Qed.

(** ** Rules *)
Lemma yields_weaken {A} (m : comp A) a o a' o' : yields m a o → a ≤ a' → o' ≤ o → yields m a' o'.
Proof.
  intros Hm Ha Ho c x rest r c' Hi Hc E. destruct (Hm _ _ _ _ _ Hi Hc E) as (? & x' & ? & ?).
  split; [done|]. exists x'. split; [done|]. by eapply extends_weaken.
Qed.

Lemma yields_frame {A} (m : comp A) a o k : yields m a o → yields m (a + k) (o + k).
Proof.
  intros Hm c x rest r c' Hi Hc E. destruct (Hm _ _ _ _ _ Hi Hc E) as (? & x' & ? & ?).
  split; [done|]. exists x'. split; [done|]. by apply extends_frame.
Qed.

Lemma yields_bind {A B} (m : comp A) (k : A → comp B) a n o :
  yields m a n → (∀ r, yields (k r) n o) → yields (m ≫= k) a o.
Proof.
  intros Hm Hk c x rest r c' Hi Hc (y & c1 & E1 & E2)%prog_bind_ok.
  destruct (Hm _ _ _ _ _ Hi Hc E1) as (Hi1 & x1 & Hc1 & Hx1).
  destruct (Hk y _ _ _ _ _ Hi1 Hc1 E2) as (Hi2 & x2 & Hc2 & Hx2).
  split; [done|]. exists x2. split; [done|]. by eapply code_extends_trans.
Qed.

Lemma yields_quiet {A} (m : comp A) a : quiet m → yields m a a.
Proof.
  intros Hm c x rest r c' Hi Hc E. destruct (Hm _ _ _ E) as [Hc' Hp].
  split; [unfold inv; by rewrite Hp|]. exists x. split; [congruence|apply code_extends_refl].
Qed.

(** The first method changes nothing the calculus sees. *)
Lemma yields_after {A B} (m : comp A) (k : A → comp B) a o :
  quiet m → (∀ r, yields (k r) a o) → yields (m ≫= k) a o.
Proof. intros Hm Hk. eapply yields_bind; [by apply yields_quiet|done]. Qed.

Lemma yields_fail {A} e a o : yields (fail e : comp A) a o.
Proof. intros c x rest r c' _ _ [=]. Qed.

Lemma yields_ret {A} (r : A) a o : o ≤ a → yields (mret r) a o.
Proof.
  intros Ho c x rest y c' Hi Hc [= _ <-]. split; [done|]. exists x. split; [done|].
  eapply extends_weaken; [apply code_extends_refl|done|done].
Qed.

Lemma quiet_ret {A} (r : A) : quiet (mret r).
Proof. by intros c y c' [= _ <-]. Qed.
Lemma quiet_fail {A} e : quiet (fail e : comp A).
Proof. by intros c y c' [=]. Qed.
Lemma quiet_gets {A} (f : Compiler W → A) : quiet (gets f).
Proof. by intros c y c' [= _ <-]. Qed.
Lemma quiet_bind {A B} (m : comp A) (k : A → comp B) :
  quiet m → (∀ r, quiet (k r)) → quiet (m ≫= k).
Proof.
  intros Hm Hk c r c' (y & c1 & E1 & E2)%prog_bind_ok.
  destruct (Hm _ _ _ E1), (Hk y _ _ _ E2). split; congruence.
Qed.
Lemma quiet_modify (f : Compiler W → Compiler W) :
  (∀ c, contexts (f c) = contexts c ∧ prototypes (f c) = prototypes c) → quiet (modify f).
Proof. intros Hf c r c' [= _ <-]. apply Hf. Qed.
Lemma quiet_ctx : quiet ctx.
Proof. intros c r c' E. unfold ctx in E. destruct (contexts c) eqn:Ec; inversion E; by subst. Qed.
Lemma quiet_guest {A} (m : prog W string A) : quiet (guest m).
Proof. intros c r c'. unfold guest. destruct (m (world c)). by intros [= _ <-]. Qed.
Lemma quiet_expanding {A} (m : prog N failure A) : quiet (expanding m).
Proof. intros c r c'. unfold expanding. destruct (m _). by intros [= _ <-]. Qed.
End calculus.

Create HintDb quiet discriminated.
#[export] Hint Resolve quiet_ret quiet_fail quiet_gets quiet_ctx quiet_guest quiet_expanding : quiet.

(** Proves that a method is quiet along its structure. *)
Ltac quiet_step :=
  match goal with
  | |- quiet (mbind _ _) => apply quiet_bind; [|intros ?]
  | |- quiet (modify _) => apply quiet_modify; intros ?; split; reflexivity
  | |- quiet (match ?e with _ => _ end) => destruct e
  | |- quiet (let '(_, _) := ?e in _) => destruct e
  | |- quiet _ => solve [auto with quiet]
  end.
Ltac quiet := repeat quiet_step.

Section pieces.
Context {W : Type} `{TextEnv} `{ValueForms} `{CompilerEnv W}.
Abbreviation comp := (prog (Compiler W) compile_stop).
Implicit Types c : Compiler W.
Implicit Types x : FnContext.

(** ** Quiet methods *)
Lemma quiet_reject {A} k m p : quiet (reject k m p : comp A).
Proof. apply quiet_fail. Qed.
Lemma quiet_checked_at {A} k s (r : result string A) : quiet (checked_at k s r : comp A).
Proof. destruct r; [apply quiet_ret|apply quiet_fail]. Qed.
Lemma quiet_checked_failure {A} s p (r : result failure A) : quiet (checked_failure s p r : comp A).
Proof. destruct r as [|[]]; [apply quiet_ret|apply quiet_fail..]. Qed.
Lemma quiet_or_crash {A} (o : option A) : quiet (or_crash o : comp A).
Proof. destruct o; [apply quiet_ret|apply quiet_fail]. Qed.
Hint Resolve quiet_reject quiet_checked_at quiet_checked_failure quiet_or_crash : quiet.

Lemma quiet_reads_on : quiet (reads_on : comp bool).
Proof. unfold reads_on. quiet. Qed.
Lemma quiet_here : quiet (here : comp nat).
Proof. unfold here. quiet. Qed.
Lemma quiet_lookup_name name : quiet (lookup_name name : comp (option N)).
Proof. unfold lookup_name. quiet. Qed.
Lemma quiet_constant_index_of v s : quiet (constant_index_of v s : comp N).
Proof.
  unfold constant_index_of, pool_limit, reject_at. quiet_step; [quiet|].
  match goal with |- quiet (match ?e with _ => _ end) => destruct e end; quiet.
Qed.
Lemma quiet_name_constant name s : quiet (name_constant name s : comp N).
Proof. apply quiet_constant_index_of. Qed.
Lemma quiet_global_name_constant name s : quiet (global_name_constant name s : comp N).
Proof. unfold global_name_constant. quiet_step; [quiet|]. apply quiet_constant_index_of. Qed.
Lemma quiet_declare_program_global name : quiet (declare_program_global name : comp ()).
Proof. apply quiet_modify. intros c. by destruct (is_global c name). Qed.
Lemma quiet_require_owned_global name s : quiet (require_owned_global name s : comp ()).
Proof.
  unfold require_owned_global, reject_at. quiet_step; [quiet|]. cbn zeta.
  repeat match goal with |- quiet (match ?e with _ => _ end) => destruct e end; quiet.
Qed.
Lemma quiet_var_metadata_index m : quiet (var_metadata_index m : comp (option N)).
Proof. unfold var_metadata_index. quiet. Qed.
Hint Resolve quiet_reads_on quiet_here quiet_lookup_name quiet_constant_index_of quiet_name_constant
  quiet_global_name_constant quiet_declare_program_global quiet_require_owned_global
  quiet_var_metadata_index : quiet.

(** ** Changes of the context that emit nothing *)
Definition neutral (f : FnContext → FnContext) : Prop :=
  ∀ x, same_frame x (f x) ∧ fn_code (f x) = fn_code x ∧ fn_handlers (f x) = fn_handlers x ∧
       fallthrough (f x) = fallthrough x.

Lemma neutral_extends f x a : neutral f → extends x (f x) a a.
Proof.
  intros Hf. destruct (Hf x) as (F & Hc & Hh & Hl). split; [done|].
  unfold exit_of. rewrite Hl. destruct (fallthrough x) eqn:E; [|done].
  exists [], []. rewrite !app_nil_r. split_and!; [done|done|].
  unfold end_of. rewrite Hc. apply seg_nil.
Qed.

Lemma yields_update f a : neutral f → yields (update_ctx f : comp ()) a a.
Proof.
  intros Hf c x rest r c' Hi Hc E. unfold update_ctx in E. rewrite Hc in E. injection E as _ <-.
  split; [done|]. exists (f x). split; [done|]. by apply neutral_extends.
Qed.

Lemma neutral_loops l : neutral (λ x, with_loops (l x) x).
Proof. intros x. by split_and!. Qed.
Lemma neutral_tries l : neutral (λ x, with_tries (l x) x).
Proof. intros x. by split_and!. Qed.
Lemma neutral_push : neutral (λ x, with_scopes (push_scope (fn_scopes x)) x).
Proof. intros x. by split_and!. Qed.

(** A new scope stack that does not lower the frame. *)
Lemma yields_scopes s a c x rest r c' :
  (high_water (fn_scopes x) ≤ high_water s)%N →
  inv c → contexts c = x :: rest → update_ctx (with_scopes s) c = (Ok r, c') →
  inv c' ∧ ∃ x', contexts c' = x' :: rest ∧ extends x x' a a.
Proof.
  intros Hs Hi Hc E. unfold update_ctx in E. rewrite Hc in E. injection E as _ <-.
  split; [done|]. exists (with_scopes s x). split; [done|]. split; [by split|].
  unfold exit_of. cbn. destruct (fallthrough x) eqn:E; [|done].
  exists [], []. rewrite !app_nil_r. split_and!; [done|done|apply seg_nil].
Qed.

Lemma ctx_ok c x rest r c' : contexts c = x :: rest → ctx c = (Ok r, c') → r = x ∧ c' = c.
Proof. intros Hc E. unfold ctx in E. rewrite Hc in E. by injection E as <- <-. Qed.

Lemma yields_open_scope a : yields (open_scope : comp ()) a a.
Proof. apply yields_update, neutral_push. Qed.

Lemma or_crash_ok {A} (o : option A) c y c' : or_crash o c = (Ok y, c') → o = Some y ∧ c' = c.
Proof. destruct o; [|done]. by intros [= <- <-]. Qed.

Lemma yields_close_scope a : yields (close_scope : comp ()) a a.
Proof.
  intros c x rest r c' Hi Hc E. unfold close_scope in E.
  apply prog_bind_ok in E as (y & c1 & E1 & E). destruct (ctx_ok _ _ _ _ _ Hc E1) as [-> ->].
  apply prog_bind_ok in E as (s & c2 & E2 & E). apply or_crash_ok in E2 as [Hs ->].
  apply (yields_scopes s a c x rest r c'); [|done..].
  unfold pop_scope in Hs. destruct (scopes (fn_scopes x)); [done|]. by injection Hs as <-.
Qed.

Lemma declare_high name s slot s' : declare name s = Some (Ok (slot, s')) → (high_water s ≤ high_water s')%N.
Proof.
  unfold declare. destruct (scopes s); [done|]. case_match; [done|]. intros [= _ <-]. simpl. lia.
Qed.
Lemma declare_hidden_high s slot s' : declare_hidden s = Ok (slot, s') → (high_water s ≤ high_water s')%N.
Proof. unfold declare_hidden. case_match; [done|]. intros [= _ <-]. simpl. lia. Qed.

Lemma yields_declare_local name p a : yields (declare_local name p : comp N) a a.
Proof.
  intros c x rest r c' Hi Hc E. unfold declare_local in E.
  apply prog_bind_ok in E as (y & c1 & E1 & E). destruct (ctx_ok _ _ _ _ _ Hc E1) as [-> ->].
  apply prog_bind_ok in E as (d & c2 & E2 & E). apply or_crash_ok in E2 as [Hd ->].
  destruct d as [[slot s]|e]; [|done].
  apply prog_bind_ok in E as (u & c2 & E2 & [= _ <-]).
  apply (yields_scopes s a c x rest u c2); [by eapply declare_high|done..].
Qed.

Lemma yields_declare_hidden a : yields (declare_hidden_local : comp N) a a.
Proof.
  intros c x rest r c' Hi Hc E. unfold declare_hidden_local in E.
  apply prog_bind_ok in E as (y & c1 & E1 & E). destruct (ctx_ok _ _ _ _ _ Hc E1) as [-> ->].
  destruct (declare_hidden (fn_scopes x)) as [[slot s]|e] eqn:Hd; [|done].
  apply prog_bind_ok in E as (u & c2 & E2 & [= _ <-]).
  apply (yields_scopes s a c x rest u c2); [by eapply declare_hidden_high|done..].
Qed.

(** ** Emission *)
Lemma emit_ok i p c x rest r c' :
  contexts c = x :: rest → emit i p c = (Ok r, c') →
  fallthrough x = true ∧ r = end_of x ∧
  c' = with_contexts (with_code (fn_code x ++ [i]) (record (fn_source_map x) p) x :: rest) c.
Proof.
  intros Hc E. unfold emit in E. apply prog_bind_ok in E as (y & c1 & E1 & E).
  destruct (ctx_ok _ _ _ _ _ Hc E1) as [-> ->]. destruct (fallthrough x) eqn:El; [|done].
  cbn [negb] in E. apply prog_bind_ok in E as (u & c2 & E2 & [= <- <-]).
  unfold update_ctx in E2. rewrite Hc in E2. by injection E2 as _ <-.
Qed.

Lemma yields_emit i p a o :
  falls_through i = true → pops i ≤ a → o ≤ a - pops i + pushes i → yields (emit i p : comp nat) a o.
Proof.
  intros Hf Ha Ho c x rest r c' Hi Hc E. destruct (emit_ok _ _ _ _ _ _ _ Hc E) as (El & _ & ->).
  split; [done|]. eexists. split; [done|]. split; [by split|]. rewrite El.
  exists [i], []. rewrite app_nil_r. split_and!; [done|done|].
  apply seg_step; [done|]. unfold exit_of. cbn. rewrite El.
  intros q n [= -> ->]%list_elem_of_singleton. left. split_and!; [|done|done].
  unfold end_of. cbn. rewrite length_app. simpl. lia.
Qed.

Lemma yields_emit_ i p a o :
  falls_through i = true → pops i ≤ a → o ≤ a - pops i + pushes i → yields (emit_ i p : comp ()) a o.
Proof.
  intros. eapply yields_bind; [by apply yields_emit|intros; by apply yields_ret].
Qed.
Lemma yields_emit_at i s a o :
  falls_through i = true → pops i ≤ a → o ≤ a - pops i + pushes i → yields (emit_at i s : comp ()) a o.
Proof. apply yields_emit_. Qed.

(** ** Control *)
Lemma reads_on_ok c x rest r c' : contexts c = x :: rest → reads_on c = (Ok r, c') → r = fallthrough x ∧ c' = c.
Proof.
  intros Hc E. unfold reads_on in E. apply prog_bind_ok in E as (y & c1 & E1 & [= <- <-]).
  by destruct (ctx_ok _ _ _ _ _ Hc E1) as [-> ->].
Qed.

Lemma dead_extends x a o : fallthrough x = false → extends x x a o.
Proof. intros E. split; [apply same_frame_refl|]. by rewrite E. Qed.

Lemma yields_if_live (m : comp ()) a o : yields m a o → yields (if_live m) a o.
Proof.
  intros Hm c x rest r c' Hi Hc E. unfold if_live in E.
  apply prog_bind_ok in E as (live & c1 & E1 & E). destruct (reads_on_ok _ _ _ _ _ Hc E1) as [-> ->].
  destruct (fallthrough x) eqn:El; [by eapply Hm|]. injection E as _ <-.
  split; [done|]. exists x. split; [done|]. by apply dead_extends.
Qed.

Lemma yields_live_or {A} (r : A) (k : comp A) a o :
  yields k a o → yields (live ← reads_on; if negb live then mret r else k) a o.
Proof.
  intros Hk c x rest y c' Hi Hc E.
  apply prog_bind_ok in E as (live & c1 & E1 & E). destruct (reads_on_ok _ _ _ _ _ Hc E1) as [-> ->].
  destruct (fallthrough x) eqn:El; cbn [negb] in E; [by eapply Hk|]. injection E as _ <-.
  split; [done|]. exists x. split; [done|]. by apply dead_extends.
Qed.

(** An instruction no control passes. *)
Lemma yields_stop i s a o :
  pops i ≤ a → yields (emit_at i s;; set_fallthrough false : comp ()) a o.
Proof.
  intros Ha c x rest y c' Hi Hc E. apply prog_bind_ok in E as (u & c1 & E1 & E).
  apply prog_bind_ok in E1 as (at_ & c2 & E1 & [= _ ->]).
  destruct (emit_ok _ _ _ _ _ _ _ Hc E1) as (El & _ & ->).
  unfold set_fallthrough, update_ctx in E. cbn in E. injection E as _ <-.
  split; [done|]. eexists. split; [done|]. split; [by split|]. rewrite El.
  exists [i], []. rewrite app_nil_r. split_and!; [done|done|].
  apply seg_step; [done|]. by intros q n ?%not_elem_of_nil.
Qed.

Lemma yields_each {A} (f : A → comp ()) l a :
  (∀ y, y ∈ l → yields (f y) 0 1) → yields (each f l) a (a + length l).
Proof.
  revert a. induction l as [|y l IH]; intros a Hf; simpl; [apply yields_ret; lia|].
  eapply yields_bind.
  - apply (yields_frame _ 0 1 a). apply Hf. by left.
  - intros _. eapply yields_weaken; [apply (IH (1 + a))|lia|lia].
    intros z Hz. apply Hf. by right.
Qed.

(** [cleanup] runs whether or not [m] is rejected. *)
Lemma yields_bracket {A} (m : comp A) (cleanup : comp ()) a o :
  yields m a o → (∀ n, yields cleanup n n) →
  yields (result ← attempt m; cleanup;; rethrow result) a o.
Proof.
  intros Hm Hk c x rest r c' Hi Hc E.
  apply prog_bind_ok in E as (q & c1 & E1 & (u & c2 & E2 & E)%prog_bind_ok).
  unfold attempt in E1. destruct q as [y|e]; [|done]. injection E as -> <-.
  destruct (m c) as [[y'|[]] c0] eqn:Em; try done. injection E1 as -> ->.
  destruct (Hm _ _ _ _ _ Hi Hc Em) as (Hi1 & x1 & Hc1 & Hx1).
  destruct (Hk o _ _ _ _ _ Hi1 Hc1 E2) as (Hi2 & x2 & Hc2 & Hx2).
  split; [done|]. exists x2. split; [done|]. by eapply code_extends_trans.
Qed.

Lemma yields_bracket_then {A B} (m : comp A) (cleanup : comp ()) (k : A → comp B) a n o :
  yields m a n → (∀ n, yields cleanup n n) → (∀ y, yields (k y) n o) →
  yields (result ← attempt m; cleanup;; y ← rethrow result; k y) a o.
Proof.
  intros Hm Hc Hk c x rest r c' Hi Hc' E.
  assert (yields (result ← attempt m; cleanup;; rethrow result) a n) as Hb by by apply yields_bracket.
  apply prog_bind_ok in E as (q & c1 & E1 & (u & c2 & E2 & (y & c3 & E3 & E4)%prog_bind_ok)%prog_bind_ok).
  destruct (Hb c x rest y c3) as (Hi3 & x3 & Hc3 & Hx3); [done|done| |].
  { unfold mbind, prog_bind. by rewrite E1, E2. }
  destruct (Hk y _ _ _ _ _ Hi3 Hc3 E4) as (Hi4 & x4 & Hc4 & Hx4).
  split; [done|]. exists x4. split; [done|]. by eapply code_extends_trans.
Qed.
End pieces.
#[export] Hint Resolve quiet_reject quiet_checked_at quiet_checked_failure quiet_or_crash
  quiet_reads_on quiet_here quiet_lookup_name quiet_constant_index_of quiet_name_constant
  quiet_global_name_constant quiet_declare_program_global quiet_require_owned_global
  quiet_var_metadata_index : quiet.

(** An instruction with enough operands. *)
Ltac emits :=
  first [apply yields_emit_at|apply yields_emit_|apply yields_emit]; [reflexivity|simpl; lia|simpl; lia].

(** ** Patching *)
Definition retarget (target : nat) (i : Instruction) : Instruction :=
  match i with
  | Jump _ => Jump (as_u32 target)
  | JumpIfFalse _ => JumpIfFalse (as_u32 target)
  | _ => i
  end.

(** The code once the jumps have been patched. *)
Definition patched (jumps : list nat) (target : nat) (l : list Instruction) : list Instruction :=
  foldl (λ l j, alter (retarget target) j l) l jumps.

Lemma alter_middle {A} (f : A → A) n (l : list A) y r :
  n = length l → alter f n (l ++ y :: r) = l ++ f y :: r.
Proof. intros ->. induction l as [|z l IH]; simpl; [done|by f_equal]. Qed.

Lemma patched_app jumps jumps' target l :
  patched (jumps ++ jumps') target l = patched jumps' target (patched jumps target l).
Proof. apply foldl_app. Qed.

(** ** Runs from a context

    [from x m Q]: a run of [m] with [x] as the current function that returns
    [r] leaves a function [x'] with [Q r x'], and good prototypes. *)
Section runs.
Context {W : Type} `{TextEnv} `{ValueForms} `{CompilerEnv W}.
Abbreviation comp := (prog (Compiler W) compile_stop).
Implicit Types c : Compiler W.
Implicit Types x : FnContext.

Definition from {A} x (m : comp A) (Q : A → FnContext → Prop) : Prop :=
  ∀ c rest r c', inv c → contexts c = x :: rest → m c = (Ok r, c') →
    inv c' ∧ ∃ x', contexts c' = x' :: rest ∧ Q r x'.

Lemma from_yields {A} (m : comp A) a o : (∀ x, from x m (λ _ x', extends x x' a o)) → yields m a o.
Proof. intros Hm c x rest r c' Hi Hc E. by apply (Hm x c rest r c'). Qed.

Lemma from_bind {A B} x (m : comp A) (k : A → comp B) Q :
  from x m (λ r x', from x' (k r) Q) → from x (m ≫= k) Q.
Proof.
  intros Hm c rest r c' Hi Hc (y & c1 & E1 & E2)%prog_bind_ok.
  destruct (Hm _ _ _ _ Hi Hc E1) as (Hi1 & x1 & Hc1 & Hk). by apply (Hk c1).
Qed.

(** What a method leaves when control reaches it. *)
Definition lives {A} (m : comp A) (a o : nat) : Prop :=
  ∀ x, fallthrough x = true → from x m (λ _ x', extends x x' a o).

Lemma from_impl {A} x (m : comp A) (P Q : A → FnContext → Prop) :
  from x m P → (∀ r x', P r x' → Q r x') → from x m Q.
Proof.
  intros Hm HPQ c rest r c' Hi Hc E. destruct (Hm _ _ _ _ Hi Hc E) as (? & x' & ? & ?).
  split; [done|]. exists x'. auto.
Qed.

Lemma from_extends {A} x (m : comp A) a o (Q : A → FnContext → Prop) :
  yields m a o → (∀ r x', extends x x' a o → Q r x') → from x m Q.
Proof.
  intros Hm HQ c rest r c' Hi Hc E. destruct (Hm _ _ _ _ _ Hi Hc E) as (? & x' & ? & ?).
  split; [done|]. exists x'. auto.
Qed.

Lemma from_quiet {A} x (m : comp A) (Q : A → FnContext → Prop) :
  quiet m → (∀ r, Q r x) → from x m Q.
Proof.
  intros Hm HQ c rest r c' Hi Hc E. destruct (Hm _ _ _ E) as [Hc' Hp].
  split; [unfold inv; by rewrite Hp|]. exists x. split; [congruence|done].
Qed.

Lemma from_ret {A} x (r : A) (Q : A → FnContext → Prop) : Q r x → from x (mret r) Q.
Proof. intros HQ c rest y c' Hi Hc [= <- <-]. eauto. Qed.
Lemma yields_lives {A} (m : comp A) a o : yields m a o → lives m a o.
Proof. intros Hm x _. by eapply from_extends. Qed.
Lemma lives_if_live (m : comp ()) a o : lives m a o → yields (if_live m) a o.
Proof.
  intros Hm c x rest r c' Hi Hc E. unfold if_live in E.
  apply prog_bind_ok in E as (live & c1 & E1 & E). destruct (reads_on_ok _ _ _ _ _ Hc E1) as [-> ->].
  destruct (fallthrough x) eqn:El; [by apply (Hm x El c rest r c')|]. injection E as _ <-.
  split; [done|]. exists x. split; [done|]. by apply dead_extends.
Qed.
Lemma from_fail {A} x e (Q : A → FnContext → Prop) : from x (fail e) Q.
Proof. intros c rest y c' Hi Hc [=]. Qed.
Lemma from_ctx x (Q : FnContext → FnContext → Prop) : Q x x → from x ctx Q.
Proof.
  intros HQ c rest y c' Hi Hc E. unfold ctx in E. rewrite Hc in E. injection E as <- <-. eauto.
Qed.
Lemma from_reads_on x (Q : bool → FnContext → Prop) : Q (fallthrough x) x → from x reads_on Q.
Proof. intros HQ. apply from_bind, from_ctx, from_ret, HQ. Qed.
Lemma from_here x (Q : nat → FnContext → Prop) : Q (end_of x) x → from x here Q.
Proof. intros HQ. apply from_bind, from_ctx, from_ret, HQ. Qed.
Lemma from_or_crash {A} x (o : option A) (Q : A → FnContext → Prop) :
  (∀ y, o = Some y → Q y x) → from x (or_crash o) Q.
Proof. destruct o; intros HQ; [by apply from_ret, HQ|apply from_fail]. Qed.
Lemma from_update x f (Q : () → FnContext → Prop) : Q tt (f x) → from x (update_ctx f) Q.
Proof.
  intros HQ c rest [] c' Hi Hc E. unfold update_ctx in E. rewrite Hc in E. injection E as <-. eauto.
Qed.

Definition emitted (i : Instruction) (p : option Position) x : FnContext :=
  with_code (fn_code x ++ [i]) (record (fn_source_map x) p) x.
Lemma end_emitted i p x : end_of (emitted i p x) = S (end_of x).
Proof. unfold end_of. cbn. rewrite length_app. simpl. lia. Qed.
Lemma from_emit x i p (Q : nat → FnContext → Prop) :
  (fallthrough x = true → Q (end_of x) (emitted i p x)) → from x (emit i p) Q.
Proof.
  intros HQ. apply from_bind, from_ctx. destruct (fallthrough x) eqn:El; cbn [negb]; [|apply from_fail].
  apply from_bind, from_update, from_ret. by apply HQ.
Qed.
Lemma from_emit_ x i p (Q : () → FnContext → Prop) :
  (fallthrough x = true → Q tt (emitted i p x)) → from x (emit_ i p) Q.
Proof. intros HQ. apply from_bind, from_emit. intros El. apply from_ret. by apply HQ. Qed.

Lemma from_if_live x (m : comp ()) (Q : () → FnContext → Prop) :
  (fallthrough x = true → from x m Q) → (fallthrough x = false → Q tt x) → from x (if_live m) Q.
Proof.
  intros Hm HQ. apply from_bind, from_reads_on. destruct (fallthrough x); [by apply Hm|].
  by apply from_ret, HQ.
Qed.

Lemma from_patch_jump x j target (Q : () → FnContext → Prop) :
  Q tt (with_code (alter (retarget target) j (fn_code x)) (fn_source_map x) x) →
  from x (patch_jump j target) Q.
Proof.
  intros HQ. apply from_bind, from_ctx. apply from_bind.
  destruct (fn_code x !! j) as [i|] eqn:Hj; [|apply from_fail].
  assert (<[j := retarget target i]> (fn_code x) = alter (retarget target) j (fn_code x)) as Hi.
  { apply list_eq. intros k. destruct (decide (k = j)) as [->|Hne].
    - rewrite list_lookup_insert_eq by (by eapply lookup_lt_Some). by rewrite list_lookup_alter_eq, Hj.
    - by rewrite list_lookup_insert_ne, list_lookup_alter_ne. }
  destruct i; try apply from_fail; apply from_ret, from_update; cbn [retarget] in Hi; by rewrite Hi.
Qed.

Lemma from_patch_all x jumps target (Q : () → FnContext → Prop) :
  Q tt (with_code (patched jumps target (fn_code x)) (fn_source_map x) x) →
  from x (patch_all jumps target) Q.
Proof.
  revert x. induction jumps as [|j jumps IH]; intros x HQ.
  - apply from_ret. by destruct x.
  - apply from_bind, from_patch_jump, IH. exact HQ.
Qed.

(** Nothing emitted. *)
Record still x x' : Prop := {
  still_frame : same_frame x x';
  still_code : fn_code x' = fn_code x;
  still_handlers : fn_handlers x' = fn_handlers x;
}.

Lemma extends_emitted x i p a o :
  fallthrough x = true → falls_through i = true → pops i ≤ a → o ≤ a - pops i + pushes i →
  extends x (emitted i p x) a o.
Proof.
  intros El Hf Ha Ho. split; [by split|]. rewrite El.
  exists [i], []. rewrite app_nil_r. split_and!; [done|done|].
  apply seg_step; [done|]. unfold exit_of. cbn. rewrite El.
  intros q n [= -> ->]%list_elem_of_singleton. left. split_and!; [exact (end_emitted i p x)|done|done].
Qed.

Lemma from_open_scope x : from x (open_scope : comp ()) (λ _ x', still x x').
Proof. by apply from_update. Qed.
Lemma from_close_scope x : from x (close_scope : comp ()) (λ _ x', still x x').
Proof.
  apply from_bind, from_ctx, from_bind, from_or_crash. intros s Hs. apply from_update.
  unfold pop_scope in Hs. destruct (scopes (fn_scopes x)); [done|]. injection Hs as <-. by split.
Qed.
Lemma from_declare_local x name p : from x (declare_local name p : comp N) (λ _ x', still x x').
Proof.
  apply from_bind, from_ctx, from_bind, from_or_crash. intros [[slot s]|e] Hd; [|apply from_fail].
  apply from_bind, from_update, from_ret. split; [|done..]. split; [done..|]. by eapply declare_high.
Qed.

(** ** Growth of a context *)
Record grown x x' (l : list Instruction) (hs : list TryEntry) : Prop := {
  grown_frame : same_frame x x';
  grown_code : fn_code x' = fn_code x ++ l;
  grown_handlers : fn_handlers x' = fn_handlers x ++ hs;
}.

Lemma grown_end x x' l hs : grown x x' l hs → end_of x' = end_of x + length l.
Proof. intros [_ Hc _]. unfold end_of. by rewrite Hc, length_app. Qed.

Lemma grown_refl x : grown x x [] [].
Proof. split; [apply same_frame_refl|by rewrite app_nil_r..]. Qed.
Lemma grown_trans x y z l l' hs hs' : grown x y l hs → grown y z l' hs' → grown x z (l ++ l') (hs ++ hs').
Proof.
  intros [F1 C1 E1] [F2 C2 E2]. split; [by eapply same_frame_trans| |].
  - by rewrite C2, C1, app_assoc.
  - by rewrite E2, E1, app_assoc.
Qed.
Lemma grown_emitted x i p y l hs : grown x y l hs → grown x (emitted i p y) (l ++ [i]) hs.
Proof. intros [[] C E]. split; [by split| |done]. cbn. by rewrite C, app_assoc. Qed.
Lemma grown_fallthrough x b y l hs : grown x y l hs → grown x (with_fallthrough b y) l hs.
Proof. intros [[] C E]. split; [by split|done|done]. Qed.
Lemma grown_alter x y l hs f j map :
  grown x y l hs → end_of x ≤ j →
  grown x (with_code (alter f j (fn_code y)) map y) (alter f (j - end_of x) l) hs.
Proof.
  intros [[] C E] Hj. split; [by split| |done]. cbn. rewrite C.
  assert (j = end_of x + (j - end_of x)) as Heq by lia. rewrite Heq at 1. unfold end_of.
  apply alter_app_r.
Qed.

Lemma extends_live x x' a o :
  extends x x' a o → fallthrough x = true →
  ∃ l hs, grown x x' l hs ∧ seg (end_of x) l hs a (exit_of x' o).
Proof.
  intros [F Hx] El. rewrite El in Hx. destruct Hx as (l & hs & Hc & Hh & Hs). by exists l, hs.
Qed.
Lemma extends_grown x x' l hs a o :
  grown x x' l hs → fallthrough x = true → seg (end_of x) l hs a (exit_of x' o) → extends x x' a o.
Proof. intros [F C E] El Hs. split; [done|]. rewrite El. by exists l, hs. Qed.
Lemma extends_dead x x' a o : extends x x' a o → fallthrough x = false →
  fallthrough x' = false ∧ grown x x' [] [].
Proof.
  intros [F Hx] El. rewrite El in Hx. destruct Hx as (Hc & Hh & E).
  split; [done|]. split; [done|by rewrite app_nil_r..].
Qed.
Lemma extends_unreached x x' a o o' : extends x x' a o → fallthrough x' = false → extends x x' a o'.
Proof.
  intros [F Hx] El. split; [done|]. unfold exit_of in *. by rewrite El in *.
Qed.
End runs.

(** ** Jumps still to be patched *)
Definition patched_at (b : nat) (jumps : list nat) (target : nat) (l : list Instruction) : list Instruction :=
  patched ((λ j, j - b) <$> jumps) target l.

Lemma patched_length jumps target l : length (patched jumps target l) = length l.
Proof.
  revert l. induction jumps as [|j jumps IH]; intros l; [done|].
  change (length (patched jumps target (alter (retarget target) j l)) = length l).
  by rewrite IH, length_alter.
Qed.

Lemma patched_skip b jumps target pre l :
  (∀ j, j ∈ jumps → b + length pre ≤ j) →
  patched_at b jumps target (pre ++ l) = pre ++ patched_at (b + length pre) jumps target l.
Proof.
  revert l. induction jumps as [|j jumps IH]; intros l Hj; [done|].
  change (patched_at b jumps target (alter (retarget target) (j - b) (pre ++ l)) =
          pre ++ patched_at (b + length pre) jumps target (alter (retarget target) (j - (b + length pre)) l)).
  assert (b + length pre ≤ j) by (apply Hj; by left).
  replace (j - b) with (length pre + (j - (b + length pre))) by lia.
  rewrite alter_app_r. apply IH. intros k Hk. apply Hj. by right.
Qed.

Lemma patched_keep b jumps target l post :
  (∀ j, j ∈ jumps → b ≤ j < b + length l) →
  patched_at b jumps target (l ++ post) = patched_at b jumps target l ++ post.
Proof.
  revert l. induction jumps as [|j jumps IH]; intros l Hj; [done|].
  change (patched_at b jumps target (alter (retarget target) (j - b) (l ++ post)) =
          patched_at b jumps target (alter (retarget target) (j - b) l) ++ post).
  assert (b ≤ j < b + length l) by (apply Hj; by left).
  rewrite alter_app_l by lia. apply IH. intros k Hk. rewrite length_alter. apply Hj. by right.
Qed.

Lemma patched_at_app b jumps jumps' target l l' :
  (∀ j, j ∈ jumps → b ≤ j < b + length l) → (∀ j, j ∈ jumps' → b + length l ≤ j) →
  patched_at b (jumps ++ jumps') target (l ++ l') =
    patched_at b jumps target l ++ patched_at (b + length l) jumps' target l'.
Proof.
  intros Hj Hj'. unfold patched_at. rewrite fmap_app, patched_app.
  fold (patched_at b jumps target (l ++ l')). rewrite patched_keep by done.
  assert (length (patched_at b jumps target l) = length l) as Hlen by apply patched_length.
  change (patched_at b jumps' target (patched_at b jumps target l ++ l') =
          patched_at b jumps target l ++ patched_at (b + length l) jumps' target l').
  rewrite <- Hlen. apply patched_skip. by rewrite Hlen.
Qed.

Lemma patched_behind jumps target pre l :
  (∀ j, j ∈ jumps → length pre ≤ j) →
  patched jumps target (pre ++ l) = pre ++ patched_at (length pre) jumps target l.
Proof.
  intros Hj. assert (jumps = (λ j, j - 0) <$> jumps) as Hz.
  { rewrite <- (list_fmap_id jumps) at 1. apply list_fmap_ext. intros k j _. unfold id. lia. }
  rewrite Hz at 1. by apply (patched_skip 0).
Qed.

Section pending.
Context {W : Type} `{TextEnv} `{ValueForms} `{CompilerEnv W}.
Implicit Types x : FnContext.

(** From [x] to [x'], with jumps that arrive with [p] operands wherever they
    are patched to. *)
Definition pending x x' (jumps : list nat) (a o p : nat) : Prop :=
  ∃ l hs, grown x x' l hs ∧ (∀ j, j ∈ jumps → end_of x ≤ j < end_of x') ∧
    ∀ target, end_of x' ≤ target →
      seg (end_of x) (patched_at (end_of x) jumps target l) hs a
        (((λ _, (target, p)) <$> jumps) ++ exit_of x' o).

Lemma pending_none x x' a o p : extends x x' a o → fallthrough x = true → pending x x' [] a o p.
Proof.
  intros Hx El. destruct (extends_live _ _ _ _ Hx El) as (l & hs & G & S).
  exists l, hs. split_and!; [done|by intros j ?%not_elem_of_nil|]. intros target _. exact S.
Qed.

Lemma pending_trans x y z js js' a m o p :
  pending x y js a m p → fallthrough y = true → pending y z js' m o p →
  pending x z (js ++ js') a o p.
Proof.
  intros (l & hs & G & Hj & S) El (l' & hs' & G' & Hj' & S').
  pose proof (grown_end _ _ _ _ G) as Hend. pose proof (grown_end _ _ _ _ G') as Hend'.
  exists (l ++ l'), (hs ++ hs'). split_and!; [by eapply grown_trans| |].
  - intros j [Hin|Hin]%elem_of_app; [apply Hj in Hin|apply Hj' in Hin]; lia.
  - intros target Ht. rewrite patched_at_app; cycle 1.
    + intros j Hin. apply Hj in Hin. lia.
    + intros j Hin. apply Hj' in Hin. lia.
    + assert (length (patched_at (end_of x) js target l) = length l) as Hlen by apply patched_length.
      specialize (S target ltac:(lia)). specialize (S' target Ht). rewrite Hend in S'.
      rewrite <- Hlen in S'. rewrite <- Hlen. eapply seg_cut; [exact S| |exact S'|..].
      * apply elem_of_app. right. unfold exit_of. rewrite El, Hlen, Hend. by left.
      * rewrite Hlen. intros q n [Hin|Hin]%elem_of_app.
        -- apply list_elem_of_fmap in Hin as (? & [= -> ->] & _). lia.
        -- apply exit_of_forward in Hin as (-> & _). lia.
      * intros q n Hin. rewrite fmap_app, !elem_of_app in Hin.
        destruct Hin as [[Hin|Hin]|Hin]; [left|right|right]; apply elem_of_app; tauto.
Qed.

Lemma pending_extends x y z js a m o p :
  pending x y js a m p → extends y z m o → pending x z js a o p.
Proof.
  intros Hp Hx. destruct (fallthrough y) eqn:El.
  - rewrite <- (app_nil_r js). eapply pending_trans; [done|done|]. by apply pending_none.
  - destruct Hp as (l & hs & G & Hj & S). destruct (extends_dead _ _ _ _ Hx El) as [Ez G'].
    pose proof (grown_trans _ _ _ _ _ _ _ G G') as G2. rewrite !app_nil_r in G2.
    assert (end_of z = end_of y) as Hend by (apply grown_end in G, G2; lia).
    exists l, hs. rewrite Hend. split_and!; [done|done|]. intros target Ht.
    eapply seg_sub; [by apply S|done|]. intros q n [Hin|Hin]%elem_of_app.
    + exists n. split; [|done]. apply elem_of_app. by left.
    + apply exit_of_forward in Hin as (_ & _ & ?). congruence.
Qed.

Lemma pending_weaken x y js a o p a' o' : pending x y js a o p → a ≤ a' → o' ≤ o → pending x y js a' o' p.
Proof.
  intros (l & hs & G & Hj & S) Ha Ho. exists l, hs. split_and!; [done|done|]. intros target Ht.
  eapply seg_sub; [by apply S|done|]. intros q n [Hin|Hin]%elem_of_app.
  - exists n. split; [|done]. apply elem_of_app. by left.
  - apply exit_of_forward in Hin as (-> & -> & E). exists o. split; [|done].
    apply elem_of_app. right. unfold exit_of. rewrite E. by left.
Qed.

(** Once patched to the end, which is live when a jump arrives. *)
Lemma pending_close x x' js a o p b map :
  pending x x' js a o p → fallthrough x = true → o ≤ p →
  (b = true → fallthrough x' = true ∨ js ≠ []) →
  extends x (with_fallthrough b
    (with_code (patched js (end_of x') (fn_code x')) map x')) a o.
Proof.
  intros (l & hs & [[] C E] & Hj & S) El Ho Hb.
  set (t := end_of x') in *.
  assert (patched js t (fn_code x') = fn_code x ++ patched_at (end_of x) js t l) as Hc.
  { rewrite C. apply patched_behind. intros j Hin. apply Hj in Hin. unfold end_of in Hin. lia. }
  split; [by split|]. rewrite El. exists (patched_at (end_of x) js t l), hs. split_and!; [done|done|].
  eapply seg_sub; [by apply (S t)|done|]. intros q n (-> & -> & Hl)%exit_of_forward. cbn in Hl. subst b.
  assert (∀ y m, end_of (with_fallthrough true (with_code (patched js t (fn_code y)) m y)) = end_of y) as He.
  { intros y m. unfold end_of. cbn. apply patched_length. }
  rewrite He. destruct (Hb eq_refl) as [Hx|Hne].
  - exists o. split; [|done]. apply elem_of_app. right. unfold exit_of. rewrite Hx. by left.
  - exists p. split; [|done]. apply elem_of_app. left. destruct js; [done|]. by left.
Qed.
(** The conditional jump of [and]: the operand stays for whom it jumps to. *)
Lemma pending_and x p1 p2 p3 :
  fallthrough x = true →
  pending x (emitted Pop p3 (emitted (JumpIfFalse 0) p2 (emitted Dup p1 x))) [S (end_of x)] 1 0 1.
Proof.
  intros El. exists [Dup; JumpIfFalse 0; Pop], []. split_and!.
  - apply (grown_emitted _ _ _ _ [Dup; JumpIfFalse 0] []), (grown_emitted _ _ _ _ [Dup] []),
      (grown_emitted _ _ _ _ [] []), grown_refl.
  - intros j ->%list_elem_of_singleton. unfold end_of. cbn. rewrite !length_app. simpl. lia.
  - intros t Ht. unfold patched_at. cbn [fmap list_fmap]. replace (S (end_of x) - end_of x) with 1 by lia.
    assert (end_of (emitted Pop p3 (emitted (JumpIfFalse 0) p2 (emitted Dup p1 x))) = end_of x + 3) as He
      by (unfold end_of; cbn; rewrite !length_app; simpl; lia).
    unfold exit_of. rewrite He in *. cbn [fallthrough emitted with_code]. rewrite El.
    apply (seg_snoc _ [Dup; JumpIfFalse (as_u32 t)] [] _ [(end_of x + 2, 1); (t, 1)] 1).
    + apply (seg_snoc _ [Dup] [] _ [(end_of x + 1, 2)] 2).
      * apply seg_step; [done|]. intros q n [= -> ->]%list_elem_of_singleton. left. simpl. split_and!; [lia|done|lia].
      * simpl. by left.
      * simpl. lia.
      * intros q n [[= -> ->]|[= -> ->]%list_elem_of_singleton]%elem_of_cons; right; simpl.
        -- left. split_and!; [lia|done|lia].
        -- right. split_and!; [lia|lia|by right].
    + simpl. by left.
    + done.
    + intros q n [[= -> ->]|[= -> ->]%list_elem_of_singleton]%elem_of_cons.
      * left. right. by left.
      * right. left. simpl. split_and!; [lia|done|lia].
Qed.

(** The jumps of [or], the first of them patched. *)
Lemma pending_or x y p3 :
  fallthrough x = true → fallthrough y = true →
  grown x y [Dup; JumpIfFalse (as_u32 (end_of x + 3)); Jump 0] [] →
  pending x (emitted Pop p3 y) [S (S (end_of x))] 1 0 1.
Proof.
  intros El Ey G. pose proof (grown_emitted _ Pop p3 _ _ _ G) as G'.
  pose proof (grown_end _ _ _ _ G') as He. simpl in He.
  exists ([Dup; JumpIfFalse (as_u32 (end_of x + 3)); Jump 0] ++ [Pop]), []. split_and!; [done| |].
  - intros j ->%list_elem_of_singleton. lia.
  - intros t Ht. unfold patched_at. cbn [fmap list_fmap]. replace (S (S (end_of x)) - end_of x) with 2 by lia.
    unfold exit_of. rewrite He in *. cbn [fallthrough emitted with_code]. rewrite Ey.
    set (j := JumpIfFalse (as_u32 (end_of x + 3))).
    apply (seg_cut _ [Dup; j; Jump (as_u32 t)] [] _ [(end_of x + 3, 1); (t, 1)] 1 [Pop] [] [(end_of x + 4, 0)]).
    + apply (seg_snoc _ [Dup; j] [] _ [(end_of x + 2, 1); (end_of x + 3, 1)] 1).
      * apply (seg_snoc _ [Dup] [] _ [(end_of x + 1, 2)] 2).
        -- apply seg_step; [done|]. intros q n [= -> ->]%list_elem_of_singleton. left. simpl. split_and!; [lia|done|lia].
        -- simpl. by left.
        -- simpl. lia.
        -- intros q n [[= -> ->]|[= -> ->]%list_elem_of_singleton]%elem_of_cons; right; simpl.
           ++ left. split_and!; [lia|done|lia].
           ++ right. split_and!; [lia|lia|by right].
      * simpl. by left.
      * simpl. lia.
      * intros q n [[= -> ->]|[= -> ->]%list_elem_of_singleton]%elem_of_cons.
        -- left. right. by left.
        -- right. right. simpl. split_and!; [lia|lia|by left].
    + simpl. by left.
    + apply seg_step; [done|]. intros q n [= -> ->]%list_elem_of_singleton. left. simpl. split_and!; [lia|done|lia].
    + intros q n [= -> ->]%list_elem_of_singleton. simpl. lia.
    + intros q n [[= -> ->]|[= -> ->]%list_elem_of_singleton]%elem_of_cons.
      * left. right. by left.
      * right. left.
Qed.
End pending.
(** ** Protected regions *)
Section guarded.
Context {W : Type} `{TextEnv} `{ValueForms} `{CompilerEnv W}.
Abbreviation comp := (prog (Compiler W) compile_stop).
Implicit Types x : FnContext.

(** What an entry may still become. *)
Record refines (e e' : TryEntry) : Prop := {
  refines_start : try_start e' = try_start e;
  refines_catches c : c ∈ catches e → c ∈ catches e';
  refines_finally : finally e = None ∨ finally e' = finally e;
}.

Lemma refines_refl e : refines e e.
Proof. split; [done|done|by right]. Qed.
Lemma refines_trans e e' e'' : refines e e' → refines e' e'' → refines e e''.
Proof.
  intros [S1 C1 F1] [S2 C2 F2]. split; [congruence|auto|].
  destruct F1 as [F1|F1]; [by left|]. destruct F2 as [F2|F2]; [left; congruence|right; congruence].
Qed.

(** From [x] to [y] inside the region of the entry [e], the first added: the
    jumps arrive with [p] operands, the end is reached with those of [ex]. *)
Definition guarded x y (e : TryEntry) (jumps : list nat) (p : nat) (ex : option nat) : Prop :=
  ∃ l hs, grown x y l (e :: hs) ∧ try_start e = as_u32 (end_of x) ∧
    (∀ j, j ∈ jumps → end_of x ≤ j < end_of y) ∧
    ∀ target e', end_of y ≤ target → refines e e' →
      seg (end_of x) (patched_at (end_of x) jumps target l) (e' :: hs) 0
        (((λ _, (target, p)) <$> jumps) ++ match ex with Some o => [(end_of y, o)] | None => [] end).

Definition when_live x (o : nat) : option nat := if fallthrough x then Some o else None.

Lemma when_live_exit x o : match when_live x o with Some o => [(end_of x, o)] | None => [] end = exit_of x o.
Proof. unfold when_live, exit_of. by destruct (fallthrough x). Qed.

Lemma guarded_start x e p :
  try_start e = as_u32 (end_of x) → guarded x (with_handlers (fn_handlers x ++ [e]) x) e [] p (Some 0).
Proof.
  intros Hs. exists [], []. split_and!; [|done|by intros j ?%not_elem_of_nil|].
  - split; [by split|by rewrite app_nil_r|done].
  - intros target e' _ _. apply seg_handlers with []; [apply seg_nil|by intros ? ?%not_elem_of_nil].
Qed.

Lemma guarded_extends x y z e js p m o :
  guarded x y e js p (Some m) → fallthrough y = true → extends y z m o → guarded x z e js p (when_live z o).
Proof.
  intros (l & hs & G & Hs & Hj & S) El Hx.
  destruct (extends_live _ _ _ _ Hx El) as (l' & hs' & G' & S').
  pose proof (grown_end _ _ _ _ G) as Hend. pose proof (grown_end _ _ _ _ G') as Hend'.
  exists (l ++ l'), (hs ++ hs'). split_and!; [exact (grown_trans _ _ _ _ _ _ _ G G')|done| |].
  - intros j Hin. apply Hj in Hin. lia.
  - intros target e' Ht He. rewrite patched_keep by (intros j Hin; apply Hj in Hin; lia).
    rewrite when_live_exit, app_comm_cons.
    assert (length (patched_at (end_of x) js target l) = length l) as Hlen by apply patched_length.
    rewrite Hend, <- Hlen in S'.
    eapply seg_cut; [apply (S target e'); [lia|done]| |exact S'|..].
    + apply elem_of_app. right. rewrite Hlen, Hend. by left.
    + intros q n (-> & _)%exit_of_forward. lia.
    + intros q n [Hin|Hin]%elem_of_app; [left; apply elem_of_app; by left|by right].
Qed.

Lemma guarded_still x y z e js p ex : guarded x y e js p ex → still y z → guarded x z e js p ex.
Proof.
  intros (l & hs & [F C E] & Hs & Hj & S) [Hf Hc Hh].
  assert (end_of z = end_of y) as Hend by (unfold end_of; by rewrite Hc).
  exists l, hs. rewrite Hend. split_and!; [|done..].
  split; [by eapply same_frame_trans|congruence|congruence].
Qed.

Lemma guarded_drop x y e js p ex : guarded x y e js p ex → guarded x y e js p None.
Proof.
  intros (l & hs & G & Hs & Hj & S). exists l, hs. split_and!; [done..|].
  intros target e' Ht He. eapply seg_sub; [by apply (S target e')|done|].
  intros q n Hin. rewrite app_nil_r in Hin. exists n. split; [|done]. apply elem_of_app. by left.
Qed.

(** A jump over the clauses. *)
Lemma guarded_jump x y e js m position :
  guarded x y e js m (Some m) → guarded x (emitted (Jump 0) position y) e (js ++ [end_of y]) m None.
Proof.
  intros (l & hs & G & Hs & Hj & S). pose proof (grown_end _ _ _ _ G) as Hend.
  exists (l ++ [Jump 0]), hs. split_and!; [by apply grown_emitted|done| |].
  - rewrite end_emitted. intros j [Hin|Hin]%elem_of_app; [apply Hj in Hin; lia|].
    apply list_elem_of_singleton in Hin as ->. lia.
  - rewrite end_emitted. intros target e' Ht He. rewrite patched_at_app; cycle 1.
    + intros j Hin. apply Hj in Hin. lia.
    + intros j ->%list_elem_of_singleton. lia.
    + assert (length (patched_at (end_of x) js target l) = length l) as Hlen by apply patched_length.
      unfold patched_at at 2. cbn [fmap list_fmap]. replace (end_of y - (end_of x + length l)) with 0 by lia.
      change (patched [0] target [Jump 0]) with [Jump (as_u32 target)].
      eapply (seg_snoc _ _ _ _ _ m); [by apply (S target e'); [lia|]| |simpl; lia|].
      * apply elem_of_app. right. rewrite Hlen, Hend. by left.
      * intros q n. rewrite app_nil_r, fmap_app. intros [Hin|Hin]%elem_of_app.
        -- left. apply elem_of_app. by left.
        -- apply list_elem_of_singleton in Hin as [= -> ->]. right. right.
           rewrite Hlen. simpl. split_and!; [lia|lia|by left].
Qed.

(** The entry is completed. *)
Lemma guarded_refine x y e js p ex e1 :
  guarded x y e js p ex → refines e e1 →
  guarded x (with_handlers (<[length (fn_handlers x) := e1]> (fn_handlers y)) y) e1 js p ex.
Proof.
  intros (l & hs & [[] C E] & Hs & Hj & S) He.
  exists l, hs. split_and!; [|by rewrite (refines_start _ _ He)|done|].
  - split; [by split|done|]. cbn. rewrite E, <- (Nat.add_0_r (length (fn_handlers x))).
    exact (insert_app_r _ _ 0 _).
  - intros target e' Ht He'. apply S; [done|by eapply refines_trans].
Qed.

(** Control arrives at a clause from the region's start. *)
Lemma guarded_target x y e js p :
  guarded x y e js p None →
  ((∃ c, c ∈ catches e ∧ catch_target c = as_u32 (end_of y)) ∨ finally e = Some (as_u32 (end_of y))) →
  guarded x y e js p (Some 0).
Proof.
  intros (l & hs & G & Hs & Hj & S) Ht. exists l, hs. split_and!; [done..|].
  intros target e' Htarget He'. pose proof (S target e' Htarget He') as S1. rewrite app_nil_r in S1.
  eapply seg_handler; [exact S1|by left|by rewrite (refines_start _ _ He')|].
  intros q n [= -> ->]%list_elem_of_singleton. split_and!; [|done|].
  - apply grown_end in G. lia.
  - destruct Ht as [(c & Hc & Hct)|Hf].
    + left. exists c. split; [by apply (refines_catches _ _ He')|done].
    + right. destruct (refines_finally _ _ He') as [Hn|Heq]; congruence.
Qed.

(** The jumps arrive where the finally begins. *)
Lemma guarded_patched x y e js p ex map :
  guarded x y e js p ex → (js = [] ∨ ∃ o, ex = Some o ∧ o ≤ p) →
  guarded x (with_code (patched js (end_of y) (fn_code y)) map y) e [] p ex.
Proof.
  intros (l & hs & [[] C E] & Hs & Hj & S) Hex.
  assert (patched js (end_of y) (fn_code y) = fn_code x ++ patched_at (end_of x) js (end_of y) l) as Hc.
  { rewrite C. apply patched_behind. intros j Hin. apply Hj in Hin. unfold end_of in Hin. lia. }
  assert (end_of (with_code (patched js (end_of y) (fn_code y)) map y) = end_of y) as Hend by apply patched_length.
  exists (patched_at (end_of x) js (end_of y) l), hs. rewrite Hend.
  split_and!; [by split; [split| |]|done|by intros j ?%not_elem_of_nil|].
  intros target e' Ht He. eapply seg_sub; [by apply (S (end_of y) e')|done|].
  intros q n Hin. exists n. split; [|done]. apply elem_of_app. by right.
Qed.

(** What leaves the region: the end, or the jumps when they are patched to it. *)
Lemma guarded_leave x z e p o : guarded x z e [] p (when_live z o) → fallthrough x = true → extends x z 0 o.
Proof.
  intros (l & hs & G & _ & _ & S) El. eapply extends_grown; [exact G|done|].
  specialize (S (end_of z) e ltac:(lia) (refines_refl e)). by rewrite when_live_exit in S.
Qed.

Lemma guarded_join x y e js p b map :
  guarded x y e js p None → fallthrough x = true → (b = true → js ≠ []) →
  extends x (with_fallthrough b (with_code (patched js (end_of y) (fn_code y)) map y)) 0 p.
Proof.
  intros Hg El Hb. destruct Hg as (l & hs & [[] C E] & Hs & Hj & S).
  assert (patched js (end_of y) (fn_code y) = fn_code x ++ patched_at (end_of x) js (end_of y) l) as Hc.
  { rewrite C. apply patched_behind. intros j Hin. apply Hj in Hin. unfold end_of in Hin. lia. }
  eapply extends_grown; [split; [by split|exact Hc|exact E]|done|].
  eapply seg_sub; [by apply (S (end_of y) e); [|apply refines_refl]|done|].
  intros q n (-> & -> & Hl)%exit_of_forward. cbn in Hl. subst b. exists p. split; [|done].
  apply elem_of_app. left. destruct js; [by destruct (Hb eq_refl)|].
  replace (end_of _) with (end_of y) by (symmetry; apply patched_length). by left.
Qed.
End guarded.
