(* ===== verification/CompilerFacts.v ===== *)
(** * Compiled code

    The methods of [Lowering] append segments: each leaves one more operand on
    the stack than it found wherever control reaches its end. *)
From S2P Require Import Prelude Bytes Text Opcode Kernel Reader Printer Program DefinitionForms Destructure Scope Compiler Captures Validate Lowering Runs Segments ReaderRuns.
#[local] Open Scope nat_scope.

(** ** Lowering *)
Section lowering.
Context {W : Type} `{TextEnv} `{ValueForms} `{CompilerEnv W}.
Abbreviation comp := (prog (Compiler W) compile_stop).
Variable compile_form : Form → Span → option (list SpannedForm) → bool → comp ().
Variable collect_free : list string → Child → list (string * option Position) →
  comp (list (string * option Position)).
Hypothesis compile_yields : ∀ form s nodes tail, yields (compile_form form s nodes tail) 0 1.
Hypothesis collect_quiet : ∀ bound child found, quiet (collect_free bound child found).

Lemma child_yields child tail : yields (compile_child compile_form child tail) 0 1.
Proof. apply compile_yields. Qed.
Lemma nested_yields s form : yields (compile_nested compile_form s form) 0 1.
Proof. apply compile_yields. Qed.

Lemma yields_modify (f : Compiler W → Compiler W) a :
  (∀ c, contexts (f c) = contexts c ∧ prototypes (f c) = prototypes c) → yields (modify f : comp ()) a a.
Proof. intros Hf. by apply yields_quiet, quiet_modify. Qed.

Lemma sequence_loop_yields top tail l : l ≠ [] → yields (sequence_loop compile_form top tail l) 0 1.
Proof.
  induction l as [|child l IH]; [done|]. intros _. cbn [sequence_loop]. apply yields_if_live.
  apply yields_after; [quiet|]. intros _. destruct l as [|next l]; [apply child_yields|].
  eapply yields_bind; [apply child_yields|intros _].
  eapply yields_bind; [apply yields_if_live, (yields_emit_at Pop _ 1 0); [done|simpl; lia..]|intros _].
  by apply IH.
Qed.

Lemma sequence_yields l tail : yields (compile_sequence compile_form l tail) 0 1.
Proof.
  unfold compile_sequence. destruct l as [|child l].
  - emits.
  - apply yields_after; [quiet|]. intros c. by apply sequence_loop_yields.
Qed.

Lemma children_yields l a : yields (each (λ argument, compile_child compile_form argument false) l) a (a + length l).
Proof. apply yields_each. intros. apply child_yields. Qed.

(** A branch: a conditional jump over code that jumps to the end. *)
Lemma seg_branch b lt ht (live : bool) te en :
  S b + length lt ≤ te → S b + length lt ≤ en →
  seg (S b) lt ht 0 (if live then [(S b + length lt, 1)] else []) →
  seg b (JumpIfFalse (as_u32 te) :: lt ++ (if live then [Jump (as_u32 en)] else [])) ht 1
    ((te, 0) :: if live then [(en, 1)] else []).
Proof.
  intros Hte Hen Ht.
  assert (seg b (JumpIfFalse (as_u32 te) :: lt) ht 1
            ((te, 0) :: if live then [(S b + length lt, 1)] else [])) as H1'.
  { apply (seg_cut b [JumpIfFalse (as_u32 te)] [] 1 [(S b, 0); (te, 0)] 0 lt ht
      (if live then [(S b + length lt, 1)] else [])).
    - apply seg_step; [done|]. intros p o Hin.
      apply elem_of_cons in Hin as [[= -> ->]|Hin]; [left; split_and!; [done|done|simpl; lia]|].
      apply list_elem_of_singleton in Hin as [= -> ->]. right. split; [lia|by right].
    - apply elem_of_cons. left. f_equal. simpl. lia.
    - replace (b + length [JumpIfFalse (as_u32 te)]) with (S b) by (simpl; lia). exact Ht.
    - intros p o Hin. destruct live; [|by apply not_elem_of_nil in Hin].
      apply list_elem_of_singleton in Hin as [= -> ->]. simpl. lia.
    - intros p o Hin. apply elem_of_cons in Hin as [[= -> ->]|Hin]; [left; right; by left|by right]. }
  destruct live; [|by rewrite app_nil_r].
  apply (seg_snoc b (JumpIfFalse (as_u32 te) :: lt) ht 1 _ 1 (Jump (as_u32 en)) _ H1').
  - apply elem_of_cons. right. apply list_elem_of_singleton. f_equal. simpl. lia.
  - simpl. lia.
  - intros p o Hin. apply elem_of_cons in Hin as [[= -> ->]|Hin]; [left; by left|].
    apply list_elem_of_singleton in Hin as [= -> ->]. right. right.
    split_and!; [simpl; lia|simpl; lia|by left].
Qed.

(** The segment of a conditional, after its test. *)
Lemma seg_if b lt ht le he (t_live e_live : bool) te en :
  te = S b + length lt + (if t_live then 1 else 0) → en = te + length le →
  seg (S b) lt ht 0 (if t_live then [(S b + length lt, 1)] else []) →
  seg te le he 0 (if e_live then [(en, 1)] else []) →
  seg b (JumpIfFalse (as_u32 te) :: lt ++ (if t_live then [Jump (as_u32 en)] else []) ++ le)
    (ht ++ he) 1 (if t_live || e_live then [(en, 1)] else []).
Proof.
  intros Hte Hen Ht He.
  assert (S b + length lt ≤ te ∧ S b + length lt ≤ en) as [Hle Hle'] by (destruct t_live; lia).
  pose proof (seg_branch b lt ht t_live te en Hle Hle' Ht) as H2'.
  rewrite (app_assoc lt), app_comm_cons.
  eapply (seg_cut b _ ht 1 _ 0 le he _ _ H2'); [| |..].
  - apply elem_of_cons. left. f_equal. rewrite Hte. destruct t_live; simpl; rewrite length_app; simpl; lia.
  - match goal with |- seg ?q _ _ _ _ => replace q with te end; [exact He|].
    rewrite Hte. destruct t_live; simpl; rewrite length_app; simpl; lia.
  - intros p o Hin. destruct e_live; [|by apply not_elem_of_nil in Hin].
    apply list_elem_of_singleton in Hin as [= -> ->].
    rewrite Hen, Hte. destruct t_live; simpl; rewrite length_app; simpl; lia.
  - intros p o Hin. destruct t_live; simpl in Hin; [left; by right|by right].
Qed.

Lemma if_yields l s tail : yields (compile_if compile_form l s tail) 0 1.
Proof.
  unfold compile_if. destruct l as [|first [|condition [|then_ others]]]; try apply yields_fail.
  destruct (1 <? length others); [apply yields_fail|].
  eapply yields_bind; [apply child_yields|intros _]. apply yields_if_live.
  assert (yields (match others with
                  | [] => emit_at Nil s
                  | else_form :: _ => compile_child compile_form else_form tail
                  end) 0 1) as Helse.
  { destruct others; [emits|apply child_yields]. }
  apply from_yields. intros x.
  apply from_bind, from_emit. intros El. set (x1 := emitted _ _ x).
  assert (grown x x1 [JumpIfFalse 0] []) as G1 by apply (grown_emitted _ _ _ _ [] []), grown_refl.
  apply from_bind. eapply from_extends; [apply child_yields|]. intros _ x2 H2.
  destruct (extends_live _ _ _ _ H2 El) as (lt & ht & G2 & S2).
  pose proof (grown_trans _ _ _ _ _ _ _ G1 G2) as G2'.
  apply from_bind, from_reads_on, from_bind.
  pose (lj := if fallthrough x2 then [Jump 0] else []).
  apply (from_impl _ _ (λ j x4, grown x x4 (JumpIfFalse 0 :: lt ++ lj) ht ∧
           j = if fallthrough x2 then Some (end_of x2) else None)).
  { unfold lj. destruct (fallthrough x2).
    - apply from_bind, from_emit. intros _. apply from_ret. split; [|done].
      apply (grown_emitted _ _ _ _ _ _ G2').
    - apply from_ret. split; [by rewrite app_nil_r|done]. }
  intros j x4 [G4 ->]. apply from_bind, from_update.
  set (x5 := with_fallthrough true x4). pose proof (grown_fallthrough _ true _ _ _ G4) as G5. fold x5 in G5.
  apply from_bind, from_here, from_bind. eapply from_extends; [exact Helse|]. intros _ x6 H6.
  destruct (extends_live _ _ _ _ H6 eq_refl) as (le & he & G6 & S6).
  pose proof (grown_trans _ _ _ _ _ _ _ G5 G6) as G6'.
  apply from_bind, from_reads_on, from_bind, from_here, from_bind, from_patch_jump.
  match goal with |- from ?z _ _ => set (x7 := z) end.
  set (te := end_of x5) in *. set (en := end_of x6) in *.
  assert (grown x x7 (JumpIfFalse (as_u32 te) :: (lt ++ lj) ++ le) (ht ++ he)) as G7.
  { pose proof (grown_alter _ _ _ _ (retarget te) (end_of x) (fn_source_map x6) G6' ltac:(lia)) as G.
    by rewrite Nat.sub_diag in G. }
  apply from_bind.
  apply (from_impl _ _ (λ _ x8, grown x x8 (JumpIfFalse (as_u32 te) :: lt ++
           (if fallthrough x2 then [Jump (as_u32 en)] else []) ++ le) (ht ++ he))).
  { unfold lj in G7. destruct (fallthrough x2).
    - apply from_patch_jump.
      pose proof (grown_alter _ _ _ _ (retarget en) (end_of x2) (fn_source_map x7) G7) as G.
      pose proof (grown_end _ _ _ _ G2') as Hend. simpl in Hend.
      assert (end_of x2 - end_of x = length (JumpIfFalse (as_u32 te) :: lt)) as Heq by (simpl; lia).
      rewrite Heq, <- app_assoc, app_comm_cons in G. simpl ([Jump 0] ++ le) in G.
      rewrite alter_middle in G by done. rewrite <- app_comm_cons in G. apply G. lia.
    - apply from_ret. by rewrite app_nil_r in G7. }
  intros _ x8 G8. apply from_update. apply (extends_grown _ _ _ _ _ _ (grown_fallthrough _ _ _ _ _ G8) El).
  pose proof (grown_end _ _ _ _ G5) as Ete. pose proof (grown_end _ _ _ _ G6) as Een.
  pose proof (grown_end _ _ _ _ G8) as E8. pose proof (grown_end _ _ _ _ G1) as E1.
  pose proof (grown_end _ _ _ _ G2) as E2.
  fold te in Ete, Een, S6. fold en in Een. unfold lj in Ete. simpl in *. rewrite ?length_app in *. simpl in *.
  unfold exit_of in *. cbn [fallthrough with_fallthrough].
  assert (end_of (with_fallthrough (fallthrough x2 || fallthrough x6) x8) = en) as ->.
  { change (end_of x8 = en). rewrite E8. destruct (fallthrough x2); simpl in *; lia. }
  apply seg_if; [|lia| |].
  - destruct (fallthrough x2); simpl in *; lia.
  - replace (S (end_of x)) with (end_of x1) by lia. destruct (fallthrough x2); [|done].
    by rewrite E2 in S2.
  - exact S6.
Qed.

(** [and] and [or]. *)
Lemma and_loop_pending l x :
  fallthrough x = true → from x (and_loop compile_form l) (λ js x', pending x x' js 0 0 1).
Proof.
  revert x. induction l as [|child l IH]; intros x El.
  - apply from_ret, pending_none; [apply code_extends_refl|done].
  - apply from_bind. eapply from_extends; [apply child_yields|]. intros _ x1 H1'.
    apply from_bind, from_reads_on. destruct (fallthrough x1) eqn:El1; cbn [negb].
    + apply from_bind, from_emit_. intros _. apply from_bind, from_emit. intros _.
      apply from_bind, from_emit_. intros _. apply from_bind. eapply from_impl; [by apply IH|].
      intros js x2 Hp. apply from_ret. change (?j :: js) with ([j] ++ js).
      eapply pending_trans; [| |exact Hp]; [|done].
      change [end_of _] with ([] ++ [end_of (emitted Dup (Some (start (child_span child))) x1)]).
      eapply pending_trans; [by apply pending_none|exact El1|].
      replace (end_of (emitted Dup _ x1)) with (S (end_of x1)); [by apply pending_and|].
      by rewrite end_emitted.
    + apply from_ret, pending_none; [by eapply extends_unreached|done].
Qed.

(** The last operand of [and] and [or], and the end they jump to. *)
Definition join (l : list Child) (tail : bool) (jumps : list nat) : comp () :=
  if_live (last ← or_crash (last l); compile_child compile_form last tail);;
  last_fell ← reads_on;
  end_ ← here;
  patch_all jumps end_;;
  set_fallthrough (last_fell || negb (length jumps =? 0)).

Lemma join_extends x x1 l tail js :
  fallthrough x = true → pending x x1 js 0 0 1 → from x1 (join l tail js) (λ _ x', extends x x' 0 1).
Proof.
  intros El Hp. apply from_bind.
  eapply (from_extends _ _ 0 1); [apply yields_if_live, yields_after; [quiet|intros; apply child_yields]|].
  intros _ x2 H2. apply from_bind, from_reads_on, from_bind, from_here, from_bind, from_patch_all, from_update.
  apply pending_close with 1; [by eapply pending_extends|done|done|].
  intros [->|Hne]%orb_true_iff; [by left|right]. by destruct js.
Qed.

Lemma and_lives l s tail : lives (compile_and compile_form l s tail) 0 1.
Proof.
  intros x El.
  assert (∀ l', from x (js ← and_loop compile_form l'; join l tail js) (λ _ x', extends x x' 0 1)) as Hgen.
  { intros l'. apply from_bind. eapply from_impl; [by apply and_loop_pending|]. intros js x1 Hp. by apply join_extends. }
  unfold compile_and. fold (join l tail).
  destruct l as [|first [|second l]]; [apply Hgen| |apply Hgen].
  apply (yields_lives _ 0 1); [emits|done].
Qed.

Lemma or_loop_pending l x :
  fallthrough x = true → from x (or_loop compile_form l) (λ js x', pending x x' js 0 0 1).
Proof.
  revert x. induction l as [|child l IH]; intros x El.
  - apply from_ret, pending_none; [apply code_extends_refl|done].
  - apply from_bind. eapply from_extends; [apply child_yields|]. intros _ x1 H1'.
    apply from_bind, from_reads_on. destruct (fallthrough x1) eqn:El1; cbn [negb].
    + apply from_bind, from_emit_. intros _. apply from_bind, from_emit. intros _.
      apply from_bind, from_emit. intros _. apply from_bind, from_here, from_bind, from_patch_jump.
      set (p := Some (start (child_span child))). set (y := with_code _ _ _).
      assert (grown x1 y [Dup; JumpIfFalse (as_u32 (end_of x1 + 3)); Jump 0] []) as G.
      { pose proof (grown_emitted _ (Jump 0) p _ _ _ (grown_emitted _ (JumpIfFalse 0) p _ _ _
          (grown_emitted _ Dup p _ _ _ (grown_refl x1)))) as G.
        pose proof (grown_end _ _ _ _ G) as He. simpl in He.
        unfold y. rewrite He.
        epose proof (grown_alter _ _ _ _ (retarget (end_of x1 + 3)) (end_of (emitted Dup p x1)) _ G
          ltac:(rewrite end_emitted; lia)) as G'.
        rewrite end_emitted in G' at 2. replace (S (end_of x1) - end_of x1) with 1 in G' by lia. exact G'. }
      pose proof (grown_end _ _ _ _ G) as He. simpl in He.
      apply from_bind, from_emit_. intros Ey. apply from_bind. eapply from_impl; [by apply IH|].
      intros js x2 Hp. apply from_ret. change (?j :: js) with ([j] ++ js).
      eapply pending_trans; [| |exact Hp]; [|done].
      replace (end_of (emitted (JumpIfFalse 0) p (emitted Dup p x1))) with (S (S (end_of x1))) by (by rewrite !end_emitted).
      change [S (S (end_of x1))] with ([] ++ [S (S (end_of x1))]).
      eapply pending_trans; [by apply pending_none|exact El1|]. by apply pending_or.
    + apply from_ret, pending_none; [by eapply extends_unreached|done].
Qed.

Lemma or_lives l s tail : lives (compile_or compile_form l s tail) 0 1.
Proof.
  intros x El.
  assert (∀ l', from x (js ← or_loop compile_form l'; join l tail js) (λ _ x', extends x x' 0 1)) as Hgen.
  { intros l'. apply from_bind. eapply from_impl; [by apply or_loop_pending|]. intros js x1 Hp. by apply join_extends. }
  unfold compile_or. fold (join l tail).
  destruct l as [|first [|second l]]; [apply Hgen| |apply Hgen].
  apply (yields_lives _ 0 1); [emits|done].
Qed.

(** [cond]: the jumps to its end are patched in what stands before it. *)
Definition cond_ends x acc x' : Prop :=
  ∃ l hs, same_frame x x' ∧ fn_code x' = patched acc (end_of x') (fn_code x) ++ l ∧
    fn_handlers x' = fn_handlers x ++ hs ∧ seg (end_of x) l hs 0 (exit_of x' 1).

Lemma patched_before jumps target l post :
  (∀ j, j ∈ jumps → j < length l) → patched jumps target (l ++ post) = patched jumps target l ++ post.
Proof.
  intros Hj. assert (jumps = (λ j, j - 0) <$> jumps) as Hz.
  { rewrite <- (list_fmap_id jumps) at 1. apply list_fmap_ext. intros k j _. unfold id. lia. }
  rewrite Hz. apply (patched_keep 0). intros j Hin. apply Hj in Hin. lia.
Qed.

(** The end of the clauses after an extension. *)
Lemma cond_close x x1 acc a :
  fallthrough x = true → (∀ j, j ∈ acc → j < end_of x) → extends x x1 0 a → a = 1 ∨ fallthrough x1 = false →
  from x1 ((end_ ← here; patch_all acc end_) : comp ()) (λ _ x', cond_ends x acc x').
Proof.
  intros El Hacc Hx Ha. destruct (extends_live _ _ _ _ Hx El) as (l & hs & G & S).
  apply from_bind, from_here, from_patch_all. exists l, hs.
  set (x' := with_code _ _ x1).
  assert (end_of x' = end_of x1) as He by apply patched_length. rewrite He.
  destruct G as [[] C E]. split_and!; [by split| |done|].
  - unfold x'. cbn. rewrite C. by apply patched_before.
  - eapply seg_sub; [exact S|done|]. intros p o (-> & -> & Hl)%exit_of_forward. rewrite He.
    change (fallthrough x1 = true) in Hl. destruct Ha as [->|?]; [|congruence].
    exists 1. split; [|done]. unfold exit_of. rewrite Hl. by left.
Qed.

(** The last jump of a code is retargeted. *)
Lemma jump_retargeted t n pre pre' l l' :
  l = (pre ++ pre') ++ [Jump 0] → l' = (pre ++ pre') ++ [Jump (as_u32 t)] → n = length (pre ++ pre') →
  alter (retarget t) n l = l'.
Proof. intros -> -> ->. by rewrite alter_middle. Qed.

Lemma cond_loop_ends s tail clauses x acc :
  fallthrough x = true → (∀ j, j ∈ acc → j < end_of x) →
  from x (cond_loop compile_form s tail clauses acc) (λ _ x', cond_ends x acc x').
Proof.
  remember (length clauses) as n eqn:Hn. revert clauses Hn x acc.
  induction (lt_wf n) as [n _ IH]. intros clauses -> x acc El Hacc.
  assert (from x ((emit_at Nil s;; end_ ← here; patch_all acc end_) : comp ()) (λ _ x', cond_ends x acc x')) as Hend.
  { apply from_bind. eapply (from_extends _ _ 0 1); [emits|]. intros _ x1 H1'.
    eapply cond_close; [done|done|done|by left]. }
  destruct clauses as [|test [|expression clauses]]; [exact Hend..|]. cbn [cond_loop].
  apply from_bind. eapply from_extends; [apply child_yields|]. intros _ x1 H1'.
  apply from_bind, from_reads_on. destruct (fallthrough x1) eqn:El1; cbn [negb];
    [|by eapply cond_close; [done|done|done|right]].
  apply from_bind, from_emit. intros _. set (x2 := emitted _ _ x1).
  destruct (extends_live _ _ _ _ H1' El) as (l0 & h0 & G0 & S0).
  apply from_bind. eapply from_extends; [apply child_yields|]. intros _ x3 H3.
  destruct (extends_live _ _ _ _ H3 El1) as (le & he & G3 & S3).
  apply from_bind, from_reads_on, from_bind.
  apply (from_impl _ _ (λ acc' x4, grown x2 x4 (le ++ if fallthrough x3 then [Jump 0] else []) he ∧
           acc' = acc ++ if fallthrough x3 then [end_of x3] else [])).
  { destruct (fallthrough x3).
    - apply from_bind, from_emit. intros _. apply from_ret. split; [by apply grown_emitted|done].
    - apply from_ret. by rewrite !app_nil_r. }
  intros acc' x4 [G4 ->]. apply from_bind, from_update, from_bind, from_here, from_bind, from_patch_jump.
  set (x6 := with_code _ _ _). set (lj := λ t, if fallthrough x3 then [Jump t] else []).
  set (next := end_of (with_fallthrough true x4)) in *.
  assert (grown x x6 (l0 ++ JumpIfFalse (as_u32 next) :: le ++ lj 0%N) (h0 ++ he)) as G6.
  { pose proof (grown_trans _ _ _ _ _ _ _ (grown_emitted _ (JumpIfFalse 0) (Some (start (child_span test))) _ _ _ G0) G4) as G.
    apply (grown_fallthrough _ true) in G.
    epose proof (grown_alter _ _ _ _ (retarget next) (end_of x1) _ G ltac:(apply grown_end in G0; lia)) as G'.
    replace (end_of x1 - end_of x) with (length l0) in G' by (apply grown_end in G0; lia).
    rewrite <- !app_assoc in G'. simpl ([JumpIfFalse 0] ++ _) in G'. rewrite alter_middle in G' by done. exact G'. }
  pose proof (grown_end _ _ _ _ G0) as E1. pose proof (grown_end _ _ _ _ G3) as E3.
  pose proof (grown_end _ _ _ _ G4) as E4. pose proof (grown_end _ _ _ _ G6) as E6.
  assert (end_of x2 = S (end_of x1)) as E2 by apply end_emitted.
  assert (next = end_of x4) as En by done. assert (end_of x6 = next) as E6'.
  { unfold x6, end_of. cbn. by rewrite length_alter. }
  eapply from_impl; [apply (IH (length clauses)); [simpl; lia|done|done|]|].
  { intros j [Hin|Hin]%elem_of_app; [apply Hacc in Hin; lia|].
    destruct (fallthrough x3); [|by apply not_elem_of_nil in Hin].
    apply list_elem_of_singleton in Hin as ->. simpl in E4. rewrite length_app in E4. simpl in E4. lia. }
  intros _ x' (l' & h' & F' & C' & E' & S').
  exists (l0 ++ (JumpIfFalse (as_u32 next) :: le ++ lj (as_u32 (end_of x'))) ++ l'), (h0 ++ he ++ h').
  destruct G6 as [F6 C6 E6h]. split_and!; [by eapply same_frame_trans| |by rewrite E', E6h, <- !app_assoc|].
  - rewrite C', C6, patched_app, patched_before by done.
    replace (patched acc (end_of x') (fn_code x) ++ l0 ++ (JumpIfFalse (as_u32 next) :: le ++ lj (as_u32 (end_of x'))) ++ l')
      with ((patched acc (end_of x') (fn_code x) ++ l0 ++ JumpIfFalse (as_u32 next) :: le ++ lj (as_u32 (end_of x'))) ++ l')
      by (by rewrite <- !app_assoc). f_equal.
    set (A := patched acc _ _). unfold lj. destruct (fallthrough x3); [|done].
    change (patched [end_of x3] ?t ?m) with (alter (retarget t) (end_of x3) m).
    apply (jump_retargeted (end_of x') (end_of x3) (A ++ l0) (JumpIfFalse (as_u32 next) :: le)); [by rewrite <- !app_assoc..|].
    unfold A. rewrite !length_app, patched_length. simpl. unfold end_of in *. lia.
  - assert (length (JumpIfFalse (as_u32 next) :: le ++ lj (as_u32 (end_of x'))) =
            length (JumpIfFalse (as_u32 next) :: le ++ lj 0%N)) as Hlen.
    { unfold lj. simpl. rewrite !length_app. by destruct (fallthrough x3). }
    rewrite length_app in E6, E4. rewrite <- Hlen in E6. simpl in E6.
    assert (end_of x6 ≤ end_of x') as Hx'.
    { unfold end_of at 2. rewrite C', length_app, patched_length. unfold end_of. lia. }
    apply (seg_cut _ _ _ _ _ 1 _ _ (exit_of x' 1) _ S0).
    + unfold exit_of. rewrite El1, E1. by left.
    + eapply (seg_cut _ _ _ _ _ 0 l' h' (exit_of x' 1)).
      * apply (seg_branch _ le he (fallthrough x3) next (end_of x')); [lia..|].
        unfold exit_of in S3. rewrite E3, E2, E1 in S3. exact S3.
      * apply elem_of_cons. left. f_equal. simpl. lia.
      * replace (_ + length (_ :: _)) with (end_of x6) by (simpl; lia). exact S'.
      * intros p o (-> & _)%exit_of_forward. simpl. lia.
      * intros p o Hin. by right.
    + intros p o (-> & _)%exit_of_forward. lia.
    + intros p o Hin. by right.
Qed.

Lemma cond_lives l s tail : lives (compile_cond compile_form l s tail) 0 1.
Proof.
  intros x El. unfold compile_cond. destruct (negb _); [apply from_fail|].
  eapply from_impl; [apply cond_loop_ends; [done|by intros j ?%not_elem_of_nil]|].
  intros _ x' (l' & h' & F & C & E & S). split; [done|]. rewrite El. by exists l', h'.
Qed.

(** ** Bindings and recurrence *)
Lemma dynamic_binding_yields l s bind : yields (compile_dynamic_binding compile_form l s bind) 0 1.
Proof.
  unfold compile_dynamic_binding. destruct (negb _); [apply yields_fail|].
  apply yields_after; [quiet|]. intros target. destruct (child_form target); try apply yields_fail.
  apply yields_after; [quiet|]. intros index. destruct bind; [|emits].
  apply yields_after; [quiet|]. intros value.
  eapply yields_bind; [apply child_yields|intros _; apply yields_if_live; emits].
Qed.

Lemma bindings_loop_yields form_name pairs : yields (bindings_loop compile_form form_name pairs) 0 0.
Proof.
  remember (length pairs) as n eqn:Hn. revert pairs Hn.
  induction (lt_wf n) as [n _ IH]. intros pairs ->.
  destruct pairs as [|name [|initializer pairs]]; [by apply yields_ret..|]. cbn [bindings_loop].
  destruct (child_form name); try apply yields_fail.
  eapply yields_bind; [apply child_yields|intros _]. apply yields_live_or.
  eapply yields_bind; [apply yields_declare_local|intros slot].
  eapply yields_bind; [apply (yields_emit_at _ _ 1 0); [done|simpl; lia..]|intros _].
  eapply yields_bind; [apply (IH (length pairs)); [simpl; lia|done]|intros slots; by apply yields_ret].
Qed.

Lemma bindings_yields l form_name : yields (compile_bindings compile_form l form_name) 0 0.
Proof.
  unfold compile_bindings. apply yields_after; [quiet|]. intros bindings.
  destruct (child_form bindings); try apply yields_fail;
    (destruct (negb _); [apply yields_fail|apply bindings_loop_yields]).
Qed.

Lemma let_yields l s tail : yields (compile_let compile_form l s tail) 0 1.
Proof.
  unfold compile_let. destruct (length l <? 3); [apply yields_fail|].
  eapply yields_bind; [apply yields_open_scope|intros _].
  apply yields_bracket; [|apply yields_close_scope].
  eapply yields_bind; [apply bindings_yields|intros _; apply sequence_yields].
Qed.

Lemma loop_yields l s : yields (compile_loop compile_form l s) 0 1.
Proof.
  unfold compile_loop. destruct (length l <? 3); [apply yields_fail|].
  eapply yields_bind; [apply yields_open_scope|intros _].
  apply yields_bracket; [|apply yields_close_scope].
  eapply yields_bind; [apply bindings_yields|intros slots].
  apply yields_after; [quiet|]. intros header.
  eapply yields_bind; [apply yields_update, neutral_loops|intros _].
  apply (yields_bracket _ (update_ctx _)); [apply sequence_yields|].
  intros n. apply yields_update, neutral_loops.
Qed.

Lemma stores_yields {A} (slot : A → N) (s : A → Span) l a :
  yields (each (λ e, emit_at (StoreLocal (slot e)) (s e)) l : comp ()) (a + length l) a.
Proof.
  induction l as [|e l IH]; [apply yields_ret; simpl; lia|].
  eapply yields_bind; [apply (yields_emit_at _ _ _ (a + length l)); [done|simpl; lia..]|intros _; apply IH].
Qed.

Lemma arguments_yields l : yields (each (λ argument, compile_child compile_form argument false) l) 0 (length l).
Proof. apply (children_yields l 0). Qed.

Lemma recur_yields l s tail : yields (compile_recur compile_form l s tail) 0 1.
Proof.
  unfold compile_recur. apply yields_after; [quiet|]. intros x.
  destruct (loops x) as [|context outer]; [apply yields_fail|].
  destruct (_ && _); [apply yields_fail|]. destruct (existsb _ _); [apply yields_fail|].
  destruct (negb tail); [apply yields_fail|]. destruct (negb _) eqn:En; [apply yields_fail|].
  apply negb_false_iff, Nat.eqb_eq in En.
  eapply yields_bind; [apply arguments_yields|intros _]. apply yields_if_live.
  rewrite length_drop, En, <- length_reverse.
  eapply yields_bind; [apply (stores_yields id (λ _, s) _ 0)|intros _]. by apply yields_stop.
Qed.

(** ** Calls *)
Lemma call_arguments_yields l s : yields (compile_call_arguments compile_form l s) 0 (length l - 1).
Proof.
  unfold compile_call_arguments. destruct (_ <? _); [apply yields_fail|].
  rewrite <- (length_drop l 1). apply arguments_yields.
Qed.

Lemma host_call_yields l s : yields (compile_host_call compile_form l s) 0 1.
Proof.
  unfold compile_host_call. destruct (negb _) eqn:En; [apply yields_fail|].
  apply negb_false_iff, Nat.eqb_eq in En.
  eapply yields_bind; [apply call_arguments_yields|intros _; apply yields_if_live]. rewrite En. emits.
Qed.

Lemma as_u8_le n : N.to_nat (as_u8 n) ≤ n.
Proof. unfold as_u8. pose proof (N.Div0.mod_le (N.of_nat n) 256). lia. Qed.
Lemma as_u16_le n : N.to_nat (as_u16 n) ≤ n.
Proof. unfold as_u16. pose proof (N.Div0.mod_le (N.of_nat n) 65536). lia. Qed.

Lemma intrinsic_call_yields target l s : yields (compile_intrinsic_call compile_form target l s) 0 1.
Proof.
  unfold compile_intrinsic_call. destruct (255 <? _); [apply yields_fail|].
  eapply yields_bind; [apply arguments_yields|intros _; apply yields_if_live].
  apply yields_after; [quiet|]. intros index. rewrite length_drop.
  pose proof (as_u8_le (length l - 1)). destruct (has_prefix _ _); emits.
Qed.

Lemma load_operator_yields name s : yields (load_operator name s : comp ()) 0 1.
Proof.
  unfold load_operator. apply yields_after; [quiet|]. intros slot. apply yields_after; [quiet|]. intros c.
  destruct slot; [emits|]. destruct (visible_global c name).
  { apply yields_after; [quiet|]. intros index. emits. }
  destruct (visible_bytecode_callable c name); [apply yields_after; [quiet|]; intros index; emits|].
  destruct (visible_namespace c name); [apply yields_after; [quiet|]; intros index; emits|apply yields_fail].
Qed.

(** The arguments over the callee, and the call. *)
Lemma called_yields l s : 
  yields (compile_call_arguments compile_form l s;; if_live (emit_at (Call (as_u8 (length l - 1))) s)) 1 1.
Proof.
  eapply yields_bind; [exact (yields_frame _ 0 (length l - 1) 1 (call_arguments_yields l s))|intros _; apply yields_if_live].
  pose proof (as_u8_le (length l - 1)). emits.
Qed.

Lemma forwarded_call_yields target l s : yields (compile_forwarded_call compile_form target l s) 0 1.
Proof.
  unfold compile_forwarded_call. destruct (canonical_intrinsic_callable_symbol target).
  - apply intrinsic_call_yields.
  - apply yields_after; [quiet|]. intros index.
    eapply yields_bind; [apply (yields_emit_at _ _ 0 1); [done|simpl; lia..]|intros _; apply called_yields].
Qed.

Lemma dynamic_call_yields name l s : yields (compile_dynamic_call compile_form name l s) 0 1.
Proof.
  eapply yields_bind; [apply load_operator_yields|intros _; apply called_yields].
Qed.

Lemma static_call_yields prototype l s :
  yields (compile_call_arguments compile_form l s;;
          if_live (emit_at (CallStatic prototype (as_u8 (length l - 1))) s)) 0 1.
Proof.
  eapply yields_bind; [apply call_arguments_yields|intros _; apply yields_if_live].
  pose proof (as_u8_le (length l - 1)). emits.
Qed.

Lemma named_call_yields name l s : yields (compile_named_call compile_form name l s) 0 1.
Proof.
  assert (yields (compile_static_or_dynamic_call compile_form name l s) 0 1) as Hcall.
  { unfold compile_static_or_dynamic_call. apply yields_after; [quiet|]. intros x.
    apply yields_after; [quiet|]. intros c. destruct (_ && _); [|apply dynamic_call_yields].
    apply yields_after; [quiet|]. intros target. destruct (arity_accepts _ _);
      [apply static_call_yields|apply dynamic_call_yields]. }
  unfold compile_named_call. apply yields_after; [quiet|]. intros slot. apply yields_after; [quiet|]. intros c.
  destruct slot; [done|]. destruct (canonical_intrinsic_callable_symbol name); [apply intrinsic_call_yields|].
  destruct (inline_target c name); [apply forwarded_call_yields|done].
Qed.

Lemma declare_params_from ps x n :
  from x (declare_params ps : comp (list (N * Span))) (λ slots x', extends x x' n n ∧ length slots = length ps).
Proof.
  revert x. induction ps as [|p ps IH]; intros x.
  - apply from_ret. split; [apply code_extends_refl|done].
  - cbn [declare_params]. destruct (child_form p); try apply from_fail.
    apply from_bind. eapply from_extends; [apply (yields_declare_local _ _ n)|]. intros slot x1 H1'.
    apply from_bind. eapply from_impl; [apply IH|]. intros slots x2 [H2' Hlen]. apply from_ret.
    split; [by eapply code_extends_trans|simpl; lia].
Qed.

Lemma list_children_length forms s nodes : length (list_children forms s nodes) = length forms.
Proof.
  unfold list_children. destruct nodes as [nodes|]; [|apply length_fmap].
  destruct (_ =? _) eqn:E; rewrite length_fmap; [by apply Nat.eqb_eq|done].
Qed.

Lemma immediate_fn_params l ps body : immediate_fn l = Some (ps, body) → length ps = length l - 1.
Proof.
  unfold immediate_fn. intros Hm. apply bind_Some in Hm as (callee & Hc & Hm).
  repeat case_match; try done. injection Hm as <- <-. rewrite list_children_length.
  match goal with Ho : (_ || _ || _) = false |- _ => apply orb_false_iff in Ho as [Ho _] end.
  match goal with Ho : (_ || _) = false |- _ => apply orb_false_iff in Ho as [Ho _] end.
  match goal with Ho : negb _ = false |- _ => by apply negb_false_iff, Nat.eqb_eq in Ho end.
Qed.

Lemma immediate_yields l s x :
  from x (compile_immediate_fn_call compile_form l s) (λ handled x', extends x x' 0 (if handled then 1 else 0)).
Proof.
  unfold compile_immediate_fn_call. destruct (immediate_fn l) as [[ps body]|] eqn:Hi;
    [|apply from_ret, code_extends_refl].
  destruct (_ <? length ps); [apply from_fail|]. apply immediate_fn_params in Hi.
  apply from_bind. eapply from_extends; [apply arguments_yields|]. intros _ x1 H1'.
  apply from_bind, from_reads_on. destruct (fallthrough x1) eqn:El; cbn [negb].
  - apply from_bind. eapply from_extends; [apply yields_open_scope|]. intros _ x2 H2'.
    eapply from_extends; [|intros handled x3 H3'].
    + apply (yields_bracket_then _ _ _ _ 1); [|apply yields_close_scope|intros r; by apply yields_ret].
      apply from_yields. intros y. apply from_bind. eapply from_impl; [apply declare_params_from|].
      intros slots y1 [Hy Hlen].
      apply (from_extends _ _ (length l - 1) 1).
      * eapply yields_bind; [|intros _; apply (sequence_yields body false)].
        rewrite <- Hi, <- Hlen, <- (length_reverse slots). apply (stores_yields fst snd _ 0).
      * intros _ y2 Hy2. by eapply code_extends_trans.
    + rewrite length_drop in H1'. apply (extends_weaken _ _ 0 1); [|lia|destruct handled; lia].
      eapply code_extends_trans; [exact H1'|]. by eapply code_extends_trans.
  - apply from_ret. by eapply extends_unreached.
Qed.

Lemma direct_prototype_from argc x :
  from x (direct_prototype argc : comp (option N))
    (λ r x', x' = x ∧ ∀ p, r = Some p → ∃ l, fn_code x = l ++ [Closure p 0]).
Proof.
  apply from_bind, from_ctx, from_bind, from_quiet; [apply quiet_gets|]. intros c.
  assert (from x (mret None : comp (option N)) (λ r x', x' = x ∧ ∀ p, r = Some p → ∃ l, fn_code x = l ++ [Closure p 0])) as Hnone
    by (by apply from_ret).
  destruct (last (fn_code x)) as [i|] eqn:El; [|done].
  apply last_Some in El as [l El].
  destruct i; try exact Hnone. match goal with |- from _ (match ?n with _ => _ end) _ => destruct n end; [|done].
  destruct (_ =? 0); [|done]. apply from_bind, from_or_crash. intros target _. apply from_ret.
  split; [done|]. intros p. destruct (arity_accepts target argc); [|done]. intros [= <-]. by exists l.
Qed.

(** A function literal's closure is taken back. *)
Lemma closure_removed x x' l p map :
  extends x x' 0 1 → fallthrough x = true → fallthrough x' = true → fn_code x' = l ++ [Closure p 0] →
  extends x (with_code (removelast (fn_code x')) map x') 0 0.
Proof.
  intros Hx El El' Hl. destruct (extends_live _ _ _ _ Hx El) as (l1 & hs & G & S).
  destruct G as [[] C E]. destruct (last l1) as [i|] eqn:Hlast; cycle 1.
  { apply last_None in Hlast as ->. destruct S as [Hnil _].
    assert (1 ≤ 0); [|lia]. apply (Hnil eq_refl (end_of x') 1). unfold exit_of. rewrite El'. by left. }
  apply last_Some in Hlast as [l0 ->].
  assert (i = Closure p 0) as ->.
  { rewrite C, app_assoc in Hl. by apply app_inj_tail in Hl as [_ ?]. }
  apply seg_removelast in S; [|simpl; lia].
  eapply extends_grown; [|done|].
  - split; [by split| |exact E]. cbn. by rewrite C, app_assoc, removelast_last.
  - eapply seg_sub; [exact S|done|]. intros q o (-> & -> & _)%exit_of_forward. exists 0. split; [|lia].
    apply list_elem_of_singleton. f_equal. unfold end_of. cbn. by rewrite C, app_assoc, removelast_last, length_app.
Qed.

Lemma expression_call_yields l s : yields (compile_expression_call compile_form l s) 0 1.
Proof.
  apply from_yields. intros x. apply from_bind. eapply from_impl; [apply immediate_yields|].
  intros [] x1 H1'; [by apply from_ret|].
  eapply (from_impl _ _ (λ _ x', extends x1 x' 0 1)); [|intros r x2 H2'; by eapply code_extends_trans].
  apply from_bind, from_quiet; [quiet|]. intros callee.
  apply from_bind. eapply from_extends; [apply child_yields|]. intros _ x2 H2'. apply from_if_live.
  2: { intros E. by eapply extends_unreached. }
  intros El. destruct (fallthrough x1) eqn:El1; [|by destruct (extends_dead _ _ _ _ H2' El1); congruence].
  apply from_bind. eapply from_impl; [apply direct_prototype_from|].
  intros [p|] x3 [-> Hp].
  - destruct (Hp p eq_refl) as [l' Hl']. apply from_bind, from_update.
    eapply from_extends; [apply static_call_yields|]. intros _ x3 H3. eapply code_extends_trans; [|exact H3].
    by eapply closure_removed.
  - apply from_bind, from_ret. eapply from_extends; [apply called_yields|]. intros _ x3 H3. by eapply code_extends_trans.
Qed.

(** ** Functions *)
Lemma parameter_names_ok ps names rest_at c r c' :
  (parameter_names ps names rest_at : comp (list string * option nat)) c = (Ok r, c') →
  c' = c ∧ length r.1 ≤ length names + length ps.
Proof.
  revert names rest_at. induction ps as [|p ps IH]; intros names rest_at E; cbn [parameter_names] in E.
  - injection E as <- <-. split; [done|simpl; lia].
  - destruct (child_form p); try done. destruct (decide _) as [_|_].
    + destruct (is_some rest_at); [done|]. apply IH in E as [-> Hl]. split; [done|simpl; lia].
    + apply IH in E as [-> Hl]. split; [done|]. rewrite length_app in Hl. simpl in *. lia.
Qed.

Lemma function_arity_ok c0 names rest_at c r c' :
  (function_arity c0 names rest_at : comp (N * bool)) c = (Ok r, c') →
  c' = c ∧ N.to_nat r.1 + (if r.2 then 1 else 0) ≤ length names.
Proof.
  unfold function_arity. destruct rest_at as [fixed|].
  - destruct (_ =? _) eqn:En; [|done]. apply Nat.eqb_eq in En. intros [= <- <-].
    pose proof (as_u16_le fixed). simpl. split; [done|lia].
  - intros [= <- <-]. pose proof (as_u16_le (length names)). simpl. split; [done|lia].
Qed.

Lemma declare_all_ok names s c s' c' :
  (declare_all names s : comp ScopeStack) c = (Ok s', c') → (next_slot s ≤ high_water s)%N →
  c' = c ∧ N.to_nat (next_slot s) + length names ≤ N.to_nat (high_water s').
Proof.
  revert s. induction names as [|[name position] names IH]; intros s E Hs; cbn [declare_all] in E.
  - injection E as <- <-. split; [done|simpl; lia].
  - apply prog_bind_ok in E as (r & c1 & E1 & E). apply or_crash_ok in E1 as [Hd ->].
    destruct r as [[slot s1]|e]; [|done]. unfold declare in Hd. destruct (scopes s); [done|].
    case_match; [done|]. injection Hd as <- <-. apply IH in E as [-> Hl]; [|simpl; lia].
    split; [done|]. simpl in *. lia.
Qed.

(** What a function's context starts as. *)
Record fresh x : Prop := {
  fresh_code : fn_code x = [];
  fresh_handlers : fn_handlers x = [];
  fresh_live : fallthrough x = true;
  fresh_slots : N.to_nat (params x) + (if fn_variadic x then 1 else 0) + length (captures x)
                ≤ N.to_nat (high_water (fn_scopes x));
}.

Lemma quiet_collect_each bound l found : quiet (collect_each (collect_free bound) l found).
Proof.
  revert found. induction l as [|child l IH]; intros found; cbn; [apply quiet_ret|].
  apply quiet_bind; [apply collect_quiet|done].
Qed.
Lemma quiet_parameter_elements c : quiet (parameter_elements c : comp (list Form)).
Proof. unfold parameter_elements, reject_at. quiet. Qed.

Lemma inv_placeholder (c : Compiler W) f : code f = [] → inv c → inv (with_prototypes (prototypes c ++ [f]) c).
Proof. intros Hf Hi. apply Forall_app. split; [done|]. constructor; [by intros ?|constructor]. Qed.

Lemma open_function_ok name parameters body s async_function may_suspend (c : Compiler W) x rest r c' :
  inv c → contexts c = x :: rest →
  open_function collect_free name parameters body s async_function may_suspend c = (Ok r, c') →
  inv c' ∧ ∃ y, contexts c' = y :: x :: rest ∧ fresh y.
Proof.
  intros Hi Hc E. unfold open_function in E.
  apply prog_bind_ok in E as (elements & c1 & E1 & E). apply quiet_parameter_elements in E1 as [Hc1 Hp1].
  apply prog_bind_ok in E as ([names rest_at] & c2 & E2 & E). apply parameter_names_ok in E2 as [-> Hnames].
  apply prog_bind_ok in E as ([arity variadic] & c3 & E3 & E). apply function_arity_ok in E3 as [-> Harity].
  apply prog_bind_ok in E as (free & c4 & E4 & E). apply quiet_collect_each in E4 as [Hc4 Hp4].
  destruct (_ <? length free); [done|].
  apply prog_bind_ok in E as (c5 & c6 & [= -> ->] & E).
  apply prog_bind_ok in E as (u & c7 & [= _ <-] & E).
  apply prog_bind_ok in E as (scopes & c8 & E8 & E). apply declare_all_ok in E8 as [-> Hhigh]; [|done].
  injection E as _ <-. cbn. split.
  - match goal with |- inv (with_contexts _ (with_prototypes (prototypes ?d ++ [?f]) _)) =>
      apply (inv_placeholder d f eq_refl) end. unfold inv. by rewrite Hp4, Hp1.
  - rewrite Hc4, Hc1, Hc. eexists. split; [done|]. split; [done..|]. cbn in *.
    rewrite length_app, length_zip, length_fmap in Hhigh. rewrite list_children_length in *. lia.
Qed.

Lemma body_from y body :
  fallthrough y = true →
  from y (compile_sequence compile_form body true;; if_live (emit_ Return None))
    (λ _ y', ∃ l hs, grown y y' l hs ∧ seg (end_of y) l hs 0 []).
Proof.
  intros El. apply from_bind. eapply from_extends; [apply sequence_yields|]. intros _ y1 H1'.
  destruct (extends_live _ _ _ _ H1' El) as (l & hs & G & S). apply from_if_live.
  - intros El1. apply from_emit_. intros _. exists (l ++ [Return]), hs. split; [by apply grown_emitted|].
    eapply seg_snoc; [exact S| |done|by intros p o ?%not_elem_of_nil].
    unfold exit_of. rewrite El1, (grown_end _ _ _ _ G). by left.
  - intros El1. exists l, hs. split; [done|]. eapply seg_sub; [exact S|done|by intros p o ?%not_elem_of_nil].
Qed.

(** The context of a finished body. *)
Lemma closed_good y y' l hs :
  fresh y → grown y y' l hs → seg (end_of y) l hs 0 [] →
  good (mkFunction (fn_name y') (fn_async y') (params y') (fn_variadic y')
          (as_u16 (length (captures y'))) (high_water (fn_scopes y')) 0
          (fn_code y') (fn_source_map y') (fn_handlers y')).
Proof.
  intros [Hc Hh _ Hs] [[? Hp Hv Hcap Hw] C E] S _. cbn. split.
  - unfold slots_fit. cbn. apply N.leb_le. rewrite Hp, Hv, Hcap.
    pose proof (as_u16_le (length (captures y))). destruct (fn_variadic y); lia.
  - unfold end_of in S. rewrite Hc in S. by rewrite C, E, Hc, Hh.
Qed.

Lemma close_context_ok (c : Compiler W) y y' l hs rest r c' :
  inv c → contexts c = y' :: rest → fresh y → grown y y' l hs → seg (end_of y) l hs 0 [] →
  close_context c = (Ok r, c') → inv c' ∧ contexts c' = rest.
Proof.
  intros Hi Hc Hf G S E. unfold close_context in E. rewrite Hc in E.
  destruct (_ <? _); [|done]. injection E as _ <-. split; [|done].
  apply Forall_insert; [exact Hi|]. by eapply closed_good.
Qed.

Lemma load_captures_yields l : yields (each load_capture l : comp ()) 0 (length l).
Proof.
  apply (yields_each _ _ 0). intros capture _. unfold load_capture. apply yields_after; [quiet|].
  intros [slot|]; [emits|apply yields_fail].
Qed.

Lemma function_yields name parameters body s async_function may_suspend :
  yields (compile_function compile_form collect_free name parameters body s async_function may_suspend) 0 1.
Proof.
  intros c x rest r c' Hi Hc E. unfold compile_function in E.
  apply prog_bind_ok in E as (u & c1 & E1 & E).
  destruct (open_function_ok _ _ _ _ _ _ _ _ _ _ _ Hi Hc E1) as (Hi1 & y & Hc1 & Hy).
  apply prog_bind_ok in E as (q & c2 & E2 & E). apply prog_bind_ok in E as (context & c3 & E3 & E).
  apply prog_bind_ok in E as (u' & c4 & E4 & E).
  unfold attempt in E2. destruct q as [v|e]; [|done]. injection E4 as -> <-.
  match type of E2 with (match ?m c1 with _ => _ end = _) => destruct (m c1) as [[v'|[]] c0] eqn:Em end; try done.
  injection E2 as -> ->.
  destruct (body_from y body (fresh_live _ Hy) _ _ _ _ Hi1 Hc1 Em) as (Hi2 & y' & Hc2 & l & hs & G & S).
  destruct (close_context_ok _ _ _ _ _ _ _ _ Hi2 Hc2 Hy G S E3) as [Hi3 Hc3].
  eapply (yields_bind (each load_capture (captures context))) in E; [exact E| | |exact Hi3|exact Hc3].
  - apply load_captures_yields.
  - intros _. pose proof (as_u8_le (length (captures context))). emits.
Qed.

(** ** Functions of several arities *)
Lemma quiet_metadata_flag form key : quiet (metadata_flag form key : comp bool).
Proof. unfold metadata_flag, reject. quiet. Qed.
Lemma quiet_any_may_suspend l : quiet (any_may_suspend l : comp bool).
Proof. unfold any_may_suspend. quiet. Qed.
Hint Resolve quiet_metadata_flag quiet_any_may_suspend : quiet.

Lemma quiet_fn_clause clause : quiet (fn_clause clause : comp (Child * list Child * bool)).
Proof. unfold fn_clause, reject_at. quiet. Qed.
Lemma quiet_defn_clause b clause : quiet (defn_clause b clause : comp (Child * list Child * bool)).
Proof. unfold defn_clause, reject_at. quiet. Qed.

(** One closure for each clause. *)
Lemma clauses_from parts limit limit_span s count clauses x :
  (∀ clause, quiet (parts clause)) →
  from x (compile_clauses compile_form collect_free parts limit limit_span s count clauses)
    (λ n x', n = count + length clauses ∧ extends x x' count n).
Proof.
  intros Hparts. revert count x. induction clauses as [|clause clauses IH]; intros count x; cbn [compile_clauses].
  - apply from_ret. split; [simpl; lia|apply code_extends_refl].
  - apply from_bind, from_quiet; [apply Hparts|]. intros [[parameters body] async_function].
    apply from_bind, from_quiet; [quiet|]. intros suspends.
    apply from_bind. eapply from_extends; [apply (yields_frame _ 0 1 count), function_yields|]. intros _ x1 H1'.
    destruct (255 <? S count); [apply from_fail|]. eapply from_impl; [apply IH|].
    intros n x2 [-> H2']. split; [simpl; lia|]. eapply code_extends_trans; [exact H1'|exact H2'].
Qed.

Lemma macro_clauses_from s count clauses x :
  from x (compile_macro_clauses compile_form collect_free s count clauses)
    (λ n x', n = count + length clauses ∧ extends x x' count n).
Proof.
  revert count x. induction clauses as [|clause clauses IH]; intros count x; cbn [compile_macro_clauses].
  - apply from_ret. split; [simpl; lia|apply code_extends_refl].
  - repeat match goal with |- from _ (match ?e with _ => _ end) _ => destruct e end; try apply from_fail.
    apply from_bind, from_quiet; [quiet|]. intros parameters.
    apply from_bind. eapply from_extends; [apply (yields_frame _ 0 1 count), function_yields|]. intros _ x1 H1'.
    destruct (255 <? S count); [apply from_fail|]. eapply from_impl; [apply IH|].
    intros n x2 [-> H2']. split; [simpl; lia|]. eapply code_extends_trans; [exact H1'|exact H2'].
Qed.

(** The clauses' closures become one function. *)
Lemma multi_arity_yields (m : comp nat) (name : string) (s s' : Span) n :
  (∀ x, from x m (λ k x', k = n ∧ extends x x' 0 k)) →
  yields (count ← m; index ← name_constant name s'; emit_at (MakeMultiArity index (as_u8 count)) s) 0 1.
Proof.
  intros Hm. apply from_yields. intros x. apply from_bind. eapply from_impl; [apply Hm|].
  intros k x1 [-> H1']. apply from_bind, from_quiet; [quiet|]. intros index.
  apply (from_extends _ _ n 1); [pose proof (as_u8_le n); emits|]. intros _ x2 H2'. by eapply code_extends_trans.
Qed.

Lemma fn_form_yields l s : yields (compile_fn_form compile_form collect_free l s) 0 1.
Proof.
  unfold compile_fn_form. destruct l as [|first [|parameters body]]; try apply yields_fail.
  destruct (_ && _); [apply yields_fail|]. destruct (is_vector _).
  - apply yields_after; [quiet|]. intros b. apply yields_after; [quiet|]. intros b'. apply function_yields.
  - destruct (negb _); [apply yields_fail|]. eapply multi_arity_yields. intros x.
    eapply from_impl; [apply clauses_from, quiet_fn_clause|]. intros k x'. apply id.
Qed.

Lemma quiet_definition_parts l context macro_form :
  quiet (definition_parts l context macro_form : comp (string * option Metadata * list Child)).
Proof. unfold definition_parts. quiet. Qed.
Lemma quiet_record_definition name metadata : quiet (record_definition name metadata : comp ()).
Proof. unfold record_definition. quiet. Qed.
Hint Resolve quiet_definition_parts quiet_record_definition : quiet.

Lemma defmacro_yields l s top : yields (compile_defmacro compile_form collect_free l s top) 0 1.
Proof.
  unfold compile_defmacro. destruct (negb top); [apply yields_fail|]. destruct (_ <? 4); [apply yields_fail|].
  apply yields_after; [quiet|]. intros name_child.
  apply yields_after; [quiet|]. intros [[name metadata] clauses].
  destruct clauses as [|parameters body]; [apply yields_fail|].
  apply yields_after; [quiet|]. intros m. apply yields_after; [quiet|]. intros _.
  apply yields_after; [quiet|]. intros _.
  eapply yields_bind.
  - destruct (is_vector _).
    + apply yields_after; [quiet|]. intros implicit. apply function_yields.
    + eapply multi_arity_yields. intros x. eapply from_impl; [apply macro_clauses_from|]. intros k x'. apply id.
  - intros _. apply yields_after; [quiet|]. intros index. emits.
Qed.

Lemma defn_yields l s : yields (compile_defn compile_form collect_free l s) 0 1.
Proof.
  unfold compile_defn. destruct (_ <? 4); [apply yields_fail|].
  apply yields_after; [quiet|]. intros name_child.
  apply yields_after; [quiet|]. intros [[name metadata] clauses].
  apply yields_after; [quiet|]. intros c.
  apply yields_after; [unfold reject_at; quiet|]. intros _.
  destruct clauses as [|parameters body]; [apply yields_fail|].
  apply yields_after; [quiet|]. intros _. apply yields_after; [quiet|]. intros m.
  apply yields_after; [quiet|]. intros _. apply (yields_bind _ _ _ 1).
  - destruct (is_vector _).
    + apply yields_after; [quiet|]. intros implicit. apply function_yields.
    + eapply multi_arity_yields. intros x.
      eapply from_impl; [apply clauses_from, quiet_defn_clause|]. intros k x'. apply id.
  - intros _. apply yields_if_live, yields_after; [quiet|]. intros index.
    eapply yields_bind; [apply (yields_emit_at _ _ 1 1); [done|simpl; lia..]|intros _].
    eapply yields_bind; [apply (yields_emit_at _ _ 1 0); [done|simpl; lia..]|intros _]. emits.
Qed.

(** ** Globals and fields *)
Lemma declare_loop_yields names : names ≠ [] → yields (declare_loop names : comp ()) 0 1.
Proof.
  induction names as [|child names IH]; [done|]. intros _. cbn [declare_loop].
  destruct (child_form child); try apply yields_fail.
  apply yields_after; [quiet|]. intros _. apply yields_after; [quiet|]. intros index.
  apply (yields_bind _ _ _ 1); [emits|intros _]. destruct names as [|next names].
  - eapply yields_bind; [by apply (yields_ret _ 1 1)|intros _; by apply yields_ret].
  - eapply yields_bind; [apply (yields_emit_at _ _ 1 0); [done|simpl; lia..]|intros _]. by apply IH.
Qed.

Lemma declare_yields l s top : yields (compile_declare l s top : comp ()) 0 1.
Proof.
  unfold compile_declare. destruct (negb top); [apply yields_fail|].
  destruct (drop 1 l) eqn:E; [emits|]. by apply declare_loop_yields.
Qed.

Lemma field_yields l s : yields (compile_field compile_form l s) 0 1.
Proof.
  unfold compile_field. destruct l as [|? [|instance [|name [|]]]]; try apply yields_fail.
  destruct (field_of _) as [field|]; [|apply yields_fail].
  eapply yields_bind; [apply child_yields|intros _; apply yields_if_live].
  apply yields_after; [quiet|]. intros index. emits.
Qed.

Lemma instance_of_yields l s : yields (compile_instance_of compile_form l s) 0 1.
Proof.
  unfold compile_instance_of. destruct (negb _) eqn:En; [apply yields_fail|].
  apply negb_false_iff, Nat.eqb_eq in En.
  eapply yields_bind; [apply arguments_yields|intros _; apply yields_if_live].
  rewrite length_drop, En. emits.
Qed.

Lemma def_yields l s : yields (compile_def compile_form l s) 0 1.
Proof.
  unfold compile_def. destruct l as [|? [|name_child [|initializer [|]]]]; try apply yields_fail.
  apply yields_after; [quiet|]. intros [name metadata]. apply yields_after; [quiet|]. intros _.
  apply yields_after; [quiet|]. intros m. eapply yields_bind; [apply child_yields|intros _; apply yields_if_live].
  apply yields_after; [quiet|]. intros _. apply yields_after; [quiet|]. intros _.
  apply yields_after; [quiet|]. intros index. emits.
Qed.

Lemma set_yields l s : yields (compile_set compile_form l s) 0 1.
Proof.
  assert (∀ place value, yields (compile_set_global compile_form place value s) 0 1) as Hglobal.
  { intros place value. unfold compile_set_global. destruct (child_form place); try apply yields_fail.
    apply yields_after; [quiet|]. intros slot. apply yields_after; [quiet|]. intros c.
    destruct (is_some slot); [apply yields_fail|]. destruct (negb _); [apply yields_fail|].
    apply yields_after; [quiet|]. intros _. eapply yields_bind; [apply child_yields|intros _; apply yields_if_live].
    apply yields_after; [quiet|]. intros index. emits. }
  unfold compile_set. destruct l as [|? [|place [|value [|]]]]; try apply yields_fail.
  destruct (child_form place); try apply Hglobal. destruct (head_is _ _); [|apply Hglobal].
  unfold compile_set_field. destruct (list_children _ _ _) as [|? [|receiver [|name [|]]]]; try apply yields_fail.
  destruct (field_of _) as [field|]; [|apply yields_fail].
  eapply yields_bind; [apply child_yields|intros _; apply yields_if_live].
  eapply yields_bind; [apply (yields_frame _ 0 1 1), child_yields|intros _; apply yields_if_live].
  apply yields_after; [quiet|]. intros index. emits.
Qed.

Lemma var_yields l s : yields (compile_var l s : comp ()) 0 1.
Proof.
  unfold compile_var. destruct l as [|? [|target [|]]]; try apply yields_fail.
  destruct (child_form target); try apply yields_fail. apply yields_after; [quiet|]. intros d.
  destruct (negb _); [apply yields_fail|]. apply yields_after; [quiet|]. intros index. emits.
Qed.

Lemma suspension_yields l s arity effect i :
  i = Await ∨ i = Yield → yields (compile_suspension compile_form l s arity effect i) 0 1.
Proof.
  intros Hi. unfold compile_suspension. destruct l as [|? [|value [|]]]; try apply yields_fail.
  apply yields_after; [quiet|]. intros x. destruct (negb _); [apply yields_fail|].
  eapply yields_bind; [apply child_yields|intros _; apply yields_if_live].
  destruct Hi as [-> | ->]; emits.
Qed.

Lemma throw_yields l s : yields (compile_throw compile_form l s) 0 1.
Proof.
  unfold compile_throw. destruct l as [|? [|argument [|]]]; try apply yields_fail.
  eapply yields_bind; [apply child_yields|intros _; apply yields_if_live]. by apply yields_stop.
Qed.

(** ** Exceptions *)
Lemma quiet_parse_clauses clauses : quiet (parse_clauses clauses : comp (list CatchClause * list Child)).
Proof.
  induction clauses as [|clause clauses IH]; cbn [parse_clauses]; [apply quiet_ret|]. unfold reject_at.
  repeat first [apply IH|quiet_step].
Qed.

Lemma pending_slots_from b s x :
  fallthrough x = true →
  from x (pending_slots b s : comp (option (N * N))) (λ _ x', extends x x' 0 0 ∧ fallthrough x' = true).
Proof.
  intros El. unfold pending_slots. destruct b; [|apply from_ret; split; [apply code_extends_refl|done]].
  apply from_bind. eapply from_extends; [apply (yields_declare_hidden 0)|]. intros value x1 H1'.
  apply from_bind. eapply from_extends; [apply (yields_declare_hidden 0)|]. intros flag x2 H2'.
  apply from_bind. eapply from_extends; [apply (yields_emit_at _ _ 0 1); [done|simpl; lia..]|]. intros _ x3 H3.
  apply from_bind. apply from_emit_. intros E3. apply from_ret. split; [|done].
  apply (code_extends_trans _ x1 _ _ 0); [done|]. apply (code_extends_trans _ x2 _ _ 0); [done|].
  apply (code_extends_trans _ x3 _ _ 1); [done|]. apply extends_emitted; [done|done|simpl; lia..].
Qed.

(** The operands at the end of a body or clause once its result is kept. *)
Definition left_over (slot : option N) : nat := match slot with Some _ => 0 | None => 1 end.

Lemma leave_from x y e js slot :
  fallthrough y = true → guarded x y e js (left_over slot) (Some 1) →
  from y (leave_region slot : comp nat) (λ j z, guarded x z e (js ++ [j]) (left_over slot) None).
Proof.
  intros El Hg. destruct slot as [slot|]; cbn.
  - apply from_bind. eapply from_extends; [apply (yields_emit_ _ _ 1 0); [done|simpl; lia..]|].
    intros _ y1 H1'. pose proof (guarded_extends _ _ _ _ _ _ _ _ Hg El H1') as Hg1.
    apply from_emit. intros El1. unfold when_live in Hg1. rewrite El1 in Hg1. by apply guarded_jump.
  - apply from_emit. intros _. by apply guarded_jump.
Qed.

(** The end of a region or clause: a jump when control reaches it. *)
Lemma region_end x y e js slot :
  guarded x y e js (left_over slot) (when_live y 1) →
  from y (if fallthrough y then j ← leave_region slot; mret [j] else mret [] : comp (list nat))
    (λ js' z, guarded x z e (js ++ js') (left_over slot) None ∧ (fallthrough y = false → js' = []) ∧
              (fallthrough y = true → js' ≠ [])).
Proof.
  intros Hg. unfold when_live in Hg. destruct (fallthrough y) eqn:El.
  - apply from_bind. eapply from_impl; [by apply leave_from|]. intros j z Hz. by apply from_ret.
  - apply from_ret. by rewrite app_nil_r.
Qed.

Lemma from_update_entry x i f (Q : () → FnContext → Prop) :
  (∀ e, fn_handlers x !! i = Some e → Q tt (with_handlers (<[i := f e]> (fn_handlers x)) x)) →
  from x (update_entry i f : comp ()) Q.
Proof.
  intros HQ. apply from_bind, from_ctx, from_bind, from_or_crash. intros e He. apply from_update. by apply HQ.
Qed.

Lemma guarded_lookup x y e js p ex : guarded x y e js p ex → fn_handlers y !! length (fn_handlers x) = Some e.
Proof. intros (l & hs & [_ _ E] & _). rewrite E, lookup_app_r by done. by rewrite Nat.sub_diag. Qed.

(** Each catch clause begins where its entry says control arrives. *)
Lemma catch_loop_from clauses x y e js index tail slot :
  fallthrough x = true → index = length (fn_handlers x) → guarded x y e js (left_over slot) None →
  from y (catch_loop compile_form index tail slot clauses)
    (λ js' z, ∃ e', guarded x z e' (js ++ js') (left_over slot) None ∧ finally e' = finally e).
Proof.
  intros El ->. revert y e js. induction clauses as [|clause clauses IH]; intros y e js Hg; cbn [catch_loop].
  - apply from_ret. exists e. by rewrite app_nil_r.
  - apply from_bind, from_here.
    apply from_bind. eapply from_impl; [apply from_open_scope|]. intros [] y1 Hy1.
    apply from_bind. eapply from_impl; [apply from_declare_local|]. intros binding y2 Hy2.
    apply from_bind, from_update_entry. intros e0 He0.
    assert (still y y2) as Hy by (destruct Hy1, Hy2; split; [by eapply same_frame_trans|congruence..]).
    pose proof (guarded_still _ _ _ _ _ _ _ Hg Hy) as Hg2.
    rewrite (guarded_lookup _ _ _ _ _ _ Hg2) in He0. injection He0 as <-.
    set (c := mkCatchEntry _ _ _). set (e1 := with_catch c e). set (y3 := with_handlers _ _).
    assert (guarded x y3 e1 js (left_over slot) (Some 0)) as Hg3.
    { apply guarded_target.
      - apply guarded_refine with e; [done|]. split; [done| |by right].
        intros c' Hc'. cbn. apply elem_of_app. by left.
      - left. exists c. split; [cbn; apply elem_of_app; right; by left|]. cbn. f_equal.
        unfold end_of. cbn. by rewrite (still_code _ _ Hy). }
    apply from_bind, from_update. set (y4 := with_fallthrough true y3).
    assert (guarded x y4 e1 js (left_over slot) (Some 0)) as Hg4 by (by eapply guarded_still).
    apply from_bind. eapply from_extends; [apply sequence_yields|]. intros _ y5 H5.
    pose proof (guarded_extends _ _ _ _ _ _ _ _ Hg4 eq_refl H5) as Hg5.
    apply from_bind, from_reads_on, from_bind. eapply from_impl; [by apply region_end|].
    intros js1 y6 (Hg6 & _). apply from_bind. eapply from_impl; [apply from_close_scope|]. intros [] y7 H7.
    apply from_bind. eapply from_impl; [eapply IH, guarded_still; [exact Hg6|exact H7]|].
    intros js2 z (e' & Hz & Hf). apply from_ret. exists e'. by rewrite app_assoc.
Qed.

(** The end of a finally: the pending error is thrown again. *)
Lemma seg_rethrow b flag pending :
  seg b [Pop; LoadLocal flag; JumpIfFalse (as_u32 (b + 5)); LoadLocal pending; Rethrow; LoadLocal pending] [] 1
    [(b + 6, 1)].
Proof.
  apply (seg_cut _ [Pop; LoadLocal flag; JumpIfFalse (as_u32 (b + 5)); LoadLocal pending; Rethrow] [] _
    [(b + 5, 0)] 0 [LoadLocal pending] [] [(b + 6, 1)]).
  - apply (seg_snoc _ [Pop; LoadLocal flag; JumpIfFalse (as_u32 (b + 5)); LoadLocal pending] [] _
      [(b + 5, 0); (b + 4, 1)] 1).
    + apply (seg_snoc _ [Pop; LoadLocal flag; JumpIfFalse (as_u32 (b + 5))] [] _ [(b + 5, 0); (b + 3, 0)] 0).
      * apply (seg_snoc _ [Pop; LoadLocal flag] [] _ [(b + 2, 1)] 1).
        -- apply (seg_snoc _ [Pop] [] _ [(b + 1, 0)] 0).
           ++ apply seg_step; [done|]. intros p o [= -> ->]%list_elem_of_singleton. left. simpl. split_and!; [lia|done|lia].
           ++ simpl. by left.
           ++ simpl. lia.
           ++ intros p o [= -> ->]%list_elem_of_singleton. right. left. simpl. split_and!; [lia|done|lia].
        -- simpl. by left.
        -- simpl. lia.
        -- intros p o [[= -> ->]|[= -> ->]%list_elem_of_singleton]%elem_of_cons; right; simpl.
           ++ right. split_and!; [lia|lia|by right].
           ++ left. split_and!; [lia|done|lia].
      * simpl. right. by left.
      * simpl. lia.
      * intros p o [[= -> ->]|[= -> ->]%list_elem_of_singleton]%elem_of_cons; [left; by left|].
        right. left. simpl. split_and!; [lia|done|lia].
    + simpl. right. by left.
    + simpl. lia.
    + intros p o [= -> ->]%list_elem_of_singleton. left. by left.
  - simpl. by left.
  - apply seg_step; [simpl; lia|]. intros p o [= -> ->]%list_elem_of_singleton. left. simpl. split_and!; [lia|done|lia].
  - intros p o [= -> ->]%list_elem_of_singleton. simpl. lia.
  - intros p o Hin. by right.
Qed.

Lemma rethrow_from flag pending s x :
  fallthrough x = true →
  from x (emit_ Pop None;; emit_ (LoadLocal flag) None;; jump_normal ← emit (JumpIfFalse 0) None;
         emit_ (LoadLocal pending) None;; emit_at Rethrow s;; normal ← here;
         patch_jump jump_normal normal;; emit_ (LoadLocal pending) None : comp ())
    (λ _ x', extends x x' 1 1 ∧ fallthrough x' = true).
Proof.
  intros El. apply from_bind, from_emit_. intros _. apply from_bind, from_emit_. intros _.
  apply from_bind, from_emit. intros _. apply from_bind, from_emit_. intros _. apply from_bind, from_emit_. intros _.
  apply from_bind, from_here, from_bind, from_patch_jump. rewrite !end_emitted. set (b := end_of x) in *.
  set (y := with_code _ _ _).
  assert (grown x y [Pop; LoadLocal flag; JumpIfFalse (as_u32 (b + 5)); LoadLocal pending; Rethrow] []) as G.
  { pose proof (grown_emitted _ Rethrow (Some (start s)) _ _ _ (grown_emitted _ (LoadLocal pending) None _ _ _
      (grown_emitted _ (JumpIfFalse 0) None _ _ _ (grown_emitted _ (LoadLocal flag) None _ _ _
      (grown_emitted _ Pop None _ _ _ (grown_refl x)))))) as G.
    epose proof (grown_alter _ _ _ _ (retarget (S (S (S (S (S b)))))) (S (S b)) _ G ltac:(lia)) as G'.
    fold b in G'. replace (S (S b) - b) with 2 in G' by lia.
    replace (b + 5) with (S (S (S (S (S b))))) by lia. exact G'. }
  pose proof (grown_end _ _ _ _ G) as Hend. apply from_emit_. intros Ey. split; [|exact Ey].
  eapply extends_grown; [by apply grown_emitted|done|]. fold b. eapply seg_sub; [apply seg_rethrow|done|].
  intros p o (-> & -> & _)%exit_of_forward. exists 1. split; [|done]. rewrite end_emitted, Hend. simpl.
  apply list_elem_of_singleton. f_equal. fold b. lia.
Qed.

Lemma finally_from x y e js index flag pending body s :
  fallthrough x = true → index = length (fn_handlers x) → guarded x y e js 0 None → finally e = None →
  from y (finally_region compile_form index flag pending js body s) (λ _ z, extends x z 0 1).
Proof.
  intros El -> Hg Hn. apply from_bind, from_here, from_bind, from_update_entry. intros e0 He0.
  rewrite (guarded_lookup _ _ _ _ _ _ Hg) in He0. injection He0 as <-.
  set (e1 := with_finally _ e). set (y1 := with_handlers _ _).
  assert (guarded x y1 e1 js 0 (Some 0)) as Hg1.
  { apply guarded_target; [apply guarded_refine with e; [done|]; split; [done|done|by left]|by right]. }
  apply from_bind, from_patch_all. change (end_of y) with (end_of y1). set (y2 := with_code _ _ y1).
  assert (guarded x y2 e1 [] 0 (Some 0)) as Hg2 by (apply guarded_patched; [done|right; by exists 0]).
  apply from_bind, from_update. set (y3 := with_fallthrough true y2).
  assert (guarded x y3 e1 [] 0 (Some 0)) as Hg3 by (by eapply guarded_still).
  apply from_bind. eapply from_extends; [apply sequence_yields|]. intros _ y4 H4.
  pose proof (guarded_extends _ _ _ _ _ _ _ _ Hg3 eq_refl H4) as Hg4.
  apply from_bind, from_reads_on, from_bind. unfold when_live in Hg4. destruct (fallthrough y4) eqn:E4.
  - eapply from_impl; [by apply rethrow_from|]. intros [] y5 [H5 E5]. apply from_update.
    pose proof (guarded_extends _ _ _ _ _ _ _ _ Hg4 E4 H5) as Hg5. unfold when_live in Hg5. rewrite E5 in Hg5.
    apply guarded_leave with e1 0; [|done]. by eapply guarded_still.
  - apply from_ret, from_update. apply guarded_leave with e1 0; [|done]. by eapply guarded_still.
Qed.

Lemma refines_with_end n e : refines e (with_end n e).
Proof. split; [done|done|by right]. Qed.

Lemma try_lives l s tail : lives (compile_try compile_form l s tail) 0 1.
Proof.
  intros x El. unfold compile_try. destruct (split_clauses (drop 1 l)) as [body clauses].
  destruct (head _); [apply from_fail|].
  apply from_bind, from_quiet; [apply quiet_parse_clauses|]. intros [catches finally_body].
  apply from_bind. eapply from_impl; [by apply pending_slots_from|]. intros pending x1 [H1' El1].
  eapply (from_impl _ _ (λ _ x', extends x1 x' 0 1)); [|intros [] x' H2'; by eapply code_extends_trans].
  apply from_bind, from_ctx, from_bind, from_update. set (e := mkTryEntry _ _ _ _ _ _ _). set (x2 := with_handlers _ _).
  assert (∀ p, guarded x1 x2 e [] p (Some 0)) as Hg2 by (intros p; by apply guarded_start).
  apply from_bind, from_update. set (x3 := with_tries _ _).
  assert (∀ p, guarded x1 x3 e [] p (Some 0)) as Hg3 by (intros p; by eapply guarded_still).
  apply from_bind. eapply from_extends; [apply sequence_yields|]. intros _ x4 H4.
  pose proof (guarded_extends _ _ _ _ _ _ _ _ (Hg3 (left_over (fst <$> pending))) El1 H4) as Hg4.
  apply from_bind, from_reads_on, from_bind. eapply from_impl; [by apply region_end|].
  intros jumps x5 (Hg5 & Hdead & Hlive). rewrite app_nil_l in Hg5.
  apply from_bind, from_here, from_bind, from_update_entry. intros e0 He0.
  rewrite (guarded_lookup _ _ _ _ _ _ Hg5) in He0. injection He0 as <-.
  eapply guarded_refine in Hg5; [|by apply (refines_with_end (as_u32 (end_of x5)))].
  apply from_bind. eapply from_impl; [eapply catch_loop_from; [done|done|exact Hg5]|].
  intros clause_jumps x6 (e' & Hg6 & Hfin).
  assert (∀ z, extends x1 z 0 1 → from z (update_ctx (λ x, with_tries (List.tl (tries x)) x) : comp ())
            (λ _ z', extends x1 z' 0 1)) as Hleave.
  { intros z Hz. apply from_update. eapply code_extends_trans; [exact Hz|]. apply neutral_extends, neutral_tries. }
  apply from_bind. destruct pending as [[value flag]|].
  - eapply from_impl; [by apply finally_from with e'|]. intros [] z Hz. by apply Hleave.
  - apply from_bind, from_here, from_bind, from_patch_all, from_update, Hleave.
    apply (guarded_join _ _ e' _ 1); [exact Hg6|done|].
    intros [E4|E4]%orb_true_iff; [|by destruct jumps, clause_jumps].
    destruct jumps; [by destruct (Hlive E4)|done].
Qed.

(** ** Literals *)
Lemma constant_yields value s : yields (constant value s : comp ()) 0 1.
Proof. apply yields_after; [quiet|]. intros index. emits. Qed.
Lemma unique_constant_yields value s : yields (unique_constant value s : comp ()) 0 1.
Proof.
  apply yields_after; [quiet|]. intros d. destruct (_ <=? _)%N; [apply yields_fail|].
  apply yields_after; [quiet|]. intros _. emits.
Qed.
Lemma quiet_value_of_form form s : quiet (value_of_form form s : comp Value).
Proof. apply quiet_checked_at. Qed.
Lemma quiet_collection_count n s : quiet (collection_count n s : comp N).
Proof. unfold collection_count, reject_at. quiet. Qed.
Hint Resolve quiet_value_of_form quiet_collection_count : quiet.

Lemma quote_yields l s : yields (compile_quote l s : comp ()) 0 1.
Proof.
  unfold compile_quote. destruct l as [|? [|quoted [|]]]; try apply yields_fail.
  apply yields_after; [quiet|]. intros value. apply unique_constant_yields.
Qed.

(** The number of a collection's elements. *)
Lemma count_yields {B} n s (k : N → comp B) a o :
  (∀ count, N.to_nat count = n → yields (k count) a o) → yields (count ← collection_count n s; k count) a o.
Proof.
  intros Hk. unfold collection_count. destruct (_ <? _)%N; [apply yields_fail|]. apply (Hk (N.of_nat n)). lia.
Qed.

Lemma nested_each_yields s l : yields (each (compile_nested compile_form s) l) 0 (length l).
Proof. apply (yields_each _ _ 0). intros. apply nested_yields. Qed.

Lemma entries_yields (f : Form → comp ()) l :
  (∀ e, e ∈ l → yields (f e.1) 0 1 ∧ yields (f e.2) 0 1) →
  yields (each (λ '(key, value), f key;; f value) l) 0 (2 * length l).
Proof.
  assert (∀ a, (∀ e, e ∈ l → yields (f e.1) 0 1 ∧ yields (f e.2) 0 1) →
    yields (each (λ '(key, value), f key;; f value) l) a (a + 2 * length l)) as Hgen; [|apply (Hgen 0)].
  induction l as [|[key value] l IH]; intros a Hf; [apply yields_ret; simpl; lia|].
  destruct (Hf (key, value)) as [H1' H2']; [by left|]. cbn in H1', H2'.
  eapply (yields_bind _ _ a (2 + a)).
  - eapply yields_bind; [apply (yields_frame _ 0 1 a H1')|intros _; apply (yields_frame _ 0 1 (1 + a) H2')].
  - intros _. eapply yields_weaken; [apply (IH (2 + a))|simpl; lia..]. intros e He. apply Hf. by right.
Qed.

Lemma syntax_collection_yields s syntax_value vector values :
  (∀ v, v ∈ values → yields (syntax_value v) 0 1) →
  yields (syntax_collection compile_form s syntax_value vector values) 0 1.
Proof.
  intros Hv. unfold syntax_collection. cbn zeta. set (spliced := existsb _ _).
  eapply yields_bind; [apply (yields_each _ _ 0)|intros _].
  - intros v Hin. unfold spliced_element. destruct (unquote_argument v _).
    + apply yields_after; [quiet|]. intros argument. apply nested_yields.
    + eapply yields_bind; [by apply Hv|intros _]. destruct spliced; [emits|by apply yields_ret].
  - apply count_yields. intros count Hcount. destruct spliced; [|destruct vector; emits].
    apply (yields_bind _ _ _ 1); [emits|intros _]. destruct vector; [emits|by apply yields_ret].
Qed.

Lemma syntax_value_yields s nested whole form :
  yields (compile_syntax_value compile_form s nested whole form) 0 1.
Proof.
  revert nested whole.
  induction form as [| | | | | | | |t v IH|m v IHm IHv|name| | |l IH|l IH|l IH|l IH] using form_nested_ind;
    intros nested whole; cbn [compile_syntax_value];
    try (apply yields_after; [quiet|]; intros value; apply constant_yields).
  - apply IHv.
  - rewrite Forall_forall in IH. eapply yields_bind.
    + apply (entries_yields (λ v, compile_syntax_value compile_form s true v v)). intros e He.
      destruct (IH e He). auto.
    + intros _. pose proof (as_u16_le (length l)). emits.
  - rewrite Forall_forall in IH. eapply yields_bind.
    + apply (yields_each _ _ 0). intros v Hv. by apply IH.
    + intros _. pose proof (as_u16_le (length l)). emits.
  - rewrite Forall_forall in IH. apply syntax_collection_yields. intros v Hv. by apply IH.
  - rewrite Forall_forall in IH. destruct (unquote_argument _ "unquote").
    + apply yields_after; [quiet|]. intros argument. apply nested_yields.
    + destruct (is_some _); [apply yields_fail|]. apply syntax_collection_yields. intros v Hv. by apply IH.
Qed.

Lemma syntax_quote_yields l s : yields (compile_syntax_quote compile_form l s) 0 1.
Proof.
  unfold compile_syntax_quote. destruct l as [|? [|template [|]]]; try apply yields_fail. apply syntax_value_yields.
Qed.

Lemma primitive_yields l s op : yields (compile_primitive compile_form l s op) 0 1.
Proof.
  unfold compile_primitive. cbn zeta. destruct (_ <? _); [apply yields_fail|].
  destruct (folded op _); [apply constant_yields|].
  eapply yields_bind; [apply arguments_yields|intros _; apply yields_if_live].
  apply yields_after; [quiet|]. intros target. rewrite length_drop. pose proof (as_u8_le (length l - 1)). emits.
Qed.

(** ** Forms *)
Lemma unsupported_yields form s a o : yields (unsupported form s : comp ()) a o.
Proof.
  assert (yields (text ← or_crash (display form);
    reject_at KUnsupportedForm ("unsupported form: " +:+ utf8 text) s : comp ()) a o) as Hgen
    by (apply yields_after; [quiet|intros; apply yields_fail]).
  unfold unsupported. destruct form as [| | | | | | | | | | | | | | | |[|[] l]]; try exact Hgen. apply yields_fail.
Qed.

Lemma tagged_yields whole tag value s : yields (compile_tagged compile_form whole tag value s) 0 1.
Proof.
  unfold compile_tagged. destruct (decide _).
  { destruct value; try apply yields_fail. apply yields_after; [quiet|]. intros v. apply constant_yields. }
  destruct (decide _).
  { destruct value as [| | | | | | | | | | | | | | |values|]; try apply yields_fail.
    destruct (_ <? _); [apply yields_fail|]. eapply yields_bind; [apply nested_each_yields|intros _].
    apply yields_after; [quiet|]. intros target. pose proof (as_u8_le (length values)). emits. }
  destruct (decide _); [|apply unsupported_yields].
  destruct value as [| | | | | | | | | | | | |entries| | |]; try apply yields_fail. cbn zeta.
  destruct (_ <? _); [apply yields_fail|]. eapply yields_bind.
  - apply (entries_yields (compile_nested compile_form s)). intros entry _. split; apply nested_yields.
  - intros _. apply yields_after; [quiet|]. intros target. generalize (2 * length entries). intros k. pose proof (as_u8_le k). emits.
Qed.

Lemma symbol_yields name s : yields (compile_symbol name s : comp ()) 0 1.
Proof.
  unfold compile_symbol. apply yields_after; [quiet|]. intros slot. apply yields_after; [quiet|]. intros c.
  destruct slot; [emits|]. destruct (visible_global c name).
  { apply yields_after; [quiet|]. intros index. emits. }
  destruct (is_some _); [apply yields_after; [quiet|]; intros index; emits|].
  destruct (visible_bytecode_callable c name); [apply yields_after; [quiet|]; intros index; emits|].
  destruct (visible_namespace c name); [apply yields_after; [quiet|]; intros index; emits|apply yields_fail].
Qed.

Lemma dot_yields elements s : yields (compile_dot compile_form elements s) 0 1.
Proof.
  unfold compile_dot. destruct elements as [|? [|receiver [|method [|]]]]; try apply yields_fail.
  destruct method as [| | | | | | | | | | | | | | | |[|[] arguments]]; try apply yields_fail.
  eapply yields_bind; [apply nested_yields|intros _].
  eapply yields_bind; [apply (yields_each _ _ 1); intros; apply nested_yields|intros _].
  apply yields_after; [quiet|]. intros index. pose proof (as_u8_le (length arguments)). emits.
Qed.

Lemma namespace_operation_yields form s : yields (compile_namespace_operation form s : comp ()) 0 1.
Proof.
  apply yields_after; [quiet|]. intros value. apply yields_after; [quiet|]. intros index. emits.
Qed.

Lemma operator_lives name form elements l s top tail :
  lives (compile_operator compile_form collect_free name form elements l s top tail) 0 1.
Proof.
  assert (∀ (m : comp ()), yields m 0 1 → lives m 0 1) as Hy by (intros; by apply yields_lives).
  intros x El. unfold compile_operator. apply from_bind, from_quiet; [quiet|]. intros d.
  apply from_bind, from_ctx. cbn zeta.
  destruct (is_coroutine_var _ _ _); [apply Hy; [apply suspension_yields; by left|done]|].
  destruct (is_coroutine_var _ _ _); [apply Hy; [apply suspension_yields; by right|done]|].
  destruct (is_host_call_var _ _); [apply Hy; [apply host_call_yields|done]|].
  destruct (decide _); [apply Hy; [apply dot_yields|done]|].
  destruct (decide _); [apply Hy; [apply if_yields|done]|].
  destruct (decide _); [by apply and_lives|]. destruct (decide _); [by apply or_lives|].
  destruct (decide _); [by apply cond_lives|].
  destruct (decide _); [apply Hy; [apply quote_yields|done]|].
  destruct (decide _); [apply Hy; [emits|done]|].
  destruct (decide _); [apply Hy; [apply syntax_quote_yields|done]|].
  destruct (decide _).
  { apply Hy; [|done]. apply yields_after; [quiet|]. intros _. apply sequence_yields. }
  destruct (decide _); [apply Hy; [apply let_yields|done]|].
  destruct (decide _); [apply Hy; [apply loop_yields|done]|].
  destruct (decide _); [apply Hy; [apply recur_yields|done]|].
  destruct (decide _); [apply Hy; [apply fn_form_yields|done]|].
  destruct (decide _); [apply Hy; [apply def_yields|done]|].
  destruct (decide _); [apply Hy; [apply defn_yields|done]|].
  destruct (decide _); [apply Hy; [apply defmacro_yields|done]|].
  destruct (decide _); [apply Hy; [apply declare_yields|done]|].
  destruct (decide _); [apply Hy; [apply var_yields|done]|].
  destruct (decide _); [apply Hy; [apply set_yields|done]|].
  destruct (_ || _); [apply Hy; [apply namespace_operation_yields|done]|].
  destruct (bool_decide _).
  { apply Hy; [|done]. destruct (negb top); [apply unsupported_yields|emits]. }
  destruct (decide _); [apply Hy; [apply field_yields|done]|].
  destruct (decide _); [apply Hy; [apply instance_of_yields|done]|].
  destruct (decide _); [by apply try_lives|].
  destruct (decide _); [apply Hy; [apply dynamic_binding_yields|done]|].
  destruct (decide _); [apply Hy; [apply dynamic_binding_yields|done]|].
  destruct (decide _); [apply Hy; [apply throw_yields|done]|].
  destruct (_ && _ && _); [apply Hy; [apply unsupported_yields|done]|].
  apply Hy; [|done]. destruct (from_symbol name) as [op|]; [|apply named_call_yields].
  destruct (_ || _); [apply primitive_yields|]. destruct (_ || _); [apply named_call_yields|apply primitive_yields].
Qed.

Lemma dispatch_lives form s nodes top tail :
  lives (compile_dispatch compile_form collect_free form s nodes top tail) 0 1.
Proof.
  assert (∀ (m : comp ()), yields m 0 1 → lives m 0 1) as Hy by (intros; by apply yields_lives).
  intros x El. unfold compile_dispatch.
  destruct form as [a| |b|z|bits|z|ch|re|tag v|m v|name|name|str|entries|values|values|values];
    [apply Hy; [|done]..|].
  - apply yields_after; [quiet|]. intros v. apply unique_constant_yields.
  - emits.
  - destruct b; emits.
  - apply constant_yields.
  - apply yields_after; [quiet|]. intros v. apply constant_yields.
  - apply constant_yields.
  - apply constant_yields.
  - apply constant_yields.
  - apply tagged_yields.
  - apply yields_after; [quiet|]. intros _. apply compile_yields.
  - apply symbol_yields.
  - apply yields_after; [quiet|]. intros v. apply constant_yields.
  - apply constant_yields.
  - destruct (_ <? _)%N; [apply yields_fail|]. eapply yields_bind.
    + apply (entries_yields (compile_nested compile_form s)). intros entry _. split; apply nested_yields.
    + intros _. pose proof (as_u16_le (length entries)). emits.
  - eapply yields_bind; [apply nested_each_yields|intros _]. apply count_yields. intros count Hc. emits.
  - destruct (forallb _ _).
    + apply yields_after; [quiet|]. intros v. apply unique_constant_yields.
    + eapply yields_bind; [apply nested_each_yields|intros _]. apply count_yields. intros count Hc. emits.
  - unfold compile_list. destruct values as [|first values]; [apply Hy; [apply constant_yields|done]|].
    destruct first; try (by apply operator_lives); (apply Hy; [apply expression_call_yields|done]).
Qed.
End lowering.
