(* ===== verification/CompilerRuns.v ===== *)
(** * Compiled programs

    What a compilation that returns has made: a program that passes validation
    and whose functions find their operands in their own frames. *)
From S2P Require Import Prelude Bytes Text Opcode Kernel Reader Printer Program DefinitionForms Destructure Scope Compiler Captures Validate Lowering Machine Safety Runs Segments CompilerFacts Evaluation.
#[local] Open Scope nat_scope.

(** ** The walk for captures changes no function *)
Section captures.
Context {W : Type} `{CompilerEnv W}.
Abbreviation comp := (prog (Compiler W) compile_stop).

Lemma quiet_each {A} (f : A → list (string * option Position) → comp (list (string * option Position))) l found :
  (∀ y found, y ∈ l → quiet (f y found)) → quiet (collect_each f l found).
Proof.
  revert found. induction l as [|y l IH]; intros found Hf; [apply quiet_ret|].
  apply quiet_bind; [apply Hf; by left|intros; apply IH]. intros z found' Hz. apply Hf. by right.
Qed.
Lemma quiet_slice {A} n (l : list A) : quiet (slice_from n l : comp (list A)).
Proof. unfold slice_from. quiet. Qed.
Lemma quiet_reference name s b bound found : quiet (reference name s b bound found : comp _).
Proof. unfold reference. quiet. Qed.
Hint Resolve quiet_slice quiet_reference : quiet.

Section walk.
Variable collect : list string → Child → list (string * option Position) → comp (list (string * option Position)).
Hypothesis collect_quiet : ∀ bound c found, quiet (collect bound c found).
Hint Resolve collect_quiet : quiet.
Hint Extern 1 (quiet (collect_each _ _ _)) => apply quiet_each; intros : quiet.

Lemma quiet_collect_pairs bound pairs found : quiet (collect_pairs collect bound pairs found).
Proof.
  remember (length pairs) as n eqn:Hn. revert bound pairs Hn found.
  induction (lt_wf n) as [n _ IH]. intros bound pairs -> found.
  destruct pairs as [|name [|initializer pairs]]; [apply quiet_ret..|]. cbn [collect_pairs].
  apply quiet_bind; [apply collect_quiet|]. intros r. apply (IH (length pairs)); [simpl; lia|done].
Qed.
Lemma quiet_collect_values bound pairs found : quiet (collect_values collect bound pairs found).
Proof.
  remember (length pairs) as n eqn:Hn. revert bound pairs Hn found.
  induction (lt_wf n) as [n _ IH]. intros bound pairs -> found.
  destruct pairs as [|name [|initializer pairs]]; [apply quiet_ret..|]. cbn [collect_values].
  apply quiet_bind; [apply collect_quiet|]. intros r. apply (IH (length pairs)); [simpl; lia|done].
Qed.
Lemma quiet_collect_definition bound c found : quiet (collect_definition collect bound c found).
Proof. unfold collect_definition. quiet. Qed.
Lemma quiet_collect_clause bound c found : quiet (collect_clause collect bound c found).
Proof. unfold collect_clause. quiet. Qed.
Hint Resolve quiet_collect_pairs quiet_collect_values quiet_collect_definition quiet_collect_clause : quiet.

Lemma quiet_collect_syntax bound s form found : quiet (collect_syntax_free collect bound s form found).
Proof.
  revert found.
  induction form as [| | | | | | | |t v IH|m v IHm IHv|name| | |l IH|l IH|l IH|l IH] using ReaderRuns.form_nested_ind;
    intros found; cbn [collect_syntax_free]; quiet; try apply IHv; apply quiet_each; intros y found' Hy;
    rewrite Forall_forall in IH; specialize (IH y Hy); [|apply IH..].
  destruct y, IH. apply quiet_bind; auto.
Qed.
Hint Resolve quiet_collect_syntax : quiet.

Lemma quiet_collect_operator bound head l found : quiet (collect_operator collect bound head l found).
Proof.
  unfold collect_operator, collect_dot, collect_catch, collect_let, collect_binding, collect_set, collect_letfn, collect_fn.
  quiet.
Qed.
End walk.

Lemma collect_free_quiet fuel bound c found : quiet (collect_free fuel bound c found : comp _).
Proof.
  revert bound c found. induction fuel as [|fuel IH]; intros bound c found; [apply quiet_fail|].
  cbn [collect_free]. pose proof (quiet_collect_operator _ IH) as Hop. quiet; try apply IH; try apply Hop.
  all: apply quiet_each; intros y found' _; try apply IH. destruct y. apply quiet_bind; [apply IH|intros; apply IH].
Qed.
End captures.

(** ** Every form leaves one operand *)
Section compile.
Context {W : Type} `{TextEnv} `{ValueForms} `{CompilerEnv W}.
Abbreviation comp := (prog (Compiler W) compile_stop).

Lemma quiet_expand_macro form s : quiet (expand_macro form s : comp (option Form)).
Proof. unfold expand_macro. quiet. Qed.

Lemma lives_after {A B} (m : comp A) (k : A → comp B) a o :
  quiet m → (∀ r, lives (k r) a o) → lives (m ≫= k) a o.
Proof. intros Hm Hk x El. apply from_bind, from_quiet; [done|]. intros r. by apply Hk. Qed.

Lemma compile_form_yields fuel form s nodes tail : yields (compile_form fuel form s nodes tail : comp ()) 0 1.
Proof.
  revert form s nodes tail. induction fuel as [|fuel IH]; intros form s nodes tail; [apply yields_fail|].
  cbn [compile_form]. apply yields_after; [quiet|]. intros c. apply yields_after; [quiet|]. intros _.
  apply lives_if_live. apply lives_after; [quiet|]. intros r. apply lives_after; [quiet|]. intros [expanded|].
  - apply yields_lives, yields_after; [quiet|]. intros _. apply IH.
  - apply lives_after; [apply quiet_expand_macro|]. intros [expanded|].
    + apply yields_lives, yields_after; [quiet|]. intros _. apply IH.
    + apply dispatch_lives; [exact IH|intros; apply collect_free_quiet].
Qed.

(** ** The program *)
Lemma quiet_each_unit {A} (f : A → comp ()) l : (∀ y, quiet (f y)) → quiet (each f l).
Proof. intros Hf. induction l as [|y l IH]; [apply quiet_ret|]. apply quiet_bind; [apply Hf|done]. Qed.

Lemma quiet_predeclare l : quiet (predeclare l : comp ()).
Proof. unfold predeclare. apply quiet_each_unit. intros node. quiet. apply quiet_each_unit. intros item. quiet. Qed.

(** The functions of a finished program, before their analysis. *)
Lemma compiled_good fuel forms excluded allow w u1 u2 u3 y c1 c2 c3 c4 :
  (predeclare forms : comp ()) (compiler_new excluded allow w) = (Ok u1, c1) →
  compile_sequence (compile_form fuel) (node_child <$> forms) true c1 = (Ok u2, c2) →
  if_live (emit_ Return None) c2 = (Ok u3, c3) → close_context c3 = (Ok y, c4) →
  Forall good (prototypes c4).
Proof.
  intros E1 E2 E3 E4. apply quiet_predeclare in E1 as [Hc1 Hp1].
  set (x := new_context 0 None 0 false false false [] (push_scope scopes_new)).
  assert (inv c1) as Hi1 by (unfold inv; rewrite Hp1; by repeat constructor).
  assert ((compile_sequence (compile_form fuel) (node_child <$> forms) true;;
           if_live (emit_ Return None) : comp ()) c1 = (Ok u3, c3)) as E.
  { apply prog_bind_ok. eauto. }
  destruct (body_from (compile_form fuel) (compile_form_yields fuel) x _ eq_refl c1 [] u3 c3 Hi1 Hc1 E) as
    (Hi3 & x' & Hc3 & l & hs & G & S).
  destruct (close_context_ok c3 x x' l hs [] y c4) as [Hi4 _]; [done|done|by split|done|done|done|exact Hi4].
Qed.

(** ** Its analysis *)
(** The function but for the depths of its handlers and its operand limit. *)
Record analysed (f f' : FunctionPrototype) : Prop := {
  analysed_code : code f' = code f;
  analysed_slots : slots_fit f' = slots_fit f;
  analysed_handlers : Forall2 same_handler (handlers f) (handlers f');
}.

Lemma patch_depths_same heights l l' : patch_depths heights l = Some l' → Forall2 same_handler l l'.
Proof.
  revert l'. induction l as [|e l IH]; intros l' E; cbn in E; [by injection E as <-|].
  apply bind_Some in E as (e' & (h & Hh & [= <-])%bind_Some & (l1 & E1 & [= <-])%bind_Some).
  constructor; [by split_and!|by apply IH].
Qed.

#[local] Instance same_handler_preorder : PreOrder same_handler.
Proof.
  split; [by intros e|]. intros e1 e2 e3 (? & ? & ?) (? & ? & ?). split_and!; congruence.
Qed.
#[local] Instance analysed_preorder : PreOrder analysed.
Proof.
  split.
  - intros f. split; [done|done|reflexivity].
  - intros f1 f2 f3 [C1 S1 H1'] [C2 S2 H2']. split; [congruence|congruence|by etrans].
Qed.

Lemma analysed_insert p index f heights entries :
  functions p !! index = Some f → patch_depths heights (handlers f) = Some entries →
  Forall2 analysed (functions p) (<[index := with_analysis heights entries f]> (functions p)).
Proof.
  intros Hf He. rewrite <- (list_insert_id (functions p) index f) at 1 by done.
  apply Forall2_insert; [reflexivity|]. split; [done|done|]. by eapply patch_depths_same.
Qed.

Lemma analyse_functions_ok n index p p' :
  analyse_functions n index p = Ok p' → Forall2 analysed (functions p) (functions p').
Proof.
  revert index p. induction n as [|n IH]; intros index p E; cbn [analyse_functions] in E.
  - injection E as <-. reflexivity.
  - apply result_bind_ok in E as (f & Hf & E). apply result_bind_ok in E as (heights & Hh & E).
    apply result_bind_ok in E as (entries & He & E). apply IH in E.
    etrans; [|exact E]. eapply analysed_insert; [by destruct (functions p !! index); simplify_eq/=|].
    by destruct (patch_depths _ _); simplify_eq/=.
Qed.

(** A good function that was validated finds its operands in its own frame. *)
Lemma good_covered p index f f' heights :
  good f → analysed f f' → valid_function p index f' heights → covered f' heights ∧ slots_fit f' = true.
Proof.
  intros Hg [Hc Hs Hh] [_ _ (Hlen & Hmax & _) Hws _ _ _]. rewrite Hc in *.
  destruct Hg as [Hfit [_ Hseg]]; [intros E; rewrite E in Hlen; simpl in Hlen; lia|]. split; [|congruence].
  intros ip i h Hi Hip. rewrite Hc in Hi.
  destruct (Hseg f' heights (ws_flow _ _ _ Hws) 0) as [Hins _].
  { exists 0%N. split; [apply (ws_entry _ _ _ Hws)|done]. }
  destruct (Hins ip i Hi) as (h' & Hh' & Hle).
  - split.
    + intros k j Hk. rewrite Hc. apply lookup_take_Some in Hk as [Hk _]. exact Hk.
    + intros e He. apply list_elem_of_lookup in He as [k Hk].
      destruct (Forall2_lookup_l _ _ _ _ _ Hh Hk) as (e' & Hk' & Hsame).
      exists e'. split; [by eapply list_elem_of_lookup_2|done].
  - apply lookup_lt_Some in Hi. unfold MAX_INSTRUCTIONS in Hmax. simpl. lia.
  - simpl in *. rewrite Hip in Hh'. injection Hh' as <-. lia.
Qed.

Lemma covered_operands f heights :
  covered f heights → operands_covered (code f) heights = true.
Proof.
  intros Hc. unfold operands_covered. rewrite forallb_forall. intros [i h] Hin.
  apply list_elem_of_In, list_elem_of_lookup in Hin as [ip Hip].
  rewrite lookup_zip_with in Hip. apply bind_Some in Hip as (j & Hj & (k & Hk & [= <- <-])%bind_Some).
  apply Nat.leb_le. by eapply Hc.
Qed.

Lemma compiled_sound_lemma fuel forms excluded allow w p w' :
  compile_forms fuel forms excluded allow w = (Ok p, w') →
  validate p = Ok tt ∧ self_contained p = true.
Proof.
  unfold compile_forms. match goal with |- (let '(_, _) := ?m in _) = _ → _ => destruct m as [r c] eqn:E end.
  intros [= -> <-].
  apply prog_bind_ok in E as (u1 & c1 & E1 & (u2 & c2 & E2 & E)%prog_bind_ok).
  apply prog_bind_ok in E as (u3 & c3 & E3 & (y & c4 & E4 & E)%prog_bind_ok).
  pose proof (compiled_good _ _ _ _ _ _ _ _ _ _ _ _ _ E1 E2 E3 E4) as Hgood.
  apply prog_bind_ok in E as (c5 & c6 & [= -> ->] & E). cbn zeta in E.
  apply prog_bind_ok in E as (program & c7 & E7 & (u8 & c8 & E8 & E)%prog_bind_ok).
  injection E as -> <-. unfold lift in E7, E8. injection E7 as E7 <-. injection E8 as E8 <-.
  apply analyse_functions_ok in E7. cbn [functions] in E7.
  assert (validate p = Ok tt) as Hv by (by destruct (validate p) as [[]|[]]).
  split; [done|]. apply validate_spec in Hv as [_ _ Hfun].
  unfold self_contained. apply forallb_forall. intros f' Hin.
  apply list_elem_of_In, list_elem_of_lookup in Hin as [index Hf'].
  destruct (Hfun index f' Hf') as [heights Hvalid].
  destruct (Forall2_lookup_r _ _ _ _ _ E7 Hf') as (f & Hf & Ha).
  destruct (good_covered p index f f' heights) as [Hcov Hfit]; [|done|done|].
  { by apply (Forall_lookup_1 _ _ _ _ Hgood Hf). }
  rewrite (proj2 (stack_heights_spec p f' heights)).
  - by rewrite covered_operands, Hfit.
  - destruct Hvalid as [_ _ (? & ? & ?) ? ? _ _]. by split_and!.
Qed.

(** C6. A compilation that returns a program returns one that validation accepts
    and that is self-contained: every function of it finds its operands in its
    own frame, and its parameters and captures fit its slots. *)
Theorem compiled_sound fuel forms excluded allow w p w' :
  compile_forms fuel forms excluded allow w = (Ok p, w') →
  validate p = Ok tt ∧ self_contained p = true.
Proof.
  apply compiled_sound_lemma.
Qed.

(** C7. A compiled program can be run with any runtime, and no run of it
    panics: it returns, fails, or suspends or yields with a machine that can
    be resumed. *)
Theorem compiled_source_runs `{!Runtime R} fuel source w p w' :
  compile_source fuel source w = (Ok p, w') →
  ∀ r, ∃ m, machine_entry p r = Some m ∧
    ∀ n outcome m', run p n m = Some (outcome, m') → outcome_ok p outcome m'.
Proof.
  unfold compile_source. intros E. destruct (read_forms source) as [forms|[]]; try done.
  apply prog_bind_ok in E as (u & w1 & _ & E). destruct (compiled_sound_lemma _ _ _ _ _ _ _ E) as [Hv Hself].
  pose proof (validated_sound _ Hv Hself) as Hp. intros r.
  destruct (machine_entry_ok p Hp r) as (m & Hm & Hok). exists m. split; [done|].
  intros n outcome m' Hrun. by eapply run_ok.
Qed.
End compile.

(** ** A concrete environment *)
(** A runtime without macros, namespaces or foundation library. *)
Module Demo.
Import ReaderRuns.Demo.

Definition literal (f : Form) : result string Value :=
  match literal_of f with Some v => Ok v | None => Err "no literal" end.

Definition constant_eqb (v w : Value) : bool :=
  match v, w with
  | VString a, VString b | VKeyword a, VKeyword b => bool_decide (a = b)
  | VList [], VList [] => true
  | _, _ => false
  end.

#[export] Instance env : CompilerEnv unit := {|
  vm_macroexpand f := mret f;
  prepare_namespace_form _ := mret tt;
  form_to_value := literal;
  float_value n := VOther "float" n;
  character_value n := VOther "character" n;
  regex_value _ := VOther "regex" 0;
  big_integer_value _ := VOther "integer" 0;
  uuid_tag_value _ := Err "no UUID";
  is_number v := match v with VNumber _ => true | _ => false end;
  value_eqb := constant_eqb;
  apply_intrinsic op l :=
    match op, l with Add, [VNumber a; VNumber b] => Ok (VNumber (a + b)) | _, _ => Err "not folded" end;
  canonical_intrinsic_callable_symbol s := if has_prefix "std." s then Some s else None;
  namespace_registry _ := false;
  current_namespace _ := "user";
  find_namespace _ _ := false;
  Compiler.registry_resolve _ _ := None;
  namespace_resolve _ _ _ := None;
  lazy_target _ _ _ := None;
  has_alias _ _ _ := false;
  var_symbol _ _ := symbol_parse "x";
  hara_metadata _ _ := None;
|}.
#[export] Instance forms : ValueForms := Runs.toy_forms.

Definition compile (s : string) : result compile_stop Program := (compile_source 100 (chars s) tt).1.
(** What the code of each function is, or the error. *)
Definition codes (s : string) : result compile_stop (list (list Instruction)) :=
  match compile s with Ok p => Ok (code <$> functions p) | Err e => Err e end.
Definition run (s : string) : option (result VmOutcome Value) :=
  match compile s with Ok p => @run_entry N Runs.toy p 1000 0%N | Err _ => None end.
End Demo.
Import ReaderRuns.Demo Demo.

(** ** Runs *)
Example loop_compiles :
  Demo.codes "(loop [i 0 a 0] (if (= i 10) a (recur (+ i 1) (+ a i))))" = Ok
    [[Constant 0; StoreLocal 0; Constant 1; StoreLocal 1;
      LoadLocal 0; Constant 2; IntrinsicCall 3 2; JumpIfFalse 10; LoadLocal 1; Jump 19;
      LoadLocal 0; Constant 4; IntrinsicCall 5 2; LoadLocal 1; LoadLocal 0; IntrinsicCall 5 2;
      StoreLocal 1; StoreLocal 0; Jump 4; Return]] ∧
  Demo.run "(loop [i 0 a 0] (if (= i 10) a (recur (+ i 1) (+ a i))))" = Some (Ok (VNumber 45)).
Proof. split; vm_compute; reflexivity. Qed.

Example closures_compile :
  Demo.run "(let [x 1] ((fn [y] ((fn [z] (+ x (+ y z))) 3)) 2))" = Some (Ok (VNumber 6)).
Proof. vm_compute. reflexivity. Qed.

Definition succeeds {E A} (r : result E A) : bool := match r with Ok _ => true | Err _ => false end.

Definition sample : list SpannedForm :=
  match read_forms (chars "(let [x 20 f (fn [y] (+ x y))] (if (= x 20) (f 22) nil))") with
  | Ok l => l
  | Err _ => []
  end.

Lemma compiled_sound_witness :
  ∃ p w, compile_forms 100 sample ∅ false tt = (Ok p, w) ∧ validate p = Ok tt ∧ self_contained p = true.
Proof.
  assert (succeeds (compile_forms 100 sample ∅ false tt).1 = true) as Hok by (vm_compute; reflexivity).
  destruct (compile_forms 100 sample ∅ false tt) as [[p|e] w] eqn:E; [|discriminate Hok].
  exists p, w. split; [reflexivity|]. exact (compiled_sound _ _ _ _ _ _ _ E).
Defined.

Lemma compiled_source_runs_witness :
  ∃ p w, compile_source 100 (chars "(if true 1 2)") tt = (Ok p, w) ∧
    ∀ r : N, ∃ m, @machine_entry N p r = Some m ∧
      ∀ n outcome m', @Machine.run N Runs.toy p n m = Some (outcome, m') → outcome_ok p outcome m'.
Proof.
  assert (succeeds (compile_source 100 (chars "(if true 1 2)") tt).1 = true) as Hok by (vm_compute; reflexivity).
  destruct (compile_source 100 (chars "(if true 1 2)") tt) as [[p|e] w] eqn:E; [|discriminate Hok].
  exists p, w. split; [reflexivity|]. exact (@compiled_source_runs unit _ _ _ N Runs.toy _ _ _ _ _ E).
Defined.

(** ** What the compiler gets wrong *)
(** The closure a jump arrives behind is taken for the callee's only one: the
    first alternative is returned uncalled, the second is always called. *)
Example callee_taken_back :
  Demo.codes "((if true (fn [] 1) (fn [] 2)))" = Ok
    [[True_; JumpIfFalse 4; Closure 1 0; Jump 5; CallStatic 2 0; Return];
     [Constant 0; Return]; [Constant 1; Return]] ∧
  Demo.run "((if true (fn [] 1) (fn [] 2)))" = Some (Ok (VFunction 0)) ∧
  Demo.run "(let [f (if true (fn [] 1) (fn [] 2))] (f))" = Some (Ok (VNumber 1)).
Proof. split_and!; vm_compute; reflexivity. Qed.

(** A parameter of the function's own name is not what a call of it calls. *)
Example parameter_shadowed :
  Demo.codes "(defn f [f] (f 1))" = Ok
    [[Closure 1 0; DefGlobal 1 (Some 0%N); Pop; VarGlobal 1; Return]; [Constant 0; CallStatic 1 1; Return]].
Proof. vm_compute. reflexivity. Qed.

(** A [cond] whose later test never ends has no end for its earlier jumps. *)
Example cond_without_end :
  Demo.codes "(cond true 1 (throw 2) 3)" =
    Err (Rejected (mkCompileError KInternal "validation failed at 0003: jump target 6 out of range" None)).
Proof. vm_compute. reflexivity. Qed.

(** A literal goes on emitting behind an element no control passes. *)
Example emission_asserted : Demo.codes "[(throw 1)]" = Err Asserted.
Proof. vm_compute. reflexivity. Qed.

(** Malformed forms that panic. *)
Example malformed_forms_panic :
  (λ s, Demo.codes s) <$> ["(fn ())"; "(defn f ())"; "(fn [] (. x ()))"; "(fn [] (set!))"; "(fn [] (binding))";
    "(fn [] (letfn))"; "(let [{:keys [a/b/c]} {}] 1)"] = replicate 7 (Err Crashed).
Proof. vm_compute. reflexivity. Qed.
