(* ===== verification/CoreFacts.v ===== *)
(** * The lowering of core forms

    What each method of [Lowering] emits for a core form computes what the form
    means. [builds] is the calculus of methods over the current function and the
    constant pool; [lowers] says of a method that what it appends computes an
    evaluation. *)
From S2P Require Import Prelude Bytes Text Opcode Kernel Reader Printer Program DefinitionForms Destructure Scope Captures Validate Frame Machine Compiler Lowering Segments Evaluation CoreCode ReaderNodes.
#[local] Open Scope nat_scope.

(** ** What is asked of the runtime *)
(** Values of which language equality is identity. *)
Definition scalar (v : Value) : bool :=
  match v with VNil | VBool _ | VNumber _ | VString _ | VKeyword _ | VList [] => true | _ => false end.

(** A runtime without namespaces, whose macros are not the core language's
    operators. [apply_intrinsic] folds an operator to what it computes. *)
Record plain_environment {W R} `{CompilerEnv W} `{Runtime R} (w : W) : Prop := {
  no_registry : namespace_registry w = false;
  interning_exact v v' : scalar v = true → scalar v' = true → value_eqb v v' = true → v = v';
  literal_value form v : literal_of form = Some v → form_to_value form = Ok v;
  folding_exact op vs v : apply_intrinsic op vs = Ok v →
    (scalar v = true ∨ is_number v = true) ∧ ∀ r : R, apply_intrinsic_name (operator op) vs r = (Ok v, r);
  no_macro form : core_form form = true →
    ∃ form', vm_macroexpand form w = (Ok form', w) ∧ form_eqb form' form = true;
}.

Section lowering.
Context {W R : Type} `{TextEnv} `{ValueForms} `{CompilerEnv W} `{Runtime R}.
Abbreviation comp := (prog (Compiler W) compile_stop).
Implicit Types c : Compiler W.
Implicit Types x : FnContext.
Variable w : W.

(** ** The state of a compilation of core forms *)
Record plain c : Prop := {
  plain_world : Compiler.world c = w;
  plain_globals : globals c = [];
  plain_shadows : macro_shadows c = ∅;
  plain_inline : inline_globals c = ∅;
  plain_prototypes : prototypes c = [placeholder None 0 0 false false];
  plain_index v i : (v, i) ∈ constant_index c → pool c !! N.to_nat i = Some v ∧ scalar v = true;
}.

(** From [x] and the constants [k] the method, when it returns, leads to a
    function and constants of which [Q] holds. *)
Definition builds {A} x (k : list Value) (m : comp A) (Q : A → FnContext → list Value → Prop) : Prop :=
  ∀ c rest r c', plain c → contexts c = x :: rest → pool c = k → m c = (Ok r, c') →
    plain c' ∧ ∃ x', contexts c' = x' :: rest ∧ k `prefix_of` pool c' ∧ Q r x' (pool c').

Lemma builds_ret {A} x k (r : A) (Q : A → FnContext → list Value → Prop) : Q r x k → builds x k (mret r) Q.
Proof. intros HQ c rest r' c' Hp Hc Hk [= <- <-]. subst k. split; [done|]. by exists x. Qed.
Lemma builds_fail {A} x k e (Q : A → FnContext → list Value → Prop) : builds x k (fail e) Q.
Proof. by intros c rest r c' _ _ _ [=]. Qed.
Lemma builds_bind {A B} x k (m : comp A) (f : A → comp B) Q :
  builds x k m (λ r x1 k1, builds x1 k1 (f r) Q) → builds x k (m ≫= f) Q.
Proof.
  intros Hm c rest r c' Hp Hc Hk (r1 & c1 & E1 & E2)%prog_bind_ok.
  destruct (Hm _ _ _ _ Hp Hc Hk E1) as (Hp1 & x1 & Hc1 & Hk1 & HQ1).
  destruct (HQ1 _ _ _ _ Hp1 Hc1 eq_refl E2) as (Hp2 & x2 & Hc2 & Hk2 & HQ2).
  split; [done|]. exists x2. split_and!; [done|by etrans|done].
Qed.
Lemma builds_impl {A} x k (m : comp A) (Q Q' : A → FnContext → list Value → Prop) :
  builds x k m Q → (∀ r x' k', k `prefix_of` k' → Q r x' k' → Q' r x' k') → builds x k m Q'.
Proof.
  intros Hm Hi c rest r c' Hp Hc Hk E. destruct (Hm _ _ _ _ Hp Hc Hk E) as (? & x' & ? & ? & ?).
  split; [done|]. exists x'. auto.
Qed.

Lemma builds_gets {A} x k (f : Compiler W → A) (Q : A → FnContext → list Value → Prop) :
  (∀ c, plain c → pool c = k → Q (f c) x k) → builds x k (gets f) Q.
Proof. intros HQ c rest r c' Hp Hc Hk [= <- <-]. subst k. split; [done|]. exists x. auto. Qed.
Lemma builds_ctx x k (Q : FnContext → FnContext → list Value → Prop) : Q x x k → builds x k ctx Q.
Proof.
  intros HQ c rest r c' Hp Hc Hk E. unfold ctx in E. rewrite Hc in E. injection E as <- <-. subst k.
  split; [done|]. by exists x.
Qed.
Lemma plain_contexts l c : plain c → plain (with_contexts l c).
Proof. by intros []. Qed.
Lemma builds_update x k f (Q : () → FnContext → list Value → Prop) : Q tt (f x) k → builds x k (update_ctx f) Q.
Proof.
  intros HQ c rest [] c' Hp Hc Hk E. unfold update_ctx in E. rewrite Hc in E. injection E as <-. subst k.
  split; [by apply plain_contexts|]. by exists (f x).
Qed.
Lemma builds_top x k b (Q : () → FnContext → list Value → Prop) :
  Q tt x k → builds x k (modify (with_top_level b)) Q.
Proof. intros HQ c rest [] c' [] Hc Hk [= <-]. subst k. split; [by split|]. by exists x. Qed.
Lemma builds_or_crash {A} x k (o : option A) (Q : A → FnContext → list Value → Prop) :
  (∀ r, o = Some r → Q r x k) → builds x k (or_crash o) Q.
Proof. intros HQ. destruct o; [by apply builds_ret, HQ|apply builds_fail]. Qed.

Lemma builds_reads_on x k (Q : bool → FnContext → list Value → Prop) :
  Q (fallthrough x) x k → builds x k reads_on Q.
Proof. intros HQ. by apply builds_bind, builds_ctx, builds_ret. Qed.
Lemma builds_here x k (Q : nat → FnContext → list Value → Prop) : Q (end_of x) x k → builds x k here Q.
Proof. intros HQ. by apply builds_bind, builds_ctx, builds_ret. Qed.
Lemma builds_lookup x k name (Q : option N → FnContext → list Value → Prop) :
  Q (resolve (fn_scopes x) name) x k → builds x k (lookup_name name) Q.
Proof. intros HQ. by apply builds_bind, builds_ctx, builds_ret. Qed.

Lemma builds_emit x k i p (Q : nat → FnContext → list Value → Prop) :
  (fallthrough x = true → Q (end_of x) (emitted i p x) k) → builds x k (emit i p) Q.
Proof.
  intros HQ. apply builds_bind, builds_ctx. destruct (fallthrough x) eqn:El; cbn [negb]; [|apply builds_fail].
  apply builds_bind, builds_update, builds_ret. by apply HQ.
Qed.
Lemma builds_emit_ x k i p (Q : () → FnContext → list Value → Prop) :
  (fallthrough x = true → Q tt (emitted i p x) k) → builds x k (emit_ i p) Q.
Proof. intros HQ. apply builds_bind, builds_emit. intros El. by apply builds_ret, HQ. Qed.
Lemma builds_if_live x k (m : comp ()) (Q : () → FnContext → list Value → Prop) :
  (fallthrough x = true → builds x k m Q) → (fallthrough x = false → Q tt x k) → builds x k (if_live m) Q.
Proof.
  intros Hm HQ. apply builds_bind, builds_reads_on.
  destruct (fallthrough x); [by apply Hm|by apply builds_ret, HQ].
Qed.

Lemma builds_patch x k j target (Q : () → FnContext → list Value → Prop) :
  Q tt (with_code (alter (retarget target) j (fn_code x)) (fn_source_map x) x) k →
  builds x k (patch_jump j target) Q.
Proof.
  intros HQ. apply builds_bind, builds_ctx, builds_bind.
  destruct (fn_code x !! j) as [i|] eqn:Hj; [|apply builds_fail].
  assert (<[j := retarget target i]> (fn_code x) = alter (retarget target) j (fn_code x)) as Hi.
  { apply list_eq. intros i'. destruct (decide (i' = j)) as [->|Hne].
    - rewrite list_lookup_insert_eq by (by eapply lookup_lt_Some). by rewrite list_lookup_alter_eq, Hj.
    - by rewrite list_lookup_insert_ne, list_lookup_alter_ne. }
  destruct i; try apply builds_fail; apply builds_ret, builds_update; cbn [retarget] in Hi; by rewrite Hi.
Qed.
Lemma builds_patch_all x k jumps target (Q : () → FnContext → list Value → Prop) :
  Q tt (with_code (patched jumps target (fn_code x)) (fn_source_map x) x) k →
  builds x k (patch_all jumps target) Q.
Proof.
  revert x. induction jumps as [|j jumps IH]; intros x HQ.
  - apply builds_ret. by destruct x.
  - apply builds_bind, builds_patch, IH. exact HQ.
Qed.

(** A method and what is done after it, whether it fails or not. *)
Lemma builds_bracket {A} x k (m : comp A) (cleanup : comp ()) (Q : A → FnContext → list Value → Prop) :
  builds x k m (λ r x1 k1, builds x1 k1 cleanup (λ _, Q r)) →
  builds x k (r ← attempt m; cleanup;; rethrow r) Q.
Proof.
  intros Hm c rest r c' Hp Hc Hk (r1 & c1 & E1 & ([] & c2 & E2 & E3)%prog_bind_ok)%prog_bind_ok.
  unfold attempt in E1. destruct (m c) as [[v|[]] c0] eqn:Em; try done; injection E1 as <- <-; [|done].
  injection E3 as <- <-. destruct (Hm _ _ _ _ Hp Hc Hk Em) as (Hp1 & x1 & Hc1 & Hk1 & HQ1).
  destruct (HQ1 _ _ _ _ Hp1 Hc1 eq_refl E2) as (Hp2 & x2 & Hc2 & Hk2 & HQ2).
  split; [done|]. exists x2. split_and!; [done|by etrans|done].
Qed.

(** ** Constants *)
Variable environment : plain_environment (R := R) w.

Definition exact (v : Value) : Prop := scalar v = true ∨ is_number v = true.

Lemma interned_in v l i : interned v l = Some i → ∃ v', (v', i) ∈ l ∧ value_eqb v' v = true.
Proof.
  unfold interned. destruct (filter _ l) as [|[v' j] r] eqn:E; [done|]. intros [= <-]. exists v'.
  assert ((v', j) ∈ filter (λ e : Value * N, value_eqb e.1 v = true) l) as Hin by (rewrite E; left).
  by apply list_elem_of_filter in Hin as [??].
Qed.

Lemma builds_constant_index x k v s (Q : N → FnContext → list Value → Prop) :
  exact v → (∀ i k', k `prefix_of` k' → k' !! N.to_nat i = Some v → Q i x k') →
  builds x k (constant_index_of v s) Q.
Proof.
  intros Hv HQ c rest r c' Hp Hc Hk E. subst k. unfold constant_index_of in E.
  apply prog_bind_ok in E as (c1 & c2 & [= -> ->] & E).
  destruct (if negb (is_number v) then interned v (constant_index c2) else None) as [i|] eqn:Ei.
  - injection E as <- <-. split; [done|]. exists x. split_and!; [done|done|]. apply HQ; [done|].
    destruct (is_number v) eqn:En; [done|]. destruct Hv as [Hv|]; [|congruence].
    apply interned_in in Ei as (v' & Hin & Heq). destruct (plain_index _ Hp _ _ Hin) as [Hi Hs].
    apply (interning_exact _ environment) in Heq; [|done|done]. by subst.
  - destruct (_ <=? _)%N eqn:Elim; [done|]. apply N.leb_gt in Elim.
    apply prog_bind_ok in E as ([] & c3 & [= <-] & [= <- <-]).
    assert (N.to_nat (Compiler.as_u32 (length (pool c2))) = length (pool c2)) as Hindex.
    { unfold Compiler.as_u32. unfold MAX_CONSTANTS in Elim. rewrite N.mod_small by lia. lia. }
    assert ((pool c2 ++ [v]) !! N.to_nat (Compiler.as_u32 (length (pool c2))) = Some v) as Hlast.
    { rewrite Hindex, lookup_app_r by lia. by rewrite Nat.sub_diag. }
    split.
    + destruct Hp as [? ? ? ? ? Hi]. split; try done. cbn. intros v' i Hin.
      assert ((v', i) ∈ constant_index c2 ∨ (v' = v ∧ i = Compiler.as_u32 (length (pool c2)) ∧ scalar v = true))
        as [Hin'|(-> & -> & Hs)].
      { destruct (is_number v) eqn:En; [by left|]. apply elem_of_cons in Hin as [[= -> ->]|]; [|by left].
        right. split_and!; [done|done|]. destruct Hv as [|]; [done|congruence]. }
      * destruct (Hi _ _ Hin') as [Hi' Hs']. split; [by apply lookup_app_l_Some|done].
      * done.
    + exists x. split_and!; [done|by apply prefix_app_r|]. apply HQ; [by apply prefix_app_r|done].
Qed.

Lemma builds_constant x k v s (Q : () → FnContext → list Value → Prop) :
  exact v →
  (∀ i k', fallthrough x = true → k `prefix_of` k' → k' !! N.to_nat i = Some v →
     Q tt (emitted (Constant i) (Some (start s)) x) k') →
  builds x k (constant v s) Q.
Proof.
  intros Hv HQ. apply builds_bind, builds_constant_index; [done|]. intros i k' Hk Hi.
  apply builds_emit_. intros El. by apply HQ.
Qed.

(** ** Growth of a function *)
Record moved x x' (l : list Instruction) : Prop := {
  moved_code : fn_code x' = fn_code x ++ l;
  moved_handlers : fn_handlers x' = fn_handlers x;
  moved_loops : loops x' = loops x;
  moved_id : proto_id x' = proto_id x;
  moved_high : (high_water (fn_scopes x) ≤ high_water (fn_scopes x'))%N;
}.
Record same_scope x x' : Prop := {
  same_scopes : scopes (fn_scopes x') = scopes (fn_scopes x);
  same_next : next_slot (fn_scopes x') = next_slot (fn_scopes x);
}.
(** The slots in scope, and what the innermost loop may store to. *)
Record frame_ok x : Prop := {
  frame_scopes : ∃ e, scopes_ok e (fn_scopes x);
  frame_loop context : head (loops x) = Some context →
    NoDup (loop_slots context) ∧
    Forall (λ slot, (slot < high_water (fn_scopes x))%N) (loop_slots context) ∧
    header context ≤ end_of x;
}.

Lemma moved_refl x : moved x x [].
Proof. split; try done. by rewrite app_nil_r. Qed.
Lemma moved_trans x y z l l' : moved x y l → moved y z l' → moved x z (l ++ l').
Proof. intros [] []. split; try congruence; [|lia]. rewrite app_assoc. congruence. Qed.
Lemma moved_end x y l : moved x y l → end_of y = end_of x + length l.
Proof. intros [Hc _ _ _ _]. unfold end_of. by rewrite Hc, length_app. Qed.
Lemma moved_emitted x y l i p : moved x y l → moved x (emitted i p y) (l ++ [i]).
Proof. intros [Hc ????]. split; try done. cbn. by rewrite Hc, app_assoc. Qed.
Lemma moved_fallthrough x y l b : moved x y l → moved x (with_fallthrough b y) l.
Proof. by intros []. Qed.
Lemma moved_patch x y l i r map target :
  moved x y (l ++ i :: r) →
  moved x (with_code (alter (retarget target) (end_of x + length l) (fn_code y)) map y)
    (l ++ retarget target i :: r).
Proof.
  intros [Hc ????]. split; try done. cbn. rewrite Hc, !app_assoc. apply alter_middle.
  unfold end_of. by rewrite length_app.
Qed.

#[local] Instance same_scope_equiv : Equivalence same_scope.
Proof.
  split.
  - by split.
  - by intros ? ? [].
  - intros ??? [] []. split; congruence.
Qed.

Lemma frame_moved x x' l :
  frame_ok x → moved x x' l → same_scope x x' → (high_water (fn_scopes x') ≤ MAX_LOCALS)%N → frame_ok x'.
Proof.
  intros [[e [Hr Hh]] Hloop] Hm [Hs Hn] Hmax. pose proof (moved_end _ _ _ Hm). destruct Hm as [_ _ Hl _ Hw].
  split.
  - exists e. split; [by rewrite Hs, Hn|]. rewrite Hn. split; [|done]. lia.
  - intros context Hc. rewrite Hl in Hc. destruct (Hloop context Hc) as (? & Hf & ?). split_and!; [done| |lia].
    eapply Forall_impl; [done|]. intros slot Hslot. cbn in Hslot. lia.
Qed.
Lemma frame_max x : frame_ok x → (high_water (fn_scopes x) ≤ MAX_LOCALS)%N.
Proof. by intros [[e [_ [??]]] _]. Qed.
Lemma frame_below x : frame_ok x → below (resolve (fn_scopes x)) (next_slot (fn_scopes x)).
Proof.
  intros [[e [Hr _]] _] name slot Hslot. unfold resolve in Hslot.
  rewrite (represents_resolve _ _ _ _ Hr) in Hslot. apply lookup_environment_slot in Hslot.
  destruct (represents_slots _ _ _ Hr) as [Hf _]. rewrite Forall_forall in Hf. by apply Hf.
Qed.

(** ** Lowering *)
Variables (p : Program) (m0 : Machine R) (f : FunctionPrototype).
Hypothesis current : functions p !! function m0 = Some f.
Hypothesis outermost : calls m0 = [].
Hypothesis unguarded : handlers f = [].
Hypothesis short : (N.of_nat (length (code f)) < 4294967296)%N.

Abbreviation evaluator A := (nat → bindings → prog R stop A).
Abbreviation slots x := (resolve (fn_scopes x)).
Abbreviation bound x := (next_slot (fn_scopes x)).
Abbreviation size x := (high_water (fn_scopes x)).
Definition loop_at (tail : bool) x : option LoopContext := if tail then head (loops x) else None.

(** The code appended from [x] to [x'] does what [e] does, in the scope of [x]. *)
Record built x x' (l : list Instruction) : Prop := {
  built_moved : moved x x' l;
  built_scope : same_scope x x';
  built_frame : frame_ok x';
}.
Definition lowered (tail : bool) (e : evaluator answer) x x' (k' : list Value) : Prop :=
  ∃ l, built x x' l ∧
    if fallthrough x then
      computes p m0 f k' (size x') (slots x) (bound x) (loop_at tail x) (end_of x) l (fallthrough x') e
    else l = [] ∧ fallthrough x' = false.
Definition lowers (m : comp ()) (tail : bool) (e : evaluator answer) : Prop :=
  ∀ x k, frame_ok x → builds x k m (λ _ x' k', lowered tail e x x' k').

Lemma built_refl x : frame_ok x → built x x [].
Proof. intros Hx. split; [apply moved_refl|done|done]. Qed.
Lemma built_trans x y z l l' : built x y l → built y z l' → built x z (l ++ l').
Proof. intros [] []. split; [by eapply moved_trans|by etrans|done]. Qed.
Lemma built_emitted x y l i q : built x y l → built x (emitted i q y) (l ++ [i]).
Proof.
  intros [Hm Hs Hf]. split; [by apply moved_emitted|destruct Hs; by split|].
  eapply frame_moved; [exact Hf|apply moved_emitted, moved_refl|by split|exact (frame_max _ Hf)].
Qed.
Lemma built_fallthrough x y l b : built x y l → built x (with_fallthrough b y) l.
Proof.
  intros [Hm Hs Hf]. split; [by apply moved_fallthrough|destruct Hs; by split|].
  eapply frame_moved; [exact Hf|apply moved_fallthrough, moved_refl|by split|exact (frame_max _ Hf)].
Qed.
Lemma built_patch x y l i r map target j :
  built x y (l ++ i :: r) → j = end_of x + length l →
  built x (with_code (alter (retarget target) j (fn_code y)) map y) (l ++ retarget target i :: r).
Proof.
  intros [Hm Hs Hf] ->. pose proof (moved_patch _ _ _ _ _ map target Hm) as Hm'.
  split; [done|destruct Hs; by split|]. destruct Hf as [? Hloop]. split; [done|].
  intros context Hc. cbn in Hc. destruct (Hloop context Hc) as (? & ? & Hh). split_and!; [done|done|].
  apply moved_end in Hm, Hm'. rewrite Hm'. rewrite Hm in Hh. rewrite length_app in *. cbn [length] in *. lia.
Qed.
Lemma built_end x y l : built x y l → end_of y = end_of x + length l.
Proof. intros [Hm _ _]. by apply moved_end. Qed.

(** What is built behind [y] in the scope of [x]. *)
Lemma executes_from {A} x y l s1 s2 k k' b l' (e : evaluator A) Q :
  built x y l → k `prefix_of` k' → (s1 ≤ s2)%N →
  executes p m0 f k s1 (slots y) b l' e Q → executes p m0 f k' s2 (slots x) b l' e Q.
Proof.
  intros [_ [Hs _] _] Hk Hz He. eapply executes_mono; [done|done|]. eapply executes_slots; [|exact He].
  intros name. unfold resolve. by rewrite Hs.
Qed.
Lemma computes_from x y l s1 s2 k k' lp b l' live e :
  built x y l → k `prefix_of` k' → (s1 ≤ s2)%N →
  computes p m0 f k s1 (slots y) (bound y) lp b l' live e →
  computes p m0 f k' s2 (slots x) (bound x) lp b l' live e.
Proof.
  intros Hb Hk Hz He. unfold computes. rewrite <- (same_next _ _ (built_scope _ _ _ Hb)).
  by eapply executes_from.
Qed.

Lemma lowers_ext m tail e e' :
  lowers m tail e →
  (∀ fuel env r, (e' fuel env r).1 = Err Outside ∨ ∃ fuel', e' fuel env r = e fuel' env r) →
  lowers m tail e'.
Proof.
  intros Hm He x k Hx. eapply builds_impl; [by apply Hm|]. intros _ x' k' _ (l & Hb & Hl). exists l.
  split; [done|]. destruct (fallthrough x); [|done]. by eapply executes_ext.
Qed.

Lemma lowers_if_live m tail e :
  (∀ x k, frame_ok x → fallthrough x = true → builds x k m (λ _ x' k', lowered tail e x x' k')) →
  lowers (if_live m) tail e.
Proof.
  intros Hm x k Hx. apply builds_if_live; [by apply Hm|]. intros El. exists []. rewrite El.
  split; [by apply built_refl|done].
Qed.

(** One instruction that pushes a value. *)
Lemma lowered_push tail x k i q v :
  frame_ok x → fallthrough x = true →
  (k `prefix_of` constants p → ∀ b st loc scr r, code f !! b = Some i →
     step p (at_ m0 b st loc scr r) = (None, at_ m0 (S b) (st ++ [slot_of_value v]) loc scr r)) →
  lowered tail (λ _ _, mret (Gives v)) x (emitted i q x) k.
Proof.
  intros Hx El Hi. exists [i]. rewrite El. split; [by apply (built_emitted x x []), built_refl|].
  change (fallthrough (emitted i q x)) with (fallthrough x). rewrite El.
  apply computes_push. intros Hk Hb st loc scr r. by apply Hi.
Qed.

(** ** The methods, over the lowering of their children *)
Section methods.
Variable cf : Form → Span → option (list SpannedForm) → bool → comp ().

(** A child whose lowering computes its form. *)
Definition child_ok (c : Child) : Prop :=
  ∀ tail, lowers (compile_child cf c tail) tail (λ fuel env, eval fuel env (child_form c)).

Lemma lowered_live tail e x x' k' :
  lowered tail e x x' k' → fallthrough x = true →
  ∃ l, built x x' l ∧
    computes p m0 f k' (size x') (slots x) (bound x) (loop_at tail x) (end_of x) l (fallthrough x') e.
Proof. intros (l & Hb & Hl) El. rewrite El in Hl. eauto. Qed.

Lemma lowered_intro tail e x x' k' l :
  fallthrough x = true → built x x' l →
  computes p m0 f k' (size x') (slots x) (bound x) (loop_at tail x) (end_of x) l (fallthrough x') e →
  lowered tail e x x' k'.
Proof. intros El Hb Hl. exists l. by rewrite El. Qed.

Lemma built_high x y l : built x y l → (size x ≤ size y)%N.
Proof. by intros [[] _ _]. Qed.
Lemma built_loop x y l tail : built x y l → loop_at tail y = loop_at tail x.
Proof. intros [[_ _ Hl _ _] _ _]. unfold loop_at. by rewrite Hl. Qed.

Lemma loop_at_moved x y l tail : moved x y l → loop_at tail y = loop_at tail x.
Proof. intros [_ _ Hl _ _]. unfold loop_at. by rewrite Hl. Qed.
Definition lowers_live (m : comp ()) (tail : bool) (e : evaluator answer) : Prop :=
  ∀ x k, frame_ok x → fallthrough x = true → builds x k m (λ _ x' k', lowered tail e x x' k').
Lemma child_live (c : Child) tail :
  child_ok c → lowers_live (compile_child cf c tail) tail (λ fuel env, eval fuel env (child_form c)).
Proof. intros Hc x k Hx _. by apply Hc. Qed.

(** A part compiled behind [y], in the scope of [x]. *)
Lemma part_done m tail e x y l k Q :
  lowers_live m tail e → built x y l → fallthrough y = true →
  (∀ z k' l', built x z (l ++ l') → k `prefix_of` k' → (size y ≤ size z)%N →
     (∀ k'' n, k' `prefix_of` k'' → (size z ≤ n)%N →
        computes p m0 f k'' n (slots x) (bound x) (loop_at tail x) (end_of y) l' (fallthrough z) e) →
     Q tt z k') →
  builds y k m Q.
Proof.
  intros Hm Hb El Hg. eapply builds_impl; [by apply Hm, El; apply Hb|].
  intros [] z k' Hk (l' & Hb' & Hl)%lowered_live; [|done].
  apply (Hg z k' l'); [by eapply built_trans|done|by eapply built_high|]. intros k'' n Hk'' Hz.
  rewrite <- (built_loop _ _ _ tail Hb). by eapply computes_from.
Qed.
Lemma part_then {A} m tail e x y l k (g : comp A) Q :
  lowers_live m tail e → built x y l → fallthrough y = true →
  (∀ z k' l', built x z (l ++ l') → k `prefix_of` k' → (size y ≤ size z)%N →
     (∀ k'' n, k' `prefix_of` k'' → (size z ≤ n)%N →
        computes p m0 f k'' n (slots x) (bound x) (loop_at tail x) (end_of y) l' (fallthrough z) e) →
     builds z k' g Q) →
  builds y k (m;; g) Q.
Proof. intros Hm Hb El Hg. eapply builds_bind, part_done; [done..|]. auto. Qed.

(** A part that is compiled to nothing when control does not reach it. *)
Lemma lowers_dead m tail e x y l k (Q : () → FnContext → list Value → Prop) :
  lowers m tail e → built x y l → fallthrough y = false →
  (∀ z k', built x z l → k `prefix_of` k' → (size y ≤ size z)%N → fallthrough z = false → Q tt z k') →
  builds y k m Q.
Proof.
  intros Hm Hb El HQ. eapply builds_impl; [apply Hm, Hb|]. intros [] z k' Hk (l' & Hb' & Hl).
  rewrite El in Hl. destruct Hl as [-> Hz]. apply HQ; [|done|by eapply built_high|done].
  rewrite <- (app_nil_r l). by eapply built_trans.
Qed.
Lemma lowers_is_live m tail e : lowers m tail e → lowers_live m tail e.
Proof. intros Hm x k Hx _. by apply Hm. Qed.

Lemma lowers_push tail i q v :
  (∀ b st loc scr r, code f !! b = Some i →
     step p (at_ m0 b st loc scr r) = (None, at_ m0 (S b) (st ++ [slot_of_value v]) loc scr r)) →
  lowers_live (emit_ i q) tail (λ _ _, mret (Gives v)).
Proof. intros Hi x k Hx El. apply builds_emit_. intros _. apply lowered_push; auto. Qed.

(** The jump over the other branch, when the first one ends. *)
Lemma jump_end_then {A} x y l k q (g : option nat → comp A) Q :
  built x y l →
  (∀ z, built x z (l ++ if fallthrough y then [Jump 0] else []) → size z = size y →
     builds z k (g (if fallthrough y then Some (end_of y) else None)) Q) →
  builds y k (r ← (if fallthrough y then j ← emit (Jump 0) q; mret (Some j) else mret None); g r) Q.
Proof.
  intros Hb Hg. apply builds_bind. destruct (fallthrough y).
  - apply builds_bind, builds_emit. intros _. apply builds_ret, Hg; [by apply built_emitted|done].
  - apply builds_ret, Hg; [by rewrite app_nil_r|done].
Qed.

Lemma if_lowers l s tail :
  Forall child_ok (drop 1 l) →
  lowers_live (compile_if cf l s tail) tail (λ fuel env, eval_if (eval fuel) env (child_form <$> drop 1 l)).
Proof.
  intros Hl x k Hx El. destruct l as [|op [|c [|t others]]]; try apply builds_fail. cbn [drop] in *.
  apply Forall_cons in Hl as [Hc Hl]. apply Forall_cons in Hl as [Ht Ho]. cbn [compile_if fmap list_fmap eval_if].
  destruct (1 <? length others); [apply builds_fail|].
  eapply (part_then _ _ _ x x []); [by apply child_live|by apply built_refl|done|].
  intros z1 k1 l1 B1 _ S1 H1'. rewrite app_nil_l in *. apply builds_if_live; intros E1.
  2: { eapply lowered_intro; [done|exact B1|]. rewrite E1 in *. eapply executes_dead; [by apply frame_below|].
       by apply H1'. }
  apply builds_bind, builds_emit. intros _. pose proof (built_emitted _ _ _ (JumpIfFalse 0) (Some (start (child_span c))) B1) as B2.
  eapply part_then; [by apply child_live|exact B2|done|]. intros z3 k3 l3 B3 K3 S3 H3'.
  apply builds_bind, builds_reads_on. eapply jump_end_then; [exact B3|]. intros z4 B4 S4.
  apply builds_bind, builds_update, builds_bind, builds_here.
  pose proof (built_fallthrough _ _ _ true B4) as B5.
  eapply part_then with (tail := tail) (e := λ fuel env, match child_form <$> others with
    else_ :: _ => eval fuel env else_ | [] => mret (Gives VNil) end);
    [|exact B5|done|].
  { destruct others as [|else_ others]; [apply lowers_push; intros; by eapply step_nil|].
    apply child_live. by apply Forall_cons in Ho as [??]. }
  intros z6 k6 l6 B6 K6 S6 H6'. apply builds_bind, builds_reads_on, builds_bind, builds_here.
  apply builds_bind, builds_patch.
  rewrite <- !app_assoc in B6. cbn [app] in B6.
  pose proof (built_patch _ _ _ _ _ (fn_source_map z6) (end_of z4) (end_of z1) B6 (built_end _ _ _ B1)) as B7.
  match type of B7 with built _ ?z _ => set (z7 := z) in * end.
  assert (∀ z8, built x z8 (l1 ++ JumpIfFalse (as_u32 (end_of z4)) :: l3 ++
      (if fallthrough z3 then [Jump (as_u32 (end_of z6))] else []) ++ l6) → size z8 = size z6 →
    lowered tail (λ fuel env, v ← eval_value (eval fuel) env (child_form c);
      if value_truthy v then eval fuel env (child_form t)
      else match child_form <$> others with else_ :: _ => eval fuel env else_ | [] => mret (Gives VNil) end)
      x (with_fallthrough (fallthrough z3 || fallthrough z6) z8) k6) as Hfin.
  { intros z8 B8 S8. eapply lowered_intro; [done|by apply built_fallthrough|].
    change (size (with_fallthrough (fallthrough z3 || fallthrough z6) z8)) with (size z8). rewrite S8.
    change (fallthrough (with_fallthrough (fallthrough z3 || fallthrough z6) z8)) with (fallthrough z3 || fallthrough z6).
    pose proof (built_end _ _ _ B4) as E4. pose proof (built_end _ _ _ B6) as E6.
    rewrite !length_app in E4. cbn [length] in E4.
    rewrite length_app in E6. cbn [length] in E6. rewrite !length_app in E6.
    assert (length (if fallthrough z3 then [Jump 0] else []) =
            length (if fallthrough z3 then [Jump (as_u32 (end_of z6))] else [])) as Ej by (by destruct (fallthrough z3)).
    apply computes_if; [done|by apply frame_below|done|lia|lia| | |].
    - rewrite <- E1. apply H1'; [by etrans|cbn in *; lia].
    - rewrite end_emitted, (built_end _ _ _ B1) in H3'.
      replace (end_of x + length l1 + 1) with (S (end_of x + length l1)) by lia.
      apply H3'; [done|cbn in *; lia].
    - by apply H6'. }
  destruct (fallthrough z3).
  - apply builds_bind, builds_patch, builds_update. apply Hfin; [|done].
    pose proof (built_end _ _ _ B3) as E3. rewrite !length_app in E3. cbn [length] in E3.
    replace (l1 ++ JumpIfFalse (as_u32 (end_of z4)) :: l3 ++ [Jump (as_u32 (end_of z6))] ++ l6) with
      ((l1 ++ JumpIfFalse (as_u32 (end_of z4)) :: l3) ++ Jump (as_u32 (end_of z6)) :: l6)
      by (by rewrite <- app_assoc).
    eapply built_patch with (i := Jump 0); [|rewrite E3, length_app; cbn; lia].
    rewrite <- app_assoc. exact B7.
  - apply builds_bind, builds_ret, builds_update. by apply Hfin.
Qed.

(** *** Sequences *)
Lemma sequence_loop_lowers top tail l :
  l ≠ [] → Forall child_ok l →
  lowers (sequence_loop cf top tail l) tail (λ fuel env, eval_body (eval fuel) env (child_form <$> l)).
Proof.
  intros Hne Hl. induction Hl as [|c l Hc Hl IH]; [done|].
  apply lowers_if_live. intros x k Hx El. apply builds_bind, builds_top.
  destruct l as [|c' l]; [by apply child_live|]. specialize (IH ltac:(done)).
  cbn [fmap list_fmap eval_body]. eapply (part_then _ _ _ x x []); [by apply child_live|by apply built_refl|done|].
  intros z1 k1 l1 B1 _ S1 H1'. rewrite app_nil_l in *. apply builds_bind, builds_if_live; intros E1.
  - apply builds_emit_. intros _. pose proof (built_emitted _ _ _ Pop (Some (start (child_span c))) B1) as B2.
    eapply part_done; [by apply lowers_is_live|exact B2|done|]. intros z3 k3 l3 B3 K3 S3 H3'.
    eapply lowered_intro; [done|rewrite <- app_assoc in B3; exact B3|].
    apply computes_then; [done|by apply frame_below|done| |].
    + rewrite <- E1. apply H1'; [done|cbn in *; lia].
    + rewrite end_emitted, (built_end _ _ _ B1) in H3'.
      replace (end_of x + length l1 + 1) with (S (end_of x + length l1)) by lia. by apply H3'.
  - eapply lowers_dead; [done|exact B1|done|]. intros z2 k2 B2 K2 S2 E2.
    eapply lowered_intro; [done|exact B2|]. rewrite E1 in *. rewrite E2.
    eapply executes_dead; [by apply frame_below|]. by apply H1'.
Qed.

Lemma sequence_lowers l tail :
  l ≠ [] → Forall child_ok l →
  lowers (compile_sequence cf l tail) tail (λ fuel env, eval_body (eval fuel) env (child_form <$> l)).
Proof.
  intros Hne Hl x k Hx. destruct l as [|c l]; [done|]. apply builds_bind, builds_gets. intros cc _ _.
  by apply sequence_loop_lowers.
Qed.

(** *** Short-circuit operators *)
Lemma built_patch_all x y l l2 js map target :
  built x y (l ++ l2) → (∀ j, j ∈ js → end_of x ≤ j < end_of x + length l) →
  built x (with_code (patched js target (fn_code y)) map y) (patched_at (end_of x) js target l ++ l2).
Proof.
  intros Hb Hj. pose proof (built_end _ _ _ Hb) as He. destruct Hb as [[Hc ????] Hs Hf].
  split; [|destruct Hs; by split|].
  - split; try done. cbn. rewrite Hc, patched_behind; [|intros j Hin; apply Hj in Hin; unfold end_of in *; lia].
    by rewrite <- patched_keep.
  - destruct Hf as [? Hloop]. split; [done|]. intros context Hcontext.
    destruct (Hloop context Hcontext) as (? & ? & ?). split_and!; [done|done|].
    unfold end_of in *. cbn. by rewrite patched_length.
Qed.

Lemma computes_back x y l k n lp b l' live e :
  built x y l → computes p m0 f k n (slots x) (bound x) lp b l' live e →
  computes p m0 f k n (slots y) (bound y) lp b l' live e.
Proof.
  intros [_ [Hs Hn] _] He. unfold computes. rewrite Hn. eapply executes_slots; [|exact He].
  intros name. unfold resolve. by rewrite Hs.
Qed.

(** From [x] to [z] jumps have been left to the end of the whole, which
    computes [whole] once [last] is computed behind [z]. *)
Definition circuit x z (k : list Value) (js : list nat) (last whole : evaluator answer) : Prop :=
  ∃ l, built x z l ∧ (∀ j, j ∈ js → end_of x ≤ j < end_of x + length l) ∧
    ∀ l2 live2 k' n lp, k `prefix_of` k' → (size z ≤ n)%N →
      (if fallthrough z then computes p m0 f k' n (slots x) (bound x) lp (end_of z) l2 live2 last
       else l2 = [] ∧ live2 = false) →
      computes p m0 f k' n (slots x) (bound x) lp (end_of x)
        (patched_at (end_of x) js (end_of z + length l2) l ++ l2) (live2 || negb (length js =? 0)) whole.

Lemma circuit_end x k last : frame_ok x → fallthrough x = true → circuit x x k [] last last.
Proof.
  intros Hx El. exists []. split_and!; [by apply built_refl|by intros j ?%not_elem_of_nil|].
  intros l2 live2 k' n lp Hk Hn He. rewrite El in He. cbn. by rewrite orb_false_r.
Qed.

Lemma circuit_dead x z l k last e1 (g : nat → bindings → Value → prog R stop answer) :
  frame_ok x → built x z l → fallthrough z = false →
  (∀ k' n, k `prefix_of` k' → (size z ≤ n)%N →
     computes p m0 f k' n (slots x) (bound x) None (end_of x) l false e1) →
  circuit x z k [] last (λ fuel env, v ← (a ← e1 fuel env; value_of a); g fuel env v).
Proof.
  intros Hx Hb El He. exists l. split_and!; [done|by intros j ?%not_elem_of_nil|].
  intros l2 live2 k' n lp Hk Hn Hl2. rewrite El in Hl2. destruct Hl2 as [-> ->]. cbn. rewrite app_nil_r.
  eapply executes_dead; [by apply frame_below|]. by apply He.
Qed.

Lemma circuit_lowers loop whole l final tail :
  (∀ x k, frame_ok x → fallthrough x = true →
     builds x k loop (λ js z k', circuit x z k' js (λ fuel env, eval fuel env (child_form final)) whole)) →
  last l = Some final → child_ok final →
  lowers_live (js ← loop;
    if_live (last ← or_crash (last l); compile_child cf last tail);;
    last_fell ← reads_on; end_ ← here; patch_all js end_;;
    set_fallthrough (last_fell || negb (length js =? 0))) tail whole.
Proof.
  intros Hloop Hlast Hok x k Hx El. apply builds_bind. eapply builds_impl; [by apply Hloop|].
  intros js z k1 _ (l1 & B1 & Hj & Hw). rewrite Hlast. apply builds_bind.
  assert (∀ z2 k2 l2, built x z2 (l1 ++ l2) → k1 `prefix_of` k2 → (size z ≤ size z2)%N →
    (if fallthrough z then computes p m0 f k2 (size z2) (slots x) (bound x) (loop_at tail x) (end_of z) l2
       (fallthrough z2) (λ fuel env, eval fuel env (child_form final))
     else l2 = [] ∧ fallthrough z2 = false) →
    builds z2 k2 (last_fell ← reads_on; end_ ← here; patch_all js end_;;
      set_fallthrough (last_fell || negb (length js =? 0))) (λ _ x' k', lowered tail whole x x' k')) as Hend.
  { intros z2 k2 l2 B2 K2 S2 H2'. apply builds_bind, builds_reads_on, builds_bind, builds_here.
    apply builds_bind, builds_patch_all, builds_update.
    pose proof (built_patch_all _ _ _ _ _ (fn_source_map z2) (end_of z2) B2 Hj) as B3.
    eapply lowered_intro; [done|by apply built_fallthrough|].
    assert (end_of z2 = end_of z + length l2) as E2.
    { rewrite (built_end _ _ _ B2), (built_end _ _ _ B1), length_app. lia. }
    rewrite E2. by apply Hw. }
  apply builds_if_live; intros E1.
  - apply builds_bind, builds_ret. eapply part_done; [by apply child_live|exact B1|done|].
    intros z2 k2 l2 B2 K2 S2 H2'. apply (Hend z2 k2 l2); [done..|]. rewrite E1. by apply H2'.
  - apply (Hend z k1 []); [by rewrite app_nil_r|done|done|]. by rewrite E1.
Qed.

Lemma eval_and_cons (c last : Child) (l : list Child) :
  (λ fuel env, eval_and (eval fuel) env (child_form <$> (c :: l) ++ [last])) =
  (λ fuel env, v ← (a ← eval fuel env (child_form c); value_of a);
     if value_truthy v then eval_and (eval fuel) env (child_form <$> l ++ [last]) else mret (Gives v))
    :> evaluator answer.
Proof. by destruct l. Qed.
Lemma eval_or_cons (c last : Child) (l : list Child) :
  (λ fuel env, eval_or (eval fuel) env (child_form <$> (c :: l) ++ [last])) =
  (λ fuel env, v ← (a ← eval fuel env (child_form c); value_of a);
     if value_truthy v then mret (Gives v) else eval_or (eval fuel) env (child_form <$> l ++ [last]))
    :> evaluator answer.
Proof. by destruct l. Qed.

Lemma patched_step b j js target pre i post l :
  j = b + length pre → (∀ j', j' ∈ js → b + length (pre ++ i :: post) ≤ j') →
  patched_at b (j :: js) target ((pre ++ i :: post) ++ l) =
    pre ++ retarget target i :: post ++ patched_at (b + length (pre ++ i :: post)) js target l.
Proof.
  intros -> Hj. change (b + length pre :: js) with ([b + length pre] ++ js). rewrite patched_at_app; [|..|done].
  - unfold patched_at at 1. cbn. rewrite alter_middle by lia. by rewrite <- app_assoc.
  - intros j ->%list_elem_of_singleton. rewrite length_app. cbn [length]. lia.
Qed.

Lemma and_loop_circuit (init : list Child) (last : Child) :
  Forall child_ok init → ∀ x k, frame_ok x → fallthrough x = true →
  builds x k (and_loop cf init) (λ js z k', circuit x z k' js (λ fuel env, eval fuel env (child_form last))
    (λ fuel env, eval_and (eval fuel) env (child_form <$> init ++ [last]))).
Proof.
  induction 1 as [|c init Hc Hi IH]; intros x k Hx El.
  { apply builds_ret. by apply circuit_end. }
  rewrite eval_and_cons. cbn [and_loop]. eapply (part_then _ _ _ x x []); [by apply child_live|by apply built_refl|done|].
  intros z1 k1 l1 B1 _ S1 H1'. rewrite app_nil_l in *. apply builds_bind, builds_reads_on.
  destruct (fallthrough z1) eqn:E1; cbn [negb].
  2: { apply builds_ret. eapply circuit_dead; [done..|]. intros k' n Hk Hn. by apply H1'. }
  apply builds_bind, builds_emit_. intros _. apply builds_bind, builds_emit. intros _.
  apply builds_bind, builds_emit_. intros _.
  match goal with |- builds ?z _ _ _ => set (z2 := z) end.
  assert (built x z2 (l1 ++ [Dup; JumpIfFalse 0; Pop])) as B2.
  { change [Dup; JumpIfFalse 0; Pop] with ([Dup] ++ [JumpIfFalse 0] ++ [Pop]). rewrite !app_assoc.
    by repeat apply built_emitted. }
  apply builds_bind. eapply builds_impl; [apply IH; [apply B2|done]|].
  intros js z k3 K3 (l & B3 & Hj & Hw). apply builds_ret.
  pose proof (built_end _ _ _ B1) as E1'. pose proof (built_end _ _ _ B2) as E2.
  rewrite length_app in E2. cbn [length] in E2. rewrite end_emitted.
  exists ((l1 ++ [Dup; JumpIfFalse 0; Pop]) ++ l). split_and!; [by eapply built_trans| |].
  { intros j [->|Hin]%elem_of_cons; rewrite !length_app; cbn [length]; [lia|]. apply Hj in Hin. lia. }
  intros l2 live2 k' n lp Hk Hn Hl2. rewrite orb_true_r.
  assert (patched_at (end_of x) (S (end_of z1) :: js) (end_of z + length l2) ((l1 ++ [Dup; JumpIfFalse 0; Pop]) ++ l) =
    l1 ++ Dup :: JumpIfFalse (as_u32 (end_of z + length l2)) :: Pop ::
      patched_at (end_of z2) js (end_of z + length l2) l) as ->.
  { change [Dup; JumpIfFalse 0; Pop] with ([Dup] ++ JumpIfFalse 0 :: [Pop]). rewrite (app_assoc l1).
    assert (end_of x + length ((l1 ++ [Dup]) ++ JumpIfFalse 0 :: [Pop]) = end_of z2) as Hlen
      by (rewrite !length_app; cbn [length]; lia).
    rewrite patched_step, Hlen.
    - by rewrite <- app_assoc.
    - rewrite length_app. cbn [length]. lia.
    - intros j Hin%Hj. lia. }
  cbn [app]. rewrite <- app_assoc. cbn [app].
  eapply computes_and; [done|by apply frame_below|done| | |].
  - rewrite length_app. unfold patched_at. rewrite patched_length.
    rewrite (built_end _ _ _ B3). lia.
  - apply H1'; [by etrans|]. pose proof (built_high _ _ _ B3) as Hh. cbn in Hh, Hn. lia.
  - replace (end_of x + length l1 + 3) with (end_of z2) by lia.
    eapply (computes_from x z2 _ n n k' k'); [exact B2|done|reflexivity|]. apply (Hw l2 live2); [done|done|].
    destruct (fallthrough z); [|done]. by eapply computes_back.
Qed.

Lemma or_loop_circuit (init : list Child) (last : Child) :
  Forall child_ok init → ∀ x k, frame_ok x → fallthrough x = true →
  builds x k (or_loop cf init) (λ js z k', circuit x z k' js (λ fuel env, eval fuel env (child_form last))
    (λ fuel env, eval_or (eval fuel) env (child_form <$> init ++ [last]))).
Proof.
  induction 1 as [|c init Hc Hi IH]; intros x k Hx El.
  { apply builds_ret. by apply circuit_end. }
  rewrite eval_or_cons. cbn [or_loop]. eapply (part_then _ _ _ x x []); [by apply child_live|by apply built_refl|done|].
  intros z1 k1 l1 B1 _ S1 H1'. rewrite app_nil_l in *. apply builds_bind, builds_reads_on.
  destruct (fallthrough z1) eqn:E1; cbn [negb].
  2: { apply builds_ret. eapply circuit_dead; [done..|]. intros k' n Hk Hn. by apply H1'. }
  apply builds_bind, builds_emit_. intros _. apply builds_bind, builds_emit. intros _.
  apply builds_bind, builds_emit. intros _. apply builds_bind, builds_here. apply builds_bind, builds_patch.
  pose proof (built_end _ _ _ B1) as E1'.
  match goal with |- builds ?z _ _ _ => assert (built x z ((l1 ++ [Dup]) ++
    JumpIfFalse (as_u32 (end_of x + length l1 + 3)) :: [Jump 0])) as B2 end.
  { rewrite !end_emitted, E1'. replace (S (S (S (end_of x + length l1)))) with (end_of x + length l1 + 3) by lia.
    apply built_patch with (i := JumpIfFalse 0); [|rewrite length_app; cbn [length]; lia].
    change (JumpIfFalse 0 :: [Jump 0]) with ([JumpIfFalse 0] ++ [Jump 0]). rewrite !app_assoc.
    by repeat apply built_emitted. }
  match goal with |- builds ?z _ _ _ => set (y := z) in * end.
  rewrite <- app_assoc in B2. cbn [app] in B2.
  apply builds_bind, builds_emit_. intros _. apply (built_emitted _ _ _ Pop (Some (start (child_span c)))) in B2.
  rewrite <- app_assoc in B2. cbn [app] in B2. set (z2 := emitted Pop (Some (start (child_span c))) y) in *.
  apply builds_bind. eapply builds_impl; [apply IH; [apply B2|done]|].
  intros js z k3 K3 (l & B3 & Hj & Hw). apply builds_ret.
  pose proof (built_end _ _ _ B2) as E2. rewrite length_app in E2. cbn [length] in E2.
  rewrite !end_emitted, E1'.
  eexists. split_and!; [by eapply built_trans| |].
  { intros j [->|Hin]%elem_of_cons; rewrite !length_app; cbn [length]; [lia|]. apply Hj in Hin. lia. }
  intros l2 live2 k' n lp Hk Hn Hl2. rewrite orb_true_r.
  set (end_at := end_of z + length l2). set (next := end_of x + length l1 + 3) in *.
  change (Dup :: JumpIfFalse (as_u32 next) :: [Jump 0; Pop]) with
    ([Dup; JumpIfFalse (as_u32 next)] ++ Jump 0 :: [Pop]) in *. rewrite (app_assoc l1) in *.
  assert (end_of x + length ((l1 ++ [Dup; JumpIfFalse (as_u32 next)]) ++ Jump 0 :: [Pop]) = end_of z2) as Hlen
    by (rewrite !length_app; cbn [length]; lia).
  rewrite patched_step, Hlen; [|rewrite length_app; cbn [length]; lia|intros j Hin%Hj; lia].
  rewrite <- app_assoc. cbn [app]. rewrite <- app_assoc. cbn [app].
  eapply computes_or; [done|by apply frame_below|done|done| | |].
  - unfold end_at. rewrite length_app. unfold patched_at. rewrite patched_length.
    rewrite (built_end _ _ _ B3). lia.
  - apply H1'; [by etrans|]. pose proof (built_high _ _ _ B3) as Hh. cbn in Hh, Hn. lia.
  - replace (next + 1) with (end_of z2) by lia.
    eapply (computes_from x z2 _ n n k' k'); [exact B2|done|reflexivity|]. apply (Hw l2 live2); [done|done|].
    destruct (fallthrough z); [|done]. by eapply computes_back.
Qed.

Lemma and_lowers (op : Child) l s tail :
  Forall child_ok l →
  lowers_live (compile_and cf (op :: l) s tail) tail (λ fuel env, eval_and (eval fuel) env (child_form <$> l)).
Proof.
  intros Hl. destruct l as [|final init _] using rev_ind.
  { apply lowers_push. intros. by eapply step_true. }
  apply Forall_app in Hl as [Hi [Hf _]%Forall_cons].
  assert (compile_and cf (op :: init ++ [final]) s tail =
    (js ← and_loop cf init;
     if_live (last ← or_crash (last (op :: init ++ [final])); compile_child cf last tail);;
     last_fell ← reads_on; end_ ← here; patch_all js end_;;
     set_fallthrough (last_fell || negb (length js =? 0)))) as ->.
  { unfold compile_and, middle. rewrite app_comm_cons, removelast_last.
    by destruct init. }
  eapply circuit_lowers; [by apply and_loop_circuit|by rewrite app_comm_cons, last_snoc|done].
Qed.

Lemma or_lowers (op : Child) l s tail :
  Forall child_ok l →
  lowers_live (compile_or cf (op :: l) s tail) tail (λ fuel env, eval_or (eval fuel) env (child_form <$> l)).
Proof.
  intros Hl. destruct l as [|final init _] using rev_ind.
  { apply lowers_push. intros. by eapply step_nil. }
  apply Forall_app in Hl as [Hi [Hf _]%Forall_cons].
  assert (compile_or cf (op :: init ++ [final]) s tail =
    (js ← or_loop cf init;
     if_live (last ← or_crash (last (op :: init ++ [final])); compile_child cf last tail);;
     last_fell ← reads_on; end_ ← here; patch_all js end_;;
     set_fallthrough (last_fell || negb (length js =? 0)))) as ->.
  { unfold compile_or, middle. rewrite app_comm_cons, removelast_last.
    by destruct init. }
  eapply circuit_lowers; [by apply or_loop_circuit|by rewrite app_comm_cons, last_snoc|done].
Qed.

(** *** Operators *)
Definition arguments (l : list Child) : comp () := each (λ argument, compile_child cf argument false) l.

Lemma arguments_dead l x k :
  Forall child_ok l → frame_ok x → fallthrough x = false →
  builds x k (arguments l) (λ _ z k', built x z [] ∧ fallthrough z = false).
Proof.
  intros Hl Hx El. revert x k Hx El. induction Hl as [|c l Hc Hl IH]; intros x k Hx El.
  { apply builds_ret. split; [by apply built_refl|done]. }
  apply builds_bind. eapply lowers_dead; [apply Hc|by apply built_refl|done|]. intros z k' B K S E.
  eapply builds_impl; [apply IH; [apply B|done]|]. intros [] z' k2 _ [B' E'].
  split; [|done]. exact (built_trans x z z' [] [] B B').
Qed.

Lemma arguments_build l x k :
  Forall child_ok l → frame_ok x → fallthrough x = true →
  builds x k (arguments l) (λ _ z k', ∃ l', built x z l' ∧ ∀ k'' n, k' `prefix_of` k'' → (size z ≤ n)%N →
    pushes p m0 f k'' n (slots x) (bound x) (end_of x) l' (fallthrough z)
      (λ fuel env, eval_values (eval fuel) env (child_form <$> l))).
Proof.
  intros Hl. revert x k. induction Hl as [|c l Hc Hl IH]; intros x k Hx El.
  { apply builds_ret. exists []. split; [by apply built_refl|]. intros k'' n _ _. rewrite El.
    apply pushes_nil. }
  eapply (part_then _ _ _ x x []); [by apply child_live|by apply built_refl|done|].
  intros z1 k1 l1 B1 _ S1 H1'. rewrite app_nil_l in *. destruct (fallthrough z1) eqn:E1.
  - eapply builds_impl; [apply IH; [apply B1|done]|]. intros [] z k' Hk (l2 & B2 & H2').
    exists (l1 ++ l2). split; [by eapply built_trans|]. intros k'' n Hk'' Hn.
    apply pushes_cons; [by apply frame_below| |].
    + apply H1'; [by etrans|]. pose proof (built_high _ _ _ B2). lia.
    + rewrite <- (built_end _ _ _ B1). unfold pushes. rewrite <- (same_next _ _ (built_scope _ _ _ B1)).
      eapply executes_from; [exact B1|reflexivity|reflexivity|]. by apply H2'.
  - eapply builds_impl; [apply arguments_dead; [done|apply B1|done]|]. intros [] z k' Hk [B2 E2].
    exists l1. split; [rewrite <- (app_nil_r l1); by eapply built_trans|]. intros k'' n Hk'' Hn.
    rewrite E2. eapply executes_dead; [by apply frame_below|]. apply H1'; [by etrans|].
    pose proof (built_high _ _ _ B2). lia.
Qed.

Lemma eval_values_length fuel env l r values r' :
  eval_values (eval fuel) env l r = (Ok values, r') → length values = length l.
Proof.
  revert r values r'. induction l as [|g l IH]; intros r values r' E; [by injection E as <- <-|].
  apply prog_bind_ok in E as (v & r1 & _ & (vs & r2 & E & [= <- <-])%prog_bind_ok).
  apply IH in E. cbn. lia.
Qed.

Lemma constant_value fuel env g r :
  constant_form g = true →
  (eval_value (eval fuel) env g r).1 = Err Outside ∨
  ∃ v, form_to_value g = Ok v ∧ eval_value (eval fuel) env g r = (Ok v, r).
Proof.
  intros Hg. destruct fuel as [|fuel]; [by left|]. unfold eval_value. cbn [eval].
  destruct (literal_of g) as [v|] eqn:E.
  - right. exists v. split; [by apply (literal_value _ environment)|done].
  - left. by destruct g.
Qed.
Lemma bind_outside {A B} (m : prog R stop A) (g : A → prog R stop B) r :
  (m r).1 = Err Outside → ((m ≫= g) r).1 = Err Outside.
Proof. unfold mbind, prog_bind. destruct (m r) as [[v|e] r']; [done|]. by intros [= ->]. Qed.
Lemma constant_values fuel env l r values :
  forallb constant_form l = true → mapM form_to_value l = Ok values →
  (eval_values (eval fuel) env l r).1 = Err Outside ∨ eval_values (eval fuel) env l r = (Ok values, r).
Proof.
  revert r values. induction l as [|g l IH]; intros r values Hc Hv.
  { injection Hv as <-. by right. }
  apply andb_true_iff in Hc as [Hg Hc]. apply result_bind_ok in Hv as (v & Ev & (vs & Evs & [= <-])%result_bind_ok).
  cbn [eval_values]. destruct (constant_value fuel env g r Hg) as [Ho|(v' & Ev' & E')]; [left; by apply bind_outside|].
  rewrite Ev in Ev'. injection Ev' as <-. destruct (IH r vs Hc Evs) as [Ho|E].
  - left. unfold mbind, prog_bind at 1. rewrite E'. by apply bind_outside.
  - right. unfold mbind, prog_bind. by rewrite E', E.
Qed.

Lemma primitive_lowers (op : Child) l s tail o :
  Forall child_ok l →
  lowers_live (compile_primitive cf (op :: l) s o) tail
    (λ fuel env, values ← eval_values (eval fuel) env (child_form <$> l); apply_operator o values).
Proof.
  intros Hl x k Hx El. unfold compile_primitive. cbn [length drop]. rewrite drop_0.
  destruct (_ <? _) eqn:Hcount; [apply builds_fail|]. apply Nat.ltb_ge in Hcount.
  unfold MAX_PRIMITIVE_ARGUMENTS in Hcount.
  destruct (folded o (child_form <$> l)) as [v|] eqn:Hfold.
  - unfold folded in Hfold. destruct (forallb constant_form (child_form <$> l)) eqn:Hconst; [|done].
    destruct (mapM form_to_value (child_form <$> l)) as [values|] eqn:Hvalues; [|done].
    destruct (apply_intrinsic o values) as [v'|] eqn:Happly; [|done]. injection Hfold as <-.
    destruct (folding_exact _ environment _ _ _ Happly) as [Hexact Hrun].
    apply builds_constant; [done|]. intros i k' _ Hk Hi.
    eapply lowered_intro; [done|by apply (built_emitted x x []), built_refl|].
    change (fallthrough (emitted _ _ x)) with (fallthrough x). rewrite El.
    apply executes_ext with (e := λ _ _, mret (Gives v')).
    + apply computes_push. intros Hp Hcode st loc scr r. eapply step_constant; [done|done|].
      by eapply prefix_lookup_Some.
    + intros fuel env r.
      destruct (constant_values fuel env _ r values Hconst Hvalues) as [Ho|E].
      * left. by apply (bind_outside _ (apply_operator o)) in Ho.
      * right. exists 0. unfold mbind, prog_bind. rewrite E. unfold apply_operator. by rewrite Hrun.
  - apply builds_bind. eapply builds_impl; [by apply arguments_build|].
    intros [] z k1 _ (l1 & B1 & H1'). apply builds_if_live; intros E1.
    + apply builds_bind, builds_constant_index; [by left|]. intros i k2 Hk Hi. apply builds_emit_. intros _.
      eapply lowered_intro; [done|by apply built_emitted|].
      change (fallthrough (emitted _ _ z)) with (fallthrough z). rewrite E1.
      eapply computes_primitive; [done..| |exact Hi|].
      * rewrite <- E1. apply H1'; [done|reflexivity].
      * intros fuel env r values r' E%eval_values_length. rewrite E, length_fmap.
        unfold as_u8. rewrite N.mod_small by lia. lia.
    + eapply lowered_intro; [done|exact B1|]. rewrite E1 in *.
      intros Hp Hs fuel env st loc scr r Hlen Ha. eapply does_bind; [by eapply H1'|]. by intros ??? [??].
Qed.

(** *** Recurrence *)
Lemma stores_build x y l k slots s :
  built x y l →
  builds y k (store_all slots s) (λ _ z k', k' = k ∧ built x z (l ++ (StoreLocal <$> slots)) ∧
    size z = size y ∧ fallthrough z = fallthrough y).
Proof.
  revert y l. induction slots as [|slot slots IH]; intros y l Hb.
  { apply builds_ret. by rewrite app_nil_r. }
  apply builds_bind, builds_emit_. intros _.
  eapply builds_impl; [apply IH; by apply built_emitted|].
  intros [] z k' _ (-> & B & ? & ?). rewrite <- app_assoc in B. by split_and!.
Qed.

Lemma recur_lowers (op : Child) l s tail :
  Forall child_ok l →
  lowers_live (compile_recur cf (op :: l) s tail) tail
    (λ fuel env, values ← eval_values (eval fuel) env (child_form <$> l); mret (Recurs values)).
Proof.
  intros Hl x k Hx El. apply builds_bind, builds_ctx. destruct (loops x) as [|context outer] eqn:Eloops; [apply builds_fail|].
  cbn [length drop]. rewrite drop_0. destruct (_ && _); [apply builds_fail|].
  destruct (existsb _ _); [apply builds_fail|]. destruct tail; cbn [negb]; [|apply builds_fail].
  destruct (S (length l) - 1 =? length (loop_slots context)) eqn:Hcount; cbn [negb]; [|apply builds_fail].
  apply Nat.eqb_eq in Hcount. destruct (frame_loop _ Hx context) as (Hnd & Hslots & Hheader); [by rewrite Eloops|].
  apply builds_bind. eapply builds_impl; [by apply arguments_build|].
  intros [] z k1 _ (l1 & B1 & H1'). apply builds_if_live; intros E1.
  - apply builds_bind. eapply builds_impl; [by apply stores_build|].
    intros [] z2 k2 _ (-> & B2 & S2 & E2). apply builds_bind, builds_emit_. intros _. apply builds_update.
    apply (built_emitted _ _ _ (Jump (as_u32 (header context))) (Some (start s))) in B2. rewrite <- app_assoc in B2.
    apply lowered_intro with (l := l1 ++ (StoreLocal <$> reverse (loop_slots context)) ++ [Jump (as_u32 (header context))]);
      [done|by apply built_fallthrough|].
    unfold loop_at. rewrite Eloops. cbn [head].
    change (computes p m0 f k1 (size z2) (slots x) (bound x) (Some context) (end_of x)
      (l1 ++ (StoreLocal <$> reverse (loop_slots context)) ++ [Jump (as_u32 (header context))]) false
      (λ fuel env, values ← eval_values (eval fuel) env (child_form <$> l); mret (Recurs values))).
    rewrite S2. apply computes_recur; [done|done| |done| |done|].
    + rewrite <- E1. apply H1'; [done|reflexivity].
    + pose proof (built_high _ _ _ B1). eapply Forall_impl; [done|]. intros slot Hslot. cbn in Hslot. lia.
    + intros fuel env r values r' E%eval_values_length. rewrite E, length_fmap. lia.
  - eapply lowered_intro; [done|exact B1|]. rewrite E1 in *.
    intros Hp Hs fuel env st loc scr r Hlen Ha. eapply does_bind; [by eapply H1'|]. by intros ??? [??].
Qed.

(** *** Names *)
(** Code for what is outside of the core language. *)
Lemma lowered_outside tail e x x' k' l :
  fallthrough x = true → built x x' l →
  (∀ env loc fuel r, agrees env (slots x) loc → (e fuel env r).1 = Err Outside) →
  lowered tail e x x' k'.
Proof.
  intros El Hb He. eapply lowered_intro; [done|exact Hb|]. intros Hp Hs fuel env st loc scr r Hlen Ha.
  specialize (He env loc fuel r Ha). by destruct (e fuel env r) as [[?|[]] ?].
Qed.

Lemma name_then x y l k name s (i : N → Instruction) (Q : () → FnContext → list Value → Prop) :
  built x y l → fallthrough y = true →
  (∀ z k' l', built x z l' → fallthrough z = true → k `prefix_of` k' → Q tt z k') →
  builds y k (index ← name_constant name s; emit_at (i index) s) Q.
Proof.
  intros Hb El HQ. apply builds_bind, builds_constant_index; [by left|]. intros j k' Hk _.
  apply builds_emit_. intros _. eapply HQ; [by apply built_emitted|done|done].
Qed.

Lemma symbol_lowers name s tail :
  lowers_live (compile_symbol name s) tail
    (λ _ env, match env !! name with Some v => mret (Gives v) | None => fail Outside end).
Proof.
  intros x k Hx El. apply builds_bind, builds_lookup, builds_bind, builds_gets. intros c Hc Hpool.
  change (id c) with c.
  destruct (resolve (fn_scopes x) name) as [slot|] eqn:Eslot.
  - apply builds_emit_. intros _. eapply lowered_intro; [done|by apply (built_emitted x x []), built_refl|].
    change (fallthrough (emitted _ _ x)) with (fallthrough x). rewrite El. by apply computes_local.
  - assert (∀ z k' l', built x z l' → fallthrough z = true → k `prefix_of` k' →
      lowered tail (λ _ env, match env !! name with Some v => mret (Gives v) | None => fail Outside end) x z k') as Hout.
    { intros z k' l' Hb _ _. eapply lowered_outside; [done|exact Hb|]. intros env loc fuel r Ha.
      specialize (Ha name). rewrite Eslot in Ha. by rewrite Ha. }
    destruct (visible_global c name).
    { apply builds_bind, builds_bind, builds_gets. intros c' _ _.
      apply builds_constant_index; [by left|]. intros i k' Hk _. apply builds_emit_. intros _.
      eapply Hout; [by apply (built_emitted x x []), built_refl|done|done]. }
    repeat match goal with |- builds _ _ (if ?b then _ else _) _ => destruct b end;
      try apply builds_fail; (eapply name_then; [by apply built_refl|done|exact Hout]).
Qed.
(** *** Scopes *)
(** [z] is in the innermost scope of [x]. *)
Definition opened x z : Prop :=
  ∃ s bound_names rest, scopes (fn_scopes x) = s :: rest ∧
    scopes (fn_scopes z) = mkScope bound_names (saved_next s) :: rest.

Lemma opened_built x y z l : opened x y → built y z l → opened x z.
Proof. intros (s & nm & rest & Hx & Hy) [_ [Hs _] _]. exists s, nm, rest. by rewrite Hs. Qed.
Lemma opened_trans x y z : opened x y → opened y z → opened x z.
Proof.
  intros (s & nm & rest & Hx & Hy) (s' & nm' & rest' & Hy' & Hz). rewrite Hy in Hy'.
  injection Hy' as <- <-. by exists s, nm', rest.
Qed.

Definition scoped x : FnContext := with_scopes (push_scope (fn_scopes x)) x.
Lemma scoped_frame x : frame_ok x → frame_ok (scoped x).
Proof.
  intros [[e He] Hl]. split; [|exact Hl]. exists ([] :: e). by apply push_ok.
Qed.
Lemma scoped_opened x : opened (scoped x) (scoped x).
Proof. by eexists _, _, _. Qed.

Lemma moved_scoped x z l : moved (scoped x) z l → moved x z l.
Proof. by intros []. Qed.

Lemma builds_close x z k l :
  frame_ok x → moved x z l → opened (scoped x) z → (size z ≤ MAX_LOCALS)%N →
  builds z k close_scope (λ _ z' k', k' = k ∧ built x z' l ∧ fallthrough z' = fallthrough z ∧ size z' = size z).
Proof.
  intros Hx [Hc Hh Hl Hi Hw] (s & nm & rest & [= <- <-] & Hz) Hmax. apply builds_bind, builds_ctx, builds_bind.
  unfold pop_scope. rewrite Hz. cbn [or_crash saved_next]. apply builds_ret, builds_update.
  assert (moved x (with_scopes (mkScopeStack (scopes (fn_scopes x)) (next_slot (fn_scopes x))
    (high_water (fn_scopes z))) z) l) as Hm by by split.
  split_and!; [done|split|done|done]; [done|by split|].
  eapply frame_moved; [exact Hx|exact Hm|by split|done].
Qed.

Lemma builds_declare x k name position (Q : N → FnContext → list Value → Prop) :
  frame_ok x → scopes (fn_scopes x) ≠ [] →
  (∀ s', (∀ y, resolve s' y = update name (bound x) (slots x) y) → next_slot s' = (bound x + 1)%N →
     (bound x < high_water s')%N → (size x ≤ high_water s')%N → opened x (with_scopes s' x) →
     frame_ok (with_scopes s' x) → Q (bound x) (with_scopes s' x) k) →
  builds x k (declare_local name position) Q.
Proof.
  intros Hx Hne HQ. apply builds_bind, builds_ctx. destruct Hx as [[e He] Hloop].
  destruct (scopes (fn_scopes x)) as [|s rest] eqn:Es; [done|].
  assert (∃ b outer, e = b :: outer) as (b & outer & ->).
  { destruct He as [Hr _]. rewrite Es in Hr. inversion Hr; eauto. }
  destruct (decide (bound x < MAX_LOCALS)%N) as [Hlt|Hge].
  - destruct (declare_represents b outer (fn_scopes x) name He Hlt) as (s' & Hd & Hs' & Hb).
    rewrite Hd. apply builds_bind, builds_ret, builds_bind, builds_update, builds_ret.
    unfold declare in Hd. rewrite Es in Hd. rewrite (proj2 (N.leb_gt _ _)) in Hd by done. injection Hd as <-.
    apply HQ; [|done|done|cbn; lia| |].
    + intros y. unfold resolve, update. cbn. rewrite Es. cbn. rewrite lookup_insert.
      destruct (decide (name = y)) as [->|Hn]; [by rewrite decide_True|by rewrite (decide_False (P := y = name)) by done].
    + by exists s, (<[name := bound x]> (names s)), rest.
    + split; [by eexists|]. intros context Hc. destruct (Hloop context Hc) as (? & Hf & ?).
      split_and!; [done| |done]. eapply Forall_impl; [exact Hf|]. intros slot Hslot. cbn in *. lia.
  - unfold declare. rewrite Es, (proj2 (N.leb_le _ _)) by lia. apply builds_bind, builds_ret, builds_fail.
Qed.
(** *** Bindings *)
(** Names and the children that compute their values. *)
Inductive pairs_ok : list Child → Prop :=
| pairs_nil : pairs_ok []
| pairs_cons (name initializer : Child) pairs symbol :
    child_form name = FSymbol symbol → child_ok initializer → pairs_ok pairs →
    pairs_ok (name :: initializer :: pairs).

(** From [x] to [z] the code binds names to the slots. *)
Record bound_to x z (k : list Value) (taken : list N) (l : list Instruction)
    (e : nat → bindings → prog R stop (bindings * list string)) : Prop := {
  bound_moved : moved x z l;
  bound_frame : frame_ok z;
  bound_opened : opened x z;
  bound_next : (bound x ≤ bound z)%N;
  bound_slots : NoDup taken ∧ Forall (λ slot, (bound x ≤ slot < bound z)%N) taken;
  bound_names : ∃ names,
    (fallthrough z = true → declares names taken (slots x) (slots z)) ∧
    ∀ k' n, k `prefix_of` k' → (size z ≤ n)%N →
      binds p m0 f k' n (slots x) (bound x) (slots z) names (end_of x) l (fallthrough z) e;
}.

Lemma declares_ext names : ∀ slots sl1 sl2 sl',
  (∀ y, sl1 y = sl2 y) → declares names slots sl1 sl' → declares names slots sl2 sl'.
Proof.
  induction names as [|name names IH]; intros [|slot slots] sl1 sl2 sl' He Hd; try done.
  - intros y. by rewrite Hd, He.
  - eapply IH; [|exact Hd]. intros y. unfold update. by rewrite He.
Qed.

Lemma frame_room x : frame_ok x → (bound x ≤ size x)%N.
Proof. by intros [[e [_ [??]]] _]. Qed.

Lemma bindings_lowers form_name pairs :
  pairs_ok pairs → ∀ x k, frame_ok x → fallthrough x = true → scopes (fn_scopes x) ≠ [] →
  builds x k (bindings_loop cf form_name pairs) (λ taken z k', ∃ l,
    bound_to x z k' taken l (λ fuel env, eval_bindings (eval fuel) env (child_form <$> pairs))).
Proof.
  assert (∀ x, scopes (fn_scopes x) ≠ [] → opened x x) as Hopen.
  { intros x Hne. destruct (scopes (fn_scopes x)) as [|s rest] eqn:Es; [done|].
    exists s, (names s), rest. split; [done|]. rewrite Es. by destruct s. }
  induction 1 as [|name initializer pairs symbol Hname Hinit Hpairs IH]; intros x k Hx El Hne.
  { apply builds_ret. exists []. split; [apply moved_refl|done|by apply Hopen|done|split; constructor|].
    exists []. split; [done|]. intros k' n _ _. rewrite El. by apply binds_nil. }
  cbn [bindings_loop fmap list_fmap]. rewrite Hname. cbn [eval_bindings].
  eapply (part_then _ _ _ x x []); [by apply child_live|by apply built_refl|done|].
  intros z1 k1 l1 B1 _ S1 H1'. rewrite app_nil_l in *. apply builds_bind, builds_reads_on.
  pose proof (opened_built _ _ _ _ (Hopen x Hne) B1) as O1.
  destruct (fallthrough z1) eqn:E1; cbn [negb].
  2: { apply builds_ret. exists l1. split; [apply B1|apply B1|done| |split; constructor|].
       - by rewrite (same_next _ _ (built_scope _ _ _ B1)).
       - exists []. rewrite E1. split; [done|]. intros k' n Hk Hn.
         eapply executes_dead; [by apply frame_below|]. by apply H1'. }
  assert (scopes (fn_scopes z1) ≠ []) as Hne1 by (by rewrite (same_scopes _ _ (built_scope _ _ _ B1))).
  apply builds_bind, builds_declare; [apply B1|done|]. intros s' Hs' Hn' Hb' Hsz' O2 F2.
  apply builds_bind, builds_emit_. intros _. set (z3 := emitted _ _ _).
  assert (moved x z3 (l1 ++ [StoreLocal (bound z1)])) as M3.
  { apply moved_emitted. destruct (built_moved _ _ _ B1) as [????]. split; try done. cbn in *. lia. }
  assert (built (with_scopes s' z1) z3 [StoreLocal (bound z1)]) as B3.
  { apply (built_emitted _ _ []), built_refl, F2. }
  apply builds_bind. eapply builds_impl; [apply IH; [apply B3|done|destruct O2 as (?&?&?&_&Ho); cbn in *; by rewrite Ho]|].
  intros taken z k3 K3 (l & [M4 F4 O4 N4 [D4 R4] (nm & H4 & H4')]). apply builds_ret.
  assert (bound z1 = bound x) as Eb by apply (same_next _ _ (built_scope _ _ _ B1)).
  assert (∀ y, resolve (fn_scopes z3) y = update symbol (bound x) (slots x) y) as Hslots.
  { intros y. change (fn_scopes z3) with s'. rewrite Hs', Eb. unfold update, resolve.
    by rewrite (same_scopes _ _ (built_scope _ _ _ B1)). }
  change (next_slot (fn_scopes z3)) with (next_slot s') in *. rewrite Hn' in *. rewrite Eb in *.
  exists (l1 ++ StoreLocal (bound x) :: l). split.
  - pose proof (moved_trans _ _ _ _ _ M3 M4) as M. rewrite <- app_assoc in M. exact M.
  - done.
  - eapply opened_trans; [exact O1|]. eapply opened_trans; [exact O2|]. exact O4.
  - lia.
  - split.
    + constructor; [|done]. intros Hin. rewrite Forall_forall in R4. apply R4 in Hin. lia.
    + constructor; [lia|]. eapply Forall_impl; [exact R4|]. intros slot Hslot. cbn in Hslot. lia.
  - exists (symbol :: nm). split.
    + intros E. cbn [declares]. eapply declares_ext; [exact Hslots|]. by apply H4.
    + intros k' n Hk Hn. pose proof (moved_high _ _ _ M4) as W4. change (size z3) with (high_water s') in W4.
      apply binds_cons with (e1 := λ fuel env, eval fuel env (child_form initializer))
        (e2 := λ fuel env, eval_bindings (eval fuel) env (child_form <$> pairs));
        [done|by apply frame_below|done|lia| |].
      * apply H1'; [by etrans|lia].
      * replace (end_of x + length l1 + 1) with (end_of z3)
          by (rewrite (moved_end _ _ _ M3), length_app; cbn [length]; lia).
        eapply executes_slots; [symmetry; apply Hslots|]. by apply H4'.
Qed.
(** The binding vector of a [let] or [loop]. *)
Record vector_ok (c : Child) (pairs : list Form) : Prop := {
  vector_form : child_form c = FVector pairs;
  vector_pairs : pairs_ok (list_children pairs (child_span c) (child_nodes c));
  vector_forms : child_form <$> list_children pairs (child_span c) (child_nodes c) = pairs;
}.

Lemma vector_lowers (op c : Child) pairs body form_name x k :
  vector_ok c pairs → frame_ok x → fallthrough x = true → scopes (fn_scopes x) ≠ [] →
  builds x k (compile_bindings cf (op :: c :: body) form_name) (λ taken z k', ∃ l,
    bound_to x z k' taken l (λ fuel env, eval_bindings (eval fuel) env pairs)).
Proof.
  intros [Hf Hp Hs] Hx El Hne. apply builds_bind, builds_ret. rewrite Hf.
  destruct (negb _); [apply builds_fail|]. pose proof (bindings_lowers form_name _ Hp x k Hx El Hne) as Hb.
  by rewrite Hs in Hb.
Qed.

Lemma let_lowers (op c : Child) pairs body s tail :
  vector_ok c pairs → Forall child_ok body →
  lowers_live (compile_let cf (op :: c :: body) s tail) tail
    (λ fuel env, eval_let (eval fuel) env (child_form <$> c :: body)).
Proof.
  intros Hc Hbody x k Hx El. unfold compile_let. cbn [fmap list_fmap]. rewrite (vector_form _ _ Hc).
  cbn [eval_let]. destruct (_ <? _) eqn:Hlen; [apply builds_fail|]. apply Nat.ltb_ge in Hlen.
  assert (body ≠ []) as Hne by (by destruct body; cbn in *; [lia|]).
  apply builds_bind, builds_update. fold (scoped x). apply builds_bracket, builds_bind.
  eapply builds_impl; [apply vector_lowers; [exact Hc|by apply scoped_frame|done|done]|].
  intros taken y k1 K1 (lb & [M1 F1 O1 N1 _ (names & _ & Hb)]).
  eapply builds_impl; [apply sequence_lowers; [exact Hne|exact Hbody|exact F1]|].
  intros [] z k2 K2 (l & B2 & H2'). cbn [drop] in *. rewrite drop_0 in *.
  assert (moved x z (lb ++ l)) as M by (eapply moved_trans; [apply moved_scoped, M1|apply B2]).
  eapply builds_impl; [apply builds_close; [exact Hx|exact M|by eapply opened_built|apply frame_max, B2]|].
  intros [] z' k3 K3 (-> & B3 & L3 & S3). eapply lowered_intro; [done|exact B3|].
  rewrite L3, S3. change (end_of x) with (end_of (scoped x)).
  pose proof (moved_high _ _ _ (built_moved _ _ _ B2)) as Hz.
  assert (loop_at tail y = loop_at tail x) as El' by exact (loop_at_moved _ _ _ tail M1).
  apply computes_let with (n' := bound y) (slot_of' := slots y) (names := names) (live := fallthrough y)
    (eb := λ fuel env, eval_bindings (eval fuel) env pairs)
    (e := λ fuel env, eval_body (eval fuel) env (child_form <$> body)); [exact N1|by apply Hb|].
  intros Ey. rewrite Ey, El', (moved_end _ _ _ M1) in H2'. exact H2'.
Qed.
Definition looping (context : LoopContext) x : FnContext := with_loops (context :: loops x) x.
Definition unlooped x : FnContext := with_loops (list.tail (loops x)) x.

Lemma looping_frame context x :
  frame_ok x → NoDup (loop_slots context) →
  Forall (λ slot, (slot < size x)%N) (loop_slots context) → header context ≤ end_of x →
  frame_ok (looping context x).
Proof. intros [He _] ???. split; [exact He|]. by intros ? [= <-]. Qed.
Lemma unlooped_moved context x z l : moved (looping context x) z l → moved x (unlooped z) l.
Proof. intros [Hc Hh Hl Hi Hw]. split; try done. cbn. by rewrite Hl. Qed.

Lemma loop_lowers (op c : Child) pairs body s tail :
  vector_ok c pairs → Forall child_ok body →
  lowers_live (compile_loop cf (op :: c :: body) s) tail
    (λ fuel env, eval_loop (eval fuel) fuel env (child_form <$> c :: body)).
Proof.
  intros Hc Hbody x k Hx El. unfold compile_loop. cbn [fmap list_fmap]. rewrite (vector_form _ _ Hc).
  cbn [eval_loop]. destruct (_ <? _) eqn:Hlen; [apply builds_fail|]. apply Nat.ltb_ge in Hlen.
  assert (body ≠ []) as Hne by (by destruct body; cbn in *; [lia|]).
  apply builds_bind, builds_update. fold (scoped x). apply builds_bracket, builds_bind.
  eapply builds_impl; [apply vector_lowers; [exact Hc|by apply scoped_frame|done|done]|].
  intros taken y k1 K1 (lb & [M1 F1 O1 N1 [D1 R1] (names & Hd & Hb)]).
  apply builds_bind, builds_here, builds_bind, builds_update. fold (looping (mkLoop (end_of y) taken) y).
  apply builds_bracket. cbn [drop]. rewrite drop_0.
  assert (frame_ok (looping (mkLoop (end_of y) taken) y)) as F2.
  { apply looping_frame; [done|done| |done]. eapply Forall_impl; [exact R1|].
    intros slot Hslot. pose proof (frame_room _ F1). cbn in *. lia. }
  eapply builds_impl; [apply sequence_lowers; [exact Hne|exact Hbody|exact F2]|].
  intros [] z k2 K2 (l & B2 & H2'). apply builds_update. fold (unlooped z).
  change (slots (looping _ y)) with (slots y) in H2'. change (bound (looping _ y)) with (bound y) in H2'.
  change (end_of (looping _ y)) with (end_of y) in H2'. change (fallthrough (looping _ y)) with (fallthrough y) in H2'.
  assert (moved y (unlooped z) l) as M2 by (eapply unlooped_moved, B2).
  assert (moved x (unlooped z) (lb ++ l)) as M by (eapply moved_trans; [apply moved_scoped, M1|exact M2]).
  eapply builds_impl; [apply builds_close; [exact Hx|exact M| |apply (frame_max z), B2]|].
  { destruct O1 as (sc & nm & rest & O1 & O1'). exists sc, nm, rest. split; [done|].
    rewrite <- O1'. apply (same_scopes _ _ (built_scope _ _ _ B2)). }
  intros [] z' k3 K3 (-> & B3 & L3 & S3). eapply lowered_intro; [done|exact B3|].
  rewrite L3, S3. change (size (unlooped z)) with (size z). change (fallthrough (unlooped z)) with (fallthrough z).
  change (end_of x) with (end_of (scoped x)).
  pose proof (moved_high _ _ _ (built_moved _ _ _ B2)) as Hz. change (size (looping _ y)) with (size y) in Hz.
  specialize (Hb k2 (size z) K2 Hz). destruct (fallthrough y).
  - eapply computes_loop with (ev := eval) (turns := id) (n' := bound y) (slot_of' := slots y) (names := names)
      (slots := taken) (eb := λ fuel env, eval_bindings (eval fuel) env pairs);
      [by apply frame_below|exact short|exact N1|by apply Hd|by apply frame_below| |exact Hb|].
    + eapply Forall_impl; [exact R1|]. intros slot Hslot. cbn in *. lia.
    + rewrite <- (moved_end _ _ _ M1). exact H2'.
  - destruct H2' as [-> Ez]. intros Hp Hs fuel env st loc scr r Hlen' Ha. rewrite app_nil_r in Hs.
    eapply does_bind; [by apply Hb|]. by intros ??? [??].
Qed.
(** *** Literals *)
Lemma constant_lowers v s tail : exact v → lowers_live (constant v s) tail (λ _ _, mret (Gives v)).
Proof.
  intros Hv x k Hx El. apply builds_constant; [done|]. intros i k' _ Hk Hi. apply lowered_push; [done|done|].
  intros Hp b st loc scr r Hb. eapply step_constant; [done|done|]. by eapply prefix_lookup_Some.
Qed.

Lemma literal_lowers (collect : list string → Child → list (string * option Position) →
    comp (list (string * option Position))) form v s nodes top tail :
  literal_of form = Some v →
  lowers_live (compile_dispatch cf collect form s nodes top tail) tail (λ _ _, mret (Gives v)).
Proof.
  intros Hv. destruct form as [| |b|z| | | | | | | |name|str| | | |l]; try done; cbn in Hv.
  - injection Hv as <-. apply lowers_push. intros. by eapply step_nil.
  - injection Hv as <-. destruct b; apply lowers_push; intros; [by eapply step_true|by eapply step_false].
  - injection Hv as <-. by apply constant_lowers; left.
  - destruct (keyword_from name) as [keyword|] eqn:E; [|done]. injection Hv as <-.
    intros x k Hx El. cbn. rewrite E. apply builds_bind, builds_ret. by apply constant_lowers; [left|..].
  - injection Hv as <-. by apply constant_lowers; left.
  - destruct l; [|done]. injection Hv as <-. by apply constant_lowers; left.
Qed.
(** *** Calls of local values, which are outside of the core language *)
Definition adds (m : comp ()) : Prop :=
  ∀ x y l k, built x y l → fallthrough y = true → builds y k m (λ _ z _, ∃ l', built x z l').

Lemma call_adds (op : Child) l s i :
  Forall child_ok l → adds (compile_call_arguments cf (op :: l) s;; if_live (emit_at i s)).
Proof.
  intros Hl x y l0 k Hb El. apply builds_bind. unfold compile_call_arguments. cbn [drop]. rewrite drop_0.
  destruct (_ <? _); [apply builds_fail|]. eapply builds_impl; [apply arguments_build; [done|apply Hb|done]|].
  intros [] z k' _ (l1 & B1 & _). pose proof (built_trans _ _ _ _ _ Hb B1) as B.
  apply builds_if_live; intros _; [|by eexists].
  apply builds_emit_. intros _. eexists. by apply built_emitted.
Qed.

Lemma local_call_adds name slot (op : Child) l s x k :
  Forall child_ok l → frame_ok x → fallthrough x = true → resolve (fn_scopes x) name = Some slot →
  builds x k (compile_named_call cf name (op :: l) s) (λ _ z _, ∃ l', built x z l').
Proof.
  intros Hl Hx El Hslot. apply builds_bind, builds_lookup, builds_bind, builds_gets. intros c _ _.
  rewrite Hslot. clear c. unfold compile_static_or_dynamic_call.
  assert (builds x k (compile_dynamic_call cf name (op :: l) s) (λ _ z _, ∃ l', built x z l')) as Hdynamic.
  { apply builds_bind, builds_bind, builds_lookup, builds_bind, builds_gets. intros c _ _. rewrite Hslot.
    apply builds_emit_. intros _. eapply call_adds; [done|by apply built_emitted, built_refl|done]. }
  apply builds_bind, builds_ctx, builds_bind, builds_gets. intros c _ _. destruct (_ && _); [|done].
  apply builds_bind, builds_or_crash. intros target _. destruct (arity_accepts _ _); [|done].
  eapply call_adds; [done|by apply built_refl|done].
Qed.

(** *** Operators by name *)
Lemma core_name_not op names :
  core_name op = true → existsb core_name names = false → op ∉ names.
Proof.
  intros Hop Hn Hin. assert (existsb core_name names = true); [|congruence].
  apply existsb_exists. exists op. split; [by apply list_elem_of_In|done].
Qed.
Lemma plain_not_coroutine c op member :
  plain c → core_name op = true →
  existsb core_name ["std.native.Coroutine/" +:+ member; "std.foundation.coroutine/" +:+ member] = false →
  is_coroutine_var c op member = false.
Proof.
  intros Hp Hop Hn. pose proof (core_name_not _ _ Hop Hn) as Hout. unfold is_coroutine_var.
  rewrite (plain_world _ Hp), (no_registry _ environment), andb_false_l, orb_false_r.
  rewrite !bool_decide_eq_false_2; [done|..]; intros ->; apply Hout; [by right; left|by left].
Qed.
Lemma plain_not_host c op : plain c → core_name op = true → is_host_call_var c op = false.
Proof.
  intros Hp Hop. pose proof (core_name_not op ["std.native.Host/call"] Hop ltac:(by vm_compute)) as Hout.
  unfold is_host_call_var. rewrite (plain_world _ Hp), (no_registry _ environment), andb_false_l, orb_false_r.
  apply bool_decide_eq_false_2. intros ->. apply Hout. by left.
Qed.
Lemma plain_not_global c op : plain c → is_some (from_symbol op) = true → visible_global c op = false.
Proof.
  intros Hp Hop. unfold visible_global, is_declared, is_global.
  rewrite (plain_world _ Hp), (no_registry _ environment), (plain_globals _ Hp), Hop.
  destruct (excluded_foundation_symbol c op); [done|].
  assert (∀ s, bool_decide (s ∈ @nil string) = false) as Hnil.
  { intros s. apply bool_decide_eq_false_2, not_elem_of_nil. }
  rewrite andb_false_r, andb_false_l, Hnil. cbn [andb].
  by repeat case_match; rewrite ?Hnil.
Qed.
Lemma primitive_operator name o :
  from_symbol name = Some o → core_name name = true ∧ name ∉ CORE_OPERATORS.
Proof.
  intros Ho. assert (is_some (from_symbol name) = true) as Hs by by rewrite Ho.
  split; [unfold core_name; rewrite Hs; apply orb_true_r|]. intros Hin.
  assert (Forall (λ op, from_symbol op = None) CORE_OPERATORS) as Hf by (repeat constructor; by vm_compute).
  rewrite Forall_forall in Hf. apply Hf in Hin. congruence.
Qed.
Lemma eval_list_primitive name o fuel env l :
  from_symbol name = Some o →
  eval_list (eval fuel) fuel env name l =
    match env !! name with
    | None => values ← eval_values (eval fuel) env l; apply_operator o values
    | Some _ => fail Outside
    end :> prog R stop answer.
Proof.
  intros Ho. destruct (primitive_operator _ _ Ho) as [_ Hout]. unfold eval_list.
  repeat (rewrite decide_False by (intros ->; apply Hout; by vm_compute; repeat constructor)).
  rewrite Ho. by destruct (env !! name).
Qed.

Lemma primitive_operator_lowers collect name o form elements (op : Child) l s top tail :
  from_symbol name = Some o → Forall child_ok l →
  lowers_live (compile_operator cf collect name form elements (op :: l) s top tail) tail
    (λ fuel env, eval_list (eval fuel) fuel env name (child_form <$> l)).
Proof.
  intros Ho Hl x k Hx El. destruct (primitive_operator _ _ Ho) as [Hop Hout].
  assert (is_some (from_symbol name) = true) as Hs by by rewrite Ho.
  apply builds_bind, builds_gets. intros c Hc _. change (id c) with c. apply builds_bind, builds_ctx.
  rewrite !plain_not_coroutine, plain_not_host, (plain_not_global _ _ Hc Hs) by (done || by vm_compute).
  repeat (rewrite decide_False by (intros ->; by vm_compute in Ho)).
  rewrite !(bool_decide_eq_false_2 (name = _)) by (intros ->; by vm_compute in Ho).
  rewrite (bool_decide_eq_false_2 (name ∈ ["ns"; "ns+"])), (bool_decide_eq_false_2 (name ∈ ["in-ns"; "await"]))
    by (by apply core_name_not).
  cbn [orb andb]. rewrite orb_false_r, Ho.
  assert (lowers_live (compile_primitive cf (op :: l) s o) tail
    (λ fuel env, eval_list (eval fuel) fuel env name (child_form <$> l))) as Hprimitive.
  { intros x' k' Hx' El'. eapply builds_impl; [by apply primitive_lowers|].
    intros _ z k'' _ (l' & B & H'). eapply lowered_intro; [done|exact B|]. rewrite El' in H'.
    eapply executes_ext; [exact H'|]. intros fuel env r. rewrite (eval_list_primitive _ o) by done.
    destruct (env !! name); [by left|right; by exists fuel]. }
  destruct (_ || _); [by apply Hprimitive|].
  destruct (resolve (fn_scopes x) name) as [slot|] eqn:Eslot; cbn [is_some]; [|by apply Hprimitive].
  eapply builds_impl; [by eapply local_call_adds|]. intros [] z k' _ (l' & B).
  eapply lowered_outside; [done|exact B|]. intros env loc fuel r Ha. specialize (Ha name). rewrite Eslot in Ha.
  destruct Ha as (v & Hv & _). by rewrite (eval_list_primitive _ o), Hv by done.
Qed.

(** The children of an operator in front of them. *)
Definition arguments_ok (name : string) (l : list Child) : Prop :=
  if bool_decide (name ∈ ["let"; "loop"]) then
    ∃ (c : Child) pairs body, l = c :: body ∧ vector_ok c pairs ∧ Forall child_ok body
  else Forall child_ok l.

Lemma do_lowers l tail :
  Forall child_ok l →
  lowers_live (compile_sequence cf l tail) tail (λ fuel env, eval_body (eval fuel) env (child_form <$> l)).
Proof.
  intros Hl. destruct l as [|c l]; [apply lowers_push; intros; by eapply step_nil|].
  by apply lowers_is_live, sequence_lowers.
Qed.

Lemma control_operator_lowers collect name form elements (op : Child) l s top tail :
  name ∈ CORE_OPERATORS → arguments_ok name l →
  lowers_live (compile_operator cf collect name form elements (op :: l) s top tail) tail
    (λ fuel env, eval_list (eval fuel) fuel env name (child_form <$> l)).
Proof.
  intros Hname Hl x k Hx El.
  assert (core_name name = true) as Hop by (unfold core_name; by rewrite bool_decide_eq_true_2).
  apply builds_bind, builds_gets. intros c Hc _. change (id c) with c. apply builds_bind, builds_ctx.
  rewrite !plain_not_coroutine, plain_not_host by (done || by vm_compute).
  unfold CORE_OPERATORS, eval_list in *. rewrite !elem_of_cons, elem_of_nil in Hname.
  destruct_or! Hname; subst name; unfold arguments_ok in Hl;
    match type of Hl with if ?b then _ else _ => let b' := eval vm_compute in b in change b with b' in Hl end;
    cbv iota in Hl;
    repeat (rewrite decide_True by done || rewrite decide_False by done).
  - by apply if_lowers; cbn [drop]; rewrite ?drop_0.
  - by apply and_lowers.
  - by apply or_lowers.
  - apply builds_bind, builds_top. cbn [drop]. rewrite drop_0. by apply do_lowers.
  - destruct Hl as (vector & pairs & body & -> & Hvector & Hbody). by eapply let_lowers.
  - destruct Hl as (vector & pairs & body & -> & Hvector & Hbody). by eapply loop_lowers.
  - by apply recur_lowers.
Qed.
(** ** Forms *)
(** The nodes of a form, when there are any, are those of its elements. *)
Definition nodes_agree (g : Form) (nodes : option (list SpannedForm)) : Prop :=
  match nodes with Some nodes => elements_agree g nodes ∧ Forall agreeing nodes | None => True end.

Lemma list_children_agree g elements s nodes :
  g = FList elements ∨ g = FVector elements → nodes_agree g nodes →
  child_form <$> list_children elements s nodes = elements ∧
  Forall (λ c : Child, nodes_agree (child_form c) (child_nodes c)) (list_children elements s nodes).
Proof.
  intros Hg Hn.
  assert (child_form <$> ((λ e, mkChild e s None) <$> elements) = elements ∧
    Forall (λ c : Child, nodes_agree (child_form c) (child_nodes c)) ((λ e, mkChild e s None) <$> elements)) as Hnone.
  { split; [|by apply Forall_fmap, Forall_true]. rewrite <- list_fmap_compose. by apply list_fmap_id. }
  destruct nodes as [nodes|]; [|exact Hnone]. cbn [list_children].
  destruct (length nodes =? length elements) eqn:El; [|exact Hnone]. apply Nat.eqb_eq in El.
  destruct Hn as [He Ha]. split.
  - rewrite <- list_fmap_compose. destruct Hg as [-> | ->]; by apply He.
  - apply Forall_fmap. eapply Forall_impl; [exact Ha|]. intros _ [??? ? Hall]. split; [done|]. by apply Forall_forall.
Qed.

Lemma core_expand form n : core_form form = true → expand form n = (Ok None, n).
Proof.
  intros Hf. destruct form as [| | | | | | | | | | | | | | | |[|[| | | | | | | | | |op| | | | | |] l]]; try done.
  cbn [core_form] in Hf. apply andb_true_iff in Hf as [Hop Hl]. unfold core_arguments in Hl. cbn [expand].
  assert (∀ pairs, core_pairs core_form pairs = true → existsb (λ q, pattern q.1) (pairs_of pairs) = false) as Hpairs.
  { fix IH 1. intros [|name [|initializer pairs]]; [done|by destruct name|]. destruct name; try done.
    cbn [core_pairs pairs_of existsb pattern fst orb]. intros [_ Hp]%andb_true_iff. by apply IH. }
  assert (op ∈ ["let"; "loop"] → expand_let (FSymbol op :: l) n = (Ok None, n) ∧
          expand_loop (FSymbol op :: l) n = (Ok None, n)) as Hvector.
  { intros Hin. rewrite bool_decide_eq_true_2 in Hl by done. destruct l as [|[] body]; try done.
    apply andb_true_iff in Hl as [Hp _]. cbn. rewrite (Hpairs _ Hp), orb_true_r. done. }
  destruct (decide (op = "let")) as [Elet|]; [apply Hvector; subst; by left|].
  destruct (decide (op = "loop")) as [Eloop|]; [apply Hvector; subst; right; by left|].
  by rewrite !decide_False by
    (try intros [|]; try intros ?; subst; by vm_compute in Hop).
Qed.
Lemma builds_expanding {A} x k (m : prog N failure A) a (Q : result failure A → FnContext → list Value → Prop) :
  (∀ n, m n = (Ok a, n)) → Q (Ok a) x k → builds x k (expanding m) Q.
Proof.
  intros Hm HQ c rest r c' [] Hc Hk E. unfold expanding in E. rewrite Hm in E. injection E as <- <-. subst k.
  split; [by split|]. by exists x.
Qed.
Lemma builds_guest {A} x k (m : prog W string A) a (Q : result string A → FnContext → list Value → Prop) :
  m w = (Ok a, w) → Q (Ok a) x k → builds x k (guest m) Q.
Proof.
  intros Hm HQ c rest r c' [] Hc Hk E. unfold guest in E. rewrite plain_world0, Hm in E. injection E as <- <-.
  subst k. split; [by split|]. by exists x.
Qed.

Lemma builds_no_macro x k form s (Q : option Form → FnContext → list Value → Prop) :
  core_form form = true → Q None x k → builds x k (expand_macro form s) Q.
Proof.
  intros Hf HQ. unfold expand_macro.
  destruct form as [| | | | | | | | | | | | | | | |l]; try done; try by apply builds_ret.
  cbn [form_without_metadata]. apply builds_bind, builds_gets. intros c _ _. destruct (_ || _); [by apply builds_ret|].
  destruct (no_macro w environment (FList l) Hf) as (form' & Hm & He).
  apply builds_bind. eapply builds_guest; [exact Hm|]. apply builds_bind, builds_ret. rewrite He. by apply builds_ret.
Qed.

Lemma pairs_core (l : list Child) :
  (∀ c : Child, core_form (child_form c) = true → nodes_agree (child_form c) (child_nodes c) → child_ok c) →
  core_pairs core_form (child_form <$> l) = true →
  Forall (λ c : Child, nodes_agree (child_form c) (child_nodes c)) l → pairs_ok l.
Proof.
  intros Hok. revert l. fix IH 1. intros [|name [|initializer l]]; [constructor| |].
  - cbn. by destruct (child_form name).
  - cbn [fmap list_fmap core_pairs]. destruct (child_form name) as [| | | | | | | | | |symbol| | | | | |] eqn:En; try done.
    intros [Hi Hl]%andb_true_iff Hn. apply Forall_cons in Hn as [_ Hn]. apply Forall_cons in Hn as [Hn Hf].
    econstructor; [exact En|by apply Hok|by apply IH].
Qed.
Lemma children_core (l : list Child) :
  (∀ c : Child, core_form (child_form c) = true → nodes_agree (child_form c) (child_nodes c) → child_ok c) →
  forallb core_form (child_form <$> l) = true →
  Forall (λ c : Child, nodes_agree (child_form c) (child_nodes c)) l → Forall child_ok l.
Proof.
  intros Hok Hc Hn. induction Hn as [|c l Hn Hl IH]; [done|]. cbn in Hc. apply andb_true_iff in Hc as [Hc Hcs].
  constructor; auto.
Qed.
Lemma arguments_core name (l : list Child) :
  (∀ c : Child, core_form (child_form c) = true → nodes_agree (child_form c) (child_nodes c) → child_ok c) →
  core_arguments core_form name (child_form <$> l) = true →
  Forall (λ c : Child, nodes_agree (child_form c) (child_nodes c)) l → arguments_ok name l.
Proof.
  intros Hok Hc Hn. unfold core_arguments, arguments_ok in *. destruct (bool_decide _); [|by apply children_core].
  destruct l as [|c body]; [done|]. cbn [fmap list_fmap] in Hc.
  destruct (child_form c) as [| | | | | | | | | | | | | | |pairs|] eqn:Ec; try done.
  apply andb_true_iff in Hc as [Hp Hb]. apply Forall_cons in Hn as [Hn Hbody].
  rewrite Ec in Hn. destruct (list_children_agree (FVector pairs) pairs (child_span c) (child_nodes c))
    as [Hf Ha]; [by right|done|].
  exists c, pairs, body. split_and!; [done| |by apply children_core].
  split; [done| |done]. apply pairs_core; [done| |done]. by rewrite Hf.
Qed.
End methods.

(** The lowering of a core form computes what the form means. *)
Lemma form_lowers fuel : ∀ form s nodes tail,
  core_form form = true → nodes_agree form nodes →
  lowers (compile_form fuel form s nodes tail) tail (λ n env, eval n env form).
Proof.
  induction fuel as [|fuel IH]; intros form s nodes tail Hcore Hnodes x k Hx; [apply builds_fail|].
  cbn [compile_form]. apply builds_bind, builds_gets. intros c _ _. apply builds_bind, builds_top.
  revert x k Hx. apply lowers_if_live. intros x k Hx El.
  apply builds_bind. eapply builds_expanding; [intros n; by apply core_expand|].
  apply builds_bind, builds_ret, builds_bind, builds_no_macro; [done|].
  destruct (literal_of form) as [v|] eqn:Elit.
  { eapply builds_impl; [by apply literal_lowers|]. intros _ x' k' _ (l & B & Hl).
    eapply lowered_intro; [done|exact B|]. rewrite El in Hl. eapply executes_ext; [exact Hl|].
    intros [|n] env r; [by left|right]. exists 0. cbn. by rewrite Elit. }
  destruct form as [| | | | | | | | | |name|name| | | | |elements]; try done.
  - eapply builds_impl; [by apply symbol_lowers|]. intros _ x' k' _ (l & B & Hl).
    eapply lowered_intro; [done|exact B|]. rewrite El in Hl. eapply executes_ext; [exact Hl|].
    intros [|n] env r; [by left|right]. exists 0. done.
  - cbn in Elit. apply builds_bind. destruct (keyword_from name) as [|[]]; [done|apply builds_fail..].
  - destruct elements as [|[| | | | | | | | | |name| | | | | |] elements]; try done.
    cbn [core_form] in Hcore. apply andb_true_iff in Hcore as [Hname Hargs]. cbn [compile_dispatch compile_list].
    destruct (list_children_agree (FList (FSymbol name :: elements)) (FSymbol name :: elements) s nodes)
      as [Hf Ha]; [by left|done|].
    destruct (list_children _ s nodes) as [|op l]; [done|]. cbn in Hf. injection Hf as Hop Hf. subst elements.
    apply Forall_cons in Ha as [_ Ha].
    assert (∀ c : Child, core_form (child_form c) = true → nodes_agree (child_form c) (child_nodes c) →
      child_ok (compile_form fuel) c) as Hok.
    { intros c' Hc' Hn' tail'. by apply IH. }
    assert (lowers_live (compile_operator (compile_form fuel) (collect_free fuel) name
      (FList (FSymbol name :: (child_form <$> l))) (FSymbol name :: (child_form <$> l)) (op :: l) s (top_level c) tail)
      tail (λ n env, eval_list (eval n) n env name (child_form <$> l))) as Hlist.
    { pose proof (arguments_core _ _ _ Hok Hargs Ha) as Hargs_ok.
      destruct (decide (name ∈ CORE_OPERATORS)) as [Hin|Hout]; [by apply control_operator_lowers|].
      unfold core_name in Hname. rewrite bool_decide_eq_false_2 in Hname by done.
      destruct (from_symbol name) as [o|] eqn:Eo; [|done]. eapply primitive_operator_lowers; [done|].
      unfold arguments_ok in Hargs_ok. rewrite bool_decide_eq_false_2 in Hargs_ok; [done|].
      intros Hin. apply Hout. unfold CORE_OPERATORS. rewrite !elem_of_cons in *. tauto. }
    eapply builds_impl; [by apply Hlist|]. intros _ x' k' _ (l' & B & Hl).
    eapply lowered_intro; [done|exact B|]. rewrite El in Hl. eapply executes_ext; [exact Hl|].
    intros [|n] env r; [by left|right]. by exists n.
Qed.
End lowering.
