(* ===== verification/CoreRuns.v ===== *)
(** * Core programs, compiled and run

    What a program compiled from core forms does on the machine: what the
    evaluator of [Evaluation] says. *)
From S2P Require Import Prelude Bytes Text Opcode Kernel Reader Printer Program DefinitionForms Destructure Scope Captures Validate Frame Machine Compiler Lowering Safety Runs Segments CompilerFacts CompilerRuns Evaluation CoreCode ReaderNodes CoreFacts.
#[local] Open Scope nat_scope.

(** ** Runs of the machine *)
Section runs.
Context {R : Type} `{Runtime R}.
Variable p : Program.

Lemma reaches_run m m1 outcome m2 :
  rtc (moves p) m m1 → step p m1 = (Some outcome, m2) → ∃ n, run p n m = Some (outcome, m2).
Proof.
  induction 1 as [m|m m' m1 Hm _ IH]; intros Hs; [exists 1; cbn; by rewrite Hs|].
  destruct (IH Hs) as [n Hn]. exists (S n). cbn. unfold moves in Hm. by rewrite Hm.
Qed.

(** The program, entered in the runtime's state [r], ends as the evaluation. *)
Definition ends_as (r : R) (e : result stop answer * R) : Prop :=
  ∃ m, machine_entry p r = Some m ∧
    match e with
    | (Ok (Gives v), r') => ∃ n m', run p n m = Some (OReturned v, m') ∧ Machine.world m' = r'
    | (Ok (Recurs _), _) => False
    | (Err (Raises text), r') =>
        ∃ n e m', run p n m = Some (OFailed e, m') ∧ Machine.message e = text ∧ Machine.world m' = r'
    | (Err Outside, _) => True
    end.
End runs.

(** ** The compilation of core forms *)
Section compile.
Context {W R : Type} `{TextEnv} `{ValueForms} `{CompilerEnv W} `{Runtime R}.
Abbreviation comp := (prog (Compiler W) compile_stop).
Variable w : W.
Hypothesis environment : plain_environment (R := R) w.

Lemma predeclare_core forms (c : Compiler W) :
  forallb core_form (Reader.form <$> forms) = true → predeclare forms c = (Ok tt, c).
Proof.
  revert c. induction forms as [|n forms IH]; intros c Hf; [done|]. cbn in Hf.
  apply andb_true_iff in Hf as [Hn Hf]. unfold predeclare in *. cbn [each].
  assert (∀ m : comp (), m c = (Ok tt, c) → ∀ k : () → comp (), (m ≫= k) c = k tt c) as Hbind.
  { intros m Hm k. unfold mbind, prog_bind. by rewrite Hm. }
  rewrite Hbind; [by apply IH|].
  destruct (Reader.form n) as [| | | | | | | | | | | | | | | |[|[| | | | | | | | | |op| | | | | |] l]]; try done.
  cbn [form_without_metadata]. cbn in Hn. apply andb_true_iff in Hn as [Hn _].
  rewrite decide_False by (intros ->; by vm_compute in Hn). done.
Qed.

Lemma new_plain excluded allow : plain w (compiler_new excluded allow w).
Proof. split; try done. intros v i Hi. by apply not_elem_of_nil in Hi. Qed.

Definition entry_context : FnContext := new_context 0 None 0 false false false [] (push_scope scopes_new).
Lemma entry_frame : frame_ok entry_context.
Proof. split; [exists [[]]; apply push_ok, scopes_new_ok|done]. Qed.

Lemma core_sequence (p : Program) (m0 : Machine R) f fuel forms excluded allow u c :
  functions p !! function m0 = Some f → calls m0 = [] → handlers f = [] →
  (N.of_nat (length (code f)) < 4294967296)%N →
  forallb core_form (Reader.form <$> forms) = true → Forall agreeing forms →
  compile_sequence (compile_form fuel) (node_child <$> forms) true (compiler_new excluded allow w) = (Ok u, c) →
  plain w c ∧ ∃ x, contexts c = [x] ∧
    lowered p m0 f true (λ n env, eval_body (eval n) env (Reader.form <$> forms)) entry_context x (pool c).
Proof.
  intros Hf Hm Hh Hl Hcore Hagree E.
  assert (Reader.form <$> forms = child_form <$> (node_child <$> forms)) as Hforms by (by rewrite <- list_fmap_compose).
  assert (Forall (child_ok w p m0 f (compile_form fuel)) (node_child <$> forms)) as Hok.
  { apply children_core; [|by rewrite <- Hforms|].
    - intros c' Hc Hn tail. by apply form_lowers.
    - apply Forall_fmap. eapply Forall_impl; [exact Hagree|]. intros _ [g s nodes He Hall]. split; [done|].
      by apply Forall_forall. }
  rewrite Hforms.
  assert (lowers_live w p m0 f (compile_sequence (compile_form fuel) (node_child <$> forms) true) true
    (λ n env, eval_body (eval n) env (child_form <$> (node_child <$> forms)))) as Hlow by (by apply do_lowers).
  destruct (Hlow entry_context [] entry_frame eq_refl _ [] u c (new_plain excluded allow) eq_refl eq_refl E)
    as (Hc & x & Hx & _ & HQ).
  split; [done|]. by exists x.
Qed.

Lemma return_emitted x k : builds w x k (if_live (emit_ Return None)) (λ _ x' k',
  k' = k ∧ x' = if fallthrough x then emitted Return None x else x).
Proof.
  apply builds_if_live; intros El; rewrite El; [|done]. apply builds_emit_. by intros _.
Qed.

(** The program of a function before its analysis. *)
Record core_program (q : Program) (x : FnContext) (k : list Value) (f : FunctionPrototype) : Prop := {
  program_entry : entry q = 0%N;
  program_constants : constants q = k;
  program_function : functions q !! 0 = Some f;
  program_code : code f = fn_code x ++ (if fallthrough x then [Return] else []);
  program_handlers : handlers f = [];
  program_locals : local_count f = high_water (fn_scopes x);
}.

Lemma analyse_one p f q :
  functions p = [f] → handlers f = [] → analyse_functions 1 0 p = Ok q →
  ∃ heights, functions q = [with_analysis heights [] f] ∧ constants q = constants p ∧ entry q = entry p.
Proof.
  intros Hf Hh E. cbn [analyse_functions] in E. rewrite Hf in E. apply result_bind_ok in E as (g & Hg & E).
  injection Hg as <-. apply result_bind_ok in E as (heights & _ & E).
  rewrite Hh in E. injection E as <-. by exists heights.
Qed.

Lemma close_one x (c c' : Compiler W) y :
  plain w c → contexts c = [x] → proto_id x = 0 → close_context c = (Ok y, c') →
  ∃ f, prototypes c' = [f] ∧ pool c' = pool c ∧ code f = fn_code x ∧ handlers f = fn_handlers x ∧
    local_count f = high_water (fn_scopes x).
Proof.
  intros Hc Hx Hid E. unfold close_context in E. rewrite Hx, (plain_prototypes _ _ Hc), Hid in E.
  injection E as <- <-. eexists. split; [done|]. by split_and!.
Qed.

Lemma core_compiled (r : R) fuel forms excluded allow q w' :
  forallb core_form (Reader.form <$> forms) = true → Forall agreeing forms →
  compile_forms fuel forms excluded allow w = (Ok q, w') →
  ∃ x k f, core_program q x k f ∧
    ∀ (p : Program) (m0 : Machine R) g,
      functions p !! function m0 = Some g → calls m0 = [] → handlers g = [] →
      (N.of_nat (length (code g)) < 4294967296)%N →
      lowered p m0 g true (λ n env, eval_body (eval n) env (Reader.form <$> forms)) entry_context x k.
Proof.
  intros Hcore Hagree. unfold compile_forms.
  match goal with |- (let '(_, _) := ?m in _) = _ → _ => destruct m as [res c] eqn:E end.
  intros [= -> <-]. apply prog_bind_ok in E as (u1 & c1 & E1 & (u2 & c2 & E2 & E)%prog_bind_ok).
  rewrite predeclare_core in E1 by done. injection E1 as <- <-.
  pose proof (λ p m0 g Hg Hm Hh Hl, core_sequence p m0 g fuel forms excluded allow u2 c2 Hg Hm Hh Hl Hcore Hagree E2) as Hseq.
  destruct (Hseq (mkProgram None [] [] ∅ ∅ ∅ [placeholder None 0 0 false false] 0)
    (machine_new 0 (frame_entry 0) r) (placeholder None 0 0 false false)) as (Hc2 & x & Hx & l & [[Hl Hh _ Hid _] _ _] & _);
    [done|done|done|done|].
  apply prog_bind_ok in E as (u3 & c3 & E3 & (y & c4 & E4 & E)%prog_bind_ok).
  destruct (return_emitted x (pool c2) _ _ _ _ Hc2 Hx eq_refl E3) as (Hc3 & x3 & Hx3 & _ & Hk & Hx3').
  destruct (close_one x3 c3 c4 y) as (f & Hf & Hk4 & Hcode & Hhandlers & Hlocals);
    [done|done|by subst; destruct (fallthrough x)|done|].
  apply prog_bind_ok in E as (c5 & c6 & [= <- <-] & E). cbn zeta in E.
  apply prog_bind_ok in E as (program & c7 & E7 & (u8 & c8 & E8 & E)%prog_bind_ok).
  injection E as -> <-. injection E7 as E7 <-. cbn [functions] in E7. rewrite Hf in E7.
  assert (handlers f = []) as Hf0 by (rewrite Hhandlers, Hx3'; destruct (fallthrough x); exact Hh).
  apply (analyse_one _ f) in E7 as (heights & Hq & Hconstants & Hentry); [|done|done].
  exists x, (pool c2), (with_analysis heights [] f). split.
  - split; [done|by rewrite Hconstants, <- Hk, <- Hk4|by rewrite Hq| |done|].
    + cbn. rewrite Hcode, Hx3'. destruct (fallthrough x); [done|by rewrite app_nil_r].
    + cbn. rewrite Hlocals, Hx3'. by destruct (fallthrough x).
  - intros p m0 g Hg Hm0 Hg0 Hshort. destruct (Hseq p m0 g Hg Hm0 Hg0 Hshort) as (_ & x' & Hx' & Hlow).
    rewrite Hx in Hx'. by injection Hx' as <-.
Qed.

Lemma compiled_short fuel forms excluded allow q w' f :
  compile_forms fuel forms excluded allow w = (Ok q, w') → functions q !! 0 = Some f →
  (N.of_nat (length (code f)) < 4294967296)%N.
Proof.
  intros E Hf. destruct (compiled_sound_lemma _ _ _ _ _ _ _ E) as [[_ _ Hfun]%validate_spec _].
  destruct (Hfun 0 f Hf) as [heights [_ _ (_ & Hmax & _) _ _ _ _]]. unfold MAX_INSTRUCTIONS in Hmax. lia.
Qed.

(** At the end of the function the value on the stack is returned. *)
Lemma step_return (p : Program) (m0 : Machine R) f pc v loc scr r :
  functions p !! function m0 = Some f → calls m0 = [] → code f !! pc = Some Return →
  ∃ m, step p (at_ m0 pc [slot_of_value v] loc scr r) = (Some (OReturned v), m) ∧ Machine.world m = r.
Proof.
  intros Hf Hc Hi. unfold step, function_at. cbn [function at_]. rewrite Hf. cbn [ip at_]. rewrite Hi.
  unfold dispatch, dispatch_action, dispatch_return.
  pose proof (pop_snoc m0 pc [] loc scr r (slot_of_value v)) as Hpop. cbn [app] in Hpop.
  unfold or_fail, mbind, prog_bind. rewrite Hpop. cbn. unfold finish_return. cbn. rewrite Hc.
  destruct v; cbn; by eexists.
Qed.

Lemma forms_mean fuel forms excluded allow q w' :
  forallb core_form (Reader.form <$> forms) = true → Forall agreeing forms →
  compile_forms fuel forms excluded allow w = (Ok q, w') →
  ∀ (r : R) n, ends_as q r (eval_program n (Reader.form <$> forms) r).
Proof.
  intros Hcore Hagree E r n.
  destruct (core_compiled r _ _ _ _ _ _ Hcore Hagree E) as (x & k & f & [He Hk Hf Hcode Hh Hlocals] & Hlow).
  pose proof (compiled_short _ _ _ _ _ _ _ E Hf) as Hshort.
  set (m0 := machine_new 0 (frame_entry (N.to_nat (local_count f))) r).
  exists m0. split; [unfold machine_entry, function_at; rewrite He; change (N.to_nat 0) with 0; by rewrite Hf|].
  destruct (Hlow q m0 f Hf eq_refl Hh Hshort) as (l & [[Hl _ _ _ _] _ _] & Hc). cbn in Hl.
  assert (does q m0 (eval_program n (Reader.form <$> forms) r)
    (answers m0 0 None (length l) (fallthrough x) [] (replicate (N.to_nat (local_count f)) SNil))) as Hdoes.
  { apply (Hc ltac:(by rewrite Hk)); [|by rewrite length_replicate, Hlocals|done].
    intros i ins Hi. rewrite Hcode, Hl. by apply lookup_app_l_Some. }
  destruct (eval_program n (Reader.form <$> forms) r) as [[[v|values]|[text|]] r']; cbn in Hdoes; [| | |done].
  - destruct Hdoes as (m1 & Hm1 & Hlive & loc & scr & -> & _).
    destruct (step_return q m0 f (length l) v loc scr r' Hf eq_refl) as (m2 & Hs & Hw).
    { rewrite Hcode, Hl, Hlive, lookup_app_r, Nat.sub_diag by lia. done. }
    destruct (reaches_run _ _ _ _ _ Hm1 Hs) as [steps Hrun]. by exists steps, m2.
  - by destruct Hdoes as (m1 & _ & context & loc & scr & ? & _).
  - destruct Hdoes as (m1 & e & m2 & Hm1 & Hs & Hmessage & Hw).
    destruct (reaches_run _ _ _ _ _ Hm1 Hs) as [steps Hrun]. by exists steps, e, m2.
Qed.

(** ** Sources *)
Lemma prepare_core f : core_form f = true → ∀ position, prepare position f w = (Ok tt, w).
Proof.
  induction f as [| | | | | | | |t v IH|m v IHm IHv|name| | |l IH|l IH|l IH|l IH] using ReaderRuns.form_nested_ind;
    intros Hf position; try done.
  destruct l as [|[| | | | | | | | | |op| | | | | |] l]; try done. cbn in Hf. apply andb_true_iff in Hf as [Hop Hl].
  cbn [prepare]. rewrite !bool_decide_eq_false_2 by (intros ->; by vm_compute in Hop). cbn [orb].
  destruct (decide (op = "do")) as [->|]; [|done]. change (forallb core_form l = true) in Hl.
  apply Forall_cons in IH as [_ IH]. induction IH as [|f l Hf _ IH]; [done|]. cbn in Hl.
  apply andb_true_iff in Hl as [Hcore Hl]. cbn [each]. unfold mbind, prog_bind. rewrite Hf by done. by apply IH.
Qed.
Lemma prepare_core_forms forms :
  forallb core_form (Reader.form <$> forms) = true → prepare_top_level_namespaces forms w = (Ok tt, w).
Proof.
  induction forms as [|f forms IH]; [done|]. cbn. intros [Hf Hl]%andb_true_iff.
  unfold prepare_top_level_namespaces, mbind, prog_bind in *. rewrite prepare_core by done. by apply IH.
Qed.

(** C8. Compilation preserves meaning: the program compiled from a source of the
    core language does on the machine what the evaluator says of its forms. When
    they have a value the run returns it, when they raise an error the run fails
    with its text, and either way the runtime is left as the evaluation leaves
    it; they never recur out of their loops. *)
Theorem compiled_source_means fuel source forms q w' :
  read_forms source = Ok forms → forallb core_form (Reader.form <$> forms) = true →
  compile_source fuel source w = (Ok q, w') →
  ∀ (r : R) n, ends_as q r (eval_program n (Reader.form <$> forms) r).
Proof.
  intros Hread Hcore E. unfold compile_source in E. rewrite Hread in E.
  apply prog_bind_ok in E as (u & w1 & E1 & E). rewrite prepare_core_forms in E1 by done. injection E1 as <- <-.
  eapply forms_mean; [exact Hcore|by eapply read_forms_agree|exact E].
Qed.
End compile.

(** ** A concrete run *)
(** Equality of forms is reflexive where there are no floats. *)
Definition core_part (f : Form) : Prop :=
  core_form f = true ∨ ∃ l, f = FVector l ∧ core_pairs core_form l = true.

Lemma core_parts l : forallb core_form l = true → Forall core_part l.
Proof. intros Hl. apply Forall_forall. intros f Hf. left. rewrite forallb_forall in Hl. by apply Hl, list_elem_of_In. Qed.
Lemma core_pairs_parts l : core_pairs core_form l = true → Forall core_part l.
Proof.
  revert l. fix IH 1. intros [|name [|initializer l]]; [constructor|by destruct name|].
  destruct name; try done. cbn [core_pairs]. intros [Hi Hl]%andb_true_iff.
  constructor; [by left|]. constructor; [by left|by apply IH].
Qed.
Lemma core_list_parts l : core_form (FList l) = true → Forall core_part l.
Proof.
  destruct l as [|[] l]; try done. cbn [core_form]. intros [_ Hl]%andb_true_iff. constructor; [by left|].
  unfold core_arguments in Hl. destruct (bool_decide _); [|by apply core_parts].
  destruct l as [|[] body]; try done. apply andb_true_iff in Hl as [Hp Hb].
  constructor; [right; by eexists|by apply core_parts].
Qed.
Lemma form_eqb_core f : core_part f → form_eqb f f = true.
Proof.
  assert (∀ l, Forall (λ f, core_part f → form_eqb f f = true) l → Forall core_part l →
    forms_eqb form_eqb l l = true) as Hall.
  { induction 1 as [|g l Hg _ IH]; [done|]. intros [Hc Hl]%Forall_cons. cbn. by rewrite Hg, IH. }
  induction f as [| |b|z| | | | |t v IH|m v IHm IHv|name|name|s|l IH|l IH|l IH|l IH] using ReaderRuns.form_nested_ind;
    intros Hf; try (by destruct Hf as [?|(? & ? & ?)]); cbn [form_eqb].
  - by destruct b.
  - apply Z.eqb_refl.
  - by apply bool_decide_eq_true_2.
  - by apply bool_decide_eq_true_2.
  - by apply bool_decide_eq_true_2.
  - apply Hall; [done|]. destruct Hf as [?|(? & [= <-] & ?)]; [done|by apply core_pairs_parts].
  - apply Hall; [done|]. destruct Hf as [?|(? & ? & ?)]; [by apply core_list_parts|done].
Qed.

Import ReaderRuns.Demo CompilerRuns.Demo.
#[local] Existing Instance Runs.toy.

(** The environment of [CompilerRuns] is one of those the theorem is about. *)
Lemma demo_plain : plain_environment (R := N) tt.
Proof.
  split.
  - done.
  - intros v v' _ Hs He. destruct v, v'; try done; cbn in He; try (by apply bool_decide_eq_true in He as ->);
      repeat case_match; done.
  - intros form v Hv. cbn. unfold literal. by rewrite Hv.
  - intros op vs v E. cbn in E. repeat case_match; try done. injection E as <-. split; [by right|]. intros r. done.
  - intros form Hf. exists form. split; [done|]. apply form_eqb_core. by left.
Qed.

Definition sum_source : list char :=
  chars "(let [n 4] (loop [i 0 a 0] (if (= i n) (and a (+ a 1)) (recur (+ i 1) (+ a i)))))".
Definition sum_forms : list SpannedForm := match read_forms sum_source with Ok l => l | Err _ => [] end.

Example compiled_source_means_witness :
  ∃ q w', compile_source 100 sum_source tt = (Ok q, w') ∧
    eval_program 20 (Reader.form <$> sum_forms) 0%N = (Ok (Gives (VNumber 7)), 0%N) ∧
    ends_as q 0%N (eval_program 20 (Reader.form <$> sum_forms) 0%N).
Proof.
  assert (succeeds (compile_source 100 sum_source tt).1 = true) as Hok by (vm_compute; reflexivity).
  destruct (compile_source 100 sum_source tt) as [[q|e] w'] eqn:E; [|discriminate Hok].
  exists q, w'. split; [reflexivity|]. split; [vm_compute; reflexivity|].
  refine (compiled_source_means tt demo_plain 100 sum_source sum_forms q w' _ _ E 0%N 20); vm_compute; reflexivity.
Defined.
