(* ===== verification/Fiber.v ===== *)
(** * Fibers

    [src/core/rust/src/vm/fiber.rs]: the host-independent lifetime of a
    resumable run. A fiber owns a machine, the promise it waits for and a state;
    every operation of the host is a total function of these, [None] is a guest
    that has not finished within the fuel, and a panic is an error. *)
From S2P Require Import Prelude Opcode Kernel Task Program Validate Frame Machine Safety Runs.

(** What a fiber asks of the runtime besides running its machine: draining the
    scheduler's queue and telling a promise that nobody waits for it. *)
Class FiberHost (W : Type) := {
  poll_async : W → W;
  notify_cancel : N → W → W;
}.

Inductive VmFiberState :=
| Running
| Suspended
| Yielded (value : Value)
| Completed (value : Value)
| FailedWith (error : VmError)
| Cancelled.

(** A result, a panic, or a run that is still going. *)
Definition driven (A : Type) : Type := option (result string A).
#[export] Instance driven_ret : MRet driven := λ _ x, Some (Ok x).
#[export] Instance driven_bind : MBind driven := λ _ _ k m,
  match m with Some (Ok x) => k x | Some (Err e) => Some (Err e) | None => None end.

Section fiber.
Context `{ValueForms} {W : Type} `{Runtime W} `{FiberHost W}.
Variable program : Program.

Record VmFiber := mkFiber {
  machine : Machine W;
  state : VmFiberState;
  pending : option N;
}.
Implicit Types f : VmFiber.

(** The run's outcome, with its panics as panics. *)
Definition ran (m : option (VmOutcome * Machine W)) : driven (VmOutcome * Machine W) :=
  match m with
  | Some (OPanics message, _) => Some (Err message)
  | Some r => Some (Ok r)
  | None => None
  end.

Definition apply (outcome : VmOutcome) f : VmFiber :=
  match outcome with
  | OReturned value => mkFiber (machine f) (Completed value) (pending f)
  | OFailed error => mkFiber (machine f) (FailedWith error) (pending f)
  | OSuspended promise => mkFiber (machine f) Suspended (Some promise)
  | OYielded value => mkFiber (machine f) (Yielded value) (pending f)
  | OPanics _ => f
  end.

Definition start (fuel : nat) (w : W) : driven VmFiber :=
  match machine_entry program w with
  | None => Some (Err "index out of bounds")
  | Some m =>
      r ← ran (run program fuel m);
      mret (apply r.1 (mkFiber r.2 Running None))
  end.

Definition is_suspended (s : VmFiberState) : bool := match s with Suspended => true | _ => false end.

Definition resume (fuel : nat) (settled : PromiseState) f : driven VmFiber :=
  if negb (is_suspended (state f)) then mret f
  else
    r ← ran (Machine.resume program fuel settled (machine f));
    mret (apply r.1 (mkFiber r.2 Running None)).

Definition resume_yield (fuel : nat) (value : Value) f : driven VmFiber :=
  match state f with
  | Yielded _ =>
      r ← ran (Machine.resume_yield program fuel value (machine f));
      mret (apply r.1 (mkFiber r.2 Running (pending f)))
  | _ => mret f
  end.

(** [self.pending.as_ref().expect("suspended promise").state()]. *)
Definition pending_state f : driven (PromiseState * VmFiber) :=
  match pending f with
  | None => Some (Err "suspended promise")
  | Some promise =>
      let '(s, w) := promise_state promise (world (machine f)) in
      mret (s, mkFiber (with_world w (machine f)) (state f) (pending f))
  end.

Definition poll (fuel : nat) f : driven VmFiber :=
  let f := mkFiber (with_world (poll_async (world (machine f))) (machine f)) (state f) (pending f) in
  if is_suspended (state f) then
    r ← pending_state f;
    if is_pending r.1 then mret r.2 else resume fuel r.1 r.2
  else mret f.

Definition finished (s : VmFiberState) : bool :=
  match s with Completed _ | FailedWith _ | Cancelled => true | _ => false end.

Definition cancel f : bool * VmFiber :=
  if finished (state f) then (false, f)
  else
    let w := match pending f with
             | Some promise => notify_cancel promise (world (machine f))
             | None => world (machine f)
             end in
    (true, mkFiber (with_world w (machine f)) Cancelled None).

(** At most [rounds] resumptions, each of at most [fuel] instructions. *)
Fixpoint drive_sync (rounds fuel : nat) f : driven (result VmError Value * VmFiber) :=
  match rounds with
  | O => None
  | S rounds =>
      match state f with
      | Completed value => mret (Ok value, f)
      | FailedWith error => mret (Err error, f)
      | Cancelled => mret (Err (vm_error "cancelled" 0 None), f)
      | Suspended =>
          r ← pending_state f;
          if is_pending r.1 then
            mret (Err (vm_error "VM fiber suspended on an unresolved promise" 0 None), r.2)
          else f ← resume fuel r.1 r.2; drive_sync rounds fuel f
      | Yielded _ =>
          mret (Err (vm_error "VM fiber yielded outside of a coroutine driver" 0 None), f)
      | Running =>
          r ← ran (run program fuel (machine f));
          drive_sync rounds fuel (apply r.1 (mkFiber r.2 Running (pending f)))
      end
  end.

(** ** The life of a fiber *)
Inductive event :=
| EResume (fuel : nat) (settled : PromiseState)
| EResumeYield (fuel : nat) (value : Value)
| EPoll (fuel : nat)
| ECancel
| EDrive (rounds fuel : nat).

Definition handle (e : event) f : driven VmFiber :=
  match e with
  | EResume fuel settled => resume fuel settled f
  | EResumeYield fuel value => resume_yield fuel value f
  | EPoll fuel => poll fuel f
  | ECancel => mret (cancel f).2
  | EDrive rounds fuel => r ← drive_sync rounds fuel f; mret r.2
  end.

Fixpoint live (es : list event) f : driven VmFiber :=
  match es with
  | [] => mret f
  | e :: es => f ← handle e f; live es f
  end.

(** What is true of a fiber between operations. *)
Definition fiber_ok f : Prop :=
  match state f with
  | Running => False
  | Suspended => is_Some (pending f) ∧ machine_ok program (machine f)
  | Yielded _ => pending f = None ∧ yielded program (machine f)
  | Completed _ | FailedWith _ | Cancelled => pending f = None
  end.

(** A completed operation keeps the invariant; it never panics. *)
Definition keeps_ok {A} (fiber_of : A → VmFiber) (r : driven A) : Prop :=
  match r with Some (Ok x) => fiber_ok (fiber_of x) | Some (Err _) => False | None => True end.

Lemma machine_ok_world w (m : Machine W) : machine_ok program m → machine_ok program (with_world w m).
Proof.
  intros (f & hs & h & Hf & Hs & Hh & Hc & [? ? ? ? ? ? ? ? ?]). exists f, hs, h. do 4 (split; [done|]). by split.
Qed.

Section sound.
Hypothesis Hprogram : sound_program program.

Lemma ran_ok r (k : VmOutcome * Machine W → driven VmFiber) :
  (∀ o m, r = Some (o, m) → outcome_ok program o m) →
  (∀ o m, outcome_ok program o m → keeps_ok id (k (o, m))) → keeps_ok id (ran r ≫= k).
Proof.
  intros Hr Hk. destruct r as [[o m]|]; [|done]. specialize (Hr o m eq_refl).
  destruct o; cbn; try done; by apply Hk.
Qed.

Lemma apply_ok o m : outcome_ok program o m → fiber_ok (apply o (mkFiber m Running None)).
Proof. by destruct o. Qed.

Lemma start_ok fuel w : keeps_ok id (start fuel w).
Proof.
  destruct (machine_entry_ok program Hprogram w) as (m & Hm & Hok). unfold start. rewrite Hm.
  apply ran_ok; [|intros o m'; apply apply_ok]. intros o m'. by apply run_ok.
Qed.

Lemma resume_keeps fuel settled f : fiber_ok f → keeps_ok id (resume fuel settled f).
Proof.
  intros Hf. unfold resume. destruct (state f) eqn:Hs; try exact Hf. unfold fiber_ok in Hf. rewrite Hs in Hf.
  cbn [is_suspended negb]. apply ran_ok; [|intros o m'; apply apply_ok]. intros o m'. by apply resume_ok, Hf.
Qed.

Lemma resume_yield_keeps fuel value f : fiber_ok f → keeps_ok id (resume_yield fuel value f).
Proof.
  intros Hf. unfold resume_yield. destruct (state f) eqn:Hs; try exact Hf. unfold fiber_ok in Hf. rewrite Hs in Hf.
  destruct Hf as [-> Hy]. apply ran_ok; [|intros o m'; apply apply_ok]. intros o m'. by apply resume_yield_ok.
Qed.

Lemma pending_state_ok f :
  fiber_ok f → state f = Suspended → ∃ s f', pending_state f = Some (Ok (s, f')) ∧ fiber_ok f' ∧ state f' = Suspended.
Proof.
  intros Hf Hs. unfold fiber_ok in Hf. rewrite Hs in Hf. destruct Hf as [[p Hp] Hm]. unfold pending_state.
  rewrite Hp. destruct (promise_state p (world (machine f))) as [s w]. eexists _, _. split; [done|].
  split; [|done]. unfold fiber_ok. cbn. rewrite Hs. split; [by eexists|by apply machine_ok_world].
Qed.

Lemma poll_keeps fuel f : fiber_ok f → keeps_ok id (poll fuel f).
Proof.
  intros Hf. unfold poll. set (f1 := mkFiber _ _ _).
  assert (fiber_ok f1) as Hf1.
  { unfold fiber_ok, f1 in *. cbn. destruct (state f); try done.
    - split; [apply Hf|by apply machine_ok_world, Hf].
    - split; [apply Hf|]. destruct Hf as [_ (g & hs & h & Hg & Hsf & Hi & Hh & Hc & n & Hn & [? ? ? ? ? ? ? ? ?])].
      exists g, hs, h. do 5 (split; [done|]). exists n. split; [done|]. by split. }
  clearbody f1. destruct (is_suspended (state f1)) eqn:Hs; [|exact Hf1].
  assert (state f1 = Suspended) as Hs' by (by destruct (state f1)).
  destruct (pending_state_ok f1 Hf1 Hs') as (s & f2 & -> & Hf2 & _). cbn.
  destruct (is_pending s); [done|]. by apply resume_keeps.
Qed.

Lemma drive_keeps rounds fuel f : fiber_ok f → keeps_ok snd (drive_sync rounds fuel f).
Proof.
  revert f. induction rounds as [|rounds IH]; intros f Hf; [done|]. cbn [drive_sync].
  destruct (state f) eqn:Hs; try exact Hf; [by unfold fiber_ok in Hf; rewrite Hs in Hf|].
  destruct (pending_state_ok f Hf Hs) as (s & f1 & -> & Hf1 & _). cbn [mbind driven_bind fst snd].
  destruct (is_pending s); [exact Hf1|].
  pose proof (resume_keeps fuel s f1 Hf1) as Hr. destruct (resume fuel s f1) as [[f2|]|]; [|done|done].
  cbn in Hr |- *. by apply IH.
Qed.

Lemma handle_keeps e f : fiber_ok f → keeps_ok id (handle e f).
Proof.
  intros Hf. destruct e as [fuel settled|fuel value|fuel| |rounds fuel]; cbn [handle].
  - by apply resume_keeps.
  - by apply resume_yield_keeps.
  - by apply poll_keeps.
  - unfold cancel. destruct (finished (state f)); [exact Hf|done].
  - pose proof (drive_keeps rounds fuel f Hf) as Hd.
    by destruct (drive_sync rounds fuel f) as [[[]|]|].
Qed.

Lemma live_keeps es f : fiber_ok f → keeps_ok id (live es f).
Proof.
  revert f. induction es as [|e es IH]; intros f Hf; cbn [live]; [exact Hf|].
  pose proof (handle_keeps e f Hf) as Hh. destruct (handle e f) as [[f1|]|]; cbn in *; [|done|done]. by apply IH.
Qed.
End sound.

(** A finished fiber is past every operation: its state stays, and its machine
    is not run. *)
Lemma finished_final e f f' :
  finished (state f) = true → handle e f = Some (Ok f') →
  state f' = state f ∧ ∃ w, machine f' = with_world w (machine f).
Proof.
  intros Hs. assert (∃ w, machine f = with_world w (machine f)) as Hself by (exists (world (machine f)); by destruct (machine f)).
  destruct e as [fuel settled|fuel value|fuel| |[|rounds] fuel]; cbn [handle drive_sync];
    unfold resume, resume_yield, poll, cancel; cbn [state]; rewrite ?Hs; try done;
    destruct (state f) eqn:E; try done; intros [= <-]; cbn; rewrite ?E; eauto.
Qed.

(** C31. A fiber of a validated, self-contained program never panics, whatever
    its host does with it and in whatever order: the promise a suspended fiber
    waits for is there, its machine can be resumed, and no operation leaves it
    running. A fiber that completed, failed or was cancelled stays so, and its
    machine is not run again. *)
Theorem fiber_lifecycle fuel w es :
  validate program = Ok tt → self_contained program = true →
  match f ← start fuel w; live es f with
  | None => True
  | Some (Err _) => False
  | Some (Ok f) =>
      state f ≠ Running ∧ (state f = Suspended ↔ is_Some (pending f)) ∧
      (finished (state f) = true → ∀ es' f', live es' f = Some (Ok f') →
         state f' = state f ∧ (cancel f').1 = false ∧ ∃ w', machine f' = with_world w' (machine f))
  end.
Proof.
  intros Hv Hself. pose proof (validated_sound _ Hv Hself) as Hp. pose proof (start_ok Hp fuel w) as Hs.
  destruct (start fuel w) as [[f|]|]; cbn in *; [|done|done]. pose proof (live_keeps Hp es f Hs) as Hl.
  destruct (live es f) as [[f1|]|]; cbn in *; [|done|done]. clear Hs f. unfold fiber_ok in Hl. split_and!.
  - by intros E; rewrite E in Hl.
  - split.
    + intros E. rewrite E in Hl. apply Hl.
    + intros [p E]. destruct (state f1); [done|done|destruct Hl as [Hl _]| | |]; congruence.
  - clear Hl Hp. intros Hfin es'. revert f1 Hfin. induction es' as [|e es' IH]; intros f1 Hfin f' Hlive; cbn in Hlive.
    + injection Hlive as <-. split; [done|]. unfold cancel. rewrite Hfin. split; [done|].
      exists (world (machine f1)). by destruct (machine f1).
    + destruct (handle e f1) as [[f2|]|] eqn:He; [|done|done]. cbn in Hlive.
      destruct (finished_final e f1 f2 Hfin He) as [E2 [w2 Hm2]].
      destruct (IH f2 ltac:(by rewrite E2) f' Hlive) as (E & Hc & w' & Hm'). split; [congruence|].
      split; [done|]. exists w'. rewrite Hm', Hm2. done.
Qed.
End fiber.

(** The awaiting program of [Runs], over a host with nothing to do. *)
#[local] Existing Instances toy_forms toy.
#[local] Instance N_fiber_host : FiberHost N := { poll_async w := w; notify_cancel _ w := w }.

Definition waiter_events : list event :=
  [EPoll 5; EResume 5 (Fulfilled (VNumber 5)); EResume 5 Pending; EResumeYield 5 (VNumber 42); ECancel].

Lemma fiber_lifecycle_witness :
  validate waiter = Ok tt ∧
  match f ← start waiter 5 0%N; live waiter waiter_events f with
  | Some (Ok f) => state f = Completed (VNumber 42) ∧ (cancel f).1 = false
  | _ => False
  end.
Proof.
  split; [vm_compute; reflexivity|].
  pose proof (fiber_lifecycle (W:=N) waiter 5 0%N waiter_events
    ltac:(vm_compute; reflexivity) ltac:(vm_compute; reflexivity)) as H.
  destruct (f ← start waiter 5 0%N; live waiter waiter_events f) as [[f|e]|] eqn:E;
    [|exact H|vm_compute in E; discriminate E].
  destruct H as (_ & _ & H). assert (state f = Completed (VNumber 42)) as Hf.
  { vm_compute in E. injection E as <-. reflexivity. }
  split; [exact Hf|]. refine (proj1 (proj2 (H _ [] f eq_refl))). rewrite Hf. reflexivity.
Defined.
