(* ===== verification/Artifact.v ===== *)
(** * Program artifacts

    [src/core/rust/src/vm/artifact.rs]: the versioned binary form of validated
    programs - encoder, authenticating decoder and the codecs of functions,
    instructions, Var metadata and schemas. The hash function, the decimal text
    of big integers, the textual form of reader forms and the HTA value codec
    are parameters ([ArtifactEnv]). Recursive readers take fuel; [Roundtrip]
    shows that the decoder never runs out of it. *)
From Stdlib Require Import Strings.Byte.
From S2P Require Import Prelude Bytes Opcode Kernel Program Validate.

(** ** What the artifact codec is built on *)
Class ArtifactEnv := {
  (** [Sha256::digest] *)
  sha256 : list byte → list byte;
  (** [BigInt::to_string] and [BigInt::parse_bytes(_, 10)] *)
  bigint_text : Z → string;
  bigint_parse : list byte → option Z;
  (** [Form::to_string] and [kernel::parse] *)
  form_text : Form → string;
  form_parse : string → result string Form;
  (** [hta::encode] and [hta::decode_canonical] *)
  hta_encode : Value → result string (list byte);
  hta_decode_canonical : list byte → result string Value;
}.

#[export] Instance byte_eq_dec : EqDecision byte := Byte.byte_eq_dec.

Definition MAGIC : list byte := String.list_byte_of_string "HBC0".
Definition DIGEST : nat := 32.

Section artifact.
Context {env : ArtifactEnv} {value_forms : ValueForms}.

Definition reject {A} (message : string) : read A := fail (Failed message).

(** ** Instructions *)
Definition write_instruction (i : Instruction) : write () :=
  match i with
  | Constant value => write_byte 0;; write_u32 value
  | Nil => write_byte 1
  | True_ => write_byte 2
  | False_ => write_byte 3
  | LoadLocal value => write_byte 4;; write_u16 value
  | StoreLocal value => write_byte 5;; write_u16 value
  | Pop => write_byte 6
  | Dup => write_byte 28
  | IntrinsicCall target argc => write_byte 50;; write_u32 target;; write_byte argc
  | Jump value => write_byte 8;; write_u32 value
  | JumpIfFalse value => write_byte 9;; write_u32 value
  | Closure prototype captures => write_byte 10;; write_u16 prototype;; write_byte captures
  | Call argc => write_byte 11;; write_byte argc
  | CallStatic prototype argc => write_byte 12;; write_u16 prototype;; write_byte argc
  | Throw => write_byte 13
  | Rethrow => write_byte 14
  | GetGlobal value => write_byte 15;; write_u32 value
  | DefGlobal name metadata => write_byte 16;; write_u32 name;; write_option_u16 metadata
  | SetGlobal value => write_byte 17;; write_u32 value
  | VarGlobal value => write_byte 18;; write_u32 value
  | DeclareGlobal value => write_byte 19;; write_u32 value
  | InstanceOf => write_byte 22
  | MakeMultiArity name count => write_byte 23;; write_u32 name;; write_byte count
  | Await => write_byte 26
  | HostCall => write_byte 27
  | DotCall method argc => write_byte 45;; write_u32 method;; write_byte argc
  | BuildVector count => write_byte 29;; write_u16 count
  | BuildMap count => write_byte 30;; write_u16 count
  | BuildSet count => write_byte 31;; write_u16 count
  | DefMacro name metadata => write_byte 32;; write_u32 name;; write_option_u16 metadata
  | BuildList count => write_byte 33;; write_u16 count
  | ConcatList count => write_byte 34;; write_u16 count
  | ToVector => write_byte 35
  | IntrinsicValue target => write_byte 51;; write_u32 target
  | ProtocolCall target argc => write_byte 52;; write_u32 target;; write_byte argc
  | BuiltinValue index => write_byte 38;; write_u32 index
  | NamespaceValue index => write_byte 53;; write_u32 index
  | NamespaceOperation index => write_byte 54;; write_u32 index
  | DynamicBind index => write_byte 39;; write_u32 index
  | DynamicUnbind index => write_byte 40;; write_u32 index
  | Yield => write_byte 46
  | MutableFieldGet value => write_byte 48;; write_u32 value
  | MutableFieldSet value => write_byte 49;; write_u32 value
  | Return => write_byte 24
  end.

Definition retired (name : string) (opcode : N) : read Instruction :=
  reject ("bytecode artifact uses retired " +:+ name +:+ " opcode " +:+ pretty opcode +:+
          "; rebuild required").

(** Operand readers, in the order of the fields. *)
Definition operand {A} (make : N → A) (field : read N) : read A := x ← field; mret (make x).
Definition operands {A} (make : N → N → A) (first second : read N) : read A :=
  x ← first; operand (make x) second.
Definition definition_operands (make : N → option N → Instruction) : read Instruction :=
  name ← read_u32; metadata ← read_option_u16; mret (make name metadata).

Definition read_operands (opcode : N) : read Instruction :=
  match opcode with
  | 0%N => operand Constant read_u32
  | 1%N => mret Nil
  | 2%N => mret True_
  | 3%N => mret False_
  | 4%N => operand LoadLocal read_u16
  | 5%N => operand StoreLocal read_u16
  | 6%N => mret Pop
  | 7%N => retired "Primitive" 7
  | 8%N => operand Jump read_u32
  | 9%N => operand JumpIfFalse read_u32
  | 10%N => operands Closure read_u16 read_byte
  | 11%N => operand Call read_byte
  | 12%N => operands CallStatic read_u16 read_byte
  | 13%N => mret Throw
  | 14%N => mret Rethrow
  | 15%N => operand GetGlobal read_u32
  | 16%N => definition_operands DefGlobal
  | 17%N => operand SetGlobal read_u32
  | 18%N => operand VarGlobal read_u32
  | 19%N => operand DeclareGlobal read_u32
  | 20%N => retired "DefStruct" 20
  | 21%N => retired "StructField" 21
  | 22%N => mret InstanceOf
  | 23%N => operands MakeMultiArity read_u32 read_byte
  | 24%N => mret Return
  | 25%N => retired "PrimitiveLocalConst" 25
  | 26%N => mret Await
  | 27%N => mret HostCall
  | 28%N => mret Dup
  | 29%N => operand BuildVector read_u16
  | 30%N => operand BuildMap read_u16
  | 31%N => operand BuildSet read_u16
  | 32%N => definition_operands DefMacro
  | 33%N => operand BuildList read_u16
  | 34%N => operand ConcatList read_u16
  | 35%N => mret ToVector
  | 37%N => retired "PrimitiveValue" 37
  | 38%N => operand BuiltinValue read_u32
  | 39%N => operand DynamicBind read_u32
  | 40%N => operand DynamicUnbind read_u32
  | 41%N => retired "DefProtocol" 41
  | 42%N => retired "ExtendType" 42
  | 43%N => retired "DefMulti" 43
  | 44%N => retired "DefMethod" 44
  | 45%N => operands DotCall read_u32 read_byte
  | 46%N => mret Yield
  | 47%N => retired "DefMutable" 47
  | 48%N => operand MutableFieldGet read_u32
  | 49%N => operand MutableFieldSet read_u32
  | 50%N => operands IntrinsicCall read_u32 read_byte
  | 51%N => operand IntrinsicValue read_u32
  | 52%N => operands ProtocolCall read_u32 read_byte
  | 53%N => operand NamespaceValue read_u32
  | 54%N => operand NamespaceOperation read_u32
  | _ => reject "bytecode artifact contains an unknown opcode"
  end.

Definition read_instruction : read Instruction := opcode ← read_byte; read_operands opcode.

(** ** Functions *)
Definition write_position (position : option Position) : write () :=
  match position with
  | Some position =>
      write_byte 1;;
      write_usize32 (offset position);;
      write_usize32 (line position);;
      write_usize32 (column position)
  | None => write_byte 0
  end.

Definition read_position : read (option Position) :=
  present ← boolean;
  if present : bool then
    offset ← read_u32; line ← read_u32; column ← read_u32;
    mret (Some (mkPosition offset line column))
  else mret None.

(** [for index in 0..function.source_map.len()]. *)
Definition write_source_map (m : SourceMap) : write () :=
  write_len (length m);;
  each (λ index, write_position (position_at m index)) (seq 0 (length m)).

Definition read_source_map : read SourceMap :=
  positions ← many read_position; mret (foldl record [] positions).

Definition write_catch (catch : CatchEntry) : write () :=
  write_string (class catch);; write_u16 (binding catch);; write_u32 (catch_target catch).
Definition read_catch : read CatchEntry :=
  class ← read_string; binding ← read_u16; target ← read_u32;
  mret (mkCatchEntry class binding target).

Definition write_handler (handler : TryEntry) : write () :=
  write_u32 (try_start handler);;
  write_u32 (try_end handler);;
  write_u16 (depth handler);;
  write_many write_catch (catches handler);;
  write_option_u32 (finally handler);;
  write_option_u16 (pending_value handler);;
  write_option_u16 (pending_error handler).
Definition read_handler : read TryEntry :=
  start ← read_u32;
  end_ ← read_u32;
  depth ← read_u16;
  catches ← many read_catch;
  finally ← read_option_u32;
  pending_value ← read_option_u16;
  pending_error ← read_option_u16;
  mret (mkTryEntry start end_ depth catches finally pending_value pending_error).

Definition write_function (f : FunctionPrototype) : write () :=
  write_option_string (name f);;
  write_bool (async_function f);;
  write_u16 (arity f);;
  write_bool (variadic f);;
  write_u16 (capture_count f);;
  write_u16 (local_count f);;
  write_u16 (max_stack f);;
  write_many write_instruction (code f);;
  write_source_map (source_map f);;
  write_many write_handler (handlers f).

Definition read_function (version : N) : read FunctionPrototype :=
  name ← read_option_string;
  async_function ← (if (2 <=? version)%N then boolean else mret false);
  arity ← read_u16;
  variadic ← boolean;
  capture_count ← read_u16;
  local_count ← read_u16;
  max_stack ← read_u16;
  code ← many read_instruction;
  source_map ← read_source_map;
  handlers ← many read_handler;
  mret (mkFunction name async_function arity variadic capture_count local_count max_stack code
          source_map handlers).

(** ** Metadata *)
(** [f64::is_finite], on the bits. *)
Definition is_finite (bits : N) : bool :=
  negb (N.land (N.shiftr bits 52) 2047 =? 2047)%N.
(** [BigInt::to_i64]. *)
Definition bigint_to_i64 (z : Z) : option Z :=
  if decide (- 2 ^ 63 ≤ z < 2 ^ 63)%Z then Some z else None.
(** [char::from_u32]: the Unicode scalar values. *)
Definition char_from_u32 (n : N) : option N :=
  if ((n <? 55296) || ((57343 <? n) && (n <=? 1114111)))%N then Some n else None.

Fixpoint write_metadata_value (value : MetadataValue) : write () :=
  match value with
  | MRuntime _ => fail (Failed "cannot serialize process-local metadata")
  | MNil => write_byte 0
  | MBoolean v => write_byte 1;; write_bool v
  | MNumber v => write_byte 2;; write_i64 v
  | MFloat bits =>
      if is_finite bits then write_byte 3;; write_u64 bits else fail (Failed "non-finite number")
  | MBigInteger v =>
      match bigint_to_i64 v with
      | Some value => write_byte 2;; write_i64 value
      | None => write_byte 4;; write_string (bigint_text v)
      end
  | MCharacter v => write_byte 6;; write_u32 v
  | MRegex v => write_byte 7;; write_string v
  | MTagged tag value => write_byte 8;; write_string tag;; write_metadata_value value
  | MString v => write_byte 9;; write_string v
  | MKeyword v => write_byte 10;; write_string (full_text v)
  | MSymbol v => write_byte 11;; write_string (full_text v)
  | MVector values => write_byte 12;; write_many write_metadata_value values
  | MList values => write_byte 13;; write_many write_metadata_value values
  | MSet values => write_byte 14;; write_many write_metadata_value values
  | MMap entries =>
      write_byte 15;;
      write_many (λ e, write_metadata_value e.1;; write_metadata_value e.2) entries
  end.

(** The arms of [read_metadata_value], over the recursive reader. *)
Definition read_metadata_tag (self : read MetadataValue) (tag : N) : read MetadataValue :=
  match tag with
  | 0%N => mret MNil
  | 1%N => v ← boolean; mret (MBoolean v)
  | 2%N => v ← read_i64; mret (MNumber v)
  | 3%N =>
      value ← read_u64;
      if is_finite value then mret (MFloat value) else reject "non-finite number"
  | 4%N =>
      text ← read_string;
      value ← lift (ok_or (bigint_parse (String.list_byte_of_string text))
                      (Failed "invalid metadata big integer"));
      mret (match bigint_to_i64 value with Some n => MNumber n | None => MBigInteger value end)
  | 5%N => reject "unsupported metadata tag: decimal"
  | 6%N =>
      n ← read_u32;
      c ← lift (ok_or (char_from_u32 n) (Failed "invalid metadata character"));
      mret (MCharacter c)
  | 7%N => v ← read_string; mret (MRegex v)
  | 8%N => tag ← read_string; value ← self; mret (MTagged tag value)
  | 9%N => v ← read_string; mret (MString v)
  | 10%N => v ← read_string; k ← lift (keyword_from v); mret (MKeyword k)
  | 11%N => v ← read_string; mret (MSymbol (symbol_parse v))
  | 12%N => values ← many self; mret (MVector values)
  | 13%N => values ← many self; mret (MList values)
  | 14%N => values ← many self; mret (MSet values)
  | 15%N => entries ← many (k ← self; v ← self; mret (k, v)); mret (MMap entries)
  | _ => reject "bytecode artifact contains unknown metadata"
  end.

Fixpoint read_metadata_value (fuel : nat) : read MetadataValue :=
  match fuel with
  | O => reject "out of fuel"
  | S fuel => tag ← read_byte; read_metadata_tag (read_metadata_value fuel) tag
  end.

Definition write_metadata (metadata : Metadata) : write () :=
  write_many (λ e, write_metadata_value e.1;; write_metadata_value e.2) metadata.
Definition read_metadata (fuel : nat) : read Metadata :=
  many (k ← read_metadata_value fuel; v ← read_metadata_value fuel; mret (k, v)).

(** ** Schemas *)
Definition write_schema_form (form : Form) : write () := write_string (form_text form).
Definition read_schema_form : read Form :=
  text ← read_string;
  lift (map_err (λ error, Failed ("bytecode artifact contains invalid schema form: " +:+ error))
          (form_parse text)).
Definition write_schema_forms (forms : list Form) : write () := write_many write_schema_form forms.
Definition read_schema_forms : read (list Form) := many read_schema_form.

(** Fields have properties in the encoding when any field of the map has. *)
Definition property_aware (fields : list SchemaField) : bool :=
  existsb (λ f, is_some (field_properties f)) fields.
Definition write_properties (aware : bool) (properties : option Form) : write () :=
  if aware then
    match properties with
    | Some properties => write_byte 1;; write_schema_form properties
    | None => write_byte 0
    end
  else mret tt.
Definition read_properties (aware : bool) : read (option Form) :=
  if aware then
    present ← boolean;
    if present : bool then properties ← read_schema_form; mret (Some properties) else mret None
  else mret None.

Fixpoint write_schema_type (schema : SchemaType) : write () :=
  let write_field aware field :=
    match field with
    | mkSchemaField name properties value_type =>
        write_schema_form name;; write_properties aware properties;; write_schema_type value_type
    end in
  let write_arity arity :=
    match arity with
    | mkFunctionSchema fixed rest output =>
        write_many write_schema_type fixed;;
        match rest with
        | Some rest => write_byte 1;; write_schema_type rest
        | None => write_byte 0
        end;;
        write_schema_type output
    end in
  match schema with
  | Primitive name => write_byte 0;; write_string name
  | Reference name => write_byte 1;; write_string name
  | Union types => write_byte 2;; write_many write_schema_type types
  | Vector item => write_byte 3;; write_schema_type item
  | SetOf item => write_byte 10;; write_schema_type item
  | Tuple items => write_byte 4;; write_many write_schema_type items
  | MapOf fields =>
      write_byte (if property_aware fields then 12 else 5);;
      write_many (write_field (property_aware fields)) fields
  | Struct name mutable fields =>
      write_byte 13;;
      write_string name;;
      write_bool mutable;;
      write_bool (property_aware fields);;
      write_many (write_field (property_aware fields)) fields
  | WithProperties schema properties =>
      write_byte 11;; write_schema_type schema;; write_schema_form properties
  | Function_ arities => write_byte 6;; write_many write_arity arities
  | Enum values => write_byte 7;; write_schema_forms values
  | Extension head arguments => write_byte 8;; write_string head;; write_schema_forms arguments
  | Unknown surface => write_byte 9;; write_schema_form surface
  end.

Definition read_field (self : read SchemaType) (aware : bool) : read SchemaField :=
  name ← read_schema_form;
  properties ← read_properties aware;
  value_type ← self;
  mret (mkSchemaField name properties value_type).
Definition read_arity (self : read SchemaType) : read FunctionSchema :=
  fixed ← many self;
  rest ← (present ← boolean; if present : bool then rest ← self; mret (Some rest) else mret None);
  output ← self;
  mret (mkFunctionSchema fixed rest output).

Definition read_schema_tag (self : read SchemaType) (tag : N) : read SchemaType :=
  match tag with
  | 0%N => name ← read_string; mret (Primitive name)
  | 1%N => name ← read_string; mret (Reference name)
  | 2%N => types ← many self; mret (Union types)
  | 3%N => item ← self; mret (Vector item)
  | 4%N => items ← many self; mret (Tuple items)
  | 5%N => fields ← many (read_field self false); mret (MapOf fields)
  | 6%N => arities ← many (read_arity self); mret (Function_ arities)
  | 7%N => values ← read_schema_forms; mret (Enum values)
  | 8%N => head ← read_string; arguments ← read_schema_forms; mret (Extension head arguments)
  | 9%N => surface ← read_schema_form; mret (Unknown surface)
  | 10%N => item ← self; mret (SetOf item)
  | 11%N => schema ← self; properties ← read_schema_form; mret (WithProperties schema properties)
  | 12%N => fields ← many (read_field self true); mret (MapOf fields)
  | 13%N =>
      name ← read_string;
      mutable ← boolean;
      aware ← boolean;
      fields ← many (read_field self aware);
      mret (Struct name mutable fields)
  | _ => reject "bytecode artifact contains unknown schema type"
  end.

Fixpoint read_schema_type (fuel : nat) : read SchemaType :=
  match fuel with
  | O => reject "out of fuel"
  | S fuel => tag ← read_byte; read_schema_tag (read_schema_type fuel) tag
  end.

(** [names.sort()]: the byte order of [String]. *)
Definition name_le (a b : string) : Prop := String.leb a b = true.
#[local] Instance name_le_dec : RelDecision name_le.
Proof. intros a b. unfold name_le. apply _. Defined.
Definition sorted_names (schemas : gmap string SchemaType) : list string :=
  merge_sort name_le ((map_to_list schemas).*1).

Definition write_schema_map (schemas : gmap string SchemaType) : write () :=
  write_many (λ name,
    write_string name;;
    match schemas !! name with
    | Some schema => write_schema_type schema
    | None => fail (Panicked "no entry found for key")
    end) (sorted_names schemas).

Fixpoint insert_schemas (schemas : gmap string SchemaType) (entries : list (string * SchemaType)) :
    result failure (gmap string SchemaType) :=
  match entries with
  | [] => Ok schemas
  | (name, schema) :: entries =>
      match schemas !! name with
      | Some _ => Err (Failed ("bytecode artifact contains duplicate schema " +:+ name))
      | None => insert_schemas (<[name := schema]> schemas) entries
      end
  end.

Definition read_schema_map (fuel : nat) : read (gmap string SchemaType) :=
  entries ← many (name ← read_string; schema ← read_schema_type fuel; mret (name, schema));
  lift (insert_schemas ∅ entries).

(** ** Programs *)
Definition pad4 (s : string) : string :=
  match String.length s with
  | 0 => "0000" | 1 => "000" +:+ s | 2 => "00" +:+ s | 3 => "0" +:+ s | _ => s
  end.
(** [Display] of [ValidationError] ([vm/error.rs]). *)
Definition validation_text (e : ValidationError) : string :=
  match instruction e with
  | Some instruction => "validation failed at " +:+ pad4 (pretty instruction) +:+ ": " +:+ message e
  | None => "validation failed: " +:+ message e
  end.
Definition check_program (p : Program) : result failure () :=
  map_err (λ e, match e with
                | Invalid e => Failed (validation_text e)
                | _ => Panicked "index out of bounds"
                end) (validate p).

Definition write_constant (value : Value) : write () :=
  encoded ← lift (map_err Failed (hta_encode value)); write_bytes encoded.
Definition read_constant : read Value :=
  encoded ← read_bytes; lift (map_err Failed (hta_decode_canonical encoded)).

Definition write_program (p : Program) : write () :=
  write_u16 (entry p);;
  write_option_string (namespace p);;
  write_many write_constant (constants p);;
  write_many write_metadata (var_metadata p);;
  write_schema_map (schema_types p);;
  write_schema_map (function_types p);;
  write_schema_map (inferred_function_types p);;
  write_many write_function (functions p).

Definition encode_program (p : Program) : result failure (list byte) :=
  check_program p;;
  match write_program p (mkWriter []) with
  | (Err e, _) => Err e
  | (Ok _, w) =>
      let payload := wbytes w in
      if (N.of_nat (length payload) <=? U32_MAX)%N then
        Ok (MAGIC ++ to_be_bytes 4 (N.of_nat (length payload)) ++ payload ++ sha256 payload)
      else Err (Failed "bytecode artifact is too large")
  end.

(** The fields in the order they are read. *)
Definition read_program_fields (fuel : nat) : read Program :=
  entry ← read_u16;
  namespace ← read_option_string;
  constants ← many read_constant;
  var_metadata ← many (read_metadata fuel);
  schema_types ← read_schema_map fuel;
  function_types ← read_schema_map fuel;
  inferred_function_types ← read_schema_map fuel;
  functions ← many (read_function 5);
  mret (mkProgram namespace constants var_metadata schema_types function_types
          inferred_function_types functions entry).

Definition read_program (fuel : nat) : read Program :=
  program ← read_program_fields fuel; finish;; mret program.

(** One unit of fuel per payload byte, and one. *)
Definition decode_fuel (payload : list byte) : nat := S (length payload).

(** A [u32] length plus 40 stays below [usize::MAX], so both checked additions
    succeed. *)
Definition decode_program (input : list byte) : result failure Program :=
  if negb (bool_decide (take 4 input = MAGIC)) then
    Err (Failed "bytecode artifact has invalid magic")
  else if length input <? 8 + DIGEST then Err (Failed "bytecode artifact is truncated")
  else
    let payload_len := N.to_nat (from_be_bytes (take 4 (drop 4 input))) in
    let payload_end := 8 + payload_len in
    if negb (payload_end + DIGEST =? length input) then
      Err (Failed "bytecode artifact length mismatch")
    else
      let payload := take payload_len (drop 8 input) in
      if negb (bool_decide (sha256 payload = drop payload_end input)) then
        Err (Failed "bytecode artifact checksum mismatch")
      else
        program ← (read_program (decode_fuel payload) (reader_new payload)).1;
        check_program program;;
        Ok program.
End artifact.
