(* ===== verification/Roundtrip.v ===== *)
(** * Artifact round trips

    What the codec of [Artifact] guarantees: instructions are encoded
    canonically, a decoded artifact is an authenticated encoding of a valid
    program, decoding what was encoded gives the program back, the decoder's
    fuel is never exhausted, and the only panic of the decoder is an invalid
    keyword in Var metadata. *)
From Stdlib Require Import Strings.Byte DecimalString DecimalZ Ascii.
From S2P Require Import Prelude Bytes Opcode Kernel Program Validate Artifact.

(** ** Documented behaviour of the libraries below the codec *)
Class ArtifactLaws `{ArtifactEnv} : Prop := {
  sha256_length l : length (sha256 l) = DIGEST;
  bigint_text_string z : rust_string (bigint_text z);
  bigint_parse_text z : bigint_parse (String.list_byte_of_string (bigint_text z)) = Some z;
}.

(** ** Instructions *)
Lemma codec_opcode {A} (tag : N) (w : write ()) (k : nat → N → read A) v :
  (tag < 256)%N → codec w (λ fuel, k fuel tag) v →
  codec (write_byte tag;; w) (λ fuel, opcode ← read_byte; k fuel opcode) v.
Proof. intros Ht Hw. eapply codec_bind; [by apply codec_byte|exact Hw]. Qed.

Lemma codec_opcode_only {A} (tag : N) (k : nat → N → read A) v :
  (tag < 256)%N → (∀ fuel, k fuel tag = mret v) →
  codec (write_byte tag) (λ fuel, opcode ← read_byte; k fuel opcode) v.
Proof.
  intros Ht Hk. apply (codec_ext (write_byte tag;; mret tt) _ (λ fuel, opcode ← read_byte; k fuel opcode));
    [|done..]. apply codec_opcode; [done|]. eapply codec_ext; [apply codec_ret|done|exact Hk].
Qed.

Lemma codec_operand {A} (make : N → A) w (m : nat → read N) n :
  codec w m n → codec w (λ fuel, operand make (m fuel)) (make n).
Proof. apply codec_map. Qed.

Lemma codec_operands {A} (make : N → N → A) w1 w2 (m1 m2 : nat → read N) n1 n2 :
  codec w1 m1 n1 → codec w2 m2 n2 →
  codec (w1;; w2) (λ fuel, operands make (m1 fuel) (m2 fuel)) (make n1 n2).
Proof. intros H1 H2. eapply codec_bind; [exact H1|]. by apply codec_operand. Qed.

Lemma codec_option_string v :
  match v with Some s => rust_string s | None => True end →
  codec (write_option_string v) (λ _, read_option_string) v.
Proof.
  intros Hv. apply (codec_option write_string (λ _, read_string)). intros s ->.
  by apply codec_string.
Qed.
Lemma codec_option_u16 v :
  match v with Some n => (n ≤ U16_MAX)%N | None => True end →
  codec (write_option_u16 v) (λ _, read_option_u16) v.
Proof.
  intros Hv. apply (codec_option write_u16 (λ _, read_u16)). intros s ->. by apply codec_u16.
Qed.
Lemma codec_option_u32 v :
  match v with Some n => (n ≤ U32_MAX)%N | None => True end →
  codec (write_option_u32 v) (λ _, read_option_u32) v.
Proof.
  intros Hv. apply (codec_option write_u32 (λ _, read_u32)). intros s ->. by apply codec_u32.
Qed.
Lemma codec_u8 n : (n ≤ U8_MAX)%N → codec (write_byte n) (λ _, read_byte) n.
Proof. intros Hn. apply codec_byte. unfold U8_MAX in Hn. lia. Qed.
#[export] Hint Resolve codec_option_string codec_option_u16 codec_option_u32 codec_u8 : codec.

Lemma codec_definition make name metadata :
  (name ≤ U32_MAX)%N → match metadata with Some n => (n ≤ U16_MAX)%N | None => True end →
  codec (write_u32 name;; write_option_u16 metadata) (λ _, definition_operands make)
    (make name metadata).
Proof.
  intros Hn Hm. apply (codec_bind _ _ (λ _, read_u32)
    (λ _ name, metadata ← read_option_u16; mret (make name metadata)) name); [by apply codec_u32|].
  apply (codec_map _ (λ _, read_option_u16)). by apply codec_option_u16.
Qed.

Lemma codec_instruction i :
  instruction_typed i = true → codec (write_instruction i) (λ _, read_instruction) i.
Proof.
  intros Hi. destruct i; cbn [instruction_typed] in Hi;
    rewrite ?andb_true_iff, ?N.leb_le in Hi;
    try (apply (codec_opcode_only _ (λ _, read_operands)); [done|done]);
    apply (codec_opcode _ _ (λ _, read_operands)); try done;
    try (apply (codec_operand _ _ (λ _, read_u32)); by apply codec_u32);
    try (apply (codec_operand _ _ (λ _, read_u16)); by apply codec_u16);
    try (apply (codec_operand _ _ (λ _, read_byte)); by apply codec_u8);
    try (destruct Hi; apply (codec_operands _ _ _ (λ _, read_u32) (λ _, read_byte));
         [by apply codec_u32|by apply codec_u8]);
    try (destruct Hi; apply (codec_operands _ _ _ (λ _, read_u16) (λ _, read_byte));
         [by apply codec_u16|by apply codec_u8]).
  - destruct Hi as [? Hm]. apply codec_definition; [done|].
    destruct metadata; [by apply N.leb_le|done].
  - destruct Hi as [? Hm]. apply codec_definition; [done|].
    destruct metadata; [by apply N.leb_le|done].
Qed.

(** ** The other direction: what was read is what would be written *)
Definition writes (w : write ()) (enc : list byte) : Prop :=
  ∀ b, w b = (Ok tt, mkWriter (wbytes b ++ enc)).

(** [r'] is [r] after consuming [enc]. *)
Definition consumed (r : Reader) (enc : list byte) (r' : Reader) : Prop :=
  bytes r' = bytes r ∧ cursor r' = (cursor r + N.of_nat (length enc))%N ∧
  drop (N.to_nat (cursor r)) (bytes r) = enc ++ drop (N.to_nat (cursor r')) (bytes r).

(** A reader whose every result has one encoding, the bytes it consumed. *)
Definition canonical {A} (m : read A) (w : A → write ()) (ok : A → Prop) : Prop :=
  ∀ r v r', m r = (Ok v, r') → ok v ∧ ∃ enc, writes (w v) enc ∧ consumed r enc r'.

Lemma writes_raw l : writes (write_raw l) l.
Proof. by intros b. Qed.
Lemma writes_then w1 w2 e1 e2 : writes w1 e1 → writes w2 e2 → writes (w1;; w2) (e1 ++ e2).
Proof.
  intros H1 H2 b. unfold mbind, prog_bind. rewrite (H1 b), H2. cbn. by rewrite app_assoc.
Qed.

Lemma consumed_nil r : consumed r [] r.
Proof. split; [done|]. split; [cbn; lia|done]. Qed.
Lemma consumed_app r e1 r1 e2 r2 : consumed r e1 r1 → consumed r1 e2 r2 → consumed r (e1 ++ e2) r2.
Proof.
  intros (Hb1 & Hc1 & Hd1) (Hb2 & Hc2 & Hd2). rewrite Hb1 in *. split; [done|].
  split; [rewrite length_app; lia|]. by rewrite Hd1, Hd2, app_assoc.
Qed.

Lemma canonical_weaken {A} (m : read A) w (ok ok' : A → Prop) :
  canonical m w ok → (∀ v, ok v → ok' v) → canonical m w ok'.
Proof. intros Hm Hok r v r' [??]%Hm. auto. Qed.

Lemma reader_take_consumed size r l r' :
  reader_take size r = (Ok l, r') → consumed r l r' ∧ N.of_nat (length l) = size.
Proof.
  unfold reader_take. destruct (_ <? _)%N; [done|].
  destruct (N.ltb_spec (N.of_nat (length (bytes r))) (cursor r + size)); [done|].
  intros [= <- <-].
  assert (length (take (N.to_nat size) (drop (N.to_nat (cursor r)) (bytes r))) = N.to_nat size) as Hlen.
  { rewrite length_take, length_drop. lia. }
  split; [|lia]. split; [done|]. split; [cbn; lia|].
  rewrite <-(take_drop (N.to_nat size) (drop (N.to_nat (cursor r)) (bytes r))) at 1. f_equal.
  rewrite drop_drop. f_equal. cbn. lia.
Qed.

Lemma canonical_be (w : nat) :
  canonical (l ← reader_take (N.of_nat w); mret (from_be_bytes l))
    (λ n, write_raw (to_be_bytes w n)) (λ n, n < 256 ^ N.of_nat w)%N.
Proof.
  intros r v r' (l & r0 & [Hl Hlen%Nnat.Nat2N.inj]%reader_take_consumed & [= <- <-])%prog_bind_ok.
  subst w. split; [apply from_be_bytes_bound|]. exists l. split; [|done].
  rewrite to_from_be_bytes. apply writes_raw.
Qed.
Lemma canonical_byte : canonical read_byte write_byte (λ n, n ≤ U8_MAX)%N.
Proof. eapply canonical_weaken; [apply (canonical_be 1)|]. cbn. unfold U8_MAX. lia. Qed.
Lemma canonical_u16 : canonical read_u16 write_u16 (λ n, n ≤ U16_MAX)%N.
Proof. eapply canonical_weaken; [apply (canonical_be 2)|]. cbn. unfold U16_MAX. lia. Qed.
Lemma canonical_u32 : canonical read_u32 write_u32 (λ n, n ≤ U32_MAX)%N.
Proof. eapply canonical_weaken; [apply (canonical_be 4)|]. cbn. unfold U32_MAX. lia. Qed.

Lemma canonical_option_u16 :
  canonical read_option_u16 write_option_u16
    (λ v, match v with Some n => n ≤ U16_MAX | None => True end)%N.
Proof.
  intros r v r' (b & r1 & Hb & Hv)%prog_bind_ok. unfold boolean in Hb.
  apply prog_bind_ok in Hb as (t & r0 & [_ (e & He & Hc)]%canonical_byte & Hb).
  destruct t as [|[]]; try done; injection Hb as <- <-.
  - injection Hv as <- <-. split; [done|]. by exists e.
  - apply prog_bind_ok in Hv as (n & r2 & [Hn (e' & He' & Hc')]%canonical_u16 & [= <- <-]).
    split; [done|]. exists (e ++ e'). split; [by apply writes_then|by eapply consumed_app].
Qed.

(** What an opcode's reader consumes is the rest of the instruction. *)
Definition body (tag : N) (m : read Instruction) : Prop :=
  ∀ r i r', m r = (Ok i, r') →
    instruction_typed i = true ∧
    ∃ enc, writes (write_instruction i) (byte_of_N tag :: enc) ∧ consumed r enc r'.

Lemma body_ret tag i :
  instruction_typed i = true → write_instruction i = write_byte tag → body tag (mret i).
Proof.
  intros Hi Hw r i' r' [= <- <-]. split; [done|]. exists []. rewrite Hw.
  split; [apply writes_raw|apply consumed_nil].
Qed.
Lemma body_reject tag s : body tag (reject s).
Proof. by intros r i r' [=]. Qed.
Lemma body_operand tag make m w ok :
  canonical m w ok → (∀ n, write_instruction (make n) = (write_byte tag;; w n)) →
  (∀ n, ok n → instruction_typed (make n) = true) → body tag (operand make m).
Proof.
  intros Hm Hw Hok r i r' (n & r0 & [Hn (e & He & Hc)]%Hm & [= <- <-])%prog_bind_ok.
  split; [auto|]. exists e. rewrite Hw. split; [|done].
  apply (writes_then _ _ [byte_of_N tag]); [apply writes_raw|done].
Qed.
Lemma body_operands tag make m1 m2 w1 w2 ok1 ok2 :
  canonical m1 w1 ok1 → canonical m2 w2 ok2 →
  (∀ a b, write_instruction (make a b) = (write_byte tag;; w1 a;; w2 b)) →
  (∀ a b, ok1 a → ok2 b → instruction_typed (make a b) = true) → body tag (operands make m1 m2).
Proof.
  intros H1 H2 Hw Hok r i r' (a & r0 & [Ha (e & He & Hc)]%H1 &
    (b & r1 & [Hb (e' & He' & Hc')]%H2 & [= <- <-])%prog_bind_ok)%prog_bind_ok.
  split; [auto|]. exists (e ++ e'). rewrite Hw. split; [|by eapply consumed_app].
  apply (writes_then _ _ [byte_of_N tag]); [apply writes_raw|by apply writes_then].
Qed.
Lemma body_definition tag make :
  (∀ n m, write_instruction (make n m) = (write_byte tag;; write_u32 n;; write_option_u16 m)) →
  (∀ n m, instruction_typed (make n m) =
     ((n <=? U32_MAX)%N && match m with Some m => (m <=? U16_MAX)%N | None => true end)) →
  body tag (definition_operands make).
Proof.
  intros Hw Hok r i r' (a & r0 & [Ha (e & He & Hc)]%canonical_u32 &
    (b & r1 & [Hb (e' & He' & Hc')]%canonical_option_u16 & [= <- <-])%prog_bind_ok)%prog_bind_ok.
  split.
  - rewrite Hok. apply andb_true_iff. split; [by apply N.leb_le|]. destruct b; [by apply N.leb_le|done].
  - exists (e ++ e'). rewrite Hw. split; [|by eapply consumed_app].
    apply (writes_then _ _ [byte_of_N tag]); [apply writes_raw|by apply writes_then].
Qed.

Lemma read_operands_body tag : body tag (read_operands tag).
Proof.
  destruct tag as [|p]; [|do 6 (try destruct p as [p|p|])];
    cbn [read_operands]; unfold retired; try apply body_reject; try (by apply body_ret);
    try (by apply body_definition);
    try (eapply body_operand; [first [apply canonical_u32|apply canonical_u16|apply canonical_byte]
      |done|intros n Hn; by apply N.leb_le]);
    (eapply body_operands; [first [apply canonical_u32|apply canonical_u16]|apply canonical_byte
      |done|intros a b Ha Hb; cbn; by apply andb_true_iff; rewrite !N.leb_le]).
Qed.

(** The instruction codec is a bijection between typed instructions and
    the byte sequences the reader accepts: an instruction is written without
    failing and read back from any position of a slice, and whatever is read is
    an in-range instruction whose encoding is exactly the bytes consumed. *)
Theorem instruction_codec :
  (∀ i, instruction_typed i = true →
     ∃ enc, writes (write_instruction i) enc ∧ reads read_instruction enc i) ∧
  (∀ r i r', read_instruction r = (Ok i, r') →
     instruction_typed i = true ∧ ∃ enc, writes (write_instruction i) enc ∧ consumed r enc r').
Proof.
  split.
  - intros i Hi. assert (∃ enc, writes (write_instruction i) enc) as [enc Henc].
    { destruct i; try destruct metadata; eexists; repeat first [apply writes_raw|apply writes_then]. }
    exists enc. split; [done|]. destruct (codec_instruction i Hi (mkWriter []) _ (Henc _)) as (e & He & Hr).
    cbn in He. subst e. by apply (Hr (length enc)).
  - intros r i r' (tag & r0 & [_ (e & He & Hc)]%canonical_byte & Hi)%prog_bind_ok.
    apply read_operands_body in Hi as [Hi (e' & He' & Hc')]. split; [done|].
    exists (byte_of_N tag :: e'). split; [done|]. apply (consumed_app _ [byte_of_N tag] r0); [|done].
    specialize (He (mkWriter [])). injection He as <-. done.
Qed.

(** ** Functions *)
Definition is_utf8 (s : string) : bool := bool_decide (rust_string s).

Definition option_typed (limit : N) (o : option N) : bool :=
  match o with Some n => (n <=? limit)%N | None => true end.

(** The ranges of the fixed-width fields, and Rust's strings. *)
Definition catch_typed (c : CatchEntry) : bool :=
  is_utf8 (class c) && (binding c <=? U16_MAX)%N && (catch_target c <=? U32_MAX)%N.
Definition handler_typed (e : TryEntry) : bool :=
  (try_start e <=? U32_MAX)%N && (try_end e <=? U32_MAX)%N && (depth e <=? U16_MAX)%N &&
  forallb catch_typed (catches e) && option_typed U32_MAX (finally e) &&
  option_typed U16_MAX (pending_value e) && option_typed U16_MAX (pending_error e).
Definition function_typed (f : FunctionPrototype) : bool :=
  match name f with Some s => is_utf8 s | None => true end &&
  (arity f <=? U16_MAX)%N && (capture_count f <=? U16_MAX)%N && (local_count f <=? U16_MAX)%N &&
  (max_stack f <=? U16_MAX)%N && forallb instruction_typed (code f) &&
  forallb handler_typed (handlers f).

Lemma is_utf8_ok s : is_utf8 s = true ↔ rust_string s.
Proof. apply bool_decide_eq_true. Qed.
Lemma option_typed_ok limit o :
  option_typed limit o = true ↔ match o with Some n => (n ≤ limit)%N | None => True end.
Proof. destruct o; cbn; [apply N.leb_le|done]. Qed.
Ltac typed := unfold catch_typed, handler_typed, function_typed in *;
  rewrite ?andb_true_iff, ?is_utf8_ok, ?N.leb_le, ?option_typed_ok, ?forallb_Forall in *;
  destruct_and?.
Lemma codec_last {A B} w (m : nat → read A) (k : A → read B) x v :
  codec w m x → k x = mret v → codec w (λ fuel, m fuel ≫= k) v.
Proof.
  intros H Hk b b' Hw. destruct (H _ _ Hw) as (e & He & Hr). exists e. split; [done|].
  intros fuel Hfuel. rewrite <-(app_nil_r e). eapply reads_bind; [by apply Hr|]. rewrite Hk. apply reads_ret.
Qed.

(** One field of a codec: the writer [w], its reader and the value written. *)
Ltac field m := eapply (codec_bind _ _ m); [solve [eauto 3 with codec]|cbv beta].
Ltac last_field m := eapply (codec_last _ m); [solve [eauto 3 with codec]|reflexivity].


(** Presence flags. *)
Lemma codec_present {A} w (k : nat → bool → read A) v :
  codec w (λ fuel, k fuel true) v → codec (write_byte 1;; w) (λ fuel, b ← boolean; k fuel b) v.
Proof. intros Hw. by apply (codec_bind (write_bool true) w (λ _, boolean) k true); [apply codec_bool|]. Qed.
Lemma codec_absent {A} (k : nat → bool → read A) v :
  (∀ fuel, k fuel false = mret v) → codec (write_byte 0) (λ fuel, b ← boolean; k fuel b) v.
Proof.
  intros Hk. apply (codec_ext (write_bool false;; mret tt) _ (λ fuel, b ← boolean; k fuel b));
    [|done..]. apply (codec_bind _ _ (λ _, boolean) k false); [apply codec_bool|].
  eapply codec_ext; [apply codec_ret|done|exact Hk].
Qed.

Lemma codec_position p : codec (write_position p) (λ _, read_position) p.
Proof.
  destruct p as [[o l c]|]; cbn.
  - apply (codec_present _ (λ _ (present : bool), if present then _ else _)). cbn.
    do 2 field (λ _ : nat, read_u32). last_field (λ _ : nat, read_u32).
  - by apply (codec_absent (λ _ (present : bool), if present then _ else _)).
Qed.

Lemma each_seq_lookup {A} (w : option A → write ()) (l : list (option A)) s :
  each (λ i, w (mjoin (l !! i))) (seq 0 (length l)) s = each w l s.
Proof.
  assert (∀ l' : list (option A), each (λ i, w (mjoin ((l' ++ l) !! i))) (seq (length l') (length l)) s
    = each w l s) as H; [|exact (H [])].
  revert s. induction l as [|x l IH]; intros s l'; [done|]. cbn [length seq each].
  unfold mbind, prog_bind. rewrite lookup_app_r, Nat.sub_diag by done. cbn.
  destruct (w x s) as [[]s']; [|done].
  specialize (IH s' (l' ++ [x])). rewrite length_app, Nat.add_1_r, <-app_assoc in IH. exact IH.
Qed.

Lemma fold_record m l : foldl record m l = m ++ l.
Proof.
  revert m. induction l as [|p l IH]; intros m; cbn; [by rewrite app_nil_r|].
  rewrite IH. unfold record. by rewrite <-app_assoc.
Qed.

Lemma codec_source_map m : codec (write_source_map m) (λ _, read_source_map) m.
Proof.
  unfold read_source_map. rewrite <-(fold_record [] m) at 2.
  apply (codec_map _ (λ _, many read_position) (foldl record [])).
  eapply codec_ext; [apply (codec_many write_position (λ _, read_position) m)| |done].
  - apply Forall_forall. intros p _. apply codec_position.
  - intros b. unfold write_source_map, write_many, mbind, prog_bind.
    destruct (write_len (length m) b) as [[]b']; [|done]. apply each_seq_lookup.
Qed.

Lemma codec_catch c : catch_typed c = true → codec (write_catch c) (λ _, read_catch) c.
Proof.
  intros Hc. typed. destruct c. unfold write_catch, read_catch. cbn in *.
  field (λ _ : nat, read_string). field (λ _ : nat, read_u16). last_field (λ _ : nat, read_u32).
Qed.

Lemma codec_handler e : handler_typed e = true → codec (write_handler e) (λ _, read_handler) e.
Proof.
  intros He. typed. destruct e as [s t d cs f v g]. unfold write_handler, read_handler. cbn in *.
  assert (codec (write_many write_catch cs) (λ _, many read_catch) cs) as Hcs.
  { apply (codec_many _ (λ _, read_catch)). eapply Forall_impl; [done|apply codec_catch]. }
  do 2 field (λ _ : nat, read_u32). field (λ _ : nat, read_u16). field (λ _ : nat, many read_catch).
  field (λ _ : nat, read_option_u32). field (λ _ : nat, read_option_u16).
  last_field (λ _ : nat, read_option_u16).
Qed.

Lemma codec_function f : function_typed f = true → codec (write_function f) (λ _, read_function 5) f.
Proof.
  intros Hf. typed. destruct f as [n a ar v cc lc ms c sm hs]. unfold write_function, read_function.
  cbn in *.
  assert (codec (write_option_string n) (λ _, read_option_string) n) as Hn.
  { apply codec_option_string. destruct n; [by apply is_utf8_ok|done]. }
  assert (codec (write_many write_instruction c) (λ _, many read_instruction) c) as Hc.
  { apply (codec_many _ (λ _, read_instruction)). eapply Forall_impl; [done|apply codec_instruction]. }
  assert (codec (write_many write_handler hs) (λ _, many read_handler) hs) as Hhs.
  { apply (codec_many _ (λ _, read_handler)). eapply Forall_impl; [done|apply codec_handler]. }
  pose proof (codec_source_map sm).
  field (λ _ : nat, read_option_string). field (λ _ : nat, boolean). field (λ _ : nat, read_u16).
  field (λ _ : nat, boolean). do 3 field (λ _ : nat, read_u16).
  field (λ _ : nat, many read_instruction). field (λ _ : nat, read_source_map).
  last_field (λ _ : nat, many read_handler).
Qed.

(** ** Metadata *)
#[local] Instance name_eq_dec : EqDecision Name.
Proof. solve_decision. Defined.
#[local] Instance result_eq_dec {E A} `{EqDecision E, EqDecision A} : EqDecision (result E A).
Proof. solve_decision. Defined.

(** Values within their types, whose keywords and symbols are the reading of
    their text. *)
Fixpoint metadata_portable (value : MetadataValue) : bool :=
  match value with
  | MRuntime _ | MNil | MBoolean _ | MBigInteger _ => true
  | MNumber z => bool_decide (- 2 ^ 63 ≤ z < 2 ^ 63)%Z
  | MFloat bits => (bits <=? U64_MAX)%N
  | MCharacter c => bool_decide (char_from_u32 c = Some c)
  | MRegex s | MString s => is_utf8 s
  | MTagged tag v => is_utf8 tag && metadata_portable v
  | MKeyword k => is_utf8 (full_text k) && bool_decide (keyword_parse (full_text k) = Ok k)
  | MSymbol s => is_utf8 (full_text s) && bool_decide (symbol_parse (full_text s) = s)
  | MVector vs | MList vs | MSet vs => forallb metadata_portable vs
  | MMap es => forallb (λ e, metadata_portable e.1 && metadata_portable e.2) es
  end.

(** The encoding does not keep big integers that fit an [i64] apart from
    numbers. *)
Fixpoint metadata_normal (value : MetadataValue) : MetadataValue :=
  match value with
  | MBigInteger z => match bigint_to_i64 z with Some n => MNumber n | None => MBigInteger z end
  | MTagged tag v => MTagged tag (metadata_normal v)
  | MVector vs => MVector (metadata_normal <$> vs)
  | MList vs => MList (metadata_normal <$> vs)
  | MSet vs => MSet (metadata_normal <$> vs)
  | MMap es => MMap ((λ e, (metadata_normal e.1, metadata_normal e.2)) <$> es)
  | _ => value
  end.

Lemma codec_tag_only {A} (tag : N) (k : nat → N → read A) (m' : nat → read A) v :
  (tag < 256)%N → (∀ fuel, m' (S fuel) = (t ← read_byte; k fuel t)) →
  (∀ fuel, k fuel tag = mret v) → codec (write_byte tag) m' v.
Proof.
  intros Ht Hm Hk. apply (codec_ext (write_byte tag;; mret tt) _ m'); [|done..].
  eapply codec_tag; [done|exact Hm|]. eapply codec_ext; [apply codec_ret|done|exact Hk].
Qed.

Lemma bigint_to_i64_range z n : bigint_to_i64 z = Some n → (- 2 ^ 63 ≤ n < 2 ^ 63)%Z ∧ z = n.
Proof. unfold bigint_to_i64. case_decide; [|done]. by intros [= <-]. Qed.
Lemma char_from_u32_range c : char_from_u32 c = Some c → (c ≤ U32_MAX)%N.
Proof.
  unfold char_from_u32, U32_MAX. destruct (N.ltb_spec c 55296); [lia|]. cbn.
  destruct (N.leb_spec c 1114111); [lia|]. by rewrite andb_false_r.
Qed.

Section metadata.
Context `{!ArtifactEnv} `{!ArtifactLaws}.
Local Abbreviation tagged_reader := (λ fuel tag, read_metadata_tag (read_metadata_value fuel) tag).

Lemma codec_metadata_list vs :
  Forall (λ v, metadata_portable v = true →
    codec (write_metadata_value v) read_metadata_value (metadata_normal v)) vs →
  forallb metadata_portable vs = true →
  codec (write_many write_metadata_value vs) (λ fuel, many (read_metadata_value fuel))
    (metadata_normal <$> vs).
Proof.
  rewrite forallb_Forall. intros IH Hp. apply codec_many_map, Forall_forall. intros v Hv.
  rewrite Forall_forall in IH, Hp. auto.
Qed.

Lemma codec_metadata_entries es :
  Forall (entry_holds (λ v, metadata_portable v = true →
    codec (write_metadata_value v) read_metadata_value (metadata_normal v))) es →
  forallb (λ e, metadata_portable e.1 && metadata_portable e.2) es = true →
  codec (write_many (λ e, write_metadata_value e.1;; write_metadata_value e.2) es)
    (λ fuel, many (k ← read_metadata_value fuel; v ← read_metadata_value fuel; mret (k, v)))
    ((λ e, (metadata_normal e.1, metadata_normal e.2)) <$> es).
Proof.
  rewrite forallb_Forall. intros IH Hp. apply codec_many_map, Forall_forall. intros [k v] He. cbn.
  rewrite Forall_forall in IH, Hp. destruct (IH _ He) as [Hk Hv]. specialize (Hp _ He).
  cbn in *. apply andb_true_iff in Hp as [Hpk Hpv]. field read_metadata_value.
  by apply (codec_map _ read_metadata_value), Hv.
Qed.

Lemma codec_metadata_value v :
  metadata_portable v = true →
  codec (write_metadata_value v) read_metadata_value (metadata_normal v).
Proof.
  induction v using metadata_nested_ind; intros Hp; cbn [write_metadata_value metadata_normal];
    cbn [metadata_portable] in Hp;
    rewrite ?andb_true_iff, ?is_utf8_ok, ?bool_decide_eq_true, ?N.leb_le in Hp; destruct_and?;
    try apply codec_fail;
    try (by apply (codec_tag_only _ tagged_reader));
    try (apply (codec_tag _ _ tagged_reader); [done|done|cbn]);
    try (last_field (λ _ : nat, read_string)).
  - last_field (λ _ : nat, boolean).
  - last_field (λ _ : nat, read_i64).
  - destruct (is_finite n) eqn:Hf; [|apply codec_fail].
    apply (codec_tag _ _ tagged_reader); [done|done|cbn].
    eapply (codec_last _ (λ _, read_u64)); [eauto with codec|]. by rewrite Hf.
  - destruct (bigint_to_i64 z) as [n|] eqn:Hz; apply (codec_tag _ _ tagged_reader); try done; cbn.
    + apply bigint_to_i64_range in Hz as [Hn _]. last_field (λ _ : nat, read_i64).
    + eapply (codec_last _ (λ _, read_string)); [apply codec_string, bigint_text_string|].
      rewrite bigint_parse_text.
      trans (mret (M:=read) (match bigint_to_i64 z with Some n => MNumber n | None => MBigInteger z end));
        [reflexivity|by rewrite Hz].
  - pose proof (char_from_u32_range n ltac:(done)).
    eapply (codec_last _ (λ _, read_u32)); [eauto with codec|].
    match goal with H : char_from_u32 n = _ |- _ => by rewrite H end.
  - field (λ _ : nat, read_string). apply (codec_map _ read_metadata_value). auto.
  - eapply (codec_last _ (λ _, read_string)); [eauto with codec|]. unfold keyword_from.
    match goal with H : keyword_parse _ = _ |- _ => by rewrite H end.
  - eapply (codec_last _ (λ _, read_string)); [eauto with codec|].
    match goal with H : symbol_parse _ = _ |- _ => by rewrite H end.
  - by apply (codec_map _ (λ fuel, many (read_metadata_value fuel))), codec_metadata_list.
  - by apply (codec_map _ (λ fuel, many (read_metadata_value fuel))), codec_metadata_list.
  - by apply (codec_map _ (λ fuel, many (read_metadata_value fuel))), codec_metadata_list.
  - by apply (codec_map _ (λ fuel, many (k ← read_metadata_value fuel;
      v ← read_metadata_value fuel; mret (k, v)))), codec_metadata_entries.
Qed.

Definition entry_portable (e : MetadataValue * MetadataValue) : bool :=
  metadata_portable e.1 && metadata_portable e.2.
Definition normal_entry (e : MetadataValue * MetadataValue) : MetadataValue * MetadataValue :=
  (metadata_normal e.1, metadata_normal e.2).

Lemma codec_metadata m :
  forallb entry_portable m = true → codec (write_metadata m) read_metadata (normal_entry <$> m).
Proof.
  intros Hm. apply codec_metadata_entries; [|done]. apply Forall_forall.
  intros [k v] _. split; apply codec_metadata_value.
Qed.
End metadata.

(** ** Schemas *)
Section schemas.
Context `{!ArtifactEnv}.

(** A form whose text the reader reads back as the form. *)
Definition form_reads_back (f : Form) : Prop :=
  rust_string (form_text f) ∧ form_parse (form_text f) = Ok f.

(** Everything in a schema that is encoded as text. *)
Fixpoint schema_names (schema : SchemaType) : list string :=
  let in_field f := match f with mkSchemaField _ _ t => schema_names t end in
  let in_arity a :=
    match a with
    | mkFunctionSchema fixed rest output =>
        flat_map schema_names fixed ++
        match rest with Some t => schema_names t | None => [] end ++ schema_names output
    end in
  match schema with
  | Primitive name | Reference name => [name]
  | Union types | Tuple types => flat_map schema_names types
  | Vector item | SetOf item => schema_names item
  | MapOf fields => flat_map in_field fields
  | Struct name _ fields => name :: flat_map in_field fields
  | WithProperties schema _ => schema_names schema
  | Function_ arities => flat_map in_arity arities
  | Enum _ | Unknown _ => []
  | Extension head _ => [head]
  end.
Fixpoint schema_form_list (schema : SchemaType) : list Form :=
  let in_field f :=
    match f with
    | mkSchemaField name properties t =>
        name :: match properties with Some p => [p] | None => [] end ++ schema_form_list t
    end in
  let in_arity a :=
    match a with
    | mkFunctionSchema fixed rest output =>
        flat_map schema_form_list fixed ++
        match rest with Some t => schema_form_list t | None => [] end ++ schema_form_list output
    end in
  match schema with
  | Primitive _ | Reference _ => []
  | Union types | Tuple types => flat_map schema_form_list types
  | Vector item | SetOf item => schema_form_list item
  | MapOf fields | Struct _ _ fields => flat_map in_field fields
  | WithProperties schema properties => properties :: schema_form_list schema
  | Function_ arities => flat_map in_arity arities
  | Enum values | Extension _ values => values
  | Unknown surface => [surface]
  end.

Definition schema_portable (schema : SchemaType) : Prop :=
  Forall rust_string (schema_names schema) ∧ Forall form_reads_back (schema_form_list schema).

Local Abbreviation tagged_reader := (λ fuel tag, read_schema_tag (read_schema_type fuel) tag).
Local Abbreviation schema_codec t := (codec (write_schema_type t) read_schema_type t).

Lemma codec_schema_form f : form_reads_back f → codec (write_schema_form f) (λ _, read_schema_form) f.
Proof.
  intros [Hs Hf]. eapply (codec_last _ (λ _, read_string)); [eauto with codec|]. by rewrite Hf.
Qed.
Lemma codec_schema_forms l :
  Forall form_reads_back l → codec (write_schema_forms l) (λ _, read_schema_forms) l.
Proof.
  intros Hl. apply (codec_many _ (λ _, read_schema_form)). eapply Forall_impl; [done|apply codec_schema_form].
Qed.
#[local] Hint Resolve codec_schema_form codec_schema_forms : codec.

Lemma codec_properties aware properties :
  match properties with Some p => form_reads_back p ∧ aware = true | None => True end →
  codec (write_properties aware properties) (λ _, read_properties aware) properties.
Proof.
  intros Hp. destruct aware; cbn; [|destruct properties; [by destruct Hp|apply codec_ret]].
  destruct properties as [p|]; [destruct Hp as [Hp _]|].
  - apply (codec_present _ (λ _ (present : bool), if present then _ else _)).
    last_field (λ _ : nat, read_schema_form).
  - by apply (codec_absent (λ _ (present : bool), if present then _ else _)).
Qed.
#[local] Hint Resolve codec_properties : codec.

Definition write_field (aware : bool) (field : SchemaField) : write () :=
  match field with
  | mkSchemaField name properties value_type =>
      write_schema_form name;; write_properties aware properties;; write_schema_type value_type
  end.

Lemma codec_fields fields :
  Forall (field_holds (λ t, schema_portable t → schema_codec t)) fields →
  schema_portable (MapOf fields) →
  codec (write_many (write_field (property_aware fields)) fields)
    (λ fuel, many (read_field (read_schema_type fuel) (property_aware fields))) fields.
Proof.
  intros IH [Hn Hf]. cbn in Hn, Hf. rewrite Forall_flat_map in Hn, Hf.
  apply (codec_many _ (λ fuel, read_field (read_schema_type fuel) (property_aware fields))),
    Forall_forall. intros [name properties t] Hin.
  assert (match properties with Some _ => property_aware fields = true | None => True end) as Haware.
  { destruct properties as [p|]; [|done]. apply existsb_exists.
    exists (mkSchemaField name (Some p) t). split; [by apply list_elem_of_In|done]. }
  rewrite Forall_forall in IH, Hn, Hf. specialize (IH _ Hin). specialize (Hn _ Hin).
  specialize (Hf _ Hin). cbn in IH, Hn, Hf. apply Forall_cons in Hf as [Hname [Hprop Ht]%Forall_app].
  assert (schema_codec t) as Hc by (apply IH; by split).
  cbn. unfold read_field. field (λ _ : nat, read_schema_form).
  eapply (codec_bind _ _ (λ _, read_properties (property_aware fields))); [apply codec_properties|].
  { destruct properties; [|done]. split; [|done]. by apply Forall_cons in Hprop as [? _]. }
  cbv beta. last_field read_schema_type.
Qed.

Definition write_arity (arity : FunctionSchema) : write () :=
  match arity with
  | mkFunctionSchema fixed rest output =>
      write_many write_schema_type fixed;;
      match rest with
      | Some rest => write_byte 1;; write_schema_type rest
      | None => write_byte 0
      end;;
      write_schema_type output
  end.

Lemma codec_types types :
  Forall (λ t, schema_portable t → schema_codec t) types →
  Forall rust_string (flat_map schema_names types) →
  Forall form_reads_back (flat_map schema_form_list types) →
  codec (write_many write_schema_type types) (λ fuel, many (read_schema_type fuel)) types.
Proof.
  rewrite !Forall_flat_map. intros IH Hn Hf. apply codec_many, Forall_forall. intros t Ht.
  rewrite Forall_forall in IH, Hn, Hf. apply IH; [done|]. split; auto.
Qed.

Lemma codec_arities arities :
  Forall (arity_holds (λ t, schema_portable t → schema_codec t)) arities →
  schema_portable (Function_ arities) →
  codec (write_many write_arity arities) (λ fuel, many (read_arity (read_schema_type fuel))) arities.
Proof.
  intros IH [Hn Hf]. cbn in Hn, Hf. rewrite Forall_flat_map in Hn, Hf.
  apply (codec_many _ (λ fuel, read_arity (read_schema_type fuel))), Forall_forall.
  intros [fixed rest output] Hin. rewrite Forall_forall in IH, Hn, Hf.
  destruct (IH _ Hin) as (Hfixed & Hrest & Hout). specialize (Hn _ Hin). specialize (Hf _ Hin).
  cbn in Hfixed, Hrest, Hout, Hn, Hf. rewrite !Forall_app in Hn. rewrite !Forall_app in Hf. destruct_and!.
  assert (codec (write_many write_schema_type fixed) (λ fuel, many (read_schema_type fuel)) fixed)
    by by apply codec_types.
  assert (schema_codec output) by (apply Hout; by split).
  unfold read_arity, write_arity. field (λ fuel, many (read_schema_type fuel)).
  eapply (codec_bind _ _ (λ fuel, present ← boolean;
    if present : bool then rest ← read_schema_type fuel; mret (Some rest) else mret None) _ rest);
    [apply (codec_option write_schema_type read_schema_type)|].
  { intros t ->. apply Hrest. by split. }
  cbv beta. last_field read_schema_type.
Qed.

Lemma codec_schema_type t : schema_portable t → schema_codec t.
Proof.
  induction t using schema_nested_ind; intros Hp; cbn [write_schema_type];
    pose proof Hp as [Hn Hf]; cbn [schema_names schema_form_list] in Hn, Hf;
    rewrite ?Forall_cons in Hn; rewrite ?Forall_cons in Hf; destruct_and?;
    try (apply (codec_tag _ _ tagged_reader); [by try case_match|done|cbn]);
    try (last_field (λ _ : nat, read_string));
    try (last_field (λ _ : nat, read_schema_forms));
    try (last_field (λ _ : nat, read_schema_form));
    try (apply (codec_map _ (λ fuel, many (read_schema_type fuel))); by apply codec_types);
    try (apply (codec_map _ read_schema_type); by auto using conj).
  - pose proof (codec_fields fields ltac:(done) Hp) as Hfields.
    destruct (property_aware fields);
      eapply (codec_map _ (λ fuel, many (read_field (read_schema_type fuel) _))); exact Hfields.
  - field (λ _ : nat, read_string). do 2 field (λ _ : nat, boolean).
    apply (codec_map _ (λ fuel, many (read_field (read_schema_type fuel) _))).
    apply (codec_fields fields); [done|]. by split.
  - eapply (codec_bind _ _ read_schema_type); [by apply IHt; split|]. cbv beta.
    last_field (λ _ : nat, read_schema_form).
  - apply (codec_map _ (λ fuel, many (read_arity (read_schema_type fuel)))).
    by apply codec_arities.
  - field (λ _ : nat, read_string). last_field (λ _ : nat, read_schema_forms).
Qed.

(** *** Schema maps *)
Lemma insert_schemas_ok entries schemas :
  NoDup entries.*1 → (∀ name, name ∈ entries.*1 → schemas !! name = None) →
  insert_schemas schemas entries = Ok (list_to_map entries ∪ schemas).
Proof.
  revert schemas. induction entries as [|[name schema] entries IH]; intros schemas Hdup Hnone;
    cbn [insert_schemas].
  { by rewrite list_to_map_nil, map_empty_union. }
  rewrite fmap_cons in *. cbn [fst] in *.
  apply NoDup_cons in Hdup as [Hname Hdup]. rewrite Hnone by left. rewrite IH; [|done|].
  - rewrite list_to_map_cons, <-insert_union_l, insert_union_r; [done|].
    by apply not_elem_of_list_to_map_1.
  - intros n Hn. rewrite lookup_insert_ne by (intros ->; done). apply Hnone. by right.
Qed.

Lemma sorted_names_permutation schemas : sorted_names schemas ≡ₚ (map_to_list schemas).*1.
Proof. apply merge_sort_Permutation. Qed.

(** The entries in the order they are written. *)
Definition sorted_entries (schemas : gmap string SchemaType) : list (string * SchemaType) :=
  (λ name, (name, default (Unknown FNil) (schemas !! name))) <$> sorted_names schemas.

Lemma sorted_entries_map schemas : insert_schemas ∅ (sorted_entries schemas) = Ok schemas.
Proof.
  assert (NoDup (sorted_names schemas)) as Hdup.
  { rewrite sorted_names_permutation. apply NoDup_fst_map_to_list. }
  assert ((sorted_entries schemas).*1 = sorted_names schemas) as Hfst.
  { unfold sorted_entries. rewrite <-list_fmap_compose. apply list_fmap_id. }
  rewrite insert_schemas_ok; [|by rewrite Hfst|intros; apply lookup_empty].
  f_equal. rewrite map_union_empty. apply map_eq. intros name. apply option_eq. intros t.
  rewrite <-elem_of_list_to_map by (by rewrite Hfst). unfold sorted_entries.
  rewrite list_elem_of_fmap. setoid_rewrite sorted_names_permutation. split.
  - intros (n & [= -> ->] & ([n' t'] & -> & Ht)%list_elem_of_fmap). cbn.
    apply elem_of_map_to_list in Ht. by rewrite Ht.
  - intros Ht. exists name. rewrite Ht. split; [done|]. apply list_elem_of_fmap.
    exists (name, t). split; [done|]. by apply elem_of_map_to_list.
Qed.

Definition schema_map_portable (schemas : gmap string SchemaType) : Prop :=
  ∀ name t, schemas !! name = Some t → rust_string name ∧ schema_portable t.

Lemma codec_schema_map schemas :
  schema_map_portable schemas → codec (write_schema_map schemas) read_schema_map schemas.
Proof.
  intros Hp. eapply (codec_last _ (λ fuel, many (name ← read_string; schema ← read_schema_type fuel;
    mret (name, schema))) _ (sorted_entries schemas)).
  - apply codec_many_map, Forall_forall. intros name Hname.
    rewrite sorted_names_permutation in Hname. apply list_elem_of_fmap in Hname as ([n t] & -> & Ht).
    apply elem_of_map_to_list in Ht. cbn. rewrite Ht. destruct (Hp _ _ Ht) as [Hs Hpt].
    apply codec_schema_type in Hpt. cbn. field (λ _ : nat, read_string).
    last_field read_schema_type.
  - by rewrite sorted_entries_map.
Qed.
End schemas.

(** ** Well-behaved readers

    A reader never touches the bytes, and panics only on an invalid keyword. *)
Section behaved.
Context `{!ArtifactEnv}.

Definition keyword_panic (s : string) : Prop :=
  ∃ full e, keyword_validate full = Err e ∧ s = "valid keyword: " +:+ e.

Definition behaved {A} (m : read A) : Prop :=
  ∀ r, bytes (m r).2 = bytes r ∧
       match (m r).1 with Err (Panicked s) => keyword_panic s | _ => True end.

Lemma behaved_ret {A} (v : A) : behaved (mret v).
Proof. by intros r. Qed.
Lemma behaved_reject {A} s : behaved (@reject A s).
Proof. by intros r. Qed.
Lemma behaved_fail {A} s : behaved (fail (Failed s) : read A).
Proof. by intros r. Qed.
Lemma behaved_bind {A B} (m : read A) (k : A → read B) :
  behaved m → (∀ v, behaved (k v)) → behaved (m ≫= k).
Proof.
  intros Hm Hk r. unfold mbind, prog_bind. destruct (Hm r) as [Hb Hp].
  destruct (m r) as [[v|e] r']; cbn in *; [|done]. destruct (Hk v r') as [Hb' Hp']. by rewrite Hb'.
Qed.
Lemma behaved_if {A} (b : bool) (m1 m2 : read A) : behaved m1 → behaved m2 → behaved (if b then m1 else m2).
Proof. by destruct b. Qed.
Lemma behaved_lift {A} (o : result string A) (f : string → string) :
  behaved (lift (map_err (λ e, Failed (f e)) o)).
Proof. by intros r; destruct o. Qed.
Lemma behaved_ok_or {A} (o : option A) s : behaved (lift (ok_or o (Failed s))).
Proof. by intros r; destruct o. Qed.
Lemma behaved_keyword full : behaved (lift (keyword_from full)).
Proof.
  intros r. split; [done|]. unfold keyword_from, keyword_parse. cbn.
  destruct (keyword_validate full) as [[]|e] eqn:He; [done|]. cbn. by exists full, e.
Qed.
Lemma behaved_take n : behaved (reader_take n).
Proof. intros r. unfold reader_take. by repeat case_match. Qed.
Lemma behaved_finish : behaved finish.
Proof. intros r. unfold finish. by case_match. Qed.
Lemma behaved_times {A} n (m : read A) : behaved m → behaved (times n m).
Proof.
  intros Hm. induction n as [|n IH]; cbn [times]; [apply behaved_ret|].
  apply behaved_bind; [done|]. intros x. apply behaved_bind; [done|]. intros xs. apply behaved_ret.
Qed.

Create HintDb behaved discriminated.
Local Hint Resolve behaved_ret behaved_reject behaved_fail behaved_bind behaved_if behaved_lift
  behaved_ok_or behaved_keyword behaved_take behaved_finish behaved_times : behaved.
Local Hint Extern 0 (behaved (match ?x with _ => _ end)) => destruct x : behaved.
Local Hint Extern 1 (behaved (operand _ _)) => unfold operand : behaved.
Local Hint Extern 1 (behaved (operands _ _ _)) => unfold operands : behaved.
Local Hint Extern 1 (behaved (retired _ _)) => unfold retired : behaved.

Lemma behaved_byte : behaved read_byte.
Proof. apply behaved_bind; [apply behaved_take|intros; apply behaved_ret]. Qed.
Lemma behaved_boolean : behaved boolean.
Proof. apply behaved_bind; [apply behaved_byte|]. intros [|[]]; auto with behaved. Qed.
Lemma behaved_u16 : behaved read_u16.
Proof. apply behaved_bind; auto with behaved. Qed.
Lemma behaved_u32 : behaved read_u32.
Proof. apply behaved_bind; auto with behaved. Qed.
Lemma behaved_u64 : behaved read_u64.
Proof. apply behaved_bind; auto with behaved. Qed.
Lemma behaved_i64 : behaved read_i64.
Proof. apply behaved_bind; auto with behaved. Qed.
Local Hint Resolve behaved_byte behaved_boolean behaved_u16 behaved_u32 behaved_u64 behaved_i64 : behaved.
Lemma behaved_bytes : behaved read_bytes.
Proof. apply behaved_bind; auto with behaved. Qed.
Local Hint Resolve behaved_bytes : behaved.
Lemma behaved_string : behaved read_string.
Proof. apply behaved_bind; auto with behaved. Qed.
Lemma behaved_many {A} (m : read A) : behaved m → behaved (many m).
Proof. intros Hm. apply behaved_bind; auto with behaved. Qed.
Local Hint Resolve behaved_string behaved_many : behaved.
Lemma behaved_option_string : behaved read_option_string.
Proof. apply behaved_bind; auto with behaved. Qed.
Lemma behaved_option_u16 : behaved read_option_u16.
Proof. apply behaved_bind; auto with behaved. Qed.
Lemma behaved_option_u32 : behaved read_option_u32.
Proof. apply behaved_bind; auto with behaved. Qed.
Local Hint Resolve behaved_option_string behaved_option_u16 behaved_option_u32 : behaved.

Lemma behaved_instruction : behaved read_instruction.
Proof.
  apply behaved_bind; [auto with behaved|]. intros tag. unfold read_operands, definition_operands.
  auto 60 with behaved.
Qed.
Local Hint Resolve behaved_instruction : behaved.

Ltac behaves := repeat (apply behaved_bind; [solve [auto with behaved]|intros ?]); auto with behaved.

Lemma behaved_position : behaved read_position.
Proof. unfold read_position. behaves. Qed.
Local Hint Resolve behaved_position : behaved.
Lemma behaved_source_map : behaved read_source_map.
Proof. unfold read_source_map. behaves. Qed.
Lemma behaved_catch : behaved read_catch.
Proof. unfold read_catch. behaves. Qed.
Local Hint Resolve behaved_source_map behaved_catch : behaved.
Lemma behaved_handler : behaved read_handler.
Proof. unfold read_handler. behaves. Qed.
Local Hint Resolve behaved_handler : behaved.
Lemma behaved_function version : behaved (read_function version).
Proof. unfold read_function. behaves. Qed.
Lemma behaved_constant : behaved read_constant.
Proof. unfold read_constant. behaves. Qed.
Lemma behaved_schema_form : behaved read_schema_form.
Proof. unfold read_schema_form. behaves. Qed.
Local Hint Resolve behaved_function behaved_constant behaved_schema_form : behaved.
Lemma behaved_schema_forms : behaved read_schema_forms.
Proof. apply behaved_many, behaved_schema_form. Qed.
Lemma behaved_properties aware : behaved (read_properties aware).
Proof. unfold read_properties. destruct aware; behaves. Qed.
Local Hint Resolve behaved_schema_forms behaved_properties : behaved.

Lemma behaved_metadata_value fuel : behaved (read_metadata_value fuel).
Proof.
  induction fuel as [|fuel IH]; cbn [read_metadata_value]; [auto with behaved|].
  apply behaved_bind; [auto with behaved|]. intros tag. unfold read_metadata_tag.
  auto 60 with behaved.
Qed.
Local Hint Resolve behaved_metadata_value : behaved.

Lemma behaved_field self aware : behaved self → behaved (read_field self aware).
Proof. intros Hs. unfold read_field. behaves. Qed.
Lemma behaved_arity self : behaved self → behaved (read_arity self).
Proof.
  intros Hs. unfold read_arity. apply behaved_bind; [auto with behaved|intros fixed].
  apply behaved_bind; [apply behaved_bind; auto with behaved|intros o]. behaves.
Qed.
Local Hint Resolve behaved_field behaved_arity : behaved.

Lemma behaved_schema_type fuel : behaved (read_schema_type fuel).
Proof.
  induction fuel as [|fuel IH]; cbn [read_schema_type]; [auto with behaved|].
  apply behaved_bind; [auto with behaved|]. intros tag. unfold read_schema_tag.
  auto 60 with behaved.
Qed.
Local Hint Resolve behaved_schema_type : behaved.

Lemma behaved_insert schemas entries : behaved (lift (insert_schemas schemas entries)).
Proof.
  intros r. split; [done|]. cbn. revert schemas.
  induction entries as [|[name t] entries IH]; intros schemas; cbn; [done|]. destruct (schemas !! name); [done|apply IH].
Qed.
Lemma behaved_schema_map fuel : behaved (read_schema_map fuel).
Proof.
  apply behaved_bind; [|intros; apply behaved_insert]. apply behaved_many. behaves.
Qed.
Lemma behaved_metadata fuel : behaved (read_metadata fuel).
Proof. apply behaved_many. behaves. Qed.
Local Hint Resolve behaved_schema_map behaved_metadata : behaved.
Lemma behaved_program_fields fuel : behaved (read_program_fields fuel).
Proof. unfold read_program_fields. behaves. Qed.
Lemma behaved_program fuel : behaved (read_program fuel).
Proof. unfold read_program. pose proof (behaved_program_fields fuel). behaves. Qed.
End behaved.

(** ** Programs *)
Section programs.
Context {env : ArtifactEnv} {laws : ArtifactLaws} {value_forms : ValueForms}.

(** A constant the value codec gives back. *)
Definition constant_portable (v : Value) : Prop :=
  ∀ l, hta_encode v = Ok l → hta_decode_canonical l = Ok v.

(** A program within the ranges of its fixed-width fields whose texts, values
    and forms the lower codecs give back. *)
Record program_portable (p : Program) : Prop := {
  pp_entry : (entry p ≤ U16_MAX)%N;
  pp_namespace : match namespace p with Some s => rust_string s | None => True end;
  pp_constants : Forall constant_portable (constants p);
  pp_metadata : Forall (λ m, forallb entry_portable m = true) (var_metadata p);
  pp_schemas : schema_map_portable (schema_types p);
  pp_function_types : schema_map_portable (function_types p);
  pp_inferred : schema_map_portable (inferred_function_types p);
  pp_functions : Forall (λ f, function_typed f = true) (functions p);
}.

Definition normal_table (m : Metadata) : Metadata := normal_entry <$> m.

(** What decoding gives back: Var metadata in normal form. *)
Definition program_normal (p : Program) : Program :=
  mkProgram (namespace p) (constants p) (normal_table <$> var_metadata p)
    (schema_types p) (function_types p) (inferred_function_types p) (functions p) (entry p).

Lemma codec_constant v : constant_portable v → codec (write_constant v) (λ _, read_constant) v.
Proof.
  intros Hv b b' (l & b0 & Hl & Hw)%prog_bind_ok. unfold lift in Hl. injection Hl as Hl <-.
  apply map_err_ok in Hl. eapply (codec_last _ (λ _, read_bytes) _ l); [apply codec_bytes| |exact Hw].
  by rewrite (Hv l Hl).
Qed.

Lemma codec_program p :
  program_portable p → codec (write_program p) read_program_fields (program_normal p).
Proof.
  intros [Hentry Hns Hconsts Hmeta Hsch Hft Hift Hfuns]. unfold write_program, read_program_fields.
  pose proof (codec_schema_map _ Hsch). pose proof (codec_schema_map _ Hft).
  pose proof (codec_schema_map _ Hift).
  assert (codec (write_many write_constant (constants p)) (λ _, many read_constant) (constants p)).
  { apply (codec_many _ (λ _, read_constant)). eapply Forall_impl; [done|apply codec_constant]. }
  assert (codec (write_many write_metadata (var_metadata p)) (λ fuel, many (read_metadata fuel))
    (normal_table <$> var_metadata p)).
  { apply codec_many_map. eapply Forall_impl; [done|]. intros m Hm. by apply codec_metadata. }
  assert (codec (write_many write_function (functions p)) (λ _, many (read_function 5)) (functions p)).
  { apply (codec_many _ (λ _, read_function 5)). eapply Forall_impl; [done|apply codec_function]. }
  field (λ _ : nat, read_u16). field (λ _ : nat, read_option_string).
  field (λ _ : nat, many read_constant). field (λ fuel, many (read_metadata fuel)).
  do 3 field read_schema_map. last_field (λ _ : nat, many (read_function 5)).
Qed.

(** The written bytes are read back by the whole program reader. *)
Lemma read_program_written p w fuel :
  program_portable p → write_program p (mkWriter []) = (Ok tt, w) →
  (N.of_nat (length (wbytes w)) ≤ ISIZE_MAX)%N → length (wbytes w) ≤ fuel →
  (read_program fuel (reader_new (wbytes w))).1 = Ok (program_normal p).
Proof.
  intros Hp Hw Hlen Hfuel. destruct (codec_program p Hp _ _ Hw) as (e & He & Hr). cbn in He.
  rewrite He in *. specialize (Hr fuel Hfuel [] []). rewrite app_nil_r in Hr.
  cbn [app length] in Hr. change (N.of_nat 0) with 0%N in Hr.
  unfold read_program, reader_new, mbind, prog_bind. rewrite Hr by done. unfold finish. cbn.
  by rewrite N.eqb_refl.
Qed.

(** Validation does not look into the metadata tables. *)
Lemma validate_normal p : validate p = Ok tt → validate (program_normal p) = Ok tt.
Proof.
  rewrite !validate_spec. intros [Hc He Hf]. split; [done|done|].
  intros index f Hi. destruct (Hf index f Hi) as [hs [Ha Hm Hcode Hh Hr Hmax Ht]]. exists hs.
  split; try done. destruct Hh as [H1 H2 H3 H4 H5 H6]. split; try done.
  intros ip i Hip. specialize (H4 ip i Hip). destruct i; try done; cbn in H4 |- *;
    destruct H4 as [H4 H4m]; (split; [done|]); destruct metadata; try done;
    rewrite in_bounds_lt in *; by rewrite length_fmap.
Qed.

Lemma check_program_ok p : check_program p = Ok tt ↔ validate p = Ok tt.
Proof. unfold check_program. by rewrite map_err_ok. Qed.

Lemma length_MAGIC : length MAGIC = 4.
Proof. reflexivity. Qed.

(** [decode_program] on a well-framed input. *)
Lemma decode_framed payload :
  (N.of_nat (length payload) ≤ U32_MAX)%N →
  decode_program (MAGIC ++ to_be_bytes 4 (N.of_nat (length payload)) ++ payload ++ sha256 payload) =
  (program ← (read_program (decode_fuel payload) (reader_new payload)).1;
   check_program program;; Ok program).
Proof.
  intros Hlen. unfold decode_program.
  assert (from_be_bytes (to_be_bytes 4 (N.of_nat (length payload))) = N.of_nat (length payload)) as Hbe.
  { apply from_to_be_bytes. unfold U32_MAX in Hlen. cbn. lia. }
  pose proof (length_to_be_bytes 4 (N.of_nat (length payload))) as Hlen4.
  set (size := to_be_bytes 4 _) in *. pose proof length_MAGIC as Hmagic.
  rewrite !length_app, (sha256_length payload), Hmagic, Hlen4.
  rewrite take_app_length', (bool_decide_eq_true_2 (MAGIC = MAGIC)) by done. cbn [negb].
  rewrite (proj2 (Nat.ltb_ge _ _)) by lia.
  rewrite drop_app_length', take_app_length', Hbe, Nat2N.id by done.
  rewrite (proj2 (Nat.eqb_eq _ _)) by lia. cbn [negb].
  assert (drop 8 (MAGIC ++ size ++ payload ++ sha256 payload) = payload ++ sha256 payload) as Hdrop.
  { rewrite app_assoc. apply drop_app_length'. rewrite length_app. lia. }
  assert (drop (8 + length payload) (MAGIC ++ size ++ payload ++ sha256 payload) = sha256 payload) as ->.
  { by rewrite <-drop_drop, Hdrop, drop_app_length. }
  rewrite Hdrop, take_app_length, bool_decide_eq_true_2 by done. done.
Qed.

(** C4. Decoding what was encoded gives the program back, with big integers in
    its Var metadata normalised: the artifact of a portable program is accepted
    whenever the encoder produced it. *)
Theorem program_roundtrip p artifact :
  program_portable p → encode_program p = Ok artifact →
  decode_program artifact = Ok (program_normal p).
Proof.
  unfold encode_program. intros Hp ([] & Hv%check_program_ok & Hw)%result_bind_ok.
  destruct (write_program p (mkWriter [])) as [[[]|] w] eqn:Hwrite; [|done].
  destruct (N.leb_spec (N.of_nat (length (wbytes w))) U32_MAX); [|done].
  match type of Hw with Ok ?x = Ok ?y => assert (y = x) as -> by congruence end.
  rewrite decode_framed by done.
  rewrite (read_program_written p w); [|done|done|unfold ISIZE_MAX, U32_MAX in *; lia|unfold decode_fuel; lia].
  cbn. rewrite (proj2 (check_program_ok _)); [done|]. by apply validate_normal.
Qed.

(** C5. A decoded program is authenticated and valid: the input is the magic,
    the length, the payload and the digest of the payload and nothing else, the
    payload was read to its end, and the program is one [validate] accepts. *)
Theorem decode_authentic input p :
  decode_program input = Ok p →
  ∃ payload, input = MAGIC ++ to_be_bytes 4 (N.of_nat (length payload)) ++ payload ++ sha256 payload ∧
    (N.of_nat (length payload) ≤ U32_MAX)%N ∧ valid_program p ∧
    read_program (decode_fuel payload) (reader_new payload) =
      (Ok p, mkReader payload (N.of_nat (length payload))).
Proof.
  unfold decode_program. destruct (bool_decide_reflect (take 4 input = MAGIC)) as [Hmagic|]; [|done].
  cbn [negb]. destruct (Nat.ltb_spec (length input) (8 + DIGEST)); [done|].
  set (n := N.to_nat _). destruct (Nat.eqb_spec (8 + n + DIGEST) (length input)) as [Hlen|]; [|done].
  cbn [negb]. case_bool_decide as Hsha; [|done]. cbn [negb]. set (payload := take n (drop 8 input)) in *.
  intros (q & Hq & ([] & Hv%check_program_ok%validate_spec & [= ->])%result_bind_ok)%result_bind_ok.
  assert (length payload = n) as Hn by (unfold payload; rewrite length_take, length_drop; lia).
  pose proof (from_be_bytes_bound (take 4 (drop 4 input))) as Hbound.
  assert (length (take 4 (drop 4 input)) = 4) as H4 by (rewrite length_take, length_drop; lia).
  rewrite H4 in Hbound. cbn in Hbound. exists payload. split_and!; [|unfold U32_MAX; lia|done|].
  - rewrite Hn. unfold n at 1. rewrite N2Nat.id. rewrite <-H4 at 1. rewrite to_from_be_bytes, Hsha.
    rewrite <-Hmagic. unfold payload. rewrite <-(take_drop 4 input) at 1. f_equal.
    rewrite <-(take_drop 4 (drop 4 input)) at 1. f_equal. rewrite drop_drop.
    rewrite <-(drop_drop input n 8). by rewrite take_drop.
  - destruct (read_program _ _) as [[q|e] r] eqn:Hr; [|done]. cbn in Hq. injection Hq as ->.
    f_equal. pose proof (behaved_program (decode_fuel payload) (reader_new payload)) as [Hb _].
    rewrite Hr in Hb. cbn in Hb. destruct r as [l c]. cbn in Hb. subst l. f_equal.
    unfold read_program in Hr.
    apply prog_bind_ok in Hr as (q & r0 & _ & ([] & r1 & Hfin & [= _ ->])%prog_bind_ok).
    unfold finish in Hfin. destruct (N.eqb_spec (cursor r0) (N.of_nat (length (bytes r0)))); [|done].
    injection Hfin as ->. done.
Qed.

(** Decoding answers with a program or an error message for every input but
    those it panics on, and every such panic is a keyword of the payload that
    [Keyword::parse] rejects: no truncated, corrupted or malformed input
    panics in any other way. *)
Theorem decode_panics_only_on_keywords input s :
  decode_program input = Err (Panicked s) → keyword_panic s.
Proof.
  unfold decode_program. do 4 (case_match; [done|]).
  match goal with |- context [read_program ?fuel ?r] =>
    destruct (behaved_program fuel r) as [_ Hp]; destruct (read_program fuel r) as [[p|e] r'] end;
    cbn in *; [|by intros [= ->]].
  unfold check_program. pose proof (validate_benign p) as Hb.
  destruct (validate p) as [[]|e]; [done|]. by destruct (Hb e eq_refl) as [v ->].
Qed.
End programs.

(** ** Fuel *)
Section fuel.
Context {env : ArtifactEnv}.

Lemma steady_lift {A} n (o : result failure A) : steady n (λ _, lift o).
Proof. apply steady_const. by intros r v r' [= _ <-]. Qed.
Lemma steady_reject {A} n s : steady n (λ _, @reject A s).
Proof. apply steady_fail. Qed.

Ltac steadies := repeat first
  [ apply steady_ret | apply steady_reject | apply steady_fail | apply steady_lift
  | apply steady_byte | apply steady_u32 | apply steady_take | eassumption
  | apply steady_many | apply steady_if
  | match goal with
    | |- steady ?n (λ fuel, mbind (@?k fuel) (@?m fuel)) => apply (steady_bind n m k); [|intros ?]
    | |- steady _ (λ _, match ?x with _ => _ end) => destruct x
    end ].

Lemma steady_boolean n : steady n (λ _, boolean).
Proof. unfold boolean. steadies. Qed.
Lemma steady_be n w : steady n (λ _, l ← reader_take w; mret (from_be_bytes l)).
Proof. steadies. Qed.
Lemma steady_bytes n : steady n (λ _, read_bytes).
Proof. unfold read_bytes. steadies. Qed.
Lemma steady_string n : steady n (λ _, read_string).
Proof. unfold read_string. pose proof (steady_bytes n). steadies. Qed.
Lemma steady_schema_form n : steady n (λ _, read_schema_form).
Proof. unfold read_schema_form. pose proof (steady_string n). steadies. Qed.
Lemma steady_properties n aware : steady n (λ _, read_properties aware).
Proof.
  unfold read_properties. pose proof (steady_boolean n). pose proof (steady_schema_form n). steadies.
Qed.

Lemma steady_metadata_tag n m tag : steady n m → steady n (λ fuel, read_metadata_tag (m fuel) tag).
Proof.
  intros Hm. unfold read_metadata_tag. pose proof (steady_boolean n). pose proof (steady_string n).
  pose proof (steady_be n 8). unfold read_i64, read_u64. steadies.
Qed.

Lemma steady_metadata_value n : steady n read_metadata_value.
Proof.
  apply (steady_rec _ (λ fuel tag, read_metadata_tag (read_metadata_value fuel) tag)); [done| |].
  - by intros r v.
  - intros k Hk tag. by apply steady_metadata_tag.
Qed.

Lemma steady_field n m aware : steady n m → steady n (λ fuel, read_field (m fuel) aware).
Proof.
  intros Hm. unfold read_field. pose proof (steady_schema_form n). pose proof (steady_properties n aware).
  steadies.
Qed.
Lemma steady_arity n m : steady n m → steady n (λ fuel, read_arity (m fuel)).
Proof. intros Hm. unfold read_arity. pose proof (steady_boolean n). steadies. Qed.

Lemma steady_schema_tag n m tag : steady n m → steady n (λ fuel, read_schema_tag (m fuel) tag).
Proof.
  intros Hm. unfold read_schema_tag, read_schema_forms. pose proof (steady_boolean n).
  pose proof (steady_string n). pose proof (steady_schema_form n).
  pose proof (λ aware, steady_field n m aware Hm) as Hf. pose proof (steady_arity n m Hm).
  steadies; apply Hf.
Qed.

Lemma steady_schema_type n : steady n read_schema_type.
Proof.
  apply (steady_rec _ (λ fuel tag, read_schema_tag (read_schema_type fuel) tag)); [done| |].
  - by intros r v.
  - intros k Hk tag. by apply steady_schema_tag.
Qed.

Lemma steady_u16 n : steady n (λ _, read_u16).
Proof. apply steady_be. Qed.
Lemma steady_option_string n : steady n (λ _, read_option_string).
Proof. unfold read_option_string. pose proof (steady_boolean n). pose proof (steady_string n). steadies. Qed.
Lemma steady_option_u16 n : steady n (λ _, read_option_u16).
Proof. unfold read_option_u16. pose proof (steady_boolean n). pose proof (steady_u16 n). steadies. Qed.
Lemma steady_option_u32 n : steady n (λ _, read_option_u32).
Proof. unfold read_option_u32. pose proof (steady_boolean n). steadies. Qed.
Lemma steady_instruction n : steady n (λ _, read_instruction).
Proof.
  unfold read_instruction, read_operands, operands, operand, definition_operands, retired.
  pose proof (steady_u16 n). pose proof (steady_option_u16 n). steadies.
Qed.
Lemma steady_source_map n : steady n (λ _, read_source_map).
Proof. unfold read_source_map, read_position. pose proof (steady_boolean n). steadies. Qed.
Lemma steady_handler n : steady n (λ _, read_handler).
Proof.
  unfold read_handler, read_catch. pose proof (steady_u16 n). pose proof (steady_string n).
  pose proof (steady_option_u16 n). pose proof (steady_option_u32 n). steadies.
Qed.
Lemma steady_function n version : steady n (λ _, read_function version).
Proof.
  unfold read_function. pose proof (steady_u16 n). pose proof (steady_option_string n).
  pose proof (steady_boolean n). pose proof (steady_instruction n). pose proof (steady_source_map n).
  pose proof (steady_handler n). steadies.
Qed.
Lemma steady_constant n : steady n (λ _, read_constant).
Proof. unfold read_constant. pose proof (steady_bytes n). steadies. Qed.
Lemma steady_metadata n : steady n read_metadata.
Proof. unfold read_metadata. pose proof (steady_metadata_value n). steadies. Qed.
Lemma steady_schema_map n : steady n read_schema_map.
Proof.
  unfold read_schema_map. pose proof (steady_string n). pose proof (steady_schema_type n). steadies.
Qed.
Lemma steady_finish n : steady n (λ _, finish).
Proof. apply steady_const. intros r v r'. unfold finish. case_match; [|done]. by intros [= _ <-]. Qed.

Lemma steady_program n : steady n read_program.
Proof.
  unfold read_program, read_program_fields. pose proof (steady_u16 n).
  pose proof (steady_option_string n). pose proof (steady_constant n). pose proof (steady_metadata n).
  pose proof (steady_schema_map n). pose proof (steady_function n 5). pose proof (steady_finish n).
  steadies.
Qed.

(** The decoder's fuel is never exhausted: any larger amount gives the
    same answer, for every payload. *)
Theorem decode_fuel_adequate payload fuel :
  decode_fuel payload ≤ fuel →
  read_program fuel (reader_new payload) = read_program (decode_fuel payload) (reader_new payload).
Proof.
  intros Hfuel. destruct (steady_program (S fuel) (reader_new payload) fuel) as [H _]; [lia|].
  unfold decode_fuel, reader_new, remaining in *. cbn [bytes cursor] in *. apply H; lia.
Qed.
End fuel.

(** ** An unreadable artifact *)
Section unreadable.
Context {env : ArtifactEnv} {laws : ArtifactLaws} {value_forms : ValueForms}.

(** A Var whose metadata has the keyword [Keyword::create(None, "")]. *)
Definition keyworded : Program :=
  mkProgram None [] [[(MKeyword (mkName None "" ""), MNil)]] ∅ ∅ ∅
    [mkFunction None false 0 false 0 0 1 [Nil; Return] [None; None] []] 0.

Definition keyworded_payload : list byte :=
  Eval vm_compute in wbytes (write_program (env := Build_ArtifactEnv (λ _, []) (λ _, "") (λ _, None)
    (λ _, "") (λ _, Err "") (λ _, Err "") (λ _, Err "")) keyworded (mkWriter [])).2.

(** The encoder accepts a program whose artifact the decoder cannot read:
    [Keyword::create] does not validate, so metadata can hold a keyword with an
    empty name; its artifact decodes to a panic, not to an error. *)
Theorem encoded_keyword_panics :
  keyword_create None "" = Ok (mkName None "" "") ∧
  ∃ artifact, encode_program keyworded = Ok artifact ∧
    decode_program artifact = Err (Panicked "valid keyword: Keyword name cannot be empty.").
Proof.
  split; [reflexivity|].
  exists (MAGIC ++ to_be_bytes 4 (N.of_nat (length keyworded_payload)) ++ keyworded_payload ++
          sha256 keyworded_payload).
  split.
  - assert (check_program keyworded = Ok tt) as Hc by (vm_compute; reflexivity).
    assert (write_program keyworded (mkWriter []) = (Ok tt, mkWriter keyworded_payload)) as Hw
      by (vm_compute; reflexivity).
    unfold encode_program. rewrite Hc. cbn [mbind result_bind]. rewrite Hw. reflexivity.
  - rewrite decode_framed by (vm_compute; discriminate).
    assert ((read_program (decode_fuel keyworded_payload) (reader_new keyworded_payload)).1 =
      Err (Panicked "valid keyword: Keyword name cannot be empty.")) as ->
      by (vm_compute; reflexivity). done.
Qed.
End unreadable.

(** ** A concrete environment

    A checksum for the hash, decimal text for big integers, a small text format
    for forms and a tagged value format. *)
Module Demo.
Definition checksum (l : list byte) : list byte :=
  replicate 28 x00 ++ to_be_bytes 4 (foldl (λ acc b, acc * 31 + Byte.to_N b)%N 7%N l).
Definition keyword_text (f : Form) : string :=
  match f with FKeyword name => ":" +:+ name | _ => "nil" end.
Definition parse_text (s : string) : result string Form :=
  match s with
  | String c name => if decide (c = ":"%char) then Ok (FKeyword name) else Ok FNil
  | EmptyString => Err "empty"
  end.
Definition encode_value (v : Value) : result string (list byte) :=
  match v with
  | VNumber z => Ok (x00 :: to_be_bytes 8 (i64_as_u64 z))
  | VString s => Ok (x01 :: String.list_byte_of_string s)
  | _ => Err "not portable"
  end.
Definition decode_value (l : list byte) : result string Value :=
  match l with
  | x00 :: l => Ok (VNumber (u64_as_i64 (from_be_bytes l)))
  | x01 :: l => Ok (VString (String.string_of_list_byte l))
  | _ => Err "not canonical"
  end.

#[local] Instance env : ArtifactEnv := {
  sha256 := checksum;
  bigint_text z := DecimalString.NilZero.string_of_int (Z.to_int z);
  bigint_parse l := Z.of_int <$> DecimalString.NilZero.int_of_string (String.string_of_list_byte l);
  form_text := keyword_text;
  form_parse := parse_text;
  hta_encode := encode_value;
  hta_decode_canonical := decode_value;
}.
#[local] Instance forms : ValueForms := λ _, Err "no form".

Lemma digits_ascii d : rust_string (DecimalString.NilEmpty.string_of_uint d).
Proof. induction d; try done; exact IHd. Qed.
Lemma number_ascii d : rust_string (DecimalString.NilZero.string_of_uint d).
Proof. destruct d; [done|exact (digits_ascii (Decimal.D0 d))..]. Qed.

Lemma to_int_digits z : Z.to_int z ≠ Decimal.Pos Decimal.Nil ∧ Z.to_int z ≠ Decimal.Neg Decimal.Nil.
Proof.
  destruct z as [|p|p]; cbn; split;
    try done; intros [= Hp]; by apply (DecimalPos.Unsigned.to_uint_nonnil p).
Qed.

#[local] Instance laws : ArtifactLaws.
Proof.
  split.
  - intros l. unfold sha256, env, checksum. by rewrite length_app, length_to_be_bytes.
  - intros z. unfold bigint_text, env, DecimalString.NilZero.string_of_int.
    destruct (Z.to_int z); [apply number_ascii|]. exact (number_ascii d).
  - intros z. unfold bigint_parse, bigint_text, env. rewrite String.string_of_list_byte_of_string.
    destruct (to_int_digits z). rewrite DecimalString.NilZero.isi by done. cbn.
    by rewrite DecimalZ.of_to.
Qed.

(** A program with constants, metadata, schemas, source positions and a
    handler. *)
Definition program : Program :=
  mkProgram (Some "demo") [VNumber 20; VNumber 22; VString "+"]
    [[(MKeyword (mkName None "doc" "doc"), MString "adds"); (MKeyword (mkName None "big" "big"), MBigInteger 7)]]
    (<["demo/Label" := SetOf (Primitive "keyword")]>
      (<["demo/Row" := MapOf [mkSchemaField (FKeyword "id") None (Primitive "int");
                              mkSchemaField (FKeyword "tag") (Some (FKeyword "required")) (Reference "demo/Label")]]> ∅))
    (<["demo/add" := Function_ [mkFunctionSchema [Primitive "int"; Primitive "int"] None (Primitive "int")]]> ∅) ∅
    [mkFunction None false 0 false 0 1 2 [Constant 0; Constant 1; CallStatic 1 2; Return; LoadLocal 0; Return]
       [Some (mkPosition 0 1 1); Some (mkPosition 3 1 4); None; None; None; None]
       [mkTryEntry 0 3 0 [mkCatchEntry "Error" 0 4] None None None];
     mkFunction (Some "add") false 2 false 0 2 2 [LoadLocal 0; LoadLocal 1; IntrinsicCall 2 2; Return]
       [None; None; None; None] []] 0.

Definition artifact : list byte :=
  match encode_program program with Ok artifact => artifact | Err _ => [] end.

Lemma portable_lists : Forall form_reads_back [FKeyword "id"; FKeyword "tag"; FKeyword "required"].
Proof. repeat constructor. Qed.

Lemma program_is_portable : program_portable program.
Proof.
  constructor; cbn [program entry namespace constants var_metadata schema_types function_types
    inferred_function_types functions].
  - done.
  - vm_compute. reflexivity.
  - repeat constructor; intros l [= <-]; reflexivity.
  - repeat constructor; vm_compute; reflexivity.
  - intros name t [[<- <-]|[_ [[<- <-]|[_ Ht]]%lookup_insert_Some]]%lookup_insert_Some.
    + split; [vm_compute; reflexivity|]. split; repeat constructor.
    + split; [vm_compute; reflexivity|]. split; [repeat constructor|exact portable_lists].
    + by rewrite lookup_empty in Ht.
  - intros name t [[<- <-]|[_ Ht]]%lookup_insert_Some; [|by rewrite lookup_empty in Ht].
    split; [vm_compute; reflexivity|]. split; repeat constructor.
  - intros name t Ht. by rewrite lookup_empty in Ht.
  - repeat constructor; vm_compute; reflexivity.
Qed.
End Demo.

Lemma program_roundtrip_witness :
  encode_program (env := Demo.env) (value_forms := Demo.forms) Demo.program = Ok Demo.artifact ∧
  decode_program (env := Demo.env) (value_forms := Demo.forms) Demo.artifact =
    Ok (program_normal Demo.program).
Proof.
  assert (encode_program (env := Demo.env) (value_forms := Demo.forms) Demo.program = Ok Demo.artifact)
    as He by (vm_compute; reflexivity).
  split; [exact He|].
  apply (program_roundtrip (env := Demo.env) (laws := Demo.laws) (value_forms := Demo.forms));
    [exact Demo.program_is_portable|exact He].
Defined.

Lemma decode_authentic_witness :
  ∃ payload, Demo.artifact = MAGIC ++ to_be_bytes 4 (N.of_nat (length payload)) ++ payload ++ Demo.checksum payload.
Proof.
  destruct (decode_authentic (env := Demo.env) (value_forms := Demo.forms) Demo.artifact
    (program_normal Demo.program)) as (payload & Hp & _); [vm_compute; reflexivity|].
  exists payload. exact Hp.
Defined.

Lemma decode_fuel_adequate_witness :
  let payload := take 40 (drop 8 Demo.artifact) in
  read_program (env := Demo.env) 1000 (reader_new payload) =
  read_program (env := Demo.env) (decode_fuel payload) (reader_new payload).
Proof. apply (decode_fuel_adequate (env := Demo.env)). vm_compute. lia. Defined.

(** The keyworded program's artifact, in the concrete environment. *)
Definition keyworded_artifact : list byte :=
  match encode_program (env := Demo.env) (value_forms := Demo.forms) keyworded with
  | Ok artifact => artifact
  | Err _ => []
  end.

Lemma decode_panics_only_on_keywords_witness :
  decode_program (env := Demo.env) (value_forms := Demo.forms) keyworded_artifact =
    Err (Panicked "valid keyword: Keyword name cannot be empty.") ∧
  keyword_panic "valid keyword: Keyword name cannot be empty.".
Proof.
  split; [vm_compute; reflexivity|].
  apply (decode_panics_only_on_keywords (env := Demo.env) (value_forms := Demo.forms) keyworded_artifact).
  vm_compute. reflexivity.
Defined.

Lemma encoded_keyword_panics_witness :
  ∃ artifact, encode_program (env := Demo.env) (value_forms := Demo.forms) keyworded = Ok artifact ∧
    decode_program (env := Demo.env) (value_forms := Demo.forms) artifact =
      Err (Panicked "valid keyword: Keyword name cannot be empty.").
Proof.
  destruct (encoded_keyword_panics (env := Demo.env) (laws := Demo.laws) (value_forms := Demo.forms))
    as [_ H]. exact H.
Defined.
