(* ===== verification/Bundle.v ===== *)
(** * Bytecode bundles

    [src/core/rust/src/vm/bundle.rs] and [vm/bundle/order.rs]: the checksummed
    container of compiled modules and the two orders it rests on - the
    depth-first order in which sources are compiled and the canonical order in
    which modules are written. A [BTreeMap] is a finite map iterated in the order
    of its keys; a [HashMap] that is only looked up is a finite map. *)
From Stdlib Require Import Strings.Byte.
From S2P Require Import Prelude Bytes Opcode Kernel Program Validate Artifact.

Definition BUNDLE_MAGIC : list byte := String.list_byte_of_string "HBX0".

Record BytecodeBundleModule := mkModule {
  resource : string;
  namespace_form : string;
  source_digest : list byte;
  dependencies : list string;
  eager : bool;
  artifact : list byte;
}.

Record ModuleSource := mkSource { source_resource : string; source : string }.

(** Reading a namespace form: [kernel::parse_forms] and
    [GeneratedNamespaceConfig], which give the required and the used
    namespaces. *)
Class NamespaceForms := declared_namespaces : string → result string (list string * list string).

(** ** Namespace forms and their dependencies *)

Definition BACKSLASH : Ascii.ascii := Ascii.ascii_of_nat 92.
Definition OPEN : Ascii.ascii := Ascii.ascii_of_nat 40.
Definition CLOSE : Ascii.ascii := Ascii.ascii_of_nat 41.
Definition QUOTE : Ascii.ascii := Ascii.ascii_of_nat 34.

(** The scan of [split_namespace_form] from its opening parenthesis: the offset
    behind the closing one. *)
Fixpoint scan_form (offset depth : nat) (in_string escape : bool) (s : string) : result string nat :=
  match s with
  | EmptyString => Err "unterminated ns form"
  | String ch s =>
      if in_string then
        if escape then scan_form (S offset) depth true false s
        else if Ascii.eqb ch BACKSLASH then scan_form (S offset) depth true true s
        else scan_form (S offset) depth (negb (Ascii.eqb ch QUOTE)) false s
      else if Ascii.eqb ch QUOTE then scan_form (S offset) depth true false s
      else if Ascii.eqb ch OPEN then scan_form (S offset) (S depth) false false s
      else if Ascii.eqb ch CLOSE then
        match depth with
        | O => Err "invalid ns form"
        | S O => Ok (S offset)
        | S depth => scan_form (S offset) depth false false s
        end
      else scan_form (S offset) depth false false s
  end.

Definition suffix (n : nat) (s : string) : string := String.substring n (String.length s - n) s.

Definition split_namespace_form (source : string) : result string (string * string) :=
  match String.index 0 "(ns " source with
  | None => Err "HAL module is missing ns form"
  | Some start =>
      len ← scan_form 0 0 false false (suffix start source);
      Ok (String.substring start len source, suffix (start + len) source)
  end.

#[export] Instance string_le_dec : RelDecision name_le.
Proof. intros a b. unfold name_le. apply _. Defined.

(** [sort] and [dedup] of a vector of strings. *)
Definition sort_names (l : list string) : list string := merge_sort name_le l.

Fixpoint dedup (l : list string) : list string :=
  match l with
  | x :: ((y :: _) as l) => if decide (x = y) then dedup l else x :: dedup l
  | l => l
  end.

(** Whether some neighbours are related: [windows(2).any(..)]. *)
Fixpoint any_pair (r : string → string → bool) (l : list string) : bool :=
  match l with
  | x :: ((y :: _) as l) => r x y || any_pair r l
  | _ => false
  end.

Section bundle.
Context `{NamespaceForms}.

Definition namespace_dependencies (namespace_form : string) : result string (list string) :=
  declared ← declared_namespaces namespace_form;
  Ok (dedup (sort_names (declared.1 ++ declared.2))).

Definition module_dependencies (source : string) : result string (list string) :=
  split ← split_namespace_form source;
  namespace_dependencies split.1.

(** ** The order of compilation *)
Section order.
Variables (resources : list string) (positions : gmap string nat) (dependencies : list (list string)).

(** The loop of [visit] over the dependencies of the module at [index]. *)
Fixpoint visit_each (visit : nat → list N * list nat → option (result string (list N * list nat)))
    (index : nat) (names : list string) (walk : list N * list nat) :
    option (result string (list N * list nat)) :=
  match names with
  | [] => Some (Ok (<[index := 2%N]> walk.1, walk.2 ++ [index]))
  | name :: names =>
      match positions !! name with
      | None => visit_each visit index names walk
      | Some dependency =>
          match visit dependency walk with
          | Some (Ok walk) => visit_each visit index names walk
          | r => r
          end
      end
  end.

(** [visit]: the states of the modules and the order so far; [None] is the end
    of the recursion's fuel. *)
Fixpoint visit (fuel : nat) (index : nat) (walk : list N * list nat) :
    option (result string (list N * list nat)) :=
  match fuel with
  | O => None
  | S fuel =>
      match walk.1 !! index with
      | Some 2%N => Some (Ok walk)
      | Some 1%N =>
          Some (Err ("eager namespace dependency cycle at " +:+ default EmptyString (resources !! index)))
      | _ =>
          visit_each (visit fuel) index (default [] (dependencies !! index))
            (<[index := 1%N]> walk.1, walk.2)
      end
  end.

Fixpoint visit_all (fuel : nat) (indices : list nat) (walk : list N * list nat) :
    option (result string (list N * list nat)) :=
  match indices with
  | [] => Some (Ok walk)
  | index :: indices =>
      match visit fuel index walk with
      | Some (Ok walk) => visit_all fuel indices walk
      | r => r
      end
  end.
End order.

(** The last position of each name: [collect] into a map. *)
Definition positions_of (names : list string) : gmap string nat :=
  foldl (λ m p, <[p.2 := p.1]> m) ∅ (imap pair names).

(** One unit of fuel per module, and one. *)
Definition order_module_sources (sources : list ModuleSource) : option (result string (list nat)) :=
  let names := source_resource <$> sources in
  match mapM (λ s, module_dependencies (source s)) sources with
  | Err e => Some (Err e)
  | Ok deps =>
      walk ← visit_all names (positions_of names) deps (S (length sources)) (seq 0 (length sources))
               (replicate (length sources) 0%N, []);
      Some (snd <$> (walk : result string (list N * list nat)))
  end.
End bundle.

(** ** The canonical order of modules *)
Definition invalid {A} (message : string) : result failure A := Err (Failed message).

(** The checks of the first loop of [canonical_modules], which fills the map. *)
Fixpoint collect_modules (by_resource : gmap string BytecodeBundleModule) (modules : list BytecodeBundleModule) :
    result failure (gmap string BytecodeBundleModule) :=
  match modules with
  | [] => Ok by_resource
  | m :: modules =>
      if is_some (by_resource !! resource m) then invalid ("duplicate HBX0 module: " +:+ resource m)
      else if any_pair (λ a b, bool_decide (a = b)) (sort_names (dependencies m)) then
        invalid (resource m +:+ ": duplicate HBX0 dependency")
      else collect_modules (<[resource m := m]> by_resource) modules
  end.

Definition ready (by_resource : gmap string BytecodeBundleModule) (m : BytecodeBundleModule) : bool :=
  forallb (λ dependency, negb (is_some (by_resource !! dependency))) (dependencies m).

(** The first module, by name, whose dependencies are all written. *)
Definition available (by_resource : gmap string BytecodeBundleModule) : option BytecodeBundleModule :=
  snd <$> list_find (λ m, ready by_resource m = true)
    (omap (λ name, by_resource !! name) (sort_names ((map_to_list by_resource).*1))).

Definition with_sorted_dependencies (m : BytecodeBundleModule) : BytecodeBundleModule :=
  mkModule (resource m) (namespace_form m) (source_digest m) (sort_names (dependencies m)) (eager m) (artifact m).

(** The loop runs once per module. *)
Fixpoint emit (fuel : nat) (by_resource : gmap string BytecodeBundleModule) :
    result failure (list BytecodeBundleModule) :=
  if decide (by_resource = ∅) then Ok []
  else
    match fuel with
    | O => invalid "out of fuel"
    | S fuel =>
        match available by_resource with
        | None => invalid "HBX0 module dependencies contain a cycle"
        | Some m =>
            rest ← emit fuel (delete (resource m) by_resource);
            Ok (with_sorted_dependencies m :: rest)
        end
    end.

Fixpoint check_modules (seen : gset string) (modules : list BytecodeBundleModule) : result failure () :=
  match modules with
  | [] => Ok tt
  | m :: modules =>
      if bool_decide (resource m = EmptyString) then invalid "HBX0 module resource must not be empty"
      else if bool_decide (namespace_form m = EmptyString) then
        invalid (resource m +:+ ": HBX0 namespace form must not be empty")
      else if bool_decide (resource m ∈ seen) then invalid ("duplicate HBX0 module: " +:+ resource m)
      else if any_pair (λ a b, negb (String.ltb a b)) (dependencies m) then
        invalid (resource m +:+ ": HBX0 dependencies must be unique and sorted")
      else check_modules ({[resource m]} ∪ seen) modules
  end.

Definition late (positions : gmap string nat) (index : nat) (dependency : string) : bool :=
  match positions !! dependency with Some position => index <=? position | None => false end.

Fixpoint check_order (positions : gmap string nat) (modules : list (nat * BytecodeBundleModule)) :
    result failure () :=
  match modules with
  | [] => Ok tt
  | (index, m) :: modules =>
      match list_find (λ d, late positions index d = true) (dependencies m) with
      | Some (_, dependency) =>
          invalid (resource m +:+ ": HBX0 dependency must appear first: " +:+ dependency)
      | None => check_order positions modules
      end
  end.

Definition validate_bundle_modules (modules : list BytecodeBundleModule) : result failure () :=
  check_modules ∅ modules;;
  check_order (positions_of (resource <$> modules)) (imap pair modules).

Definition canonical_modules (modules : list BytecodeBundleModule) : result failure (list BytecodeBundleModule) :=
  by_resource ← collect_modules ∅ modules;
  ordered ← emit (size by_resource) by_resource;
  validate_bundle_modules ordered;;
  Ok ordered.

(** ** The container

    Integers are little-endian; a reader consumes the front of its slice. *)
Definition put_u32 (value : nat) : result failure (list byte) :=
  if (N.of_nat value <=? U32_MAX)%N then Ok (reverse (to_be_bytes 4 (N.of_nat value)))
  else invalid "foundation bundle exceeds u32 limits".

Definition put_bytes (value : list byte) : result failure (list byte) :=
  len ← put_u32 (length value); Ok (len ++ value).

Definition put_string (value : string) : result failure (list byte) :=
  put_bytes (String.list_byte_of_string value).

Definition put_module (m : BytecodeBundleModule) : result failure (list byte) :=
  name ← put_string (resource m);
  form ← put_string (namespace_form m);
  count ← put_u32 (length (dependencies m));
  names ← mapM put_string (dependencies m);
  code ← put_bytes (artifact m);
  Ok (name ++ form ++ source_digest m ++ count ++ concat names ++ [if eager m then x01 else x00] ++ code).

Definition slice (A : Type) : Type := prog (list byte) failure A.

Definition take_slice (len : nat) : slice (list byte) := λ input,
  if length input <? len then (invalid "truncated HBX0 bytecode bundle", input)
  else (Ok (take len input), drop len input).

Definition take_u32 : slice nat :=
  bytes ← take_slice 4; mret (N.to_nat (from_be_bytes (reverse bytes))).

Definition take_bytes : slice (list byte) := len ← take_u32; take_slice len.

Definition take_string : slice string :=
  bytes ← take_bytes;
  if utf8_valid bytes then mret (String.string_of_list_byte bytes)
  else fail (Failed "foundation bundle contains invalid UTF-8").

Definition take_flag : slice bool :=
  byte ← take_slice 1;
  match byte with
  | [x00] => mret false
  | [x01] => mret true
  | _ => fail (Failed "HBX0 bytecode bundle contains invalid eager flag")
  end.

Definition take_module : slice BytecodeBundleModule :=
  name ← take_string;
  form ← take_string;
  digest ← take_slice 32;
  count ← take_u32;
  names ← times count take_string;
  flag ← take_flag;
  code ← take_bytes;
  mret (mkModule name form digest names flag code).

Section container.
Context {env : ArtifactEnv} {value_forms : ValueForms}.

Definition encode_bytecode_bundle (modules : list BytecodeBundleModule) : result failure (list byte) :=
  modules ← canonical_modules modules;
  count ← put_u32 (length modules);
  encoded ← mapM put_module modules;
  let payload := count ++ concat encoded in
  Ok (BUNDLE_MAGIC ++ sha256 payload ++ payload).

(** [decode_program] on every artifact, with the message of its error. *)
Fixpoint check_artifacts (modules : list BytecodeBundleModule) : result failure () :=
  match modules with
  | [] => Ok tt
  | m :: modules =>
      match decode_program (artifact m) with
      | Ok _ => check_artifacts modules
      | Err (Failed error) => invalid (resource m +:+ ": invalid HBC0 artifact: " +:+ error)
      | Err panic => Err panic
      end
  end.

Definition decode_bytecode_bundle (bytes : list byte) : result failure (list BytecodeBundleModule) :=
  if (length bytes <? 36) || negb (bool_decide (take 4 bytes = BUNDLE_MAGIC)) then
    invalid "invalid HBX0 bytecode bundle header"
  else
    let payload := drop 36 bytes in
    if negb (bool_decide (sha256 payload = take 32 (drop 4 bytes))) then
      invalid "HBX0 bytecode bundle checksum mismatch"
    else
      match (count ← take_u32; times count take_module) payload with
      | (Err e, _) => Err e
      | (Ok modules, input) =>
          if negb (bool_decide (input = [])) then invalid "trailing bytes in HBX0 bytecode bundle"
          else
            validate_bundle_modules modules;;
            check_artifacts modules;;
            Ok modules
      end.
End container.
