(* ===== verification/BundleFacts.v ===== *)
(** * Bundles: orders and round trips

    The depth-first order is dependency-first and fails exactly on cycles; the
    canonical order depends on nothing but the set of modules; what is encoded
    decodes to the canonical modules. *)
From Stdlib Require Import Strings.Byte Structures.OrderedTypeEx.
From S2P Require Import Prelude Bytes Opcode Kernel Program Validate Artifact Roundtrip Bundle.


Section order.
Context (resources : list string) (positions : gmap string nat) (dependencies : list (list string)).
Context (n : nat) (positions_bound : ∀ name j, positions !! name = Some j → j < n).
















End order.

Lemma foldl_positions l (m : gmap string nat) name j :
  foldl (λ m p, <[p.2 := p.1]> m) m l !! name = Some j → (j, name) ∈ l ∨ m !! name = Some j.
Proof.
  revert m. induction l as [|[i x] l IH]; intros m; cbn [foldl fst snd]; [by right|].
  intros [H|H]%IH; [left; by right|]. destruct (decide (x = name)) as [->|Hne].
  - rewrite lookup_insert_eq in H. injection H as ->. left. by left.
  - rewrite lookup_insert_ne in H by done. by right.
Qed.

Lemma positions_of_lookup names name j :
  positions_of names !! name = Some j → names !! j = Some name.
Proof.
  intros [H|H]%foldl_positions; [by apply elem_of_imap_pair|]. by rewrite lookup_empty in H.
Qed.

Lemma foldl_positions_in l (m : gmap string nat) name :
  name ∈ l.*2 ∨ is_Some (m !! name) → is_Some (foldl (λ m p, <[p.2 := p.1]> m) m l !! name).
Proof.
  revert m. induction l as [|[i x] l IH]; intros m; cbn [foldl fmap list_fmap fst snd].
  - by intros [?%elem_of_nil|?].
  - intros H. apply IH. destruct H as [[->|?]%elem_of_cons|H]; [right|by left|right].
    + rewrite lookup_insert_eq. by eexists.
    + destruct (decide (x = name)) as [->|Hne]; [rewrite lookup_insert_eq; by eexists|by rewrite lookup_insert_ne].
Qed.

Lemma positions_of_in names name : name ∈ names → is_Some (positions_of names !! name).
Proof. intros H. apply foldl_positions_in. left. by rewrite imap_pair_snd. Qed.

Section compile_order.
Context `{NamespaceForms}.



End compile_order.

(** ** The order of names *)
Lemma name_lt_spec a b : String.ltb a b = true ↔ String_as_OT.lt a b.
Proof.
  rewrite <-String_as_OT.cmp_lt. unfold String.ltb. change (String_as_OT.cmp a b) with (String.compare a b).
  by destruct (String.compare a b).
Qed.

Lemma name_le_spec a b : name_le a b ↔ a = b ∨ String.ltb a b = true.
Proof.
  unfold name_le, String.leb, String.ltb. destruct (String.compare a b) eqn:E.
  - split; [|done]. left. by apply String.compare_eq_iff.
  - split; auto.
  - split; [done|]. intros [->|?]; [|done]. pose proof (String.compare_antisym b b) as Hb. by rewrite E in Hb.
Qed.

Lemma name_lt_irrefl a : String.ltb a a = false.
Proof. apply not_true_is_false. intros H%name_lt_spec. by apply String_as_OT.lt_not_eq in H. Qed.

#[export] Instance name_lt_trans : Transitive (λ a b, String.ltb a b = true).
Proof. intros a b c H1%name_lt_spec H2%name_lt_spec. apply name_lt_spec. by eapply String_as_OT.lt_trans. Qed.

#[export] Instance name_le_trans : Transitive name_le.
Proof.
  intros a b c [->|H1]%name_le_spec; [done|]. intros [->|H2]%name_le_spec; apply name_le_spec; right; [done|].
  by apply (name_lt_trans _ b).
Qed.

#[export] Instance name_le_total : Total name_le.
Proof. intros a b. apply String.leb_total. Qed.

#[export] Instance name_le_antisym : AntiSymm eq name_le.
Proof. intros a b. apply String.leb_antisym. Qed.

Lemma sort_names_sorted l : StronglySorted name_le (sort_names l).
Proof. apply StronglySorted_merge_sort; apply _. Qed.

Lemma sort_names_perm l : sort_names l ≡ₚ l.
Proof. apply merge_sort_Permutation. Qed.

Lemma sort_names_id l : StronglySorted name_le l → sort_names l = l.
Proof. intros H. apply (StronglySorted_unique name_le); [apply sort_names_sorted|done|apply sort_names_perm]. Qed.

Lemma sort_names_twice l : sort_names (sort_names l) = sort_names l.
Proof. apply sort_names_id, sort_names_sorted. Qed.

Lemma any_pair_false r l : any_pair r l = false ↔ Sorted (λ a b, r a b = false) l.
Proof.
  induction l as [|x [|y l] IH]; [by split; [constructor|]|by split; [repeat constructor|]|].
  change (any_pair r (x :: y :: l)) with (orb (r x y) (any_pair r (y :: l))). rewrite orb_false_iff, IH. split.
  - intros [H1 H2]. constructor; [done|by constructor].
  - intros H. inversion_clear H as [|?? H1 H2]. split; [by inversion_clear H2|done].
Qed.

(** Sorted without repetitions. *)
Definition ascending (l : list string) : Prop := any_pair (λ a b, negb (String.ltb a b)) l = false.

Lemma ascending_sorted l : ascending l ↔ StronglySorted (λ a b, String.ltb a b = true) l.
Proof.
  unfold ascending. rewrite any_pair_false.
  assert (∀ a b, negb (String.ltb a b) = false ↔ String.ltb a b = true) as E by (intros; by rewrite negb_false_iff).
  split.
  - intros H. apply Sorted_StronglySorted; [apply _|]. induction H as [|x l _ IH Hx]; constructor; [done|].
    destruct Hx; constructor. by apply E.
  - intros H%StronglySorted_Sorted. induction H as [|x l _ IH Hx]; constructor; [done|].
    destruct Hx; constructor. by apply E.
Qed.

Lemma ascending_spec l : ascending l ↔ StronglySorted name_le l ∧ NoDup l.
Proof.
  rewrite ascending_sorted. induction l as [|x l IH].
  { split; [split; constructor|constructor]. }
  split.
  - intros [Hl Hx]%StronglySorted_inv. apply IH in Hl as [Hs Hd]. split; constructor; try done.
    + eapply Forall_impl; [exact Hx|]. intros y Hy. apply name_le_spec. by right.
    + intros Hin. eapply Forall_forall in Hx; [|exact Hin]. cbn in Hx. by rewrite name_lt_irrefl in Hx.
  - intros [[Hs Hx]%StronglySorted_inv [Hn Hd]%NoDup_cons]. constructor; [by apply IH|].
    apply Forall_forall. intros y Hy. eapply Forall_forall in Hx; [|exact Hy].
    apply name_le_spec in Hx as [->|?]; done.
Qed.

Lemma sort_ascending l : ascending (sort_names l) ↔ NoDup l.
Proof.
  rewrite ascending_spec, (NoDup_Permutation_proper _ _ (sort_names_perm l)). split; [by intros []|].
  intros Hd. split; [apply sort_names_sorted|done].
Qed.

Lemma no_repetition l : any_pair (λ a b, bool_decide (a = b)) (sort_names l) = false ↔ NoDup l.
Proof.
  rewrite <-sort_ascending. unfold ascending. rewrite !any_pair_false. pose proof (sort_names_sorted l) as Hs.
  apply StronglySorted_Sorted in Hs. induction Hs as [|x k Hk IH Hx]; [by split; constructor|].
  split; intros H; inversion_clear H as [|?? H1 H2]; (constructor; [by apply IH|]);
    destruct Hx as [|y k Hxy]; constructor; inversion_clear H2 as [|?? H3].
  - apply negb_false_iff. apply bool_decide_eq_false in H3. by apply name_le_spec in Hxy as [?|?].
  - apply bool_decide_eq_false. intros ->. by rewrite name_lt_irrefl in H3.
Qed.

(** ** Valid orders of modules *)
Record valid_bundle (modules : list BytecodeBundleModule) : Prop := {
  v_names : NoDup (resource <$> modules);
  v_named : Forall (λ m, resource m ≠ EmptyString ∧ namespace_form m ≠ EmptyString) modules;
  v_dependencies : Forall (λ m, ascending (dependencies m)) modules;
  v_first l m r d : modules = l ++ m :: r → d ∈ dependencies m → d ∈ resource <$> modules → d ∈ resource <$> l;
}.

Lemma check_modules_ok seen modules :
  check_modules seen modules = Ok tt ↔
  NoDup (resource <$> modules) ∧ Forall (λ m, resource m ∉ seen) modules ∧
  Forall (λ m, resource m ≠ EmptyString ∧ namespace_form m ≠ EmptyString) modules ∧
  Forall (λ m, ascending (dependencies m)) modules.
Proof.
  revert seen. induction modules as [|m modules IH]; intros seen; cbn [check_modules].
  { split; [intros _; repeat apply conj; constructor|done]. }
  rewrite fmap_cons, NoDup_cons, !Forall_cons. unfold ascending at 1.
  repeat case_bool_decide; [split; [done|tauto]|split; [done|tauto]|split; [done|tauto]|].
  destruct (any_pair _ _); [split; [done|by intros (_ & _ & _ & ? & _)]|]. rewrite IH. split.
  - intros (Hd & Hs & Hn & Ha). rewrite Forall_forall in Hs. split_and!; try done.
    + intros (m' & E & Hin)%list_elem_of_fmap. specialize (Hs m' Hin). rewrite <-E in Hs. set_solver.
    + apply Forall_forall. intros m' Hin. specialize (Hs m' Hin). set_solver.
  - intros ((Hn & Hd) & (_ & Hs) & (_ & Hn') & (_ & Ha)). rewrite Forall_forall in Hs. split_and!; try done.
    apply Forall_forall. intros m' Hin. rewrite not_elem_of_union, not_elem_of_singleton. split; [|by apply Hs].
    intros E. apply Hn. rewrite <-E. by apply list_elem_of_fmap_2.
Qed.

Lemma check_order_ok positions modules :
  check_order positions modules = Ok tt ↔
  Forall (λ p, Forall (λ d, late positions p.1 d = false) (dependencies p.2)) modules.
Proof.
  induction modules as [|[i m] modules IH]; cbn [check_order]; [done|]. rewrite Forall_cons. cbn [fst snd].
  destruct (list_find _ _) as [[j d]|] eqn:Hf.
  - apply list_find_Some in Hf as (Hd & Hl & _). split; [done|]. intros [Ha _].
    eapply Forall_lookup_1 in Ha; [|exact Hd]. cbn in Ha. congruence.
  - apply list_find_None in Hf. rewrite IH. split; [|by intros []]. intros H. split; [|done].
    eapply Forall_impl; [exact Hf|]. cbn. intros d. apply not_true_is_false.
Qed.

Lemma late_spec names i d :
  NoDup names → late (positions_of names) i d = false ↔ (d ∈ names → d ∈ take i names).
Proof.
  intros Hd. unfold late. destruct (positions_of names !! d) as [p|] eqn:Hp.
  - apply positions_of_lookup in Hp. rewrite Nat.leb_gt. split.
    + intros Hlt _. apply list_elem_of_lookup. exists p. by rewrite lookup_take_lt.
    + intros H. destruct (list_elem_of_lookup_1 (take i names) d) as [q Hq].
      { apply H, list_elem_of_lookup. by exists p. }
      apply lookup_take_Some in Hq as [Hq Hlt]. by rewrite (NoDup_lookup _ _ _ _ Hd Hp Hq).
  - split; [|done]. intros _ Hin. apply positions_of_in in Hin as [? Hin]. congruence.
Qed.

Lemma validate_bundle_ok modules : validate_bundle_modules modules = Ok tt ↔ valid_bundle modules.
Proof.
  unfold validate_bundle_modules. rewrite result_bind_ok. setoid_rewrite check_order_ok. split.
  - intros ([] & (Hd & _ & Hn & Ha)%check_modules_ok & Ho). split; try done.
    intros l m r d E Hin Hd'. rewrite Forall_forall in Ho.
    assert ((length l, m) ∈ imap pair modules) as Hm.
    { apply elem_of_imap_pair. by rewrite E, list_lookup_middle. }
    apply Ho in Hm. cbn in Hm. eapply Forall_forall in Hm; [|exact Hin]. cbn in Hm.
    apply (late_spec _ _ _ Hd) in Hm; [|done]. by rewrite E, fmap_app, take_app_length' in Hm by (by rewrite length_fmap).
  - intros [Hd Hn Ha Hf]. exists tt. split.
    + apply check_modules_ok. split_and!; try done. apply Forall_forall. intros m _. set_solver.
    + apply Forall_forall. intros [i m] Hm%elem_of_imap_pair. cbn. apply Forall_forall. intros d Hin.
      apply late_spec; [done|]. intros Hd'. apply take_drop_middle in Hm.
      rewrite <-fmap_take. by eapply Hf.
Qed.

(** ** The canonical order *)
Lemma sort_names_proper l l' : l ≡ₚ l' → sort_names l = sort_names l'.
Proof.
  intros H. apply (StronglySorted_unique name_le); [apply sort_names_sorted..|].
  by rewrite !sort_names_perm.
Qed.

Abbreviation module_map := (gmap string BytecodeBundleModule).

Definition by_name (ms : list BytecodeBundleModule) : module_map := list_to_map ((λ m, (resource m, m)) <$> ms).

Lemma by_name_keys ms : ((λ m, (resource m, m)) <$> ms).*1 = resource <$> ms.
Proof. by rewrite <-list_fmap_compose. Qed.

Lemma by_name_lookup ms k m :
  NoDup (resource <$> ms) → by_name ms !! k = Some m ↔ m ∈ ms ∧ resource m = k.
Proof.
  intros Hd. unfold by_name. rewrite <-elem_of_list_to_map by (by rewrite by_name_keys).
  rewrite list_elem_of_fmap. split; [by intros (? & [= -> ->] & ?)|]. intros [? <-]. by exists m.
Qed.

Lemma by_name_perm ms ms' : NoDup (resource <$> ms) → ms ≡ₚ ms' → by_name ms = by_name ms'.
Proof.
  intros Hd Hp. apply list_to_map_proper; [by rewrite by_name_keys|]. by rewrite Hp.
Qed.

Definition distinct_modules (ms : list BytecodeBundleModule) : Prop :=
  NoDup (resource <$> ms) ∧ Forall (λ m, NoDup (dependencies m)) ms.

#[export] Instance distinct_modules_dec ms : Decision (distinct_modules ms).
Proof. unfold distinct_modules. apply _. Defined.

#[export] Instance distinct_modules_proper : Proper (Permutation ==> iff) distinct_modules.
Proof. intros ms ms' Hp. unfold distinct_modules. by rewrite Hp. Qed.

Lemma distinct_modules_cons m ms :
  distinct_modules (m :: ms) ↔
  (resource m ∉ resource <$> ms) ∧ NoDup (dependencies m) ∧ distinct_modules ms.
Proof. unfold distinct_modules. rewrite fmap_cons, NoDup_cons, Forall_cons. tauto. Qed.

(** None of [ms] is in [base]. *)
Definition fresh_in (base : module_map) (ms : list BytecodeBundleModule) : Prop :=
  Forall (λ m, base !! resource m = None) ms.

Lemma fresh_in_insert base m ms :
  fresh_in (<[resource m := m]> base) ms ↔ (resource m ∉ resource <$> ms) ∧ fresh_in base ms.
Proof.
  unfold fresh_in. rewrite !Forall_forall. setoid_rewrite lookup_insert_None. rewrite list_elem_of_fmap. naive_solver.
Qed.

Lemma collect_modules_spec base ms :
  match collect_modules base ms with
  | Ok M => distinct_modules ms ∧ fresh_in base ms ∧ M = by_name ms ∪ base
  | Err (Failed _) => ¬ (distinct_modules ms ∧ fresh_in base ms)
  | Err (Panicked _) => False
  end.
Proof.
  revert base. induction ms as [|m ms IH]; intros base; cbn [collect_modules].
  { split; [repeat constructor|]. split; [constructor|]. symmetry. apply (left_id_L ∅ (∪)). }
  destruct (base !! resource m) as [m'|] eqn:Hm; cbn [is_some invalid].
  { unfold fresh_in. rewrite Forall_cons, Hm. by intros (_ & ? & _). }
  destruct (any_pair _ _) eqn:Hp.
  { cbn [invalid]. rewrite distinct_modules_cons. intros [(_ & Hd%no_repetition & _) _]. congruence. }
  apply no_repetition in Hp. specialize (IH (<[resource m := m]> base)).
  destruct (collect_modules _ _) as [M|[]]; [| |done].
  - destruct IH as (Hd & [Hn Hb]%fresh_in_insert & ->). rewrite distinct_modules_cons. split_and!; try done.
    + by constructor.
    + unfold by_name. rewrite fmap_cons. cbn [list_to_map foldr uncurry fst snd].
      rewrite <-insert_union_l, insert_union_r; [done|]. apply not_elem_of_list_to_map_1. by rewrite by_name_keys.
  - rewrite distinct_modules_cons. intros [(Hn & _ & Hd) [_ Hb]%Forall_cons]. apply IH. split; [done|].
    by apply fresh_in_insert.
Qed.

(** Every key is the name of its module. *)
Definition keyed (M : module_map) : Prop := ∀ k m, M !! k = Some m → resource m = k.

Lemma keyed_delete M k : keyed M → keyed (delete k M).
Proof. intros H k' m [_ Hm]%lookup_delete_Some. by apply H. Qed.

Lemma keyed_by_name ms : NoDup (resource <$> ms) → keyed (by_name ms).
Proof. intros Hd k m [_ Hm]%by_name_lookup; done. Qed.

Lemma ready_spec (M : module_map) m : ready M m = true ↔ ∀ d, d ∈ dependencies m → M !! d = None.
Proof.
  unfold ready. rewrite forallb_Forall, Forall_forall. split; intros H d Hd; specialize (H d Hd); by destruct (M !! d).
Qed.

Lemma available_spec M :
  match available M with
  | Some m => ∃ k, M !! k = Some m ∧ ready M m = true
  | None => ∀ k m, M !! k = Some m → ready M m = false
  end.
Proof.
  unfold available. destruct (list_find _ _) as [[i m]|] eqn:Hf; cbn [fmap option_fmap option_map snd].
  - apply list_find_Some in Hf as (Hm & Hr & _). apply list_elem_of_lookup_2 in Hm.
    apply list_elem_of_omap in Hm as (k & _ & Hk). by exists k.
  - apply list_find_None in Hf. intros k m Hk. rewrite Forall_forall in Hf.
    apply not_true_is_false, Hf, list_elem_of_omap. exists k. split; [|done].
    rewrite sort_names_perm. apply list_elem_of_fmap. exists (k, m). split; [done|by apply elem_of_map_to_list].
Qed.

(** Every module of [M] waits for a module of [M]. *)
Definition stuck (M : module_map) : Prop :=
  M ≠ ∅ ∧ ∀ k m, M !! k = Some m → ∃ d, d ∈ dependencies m ∧ is_Some (M !! d).

Lemma emit_spec fuel M :
  size M ≤ fuel → keyed M →
  match emit fuel M with
  | Ok order => ∃ raw, order = with_sorted_dependencies <$> raw ∧ raw ≡ₚ (map_to_list M).*2 ∧
      ∀ l m r d, raw = l ++ m :: r → d ∈ dependencies m → is_Some (M !! d) → d ∈ resource <$> l
  | Err (Failed _) => ∃ S, S ⊆ M ∧ stuck S
  | Err (Panicked _) => False
  end.
Proof.
  revert M. induction fuel as [|fuel IH]; intros M Hs Hk; cbn [emit].
  { apply Nat.le_0_r, map_size_empty_inv in Hs as ->. exists []. by split_and!; [| |intros []]. }
  destruct (decide (M = ∅)) as [->|Hne]; [exists []; by split_and!; [| |intros []]|].
  pose proof (available_spec M) as Ha. destruct (available M) as [m|].
  - destruct Ha as (k & Hm & Hr). pose proof (Hk _ _ Hm) as Hkm. rewrite Hkm.
    specialize (IH (delete k M)). rewrite map_size_delete_Some in IH by (by eexists).
    specialize (IH ltac:(lia) (keyed_delete _ _ Hk)). cbn [mbind result_bind].
    destruct (emit fuel _) as [order|[]]; [|by destruct IH as (S & ? & ?); exists S; split; [etrans; [done|apply delete_subseteq]|]|done].
    destruct IH as (raw & -> & Hp & Hf). exists (m :: raw). split_and!; [done| |].
    + rewrite <-(insert_delete_id M k m Hm), map_to_list_insert by apply lookup_delete_eq.
      by rewrite fmap_cons, Hp.
    + intros l m' r d E Hd Hin. destruct l as [|m'' l]; [injection E as -> ->|injection E as -> ->].
      * eapply ready_spec in Hr; [|exact Hd]. rewrite Hr in Hin. by destruct Hin.
      * rewrite fmap_cons, elem_of_cons. destruct (decide (d = k)) as [->|Hdk]; [by left|right].
        eapply Hf; [done..|]. by rewrite lookup_delete_ne.
  - exists M. split; [done|]. split; [done|]. intros k m Hm. apply Ha in Hm.
    unfold ready in Hm. apply not_true_iff_false in Hm. rewrite forallb_Forall in Hm.
    apply not_Forall_Exists, Exists_exists in Hm as (d & Hd & Hin); [|apply _]. exists d. split; [done|].
    unfold compose in Hin. destruct (M !! d) as [m'|]; [by exists m'|done].
Qed.

(** *** Canonicity *)
Lemma with_sorted_resources (ms : list BytecodeBundleModule) :
  resource <$> (with_sorted_dependencies <$> ms) = resource <$> ms.
Proof. rewrite <-list_fmap_compose. by apply list_fmap_ext. Qed.

Lemma with_sorted_twice m : with_sorted_dependencies (with_sorted_dependencies m) = with_sorted_dependencies m.
Proof. unfold with_sorted_dependencies. cbn. by rewrite sort_names_twice. Qed.

Lemma with_sorted_ascending m : ascending (dependencies (with_sorted_dependencies m)) ↔ NoDup (dependencies m).
Proof. apply sort_ascending. Qed.

Lemma by_name_sorted ms : by_name (with_sorted_dependencies <$> ms) = with_sorted_dependencies <$> by_name ms.
Proof.
  unfold by_name. rewrite <-list_to_map_fmap, <-!list_fmap_compose. f_equal.
Qed.

Lemma ready_sorted M m :
  ready (with_sorted_dependencies <$> M) (with_sorted_dependencies m) = ready M m.
Proof.
  apply Bool.eq_iff_eq_true. rewrite !ready_spec. cbn [with_sorted_dependencies dependencies].
  setoid_rewrite lookup_fmap. setoid_rewrite fmap_None. by setoid_rewrite sort_names_perm.
Qed.

Lemma available_sorted M :
  available (with_sorted_dependencies <$> M) = with_sorted_dependencies <$> available M.
Proof.
  unfold available. rewrite (sort_names_proper (map_to_list (with_sorted_dependencies <$> M)).*1 (map_to_list M).*1).
  2: { by rewrite map_to_list_fmap, <-list_fmap_compose. }
  assert (∀ ks, omap (λ k, (with_sorted_dependencies <$> M) !! k) ks =
    with_sorted_dependencies <$> omap (λ k, M !! k) ks) as ->.
  { induction ks as [|k ks IH]; [done|]. cbn [omap list_omap]. rewrite lookup_fmap.
    destruct (M !! k); cbn [fmap option_fmap option_map list_fmap]; by rewrite IH. }
  rewrite list_find_fmap, (list_find_ext _ (λ m, ready M m = true)).
  - by destruct (list_find _ _) as [[]|].
  - intros m. unfold compose. by rewrite ready_sorted.
Qed.

Lemma emit_sorted fuel M : emit fuel (with_sorted_dependencies <$> M) = emit fuel M.
Proof.
  revert M. induction fuel as [|fuel IH]; intros M; cbn [emit].
  - apply decide_ext, fmap_empty_iff.
  - rewrite available_sorted. destruct (decide (M = ∅)) as [->|Hne].
    + by rewrite decide_True by apply fmap_empty.
    + rewrite decide_False by (by rewrite fmap_empty_iff). destruct (available M) as [m|]; cbn [fmap option_fmap option_map]; [|done].
      cbn [resource with_sorted_dependencies]. rewrite <-fmap_delete, IH.
      by rewrite with_sorted_twice.
Qed.

(** What [canonical_modules] computes before its last check. *)
Definition ordered_modules (ms : list BytecodeBundleModule) : result failure (list BytecodeBundleModule) :=
  emit (length ms) (by_name ms).

Lemma by_name_values ms : NoDup (resource <$> ms) → (map_to_list (by_name ms)).*2 ≡ₚ ms.
Proof.
  intros Hd. unfold by_name. rewrite map_to_list_to_map by (by rewrite by_name_keys).
  rewrite <-list_fmap_compose. by rewrite (list_fmap_ext _ id), list_fmap_id.
Qed.

Lemma size_by_name ms : NoDup (resource <$> ms) → size (by_name ms) = length ms.
Proof. intros Hd. by rewrite <-length_map_to_list, <-(length_fmap snd), by_name_values. Qed.

Lemma by_name_has ms d : is_Some (by_name ms !! d) ↔ d ∈ resource <$> ms.
Proof.
  unfold by_name. rewrite <-by_name_keys, <-not_eq_None_Some, <-not_elem_of_list_to_map. split; [|tauto].
  apply dec_stable.
Qed.

Lemma NoDup_fmap_inj {A B} (f : A → B) l x y : NoDup (f <$> l) → x ∈ l → y ∈ l → f x = f y → x = y.
Proof.
  intros Hd [i Hi]%list_elem_of_lookup [j Hj]%list_elem_of_lookup E.
  assert (i = j) as ->; [|congruence].
  eapply (NoDup_lookup (f <$> l)); [done|by rewrite list_lookup_fmap, Hi|by rewrite list_lookup_fmap, Hj, E].
Qed.

(** The checks and the loop, for modules that are distinct. *)
Lemma canonical_distinct ms :
  distinct_modules ms →
  canonical_modules ms = (ordered ← ordered_modules ms; validate_bundle_modules ordered;; Ok ordered).
Proof.
  intros Hd. unfold canonical_modules. pose proof (collect_modules_spec ∅ ms) as Hc.
  destruct (collect_modules ∅ ms) as [M|[]]; [| |done].
  - destruct Hc as (_ & _ & ->). cbn [mbind result_bind]. rewrite (right_id_L ∅ (∪)), size_by_name by apply Hd. done.
  - destruct Hc. split; [done|]. apply Forall_forall. intros m _. apply lookup_empty.
Qed.

Lemma canonical_not_distinct ms : ¬ distinct_modules ms → ∃ s, canonical_modules ms = Err (Failed s).
Proof.
  intros Hd. unfold canonical_modules. pose proof (collect_modules_spec ∅ ms) as Hc.
  destruct (collect_modules ∅ ms) as [M|[s|]]; [tauto|by exists s|done].
Qed.

Lemma valid_sorted_distinct ms order :
  order ≡ₚ with_sorted_dependencies <$> ms → valid_bundle order → distinct_modules ms.
Proof.
  intros Hp [Hn _ Ha _]. split.
  - by rewrite Hp, with_sorted_resources in Hn.
  - rewrite Hp, Forall_fmap in Ha. eapply Forall_impl; [exact Ha|]. intros m. apply with_sorted_ascending.
Qed.

(** No valid order has a stuck set of modules. *)
Lemma stuck_invalid ms order S :
  distinct_modules ms → order ≡ₚ with_sorted_dependencies <$> ms → S ⊆ by_name ms → stuck S → ¬ valid_bundle order.
Proof.
  intros Hd Hp HS [Hne Hst] [Hn _ _ Hf].
  assert (∀ l r, order = l ++ r → ∀ m, m ∈ l → S !! resource m = None) as H.
  { induction l as [|m l IH] using rev_ind; intros r E m' Hm'; [by apply elem_of_nil in Hm'|].
    apply elem_of_app in Hm' as [Hm'|Hm'%list_elem_of_singleton]; [eapply IH; [by rewrite E, <-app_assoc|done]|subst m'].
    destruct (S !! resource m) as [s|] eqn:Hs; [|done]. exfalso.
    destruct (Hst _ _ Hs) as (d & Hds & Hdin).
    pose proof (lookup_weaken _ _ _ _ Hs HS) as [Hin Hk]%by_name_lookup; [|apply Hd].
    assert (m = with_sorted_dependencies s) as ->.
    { apply (NoDup_fmap_inj resource order).
      - exact Hn.
      - rewrite E, !elem_of_app, list_elem_of_singleton. by left; right.
      - rewrite Hp. by apply list_elem_of_fmap_2.
      - symmetry. exact Hk. }
    assert (is_Some (by_name ms !! d)) as Hdm by (destruct Hdin as [s' Hs']; exists s'; by eapply lookup_weaken).
    apply by_name_has in Hdm. rewrite <-with_sorted_resources, <-Hp in Hdm.
    assert (d ∈ resource <$> l) as (m' & -> & Hm')%list_elem_of_fmap.
    { eapply (Hf l (with_sorted_dependencies s) r); [by rewrite E, <-app_assoc| |done]. cbn. by rewrite sort_names_perm. }
    rewrite (IH ([with_sorted_dependencies s] ++ r)) in Hdin; [by destruct Hdin|by rewrite E, <-app_assoc|done]. }
  apply map_choose in Hne as (k & s & Hs).
  pose proof (lookup_weaken _ _ _ _ Hs HS) as [Hin Hk]%by_name_lookup; [|apply Hd].
  specialize (H order [] (eq_sym (app_nil_r _)) (with_sorted_dependencies s)). cbn in H. rewrite Hk, Hs in H.
  discriminate H. rewrite Hp. by apply list_elem_of_fmap_2.
Qed.

(** The loop's result is in order. *)
Lemma ordered_modules_spec ms :
  distinct_modules ms →
  match ordered_modules ms with
  | Ok order =>
      order ≡ₚ with_sorted_dependencies <$> ms ∧
      ∀ l m r d, order = l ++ m :: r → d ∈ dependencies m → d ∈ resource <$> order → d ∈ resource <$> l
  | Err (Failed _) => ∃ S, S ⊆ by_name ms ∧ stuck S
  | Err (Panicked _) => False
  end.
Proof.
  intros Hd. pose proof (emit_spec (length ms) (by_name ms)) as H. unfold ordered_modules.
  rewrite size_by_name in H by apply Hd. specialize (H (le_n _) (keyed_by_name _ (proj1 Hd))).
  destruct (emit _ _) as [order|[]]; [|done..]. destruct H as (raw & -> & Hp & Hf).
  rewrite by_name_values in Hp by apply Hd. split; [by rewrite Hp|].
  intros l m r d (l' & t & -> & E & ->)%fmap_app_inv Hin Hdin. rewrite with_sorted_resources in *.
  symmetry in E. apply fmap_cons_inv in E as (m' & r' & -> & -> & ->).
  eapply (Hf l' m' r'); [done| |].
  - cbn in Hin. by rewrite sort_names_perm in Hin.
  - apply by_name_has. by rewrite <-Hp.
Qed.

Lemma ordered_valid ms order :
  distinct_modules ms → ordered_modules ms = Ok order →
  Forall (λ m, resource m ≠ EmptyString ∧ namespace_form m ≠ EmptyString) ms → valid_bundle order.
Proof.
  intros Hd Ho Hn. pose proof (ordered_modules_spec ms Hd) as H. rewrite Ho in H. destruct H as [Hp Hf]. split.
  - rewrite Hp, with_sorted_resources. apply Hd.
  - by rewrite Hp, Forall_fmap.
  - rewrite Hp, Forall_fmap. eapply Forall_impl; [apply Hd|]. intros m. apply with_sorted_ascending.
  - exact Hf.
Qed.

Lemma canonical_perm ms ms' : distinct_modules ms → ms ≡ₚ ms' → canonical_modules ms' = canonical_modules ms.
Proof.
  intros Hd Hp. rewrite !canonical_distinct by (by rewrite <-?Hp). unfold ordered_modules.
  by rewrite (Permutation_length Hp), (by_name_perm ms ms') by (done || apply Hd).
Qed.

Lemma distinct_sorted ms : distinct_modules ms → distinct_modules (with_sorted_dependencies <$> ms).
Proof.
  intros [Hn Hd]. split; [by rewrite with_sorted_resources|]. rewrite Forall_fmap.
  eapply Forall_impl; [exact Hd|]. intros m Hm. cbn. by rewrite sort_names_perm.
Qed.

Lemma canonical_sorted ms :
  distinct_modules ms → canonical_modules (with_sorted_dependencies <$> ms) = canonical_modules ms.
Proof.
  intros Hd. rewrite !canonical_distinct by (done || by apply distinct_sorted). unfold ordered_modules.
  by rewrite length_fmap, by_name_sorted, emit_sorted.
Qed.

Lemma canonical_ok ms order :
  canonical_modules ms = Ok order →
  distinct_modules ms ∧ order ≡ₚ with_sorted_dependencies <$> ms ∧ valid_bundle order.
Proof.
  intros H. destruct (decide (distinct_modules ms)) as [Hd|Hd].
  2: { apply canonical_not_distinct in Hd as [s E]. congruence. }
  split; [done|]. rewrite canonical_distinct in H by done. pose proof (ordered_modules_spec ms Hd) as Ho.
  apply result_bind_ok in H as (o & Ho' & ([] & Hv & [= ->])%result_bind_ok). rewrite Ho' in Ho.
  split; [apply Ho|by apply validate_bundle_ok].
Qed.

Lemma check_modules_failed seen ms e : check_modules seen ms = Err e → ∃ s, e = Failed s.
Proof.
  revert seen. induction ms as [|m ms IH]; intros seen; cbn [check_modules]; [done|].
  repeat case_match; try (intros [= <-]; by eexists). apply IH.
Qed.

Lemma check_order_failed positions ms e : check_order positions ms = Err e → ∃ s, e = Failed s.
Proof.
  induction ms as [|[i m] ms IH]; cbn [check_order]; [done|].
  destruct (list_find _ _) as [[]|]; [intros [= <-]; by eexists|done].
Qed.

Lemma validate_bundle_failed ms e : validate_bundle_modules ms = Err e → ∃ s, e = Failed s.
Proof.
  unfold validate_bundle_modules. destruct (check_modules _ _) as [[]|e'] eqn:Hc; cbn [mbind result_bind].
  - apply check_order_failed.
  - intros [= <-]. by apply check_modules_failed in Hc.
Qed.

(** The canonical order is a permutation of the modules in which every
    module follows those it depends on; it depends only on the set of modules,
    and ordering it again changes nothing. When [canonical_modules] reports an
    error no permutation of the modules is a valid bundle. *)
Theorem canonical_modules_correct ms :
  match canonical_modules ms with
  | Ok order =>
      order ≡ₚ with_sorted_dependencies <$> ms ∧ valid_bundle order ∧
      canonical_modules order = Ok order ∧
      ∀ ms', ms' ≡ₚ ms → canonical_modules ms' = Ok order
  | Err (Failed _) => ∀ order, order ≡ₚ with_sorted_dependencies <$> ms → ¬ valid_bundle order
  | Err (Panicked _) => False
  end.
Proof.
  destruct (canonical_modules ms) as [order|e] eqn:H.
  - pose proof (canonical_ok _ _ H) as (Hd & Hp & Hv). split_and!; try done.
    + rewrite <-H, <-(canonical_sorted ms Hd). apply canonical_perm; [by apply distinct_sorted|done].
    + intros ms' Hp'. rewrite <-H. by apply canonical_perm.
  - destruct (decide (distinct_modules ms)) as [Hd|Hd].
    2: { destruct (canonical_not_distinct _ Hd) as [s E]. assert (e = Failed s) as -> by congruence.
         intros order Hp Hv. by apply Hd, (valid_sorted_distinct _ order). }
    pose proof (ordered_modules_spec ms Hd) as Ho. rewrite canonical_distinct in H by done.
    destruct (ordered_modules ms) as [o|e'] eqn:Ho'; cbn [mbind result_bind] in H.
    + destruct (validate_bundle_modules o) as [[]|e'] eqn:Hv; [done|]. injection H as ->.
      destruct (validate_bundle_failed _ _ Hv) as [s ->]. intros order Hp Hvo.
      assert (validate_bundle_modules o = Ok tt); [|congruence]. apply validate_bundle_ok.
      apply (ordered_valid ms); [done..|]. destruct Hvo as [_ Hn _ _]. by rewrite Hp, Forall_fmap in Hn.
    + injection H as ->. destruct e as [s|]; [|done]. destruct Ho as (S & HS & Hst). intros order Hp.
      by apply (stuck_invalid ms order S).
Qed.
