(* ===== verification/Container.v ===== *)
(** * The bundle container

    Each reader of [Bundle] accepts exactly what its writer produces ([exact]),
    from which the round trip of a bundle and the authenticity of a decoded one
    follow. *)
From Stdlib Require Import Strings.Byte.
From S2P Require Import Prelude Bytes Opcode Kernel Program Validate Artifact Roundtrip Bundle BundleFacts.

(** Reading [v] off the front of a slice is having its encoding there. *)
Definition exact {A} (m : slice A) (w : A → result failure (list byte)) (typed : A → Prop) : Prop :=
  ∀ input v rest, m input = (Ok v, rest) ↔ typed v ∧ ∃ enc, w v = Ok enc ∧ input = enc ++ rest.

Lemma exact_take n : exact (take_slice n) Ok (λ l, length l = n).
Proof.
  intros input v rest. unfold take_slice. destruct (Nat.ltb_spec (length input) n) as [Hl|Hl].
  - split; [done|]. intros (Hn & enc & [= ->] & ->). rewrite length_app in Hl. lia.
  - split.
    + intros [= <- <-]. split; [by apply length_take_le|]. exists (take n input). by rewrite take_drop.
    + intros (<- & enc & [= ->] & ->). by rewrite take_app_length, drop_app_length.
Qed.

Lemma exact_bind {A B} (m : slice A) w typed (k : A → slice B) :
  exact m w typed → ∀ input y rest,
  (m ≫= k) input = (Ok y, rest) ↔
  ∃ v enc mid, typed v ∧ w v = Ok enc ∧ input = enc ++ mid ∧ k v mid = (Ok y, rest).
Proof.
  intros Hm input y rest. rewrite prog_bind_ok. split.
  - intros (v & mid & (Hv & enc & Hw & ->)%Hm & Hk). by exists v, enc, mid.
  - intros (v & enc & mid & Hv & Hw & -> & Hk). exists v, mid. split; [|done]. apply Hm. split; [done|by exists enc].
Qed.

Lemma exact_bytes_u32 l :
  length l = 4 → put_u32 (N.to_nat (from_be_bytes (reverse l))) = Ok l.
Proof.
  intros Hl. unfold put_u32. rewrite Nnat.N2Nat.id. pose proof (from_be_bytes_bound (reverse l)) as Hb.
  rewrite length_reverse, Hl in Hb. cbn in Hb.
  destruct (N.leb_spec (from_be_bytes (reverse l)) U32_MAX) as [_|Hg]; [|unfold U32_MAX in Hg; lia].
  rewrite <-Hl, <-(length_reverse l), to_from_be_bytes. by rewrite reverse_involutive.
Qed.

Lemma exact_u32 : exact take_u32 put_u32 (λ _, True).
Proof.
  intros input v rest. unfold take_u32. rewrite (exact_bind _ _ _ _ (exact_take 4)). split.
  - intros (l & ? & mid & Hl & [= <-] & -> & [= <- <-]). split; [done|]. exists l. split; [|done].
    by apply exact_bytes_u32.
  - intros (_ & enc & Hw & ->). unfold put_u32 in Hw.
    destruct (N.leb_spec (N.of_nat v) U32_MAX) as [Hv|]; [|done]. injection Hw as <-.
    eexists _, _, rest. split; [by rewrite length_reverse, length_to_be_bytes|]. split; [done|]. split; [done|].
    unfold mret, prog_ret. rewrite reverse_involutive, from_to_be_bytes, Nnat.Nat2N.id; [done|].
    unfold U32_MAX in Hv. change (256 ^ N.of_nat 4)%N with 4294967296%N. lia.
Qed.

Lemma exact_bytes : exact take_bytes put_bytes (λ _, True).
Proof.
  intros input v rest. unfold take_bytes, put_bytes. rewrite (exact_bind _ _ _ _ exact_u32). split.
  - intros (n & e & mid & _ & Hn & -> & (Hl & ? & [= <-] & ->)%exact_take). subst n. split; [done|].
    rewrite Hn. eexists. split; [done|]. by rewrite app_assoc.
  - intros (_ & enc & (e & Hn & [= <-])%result_bind_ok & ->). exists (length v), e, (v ++ rest).
    rewrite app_assoc. split_and!; try done. apply exact_take. split; [done|by exists v].
Qed.

Lemma exact_string : exact take_string put_string rust_string.
Proof.
  intros input v rest. unfold take_string, put_string, rust_string. rewrite (exact_bind _ _ _ _ exact_bytes). split.
  - intros (l & e & mid & _ & Hl & -> & Hs). destruct (utf8_valid l) eqn:Hu; [|done]. injection Hs as <- <-.
    rewrite String.list_byte_of_string_of_list_byte. split; [done|]. by exists e.
  - intros (Hu & e & Hl & ->). exists (String.list_byte_of_string v), e, rest.
    by rewrite Hu, String.string_of_list_byte_of_string.
Qed.

Definition put_flag (b : bool) : result failure (list byte) := Ok [if b then x01 else x00].

Lemma exact_flag : exact take_flag put_flag (λ _, True).
Proof.
  intros input v rest. unfold take_flag, put_flag. rewrite (exact_bind _ _ _ _ (exact_take 1)). split.
  - intros (l & ? & mid & Hl & [= <-] & -> & Hf). destruct l as [|b [|]]; [done| |done]. split; [done|].
    exists [b]. destruct b; try done; injection Hf as <- <-; done.
  - intros (_ & ? & [= <-] & ->). eexists _, _, rest. split_and!; [|done..|by destruct v]. done.
Qed.

Definition put_list {A} (w : A → result failure (list byte)) (l : list A) : result failure (list byte) :=
  es ← mapM w l; Ok (concat es).

Lemma exact_times {A} (m : slice A) w typed n :
  exact m w typed → exact (times n m) (put_list w) (λ l, length l = n ∧ Forall typed l).
Proof.
  intros Hm. unfold put_list. induction n as [|n IH]; intros input l rest; cbn [times].
  - split.
    + intros [= <- <-]. split; [by split; [|constructor]|]. by exists [].
    + by intros [[->%nil_length_inv _] (? & [= <-] & ->)].
  - rewrite (exact_bind _ _ _ _ Hm). split.
    + intros (v & e & mid & Hv & Hw & -> & (vs & es & mid' & (Hl & Hvs) & Hws & -> & [= <- <-])%(exact_bind _ _ _ _ IH)).
      apply result_bind_ok in Hws as (ess & Hws & [= <-]). split; [by split; [cbn; lia|constructor]|].
      exists (e ++ concat ess). cbn [mapM]. rewrite Hw. cbn [mbind result_bind]. rewrite Hws.
      by rewrite <-app_assoc.
    + intros [[Hl Hvs] (es & (ess & Hws & [= <-])%result_bind_ok & ->)]. destruct l as [|v l]; [done|].
      apply Forall_cons in Hvs as [Hv Hvs]. cbn [mapM] in Hws.
      apply result_bind_ok in Hws as (e & Hw & (ess' & Hws & [= <-])%result_bind_ok). cbn [concat].
      exists v, e, (concat ess' ++ rest). rewrite <-app_assoc. split_and!; try done.
      apply (exact_bind _ _ _ _ IH). exists l, (concat ess'), rest. split_and!; try done.
      * by injection Hl.
      * by rewrite Hws.
Qed.

(** What the types of a module's fields promise. *)
Definition typed_module (m : BytecodeBundleModule) : Prop :=
  rust_string (resource m) ∧ rust_string (namespace_form m) ∧ length (source_digest m) = 32 ∧
  Forall rust_string (dependencies m).

Lemma typed_sorted m : typed_module (with_sorted_dependencies m) ↔ typed_module m.
Proof. unfold typed_module. cbn. by rewrite sort_names_perm. Qed.

Lemma exact_module : exact take_module put_module typed_module.
Proof.
  intros input m rest. unfold take_module, put_module, typed_module. split.
  - intros (name & e1 & ? & Hname & H1 & -> & H)%(exact_bind _ _ _ _ exact_string).
    apply (exact_bind _ _ _ _ exact_string) in H as (form & e2 & ? & Hform & H2 & -> & H).
    apply (exact_bind _ _ _ _ (exact_take 32)) in H as (digest & ? & ? & Hdigest & [= <-] & -> & H).
    apply (exact_bind _ _ _ _ exact_u32) in H as (count & e4 & ? & _ & H4 & -> & H).
    apply (exact_bind _ _ _ _ (exact_times _ _ _ _ exact_string)) in H as (names & e5 & ? & [<- Hnames] & H5 & -> & H).
    apply (exact_bind _ _ _ _ exact_flag) in H as (flag & ? & ? & _ & [= <-] & -> & H).
    apply (exact_bind _ _ _ _ exact_bytes) in H as (code & e7 & ? & _ & H7 & -> & [= <- <-]). cbn.
    apply result_bind_ok in H5 as (es & H5 & [= <-]).
    split; [done|]. rewrite H1, H2, H4, H5, H7. cbn. eexists. split; [done|]. by rewrite <-!app_assoc.
  - intros ((Hname & Hform & Hdigest & Hnames) & enc & H & ->).
    apply result_bind_ok in H as (e1 & H1 & (e2 & H2 & (e4 & H4 & (es & H5 & (e7 & H7 & [= <-])%result_bind_ok)%result_bind_ok)%result_bind_ok)%result_bind_ok).
    rewrite <-!app_assoc. destruct m as [name form digest names flag code]. cbn in *.
    apply (exact_bind _ _ _ _ exact_string). eexists _, _, _. split_and!; [exact Hname|done..|].
    apply (exact_bind _ _ _ _ exact_string). eexists _, _, _. split_and!; [exact Hform|done..|].
    apply (exact_bind _ _ _ _ (exact_take 32)). eexists _, _, _. split_and!; [exact Hdigest|done..|].
    apply (exact_bind _ _ _ _ exact_u32). eexists _, _, _. split_and!; [done..|].
    apply (exact_bind _ _ _ _ (exact_times _ _ _ _ exact_string)).
    exists names, (concat es), ([if flag then x01 else x00] ++ e7 ++ rest).
    split_and!; [done|done|unfold put_list; by rewrite H5|done|].
    apply (exact_bind _ _ _ _ exact_flag). eexists flag, _, _. split_and!; [done..|].
    apply (exact_bind _ _ _ _ exact_bytes). by eexists _, _, _.
Qed.

(** ** The container *)
Definition put_payload (ms : list BytecodeBundleModule) : result failure (list byte) :=
  count ← put_u32 (length ms);
  encoded ← mapM put_module ms;
  Ok (count ++ concat encoded).

Lemma exact_payload : exact (count ← take_u32; times count take_module) put_payload (Forall typed_module).
Proof.
  intros input ms rest. unfold put_payload. rewrite (exact_bind _ _ _ _ exact_u32). split.
  - intros (n & e & mid & _ & Hn & -> & ([<- Hms] & ? & (es & Hes & [= <-])%result_bind_ok & ->)%(exact_times _ _ _ _ exact_module)).
    split; [done|]. rewrite Hn, Hes. eexists. split; [done|]. by rewrite <-app_assoc.
  - intros (Hms & ? & (e & Hn & (es & Hes & [= <-])%result_bind_ok)%result_bind_ok & ->).
    exists (length ms), e, (concat es ++ rest). rewrite <-app_assoc. split_and!; try done.
    apply (exact_times _ _ _ _ exact_module). split; [done|]. exists (concat es). unfold put_list. by rewrite Hes.
Qed.

Section container.
Context {env : ArtifactEnv} {laws : ArtifactLaws} {value_forms : ValueForms}.

Definition decodable (m : BytecodeBundleModule) : Prop := ∃ p, decode_program (artifact m) = Ok p.

Lemma check_artifacts_ok ms : check_artifacts ms = Ok tt ↔ Forall decodable ms.
Proof.
  induction ms as [|m ms IH]; cbn [check_artifacts]; [by split|]. rewrite Forall_cons. unfold decodable at 1.
  destruct (decode_program (artifact m)) as [p|[]]; [rewrite IH; naive_solver| |]; (split; [done|by intros [[] _]]).
Qed.

Lemma encode_bundle_ok ms bytes :
  encode_bytecode_bundle ms = Ok bytes ↔
  ∃ order payload, canonical_modules ms = Ok order ∧ put_payload order = Ok payload ∧
    bytes = BUNDLE_MAGIC ++ sha256 payload ++ payload.
Proof.
  unfold encode_bytecode_bundle, put_payload. split.
  - intros (order & Ho & (e & He & (es & Hes & [= <-])%result_bind_ok)%result_bind_ok)%result_bind_ok.
    exists order. rewrite He, Hes. by eexists.
  - intros (order & ? & -> & (e & He & (es & Hes & [= <-])%result_bind_ok)%result_bind_ok & ->).
    cbn [mbind result_bind]. by rewrite He, Hes.
Qed.

Lemma decode_bundle_ok bytes ms :
  decode_bytecode_bundle bytes = Ok ms ↔
  ∃ payload, bytes = BUNDLE_MAGIC ++ sha256 payload ++ payload ∧ put_payload ms = Ok payload ∧
    Forall typed_module ms ∧ valid_bundle ms ∧ Forall decodable ms.
Proof.
  unfold decode_bytecode_bundle. split.
  - destruct (Nat.ltb_spec (length bytes) 36) as [|Hl]; [done|]. cbn [orb].
    case_bool_decide as Hm; [|done]. cbn [negb]. case_bool_decide as Hh; [|done]. cbn [negb].
    destruct ((count ← take_u32; times count take_module) (drop 36 bytes)) as [[ms'|] input] eqn:Hp; [|done]. case_bool_decide as Hi; [subst input|done]. cbn [negb].
    intros ([] & Hv & ([] & Ha & [= ->])%result_bind_ok)%result_bind_ok.
    apply exact_payload in Hp as (Ht & enc & He & Hd). rewrite app_nil_r in Hd. exists enc. split_and!; try done.
    + rewrite <-Hm, <-Hd, Hh. change 36 with (4 + 32). by rewrite <-drop_drop, !take_drop.
    + by apply validate_bundle_ok.
    + by apply check_artifacts_ok.
  - intros (payload & -> & Hw & Ht & Hv%validate_bundle_ok & Ha%check_artifacts_ok).
    pose proof (sha256_length payload) as Hs. unfold DIGEST in Hs.
    assert (length (BUNDLE_MAGIC ++ sha256 payload ++ payload) = 36 + length payload) as ->
      by (rewrite !length_app, Hs; cbn; lia).
    assert (drop 4 (BUNDLE_MAGIC ++ sha256 payload ++ payload) = sha256 payload ++ payload) as Hd4 by done.
    assert (drop 36 (BUNDLE_MAGIC ++ sha256 payload ++ payload) = payload) as ->
      by (change 36 with (4 + 32); rewrite <-drop_drop, Hd4; by apply drop_app_length').
    rewrite Hd4, (take_app_length' _ _ 32) by (by symmetry || done). change (take 4 (BUNDLE_MAGIC ++ sha256 payload ++ payload)) with BUNDLE_MAGIC.
    rewrite (bool_decide_eq_true_2 (BUNDLE_MAGIC = _)) by done. change (36 + length payload <? 36) with false. cbn [negb orb].
    assert ((count ← take_u32; times count take_module) payload = (Ok ms, [])) as ->.
    { apply exact_payload. split; [done|]. exists payload. by rewrite app_nil_r. }
    rewrite (bool_decide_eq_true_2 (sha256 payload = _)) by done. cbn [negb]. rewrite Hv. cbn [mbind result_bind].
    by rewrite Ha.
Qed.
(** C38. Decoding accepts exactly the authentic bundles: the magic, the hash of
    the payload and a payload that is the encoding of typed modules, with
    nothing after it, whose names and order are valid and whose artifacts all
    decode. In particular it accepts one encoding per list of modules. *)
Theorem bundle_decode_exact bytes ms :
  decode_bytecode_bundle bytes = Ok ms ↔
  ∃ payload, bytes = BUNDLE_MAGIC ++ sha256 payload ++ payload ∧ put_payload ms = Ok payload ∧
    Forall typed_module ms ∧ valid_bundle ms ∧ Forall decodable ms.
Proof. apply decode_bundle_ok. Qed.

(** C37. A bundle reads back as the canonical modules when every artifact
    decodes, and only then; modules given in any order have the same bundle, and
    so do the modules read back. *)
Theorem bundle_roundtrip ms bytes :
  encode_bytecode_bundle ms = Ok bytes → Forall typed_module ms →
  ∃ order, canonical_modules ms = Ok order ∧ order ≡ₚ with_sorted_dependencies <$> ms ∧
    (decode_bytecode_bundle bytes = Ok order ↔ Forall decodable ms) ∧
    encode_bytecode_bundle order = Ok bytes ∧
    ∀ ms', ms' ≡ₚ ms → encode_bytecode_bundle ms' = Ok bytes.
Proof.
  intros (order & payload & Ho & Hw & ->)%encode_bundle_ok Ht.
  pose proof (canonical_ok _ _ Ho) as (Hd & Hp & Hv). exists order. split_and!; try done.
  - assert (Forall decodable order ↔ Forall decodable ms) as <- by (by rewrite Hp, Forall_fmap).
    split.
    + by intros (? & _ & _ & _ & _ & ?)%decode_bundle_ok.
    + intros Ha. apply decode_bundle_ok. exists payload. split_and!; try done.
      rewrite Hp, Forall_fmap. eapply Forall_impl; [exact Ht|]. intros m. apply typed_sorted.
  - apply encode_bundle_ok. exists order, payload. split_and!; [|done..].
    rewrite <-Ho, <-(canonical_sorted ms Hd). apply canonical_perm; [by apply distinct_sorted|done].
  - intros ms' Hp'. apply encode_bundle_ok. exists order, payload. split_and!; [|done..].
    rewrite <-Ho. by apply canonical_perm.
Qed.
End container.

(** ** A bundle of two modules *)
Module Example.
Definition digest : list byte := replicate 32 x00.
(** The artifact of [Roundtrip.Demo]. *)
Definition base : BytecodeBundleModule := mkModule "app.base" "(ns app.base)" digest [] true Demo.artifact.
Definition main : BytecodeBundleModule :=
  mkModule "app.main" "(ns app.main (:require app.lib app.base))" digest ["app.lib"; "app.base"] false Demo.artifact.
#[local] Existing Instances Demo.env Demo.forms.
Definition bundle : list byte :=
  Eval vm_compute in match encode_bytecode_bundle [main; base] with Ok bytes => bytes | Err _ => [] end.
Definition modules : list BytecodeBundleModule := [base; with_sorted_dependencies main].

Lemma typed : Forall typed_module [main; base].
Proof. repeat constructor; vm_compute; reflexivity. Qed.
End Example.

Lemma bundle_roundtrip_witness :
  encode_bytecode_bundle (env := Demo.env) [Example.main; Example.base] = Ok Example.bundle ∧
  ∃ order, canonical_modules [Example.main; Example.base] = Ok order.
Proof.
  assert (encode_bytecode_bundle (env := Demo.env) [Example.main; Example.base] =
    Ok Example.bundle) as He by (vm_compute; reflexivity).
  split; [exact He|].
  destruct (bundle_roundtrip (env := Demo.env) (laws := Demo.laws) (value_forms := Demo.forms) _ _ He Example.typed)
    as (order & Ho & _).
  by exists order.
Defined.

Lemma bundle_decode_exact_witness :
  ∃ payload, Example.bundle = BUNDLE_MAGIC ++ Demo.checksum payload ++ payload ∧ put_payload Example.modules = Ok payload.
Proof.
  destruct (proj1 (bundle_decode_exact (env := Demo.env) (laws := Demo.laws) (value_forms := Demo.forms)
    Example.bundle Example.modules)) as (payload & Hp & Hw & _); [vm_compute; reflexivity|].
  exists payload. split; [exact Hp|exact Hw].
Defined.
